(* ===== verification/_CoqProject ===== *)
-Q . S2P
Prelude.v
Common.v
CString.v
ShmRing.v
DList.v
Timer.v
Channel.v
Bytes.v
Ipc.v
HashMap.v
Config.v
Lexer.v
Arena.v
Slab.v
Malloc.v
MallocFrame.v
MallocInv.v
MallocSafe.v
MallocRun.v
MallocFacts.v
Parser.v
ParserRoundtrip.v
RbTree.v
RbBalance.v
Eval.v
EvalScopes.v
EvalExpr.v
MpmcRing.v
WsDeque.v
ThreadPool.v
PoolQueues.v
PoolSafe.v
Keyed.v
Links.v
Chains.v
Handler.v
HandlerSpec.v
HandlerRun.v
HandlerFacts.v
Event.v
EventSafe.v
EventRun.v
EventWake.v
EventSpec.v
DhcpOption.v
DhcpPacket.v
DhcpPool.v
DhcpPoolBits.v
DhcpPoolSpec.v
DhcpPoolRun.v
DhcpPoolFacts.v
DhcpLease.v
DhcpLeaseRep.v
DhcpLeaseSpec.v
DhcpLeaseRun.v
DhcpLeaseFacts.v
DhcpServer.v
DhcpServerReply.v
DhcpServerRun.v
DhcpServerFacts.v
Netlink.v
NetlinkFacts.v
Workqueue.v
WorkqueueSafe.v
WorkqueueFacts.v
DhcpRelay.v
DhcpRelayFacts.v
