(* ===== verification/Prelude.v ===== *)
(** * QDaemon: a verification development

    QDaemon is a framework for Linux daemons in C: memory allocators and containers at the
    bottom, concurrency primitives (channels, a work-stealing thread pool, an event loop
    with a timer wheel) on top of them, inter-process communication (a binary message
    protocol over unix sockets, a ring in shared memory, netlink messages), tables of message
    handlers, a configuration store, and a small interpreter of C expressions for the command
    line.  Its largest example is a DHCP server, built from options, address pools, a lease
    database and a handler table, with a relay agent beside it.  This library translates
    these parts to Rocq and proves what each of them promises.

    ** How the code is modelled

    - A C function is a function of the state it works on.  [outcome] is its result: [Ok],
      [Undef] for undefined behaviour (an access outside of an object, a use after free, a
      null dereference) and [Fuel] for a loop that outruns its fuel.  A theorem that says
      [Ok] therefore says that the code is free of undefined behaviour and terminates.
    - A machine integer is a [Z] with its wrap-around written out ([u32], [u64], [i32]).
    - Pointers are addresses in finite maps; what malloc, mmap, epoll, the clock or the
      scheduler answer are arguments of the definitions.
    - Concurrent code is a machine per thread, one step per access to shared memory (the
      model is sequentially consistent); a theorem about it is about every interleaving.
    - Callbacks are unknown code: they may make any call of the API.

    ** Files, sources, and what is proved

    - [Prelude], [Common] (include/qdaemon/qd_common.h), [CString] (string.h): machine
      integers, outcomes, byte memory; powers of two and alignment.
    - [Bytes], [Keyed], [Links], [Chains]: little-endian bytes and buffers; heaps seen as maps
      by a key; linked lists in a heap, for any record type, with walking and unlinking.
    - [ShmRing] (src/ipc/qd_ipc_shm.c): the ring in shared memory refines a bounded byte
      queue; waiting calls return by their timeout.
    - [DList] (src/util/qd_list.h), [RbTree] and [RbBalance] (src/util/qd_rbtree.h),
      [HashMap] (src/util/qd_hash.h): containers on memory.  Red-black insertion and erasure
      keep the balance and the order; the string map refines a finite map.
    - [Arena], [Slab] (src/core/qd_memory.c): allocations are disjoint and inside of their
      blocks; slabs and pools hand out each object once.
    - [Malloc], [MallocFrame], [MallocInv], [MallocSafe], [MallocRun], [MallocFacts]
      (src/core/qd_memory.c): qd_malloc and what is built on it, over the slab caches and
      malloc.  Memory is divided into disjoint parts; blocks in use never overlap, and calls
      change no byte of a block they are not asked about.
    - [Timer] (src/core/qd_timer.c): the hierarchical wheel visits the slot of a timer when
      it is due; starting and stopping keep the wheel well formed, and the first firing runs
      what is due.  Later ones run timers again ([Timer.oneshot_fires_again]).
    - [Channel] (src/core/qd_channel.c): under every interleaving a channel that does not
      overwrite delivers first in, first out, and loses nothing.
    - [MpmcRing], [WsDeque], [ThreadPool], [PoolQueues], [PoolSafe]
      (src/core/qd_threadpool.c): the lock-free ring and the work-stealing deque under every
      interleaving; the classes [Puts] and [Takes] state what the pool needs of a queue, and
      against them every accepted task is proved to be called once.  In the pool an operation
      on a queue is one step, which may refuse as if another thread were in the middle of one.
    - [Workqueue], [WorkqueueSafe], [WorkqueueFacts] (src/core/qd_workqueue.c): work that is
      submitted by clients, run by the pool and completed on the loop, under every
      interleaving: nothing runs or completes twice, completions carry the results of their
      work, and destruction leaves nothing behind.
    - [Event], [EventSafe], [EventRun], [EventWake], [EventSpec] (src/core/qd_event.c): the
      registry of sources, the dispatch of events and deferred work, for callbacks that keep
      to their own sources.  A poll with nothing ready and no timeout blocks; a stop from
      another thread ends it through the wakeup descriptor.
    - [Handler], [HandlerSpec], [HandlerRun], [HandlerFacts] (src/core/qd_handler.c): a table of
      hash chains refines a map from commands to handlers with its hooks and counters, when
      handlers leave the table alone.
    - [Ipc] (src/ipc/qd_ipc_protocol.c, qd_ipc_unix.c): messages survive serialization, and a
      connection on an edge-triggered descriptor dispatches the messages of its stream however
      the bytes are cut, all of them if no event brings more than the buffer holds.
    - [Netlink], [NetlinkFacts] (src/ipc/qd_netlink.c): attributes written into messages are read
      back as they were; receiving anything stays inside of the buffer.
    - [Config] (src/daemon/qd_config.c): parsing, printing, lookup and merging.
    - [Lexer], [Parser], [ParserRoundtrip], [Eval], [EvalScopes], [EvalExpr] (src/cint/): the
      lexer and parser read back what is printed; the evaluator computes the reference
      semantics of expressions and keeps its scopes.
    - [DhcpOption], [DhcpPacket] (examples/dhcp/src/dhcp_option.c, include/dhcp_protocol.h): the
      options of a packet, built, parsed, searched and stripped on bytes.
    - [DhcpPool], [DhcpPoolBits], [DhcpPoolSpec], [DhcpPoolRun], [DhcpPoolFacts] (dhcp_pool.c): the
      bitmap of addresses; the lowest free address is found, and without reservations none is
      handed out twice.
    - [DhcpLease], [DhcpLeaseRep], [DhcpLeaseSpec], [DhcpLeaseRun], [DhcpLeaseFacts]
      (dhcp_lease.c): the lease database on a heap refines a map from hardware addresses, with
      the state machine of a lease and expiration, as long as no lease is reclaimed.
    - [DhcpServer], [DhcpServerReply], [DhcpServerRun], [DhcpServerFacts] (dhcp_server.c): the five
      message handlers over pools, leases and replies, dispatched through a handler table.
      Every history of well formed packets with short host names is safe, and clients that keep to the protocol
      never hold the same address.
    - [DhcpRelay], [DhcpRelayFacts] (dhcp_relay.c): a request reaches every server with the
      identifiers of the relay in option 82, if it is long enough for them, and the reply
      reaches the client without them;
      the tables of servers and interfaces refine lists.

    Where the code does not do what it means to, a theorem shows it on a concrete run
    (for instance [MpmcRing.mpmc_one_cell_overwrites], [ThreadPool.graceful_shutdown_hangs],
    [EventSpec.removed_source_is_read], [WorkqueueFacts.delayed_never_completes],
    [Ipc.burst_waits], [NetlinkFacts.register_reads_dead],
    [DhcpServerFacts.request_after_release]).

    ** Bounds and fuel

    Fuel is the number of steps a loop can need on its data (the number of records of a
    list, the length of a text), so that running out of it would be an endless loop.  Runs of
    the concurrent models are bounded in length where a counter of the code could wrap
    around (2 to the 30 for the pool, 2 to the 31 items for the destruction of a work queue, far
    below the 64-bit counters elsewhere).

    ** Not modelled

    Pure input and output (src/daemon: logging, signals, daemonizing; src/cli; src/core/qd_fs.c
    and qd_rest.c), the asynchronous I/O backends, whose logic is in the kernel interfaces
    they call, the kernel modules, the client library, and the test programs.  Of the DHCP
    example: the messages between daemon and command line, the plugin core, storage on files,
    and the daemon itself.  The weak memory orders of the atomics are taken as sequentially
    consistent. *)

From Stdlib Require Export ZArith Lia Bool.
From stdpp Require Export base numbers strings gmap list.

Global Set Default Goal Selector "!".

(** ** Machine integers

    A [w]-bit C integer is a [Z] together with its wrap-around, written out. *)

Declare Scope qd_scope.
Delimit Scope qd_scope with qd.
#[global] Open Scope Z_scope.

Definition u8_mod : Z := 2 ^ 8.
Definition u16_mod : Z := 2 ^ 16.
Definition u32_mod : Z := 2 ^ 32.
Definition u64_mod : Z := 2 ^ 64.

(** Conversion to an unsigned type of width 8, 16, 32 or 64. *)
Definition u8 (z : Z) : Z := z mod u8_mod.
Definition u16 (z : Z) : Z := z mod u16_mod.
Definition u32 (z : Z) : Z := z mod u32_mod.
Definition u64 (z : Z) : Z := z mod u64_mod.

(** Conversion to a signed (two's complement) type of width [w]. *)
Definition signed (w z : Z) : Z := (z + 2 ^ (w - 1)) mod 2 ^ w - 2 ^ (w - 1).
Definition i32 (z : Z) : Z := signed 32 z.
Definition i64 (z : Z) : Z := signed 64 z.

Notation "a +64 b" := (u64 (a + b)) (at level 50, left associativity) : qd_scope.
Notation "a -64 b" := (u64 (a - b)) (at level 50, left associativity) : qd_scope.
Notation "a *64 b" := (u64 (a * b)) (at level 40, left associativity) : qd_scope.

Definition is_u64 (z : Z) : Prop := 0 <= z < u64_mod.
Definition is_u32 (z : Z) : Prop := 0 <= z < u32_mod.
Definition is_u8 (z : Z) : Prop := 0 <= z < u8_mod.

(** ** Outcomes of C code

    [Ok a]: the code returned [a].  [Undef]: it ran into undefined behaviour
    (an access out of the bounds of an object, a null dereference).
    [Fuel]: the model's fuel ended before the loop did. *)

Inductive outcome (A : Type) : Type :=
| Ok (a : A)
| Undef
| Fuel.
Arguments Ok {A} _.
Arguments Undef {A}.
Arguments Fuel {A}.

Definition obind {A B} (m : outcome A) (k : A -> outcome B) : outcome B :=
  match m with Ok a => k a | Undef => Undef | Fuel => Fuel end.

Notation "'let!' x := m 'in' k" := (obind m (fun x => k))
  (at level 10, x pattern, m at level 100, k at level 200) : qd_scope.

Definition of_option {A} (o : option A) : outcome A :=
  match o with Some a => Ok a | None => Undef end.

#[global] Open Scope qd_scope.

Lemma obind_ok {A B} (m : outcome A) (k : A -> outcome B) b :
  obind m k = Ok b -> exists a, m = Ok a /\ k a = Ok b.
Proof. destruct m; simpl; [eauto | done | done]. Qed.

(** ** Automation *)

Create HintDb qd.

Ltac unfold_widths :=
  unfold is_u64, is_u32, is_u8, u8, u16, u32, u64, u8_mod, u16_mod, u32_mod, u64_mod in *.

(** Decide a comparison that a C condition tests. *)
Ltac zcase :=
  match goal with
  | |- context [?a <? ?b] => destruct (Z.ltb_spec a b)
  | |- context [?a <=? ?b] => destruct (Z.leb_spec a b)
  | |- context [?a =? ?b] => destruct (Z.eqb_spec a b)
  | H : context [?a <? ?b] |- _ => destruct (Z.ltb_spec a b)
  | H : context [?a <=? ?b] |- _ => destruct (Z.leb_spec a b)
  | H : context [?a =? ?b] |- _ => destruct (Z.eqb_spec a b)
  end.

Ltac invert H := inversion H; subst; clear H.

(** ** Lemmas on machine integers *)

Lemma u64_small z : is_u64 z -> u64 z = z.
Proof. unfold_widths. intros. apply Z.mod_small. lia. Qed.

Lemma u32_small z : is_u32 z -> u32 z = z.
Proof. unfold_widths. intros. apply Z.mod_small. lia. Qed.

Lemma u64_range z : is_u64 (u64 z).
Proof. unfold_widths. apply Z.mod_pos_bound. lia. Qed.

Lemma u32_range z : is_u32 (u32 z).
Proof. unfold_widths. apply Z.mod_pos_bound. lia. Qed.

Lemma u64_idem z : u64 (u64 z) = u64 z.
Proof. apply u64_small, u64_range. Qed.

Lemma signed_small w z :
  0 < w -> - 2 ^ (w - 1) <= z < 2 ^ (w - 1) -> signed w z = z.
Proof.
  intros Hw Hz. unfold signed.
  assert (2 ^ w = 2 * 2 ^ (w - 1)) as E.
  { rewrite <- (Z.pow_succ_r 2 (w - 1)) by lia. f_equal. lia. }
  rewrite Z.mod_small; lia.
Qed.

Lemma i32_small z : - 2 ^ 31 <= z < 2 ^ 31 -> i32 z = z.
Proof. intros. unfold i32. apply signed_small; [lia|]. done. Qed.

Lemma i32_step z d : i32 (i32 z + d) = i32 (z + d).
Proof.
  unfold i32, signed. f_equal. replace ((z + 2 ^ (32 - 1)) mod 2 ^ 32 - 2 ^ (32 - 1) + d + 2 ^ (32 - 1)) with ((z + 2 ^ (32 - 1)) mod 2 ^ 32 + d) by lia.
  rewrite Zplus_mod_idemp_l. f_equal. lia.
Qed.

Lemma signed_range w z :
  0 < w -> - 2 ^ (w - 1) <= signed w z < 2 ^ (w - 1).
Proof.
  intros Hw. unfold signed.
  assert (2 ^ w = 2 * 2 ^ (w - 1)) as E.
  { rewrite <- (Z.pow_succ_r 2 (w - 1)) by lia. f_equal. lia. }
  pose proof (Z.mod_pos_bound (z + 2 ^ (w - 1)) (2 ^ w)). 
  assert (0 < 2 ^ (w - 1)) by (apply Z.pow_pos_nonneg; lia). lia.
Qed.

#[export] Hint Resolve u64_range u32_range : qd.

(** Masks with [2^k - 1] and right shifts as remainders and quotients. *)
Lemma land_mask k x : 0 <= k -> Z.land x (2 ^ k - 1) = x mod 2 ^ k.
Proof.
  intros Hk. rewrite <- (Z.land_ones x k Hk), Z.ones_equiv. f_equal; lia.
Qed.

Lemma shiftr_div k x : 0 <= k -> Z.shiftr x k = x / 2 ^ k.
Proof. apply Z.shiftr_div_pow2. Qed.

(** ** Byte arrays

    An object of [n] bytes is a list of length [n]; a copy whose range leaves
    the object is undefined. *)

Definition load {A} (mem : list A) (pos len : Z) : outcome (list A) :=
  if (0 <=? pos) && (0 <=? len) && (pos + len <=? Z.of_nat (length mem))
  then Ok (take (Z.to_nat len) (drop (Z.to_nat pos) mem))
  else Undef.

Definition store {A} (mem : list A) (pos : Z) (src : list A) : outcome (list A) :=
  if (0 <=? pos) && (pos + Z.of_nat (length src) <=? Z.of_nat (length mem))
  then Ok (take (Z.to_nat pos) mem ++ src
           ++ drop (Z.to_nat pos + length src) mem)
  else Undef.

Section memory.
Context {A : Type}.
Implicit Types (mem src : list A).

Lemma load_ok mem pos len :
    0 <= pos -> 0 <= len -> pos + len <= Z.of_nat (length mem) ->
    load mem pos len = Ok (take (Z.to_nat len) (drop (Z.to_nat pos) mem)).
Proof. intros. unfold load. repeat (zcase; try lia). done. Qed.

Lemma store_ok mem pos src :
    0 <= pos -> pos + Z.of_nat (length src) <= Z.of_nat (length mem) ->
    store mem pos src = Ok (take (Z.to_nat pos) mem ++ src
                            ++ drop (Z.to_nat pos + length src) mem).
Proof. intros. unfold store. repeat (zcase; try lia). done. Qed.

Lemma store_length mem pos src mem' :
    store mem pos src = Ok mem' -> length mem' = length mem.
Proof.
    unfold store. repeat zcase; simpl; intros [= <-].
    rewrite !length_app, length_take, length_drop. lia.
Qed.

  (** What is stored is what is loaded back. *)
Lemma load_store mem pos src mem' :
    store mem pos src = Ok mem' ->
    load mem' pos (Z.of_nat (length src)) = Ok src.
Proof.
    intros Hs. pose proof (store_length _ _ _ _ Hs) as Hl. revert Hs.
    unfold store. repeat zcase; simpl; intros [= <-].
    rewrite load_ok by lia. f_equal.
    rewrite drop_app_ge by (rewrite length_take; lia).
    rewrite length_take, Nat2Z.id.
    replace (Z.to_nat pos - _)%nat with 0%nat by lia.
    rewrite drop_0, take_app_le, take_ge; auto; lia.
Qed.
End memory.

Section memory_lookup.
Context {A : Type}.
Implicit Types (mem src : list A).

  (** A store changes exactly the cells it covers. *)
Lemma store_lookup mem pos src mem' (j : nat) :
    store mem pos src = Ok mem' ->
    mem' !! j = (if (pos <=? Z.of_nat j) && (Z.of_nat j <? pos + Z.of_nat (length src))
                 then src !! (j - Z.to_nat pos)%nat else mem !! j).
Proof.
    unfold store. destruct (Z.leb_spec 0 pos); simpl; [|done].
    destruct (Z.leb_spec (pos + Z.of_nat (length src)) (Z.of_nat (length mem))); simpl; [|done].
    intros [= <-].
    assert (length (take (Z.to_nat pos) mem) = Z.to_nat pos) as Hl
      by (rewrite length_take; lia).
    destruct (Z.leb_spec pos (Z.of_nat j)); simpl.
    - rewrite lookup_app_r, Hl by lia.
      destruct (Z.ltb_spec (Z.of_nat j) (pos + Z.of_nat (length src))); simpl.
      + by rewrite lookup_app_l by lia.
      + rewrite lookup_app_r, lookup_drop by lia. f_equal. lia.
    - rewrite lookup_app_l by lia. by rewrite lookup_take_lt by lia.
Qed.

Lemma load_lookup mem pos len out (j : nat) :
    load mem pos len = Ok out ->
    out !! j = (if Z.of_nat j <? len then mem !! (Z.to_nat pos + j)%nat else None).
Proof.
    unfold load. destruct (Z.leb_spec 0 pos); simpl; [|done].
    destruct (Z.leb_spec 0 len); simpl; [|done].
    destruct (Z.leb_spec (pos + len) (Z.of_nat (length mem))); simpl; [|done].
    intros [= <-]. destruct (Z.ltb_spec (Z.of_nat j) len).
    - by rewrite lookup_take_lt, lookup_drop by lia.
    - apply lookup_take_ge. lia.
Qed.

Lemma load_length mem pos len out :
    load mem pos len = Ok out -> Z.of_nat (length out) = len.
Proof.
    unfold load. destruct (Z.leb_spec 0 pos); simpl; [|done].
    destruct (Z.leb_spec 0 len); simpl; [|done].
    destruct (Z.leb_spec (pos + len) (Z.of_nat (length mem))); simpl; [|done].
    intros [= <-]. rewrite length_take, length_drop. lia.
Qed.

Lemma load_all mem : load mem 0 (Z.of_nat (length mem)) = Ok mem.
Proof. rewrite load_ok by lia. by rewrite drop_0, take_ge by lia. Qed.
End memory_lookup.

(** Run the next [load] or [store] of the goal, proving it in bounds. *)
Ltac mem_do e x H :=
  destruct e as [x| |] eqn:H;
  [|first [rewrite load_ok in H by lia | rewrite store_ok in H by lia]; discriminate ..].
Ltac mem_step x H :=
  lazymatch goal with
  | |- context [obind ?e _] => mem_do e x H
  | |- context [load ?m ?p ?l] => mem_do (load m p l) x H
  | |- context [store ?m ?p ?v] => mem_do (store m p v) x H
  end; simpl.
