(* ===== verification/Common.v ===== *)
(** * include/qdaemon/qd_common.h: error codes, alignment, powers of two

    The error codes the whole framework returns, the [QD_ALIGN] macro and the
    two bit-smearing routines that round up to a power of two. *)

From S2P Require Import Prelude.

(** ** Error codes *)
Definition QD_OK : Z := 0.
Definition QD_ERR : Z := -1.
Definition QD_ERR_NOMEM : Z := -2.
Definition QD_ERR_INVAL : Z := -3.
Definition QD_ERR_BUSY : Z := -4.
Definition QD_ERR_TIMEOUT : Z := -5.
Definition QD_ERR_IO : Z := -6.
Definition QD_ERR_NOENT : Z := -7.
Definition QD_ERR_PROTO : Z := -10.
Definition QD_ERR_AGAIN : Z := -12.
Definition QD_ERR_NOSYS : Z := -13.

(** ** QD_ALIGN and QD_IS_POWER_OF_2, at 64 bits *)
Definition QD_ALIGN (x a : Z) : Z :=
  u64 (Z.land (x +64 (a -64 1)) (u64 (Z.lnot (a -64 1)))).

Definition QD_IS_POWER_OF_2 (n : Z) : bool :=
  negb (n =? 0) && (Z.land n (n -64 1) =? 0).

(** ** Rounding up to a power of two *)

(** One line [x |= x >> k]. *)
Definition smear (k x : Z) : Z := Z.lor x (Z.shiftr x k).

Definition qd_next_pow2_32 (x : Z) : Z :=
  let x := u32 (x - 1) in
  let x := smear 1 x in
  let x := smear 2 x in
  let x := smear 4 x in
  let x := smear 8 x in
  let x := smear 16 x in
  u32 (x + 1).

Definition qd_next_pow2_64 (x : Z) : Z :=
  let x := u64 (x - 1) in
  let x := smear 1 x in
  let x := smear 2 x in
  let x := smear 4 x in
  let x := smear 8 x in
  let x := smear 16 x in
  let x := smear 32 x in
  u64 (x + 1).

Example pow2_32_ex : map qd_next_pow2_32 [1; 3; 64; 65; 0] = [1; 4; 64; 128; 0].
Proof. reflexivity. Qed.

(** ** Correctness of the smearing

    [smeared m x y]: bit [i] of [x] is set exactly when one of the [m] bits of
    [y] from [i] upwards is. *)

Definition smeared (m x y : Z) : Prop :=
  0 <= x /\
  forall i, 0 <= i ->
    Z.testbit x i = true <-> exists j, i <= j < i + m /\ Z.testbit y j = true.

Lemma smeared_init y : 0 <= y -> smeared 1 y y.
Proof.
  intros Hy. split; [done|]. intros i Hi. split.
  - intros Hb. exists i. split; [lia | done].
  - intros (j & Hj & Hb). by replace i with j by lia.
Qed.

Lemma smeared_step k x y : 0 < k -> smeared k x y -> smeared (k + k) (smear k x) y.
Proof.
  intros Hk [Hx Hs]. unfold smear. split.
  { apply Z.lor_nonneg. split; [done|]. by apply Z.shiftr_nonneg. }
  intros i Hi.
  rewrite Z.lor_spec, Z.shiftr_spec, orb_true_iff, !Hs by lia. split.
  - intros [(j & ? & ?) | (j & ? & ?)]; exists j; (split; [lia | done]).
  - intros (j & ? & Hb). destruct (Z.lt_ge_cases j (i + k)).
    + left. exists j. split; [lia | done].
    + right. exists j. split; [lia | done].
Qed.

(** Once the window covers the whole word, every bit up to the highest set one
    is set. *)
Lemma smeared_full m x y :
  0 < y < 2 ^ m -> 0 <= m -> smeared m x y -> x + 1 = 2 ^ (Z.log2 y + 1).
Proof.
  intros [Hy0 Hy] Hm [Hx Hs]. pose proof (Z.log2_nonneg y) as Hl.
  assert (Z.log2 y < m) as Hlm by (apply Z.log2_lt_pow2; lia).
  assert (x = Z.ones (Z.log2 y + 1)) as ->.
  { apply Z.bits_inj'. intros i Hi. rewrite Z.testbit_ones_nonneg by lia.
    apply eq_true_iff_eq. rewrite Hs by done. rewrite Z.ltb_lt. split.
    - intros (j & Hj & Hb). destruct (Z.lt_ge_cases (Z.log2 y) j); [|lia].
      rewrite Z.bits_above_log2 in Hb by lia. done.
    - intros Hi'. exists (Z.log2 y). split; [lia|]. by apply Z.bit_log2. }
  rewrite Z.ones_equiv. lia.
Qed.

Lemma smeared_zero m x : smeared m x 0 -> x = 0.
Proof.
  intros [Hx Hs]. apply Z.bits_inj'. intros i Hi. rewrite Z.bits_0.
  destruct (Z.testbit x i) eqn:E; [|done].
  apply Hs in E as (j & _ & Hb); [|done]. by rewrite Z.bits_0 in Hb.
Qed.

(** The value every smearing routine reaches before its final increment. *)
Lemma smeared_pow2 m x n :
  1 <= n <= 2 ^ m -> 0 <= m -> smeared m x (n - 1) -> x + 1 = 2 ^ Z.log2_up n.
Proof.
  intros Hn Hm Hs. destruct (Z.eq_dec n 1) as [->|Hn1].
  - apply smeared_zero in Hs. subst. reflexivity.
  - rewrite (smeared_full m x (n - 1)) by (done || lia).
    rewrite Z.log2_up_eqn, <- Z.sub_1_r by lia. done.
Qed.

Lemma smear64 y : 0 <= y ->
  smeared 64 (smear 32 (smear 16 (smear 8 (smear 4 (smear 2 (smear 1 y)))))) y.
Proof.
  intros Hy. change 64 with (32 + 32). apply smeared_step; [lia|].
  change 32 with (16 + 16) at 1. apply smeared_step; [lia|].
  change 16 with (8 + 8) at 1. apply smeared_step; [lia|].
  change 8 with (4 + 4) at 1. apply smeared_step; [lia|].
  change 4 with (2 + 2) at 1. apply smeared_step; [lia|].
  change 2 with (1 + 1) at 1. apply smeared_step; [lia|].
  by apply smeared_init.
Qed.

Lemma smear32 y : 0 <= y ->
  smeared 32 (smear 16 (smear 8 (smear 4 (smear 2 (smear 1 y))))) y.
Proof.
  intros Hy. change 32 with (16 + 16). apply smeared_step; [lia|].
  change 16 with (8 + 8) at 1. apply smeared_step; [lia|].
  change 8 with (4 + 4) at 1. apply smeared_step; [lia|].
  change 4 with (2 + 2) at 1. apply smeared_step; [lia|].
  change 2 with (1 + 1) at 1. apply smeared_step; [lia|].
  by apply smeared_init.
Qed.

Lemma log2_up_bound n k : 1 <= n <= 2 ^ k -> 0 <= k -> 2 ^ Z.log2_up n <= 2 ^ k.
Proof.
  intros Hn Hk. apply Z.pow_le_mono_r; [lia|].
  rewrite <- (Z.log2_up_pow2 k) by lia. apply Z.log2_up_le_mono; lia.
Qed.

(** [2 ^ log2_up n] is the least power of two that is not below [n]. *)
Lemma log2_up_least n k : 1 <= n -> 0 <= k -> n <= 2 ^ k -> 2 ^ Z.log2_up n <= 2 ^ k.
Proof. intros. apply log2_up_bound; lia. Qed.

(** The 64-bit routine rounds up to the least power of two, as long as that
    power fits the word. *)
Theorem next_pow2_64_correct n :
  1 <= n <= 2 ^ 63 ->
  exists k, 0 <= k <= 63 /\ qd_next_pow2_64 n = 2 ^ k /\ n <= 2 ^ k /\
    forall j, 0 <= j -> n <= 2 ^ j -> k <= j.
Proof.
  intros Hn. exists (Z.log2_up n).
  pose proof (Z.log2_up_nonneg n).
  assert (Z.log2_up n <= 63) as Hle.
  { rewrite <- (Z.log2_up_pow2 63) by lia. apply Z.log2_up_le_mono; lia. }
  assert (n <= 2 ^ Z.log2_up n) as Hup.
  { destruct (Z.eq_dec n 1) as [->|]; [done|]. apply Z.log2_up_spec. lia. }
  repeat split; [lia | lia | | done |].
  - unfold qd_next_pow2_64. rewrite (u64_small (n - 1)) by (unfold_widths; lia).
    cbv zeta. rewrite (smeared_pow2 64 _ n ltac:(lia) ltac:(lia) (smear64 (n - 1) ltac:(lia))).
    apply u64_small. unfold_widths.
    assert (2 ^ Z.log2_up n <= 2 ^ 63) by (apply Z.pow_le_mono_r; lia). lia.
  - intros j Hj Hnj. rewrite <- (Z.log2_up_pow2 j) by lia. apply Z.log2_up_le_mono; lia.
Qed.

(** ** QD_ALIGN rounds up to a multiple of a power of two *)

Lemma align_pow2 k x :
  0 <= k < 64 -> 0 <= x -> x + 2 ^ k - 1 < u64_mod ->
  QD_ALIGN x (2 ^ k) = (x + 2 ^ k - 1) / 2 ^ k * 2 ^ k.
Proof.
  intros Hk Hx Hov.
  assert (0 < 2 ^ k) as Hp by (apply Z.pow_pos_nonneg; lia).
  assert (2 ^ k <= 2 ^ 63) as Hk63 by (apply Z.pow_le_mono_r; lia).
  unfold QD_ALIGN. rewrite (u64_small (2 ^ k - 1)) by (unfold_widths; lia).
  rewrite (u64_small (x + _)) by (unfold_widths; lia).
  replace (x + (2 ^ k - 1)) with (x + 2 ^ k - 1) by lia.
  set (y := x + 2 ^ k - 1) in *.
  replace (u64 (Z.lnot (2 ^ k - 1))) with (Z.ldiff (Z.ones 64) (Z.ones k)).
  2: { rewrite Z.ones_equiv, (Z.ones_equiv k). unfold u64, u64_mod.
       rewrite <- Z.land_ones, Z.land_comm by lia.
       rewrite Z.ones_equiv, <- Z.ldiff_land. done. }
  assert (Z.land y (Z.ldiff (Z.ones 64) (Z.ones k)) = y / 2 ^ k * 2 ^ k) as ->.
  { rewrite <- Z.shiftr_div_pow2, <- Z.shiftl_mul_pow2 by lia.
    rewrite <- Z.ldiff_ones_r by lia. apply Z.bits_inj'. intros i Hi.
    rewrite Z.land_spec, !Z.ldiff_spec, !Z.testbit_ones_nonneg by lia.
    destruct (Z.ltb_spec i 64); [done|].
    assert (Z.testbit y i = false) as ->; [|done].
    destruct (Z.eq_dec y 0) as [->|]; [apply Z.bits_0|].
    apply Z.bits_above_log2; [lia|]. apply Z.log2_lt_pow2; [lia|].
    assert (2 ^ 64 <= 2 ^ i) by (apply Z.pow_le_mono_r; lia).
    unfold_widths. lia. }
  apply u64_small.
  pose proof (Z.mul_div_le y (2 ^ k) Hp).
  assert (0 <= y / 2 ^ k) by (apply Z.div_pos; lia).
  unfold_widths. nia.
Qed.

(** The aligned value: a multiple of [a], at least [x], less than [a] above. *)
Lemma align_bounds k x :
  0 <= k < 64 -> 0 <= x -> x + 2 ^ k - 1 < u64_mod ->
  let r := QD_ALIGN x (2 ^ k) in
  r mod 2 ^ k = 0 /\ x <= r < x + 2 ^ k.
Proof.
  intros Hk Hx Hov. cbv zeta. rewrite align_pow2 by done.
  assert (0 < 2 ^ k) as Hp by (apply Z.pow_pos_nonneg; lia).
  split.
  - apply Z.mod_mul. lia.
  - pose proof (Z.div_mod (x + 2 ^ k - 1) (2 ^ k) ltac:(lia)).
    pose proof (Z.mod_pos_bound (x + 2 ^ k - 1) (2 ^ k) Hp). lia.
Qed.
