(* ===== verification/CString.v ===== *)
(** * C strings and the standard-library functions the sources apply to them

    A C string is the list of its bytes without the terminating zero.  Locale "C". *)

From S2P Require Import Prelude.
From Stdlib Require Import Ascii String.

Abbreviation cstr := (list Z).

(** A literal. *)
Fixpoint of_string (s : string) : cstr :=
  match s with EmptyString => [] | String a s => Z.of_nat (nat_of_ascii a) :: of_string s end.
Coercion of_string : string >-> list.

(** ** ctype.h *)

Definition between (a c b : Z) : bool := (a <=? c) && (c <=? b).
Definition isspace (c : Z) : bool := (c =? 32) || between 9 c 13.
Definition isdigit (c : Z) : bool := between 48 c 57.
Definition isupper (c : Z) : bool := between 65 c 90.
Definition islower (c : Z) : bool := between 97 c 122.
Definition isalpha (c : Z) : bool := isupper c || islower c.
Definition isalnum (c : Z) : bool := isalpha c || isdigit c.
Definition isxdigit (c : Z) : bool := isdigit c || between 65 c 70 || between 97 c 102.
Definition toupper (c : Z) : Z := if islower c then c - 32 else c.
Definition tolower (c : Z) : Z := if isupper c then c + 32 else c.

(** ** string.h *)

(** The string up to the first [c] and what follows it. *)
Fixpoint strchr (s : cstr) (c : Z) : option (cstr * cstr) :=
  match s with
  | [] => None
  | x :: s => if x =? c then Some ([], s)
              else match strchr s c with Some (a, b) => Some (x :: a, b) | None => None end
  end.

Definition strcaseeq (a b : cstr) : bool := bool_decide (tolower <$> a = tolower <$> b).

(** The string in an array: the bytes before the first zero. *)
Fixpoint until_nul (l : list Z) : cstr :=
  match l with [] => [] | b :: l => if b =? 0 then [] else b :: until_nul l end.

(** The string in a character array; [Undef] if it has no end. *)
Definition c_string (b : list Z) : outcome (list Z) := if bool_decide (0 ∈ b) then Ok (until_nul b) else Undef.

Fixpoint skip_spaces (s : cstr) : cstr :=
  match s with x :: t => if isspace x then skip_spaces t else s | [] => [] end.

(** ** strtoll and strtoull with base 0 *)

Definition digit_value (c : Z) : Z :=
  if isdigit c then c - 48 else if isalpha c then toupper c - 55 else 99.

(** The longest run of digits of the base, its value and the rest. *)
Fixpoint digits (base acc : Z) (s : cstr) : Z * nat * cstr :=
  match s with
  | [] => (acc, 0%nat, [])
  | x :: t =>
    if digit_value x <? base then
      let '(v, n, r) := digits base (acc * base + digit_value x) t in (v, S n, r)
    else (acc, 0%nat, s)
  end.

(** Magnitude, whether a number was found, and the rest: the prefix "0x" counts
    only before a hexadecimal digit, a leading 0 selects base 8. *)
Definition magnitude (s : cstr) : Z * bool * cstr :=
  match s with
  | 48 :: x :: y :: t =>
    if ((x =? 120) || (x =? 88)) && isxdigit y then
      let '(v, _, r) := digits 16 0 (y :: t) in (v, true, r)
    else let '(v, _, r) := digits 8 0 s in (v, true, r)
  | 48 :: _ => let '(v, _, r) := digits 8 0 s in (v, true, r)
  | _ => let '(v, n, r) := digits 10 0 s in (v, negb (Nat.eqb n 0), r)
  end.

(** Sign, magnitude, whether a number was found, and the end pointer. *)
Definition parse_number (s : cstr) : bool * Z * bool * cstr :=
  let t := skip_spaces s in
  let (neg, u) := match t with 45 :: u => (true, u) | 43 :: u => (false, u) | _ => (false, t) end in
  let '(v, found, r) := magnitude u in
  if found then (neg, v, true, r) else (false, 0, false, s).

Definition strtoll (s : cstr) : Z * cstr :=
  let '(neg, v, _, r) := parse_number s in
  (if neg then Z.max (- v) (- 2 ^ 63) else Z.min v (2 ^ 63 - 1), r).

Definition strtoull (s : cstr) : Z * cstr :=
  let '(neg, v, _, r) := parse_number s in
  (if 2 ^ 64 <=? v then 2 ^ 64 - 1 else if neg then u64 (- v) else v, r).

Example strtoll_ex :
  strtoll "-42"%string = (-42, []) /\ strtoll " 0x1fK"%string = (31, [75]) /\ strtoll "010"%string = (8, []) /\
  strtoll "abc"%string = (0, "abc"%string : cstr) /\ strtoll "99999999999999999999"%string = (2 ^ 63 - 1, []) /\
  strtoull "-1"%string = (2 ^ 64 - 1, []) /\ strtoll "0x"%string = (0, [120]).
Proof. vm_compute. repeat split. Qed.

(** ** printf("%lld") *)

Fixpoint decimal (fuel : nat) (v : Z) (acc : cstr) : cstr :=
  match fuel with
  | O => acc
  | S fuel => let acc := 48 + v mod 10 :: acc in if v <? 10 then acc else decimal fuel (v / 10) acc
  end.

(** 20 digits are enough for 64 bits. *)
Definition print_lld (v : Z) : cstr :=
  if v <? 0 then 45 :: decimal 20 (- v) [] else decimal 20 v [].

Example print_ex : print_lld (-120) = "-120"%string /\ print_lld 0 = "0"%string.
Proof. by vm_compute. Qed.

(** ** Lemmas *)

Lemma strchr_app a c b : c ∉ a -> strchr (a ++ c :: b) c = Some (a, b).
Proof.
  induction a as [|x a IH]; intros Hn; simpl; [by rewrite Z.eqb_refl|].
  rewrite not_elem_of_cons in Hn. destruct Hn as [Hx Ha]. destruct (Z.eqb_spec x c); [congruence|].
  by rewrite IH.
Qed.

Lemma strchr_none a c : c ∉ a -> strchr a c = None.
Proof.
  induction a as [|x a IH]; intros Hn; simpl; [done|].
  rewrite not_elem_of_cons in Hn. destruct Hn as [Hx Ha]. destruct (Z.eqb_spec x c); [congruence|].
  by rewrite IH.
Qed.

Lemma strchr_inv s c a b : strchr s c = Some (a, b) -> s = a ++ c :: b /\ c ∉ a.
Proof.
  revert a. induction s as [|x s IH]; intros a; simpl; [done|].
  destruct (Z.eqb_spec x c) as [->|Hne].
  - intros [= <- <-]. split; [done|]. apply not_elem_of_nil.
  - destruct (strchr s c) as [[a' b']|]; [|done]. intros [= <- <-].
    destruct (IH a' eq_refl) as [-> Hn]. split; [done|]. rewrite not_elem_of_cons. by split.
Qed.

Lemma until_nul_id s : 0 ∉ s -> until_nul s = s.
Proof.
  induction s as [|x s IH]; intros Hn; simpl; [done|]. rewrite not_elem_of_cons in Hn. destruct Hn as [Hx Hs].
  destruct (Z.eqb_spec x 0); [congruence|]. by rewrite IH.
Qed.

(** Printing and parsing decimal numbers. *)
Lemma digit_value_digit d : 0 <= d < 10 -> digit_value (48 + d) = d.
Proof.
  intros Hd. unfold digit_value, isdigit, between.
  destruct (Z.leb_spec 48 (48 + d)), (Z.leb_spec (48 + d) 57); simpl; lia.
Qed.

Lemma decimal_cons fuel v acc :
  decimal (S fuel) v acc = if v <? 10 then 48 + v mod 10 :: acc else decimal fuel (v / 10) (48 + v mod 10 :: acc).
Proof. done. Qed.

Lemma digits_decimal fuel : forall v acc a0,
  0 <= v < 10 ^ Z.of_nat fuel -> (0 < fuel)%nat -> 0 <= a0 ->
  exists k, digits 10 0 (decimal fuel v acc) = 
    (let '(w, n, r) := digits 10 v acc in (w, (k + n)%nat, r)) /\ (0 < k)%nat.
Proof.
  induction fuel as [|fuel IH]; intros v acc a0 Hv Hf Ha; [lia|]. rewrite decimal_cons.
  pose proof (Z.mod_pos_bound v 10 ltac:(lia)) as Hm.
  destruct (Z.ltb_spec v 10) as [Hlt|Hge].
  - exists 1%nat. cbn [digits]. rewrite digit_value_digit by lia. destruct (Z.ltb_spec (v mod 10) 10); [|lia].
    rewrite Z.mul_0_l, Z.add_0_l, Z.mod_small by lia. destruct (digits 10 v acc) as [[w n] r]. split; [done|lia].
  - rewrite Nat2Z.inj_succ, Z.pow_succ_r in Hv by lia.
    assert (0 < v / 10) by (apply Z.div_str_pos; lia).
    destruct fuel as [|fuel]; [simpl in Hv; lia|].
    destruct (IH (v / 10) (48 + v mod 10 :: acc) a0) as (k & E & Hk); [|lia|done|].
    { split; [lia|]. apply Z.div_lt_upper_bound; lia. }
    rewrite E. cbn [digits]. rewrite digit_value_digit by lia. destruct (Z.ltb_spec (v mod 10) 10); [|lia].
    replace (v / 10 * 10 + v mod 10) with v by (pose proof (Z.div_mod v 10); lia).
    exists (S k). destruct (digits 10 v acc) as [[w n] r]. split; [do 2 f_equal; lia|lia].
Qed.

(** The first digit of a positive number is not 0. *)
Lemma decimal_first fuel : forall v acc,
  0 < v < 10 ^ Z.of_nat fuel -> exists d t, decimal fuel v acc = (48 + d) :: t /\ 1 <= d <= 9.
Proof.
  induction fuel as [|fuel IH]; intros v acc Hv; [simpl in Hv; lia|]. rewrite decimal_cons.
  destruct (Z.ltb_spec v 10) as [Hlt|Hge].
  - exists (v mod 10), acc. rewrite Z.mod_small by lia. split; [done|lia].
  - rewrite Nat2Z.inj_succ, Z.pow_succ_r in Hv by lia. apply IH.
    split; [apply Z.div_str_pos; lia|]. apply Z.div_lt_upper_bound; lia.
Qed.

Lemma magnitude_decimal v : 0 <= v < 10 ^ 20 -> magnitude (decimal 20 v []) = (v, true, []).
Proof.
  intros Hv. destruct (Z.eq_dec v 0) as [->|Hne]; [done|].
  destruct (decimal_first 20 v [] ltac:(simpl; lia)) as (d & t & E & Hd).
  destruct (digits_decimal 20 v [] 0 ltac:(simpl; lia) ltac:(lia) ltac:(lia)) as (k & Ek & Hk).
  assert (magnitude (decimal 20 v []) = (let '(w, n, r) := digits 10 0 (decimal 20 v []) in (w, negb (Nat.eqb n 0), r))) as ->.
  { rewrite E. unfold magnitude. assert (d = 1 \/ d = 2 \/ d = 3 \/ d = 4 \/ d = 5 \/ d = 6 \/ d = 7 \/ d = 8 \/ d = 9) as Hc by lia.
    by repeat (destruct Hc as [->|Hc]; [done|]); subst. }
  rewrite Ek. simpl. rewrite Nat.add_0_r. destruct k; [lia|done].
Qed.

(** What print_lld writes, strtoll reads. *)
Lemma strtoll_print v : - 2 ^ 63 <= v < 2 ^ 63 -> strtoll (print_lld v) = (v, []).
Proof.
  intros Hv. unfold strtoll, print_lld, parse_number. destruct (Z.ltb_spec v 0) as [Hneg|Hpos].
  - change (skip_spaces (45 :: decimal 20 (- v) [])) with (45 :: decimal 20 (- v) []). cbv iota beta.
    rewrite magnitude_decimal by lia. f_equal. lia.
  - assert (skip_spaces (decimal 20 v []) = decimal 20 v [] /\
      match decimal 20 v [] with 45 :: u => (true, u) | 43 :: u => (false, u) | _ => (false, decimal 20 v []) end
      = (false, decimal 20 v [])) as [-> ->].
    { destruct (Z.eq_dec v 0) as [->|Hne]; [done|].
      destruct (decimal_first 20 v [] ltac:(simpl; lia)) as (d & t & -> & Hd).
      assert (d = 1 \/ d = 2 \/ d = 3 \/ d = 4 \/ d = 5 \/ d = 6 \/ d = 7 \/ d = 8 \/ d = 9) as Hc by lia.
      by repeat (destruct Hc as [->|Hc]; [done|]); subst. }
    rewrite magnitude_decimal by lia. f_equal. lia.
Qed.
