(* ===== verification/ShmRing.v ===== *)
(** * src/ipc/qd_ipc_shm.c: the shared-memory ring buffer

    A single-producer single-consumer byte ring in a shared memory object.  The
    object (its header and its data area) is the record [shm]; a process's
    handle [qd_shm_ring] has the data size it read from the header.  The
    blocking calls loop until there is room (or data) and sleep on a futex in
    between: what the peer process does to the object during the [i]-th sleep
    is the argument [env i], and the [i]-th reading of the clock is [now i]. *)

From S2P Require Import Prelude Common.

Definition QD_SHM_MAGIC : Z := 0x51445348.
Definition QD_SHM_VERSION : Z := 1.

(** [qd_shm_ring_header_t], followed by the data area. *)
Record shm := mkShm {
  magic : Z;
  version : Z;
  size : Z;
  write_pos : Z;
  read_pos : Z;
  writer_waiting : Z;
  reader_waiting : Z;
  bytes : list Z
}.

Definition sizeof_header : Z := 40.

Definition set_write_pos (p : Z) (s : shm) : shm :=
  mkShm (magic s) (version s) (size s) p (read_pos s) (writer_waiting s) (reader_waiting s) (bytes s).
Definition set_read_pos (p : Z) (s : shm) : shm :=
  mkShm (magic s) (version s) (size s) (write_pos s) p (writer_waiting s) (reader_waiting s) (bytes s).
Definition set_writer_waiting (v : Z) (s : shm) : shm :=
  mkShm (magic s) (version s) (size s) (write_pos s) (read_pos s) v (reader_waiting s) (bytes s).
Definition set_reader_waiting (v : Z) (s : shm) : shm :=
  mkShm (magic s) (version s) (size s) (write_pos s) (read_pos s) (writer_waiting s) v (bytes s).
Definition set_bytes (b : list Z) (s : shm) : shm :=
  mkShm (magic s) (version s) (size s) (write_pos s) (read_pos s) (writer_waiting s) (reader_waiting s) b.

(** [struct qd_shm_ring]: the handle. *)
Record qd_shm_ring := mkRing {
  total_size : Z;
  data_size : Z;
  is_creator : bool
}.

(** ** Creation and attachment

    The system calls are answered by an oracle. *)
Inductive open_result := OpenOk | OpenExists | OpenFails.

Record os_answers := mkOs {
  page_size : Z;
  alloc_ok : bool;          (* calloc *)
  open_first : open_result; (* shm_open, O_EXCL *)
  open_again : bool;        (* shm_open after shm_unlink *)
  ftruncate_ok : bool;
  mmap_ok : bool
}.

Definition qd_shm_ring_create (os : os_answers) (name : option string) (sz : Z)
  : option (qd_shm_ring * shm) :=
  if (match name with None => true | Some _ => false end) || (sz =? 0) then None else
  let sz := QD_ALIGN sz (page_size os) in
  let total := QD_ALIGN (sizeof_header +64 sz) (page_size os) in
  if negb (alloc_ok os) then None else
  let opened := match open_first os with
                | OpenOk => true
                | OpenExists => open_again os
                | OpenFails => false
                end in
  if negb opened then None else
  if negb (ftruncate_ok os) then None else
  if negb (mmap_ok os) then None else
  Some (mkRing total sz true,
        mkShm QD_SHM_MAGIC QD_SHM_VERSION sz 0 0 0 0
              (replicate (Z.to_nat (total - sizeof_header)) 0)).

(** [st_size] is what fstat reports; [obj] the object the name denotes. *)
Definition qd_shm_ring_attach (os : os_answers) (name : option string)
    (obj : shm) (st_size : option Z) : option (qd_shm_ring * shm) :=
  match name with None => None | Some _ =>
  if negb (alloc_ok os) then None else
  match open_first os with
  | OpenOk =>
    match st_size with
    | None => None
    | Some total =>
      if negb (mmap_ok os) then None else
      if negb (magic obj =? QD_SHM_MAGIC) || negb (version obj =? QD_SHM_VERSION) then None
      else Some (mkRing total (size obj) false, obj)
    end
  | _ => None
  end end.

(** ** Space and data available *)

Definition qd_shm_ring_write_available (ring : option qd_shm_ring) (s : shm) : Z :=
  match ring with
  | None => 0
  | Some r =>
    if read_pos s <=? write_pos s
    then data_size r -64 (write_pos s -64 read_pos s) -64 1
    else read_pos s -64 write_pos s -64 1
  end.

Definition qd_shm_ring_read_available (ring : option qd_shm_ring) (s : shm) : Z :=
  match ring with
  | None => 0
  | Some r =>
    if read_pos s <=? write_pos s
    then write_pos s -64 read_pos s
    else data_size r -64 read_pos s +64 write_pos s
  end.

Definition qd_shm_ring_is_empty (ring : option qd_shm_ring) (s : shm) : bool :=
  match ring with None => true | Some _ => write_pos s =? read_pos s end.

Definition qd_shm_ring_is_full (ring : option qd_shm_ring) (s : shm) : bool :=
  qd_shm_ring_write_available ring s =? 0.

(** ** Writing *)

(** The copy into the data area, in one or two parts. *)
Definition copy_in (r : qd_shm_ring) (s : shm) (src : list Z) (len : Z) : outcome (list Z) :=
  let first_part := data_size r -64 write_pos s in
  if len <=? first_part then
    let! part := load src 0 len in
    store (bytes s) (write_pos s) part
  else
    let! part1 := load src 0 first_part in
    let! b := store (bytes s) (write_pos s) part1 in
    let! part2 := load src first_part (len -64 first_part) in
    store b 0 part2.

(** The result of a call: its return code, the object, and whether the peer was
    woken through the futex. *)
Definition write_result : Type := Z * shm * bool.

Section blocking.
Context (env : nat -> shm -> shm) (now : nat -> Z).

Fixpoint write_loop (fuel i : nat) (r : qd_shm_ring) (s : shm) (src : list Z)
      (len timeout_ms start : Z) : outcome write_result :=
    match fuel with
    | O => Fuel
    | S fuel =>
      if len <=? qd_shm_ring_write_available (Some r) s then
        let! b := copy_in r s src len in
        let new_pos := (write_pos s +64 len) mod data_size r in
        let s' := set_write_pos new_pos (set_bytes b s) in
        Ok (QD_OK, s', negb (reader_waiting s' =? 0))
      else if timeout_ms =? 0 then Ok (QD_ERR_AGAIN, s, false)
      else if (0 <? timeout_ms) && (timeout_ms <=? now i -64 start)
      then Ok (QD_ERR_TIMEOUT, s, false)
      else
        let s := set_writer_waiting 1 s in
        let s := env i s in
        write_loop fuel (S i) r (set_writer_waiting 0 s) src len timeout_ms start
    end.

  (** The clock is read once at the start, then once per round. *)
Definition qd_shm_ring_write_timeout (fuel : nat) (ring : option qd_shm_ring) (s : shm)
      (data : option (list Z)) (len timeout_ms : Z) : outcome write_result :=
    match ring, data with
    | Some r, Some src =>
      if len =? 0 then Ok (QD_ERR_INVAL, s, false)
      else if data_size r -64 1 <? len then Ok (QD_ERR_INVAL, s, false)
      else write_loop fuel 1 r s src len timeout_ms (now 0%nat)
    | _, _ => Ok (QD_ERR_INVAL, s, false)
    end.

Definition qd_shm_ring_write (fuel : nat) (ring : option qd_shm_ring) (s : shm)
      (data : option (list Z)) (len : Z) : outcome write_result :=
    qd_shm_ring_write_timeout fuel ring s data len (-1).

  (** ** Reading *)

Definition copy_out (r : qd_shm_ring) (s : shm) (len : Z) : outcome (list Z) :=
    let first_part := data_size r -64 read_pos s in
    if len <=? first_part then load (bytes s) (read_pos s) len
    else
      let! part1 := load (bytes s) (read_pos s) first_part in
      let! part2 := load (bytes s) 0 (len -64 first_part) in
      Ok (part1 ++ part2).

  (** Return code, object, wake-up, and the bytes copied to the caller. *)
Definition read_result : Type := Z * shm * bool * list Z.

Fixpoint read_loop (fuel i : nat) (r : qd_shm_ring) (s : shm)
      (len timeout_ms start : Z) : outcome read_result :=
    match fuel with
    | O => Fuel
    | S fuel =>
      if len <=? qd_shm_ring_read_available (Some r) s then
        let! out := copy_out r s len in
        let new_pos := (read_pos s +64 len) mod data_size r in
        let s' := set_read_pos new_pos s in
        Ok (QD_OK, s', negb (writer_waiting s' =? 0), out)
      else if timeout_ms =? 0 then Ok (QD_ERR_AGAIN, s, false, [])
      else if (0 <? timeout_ms) && (timeout_ms <=? now i -64 start)
      then Ok (QD_ERR_TIMEOUT, s, false, [])
      else
        let s := set_reader_waiting 1 s in
        let s := env i s in
        read_loop fuel (S i) r (set_reader_waiting 0 s) len timeout_ms start
    end.

Definition qd_shm_ring_read_timeout (fuel : nat) (ring : option qd_shm_ring) (s : shm)
      (has_buf : bool) (len timeout_ms : Z) : outcome read_result :=
    match ring with
    | Some r =>
      if negb has_buf || (len =? 0) then Ok (QD_ERR_INVAL, s, false, [])
      else read_loop fuel 1 r s len timeout_ms (now 0%nat)
    | None => Ok (QD_ERR_INVAL, s, false, [])
    end.

Definition qd_shm_ring_read (fuel : nat) (ring : option qd_shm_ring) (s : shm)
      (has_buf : bool) (len : Z) : outcome read_result :=
    qd_shm_ring_read_timeout fuel ring s has_buf len (-1).
End blocking.

(** ** The ring as a queue of bytes *)

(** Every position the code keeps is a valid index of the data area, and the
    area is as large as the handle says.  Positions are reduced modulo the size
    by the code; sizes of 2^63 bytes and more cannot be mapped. *)
Record ring_wf (r : qd_shm_ring) (s : shm) : Prop := {
  wf_size : 1 <= data_size r <= 2 ^ 63;
  wf_bytes : data_size r <= Z.of_nat (length (bytes s));
  wf_wpos : 0 <= write_pos s < data_size r;
  wf_rpos : 0 <= read_pos s < data_size r
}.

(** The number of bytes in the queue and the [k]-th of them. *)
Definition ring_count (r : qd_shm_ring) (s : shm) : Z :=
  (write_pos s - read_pos s) mod data_size r.

Definition ring_index (r : qd_shm_ring) (p : Z) (k : nat) : nat :=
  Z.to_nat ((p + Z.of_nat k) mod data_size r).

Definition contents (r : qd_shm_ring) (s : shm) : list Z :=
  (fun k => bytes s !!! ring_index r (read_pos s) k)
    <$> seq 0 (Z.to_nat (ring_count r s)).

Ltac wf_tac :=
  match goal with
  | H : ring_wf _ _ |- _ =>
    let a := fresh "Hsz" in let b := fresh "Hby" in
    let c := fresh "Hw" in let d := fresh "Hr" in destruct H as [a b c d]
  end.

(** [(a - b) mod n] for two indices of a ring. *)
Lemma sub_mod_cases a b n :
  0 <= a < n -> 0 <= b < n -> (a - b) mod n = if b <=? a then a - b else n - b + a.
Proof.
  intros. destruct (Z.leb_spec b a).
  - apply Z.mod_small. lia.
  - rewrite <- (Z.mod_add _ 1) by lia. rewrite Z.mod_small; lia.
Qed.

Lemma read_available_count r s :
  ring_wf r s -> qd_shm_ring_read_available (Some r) s = ring_count r s.
Proof.
  intros Hwf. wf_tac. unfold qd_shm_ring_read_available, ring_count.
  rewrite sub_mod_cases by lia. zcase.
  - apply u64_small. unfold_widths. lia.
  - rewrite (u64_small (_ - _)) by (unfold_widths; lia).
    apply u64_small. unfold_widths. lia.
Qed.

Lemma write_available_count r s :
  ring_wf r s ->
  qd_shm_ring_write_available (Some r) s = data_size r - 1 - ring_count r s.
Proof.
  intros Hwf. wf_tac. unfold qd_shm_ring_write_available, ring_count.
  rewrite sub_mod_cases by lia. zcase.
  - rewrite (u64_small (write_pos s - _)) by (unfold_widths; lia).
    rewrite (u64_small (data_size r - _)) by (unfold_widths; lia).
    rewrite u64_small by (unfold_widths; lia). lia.
  - rewrite (u64_small (read_pos s - _)) by (unfold_widths; lia).
    rewrite u64_small by (unfold_widths; lia). lia.
Qed.

Lemma ring_count_range r s : ring_wf r s -> 0 <= ring_count r s < data_size r.
Proof. intros Hwf. wf_tac. apply Z.mod_pos_bound. lia. Qed.

(** Two offsets less than a turn apart land on different cells. *)
Lemma ring_offset n p j :
  0 < n -> 0 <= j < n -> ((p + j) mod n - p) mod n = j.
Proof.
  intros. rewrite Zminus_mod_idemp_l. replace (p + j - p) with j by lia.
  by apply Z.mod_small.
Qed.

(** The two-part copy writes [src] at consecutive cells of the ring and nothing
    else: the cell [j] gets the byte at its distance from the write position. *)
Lemma copy_in_spec r s src :
  let len := Z.of_nat (length src) in
  ring_wf r s -> len < data_size r ->
  exists b, copy_in r s src len = Ok b /\ length b = length (bytes s) /\
    forall j : nat, Z.of_nat j < data_size r ->
      let k := (Z.of_nat j - write_pos s) mod data_size r in
      b !! j = if k <? len then src !! Z.to_nat k else bytes s !! j.
Proof.
  intros len Hwf Hlen. wf_tac. unfold copy_in.
  rewrite (u64_small (data_size r - _)) by (unfold_widths; lia).
  destruct (Z.leb_spec len (data_size r - write_pos s)) as [Hf|Hf].
  - unfold len. rewrite load_all. simpl.
    mem_step b Hs.
    exists b. split; [done|]. split; [by eapply store_length|].
    intros j Hj. rewrite (store_lookup _ _ _ _ _ Hs), sub_mod_cases by lia.
    destruct (Z.leb_spec (write_pos s) (Z.of_nat j)); simpl.
    + replace (Z.of_nat j - write_pos s <? Z.of_nat (length src))
        with (Z.of_nat j <? write_pos s + Z.of_nat (length src)) by (repeat zcase; lia).
      zcase; [|done]. f_equal. lia.
    + replace (_ <? _) with false; [done|]. zcase; lia.
  - set (f := data_size r - write_pos s) in *.
    rewrite (u64_small (len - f)) by (unfold_widths; lia).
    mem_step p1 Hl1. pose proof (load_length _ _ _ _ Hl1) as Hp1.
    mem_step b1 Hs1. pose proof (store_length _ _ _ _ Hs1) as Hb1.
    mem_step p2 Hl2. pose proof (load_length _ _ _ _ Hl2) as Hp2.
    mem_step b2 Hs2.
    exists b2. split; [done|]. split; [rewrite (store_length _ _ _ _ Hs2); lia|].
    intros j Hj. rewrite (store_lookup _ _ _ _ _ Hs2), (store_lookup _ _ _ _ _ Hs1), sub_mod_cases by lia.
    rewrite Hp1, Hp2. destruct (Z.leb_spec 0 (Z.of_nat j)); [simpl|lia].
    destruct (Z.ltb_spec (Z.of_nat j) (0 + (len - f))).
    + destruct (Z.leb_spec (write_pos s) (Z.of_nat j)); [lia|].
      destruct (Z.ltb_spec (data_size r - write_pos s + Z.of_nat j) len); [|lia].
      rewrite (load_lookup _ _ _ _ _ Hl2). zcase; [|lia]. f_equal. lia.
    + destruct (Z.leb_spec (write_pos s) (Z.of_nat j)); simpl.
      * destruct (Z.ltb_spec (Z.of_nat j) (write_pos s + f)); [|lia].
        destruct (Z.ltb_spec (Z.of_nat j - write_pos s) len); [|lia].
        rewrite (load_lookup _ _ _ _ _ Hl1). zcase; [|lia]. f_equal. lia.
      * zcase; [lia|done].
Qed.

(** The two-part copy out reads consecutive cells of the ring. *)
Lemma copy_out_spec r s len :
  ring_wf r s -> 0 <= len < data_size r ->
  copy_out r s len =
    Ok ((fun k => bytes s !!! ring_index r (read_pos s) k) <$> seq 0 (Z.to_nat len)).
Proof.
  intros Hwf Hlen. wf_tac. unfold copy_out.
  rewrite (u64_small (data_size r - _)) by (unfold_widths; lia).
  destruct (Z.leb_spec len (data_size r - read_pos s)) as [Hf|Hf].
  - mem_step o Hl.
    f_equal. pose proof (load_length _ _ _ _ Hl). apply list_eq. intros j.
    rewrite (load_lookup _ _ _ _ _ Hl). rewrite list_lookup_fmap.
    destruct (Z.ltb_spec (Z.of_nat j) len).
    + rewrite lookup_seq_lt by lia. simpl. unfold ring_index.
      rewrite Z.mod_small by lia.
      rewrite <- list_lookup_lookup_total_lt by lia. f_equal. lia.
    + by rewrite lookup_seq_ge by lia.
  - set (f := data_size r - read_pos s) in *.
    rewrite (u64_small (len - f)) by (unfold_widths; lia).
    mem_step p1 Hl1. pose proof (load_length _ _ _ _ Hl1) as Hp1.
    mem_step p2 Hl2. pose proof (load_length _ _ _ _ Hl2) as Hp2.
    f_equal. apply list_eq. intros j. rewrite list_lookup_fmap.
    destruct (Z.lt_ge_cases (Z.of_nat j) len) as [Hj|Hj].
    + rewrite lookup_seq_lt by lia. simpl. unfold ring_index.
      destruct (Z.lt_ge_cases (Z.of_nat j) f).
      * rewrite lookup_app_l, (load_lookup _ _ _ _ _ Hl1) by lia. zcase; [|lia].
        rewrite Z.mod_small by lia. rewrite <- list_lookup_lookup_total_lt by lia. f_equal. lia.
      * rewrite lookup_app_r, (load_lookup _ _ _ _ _ Hl2) by lia. zcase; [|lia].
        rewrite <- (Z.mod_add _ (-1)), Z.mod_small by lia.
        rewrite <- list_lookup_lookup_total_lt by lia. f_equal. lia.
    + rewrite lookup_seq_ge by lia. apply lookup_ge_None. rewrite length_app. lia.
Qed.

(** ** One round of a write or a read *)

Lemma contents_length r s : ring_wf r s -> Z.of_nat (length (contents r s)) = ring_count r s.
Proof.
  intros Hwf. pose proof (ring_count_range r s Hwf).
  unfold contents. rewrite length_fmap, length_seq. lia.
Qed.

(** Moving the write position forward by [len] adds [len] to the count. *)
Lemma count_advance r s p len :
  ring_wf r s -> 0 <= len -> ring_count r s + len < data_size r ->
  p = (write_pos s + len) mod data_size r ->
  (p - read_pos s) mod data_size r = ring_count r s + len.
Proof.
  intros Hwf Hl Hc ->. pose proof (ring_count_range r s Hwf). wf_tac.
  rewrite Zminus_mod_idemp_l.
  replace (write_pos s + len - read_pos s) with (write_pos s - read_pos s + len) by lia.
  rewrite <- Zplus_mod_idemp_l. apply Z.mod_small. unfold ring_count in *. lia.
Qed.

(** The distance of the [k]-th queued cell from the write position. *)
Lemma ring_index_offset r s k :
  ring_wf r s ->
  Z.of_nat (ring_index r (read_pos s) k) < data_size r /\
  (Z.of_nat (ring_index r (read_pos s) k) - write_pos s) mod data_size r
    = (Z.of_nat k - ring_count r s) mod data_size r.
Proof.
  intros Hwf. wf_tac. unfold ring_index.
  pose proof (Z.mod_pos_bound (read_pos s + Z.of_nat k) (data_size r) ltac:(lia)).
  rewrite Z2Nat.id by lia. split; [lia|].
  unfold ring_count. rewrite Zminus_mod_idemp_l, Zminus_mod_idemp_r. f_equal. lia.
Qed.

(** The state a successful write leaves. *)
Definition after_write (r : qd_shm_ring) (s : shm) (b : list Z) (len : Z) : shm :=
  set_write_pos ((write_pos s + len) mod data_size r) (set_bytes b s).

Lemma after_write_spec r s src b :
  let len := Z.of_nat (length src) in
  ring_wf r s -> ring_count r s + len < data_size r ->
  copy_in r s src len = Ok b ->
  ring_wf r (after_write r s b len) /\
  contents r (after_write r s b len) = contents r s ++ src.
Proof.
  intros len Hwf Hroom Hcp. pose proof (ring_count_range r s Hwf) as Hc.
  destruct (copy_in_spec r s src Hwf ltac:(lia)) as (b' & Hcp' & Hlen & Hb).
  fold len in Hcp'. rewrite Hcp in Hcp'. injection Hcp' as <-.
  pose proof (count_advance r s _ len Hwf ltac:(lia) Hroom eq_refl) as Hcnt.
  assert (ring_wf r (after_write r s b len)) as Hwf'.
  { wf_tac. split; simpl; try done; [lia|]. apply Z.mod_pos_bound. lia. }
  split; [done|]. apply list_eq. intros i. unfold contents.
  change (ring_count r (after_write r s b len))
    with (((write_pos s + len) mod data_size r - read_pos s) mod data_size r).
  rewrite Hcnt, list_lookup_fmap.
  change (read_pos (after_write r s b len)) with (read_pos s).
  change (bytes (after_write r s b len)) with b.
  destruct (Z.lt_ge_cases (Z.of_nat i) (ring_count r s + len)) as [Hi|Hi].
  - destruct (ring_index_offset r s i Hwf) as [Hj Hk]. rewrite lookup_seq_lt by lia. simpl.
    assert (b !! ring_index r (read_pos s) i =
            if Z.of_nat i <? ring_count r s then bytes s !! ring_index r (read_pos s) i
            else src !! (i - Z.to_nat (ring_count r s))%nat) as Hbi.
    { rewrite Hb, Hk by done. destruct (Z.ltb_spec (Z.of_nat i) (ring_count r s)).
      - rewrite <- (Z.mod_add _ 1), Z.mod_small by lia. zcase; [lia|done].
      - rewrite Z.mod_small by lia. zcase; [|lia]. f_equal. lia. }
    destruct (Z.ltb_spec (Z.of_nat i) (ring_count r s)).
    + rewrite lookup_app_l by (rewrite length_fmap, length_seq; lia).
      rewrite list_lookup_fmap, lookup_seq_lt by lia. simpl.
      by rewrite !list_lookup_total_alt, Hbi.
    + rewrite lookup_app_r, length_fmap, length_seq by (rewrite length_fmap, length_seq; lia).
      rewrite list_lookup_total_alt, Hbi.
      destruct (lookup_lt_is_Some_2 src (i - Z.to_nat (ring_count r s))) as [x Hx]; [lia|].
      by rewrite Hx.
  - rewrite lookup_seq_ge by lia. symmetry. apply lookup_ge_None.
    rewrite length_app, length_fmap, length_seq. lia.
Qed.

Definition after_read (r : qd_shm_ring) (s : shm) (len : Z) : shm :=
  set_read_pos ((read_pos s + len) mod data_size r) s.

Lemma after_read_spec r s len out :
  ring_wf r s -> 0 <= len <= ring_count r s -> copy_out r s len = Ok out ->
  ring_wf r (after_read r s len) /\ contents r s = out ++ contents r (after_read r s len).
Proof.
  intros Hwf Hlen Hcp. pose proof (ring_count_range r s Hwf) as Hc.
  rewrite copy_out_spec in Hcp by (done || lia). injection Hcp as <-.
  assert (ring_wf r (after_read r s len)) as Hwf'.
  { wf_tac. split; simpl; try done. apply Z.mod_pos_bound. lia. }
  assert (ring_count r (after_read r s len) = ring_count r s - len) as Hcnt.
  { wf_tac. unfold ring_count in *. simpl. rewrite Zminus_mod_idemp_r.
    replace (write_pos s - (read_pos s + len)) with (write_pos s - read_pos s - len) by lia.
    rewrite <- Zminus_mod_idemp_l. apply Z.mod_small. lia. }
  split; [done|]. unfold contents. rewrite Hcnt.
  replace (Z.to_nat (ring_count r s))
    with (Z.to_nat len + Z.to_nat (ring_count r s - len))%nat at 1 by lia.
  rewrite seq_app, fmap_app. f_equal.
  change (0 + Z.to_nat len)%nat with (Z.to_nat len).
  apply list_eq. intros i. rewrite !list_lookup_fmap.
  destruct (Nat.lt_ge_cases i (Z.to_nat (ring_count r s - len))).
  - rewrite !lookup_seq_lt by lia. simpl. do 2 f_equal. unfold ring_index.
    wf_tac. simpl. rewrite Zplus_mod_idemp_l. do 2 f_equal. lia.
  - by rewrite !lookup_seq_ge by lia.
Qed.

(** One round of either loop, in terms of the queue. *)
Lemma write_round env now fuel i r s src timeout start :
  let len := Z.of_nat (length src) in
  ring_wf r s -> len < data_size r -> len <= data_size r - 1 - ring_count r s ->
  exists b, copy_in r s src len = Ok b /\
    write_loop env now (S fuel) i r s src len timeout start =
      Ok (QD_OK, after_write r s b len, negb (reader_waiting s =? 0)).
Proof.
  intros len Hwf Hlen Hroom.
  destruct (copy_in_spec r s src Hwf Hlen) as (b & Hcp & _ & _). fold len in Hcp.
  exists b. split; [done|]. cbn [write_loop].
  rewrite write_available_count by done.
  destruct (Z.leb_spec len (data_size r - 1 - ring_count r s)); [|lia].
  rewrite Hcp. cbn [obind]. rewrite (u64_small (write_pos s + len)); [done|].
  wf_tac. unfold_widths. lia.
Qed.

Lemma write_no_room env now fuel i r s src len start :
  ring_wf r s -> data_size r - 1 - ring_count r s < len ->
  write_loop env now (S fuel) i r s src len 0 start = Ok (QD_ERR_AGAIN, s, false).
Proof.
  intros Hwf Hroom. cbn [write_loop]. rewrite write_available_count by done.
  destruct (Z.leb_spec len (data_size r - 1 - ring_count r s)); [lia|done].
Qed.

Lemma read_round env now fuel i r s len timeout start :
  ring_wf r s -> 0 <= len <= ring_count r s ->
  exists out, copy_out r s len = Ok out /\
    read_loop env now (S fuel) i r s len timeout start =
      Ok (QD_OK, after_read r s len, negb (writer_waiting s =? 0), out).
Proof.
  intros Hwf Hlen. pose proof (ring_count_range r s Hwf).
  pose proof (copy_out_spec r s len Hwf ltac:(lia)) as Hcp.
  eexists. split; [exact Hcp|]. cbn [read_loop].
  rewrite read_available_count by done.
  destruct (Z.leb_spec len (ring_count r s)); [|lia].
  rewrite Hcp. cbn [obind]. rewrite (u64_small (read_pos s + len)); [done|].
  wf_tac. unfold_widths. lia.
Qed.

Lemma read_no_data env now fuel i r s len start :
  ring_wf r s -> ring_count r s < len ->
  read_loop env now (S fuel) i r s len 0 start = Ok (QD_ERR_AGAIN, s, false, []).
Proof.
  intros Hwf Hroom. cbn [read_loop]. rewrite read_available_count by done.
  destruct (Z.leb_spec len (ring_count r s)); [lia|done].
Qed.

(** ** The abstract specification: a bounded queue of bytes *)

Inductive ring_op := OpWrite (d : list Z) | OpRead (n : nat).

(** A write is all or nothing, a read takes the oldest bytes. *)
Definition queue_step (cap : Z) (q : list Z) (op : ring_op) : (Z * list Z) * list Z :=
  match op with
  | OpWrite d =>
    let n := Z.of_nat (length d) in
    if (n =? 0) || (cap <? n) then (QD_ERR_INVAL, [], q)
    else if Z.of_nat (length q) + n <=? cap then (QD_OK, [], q ++ d)
    else (QD_ERR_AGAIN, [], q)
  | OpRead n =>
    if (n =? 0)%nat then (QD_ERR_INVAL, [], q)
    else if (n <=? length q)%nat then (QD_OK, take n q, drop n q)
    else (QD_ERR_AGAIN, [], q)
  end.

Fixpoint queue_run (cap : Z) (q : list Z) (ops : list ring_op) : list (Z * list Z) * list Z :=
  match ops with
  | [] => ([], q)
  | op :: ops =>
    let '(o, q) := queue_step cap q op in
    let '(os, q) := queue_run cap q ops in (o :: os, q)
  end.

(** The code's non-blocking calls (a timeout of 0). *)
Definition ring_step env now (r : qd_shm_ring) (s : shm) (op : ring_op)
  : outcome ((Z * list Z) * shm) :=
  match op with
  | OpWrite d =>
    let! (rc, s, _) := qd_shm_ring_write_timeout env now 1 (Some r) s (Some d)
                         (Z.of_nat (length d)) 0 in
    Ok ((rc, []), s)
  | OpRead n =>
    let! (rc, s, _, out) := qd_shm_ring_read_timeout env now 1 (Some r) s true (Z.of_nat n) 0 in
    Ok ((rc, out), s)
  end.

Fixpoint ring_run env now (r : qd_shm_ring) (s : shm) (ops : list ring_op)
  : outcome (list (Z * list Z) * shm) :=
  match ops with
  | [] => Ok ([], s)
  | op :: ops =>
    let! (o, s) := ring_step env now r s op in
    let! (os, s) := ring_run env now r s ops in
    Ok (o :: os, s)
  end.

Lemma ring_step_refines env now r s op :
  ring_wf r s ->
  let '(o, q) := queue_step (data_size r - 1) (contents r s) op in
  exists s', ring_step env now r s op = Ok (o, s') /\ ring_wf r s' /\ contents r s' = q.
Proof.
  intros Hwf. pose proof (contents_length r s Hwf) as Hcl.
  assert (u64 (data_size r - 1) = data_size r - 1) as Hsz1.
  { wf_tac. apply u64_small. unfold_widths. lia. }
  pose proof (ring_count_range r s Hwf) as Hc.
  destruct op as [d|n]; cbn [queue_step ring_step].
  - unfold qd_shm_ring_write_timeout. rewrite Hsz1.
    destruct (Z.eqb_spec (Z.of_nat (length d)) 0); cbn [orb obind]; [by eauto|].
    destruct (Z.ltb_spec (data_size r - 1) (Z.of_nat (length d))); cbn [obind]; [by eauto|].
    destruct (Z.leb_spec (Z.of_nat (length (contents r s)) + Z.of_nat (length d)) (data_size r - 1)).
    + destruct (write_round env now 0 1 r s d 0 (now 0%nat) Hwf ltac:(lia) ltac:(lia))
        as (b & Hcp & ->). cbn [obind].
      destruct (after_write_spec r s d b Hwf ltac:(lia) Hcp) as [Hwf' Hq]. eauto.
    + rewrite write_no_room by (done || lia). cbn [obind]. eauto.
  - unfold qd_shm_ring_read_timeout.
    destruct (Nat.eqb_spec n 0) as [->|Hn]; [cbn; by eauto|].
    destruct (Z.eqb_spec (Z.of_nat n) 0); [lia|]. cbn [orb negb].
    destruct (Nat.leb_spec n (length (contents r s))).
    + destruct (read_round env now 0 1 r s (Z.of_nat n) 0 (now 0%nat) Hwf ltac:(lia))
        as (out & Hcp & ->). cbn [obind].
      destruct (after_read_spec r s (Z.of_nat n) out Hwf ltac:(lia) Hcp) as [Hwf' Hq].
      assert (length out = n) as Hlo.
      { rewrite copy_out_spec in Hcp by (done || lia). injection Hcp as <-.
        rewrite length_fmap, length_seq. lia. }
      rewrite Hq, take_app_length', drop_app_length' by done. eauto.
    + rewrite read_no_data by (done || lia). cbn [obind]. eauto.
Qed.

(** ** Waiting *)

(** What the peer may do while this side sleeps: leave the object well formed. *)
Definition env_ok (env : nat -> shm -> shm) (r : qd_shm_ring) : Prop :=
  forall i s, ring_wf r s -> ring_wf r (env i s).

Lemma waiting_wf r s v : ring_wf r s ->
  ring_wf r (set_writer_waiting v s) /\ ring_wf r (set_reader_waiting v s).
Proof. intros []. by split; split. Qed.

(** Whatever the peer does, a write with a positive timeout ends by the round
    in which the clock shows the timeout. *)
Lemma write_loop_returns env now r src timeout start n :
  let len := Z.of_nat (length src) in
  env_ok env r -> len < data_size r -> 0 < timeout ->
  timeout <= u64 (now n - start) ->
  forall fuel i s, ring_wf r s -> (i <= n)%nat -> (n < i + fuel)%nat ->
  exists rc s' w, write_loop env now fuel i r s src len timeout start = Ok (rc, s', w) /\
    ring_wf r s' /\ (rc = QD_OK \/ rc = QD_ERR_TIMEOUT).
Proof.
  intros len Henv Hlen Hto Hn. induction fuel as [|fuel IH]; intros i s Hwf Hi Hfuel; [lia|].
  destruct (Z.le_gt_cases len (data_size r - 1 - ring_count r s)) as [Hroom|Hroom].
  - destruct (write_round env now fuel i r s src timeout start Hwf Hlen Hroom) as (b & Hcp & E).
    do 3 eexists. split; [exact E|]. split; [|by left].
    apply (after_write_spec r s src b); (done || lia).
  - cbn [write_loop]. rewrite write_available_count by done.
    destruct (Z.leb_spec len (data_size r - 1 - ring_count r s)); [lia|].
    destruct (Z.eqb_spec timeout 0); [lia|]. destruct (Z.ltb_spec 0 timeout); [|lia]. simpl.
    destruct (Z.leb_spec timeout (u64 (now i - start))); [by eauto 10|].
    assert (i <> n) by (intros ->; lia).
    apply IH; [|lia|lia]. by apply waiting_wf, Henv, waiting_wf.
Qed.

(** ** Properties *)

(** C1: The ring refines a bounded byte queue.  Any sequence of non-blocking
    writes and reads returns the codes and the bytes that a FIFO queue of
    capacity [data_size - 1] returns, without an access outside the data area,
    and leaves the ring well formed with the queue's content. *)
Theorem ring_refines_queue env now r s ops :
  ring_wf r s ->
  let '(os, q) := queue_run (data_size r - 1) (contents r s) ops in
  exists s', ring_run env now r s ops = Ok (os, s') /\ ring_wf r s' /\ contents r s' = q.
Proof.
  revert s. induction ops as [|op ops IH]; intros s Hwf; cbn [queue_run ring_run]; [by eauto|].
  pose proof (ring_step_refines env now r s op Hwf) as Hstep.
  destruct (queue_step _ _ op) as [o q]. destruct Hstep as (s1 & -> & Hwf1 & <-).
  specialize (IH s1 Hwf1). destruct (queue_run _ _ ops) as [os q'].
  destruct IH as (s2 & E2 & ? & ?). cbn [obind]. rewrite E2. cbn. eauto.
Qed.

(** A ring of 8 bytes near its end, so that the write wraps around. *)
Definition demo_ring : qd_shm_ring := mkRing 64 8 true.
Definition demo_shm : shm := mkShm QD_SHM_MAGIC QD_SHM_VERSION 8 6 6 0 0 (replicate 8 0).

Lemma demo_wf : ring_wf demo_ring demo_shm.
Proof. split; simpl; lia. Qed.

Lemma ring_refines_queue_witness :
  exists s', ring_run (fun _ s => s) (fun _ => 0) demo_ring demo_shm
    [OpWrite [1;2;3;4;5]; OpRead 2; OpWrite [6;7;8]; OpWrite [9;10]; OpRead 6]
    = Ok ([(QD_OK, []); (QD_OK, [1;2]); (QD_OK, []); (QD_ERR_AGAIN, []); (QD_OK, [3;4;5;6;7;8])], s')
    /\ ring_wf demo_ring s' /\ contents demo_ring s' = [].
Proof.
  exact (ring_refines_queue (fun _ s => s) (fun _ => 0) demo_ring demo_shm
    [OpWrite [1;2;3;4;5]; OpRead 2; OpWrite [6;7;8]; OpWrite [9;10]; OpRead 6] demo_wf).
Defined.

(** A write with a positive timeout always returns.  Whatever the peer does
    to a well-formed ring while the writer sleeps, once the clock has advanced
    by the timeout at its [n]-th reading the call has returned, with QD_OK or
    QD_ERR_TIMEOUT, and the ring is well formed. *)
Theorem write_timeout_returns env now r s src timeout n fuel :
  let len := Z.of_nat (length src) in
  ring_wf r s -> env_ok env r -> 0 < len < data_size r -> 0 < timeout ->
  (1 <= n)%nat -> timeout <= u64 (now n - now 0%nat) -> (n <= fuel)%nat ->
  exists rc s' w,
    qd_shm_ring_write_timeout env now fuel (Some r) s (Some src) len timeout = Ok (rc, s', w)
    /\ ring_wf r s' /\ (rc = QD_OK \/ rc = QD_ERR_TIMEOUT).
Proof.
  intros len Hwf Henv Hlen Hto Hn1 Hn Hf. unfold qd_shm_ring_write_timeout.
  assert (u64 (data_size r - 1) = data_size r - 1) as ->.
  { wf_tac. apply u64_small. unfold_widths. lia. }
  destruct (Z.eqb_spec len 0); [lia|].
  destruct (Z.ltb_spec (data_size r - 1) len); [lia|].
  eapply (write_loop_returns env now r src timeout (now 0%nat) n); try done; lia.
Qed.

(** A full ring whose reader never runs, with a clock of 1 ms per round. *)
Definition full_shm : shm := mkShm QD_SHM_MAGIC QD_SHM_VERSION 8 5 6 0 0 (replicate 8 0).

Lemma write_timeout_returns_witness :
  exists rc s' w, qd_shm_ring_write_timeout (fun _ s => s) Z.of_nat 10 (Some demo_ring) full_shm
    (Some [1;2;3]) 3 7 = Ok (rc, s', w) /\ ring_wf demo_ring s' /\
    (rc = QD_OK \/ rc = QD_ERR_TIMEOUT).
Proof.
  apply (write_timeout_returns (fun _ s => s) Z.of_nat demo_ring full_shm [1;2;3] 7 7 10);
    try (simpl; lia).
  - split; simpl; lia.
  - intros i s Hs. exact Hs.
  - vm_compute. discriminate.
Defined.

(** Creating a ring.  For a page size that is a power of two and a size
    that can be mapped, a ring that [qd_shm_ring_create] returns is well formed
    and empty, holds at least the bytes asked for, and its data area lies
    inside the mapping. *)
Theorem create_well_formed os name sz r s k :
  page_size os = 2 ^ k -> 6 <= k <= 30 -> 0 < sz <= 2 ^ 62 ->
  qd_shm_ring_create os name sz = Some (r, s) ->
  ring_wf r s /\ contents r s = [] /\ sz <= data_size r /\
  sizeof_header + data_size r <= total_size r /\
  qd_shm_ring_write_available (Some r) s = data_size r - 1.
Proof.
  intros Hp Hk Hsz Hc. unfold qd_shm_ring_create in Hc.
  destruct (_ || _); [done|]. rewrite Hp in Hc.
  assert (2 ^ 6 <= 2 ^ k <= 2 ^ 30) as Hpk by (split; apply Z.pow_le_mono_r; lia).
  destruct (align_bounds k sz ltac:(lia) ltac:(lia) ltac:(unfold_widths; lia)) as [_ Ha].
  set (d := QD_ALIGN sz (2 ^ k)) in *.
  rewrite (u64_small (sizeof_header + d)) in Hc by (unfold_widths; unfold sizeof_header; lia).
  destruct (align_bounds k (sizeof_header + d) ltac:(lia) ltac:(unfold sizeof_header; lia)
              ltac:(unfold_widths; unfold sizeof_header; lia)) as [_ Ht].
  set (t := QD_ALIGN (sizeof_header + d) (2 ^ k)) in *.
  destruct (alloc_ok os), (ftruncate_ok os), (mmap_ok os); simpl in Hc;
    try (destruct (negb _); discriminate); try discriminate.
  destruct (negb _); [done|]. injection Hc as <- <-.
  assert (ring_wf (mkRing t d true) (mkShm QD_SHM_MAGIC QD_SHM_VERSION d 0 0 0 0
    (replicate (Z.to_nat (t - sizeof_header)) 0))) as Hwf.
  { split; simpl; try lia. rewrite length_replicate. lia. }
  split; [done|]. split; [done|]. do 2 (split; [simpl; lia|]).
  rewrite write_available_count by done. unfold ring_count.
  cbn [write_pos read_pos data_size]. rewrite Z.sub_diag, Zmod_0_l. lia.
Qed.

Definition demo_os : os_answers := mkOs 64 true OpenExists true true true.
Definition demo_created : option (qd_shm_ring * shm) :=
  qd_shm_ring_create demo_os (Some "ring"%string) 100.

Lemma create_well_formed_witness :
  exists r s, demo_created = Some (r, s) /\ ring_wf r s /\ data_size r = 128.
Proof.
  destruct demo_created as [[r s]|] eqn:E; [|vm_compute in E; discriminate].
  exists r, s. split; [done|]. split.
  - apply (create_well_formed demo_os (Some "ring"%string) 100 r s 6);
      [reflexivity | lia | lia | exact E].
  - unfold demo_created, qd_shm_ring_create in E. cbn -[replicate QD_ALIGN Z.to_nat] in E.
    injection E as <- _. reflexivity.
Defined.
