(* ===== verification/DList.v ===== *)
(** * src/util/qd_list.h: the intrusive doubly linked list

    The list lives in memory: a node is an address whose [next] and [prev]
    fields are cells of the heap, so that aliasing between a head, a node and
    another head is visible.  The heap has one map per field.  A null or
    unmapped address makes an access undefined. *)

From S2P Require Import Prelude.

Abbreviation loc := Z (only parsing).
Definition NULL : loc := 0.

(** The [next] and [prev] fields of every [struct qd_list_head]. *)
Record heap := mkHeap { nxt : gmap Z loc; prv : gmap Z loc }.

Definition get_next (h : heap) (p : loc) : outcome loc := of_option (nxt h !! p).
Definition get_prev (h : heap) (p : loc) : outcome loc := of_option (prv h !! p).

Definition set_next (h : heap) (p v : loc) : outcome heap :=
  match nxt h !! p with Some _ => Ok (mkHeap (<[p:=v]> (nxt h)) (prv h)) | None => Undef end.
Definition set_prev (h : heap) (p v : loc) : outcome heap :=
  match prv h !! p with Some _ => Ok (mkHeap (nxt h) (<[p:=v]> (prv h))) | None => Undef end.

(** Memory for a node (the caller's struct); its fields hold anything. *)
Definition alloc_node (h : heap) (p : loc) : heap :=
  mkHeap (<[p:=NULL]> (nxt h)) (<[p:=NULL]> (prv h)).

(** ** Operations *)

Definition qd_list_init (h : heap) (list : loc) : outcome heap :=
  let! h := set_next h list list in
  set_prev h list list.

Definition __qd_list_add (h : heap) (new prev next : loc) : outcome heap :=
  let! h := set_prev h next new in
  let! h := set_next h new next in
  let! h := set_prev h new prev in
  set_next h prev new.

Definition qd_list_add (h : heap) (new head : loc) : outcome heap :=
  let! n := get_next h head in
  __qd_list_add h new head n.

Definition qd_list_add_tail (h : heap) (new head : loc) : outcome heap :=
  let! p := get_prev h head in
  __qd_list_add h new p head.

Definition __qd_list_del (h : heap) (prev next : loc) : outcome heap :=
  let! h := set_prev h next prev in
  set_next h prev next.

Definition qd_list_del (h : heap) (entry : loc) : outcome heap :=
  let! p := get_prev h entry in
  let! n := get_next h entry in
  let! h := __qd_list_del h p n in
  let! h := set_next h entry NULL in
  set_prev h entry NULL.

Definition qd_list_del_init (h : heap) (entry : loc) : outcome heap :=
  let! p := get_prev h entry in
  let! n := get_next h entry in
  let! h := __qd_list_del h p n in
  qd_list_init h entry.

Definition qd_list_replace (h : heap) (old new : loc) : outcome heap :=
  let! n := get_next h old in
  let! h := set_next h new n in
  let! h := set_prev h n new in
  let! p := get_prev h old in
  let! h := set_prev h new p in
  set_next h p new.

Definition qd_list_move (h : heap) (entry head : loc) : outcome heap :=
  let! p := get_prev h entry in
  let! n := get_next h entry in
  let! h := __qd_list_del h p n in
  qd_list_add h entry head.

Definition qd_list_move_tail (h : heap) (entry head : loc) : outcome heap :=
  let! p := get_prev h entry in
  let! n := get_next h entry in
  let! h := __qd_list_del h p n in
  qd_list_add_tail h entry head.

Definition qd_list_empty (h : heap) (head : loc) : outcome bool :=
  let! n := get_next h head in
  Ok (n =? head).

Definition qd_list_is_last (h : heap) (entry head : loc) : outcome bool :=
  let! n := get_next h entry in
  Ok (n =? head).

Definition qd_list_is_first (h : heap) (entry head : loc) : outcome bool :=
  let! p := get_prev h entry in
  Ok (p =? head).

Definition qd_list_is_singular (h : heap) (head : loc) : outcome bool :=
  let! e := qd_list_empty h head in
  let! n := get_next h head in
  let! p := get_prev h head in
  Ok (negb e && (n =? p)).

Definition __qd_list_splice (h : heap) (list prev next : loc) : outcome heap :=
  let! first := get_next h list in
  let! last := get_prev h list in
  let! h := set_prev h first prev in
  let! h := set_next h prev first in
  let! h := set_next h last next in
  set_prev h next last.

Definition qd_list_splice (h : heap) (list head : loc) : outcome heap :=
  let! e := qd_list_empty h list in
  if e then Ok h else
  let! n := get_next h head in
  __qd_list_splice h list head n.

Definition qd_list_splice_tail (h : heap) (list head : loc) : outcome heap :=
  let! e := qd_list_empty h list in
  if e then Ok h else
  let! p := get_prev h head in
  __qd_list_splice h list p head.

(** The traversal macros: [pos = pos->next] until the head comes round. *)
Fixpoint for_each (fuel : nat) (h : heap) (pos head : loc) : outcome (list loc) :=
  if pos =? head then Ok [] else
  match fuel with
  | O => Fuel
  | S fuel =>
    let! n := get_next h pos in
    let! rest := for_each fuel h n head in
    Ok (pos :: rest)
  end.

Definition qd_list_for_each (fuel : nat) (h : heap) (head : loc) : outcome (list loc) :=
  let! n := get_next h head in for_each fuel h n head.

Definition qd_list_count (fuel : nat) (h : heap) (head : loc) : outcome nat :=
  let! l := qd_list_for_each fuel h head in Ok (length l).

(** ** Representation

    [link h a b]: [a->next == b] and [b->prev == a].  [chain h a xs b]: from [a]
    through [xs] to [b].  [dlist h hd xs]: the circular list of head [hd]. *)

Definition link (h : heap) (a b : loc) : Prop :=
  nxt h !! a = Some b /\ prv h !! b = Some a.

Fixpoint chain (h : heap) (a : loc) (xs : list loc) (b : loc) : Prop :=
  match xs with
  | [] => link h a b
  | x :: xs => link h a x /\ chain h x xs b
  end.

Definition dlist (h : heap) (hd : loc) (xs : list loc) : Prop :=
  NoDup (hd :: xs) /\ chain h hd xs hd.

(** A node whose two fields exist. *)
Definition mapped (h : heap) (p : loc) : Prop :=
  is_Some (nxt h !! p) /\ is_Some (prv h !! p).

(** The last node of [x :: xs]. *)
Fixpoint lst (x : loc) (xs : list loc) : loc :=
  match xs with [] => x | y :: ys => lst y ys end.

(** [same_except ps h h']: the two heaps agree on the nodes outside [ps]. *)
Definition same_except (ps : list loc) (h h' : heap) : Prop :=
  forall p, p ∉ ps -> nxt h' !! p = nxt h !! p /\ prv h' !! p = prv h !! p.

(** ** Lemmas on chains *)

Lemma lst_elem x xs : lst x xs ∈ x :: xs.
Proof. revert x. induction xs as [|y ys IH]; intros x; simpl; set_solver. Qed.

Lemma chain_app h a xs y ys b :
  chain h a (xs ++ y :: ys) b <-> chain h a xs y /\ chain h y ys b.
Proof. revert a. induction xs as [|x xs IH]; intros a; simpl; [done|]. rewrite IH. tauto. Qed.

Lemma chain_last h a xs b : chain h a xs b -> link h (lst a xs) b.
Proof. revert a. induction xs as [|x xs IH]; intros a; simpl; [done|]. intros [_ ?]. by apply IH. Qed.

Lemma chain_first h a xs b : chain h a xs b -> nxt h !! a = Some (hd b xs).
Proof. destruct xs; simpl; [by intros [? _] | by intros [[? _] _]]. Qed.

(** A chain whose last link is moved to another target. *)
Lemma chain_retarget h h' a xs b c :
  NoDup (a :: xs) -> chain h a xs b ->
  (forall p, p ∈ a :: xs -> p <> lst a xs -> nxt h' !! p = nxt h !! p) ->
  (forall p, p ∈ xs -> prv h' !! p = prv h !! p) ->
  link h' (lst a xs) c -> chain h' a xs c.
Proof.
  revert a. induction xs as [|x xs IH]; intros a Hnd Hc Hn Hp Hl; [done|].
  destruct Hc as [[Hl1 Hl2] Hc]. apply NoDup_cons in Hnd as [Ha Hnd]. split.
  - split.
    + rewrite Hn; [done | set_solver |]. simpl. intros E. apply Ha. pose proof (lst_elem x xs). congruence.
    + rewrite Hp; [done | set_solver].
  - apply (IH x); auto; intros p Hin; [intros; apply Hn; set_solver | apply Hp; set_solver].
Qed.

Lemma chain_frame h h' a xs b :
  chain h a xs b ->
  (forall p, p ∈ a :: xs -> nxt h' !! p = nxt h !! p) ->
  (forall p, p ∈ xs ++ [b] -> prv h' !! p = prv h !! p) ->
  chain h' a xs b.
Proof.
  revert a. induction xs as [|x xs IH]; intros a Hc Hn Hp.
  - destruct Hc as [H1 H2]. split; [rewrite Hn | rewrite Hp]; set_solver.
  - destruct Hc as [[H1 H2] Hc]. split.
    + split; [rewrite Hn | rewrite Hp]; set_solver.
    + apply IH; auto; intros; [apply Hn | apply Hp]; set_solver.
Qed.

Lemma dlist_frame ps h h' hd xs :
  same_except ps h h' -> (forall p, p ∈ hd :: xs -> p ∉ ps) ->
  dlist h hd xs -> dlist h' hd xs.
Proof.
  intros Hs Hdis [Hnd Hc]. split; [done|]. apply (chain_frame h); auto.
  - intros p Hp. apply Hs. auto.
  - intros p Hp. apply Hs. apply Hdis. set_solver.
Qed.

Lemma chain_mapped h a xs b :
  chain h a xs b ->
  (forall p, p ∈ a :: xs -> is_Some (nxt h !! p)) /\
  (forall p, p ∈ xs ++ [b] -> is_Some (prv h !! p)).
Proof.
  revert a. induction xs as [|x xs IH]; intros a.
  - intros [H1 H2]. split; intros p Hp; [assert (p = a) as -> by set_solver
      | assert (p = b) as -> by set_solver]; eauto.
  - intros [[H1 H2] Hc]. apply IH in Hc as [Hn Hp]. split; intros p Hin.
    + apply elem_of_cons in Hin as [->|]; eauto.
    + simpl in Hin. apply elem_of_cons in Hin as [->|]; eauto.
Qed.

Lemma dlist_mapped h hd xs p : dlist h hd xs -> p ∈ hd :: xs -> mapped h p.
Proof.
  intros [_ Hc] Hp. apply chain_mapped in Hc as [Hn Hv]. split; [auto|].
  apply Hv. set_solver.
Qed.

Lemma set_next_ok h p v : is_Some (nxt h !! p) ->
  set_next h p v = Ok (mkHeap (<[p:=v]> (nxt h)) (prv h)).
Proof. intros [x Hx]. unfold set_next. by rewrite Hx. Qed.

Lemma set_prev_ok h p v : is_Some (prv h !! p) ->
  set_prev h p v = Ok (mkHeap (nxt h) (<[p:=v]> (prv h))).
Proof. intros [x Hx]. unfold set_prev. by rewrite Hx. Qed.

Lemma get_next_ok h p v : nxt h !! p = Some v -> get_next h p = Ok v.
Proof. intros H. unfold get_next. by rewrite H. Qed.

Lemma get_prev_ok h p v : prv h !! p = Some v -> get_prev h p = Ok v.
Proof. intros H. unfold get_prev. by rewrite H. Qed.

Lemma insert_is_Some (m : gmap Z loc) i p v : is_Some (m !! p) -> is_Some (<[i:=v]> m !! p).
Proof. intros [x Hx]. rewrite lookup_insert. case_decide; eauto. Qed.

#[export] Hint Resolve insert_is_Some : qd.

(** Run the field accesses at the head of a goal. *)
Ltac heap_step :=
  first
  [ erewrite get_next_ok by (simpl; eassumption)
  | erewrite get_prev_ok by (simpl; eassumption)
  | rewrite set_next_ok by (simpl; eauto 6 with qd)
  | rewrite set_prev_ok by (simpl; eauto 6 with qd) ];
  cbn [obind nxt prv].

(** Decide lookups after insertions whose keys are known to differ. *)
Ltac heap_lookup :=
  simpl; repeat match goal with
  | |- context [<[?i:=_]> _ !! ?i] => rewrite lookup_insert_eq
  | |- context [<[?i:=_]> _ !! ?j] => rewrite (lookup_insert_ne _ i j) by (done || set_solver)
  end; try done.

(** [a <> b] because [a] is not in a list that has [b]. *)
Ltac ne_by H := let E := fresh in intros E; apply H; rewrite E; (assumption || set_solver).

Lemma same_except_mono ps qs h h' :
  (forall p, p ∈ ps -> p ∈ qs) -> same_except ps h h' -> same_except qs h h'.
Proof. intros Hi Hs p Hp. apply Hs. auto. Qed.

Lemma same_except_trans ps h1 h2 h3 :
  same_except ps h1 h2 -> same_except ps h2 h3 -> same_except ps h1 h3.
Proof.
  intros H1 H2 p Hp. destruct (H1 p Hp), (H2 p Hp). split; congruence.
Qed.

(** ** Specifications of the operations *)

Lemma list_init_spec h l : mapped h l ->
  exists h', qd_list_init h l = Ok h' /\ dlist h' l [] /\ same_except [l] h h'.
Proof.
  intros [Hn Hp]. unfold qd_list_init. do 2 heap_step. eexists. split; [done|]. split.
  - split; [apply NoDup_singleton|]. split; heap_lookup.
  - intros p Hin. split; heap_lookup.
Qed.

Lemma list_add_tail_spec h n hd xs :
  dlist h hd xs -> mapped h n -> n ∉ hd :: xs ->
  exists h', qd_list_add_tail h n hd = Ok h' /\ dlist h' hd (xs ++ [n]) /\
    same_except (n :: hd :: xs) h h'.
Proof.
  intros Hd [Hn Hp] Hin. pose proof Hd as [Hnd Hc].
  pose proof (chain_last _ _ _ _ Hc) as [Hl1 Hl2].
  pose proof (dlist_mapped h hd xs hd Hd ltac:(set_solver)) as [Hh1 Hh2].
  pose proof (lst_elem hd xs) as Hlst.
  unfold qd_list_add_tail, __qd_list_add. do 5 heap_step.
  eexists. split; [done|].
  assert (n <> lst hd xs) by (intros ->; set_solver). split.
  - split; [apply NoDup_cons in Hnd as [? ?]; apply NoDup_cons; split;
      [set_solver | apply NoDup_app; repeat split; [done | set_solver | apply NoDup_singleton]]|].
    apply chain_app. split; [|split; heap_lookup].
    apply (chain_retarget h _ hd xs hd); try done.
    + intros p Hp' Hne. assert (p <> n) by (intros ->; set_solver). heap_lookup.
    + intros p Hp'. assert (p <> n) by (intros ->; set_solver).
      assert (p <> hd) by (intros ->; apply NoDup_cons in Hnd as [? ?]; done). heap_lookup.
    + split; heap_lookup.
  - intros p Hp'. assert (p <> lst hd xs) by (intros ->; set_solver). split; heap_lookup.
Qed.

Lemma list_add_spec h n hd xs :
  dlist h hd xs -> mapped h n -> n ∉ hd :: xs ->
  exists h', qd_list_add h n hd = Ok h' /\ dlist h' hd (n :: xs) /\
    same_except (n :: hd :: xs) h h'.
Proof.
  intros Hd [Hn Hp] Hin. pose proof Hd as [Hnd Hc].
  pose proof (chain_first _ _ _ _ Hc) as Hf.
  pose proof (dlist_mapped h hd xs hd Hd ltac:(set_solver)) as [Hh1 Hh2].
  assert (is_Some (prv h !! List.hd hd xs)) as Hfp.
  { eapply dlist_mapped; [exact Hd|]. destruct xs; simpl; set_solver. }
  unfold qd_list_add, __qd_list_add. do 5 heap_step.
  eexists. split; [done|]. apply NoDup_cons in Hnd as [Hhd Hnd]. split.
  - split; [apply NoDup_cons; split; [set_solver|apply NoDup_cons; split; [set_solver|done]]|].
    destruct xs as [|x xs]; simpl in *.
    + split; split; heap_lookup.
    + destruct Hc as [_ Hc]. split; [split; heap_lookup|]. split; [split; heap_lookup|].
      apply NoDup_cons in Hnd as [Hx Hnd].
      apply (chain_frame h); [done| |]; intros p Hp'.
      * assert (p <> hd /\ p <> n) as [? ?] by (split; intros ->; set_solver). heap_lookup.
      * assert (p <> x /\ p <> n) as [? ?] by (split; intros ->; set_solver). heap_lookup.
  - intros p Hp'. assert (p <> List.hd hd xs) by (intros ->; destruct xs; set_solver).
    split; heap_lookup.
Qed.

(** Unlinking a node: its neighbours are joined. *)
Lemma list_unlink_spec h hd xs n ys :
  dlist h hd (xs ++ n :: ys) ->
  exists h', __qd_list_del h (lst hd xs) (List.hd hd ys) = Ok h' /\ dlist h' hd (xs ++ ys) /\
    get_prev h n = Ok (lst hd xs) /\ get_next h n = Ok (List.hd hd ys) /\
    mapped h' n /\ same_except (hd :: xs ++ ys) h h'.
Proof.
  intros Hd. pose proof Hd as [Hnd Hc]. apply chain_app in Hc as [Hc1 Hc2].
  pose proof (chain_last _ _ _ _ Hc1) as [Hl1 Hl2]. pose proof (chain_first _ _ _ _ Hc2) as Hf.
  pose proof (lst_elem hd xs) as Hlst.
  assert (List.hd hd ys ∈ hd :: ys) as Hfe by (destruct ys; simpl; set_solver).
  assert (is_Some (nxt h !! lst hd xs)) as Hm1 by (eapply dlist_mapped; [exact Hd|set_solver]).
  assert (is_Some (prv h !! List.hd hd ys)) as Hm2 by (eapply dlist_mapped; [exact Hd|set_solver]).
  unfold __qd_list_del. rewrite set_prev_ok by done. cbn [obind].
  rewrite set_next_ok by done. eexists. split; [done|].
  apply NoDup_cons in Hnd as [Hhd Hnd]. apply NoDup_app in Hnd as (Hnx & Hxy & Hny).
  apply NoDup_cons in Hny as [Hn Hny].
  split; [split|split; [by apply get_prev_ok|split; [by apply get_next_ok|split]]].
  - apply NoDup_cons. split; [set_solver|]. apply NoDup_app. repeat split; try done. set_solver.
  - destruct ys as [|y ys]; simpl in *.
    + rewrite app_nil_r. apply (chain_retarget h _ hd xs n); try done.
      * apply NoDup_cons. split; [set_solver|done].
      * intros p Hp Hne. heap_lookup.
      * intros p Hp. assert (p <> hd) by (intros ->; set_solver). heap_lookup.
      * split; heap_lookup.
    + destruct Hc2 as [_ Hc2]. apply NoDup_cons in Hny as [Hy Hny]. apply chain_app. split.
      * apply (chain_retarget h _ hd xs n); try done.
        -- apply NoDup_cons. split; [set_solver|done].
        -- intros p Hp Hne. heap_lookup.
        -- intros p Hp. assert (p <> y) by (intros ->; set_solver). heap_lookup.
        -- split; heap_lookup.
      * apply (chain_frame h); [done| |]; intros p Hp.
        -- assert (p <> lst hd xs) by (intros ->; revert Hlst Hp; clear -Hxy Hhd; generalize (lst hd xs); set_solver). heap_lookup.
        -- assert (p <> y) by (intros ->; clear -Hp Hy Hhd; set_solver). heap_lookup.
  - split; simpl; apply insert_is_Some; eauto.
  - intros p Hp. assert (p <> lst hd xs /\ p <> List.hd hd ys) as [? ?]
      by (split; intros ->; set_solver). split; heap_lookup.
Qed.

Lemma list_del_init_spec h hd xs n ys :
  dlist h hd (xs ++ n :: ys) ->
  exists h', qd_list_del_init h n = Ok h' /\ dlist h' hd (xs ++ ys) /\ dlist h' n [] /\
    same_except (hd :: xs ++ n :: ys) h h'.
Proof.
  intros Hd. destruct (list_unlink_spec _ _ _ _ _ Hd) as (h1 & E1 & Hd1 & Ep & En & Hm & Hs1).
  destruct (list_init_spec h1 n Hm) as (h2 & E2 & Hd2 & Hs2).
  exists h2. unfold qd_list_del_init. rewrite Ep, En. cbn [obind]. rewrite E1. cbn [obind].
  split; [done|]. destruct Hd as [Hnd _]. apply NoDup_cons in Hnd as [Hhd Hnd].
  apply NoDup_app in Hnd as (_ & Hxy & Hny). apply NoDup_cons in Hny as [Hn _].
  split; [|split; [done|]].
  - apply (dlist_frame [n] h1); auto. intros p Hp ->%list_elem_of_singleton. set_solver.
  - apply (same_except_trans _ h h1).
    + eapply same_except_mono; [|exact Hs1]. set_solver.
    + eapply same_except_mono; [|exact Hs2]. set_solver.
Qed.

(** Splicing the nodes [x :: xs] of [l] in front of the nodes of [hd].  The
    source head keeps its two pointers: [l->next] is still [x]. *)
Lemma list_splice_spec h l x xs hd ys :
  dlist h l (x :: xs) -> dlist h hd ys ->
  (forall p, p ∈ l :: x :: xs -> p ∉ hd :: ys) ->
  exists h', qd_list_splice h l hd = Ok h' /\ dlist h' hd (x :: xs ++ ys) /\
    nxt h' !! l = Some x /\ prv h' !! l = Some (lst x xs) /\
    same_except (x :: xs ++ hd :: ys) h h'.
Proof.
  intros Hdl Hdh Hdis. pose proof Hdl as [Hndl [[Hl1 Hl2] Hcl]]. pose proof Hdh as [Hndh Hch].
  pose proof (chain_last _ _ _ _ Hcl) as [Hla1 Hla2].
  pose proof (chain_first _ _ _ _ Hch) as Hf. pose proof (lst_elem x xs) as Hlst.
  assert (List.hd hd ys ∈ hd :: ys) as Hfe by (destruct ys; simpl; set_solver).
  assert (is_Some (prv h !! List.hd hd ys)) as Hm2 by (by eapply dlist_mapped).
  assert (is_Some (prv h !! x)) as Hm3 by eauto.
  assert (is_Some (nxt h !! hd)) as Hm4 by eauto.
  assert (is_Some (nxt h !! lst x xs)) as Hm5 by eauto.
  apply NoDup_cons in Hndl as [Hlx Hndl]. assert (x <> l) by (intros ->; set_solver).
  assert (lst x xs ∉ hd :: ys) as Hlh by (apply Hdis, list_elem_of_further, Hlst).
  assert (x ∉ hd :: ys /\ l ∉ hd :: ys) as [Hxh Hlhd] by (split; apply Hdis; set_solver).
  assert (lst x xs <> hd /\ x <> hd /\ l <> hd) as (? & ? & ?)
    by (repeat split; [ne_by Hlh | ne_by Hxh | ne_by Hlhd]).
  assert (x <> List.hd hd ys /\ l <> List.hd hd ys) as [? ?]
    by (split; [ne_by Hxh | ne_by Hlhd]).
  unfold qd_list_splice, qd_list_empty, __qd_list_splice. heap_step.
  destruct (Z.eqb_spec x l); [done|]. repeat heap_step.
  eexists. split; [done|]. split; [|split; [|split]].
  - apply NoDup_cons in Hndh as [Hhd Hndh]. split.
    + apply NoDup_cons. split; [set_solver|]. change (x :: xs ++ ys) with ((x :: xs) ++ ys).
      apply NoDup_app. repeat split; try done. set_solver.
    + split; [split; heap_lookup|]. destruct ys as [|y ys]; simpl in *.
      * rewrite app_nil_r. apply (chain_retarget h _ x xs l); try done.
        -- intros p Hp Hne. assert (p <> hd) by (intros ->; set_solver). heap_lookup.
        -- intros p Hp. assert (p <> hd /\ p <> x) as [? ?]
             by (apply NoDup_cons in Hndl as [? ?]; split; intros ->; set_solver). heap_lookup.
        -- split; heap_lookup.
      * destruct Hch as [_ Hch]. apply NoDup_cons in Hndh as [Hy Hndh]. apply chain_app. split.
        -- apply (chain_retarget h _ x xs l); try done.
           ++ intros p Hp Hne. assert (p <> hd) by (intros ->; set_solver). heap_lookup.
           ++ intros p Hp. assert (p <> y /\ p <> x) as [? ?]
                by (apply NoDup_cons in Hndl as [? ?]; split; intros ->; set_solver). heap_lookup.
           ++ split; heap_lookup.
        -- apply (chain_frame h); [done| |]; intros p Hp.
           ++ assert (p <> hd /\ p <> lst x xs) as [? ?] by (split; intros ->; set_solver). heap_lookup.
           ++ assert (p <> y /\ p <> x) as [? ?] by (split; intros ->; set_solver). heap_lookup.
  - assert (l <> lst x xs) by (intros ->; set_solver). heap_lookup.
  - heap_lookup.
  - intros p Hp. assert (p <> x /\ p <> hd /\ p <> lst x xs /\ p <> List.hd hd ys) as (? & ? & ? & ?)
      by (repeat split; intros ->; set_solver). split; heap_lookup.
Qed.

(** Traversal visits the nodes in order and stops: [length xs] steps suffice. *)
Lemma for_each_chain h hd xs a fuel :
  chain h a xs hd -> NoDup (hd :: xs) -> (length xs <= fuel)%nat ->
  exists n, get_next h a = Ok n /\ for_each fuel h n hd = Ok xs.
Proof.
  revert a fuel. induction xs as [|x xs IH]; intros a fuel Hc Hnd Hf.
  - destruct Hc as [H1 _]. exists hd. split; [by apply get_next_ok|].
    destruct fuel; simpl; by rewrite Z.eqb_refl.
  - destruct Hc as [[H1 _] Hc]. exists x. split; [by apply get_next_ok|].
    apply NoDup_cons in Hnd as [Hhd Hnd]. destruct fuel as [|fuel]; simpl in Hf; [lia|].
    destruct (IH x fuel Hc) as (n & En & Ef); [|lia|].
    { apply NoDup_cons in Hnd as [? ?]. apply NoDup_cons. split; [set_solver|done]. }
    simpl. destruct (Z.eqb_spec x hd) as [->|]; [set_solver|].
    rewrite En. cbn [obind]. by rewrite Ef.
Qed.

Lemma list_empty_spec h hd xs :
  dlist h hd xs -> qd_list_empty h hd = Ok (match xs with [] => true | _ => false end).
Proof.
  intros [Hnd Hc]. unfold qd_list_empty. rewrite (get_next_ok _ _ _ (chain_first _ _ _ _ Hc)).
  destruct xs as [|x xs]; simpl; f_equal; [apply Z.eqb_refl|].
  apply Z.eqb_neq. intros ->. apply NoDup_cons in Hnd as [? _]. set_solver.
Qed.

(** ** No operation loses a node *)

Definition preserves (h h' : heap) : Prop := forall p, mapped h p -> mapped h' p.

Lemma preserves_trans h1 h2 h3 : preserves h1 h2 -> preserves h2 h3 -> preserves h1 h3.
Proof. intros H1 H2 p Hp. auto. Qed.

Lemma set_next_preserves h p v h' : set_next h p v = Ok h' -> preserves h h'.
Proof.
  unfold set_next. destruct (nxt h !! p); [|done]. intros [= <-] q [? ?].
  split; [by apply insert_is_Some | done].
Qed.

Lemma set_prev_preserves h p v h' : set_prev h p v = Ok h' -> preserves h h'.
Proof.
  unfold set_prev. destruct (prv h !! p); [|done]. intros [= <-] q [? ?].
  split; [done | by apply insert_is_Some].
Qed.


(** Take a run of bindings apart. *)
Ltac obind_inv :=
  repeat match goal with
  | H : obind _ _ = Ok _ |- _ =>
    let a := fresh "a" in let E := fresh "E" in
    apply obind_ok in H as (a & E & H); cbn beta in H
  end.

Ltac preserves_tac :=
  intros; obind_inv;
  repeat match goal with
  | H : set_next _ _ _ = Ok _ |- _ => apply set_next_preserves in H
  | H : set_prev _ _ _ = Ok _ |- _ => apply set_prev_preserves in H
  end; intros p Hp; eauto 10.

Lemma list_init_preserves h l h' : qd_list_init h l = Ok h' -> preserves h h'.
Proof. unfold qd_list_init. preserves_tac. Qed.

Lemma list_add_tail_preserves h n hd h' : qd_list_add_tail h n hd = Ok h' -> preserves h h'.
Proof. unfold qd_list_add_tail, __qd_list_add. preserves_tac. Qed.

Lemma list_del_init_preserves h n h' : qd_list_del_init h n = Ok h' -> preserves h h'.
Proof. unfold qd_list_del_init, qd_list_init, __qd_list_del. preserves_tac. Qed.

(** ** A family of disjoint lists

    [lists_ok h heads L]: each head of [heads] is a circular list with the
    nodes [L hd], and no two of them share a node. *)

Definition lists_ok (h : heap) (heads : list loc) (L : loc -> list loc) : Prop :=
  (forall hd, hd ∈ heads -> dlist h hd (L hd)) /\
  (forall h1 h2, h1 ∈ heads -> h2 ∈ heads -> h1 <> h2 ->
     forall p, p ∈ h1 :: L h1 -> p ∉ h2 :: L h2).

(** A node that is in none of the lists. *)
Definition loose (heads : list loc) (L : loc -> list loc) (p : loc) : Prop :=
  forall hd, hd ∈ heads -> p ∉ hd :: L hd.

Definition upd (hd : loc) (xs : list loc) (L : loc -> list loc) : loc -> list loc :=
  fun p => if decide (p = hd) then xs else L p.

Lemma upd_eq hd xs L : upd hd xs L hd = xs.
Proof. unfold upd. by case_decide. Qed.

Lemma upd_ne hd xs L p : p <> hd -> upd hd xs L p = L p.
Proof. unfold upd. by case_decide. Qed.

Lemma lists_update h h' heads L hd ps xs :
  lists_ok h heads L -> hd ∈ heads -> same_except ps h h' -> dlist h' hd xs ->
  (forall p, p ∈ ps -> p ∈ hd :: L hd \/ loose heads L p) ->
  (forall p, p ∈ xs -> p ∈ hd :: L hd \/ loose heads L p) ->
  lists_ok h' heads (upd hd xs L).
Proof.
  intros [Hok Hdis] Hhd Hs Hd Hps Hxs. split.
  - intros hd' Hhd'. destruct (decide (hd' = hd)) as [->|Hne]; [by rewrite upd_eq|].
    rewrite upd_ne by done. apply (dlist_frame ps h); auto.
    intros p Hp Hin. destruct (Hps p Hin) as [Hin'|Hl]; [|by apply (Hl hd')].
    by apply (Hdis hd' hd Hhd' Hhd Hne p).
  - intros h1 h2 H1 H2 Hne p Hp1 Hp2.
    assert (forall h0, h0 ∈ heads -> h0 <> hd -> p ∈ h0 :: L h0 -> p ∈ hd :: xs -> False) as Hcross.
    { intros h0 H0 Hne0 Hin0 Hin1. apply elem_of_cons in Hin1 as [->|Hin1].
      - apply (Hdis h0 hd H0 Hhd Hne0 hd Hin0). set_solver.
      - destruct (Hxs p Hin1) as [Hin'|Hl]; [by apply (Hdis h0 hd H0 Hhd Hne0 p) | by apply (Hl h0)]. }
    destruct (decide (h1 = hd)) as [->|N1], (decide (h2 = hd)) as [->|N2]; [done | | |].
    + rewrite upd_eq in Hp1. rewrite upd_ne in Hp2 by done. by apply (Hcross h2).
    + rewrite upd_eq in Hp2. rewrite upd_ne in Hp1 by done. by apply (Hcross h1).
    + rewrite upd_ne in Hp1, Hp2 by done. by apply (Hdis h1 h2 H1 H2 Hne p).
Qed.

Lemma lists_add_tail h heads L hd n :
  lists_ok h heads L -> hd ∈ heads -> loose heads L n -> mapped h n ->
  exists h', qd_list_add_tail h n hd = Ok h' /\
    lists_ok h' heads (upd hd (L hd ++ [n]) L) /\ preserves h h'.
Proof.
  intros Hok Hhd Hl Hm. pose proof Hok as [Hd _].
  destruct (list_add_tail_spec h n hd (L hd) (Hd hd Hhd) Hm (Hl hd Hhd)) as (h' & E & Hd' & Hs).
  exists h'. split; [done|]. split; [|by eapply list_add_tail_preserves].
  eapply lists_update; eauto.
  - intros p [->|Hp]%elem_of_cons; [by right | by left].
  - intros p [Hp| ->%list_elem_of_singleton]%elem_of_app; [left; set_solver | by right].
Qed.

Lemma lists_del_init h heads L hd xs n ys :
  lists_ok h heads L -> hd ∈ heads -> L hd = xs ++ n :: ys ->
  exists h', qd_list_del_init h n = Ok h' /\
    lists_ok h' heads (upd hd (xs ++ ys) L) /\ loose heads (upd hd (xs ++ ys) L) n /\
    preserves h h'.
Proof.
  intros Hok Hhd HL. pose proof Hok as [Hd Hdis]. specialize (Hd hd Hhd). rewrite HL in Hd.
  destruct (list_del_init_spec h hd xs n ys Hd) as (h' & E & Hd' & Hn & Hs).
  exists h'. split; [done|]. split; [|split; [|by eapply list_del_init_preserves]].
  - eapply lists_update; eauto; intros p Hp; left; rewrite HL; set_solver.
  - intros hd' Hhd'. destruct (decide (hd' = hd)) as [->|Hne].
    + rewrite upd_eq. destruct Hd as [Hnd _]. apply NoDup_cons in Hnd as [? Hnd].
      apply NoDup_app in Hnd as (_ & Hxy & Hny). apply NoDup_cons in Hny as [? _]. set_solver.
    + rewrite upd_ne by done. intros Hin.
      apply (Hdis hd hd' Hhd Hhd' (not_eq_sym Hne) n); [rewrite HL; set_solver | done].
Qed.

(** Only the lists of the heads matter. *)
Lemma lists_ok_ext h heads L L' :
  (forall hd, hd ∈ heads -> L' hd = L hd) -> lists_ok h heads L -> lists_ok h heads L'.
Proof.
  intros HE [Hd Hdis]. split.
  - intros hd Hh. rewrite HE by done. auto.
  - intros h1 h2 H1 H2 Hne. rewrite !HE by done. by apply Hdis.
Qed.

Lemma loose_ext heads L L' p :
  (forall hd, hd ∈ heads -> L' hd = L hd) -> loose heads L p -> loose heads L' p.
Proof. intros HE Hl hd Hh. rewrite HE by done. auto. Qed.

(** A list whose nodes are all reached from [a] and that never meets [head]: the
    traversal does not end. *)
Lemma for_each_lost h head (ring : list loc) :
  (forall p, p ∈ ring -> exists q, nxt h !! p = Some q /\ q ∈ ring) -> head ∉ ring ->
  forall fuel p, p ∈ ring -> for_each fuel h p head = Fuel.
Proof.
  intros Hclosed Hnot fuel. induction fuel as [|fuel IH]; intros p Hp; simpl;
    (destruct (Z.eqb_spec p head) as [->|_]; [done|]); [done|].
  destruct (Hclosed p Hp) as (q & Hq & Hin). rewrite (get_next_ok _ _ _ Hq). cbn [obind].
  by rewrite (IH q Hin).
Qed.

Lemma chain_next h a xs b p :
  chain h a xs b -> p ∈ a :: xs -> exists q, nxt h !! p = Some q /\ q ∈ b :: xs.
Proof.
  revert a. induction xs as [|x xs IH]; intros a Hc Hp.
  - apply list_elem_of_singleton in Hp as ->. exists b. split; [apply Hc|apply list_elem_of_here].
  - destruct Hc as [[Hn _] Hc]. apply elem_of_cons in Hp as [->|Hp].
    + exists x. split; [done|]. apply list_elem_of_further, list_elem_of_here.
    + destruct (IH x Hc Hp) as (q & Hq & Hin). exists q. split; [done|]. set_solver.
Qed.

Lemma dlist_for_each h hd xs fuel :
  dlist h hd xs -> (length xs <= fuel)%nat -> qd_list_for_each fuel h hd = Ok xs.
Proof.
  intros [Hnd Hc] Hf. destruct (for_each_chain h hd xs hd fuel Hc Hnd Hf) as (n & En & E).
  unfold qd_list_for_each. rewrite En. exact E.
Qed.

(** Two lists in a small heap, for the witnesses: head 1 holds 11 and 12, head 2 holds 21. *)
Definition two_lists : outcome heap :=
  let h := foldl alloc_node (mkHeap ∅ ∅) [1; 2; 11; 12; 21] in
  let! h := qd_list_init h 1 in
  let! h := qd_list_init h 2 in
  let! h := qd_list_add_tail h 11 1 in
  let! h := qd_list_add_tail h 12 1 in
  qd_list_add_tail h 21 2.

Lemma two_lists_ok : exists h, two_lists = Ok h /\ dlist h 1 [11; 12] /\ dlist h 2 [21].
Proof.
  eexists. split; [vm_compute; reflexivity|].
  split; (split; [apply (bool_decide_unpack _); vm_compute; exact I | repeat split]).
Qed.

(** ** Properties *)

(** Moving a node.  [qd_list_move_tail] takes a node out of its list and puts
    it last in the other one; walking the two lists afterwards gives exactly the
    remaining nodes and the old nodes with the moved one behind. *)
Theorem move_tail_walk h l xs n ys hd zs fuel :
  dlist h l (xs ++ n :: ys) -> dlist h hd zs ->
  (forall p, p ∈ l :: xs ++ n :: ys -> p ∉ hd :: zs) ->
  (length (xs ++ n :: ys) + length zs < fuel)%nat ->
  exists h', qd_list_move_tail h n hd = Ok h' /\
    qd_list_for_each fuel h' l = Ok (xs ++ ys) /\ qd_list_for_each fuel h' hd = Ok (zs ++ [n]) /\
    dlist h' l (xs ++ ys) /\ dlist h' hd (zs ++ [n]).
Proof.
  intros Hl Hh Hdis Hf. destruct (list_unlink_spec _ _ _ _ _ Hl) as (h1 & E1 & Hd1 & Ep & En & Hm & Hs1).
  assert (dlist h1 hd zs) as Hh1.
  { apply (dlist_frame (l :: xs ++ ys) h); [done| |done]. intros p Hp Hq. apply (Hdis p); set_solver. }
  destruct (list_add_tail_spec h1 n hd zs Hh1 Hm) as (h2 & E2 & Hd2 & Hs2).
  { apply Hdis. set_solver. }
  assert (dlist h2 l (xs ++ ys)) as Hl2.
  { apply (dlist_frame (n :: hd :: zs) h1); [done| |done]. destruct Hl as [Hnd _].
    intros p Hp [->|Hq]%elem_of_cons; [|apply (Hdis p); set_solver].
    apply NoDup_cons in Hnd as [Hn1 Hnd]. apply NoDup_app in Hnd as (_ & Hxy & Hny).
    apply NoDup_cons in Hny as [Hn _]. set_solver. }
  exists h2. unfold qd_list_move_tail. rewrite Ep, En. cbn [obind]. rewrite E1. cbn [obind].
  split; [done|]. rewrite !length_app in Hf. cbn [length] in Hf.
  split; [apply dlist_for_each; [done|rewrite length_app; lia]|].
  split; [apply dlist_for_each; [done|rewrite length_app; simpl; lia]|]. done.
Qed.

Lemma move_tail_walk_witness : exists h h',
  qd_list_move_tail h 11 2 = Ok h' /\
  qd_list_for_each 9 h' 1 = Ok [12] /\ qd_list_for_each 9 h' 2 = Ok [21; 11].
Proof.
  destruct two_lists_ok as (h & _ & H1 & H2). exists h.
  destruct (move_tail_walk h 1 [] 11 [12] 2 [21] 9) as (h' & E & E1 & E2 & _).
  - exact H1.
  - exact H2.
  - intros p Hp Hq. simpl in Hp. set_solver by lia.
  - simpl. lia.
  - exists h'. auto.
Defined.

(** A splice leaves the source head behind.  [qd_list_splice] puts all nodes
    of a non-empty source in front of the target's, so that walking the target
    gives both; but the source head is not reinitialised, the source still looks
    non-empty, and walking it never comes back to its head. *)
Theorem splice_leaves_source h l x xs hd ys fuel :
  dlist h l (x :: xs) -> dlist h hd ys ->
  (forall p, p ∈ l :: x :: xs -> p ∉ hd :: ys) ->
  (length (x :: xs) + length ys <= fuel)%nat ->
  exists h', qd_list_splice h l hd = Ok h' /\
    qd_list_for_each fuel h' hd = Ok (x :: xs ++ ys) /\
    qd_list_empty h' l = Ok false /\ forall fuel', qd_list_for_each fuel' h' l = Fuel.
Proof.
  intros Hl Hh Hdis Hf. destruct (list_splice_spec _ _ _ _ _ _ Hl Hh Hdis) as (h' & E & Hd & Hn & _ & _).
  exists h'. split; [done|]. split.
  { apply dlist_for_each; [done|]. simpl in *. rewrite length_app. lia. }
  assert (x <> l) as Hxl by (intros ->; destruct Hl as [Hnd _]; apply NoDup_cons in Hnd as [Hnd _]; set_solver).
  split.
  - unfold qd_list_empty. rewrite (get_next_ok _ _ _ Hn). cbn [obind]. by destruct (Z.eqb_spec x l).
  - intros fuel'. unfold qd_list_for_each. rewrite (get_next_ok _ _ _ Hn). cbn [obind].
    apply (for_each_lost _ _ (hd :: x :: xs ++ ys)).
    + intros p Hp. destruct Hd as [_ Hc]. by apply (chain_next _ _ _ _ _ Hc).
    + destruct Hl as [Hnd _]. apply NoDup_cons in Hnd as [Hnd _]. specialize (Hdis l). set_solver.
    + set_solver.
Qed.

Lemma splice_leaves_source_witness : exists h h',
  qd_list_splice h 1 2 = Ok h' /\ qd_list_for_each 9 h' 2 = Ok [11; 12; 21] /\
  forall fuel, qd_list_for_each fuel h' 1 = Fuel.
Proof.
  destruct two_lists_ok as (h & _ & H1 & H2). exists h.
  destruct (splice_leaves_source h 1 11 [12] 2 [21] 9) as (h' & E & E1 & _ & E2).
  - exact H1.
  - exact H2.
  - intros p Hp Hq. set_solver by lia.
  - simpl. lia.
  - exists h'. auto.
Defined.
