(* ===== verification/Timer.v ===== *)
(** * src/core/qd_timer.c: the hierarchical timer wheel

    A timer is a struct with an embedded list node; the wheel has 4 levels of
    256 list heads and a list of expired timers.  All of them are nodes of one
    heap (file DList), so that the pointer surgery of the code is what is
    modelled, not an abstract sequence.  The address of a timer is the address
    of its node.  The wheel's lock is held by every operation that touches the
    lists, so an operation is one step; callbacks run outside of the lock and
    are an argument, a function on the whole state. *)

From S2P Require Import Prelude Common DList.

Definition QD_TIMER_WHEEL_BITS : Z := 8.
Definition QD_TIMER_WHEEL_SIZE : Z := 256.
Definition QD_TIMER_WHEEL_MASK : Z := 255.
Definition QD_TIMER_WHEEL_LEVELS : Z := 4.
Definition QD_TIMER_PERIODIC : Z := 1.

Inductive qd_timer_state := QD_TIMER_IDLE | QD_TIMER_SCHEDULED | QD_TIMER_RUNNING | QD_TIMER_CANCELLED.

#[export] Instance qd_timer_state_eq_dec : EqDecision qd_timer_state.
Proof. solve_decision. Defined.

(** [struct qd_timer], less its list node, which is in the heap. *)
Record qd_timer := mkTimer {
  expires : Z;
  interval : Z;
  callback : bool;      (* a callback is set *)
  flags : Z;
  state : qd_timer_state;
  slot : Z;
  wheel_level : Z;
  wheel : bool          (* the timer has an owning wheel *)
}.

(** [struct qd_timer_wheel] with the memory it lives in.  [fired] is a record of
    the callback invocations, in order. *)
Record qd_timer_wheel := mkWheel {
  hp : heap;
  timers : gmap Z qd_timer;
  current_tick : Z;
  tick_interval_ms : Z;
  base_time : Z;
  timers_added : Z;
  timers_expired : Z;
  timers_cancelled : Z;
  tick_count : Z;
  num_timers : Z;
  fired : list loc
}.

(** Addresses: the heads of the wheel's slots, of [wheel->expired], and of the
    two list heads that live on the stack of the running function. *)
Definition slot_head (level slot : Z) : loc := 1 + level * QD_TIMER_WHEEL_SIZE + slot.
Definition expired_head : loc := 1 + QD_TIMER_WHEEL_LEVELS * QD_TIMER_WHEEL_SIZE.
Definition tmp_head : loc := 2 + QD_TIMER_WHEEL_LEVELS * QD_TIMER_WHEEL_SIZE.
Definition local_head : loc := 3 + QD_TIMER_WHEEL_LEVELS * QD_TIMER_WHEEL_SIZE.

Definition set_hp (h : heap) (w : qd_timer_wheel) : qd_timer_wheel :=
  mkWheel h (timers w) (current_tick w) (tick_interval_ms w) (base_time w) (timers_added w)
    (timers_expired w) (timers_cancelled w) (tick_count w) (num_timers w) (fired w).
Definition set_timers (m : gmap Z qd_timer) (w : qd_timer_wheel) : qd_timer_wheel :=
  mkWheel (hp w) m (current_tick w) (tick_interval_ms w) (base_time w) (timers_added w)
    (timers_expired w) (timers_cancelled w) (tick_count w) (num_timers w) (fired w).
Definition set_ticks (cur cnt : Z) (w : qd_timer_wheel) : qd_timer_wheel :=
  mkWheel (hp w) (timers w) cur (tick_interval_ms w) (base_time w) (timers_added w)
    (timers_expired w) (timers_cancelled w) cnt (num_timers w) (fired w).
Definition set_base_time (b : Z) (w : qd_timer_wheel) : qd_timer_wheel :=
  mkWheel (hp w) (timers w) (current_tick w) (tick_interval_ms w) b (timers_added w)
    (timers_expired w) (timers_cancelled w) (tick_count w) (num_timers w) (fired w).
Definition set_counts (added expd cancelled num : Z) (w : qd_timer_wheel) : qd_timer_wheel :=
  mkWheel (hp w) (timers w) (current_tick w) (tick_interval_ms w) (base_time w) added
    expd cancelled (tick_count w) num (fired w).
Definition log_fired (t : loc) (w : qd_timer_wheel) : qd_timer_wheel :=
  mkWheel (hp w) (timers w) (current_tick w) (tick_interval_ms w) (base_time w) (timers_added w)
    (timers_expired w) (timers_cancelled w) (tick_count w) (num_timers w) (fired w ++ [t]).

Definition get_timer (w : qd_timer_wheel) (t : loc) : outcome qd_timer := of_option (timers w !! t).
Definition put_timer (w : qd_timer_wheel) (t : loc) (tm : qd_timer) : qd_timer_wheel :=
  set_timers (<[t:=tm]> (timers w)) w.

Definition set_place (level s : Z) (tm : qd_timer) : qd_timer :=
  mkTimer (expires tm) (interval tm) (callback tm) (flags tm) (state tm) s level (wheel tm).
Definition set_slot (s : Z) (tm : qd_timer) : qd_timer := set_place (wheel_level tm) s tm.
Definition set_state (st : qd_timer_state) (tm : qd_timer) : qd_timer :=
  mkTimer (expires tm) (interval tm) (callback tm) (flags tm) st (slot tm) (wheel_level tm) (wheel tm).
Definition set_expiry (e i f : Z) (tm : qd_timer) : qd_timer :=
  mkTimer e i (callback tm) f (state tm) (slot tm) (wheel_level tm) (wheel tm).

(** ** Slots *)

(** The level and slot of an expiration time. *)
Definition calculate_slot (cur expires : Z) : Z * Z :=
  let delta := expires -64 cur in
  let at_level k := Z.land (Z.shiftr (cur +64 delta) (k * QD_TIMER_WHEEL_BITS)) QD_TIMER_WHEEL_MASK in
  if delta <? QD_TIMER_WHEEL_SIZE then (0, at_level 0)
  else if delta <? Z.shiftl 1 (2 * QD_TIMER_WHEEL_BITS) then (1, at_level 1)
  else if delta <? Z.shiftl 1 (3 * QD_TIMER_WHEEL_BITS) then (2, at_level 2)
  else (3, at_level 3).

Definition add_timer_internal (w : qd_timer_wheel) (t : loc) : outcome qd_timer_wheel :=
  let! tm := get_timer w t in
  let '(level, s) := calculate_slot (current_tick w) (expires tm) in
  let w := put_timer w t (set_place level s tm) in
  let! h := qd_list_add_tail (hp w) t (slot_head level s) in
  Ok (set_hp h w).

Definition remove_timer_internal (w : qd_timer_wheel) (t : loc) : outcome qd_timer_wheel :=
  let! tm := get_timer w t in
  if 0 <=? slot tm then
    let! h := qd_list_del_init (hp w) t in
    Ok (put_timer (set_hp h w) t (set_place (-1) (-1) tm))
  else Ok w.

(** ** Creation and destruction *)

Fixpoint init_heads (h : heap) (ps : list loc) : outcome heap :=
  match ps with
  | [] => Ok h
  | p :: ps => let! h := qd_list_init h p in init_heads h ps
  end.

Definition all_slot_heads : list loc :=
  flat_map (fun l => map (fun s => slot_head (Z.of_nat l) (Z.of_nat s)) (seq 0 256)) (seq 0 4).

(** The memory of the wheel and of the two stack heads, before initialisation. *)
Definition fresh_heap : heap :=
  foldl alloc_node (mkHeap ∅ ∅) (all_slot_heads ++ [expired_head; tmp_head; local_head]).

Definition qd_timer_wheel_create (calloc_ok : bool) (now tick_interval : Z) : outcome (option qd_timer_wheel) :=
  if negb calloc_ok then Ok None else
  let! h := init_heads fresh_heap all_slot_heads in
  let! h := qd_list_init h expired_head in
  Ok (Some (mkWheel h ∅ 0 (if 0 <? tick_interval then tick_interval else 1) now 0 0 0 0 0 [])).

Fixpoint unlink_all (fuel : nat) (h : heap) (list : loc) : outcome heap :=
  match fuel with
  | O => Fuel
  | S fuel =>
    let! e := qd_list_empty h list in
    if e then Ok h else
    let! t := get_next h list in
    let! h := qd_list_del h t in
    unlink_all fuel h list
  end.

Fixpoint destroy_slots (fuel : nat) (h : heap) (ps : list loc) : outcome heap :=
  match ps with
  | [] => Ok h
  | p :: ps => let! h := unlink_all fuel h p in destroy_slots fuel h ps
  end.

(** The timers are the caller's; only the links are taken apart. *)
Definition qd_timer_wheel_destroy (fuel : nat) (w : option qd_timer_wheel) : outcome (option heap) :=
  match w with
  | None => Ok None
  | Some w => let! h := destroy_slots fuel (hp w) all_slot_heads in Ok (Some h)
  end.

(** ** Ticking *)

Fixpoint cascade_loop (fuel : nat) (w : qd_timer_wheel) : outcome qd_timer_wheel :=
  match fuel with
  | O => Fuel
  | S fuel =>
    let! e := qd_list_empty (hp w) tmp_head in
    if e then Ok w else
    let! t := get_next (hp w) tmp_head in
    let! h := qd_list_del_init (hp w) t in
    let w := set_hp h w in
    let! tm := get_timer w t in
    let w := put_timer w t (set_slot (-1) tm) in
    let! w := add_timer_internal w t in
    cascade_loop fuel w
  end.

Definition cascade_timers (fuel : nat) (w : qd_timer_wheel) (level : Z) : outcome qd_timer_wheel :=
  if QD_TIMER_WHEEL_LEVELS <=? level then Ok w else
  let s := Z.land (Z.shiftr (current_tick w) (level * QD_TIMER_WHEEL_BITS)) QD_TIMER_WHEEL_MASK in
  let! h := qd_list_init (hp w) tmp_head in
  let! h := qd_list_splice h (slot_head level s) tmp_head in
  cascade_loop fuel (set_hp h w).

(** The timers of the current slot move to the expired list. *)
Fixpoint drain_slot (fuel : nat) (w : qd_timer_wheel) (list : loc) (count : Z)
  : outcome (qd_timer_wheel * Z) :=
  match fuel with
  | O => Fuel
  | S fuel =>
    let! e := qd_list_empty (hp w) list in
    if e then Ok (w, count) else
    let! t := get_next (hp w) list in
    let! h := qd_list_del_init (hp w) t in
    let w := set_hp h w in
    let! tm := get_timer w t in
    let w := put_timer w t (set_slot (-1) tm) in
    if expires tm <=? current_tick w then
      let! h := qd_list_add_tail (hp w) t expired_head in
      drain_slot fuel (set_hp h w) list (count + 1)
    else
      let! w := add_timer_internal w t in
      drain_slot fuel w list count
  end.

Definition cascade_all (fuel : nat) (w : qd_timer_wheel) : outcome qd_timer_wheel :=
  if Z.land (current_tick w) QD_TIMER_WHEEL_MASK =? 0 then
    let! w := cascade_timers fuel w 1 in
    if Z.land (current_tick w) (Z.shiftl 1 (2 * QD_TIMER_WHEEL_BITS) - 1) =? 0 then
      let! w := cascade_timers fuel w 2 in
      if Z.land (current_tick w) (Z.shiftl 1 (3 * QD_TIMER_WHEEL_BITS) - 1) =? 0
      then cascade_timers fuel w 3
      else Ok w
    else Ok w
  else Ok w.

Fixpoint tick_loop (fuel : nat) (w : qd_timer_wheel) (target count : Z)
  : outcome (qd_timer_wheel * Z) :=
  match fuel with
  | O => Fuel
  | S fuel' =>
    if current_tick w <? target then
      let s := Z.land (current_tick w) QD_TIMER_WHEEL_MASK in
      let! (w, count) := drain_slot fuel w (slot_head 0 s) count in
      let w := set_ticks (current_tick w +64 1) (tick_count w +64 1) w in
      let! w := cascade_all fuel w in
      tick_loop fuel' w target count
    else Ok (w, count)
  end.

Section callbacks.
Context (cb : loc -> qd_timer_wheel -> outcome qd_timer_wheel).

Fixpoint run_expired (fuel : nat) (w : qd_timer_wheel) : outcome qd_timer_wheel :=
  match fuel with
  | O => Fuel
  | S fuel =>
    let! e := qd_list_empty (hp w) local_head in
    if e then Ok w else
    let! t := get_next (hp w) local_head in
    let! h := qd_list_del_init (hp w) t in
    let w := set_hp h w in
    let! tm := get_timer w t in
    let w := put_timer w t (set_state QD_TIMER_RUNNING tm) in
    let! w := (if callback tm then cb t (log_fired t w) else Ok w) in
    let w := set_counts (timers_added w) (timers_expired w +64 1) (timers_cancelled w) (num_timers w) w in
    let! tm := get_timer w t in
    if negb (Z.land (flags tm) QD_TIMER_PERIODIC =? 0) then
      let w := put_timer w t (set_expiry (current_tick w +64 interval tm) (interval tm) (flags tm) tm) in
      let! w := add_timer_internal w t in
      let! tm := get_timer w t in
      run_expired fuel (put_timer w t (set_state QD_TIMER_SCHEDULED tm))
    else
      let w := put_timer w t (set_state QD_TIMER_IDLE tm) in
      run_expired fuel (set_counts (timers_added w) (timers_expired w) (timers_cancelled w)
                          (i32 (num_timers w - 1)) w)
  end.

Definition qd_timer_wheel_tick (fuel : nat) (now : Z) (wo : option qd_timer_wheel)
  : outcome (Z * option qd_timer_wheel) :=
  match wo with
  | None => Ok (0, None)
  | Some w =>
    let elapsed_ms := now -64 base_time w in
    let target_tick := elapsed_ms / tick_interval_ms w in
    if target_tick <=? current_tick w then Ok (0, Some w) else
    let! (w, count) := tick_loop fuel w target_tick 0 in
    let! h := qd_list_init (hp w) local_head in
    let! h := qd_list_splice h expired_head local_head in
    let! w := run_expired fuel (set_hp h w) in
    Ok (count, Some w)
  end.

(** [real_now] is what qd_time_now returns inside the call. *)
Definition qd_timer_wheel_tick_to (fuel : nat) (real_now now : Z) (wo : option qd_timer_wheel)
  : outcome (Z * option qd_timer_wheel) :=
  match wo with
  | None => Ok (0, None)
  | Some w =>
    let w := set_base_time (now -64 (current_tick w *64 tick_interval_ms w)) w in
    qd_timer_wheel_tick fuel real_now (Some w)
  end.
End callbacks.

(** ** Timers *)

Fixpoint next_slot (h : heap) (cur : Z) (i : Z) (fuel : nat) : outcome (option Z) :=
  match fuel with
  | O => Ok None
  | S fuel =>
    let s := Z.land (cur +64 i) QD_TIMER_WHEEL_MASK in
    let! e := qd_list_empty h (slot_head 0 s) in
    if negb e then Ok (Some i) else next_slot h cur (i + 1) fuel
  end.

Definition qd_timer_wheel_next_timeout (wo : option qd_timer_wheel) : outcome Z :=
  match wo with
  | None => Ok (-1)
  | Some w =>
    if num_timers w =? 0 then Ok (-1) else
    let! r := next_slot (hp w) (current_tick w) 0 256 in
    match r with
    | Some i => Ok (i64 (i *64 tick_interval_ms w))
    | None => Ok (i64 (tick_interval_ms w))
    end
  end.

(** [qd_timer_init] on the memory at [t]. *)
Definition qd_timer_init (w : qd_timer_wheel) (t : loc) (has_wheel has_cb : bool)
  : outcome qd_timer_wheel :=
  let w := put_timer w t (mkTimer 0 0 has_cb 0 QD_TIMER_IDLE (-1) (-1) has_wheel) in
  let! h := qd_list_init (hp w) t in
  Ok (set_hp h w).

(** The allocator returns [t] (or fails); the new node's memory is zeroed. *)
Definition qd_timer_create (w : qd_timer_wheel) (t : option loc) (has_cb : bool)
  : outcome (option loc * qd_timer_wheel) :=
  match t with
  | None => Ok (None, w)
  | Some t =>
    let! w := qd_timer_init (set_hp (alloc_node (hp w) t) w) t true has_cb in
    Ok (Some t, w)
  end.

(** Lines shared by the two start functions: the delay in ticks, at least 1. *)
Definition delay_ticks (w : qd_timer_wheel) (delay_ms : Z) : Z :=
  let d := delay_ms / tick_interval_ms w in if d =? 0 then 1 else d.

Definition qd_timer_start (w : qd_timer_wheel) (t : loc) (delay_ms : Z)
  : outcome (Z * qd_timer_wheel) :=
  let! tm := get_timer w t in
  if negb (wheel tm) then Ok (QD_ERR_INVAL, w) else
  let! w := remove_timer_internal w t in
  let d := delay_ticks w delay_ms in
  let! tm := get_timer w t in
  let w := put_timer w t (set_expiry (current_tick w +64 d) d
             (Z.land (flags tm) (u32 (Z.lnot QD_TIMER_PERIODIC))) tm) in
  let! w := add_timer_internal w t in
  let! tm := get_timer w t in
  let w := put_timer w t (set_state QD_TIMER_SCHEDULED tm) in
  Ok (QD_OK, set_counts (timers_added w +64 1) (timers_expired w) (timers_cancelled w)
               (i32 (num_timers w + 1)) w).

Definition qd_timer_start_periodic (w : qd_timer_wheel) (t : loc) (interval_ms : Z)
  : outcome (Z * qd_timer_wheel) :=
  let! tm := get_timer w t in
  if negb (wheel tm) then Ok (QD_ERR_INVAL, w) else
  let! w := remove_timer_internal w t in
  let d := delay_ticks w interval_ms in
  let! tm := get_timer w t in
  let w := put_timer w t (set_expiry (current_tick w +64 d) d
             (Z.lor (flags tm) QD_TIMER_PERIODIC) tm) in
  let! w := add_timer_internal w t in
  let! tm := get_timer w t in
  let w := put_timer w t (set_state QD_TIMER_SCHEDULED tm) in
  Ok (QD_OK, set_counts (timers_added w +64 1) (timers_expired w) (timers_cancelled w)
               (i32 (num_timers w + 1)) w).

Definition qd_timer_start_at (w : qd_timer_wheel) (t : loc) (now when : Z)
  : outcome (Z * qd_timer_wheel) :=
  let! tm := get_timer w t in
  if negb (wheel tm) then Ok (QD_ERR_INVAL, w) else
  if when <=? now then qd_timer_start w t 0 else qd_timer_start w t (when -64 now).

Definition qd_timer_stop (w : qd_timer_wheel) (t : loc) : outcome (Z * qd_timer_wheel) :=
  let! tm := get_timer w t in
  if negb (wheel tm) then Ok (QD_ERR_INVAL, w) else
  let! w := (if 0 <=? slot tm then
               let! w := remove_timer_internal w t in
               Ok (set_counts (timers_added w) (timers_expired w) (timers_cancelled w +64 1)
                     (i32 (num_timers w - 1)) w)
             else Ok w) in
  let! tm := get_timer w t in
  Ok (QD_OK, put_timer w t (set_state QD_TIMER_CANCELLED tm)).

Definition qd_timer_restart (w : qd_timer_wheel) (t : loc) : outcome (Z * qd_timer_wheel) :=
  let! tm := get_timer w t in
  if negb (wheel tm) then Ok (QD_ERR_INVAL, w) else
  if negb (Z.land (flags tm) QD_TIMER_PERIODIC =? 0)
  then qd_timer_start_periodic w t (interval tm *64 tick_interval_ms w)
  else qd_timer_start w t (interval tm *64 tick_interval_ms w).

Definition qd_timer_set_delay (w : qd_timer_wheel) (t : loc) (delay_ms : Z)
  : outcome (Z * qd_timer_wheel) :=
  let! tm := get_timer w t in
  if negb (wheel tm) then Ok (QD_ERR_INVAL, w) else
  let w := put_timer w t (set_expiry (expires tm) (delay_ticks w delay_ms) (flags tm) tm) in
  if decide (state tm = QD_TIMER_SCHEDULED) then qd_timer_restart w t else Ok (QD_OK, w).

Definition qd_timer_is_active (w : qd_timer_wheel) (t : loc) : outcome bool :=
  let! tm := get_timer w t in Ok (bool_decide (state tm = QD_TIMER_SCHEDULED)).

Definition qd_timer_remaining (w : qd_timer_wheel) (t : loc) : outcome Z :=
  let! tm := get_timer w t in
  if negb (wheel tm) then Ok (-1) else
  if decide (state tm = QD_TIMER_SCHEDULED) then
    let r := i64 (expires tm -64 current_tick w) in
    let r := if r <? 0 then 0 else r in
    Ok (i64 (r *64 tick_interval_ms w))
  else Ok (-1).

Definition qd_timer_add (w : qd_timer_wheel) (t : option loc) (delay_ms : Z) (has_cb : bool)
  : outcome (option loc * qd_timer_wheel) :=
  let! (r, w) := qd_timer_create w t has_cb in
  match r with
  | None => Ok (None, w)
  | Some t =>
    let! (rc, w) := qd_timer_start w t delay_ms in
    if rc =? QD_OK then Ok (Some t, w) else
    let! (_, w) := qd_timer_stop w t in
    Ok (None, set_timers (delete t (timers w)) w)
  end.

Definition qd_timer_add_periodic (w : qd_timer_wheel) (t : option loc) (interval_ms : Z) (has_cb : bool)
  : outcome (option loc * qd_timer_wheel) :=
  let! (r, w) := qd_timer_create w t has_cb in
  match r with
  | None => Ok (None, w)
  | Some t =>
    let! (rc, w) := qd_timer_start_periodic w t interval_ms in
    if rc =? QD_OK then Ok (Some t, w) else
    let! (_, w) := qd_timer_stop w t in
    Ok (None, set_timers (delete t (timers w)) w)
  end.

Definition qd_timer_destroy (w : qd_timer_wheel) (t : loc) : outcome qd_timer_wheel :=
  let! (_, w) := qd_timer_stop w t in
  Ok (set_timers (delete t (timers w)) w).

(** ** Runs *)

(** A wheel of 1 ms ticks created at time 0. *)
Definition new_wheel : outcome qd_timer_wheel :=
  let! r := qd_timer_wheel_create true 0 1 in of_option r.

Definition no_callback_effect : loc -> qd_timer_wheel -> outcome qd_timer_wheel := fun _ w => Ok w.

Definition tick_at (fuel : nat) (now : Z) (w : qd_timer_wheel) : outcome qd_timer_wheel :=
  let! (_, r) := qd_timer_wheel_tick no_callback_effect fuel now (Some w) in of_option r.

(** A one-shot timer of 5 ms, then the wheel is ticked at 6, 7 and 8 ms. *)
Definition oneshot_run : outcome (list loc * Z) :=
  let! w := new_wheel in
  let! (_, w) := qd_timer_add w (Some 2000) 5 true in
  let! w := tick_at 300 6 w in
  let! w := tick_at 300 7 w in
  let! w := tick_at 300 8 w in
  Ok (fired w, num_timers w).

(** ** Slots are within the wheel *)

Lemma at_level_range x k : 0 <= k ->
  0 <= Z.land (Z.shiftr x k) QD_TIMER_WHEEL_MASK < QD_TIMER_WHEEL_SIZE.
Proof.
  intros Hk. change QD_TIMER_WHEEL_MASK with (2 ^ 8 - 1). rewrite land_mask by lia.
  apply Z.mod_pos_bound. reflexivity.
Qed.

Lemma calculate_slot_range cur e l s :
  calculate_slot cur e = (l, s) -> 0 <= l < 4 /\ 0 <= s < 256.
Proof.
  unfold calculate_slot, QD_TIMER_WHEEL_BITS.
  pose proof (at_level_range (u64 (cur + u64 (e - cur)))) as Hr.
  repeat zcase; intros [= <- <-]; (split; [lia|]); apply Hr; lia.
Qed.

(** The shift and the mask, as arithmetic on an expiry that lies ahead. *)
Lemma calculate_slot_eq cur e :
  0 <= cur <= e -> e < u64_mod ->
  calculate_slot cur e =
    (if e - cur <? 2 ^ 8 then (0, e mod 256)
     else if e - cur <? 2 ^ 16 then (1, (e / 2 ^ 8) mod 256)
     else if e - cur <? 2 ^ 24 then (2, (e / 2 ^ 16) mod 256)
     else (3, (e / 2 ^ 24) mod 256)).
Proof.
  intros Hc He. unfold calculate_slot. cbv zeta.
  rewrite (u64_small (e - cur)) by (unfold_widths; lia).
  rewrite (u64_small (cur + (e - cur))) by (unfold_widths; lia).
  replace (cur + (e - cur)) with e by lia.
  change QD_TIMER_WHEEL_MASK with (2 ^ 8 - 1). rewrite !land_mask, !shiftr_div by (unfold QD_TIMER_WHEEL_BITS; lia).
  change (0 * QD_TIMER_WHEEL_BITS) with 0. by rewrite Z.div_1_r.
Qed.

(** [visits k s t]: at tick [t] the wheel processes slot [s] of level [k]: the
    drain at every tick for level 0, the cascade at the multiples of [2^(8k)]
    for the levels above. *)
Definition visits (k s t : Z) : Prop :=
  t mod 2 ^ (8 * k) = 0 /\ (t / 2 ^ (8 * k)) mod 256 = s.

(** Ticks of one level: [cur] and [e] in units of [m = 2^(8k)]. *)
Lemma first_visit m cur e t :
  0 < m -> 0 <= cur -> 0 < e / m - cur / m <= 256 ->
  t mod m = 0 -> (t / m) mod 256 = (e / m) mod 256 -> cur < t <= e ->
  t = e / m * m.
Proof.
  intros Hm Hc He Ht Hs Hr.
  pose proof (Z.div_mod t m ltac:(lia)). pose proof (Z.div_mod e m ltac:(lia)).
  pose proof (Z.mod_pos_bound e m Hm).
  pose proof (Z.div_mod cur m ltac:(lia)). pose proof (Z.mod_pos_bound cur m Hm).
  assert (cur / m < t / m <= e / m) by nia.
  pose proof (Z.div_mod (t / m) 256 ltac:(lia)). pose proof (Z.div_mod (e / m) 256 ltac:(lia)).
  assert (t / m = e / m) by lia. lia.
Qed.

Lemma blocks_apart m cur e :
  0 < m -> 0 <= cur -> m <= e - cur < 256 * m -> 0 < e / m - cur / m <= 256.
Proof.
  intros Hm Hc Hd.
  pose proof (Z.div_mod e m ltac:(lia)). pose proof (Z.mod_pos_bound e m Hm).
  pose proof (Z.div_mod cur m ltac:(lia)). pose proof (Z.mod_pos_bound cur m Hm). nia.
Qed.

(** ** The layout of the wheel's lists *)

Definition heads : list loc := all_slot_heads ++ [expired_head].

Lemma all_slot_heads_eq : all_slot_heads = Z.of_nat <$> seq 1 1024.
Proof. vm_compute. reflexivity. Qed.

Lemma elem_of_slot_heads p : p ∈ all_slot_heads <-> 1 <= p <= 1024.
Proof.
  rewrite all_slot_heads_eq, list_elem_of_fmap. split.
  - intros (n & -> & Hn%elem_of_seq). lia.
  - intros Hp. exists (Z.to_nat p). rewrite elem_of_seq. lia.
Qed.

Lemma elem_of_heads p : p ∈ heads <-> 1 <= p <= 1025.
Proof.
  unfold heads. rewrite elem_of_app, elem_of_slot_heads, list_elem_of_singleton.
  change expired_head with 1025. lia.
Qed.

Lemma slot_head_in l s : 0 <= l < 4 -> 0 <= s < 256 -> slot_head l s ∈ heads /\ slot_head l s <> expired_head.
Proof.
  intros. rewrite elem_of_heads. unfold slot_head, expired_head, QD_TIMER_WHEEL_SIZE, QD_TIMER_WHEEL_LEVELS. lia.
Qed.

Lemma slot_head_inj l s l' s' :
  0 <= s < 256 -> 0 <= s' < 256 -> slot_head l s = slot_head l' s' -> l = l' /\ s = s'.
Proof. unfold slot_head, QD_TIMER_WHEEL_SIZE. lia. Qed.

(** [wheel_wf w L]: the heads are disjoint circular lists of the timers [L hd],
    timers live outside of the heads' memory, a timer whose [slot] field is set
    is in that slot, and one whose field is negative is in none. *)
Record wheel_wf (w : qd_timer_wheel) (L : loc -> list loc) : Prop := {
  wf_lists : lists_ok (hp w) heads L;
  wf_addr : forall t, is_Some (timers w !! t) -> local_head < t /\ mapped (hp w) t;
  wf_in : forall t tm, timers w !! t = Some tm -> 0 <= slot tm ->
    0 <= wheel_level tm < 4 /\ slot tm < 256 /\ t ∈ L (slot_head (wheel_level tm) (slot tm));
  wf_out : forall t tm, timers w !! t = Some tm -> slot tm < 0 -> loose heads L t;
  wf_known : forall hd t, hd ∈ heads -> t ∈ L hd -> is_Some (timers w !! t)
}.

Definition without (t : loc) (xs : list loc) : list loc := filter (fun p => p <> t) xs.

Lemma without_notin t xs : t ∉ xs -> without t xs = xs.
Proof.
  intros Hn. unfold without. induction xs as [|x xs IH]; [done|].
  rewrite filter_cons. case_decide as Hd; [f_equal; apply IH; set_solver|].
  exfalso. subst. set_solver.
Qed.

Lemma without_split t xs ys : t ∉ xs -> t ∉ ys -> without t (xs ++ t :: ys) = xs ++ ys.
Proof.
  intros Hx Hy. unfold without. rewrite filter_app, filter_cons.
  case_decide as Hd; [done|]. fold (without t xs). fold (without t ys).
  by rewrite !without_notin.
Qed.

Lemma lists_nodup h hs L hd : lists_ok h hs L -> hd ∈ hs -> NoDup (L hd).
Proof. intros [Hd _] Hh. destruct (Hd hd Hh) as [Hnd _]. by apply NoDup_cons in Hnd as [_ ?]. Qed.

(** Taking the timer out of every list of the family. *)
Definition pulled (t : loc) (L : loc -> list loc) : loc -> list loc := fun hd => without t (L hd).

Lemma timer_not_head w L t : wheel_wf w L -> is_Some (timers w !! t) -> t ∉ heads.
Proof.
  intros Hwf Ht. destruct (wf_addr _ _ Hwf t Ht) as [Ha _]. rewrite elem_of_heads.
  change local_head with 1027 in Ha. lia.
Qed.

(** ** Removing and adding a timer *)

(** [remove_timer_internal] takes the timer out of whatever slot it is in; the
    other fields of the wheel stay. *)
Lemma remove_timer_spec w L t tm :
  wheel_wf w L -> timers w !! t = Some tm ->
  exists w' tm', remove_timer_internal w t = Ok w' /\
    lists_ok (hp w') heads (pulled t L) /\ loose heads (pulled t L) t /\
    preserves (hp w) (hp w') /\
    timers w' = <[t:=tm']> (timers w) /\ slot tm' < 0 /\
    tm' = set_place (wheel_level tm') (slot tm') tm /\
    w' = set_timers (timers w') (set_hp (hp w') w).
Proof.
  intros Hwf Ht. unfold remove_timer_internal, get_timer. rewrite Ht. cbn [of_option obind].
  pose proof (wf_lists _ _ Hwf) as Hl. destruct (Z.leb_spec 0 (slot tm)) as [Hs|Hs].
  - destruct (wf_in _ _ Hwf t tm Ht Hs) as (Hlv & Hs2 & Hin).
    set (hd := slot_head (wheel_level tm) (slot tm)) in *.
    assert (hd ∈ heads) as Hhd by (apply slot_head_in; lia).
    apply list_elem_of_split in Hin as (xs & ys & HL).
    destruct (lists_del_init _ _ _ _ _ _ _ Hl Hhd HL) as (h' & -> & Hl' & Hlo & Hp). cbn [obind].
    assert (forall hd', hd' ∈ heads -> pulled t L hd' = upd hd (xs ++ ys) L hd') as Hpull.
    { intros hd' Hhd'. unfold pulled. destruct (decide (hd' = hd)) as [->|Hne].
      - rewrite upd_eq, HL. pose proof (lists_nodup _ _ _ _ Hl Hhd) as Hnd. rewrite HL in Hnd.
        apply NoDup_app in Hnd as (_ & Hxy & [Hny _]%NoDup_cons).
        apply without_split; [|done]. intros Hx. by apply (Hxy t Hx), list_elem_of_here.
      - rewrite upd_ne by done. apply without_notin. intros Hin.
        destruct Hl as [_ Hdis]. apply (Hdis hd hd' Hhd Hhd' (not_eq_sym Hne) t);
          apply list_elem_of_further; [|done].
        rewrite HL. apply elem_of_app. right. apply list_elem_of_here. }
    eexists _, (set_place (-1) (-1) tm). split; [done|].
    split; [by eapply lists_ok_ext|]. split; [by eapply loose_ext|].
    split; [done|]. split; [done|]. split; [simpl; lia|]. by split.
  - assert (forall hd, hd ∈ heads -> pulled t L hd = L hd) as Hpull.
    { intros hd Hhd. apply without_notin. intros Hin.
      by apply (wf_out _ _ Hwf t tm Ht Hs hd Hhd), list_elem_of_further. }
    eexists _, tm. split; [done|].
    split; [by eapply lists_ok_ext|]. split; [by eapply loose_ext; [|eapply wf_out]|].
    split; [by intros p|]. split; [by rewrite insert_id|]. split; [done|].
    split; [by destruct tm | by destruct w].
Qed.

Lemma add_timer_spec w L t tm l s :
  lists_ok (hp w) heads L -> loose heads L t -> mapped (hp w) t -> timers w !! t = Some tm ->
  calculate_slot (current_tick w) (expires tm) = (l, s) ->
  exists h', add_timer_internal w t = Ok (set_hp h' (put_timer w t (set_place l s tm))) /\
    lists_ok h' heads (upd (slot_head l s) (L (slot_head l s) ++ [t]) L) /\ preserves (hp w) h'.
Proof.
  intros Hl Hlo Hm Ht Hc. destruct (calculate_slot_range _ _ _ _ Hc) as [Hl4 Hs].
  destruct (slot_head_in l s Hl4 Hs) as [Hhd _].
  destruct (lists_add_tail _ _ _ _ _ Hl Hhd Hlo Hm) as (h' & E & Hl' & Hp).
  exists h'. unfold add_timer_internal, get_timer. rewrite Ht. cbn [of_option obind].
  rewrite Hc. cbn [hp put_timer set_timers]. rewrite E. done.
Qed.

(** The layout after a start: the timer is last in its new slot and nowhere else. *)
Definition started (t : loc) (l s : Z) (L : loc -> list loc) : loc -> list loc :=
  upd (slot_head l s) (without t (L (slot_head l s)) ++ [t]) (pulled t L).

Lemma started_elem t l s L hd p :
  p ∈ started t l s L hd <-> (p <> t /\ p ∈ L hd) \/ (p = t /\ hd = slot_head l s).
Proof.
  unfold started. destruct (decide (hd = slot_head l s)) as [->|Hne].
  - rewrite upd_eq. unfold without. rewrite elem_of_app, list_elem_of_filter, list_elem_of_singleton. naive_solver.
  - rewrite upd_ne by done. unfold pulled, without. rewrite list_elem_of_filter. naive_solver.
Qed.

(** Any change of a timer's record that keeps its place keeps the wheel well formed. *)
Lemma started_wf w w' L t tm' l s :
  wheel_wf w L -> is_Some (timers w !! t) -> 0 <= l < 4 -> 0 <= s < 256 ->
  lists_ok (hp w') heads (started t l s L) -> preserves (hp w) (hp w') ->
  timers w' = <[t:=tm']> (timers w) -> slot tm' = s -> wheel_level tm' = l ->
  wheel_wf w' (started t l s L).
Proof.
  intros Hwf Hin Hl4 Hs Hl Hp Htm Hsl Hlv. split; [done|..]; rewrite ?Htm.
  - intros q Hq. assert (is_Some (timers w !! q)) as Hq'.
    { destruct (decide (q = t)) as [->|]; [done|]. by rewrite lookup_insert_ne in Hq by done. }
    destruct (wf_addr _ _ Hwf q Hq'). split; [done|]. by apply Hp.
  - intros q tm Hq Hs0. destruct (decide (q = t)) as [->|Hne].
    + rewrite lookup_insert_eq in Hq. injection Hq as <-. rewrite Hsl, Hlv.
      repeat split; try lia. apply started_elem. by right.
    + rewrite lookup_insert_ne in Hq by done. destruct (wf_in _ _ Hwf q tm Hq Hs0) as (? & ? & ?).
      repeat split; try lia. apply started_elem. by left.
  - intros q tm Hq Hs0 hd Hhd. destruct (decide (q = t)) as [->|Hne].
    + rewrite lookup_insert_eq in Hq. injection Hq as <-. lia.
    + rewrite lookup_insert_ne in Hq by done. pose proof (wf_out _ _ Hwf q tm Hq Hs0 hd Hhd) as Hn.
      intros [->|[[_ Hi]|[-> _]]%started_elem]%elem_of_cons; [|by apply Hn, list_elem_of_further|done].
      apply Hn, list_elem_of_here.
  - intros hd q Hhd Hq. destruct (decide (q = t)) as [->|Hne]; [rewrite lookup_insert_eq; eauto|].
    rewrite lookup_insert_ne by done. apply started_elem in Hq as [[_ Hq]|[-> _]]; [|done].
    by eapply wf_known.
Qed.

Lemma pulled_wf w w' L t tm' :
  wheel_wf w L -> is_Some (timers w !! t) ->
  lists_ok (hp w') heads (pulled t L) -> loose heads (pulled t L) t -> preserves (hp w) (hp w') ->
  timers w' = <[t:=tm']> (timers w) -> slot tm' < 0 ->
  wheel_wf w' (pulled t L).
Proof.
  intros Hwf Hin Hl Hlo Hp Htm Hsl.
  assert (forall hd q, q ∈ pulled t L hd <-> q <> t /\ q ∈ L hd) as Hpe
    by (intros; unfold pulled, without; by rewrite list_elem_of_filter).
  split; [done|..]; rewrite ?Htm.
  - intros q Hq. assert (is_Some (timers w !! q)) as Hq'.
    { destruct (decide (q = t)) as [->|]; [done|]. by rewrite lookup_insert_ne in Hq by done. }
    destruct (wf_addr _ _ Hwf q Hq'). split; [done|]. by apply Hp.
  - intros q tm Hq Hs0. destruct (decide (q = t)) as [->|Hne].
    + rewrite lookup_insert_eq in Hq. injection Hq as <-. lia.
    + rewrite lookup_insert_ne in Hq by done. destruct (wf_in _ _ Hwf q tm Hq Hs0) as (? & ? & ?).
      by rewrite Hpe.
  - intros q tm Hq Hs0 hd Hhd. destruct (decide (q = t)) as [->|Hne]; [by apply Hlo|].
    rewrite lookup_insert_ne in Hq by done. pose proof (wf_out _ _ Hwf q tm Hq Hs0 hd Hhd) as Hn.
    intros [->|[_ Hi]%Hpe]%elem_of_cons; apply Hn; [apply list_elem_of_here | by apply list_elem_of_further].
  - intros hd q Hhd [Hne Hq]%Hpe. rewrite lookup_insert_ne by done. by eapply wf_known.
Qed.

(** The record a start leaves: [f] is the new value of the flags. *)
Definition scheduled_timer (tm : qd_timer) (e d f l s : Z) : qd_timer :=
  mkTimer e d (callback tm) f QD_TIMER_SCHEDULED s l (wheel tm).

(** The common part of the two start functions, after the removal. *)
Lemma place_timer_spec w L t tm l s e d f :
  wheel_wf w L -> timers w !! t = Some tm ->
  calculate_slot (current_tick w) e = (l, s) ->
  exists w1 tm1 h', remove_timer_internal w t = Ok w1 /\ get_timer w1 t = Ok tm1 /\
    flags tm1 = flags tm /\ tick_interval_ms w1 = tick_interval_ms w /\ current_tick w1 = current_tick w /\
    add_timer_internal (put_timer w1 t (set_expiry e d f tm1)) t =
      Ok (set_timers (<[t:=set_place l s (set_expiry e d f tm1)]> (timers w)) (set_hp h' w)) /\
    set_state QD_TIMER_SCHEDULED (set_place l s (set_expiry e d f tm1)) = scheduled_timer tm e d f l s /\
    preserves (hp w) h' /\
    forall w', hp w' = h' -> timers w' = <[t:=scheduled_timer tm e d f l s]> (timers w) ->
      wheel_wf w' (started t l s L).
Proof.
  intros Hwf Ht Hc.
  destruct (remove_timer_spec w L t tm Hwf Ht) as (w1 & tm1 & E1 & Hl1 & Hlo & Hp1 & Htm & Hs & Etm & Ew).
  assert (mapped (hp w1) t) as Hm by (apply Hp1; eapply wf_addr; eauto).
  destruct (add_timer_spec (put_timer w1 t (set_expiry e d f tm1)) (pulled t L) t (set_expiry e d f tm1) l s)
    as (h' & E2 & Hl2 & Hp2); simpl; try done.
  { apply lookup_insert_eq. }
  { rewrite Ew. done. }
  exists w1, tm1, h'. split; [done|]. split; [unfold get_timer; by rewrite Htm, lookup_insert_eq|].
  split; [by rewrite Etm|]. split; [by rewrite Ew|]. split; [by rewrite Ew|]. split.
  { rewrite E2. f_equal. rewrite Ew. unfold put_timer, set_timers, set_hp. simpl.
    rewrite Htm. by rewrite !insert_insert_eq. }
  split; [by rewrite Etm|]. split; [by eapply preserves_trans|].
  intros w' Hh Ht'. destruct (calculate_slot_range _ _ _ _ Hc).
  eapply (started_wf w w' L t); eauto; subst h'.
  - exact Hl2.
  - eapply preserves_trans; eauto.
Qed.

(** The whole effect of [qd_timer_start]. *)
Lemma timer_start_spec w L t tm delay l s :
  wheel_wf w L -> timers w !! t = Some tm -> wheel tm = true ->
  calculate_slot (current_tick w) (u64 (current_tick w + delay_ticks w delay)) = (l, s) ->
  exists w', qd_timer_start w t delay = Ok (QD_OK, w') /\ wheel_wf w' (started t l s L) /\
    timers w' = <[t:=scheduled_timer tm (u64 (current_tick w + delay_ticks w delay)) (delay_ticks w delay)
                       (Z.land (flags tm) (u32 (Z.lnot QD_TIMER_PERIODIC))) l s]> (timers w) /\
    num_timers w' = i32 (num_timers w + 1) /\ fired w' = fired w /\
    current_tick w' = current_tick w /\ tick_interval_ms w' = tick_interval_ms w /\
    base_time w' = base_time w /\ preserves (hp w) (hp w').
Proof.
  intros Hwf Ht Hw Hc.
  destruct (place_timer_spec w L t tm l s _ (delay_ticks w delay)
    (Z.land (flags tm) (u32 (Z.lnot QD_TIMER_PERIODIC))) Hwf Ht Hc)
    as (w1 & tm1 & h' & E1 & Eg & Ef & Eti & Ec & E2 & Es & Hp & Hwf').
  unfold qd_timer_start. unfold get_timer at 1. rewrite Ht. cbn [of_option obind].
  rewrite Hw. cbn [negb]. rewrite E1. cbn [obind]. rewrite Eg. cbn [obind].
  assert (delay_ticks w1 delay = delay_ticks w delay) as Ed by (unfold delay_ticks; by rewrite Eti).
  rewrite Ed, Ec, Ef, E2. cbn [obind]. unfold get_timer. cbn [timers set_timers].
  rewrite lookup_insert_eq. cbn [of_option obind]. rewrite Es.
  eexists. split; [done|]. simpl. split; [|by rewrite insert_insert_eq; repeat (split; [done|])].
  apply Hwf'; [done|]. simpl. by rewrite insert_insert_eq.
Qed.

(** ** A new wheel and a new timer *)

Lemma alloc_nodes_mapped ps h p :
  p ∈ ps \/ mapped h p -> mapped (foldl alloc_node h ps) p.
Proof.
  revert h. induction ps as [|q ps IH]; intros h Hp; simpl.
  - destruct Hp as [Hp|]; [by apply elem_of_nil in Hp | done].
  - apply IH. destruct Hp as [[->|Hp]%elem_of_cons|[Hn Hv]]; [right|by left|right];
      split; simpl; rewrite ?lookup_insert_eq; eauto using insert_is_Some.
Qed.

Lemma init_heads_spec ps h :
  NoDup ps -> (forall p, p ∈ ps -> mapped h p) ->
  exists h', init_heads h ps = Ok h' /\ (forall p, p ∈ ps -> dlist h' p []) /\
    preserves h h' /\ same_except ps h h'.
Proof.
  revert h. induction ps as [|p ps IH]; intros h Hnd Hm; simpl.
  - exists h. split; [done|]. split; [by intros p ?%elem_of_nil|]. split; by intros ?.
  - apply NoDup_cons in Hnd as [Hp Hnd].
    destruct (list_init_spec h p) as (h1 & E1 & Hd1 & Hs1); [apply Hm, list_elem_of_here|].
    pose proof (list_init_preserves _ _ _ E1) as Hp1.
    destruct (IH h1 Hnd) as (h2 & E2 & Hd2 & Hp2 & Hs2).
    { intros q Hq. by apply Hp1, Hm, list_elem_of_further. }
    exists h2. rewrite E1. cbn [obind]. split; [done|]. split; [|split].
    + intros q [->|Hq]%elem_of_cons; [|by apply Hd2].
      apply (dlist_frame ps h1); [done| |done]. by intros r ->%list_elem_of_singleton.
    + by eapply preserves_trans.
    + intros q Hq. rewrite not_elem_of_cons in Hq. destruct Hq as [Hqp Hq].
      destruct (Hs1 q) as [<- <-]; [by rewrite list_elem_of_singleton|]. by apply Hs2.
Qed.

Lemma heads_nodup : NoDup heads.
Proof.
  unfold heads. rewrite all_slot_heads_eq. apply NoDup_app. split; [|split].
  - apply NoDup_fmap_2, NoDup_seq. apply _.
  - intros p (n & -> & Hn%elem_of_seq)%list_elem_of_fmap Hp%list_elem_of_singleton.
    change expired_head with 1025 in Hp. lia.
  - apply NoDup_singleton.
Qed.

Lemma wheel_create_spec now ti :
  exists w, qd_timer_wheel_create true now ti = Ok (Some w) /\ wheel_wf w (fun _ => []) /\
    timers w = ∅ /\ current_tick w = 0 /\ base_time w = now /\
    tick_interval_ms w = Z.max 1 ti /\ num_timers w = 0 /\ fired w = [] /\ mapped (hp w) local_head.
Proof.
  assert (init_heads fresh_heap heads = (let! h := init_heads fresh_heap all_slot_heads in
            qd_list_init h expired_head)) as Eapp.
  { unfold heads. generalize fresh_heap, all_slot_heads. intros h ps. revert h.
    induction ps as [|p ps IH]; intros h; simpl; [by destruct (qd_list_init h expired_head)|].
    destruct (qd_list_init h p); simpl; [apply IH | done | done]. }
  destruct (init_heads_spec heads fresh_heap heads_nodup) as (h & E & Hd & Hp & _).
  { intros p Hp. apply alloc_nodes_mapped. left. unfold heads in Hp.
    generalize all_slot_heads Hp. intros ps. rewrite !elem_of_app, list_elem_of_singleton.
    intros [?| ->]; [by left | right; apply elem_of_cons; by left]. }
  rewrite Eapp in E. apply obind_ok in E as (h1 & E1 & E2).
  unfold qd_timer_wheel_create. cbn [negb]. rewrite E1. cbn [obind]. rewrite E2. cbn [obind].
  assert (mapped h local_head) as Hlh.
  { apply Hp, alloc_nodes_mapped. left. generalize all_slot_heads. intros ps.
    apply elem_of_app. right. apply list_elem_of_further, list_elem_of_further, list_elem_of_here. }
  eexists. split; [done|].
  split; [|cbn [timers current_tick base_time tick_interval_ms num_timers fired hp];
    do 3 (split; [reflexivity|]); split; [destruct (Z.ltb_spec 0 ti); lia|];
    do 2 (split; [reflexivity|]); exact Hlh].
  split; simpl.
  - split; [done|]. intros h1' h2' _ _ Hne p ->%list_elem_of_singleton. by rewrite list_elem_of_singleton.
  - intros t [x Hx]. by rewrite lookup_empty in Hx.
  - intros t tm Hx. by rewrite lookup_empty in Hx.
  - intros t tm Hx. by rewrite lookup_empty in Hx.
  - intros hd t _ Hin. apply elem_of_nil in Hin. destruct Hin.
Qed.

(** The record [qd_timer_init] writes. *)
Definition idle_timer (has_cb : bool) : qd_timer := mkTimer 0 0 has_cb 0 QD_TIMER_IDLE (-1) (-1) true.

Lemma timer_create_spec w L t has_cb :
  wheel_wf w L -> local_head < t -> timers w !! t = None ->
  exists w', qd_timer_create w (Some t) has_cb = Ok (Some t, w') /\ wheel_wf w' L /\
    timers w' = <[t:=idle_timer has_cb]> (timers w) /\ current_tick w' = current_tick w /\
    tick_interval_ms w' = tick_interval_ms w /\ num_timers w' = num_timers w /\ fired w' = fired w /\
    base_time w' = base_time w /\ (forall q, q <> t -> mapped (hp w) q -> mapped (hp w') q).
Proof.
  intros Hwf Ha Hn.
  assert (loose heads L t) as Hlo.
  { intros hd Hhd [->|Hin]%elem_of_cons.
    - apply elem_of_heads in Hhd. change local_head with 1027 in Ha. lia.
    - destruct (wf_known _ _ Hwf hd t Hhd Hin) as [x Hx]. congruence. }
  destruct (list_init_spec (alloc_node (hp w) t) t) as (h' & E & Hd & Hs).
  { split; simpl; rewrite lookup_insert_eq; eauto. }
  unfold qd_timer_create, qd_timer_init. cbn [hp put_timer set_timers set_hp]. rewrite E. cbn [obind].
  eexists. split; [done|]. simpl.
  assert (same_except [t] (hp w) h') as Hs'.
  { intros p Hp. destruct (Hs p Hp) as [-> ->]. simpl. rewrite list_elem_of_singleton in Hp.
    by rewrite !lookup_insert_ne. }
  assert (forall q, q <> t -> mapped (hp w) q -> mapped h' q) as Hmp.
  { intros q Hq [? ?]. destruct (Hs' q) as [E1 E2]; [by rewrite list_elem_of_singleton|].
    split; by rewrite ?E1, ?E2. }
  split; [|by repeat (split; [done|])]. split; simpl.
  - destruct (wf_lists _ _ Hwf) as [Hl Hdis]. split; [|done]. intros hd Hhd.
    apply (dlist_frame [t] (hp w)); auto. intros p Hp ->%list_elem_of_singleton. by apply (Hlo hd).
  - intros q Hq. destruct (decide (q = t)) as [->|Hne]; [split; [done|]; eapply dlist_mapped; [exact Hd|apply list_elem_of_here]|].
    rewrite lookup_insert_ne in Hq by done. destruct (wf_addr _ _ Hwf q Hq). auto.
  - intros q tm Hq Hs0. destruct (decide (q = t)) as [->|Hne].
    + rewrite lookup_insert_eq in Hq. injection Hq as <-. simpl in Hs0. lia.
    + rewrite lookup_insert_ne in Hq by done. by apply (wf_in _ _ Hwf).
  - intros q tm Hq Hs0. destruct (decide (q = t)) as [->|Hne]; [done|].
    rewrite lookup_insert_ne in Hq by done. by apply (wf_out _ _ Hwf q tm).
  - intros hd q Hhd Hq. destruct (wf_known _ _ Hwf hd q Hhd Hq) as [x Hx]. rewrite lookup_insert. case_decide; eauto.
Qed.

(** A wheel of 10 ms ticks with one idle timer at address 2000. *)
Lemma demo_wheel : exists w, wheel_wf w (fun _ => []) /\ timers w = <[2000:=idle_timer true]> ∅ /\
  current_tick w = 0 /\ tick_interval_ms w = 10 /\ num_timers w = 0 /\
  base_time w = 0 /\ fired w = [] /\ mapped (hp w) local_head.
Proof.
  destruct (wheel_create_spec 0 10) as (w & _ & Hwf & Ht & Hc & Hb & Hi & Hn & Hf & Hm).
  destruct (timer_create_spec w _ 2000 true Hwf) as (w' & _ & Hwf' & Ht' & Hc' & Hi' & Hn' & Hf' & Hb' & Hm').
  { reflexivity. }
  { by rewrite Ht. }
  exists w'. rewrite Ht', Hc', Hi', Hn', Hb', Hf', Ht. repeat (split; [done|]). by apply Hm'.
Qed.

(** The demo wheel with its timer started at 50 ms: it is in slot 5. *)
Lemma demo_started : exists w, wheel_wf w (started 2000 0 5 (fun _ => [])) /\
  timers w = <[2000:=scheduled_timer (idle_timer true) 5 5 0 0 5]> ∅ /\ fired w = [] /\
  current_tick w = 0 /\ tick_interval_ms w = 10 /\ base_time w = 0 /\ mapped (hp w) local_head.
Proof.
  destruct demo_wheel as (w & Hwf & Ht & Hc & Hi & Hn & Hb & Hf & Hm).
  destruct (timer_start_spec w (fun _ => []) 2000 (idle_timer true) 50 0 5)
    as (w' & _ & Hwf' & Ht' & _ & Hf' & Hc' & Hi' & Hb' & Hp); [done|by rewrite Ht|done| |].
  { unfold delay_ticks. rewrite Hc, Hi. reflexivity. }
  exists w'. rewrite Hf', Hc', Hi', Hb'. split; [done|]. split; [|repeat (split; [done|]); by apply Hp].
  rewrite Ht', Ht, insert_insert_eq. unfold delay_ticks. by rewrite Hc, Hi.
Qed.

(** ** One tick *)

(** The fields that list surgery and record updates do not touch. *)
Definition same_clock (w w' : qd_timer_wheel) : Prop :=
  current_tick w' = current_tick w /\ tick_interval_ms w' = tick_interval_ms w /\
  base_time w' = base_time w /\ num_timers w' = num_timers w /\ fired w' = fired w.

(** [slots_cleared xs m m']: the timers of [xs] have lost their slot, nothing
    else changed. *)
Definition slots_cleared (xs : list loc) (m m' : gmap Z qd_timer) : Prop :=
  forall t, m' !! t = (if decide (t ∈ xs) then set_slot (-1) <$> m !! t else m !! t).

Lemma slots_cleared_cons x xs m tm :
  x ∉ xs -> m !! x = Some tm ->
  forall m', slots_cleared xs (<[x:=set_slot (-1) tm]> m) m' -> slots_cleared (x :: xs) m m'.
Proof.
  intros Hx Hm m' Hc t. rewrite (Hc t). destruct (decide (t = x)) as [->|Hne].
  - rewrite decide_False by done. rewrite decide_True by apply list_elem_of_here.
    by rewrite lookup_insert_eq, Hm.
  - rewrite lookup_insert_ne by done.
    destruct (decide (t ∈ xs)).
    + rewrite decide_True by (by apply list_elem_of_further). done.
    + rewrite decide_False; [done|]. by rewrite not_elem_of_cons.
Qed.

(** Draining a slot whose timers are all due moves them, in order, to the end of
    the expired list. *)
Lemma drain_slot_spec hd xs : forall fuel w L count,
  lists_ok (hp w) heads L -> hd ∈ heads -> hd <> expired_head -> L hd = xs ->
  (forall t, t ∈ xs -> exists tm, timers w !! t = Some tm /\ expires tm <= current_tick w) ->
  (length xs < fuel)%nat ->
  exists w', drain_slot fuel w hd count = Ok (w', count + Z.of_nat (length xs)) /\
    lists_ok (hp w') heads (upd expired_head (L expired_head ++ xs) (upd hd [] L)) /\
    preserves (hp w) (hp w') /\ slots_cleared xs (timers w) (timers w') /\ same_clock w w'.
Proof.
  induction xs as [|x xs IH]; intros fuel w L count Hl Hhd Hne HL Hdue Hf;
    (destruct fuel as [|fuel]; [simpl in Hf; lia|]); cbn [drain_slot];
    rewrite (list_empty_spec (hp w) hd (L hd)) by (by apply Hl); rewrite HL; cbn [obind].
  - exists w. rewrite Z.add_0_r, app_nil_r. split; [done|]. split; [|split; [by intros ?|by repeat split]].
    eapply lists_ok_ext; [|exact Hl]. intros p _. unfold upd. repeat case_decide; congruence.
  - assert (expired_head ∈ heads) as Hexp by (apply elem_of_heads; done).
    destruct (lists_del_init _ _ _ hd [] x xs Hl Hhd HL) as (h1 & E1 & Hl1 & Hlo & Hp1).
    destruct Hl as [Hd Hdis]. specialize (Hd hd Hhd) as Hdl. rewrite HL in Hdl.
    destruct Hdl as [Hnd [[Hn _] _]]. rewrite (get_next_ok _ _ _ Hn). cbn [obind].
    rewrite E1. cbn [obind app] in *.
    destruct (Hdue x) as (tm & Hx & Hexpd); [apply list_elem_of_here|].
    unfold get_timer. cbn [timers set_hp]. rewrite Hx. cbn [of_option obind current_tick put_timer set_timers set_hp hp].
    destruct (Z.leb_spec (expires tm) (current_tick w)); [|lia].
    assert (mapped h1 x) as Hm.
    { apply Hp1. eapply dlist_mapped; [apply Hd, Hhd|]. rewrite HL.
      apply list_elem_of_further, list_elem_of_here. }
    destruct (lists_add_tail _ _ _ expired_head x Hl1 Hexp Hlo Hm) as (h2 & E2 & Hl2 & Hp2).
    rewrite E2. cbn [obind].
    apply NoDup_cons in Hnd as [_ Hnd]. apply NoDup_cons in Hnd as [Hxx Hnd].
    edestruct (IH fuel (set_hp h2 (put_timer (set_hp h1 w) x (set_slot (-1) tm))) _ (count + 1) Hl2 Hhd Hne)
      as (w' & E & Hl' & Hp' & Hc' & Hs').
    { rewrite upd_ne, upd_eq by done. done. }
    { intros t Ht. destruct (Hdue t) as (tm' & Ht' & He'); [by apply list_elem_of_further|].
      exists tm'. simpl. rewrite lookup_insert_ne by (intros ->; done). done. }
    { simpl in Hf. lia. }
    exists w'. unfold put_timer in E. cbn in E. unfold put_timer. cbn. rewrite E.
    split; [f_equal; f_equal; cbn [length]; lia|]. split; [|split; [|split]].
    + eapply lists_ok_ext; [|exact Hl']. intros p _. unfold upd.
      repeat case_decide; subst; try congruence. by rewrite <- app_assoc.
    + intros p Hp. by apply Hp', Hp2, Hp1.
    + by eapply slots_cleared_cons.
    + done.
Qed.

Lemma cascade_all_none fuel w :
  current_tick w mod 256 <> 0 -> cascade_all fuel w = Ok w.
Proof.
  intros Hc. unfold cascade_all. change QD_TIMER_WHEEL_MASK with (2 ^ 8 - 1).
  rewrite land_mask by lia. by destruct (Z.eqb_spec (current_tick w mod 2 ^ 8) 0).
Qed.

Lemma slots_cleared_app xs ys m m1 m2 :
  slots_cleared xs m m1 -> slots_cleared ys m1 m2 -> slots_cleared (xs ++ ys) m m2.
Proof.
  intros H1 H2 t. rewrite (H2 t), (H1 t).
  destruct (decide (t ∈ xs)), (decide (t ∈ ys)).
  all: first [rewrite (decide_True (P := t ∈ xs ++ ys)) by (apply elem_of_app; tauto)
             | rewrite (decide_False (P := t ∈ xs ++ ys)) by (rewrite elem_of_app; tauto)].
  all: destruct (m !! t); done.
Qed.

(** The heads of the level-0 slots of [n] ticks from [cur], their timers, and
    the layout once they are drained. *)
Definition visited (cur : Z) (n : nat) : list loc :=
  (fun i => slot_head 0 ((cur + Z.of_nat i) mod 256)) <$> seq 0 n.

Definition due (L : loc -> list loc) (hs : list loc) : list loc := mjoin (L <$> hs).

Definition drained (hs : list loc) (L : loc -> list loc) : loc -> list loc := fun hd =>
  if decide (hd = expired_head) then L expired_head ++ due L hs
  else if decide (hd ∈ hs) then [] else L hd.

Lemma visited_S cur n :
  visited cur (S n) = slot_head 0 (cur mod 256) :: visited (cur + 1) n.
Proof.
  unfold visited. cbn [seq]. rewrite fmap_cons, Z.add_0_r. f_equal.
  rewrite <- fmap_S_seq, <- list_fmap_compose. apply list_fmap_ext. intros i j _. simpl.
  do 2 f_equal. lia.
Qed.

Lemma visited_notin cur n :
  0 <= cur -> cur mod 256 + Z.of_nat n < 256 ->
  slot_head 0 (cur mod 256) ∉ visited (cur + 1) n /\ expired_head ∉ visited cur n.
Proof.
  intros Hc Hn. unfold visited. rewrite !list_elem_of_fmap. split.
  - intros (i & E & Hi%elem_of_seq). apply slot_head_inj in E as [_ E]; try (apply Z.mod_pos_bound; lia).
    pose proof (Z.div_mod cur 256 ltac:(lia)). pose proof (Z.mod_pos_bound cur 256 ltac:(lia)).
    pose proof (Z.div_mod (cur + 1 + Z.of_nat i) 256 ltac:(lia)). lia.
  - intros (i & E & _). destruct (slot_head_in 0 ((cur + Z.of_nat i) mod 256)) as [_ Hne]; [lia| |done].
    apply Z.mod_pos_bound. lia.
Qed.

Lemma due_ext L L' hs : (forall hd, hd ∈ hs -> L' hd = L hd) -> due L' hs = due L hs.
Proof.
  intros HE. unfold due. f_equal. apply list_fmap_ext. intros i x Hx. apply HE.
  by eapply list_elem_of_lookup_2.
Qed.

(** Draining one slot and then the others is draining them all. *)
Lemma drained_cons hd hs L :
  hd <> expired_head -> hd ∉ hs -> expired_head ∉ hs ->
  let L1 := upd expired_head (L expired_head ++ L hd) (upd hd [] L) in
  (forall h0, h0 ∈ hs -> L1 h0 = L h0) /\ due L1 hs = due L hs /\
  forall h0, drained (hd :: hs) L h0 = drained hs L1 h0.
Proof.
  intros Hne Hhs He L1.
  assert (forall h0, h0 ∈ hs -> L1 h0 = L h0) as HL1.
  { intros h0 Hin. unfold L1. rewrite !upd_ne; [done | by intros -> | by intros ->]. }
  assert (due L1 hs = due L hs) as Hd by (by apply due_ext).
  split; [done|]. split; [done|]. intros h0. unfold drained. rewrite Hd.
  change (due L (hd :: hs)) with (L hd ++ due L hs). unfold L1.
  destruct (decide (h0 = expired_head)) as [->|Hne0]; [by rewrite upd_eq, <- app_assoc|].
  rewrite (upd_ne expired_head) by done. destruct (decide (h0 = hd)) as [->|Hne2].
  - rewrite decide_True by apply list_elem_of_here. rewrite upd_eq. by case_decide.
  - rewrite upd_ne by done. destruct (decide (h0 ∈ hs)).
    + by rewrite decide_True by (by apply list_elem_of_further).
    + rewrite decide_False; [done|]. by rewrite not_elem_of_cons.
Qed.

(** [n] ticks that cross no level boundary drain the slots of those ticks. *)
Lemma tick_loop_spec n : forall fuel w L count,
  lists_ok (hp w) heads L -> 0 <= current_tick w -> current_tick w mod 256 + Z.of_nat n < 256 ->
  current_tick w + Z.of_nat n < u64_mod ->
  (forall i t, (i < n)%nat -> t ∈ L (slot_head 0 ((current_tick w + Z.of_nat i) mod 256)) ->
     exists tm, timers w !! t = Some tm /\ expires tm <= current_tick w + Z.of_nat i) ->
  (n + length (due L (visited (current_tick w) n)) < fuel)%nat ->
  let hs := visited (current_tick w) n in
  exists w', tick_loop fuel w (current_tick w + Z.of_nat n) count
      = Ok (w', count + Z.of_nat (length (due L hs))) /\
    lists_ok (hp w') heads (drained hs L) /\ preserves (hp w) (hp w') /\
    slots_cleared (due L hs) (timers w) (timers w') /\
    current_tick w' = current_tick w + Z.of_nat n /\
    num_timers w' = num_timers w /\ fired w' = fired w.
Proof.
  induction n as [|n IH]; intros fuel w L count Hl Hc Hm Hov Hdue Hf hs;
    (destruct fuel as [|fuel]; [lia|]); cbn [tick_loop].
  - rewrite Z.add_0_r, Z.ltb_irrefl. exists w. unfold hs, due, visited. simpl.
    rewrite Z.add_0_r. split; [done|]. split; [|split; [by intros ?|by repeat split]].
    eapply lists_ok_ext; [|exact Hl]. intros hd _. unfold drained, due. simpl.
    case_decide; [subst; by rewrite app_nil_r | done].
  - destruct (Z.ltb_spec (current_tick w) (current_tick w + Z.of_nat (S n))); [|lia].
    change QD_TIMER_WHEEL_MASK with (2 ^ 8 - 1). rewrite land_mask by lia.
    change (2 ^ 8) with 256. unfold hs in *. clear hs. rewrite visited_S in Hf |- *.
    set (hd := slot_head 0 (current_tick w mod 256)) in *.
    destruct (visited_notin (current_tick w) n Hc ltac:(lia)) as [Hnv _]. fold hd in Hnv.
    destruct (slot_head_in 0 (current_tick w mod 256) ltac:(lia) ltac:(apply Z.mod_pos_bound; lia))
      as [Hhd Hhe]. fold hd in Hhd, Hhe.
    change (due L (hd :: visited (current_tick w + 1) n))
      with (L hd ++ due L (visited (current_tick w + 1) n)) in Hf. rewrite length_app in Hf.
    destruct (drain_slot_spec hd (L hd) (S fuel) w L count Hl Hhd Hhe eq_refl) as (w1 & -> & Hl1 & Hp1 & Hs1 & Hk).
    { intros t Ht. destruct (Hdue 0%nat t) as (tm & ? & ?); [lia| |exists tm; split; [done|lia]].
      by rewrite Z.add_0_r. }
    { lia. }
    destruct Hk as (Hk1 & Hk2 & Hk3 & Hk4 & Hk5). cbn [obind].
    rewrite Hk1, (u64_small (current_tick w + 1)) by (unfold_widths; lia).
    pose proof (Z.mod_pos_bound (current_tick w) 256 ltac:(lia)) as Hmb.
    assert ((current_tick w + 1) mod 256 = current_tick w mod 256 + 1) as Hmod.
    { rewrite <- Zplus_mod_idemp_l. apply Z.mod_small. lia. }
    rewrite cascade_all_none by (cbn [current_tick set_ticks]; lia). cbn [obind].
    set (w2 := set_ticks (current_tick w + 1) (u64 (tick_count w1 + 1)) w1).
    destruct (drained_cons hd (visited (current_tick w + 1) n) L Hhe Hnv) as (HL1 & Hdd & Hdr).
    { apply visited_notin; lia. }
    set (L1 := upd expired_head (L expired_head ++ L hd) (upd hd [] L)) in *.
    destruct (IH fuel w2 L1 (count + Z.of_nat (length (L hd)))) as (w' & E & Hl' & Hp' & Hs' & Hc' & Hn' & Hf');
      cbn [current_tick w2 set_ticks hp timers]; try done; try lia.
    { intros i t Hi Ht. rewrite HL1 in Ht by (apply list_elem_of_fmap; exists i; rewrite elem_of_seq; lia).
      destruct (Hdue (S i) t) as (tm & Ht' & He); [lia| |].
      - by replace (current_tick w + Z.of_nat (S i)) with (current_tick w + 1 + Z.of_nat i) by lia.
      - rewrite (Hs1 t), Ht'. destruct (decide (t ∈ L hd)); eexists; (split; [done|]); simpl; lia. }
    { rewrite Hdd. lia. }
    cbn [current_tick w2 set_ticks hp timers num_timers fired] in *. rewrite Hdd in *.
    replace (current_tick w + Z.of_nat (S n)) with (current_tick w + 1 + Z.of_nat n) by lia.
    exists w'. rewrite E.
    change (due L (hd :: visited (current_tick w + 1) n))
      with (L hd ++ due L (visited (current_tick w + 1) n)).
    rewrite length_app. split; [do 2 f_equal; lia|]. split; [|split; [by eapply preserves_trans|]].
    + eapply lists_ok_ext; [|exact Hl']. intros h0 _. apply Hdr.
    + split; [by eapply slots_cleared_app|]. repeat split; congruence.
Qed.

(** ** Running the expired timers *)

(** The lists that are in use while the callbacks run: the slots and the local
    list.  [wheel->expired] is not one of them: its head still points at the
    nodes that were spliced away. *)
Definition run_heads : list loc := local_head :: all_slot_heads.

(** [idled xs m m']: the timers of [xs] have become idle, nothing else changed. *)
Definition idled (xs : list loc) (m m' : gmap Z qd_timer) : Prop :=
  forall t, m' !! t = (if decide (t ∈ xs) then set_state QD_TIMER_IDLE <$> m !! t else m !! t).

Lemma run_expired_spec xs : forall fuel w M,
  lists_ok (hp w) run_heads M -> M local_head = xs ->
  (forall t, t ∈ xs -> exists tm, timers w !! t = Some tm /\ callback tm = true /\
     Z.land (flags tm) QD_TIMER_PERIODIC = 0) ->
  (length xs < fuel)%nat ->
  exists w', run_expired no_callback_effect fuel w = Ok w' /\
    lists_ok (hp w') run_heads (upd local_head [] M) /\
    fired w' = fired w ++ xs /\ idled xs (timers w) (timers w') /\ current_tick w' = current_tick w.
Proof.
  induction xs as [|x xs IH]; intros fuel w M Hl HM Hone Hf;
    (destruct fuel as [|fuel]; [simpl in Hf; lia|]); cbn [run_expired];
    (assert (local_head ∈ run_heads) as Hin by apply list_elem_of_here);
    rewrite (list_empty_spec (hp w) local_head (M local_head)) by (by apply Hl); rewrite HM; cbn [obind].
  - exists w. rewrite app_nil_r. split; [done|]. split; [|by repeat split].
    eapply lists_ok_ext; [|exact Hl]. intros p _. unfold upd. case_decide; congruence.
  - destruct (lists_del_init _ _ _ local_head [] x xs Hl Hin HM) as (h1 & E1 & Hl1 & _ & _).
    destruct Hl as [Hd _]. specialize (Hd local_head Hin). rewrite HM in Hd.
    destruct Hd as [Hnd [[Hn _] _]]. rewrite (get_next_ok _ _ _ Hn). cbn [obind].
    rewrite E1. cbn [obind app] in *.
    destruct (Hone x) as (tm & Hx & Hcb & Hfl); [apply list_elem_of_here|].
    unfold get_timer. cbn [timers set_hp]. rewrite Hx. cbn [of_option obind]. rewrite Hcb.
    unfold no_callback_effect at 1. cbn [obind timers set_counts log_fired put_timer set_timers].
    rewrite lookup_insert_eq. cbn [of_option obind flags set_state]. rewrite Hfl. cbn [Z.eqb negb].
    apply NoDup_cons in Hnd as [_ Hnd]. apply NoDup_cons in Hnd as [Hxx _].
    match goal with |- context [run_expired _ fuel ?w2] => set (w3 := w2) end.
    destruct (IH fuel w3 (upd local_head xs M)) as (w' & E & Hl' & Hf' & Hi' & Hc').
    { exact Hl1. }
    { apply upd_eq. }
    { intros t Ht. destruct (Hone t) as (tm' & ? & ? & ?); [by apply list_elem_of_further|].
      exists tm'. simpl. rewrite !lookup_insert_ne by (intros ->; done). done. }
    { simpl in Hf. lia. }
    exists w'. split; [exact E|]. split; [|split; [|split; [|exact Hc']]].
    + eapply lists_ok_ext; [|exact Hl']. intros p _. unfold upd. by repeat case_decide.
    + rewrite Hf'. simpl. by rewrite <- app_assoc.
    + intros t. rewrite (Hi' t). simpl. destruct (decide (t = x)) as [->|Hne].
      * rewrite decide_False by done. rewrite decide_True by apply list_elem_of_here.
        by rewrite lookup_insert_eq, Hx.
      * rewrite !lookup_insert_ne by done. destruct (decide (t ∈ xs)).
        -- by rewrite decide_True by (by apply list_elem_of_further).
        -- rewrite decide_False; [done|]. by rewrite not_elem_of_cons.
Qed.

(** Splicing the expired list to the local one. *)
Lemma splice_expired_spec h L :
  lists_ok h heads L -> mapped h local_head -> (forall hd p, hd ∈ heads -> p ∈ L hd -> local_head < p) ->
  exists h1 h2, qd_list_init h local_head = Ok h1 /\ qd_list_splice h1 expired_head local_head = Ok h2 /\
    lists_ok h2 run_heads (upd local_head (L expired_head) L).
Proof.
  intros Hl Hm Hlt. assert (loose heads L local_head) as Hlo.
  { intros hd Hhd [E|Hp]%elem_of_cons; [|specialize (Hlt hd _ Hhd Hp); lia].
    rewrite <- E in Hhd. apply elem_of_heads in Hhd. change local_head with 1027 in Hhd. lia. }
  destruct (list_init_spec h local_head Hm) as (h1 & E1 & Hd1 & Hs1).
  exists h1. assert (expired_head ∈ heads) as Hexp by (apply elem_of_heads; done).
  assert (forall hd, hd ∈ heads -> dlist h1 hd (L hd)) as Hd.
  { intros hd Hhd. apply (dlist_frame [local_head] h); [done| |by apply Hl].
    intros p Hp ->%list_elem_of_singleton. by apply (Hlo hd). }
  assert (forall hd, hd ∈ all_slot_heads -> hd ∈ heads /\ hd <> expired_head) as Hsl.
  { intros hd Hhd%elem_of_slot_heads. rewrite elem_of_heads. change expired_head with 1025. lia. }
  destruct Hl as [_ Hdis].
  assert (exists h2, qd_list_splice h1 expired_head local_head = Ok h2 /\
    dlist h2 local_head (L expired_head) /\ same_except (L expired_head ++ [local_head]) h1 h2) as (h2 & E2 & Hd2 & Hs2).
  { destruct (L expired_head) as [|x xs] eqn:EL.
    - exists h1. unfold qd_list_splice. rewrite (list_empty_spec _ _ []); [|rewrite <- EL; by apply Hd].
      cbn [obind]. split; [done|]. split; [done|]. by intros p.
    - pose proof (Hd _ Hexp) as Hde. rewrite EL in Hde.
      destruct (list_splice_spec h1 expired_head x xs local_head []) as (h2 & E2 & Hd2 & _ & _ & Hs2); [done|done| |].
      + intros p Hp ->%list_elem_of_singleton. apply (Hlo expired_head Hexp). by rewrite EL.
      + exists h2. rewrite app_nil_r in Hd2. split; [done|]. split; done. }
  exists h2. split; [done|]. split; [done|]. split.
  - intros hd [->|Hhd]%elem_of_cons; [by rewrite upd_eq|]. destruct (Hsl hd Hhd) as [Hin Hne].
    rewrite upd_ne by (intros ->; apply (Hlo _ Hin), list_elem_of_here).
    apply (dlist_frame (L expired_head ++ [local_head]) h1); [done| |by apply Hd].
    intros p Hp [Hp'| ->%list_elem_of_singleton]%elem_of_app; [|by apply (Hlo hd)].
    by apply (Hdis hd expired_head Hin Hexp Hne p Hp), list_elem_of_further.
  - assert (forall hd, hd ∈ all_slot_heads -> forall p, p ∈ hd :: L hd -> p ∉ local_head :: L expired_head) as Hx.
    { intros hd Hhd p Hp. destruct (Hsl hd Hhd) as [Hin Hne].
      intros [->|Hp']%elem_of_cons; [by apply (Hlo hd)|].
      by apply (Hdis hd expired_head Hin Hexp Hne p Hp), list_elem_of_further. }
    assert (forall hd, hd ∈ all_slot_heads -> upd local_head (L expired_head) L hd = L hd) as Hu.
    { intros hd Hhd. apply upd_ne. intros ->. destruct (Hsl _ Hhd) as [Hin _].
      apply (Hlo _ Hin), list_elem_of_here. }
    intros ha hb [->|Ha]%elem_of_cons [->|Hb]%elem_of_cons Hne p; rewrite ?upd_eq, ?Hu by done; [done| | |].
    + intros Hp Hq. by apply (Hx hb Hb p).
    + by apply (Hx ha Ha).
    + apply Hdis; [by apply Hsl | by apply Hsl | done].
Qed.

(** The due timers are timers of the visited slots. *)
Lemma due_members w L n :
  wheel_wf w L ->
  (forall t, t ∈ due L (visited (current_tick w) n) ->
     exists i, (i < n)%nat /\ t ∈ L (slot_head 0 ((current_tick w + Z.of_nat i) mod 256))) /\
  (forall t, t ∈ due L (visited (current_tick w) n) -> is_Some (timers w !! t)).
Proof.
  intros Hwf. assert (forall t, t ∈ due L (visited (current_tick w) n) ->
     exists i, (i < n)%nat /\ t ∈ L (slot_head 0 ((current_tick w + Z.of_nat i) mod 256))) as Hm.
  { intros t Ht. unfold due in Ht. apply list_elem_of_join in Ht as (l & Htl & Hl).
    apply list_elem_of_fmap in Hl as (hd & -> & Hhd). apply list_elem_of_fmap in Hhd as (i & -> & Hi%elem_of_seq).
    exists i. split; [lia|done]. }
  split; [done|]. intros t Ht. destruct (Hm t Ht) as (i & _ & Hin).
  apply (wf_known _ _ Hwf _ t) in Hin; [done|]. apply slot_head_in; [lia|]. apply Z.mod_pos_bound. lia.
Qed.

(** ** Properties *)

(** The hierarchical slot is the right one.  For an expiry [e] that lies
    ahead of the current tick, the slot that [calculate_slot] chooses is visited
    (drained at level 0, cascaded above) in the ticks up to the expiry, and at
    levels 0 to 2 only once: at the expiry itself, or at the start of the block
    of [2^(8 level)] ticks that holds it. *)
Theorem calculate_slot_visit cur e l s :
  0 <= cur <= e -> e < u64_mod -> calculate_slot cur e = (l, s) ->
  let m := 2 ^ (8 * l) in
  visits l s (e / m * m) /\ (l = 0 \/ cur < e / m * m) /\ e / m * m <= e /\
  (l <= 2 -> forall t, cur < t <= e -> visits l s t -> t = e / m * m).
Proof.
  intros Hc He Hcs. rewrite calculate_slot_eq in Hcs by done. unfold visits.
  assert (forall m, 0 < m -> (e / m * m) mod m = 0 /\ e / m * m / m = e / m /\ e / m * m <= e) as Hm.
  { intros m Hm. rewrite Z.mod_mul, Z.div_mul by lia.
    pose proof (Z.mul_div_le e m Hm). lia. }
  assert (forall m, 0 < m -> 0 < e / m - cur / m -> cur < e / m * m) as Hlt.
  { intros m Hp Hd. pose proof (Z.div_mod cur m ltac:(lia)).
    pose proof (Z.mod_pos_bound cur m Hp). nia. }
  destruct (Z.ltb_spec (e - cur) (2 ^ 8)) as [H8|H8];
    [|destruct (Z.ltb_spec (e - cur) (2 ^ 16)) as [H16|H16];
      [|destruct (Z.ltb_spec (e - cur) (2 ^ 24)) as [H24|H24]]];
    injection Hcs as <- <-; cbv zeta.
  - change (2 ^ (8 * 0)) with 1. rewrite !Z.div_1_r, !Z.mul_1_r, Z.mod_1_r.
    repeat split; try lia. intros _ t Ht [_ Hs]. rewrite Z.div_1_r in Hs.
    pose proof (Z.div_mod t 256 ltac:(lia)). pose proof (Z.div_mod e 256 ltac:(lia)). lia.
  - change (2 ^ (8 * 1)) with (2 ^ 8). destruct (Hm (2 ^ 8) ltac:(lia)) as (? & -> & ?).
    pose proof (blocks_apart (2 ^ 8) cur e ltac:(lia) ltac:(lia) ltac:(lia)) as Hb.
    split; [done|]. split; [right; apply Hlt; lia|]. split; [done|].
    intros _ t Ht [Ht0 Hs]. eapply first_visit; eauto; lia.
  - change (2 ^ (8 * 2)) with (2 ^ 16). destruct (Hm (2 ^ 16) ltac:(lia)) as (? & -> & ?).
    pose proof (blocks_apart (2 ^ 16) cur e ltac:(lia) ltac:(lia) ltac:(lia)) as Hb.
    split; [done|]. split; [right; apply Hlt; lia|]. split; [done|].
    intros _ t Ht [Ht0 Hs]. eapply first_visit; eauto; lia.
  - change (2 ^ (8 * 3)) with (2 ^ 24). destruct (Hm (2 ^ 24) ltac:(lia)) as (? & -> & ?).
    split; [done|]. split; [|split; [done|lia]]. right. apply Hlt; [lia|].
    pose proof (Z.div_mod e (2 ^ 24) ltac:(lia)). pose proof (Z.mod_pos_bound e (2 ^ 24) ltac:(lia)).
    pose proof (Z.div_mod cur (2 ^ 24) ltac:(lia)). pose proof (Z.mod_pos_bound cur (2 ^ 24) ltac:(lia)).
    lia.
Qed.

Lemma calculate_slot_visit_witness :
  visits 1 2 512 /\ (forall t, 255 < t <= 600 -> visits 1 2 t -> t = 512).
Proof.
  destruct (calculate_slot_visit 255 600 1 2 ltac:(lia) ltac:(reflexivity) eq_refl) as (Hv & _ & _ & Ho).
  split; [exact Hv|]. intros t Ht Hv'. exact (Ho ltac:(lia) t Ht Hv').
Defined.

(** Starting a one-shot timer.  On a well-formed wheel, whether the timer was
    scheduled or not, the call returns QD_OK and leaves a well-formed wheel in
    which the timer is the last one of the slot of its expiry, in no other slot,
    and every other list is as before. *)
Theorem timer_start_correct w L t tm delay l s :
  wheel_wf w L -> timers w !! t = Some tm -> wheel tm = true ->
  calculate_slot (current_tick w) (u64 (current_tick w + delay_ticks w delay)) = (l, s) ->
  exists w', qd_timer_start w t delay = Ok (QD_OK, w') /\ wheel_wf w' (started t l s L) /\
    timers w' = <[t:=scheduled_timer tm (u64 (current_tick w + delay_ticks w delay)) (delay_ticks w delay)
                       (Z.land (flags tm) (u32 (Z.lnot QD_TIMER_PERIODIC))) l s]> (timers w) /\
    num_timers w' = i32 (num_timers w + 1) /\ fired w' = fired w.
Proof.
  intros Hwf Ht Hw Hc. destruct (timer_start_spec w L t tm delay l s Hwf Ht Hw Hc) as (w' & ? & ? & ? & ? & ? & _).
  by exists w'.
Qed.

Lemma timer_start_correct_witness : exists w w',
  qd_timer_start w 2000 5000 = Ok (QD_OK, w') /\ current_tick w = 0 /\
  wheel_wf w' (started 2000 1 1 (fun _ => [])).
Proof.
  destruct demo_wheel as (w & Hwf & Ht & Hc & Hi & Hn & _). exists w.
  destruct (timer_start_correct w (fun _ => []) 2000 (idle_timer true) 5000 1 1) as (w' & E & Hwf' & _).
  - exact Hwf.
  - rewrite Ht. reflexivity.
  - reflexivity.
  - unfold delay_ticks. rewrite Hc, Hi. reflexivity.
  - exists w'. auto.
Defined.

(** Stopping a timer.  On a well-formed wheel the call returns QD_OK, takes
    the timer out of its slot (if it was in one), leaves every other list as it
    was and the wheel well formed, marks the timer cancelled, and counts the
    cancellation exactly when the timer was scheduled. *)
Theorem timer_stop_correct w L t tm :
  wheel_wf w L -> timers w !! t = Some tm -> wheel tm = true ->
  exists w' tm', qd_timer_stop w t = Ok (QD_OK, w') /\ wheel_wf w' (pulled t L) /\
    timers w' = <[t:=tm']> (timers w) /\ state tm' = QD_TIMER_CANCELLED /\ slot tm' < 0 /\
    num_timers w' = (if 0 <=? slot tm then i32 (num_timers w - 1) else num_timers w) /\
    timers_cancelled w' = (if 0 <=? slot tm then u64 (timers_cancelled w + 1) else timers_cancelled w).
Proof.
  intros Hwf Ht Hw.
  destruct (remove_timer_spec w L t tm Hwf Ht) as (w1 & tm1 & E1 & Hl1 & Hlo & Hp1 & Htm & Hs & Etm & Ew).
  unfold qd_timer_stop. unfold get_timer at 1. rewrite Ht. cbn [of_option obind].
  rewrite Hw. cbn [negb].
  assert (timers w1 !! t = Some tm1) as Hg by (by rewrite Htm, lookup_insert_eq).
  destruct (Z.leb_spec 0 (slot tm)) as [H0|H0].
  - rewrite E1. cbn [obind]. unfold get_timer. cbn [timers set_counts]. rewrite Hg. cbn [of_option obind].
    assert (num_timers w1 = num_timers w /\ timers_cancelled w1 = timers_cancelled w) as [En Ec]
      by (by rewrite Ew).
    eexists _, (set_state QD_TIMER_CANCELLED tm1). split; [done|]. split; [|split; [|simpl; rewrite En, Ec; split; [done|by split]]].
    + apply (pulled_wf w _ L t (set_state QD_TIMER_CANCELLED tm1)); try done.
      simpl. by rewrite Htm, insert_insert_eq.
    + simpl. by rewrite Htm, insert_insert_eq.
  - assert (w1 = w) as ->.
    { unfold remove_timer_internal, get_timer in E1. rewrite Ht in E1. cbn [of_option obind] in E1.
      destruct (Z.leb_spec 0 (slot tm)); [lia|]. by injection E1. }
    cbn [obind]. unfold get_timer. rewrite Hg. cbn [of_option obind].
    eexists _, (set_state QD_TIMER_CANCELLED tm1). split; [done|]. split; [|done].
    apply (pulled_wf w _ L t (set_state QD_TIMER_CANCELLED tm1)); done.
Qed.

Lemma timer_stop_correct_witness : exists w w' tm',
  qd_timer_stop w 2000 = Ok (QD_OK, w') /\ timers w' = <[2000:=tm']> (timers w) /\
  state tm' = QD_TIMER_CANCELLED.
Proof.
  destruct demo_wheel as (w & Hwf & Ht & _). exists w.
  destruct (timer_stop_correct w (fun _ => []) 2000 (idle_timer true)) as (w' & tm' & E & _ & Ht' & Hs & _).
  - exact Hwf.
  - rewrite Ht. reflexivity.
  - reflexivity.
  - exists w', tm'. auto.
Defined.

(** C2: The first firing, within one turn of level 0. A well-formed wheel (its expired list
    is empty, which holds until a timer has fired once, see [oneshot_fires_again]) is ticked
    by [n] ticks that do not reach a multiple of 256, so that nothing cascades; the timers
    in the slots of these ticks are one-shot and due, and the callbacks do nothing to the
    wheel. Then the callback of each of these timers runs exactly once, in the order of the
    ticks and of their start, these timers become idle, their slots are empty, and the other
    slots are as they were. *)
Theorem tick_fires_due w L now n fuel :
  let hs := visited (current_tick w) n in
  wheel_wf w L -> mapped (hp w) local_head ->
  0 <= current_tick w -> current_tick w mod 256 + Z.of_nat n < 256 ->
  current_tick w + Z.of_nat n < u64_mod -> (0 < n)%nat ->
  u64 (now - base_time w) / tick_interval_ms w = current_tick w + Z.of_nat n ->
  (forall i t, (i < n)%nat -> t ∈ L (slot_head 0 ((current_tick w + Z.of_nat i) mod 256)) ->
     exists tm, timers w !! t = Some tm /\ expires tm <= current_tick w + Z.of_nat i /\
       callback tm = true /\ Z.land (flags tm) QD_TIMER_PERIODIC = 0) ->
  (n + length (due L hs) < fuel)%nat ->
  exists w', qd_timer_wheel_tick no_callback_effect fuel now (Some w)
      = Ok (Z.of_nat (length (due L hs)), Some w') /\
    fired w' = fired w ++ due L hs /\ current_tick w' = current_tick w + Z.of_nat n /\
    (forall t, t ∈ due L hs -> exists tm', timers w' !! t = Some tm' /\ state tm' = QD_TIMER_IDLE /\ slot tm' < 0) /\
    (forall hd, hd ∈ all_slot_heads -> dlist (hp w') hd (if decide (hd ∈ hs) then [] else L hd)).
Proof.
  intros hs Hwf Hm Hc Hmod Hov Hn Hnow Hdue Hf. unfold qd_timer_wheel_tick. cbv zeta. rewrite Hnow.
  destruct (Z.leb_spec (current_tick w + Z.of_nat n) (current_tick w)); [lia|].
  destruct (tick_loop_spec n fuel w L 0 (wf_lists _ _ Hwf) Hc Hmod Hov) as (w1 & -> & Hl1 & Hp1 & Hs1 & Hc1 & _ & Hf1).
  { intros i t Hi Ht. destruct (Hdue i t Hi Ht) as (tm & ? & ? & _). eauto. }
  { done. }
  fold hs in Hl1, Hs1 |- *. rewrite Z.add_0_l. cbn [obind].
  assert (L expired_head = []) as Hexp0.
  { apply elem_of_nil_inv. intros t Ht. assert (expired_head ∈ heads) as Hexp by (apply elem_of_heads; done).
    destruct (wf_known _ _ Hwf _ t Hexp Ht) as [tm Htm]. destruct (Z.lt_ge_cases (slot tm) 0) as [Hs|Hs].
    - by apply (wf_out _ _ Hwf t tm Htm Hs _ Hexp), list_elem_of_further.
    - destruct (wf_in _ _ Hwf t tm Htm Hs) as (? & ? & Hin).
      destruct (slot_head_in (wheel_level tm) (slot tm)) as [Hh Hne]; [lia|lia|].
      by apply (proj2 (wf_lists _ _ Hwf) _ _ Hh Hexp Hne t); apply list_elem_of_further. }
  destruct (due_members w L n Hwf) as [Hdm Hdk].
  destruct (splice_expired_spec (hp w1) (drained hs L) Hl1 (Hp1 _ Hm)) as (h2 & h3 & E2 & E3 & Hl3).
  { intros hd p Hhd Hp. apply (wf_addr _ _ Hwf). unfold drained in Hp. rewrite Hexp0 in Hp.
    destruct (decide (hd = expired_head)); [by apply Hdk|].
    destruct (decide (hd ∈ hs)); [by apply elem_of_nil in Hp|]. by eapply wf_known. }
  rewrite E2. cbn [obind]. rewrite E3. cbn [obind].
  assert (drained hs L expired_head = due L hs) as Hdr.
  { unfold drained. rewrite decide_True by done. by rewrite Hexp0. }
  destruct (run_expired_spec (due L hs) fuel (set_hp h3 w1) _ Hl3) as (w4 & E4 & Hl4 & Hf4 & Hi4 & Hc4).
  { by rewrite upd_eq. }
  { intros t Ht. destruct (Hdm t Ht) as (i & Hi & Hin). destruct (Hdue i t Hi Hin) as (tm & Htm & _ & ? & ?).
    exists (set_slot (-1) tm). simpl. rewrite (Hs1 t), decide_True by done. by rewrite Htm. }
  { lia. }
  exists w4. rewrite E4. cbn [obind]. split; [done|]. split; [by rewrite Hf4; simpl; rewrite Hf1|].
  split; [by rewrite Hc4|]. split.
  - intros t Ht. destruct (Hdm t Ht) as (i & Hi & Hin). destruct (Hdue i t Hi Hin) as (tm & Htm & _).
    exists (set_state QD_TIMER_IDLE (set_slot (-1) tm)). rewrite (Hi4 t), decide_True by done. simpl.
    rewrite (Hs1 t), decide_True by done. by rewrite Htm.
  - intros hd Hhd. destruct Hl4 as [Hd4 _]. specialize (Hd4 hd (list_elem_of_further _ _ _ Hhd)).
    assert (hd <> local_head /\ hd <> expired_head) as [N1 N2].
    { apply elem_of_slot_heads in Hhd. change local_head with 1027. change expired_head with 1025. lia. }
    rewrite !upd_ne in Hd4 by done. unfold drained in Hd4. by rewrite decide_False in Hd4 by done.
Qed.

Lemma tick_fires_due_witness : exists w w',
  qd_timer_wheel_tick no_callback_effect 20 70 (Some w) = Ok (1, Some w') /\
  fired w = [] /\ fired w' = [2000] /\ current_tick w' = 7.
Proof.
  destruct demo_started as (w & Hwf & Ht & Hf & Hc & Hi & Hb & Hm). exists w.
  assert (due (started 2000 0 5 (fun _ => [])) (visited 0 7) = [2000]) as Hd by (vm_compute; reflexivity).
  destruct (tick_fires_due w (started 2000 0 5 (fun _ => [])) 70 7 20 Hwf Hm) as (w' & E & Hf' & Hc' & _);
    rewrite ?Hc, ?Hi, ?Hb, ?Hd.
  - lia.
  - reflexivity.
  - reflexivity.
  - lia.
  - reflexivity.
  - intros i t Hlt Hin. apply started_elem in Hin as [[_ Hin]|[-> Hs]]; [by apply elem_of_nil in Hin|].
    exists (scheduled_timer (idle_timer true) 5 5 0 0 5). rewrite Ht. split; [reflexivity|].
    apply slot_head_inj in Hs as [_ Hs]; [|apply Z.mod_pos_bound; lia|lia].
    rewrite Z.mod_small in Hs by lia. split; [simpl; lia|]. by split.
  - simpl. lia.
  - exists w'. rewrite Hc, Hd in E, Hf'. rewrite Hf in Hf'. rewrite Hc in Hc'. by split.
Defined.

(** An expired one-shot timer is not removed from the wheel.  The tick
    splices [wheel->expired] into a local list without reinitialising it, so
    that the head keeps pointing at timers that have already run: a one-shot
    timer of 5 ms on a wheel ticked at 6, 7 and 8 ms has its callback invoked
    three times, and the timer count drops to -2. *)
Theorem oneshot_fires_again : oneshot_run = Ok ([2000; 2000; 2000], -2).
Proof. vm_compute. reflexivity. Qed.

(** A tick with an explicit time does nothing.  [qd_timer_wheel_tick_to]
    rebases the wheel so that [now] is the current tick and then ticks by the real
    clock: called with the present time (or less than a tick before it), it runs
    no timer and leaves the current tick where it is, however much time has passed
    since the last tick. *)
Theorem tick_to_is_stuck cb fuel real_now now w :
  0 < tick_interval_ms w -> 0 <= now <= real_now -> real_now - now < tick_interval_ms w ->
  0 <= current_tick w -> current_tick w * tick_interval_ms w + tick_interval_ms w <= u64_mod ->
  exists w', qd_timer_wheel_tick_to cb fuel real_now now (Some w) = Ok (0, Some w') /\
    current_tick w' = current_tick w /\ timers w' = timers w /\ hp w' = hp w /\ fired w' = fired w.
Proof.
  intros Hi Hn Hd Hc Hov. unfold qd_timer_wheel_tick_to, qd_timer_wheel_tick.
  cbn [base_time set_base_time tick_interval_ms current_tick].
  rewrite (u64_small (current_tick w * tick_interval_ms w)) by (unfold_widths; nia).
  assert (u64 (real_now - u64 (now - current_tick w * tick_interval_ms w))
          = current_tick w * tick_interval_ms w + (real_now - now)) as ->.
  { unfold_widths. rewrite Zminus_mod_idemp_r. rewrite Z.mod_small; unfold_widths; [lia|nia]. }
  rewrite Z.div_add_l, (Z.div_small (real_now - now)), Z.add_0_r, Z.leb_refl by lia.
  eexists. split; [done|]. done.
Qed.

Lemma tick_to_is_stuck_witness : exists w w',
  qd_timer_wheel_tick_to no_callback_effect 20 5000 5000 (Some w) = Ok (0, Some w') /\
  timers w !! 2000 = Some (scheduled_timer (idle_timer true) 5 5 0 0 5) /\ current_tick w' = 0 /\ fired w' = [].
Proof.
  destruct demo_started as (w & _ & Ht & Hf & Hc & Hi & Hb & _). exists w.
  destruct (tick_to_is_stuck no_callback_effect 20 5000 5000 w) as (w' & E & Hc' & _ & _ & Hf');
    rewrite ?Hc, ?Hi; try lia; [unfold_widths; lia|].
  exists w'. split; [exact E|]. rewrite Ht, Hc', Hf', Hc, Hf. split; [reflexivity|]. by split.
Defined.
