(* ===== verification/Channel.v ===== *)
(** * src/core/qd_channel.c: the lock-free MPSC channel

    A bounded queue for several producers and one consumer.  Every call is a
    small machine whose steps are the atomic accesses of the C function, so that
    any interleaving of several producers, the consumer and a closing thread is a
    sequence of [action]s (sequentially consistent memory).  A copy of an item is
    one step: the theorems show that nobody else touches the slot meanwhile.
    Running a machine alone gives the function a single thread sees. *)

From S2P Require Import Prelude Common.

Definition QD_CHAN_NONBLOCK : Z := 1.
Definition QD_CHAN_OVERFLOW : Z := 2.

Abbreviation item := (list Z).

(** [struct qd_channel].  [eventfd] is the counter of the event descriptor,
    [lock] tells whether the mutex is held. *)
Record qd_channel := mkChan {
  buffer : list Z;
  capacity : Z;
  item_size : Z;
  mask : Z;
  head : Z;
  tail : Z;
  committed : list Z;
  eventfd : Z;
  lock : bool;
  flags : Z;
  closed : Z
}.

Definition set_buffer (b : list Z) (c : qd_channel) : qd_channel :=
  mkChan b (capacity c) (item_size c) (mask c) (head c) (tail c) (committed c) (eventfd c) (lock c) (flags c) (closed c).
Definition set_head (h : Z) (c : qd_channel) : qd_channel :=
  mkChan (buffer c) (capacity c) (item_size c) (mask c) h (tail c) (committed c) (eventfd c) (lock c) (flags c) (closed c).
Definition set_tail (t : Z) (c : qd_channel) : qd_channel :=
  mkChan (buffer c) (capacity c) (item_size c) (mask c) (head c) t (committed c) (eventfd c) (lock c) (flags c) (closed c).
Definition set_committed (m : list Z) (c : qd_channel) : qd_channel :=
  mkChan (buffer c) (capacity c) (item_size c) (mask c) (head c) (tail c) m (eventfd c) (lock c) (flags c) (closed c).
Definition set_eventfd (e : Z) (c : qd_channel) : qd_channel :=
  mkChan (buffer c) (capacity c) (item_size c) (mask c) (head c) (tail c) (committed c) e (lock c) (flags c) (closed c).
Definition set_lock (l : bool) (c : qd_channel) : qd_channel :=
  mkChan (buffer c) (capacity c) (item_size c) (mask c) (head c) (tail c) (committed c) (eventfd c) l (flags c) (closed c).
Definition set_closed (v : Z) (c : qd_channel) : qd_channel :=
  mkChan (buffer c) (capacity c) (item_size c) (mask c) (head c) (tail c) (committed c) (eventfd c) (lock c) (flags c) v.

(** ** Creation *)

Definition round_up_pow2 (n : Z) : Z :=
  if n =? 0 then 1 else
  let n := n -64 1 in
  let n := smear 1 n in
  let n := smear 2 n in
  let n := smear 4 n in
  let n := smear 8 n in
  let n := smear 16 n in
  let n := smear 32 n in
  n +64 1.

Record qd_channel_config := mkConfig { cfg_capacity : Z; cfg_item_size : Z; cfg_flags : Z }.

(** The allocations and the eventfd call succeed or fail ([chan_ok], [committed_ok],
    [fd_ok]); a malloc of [n] bytes returns a block with some content or NULL. *)
Definition qd_channel_create (chan_ok committed_ok fd_ok : bool) (malloc : Z -> option (list Z))
    (config : option qd_channel_config) : option qd_channel :=
  match config with
  | None => None
  | Some cfg =>
    if cfg_item_size cfg =? 0 then None else
    if negb chan_ok then None else
    let cap := if cfg_capacity cfg =? 0 then 1024 else round_up_pow2 (cfg_capacity cfg) in
    match malloc (cap *64 cfg_item_size cfg) with
    | None => None
    | Some b =>
      if negb committed_ok then None else
      if negb fd_ok then None else
      Some (mkChan b cap (cfg_item_size cfg) (cap -64 1) 0 0 (replicate (Z.to_nat cap) 0) 0 false
              (cfg_flags cfg) 0)
    end
  end.

(** ** Accesses *)

Definition get_committed (c : qd_channel) (pos : Z) : outcome Z :=
  if pos <? 0 then Undef else of_option (committed c !! Z.to_nat pos).

Definition put_committed (c : qd_channel) (pos v : Z) : outcome qd_channel :=
  let! _ := get_committed c pos in
  Ok (set_committed (<[Z.to_nat pos := v]> (committed c)) c).

Definition slot_pos (c : qd_channel) (i : Z) : Z := Z.land i (mask c).

Definition write_slot (c : qd_channel) (i : Z) (x : item) : outcome qd_channel :=
  let! b := store (buffer c) (slot_pos c i *64 item_size c) x in Ok (set_buffer b c).

Definition read_slot (c : qd_channel) (i : Z) : outcome item :=
  load (buffer c) (slot_pos c i *64 item_size c) (item_size c).

(** [signal_event]: a write of 1 to the eventfd. *)
Definition signal_event (c : qd_channel) : qd_channel := set_eventfd (eventfd c + 1) c.

(** ** The send machine: qd_channel_try_send *)

Inductive send_pc :=
| SEntry
| SLoadTail
| SLoadHead (t : Z)
| SCas (t h : Z)
| SCopy (t h : Z)
| SCommit (t h : Z)
| SSignal (t h : Z)
| SLock
| SLkTail
| SLkHead (t : Z)
| SDrop (t h : Z)
| SAdvance (t h : Z)
| SLkCopy (t h : Z)
| SLkCommit (t h : Z)
| SLkStore (t h : Z)
| SUnlock (t h : Z)
| SLkSignal
| SReturn (r : Z).

(** One atomic step; [weak] tells a compare-and-exchange to fail spuriously. *)
Definition send_step (weak : bool) (x : item) (pc : send_pc) (c : qd_channel)
  : outcome (send_pc * qd_channel) :=
  match pc with
  | SEntry => Ok (if closed c =? 0 then SLoadTail else SReturn QD_ERR_IO, c)
  | SLoadTail => Ok (SLoadHead (tail c), c)
  | SLoadHead t =>
    let h := head c in
    if capacity c <=? (t -64 h) then
      if negb (Z.land (flags c) QD_CHAN_OVERFLOW =? 0) then Ok (SLock, c) else Ok (SReturn QD_ERR_BUSY, c)
    else Ok (SCas t h, c)
  | SCas t h =>
    if negb weak && (tail c =? t) then Ok (SCopy t h, set_tail (t +64 1) c) else Ok (SLoadTail, c)
  | SCopy t h => let! c := write_slot c t x in Ok (SCommit t h, c)
  | SCommit t h => let! c := put_committed c (slot_pos c t) 1 in Ok (SSignal t h, c)
  | SSignal t h => Ok (SReturn QD_OK, if t =? h then signal_event c else c)
  | SLock => if lock c then Ok (SLock, c) else Ok (SLkTail, set_lock true c)
  | SLkTail => Ok (SLkHead (tail c), c)
  | SLkHead t =>
    let h := head c in
    if capacity c <=? (t -64 h) then Ok (SDrop t h, c) else Ok (SLkCopy t h, c)
  | SDrop t h => let! c := put_committed c (slot_pos c h) 0 in Ok (SAdvance t h, c)
  | SAdvance t h => Ok (SLkCopy t h, set_head (head c +64 1) c)
  | SLkCopy t h => let! c := write_slot c t x in Ok (SLkCommit t h, c)
  | SLkCommit t h => let! c := put_committed c (slot_pos c t) 1 in Ok (SLkStore t h, c)
  | SLkStore t h => Ok (SUnlock t h, set_tail (t +64 1) c)
  | SUnlock t h => Ok (if t =? h then SLkSignal else SReturn QD_OK, set_lock false c)
  | SLkSignal => Ok (SReturn QD_OK, signal_event c)
  | SReturn r => Ok (SReturn r, c)
  end.

(** ** The receive machines: qd_channel_try_recv and qd_channel_try_recv_batch *)

Inductive recv_pc :=
| REntry
| RLoadHead
| RLoadTail (h : Z)
| RSpin (h : Z)
| RRead (h : Z)
| RClear (h : Z) (x : item)
| RAdvance (h : Z) (x : item)
| RReturn (r : Z) (x : option item).

Definition recv_step (pc : recv_pc) (c : qd_channel) : outcome (recv_pc * qd_channel) :=
  match pc with
  | REntry => Ok (if closed c =? 0 then RLoadHead else RReturn QD_ERR_IO None, c)
  | RLoadHead => Ok (RLoadTail (head c), c)
  | RLoadTail h => Ok (if tail c <=? h then RReturn QD_ERR_AGAIN None else RSpin h, c)
  | RSpin h =>
    let! f := get_committed c (slot_pos c h) in
    Ok (if f =? 0 then RSpin h else RRead h, c)
  | RRead h => let! x := read_slot c h in Ok (RClear h x, c)
  | RClear h x => let! c := put_committed c (slot_pos c h) 0 in Ok (RAdvance h x, c)
  | RAdvance h x => Ok (RReturn QD_OK (Some x), set_head (h +64 1) c)
  | RReturn r x => Ok (RReturn r x, c)
  end.

(** [acc] holds the items copied so far; their number is both the loop index [i]
    and [processed], since the loop ends at the first slot it does not copy. *)
Inductive batch_pc :=
| BEntry (max : Z)
| BLoadHead (max : Z)
| BLoadTail (max h : Z)
| BSpin (h n : Z) (acc : list item)
| BCheck (h n : Z) (acc : list item)
| BRead (h n : Z) (acc : list item)
| BClear (h n : Z) (acc : list item) (x : item)
| BStore (h : Z) (acc : list item)
| BReturn (r : Z) (acc : list item).

Definition processed (acc : list item) : Z := Z.of_nat (length acc).

(** The head of the [for] loop. *)
Definition batch_next (h n : Z) (acc : list item) : batch_pc :=
  if processed acc <? n then BSpin h n acc
  else if 0 <? processed acc then BStore h acc else BReturn 0 acc.

(** [spun_out] tells the spin loop that its 10000 rounds are over. *)
Definition batch_step (spun_out : bool) (pc : batch_pc) (c : qd_channel) : outcome (batch_pc * qd_channel) :=
  match pc with
  | BEntry max => Ok (if closed c =? 0 then BLoadHead max else BReturn QD_ERR_IO [], c)
  | BLoadHead max => Ok (BLoadTail max (head c), c)
  | BLoadTail max h =>
    let t := tail c in
    if t <=? h then Ok (BReturn 0 [], c) else
    let available := t -64 h in
    Ok (batch_next h (if available <? max then available else max) [], c)
  | BSpin h n acc =>
    let! f := get_committed c (slot_pos c (h +64 processed acc)) in
    Ok (if (f =? 0) && negb spun_out then BSpin h n acc else BCheck h n acc, c)
  | BCheck h n acc =>
    let! f := get_committed c (slot_pos c (h +64 processed acc)) in
    Ok (if f =? 0 then (if 0 <? processed acc then BStore h acc else BReturn 0 acc) else BRead h n acc, c)
  | BRead h n acc => let! x := read_slot c (h +64 processed acc) in Ok (BClear h n acc x, c)
  | BClear h n acc x =>
    let! c := put_committed c (slot_pos c (h +64 processed acc)) 0 in
    Ok (batch_next h n (acc ++ [x]), c)
  | BStore h acc => Ok (BReturn (processed acc) acc, set_head (h +64 processed acc) c)
  | BReturn r acc => Ok (BReturn r acc, c)
  end.

(** ** The calls of a thread that runs alone *)

Fixpoint run_send (fuel : nat) (x : item) (pc : send_pc) (c : qd_channel) : outcome (Z * qd_channel) :=
  match pc, fuel with
  | SReturn r, _ => Ok (r, c)
  | _, O => Fuel
  | _, S fuel => let! (pc, c) := send_step false x pc c in run_send fuel x pc c
  end.

Definition qd_channel_try_send (fuel : nat) (c : qd_channel) (x : option item) : outcome (Z * qd_channel) :=
  match x with None => Ok (QD_ERR_INVAL, c) | Some x => run_send fuel x SEntry c end.

Fixpoint run_recv (fuel : nat) (pc : recv_pc) (c : qd_channel) : outcome (Z * option item * qd_channel) :=
  match pc, fuel with
  | RReturn r x, _ => Ok (r, x, c)
  | _, O => Fuel
  | _, S fuel => let! (pc, c) := recv_step pc c in run_recv fuel pc c
  end.

Definition qd_channel_try_recv (fuel : nat) (c : qd_channel) : outcome (Z * option item * qd_channel) :=
  run_recv fuel REntry c.

Fixpoint run_batch (fuel : nat) (pc : batch_pc) (c : qd_channel) : outcome (Z * list item * qd_channel) :=
  match pc, fuel with
  | BReturn r acc, _ => Ok (r, acc, c)
  | _, O => Fuel
  | _, S fuel => let! (pc, c) := batch_step false pc c in run_batch fuel pc c
  end.

Definition qd_channel_try_recv_batch (fuel : nat) (c : qd_channel) (max_items : Z)
  : outcome (Z * list item * qd_channel) :=
  if max_items <=? 0 then Ok (QD_ERR_INVAL, [], c) else run_batch fuel (BEntry max_items) c.

Definition qd_channel_ack (c : qd_channel) : qd_channel := set_eventfd 0 c.
Definition qd_channel_capacity (c : option qd_channel) : Z :=
  match c with None => -1 | Some c => i32 (capacity c) end.
Definition qd_channel_size (c : option qd_channel) : Z :=
  match c with None => -1 | Some c => i32 (tail c -64 head c) end.
Definition qd_channel_item_size (c : option qd_channel) : Z :=
  match c with None => 0 | Some c => item_size c end.

(** ** Threads

    A producer runs qd_channel_try_send or qd_channel_send, the consumer one of
    the three receive calls.  The blocking calls try once, then take the lock and
    alternate tries with waits on a condition variable.  A step has an oracle bit:
    the weak compare-and-swap fails spuriously, the batch gives up spinning, and a
    wait on a condition variable ends although nobody signalled it. *)

Inductive producer :=
| PIdle (r : option Z)                  (* no call, and what the last one returned *)
| PTry (x : item) (pc : send_pc)
| PSendFast (x : item) (pc : send_pc)
| PSendLock (x : item)                  (* pthread_mutex_lock, also when woken *)
| PSendTest (x : item)
| PSendRetry (x : item) (pc : send_pc)
| PSendWait (x : item).                 (* in pthread_cond_wait(&not_full) *)

Definition producer_step (weak : bool) (p : producer) (c : qd_channel) : outcome (producer * qd_channel) :=
  match p with
  | PIdle r => Ok (PIdle r, c)
  | PTry x (SReturn r) => Ok (PIdle (Some r), c)
  | PTry x pc => let! (pc, c) := send_step weak x pc c in Ok (PTry x pc, c)
  | PSendFast x (SReturn r) =>
    if negb (r =? QD_ERR_BUSY) then Ok (PIdle (Some r), c) else
    if negb (Z.land (flags c) QD_CHAN_NONBLOCK =? 0) then Ok (PIdle (Some QD_ERR_BUSY), c) else
    Ok (PSendLock x, c)
  | PSendFast x pc => let! (pc, c) := send_step weak x pc c in Ok (PSendFast x pc, c)
  | PSendLock x => if lock c then Ok (PSendLock x, c) else Ok (PSendTest x, set_lock true c)
  | PSendTest x =>
    if negb (closed c =? 0) then Ok (PIdle (Some QD_ERR_IO), set_lock false c)
    else Ok (PSendRetry x SEntry, c)
  | PSendRetry x (SReturn r) =>
    if negb (r =? QD_ERR_BUSY) then Ok (PIdle (Some r), set_lock false c)
    else Ok (PSendWait x, set_lock false c)
  | PSendRetry x pc => let! (pc, c) := send_step weak x pc c in Ok (PSendRetry x pc, c)
  | PSendWait x => if weak then Ok (PSendLock x, c) else Ok (PSendWait x, c)
  end.

Inductive consumer :=
| CIdle (r : option Z)
| CTry (pc : recv_pc)
| CBatch (pc : batch_pc)
| CRecvFast (pc : recv_pc)
| CRecvLock
| CRecvTest
| CRecvRetry (pc : recv_pc)
| CRecvWait.

Definition consumer_step (spun_out : bool) (k : consumer) (c : qd_channel) : outcome (consumer * qd_channel) :=
  match k with
  | CIdle r => Ok (CIdle r, c)
  | CTry (RReturn r _) => Ok (CIdle (Some r), c)
  | CTry pc => let! (pc, c) := recv_step pc c in Ok (CTry pc, c)
  | CBatch (BReturn r _) => Ok (CIdle (Some r), c)
  | CBatch pc => let! (pc, c) := batch_step spun_out pc c in Ok (CBatch pc, c)
  | CRecvFast (RReturn r _) =>
    if negb (r =? QD_ERR_AGAIN) then Ok (CIdle (Some r), c) else
    if negb (Z.land (flags c) QD_CHAN_NONBLOCK =? 0) then Ok (CIdle (Some QD_ERR_AGAIN), c) else
    Ok (CRecvLock, c)
  | CRecvFast pc => let! (pc, c) := recv_step pc c in Ok (CRecvFast pc, c)
  | CRecvLock => if lock c then Ok (CRecvLock, c) else Ok (CRecvTest, set_lock true c)
  | CRecvTest =>
    if negb (closed c =? 0) then Ok (CIdle (Some QD_ERR_IO), set_lock false c)
    else Ok (CRecvRetry REntry, c)
  | CRecvRetry (RReturn r _) =>
    if negb (r =? QD_ERR_AGAIN) then Ok (CIdle (Some r), set_lock false c)
    else Ok (CRecvWait, set_lock false c)
  | CRecvRetry pc => let! (pc, c) := recv_step pc c in Ok (CRecvRetry pc, c)
  | CRecvWait => if spun_out then Ok (CRecvLock, c) else Ok (CRecvWait, c)
  end.

(** ** The interleaving of all threads

    [sent] logs the items in the order in which producers reserved their slots,
    [got] the items the consumer has taken, in the order in which it took them. *)

Record world := mkWorld {
  chan : qd_channel;
  producers : gmap nat producer;
  the_consumer : consumer;
  sent : list item;
  got : list item
}.

Inductive action :=
| ATrySend (p : nat) (x : item)
| ASend (p : nat) (x : item)
| AProducer (p : nat) (weak : bool)
| ATryRecv
| ABatch (max : Z)
| ARecv
| AConsumer (spun_out : bool)
| AAck
| AClose
| ABroadcast.

Definition get_producer (w : world) (p : nat) : producer := default (PIdle None) (producers w !! p).

Definition put_producer (p : nat) (pr : producer) (c : qd_channel) (new : list item) (w : world) : world :=
  mkWorld c (<[p:=pr]> (producers w)) (the_consumer w) (sent w ++ new) (got w).

Definition put_consumer (k : consumer) (c : qd_channel) (new : list item) (w : world) : world :=
  mkWorld c (producers w) k (sent w) (got w ++ new).

(** The send machine a producer is in. *)
Definition send_view (p : producer) : option (item * send_pc) :=
  match p with
  | PTry x pc | PSendFast x pc | PSendRetry x pc => Some (x, pc)
  | _ => None
  end.

Definition recv_view (k : consumer) : option recv_pc :=
  match k with CTry pc | CRecvFast pc | CRecvRetry pc => Some pc | _ => None end.

(** The item whose slot the step from [p] to [p'] reserved. *)
Definition reserved (p p' : producer) : list item :=
  match send_view p, send_view p' with
  | Some (x, SCas _ _), Some (_, SCopy _ _) => [x]
  | _, _ => []
  end.

(** The items the next step of the consumer hands over: the store of [head]. *)
Definition delivered (k : consumer) : list item :=
  match recv_view k, k with
  | Some (RAdvance _ x), _ => [x]
  | None, CBatch (BStore _ acc) => acc
  | _, _ => []
  end.

(** pthread_cond_broadcast on the two conditions: the waiters compete for the lock. *)
Definition wake_producer (p : producer) : producer :=
  match p with PSendWait x => PSendLock x | p => p end.
Definition wake_consumer (k : consumer) : consumer :=
  match k with CRecvWait => CRecvLock | k => k end.

(** An action that is not enabled (a call of a busy thread, a broadcast while the
    lock is held) leaves the world as it is. *)
Definition step (a : action) (w : world) : outcome world :=
  let c := chan w in
  match a with
  | ATrySend p x =>
    match get_producer w p with PIdle _ => Ok (put_producer p (PTry x SEntry) c [] w) | _ => Ok w end
  | ASend p x =>
    match get_producer w p with PIdle _ => Ok (put_producer p (PSendFast x SEntry) c [] w) | _ => Ok w end
  | AProducer p weak =>
    let pr := get_producer w p in
    let! (pr', c') := producer_step weak pr c in
    Ok (put_producer p pr' c' (reserved pr pr') w)
  | ATryRecv =>
    match the_consumer w with CIdle _ => Ok (put_consumer (CTry REntry) c [] w) | _ => Ok w end
  | ABatch max =>
    match the_consumer w with
    | CIdle _ => Ok (put_consumer (if max <=? 0 then CIdle (Some QD_ERR_INVAL) else CBatch (BEntry max)) c [] w)
    | _ => Ok w
    end
  | ARecv =>
    match the_consumer w with CIdle _ => Ok (put_consumer (CRecvFast REntry) c [] w) | _ => Ok w end
  | AConsumer spun_out =>
    let k := the_consumer w in
    let! (k', c') := consumer_step spun_out k c in
    Ok (put_consumer k' c' (delivered k) w)
  | AAck =>
    match the_consumer w with CIdle _ => Ok (put_consumer (the_consumer w) (qd_channel_ack c) [] w) | _ => Ok w end
  | AClose => Ok (mkWorld (set_closed 1 c) (producers w) (the_consumer w) (sent w) (got w))
  | ABroadcast =>
    if (closed c =? 0) || lock c then Ok w else
    Ok (mkWorld c (wake_producer <$> producers w) (wake_consumer (the_consumer w)) (sent w) (got w))
  end.

Fixpoint run (l : list action) (w : world) : outcome world :=
  match l with
  | [] => Ok w
  | a :: l => let! w := step a w in run l w
  end.

Definition new_world (c : qd_channel) : world := mkWorld c ∅ (CIdle None) [] [].

(** ** Lemmas on slots *)

Definition cell (c : qd_channel) (i : Z) : nat := Z.to_nat (slot_pos c i).

(** The static part of the invariant: sizes that no call changes. *)
Record shape (c : qd_channel) : Prop := {
  sh_pow : exists k, 0 <= k /\ capacity c = 2 ^ k;
  sh_mask : mask c = capacity c - 1;
  sh_item : 0 < item_size c;
  sh_fits : capacity c * item_size c < u64_mod;
  sh_buffer : Z.of_nat (length (buffer c)) = capacity c * item_size c;
  sh_committed : Z.of_nat (length (committed c)) = capacity c
}.

Lemma shape_capacity c : shape c -> 0 < capacity c.
Proof. intros [(k & ? & ->) _ _ _ _ _]. apply Z.pow_pos_nonneg; lia. Qed.

Lemma slot_pos_mod c i : shape c -> slot_pos c i = i mod capacity c.
Proof.
  intros [(k & Hk & E) Hm _ _ _ _]. unfold slot_pos. rewrite Hm, E. by apply land_mask.
Qed.

Lemma slot_pos_range c i : shape c -> 0 <= slot_pos c i < capacity c.
Proof. intros Hs. rewrite slot_pos_mod by done. apply Z.mod_pos_bound, shape_capacity, Hs. Qed.

Lemma cell_neq c i j : shape c -> i <> j -> Z.abs (i - j) < capacity c -> cell c i <> cell c j.
Proof.
  intros Hs Hne Hd E. unfold cell in E. pose proof (slot_pos_range c i Hs). pose proof (slot_pos_range c j Hs).
  assert (slot_pos c i = slot_pos c j) as E' by lia. rewrite !slot_pos_mod in E' by done.
  pose proof (shape_capacity c Hs) as Hc.
  pose proof (Z.div_mod i (capacity c) ltac:(lia)). pose proof (Z.div_mod j (capacity c) ltac:(lia)).
  assert (i - j = capacity c * (i / capacity c - j / capacity c)) as Ed by lia.
  destruct (Z.lt_trichotomy (i / capacity c - j / capacity c) 0) as [|[|]]; nia.
Qed.

Lemma cell_lt c i : shape c -> (cell c i < length (committed c))%nat.
Proof. intros Hs. pose proof (slot_pos_range c i Hs). pose proof (sh_committed c Hs). unfold cell. lia. Qed.

Lemma slot_offset c i : shape c ->
  slot_pos c i *64 item_size c = slot_pos c i * item_size c /\
  0 <= slot_pos c i * item_size c /\
  slot_pos c i * item_size c + item_size c <= capacity c * item_size c.
Proof.
  intros Hs. pose proof (slot_pos_range c i Hs) as Hr. destruct Hs as [_ _ Hi Hf _ _].
  split; [apply u64_small; unfold_widths; nia | nia].
Qed.

Lemma get_committed_ok c i : shape c ->
  exists v, committed c !! cell c i = Some v /\ get_committed c (slot_pos c i) = Ok v.
Proof.
  intros Hs. destruct (lookup_lt_is_Some_2 (committed c) (cell c i) (cell_lt c i Hs)) as [v Hv].
  exists v. split; [done|]. unfold get_committed. pose proof (slot_pos_range c i Hs).
  destruct (Z.ltb_spec (slot_pos c i) 0); [lia|]. unfold cell in Hv. by rewrite Hv.
Qed.

Lemma put_committed_ok c i v : shape c ->
  put_committed c (slot_pos c i) v = Ok (set_committed (<[cell c i := v]> (committed c)) c).
Proof.
  intros Hs. unfold put_committed. destruct (get_committed_ok c i Hs) as (v0 & _ & ->). done.
Qed.

Lemma read_slot_ok c i : shape c -> exists x, read_slot c i = Ok x.
Proof.
  intros Hs. unfold read_slot. destruct (slot_offset c i Hs) as (-> & Ho1 & Ho2).
  pose proof (sh_item c Hs). pose proof (sh_buffer c Hs). rewrite load_ok by lia. eauto.
Qed.

(** Writing a slot: the slot has the item, the other slots keep theirs. *)
Lemma write_slot_ok c i x : shape c -> Z.of_nat (length x) = item_size c ->
  exists b, write_slot c i x = Ok (set_buffer b c) /\ length b = length (buffer c) /\
    read_slot (set_buffer b c) i = Ok x /\
    forall j, cell c j <> cell c i -> read_slot (set_buffer b c) j = read_slot c j.
Proof.
  intros Hs Hx. unfold write_slot. destruct (slot_offset c i Hs) as (E & Ho1 & Ho2). rewrite E.
  pose proof (sh_item c Hs) as Hi. pose proof (sh_buffer c Hs) as Hb.
  mem_do (store (buffer c) (slot_pos c i * item_size c) x) b Es. cbn [obind].
  exists b. split; [done|]. pose proof (store_length _ _ _ _ Es) as Hlen. split; [done|].
  unfold read_slot, slot_pos in *. cbn [mask item_size buffer set_buffer] in *. split.
  - rewrite E. pose proof (load_store _ _ _ _ Es) as Hld. by rewrite Hx in Hld.
  - intros j Hj. destruct (slot_offset c j Hs) as (Ej & Hj1 & Hj2). unfold slot_pos in *. rewrite Ej.
    rewrite !load_ok by lia. f_equal. apply list_eq. intros n.
    destruct (Nat.lt_ge_cases n (Z.to_nat (item_size c))) as [Hn|Hn];
      [|by rewrite !lookup_take_ge by lia].
    rewrite !lookup_take_lt, !lookup_drop by lia. rewrite (store_lookup _ _ _ _ _ Es).
    unfold cell, slot_pos in Hj. pose proof (slot_pos_range c i Hs). pose proof (slot_pos_range c j Hs).
    unfold slot_pos in *. set (a := Z.land i (mask c)) in *. set (d := Z.land j (mask c)) in *.
    assert (a <> d) by lia.
    destruct (Z.leb_spec (a * item_size c) (Z.of_nat (Z.to_nat (d * item_size c) + n)));
      destruct (Z.ltb_spec (Z.of_nat (Z.to_nat (d * item_size c) + n)) (a * item_size c + Z.of_nat (length x)));
      simpl; try done. exfalso. nia.
Qed.

(** ** The invariant of the ring

    [lo] is the first position the consumer has not cleared; [cl p] is the
    position producer [p] has reserved and not yet committed, whether it has
    copied its item there, and the item. *)

Abbreviation claims := (nat -> option (Z * bool * item)).

Definition put_claim (p : nat) (v : option (Z * bool * item)) (cl : claims) : claims :=
  fun q => if decide (q = p) then v else cl q.

Record ring (c : qd_channel) (lo : Z) (log : list item) (cl : claims) : Prop := {
  rg_shape : shape c;
  rg_order : 0 <= head c <= lo /\ lo <= tail c <= head c + capacity c /\ tail c = Z.of_nat (length log);
  rg_items : Forall (fun x => Z.of_nat (length x) = item_size c) log;
  rg_claim : forall p i b x, cl p = Some (i, b, x) ->
    lo <= i < tail c /\ log !! Z.to_nat i = Some x /\ (b = true -> read_slot c i = Ok x) /\
    committed c !! cell c i = Some 0;
  rg_uniq : forall p q i b b' x y, cl p = Some (i, b, x) -> cl q = Some (i, b', y) -> p = q;
  rg_cell : forall i, lo <= i < tail c ->
    (exists p b x, cl p = Some (i, b, x)) \/
    (committed c !! cell c i = Some 1 /\ exists x, log !! Z.to_nat i = Some x /\ read_slot c i = Ok x);
  rg_free : forall i, tail c <= i < lo + capacity c -> committed c !! cell c i = Some 0
}.

(** [same_ring c c']: the fields the invariant speaks of are the same. *)
Definition same_ring (c c' : qd_channel) : Prop :=
  c' = mkChan (buffer c) (capacity c) (item_size c) (mask c) (head c) (tail c) (committed c)
         (eventfd c') (lock c') (flags c) (closed c').

Lemma ring_ext c c' lo log cl cl' :
  same_ring c c' -> (forall p, cl' p = cl p) -> ring c lo log cl -> ring c' lo log cl'.
Proof.
  intros -> Hcl [Hs Ho Hi Hc Hu Hce Hf]. destruct Hs.
  split; [by split | done | done | | | |done].
  - intros p i b x Hp. rewrite Hcl in Hp. by apply Hc in Hp.
  - intros p q i b b' x y Hp Hq. rewrite Hcl in Hp, Hq. by eapply Hu.
  - intros i Hr. destruct (Hce i Hr) as [(p & b & x & Hp)|]; [|by right].
    left. exists p, b, x. by rewrite Hcl.
Qed.

Lemma put_claim_eq p v cl : put_claim p v cl p = v.
Proof. unfold put_claim. by rewrite decide_True. Qed.
Lemma put_claim_ne p q v cl : q <> p -> put_claim p v cl q = cl q.
Proof. intros. unfold put_claim. by rewrite decide_False. Qed.

Ltac claim_cases q p :=
  destruct (decide (q = p)) as [->|]; [rewrite ?put_claim_eq in * | rewrite ?put_claim_ne in * by done].

Section ring_steps.
Context (c : qd_channel) (lo : Z) (log : list item) (cl : claims).
Hypothesis HR : ring c lo log cl.

(** A successful compare-and-exchange reserves the next slot. *)
Lemma ring_reserve p x :
  cl p = None -> tail c - head c < capacity c -> Z.of_nat (length x) = item_size c ->
  ring (set_tail (tail c + 1) c) lo (log ++ [x]) (put_claim p (Some (tail c, false, x)) cl).
Proof.
  destruct HR as [Hs Ho Hi Hc Hu Hce Hf]. intros Hp Hroom Hx.
  assert (committed c !! cell c (tail c) = Some 0) as Hz by (apply Hf; lia).
  split; cbn [set_tail head tail capacity item_size committed].
  - destruct Hs. by split.
  - rewrite length_app. simpl. lia.
  - apply Forall_app. split; [done|]. by apply Forall_singleton.
  - intros q i b y Hq. claim_cases q p.
    + injection Hq as <- <- <-. split; [lia|]. split; [|by split].
      rewrite lookup_app_r by lia. replace (Z.to_nat (tail c) - length log)%nat with 0%nat by lia. done.
    + destruct (Hc _ _ _ _ Hq) as (? & ? & ? & ?). split; [lia|].
      rewrite lookup_app_l by lia. done.
  - intros q r i b b' y z Hq Hr. claim_cases q p; claim_cases r p; [done| | |by eapply Hu].
    + injection Hq as <- _ _. apply Hc in Hr. lia.
    + injection Hr as <- _ _. apply Hc in Hq. lia.
  - intros i Hr. destruct (Z.eq_dec i (tail c)) as [->|Hne].
    + left. exists p, false, x. by rewrite put_claim_eq.
    + destruct (Hce i ltac:(lia)) as [(q & b & y & Hq)|(Hk & y & Hy & Hrd)].
      * left. exists q, b, y. rewrite put_claim_ne; [done|]. intros ->. congruence.
      * right. split; [done|]. exists y. rewrite lookup_app_l by lia. done.
  - intros i Hr. apply Hf. lia.
Qed.

(** Copying the item to the reserved slot. *)
Lemma ring_copy p i x :
  cl p = Some (i, false, x) ->
  exists b, write_slot c i x = Ok (set_buffer b c) /\
    ring (set_buffer b c) lo log (put_claim p (Some (i, true, x)) cl).
Proof.
  destruct HR as [Hs Ho Hi Hc Hu Hce Hf]. intros Hp. destruct (Hc _ _ _ _ Hp) as (Hr & Hl & _ & Hz).
  assert (Z.of_nat (length x) = item_size c) as Hx by (by eapply Forall_lookup_1 in Hi).
  destruct (write_slot_ok c i x Hs Hx) as (b & E & Hlen & Hrd & Hoth). exists b. split; [done|].
  assert (forall j, lo <= j < tail c -> j <> i -> read_slot (set_buffer b c) j = read_slot c j) as Ho'.
  { intros j Hj Hne. apply Hoth, cell_neq; [done|done|]. pose proof (shape_capacity c Hs). lia. }
  split; cbn [set_buffer head tail capacity item_size committed]; try done.
  - destruct Hs. split; try done. simpl. by rewrite Hlen.
  - intros q j b' y Hq. claim_cases q p.
    + injection Hq as <- <- <-. done.
    + destruct (Hc _ _ _ _ Hq) as (? & ? & Hrd' & ?). repeat split; try done; try lia.
      intros Hb. rewrite Ho'; [by apply Hrd' | lia |]. intros ->. by apply (n (Hu _ _ _ _ _ _ _ Hq Hp)).
  - intros q r j b1 b2 y z Hq Hr'. claim_cases q p; claim_cases r p; [done| | |by eapply Hu].
    + injection Hq as <- _ _. by eapply Hu.
    + injection Hr' as <- _ _. by eapply Hu.
  - intros j Hj. destruct (Hce j Hj) as [(q & b' & y & Hq)|(Hk & y & Hy & Hrd')].
    + left. destruct (decide (q = p)) as [->|Hne].
      * exists p, true, x. rewrite put_claim_eq. congruence.
      * exists q, b', y. by rewrite put_claim_ne.
    + right. split; [done|]. exists y. split; [done|]. rewrite Ho'; [done|done|].
      intros ->. replace (cell (set_buffer b c) i) with (cell c i) in Hk by done. congruence.
Qed.

(** Setting the flag of a slot whose item is in place. *)
Lemma ring_commit p i x :
  cl p = Some (i, true, x) ->
  let c' := set_committed (<[cell c i := 1]> (committed c)) c in
  put_committed c (slot_pos c i) 1 = Ok c' /\ ring c' lo log (put_claim p None cl).
Proof.
  destruct HR as [Hs Ho Hi Hc Hu Hce Hf]. intros Hp c'. split; [by apply put_committed_ok|].
  destruct (Hc _ _ _ _ Hp) as (Hr & Hl & Hrd & Hz). pose proof (cell_lt c i Hs) as Hlt.
  assert (forall j, lo <= j < lo + capacity c -> j <> i -> committed c' !! cell c' j = committed c !! cell c j) as Ho'.
  { intros j Hj Hne. change (cell c' j) with (cell c j). unfold c'. cbn [set_committed committed].
    rewrite list_lookup_insert_ne; [done|].
    apply not_eq_sym, cell_neq; [done|done|]. lia. }
  split; cbn [c' set_committed head tail capacity item_size]; try done.
  - destruct Hs. split; try done. simpl. by rewrite length_insert.
  - intros q j b y Hq. claim_cases q p; [done|]. destruct (Hc _ _ _ _ Hq) as (? & ? & Hrd' & ?).
    repeat split; try done; try lia. rewrite Ho'; [done|lia|].
    intros ->. by apply (n (Hu _ _ _ _ _ _ _ Hq Hp)).
  - intros q r j b b' y z Hq Hr'. claim_cases q p; [done|]. claim_cases r p; [done|]. by eapply Hu.
  - intros j Hj. destruct (Z.eq_dec j i) as [->|Hne].
    + right. split; [unfold c'; cbn [set_committed committed]; by rewrite list_lookup_insert_eq|].
      exists x. split; [done|]. by apply Hrd.
    + destruct (Hce j Hj) as [(q & b & y & Hq)|(Hk & Hy)].
      * left. exists q, b, y. rewrite put_claim_ne; [done|]. intros ->. congruence.
      * right. rewrite Ho' by lia. done.
  - intros j Hj. fold c'. rewrite Ho' by lia. apply Hf. lia.
Qed.

(** A set flag at the consumer's position: the slot has its item. *)
Lemma ring_seen :
  lo < tail c -> committed c !! cell c lo <> Some 0 ->
  committed c !! cell c lo = Some 1 /\
  exists x, log !! Z.to_nat lo = Some x /\ read_slot c lo = Ok x.
Proof.
  destruct HR as [Hs Ho Hi Hc Hu Hce Hf]. intros Hlt Hk.
  destruct (Hce lo ltac:(lia)) as [(q & b & y & Hq)|H]; [|done].
  apply Hc in Hq as (_ & _ & _ & Hz). done.
Qed.

(** Clearing the flag after the read. *)
Lemma ring_clear :
  lo < tail c -> committed c !! cell c lo = Some 1 ->
  let c' := set_committed (<[cell c lo := 0]> (committed c)) c in
  put_committed c (slot_pos c lo) 0 = Ok c' /\ ring c' (lo + 1) log cl.
Proof.
  destruct HR as [Hs Ho Hi Hc Hu Hce Hf]. intros Hlt Hk c'. split; [by apply put_committed_ok|].
  pose proof (cell_lt c lo Hs) as Hcl.
  assert (forall j, lo <= j < lo + capacity c -> j <> lo -> committed c' !! cell c' j = committed c !! cell c j) as Ho'.
  { intros j Hj Hne. change (cell c' j) with (cell c j). unfold c'. cbn [set_committed committed].
    rewrite list_lookup_insert_ne; [done|].
    apply not_eq_sym, cell_neq; [done|done|]. lia. }
  split; cbn [c' set_committed head tail capacity item_size]; try done.
  - destruct Hs. split; try done. simpl. by rewrite length_insert.
  - lia.
  - intros q j b y Hq. destruct (Hc _ _ _ _ Hq) as (? & ? & Hrd' & Hz).
    assert (j <> lo) by (intros ->; congruence). repeat split; try done; try lia.
    rewrite Ho'; [done|lia|done].
  - intros j Hj. destruct (Hce j ltac:(lia)) as [?|(Hk' & Hy)]; [by left|]. right.
    rewrite Ho' by lia. done.
  - intros j Hj. fold c'. destruct (Z.eq_dec j (lo + capacity c)) as [->|Hne].
    + assert (cell c' (lo + capacity c) = cell c lo) as ->.
      { unfold cell. change (slot_pos c') with (slot_pos c). rewrite !slot_pos_mod by done.
        f_equal. rewrite <- (Z.mul_1_l (capacity c)) at 1. by rewrite Z_mod_plus_full. }
      unfold c'. cbn [set_committed committed]. by rewrite list_lookup_insert_eq.
    + rewrite Ho' by lia. apply Hf. lia.
Qed.

(** Publishing the new head. *)
Lemma ring_advance : ring (set_head lo c) lo log cl.
Proof.
  destruct HR as [Hs Ho Hi Hc Hu Hce Hf]. split; cbn [set_head head tail capacity]; try done.
  - destruct Hs. by split.
  - pose proof (shape_capacity c Hs). lia.
Qed.
End ring_steps.

(** ** The invariant of the threads *)

Definition claim_pc (x : item) (pc : send_pc) : option (Z * bool * item) :=
  match pc with
  | SCopy t _ => Some (t, false, x)
  | SCommit t _ => Some (t, true, x)
  | _ => None
  end.

(** What a producer knows at each step.  The steps of the overflow path are not
    reached on a channel without that flag. *)
Definition send_ok (c : qd_channel) (x : item) (pc : send_pc) : Prop :=
  Z.of_nat (length x) = item_size c /\
  match pc with
  | SLoadHead t => 0 <= t <= tail c
  | SCas t h => 0 <= h <= head c /\ h <= t <= tail c /\ t - h < capacity c
  | SLock | SLkTail | SLkHead _ | SDrop _ _ | SAdvance _ _ | SLkCopy _ _ | SLkCommit _ _
  | SLkStore _ _ | SUnlock _ _ | SLkSignal => False
  | _ => True
  end.

Definition reserved_pc (x : item) (pc pc' : send_pc) : list item :=
  match pc, pc' with SCas _ _, SCopy _ _ => [x] | _, _ => [] end.

(** The effect of a step on what the other threads rely on. *)
Record evolves (c c' : qd_channel) : Prop := {
  ev_head : head c <= head c';
  ev_tail : tail c <= tail c';
  ev_const : capacity c' = capacity c /\ item_size c' = item_size c /\ mask c' = mask c /\ flags c' = flags c
}.

(** Flags that are set stay set: true of every producer step. *)
Definition keeps_ready (c c' : qd_channel) : Prop :=
  forall n, committed c !! n = Some 1 -> committed c' !! n = Some 1.

Lemma evolves_refl c : evolves c c.
Proof. by split. Qed.

Ltac stay := repeat split; try (by intros ?); try done; simpl; try done; try lia.

Lemma send_step_inv weak x pc c lo log cl p :
  ring c lo log cl -> cl p = claim_pc x pc -> send_ok c x pc ->
  Z.land (flags c) QD_CHAN_OVERFLOW = 0 -> tail c + capacity c + 1 < u64_mod ->
  exists pc' c', send_step weak x pc c = Ok (pc', c') /\
    ring c' lo (log ++ reserved_pc x pc pc') (put_claim p (claim_pc x pc') cl) /\
    send_ok c' x pc' /\ evolves c c' /\ head c' = head c /\ keeps_ready c c'.
Proof.
  intros HR Hp [Hx Hpc] Hfl Hov. pose proof (rg_order _ _ _ _ HR) as (Hh & Ht & Hlen).
  pose proof (shape_capacity c (rg_shape _ _ _ _ HR)) as Hcap.
  assert (forall c' pc', same_ring c c' -> claim_pc x pc' = claim_pc x pc -> reserved_pc x pc pc' = [] ->
    ring c' lo (log ++ reserved_pc x pc pc') (put_claim p (claim_pc x pc') cl)) as Hsame.
  { intros c' pc' Hsm Hcl' ->. rewrite app_nil_r. eapply ring_ext; [done| |done].
    intros q. destruct (decide (q = p)) as [->|]; [by rewrite put_claim_eq, Hcl'|by rewrite put_claim_ne]. }
  assert (same_ring c c) as Hcc by (by destruct c).
  destruct pc; cbn [send_step claim_pc] in *; try done.
  - eexists _, c. split; [done|]. split; [by apply Hsame; destruct (closed c =? 0)|].
    split; [by destruct (closed c =? 0)|]. by stay.
  - eexists _, c. split; [done|]. split; [by apply Hsame|]. by stay.
  - rewrite Hfl. cbn [Z.eqb negb]. destruct (Z.leb_spec (capacity c) (t -64 head c)) as [Hfull|Hroom].
    + eexists _, c. split; [done|]. split; [by apply Hsame|]. by stay.
    + eexists _, c. split; [done|]. split; [by apply Hsame|]. split; [|by stay]. split; [done|].
      assert (head c <= t) as Hht.
      { destruct (Z.le_gt_cases (head c) t); [done|]. exfalso. revert Hroom. unfold_widths.
        rewrite <- (Z_mod_plus_full _ 1), Z.mod_small by lia. lia. }
      rewrite u64_small in Hroom by (unfold_widths; lia). lia.
  - destruct (negb weak && (tail c =? t)) eqn:E; [|eexists _, c; split; [done|]; split; [by apply Hsame|]; by stay].
    apply andb_true_iff in E as [_ <-%Z.eqb_eq]. eexists _, _. split; [done|].
    rewrite u64_small by (unfold_widths; lia). split; [|by stay]. apply ring_reserve; [done|done|lia|done].
  - destruct (ring_copy _ _ _ _ HR _ _ _ Hp) as (b & -> & HR'). cbn [obind].
    eexists _, _. split; [done|]. split; [by rewrite app_nil_r|]. by stay.
  - destruct (ring_commit _ _ _ _ HR _ _ _ Hp) as [-> HR']. cbn [obind].
    eexists _, _. split; [done|]. split; [by rewrite app_nil_r|]. split; [by stay|]. split; [by stay|].
    split; [done|]. intros n Hn. cbn [set_committed committed]. destruct (decide (n = cell c t)) as [->|Hne].
    + rewrite list_lookup_insert_eq; [done|]. by apply lookup_lt_Some in Hn.
    + by rewrite list_lookup_insert_ne.
  - eexists _, _. split; [done|]. split; [apply Hsame; [by destruct (t =? h), c|done|done]|].
    split; [by destruct (t =? h)|]. destruct (t =? h); by stay.
  - eexists _, c. split; [done|]. split; [by apply Hsame|]. by stay.
Qed.

(** What the consumer knows at each step of a receive. *)
Definition ready (c : qd_channel) (i : Z) : Prop := committed c !! cell c i = Some 1.

Definition recv_ok (c : qd_channel) (lo : Z) (log : list item) (pc : recv_pc) : Prop :=
  match pc with
  | RLoadTail h => lo = head c /\ h = head c
  | RSpin h => lo = head c /\ h = head c /\ h < tail c
  | RRead h => lo = head c /\ h = head c /\ h < tail c /\ ready c h
  | RClear h x => lo = head c /\ h = head c /\ h < tail c /\ ready c h /\ log !! Z.to_nat h = Some x
  | RAdvance h x => lo = head c + 1 /\ h = head c /\ log !! Z.to_nat h = Some x
  | _ => lo = head c
  end.

Definition delivered_pc (pc : recv_pc) : list item :=
  match pc with RAdvance _ x => [x] | _ => [] end.

Lemma recv_step_inv pc c lo log cl :
  ring c lo log cl -> recv_ok c lo log pc -> tail c + capacity c + 1 < u64_mod ->
  exists pc' c' lo', recv_step pc c = Ok (pc', c') /\ ring c' lo' log cl /\ recv_ok c' lo' log pc' /\
    evolves c c' /\ tail c' = tail c /\
    take (Z.to_nat (head c')) log = take (Z.to_nat (head c)) log ++ delivered_pc pc.
Proof.
  intros HR Hpc Hov. pose proof (rg_order _ _ _ _ HR) as (Hh & Ht & Hlen).
  pose proof (rg_shape _ _ _ _ HR) as Hs. pose proof (shape_capacity c Hs) as Hcap.
  destruct pc; cbn [recv_step recv_ok delivered_pc] in *; rewrite ?app_nil_r.
  - eexists _, c, lo. split; [done|]. split; [done|]. split; [by destruct (closed c =? 0)|]. by stay.
  - eexists _, c, lo. split; [done|]. split; [done|]. by stay.
  - destruct Hpc as [-> ->]. eexists _, c, (head c). split; [done|]. split; [done|].
    split; [destruct (Z.leb_spec (tail c) (head c)); by stay|]. by stay.
  - destruct Hpc as (-> & -> & Hlt). destruct (get_committed_ok c (head c) Hs) as (v & Hv & ->). cbn [obind].
    eexists _, c, (head c). split; [done|]. split; [done|]. split; [|by stay].
    destruct (Z.eqb_spec v 0) as [->|Hne]; [by stay|].
    destruct (ring_seen _ _ _ _ HR Hlt) as [Hk _]; [rewrite Hv; congruence|]. by stay.
  - destruct Hpc as (-> & -> & Hlt & Hk).
    destruct (ring_seen _ _ _ _ HR Hlt) as (_ & x & Hx & ->); [unfold ready in Hk; congruence|]. cbn [obind].
    eexists _, c, (head c). split; [done|]. split; [done|]. by stay.
  - destruct Hpc as (-> & -> & Hlt & Hk & Hx). destruct (ring_clear _ _ _ _ HR Hlt Hk) as [-> HR']. cbn [obind].
    eexists _, _, (head c + 1). split; [done|]. split; [done|]. by stay.
  - destruct Hpc as (-> & -> & Hx). rewrite u64_small by (unfold_widths; lia).
    eexists _, _, (head c + 1). split; [done|]. split; [by apply ring_advance|]. split; [done|].
    split; [stay; simpl; lia|]. split; [done|]. cbn [set_head head].
    replace (Z.to_nat (head c + 1)) with (S (Z.to_nat (head c))) by lia. by apply take_S_r.
  - eexists _, c, lo. split; [done|]. split; [done|]. by stay.
Qed.

(** The same for the batch receive. *)
Definition batch_front (c : qd_channel) (lo : Z) (log : list item) (h : Z) (acc : list item) : Prop :=
  h = head c /\ lo = head c + processed acc /\ acc = take (length acc) (drop (Z.to_nat h) log).

Definition batch_ok (c : qd_channel) (lo : Z) (log : list item) (pc : batch_pc) : Prop :=
  match pc with
  | BEntry _ | BLoadHead _ | BReturn _ _ => lo = head c
  | BLoadTail _ h => lo = head c /\ h = head c
  | BSpin h n acc | BCheck h n acc => batch_front c lo log h acc /\ processed acc < n /\ h + n <= tail c
  | BRead h n acc => batch_front c lo log h acc /\ processed acc < n /\ h + n <= tail c /\ ready c lo
  | BClear h n acc x => batch_front c lo log h acc /\ processed acc < n /\ h + n <= tail c /\ ready c lo /\
      log !! Z.to_nat lo = Some x
  | BStore h acc => batch_front c lo log h acc
  end.

Definition delivered_batch (pc : batch_pc) : list item :=
  match pc with BStore _ acc => acc | _ => [] end.

Lemma batch_next_ok c lo log h n acc :
  batch_front c lo log h acc -> (processed acc < n \/ processed acc = n) -> h + n <= tail c ->
  batch_ok c lo log (batch_next h n acc).
Proof.
  intros Hf Hn Ht. unfold batch_next. destruct (Z.ltb_spec (processed acc) n); [done|].
  destruct (Z.ltb_spec 0 (processed acc)) as [|H0]; [done|]. simpl. destruct Hf as (_ & -> & _).
  unfold processed in *. lia.
Qed.

Lemma batch_step_inv spun_out pc c lo log cl :
  ring c lo log cl -> batch_ok c lo log pc -> tail c + capacity c + 1 < u64_mod ->
  (forall max h, pc = BLoadTail max h -> 0 < max) ->
  exists pc' c' lo', batch_step spun_out pc c = Ok (pc', c') /\ ring c' lo' log cl /\ batch_ok c' lo' log pc' /\
    evolves c c' /\ tail c' = tail c /\
    take (Z.to_nat (head c')) log = take (Z.to_nat (head c)) log ++ delivered_batch pc.
Proof.
  intros HR Hpc Hov Hmax. pose proof (rg_order _ _ _ _ HR) as (Hh & Ht & Hlen).
  pose proof (rg_shape _ _ _ _ HR) as Hs. pose proof (shape_capacity c Hs) as Hcap.
  assert (forall h acc, batch_front c lo log h acc -> (h +64 processed acc) = lo) as Hpos.
  { intros h acc (-> & -> & _). apply u64_small. unfold_widths. unfold processed in *. lia. }
  destruct pc; cbn [batch_step batch_ok delivered_batch] in *; rewrite ?app_nil_r.
  - eexists _, c, lo. split; [done|]. split; [done|]. split; [by destruct (closed c =? 0)|]. by stay.
  - eexists _, c, lo. split; [done|]. split; [done|]. by stay.
  - destruct Hpc as [-> ->]. specialize (Hmax _ _ eq_refl). destruct (Z.leb_spec (tail c) (head c)) as [|Hlt].
    + eexists _, c, (head c). split; [done|]. split; [done|]. by stay.
    + rewrite u64_small by (unfold_widths; lia). eexists _, c, (head c). split; [done|]. split; [done|].
      split; [|by stay]. apply batch_next_ok; [split; [done|]; split; [unfold processed; simpl; lia|done]| |];
        destruct (Z.ltb_spec (tail c - head c) max); unfold processed; simpl; lia.
  - destruct Hpc as (Hf & Hn & Hht). rewrite (Hpos _ _ Hf). destruct (get_committed_ok c lo Hs) as (v & Hv & ->).
    cbn [obind]. eexists _, c, lo. split; [done|]. split; [done|]. split; [|by stay].
    by destruct ((v =? 0) && negb spun_out).
  - destruct Hpc as (Hf & Hn & Hht). rewrite (Hpos _ _ Hf). destruct (get_committed_ok c lo Hs) as (v & Hv & ->).
    cbn [obind]. eexists _, c, lo. split; [done|]. split; [done|]. split; [|by stay].
    assert (lo < tail c) as Hlt by (destruct Hf as (? & ? & _); lia).
    destruct (Z.eqb_spec v 0) as [->|Hne].
    + destruct (Z.ltb_spec 0 (processed acc)) as [|H0]; [done|]. simpl. destruct Hf as (_ & -> & _).
      unfold processed in *. lia.
    + destruct (ring_seen _ _ _ _ HR Hlt) as [Hk _]; [rewrite Hv; congruence|]. by split.
  - destruct Hpc as (Hf & Hn & Hht & Hk). rewrite (Hpos _ _ Hf).
    assert (lo < tail c) as Hlt by (destruct Hf as (? & ? & _); lia).
    destruct (ring_seen _ _ _ _ HR Hlt) as (_ & x & Hx & ->); [unfold ready in Hk; congruence|]. cbn [obind].
    eexists _, c, lo. split; [done|]. split; [done|]. split; [by repeat (split; [done|])|by stay].
  - destruct Hpc as (Hf & Hn & Hht & Hk & Hx). rewrite (Hpos _ _ Hf).
    assert (lo < tail c) as Hlt by (destruct Hf as (? & ? & _); lia).
    destruct (ring_clear _ _ _ _ HR Hlt Hk) as [-> HR']. cbn [obind].
    eexists _, _, (lo + 1). split; [done|]. split; [done|]. split; [|by stay].
    destruct Hf as (-> & -> & Hacc). apply batch_next_ok; [|unfold processed in *; rewrite length_app; simpl; lia|done].
    split; [done|]. unfold processed in *. cbn [set_committed head]. rewrite length_app. simpl. split; [lia|].
    rewrite Nat.add_1_r. rewrite (take_S_r _ _ x); [by rewrite <- Hacc|]. rewrite lookup_drop.
    rewrite <- Hx. f_equal. lia.
  - pose proof (Hpos _ _ Hpc) as ->. eexists _, _, lo. split; [done|]. split; [by apply ring_advance|].
    split; [done|]. destruct Hpc as (-> & -> & Hacc). unfold processed in *. split; [stay; simpl; lia|]. split; [done|].
    cbn [set_head head]. rewrite Hacc at 2.
    replace (Z.to_nat (head c + Z.of_nat (length acc))) with (Z.to_nat (head c) + length acc)%nat by lia.
    symmetry. apply take_take_drop.
  - eexists _, c, lo. split; [done|]. split; [done|]. by stay.
Qed.

(** ** All threads together *)

Definition claim_of (pr : producer) : option (Z * bool * item) :=
  match send_view pr with Some (x, pc) => claim_pc x pc | None => None end.

Definition claims_of (m : gmap nat producer) : claims := fun p => m !! p ≫= claim_of.

Definition producer_ok (c : qd_channel) (pr : producer) : Prop :=
  match send_view pr with
  | Some (x, pc) => send_ok c x pc
  | None =>
    match pr with
    | PSendLock x | PSendTest x | PSendWait x => Z.of_nat (length x) = item_size c
    | _ => True
    end
  end.

(** Inside a send call the producer takes the steps of the send machine. *)
Lemma producer_step_view weak pr x pc c :
  send_view pr = Some (x, pc) -> (forall r, pc <> SReturn r) ->
  exists K : item -> send_pc -> producer, (forall y q, send_view (K y q) = Some (y, q)) /\ pr = K x pc /\
    producer_step weak pr c = (let! (pc', c') := send_step weak x pc c in Ok (K x pc', c')).
Proof.
  intros Hv Hr. destruct pr as [|y q|y q| | |y q|]; try done; injection Hv as -> ->;
    [exists PTry | exists PSendFast | exists PSendRetry];
    (split; [done|]); (split; [done|]); destruct pc; try done; by destruct (Hr r).
Qed.

Lemma producer_step_inv weak pr c lo log cl p :
  ring c lo log cl -> cl p = claim_of pr -> producer_ok c pr ->
  Z.land (flags c) QD_CHAN_OVERFLOW = 0 -> tail c + capacity c + 1 < u64_mod ->
  exists pr' c', producer_step weak pr c = Ok (pr', c') /\
    ring c' lo (log ++ reserved pr pr') (put_claim p (claim_of pr') cl) /\
    producer_ok c' pr' /\ evolves c c' /\ head c' = head c /\ keeps_ready c c'.
Proof.
  intros HR Hp Hpr Hfl Hov.
  assert (forall pr' c', same_ring c c' -> claim_of pr' = claim_of pr -> reserved pr pr' = [] ->
    ring c' lo (log ++ reserved pr pr') (put_claim p (claim_of pr') cl) /\
    evolves c c' /\ head c' = head c /\ keeps_ready c c') as Hsame.
  { intros pr' c' Hsm Hcl' ->. rewrite app_nil_r. split.
    - eapply ring_ext; [done| |done]. intros q.
      destruct (decide (q = p)) as [->|]; [by rewrite put_claim_eq, Hcl'|by rewrite put_claim_ne].
    - rewrite Hsm. by stay. }
  assert (forall l, same_ring c (set_lock l c)) as Hlk by done.
  assert (same_ring c c) as Hcc by (by destruct c).
  destruct (send_view pr) as [[x pc]|] eqn:Hv.
  - assert ((exists r, pc = SReturn r) \/ forall r, pc <> SReturn r) as [[r ->]|Hr]
      by (destruct pc; eauto; by right).
    + unfold producer_ok in Hpr. rewrite Hv in Hpr. destruct Hpr as [Hx _].
      destruct pr as [|y q|y q| | |y q|]; try done; injection Hv as -> ->; cbn [producer_step];
        repeat (match goal with |- context [if ?b then _ else _] => destruct b end);
        eexists _, _; (split; [reflexivity|]);
        (match goal with |- ring ?c' _ (_ ++ reserved ?a ?b) _ /\ _ => destruct (Hsame b c') as (? & ?) end;
         [done | done | done | split; [done|]; by split]).
    + destruct (producer_step_view weak pr x pc c Hv Hr) as (K & HK & -> & ->).
      unfold claim_of, producer_ok in *. rewrite Hv in *.
      destruct (send_step_inv weak x pc c lo log cl p) as (pc' & c' & -> & HR' & Hok & Hev); try done.
      eexists _, _. split; [done|]. unfold reserved. rewrite !HK. done.
  - unfold producer_ok in Hpr. rewrite Hv in Hpr.
    destruct pr as [|y q|y q| | |y q|]; try done; cbn [producer_step];
      repeat (match goal with |- context [if ?b then _ else _] => destruct b end);
      eexists _, _; (split; [reflexivity|]);
      (match goal with |- ring ?c' _ (_ ++ reserved ?a ?b) _ /\ _ => destruct (Hsame b c') as (? & ?) end;
       [done | done | done | split; [done|]; by split]).
Qed.

Definition consumer_ok (c : qd_channel) (lo : Z) (log : list item) (k : consumer) : Prop :=
  match recv_view k, k with
  | Some pc, _ => recv_ok c lo log pc
  | None, CBatch pc => batch_ok c lo log pc /\ match pc with BEntry m | BLoadHead m | BLoadTail m _ => 0 < m | _ => True end
  | None, _ => lo = head c
  end.

Lemma consumer_step_view spun_out k pc c :
  recv_view k = Some pc -> (forall r x, pc <> RReturn r x) ->
  exists K : recv_pc -> consumer, (forall q, recv_view (K q) = Some q) /\ k = K pc /\
    consumer_step spun_out k c = (let! (pc', c') := recv_step pc c in Ok (K pc', c')).
Proof.
  intros Hv Hr. destruct k as [|q| |q| | |q|]; try done; injection Hv as ->;
    [exists CTry | exists CRecvFast | exists CRecvRetry];
    (split; [done|]); (split; [done|]); destruct pc; try done; by destruct (Hr r x).
Qed.

Lemma batch_step_max spun_out pc c pc' c' :
  batch_step spun_out pc c = Ok (pc', c') ->
  match pc with BEntry m | BLoadHead m | BLoadTail m _ => 0 < m | _ => True end ->
  match pc' with BEntry m | BLoadHead m | BLoadTail m _ => 0 < m | _ => True end.
Proof.
  destruct pc; cbn [batch_step]; unfold batch_next;
    repeat match goal with
    | |- (let! _ := ?m in _) = _ -> _ => destruct m; cbn [obind]
    | |- context [if ?b then _ else _] => destruct b
    end; by intros [= <- <-].
Qed.

Lemma consumer_step_inv spun_out k c lo log cl :
  ring c lo log cl -> consumer_ok c lo log k -> tail c + capacity c + 1 < u64_mod ->
  exists k' c' lo', consumer_step spun_out k c = Ok (k', c') /\ ring c' lo' log cl /\ consumer_ok c' lo' log k' /\
    evolves c c' /\ take (Z.to_nat (head c')) log = take (Z.to_nat (head c)) log ++ delivered k.
Proof.
  intros HR Hk Hov.
  assert (forall k' c', same_ring c c' -> lo = head c -> consumer_ok c' (head c') log k' -> delivered k = [] ->
    exists lo', ring c' lo' log cl /\ consumer_ok c' lo' log k' /\ evolves c c' /\
      take (Z.to_nat (head c')) log = take (Z.to_nat (head c)) log ++ delivered k) as Hsame.
  { intros k' c' Hsm Hlo Hk' ->. exists lo. rewrite app_nil_r. split; [by eapply ring_ext|].
    rewrite Hsm in *. simpl in *. rewrite Hlo. split; [done|]. by stay. }
  assert (forall l, same_ring c (set_lock l c)) as Hlk by done.
  assert (same_ring c c) as Hcc by (by destruct c).
  destruct (recv_view k) as [pc|] eqn:Hv.
  - assert ((exists r x, pc = RReturn r x) \/ forall r x, pc <> RReturn r x) as [(r & x & ->)|Hr]
      by (destruct pc; eauto; by right).
    + unfold consumer_ok in Hk. rewrite Hv in Hk. simpl in Hk.
      destruct k as [|q| |q| | |q|]; try done; injection Hv as ->; cbn [consumer_step];
        repeat (match goal with |- context [if ?b then _ else _] => destruct b end);
        (match goal with |- exists _ _ _, Ok (?k', ?c') = _ /\ _ => destruct (Hsame k' c') as (lo' & ?) end;
         [done | done | done | done | eexists _, _, lo'; split; [reflexivity|done]]).
    + destruct (consumer_step_view spun_out k pc c Hv Hr) as (K & HK & -> & ->).
      unfold consumer_ok in Hk. rewrite Hv in Hk.
      destruct (recv_step_inv pc c lo log cl HR Hk Hov) as (pc' & c' & lo' & -> & HR' & Hok & Hev & _ & Hg).
      exists (K pc'), c', lo'. unfold consumer_ok, delivered. rewrite !HK. split; [done|]. split; [done|].
      split; [done|]. split; [done|]. rewrite Hg. by destruct pc.
  - unfold consumer_ok in Hk. rewrite Hv in Hk.
    destruct k as [|q|pc|q| | |q|]; try done; cbn [consumer_step].
    1, 3, 4, 5: repeat (match goal with |- context [if ?b then _ else _] => destruct b end);
        (match goal with |- exists _ _ _, Ok (?k', ?c') = _ /\ _ => destruct (Hsame k' c') as (lo' & ?) end;
         [done | done | done | done | eexists _, _, lo'; split; [reflexivity|done]]).
    destruct Hk as [Hk Hm].
    destruct (batch_step_inv spun_out pc c lo log cl HR Hk Hov) as (pc' & c' & lo' & E & HR' & Hok & Hev & _ & Hg).
    { intros max h ->. done. }
    pose proof (batch_step_max _ _ _ _ _ E Hm) as Hm'.
    destruct pc.
    9: { destruct (Hsame (CIdle (Some r)) c) as (lo'' & ?); [done|done|done|done|]. eexists _, _, lo''; by split. }
    all: rewrite E; exists (CBatch pc'), c', lo'; (split; [done|]); split; [done|];
      unfold consumer_ok; simpl; (split; [by split|]); (split; [done|]); done.
Qed.

Definition world_inv (w : world) : Prop := exists lo,
  ring (chan w) lo (sent w) (claims_of (producers w)) /\
  (forall p pr, producers w !! p = Some pr -> producer_ok (chan w) pr) /\
  consumer_ok (chan w) lo (sent w) (the_consumer w) /\
  got w = take (Z.to_nat (head (chan w))) (sent w) /\
  Z.land (flags (chan w)) QD_CHAN_OVERFLOW = 0.

(** What a thread knows survives the steps of the others. *)
Lemma producer_ok_evolves c c' pr : evolves c c' -> producer_ok c pr -> producer_ok c' pr.
Proof.
  intros [Hh Ht (Hc & Hi & _ & _)]. unfold producer_ok.
  destruct (send_view pr) as [[x pc]|]; [|destruct pr; try done; congruence].
  intros [Hx Hpc]. split; [congruence|]. destruct pc; try done; lia.
Qed.

Lemma batch_front_grows c c' lo log new h acc :
  head c' = head c -> batch_front c lo log h acc -> batch_front c' lo (log ++ new) h acc.
Proof.
  intros E (-> & -> & Ha). unfold batch_front. rewrite E. split; [done|]. split; [done|].
  assert (length acc <= length (drop (Z.to_nat (head c)) log))%nat as Hl.
  { rewrite Ha at 1. rewrite length_take. lia. }
  destruct acc as [|x acc]; [done|]. rewrite length_drop in Hl. simpl in Hl.
  rewrite drop_app_le by lia. rewrite take_app_le by (rewrite length_drop; simpl; lia). done.
Qed.

Lemma consumer_ok_grows c c' lo log new k :
  evolves c c' -> head c' = head c -> keeps_ready c c' ->
  consumer_ok c lo log k -> consumer_ok c' lo (log ++ new) k.
Proof.
  intros [_ Ht (Hc & _ & Hm & _)] Hh Hr. unfold consumer_ok.
  assert (forall i, ready c i -> ready c' i) as Hrd.
  { intros i Hi. unfold ready in *. replace (cell c' i) with (cell c i) by (unfold cell, slot_pos; by rewrite Hm).
    by apply Hr. }
  destruct (recv_view k) as [pc|] eqn:Hv.
  - unfold recv_ok. rewrite Hh. destruct pc; try done; intros; destruct_and?; subst;
      repeat split; try done; try lia; auto using lookup_app_l_Some.
  - destruct k as [| |pc| | | | |]; try done; try congruence. intros [Hk Hmx]. split; [|done].
    unfold batch_ok in *. rewrite Hh. destruct pc; try done; destruct_and?;
      repeat (split; [first [by eapply batch_front_grows | done | lia | auto]|]);
      try by eapply batch_front_grows; try lia; auto using lookup_app_l_Some.
    all: try lia. all: auto using lookup_app_l_Some.
Qed.

Definition action_ok (isz : Z) (a : action) : Prop :=
  match a with ATrySend _ x | ASend _ x => Z.of_nat (length x) = isz | _ => True end.

#[export] Instance action_ok_dec isz a : Decision (action_ok isz a).
Proof. destruct a; unfold action_ok; apply _. Defined.

Lemma claims_of_insert m p pr q :
  claims_of (<[p:=pr]> m) q = put_claim p (claim_of pr) (claims_of m) q.
Proof.
  unfold claims_of, put_claim. destruct (decide (q = p)) as [->|]; [by rewrite lookup_insert_eq|].
  by rewrite lookup_insert_ne.
Qed.

Lemma get_producer_claim w p : claims_of (producers w) p = claim_of (get_producer w p).
Proof. unfold claims_of, get_producer. by destruct (producers w !! p). Qed.

Lemma get_producer_ok w p :
  (forall p pr, producers w !! p = Some pr -> producer_ok (chan w) pr) -> producer_ok (chan w) (get_producer w p).
Proof. unfold get_producer. destruct (producers w !! p) eqn:E; [intros H; by apply (H p)|done]. Qed.

(** A producer moves to [pr'] and the channel to [c']. *)
Lemma put_producer_inv w p pr' c' new :
  world_inv w ->
  (forall lo, ring (chan w) lo (sent w) (claims_of (producers w)) ->
     ring c' lo (sent w ++ new) (put_claim p (claim_of pr') (claims_of (producers w)))) ->
  producer_ok c' pr' -> evolves (chan w) c' -> head c' = head (chan w) -> keeps_ready (chan w) c' ->
  world_inv (put_producer p pr' c' new w).
Proof.
  intros (lo & HR & Hp & Hk & Hg & Hf) HR' Hpr Hev Hh Hkr. exists lo. simpl.
  split; [eapply ring_ext; [|intros q; apply claims_of_insert|by apply HR']; by destruct c'|].
  split.
  { intros q pr Hq. destruct (decide (q = p)) as [->|]; [rewrite lookup_insert_eq in Hq; congruence|].
    rewrite lookup_insert_ne in Hq by done. eapply producer_ok_evolves; eauto. }
  split; [by eapply consumer_ok_grows|]. split.
  - rewrite Hh, Hg. destruct (rg_order _ _ _ _ HR) as (? & ? & ?). rewrite take_app_le by lia. done.
  - destruct (ev_const _ _ Hev) as (_ & _ & _ & ->). done.
Qed.

Lemma put_consumer_inv w k' c' new :
  world_inv w ->
  (forall lo, ring (chan w) lo (sent w) (claims_of (producers w)) -> consumer_ok (chan w) lo (sent w) (the_consumer w) ->
     exists lo', ring c' lo' (sent w) (claims_of (producers w)) /\ consumer_ok c' lo' (sent w) k' /\ evolves (chan w) c' /\
       take (Z.to_nat (head c')) (sent w) = take (Z.to_nat (head (chan w))) (sent w) ++ new) ->
  world_inv (put_consumer k' c' new w).
Proof.
  intros (lo & HR & Hp & Hk & Hg & Hf) Hst. destruct (Hst lo HR Hk) as (lo' & HR' & Hk' & Hev & Ht).
  exists lo'. simpl. split; [done|]. split; [intros p pr Hq; eapply producer_ok_evolves; eauto|].
  split; [done|]. rewrite Hg, Ht. split; [done|]. destruct (ev_const _ _ Hev) as (_ & _ & _ & ->). done.
Qed.

Lemma reserved_length pr pr' : (length (reserved pr pr') <= 1)%nat.
Proof.
  unfold reserved. destruct (send_view pr) as [[x pc]|]; [|simpl; lia].
  destruct pc; try (simpl; lia). destruct (send_view pr') as [[y pc']|]; [|simpl; lia].
  destruct pc'; simpl; lia.
Qed.

(** [advanced w w']: the log has grown by at most one item, the sizes are the same. *)
Definition advanced (w w' : world) : Prop :=
  (length (sent w') <= S (length (sent w)))%nat /\ capacity (chan w') = capacity (chan w) /\
  item_size (chan w') = item_size (chan w).

Lemma step_inv a w :
  world_inv w -> tail (chan w) + capacity (chan w) + 1 < u64_mod -> action_ok (item_size (chan w)) a ->
  exists w', step a w = Ok w' /\ world_inv w' /\ advanced w w'.
Proof.
  intros Hinv Hov Ha.
  assert (world_inv w /\ advanced w w) as Hstay by (split; [done|]; split; [lia|done]).
  assert (evolves (chan w) (chan w) /\ keeps_ready (chan w) (chan w)) as [He Hkr] by (split; [by split|by intros ?]).
  assert (forall p x, claim_of (PTry x SEntry) = claims_of (producers w) p ->
    forall pr', claim_of pr' = None -> producer_ok (chan w) pr' ->
    world_inv (put_producer p pr' (chan w) [] w)) as Hcall.
  { intros p x Hc pr' Hc' Hok. apply put_producer_inv; [done| |done|done|done|done].
    intros lo HR. rewrite app_nil_r. eapply ring_ext; [|intros q|exact HR]; [by destruct (chan w)|].
    rewrite Hc'. unfold put_claim. case_decide; [subst; by rewrite <- Hc|done]. }
  assert (forall k' c', same_ring (chan w) c' -> (exists r, the_consumer w = CIdle r) ->
    consumer_ok c' (head c') (sent w) k' -> world_inv (put_consumer k' c' [] w)) as Hcons.
  { intros k' c' Hsm [r Hr] Hk'. apply put_consumer_inv; [done|]. intros lo HR Hk. rewrite Hr in Hk. exists lo.
    rewrite app_nil_r. split; [by eapply ring_ext|]. simpl in Hk. rewrite Hsm in *. simpl in *.
    rewrite Hk. split; [done|]. by stay. }
  assert (forall new k' c', capacity c' = capacity (chan w) -> item_size c' = item_size (chan w) ->
    advanced w (put_consumer k' c' new w)) as Hadv by (intros; split; [simpl; lia|done]).
  destruct a as [p x|p x|p weak| |max| |spun_out| | |]; cbn [step].
  - pose proof (get_producer_claim w p) as Hc. destruct (get_producer w p) eqn:Eg; try by exists w.
    eexists. split; [done|]. split; [apply (Hcall p x); [by rewrite Hc|done|by split]|].
    split; [simpl; rewrite app_nil_r; lia|done].
  - pose proof (get_producer_claim w p) as Hc. destruct (get_producer w p) eqn:Eg; try by exists w.
    eexists. split; [done|]. split; [apply (Hcall p x); [by rewrite Hc|done|by split]|].
    split; [simpl; rewrite app_nil_r; lia|done].
  - pose proof Hinv as (lo & HR & Hp & Hk & Hg & Hf).
    destruct (producer_step_inv weak (get_producer w p) (chan w) lo (sent w) (claims_of (producers w)) p)
      as (pr' & c' & E & _ & Hok & Hev & Hh & Hkr'); [done|apply get_producer_claim|by apply get_producer_ok|done|done|].
    rewrite E. cbn [obind]. eexists. split; [done|]. split.
    + apply put_producer_inv; try done. intros lo' HR0.
      destruct (producer_step_inv weak (get_producer w p) (chan w) lo' (sent w) (claims_of (producers w)) p)
        as (pr2 & c2 & E2 & HR2 & _); [done|apply get_producer_claim|by apply get_producer_ok|done|done|].
      rewrite E in E2. injection E2 as <- <-. done.
    + pose proof (reserved_length (get_producer w p) pr'). destruct (ev_const _ _ Hev) as (? & ? & _).
      split; [simpl; rewrite length_app; lia|done].
  - destruct (the_consumer w) eqn:Ek; try by exists w. eexists. split; [done|]. split; [|by apply Hadv].
    apply Hcons; [by destruct (chan w)|eauto|done].
  - destruct (the_consumer w) eqn:Ek; try by exists w. eexists. split; [done|]. split; [|by apply Hadv].
    apply Hcons; [by destruct (chan w)|eauto|]. by destruct (Z.leb_spec max 0).
  - destruct (the_consumer w) eqn:Ek; try by exists w. eexists. split; [done|]. split; [|by apply Hadv].
    apply Hcons; [by destruct (chan w)|eauto|done].
  - pose proof Hinv as (lo & HR & Hp & Hk & Hg & Hf).
    destruct (consumer_step_inv spun_out (the_consumer w) (chan w) lo (sent w) _ HR Hk Hov)
      as (k' & c' & lo' & E & HR' & Hk' & Hev & Ht).
    rewrite E. cbn [obind]. destruct (ev_const _ _ Hev) as (? & ? & ? & Hfl).
    eexists. split; [done|]. split; [|by apply Hadv]. exists lo'. simpl. split; [done|].
    split; [intros q pr Hq; eapply producer_ok_evolves; eauto|]. split; [done|]. split; [by rewrite Hg, Ht|congruence].
  - destruct (the_consumer w) eqn:Ek; try by exists w. eexists. split; [done|]. split; [|by apply Hadv].
    apply Hcons; [done|eauto|done].
  - eexists. split; [done|]. split; [|split; [simpl; lia|done]].
    destruct Hinv as (lo & HR & Hp & Hk & Hg & Hf). exists lo. simpl.
    split; [eapply ring_ext; [|done|done]; done|]. split; [|split; [|done]].
    + intros q pr Hq. eapply producer_ok_evolves; [|by eapply Hp]. by split.
    + rewrite <- (app_nil_r (sent w)). eapply consumer_ok_grows; [|done|by intros ?|done]. by split.
  - destruct ((closed (chan w) =? 0) || lock (chan w)); [by exists w|]. eexists. split; [done|].
    split; [|split; [simpl; lia|done]]. destruct Hinv as (lo & HR & Hp & Hk & Hg & Hf). exists lo. simpl.
    split; [eapply ring_ext; [| |done]; [by destruct (chan w)|]|split; [|split; [|done]]].
    + intros q. unfold claims_of. rewrite lookup_fmap. destruct (producers w !! q) as [[]|]; done.
    + intros q pr Hq. rewrite lookup_fmap in Hq. destruct (producers w !! q) as [pr0|] eqn:E; [|done].
      injection Hq as <-. specialize (Hp q _ E). by destruct pr0.
    + by destruct (the_consumer w).
Qed.

Lemma run_inv l : forall w,
  world_inv w -> tail (chan w) + Z.of_nat (length l) + capacity (chan w) + 1 < u64_mod ->
  Forall (action_ok (item_size (chan w))) l ->
  exists w', run l w = Ok w' /\ world_inv w' /\ capacity (chan w') = capacity (chan w).
Proof.
  induction l as [|a l IH]; intros w Hinv Hov Hl; [by exists w|]. apply Forall_cons in Hl as [Ha Hl].
  simpl in Hov. destruct (step_inv a w Hinv ltac:(lia) Ha) as (w1 & E & Hinv1 & Hlen & Hc & Hi).
  cbn [run]. rewrite E. cbn [obind]. rewrite <- Hc. apply IH; [done| |by rewrite Hi].
  destruct Hinv as (lo & HR & _). destruct Hinv1 as (lo1 & HR1 & _).
  destruct (rg_order _ _ _ _ HR) as (_ & _ & ?). destruct (rg_order _ _ _ _ HR1) as (_ & _ & ?). rewrite Hc. lia.
Qed.

(** ** A thread that runs alone

    [holds c q]: the channel is at rest, open, and its items are [q]. *)

Definition no_claims : claims := fun _ => None.

Definition holds (c : qd_channel) (q : list item) : Prop := exists log,
  ring c (head c) log no_claims /\ q = drop (Z.to_nat (head c)) log /\ closed c = 0 /\ lock c = false.

Lemma put_no_claim p : forall q, put_claim p None no_claims q = no_claims q.
Proof. intros q. unfold put_claim. by case_decide. Qed.

Lemma ring_rest c c' lo log cl :
  same_ring c c' -> (forall p, cl p = None) -> ring c lo log cl -> ring c' lo log no_claims.
Proof. intros Hs Hc. by apply ring_ext. Qed.

(** Reserving, copying and committing the next slot. *)
Lemma ring_push c lo log x :
  ring c lo log no_claims -> tail c - head c < capacity c -> Z.of_nat (length x) = item_size c ->
  let t := tail c in
  exists b, write_slot (set_tail (t + 1) c) t x = Ok (set_buffer b (set_tail (t + 1) c)) /\
    write_slot c t x = Ok (set_buffer b c) /\
    ring (set_committed (<[cell c t := 1]> (committed c)) (set_buffer b (set_tail (t + 1) c))) lo (log ++ [x]) no_claims.
Proof.
  intros HR Hroom Hx t.
  pose proof (ring_reserve _ _ _ _ HR 0%nat x eq_refl Hroom Hx) as H1. fold t in H1.
  destruct (ring_copy _ _ _ _ H1 0%nat t x (put_claim_eq _ _ _)) as (b & E2 & H2).
  destruct (ring_commit _ _ _ _ H2 0%nat t x (put_claim_eq _ _ _)) as (_ & H3).
  exists b. split; [done|]. split.
  - unfold write_slot in *. change (slot_pos (set_tail (t + 1) c)) with (slot_pos c) in E2.
    cbn [buffer set_tail item_size] in E2.
    destruct (store (buffer c) (slot_pos c t *64 item_size c) x); cbn [obind] in *; try done.
    injection E2 as ->. done.
  - eapply ring_rest; [| |exact H3]; [done|]. intros q. unfold put_claim. by repeat case_decide.
Qed.

Definition queue_send (cap : Z) (overflow : bool) (q : list item) (x : item) : Z * list item :=
  if Z.of_nat (length q) <? cap then (QD_OK, q ++ [x])
  else if overflow then (QD_OK, drop 1 q ++ [x]) else (QD_ERR_BUSY, q).

Definition overflows (c : qd_channel) : bool := negb (Z.land (flags c) QD_CHAN_OVERFLOW =? 0).

(** The fields that no call changes, but for the positions. *)
Definition same_config (c c' : qd_channel) : Prop :=
  capacity c' = capacity c /\ item_size c' = item_size c /\ flags c' = flags c /\ tail c' <= tail c + 1.

Lemma holds_facts c q : holds c q -> tail c + capacity c + 1 < u64_mod ->
  0 <= head c <= tail c /\ Z.of_nat (length q) = tail c - head c /\ tail c - head c <= capacity c /\
  0 < capacity c /\ (tail c -64 head c) = tail c - head c.
Proof.
  intros (log & HR & -> & _) Hov. destruct (rg_order _ _ _ _ HR) as (? & ? & ?).
  pose proof (shape_capacity _ (rg_shape _ _ _ _ HR)). rewrite length_drop.
  rewrite u64_small by (unfold_widths; lia). lia.
Qed.

Lemma drop_snoc {A} n (l : list A) x : (n <= length l)%nat -> drop n (l ++ [x]) = drop n l ++ [x].
Proof. intros. rewrite drop_app_le by lia. done. Qed.

Lemma run_send_S fuel x pc c : (forall r, pc <> SReturn r) ->
  run_send (S fuel) x pc c = (let! (pc, c) := send_step false x pc c in run_send fuel x pc c).
Proof. intros Hr. destruct pc; try done. by destruct (Hr r). Qed.

Lemma run_send_return fuel x r c : run_send fuel x (SReturn r) c = Ok (r, c).
Proof. by destruct fuel. Qed.

Ltac sstep := cbn [obind]; rewrite run_send_S by done; cbn [send_step obind].

Lemma try_send_alone c q x fuel :
  holds c q -> Z.of_nat (length x) = item_size c -> tail c + capacity c + 1 < u64_mod -> (20 <= fuel)%nat ->
  let (r, q') := queue_send (capacity c) (overflows c) q x in
  exists c', qd_channel_try_send fuel c (Some x) = Ok (r, c') /\ holds c' q' /\ same_config c c' /\
    eventfd c' = (if decide (q = []) then eventfd c + 1 else eventfd c).
Proof.
  intros Hh Hx Hov Hf. pose proof (holds_facts c q Hh Hov) as (Ho & Hq & Hle & Hcap & Hsub).
  pose proof Hh as (log & HR & Eq & Hcl & Hlk). destruct (rg_order _ _ _ _ HR) as (_ & _ & Hlen).
  pose proof (rg_shape _ _ _ _ HR) as Hs.
  do 15 (destruct fuel as [|fuel]; [lia|]). unfold queue_send, qd_channel_try_send, overflows.
  sstep. rewrite Hcl. cbn [Z.eqb]. sstep. sstep. rewrite Hsub.
  destruct (Z.ltb_spec (Z.of_nat (length q)) (capacity c)) as [Hroom|Hfull].
  - destruct (Z.leb_spec (capacity c) (tail c - head c)); [lia|]. sstep.
    rewrite Z.eqb_refl. cbn [andb negb]. rewrite u64_small by (unfold_widths; lia). sstep.
    destruct (ring_push c (head c) log x HR ltac:(lia) Hx) as (b & E1 & _ & HR').
    rewrite E1. sstep. rewrite put_committed_ok; [|].
    2: { destruct (rg_shape _ _ _ _ HR'). split; try done. simpl. apply (sh_committed c Hs). }
    sstep. rewrite run_send_return. eexists. split; [done|]. split; [|split; [destruct (tail c =? head c); stay|]].
    + exists (log ++ [x]). destruct (tail c =? head c); (split; [by eapply ring_rest; [| |exact HR']|]);
        simpl; rewrite drop_snoc, Eq by lia; done.
    + destruct (Z.eqb_spec (tail c) (head c)), (decide (q = [])) as [->|Hne]; try done; simpl in *; [|lia].
      destruct q; [done|simpl in Hq; lia].
  - destruct (Z.leb_spec (capacity c) (tail c - head c)); [|lia].
    assert (q <> []) as Hne by (intros ->; simpl in *; lia). rewrite (decide_False (P := q = [])) by done.
    destruct (negb (Z.land (flags c) QD_CHAN_OVERFLOW =? 0)); cbn [obind];
      [|rewrite run_send_return; exists c; stay].
    sstep. rewrite Hlk. sstep. sstep. change (capacity (set_lock true c)) with (capacity c).
    cbn [tail head set_lock]. rewrite Hsub. destruct (Z.leb_spec (capacity c) (tail c - head c)); [|lia].
    sstep. change (slot_pos (set_lock true c)) with (slot_pos c).
    set (c1 := set_lock true c).
    assert (ring c1 (head c1) log no_claims) as HR1 by (by eapply ring_rest; [| |exact HR]).
    assert (committed c1 !! cell c1 (head c1) = Some 1) as Hk.
    { destruct (rg_cell _ _ _ _ HR (head c) ltac:(lia)) as [(p & b & y & Hp)|[Hk _]]; [done|exact Hk]. }
    destruct (ring_clear c1 _ _ _ HR1 ltac:(simpl; lia) Hk) as [E2 HR2].
    change (slot_pos c (head c)) with (slot_pos c1 (head c1)). rewrite E2. sstep.
    apply ring_advance in HR2. set (c1' := set_committed _ c1) in *.
    change (head c1') with (head c). rewrite (u64_small (head c + 1)) by (unfold_widths; lia).
    change (head c1 + 1) with (head c + 1) in HR2. set (c2 := set_head (head c + 1) c1') in *.
    destruct (ring_push c2 _ log x HR2 ltac:(simpl; lia) Hx) as (b & _ & E3 & HR3).
    change (tail c2) with (tail c) in *. sstep. rewrite E3. sstep.
    rewrite put_committed_ok; [|].
    2: { destruct (rg_shape _ _ _ _ HR3). split; try done. simpl. by rewrite length_insert, (sh_committed c Hs). }
    sstep. rewrite (u64_small (tail c + 1)) by (unfold_widths; lia). sstep.
    destruct (Z.eqb_spec (tail c) (head c)); [lia|]. cbn [obind]. rewrite run_send_return.
    eexists. split; [done|]. split; [|by stay]. exists (log ++ [x]).
    split; [by eapply ring_rest; [| |exact HR3]|]. split; [|done]. simpl.
    rewrite drop_snoc by lia. f_equal. rewrite Eq, drop_drop. f_equal. lia.
Qed.

Lemma holds_first c x q : holds c (x :: q) -> tail c + capacity c + 1 < u64_mod ->
  exists log, ring c (head c) log no_claims /\ x :: q = drop (Z.to_nat (head c)) log /\ closed c = 0 /\ lock c = false /\
    head c < tail c /\ ready c (head c) /\ read_slot c (head c) = Ok x.
Proof.
  intros Hh Hov. pose proof (holds_facts c _ Hh Hov) as (Ho & Hq & _). destruct Hh as (log & HR & Eq & Hcl & Hlk).
  exists log. simpl in Hq. destruct (rg_cell _ _ _ _ HR (head c) ltac:(lia)) as [(p & b & y & Hp)|(Hk & y & Hy & Hr)]; [done|].
  assert (drop (Z.to_nat (head c)) log !! 0%nat = Some y) as Hy0 by (rewrite lookup_drop, Nat.add_0_r; done).
  rewrite <- Eq in Hy0. injection Hy0 as ->. repeat (split; [done|]). split; [lia|]. done.
Qed.

(** What the consumer leaves when it has taken the first item. *)
Lemma holds_pop c x q : holds c (x :: q) -> tail c + capacity c + 1 < u64_mod ->
  exists c1, put_committed c (slot_pos c (head c)) 0 = Ok c1 /\ holds (set_head (head c + 1) c1) q /\
    c1 = set_committed (committed c1) c.
Proof.
  intros Hh Hov. destruct (holds_first c x q Hh Hov) as (log & HR & Eq & Hcl & Hlk & Hlt & Hk & Hr).
  destruct (ring_clear _ _ _ _ HR Hlt Hk) as [E HR']. apply ring_advance in HR'.
  eexists. split; [exact E|]. split; [|done]. exists log. split; [done|]. split; [|done]. simpl.
  destruct (rg_order _ _ _ _ HR) as (? & ? & ?).
  replace (Z.to_nat (head c + 1)) with (Z.to_nat (head c) + 1)%nat by lia. by rewrite <- drop_drop, <- Eq.
Qed.

Definition queue_recv (q : list item) : Z * option item * list item :=
  match q with [] => (QD_ERR_AGAIN, None, []) | x :: q => (QD_OK, Some x, q) end.

Lemma run_recv_S fuel pc c : (forall r x, pc <> RReturn r x) ->
  run_recv (S fuel) pc c = (let! (pc, c) := recv_step pc c in run_recv fuel pc c).
Proof. intros Hr. destruct pc; try done. by destruct (Hr r x). Qed.

Lemma run_recv_return fuel r x c : run_recv fuel (RReturn r x) c = Ok (r, x, c).
Proof. by destruct fuel. Qed.

Lemma run_batch_S fuel pc c : (forall r x, pc <> BReturn r x) ->
  run_batch (S fuel) pc c = (let! (pc, c) := batch_step false pc c in run_batch fuel pc c).
Proof. intros Hr. destruct pc; try done. by destruct (Hr r acc). Qed.

Lemma run_batch_return fuel r x c : run_batch fuel (BReturn r x) c = Ok (r, x, c).
Proof. by destruct fuel. Qed.

Ltac rstep := cbn [obind]; rewrite run_recv_S by done; cbn [recv_step obind].
Ltac bstep := cbn [obind]; rewrite run_batch_S by done; cbn [batch_step obind].

Lemma try_recv_alone c q fuel :
  holds c q -> tail c + capacity c + 1 < u64_mod -> (20 <= fuel)%nat ->
  let '(r, x, q') := queue_recv q in
  exists c', qd_channel_try_recv fuel c = Ok (r, x, c') /\ holds c' q' /\ same_config c c' /\ eventfd c' = eventfd c.
Proof.
  intros Hh Hov Hf. pose proof (holds_facts c q Hh Hov) as (Ho & Hq & Hle & Hcap & _).
  do 9 (destruct fuel as [|fuel]; [lia|]). unfold qd_channel_try_recv, queue_recv. rstep.
  assert (closed c = 0) as -> by (by destruct Hh as (? & _ & _ & ? & _)). cbn [Z.eqb].
  rstep. rstep. destruct q as [|x q].
  - destruct (Z.leb_spec (tail c) (head c)); [|simpl in Hq; lia]. rewrite run_recv_return. exists c. by stay.
  - destruct (holds_first c x q Hh Hov) as (log & HR & Eq & Hcl & Hlk & Hlt & Hk & Hr).
    destruct (holds_pop c x q Hh Hov) as (c1 & E & Hh' & Hc1).
    destruct (Z.leb_spec (tail c) (head c)); [lia|]. rstep.
    destruct (get_committed_ok c (head c) (rg_shape _ _ _ _ HR)) as (v & Hv & ->).
    unfold ready in Hk. rewrite Hk in Hv. injection Hv as <-. cbn [obind]. change (1 =? 0) with false.
    rstep. rewrite Hr. rstep. rewrite E. rstep. rewrite run_recv_return.
    rewrite u64_small by (unfold_widths; lia). exists (set_head (head c + 1) c1). split; [by rewrite Hc1|].
    split; [done|]. rewrite Hc1. by stay.
Qed.

Definition queue_batch (q : list item) (max : Z) : Z * list item * list item :=
  if max <=? 0 then (QD_ERR_INVAL, [], q)
  else (Z.of_nat (Z.to_nat max `min` length q), take (Z.to_nat max) q, drop (Z.to_nat max) q).

(** The loop of the batch receive, with [rest] still to be taken from position [lo]. *)
Lemma batch_loop_alone m : forall fuel c lo log h acc,
  ring c lo log no_claims -> h = head c -> lo = h + processed acc ->
  lo + Z.of_nat m <= tail c -> tail c + capacity c + 1 < u64_mod -> (0 < m \/ acc <> [])%nat ->
  (5 * m + 5 <= fuel)%nat ->
  exists c', run_batch fuel (batch_next h (processed acc + Z.of_nat m) acc) c
      = Ok (processed acc + Z.of_nat m, acc ++ take m (drop (Z.to_nat lo) log), c') /\
    ring c' (lo + Z.of_nat m) log no_claims /\ head c' = lo + Z.of_nat m /\
    c' = set_head (head c') (set_committed (committed c') c).
Proof.
  induction m as [|m IH]; intros fuel c lo log h acc HR Hh Hlo Hle Hov Hne Hf;
    pose proof (rg_shape _ _ _ _ HR) as Hs; pose proof (shape_capacity c Hs);
    pose proof (rg_order _ _ _ _ HR) as (Ho & _); unfold batch_next.
  - rewrite Z.add_0_r, Z.ltb_irrefl, Z.add_0_r, app_nil_r.
    destruct (Z.ltb_spec 0 (processed acc)); [|destruct acc; [destruct Hne; [lia|done]|unfold processed in *; simpl in *; lia]].
    do 2 (destruct fuel as [|fuel]; [lia|]). bstep. rewrite run_batch_return.
    rewrite <- Hlo, u64_small by (unfold_widths; lia). eexists. split; [done|]. split; [by apply ring_advance|].
    by destruct c.
  - destruct (Z.ltb_spec (processed acc) (processed acc + Z.of_nat (S m))); [|lia].
    do 5 (destruct fuel as [|fuel]; [lia|]).
    assert ((h +64 processed acc) = lo) as Hpos by (rewrite <- Hlo; apply u64_small; unfold_widths; lia).
    destruct (rg_cell _ _ _ _ HR lo ltac:(lia)) as [(p & b & y & Hp)|(Hk & x & Hx & Hr)]; [done|].
    destruct (get_committed_ok c lo Hs) as (v & Hv & Eg). rewrite Hk in Hv. injection Hv as <-.
    destruct (ring_clear _ _ _ _ HR ltac:(lia) Hk) as [E HR'].
    bstep. rewrite Hpos, Eg. cbn [obind]. change (1 =? 0) with false. cbn [andb].
    bstep. rewrite Hpos, Eg. cbn [obind]. change (1 =? 0) with false.
    bstep. rewrite Hpos, Hr. bstep. rewrite Hpos, E. cbn [obind].
    replace (processed acc + Z.of_nat (S m)) with (processed (acc ++ [x]) + Z.of_nat m)
      by (unfold processed; rewrite length_app; simpl; lia).
    edestruct (IH (S fuel) _ (lo + 1) log h (acc ++ [x]) HR') as (c' & E' & HR2 & Hh2 & Hc2).
    + done.
    + unfold processed in *. rewrite length_app. simpl. lia.
    + simpl. lia.
    + done.
    + right. by destruct acc.
    + lia.
    + exists c'. rewrite E'. split; [|].
      { do 3 f_equal. rewrite <- app_assoc. f_equal. replace (Z.to_nat (lo + 1)) with (S (Z.to_nat lo)) by lia.
        rewrite (drop_S log x (Z.to_nat lo)) by done. done. }
      replace (lo + Z.of_nat (S m)) with (lo + 1 + Z.of_nat m) by lia. split; [done|]. split; [done|].
      rewrite Hc2. done.
Qed.

Lemma try_recv_batch_alone c q max fuel :
  holds c q -> tail c + capacity c + 1 < u64_mod -> (5 * length q + 20 <= fuel)%nat ->
  let '(r, xs, q') := queue_batch q max in
  exists c', qd_channel_try_recv_batch fuel c max = Ok (r, xs, c') /\ holds c' q' /\ same_config c c' /\
    eventfd c' = eventfd c.
Proof.
  intros Hh Hov Hf. pose proof (holds_facts c q Hh Hov) as (Ho & Hq & Hle & Hcap & Hsub).
  unfold queue_batch, qd_channel_try_recv_batch. destruct (Z.leb_spec max 0) as [|Hmax]; [exists c; by stay|].
  do 4 (destruct fuel as [|fuel]; [lia|]). bstep.
  pose proof Hh as (log & HR & Eq & Hcl & Hlk). rewrite Hcl. cbn [Z.eqb]. bstep. bstep.
  destruct (Z.leb_spec (tail c) (head c)) as [Hemp|Hlt].
  - assert (q = []) as -> by (destruct q; [done|simpl in Hq; lia]).
    rewrite Nat.min_0_r, take_nil, drop_nil. cbn [obind]. rewrite run_batch_return. exists c. by stay.
  - rewrite Hsub. set (m := (Z.to_nat max `min` length q)%nat).
    replace (if tail c - head c <? max then tail c - head c else max) with (processed [] + Z.of_nat m).
    2: { unfold m, processed. simpl. destruct (Z.ltb_spec (tail c - head c) max); lia. }
    destruct (batch_loop_alone m (S fuel) c (head c) log (head c) []) as (c' & E & HR' & Hh' & Hc'); try done.
    + unfold processed. simpl. lia.
    + lia.
    + left. lia.
    + lia.
    + cbn [obind]. rewrite E. cbn [app]. rewrite <- Eq. exists c'. unfold processed. simpl.
      split; [do 3 f_equal; unfold m; destruct (Nat.le_ge_cases (Z.to_nat max) (length q));
              [by rewrite Nat.min_l by lia | rewrite Nat.min_r by lia; by rewrite !take_ge by lia]|].
      split; [|rewrite Hc'; by stay]. exists log. rewrite Hh'. split; [done|].
      split; [|by rewrite Hc']. replace (Z.to_nat (head c + Z.of_nat m)) with (Z.to_nat (head c) + m)%nat by lia.
      rewrite <- drop_drop, <- Eq. unfold m. destruct (Nat.le_ge_cases (Z.to_nat max) (length q));
        [by rewrite Nat.min_l by lia | rewrite Nat.min_r by lia; by rewrite !drop_ge by lia].
Qed.

(** ** Creation *)

Lemma round_up_pow2_eq n : 1 <= n <= 2 ^ 63 -> round_up_pow2 n = 2 ^ Z.log2_up n.
Proof.
  intros Hn. unfold round_up_pow2. destruct (Z.eqb_spec n 0); [lia|].
  rewrite (u64_small (n - 1)) by (unfold_widths; lia). cbv zeta.
  rewrite (smeared_pow2 64 _ n ltac:(lia) ltac:(lia) (smear64 (n - 1) ltac:(lia))).
  apply u64_small. unfold_widths. pose proof (log2_up_bound n 63 ltac:(lia) ltac:(lia)).
  assert (0 < 2 ^ Z.log2_up n) by (apply Z.pow_pos_nonneg; [lia|apply Z.log2_up_nonneg]). lia.
Qed.

(** The capacity the documentation promises for a requested one. *)
Definition chosen_capacity (n : Z) : Z := if n =? 0 then 1024 else 2 ^ Z.log2_up n.

Lemma create_eq malloc n isz fl c :
  (forall k b, malloc k = Some b -> Z.of_nat (length b) = k) ->
  0 <= n <= 2 ^ 63 -> 0 < isz -> chosen_capacity n * isz < u64_mod ->
  qd_channel_create true true true malloc (Some (mkConfig n isz fl)) = Some c ->
  capacity c = chosen_capacity n /\ item_size c = isz /\ flags c = fl /\ tail c = 0 /\
  head c = 0 /\ eventfd c = 0 /\ holds c [].
Proof.
  intros Hmal Hn Hi Hov. unfold qd_channel_create. cbn [cfg_item_size cfg_capacity cfg_flags negb].
  destruct (Z.eqb_spec isz 0); [lia|].
  assert ((if n =? 0 then 1024 else round_up_pow2 n) = chosen_capacity n) as ->.
  { unfold chosen_capacity. destruct (Z.eqb_spec n 0); [done|]. apply round_up_pow2_eq. lia. }
  assert (exists k, 0 <= k /\ chosen_capacity n = 2 ^ k) as (k & Hk & Ek).
  { unfold chosen_capacity. destruct (Z.eqb_spec n 0); [by exists 10|].
    exists (Z.log2_up n). split; [apply Z.log2_up_nonneg|done]. }
  assert (0 < chosen_capacity n) as Hc by (rewrite Ek; apply Z.pow_pos_nonneg; lia).
  rewrite (u64_small (chosen_capacity n * isz)) by (unfold_widths; nia).
  rewrite (u64_small (chosen_capacity n - 1)) by (unfold_widths; nia).
  destruct (malloc (chosen_capacity n * isz)) as [b|] eqn:Eb; [|done]. intros [= <-]. simpl.
  split; [done|]. do 5 (split; [done|]). exists []. split; [|done].
  split; simpl; try done; try lia.
  - split; simpl; try done; [by exists k| |rewrite length_replicate; lia]. by apply Hmal.
  - intros i Hr. apply lookup_replicate. split; [done|].
    unfold cell, slot_pos. simpl. rewrite Ek, land_mask by done.
    pose proof (Z.mod_pos_bound i (2 ^ k) ltac:(apply Z.pow_pos_nonneg; lia)). lia.
Qed.

(** ** Sequences of calls of one thread, and the queue they implement *)

Inductive call := CallSend (x : item) | CallRecv | CallBatch (max : Z).
Inductive reply := SendReply (r : Z) | RecvReply (r : Z) (x : option item) | BatchReply (r : Z) (xs : list item).

Fixpoint channel_calls (fuel : nat) (l : list call) (c : qd_channel) : outcome (list reply * qd_channel) :=
  match l with
  | [] => Ok ([], c)
  | CallSend x :: l =>
    let! (r, c) := qd_channel_try_send fuel c (Some x) in
    let! (rs, c) := channel_calls fuel l c in Ok (SendReply r :: rs, c)
  | CallRecv :: l =>
    let! (r, x, c) := qd_channel_try_recv fuel c in
    let! (rs, c) := channel_calls fuel l c in Ok (RecvReply r x :: rs, c)
  | CallBatch max :: l =>
    let! (r, xs, c) := qd_channel_try_recv_batch fuel c max in
    let! (rs, c) := channel_calls fuel l c in Ok (BatchReply r xs :: rs, c)
  end.

(** The contract: a bounded FIFO queue. *)
Fixpoint queue_calls (cap : Z) (overflow : bool) (l : list call) (q : list item) : list reply * list item :=
  match l with
  | [] => ([], q)
  | CallSend x :: l =>
    let (r, q) := queue_send cap overflow q x in
    let (rs, q) := queue_calls cap overflow l q in (SendReply r :: rs, q)
  | CallRecv :: l =>
    let '(r, x, q) := queue_recv q in
    let (rs, q) := queue_calls cap overflow l q in (RecvReply r x :: rs, q)
  | CallBatch max :: l =>
    let '(r, xs, q) := queue_batch q max in
    let (rs, q) := queue_calls cap overflow l q in (BatchReply r xs :: rs, q)
  end.

Definition call_ok (isz : Z) (a : call) : Prop :=
  match a with CallSend x => Z.of_nat (length x) = isz | _ => True end.

Lemma calls_refine fuel l : forall c q,
  holds c q -> Forall (call_ok (item_size c)) l ->
  tail c + Z.of_nat (length l) + capacity c + 1 < u64_mod -> (5 * Z.to_nat (capacity c) + 20 <= fuel)%nat ->
  let (rs, q') := queue_calls (capacity c) (overflows c) l q in
  exists c', channel_calls fuel l c = Ok (rs, c') /\ holds c' q'.
Proof.
  induction l as [|a l IH]; intros c q Hh Hl Hov Hf; [by exists c|].
  apply Forall_cons in Hl as [Ha Hl]. cbn [length] in Hov.
  pose proof (holds_facts c q Hh ltac:(lia)) as (? & Hq & ? & ? & _).
  assert (forall c1 q1, holds c1 q1 -> same_config c c1 ->
    let (rs, q') := queue_calls (capacity c) (overflows c) l q1 in
    exists c', channel_calls fuel l c1 = Ok (rs, c') /\ holds c' q') as Hrest.
  { intros c1 q1 Hh1 (Ec & Ei & Ef & Et). specialize (IH c1 q1 Hh1). unfold overflows in *.
    rewrite Ec, Ei, Ef in IH. apply IH; [done|lia|done]. }
  destruct a as [x| |max]; cbn [queue_calls channel_calls].
  - pose proof (try_send_alone c q x fuel Hh Ha ltac:(lia) ltac:(lia)) as Hs.
    destruct (queue_send (capacity c) (overflows c) q x) as [r q1]. destruct Hs as (c1 & -> & Hh1 & Hc & _).
    specialize (Hrest c1 q1 Hh1 Hc). destruct (queue_calls (capacity c) (overflows c) l q1).
    destruct Hrest as (c' & E & Hh'). exists c'. cbn [obind]. by rewrite E.
  - pose proof (try_recv_alone c q fuel Hh ltac:(lia) ltac:(lia)) as Hs.
    destruct (queue_recv q) as [[r x] q1]. destruct Hs as (c1 & -> & Hh1 & Hc & _).
    specialize (Hrest c1 q1 Hh1 Hc). destruct (queue_calls (capacity c) (overflows c) l q1).
    destruct Hrest as (c' & E & Hh'). exists c'. cbn [obind]. by rewrite E.
  - pose proof (try_recv_batch_alone c q max fuel Hh ltac:(lia) ltac:(lia)) as Hs.
    destruct (queue_batch q max) as [[r x] q1]. destruct Hs as (c1 & -> & Hh1 & Hc & _).
    specialize (Hrest c1 q1 Hh1 Hc). destruct (queue_calls (capacity c) (overflows c) l q1).
    destruct Hrest as (c' & E & Hh'). exists c'. cbn [obind]. by rewrite E.
Qed.

(** ** Properties *)

Definition at_rest (w : world) : Prop :=
  (exists r, the_consumer w = CIdle r) /\
  forall p pr, producers w !! p = Some pr -> exists r, pr = PIdle r.

(** A malloc that returns zeroed blocks of up to 4096 bytes, for the witnesses. *)
Definition small_malloc (n : Z) : option (list Z) :=
  if (0 <=? n) && (n <=? 4096) then Some (replicate (Z.to_nat n) 0) else None.

Lemma small_malloc_ok k b : small_malloc k = Some b -> Z.of_nat (length b) = k.
Proof.
  unfold small_malloc. destruct (Z.leb_spec 0 k), (Z.leb_spec k 4096); try done. simpl. intros [= <-].
  rewrite length_replicate. lia.
Qed.

(** C3: FIFO delivery under every interleaving, for channels created without
    QD_CHAN_OVERFLOW (with it a send drops the oldest item). The channel is used by any
    number of producers, one consumer (single and batch receives, blocking or not) and a
    closing thread, with their atomic steps interleaved in any order, with spurious failures
    of the weak compare-and-swap and spurious wake-ups, for fewer than 2^64 steps: no step
    leaves the buffer or the flag array, the items the consumer has taken are a prefix of
    the items in the order of their reservation (none is lost, duplicated, reordered or read
    before it was written), at most [capacity] items are outstanding, and at rest every
    outstanding item is in its slot, marked as committed. *)
Theorem channel_fifo malloc n isz fl c l :
  (forall k b, malloc k = Some b -> Z.of_nat (length b) = k) ->
  0 <= n <= 2 ^ 63 -> 0 < isz -> chosen_capacity n * isz < u64_mod ->
  qd_channel_create true true true malloc (Some (mkConfig n isz fl)) = Some c ->
  Z.land fl QD_CHAN_OVERFLOW = 0 -> Forall (action_ok isz) l ->
  Z.of_nat (length l) + chosen_capacity n + 1 < u64_mod ->
  exists w, run l (new_world c) = Ok w /\ got w `prefix_of` sent w /\
    Z.of_nat (length (sent w)) - Z.of_nat (length (got w)) <= chosen_capacity n /\
    (at_rest w -> forall i x, (length (got w) <= i)%nat -> sent w !! i = Some x ->
       read_slot (chan w) (Z.of_nat i) = Ok x /\ ready (chan w) (Z.of_nat i)).
Proof.
  intros Hmal Hn Hi Hov Hc Hfl Hl Hlen.
  destruct (create_eq malloc n isz fl c Hmal Hn Hi Hov Hc) as (Ec & Ei & Ef & Et & Eh & _ & Hh).
  destruct Hh as (log & HR & Eq & _ & _). rewrite Eh in *.
  assert (log = []) as -> by (destruct (rg_order _ _ _ _ HR) as (_ & _ & E); destruct log; [done|simpl in E; lia]).
  destruct (run_inv l (new_world c)) as (w & E & (lo & HRw & Hp & Hk & Hg & Hf) & Ecw).
  { exists 0. simpl. split; [by eapply ring_ext; [| |exact HR]; [destruct c|]|].
    split; [done|]. rewrite Eh. split; [done|]. split; [done|]. by rewrite Ef. }
  { simpl. lia. }
  { simpl. by rewrite Ei. }
  cbn [new_world chan] in Ecw. rewrite Ec in Ecw.
  destruct (rg_order _ _ _ _ HRw) as (Ho1 & Ho2 & Ho3).
  assert (Z.of_nat (length (got w)) = head (chan w)) as Hgl by (rewrite Hg, length_take; lia).
  exists w. split; [done|]. split; [rewrite Hg; apply prefix_take|]. split; [lia|].
  intros [[r Hr] Hpi] i x Hi' Hx. rewrite Hr in Hk. unfold consumer_ok in Hk; cbn in Hk.
  assert (i < length (sent w))%nat by (by apply lookup_lt_Some in Hx).
  destruct (rg_cell _ _ _ _ HRw (Z.of_nat i) ltac:(lia)) as [(p & b & y & Hcl)|(Hrd & y & Hy & Hr')].
  - unfold claims_of in Hcl. destruct (producers w !! p) as [pr|] eqn:Ep; [|done].
    destruct (Hpi p pr Ep) as [r' ->]. done.
  - rewrite Nat2Z.id in Hy. split; [congruence|done].
Qed.

(** Producer 2 reserves after producer 1 and writes before it; the consumer gets
    the item of producer 1 first. *)
Definition race_run : list action :=
  [ATrySend 1 [65]] ++ replicate 4 (AProducer 1 false) ++ [ATrySend 2 [66]] ++ replicate 8 (AProducer 2 false)
  ++ [ATryRecv] ++ replicate 6 (AConsumer false) ++ replicate 4 (AProducer 1 false) ++ replicate 8 (AConsumer false)
  ++ [ABatch 5] ++ replicate 12 (AConsumer false).

Lemma channel_fifo_witness : exists c w,
  qd_channel_create true true true small_malloc (Some (mkConfig 2 1 0)) = Some c /\
  run race_run (new_world c) = Ok w /\ got w `prefix_of` sent w /\ got w = [[65]; [66]].
Proof.
  eexists. edestruct (channel_fifo small_malloc 2 1 0) as (w & E & Hpre & _).
  - exact small_malloc_ok.
  - lia.
  - lia.
  - reflexivity.
  - vm_compute. reflexivity.
  - reflexivity.
  - apply (bool_decide_unpack (Forall (action_ok 1) race_run)). vm_compute. exact I.
  - reflexivity.
  - exists w. split; [vm_compute; reflexivity|]. split; [exact E|]. split; [exact Hpre|].
    vm_compute in E. injection E as <-. reflexivity.
Defined.

(** C4: For one thread a channel is a bounded FIFO queue.  Any sequence of
    try_send, try_recv and try_recv_batch calls on a new channel returns what the
    queue returns: QD_ERR_BUSY at capacity (or, with QD_CHAN_OVERFLOW, the oldest
    item is dropped), QD_ERR_AGAIN when empty, and batches of up to [max] items.
    The capacity is the least power of two that is not below the requested one,
    1024 if that is 0. *)
Theorem channel_refines_queue malloc n isz fl c l fuel :
  (forall k b, malloc k = Some b -> Z.of_nat (length b) = k) ->
  0 <= n <= 2 ^ 63 -> 0 < isz -> chosen_capacity n * isz < u64_mod ->
  qd_channel_create true true true malloc (Some (mkConfig n isz fl)) = Some c ->
  Forall (call_ok isz) l -> Z.of_nat (length l) + chosen_capacity n + 1 < u64_mod ->
  (5 * Z.to_nat (chosen_capacity n) + 20 <= fuel)%nat ->
  let (rs, q) := queue_calls (chosen_capacity n) (negb (Z.land fl QD_CHAN_OVERFLOW =? 0)) l [] in
  exists c', channel_calls fuel l c = Ok (rs, c') /\ holds c' q.
Proof.
  intros Hmal Hn Hi Hov Hc Hl Hlen Hf.
  destruct (create_eq malloc n isz fl c Hmal Hn Hi Hov Hc) as (Ec & Ei & Ef & Et & _ & _ & Hh).
  rewrite <- Ec in *. rewrite <- Ef. apply (calls_refine fuel l c []); [done|by rewrite Ei|lia|done].
Qed.

Lemma channel_refines_queue_witness : exists c c',
  qd_channel_create true true true small_malloc (Some (mkConfig 2 1 2)) = Some c /\
  channel_calls 40 [CallSend [1]; CallSend [2]; CallSend [3]; CallRecv; CallBatch 4; CallRecv] c
  = Ok ([SendReply QD_OK; SendReply QD_OK; SendReply QD_OK; RecvReply QD_OK (Some [2]);
         BatchReply 1 [[3]]; RecvReply QD_ERR_AGAIN None], c') /\ holds c' [].
Proof.
  exists (mkChan [0; 0] 2 1 1 0 0 [0; 0] 0 false 2 0).
  destruct (channel_refines_queue small_malloc 2 1 2 (mkChan [0; 0] 2 1 1 0 0 [0; 0] 0 false 2 0)
    [CallSend [1]; CallSend [2]; CallSend [3]; CallRecv; CallBatch 4; CallRecv] 40) as (c' & E & Hh).
  - exact small_malloc_ok.
  - lia.
  - lia.
  - reflexivity.
  - vm_compute. reflexivity.
  - repeat (apply List.Forall_cons; [exact I || reflexivity|]). apply List.Forall_nil.
  - reflexivity.
  - vm_compute. lia.
  - exists c'. split; [vm_compute; reflexivity|]. split; [exact E|exact Hh].
Defined.

(** The channel of the two runs below: two items of one byte, an open channel. *)
Definition demo_channel : qd_channel := mkChan [0; 0] 2 1 1 0 0 [0; 0] 0 false 0 0.

Definition full_send (p : nat) (x : item) : list action := ATrySend p x :: replicate 8 (AProducer p false).
Definition full_recv : list action := ATryRecv :: replicate 8 (AConsumer false).

(** A lost wakeup.  The producer compares its reserved position with the head
    it read before the CAS.  If the consumer takes the last item in between, the
    queue was empty when the new item became visible, yet the eventfd is not
    written: producer 1 sends, producer 2 has read both positions, the consumer is
    woken, acknowledges, drains the channel until QD_ERR_AGAIN and goes back to
    poll; producer 2 completes with QD_OK, and the item stays in the channel with
    the event counter at 0. *)
Theorem lost_wakeup : exists w,
  run (full_send 1 [65] ++ [ATrySend 2 [66]] ++ replicate 3 (AProducer 2 false)
       ++ [AAck] ++ full_recv ++ full_recv ++ replicate 5 (AProducer 2 false)) (new_world demo_channel) = Ok w /\
  get_producer w 2 = PIdle (Some QD_OK) /\ the_consumer w = CIdle (Some QD_ERR_AGAIN) /\
  qd_channel_size (Some (chan w)) = 1 /\ eventfd (chan w) = 0.
Proof. eexists. split; [vm_compute; reflexivity|]. by vm_compute. Qed.

(** A full channel that is empty.  A producer reads the tail, other calls
    move both positions, and the producer then reads a head beyond its tail: the
    unsigned difference wraps around and the call returns QD_ERR_BUSY although the
    channel is empty. *)
Theorem busy_when_empty : exists w,
  run ([ATrySend 2 [66]] ++ replicate 2 (AProducer 2 false) ++ full_send 1 [65] ++ full_recv
       ++ replicate 2 (AProducer 2 false)) (new_world demo_channel) = Ok w /\
  get_producer w 2 = PIdle (Some QD_ERR_BUSY) /\ qd_channel_size (Some (chan w)) = 0.
Proof. eexists. split; [vm_compute; reflexivity|]. by vm_compute. Qed.

(** A blocked sender is not woken by a receive.  A producer that waits in
    qd_channel_send stays there under every sequence of steps of the other threads
    that contains neither the broadcast of qd_channel_close nor a spurious wake-up of
    that producer (POSIX permits one, and does not promise it): neither a send nor a
    receive signals [not_full], so that space in the channel does not end the wait. *)
Theorem waiting_until_close l w p x w' :
  get_producer w p = PSendWait x ->
  (forall a, a ∈ l -> a <> ABroadcast /\ a <> AProducer p true) -> run l w = Ok w' ->
  get_producer w' p = PSendWait x.
Proof.
  revert w. induction l as [|a l IH]; intros w Hp Hl E; [by injection E as <-|].
  cbn [run] in E. apply obind_ok in E as (w1 & E1 & E2).
  apply (IH w1); [|intros b Hb; by apply Hl, list_elem_of_further|done].
  assert (forall q pr c new, q <> p -> get_producer (put_producer q pr c new w) p = PSendWait x) as Hother.
  { intros q pr c new Hne. unfold get_producer. simpl. by rewrite lookup_insert_ne by done. }
  destruct (Hl a (list_elem_of_here _ _)) as [Hl1 Hl2].
  destruct a as [q y|q y|q weak| |max| |gu| | |]; cbn [step] in E1; try done.
  - destruct (decide (q = p)) as [->|Hne]; [rewrite Hp in E1; by injection E1 as <-|].
    destruct (get_producer w q); injection E1 as <-; auto.
  - destruct (decide (q = p)) as [->|Hne]; [rewrite Hp in E1; by injection E1 as <-|].
    destruct (get_producer w q); injection E1 as <-; auto.
  - apply obind_ok in E1 as ([pr c] & E1 & [= <-]). destruct (decide (q = p)) as [->|Hne]; [|auto].
    rewrite Hp in E1. destruct weak; [done|]. injection E1 as <- <-. unfold get_producer. simpl.
    by rewrite lookup_insert_eq.
  - destruct (the_consumer w); by injection E1 as <-.
  - destruct (the_consumer w); by injection E1 as <-.
  - destruct (the_consumer w); by injection E1 as <-.
  - apply obind_ok in E1 as ([k c] & _ & [= <-]). done.
  - destruct (the_consumer w); by injection E1 as <-.
  - by injection E1 as <-.
Qed.

(** Two items fill the channel, a third send blocks; then both items are received. *)
Definition world_after (l : list action) (w : world) : world :=
  match run l w with Ok w => w | _ => w end.
Definition drain_run : list action := full_recv ++ full_recv ++ replicate 20 (AProducer 2 false).
Definition blocked_world : world :=
  world_after (full_send 1 [65] ++ full_send 1 [66] ++ [ASend 2 [67]] ++ replicate 12 (AProducer 2 false))
    (new_world demo_channel).

Lemma waiting_until_close_witness :
  get_producer blocked_world 2 = PSendWait [67] /\ qd_channel_size (Some (chan blocked_world)) = 2 /\
  run drain_run blocked_world = Ok (world_after drain_run blocked_world) /\
  get_producer (world_after drain_run blocked_world) 2 = PSendWait [67] /\
  qd_channel_size (Some (chan (world_after drain_run blocked_world))) = 0.
Proof.
  assert (run drain_run blocked_world = Ok (world_after drain_run blocked_world)) as E by (vm_compute; reflexivity).
  assert (get_producer blocked_world 2 = PSendWait [67]) as Hb by (vm_compute; reflexivity).
  split; [exact Hb|]. split; [vm_compute; reflexivity|]. split; [exact E|]. split; [|vm_compute; reflexivity].
  apply (waiting_until_close drain_run blocked_world); [exact Hb| |exact E].
  intros a Ha. split; intros ->; vm_compute in Ha;
    repeat (apply elem_of_cons in Ha as [Ha|Ha]; [discriminate Ha|]); by apply elem_of_nil in Ha.
Defined.
