(* ===== verification/Bytes.v ===== *)
(** * Bytes in memory

    Integers in the byte order of a little-endian machine, the conversions to network
    order, single bytes of an array, and the padding copy of string.h. *)

From S2P Require Import Prelude.

(** ** Integers in memory, little-endian *)

Fixpoint le (n : nat) (v : Z) : list Z :=
  match n with O => [] | S n => v mod 256 :: le n (v / 256) end.

Fixpoint un_le (l : list Z) : Z :=
  match l with [] => 0 | b :: l => b + 256 * un_le l end.

Definition is_byte (b : Z) : Prop := 0 <= b < 256.
#[export] Instance is_byte_dec b : Decision (is_byte b).
Proof. unfold is_byte. apply _. Defined.

Lemma length_le n v : length (le n v) = n.
Proof. revert v. induction n; intros v; simpl; auto. Qed.

Lemma un_le_le n : forall v, 0 <= v < 256 ^ Z.of_nat n -> un_le (le n v) = v.
Proof.
  induction n as [|n IH]; intros v Hv; [simpl in *; lia|]. cbn [le un_le].
  rewrite Nat2Z.inj_succ, Z.pow_succ_r in Hv by lia.
  rewrite IH by (split; [apply Z.div_pos; lia | apply Z.div_lt_upper_bound; lia]).
  pose proof (Z.div_mod v 256). lia.
Qed.

Lemma un_le_range l : Forall is_byte l -> 0 <= un_le l < 256 ^ Z.of_nat (length l).
Proof.
  induction 1 as [|b l Hb Hl IH]; [done|]. cbn [un_le length]. unfold is_byte in Hb.
  rewrite Nat2Z.inj_succ, Z.pow_succ_r by lia. lia.
Qed.

Lemma le_bytes n v : Forall is_byte (le n v).
Proof.
  revert v. induction n as [|n IH]; intros v; simpl; [by apply List.Forall_nil|].
  apply Forall_cons. split; [|done]. unfold is_byte. apply Z.mod_pos_bound. lia.
Qed.

Lemma le_un_le l : Forall is_byte l -> le (length l) (un_le l) = l.
Proof.
  induction 1 as [|b l Hb Hl IH]; [done|]. cbn [length le un_le]. unfold is_byte in Hb. f_equal.
  - rewrite (Z.mul_comm 256), Z.mod_add by lia. apply Z.mod_small. lia.
  - rewrite (Z.mul_comm 256), Z.div_add by lia. rewrite Z.div_small by lia. done.
Qed.

(** ** Network byte order *)

Definition htonl (v : Z) : Z := un_le (rev (le 4 v)).
Definition ntohl (v : Z) : Z := htonl v.
Definition htons (v : Z) : Z := un_le (rev (le 2 v)).
#[global] Arguments htonl : simpl never.
#[global] Arguments ntohl : simpl never.

Lemma le_rev_bytes n v : Forall is_byte (rev (le n v)).
Proof. apply List.Forall_rev, le_bytes. Qed.

Lemma htonl_range v : is_u32 (htonl v).
Proof.
  unfold htonl. pose proof (un_le_range _ (le_rev_bytes 4 v)) as H. rewrite List.length_rev, length_le in H.
  unfold is_u32, u32_mod. exact H.
Qed.

(** The bytes of a converted word are those of the word in the other order. *)
Lemma le_htonl v : le 4 (htonl v) = rev (le 4 v).
Proof.
  unfold htonl. rewrite <- (le_un_le (rev (le 4 v)) (le_rev_bytes 4 v)) at 2.
  by rewrite List.length_rev, length_le.
Qed.

Lemma htonl_invol v : is_u32 v -> htonl (htonl v) = v.
Proof.
  intros Hv. unfold htonl at 1. rewrite le_htonl, rev_involutive. apply un_le_le.
  unfold is_u32, u32_mod in Hv. simpl. lia.
Qed.

Lemma ntohl_htonl v : is_u32 v -> ntohl (htonl v) = v.
Proof. apply htonl_invol. Qed.
Lemma htonl_ntohl v : is_u32 v -> htonl (ntohl v) = v.
Proof. apply htonl_invol. Qed.

Lemma ntohl_inj a b : is_u32 a -> is_u32 b -> ntohl a = ntohl b -> a = b.
Proof. intros Ha Hb E. rewrite <- (htonl_ntohl a Ha), E. by apply htonl_ntohl. Qed.

#[export] Hint Resolve htonl_range le_bytes : qd.

(** ** One byte of an array *)

Definition byte_at (mem : list Z) (i : Z) : outcome Z :=
  if 0 <=? i then of_option (mem !! Z.to_nat i) else Undef.

Lemma byte_at_ok mem i b : 0 <= i -> mem !! Z.to_nat i = Some b -> byte_at mem i = Ok b.
Proof. intros Hi E. unfold byte_at. zcase; [|lia]. by rewrite E. Qed.

Lemma byte_at_inv mem i b : byte_at mem i = Ok b -> 0 <= i < Z.of_nat (length mem) /\ mem !! Z.to_nat i = Some b.
Proof.
  unfold byte_at. zcase; [|done]. destruct (mem !! Z.to_nat i) as [c|] eqn:E; [|done]. intros [= <-].
  split; [|done]. apply lookup_lt_Some in E. lia.
Qed.

Lemma byte_at_in mem i : 0 <= i < Z.of_nat (length mem) -> exists b, byte_at mem i = Ok b.
Proof.
  intros Hi. destruct (lookup_lt_is_Some_2 mem (Z.to_nat i) ltac:(lia)) as [b E]. exists b. apply byte_at_ok; [lia|done].
Qed.

(** Reading and writing at the end of a known prefix. *)
Lemma byte_at_app pre b rest i : i = Z.of_nat (length pre) -> byte_at (pre ++ b :: rest) i = Ok b.
Proof. intros ->. apply byte_at_ok; [lia|]. rewrite Nat2Z.id. by apply list_lookup_middle. Qed.

Lemma byte_at_app1 pre a b rest i : i = Z.of_nat (length pre) + 1 -> byte_at (pre ++ a :: b :: rest) i = Ok b.
Proof. intros ->. change (pre ++ a :: b :: rest) with (pre ++ [a] ++ b :: rest). rewrite (assoc_L (++)). apply byte_at_app. rewrite length_app. simpl. lia. Qed.

Lemma load_app (pre d rest : list Z) i n :
  i = Z.of_nat (length pre) -> n = Z.of_nat (length d) -> load (pre ++ d ++ rest) i n = Ok d.
Proof.
  intros -> ->. rewrite load_ok by (rewrite ?length_app; lia). rewrite !Nat2Z.id, drop_app_length, take_app_length. done.
Qed.

Lemma store_app (pre old d rest : list Z) i :
  i = Z.of_nat (length pre) -> length old = length d -> store (pre ++ old ++ rest) i d = Ok (pre ++ d ++ rest).
Proof.
  intros -> E. rewrite store_ok by (rewrite ?length_app; lia). rewrite Nat2Z.id, take_app_length, <- E. do 3 f_equal.
  rewrite drop_app_add. apply drop_app_length.
Qed.

(** ** Copies of string.h *)

Definition zeros (n : Z) : list Z := replicate (Z.to_nat n) 0.

(** [strncpy(dst, s, n)]: the bytes of the string [s], cut at [n] and padded with zeros. *)
Definition strncpy (s : list Z) (n : Z) : list Z :=
  let t := take (Z.to_nat n) s in t ++ zeros (n - Z.of_nat (length t)).

Lemma length_strncpy s n : 0 <= n -> length (strncpy s n) = Z.to_nat n.
Proof. intros Hn. unfold strncpy, zeros. rewrite length_app, length_replicate, length_take. lia. Qed.
