(* ===== verification/Ipc.v ===== *)
(** * src/ipc/qd_ipc_protocol.c and the server side of src/ipc/qd_ipc_unix.c

    The IPC message format (a packed 28-byte header in the byte order of a
    little-endian machine, a 64-byte service name, the payload), and the
    connection that reassembles messages from a stream socket and dispatches them
    to handlers.  The socket is a queue of chunks: a read takes bytes of the first
    chunk, so that every way the kernel may cut the stream is some chunking. *)

From S2P Require Import Prelude Common Bytes.

Definition QD_IPC_MAGIC : Z := 0x51444950.
Definition QD_IPC_VERSION : Z := 1.
Definition QD_IPC_MAX_MSG_SIZE : Z := 64 * 1024.
Definition QD_IPC_MAX_NAME_LEN : Z := 64.
Definition QD_IPC_MSG_RESPONSE : Z := 5.

Record qd_ipc_header := mkHeader {
  magic : Z;
  version : Z;
  msg_type : Z;
  msg_id : Z;
  payload_len : Z;
  hflags : Z;
  timestamp : Z
}.

Definition sizeof_qd_ipc_header : Z := 28.

(** [payload]: the block the pointer refers to, or NULL. *)
Record qd_ipc_msg := mkMsg {
  header : qd_ipc_header;
  service : list Z;
  payload : option (list Z);
  payload_cap : Z;
  owned : Z
}.

(** The bytes of a header and the header of 28 bytes ([memcpy] in both directions). *)
Definition header_bytes (h : qd_ipc_header) : list Z :=
  le 4 (magic h) ++ le 2 (version h) ++ le 2 (msg_type h) ++ le 4 (msg_id h) ++
  le 4 (payload_len h) ++ le 4 (hflags h) ++ le 8 (timestamp h).

Definition field (l : list Z) (off len : nat) : Z := un_le (take len (drop off l)).

Definition bytes_header (l : list Z) : qd_ipc_header :=
  mkHeader (field l 0 4) (field l 4 2) (field l 6 2) (field l 8 4) (field l 12 4) (field l 16 4) (field l 20 8).

(** ** Message life cycle *)

(** [now] is the clock reading in nanoseconds. *)
Definition qd_ipc_msg_init (now type : Z) : qd_ipc_msg :=
  mkMsg (mkHeader QD_IPC_MAGIC QD_IPC_VERSION (u16 type) 0 0 0 (u64 now)) (zeros QD_IPC_MAX_NAME_LEN) None 0 0.

Definition qd_ipc_msg_create (calloc_ok : bool) (now type : Z) : option qd_ipc_msg :=
  if calloc_ok then Some (qd_ipc_msg_init now type) else None.

Section allocation.
(** A malloc of [n] bytes returns NULL or a block with some content. *)
Variable malloc : Z -> option (list Z).

(** [src] is what the caller's pointer refers to. *)
Definition qd_ipc_msg_set_payload (msg : qd_ipc_msg) (src : list Z) (len : Z) : outcome (Z * qd_ipc_msg) :=
  if QD_IPC_MAX_MSG_SIZE <? len then Ok (QD_ERR_INVAL, msg) else
  let h := header msg in
  let h' := mkHeader (magic h) (version h) (msg_type h) (msg_id h) (u32 len) (hflags h) (timestamp h) in
  if 0 <? len then
    match malloc len with
    | None => Ok (QD_ERR_NOMEM, mkMsg h (service msg) None (payload_cap msg) (owned msg))
    | Some blk =>
      let! data := load src 0 len in
      let! blk := store blk 0 data in
      Ok (QD_OK, mkMsg h' (service msg) (Some blk) len 1)
    end
  else Ok (QD_OK, mkMsg h' (service msg) None 0 1).

Definition qd_ipc_msg_create_with_payload (calloc_ok : bool) (now type : Z) (src : option (list Z)) (len : Z)
  : outcome (option qd_ipc_msg) :=
  match qd_ipc_msg_create calloc_ok now type with
  | None => Ok None
  | Some msg =>
    match src with
    | Some p =>
      if 0 <? len then
        let! (r, msg) := qd_ipc_msg_set_payload msg p len in
        Ok (if negb (r =? 0) then None else Some msg)
      else Ok (Some msg)
    | None => Ok (Some msg)
    end
  end.

(** The last byte of the array keeps its old value in strncpy and is then cleared. *)
Definition qd_ipc_msg_set_service (msg : qd_ipc_msg) (s : list Z) : qd_ipc_msg :=
  mkMsg (header msg) (strncpy s (QD_IPC_MAX_NAME_LEN - 1) ++ [0]) (payload msg) (payload_cap msg) (owned msg).

(** ** Serialization *)

Definition qd_ipc_msg_total_size (h : qd_ipc_header) : Z :=
  sizeof_qd_ipc_header + QD_IPC_MAX_NAME_LEN +64 payload_len h.

(** The result is the status and, on success, the buffer with its length. *)
Definition qd_ipc_msg_serialize (msg : qd_ipc_msg) : outcome (Z * option (list Z)) :=
  let h := header msg in
  let total_len := qd_ipc_msg_total_size h in
  match malloc total_len with
  | None => Ok (QD_ERR_NOMEM, None)
  | Some buf =>
    let! buf := store buf 0 (header_bytes h) in
    let! svc := load (service msg) 0 QD_IPC_MAX_NAME_LEN in
    let! buf := store buf sizeof_qd_ipc_header svc in
    let! buf :=
      match payload msg with
      | Some p =>
        if 0 <? payload_len h then
          let! data := load p 0 (payload_len h) in
          store buf (sizeof_qd_ipc_header + QD_IPC_MAX_NAME_LEN) data
        else Ok buf
      | None => Ok buf
      end in
    Ok (QD_OK, Some buf)
  end.

Definition set_header (h : qd_ipc_header) (m : qd_ipc_msg) : qd_ipc_msg :=
  mkMsg h (service m) (payload m) (payload_cap m) (owned m).
Definition set_service (s : list Z) (m : qd_ipc_msg) : qd_ipc_msg :=
  mkMsg (header m) s (payload m) (payload_cap m) (owned m).

(** [buffer] is the caller's block, [len] the length it passes; the message is
    changed field by field, also when an error is returned. *)
Definition qd_ipc_msg_deserialize (buffer : list Z) (len : Z) (msg : qd_ipc_msg) : outcome (Z * qd_ipc_msg) :=
  let min_len := sizeof_qd_ipc_header + QD_IPC_MAX_NAME_LEN in
  if len <? min_len then Ok (QD_ERR_PROTO, msg) else
  let! hb := load buffer 0 sizeof_qd_ipc_header in
  let h := bytes_header hb in
  let msg := set_header h msg in
  if negb (magic h =? QD_IPC_MAGIC) then Ok (QD_ERR_PROTO, msg) else
  if negb (version h =? QD_IPC_VERSION) then Ok (QD_ERR_PROTO, msg) else
  if QD_IPC_MAX_MSG_SIZE <? payload_len h then Ok (QD_ERR_PROTO, msg) else
  if len <? (min_len +64 payload_len h) then Ok (QD_ERR_PROTO, msg) else
  let! svc := load buffer sizeof_qd_ipc_header QD_IPC_MAX_NAME_LEN in
  let! svc := store svc (QD_IPC_MAX_NAME_LEN - 1) [0] in
  let msg := set_service svc msg in
  if 0 <? payload_len h then
    match malloc (payload_len h) with
    | None => Ok (QD_ERR_NOMEM, mkMsg h svc None (payload_cap msg) (owned msg))
    | Some blk =>
      let! data := load buffer min_len (payload_len h) in
      let! blk := store blk 0 data in
      Ok (QD_OK, mkMsg h svc (Some blk) (payload_len h) 1)
    end
  else Ok (QD_OK, msg).

Definition qd_ipc_validate_header (buffer : list Z) (len : Z) : outcome Z :=
  if len <? sizeof_qd_ipc_header then Ok QD_ERR_PROTO else
  let! hb := load buffer 0 sizeof_qd_ipc_header in
  let h := bytes_header hb in
  if negb (magic h =? QD_IPC_MAGIC) then Ok QD_ERR_PROTO else
  if negb (version h =? QD_IPC_VERSION) then Ok QD_ERR_PROTO else
  if QD_IPC_MAX_MSG_SIZE <? payload_len h then Ok QD_ERR_PROTO else
  Ok QD_OK.

(** ** The server's connections *)

(** A handler is known by its number; [services] is the list of registered names. *)
Record qd_ipc_server := mkServer {
  handlers : gmap Z nat;
  services : list (list Z * nat);
  total_messages : Z
}.

Record qd_ipc_conn := mkConn {
  recv_buf : list Z;
  recv_len : Z;
  recv_cap : Z;
  msgs_received : Z;
  bytes_received : Z;
  send_buf : list Z;
  send_len : Z;
  send_cap : Z
}.

(** [rb] and [sb] are the answers to the two calls of malloc. *)
Definition conn_create (calloc_ok : bool) (rb sb : option (list Z)) (recv_buf_size send_buf_size : Z) : option qd_ipc_conn :=
  if negb calloc_ok then None else
  match rb with
  | None => None
  | Some r =>
    match sb with
    | None => None
    | Some s => Some (mkConn r 0 recv_buf_size 0 0 s 0 send_buf_size)
    end
  end.

(** The string in an array: the bytes before the first zero. *)
Fixpoint c_string (l : list Z) : list Z :=
  match l with [] => [] | b :: l => if b =? 0 then [] else b :: c_string l end.

Fixpoint find_service (svcs : list (list Z * nat)) (name : list Z) : option nat :=
  match svcs with
  | [] => None
  | (n, h) :: svcs => if decide (c_string n = c_string name) then Some h else find_service svcs name
  end.

(** The handler process_message calls for a message, if any. *)
Definition process_message (server : qd_ipc_server) (msg : qd_ipc_msg) : option nat :=
  let t := msg_type (header msg) in
  let by_service :=
    match service msg with
    | [] => None
    | b :: _ => if negb (b =? 0) then find_service (services server) (service msg) else None
    end in
  if (0 <? t) && (t <? 16) then
    match handlers server !! t with Some h => Some h | None => by_service end
  else by_service.

Definition qd_ipc_server_set_handler (server : qd_ipc_server) (type : Z) (h : option nat) : qd_ipc_server :=
  if (type <=? 0) || (16 <=? type) then server else
  mkServer (match h with Some h => <[type:=h]> (handlers server) | None => delete type (handlers server) end)
    (services server) (total_messages server).

Definition qd_ipc_server_register_service (calloc_ok : bool) (server : qd_ipc_server) (name : list Z) (h : nat)
  : Z * qd_ipc_server :=
  if negb calloc_ok then (QD_ERR_NOMEM, server) else
  (QD_OK, mkServer (handlers server)
            ((strncpy name (QD_IPC_MAX_NAME_LEN - 1) ++ [0], h) :: services server) (total_messages server)).

Fixpoint remove_service (svcs : list (list Z * nat)) (name : list Z) : option (list (list Z * nat)) :=
  match svcs with
  | [] => None
  | (n, h) :: svcs =>
    if decide (c_string n = name) then Some svcs
    else match remove_service svcs name with Some l => Some ((n, h) :: l) | None => None end
  end.

Definition qd_ipc_server_unregister_service (server : qd_ipc_server) (name : list Z) : Z * qd_ipc_server :=
  match remove_service (services server) name with
  | Some l => (QD_OK, mkServer (handlers server) l (total_messages server))
  | None => (QD_ERR_NOENT, server)
  end.

(** ** conn_read_callback

    The first loop fills the buffer.  [eof] tells what a read of an empty queue
    returns: end of file or EAGAIN.  None: the connection was closed. *)
Fixpoint read_loop (fuel : nat) (eof : bool) (sock : list (list Z)) (conn : qd_ipc_conn)
  : outcome (list (list Z) * option qd_ipc_conn) :=
  let space := recv_cap conn -64 recv_len conn in
  if space =? 0 then Ok (sock, Some conn) else
  match fuel with
  | O => Fuel
  | S fuel =>
    match sock with
    | [] => Ok ([], if eof then None else Some conn)
    | ch :: rest =>
      let data := take (Z.to_nat space) ch in
      let left := drop (Z.to_nat space) ch in
      let n := Z.of_nat (length data) in
      let! b := store (recv_buf conn) (recv_len conn) data in
      read_loop fuel eof (match left with [] => rest | _ => left :: rest end)
        (mkConn b (recv_len conn +64 n) (recv_cap conn) (msgs_received conn) (bytes_received conn +64 n) (send_buf conn) (send_len conn) (send_cap conn))
    end
  end.

(** The second loop takes the complete messages out; [log] collects them with the
    handlers that were called. *)
Fixpoint message_loop (fuel : nat) (server : qd_ipc_server) (conn : qd_ipc_conn)
    (log : list (option nat * qd_ipc_msg))
  : outcome (qd_ipc_server * option qd_ipc_conn * list (option nat * qd_ipc_msg)) :=
  if recv_len conn <? sizeof_qd_ipc_header then Ok (server, Some conn, log) else
  let! hb := load (recv_buf conn) 0 sizeof_qd_ipc_header in
  let h := bytes_header hb in
  if negb (magic h =? QD_IPC_MAGIC) then Ok (server, None, log) else
  let msg_size := sizeof_qd_ipc_header + QD_IPC_MAX_NAME_LEN +64 payload_len h in
  if recv_len conn <? msg_size then Ok (server, Some conn, log) else
  match fuel with
  | O => Fuel
  | S fuel =>
    let msg0 := mkMsg (mkHeader 0 0 0 0 0 0 0) (zeros QD_IPC_MAX_NAME_LEN) None 0 0 in
    let! (r, msg) := qd_ipc_msg_deserialize (recv_buf conn) msg_size msg0 in
    if negb (r =? QD_OK) then Ok (server, None, log) else
    let server := mkServer (handlers server) (services server) (total_messages server +64 1) in
    let log := log ++ [(process_message server msg, msg)] in
    let! b :=
      if msg_size <? recv_len conn then
        let! data := load (recv_buf conn) msg_size (recv_len conn -64 msg_size) in
        store (recv_buf conn) 0 data
      else Ok (recv_buf conn) in
    message_loop fuel server
      (mkConn b (recv_len conn -64 msg_size) (recv_cap conn) (msgs_received conn +64 1) (bytes_received conn)
         (send_buf conn) (send_len conn) (send_cap conn)) log
  end.

Definition conn_read_callback (fuel : nat) (error_event eof : bool) (sock : list (list Z))
    (server : qd_ipc_server) (conn : qd_ipc_conn)
  : outcome (list (list Z) * qd_ipc_server * option qd_ipc_conn * list (option nat * qd_ipc_msg)) :=
  if error_event then Ok (sock, server, None, []) else
  let! (sock, co) := read_loop fuel eof sock conn in
  match co with
  | None => Ok (sock, server, None, [])
  | Some conn =>
    let! (server, co, log) := message_loop fuel server conn [] in
    Ok (sock, server, co, log)
  end.
End allocation.

(** ** The codec *)

(** The fields fit their C types. *)
Definition header_fits (h : qd_ipc_header) : Prop :=
  is_u32 (magic h) /\ 0 <= version h < u16_mod /\ 0 <= msg_type h < u16_mod /\ is_u32 (msg_id h) /\
  is_u32 (payload_len h) /\ is_u32 (hflags h) /\ is_u64 (timestamp h).

Lemma header_bytes_length h : length (header_bytes h) = 28%nat.
Proof. unfold header_bytes. rewrite !length_app, !length_le. done. Qed.

Lemma field_app_r l l' off len :
  (length l <= off)%nat -> field (l ++ l') off len = field l' (off - length l) len.
Proof. intros H. unfold field. by rewrite drop_app_ge. Qed.

Lemma field_le n v l : 0 <= v < 256 ^ Z.of_nat n -> field (le n v ++ l) 0 n = v.
Proof.
  intros Hv. unfold field. rewrite drop_0, take_app_le by (rewrite length_le; lia).
  rewrite take_ge by (rewrite length_le; lia). by apply un_le_le.
Qed.

Lemma header_roundtrip h l : header_fits h -> bytes_header (header_bytes h ++ l) = h.
Proof.
  intros (H1 & H2 & H3 & H4 & H5 & H6 & H7). unfold_widths. unfold bytes_header, header_bytes.
  rewrite <- !app_assoc. destruct h; cbn [magic version msg_type msg_id payload_len hflags timestamp] in *.
  f_equal; repeat (rewrite field_app_r by (rewrite ?length_le; lia); rewrite ?length_le; cbn [Nat.sub]);
    apply field_le; cbn; lia.
Qed.

(** ** Messages that set_payload and set_service build *)

Record msg_ok (m : qd_ipc_msg) : Prop := {
  mo_fits : header_fits (header m);
  mo_magic : magic (header m) = QD_IPC_MAGIC;
  mo_version : version (header m) = QD_IPC_VERSION;
  mo_len : payload_len (header m) <= QD_IPC_MAX_MSG_SIZE;
  mo_service : exists s, service m = s ++ [0] /\ length s = 63%nat;
  mo_payload : match payload m with
               | Some p => Z.of_nat (length p) = payload_len (header m) /\ p <> []
               | None => payload_len (header m) = 0
               end
}.

Definition payload_bytes (m : qd_ipc_msg) : list Z := default [] (payload m).

(** The message as a receiver has it that started from [msg0]. *)
Definition received (msg0 m : qd_ipc_msg) : qd_ipc_msg :=
  match payload m with
  | Some p => mkMsg (header m) (service m) (Some p) (payload_len (header m)) 1
  | None => mkMsg (header m) (service m) None (payload_cap msg0) (owned msg0)
  end.

(** The bytes of a message on the wire. *)
Definition wire (m : qd_ipc_msg) : list Z :=
  header_bytes (header m) ++ service m ++ payload_bytes m.

Lemma msg_lengths m : msg_ok m ->
  length (service m) = 64%nat /\ Z.of_nat (length (payload_bytes m)) = payload_len (header m) /\
  0 <= payload_len (header m) <= 65536 /\
  Z.of_nat (length (wire m)) = 92 + payload_len (header m) /\
  qd_ipc_msg_total_size (header m) = 92 + payload_len (header m).
Proof.
  intros [Hf _ _ Hl (s & Hs & Hs63) Hp].
  assert (length (service m) = 64%nat) as E by (rewrite Hs, length_app; simpl; lia).
  assert (Z.of_nat (length (payload_bytes m)) = payload_len (header m)) as E2.
  { unfold payload_bytes. destruct (payload m); simpl; [by destruct Hp|done]. }
  unfold QD_IPC_MAX_MSG_SIZE in Hl. unfold wire. rewrite !length_app, header_bytes_length, E.
  unfold qd_ipc_msg_total_size, sizeof_qd_ipc_header, QD_IPC_MAX_NAME_LEN.
  rewrite u64_small by (unfold_widths; lia). lia.
Qed.

Lemma store_prefix {A} (a b rest : list A) :
  length b = length a -> store (a ++ rest) 0 b = Ok (b ++ rest).
Proof.
  intros E. rewrite store_ok by (rewrite ?length_app; lia). simpl.
  rewrite drop_app_ge by lia. rewrite E. replace (length a - length a)%nat with 0%nat by lia. by rewrite drop_0.
Qed.

Lemma store_middle {A} (pre a b rest : list A) pos :
  pos = Z.of_nat (length pre) -> length b = length a -> store (pre ++ a ++ rest) pos b = Ok (pre ++ b ++ rest).
Proof.
  intros -> E. rewrite store_ok by (rewrite ?length_app; lia). rewrite Nat2Z.id. f_equal.
  rewrite take_app_le, take_ge by lia. f_equal. f_equal.
  rewrite !drop_app_ge by (rewrite ?length_app; lia).
  rewrite E. replace (length pre + length a - length pre - length a)%nat with 0%nat by lia. by rewrite drop_0.
Qed.

Lemma load_middle {A} (pre a rest : list A) pos len :
  pos = Z.of_nat (length pre) -> len = Z.of_nat (length a) -> load (pre ++ a ++ rest) pos len = Ok a.
Proof.
  intros -> ->. rewrite load_ok by (rewrite ?length_app; lia). rewrite !Nat2Z.id. f_equal.
  rewrite drop_app_ge by lia. rewrite Nat.sub_diag, drop_0. rewrite take_app_le, take_ge; [done|lia|lia].
Qed.

Section with_malloc.
Context (malloc : Z -> option (list Z)).
Hypothesis malloc_length : forall n b, malloc n = Some b -> Z.of_nat (length b) = n.

Lemma serialize_wire m buf :
  msg_ok m -> malloc (qd_ipc_msg_total_size (header m)) = Some buf ->
  qd_ipc_msg_serialize malloc m = Ok (QD_OK, Some (wire m)).
Proof.
  intros Hok Hb. pose proof (malloc_length _ _ Hb) as Hlen.
  destruct (msg_lengths m Hok) as (Hs & Hp & Hr & Hw & Ht). rewrite Ht in Hlen.
  unfold qd_ipc_msg_serialize. rewrite Hb.
  pose proof (header_bytes_length (header m)) as Hh.
  rewrite <- (take_drop 28 buf). rewrite store_prefix by (rewrite length_take; lia). cbn [obind].
  assert (load (service m) 0 QD_IPC_MAX_NAME_LEN = Ok (service m)) as ->.
  { unfold QD_IPC_MAX_NAME_LEN. replace 64 with (Z.of_nat (length (service m))) by lia. apply load_all. }
  cbn [obind]. rewrite <- (take_drop 64 (drop 28 buf)).
  rewrite store_middle by (rewrite ?length_take, ?length_drop; unfold sizeof_qd_ipc_header; lia). cbn [obind].
  rewrite drop_drop. set (tl := drop (28 + 64) buf).
  assert (Z.of_nat (length tl) = payload_len (header m)) as Htl by (unfold tl; rewrite length_drop; lia).
  destruct Hok as [_ _ _ _ _ Hpl]. unfold wire, payload_bytes in *. destruct (payload m) as [p|].
  - destruct Hpl as [Hpl Hne]. assert (0 < length p)%nat by (destruct p; [done|simpl; lia]).
    destruct (Z.ltb_spec 0 (payload_len (header m))); [|lia]. rewrite <- Hpl, load_all. cbn [obind].
    rewrite (app_assoc (header_bytes _)), <- (app_nil_r tl).
    rewrite store_middle by (rewrite ?length_app; unfold sizeof_qd_ipc_header, QD_IPC_MAX_NAME_LEN; lia).
    cbn [obind]. by rewrite app_nil_r, <- app_assoc.
  - assert (tl = []) as -> by (destruct tl; [done|simpl in Htl; lia]). done.
Qed.

(** Reading a message back from the front of a buffer into a zeroed structure. *)
Lemma deserialize_wire m rest len msg0 blk :
  msg_ok m -> payload msg0 = None -> Z.of_nat (length (wire m)) <= len ->
  (0 < payload_len (header m) -> malloc (payload_len (header m)) = Some blk) ->
  qd_ipc_msg_deserialize malloc (wire m ++ rest) len msg0 = Ok (QD_OK, received msg0 m).
Proof.
  intros Hok H0 Hlen Hmal. destruct (msg_lengths m Hok) as (Hs & Hp & Hr & Hw & Ht).
  destruct Hok as [Hf Hmg Hv Hl (s & Hsv & Hs63) Hpl].
  unfold qd_ipc_msg_deserialize. unfold sizeof_qd_ipc_header, QD_IPC_MAX_NAME_LEN in *.
  destruct (Z.ltb_spec len (28 + 64)); [lia|].
  assert (load (wire m ++ rest) 0 28 = Ok (header_bytes (header m))) as ->.
  { unfold wire. rewrite <- app_assoc. apply (load_middle []); [done|by rewrite header_bytes_length]. }
  cbn [obind].
  assert (bytes_header (header_bytes (header m)) = header m) as Eh.
  { rewrite <- (app_nil_r (header_bytes _)). by apply header_roundtrip. }
  rewrite Eh, Hmg, Hv, !Z.eqb_refl. cbn [negb].
  destruct (Z.ltb_spec QD_IPC_MAX_MSG_SIZE (payload_len (header m))); [lia|].
  rewrite (u64_small (28 + 64 + _)) by (unfold_widths; lia).
  destruct (Z.ltb_spec len (28 + 64 + payload_len (header m))); [lia|].
  assert (load (wire m ++ rest) 28 64 = Ok (service m)) as ->.
  { unfold wire. rewrite <- !app_assoc. apply load_middle; [by rewrite header_bytes_length|by rewrite Hs]. }
  cbn [obind].
  assert (store (service m) (64 - 1) [0] = Ok (service m)) as ->.
  { rewrite Hsv. rewrite <- (app_nil_r [0]) at 1. rewrite store_middle; [by rewrite app_nil_r|lia|done]. }
  cbn [obind]. unfold payload_bytes in *.
  destruct (payload m) as [p|] eqn:Ep.
  - destruct Hpl as [Hpl Hne]. assert (0 < length p)%nat by (destruct p; [done|simpl; lia]).
    destruct (Z.ltb_spec 0 (payload_len (header m))) as [Hpos|]; [|lia]. rewrite (Hmal Hpos).
    assert (load (wire m ++ rest) (28 + 64) (payload_len (header m)) = Ok p) as ->.
    { replace (wire m) with (header_bytes (header m) ++ service m ++ p) by (unfold wire, payload_bytes; by rewrite Ep).
      rewrite <- !app_assoc, (app_assoc (header_bytes _)).
      apply load_middle; [rewrite length_app, header_bytes_length; lia|lia]. }
    cbn [obind]. pose proof (malloc_length _ _ (Hmal Hpos)) as Hbl.
    rewrite <- (app_nil_r blk), store_prefix by lia. cbn [obind]. rewrite app_nil_r.
    unfold received. by rewrite Ep.
  - rewrite Hpl. cbn [Z.ltb Z.compare]. unfold received, set_service, set_header. simpl. by rewrite Ep, H0.
Qed.

(** ** Reassembly *)

Definition conn_ok (c : qd_ipc_conn) : Prop :=
  Z.of_nat (length (recv_buf c)) = recv_cap c /\ 0 <= recv_len c <= recv_cap c /\ recv_cap c < u64_mod.

(** The bytes received and not yet consumed. *)
Definition pending (c : qd_ipc_conn) : list Z := take (Z.to_nat (recv_len c)) (recv_buf c).

Definition chunks_ok (sock : list (list Z)) : Prop := Forall (fun ch => ch <> []) sock.

Lemma pending_length c : conn_ok c -> Z.of_nat (length (pending c)) = recv_len c.
Proof. intros (? & ? & ?). unfold pending. rewrite length_take. lia. Qed.

Lemma read_loop_spec fuel : forall sock c,
  conn_ok c -> chunks_ok sock -> (length (mjoin sock) < fuel)%nat ->
  exists sock' c', read_loop fuel false sock c = Ok (sock', Some c') /\ conn_ok c' /\ chunks_ok sock' /\
    recv_cap c' = recv_cap c /\ pending c' ++ mjoin sock' = pending c ++ mjoin sock /\
    (sock' = [] \/ recv_len c' = recv_cap c) /\ (length (mjoin sock') <= length (mjoin sock))%nat.
Proof.
  induction fuel as [|fuel IH]; intros sock c Hc Hs Hf; [lia|]. pose proof Hc as (Hb & Hl & Hcap).
  cbn [read_loop]. rewrite u64_small by (unfold_widths; lia).
  destruct (Z.eqb_spec (recv_cap c - recv_len c) 0) as [Hfull|Hsp].
  { exists sock, c. repeat (split; [done|]). split; [right; lia|done]. }
  destruct sock as [|ch rest]; [exists [], c; repeat (split; [done|]); split; [by left|done]|].
  apply Forall_cons in Hs as [Hne Hs]. set (sp := Z.to_nat (recv_cap c - recv_len c)).
  assert (Z.of_nat sp = recv_cap c - recv_len c) as Hspz by (unfold sp; lia).
  assert (0 < length (take sp ch))%nat as Hpos
    by (rewrite length_take; destruct ch; [done|]; simpl; lia).
  assert (Z.of_nat (length (take sp ch)) <= recv_cap c - recv_len c) as Hfit by (rewrite length_take; lia).
  mem_do (store (recv_buf c) (recv_len c) (take sp ch)) b Eb. cbn [obind].
  rewrite !(u64_small (recv_len c + _)) by (unfold_widths; lia).
  pose proof (store_length _ _ _ _ Eb) as Hbl.
  set (c1 := mkConn b _ _ _ _ _ _ _). set (sock1 := match drop sp ch with [] => rest | _ => drop sp ch :: rest end).
  assert (chunks_ok sock1 /\ mjoin sock1 = drop sp ch ++ mjoin rest) as [Hs1 Hj1].
  { unfold sock1. destruct (drop sp ch) eqn:E; [done|]. split; [|done]. apply Forall_cons. done. }
  assert (pending c1 = pending c ++ take sp ch) as Hp1.
  { unfold pending, c1. cbn [recv_len recv_buf]. rewrite store_ok in Eb by lia. injection Eb as <-.
    rewrite Z2Nat.inj_add, Nat2Z.id by lia. rewrite take_app_ge by (rewrite length_take; lia). f_equal.
    assert (length (take (Z.to_nat (recv_len c)) (recv_buf c)) = Z.to_nat (recv_len c)) as -> by (rewrite length_take; lia).
    rewrite take_app_le by lia. apply take_ge. lia. }
  assert (length (mjoin (ch :: rest)) = length (take sp ch) + length (mjoin sock1))%nat as Hlen.
  { rewrite Hj1. simpl. rewrite <- (take_drop sp ch) at 1. rewrite !length_app. lia. }
  destruct (IH sock1 c1) as (sock' & c' & E & Hc' & Hs' & Hcap' & Hst & Hor & Hle); [|done|lia|].
  { split; [|split]; simpl; lia. }
  exists sock', c'. rewrite E. split; [done|]. split; [done|]. split; [done|]. split; [done|].
  split; [|split; [done|lia]]. rewrite Hst, Hp1, Hj1. simpl. rewrite <- (take_drop sp ch) at 3. by rewrite <- !app_assoc.
Qed.

Definition wires (ms : list qd_ipc_msg) : list Z := mjoin (wire <$> ms).

Lemma wires_app ms ms' : wires (ms ++ ms') = wires ms ++ wires ms'.
Proof. unfold wires. by rewrite fmap_app, join_app. Qed.

Lemma wires_drop k ms : (length (wires (drop k ms)) <= length (wires ms))%nat.
Proof. rewrite <- (take_drop k ms) at 2. rewrite wires_app, length_app. lia. Qed.

Definition zero_msg : qd_ipc_msg := mkMsg (mkHeader 0 0 0 0 0 0 0) (zeros QD_IPC_MAX_NAME_LEN) None 0 0.

(** What the server's log has for a message. *)
Definition dispatched (server : qd_ipc_server) (m : qd_ipc_msg) : option nat * qd_ipc_msg :=
  (process_message server (received zero_msg m), received zero_msg m).

Definition same_handlers (s s' : qd_ipc_server) : Prop := handlers s' = handlers s /\ services s' = services s.

(** The connection holds no complete message of [ms]. *)
Definition incomplete (c : qd_ipc_conn) (ms : list qd_ipc_msg) : Prop :=
  match ms with [] => True | m :: _ => recv_len c < Z.of_nat (length (wire m)) end.

Lemma prefix_front {A} (a b x y : list A) : a ++ b = x ++ y -> (length x <= length a)%nat -> a = x ++ take (length a - length x) y.
Proof.
  intros E Hl. assert (take (length a) (a ++ b) = take (length a) (x ++ y)) as Et by (by rewrite E).
  rewrite take_app_le, take_ge in Et by lia. rewrite take_app_ge in Et by lia. done.
Qed.

Hypothesis malloc_small : forall n, 0 < n <= QD_IPC_MAX_MSG_SIZE -> is_Some (malloc n).

Lemma message_loop_spec ms : forall fuel server c rest log,
  conn_ok c -> Forall msg_ok ms -> pending c ++ rest = wires ms -> (length ms < fuel)%nat ->
  exists k server' c', message_loop malloc fuel server c log
      = Ok (server', Some c', log ++ (dispatched server <$> take k ms)) /\
    conn_ok c' /\ recv_cap c' = recv_cap c /\ pending c' ++ rest = wires (drop k ms) /\
    incomplete c' (drop k ms) /\ same_handlers server server' /\ (k <= length ms)%nat.
Proof.
  induction ms as [|m ms IH]; intros fuel server c rest log Hc Hms Hst Hf;
    (destruct fuel as [|fuel]; [simpl in Hf; lia|]); cbn [message_loop]; pose proof (pending_length c Hc) as Hpl.
  - simpl in Hst. apply app_eq_nil in Hst as [Hp Hrest]. rewrite Hp in Hpl. simpl in Hpl.
    destruct (Z.ltb_spec (recv_len c) sizeof_qd_ipc_header) as [|H]; [|unfold sizeof_qd_ipc_header in H; lia].
    exists 0%nat, server, c. rewrite app_nil_r. split; [done|]. split; [done|]. split; [done|].
    split; [by rewrite Hp, Hrest|]. by split.
  - apply Forall_cons in Hms as [Hm Hms]. pose proof (msg_lengths m Hm) as (Hsv & Hpy & Hr & Hw & Ht).
    unfold sizeof_qd_ipc_header, QD_IPC_MAX_NAME_LEN in *.
    assert (recv_len c < Z.of_nat (length (wire m)) ->
      exists k server' c', Ok (server, Some c, log) = Ok (server', Some c', log ++ (dispatched server <$> take k (m :: ms))) /\
      conn_ok c' /\ recv_cap c' = recv_cap c /\ pending c' ++ rest = wires (drop k (m :: ms)) /\
      incomplete c' (drop k (m :: ms)) /\ same_handlers server server' /\ (k <= length (m :: ms))%nat) as Hstop.
    { intros Hlt. exists 0%nat, server, c. simpl. rewrite app_nil_r. repeat (split; [done|]). lia. }
    destruct (Z.ltb_spec (recv_len c) 28) as [Hsmall|Hbig]; [apply Hstop; lia|].
    destruct Hc as (Hb & Hl & Hcap).
    assert (wires (m :: ms) = wire m ++ wires ms) as Ew by done. rewrite Ew in Hst.
    assert (load (recv_buf c) 0 28 = Ok (header_bytes (header m))) as ->.
    { rewrite load_ok by lia. f_equal. rewrite drop_0.
      assert (take 28 (pending c ++ rest) = take 28 (wire m ++ wires ms)) as E by (by rewrite Hst).
      rewrite take_app_le in E by (unfold pending in *; lia). unfold wire in E. rewrite <- app_assoc in E.
      rewrite take_app_le in E by (rewrite header_bytes_length; lia).
      rewrite (take_ge (header_bytes _)) in E by (rewrite header_bytes_length; lia).
      rewrite <- E. unfold pending. rewrite take_take. f_equal. lia. }
    cbn [obind].
    assert (bytes_header (header_bytes (header m)) = header m) as ->.
    { rewrite <- (app_nil_r (header_bytes _)). apply header_roundtrip, Hm. }
    rewrite (mo_magic m Hm), Z.eqb_refl. cbn [negb]. rewrite (u64_small (28 + 64 + _)) by (unfold_widths; lia).
    destruct (Z.ltb_spec (recv_len c) (28 + 64 + payload_len (header m))) as [Hinc|Hcomp]; [apply Hstop; lia|].
    pose proof (prefix_front (pending c) rest (wire m) (wires ms) Hst ltac:(lia)) as Hfront.
    set (nx := take (length (pending c) - length (wire m)) (wires ms)) in Hfront.
    assert (nx ++ rest = wires ms) as Hnx.
    { rewrite Hfront, <- app_assoc in Hst. by apply app_inv_head in Hst. }
    clearbody nx.
    assert (recv_buf c = wire m ++ nx ++ drop (Z.to_nat (recv_len c)) (recv_buf c)) as Hbuf.
    { rewrite app_assoc, <- Hfront. symmetry. apply take_drop. }
    assert (exists blk, 0 < payload_len (header m) -> malloc (payload_len (header m)) = Some blk) as [blk Emal].
    { destruct (Z.lt_ge_cases 0 (payload_len (header m))) as [Hp|Hp]; [|exists []; lia].
      destruct (malloc_small (payload_len (header m))) as [blk ?]; [unfold QD_IPC_MAX_MSG_SIZE; lia|by exists blk]. }
    change (mkMsg (mkHeader 0 0 0 0 0 0 0) (zeros 64) None 0 0) with zero_msg.
    assert (qd_ipc_msg_deserialize malloc (recv_buf c) (28 + 64 + payload_len (header m)) zero_msg
            = Ok (QD_OK, received zero_msg m)) as ->.
    { rewrite Hbuf. eapply deserialize_wire; [done|done|lia|exact Emal]. }
    cbn [obind].
    rewrite Z.eqb_refl. cbn [negb].
    assert (exists b, (if 28 + 64 + payload_len (header m) <? recv_len c
       then let! data := load (recv_buf c) (28 + 64 + payload_len (header m))
                           (recv_len c -64 (28 + 64 + payload_len (header m))) in store (recv_buf c) 0 data
       else Ok (recv_buf c)) = Ok b /\ length b = length (recv_buf c) /\
       take (Z.to_nat (recv_len c - (28 + 64 + payload_len (header m)))) b = nx) as (b & -> & Hbl & Hbn).
    { assert (Z.of_nat (length nx) = recv_len c - Z.of_nat (length (wire m))) as Hnl.
      { rewrite Hfront, length_app in Hpl. lia. }
      rewrite u64_small by (unfold_widths; lia).
      destruct (Z.ltb_spec (28 + 64 + payload_len (header m)) (recv_len c)) as [Hmore|Hexact].
      - assert (load (recv_buf c) (28 + 64 + payload_len (header m)) (recv_len c - (28 + 64 + payload_len (header m))) = Ok nx) as ->.
        { rewrite Hbuf. apply load_middle; lia. }
        cbn [obind]. mem_do (store (recv_buf c) 0 nx) b Eb. exists b. split; [done|].
        split; [by eapply store_length|]. rewrite store_ok in Eb by lia. injection Eb as <-. simpl.
        rewrite take_app_le by lia. apply take_ge. lia.
      - exists (recv_buf c). split; [done|]. split; [done|]. assert (nx = []) as -> by (apply nil_length_inv; lia).
        replace (Z.to_nat (recv_len c - (28 + 64 + payload_len (header m)))) with 0%nat by lia. done. }
    cbn [obind]. rewrite (u64_small (recv_len c - _)) by (unfold_widths; lia).
    match goal with |- context [message_loop malloc fuel ?s2 ?c2 ?l2] =>
      destruct (IH fuel s2 c2 rest l2) as (k & server' & c' & E & Hc' & Hcap' & Hst' & Hinc & Hsh & Hk) end.
    + split; [|split]; simpl; lia.
    + done.
    + unfold pending. simpl. by rewrite Hbn.
    + simpl in Hf. lia.
    + exists (S k), server', c'. rewrite E. split; [do 2 f_equal; rewrite <- app_assoc; reflexivity|].
      split; [done|]. split; [done|]. split; [done|]. split; [done|]. split; [|simpl; lia].
      destruct Hsh as [H1 H2]. split; simpl in *; congruence.
Qed.

Lemma chunks_empty sock : chunks_ok sock -> mjoin sock = [] -> sock = [].
Proof.
  intros Hs Hj. destruct sock as [|ch sock]; [done|]. apply Forall_cons in Hs as [Hne _].
  simpl in Hj. by apply app_eq_nil in Hj as [? _].
Qed.

Lemma callback_spec fuel sock server c ms later :
  conn_ok c -> chunks_ok sock -> Forall msg_ok ms ->
  pending c ++ mjoin sock ++ later = wires ms ->
  (length (mjoin sock) + length ms < fuel)%nat ->
  exists k sock' server' c', conn_read_callback malloc fuel false false sock server c
      = Ok (sock', server', Some c', dispatched server <$> take k ms) /\
    conn_ok c' /\ chunks_ok sock' /\ recv_cap c' = recv_cap c /\
    pending c' ++ mjoin sock' ++ later = wires (drop k ms) /\ incomplete c' (drop k ms) /\
    same_handlers server server' /\ (k <= length ms)%nat /\ (length (mjoin sock') <= length (mjoin sock))%nat /\
    Z.of_nat (length (wires (take k ms))) <= recv_cap c /\
    (recv_len c + Z.of_nat (length (mjoin sock)) <= recv_cap c -> sock' = []).
Proof.
  intros Hc Hs Hms Hst Hf. unfold conn_read_callback.
  destruct (read_loop_spec fuel sock c Hc Hs ltac:(lia)) as (sock' & c1 & -> & Hc1 & Hs1 & Hcap1 & Hj1 & Hor & Hle).
  cbn [obind]. rewrite app_assoc, <- Hj1, <- app_assoc in Hst.
  destruct (message_loop_spec ms fuel server c1 (mjoin sock' ++ later) [] Hc1 Hms Hst ltac:(lia))
    as (k & server' & c' & -> & Hc' & Hcap' & Hst' & Hinc & Hsh & Hk).
  cbn [obind app]. exists k, sock', server', c'. split; [done|]. split; [done|]. split; [done|]. split; [congruence|].
  repeat (split; [done|]). split.
  { rewrite <- (take_drop k ms), wires_app, <- Hst', !app_assoc in Hst. do 2 apply app_inv_tail in Hst.
    pose proof (pending_length c1 Hc1) as H1. destruct Hc1 as (_ & ? & _). rewrite Hst, length_app in H1. lia. }
  intros Hfit. destruct Hor as [->|Hfull]; [done|]. apply chunks_empty; [done|]. apply nil_length_inv.
  apply (f_equal length) in Hj1. rewrite !length_app in Hj1. pose proof (pending_length c Hc). pose proof (pending_length c1 Hc1). lia.
Qed.

(** A connection's life.  Its descriptor is registered edge-triggered, so the callback runs
    when new bytes arrive and at no other time: an event appends chunks to the socket's
    queue and runs the callback, and what it leaves waits for the next event. *)
Fixpoint serve (fuel : nat) (evs : list (list (list Z))) (sock : list (list Z)) (server : qd_ipc_server)
    (c : qd_ipc_conn) (log : list (option nat * qd_ipc_msg))
  : outcome (list (list Z) * qd_ipc_server * option qd_ipc_conn * list (option nat * qd_ipc_msg)) :=
  match evs with
  | [] => Ok (sock, server, Some c, log)
  | chunks :: evs =>
    let! (sock, server, co, new) := conn_read_callback malloc fuel false false (sock ++ chunks) server c in
    match co with
    | None => Ok (sock, server, None, log ++ new)
    | Some c => serve fuel evs sock server c (log ++ new)
    end
  end.

Lemma process_message_same s s' m : same_handlers s s' -> process_message s' m = process_message s m.
Proof. intros [E1 E2]. unfold process_message. by rewrite E1, E2. Qed.

Lemma dispatched_same s s' (ms : list qd_ipc_msg) : same_handlers s s' -> dispatched s' <$> ms = dispatched s <$> ms.
Proof.
  intros H. apply list_fmap_ext. intros i m _. unfold dispatched. by rewrite (process_message_same s).
Qed.

Lemma serve_spec evs : forall fuel sock server c ms later log,
  conn_ok c -> chunks_ok sock -> Forall chunks_ok evs -> Forall msg_ok ms ->
  pending c ++ mjoin sock ++ mjoin (mjoin evs) ++ later = wires ms ->
  (length (wires ms) + length ms < fuel)%nat ->
  exists k sock' server' c', serve fuel evs sock server c log
      = Ok (sock', server', Some c', log ++ (dispatched server <$> take k ms)) /\
    conn_ok c' /\ chunks_ok sock' /\ recv_cap c' = recv_cap c /\
    pending c' ++ mjoin sock' ++ later = wires (drop k ms) /\ same_handlers server server' /\ (k <= length ms)%nat.
Proof.
  induction evs as [|ch evs IH]; intros fuel sock server c ms later log Hc Hs He Hms Hst Hf; cbn [serve].
  - exists 0%nat, sock, server, c. rewrite app_nil_r. repeat (split; [done|]). lia.
  - apply Forall_cons in He as [Hch He].
    assert (chunks_ok (sock ++ ch)) as Hs2 by (by apply Forall_app).
    assert (pending c ++ mjoin (sock ++ ch) ++ (mjoin (mjoin evs) ++ later) = wires ms) as Hst2.
    { rewrite <- Hst. f_equal. rewrite join_app, <- !app_assoc. f_equal. simpl. by rewrite join_app, <- !app_assoc. }
    destruct (callback_spec fuel (sock ++ ch) server c ms (mjoin (mjoin evs) ++ later) Hc Hs2 Hms Hst2)
      as (k & sock1 & server1 & c1 & -> & Hc1 & Hs1 & Hcap1 & Hst1 & _ & Hsh & Hk & Hle & _ & _).
    { rewrite <- Hst2, !length_app in Hf. lia. }
    cbn [obind].
    destruct (IH fuel sock1 server1 c1 (drop k ms) later (log ++ (dispatched server <$> take k ms)))
      as (k2 & sock2 & server2 & c2 & -> & Hc2 & Hs2' & Hcap2 & Hst2' & Hsh2 & Hk2); try done.
    { by apply Forall_drop. }
    { pose proof (wires_drop k ms). rewrite length_drop. lia. }
    exists (k + k2)%nat, sock2, server2, c2. split.
    { do 2 f_equal. rewrite (dispatched_same server server1 _ Hsh), <- app_assoc. f_equal.
      rewrite <- fmap_app. f_equal. by rewrite take_take_drop. }
    split; [done|]. split; [done|]. split; [congruence|]. split; [by rewrite <- drop_drop|].
    rewrite length_drop in Hk2. split; [|lia]. destruct Hsh, Hsh2. split; congruence.
Qed.

(** Bytes of an event that fit the buffer next to any message. *)
Definition roomy (cap : Z) (ms : list qd_ipc_msg) (ev : list (list Z)) : Prop :=
  Forall (fun m => Z.of_nat (length (wire m)) + Z.of_nat (length (mjoin ev)) <= cap) ms.

(** Such events leave nothing in the socket, and the last one completes the last message. *)
Lemma serve_all evs : forall fuel server c ms log,
  conn_ok c -> incomplete c ms -> Forall chunks_ok evs -> Forall msg_ok ms -> Forall (roomy (recv_cap c) ms) evs ->
  pending c ++ mjoin (mjoin evs) = wires ms -> (length (wires ms) + length ms < fuel)%nat ->
  exists server' c', serve fuel evs [] server c log = Ok ([], server', Some c', log ++ (dispatched server <$> ms)) /\ recv_len c' = 0.
Proof.
  induction evs as [|ch evs IH]; intros fuel server c ms log Hc Hinc He Hms Hroom Hst Hf; cbn [serve]; pose proof (pending_length c Hc) as Hpl.
  - simpl in Hst. rewrite app_nil_r in Hst. exists server, c. destruct ms as [|m ms].
    + rewrite Hst in Hpl. rewrite app_nil_r. done.
    + cbn [incomplete] in Hinc. rewrite Hst in Hpl. change (wires (m :: ms)) with (wire m ++ wires ms) in Hpl. rewrite length_app in Hpl. lia.
  - apply Forall_cons in He as [Hch He]. apply Forall_cons in Hroom as [Hr Hroom].
    assert (pending c ++ mjoin ([] ++ ch) ++ mjoin (mjoin evs) = wires ms) as Hst2 by (rewrite <- Hst; simpl; by rewrite join_app).
    assert (recv_len c + Z.of_nat (length (mjoin ([] ++ ch))) <= recv_cap c) as Hfit.
    { destruct ms as [|m ms]; [|cbn [incomplete] in Hinc; apply Forall_cons in Hr as [Hr _]; simpl; lia].
      apply app_eq_nil in Hst2 as [_ Hj]. apply app_eq_nil in Hj as [-> _]. simpl. destruct Hc as (_ & ? & _). lia. }
    destruct (callback_spec fuel ([] ++ ch) server c ms (mjoin (mjoin evs)) Hc Hch Hms Hst2)
      as (k & sock1 & server1 & c1 & -> & Hc1 & Hs1 & Hcap1 & Hst1 & Hinc1 & Hsh & Hk & _ & _ & Hemp).
    { rewrite <- Hst2, !length_app in Hf. lia. }
    rewrite (Hemp Hfit) in *. cbn [obind]. pose proof (wires_drop k ms) as Hwd.
    destruct (IH fuel server1 c1 (drop k ms) (log ++ (dispatched server <$> take k ms))) as (server' & c' & E & Hz); try done.
    + by apply Forall_drop.
    + rewrite Hcap1. eapply Forall_impl; [exact Hroom|]. intros ev. apply Forall_drop.
    + rewrite length_drop. lia.
    + exists server', c'. rewrite E. split; [|done]. do 2 f_equal.
      rewrite (dispatched_same server server1 _ Hsh), <- app_assoc. f_equal. by rewrite <- fmap_app, take_drop.
Qed.

(** A message that does not fit the buffer is never complete. *)
Lemma serve_oversize evs : forall fuel sock server c m later,
  conn_ok c -> chunks_ok sock -> Forall chunks_ok evs -> msg_ok m -> recv_cap c < Z.of_nat (length (wire m)) ->
  pending c ++ mjoin sock ++ mjoin (mjoin evs) ++ later = wire m -> (length (wire m) + 1 < fuel)%nat ->
  exists sock' server' c', serve fuel evs sock server c [] = Ok (sock', server', Some c', []) /\
    pending c' ++ mjoin sock' ++ later = wire m.
Proof.
  induction evs as [|ch evs IH]; intros fuel sock server c m later Hc Hs He Hm Hbig Hst Hf; cbn [serve].
  - by exists sock, server, c.
  - apply Forall_cons in He as [Hch He].
    assert (wires [m] = wire m) as Ew by (change (wires [m]) with (wire m ++ []); apply app_nil_r).
    assert (pending c ++ mjoin (sock ++ ch) ++ (mjoin (mjoin evs) ++ later) = wires [m]) as Hst2.
    { rewrite Ew, <- Hst. f_equal. rewrite join_app, <- !app_assoc. f_equal. simpl. by rewrite join_app, <- !app_assoc. }
    destruct (callback_spec fuel (sock ++ ch) server c [m] (mjoin (mjoin evs) ++ later) Hc)
      as (k & sock1 & server1 & c1 & -> & Hc1 & Hs1 & Hcap1 & Hst1 & _ & Hsh & Hk & _ & Hsz & _); try done.
    { by apply Forall_app. }
    { by apply Forall_singleton. }
    { rewrite Ew in Hst2. apply (f_equal length) in Hst2. rewrite !length_app in Hst2. cbn [length]. lia. }
    destruct k as [|k].
    2: { replace (take (S k) [m]) with [m] in Hsz by (by destruct k). rewrite Ew in Hsz. lia. }
    cbn [obind app drop take fmap list_fmap] in *. rewrite Ew in Hst1.
    apply (IH fuel sock1 server1 c1 m later); try done. by rewrite Hcap1.
Qed.
End with_malloc.

(** ** Properties *)

(** C6: The codec.  A message built by the API (payload of at most 64 KiB)
    serializes to its header, service name and payload, and deserializing these
    bytes into a zeroed structure gives the same header, service and payload. *)
Theorem msg_roundtrip malloc m buf blk :
  (forall n b, malloc n = Some b -> Z.of_nat (length b) = n) ->
  msg_ok m -> malloc (qd_ipc_msg_total_size (header m)) = Some buf ->
  (0 < payload_len (header m) -> malloc (payload_len (header m)) = Some blk) ->
  exists bytes m', qd_ipc_msg_serialize malloc m = Ok (QD_OK, Some bytes) /\
    Z.of_nat (length bytes) = qd_ipc_msg_total_size (header m) /\
    qd_ipc_msg_deserialize malloc bytes (Z.of_nat (length bytes)) zero_msg = Ok (QD_OK, m') /\
    header m' = header m /\ service m' = service m /\ payload m' = payload m.
Proof.
  intros Hmal Hok Hb Hp. exists (wire m), (received zero_msg m).
  split; [by eapply serialize_wire|]. destruct (msg_lengths m Hok) as (_ & _ & _ & Hw & Ht).
  split; [lia|]. split.
  - rewrite <- (app_nil_r (wire m)) at 1. by eapply deserialize_wire; [..|exact Hp].
  - unfold received. by destruct (payload m).
Qed.

(** An allocator that serves every request of up to 70000 bytes. *)
Definition malloc70k (n : Z) : option (list Z) :=
  if (0 <=? n) && (n <=? 70000) then Some (zeros n) else None.

Lemma malloc70k_length n b : malloc70k n = Some b -> Z.of_nat (length b) = n.
Proof.
  unfold malloc70k. destruct (Z.leb_spec 0 n), (Z.leb_spec n 70000); try done. simpl. intros [= <-].
  unfold zeros. rewrite length_replicate. lia.
Qed.

Lemma malloc70k_some n : 0 < n <= QD_IPC_MAX_MSG_SIZE -> is_Some (malloc70k n).
Proof.
  unfold malloc70k, QD_IPC_MAX_MSG_SIZE. intros Hn. destruct (Z.leb_spec 0 n), (Z.leb_spec n 70000); try lia. simpl. eauto.
Qed.

(** A request of [n] bytes to the service "dhcp". *)
Definition demo_msg (n : Z) : qd_ipc_msg :=
  mkMsg (mkHeader QD_IPC_MAGIC QD_IPC_VERSION 4 7 n 1 12345)
    (strncpy [100; 104; 99; 112] 63 ++ [0]) (if n =? 0 then None else Some (replicate (Z.to_nat n) 42)) n 1.

Lemma demo_msg_ok n : 0 <= n <= QD_IPC_MAX_MSG_SIZE -> msg_ok (demo_msg n).
Proof.
  intros Hn. unfold QD_IPC_MAX_MSG_SIZE in Hn. split; simpl; try done.
  - repeat split; unfold QD_IPC_MAGIC, QD_IPC_VERSION; unfold_widths; simpl; lia.
  - unfold QD_IPC_MAX_MSG_SIZE. lia.
  - exists (strncpy [100; 104; 99; 112] 63). split; reflexivity.
  - destruct (Z.eqb_spec n 0) as [->|Hne]; [done|]. rewrite length_replicate. split; [lia|].
    destruct (Z.to_nat n) eqn:E; [lia|done].
Qed.

Lemma msg_roundtrip_witness : exists bytes m',
  qd_ipc_msg_serialize malloc70k (demo_msg 3) = Ok (QD_OK, Some bytes) /\ length bytes = 95%nat /\
  qd_ipc_msg_deserialize malloc70k bytes 95 zero_msg = Ok (QD_OK, m') /\ payload m' = Some [42; 42; 42].
Proof.
  destruct (msg_roundtrip malloc70k (demo_msg 3) (zeros 95) (zeros 3)) as (bytes & m' & E1 & Hl & E2 & _ & _ & Hp).
  - exact malloc70k_length.
  - apply demo_msg_ok. unfold QD_IPC_MAX_MSG_SIZE. lia.
  - reflexivity.
  - intros _. reflexivity.
  - exists bytes, m'. change (qd_ipc_msg_total_size (header (demo_msg 3))) with 95 in Hl.
    rewrite Hl in E2. split; [exact E1|]. split; [lia|]. split; [exact E2|exact Hp].
Defined.

(** C7: Deserializing arbitrary bytes.  Whatever the buffer holds and whatever
    length not beyond its end is passed, no byte outside the buffer is read; the
    result is QD_OK, QD_ERR_PROTO or QD_ERR_NOMEM, and QD_OK is returned only for
    the right magic and version and a payload of at most 64 KiB that lies within
    the length; the message then owns exactly these bytes. *)
Theorem deserialize_safe malloc buffer len msg0 :
  (forall n b, malloc n = Some b -> Z.of_nat (length b) = n) ->
  Forall is_byte buffer -> len <= Z.of_nat (length buffer) ->
  exists r m', qd_ipc_msg_deserialize malloc buffer len msg0 = Ok (r, m') /\
    (r = QD_OK \/ r = QD_ERR_PROTO \/ r = QD_ERR_NOMEM) /\
    (r = QD_OK -> magic (header m') = QD_IPC_MAGIC /\ version (header m') = QD_IPC_VERSION /\
       0 <= payload_len (header m') <= QD_IPC_MAX_MSG_SIZE /\ 92 + payload_len (header m') <= len /\
       (0 < payload_len (header m') ->
          payload m' = Some (take (Z.to_nat (payload_len (header m'))) (drop 92 buffer)))).
Proof.
  intros Hmal Hby Hlen. unfold qd_ipc_msg_deserialize, sizeof_qd_ipc_header, QD_IPC_MAX_NAME_LEN.
  destruct (Z.ltb_spec len (28 + 64)) as [Hs|Hs]; [eexists _, _; split; [done|]; split; [by right; left|done]|].
  rewrite load_ok by lia. cbn [obind]. set (hb := take (Z.to_nat 28) (drop (Z.to_nat 0) buffer)).
  set (h := bytes_header hb).
  assert (0 <= payload_len h < 2 ^ 32) as Hpl.
  { unfold h, bytes_header, field. cbn [payload_len].
    assert (Forall is_byte (take 4 (drop 12 hb))) as Hb4 by (unfold hb; by repeat first [apply Forall_take | apply Forall_drop]).
    pose proof (un_le_range _ Hb4) as Hr. rewrite length_take in Hr.
    assert (256 ^ Z.of_nat (4 `min` length (drop 12 hb)) <= 256 ^ 4) by (apply Z.pow_le_mono_r; lia). lia. }
  clearbody h. clear hb.
  destruct (Z.eqb_spec (magic h) QD_IPC_MAGIC) as [Hm|]; cbn [negb];
    [|eexists _, _; split; [done|]; split; [by right; left|done]].
  destruct (Z.eqb_spec (version h) QD_IPC_VERSION) as [Hv|]; cbn [negb];
    [|eexists _, _; split; [done|]; split; [by right; left|done]].
  destruct (Z.ltb_spec QD_IPC_MAX_MSG_SIZE (payload_len h)) as [|Hmax];
    [eexists _, _; split; [done|]; split; [by right; left|done]|].
  rewrite u64_small by (unfold_widths; lia).
  destruct (Z.ltb_spec len (28 + 64 + payload_len h)) as [|Hfit];
    [eexists _, _; split; [done|]; split; [by right; left|done]|].
  assert (exists svc, load buffer 28 64 = Ok svc) as [svc Esvc] by (rewrite load_ok by lia; eauto).
  rewrite Esvc. cbn [obind]. pose proof (load_length _ _ _ _ Esvc) as Hsl.
  assert (exists svc', store svc (64 - 1) [0] = Ok svc') as [svc' Esvc'] by (rewrite store_ok by (simpl; lia); eauto).
  rewrite Esvc'. cbn [obind].
  destruct (Z.ltb_spec 0 (payload_len h)) as [Hpos|Hz].
  - destruct (malloc (payload_len h)) as [blk|] eqn:Eb;
      [|eexists _, _; split; [done|]; split; [by right; right|done]].
    pose proof (Hmal _ _ Eb) as Hbl. 
    assert (exists data, load buffer (28 + 64) (payload_len h) = Ok data) as [data Ed] by (rewrite load_ok by lia; eauto).
    rewrite Ed. cbn [obind]. pose proof (load_length _ _ _ _ Ed) as Hdl. rewrite <- (app_nil_r blk), store_prefix by lia. cbn [obind].
    eexists _, _. split; [done|]. split; [by left|]. intros _. simpl. repeat (split; [done || lia|]). intros _.
    rewrite app_nil_r. f_equal. rewrite load_ok in Ed by lia. by injection Ed.
  - eexists _, _. split; [done|]. split; [by left|]. intros _. simpl. repeat (split; [done || lia|]). lia.
Qed.

(** A header that claims more payload than the buffer has. *)
Lemma deserialize_safe_witness : exists r m',
  qd_ipc_msg_deserialize malloc70k (take 94 (wire (demo_msg 3))) 94 zero_msg = Ok (r, m') /\ r = QD_ERR_PROTO.
Proof.
  destruct (deserialize_safe malloc70k (take 94 (wire (demo_msg 3))) 94 zero_msg) as (r & m' & E & _ & _).
  - exact malloc70k_length.
  - apply (bool_decide_unpack (Forall is_byte (take 94 (wire (demo_msg 3))))). vm_compute. exact I.
  - vm_compute. discriminate.
  - exists r, m'. split; [exact E|]. vm_compute in E. by injection E as <- _.
Defined.

(** A new connection is empty. *)
Lemma conn_create_ok calloc_ok rb sb cap scap c :
  0 <= cap < u64_mod -> (forall b, rb = Some b -> Z.of_nat (length b) = cap) -> conn_create calloc_ok rb sb cap scap = Some c ->
  conn_ok c /\ pending c = [] /\ recv_len c = 0 /\ recv_cap c = cap.
Proof.
  intros Hcap Hrb Hc. unfold conn_create in Hc. destruct (negb calloc_ok); [done|]. destruct rb as [b|]; [|done]. destruct sb; [|done]. injection Hc as <-.
  pose proof (Hrb b eq_refl). split; [|done]. split; [|split]; simpl; lia.
Qed.

(** C5: Stream reassembly on an edge-triggered descriptor.  A new connection receives the
    bytes of the messages [ms], cut into chunks and delivered in events in any way.  After
    any number of events the connection is open and the messages dispatched are a prefix of
    [ms], in order, each to the handler of its type or its service.  If the bytes of every
    event fit the receive buffer next to any of the messages, then after the last event all
    of them have been dispatched and nothing is left in the socket or the buffer. *)
Theorem ipc_reassembly malloc calloc_ok rb sb cap scap c server ms evs fuel :
  (forall n b, malloc n = Some b -> Z.of_nat (length b) = n) ->
  (forall n, 0 < n <= QD_IPC_MAX_MSG_SIZE -> is_Some (malloc n)) ->
  0 <= cap < u64_mod -> (forall b, rb = Some b -> Z.of_nat (length b) = cap) -> conn_create calloc_ok rb sb cap scap = Some c ->
  Forall msg_ok ms -> Forall chunks_ok evs -> mjoin (mjoin evs) = wires ms -> (length (wires ms) + length ms < fuel)%nat ->
  (forall n, exists k sock' server' c', serve malloc fuel (take n evs) [] server c []
      = Ok (sock', server', Some c', dispatched server <$> take k ms)) /\
  (Forall (roomy cap ms) evs -> exists server' c', serve malloc fuel evs [] server c []
      = Ok ([], server', Some c', dispatched server <$> ms) /\ recv_len c' = 0).
Proof.
  intros Hmal Hsm Hcap Hrb Hc Hms He Hst Hf. destruct (conn_create_ok calloc_ok rb sb cap scap c Hcap Hrb Hc) as (Hok & Hp & Hl & Hcc). split.
  - intros n. destruct (serve_spec malloc Hmal Hsm (take n evs) fuel [] server c ms (mjoin (mjoin (drop n evs))) [])
      as (k & sock' & server' & c' & E & _); try done.
    + apply List.Forall_nil.
    + by apply Forall_take.
    + rewrite Hp, <- Hst. cbn [app mjoin list_join]. by rewrite <- join_app, <- join_app, take_drop.
    + eauto 10.
  - intros Hroom. apply (serve_all malloc Hmal Hsm evs fuel server c ms []); try done.
    + destruct ms as [|m ms]; [done|]. cbn [incomplete]. apply Forall_cons in Hms as [Hm _]. pose proof (msg_lengths m Hm). rewrite Hl. lia.
    + by rewrite Hcc.
    + by rewrite Hp.
Qed.

(** Two messages in chunks of 100 bytes, the second in a second event. *)
Fixpoint cut (fuel n : nat) (l : list Z) : list (list Z) :=
  match fuel, l with
  | S fuel, _ :: _ => take n l :: cut fuel n (drop n l)
  | _, _ => []
  end.

Definition demo_server : qd_ipc_server := mkServer {[4 := 9%nat]} [(strncpy [100; 104; 99; 112] 63 ++ [0], 5%nat)] 0.

Definition demo_conn : qd_ipc_conn := mkConn (zeros 8192) 0 8192 0 0 (zeros 8192) 0 8192.

Lemma ipc_reassembly_witness : exists server' c',
  serve malloc70k 400 [cut 10 100 (wire (demo_msg 3) ++ take 50 (wire (demo_msg 0))); [drop 50 (wire (demo_msg 0))]] [] demo_server demo_conn []
  = Ok ([], server', Some c', [(Some 9%nat, received zero_msg (demo_msg 3)); (Some 9%nat, received zero_msg (demo_msg 0))]).
Proof.
  destruct (ipc_reassembly malloc70k true (Some (zeros 8192)) (Some (zeros 8192)) 8192 8192 demo_conn demo_server [demo_msg 3; demo_msg 0]
    [cut 10 100 (wire (demo_msg 3) ++ take 50 (wire (demo_msg 0))); [drop 50 (wire (demo_msg 0))]] 400) as (_ & H).
  - exact malloc70k_length.
  - exact malloc70k_some.
  - unfold_widths. lia.
  - intros b [= <-]. vm_compute. reflexivity.
  - reflexivity.
  - apply List.Forall_cons; [apply demo_msg_ok; unfold QD_IPC_MAX_MSG_SIZE; lia|].
    apply List.Forall_cons; [apply demo_msg_ok; unfold QD_IPC_MAX_MSG_SIZE; lia|apply List.Forall_nil].
  - apply (bool_decide_unpack (Forall (Forall (fun ch => ch <> [])) _)). vm_compute. exact I.
  - vm_compute. reflexivity.
  - vm_compute. lia.
  - destruct H as (server' & c' & E & _); [|exists server', c'; exact E].
    apply (bool_decide_unpack (Forall (fun ev => Forall (fun m => Z.of_nat (length (wire m)) + Z.of_nat (length (mjoin ev)) <= 8192) _) _)). vm_compute. exact I.
Defined.

(** A burst of more bytes than the buffer has: the read loop leaves the descriptor before
    the socket is empty, the message loop then empties the buffer, and the last message,
    all of which has arrived, waits until the peer sends something else. *)
Theorem burst_waits : exists sock' server' c',
  serve malloc70k 9000 [[wires (replicate 90 (demo_msg 0))]] [] demo_server demo_conn []
  = Ok (sock', server', Some c', dispatched demo_server <$> replicate 89 (demo_msg 0)) /\
  recv_len c' = 4 /\ pending c' ++ mjoin sock' = wire (demo_msg 0).
Proof. eexists _, _, _. split; [vm_compute; reflexivity|]. split; vm_compute; reflexivity. Qed.

(** A legal message that does not fit the receive buffer blocks the
    connection.  If the buffer is smaller than a message (the default buffer of
    8192 bytes and any payload of more than 8100 bytes, where the protocol allows
    65536), then however its bytes arrive and however many events follow, the
    message is never dispatched, and the connection is neither closed nor the
    buffer emptied: the read loop stops at the full buffer and the message loop at
    the incomplete message. *)
Theorem oversize_message_stalls malloc calloc_ok rb sb cap scap c server m evs fuel :
  (forall n b, malloc n = Some b -> Z.of_nat (length b) = n) ->
  (forall n, 0 < n <= QD_IPC_MAX_MSG_SIZE -> is_Some (malloc n)) ->
  0 <= cap < u64_mod -> (forall b, rb = Some b -> Z.of_nat (length b) = cap) -> conn_create calloc_ok rb sb cap scap = Some c ->
  msg_ok m -> cap < Z.of_nat (length (wire m)) ->
  Forall chunks_ok evs -> mjoin (mjoin evs) = wire m -> (length (wire m) + 1 < fuel)%nat ->
  exists sock' server' c', serve malloc fuel evs [] server c [] = Ok (sock', server', Some c', []) /\
    pending c' ++ mjoin sock' = wire m.
Proof.
  intros Hmal Hsm Hcap Hrb Hc Hm Hbig He Hst Hf. destruct (conn_create_ok calloc_ok rb sb cap scap c Hcap Hrb Hc) as (Hok & Hp & _ & Hcc).
  destruct (serve_oversize malloc Hmal Hsm evs fuel [] server c m []) as (sock' & server' & c' & E & Hp');
    try done.
  - apply List.Forall_nil.
  - by rewrite Hcc.
  - rewrite Hp, app_nil_r. exact Hst.
  - exists sock', server', c'. split; [done|]. by rewrite app_nil_r in Hp'.
Qed.

Lemma oversize_message_stalls_witness : exists sock' server' c',
  serve malloc70k 9000 [[wire (demo_msg 8200)]] [] demo_server demo_conn [] = Ok (sock', server', Some c', []).
Proof.
  destruct (oversize_message_stalls malloc70k true (Some (zeros 8192)) (Some (zeros 8192)) 8192 8192 demo_conn demo_server (demo_msg 8200)
    [[wire (demo_msg 8200)]] 9000) as (sock' & server' & c' & E & _).
  - exact malloc70k_length.
  - exact malloc70k_some.
  - unfold_widths. lia.
  - intros b [= <-]. vm_compute. reflexivity.
  - reflexivity.
  - apply demo_msg_ok. unfold QD_IPC_MAX_MSG_SIZE. lia.
  - apply Z.ltb_lt. vm_compute. reflexivity.
  - apply (bool_decide_unpack (Forall (Forall (fun ch => ch <> [])) _)). vm_compute. exact I.
  - vm_compute. reflexivity.
  - apply Nat.ltb_lt. vm_compute. reflexivity.
  - exists sock', server', c'. exact E.
Defined.
