(* ===== verification/HashMap.v ===== *)
(** * src/util/qd_hash.h: hash functions, the bucket table and the string map

    A key is a C string (the list of its bytes), a value a pointer (0 is NULL).  A
    chain is the list of its entries, newest first: the chains are only built by
    [qd_hlist_add_head] and only cut by [qd_hlist_del]. *)

From S2P Require Import Prelude Common.

Abbreviation key := (list Z).

(** ** Hash functions *)

Definition fnv_offset : Z := 2166136261.
Definition fnv_prime : Z := 16777619.

(** One round of FNV-1a. *)
Definition fnv_round (hash b : Z) : Z := u32 (Z.lxor hash (u8 b) * fnv_prime).

Definition qd_hash_string (str : key) : Z := foldl fnv_round fnv_offset str.
Definition qd_hash_bytes (data : list Z) : Z := foldl fnv_round fnv_offset data.

Definition qd_hash_u64 (x : Z) : Z :=
  let x := Z.lxor x (Z.shiftr x 30) *64 0xbf58476d1ce4e5b9 in
  let x := Z.lxor x (Z.shiftr x 27) *64 0x94d049bb133111eb in
  Z.lxor x (Z.shiftr x 31).

Definition qd_hash_u32 (x : Z) : Z :=
  let x := u32 (Z.lxor (Z.shiftr x 16) x * 0x45d9f3b) in
  let x := u32 (Z.lxor (Z.shiftr x 16) x * 0x45d9f3b) in
  Z.lxor (Z.shiftr x 16) x.

Definition qd_hash_ptr (ptr : Z) : Z := u32 (qd_hash_u64 ptr).

(** The published FNV-1a values of the empty string, "a" and "foobar". *)
Example fnv_vectors :
  map qd_hash_string [[]; [97]; [102; 111; 111; 98; 97; 114]] = [0x811c9dc5; 0xe40c292c; 0xbf9cf968].
Proof. reflexivity. Qed.

(** ** The table *)

Record qd_hash_entry := mkEntry { ekey : key; evalue : Z }.

Record qd_hashtable := mkTable {
  buckets : list (list qd_hash_entry);
  size : Z;
  count : Z;
  mask : Z
}.

(** [while (n < size) n <<= 1;] *)
Fixpoint grow (fuel : nat) (n size : Z) : outcome Z :=
  if n <? size then
    match fuel with O => Fuel | S fuel => grow fuel (u64 (Z.shiftl n 1)) size end
  else Ok n.

Definition qd_hashtable_init (fuel : nat) (calloc_ok : bool) (size : Z) : outcome (Z * option qd_hashtable) :=
  let size := if size =? 0 then 16 else size in
  let! n := grow fuel 1 size in
  if negb calloc_ok then Ok (-1, None) else
  Ok (0, Some (mkTable (replicate (Z.to_nat n) []) n 0 (n -64 1))).

(** The index of the bucket of a hash. *)
Definition qd_hashtable_bucket (ht : qd_hashtable) (hash : Z) : nat := Z.to_nat (Z.land hash (mask ht)).

Definition get_bucket (ht : qd_hashtable) (i : nat) : outcome (list qd_hash_entry) := of_option (buckets ht !! i).

Definition set_bucket (ht : qd_hashtable) (i : nat) (b : list qd_hash_entry) (cnt : Z) : qd_hashtable :=
  mkTable (<[i:=b]> (buckets ht)) (size ht) cnt (mask ht).

(** ** The string map *)

(** The scan of a chain: the value of the first entry with the key. *)
Fixpoint find_entry (b : list qd_hash_entry) (k : key) : option Z :=
  match b with
  | [] => None
  | e :: b => if decide (ekey e = k) then Some (evalue e) else find_entry b k
  end.

Definition qd_hashmap_get (ht : qd_hashtable) (k : key) : outcome Z :=
  let! b := get_bucket ht (qd_hashtable_bucket ht (qd_hash_string k)) in
  Ok (default 0 (find_entry b k)).

(** [entry->value = value] in the first entry with the key. *)
Fixpoint replace_entry (b : list qd_hash_entry) (k : key) (v : Z) : list qd_hash_entry :=
  match b with
  | [] => []
  | e :: b => if decide (ekey e = k) then mkEntry k v :: b else e :: replace_entry b k v
  end.

(** [malloc_ok], [strdup_ok]: whether the two allocations succeed. *)
Definition qd_hashmap_put (malloc_ok strdup_ok : bool) (ht : qd_hashtable) (k : key) (v : Z)
  : outcome (Z * qd_hashtable) :=
  let i := qd_hashtable_bucket ht (qd_hash_string k) in
  let! b := get_bucket ht i in
  match find_entry b k with
  | Some _ => Ok (0, set_bucket ht i (replace_entry b k v) (count ht))
  | None =>
    if negb malloc_ok then Ok (-1, ht) else
    if negb strdup_ok then Ok (-1, ht) else
    Ok (0, set_bucket ht i (mkEntry k v :: b) (count ht +64 1))
  end.

Fixpoint remove_entry (b : list qd_hash_entry) (k : key) : list qd_hash_entry :=
  match b with
  | [] => []
  | e :: b => if decide (ekey e = k) then b else e :: remove_entry b k
  end.

Definition qd_hashmap_remove (ht : qd_hashtable) (k : key) : outcome (Z * qd_hashtable) :=
  let i := qd_hashtable_bucket ht (qd_hash_string k) in
  let! b := get_bucket ht i in
  match find_entry b k with
  | Some v => Ok (v, set_bucket ht i (remove_entry b k) (count ht -64 1))
  | None => Ok (0, ht)
  end.

Definition qd_hashmap_contains (ht : qd_hashtable) (k : key) : outcome bool :=
  let! v := qd_hashmap_get ht k in Ok (negb (v =? 0)).

Definition qd_hashmap_size (ht : qd_hashtable) : Z := count ht.

(** ** The size of the table *)

Lemma grow_steps j : forall fuel i size,
  0 <= i -> i + Z.of_nat j <= 63 -> (i + Z.of_nat j = 0 \/ 2 ^ (i + Z.of_nat j - 1) < size \/ j = 0%nat) ->
  size <= 2 ^ (i + Z.of_nat j) -> (j < fuel)%nat ->
  grow fuel (2 ^ i) size = Ok (2 ^ (i + Z.of_nat j)).
Proof.
  induction j as [|j IH]; intros fuel i size Hi Hb Hlow Hup Hf; (destruct fuel as [|fuel]; [lia|]); cbn [grow].
  - rewrite Z.add_0_r in *. destruct (Z.ltb_spec (2 ^ i) size); [lia|done].
  - assert (2 ^ i <= 2 ^ (i + Z.of_nat (S j) - 1)) by (apply Z.pow_le_mono_r; lia).
    destruct (Z.ltb_spec (2 ^ i) size); [|lia].
    assert (u64 (Z.shiftl (2 ^ i) 1) = 2 ^ (i + 1)) as ->.
    { rewrite Z.shiftl_mul_pow2, <- Z.pow_add_r by lia. apply u64_small. unfold_widths.
      split; [apply Z.pow_nonneg; lia|]. apply Z.pow_lt_mono_r; lia. }
    replace (i + Z.of_nat (S j)) with (i + 1 + Z.of_nat j) in * by lia.
    apply IH; lia.
Qed.

Lemma grow_zero fuel size : 0 < size -> grow fuel 0 size = Fuel.
Proof.
  intros Hs. induction fuel as [|fuel IH]; cbn [grow]; (destruct (Z.ltb_spec 0 size); [|lia]); done.
Qed.

Lemma grow_wraps j : forall fuel i size, 0 <= i -> i + Z.of_nat j = 63 -> 2 ^ 63 < size ->
  grow fuel (2 ^ i) size = Fuel.
Proof.
  induction j as [|j IH]; intros fuel i size Hi Hb Hs;
    (assert (2 ^ i <= 2 ^ 63) by (apply Z.pow_le_mono_r; lia));
    (destruct fuel as [|fuel]; cbn [grow]; (destruct (Z.ltb_spec (2 ^ i) size); [|lia]); [done|]).
  - replace i with 63 by lia. change (u64 (Z.shiftl (2 ^ 63) 1)) with 0. apply grow_zero. lia.
  - assert (u64 (Z.shiftl (2 ^ i) 1) = 2 ^ (i + 1)) as ->.
    { rewrite Z.shiftl_mul_pow2, <- Z.pow_add_r by lia. apply u64_small. unfold_widths.
      split; [apply Z.pow_nonneg; lia|]. apply Z.pow_lt_mono_r; lia. }
    apply IH; lia.
Qed.

Lemma grow_least fuel size : 1 <= size <= 2 ^ 63 -> (64 <= fuel)%nat ->
  grow fuel 1 size = Ok (2 ^ Z.log2_up size).
Proof.
  intros Hs Hf. pose proof (Z.log2_up_nonneg size) as Hl.
  assert (Z.log2_up size <= 63) as Hu.
  { rewrite <- (Z.log2_up_pow2 63) by lia. apply Z.log2_up_le_mono; lia. }
  change 1 with (2 ^ 0) at 1.
  replace (Z.log2_up size) with (0 + Z.of_nat (Z.to_nat (Z.log2_up size))) at 1 by lia.
  destruct (Z.eq_dec size 1) as [->|Hne].
  - apply (grow_steps 0); simpl; lia.
  - pose proof (Z.log2_up_spec size ltac:(lia)) as [Hlo Hhi]. rewrite <- Z.sub_1_r in Hlo.
    apply grow_steps; try lia.
    + right. left. replace (0 + Z.of_nat (Z.to_nat (Z.log2_up size)) - 1) with (Z.log2_up size - 1) by lia. done.
    + by replace (0 + Z.of_nat (Z.to_nat (Z.log2_up size))) with (Z.log2_up size) by lia.
Qed.

(** ** The map a table represents *)

Definition bucket_of (ht : qd_hashtable) (k : key) : nat := qd_hashtable_bucket ht (qd_hash_string k).

Definition table_wf (ht : qd_hashtable) : Prop :=
  (exists j, 0 <= j <= 63 /\ size ht = 2 ^ j) /\ mask ht = size ht - 1 /\
  Z.of_nat (length (buckets ht)) = size ht /\
  forall i b, buckets ht !! i = Some b -> NoDup (ekey <$> b).

Definition represents (ht : qd_hashtable) (M : gmap key Z) : Prop :=
  table_wf ht /\ count ht = u64 (Z.of_nat (base.size M)) /\
  forall k b, buckets ht !! bucket_of ht k = Some b -> find_entry b k = M !! k.

Lemma bucket_ok ht k : table_wf ht -> exists b, buckets ht !! bucket_of ht k = Some b.
Proof.
  intros ((j & Hj & Hs) & Hm & Hl & _). apply lookup_lt_is_Some_2. unfold bucket_of, qd_hashtable_bucket.
  rewrite Hm, Hs, land_mask by lia.
  assert (0 < 2 ^ j) by (apply Z.pow_pos_nonneg; lia).
  pose proof (Z.mod_pos_bound (qd_hash_string k) (2 ^ j) ltac:(lia)). lia.
Qed.

Lemma find_entry_in b k : find_entry b k = None <-> k ∉ ekey <$> b.
Proof.
  induction b as [|e b IH]; simpl; [split; [intros _; apply not_elem_of_nil|done]|].
  rewrite not_elem_of_cons. case_decide; [naive_solver|]. rewrite IH. naive_solver.
Qed.

Lemma find_replace b k v k' :
  find_entry (replace_entry b k v) k' = (if decide (k = k') then (fun _ => v) <$> find_entry b k else find_entry b k').
Proof.
  induction b as [|e b IH]; simpl; [by case_decide|].
  destruct (decide (ekey e = k)) as [<-|]; simpl.
  - by repeat case_decide.
  - rewrite IH. repeat case_decide; congruence.
Qed.

Lemma replace_keys b k v : ekey <$> replace_entry b k v = ekey <$> b.
Proof.
  induction b as [|e b IH]; [done|]. cbn [replace_entry]. case_decide; rewrite !fmap_cons; [by subst|]. by rewrite IH.
Qed.

Lemma find_remove b k k' : NoDup (ekey <$> b) ->
  find_entry (remove_entry b k) k' = (if decide (k = k') then None else find_entry b k').
Proof.
  induction b as [|e b IH]; simpl; [by case_decide|]. intros [Hn Hnd]%NoDup_cons.
  destruct (decide (ekey e = k)) as [<-|].
  - destruct (decide (ekey e = k')) as [<-|]; [by apply find_entry_in|]. done.
  - simpl. rewrite IH by done. repeat case_decide; congruence.
Qed.

Lemma remove_keys b k : ekey <$> remove_entry b k `sublist_of` ekey <$> b.
Proof.
  induction b as [|e b IH]; [done|]. cbn [remove_entry]. case_decide; rewrite ?fmap_cons; [by apply sublist_cons|].
  by apply sublist_skip.
Qed.

(** Changing one bucket. *)
Lemma set_bucket_represents ht M k b b' M' cnt :
  represents ht M -> buckets ht !! bucket_of ht k = Some b -> NoDup (ekey <$> b') ->
  cnt = u64 (Z.of_nat (base.size M')) ->
  find_entry b' k = M' !! k ->
  (forall k', k' <> k -> find_entry b' k' = find_entry b k' /\ M' !! k' = M !! k') ->
  represents (set_bucket ht (bucket_of ht k) b' cnt) M'.
Proof.
  intros ((Hs & Hm & Hl & Hnd) & _ & Hf) Hb Hnd' Hc Hk Ho.
  assert (bucket_of ht k < length (buckets ht))%nat as Hlt by (by apply lookup_lt_Some in Hb).
  split; [|split; [done|]].
  - split; [done|]. split; [done|]. split; [simpl; by rewrite length_insert|].
    intros i c. simpl. rewrite list_lookup_insert. case_decide; [naive_solver|]. apply Hnd.
  - intros k' c. change (bucket_of (set_bucket _ _ _ _) k') with (bucket_of ht k'). simpl.
    destruct (decide (k' = k)) as [->|Hne].
    + rewrite list_lookup_insert_eq by done. intros [= <-]. done.
    + destruct (Ho k' Hne) as [Hb' ->]. rewrite list_lookup_insert. case_decide as Hd.
      * destruct Hd as [Heq _]. intros [= <-]. rewrite Hb'. apply Hf. by rewrite <- Heq.
      * apply Hf.
Qed.

Lemma get_spec ht M k : represents ht M -> qd_hashmap_get ht k = Ok (default 0 (M !! k)).
Proof.
  intros (Hwf & _ & Hf). destruct (bucket_ok ht k Hwf) as [b Hb]. unfold qd_hashmap_get, get_bucket.
  fold (bucket_of ht k). rewrite Hb. simpl. by rewrite (Hf k b Hb).
Qed.

Lemma put_spec ht M k v : represents ht M ->
  exists ht', qd_hashmap_put true true ht k v = Ok (0, ht') /\ represents ht' (<[k:=v]> M).
Proof.
  intros Hr. pose proof Hr as (Hwf & Hc & Hf). destruct (bucket_ok ht k Hwf) as [b Hb].
  pose proof (Hf k b Hb) as Hk. assert (NoDup (ekey <$> b)) as Hnd by (by eapply Hwf).
  unfold qd_hashmap_put, get_bucket. fold (bucket_of ht k). rewrite Hb. simpl.
  destruct (find_entry b k) as [v0|] eqn:Ef; eexists; (split; [done|]).
  - eapply set_bucket_represents; [done|done|by rewrite replace_keys| | |].
    + rewrite Hc. by rewrite map_size_insert_Some.
    + rewrite find_replace, decide_True, Ef, lookup_insert_eq by done. done.
    + intros k' Hne. rewrite find_replace, decide_False, lookup_insert_ne by done. done.
  - eapply set_bucket_represents; [done|done| | | |].
    + simpl. apply NoDup_cons. split; [by apply find_entry_in|done].
    + rewrite Hc, map_size_insert_None by done. unfold u64. rewrite Zplus_mod_idemp_l. f_equal. lia.
    + simpl. by rewrite decide_True, lookup_insert_eq.
    + intros k' Hne. simpl. by rewrite decide_False, lookup_insert_ne.
Qed.

Lemma remove_spec ht M k : represents ht M ->
  exists ht', qd_hashmap_remove ht k = Ok (default 0 (M !! k), ht') /\ represents ht' (delete k M).
Proof.
  intros Hr. pose proof Hr as (Hwf & Hc & Hf). destruct (bucket_ok ht k Hwf) as [b Hb].
  pose proof (Hf k b Hb) as Hk. assert (NoDup (ekey <$> b)) as Hnd by (by eapply Hwf).
  unfold qd_hashmap_remove, get_bucket. fold (bucket_of ht k). rewrite Hb. simpl. rewrite <- Hk.
  destruct (find_entry b k) as [v0|] eqn:Ef; eexists; (split; [done|]).
  - eapply set_bucket_represents; [done|done| | | |].
    + eapply sublist_NoDup; [done|]. apply remove_keys.
    + rewrite Hc, map_size_delete_Some by eauto. unfold u64. rewrite Zminus_mod_idemp_l. f_equal.
      assert (base.size M <> 0%nat); [|lia]. intros E%map_size_empty_inv. by rewrite E, lookup_empty in Hk.
    + rewrite find_remove, decide_True, lookup_delete_eq by done. done.
    + intros k' Hne. rewrite find_remove, decide_False, lookup_delete_ne by done. done.
  - rewrite delete_id; done.
Qed.

(** ** Sequences of operations *)

Inductive map_op := OpPut (k : key) (v : Z) | OpGet (k : key) | OpRemove (k : key) | OpContains (k : key) | OpSize.

(** The reply of an operation, as the integer it returns. *)
Definition table_op (o : map_op) (ht : qd_hashtable) : outcome (Z * qd_hashtable) :=
  match o with
  | OpPut k v => qd_hashmap_put true true ht k v
  | OpGet k => let! v := qd_hashmap_get ht k in Ok (v, ht)
  | OpRemove k => qd_hashmap_remove ht k
  | OpContains k => let! b := qd_hashmap_contains ht k in Ok (if b then 1 else 0, ht)
  | OpSize => Ok (qd_hashmap_size ht, ht)
  end.

(** The contract: a finite map; NULL stands for an absent key. *)
Definition spec_op (o : map_op) (M : gmap key Z) : Z * gmap key Z :=
  match o with
  | OpPut k v => (0, <[k:=v]> M)
  | OpGet k => (default 0 (M !! k), M)
  | OpRemove k => (default 0 (M !! k), delete k M)
  | OpContains k => (if decide (default 0 (M !! k) = 0) then 0 else 1, M)
  | OpSize => (u64 (Z.of_nat (base.size M)), M)
  end.

Fixpoint table_ops (l : list map_op) (ht : qd_hashtable) : outcome (list Z * qd_hashtable) :=
  match l with
  | [] => Ok ([], ht)
  | o :: l => let! (r, ht) := table_op o ht in let! (rs, ht) := table_ops l ht in Ok (r :: rs, ht)
  end.

Fixpoint spec_ops (l : list map_op) (M : gmap key Z) : list Z * gmap key Z :=
  match l with
  | [] => ([], M)
  | o :: l => let (r, M) := spec_op o M in let (rs, M) := spec_ops l M in (r :: rs, M)
  end.

Lemma table_op_refines o ht M : represents ht M ->
  exists ht', table_op o ht = Ok ((spec_op o M).1, ht') /\ represents ht' (spec_op o M).2.
Proof.
  intros Hr. destruct o as [k v|k|k|k|]; simpl.
  - by apply put_spec.
  - rewrite (get_spec ht M) by done. by exists ht.
  - by apply remove_spec.
  - unfold qd_hashmap_contains. rewrite (get_spec ht M) by done. cbn [obind]. exists ht. split; [|done].
    destruct (Z.eqb_spec (default 0 (M !! k)) 0); by case_decide.
  - exists ht. split; [|done]. destruct Hr as (_ & Hc & _). unfold qd_hashmap_size. by rewrite Hc.
Qed.

Lemma table_ops_refine l : forall ht M, represents ht M ->
  exists ht', table_ops l ht = Ok ((spec_ops l M).1, ht') /\ represents ht' (spec_ops l M).2.
Proof.
  induction l as [|o l IH]; intros ht M Hr; [by exists ht|]. cbn [table_ops spec_ops].
  destruct (table_op_refines o ht M Hr) as (ht1 & -> & Hr1). cbn [obind]. destruct (spec_op o M) as [r M1].
  destruct (IH ht1 M1 Hr1) as (ht2 & E & Hr2). simpl in *. rewrite E. cbn [obind]. exists ht2.
  by destruct (spec_ops l M1).
Qed.

(** The number of buckets for a requested size. *)
Definition table_size (n : Z) : Z := if n =? 0 then 16 else 2 ^ Z.log2_up n.

Lemma init_represents n fuel : 0 <= n <= 2 ^ 63 -> (64 <= fuel)%nat ->
  exists ht, qd_hashtable_init fuel true n = Ok (0, Some ht) /\ size ht = table_size n /\ represents ht ∅.
Proof.
  intros Hn Hf. unfold qd_hashtable_init.
  assert (grow fuel 1 (if n =? 0 then 16 else n) = Ok (table_size n)) as ->.
  { unfold table_size. destruct (Z.eqb_spec n 0); rewrite grow_least by lia; done. }
  assert (exists j, 0 <= j <= 63 /\ table_size n = 2 ^ j) as (j & Hj & Ej).
  { unfold table_size. destruct (Z.eqb_spec n 0); [by exists 4|]. exists (Z.log2_up n).
    split; [|done]. split; [apply Z.log2_up_nonneg|]. rewrite <- (Z.log2_up_pow2 63) by lia.
    apply Z.log2_up_le_mono; lia. }
  assert (0 < 2 ^ j <= 2 ^ 63) as Hp by (split; [apply Z.pow_pos_nonneg|apply Z.pow_le_mono_r]; lia).
  cbn [obind negb]. eexists. split; [done|]. split; [done|].
  rewrite u64_small by (unfold_widths; lia). split; [split; [|split; [done|split]]|split; [done|]].
  - by exists j.
  - simpl. rewrite length_replicate. lia.
  - intros i b. simpl. intros [-> _]%lookup_replicate. apply NoDup_nil_2.
  - intros k b. simpl. intros [-> _]%lookup_replicate. by rewrite lookup_empty.
Qed.

(** ** Properties *)

(** C8: The string map implements a finite map.  On a new table of any requested
    size up to 2^63, every sequence of puts (with memory available), gets, removes,
    membership tests and size queries returns what a finite map returns, in which
    NULL stands for an absent key; no access leaves the bucket array, whatever the
    keys hash to. *)
Theorem hashmap_refines_map n fuel l :
  0 <= n <= 2 ^ 63 -> (64 <= fuel)%nat ->
  exists ht ht', qd_hashtable_init fuel true n = Ok (0, Some ht) /\
    table_ops l ht = Ok ((spec_ops l ∅).1, ht') /\ represents ht' (spec_ops l ∅).2.
Proof.
  intros Hn Hf. destruct (init_represents n fuel Hn Hf) as (ht & E & _ & Hr).
  destruct (table_ops_refine l ht ∅ Hr) as (ht' & E' & Hr'). by exists ht, ht'.
Qed.

(** A table of one bucket, so that all keys collide; the last test shows that a
    key with a NULL value counts in the size but is not contained. *)
Lemma hashmap_refines_map_witness : exists ht ht',
  qd_hashtable_init 64 true 1 = Ok (0, Some ht) /\
  table_ops [OpPut [97] 5; OpPut [98] 6; OpPut [97] 7; OpGet [97]; OpRemove [98]; OpGet [98]; OpSize;
             OpPut [99] 0; OpContains [99]; OpSize] ht
  = Ok ([0; 0; 0; 7; 6; 0; 1; 0; 0; 2], ht').
Proof.
  destruct (hashmap_refines_map 1 64 [OpPut [97] 5; OpPut [98] 6; OpPut [97] 7; OpGet [97]; OpRemove [98];
    OpGet [98]; OpSize; OpPut [99] 0; OpContains [99]; OpSize]) as (ht & ht' & E1 & E2 & _).
  - lia.
  - lia.
  - exists ht, ht'. split; [exact E1|]. rewrite E2. vm_compute. reflexivity.
Defined.

(** The size loop of qd_hashtable_init.  For a request of 1 to 2^63 buckets the
    loop ends with the least power of two that is not below it; for a larger request
    the doubled value wraps to 0 and the loop never ends. *)
Theorem table_size_loop n :
  0 < n ->
  (n <= 2 ^ 63 -> forall fuel, (64 <= fuel)%nat ->
     grow fuel 1 n = Ok (2 ^ Z.log2_up n) /\ n <= 2 ^ Z.log2_up n /\
     forall j, 0 <= j -> n <= 2 ^ j -> 2 ^ Z.log2_up n <= 2 ^ j) /\
  (2 ^ 63 < n -> forall fuel, grow fuel 1 n = Fuel).
Proof.
  intros Hn. split.
  - intros Hle fuel Hf. split; [by apply grow_least; [lia|]|]. split.
    + destruct (Z.eq_dec n 1) as [->|]; [done|]. apply Z.log2_up_spec. lia.
    + intros j Hj Hnj. by apply log2_up_least; [lia| |].
  - intros Hgt fuel. change 1 with (2 ^ 0). apply (grow_wraps 63); lia.
Qed.

Lemma table_size_loop_witness :
  grow 64 1 100 = Ok (2 ^ Z.log2_up 100) /\ forall fuel, grow fuel 1 (2 ^ 63 + 1) = Fuel.
Proof.
  split.
  - apply (proj1 (table_size_loop 100 ltac:(lia)) ltac:(lia) 64%nat). lia.
  - apply (proj2 (table_size_loop (2 ^ 63 + 1) ltac:(lia))). lia.
Defined.
