(* ===== verification/Config.v ===== *)
(** * src/daemon/qd_config.c: the INI configuration

    A configuration is the global section and a list of named sections; a section
    is a list of entries in the order they were added.  A pointer to a section is
    a [sec_ref]: the global one or an index.  Allocation is assumed to succeed. *)

From S2P Require Import Prelude Common CString.

Record qd_config_entry := mkEntry { key : cstr; value : option cstr }.
Record qd_config_section := mkSection { name : option cstr; entries : list qd_config_entry }.
Record qd_config := mkConfig {
  path : option cstr;
  sections : list qd_config_section;
  global : qd_config_section
}.

Inductive sec_ref := Global | Sec (i : nat).

#[export] Instance sec_ref_dec : EqDecision sec_ref.
Proof. solve_decision. Defined.

(** ** trim *)

(** Leading blanks are skipped; from the end, blanks are cut as long as the end is
    behind the first character. *)
Definition trim (s : cstr) : cstr :=
  match skip_spaces s with
  | [] => []
  | x :: t => x :: reverse (skip_spaces (reverse t))
  end.

(** ** Entries and sections *)

Fixpoint find_entry (l : list qd_config_entry) (k : cstr) : option qd_config_entry :=
  match l with
  | [] => None
  | e :: l => if decide (key e = k) then Some e else find_entry l k
  end.

(** An existing entry gets the new value, a new one goes to the end. *)
Fixpoint add_entry (l : list qd_config_entry) (k : cstr) (v : option cstr) : list qd_config_entry :=
  match l with
  | [] => [mkEntry k v]
  | e :: l => if decide (key e = k) then mkEntry (key e) v :: l else e :: add_entry l k v
  end.

Definition section_create (n : option cstr) : qd_config_section := mkSection n [].
Definition qd_config_create : qd_config := mkConfig None [] (section_create None).

Definition get_sec (c : qd_config) (r : sec_ref) : option qd_config_section :=
  match r with Global => Some (global c) | Sec i => sections c !! i end.

Definition put_sec (c : qd_config) (r : sec_ref) (s : qd_config_section) : qd_config :=
  match r with
  | Global => mkConfig (path c) (sections c) s
  | Sec i => mkConfig (path c) (<[i:=s]> (sections c)) (global c)
  end.

Definition add_to (c : qd_config) (r : sec_ref) (k : cstr) (v : option cstr) : qd_config :=
  match get_sec c r with
  | Some s => put_sec c r (mkSection (name s) (add_entry (entries s) k v))
  | None => c
  end.

Fixpoint find_section (l : list qd_config_section) (n : cstr) (i : nat) : option sec_ref :=
  match l with
  | [] => None
  | s :: l => if decide (name s = Some n) then Some (Sec i) else find_section l n (S i)
  end.

Definition qd_config_get_section (c : qd_config) (n : option cstr) : option sec_ref :=
  match n with
  | None | Some [] => Some Global
  | Some n => find_section (sections c) n 0
  end.

Definition qd_config_create_section (c : qd_config) (n : cstr) : sec_ref * qd_config :=
  match qd_config_get_section c (Some n) with
  | Some r => (r, c)
  | None => (Sec (length (sections c)), mkConfig (path c) (sections c ++ [section_create (Some n)]) (global c))
  end.

Fixpoint remove_section (l : list qd_config_section) (n : cstr) : option (list qd_config_section) :=
  match l with
  | [] => None
  | s :: l => if decide (name s = Some n) then Some l
              else match remove_section l n with Some l' => Some (s :: l') | None => None end
  end.

Definition qd_config_remove_section (c : qd_config) (n : cstr) : Z * qd_config :=
  match remove_section (sections c) n with
  | Some l => (QD_OK, mkConfig (path c) l (global c))
  | None => (QD_ERR_NOENT, c)
  end.

Definition qd_config_has_section (c : qd_config) (n : option cstr) : bool :=
  match qd_config_get_section c n with Some _ => true | None => false end.

(** ** Parsing *)

(** One line, already cut at its newline; [cur] is the current section. *)
Definition parse_line (c : qd_config) (cur : sec_ref) (line : cstr) : qd_config * sec_ref :=
  match trim line with
  | [] => (c, cur)
  | x :: t =>
    let p := x :: t in
    if (x =? 35) || (x =? 59) then (c, cur)
    else if x =? 91 then
      match strchr p 93 with
      | Some (b, _) => let (r, c) := qd_config_create_section c (trim (drop 1 b)) in (c, r)
      | None => (c, cur)
      end
    else
      match strchr p 61 with
      | Some (b, a) => (add_to c cur (trim b) (Some (trim a)), cur)
      | None => (c, cur)
      end
  end.

(** The loop of qd_config_load_string: [next = strchr(line, '\n')]. *)
Fixpoint load_lines (fuel : nat) (c : qd_config) (cur : sec_ref) (line : cstr) : outcome qd_config :=
  match line with
  | [] => Ok c
  | _ =>
    match fuel with
    | O => Fuel
    | S fuel =>
      match strchr line 10 with
      | Some (l, next) => let (c, cur) := parse_line c cur l in load_lines fuel c cur next
      | None => Ok (parse_line c cur line).1
      end
    end
  end.

(** The length of the string bounds the number of lines. *)
Definition qd_config_load_string (s : option cstr) : outcome (option qd_config) :=
  match s with
  | None => Ok None
  | Some s => let! c := load_lines (S (length s)) qd_config_create Global s in Ok (Some c)
  end.

(** [fgets(line, 1024, fp)]: up to 1023 bytes, through the first newline. *)
Fixpoint fgets (n : nat) (file : list Z) : list Z * list Z :=
  match n, file with
  | S n, x :: t => if x =? 10 then ([x], t) else let (a, b) := fgets n t in (x :: a, b)
  | _, _ => ([], file)
  end.

Fixpoint load_file (fuel : nat) (c : qd_config) (cur : sec_ref) (file : list Z) : outcome qd_config :=
  match file with
  | [] => Ok c
  | _ =>
    match fuel with
    | O => Fuel
    | S fuel =>
      let (line, file) := fgets 1023 file in
      let (c, cur) := parse_line c cur (until_nul line) in
      load_file fuel c cur file
    end
  end.

(** [file]: the content of the file, None if it cannot be opened. *)
Definition qd_config_load (p : cstr) (file : option (list Z)) : outcome (option qd_config) :=
  match file with
  | None => Ok None
  | Some f =>
    let! c := load_file (S (length f)) (mkConfig (Some p) [] (section_create None)) Global f in Ok (Some c)
  end.

Definition qd_config_reload (c : qd_config) (file : option (list Z)) : outcome (Z * qd_config) :=
  match path c with
  | None => Ok (QD_ERR_INVAL, c)
  | Some p =>
    let! n := qd_config_load p file in
    match n with
    | None => Ok (QD_ERR_IO, c)
    | Some n => Ok (QD_OK, mkConfig (path c) (sections n) (global n))
    end
  end.

(** ** Printing *)

Definition print_entry (e : qd_config_entry) : list Z :=
  key e ++ " = "%string ++ default [] (value e) ++ [10].

Definition print_section (s : qd_config_section) : list Z :=
  [10; 91] ++ default ("(null)"%string : cstr) (name s) ++ [93; 10] ++ mjoin (print_entry <$> entries s).

Definition qd_config_print (c : qd_config) : list Z :=
  mjoin (print_entry <$> entries (global c)) ++ mjoin (print_section <$> sections c).

(** The file qd_config_save writes. *)
Definition qd_config_save (c : qd_config) : list Z := qd_config_print c.

(** ** Getters *)

Definition lookup (c : qd_config) (sec : option cstr) (k : cstr) : option qd_config_entry :=
  match qd_config_get_section c sec with
  | Some r => match get_sec c r with Some s => find_entry (entries s) k | None => None end
  | None => None
  end.

Definition qd_config_has_key (c : qd_config) (sec : option cstr) (k : cstr) : bool :=
  match lookup c sec k with Some _ => true | None => false end.

Definition qd_config_get_string (c : qd_config) (sec : option cstr) (k : cstr) (def : option cstr) : option cstr :=
  match lookup c sec k with
  | Some e => match value e with Some v => Some v | None => def end
  | None => def
  end.

Definition qd_config_get_int (c : qd_config) (sec : option cstr) (k : cstr) (def : Z) : Z :=
  match qd_config_get_string c sec k None with Some s => (strtoll s).1 | None => def end.

Definition qd_config_get_uint (c : qd_config) (sec : option cstr) (k : cstr) (def : Z) : Z :=
  match qd_config_get_string c sec k None with Some s => (strtoull s).1 | None => def end.

Definition qd_config_get_bool (c : qd_config) (sec : option cstr) (k : cstr) (def : Z) : Z :=
  match qd_config_get_string c sec k None with
  | None => def
  | Some s =>
    if strcaseeq s "true"%string || strcaseeq s "yes"%string || bool_decide (s = ("1"%string : cstr)) then 1
    else if strcaseeq s "false"%string || strcaseeq s "no"%string || bool_decide (s = ("0"%string : cstr)) then 0
    else def
  end.

Definition qd_config_get_size (c : qd_config) (sec : option cstr) (k : cstr) (def : Z) : Z :=
  match qd_config_get_string c sec k None with
  | None => def
  | Some s =>
    let (v, end_) := strtoull s in
    let x := toupper (default 0 (head end_)) in
    if x =? 75 then v *64 1024 else if x =? 77 then v *64 (1024 * 1024)
    else if x =? 71 then v *64 (1024 * 1024 * 1024) else v
  end.

(** A signed overflow of the product is undefined. *)
Definition mul_i64 (a b : Z) : outcome Z :=
  if (- 2 ^ 63 <=? a * b) && (a * b <? 2 ^ 63) then Ok (a * b) else Undef.

Definition qd_config_get_duration_ms (c : qd_config) (sec : option cstr) (k : cstr) (def : Z) : outcome Z :=
  match qd_config_get_string c sec k None with
  | None => Ok def
  | Some s =>
    let (v, end_) := strtoll s in
    if strcaseeq end_ "s"%string then mul_i64 v 1000
    else if strcaseeq end_ "m"%string then mul_i64 v 60000
    else if strcaseeq end_ "h"%string then mul_i64 v 3600000
    else Ok v
  end.

(** ** Setters *)

Definition qd_config_set_string (c : qd_config) (sec : option cstr) (k : cstr) (v : option cstr) : Z * qd_config :=
  match qd_config_get_section c sec with
  | Some r => (QD_OK, add_to c r k v)
  | None =>
    match sec with
    | Some n => let (r, c) := qd_config_create_section c n in (QD_OK, add_to c r k v)
    | None => (QD_ERR_NOMEM, c)
    end
  end.

Definition qd_config_set_int (c : qd_config) (sec : option cstr) (k : cstr) (v : Z) : Z * qd_config :=
  qd_config_set_string c sec k (Some (print_lld v)).

Definition qd_config_set_bool (c : qd_config) (sec : option cstr) (k : cstr) (v : Z) : Z * qd_config :=
  qd_config_set_string c sec k (Some (if negb (v =? 0) then ("true"%string : cstr) else "false"%string)).

Fixpoint remove_entry (l : list qd_config_entry) (k : cstr) : option (list qd_config_entry) :=
  match l with
  | [] => None
  | e :: l => if decide (key e = k) then Some l
              else match remove_entry l k with Some l' => Some (e :: l') | None => None end
  end.

Definition qd_config_remove_key (c : qd_config) (sec : option cstr) (k : cstr) : Z * qd_config :=
  match qd_config_get_section c sec with
  | None => (QD_ERR_NOENT, c)
  | Some r =>
    match get_sec c r with
    | None => (QD_ERR_NOENT, c)
    | Some s =>
      match remove_entry (entries s) k with
      | Some l => (QD_OK, put_sec c r (mkSection (name s) l))
      | None => (QD_ERR_NOENT, c)
      end
    end
  end.

(** ** Arrays *)

(** [strtok_r(copy, ",", &sv)]: the maximal runs of characters other than commas. *)
Fixpoint tokens (cur : cstr) (s : cstr) : list cstr :=
  match s with
  | [] => match cur with [] => [] | _ => [reverse cur] end
  | x :: t =>
    if x =? 44 then match cur with [] => tokens [] t | _ => reverse cur :: tokens [] t end
    else tokens (x :: cur) t
  end.

(** The array has one more element than the string has commas, which is never
    less than the number of tokens. *)
Definition qd_config_get_array (c : qd_config) (sec : option cstr) (k : cstr) : list cstr :=
  match qd_config_get_string c sec k None with
  | None => []
  | Some s =>
    let n := S (length (filter (fun x => x = 44) s)) in
    take n (trim <$> tokens [] s)
  end.

Fixpoint join_values (vals : list cstr) : cstr :=
  match vals with
  | [] => []
  | [v] => v
  | v :: vals => v ++ ", "%string ++ join_values vals
  end.

Definition qd_config_set_array (c : qd_config) (sec : option cstr) (k : cstr) (vals : list cstr) : Z * qd_config :=
  qd_config_set_string c sec k (Some (join_values vals)).

(** ** Whole configurations *)

Definition add_entries (c : qd_config) (r : sec_ref) (l : list qd_config_entry) : qd_config :=
  foldl (fun c e => add_to c r (key e) (value e)) c l.

(** One round of the section loop of clone and merge; a section whose name is NULL
    is not created and its entries would go to a null pointer. *)
Definition merge_section (c : qd_config) (s : qd_config_section) : outcome qd_config :=
  match name s with
  | Some n => let (r, c) := qd_config_create_section c n in Ok (add_entries c r (entries s))
  | None => match entries s with [] => Ok c | _ => Undef end
  end.

Fixpoint merge_sections (c : qd_config) (l : list qd_config_section) : outcome qd_config :=
  match l with
  | [] => Ok c
  | s :: l => let! c := merge_section c s in merge_sections c l
  end.

Definition qd_config_merge (d s : qd_config) : outcome (Z * qd_config) :=
  let! d := merge_sections (add_entries d Global (entries (global s))) (sections s) in Ok (QD_OK, d).

Definition qd_config_clone (c : option qd_config) : outcome qd_config :=
  match c with
  | None => Ok qd_config_create
  | Some c => merge_sections (add_entries qd_config_create Global (entries (global c))) (sections c)
  end.

(** ** Schemas *)

Record qd_config_schema_entry := mkSchema {
  sch_section : option cstr;
  sch_key : cstr;
  required : Z;
  default_value : option cstr
}.

Definition qd_config_validate (c : qd_config) (sch : list qd_config_schema_entry) : Z :=
  if existsb (fun e => negb (required e =? 0) && negb (qd_config_has_key c (sch_section e) (sch_key e))) sch
  then QD_ERR_INVAL else QD_OK.

Definition apply_default (c : qd_config) (e : qd_config_schema_entry) : qd_config :=
  match default_value e with
  | Some v =>
    if negb (qd_config_has_key c (sch_section e) (sch_key e))
    then (qd_config_set_string c (sch_section e) (sch_key e) (Some v)).2 else c
  | None => c
  end.

Definition qd_config_apply_defaults (c : qd_config) (sch : list qd_config_schema_entry) : qd_config :=
  foldl apply_default c sch.

Example load_ex :
  qd_config_load_string (Some ("a = 1
# c
[net]
 port= 80 
a=2
[] 
b = x=y"%string : cstr))
  = Ok (Some (mkConfig None
      [mkSection (Some ("net"%string : cstr))
         [mkEntry "port"%string (Some ("80"%string : cstr)); mkEntry "a"%string (Some ("2"%string : cstr))]]
      (mkSection None [mkEntry "a"%string (Some ("1"%string : cstr)); mkEntry "b"%string (Some ("x=y"%string : cstr))]))).
Proof. vm_compute. reflexivity. Qed.

(** ** Well-formed configurations

    Keys are distinct within a section, section names are distinct and not empty. *)

Definition keys_ok (l : list qd_config_entry) : Prop := NoDup (key <$> l).

Definition names_ok (l : list qd_config_section) : Prop :=
  NoDup (name <$> l) /\ Forall (fun s => exists x n, name s = Some (x :: n)) l.

Record config_wf (c : qd_config) : Prop := {
  cw_global : name (global c) = None /\ keys_ok (entries (global c));
  cw_names : names_ok (sections c);
  cw_keys : Forall (fun s => keys_ok (entries s)) (sections c)
}.

(** The section a name denotes: NULL and "" are the global one. *)
Definition norm (sec : option cstr) : option cstr :=
  match sec with Some [] => None | s => s end.

(** The entries of a section, None if it does not exist. *)
Definition sec_entries (c : qd_config) (sec : option cstr) : option (list qd_config_entry) :=
  match qd_config_get_section c sec with Some r => entries <$> get_sec c r | None => None end.

Lemma lookup_entries c sec k :
  lookup c sec k = match sec_entries c sec with Some l => find_entry l k | None => None end.
Proof.
  unfold lookup, sec_entries. destruct (qd_config_get_section c sec) as [r|]; [|done]. by destruct (get_sec c r).
Qed.

Lemma find_add_entry l k v k' :
  find_entry (add_entry l k v) k' = (if decide (k = k') then Some (mkEntry k v) else find_entry l k').
Proof.
  induction l as [|e l IH]; simpl; [done|]. destruct (decide (key e = k)) as [<-|Hne]; simpl.
  - by repeat case_decide.
  - rewrite IH. repeat case_decide; congruence.
Qed.

Lemma add_entry_keys l k v :
  key <$> add_entry l k v = if decide (k ∈ key <$> l) then key <$> l else (key <$> l) ++ [k].
Proof.
  induction l as [|e l IH]; [done|]. cbn [add_entry]. rewrite fmap_cons.
  destruct (decide (key e = k)) as [<-|Hne].
  - rewrite decide_True by apply list_elem_of_here. done.
  - rewrite fmap_cons, IH. destruct (decide (k ∈ key <$> l)) as [Hin|Hn].
    + by rewrite decide_True by (by apply list_elem_of_further).
    + rewrite decide_False; [done|]. rewrite not_elem_of_cons. by split.
Qed.

Lemma add_entry_ok l k v : keys_ok l -> keys_ok (add_entry l k v).
Proof.
  unfold keys_ok. intros Hl. rewrite add_entry_keys. case_decide; [done|].
  apply NoDup_app. split; [done|]. split; [|apply NoDup_singleton]. by intros x Hx ->%list_elem_of_singleton.
Qed.

Lemma add_entry_fresh l k v : k ∉ key <$> l -> add_entry l k v = l ++ [mkEntry k v].
Proof.
  induction l as [|e l IH]; [done|]. rewrite fmap_cons, not_elem_of_cons. intros [Hne Hn]. simpl.
  rewrite decide_False by congruence. by rewrite IH.
Qed.

(** *** Finding a section *)

Lemma find_section_spec l n i :
  match find_section l n i with
  | Some r => exists j s, r = Sec (i + j) /\ l !! j = Some s /\ name s = Some n /\
                (forall j' s', (j' < j)%nat -> l !! j' = Some s' -> name s' <> Some n)
  | None => Forall (fun s => name s <> Some n) l
  end.
Proof.
  revert i. induction l as [|s l IH]; intros i; simpl; [by apply List.Forall_nil|].
  destruct (decide (name s = Some n)) as [E|Hne].
  - exists 0%nat, s. split; [f_equal; lia|]. split; [done|]. split; [done|]. intros; lia.
  - specialize (IH (S i)). destruct (find_section l n (S i)) as [r|].
    + destruct IH as (j & s' & -> & Hj & Hs & Hfst). exists (S j), s'. split; [f_equal; lia|].
      split; [done|]. split; [done|]. intros [|j'] s0 Hlt Hs0; [by injection Hs0 as <-|].
      by apply (Hfst j'); [lia|].
    + by apply Forall_cons.
Qed.

Lemma find_section_names l l' n i : name <$> l' = name <$> l -> find_section l' n i = find_section l n i.
Proof.
  revert l i. induction l' as [|s' l' IH]; intros [|s l] i E; try done.
  rewrite !fmap_cons in E. injection E as E1 E2. simpl. rewrite E1. by rewrite (IH l).
Qed.

Lemma find_section_app l s n i :
  find_section (l ++ [s]) n i =
  match find_section l n i with
  | Some r => Some r
  | None => if decide (name s = Some n) then Some (Sec (i + length l)) else None
  end.
Proof.
  revert i. induction l as [|s0 l IH]; intros i; simpl.
  - rewrite Nat.add_0_r. done.
  - destruct (decide (name s0 = Some n)); [done|]. rewrite IH. by rewrite Nat.add_succ_comm.
Qed.

Lemma get_section_norm c sec : qd_config_get_section c (norm sec) = qd_config_get_section c sec.
Proof. by destruct sec as [[|]|]. Qed.

(** A reference that a name resolves to denotes a section. *)
Lemma get_section_valid c sec r : qd_config_get_section c sec = Some r -> is_Some (get_sec c r).
Proof.
  destruct sec as [[|x n]|]; simpl; try (intros [= <-]; eauto; fail).
  pose proof (find_section_spec (sections c) (x :: n) 0) as Hs. intros E. rewrite E in Hs.
  destruct Hs as (j & s & -> & Hj & _). simpl. eauto.
Qed.

(** Two names that resolve to the same reference are the same name. *)
Lemma get_section_inj c sec sec' r :
  qd_config_get_section c sec = Some r -> qd_config_get_section c sec' = Some r -> norm sec = norm sec'.
Proof.
  assert (forall n j, find_section (sections c) n 0 = Some (Sec j) ->
    exists s, sections c !! j = Some s /\ name s = Some n) as Hf.
  { intros n j E. pose proof (find_section_spec (sections c) n 0) as Hs. rewrite E in Hs.
    destruct Hs as (j' & s & [= ->] & Hj & Hs & _). eauto. }
  assert (forall n, find_section (sections c) n 0 <> Some Global) as Hg.
  { intros n E. pose proof (find_section_spec (sections c) n 0) as Hs. rewrite E in Hs.
    by destruct Hs as (j & s & [=] & _). }
  destruct sec as [[|x n]|], sec' as [[|y m]|]; simpl; intros E E'; try done;
    try (injection E as <-; by apply Hg in E'); try (injection E' as <-; by apply Hg in E).
  destruct r as [|j]; [by apply Hg in E|].
  destruct (Hf _ _ E) as (s & Hs & Hn), (Hf _ _ E') as (s' & Hs' & Hn'). congruence.
Qed.

(** *** Adding an entry through a reference *)

Lemma put_sec_names c r s s0 : get_sec c r = Some s0 -> name s = name s0 ->
  name <$> sections (put_sec c r s) = name <$> sections c.
Proof.
  destruct r as [|i]; [done|]. simpl. intros Hs0 Hn. apply list_eq. intros j. rewrite !list_lookup_fmap.
  rewrite list_lookup_insert. case_decide as Hd; [|done]. destruct Hd as [<- _]. rewrite Hs0. simpl. congruence.
Qed.

Lemma add_to_section c r k v sec : qd_config_get_section (add_to c r k v) sec = qd_config_get_section c sec.
Proof.
  unfold add_to. destruct (get_sec c r) as [s|] eqn:E; [|done].
  destruct sec as [[|x n]|]; simpl; try done. apply find_section_names. by eapply put_sec_names.
Qed.

Lemma get_put_sec c r s r' : is_Some (get_sec c r) ->
  get_sec (put_sec c r s) r' = if decide (r = r') then Some s else get_sec c r'.
Proof.
  intros [s0 Hs]. destruct r as [|i], r' as [|j]; simpl; try done.
  - rewrite list_lookup_insert. apply lookup_lt_Some in Hs.
    destruct (decide (Sec i = Sec j)) as [[= ->]|Hne]; [by rewrite decide_True|].
    rewrite decide_False; [done|]. naive_solver.
Qed.

Lemma add_to_entries c sec r k v sec' :
  qd_config_get_section c sec = Some r ->
  sec_entries (add_to c r k v) sec' =
  if decide (norm sec = norm sec') then (fun l => add_entry l k v) <$> sec_entries c sec else sec_entries c sec'.
Proof.
  intros Hr. destruct (get_section_valid _ _ _ Hr) as [s Hs]. unfold sec_entries. rewrite add_to_section.
  destruct (decide (norm sec = norm sec')) as [Hn|Hn].
  - rewrite <- (get_section_norm c sec'), <- Hn, (get_section_norm c sec), Hr. unfold add_to. rewrite Hs.
    rewrite get_put_sec, decide_True by eauto. done.
  - destruct (qd_config_get_section c sec') as [r'|] eqn:Hr'; [|done]. unfold add_to. rewrite Hs.
    rewrite get_put_sec by eauto. rewrite decide_False; [done|]. intros <-. by eapply Hn, get_section_inj.
Qed.

(** *** Creating a section *)

Lemma create_section_spec c n r c' :
  qd_config_create_section c n = (r, c') ->
  qd_config_get_section c' (Some n) = Some r /\
  (forall sec, norm sec <> norm (Some n) -> sec_entries c' sec = sec_entries c sec) /\
  sec_entries c' (Some n) = Some (default [] (sec_entries c (Some n))) /\ path c' = path c /\ global c' = global c.
Proof.
  unfold qd_config_create_section. destruct (qd_config_get_section c (Some n)) as [r0|] eqn:E.
  - intros [= <- <-]. split; [done|]. split; [done|]. split; [|done].
    unfold sec_entries. rewrite E. destruct (get_section_valid _ _ _ E) as [s ->]. done.
  - intros [= <- <-]. destruct n as [|x n]; [done|]. set (c' := mkConfig _ _ _).
    assert (forall sec, qd_config_get_section c' sec =
      if decide (norm sec = Some (x :: n)) then Some (Sec (length (sections c))) else qd_config_get_section c sec) as Hg.
    { intros [[|y m]|]; try done. simpl in *. rewrite find_section_app. simpl.
      destruct (decide (Some (y :: m) = Some (x :: n))) as [[= -> ->]|Hne].
      - rewrite E. by rewrite decide_True.
      - rewrite decide_False by congruence. by destruct (find_section (sections c) (y :: m) 0). }
    split; [by rewrite Hg, decide_True|]. split; [|split; [|done]].
    + intros sec Hne. unfold sec_entries. rewrite Hg, decide_False by done.
      destruct (qd_config_get_section c sec) as [[|j]|] eqn:Ej; try done.
      destruct (get_section_valid _ _ _ Ej) as [s Hs]. simpl in *. rewrite lookup_app_l; [done|].
      by apply lookup_lt_Some in Hs.
    + unfold sec_entries. rewrite Hg, decide_True, E by done. simpl.
      by rewrite lookup_app_r, Nat.sub_diag by lia.
Qed.

(** Setting a string: the section is created if need be, everything else stays. *)
Lemma set_string_entries c sec k v sec' :
  sec_entries (qd_config_set_string c sec k v).2 sec' =
  if decide (norm sec = norm sec') then Some (add_entry (default [] (sec_entries c sec)) k v) else sec_entries c sec'.
Proof.
  unfold qd_config_set_string. destruct (qd_config_get_section c sec) as [r|] eqn:E; cbn [snd].
  - rewrite (add_to_entries c sec r) by done. case_decide; [|done].
    unfold sec_entries. rewrite E. by destruct (get_section_valid _ _ _ E) as [s ->].
  - destruct sec as [n|]; [|done]. destruct (qd_config_create_section c n) as [r c'] eqn:Ec.
    destruct (create_section_spec c n r c' Ec) as (Hr & Ho & Hn & _). cbn [snd].
    rewrite (add_to_entries c' (Some n) r) by done. case_decide as Hd.
    + rewrite Hn. reflexivity.
    + apply Ho. congruence.
Qed.

(** *** Preservation of well-formedness *)

Lemma sections_insert_wf (l : list qd_config_section) i s s0 :
  l !! i = Some s0 -> name s = name s0 -> names_ok l -> names_ok (<[i:=s]> l).
Proof.
  intros Hi Hn [Hnd Hne].
  assert (name <$> <[i:=s]> l = name <$> l) as E.
  { apply (put_sec_names (mkConfig None l s0) (Sec i) s s0); done. }
  split; [by rewrite E|]. apply Forall_insert; [done|]. rewrite Hn. by eapply Forall_lookup_1 in Hne.
Qed.

Lemma add_to_wf c r k v : config_wf c -> config_wf (add_to c r k v).
Proof.
  intros [[Hg Hk] Hn Hks]. unfold add_to. destruct (get_sec c r) as [s|] eqn:E; [|by split].
  destruct r as [|i]; simpl in *.
  - injection E as <-. split; simpl; [split; [done|by apply add_entry_ok]|done|done].
  - split; simpl; [done|by eapply sections_insert_wf|]. apply Forall_insert; [done|]. simpl.
    apply add_entry_ok. by eapply (Forall_lookup_1 _ _ _ _ Hks).
Qed.

Lemma create_section_wf c n r c' : config_wf c -> qd_config_create_section c n = (r, c') -> config_wf c'.
Proof.
  intros [Hg [Hnd Hne] Hks]. unfold qd_config_create_section.
  destruct (qd_config_get_section c (Some n)) as [r0|] eqn:E; intros [= <- <-]; [by split|].
  destruct n as [|x n]; [done|]. simpl in E.
  pose proof (find_section_spec (sections c) (x :: n) 0) as Hs. rewrite E in Hs.
  split; simpl; [done| |].
  - split.
    + rewrite fmap_app. apply NoDup_app. split; [done|]. split; [|apply NoDup_singleton].
      intros y Hy ->%list_elem_of_singleton. apply list_elem_of_fmap in Hy as (s & Hs1 & Hs2).
      rewrite Forall_forall in Hs. by apply (Hs s Hs2).
    + apply Forall_app. split; [done|]. apply Forall_singleton. by exists x, n.
  - apply Forall_app. split; [done|]. apply Forall_singleton. apply NoDup_nil_2.
Qed.

Lemma set_string_wf c sec k v : config_wf c -> config_wf (qd_config_set_string c sec k v).2.
Proof.
  intros Hc. unfold qd_config_set_string. destruct (qd_config_get_section c sec); [by apply add_to_wf|].
  destruct sec as [n|]; [|done]. destruct (qd_config_create_section c n) as [r c'] eqn:E.
  apply add_to_wf. by eapply create_section_wf.
Qed.

Lemma parse_line_wf c cur line : config_wf c -> config_wf (parse_line c cur line).1.
Proof.
  intros Hc. unfold parse_line. destruct (trim line) as [|x t]; [done|].
  destruct ((x =? 35) || (x =? 59)); [done|]. destruct (x =? 91).
  - destruct (strchr (x :: t) 93) as [[b a]|]; [|done].
    destruct (qd_config_create_section c (trim (drop 1 b))) as [r c'] eqn:E. simpl. by eapply create_section_wf.
  - destruct (strchr (x :: t) 61) as [[b a]|]; [|done]. by apply add_to_wf.
Qed.

Lemma create_wf : config_wf qd_config_create.
Proof. split; [split; [done|apply NoDup_nil_2]|split; [apply NoDup_nil_2|done]|done]. Qed.

(** The loop ends within the length of the text. *)
Lemma load_lines_ok fuel : forall c cur line,
  config_wf c -> (length line < fuel)%nat -> exists c', load_lines fuel c cur line = Ok c' /\ config_wf c'.
Proof.
  induction fuel as [|fuel IH]; intros c cur line Hc Hf; [lia|].
  destruct line as [|x line]; [by exists c|]. cbn [load_lines].
  destruct (strchr (x :: line) 10) as [[l next]|] eqn:E.
  - apply strchr_inv in E as [E _]. pose proof (parse_line_wf c cur l Hc) as Hw.
    destruct (parse_line c cur l) as [c1 cur1]. apply IH; [done|].
    apply (f_equal length) in E. rewrite length_app in E. simpl in *. lia.
  - eexists. split; [done|]. by apply parse_line_wf.
Qed.

(** *** Building a section from its entries *)

Lemma add_entries_global c l :
  keys_ok (entries (global c) ++ l) ->
  add_entries c Global l = mkConfig (path c) (sections c) (mkSection (name (global c)) (entries (global c) ++ l)).
Proof.
  revert c. induction l as [|[k v] l IH]; intros c Hk; simpl.
  - rewrite app_nil_r. by destruct c as [? ? []].
  - unfold add_entries in *. simpl. rewrite IH; simpl.
    + rewrite add_entry_fresh; [by rewrite <- app_assoc|].
      unfold keys_ok in Hk. rewrite fmap_app in Hk. apply NoDup_app in Hk as (_ & Hd & _). intros Hin.
      apply (Hd k Hin). rewrite fmap_cons. apply list_elem_of_here.
    + rewrite add_entry_fresh; [by rewrite <- app_assoc|].
      unfold keys_ok in Hk. rewrite fmap_app in Hk. apply NoDup_app in Hk as (_ & Hd & _). intros Hin.
      apply (Hd k Hin). rewrite fmap_cons. apply list_elem_of_here.
Qed.

Lemma add_entries_last p ss n g l l' :
  keys_ok (l ++ l') ->
  add_entries (mkConfig p (ss ++ [mkSection n l]) g) (Sec (length ss)) l' = mkConfig p (ss ++ [mkSection n (l ++ l')]) g.
Proof.
  revert l. induction l' as [|[k v] l' IH]; intros l Hk; simpl; [by rewrite app_nil_r|].
  assert (add_entry l k v = l ++ [mkEntry k v]) as Ea.
  { apply add_entry_fresh. unfold keys_ok in Hk. rewrite fmap_app in Hk. apply NoDup_app in Hk as (_ & Hd & _).
    intros Hin. apply (Hd k Hin). rewrite fmap_cons. apply list_elem_of_here. }
  unfold add_entries in *. simpl. unfold add_to at 2. simpl.
  rewrite lookup_app_r, Nat.sub_diag by lia. simpl. rewrite Ea.
  rewrite insert_app_r_alt, Nat.sub_diag by lia. simpl.
  rewrite IH; [by rewrite <- app_assoc|]. by rewrite <- app_assoc.
Qed.

(** *** Rebuilding a configuration from its parts *)

Lemma merge_sections_fresh p g l : forall done,
  names_ok (done ++ l) -> Forall (fun s => keys_ok (entries s)) l ->
  merge_sections (mkConfig p done g) l = Ok (mkConfig p (done ++ l) g).
Proof.
  induction l as [|s l IH]; intros done Hn Hk; [by rewrite app_nil_r|].
  apply Forall_cons in Hk as [Hs Hk]. cbn [merge_sections]. destruct Hn as [Hnd Hne].
  pose proof Hne as Hne2. apply Forall_app in Hne2 as [_ Hne2]. apply Forall_cons in Hne2 as [(x & m & En) _].
  unfold merge_section. rewrite En. unfold qd_config_create_section, qd_config_get_section.
  cbn [sections]. pose proof (find_section_spec done (x :: m) 0) as Hf.
  destruct (find_section done (x :: m) 0) as [r|].
  - exfalso. destruct Hf as (j & s' & _ & Hj & Hs' & _). rewrite fmap_app, fmap_cons in Hnd.
    apply NoDup_app in Hnd as (_ & Hd & _). apply (Hd (name s')).
    + apply list_elem_of_fmap. exists s'. split; [done|]. by eapply list_elem_of_lookup_2.
    + rewrite Hs', En. apply list_elem_of_here.
  - cbn [path global]. unfold section_create. rewrite add_entries_last by done. cbn [obind app].
    replace (mkSection (Some (x :: m)) (entries s)) with s by (destruct s; simpl in *; congruence).
    rewrite IH; [by rewrite <- app_assoc|by rewrite <- app_assoc|done].
Qed.

Lemma rebuild c : config_wf c ->
  merge_sections (add_entries qd_config_create Global (entries (global c))) (sections c)
  = Ok (mkConfig None (sections c) (global c)).
Proof.
  intros [[Hg Hk] Hn Hks]. rewrite add_entries_global by done. simpl.
  rewrite merge_sections_fresh by done. simpl. do 2 f_equal. destruct (global c); simpl in *; congruence.
Qed.

(** *** Lookups in a merged configuration *)

Lemma add_entries_section c r l sec : qd_config_get_section (add_entries c r l) sec = qd_config_get_section c sec.
Proof.
  revert c. induction l as [|e l IH]; intros c; [done|]. unfold add_entries in *. simpl. by rewrite IH, add_to_section.
Qed.

Lemma add_to_lookup c sec r k v sec' k' :
  qd_config_get_section c sec = Some r ->
  lookup (add_to c r k v) sec' k' =
  if decide (norm sec = norm sec' /\ k = k') then Some (mkEntry k v) else lookup c sec' k'.
Proof.
  intros Hr. rewrite !lookup_entries, (add_to_entries c sec r) by done.
  assert (is_Some (sec_entries c sec)) as [l Hl].
  { unfold sec_entries. rewrite Hr. destruct (get_section_valid _ _ _ Hr) as [s ->]. by eexists. }
  assert (norm sec = norm sec' -> sec_entries c sec' = Some l) as Hl'.
  { intros E. rewrite <- Hl. unfold sec_entries.
    by rewrite <- (get_section_norm c sec), <- (get_section_norm c sec'), E. }
  rewrite Hl. destruct (decide (norm sec = norm sec')) as [E|E]; simpl.
  - rewrite find_add_entry, (Hl' E). destruct (decide (k = k')).
    + by rewrite decide_True.
    + by rewrite decide_False by tauto.
  - by rewrite decide_False by tauto.
Qed.

Lemma find_entry_key l k e : find_entry l k = Some e -> key e = k /\ e ∈ l.
Proof.
  induction l as [|e' l IH]; simpl; [done|]. case_decide as Hd.
  - intros [= <-]. split; [done|apply list_elem_of_here].
  - intros H. destruct (IH H). split; [done|]. by apply list_elem_of_further.
Qed.

Lemma add_entries_lookup l : forall c sec r sec' k,
  qd_config_get_section c sec = Some r -> keys_ok l ->
  lookup (add_entries c r l) sec' k =
  if decide (norm sec = norm sec')
  then match find_entry l k with Some e => Some e | None => lookup c sec' k end else lookup c sec' k.
Proof.
  induction l as [|[k0 v0] l IH]; intros c sec r sec' k Hr Hk; [by case_decide|].
  unfold keys_ok in Hk. rewrite fmap_cons in Hk. apply NoDup_cons in Hk as [Hn Hk].
  change (add_entries c r (mkEntry k0 v0 :: l)) with (add_entries (add_to c r k0 v0) r l).
  rewrite (IH _ sec) by (rewrite ?add_to_section; done). rewrite (add_to_lookup c sec r) by done. cbn [find_entry key].
  destruct (decide (norm sec = norm sec')) as [E|E].
  - destruct (decide (k0 = k)) as [->|Hne].
    + destruct (find_entry l k) as [e|] eqn:Ef.
      * exfalso. apply find_entry_key in Ef as [He Hin]. apply Hn, list_elem_of_fmap. by exists e.
      * by rewrite decide_True.
    + rewrite decide_False by tauto. done.
  - by rewrite decide_False by tauto.
Qed.

Fixpoint find_sec (l : list qd_config_section) (n : cstr) : option qd_config_section :=
  match l with
  | [] => None
  | s :: l => if decide (name s = Some n) then Some s else find_sec l n
  end.

Lemma find_sec_section l n i :
  find_section l n i = match find_sec l n with Some s => find_section l n i | None => None end /\
  forall j, find_section l n i = Some (Sec (i + j)) -> l !! j = find_sec l n.
Proof.
  revert i. induction l as [|s l IH]; intros i; simpl; [done|]. case_decide as Hd.
  - split; [done|]. intros [|j] [=]; [done|lia].
  - destruct (IH (S i)) as [IH1 IH2]. split; [done|]. intros [|j] E.
    + pose proof (find_section_spec l n (S i)) as Hs. rewrite E in Hs. destruct Hs as (j & _ & [=] & _). lia.
    + simpl. apply IH2. rewrite E. do 2 f_equal. lia.
Qed.

Lemma lookup_named c x n k :
  lookup c (Some (x :: n)) k = match find_sec (sections c) (x :: n) with Some s => find_entry (entries s) k | None => None end.
Proof.
  unfold lookup. cbn [qd_config_get_section]. destruct (find_sec_section (sections c) (x :: n) 0) as [H1 H2].
  pose proof (find_section_spec (sections c) (x :: n) 0) as Hs.
  destruct (find_section (sections c) (x :: n) 0) as [r|] eqn:E.
  - destruct Hs as (j & s & -> & Hj & _). specialize (H2 j eq_refl). cbn [get_sec]. simpl in *. by rewrite H2.
  - destruct (find_sec (sections c) (x :: n)) as [s|] eqn:Ef; [|done]. exfalso.
    clear -Hs Ef. induction (sections c) as [|s0 l IH]; simpl in *; [done|].
    apply Forall_cons in Hs as [H0 Hs]. rewrite decide_False in Ef by done. auto.
Qed.

Lemma merge_sections_lookup l : forall d,
  names_ok l -> Forall (fun s => keys_ok (entries s)) l ->
  exists d', merge_sections d l = Ok d' /\ forall sec k, lookup d' sec k =
    match norm sec with
    | None => lookup d sec k
    | Some n => match find_sec l n with
                | Some s => match find_entry (entries s) k with Some e => Some e | None => lookup d sec k end
                | None => lookup d sec k
                end
    end.
Proof.
  induction l as [|s l IH]; intros d [Hnd Hne] Hk; cbn [merge_sections].
  { exists d. split; [done|]. intros sec k. by destruct (norm sec). }
  apply Forall_cons in Hk as [Hks Hk]. apply Forall_cons in Hne as [(x & m & En) Hne].
  rewrite fmap_cons in Hnd. apply NoDup_cons in Hnd as [Hnin Hnd].
  unfold merge_section. rewrite En. destruct (qd_config_create_section d (x :: m)) as [r d1] eqn:Ec.
  destruct (create_section_spec d (x :: m) r d1 Ec) as (Hr & Ho & Hs & _). cbn [obind].
  destruct (IH (add_entries d1 r (entries s)) (conj Hnd Hne) Hk) as (d' & E & Hl). exists d'. split; [done|].
  assert (forall sec k, lookup d1 sec k = lookup d sec k) as H1.
  { intros sec k. rewrite !lookup_entries. destruct (decide (norm sec = norm (Some (x :: m)))) as [E1|E1].
    - unfold sec_entries in *. rewrite <- (get_section_norm d1 sec), <- (get_section_norm d sec), E1.
      rewrite !get_section_norm, Hs. by destruct (qd_config_get_section d (Some (x :: m))) as [r0|]; [destruct (get_sec d r0)|].
    - by rewrite Ho. }
  intros sec k. rewrite Hl, !(add_entries_lookup _ d1 (Some (x :: m)) r) by done. rewrite H1. cbn [norm find_sec].
  destruct (norm sec) as [n|] eqn:Esec; [|by rewrite decide_False].
  rewrite En. destruct (decide (Some (x :: m) = Some n)) as [[= <-]|Hne2]; [|done].
  assert (find_sec l (x :: m) = None) as ->; [|done].
  destruct (find_sec l (x :: m)) as [s'|] eqn:Ef; [|done]. exfalso. apply Hnin. rewrite En.
  clear -Ef. induction l as [|s0 l IHl]; [done|]; cbn [find_sec] in Ef. rewrite fmap_cons, elem_of_cons.
  case_decide as Hd; [left; congruence|right; auto].
Qed.

(** ** Printing and parsing *)

Definition first_ok (s : cstr) : Prop := match s with [] => True | x :: _ => isspace x = false end.
Definition rtrim (s : cstr) : cstr := reverse (skip_spaces (reverse s)).

Lemma skip_spaces_first s : first_ok (skip_spaces s).
Proof. induction s as [|x s IH]; simpl; [done|]. by destruct (isspace x) eqn:E. Qed.

Lemma skip_spaces_id s : first_ok s -> skip_spaces s = s.
Proof. destruct s as [|x s]; simpl; [done|]. by intros ->. Qed.

Lemma skip_spaces_app_first a b : first_ok b -> b <> [] -> skip_spaces (a ++ b) = skip_spaces a ++ b.
Proof.
  intros Hb Hne. induction a as [|x a IH]; simpl; [by apply skip_spaces_id|]. by destruct (isspace x).
Qed.

Lemma skip_spaces_blank a b : Forall (fun x => isspace x = true) a -> skip_spaces (a ++ b) = skip_spaces b.
Proof. induction 1 as [|x a Hx Ha IH]; simpl; [done|]. by rewrite Hx. Qed.

Lemma trim_alt s : trim s = rtrim (skip_spaces s).
Proof.
  unfold trim, rtrim. pose proof (skip_spaces_first s) as Hf. destruct (skip_spaces s) as [|x t]; [done|].
  rewrite reverse_cons, skip_spaces_app_first by done. by rewrite reverse_app.
Qed.

(** A string that trim does not change. *)
Definition tidy (s : cstr) : Prop := first_ok s /\ first_ok (reverse s).

Lemma trim_tidy s : tidy s -> trim s = s.
Proof.
  intros [H1 H2]. rewrite trim_alt, skip_spaces_id by done. unfold rtrim. rewrite skip_spaces_id by done.
  apply reverse_involutive.
Qed.

Lemma trim_left a s : Forall (fun x => isspace x = true) a -> trim (a ++ s) = trim s.
Proof. intros Ha. rewrite !trim_alt. by rewrite skip_spaces_blank. Qed.

Lemma trim_right a s : Forall (fun x => isspace x = true) a -> tidy s -> trim (s ++ a) = s.
Proof.
  intros Ha [H1 H2]. destruct s as [|x s].
  - rewrite app_nil_l, <- (app_nil_r a), trim_left by done. done.
  - rewrite trim_alt, skip_spaces_id by done. unfold rtrim. rewrite reverse_app, skip_spaces_blank.
    + rewrite skip_spaces_id by done. apply reverse_involutive.
    + by apply Forall_reverse.
Qed.

Lemma trim_space_left s : trim (32 :: s) = trim s.
Proof. apply (trim_left [32]). by apply Forall_singleton. Qed.

Lemma first_ok_app a b : a <> [] -> first_ok (a ++ b) <-> first_ok a.
Proof. by destruct a. Qed.

(** Texts that survive printing and parsing. *)
Definition clean_key (k : cstr) : Prop :=
  tidy k /\ 61 ∉ k /\ 10 ∉ k /\
  match k with [] => False | x :: _ => x <> 35 /\ x <> 59 /\ x <> 91 end.
Definition clean_value (v : cstr) : Prop := tidy v /\ 10 ∉ v.
Definition clean_name (n : cstr) : Prop := tidy n /\ 93 ∉ n /\ 10 ∉ n /\ n <> [].

Definition clean_entry (e : qd_config_entry) : Prop := clean_key (key e) /\ clean_value (default [] (value e)).
Definition clean_section (s : qd_config_section) : Prop :=
  (exists n, name s = Some n /\ clean_name n) /\ Forall clean_entry (entries s).

(** The lines qd_config_print writes. *)
Definition entry_line (e : qd_config_entry) : cstr := key e ++ [32; 61; 32] ++ default [] (value e).
Definition section_lines (s : qd_config_section) : list cstr :=
  [[]; [91] ++ default [] (name s) ++ [93]] ++ (entry_line <$> entries s).
Definition config_lines (c : qd_config) : list cstr :=
  (entry_line <$> entries (global c)) ++ mjoin (section_lines <$> sections c).

Definition unlines (ls : list cstr) : cstr := mjoin ((fun l => l ++ [10]) <$> ls).

Lemma mjoin_cons {A} (x : list A) l : mjoin (x :: l) = x ++ mjoin l.
Proof. done. Qed.

Lemma unlines_app a b : unlines (a ++ b) = unlines a ++ unlines b.
Proof. unfold unlines. by rewrite fmap_app, join_app. Qed.

Lemma print_entries_lines l : mjoin (print_entry <$> l) = unlines (entry_line <$> l).
Proof.
  induction l as [|e l IH]; [done|]. unfold unlines in *. rewrite !fmap_cons, !mjoin_cons, IH. f_equal.
  unfold print_entry, entry_line. by rewrite <- !app_assoc.
Qed.

Lemma print_lines c : Forall clean_section (sections c) -> qd_config_print c = unlines (config_lines c).
Proof.
  intros Hc. unfold qd_config_print, config_lines. rewrite unlines_app, print_entries_lines. f_equal.
  induction Hc as [|s l [(n & En & _) _] Hc IH]; [done|]. rewrite !fmap_cons, !mjoin_cons.
  rewrite unlines_app, IH. f_equal. unfold print_section, section_lines. rewrite print_entries_lines, En, unlines_app. simpl.
  by rewrite <- !app_assoc.
Qed.

Lemma load_lines_cons fuel c cur l rest : 10 ∉ l ->
  load_lines (S fuel) c cur (l ++ 10 :: rest) = (let (c, cur) := parse_line c cur l in load_lines fuel c cur rest).
Proof.
  intros Hl. pose proof (strchr_app l 10 rest Hl) as E. destruct l as [|x l]; cbn [app load_lines] in *; by rewrite E.
Qed.

(** Loading the lines one by one. *)
Lemma load_unlines ls : forall fuel c cur,
  Forall (fun l => 10 ∉ l) ls -> (length (unlines ls) < fuel)%nat ->
  load_lines fuel c cur (unlines ls) = Ok (foldl (fun st l => parse_line st.1 st.2 l) (c, cur) ls).1.
Proof.
  induction ls as [|l ls IH]; intros fuel c cur Hl Hf; (destruct fuel as [|fuel]; [lia|]); [done|].
  apply Forall_cons in Hl as [Hl Hls]. change (unlines (l :: ls)) with ((l ++ [10]) ++ unlines ls) in *.
  rewrite <- app_assoc in *. cbn [app] in *. rewrite load_lines_cons by done. cbn [foldl fst snd].
  rewrite length_app in Hf. simpl in Hf.
  destruct (parse_line c cur l) as [c1 cur1]. apply IH; [done|lia].
Qed.

Lemma parse_blank c cur : parse_line c cur [] = (c, cur).
Proof. done. Qed.

Lemma parse_entry_line c cur e : clean_entry e ->
  parse_line c cur (entry_line e) = (add_to c cur (key e) (Some (default [] (value e))), cur).
Proof.
  intros [(Hk & Heq & _ & Hx) (Hv & _)]. unfold entry_line.
  assert (trim (key e ++ [32; 61; 32] ++ default [] (value e)) = key e ++ [32; 61] ++
    (match default [] (value e) with [] => [] | v => 32 :: v end)) as Et.
  { destruct Hk as [Hk1 Hk2]. assert (key e <> []) as Hne by (by destruct (key e)).
    destruct (default [] (value e)) as [|y v] eqn:Ev.
    - change ([32; 61; 32] ++ []) with ([32; 61] ++ [32]). rewrite app_assoc, app_nil_r. apply trim_right; [by apply Forall_singleton|].
      split; [by apply first_ok_app|]. by rewrite reverse_app.
    - cbn [app]. apply (trim_tidy (key e ++ 32 :: 61 :: 32 :: y :: v)). split; [by apply first_ok_app|].
      destruct Hv as [_ Hv]. change (32 :: 61 :: 32 :: y :: v) with ([32; 61; 32] ++ y :: v).
      rewrite !reverse_app, <- app_assoc. apply first_ok_app; [|done]. intros E%(f_equal reverse). by rewrite reverse_involutive in E. }
  unfold parse_line. rewrite Et. destruct (key e) as [|x k] eqn:Ek; [done|]. destruct Hx as (H1 & H2 & H3).
  cbn [app]. destruct (Z.eqb_spec x 35); [done|]. destruct (Z.eqb_spec x 59); [done|]. destruct (Z.eqb_spec x 91); [done|].
  cbn [orb]. 
  assert (strchr (x :: k ++ 32 :: 61 :: match default [] (value e) with [] => [] | y :: v => 32 :: y :: v end) 61 =
    Some ((x :: k) ++ [32], match default [] (value e) with [] => [] | y :: v => 32 :: y :: v end)) as ->.
  { rewrite (cons_middle 32), (app_comm_cons k), app_assoc. apply strchr_app. rewrite elem_of_app, list_elem_of_singleton.
    by intros [|]. }
  f_equal. f_equal.
  - apply trim_right; [by apply Forall_singleton|done].
  - f_equal. destruct (default [] (value e)) as [|y v] eqn:Ev; [done|]. rewrite trim_space_left. by apply trim_tidy.
Qed.

Lemma parse_section_line c cur n : clean_name n ->
  parse_line c cur ([91] ++ n ++ [93]) = (let (r, c) := qd_config_create_section c n in (c, r)).
Proof.
  intros (Hn & H93 & _ & Hne). unfold parse_line.
  assert (trim ([91] ++ n ++ [93]) = [91] ++ n ++ [93]) as ->.
  { apply trim_tidy. split; [done|]. by rewrite app_assoc, reverse_app. }
  cbn [app]. change (91 =? 35) with false. change (91 =? 59) with false. change (91 =? 91) with true. cbn [orb].
  rewrite (app_comm_cons n), strchr_app by (rewrite not_elem_of_cons; by split).
  cbn [drop]. by rewrite trim_tidy.
Qed.

(** Entries as they come back: a NULL value is printed as the empty string. *)
Definition printed_entry (e : qd_config_entry) : qd_config_entry := mkEntry (key e) (Some (default [] (value e))).
Definition printed_section (s : qd_config_section) : qd_config_section := mkSection (name s) (printed_entry <$> entries s).
Definition printed (c : qd_config) : qd_config :=
  mkConfig None (printed_section <$> sections c) (printed_section (global c)).

Lemma parse_entry_lines l : forall c cur, Forall clean_entry l ->
  foldl (fun st l => parse_line st.1 st.2 l) (c, cur) (entry_line <$> l) = (add_entries c cur (printed_entry <$> l), cur).
Proof.
  induction l as [|e l IH]; intros c cur Hl; [done|]. apply Forall_cons in Hl as [He Hl]. rewrite !fmap_cons.
  cbn [foldl fst snd]. rewrite parse_entry_line by done. by rewrite IH.
Qed.

Lemma parse_section_lines l : forall c cur, Forall clean_section l ->
  exists c' cur', merge_sections c (printed_section <$> l) = Ok c' /\
    foldl (fun st l => parse_line st.1 st.2 l) (c, cur) (mjoin (section_lines <$> l)) = (c', cur').
Proof.
  induction l as [|s l IH]; intros c cur Hl; [by exists c, cur|]. apply Forall_cons in Hl as [[(n & En & Hn) He] Hl].
  rewrite !fmap_cons, mjoin_cons. cbn [merge_sections]. unfold merge_section. cbn [name printed_section entries].
  unfold section_lines at 1. rewrite En. rewrite !foldl_app. cbn [foldl fst snd default]. rewrite parse_blank. cbn [fst snd].
  rewrite (parse_section_line _ _ n) by done. destruct (qd_config_create_section c n) as [r c1].
  rewrite parse_entry_lines by done. cbn [obind]. by apply IH.
Qed.

Lemma printed_wf c : config_wf c -> config_wf (printed c).
Proof.
  intros [[Hg Hk] [Hnd Hne] Hks].
  assert (forall l : list qd_config_entry, key <$> (printed_entry <$> l) = key <$> l) as Hkeys.
  { intros l. by rewrite <- list_fmap_compose. }
  split; simpl.
  - split; [done|]. unfold keys_ok. by rewrite Hkeys.
  - split; [by rewrite <- list_fmap_compose|]. rewrite Forall_fmap. done.
  - rewrite Forall_fmap. eapply Forall_impl; [exact Hks|]. intros s Hs. unfold keys_ok. simpl. by rewrite Hkeys.
Qed.

Lemma config_lines_ok c :
  Forall clean_entry (entries (global c)) -> Forall clean_section (sections c) -> Forall (fun l => 10 ∉ l) (config_lines c).
Proof.
  intros Hg Hs.
  assert (forall l, Forall clean_entry l -> Forall (fun l => 10 ∉ l) (entry_line <$> l)) as He.
  { intros l Hl. rewrite Forall_fmap. eapply Forall_impl; [exact Hl|]. intros e [(_ & _ & Hk & _) (_ & Hv)].
    simpl. unfold entry_line. rewrite !not_elem_of_app. repeat split; try done.
    rewrite !not_elem_of_cons. repeat split; try done. apply not_elem_of_nil. }
  unfold config_lines. apply Forall_app. split; [by apply He|].
  induction Hs as [|s l [(n & En & _ & _ & Hn & _) Hse] Hs IH]; [done|]. rewrite fmap_cons, mjoin_cons. apply Forall_app.
  split; [|done]. unfold section_lines. rewrite En. apply Forall_cons. split; [apply not_elem_of_nil|].
  apply Forall_cons. split; [|by apply He]. simpl. rewrite not_elem_of_cons, not_elem_of_app, list_elem_of_singleton.
  done.
Qed.

(** ** Arrays *)

Definition commas (s : cstr) : nat := length (filter (fun x => x = 44) s).

(** The array is large enough for the tokens. *)
Lemma tokens_length s : forall cur, (length (tokens cur s) <= S (commas s))%nat.
Proof.
  unfold commas. induction s as [|x s IH]; intros cur; simpl; [destruct cur; simpl; lia|].
  destruct (Z.eqb_spec x 44) as [->|Hne].
  - rewrite filter_cons_True by done. simpl. destruct cur; [specialize (IH []); lia|]. simpl. specialize (IH []). lia.
  - rewrite filter_cons_False by done. apply IH.
Qed.

Lemma tokens_run v : forall cur s, 44 ∉ v -> tokens cur (v ++ s) = tokens (reverse v ++ cur) s.
Proof.
  induction v as [|x v IH]; intros cur s Hv; [done|]. rewrite not_elem_of_cons in Hv. destruct Hv as [Hx Hv].
  cbn [app tokens]. destruct (Z.eqb_spec x 44); [congruence|]. rewrite IH by done.
  by rewrite reverse_cons, <- app_assoc.
Qed.

Definition clean_item (v : cstr) : Prop := tidy v /\ 44 ∉ v /\ v <> [].

Lemma tokens_item v sp rest : clean_item v -> 44 ∉ sp ->
  tokens [] (sp ++ v ++ 44 :: rest) = (sp ++ v) :: tokens [] rest /\ tokens [] (sp ++ v) = [sp ++ v].
Proof.
  intros (_ & Hv & Hne) Hsp. assert (44 ∉ sp ++ v) as Hn by (rewrite elem_of_app; by intros [|]).
  assert (exists y t, reverse (sp ++ v) = y :: t) as (y & t & E).
  { destruct (reverse (sp ++ v)) eqn:E; [|eauto]. apply (f_equal reverse) in E. rewrite reverse_involutive in E.
    apply app_eq_nil in E as [_ E]. done. }
  split.
  - rewrite app_assoc, tokens_run, app_nil_r by done. rewrite E. cbn [tokens]. rewrite <- E, reverse_involutive. done.
  - rewrite <- (app_nil_r (sp ++ v)) at 1. rewrite tokens_run, app_nil_r by done. rewrite E. cbn [tokens].
    by rewrite <- E, reverse_involutive.
Qed.

Lemma tokens_join vals : forall sp, Forall clean_item vals -> vals <> [] -> sp = [] \/ sp = [32] ->
  trim <$> tokens [] (sp ++ join_values vals) = vals.
Proof.
  induction vals as [|v vals IH]; intros sp Hc Hne Hsp; [done|]. apply Forall_cons in Hc as [Hv Hc].
  assert (44 ∉ sp) as Hn by (destruct Hsp as [-> | ->]; [apply not_elem_of_nil|by apply not_elem_of_cons; split; [|apply not_elem_of_nil]]).
  assert (trim (sp ++ v) = v) as Ht.
  { destruct Hsp as [-> | ->]; cbn [app]; rewrite ?trim_space_left; apply trim_tidy, Hv. }
  destruct vals as [|w vals].
  - cbn [join_values]. rewrite (proj2 (tokens_item v sp [] Hv Hn)). simpl. by rewrite Ht.
  - change (join_values (v :: w :: vals)) with (v ++ 44 :: [32] ++ join_values (w :: vals)).
    rewrite (proj1 (tokens_item v sp _ Hv Hn)). rewrite fmap_cons, Ht. f_equal. apply IH; [done|done|by right].
Qed.

(** ** Properties *)

(** Loading a text.  qd_config_load_string ends on every text and returns a
    configuration in which section names are distinct and not empty and keys are
    distinct within a section. *)
Theorem load_string_total s : exists c, qd_config_load_string (Some s) = Ok (Some c) /\ config_wf c.
Proof.
  destruct (load_lines_ok (S (length s)) qd_config_create Global s create_wf ltac:(lia)) as (c & E & Hc).
  exists c. unfold qd_config_load_string. by rewrite E.
Qed.

(** C9: Printing and parsing.  A well-formed configuration whose keys, values and
    section names are trimmed and free of the characters that delimit them comes
    back from its own printout (up to the path, and with NULL values as empty
    strings). *)
Theorem print_parse_roundtrip c :
  config_wf c -> Forall clean_entry (entries (global c)) -> Forall clean_section (sections c) ->
  qd_config_load_string (Some (qd_config_print c)) = Ok (Some (printed c)).
Proof.
  intros Hw Hg Hs. unfold qd_config_load_string. rewrite print_lines by done.
  rewrite load_unlines by first [by apply config_lines_ok | lia]. unfold config_lines.
  rewrite foldl_app, parse_entry_lines by done.
  destruct (parse_section_lines (sections c) (add_entries qd_config_create Global (printed_entry <$> entries (global c)))
              Global Hs) as (c' & cur' & Em & ->).
  pose proof (rebuild (printed c) (printed_wf c Hw)) as Hr. simpl in Hr, Em. rewrite Em in Hr. injection Hr as ->. done.
Qed.

Definition demo_config : qd_config :=
  mkConfig None [mkSection (Some ("net"%string : cstr)) [mkEntry "port"%string (Some ("80"%string : cstr)); mkEntry "host"%string None]]
    (mkSection None [mkEntry "log level"%string (Some ("x = y"%string : cstr))]).

Ltac decide_goal := apply (bool_decide_unpack _); vm_compute; exact I.

Lemma demo_config_ok :
  config_wf demo_config /\ Forall clean_entry (entries (global demo_config)) /\ Forall clean_section (sections demo_config).
Proof.
  assert (forall k : cstr, bool_decide (61 ∉ k /\ 10 ∉ k) = true -> tidy k -> match k with [] => False | x :: _ => x <> 35 /\ x <> 59 /\ x <> 91 end ->
    forall v, bool_decide (10 ∉ default [] v) = true -> tidy (default [] v) -> clean_entry (mkEntry k v)) as He.
  { intros k [H1 H2]%bool_decide_eq_true Ht Hx v Hv%bool_decide_eq_true Htv. split; [repeat (split; [done|]); done|by split]. }
  split; [|split].
  - split; [split; [done|decide_goal]| |].
    + split; [decide_goal|]. apply Forall_singleton. by exists 110, [101; 116].
    + apply Forall_singleton. unfold keys_ok. decide_goal.
  - apply Forall_singleton. by apply He; vm_compute.
  - apply Forall_singleton. split.
    + eexists. split; [done|]. split; [by vm_compute|]. split; [decide_goal|]. split; [decide_goal|done].
    + apply Forall_cons. split; [by apply He; vm_compute|]. apply Forall_singleton. by apply He; vm_compute.
Qed.

Lemma print_parse_roundtrip_witness :
  qd_config_load_string (Some (qd_config_print demo_config)) = Ok (Some (printed demo_config)) /\
  qd_config_print demo_config = "log level = x = y

[net]
port = 80
host = 
"%string.
Proof.
  split; [|vm_compute; reflexivity]. apply print_parse_roundtrip.
  - exact (proj1 demo_config_ok).
  - exact (proj1 (proj2 demo_config_ok)).
  - exact (proj2 (proj2 demo_config_ok)).
Defined.

(** Setting and getting.  After qd_config_set_string the key has the new value
    in its section (created if need be; NULL and the empty name both denote the
    global section), and every other key of every section is as before. *)
Theorem set_get_string c sec k v sec' k' def :
  (qd_config_set_string c sec k (Some v)).1 = QD_OK /\
  qd_config_get_string (qd_config_set_string c sec k (Some v)).2 sec' k' def =
  if decide (norm sec = norm sec' /\ k = k') then Some v else qd_config_get_string c sec' k' def.
Proof.
  split.
  { unfold qd_config_set_string. destruct sec as [[|x n]|]; simpl; try done.
    destruct (find_section (sections c) (x :: n) 0); [done|]. by destruct (qd_config_create_section c (x :: n)). }
  unfold qd_config_get_string. rewrite !lookup_entries, set_string_entries.
  destruct (decide (norm sec = norm sec')) as [E|E]; [|by rewrite decide_False by tauto].
  rewrite find_add_entry. destruct (decide (k = k')) as [->|Hne]; [by rewrite decide_True|].
  rewrite decide_False by tauto.
  assert (sec_entries c sec = sec_entries c sec') as ->.
  { unfold sec_entries. by rewrite <- (get_section_norm c sec), <- (get_section_norm c sec'), E. }
  by destruct (sec_entries c sec').
Qed.

(** Integers survive.  For every 64-bit signed value, qd_config_get_int returns
    what qd_config_set_int stored (printf with %lld, then strtoll with base 0). *)
Theorem set_get_int c sec k v def :
  - 2 ^ 63 <= v < 2 ^ 63 -> qd_config_get_int (qd_config_set_int c sec k v).2 sec k def = v.
Proof.
  intros Hv. unfold qd_config_get_int, qd_config_set_int, qd_config_get_string.
  rewrite lookup_entries, set_string_entries, decide_True, find_add_entry, decide_True by done. simpl.
  by rewrite strtoll_print.
Qed.

Lemma set_get_int_witness :
  qd_config_get_int (qd_config_set_int qd_config_create (Some ("net"%string : cstr)) "off"%string (-2 ^ 63)).2
    (Some ("net"%string : cstr)) "off"%string 7 = -2 ^ 63.
Proof. apply set_get_int. lia. Defined.

(** Cloning.  The clone of a well-formed configuration is that configuration,
    section by section and entry by entry, without its path. *)
Theorem clone_equal c :
  config_wf c -> qd_config_clone (Some c) = Ok (mkConfig None (sections c) (global c)).
Proof. apply rebuild. Qed.

Lemma clone_equal_witness : qd_config_clone (Some demo_config) = Ok demo_config.
Proof. rewrite clone_equal; [reflexivity|exact (proj1 demo_config_ok)]. Defined.

(** Merging.  After merging [s] into [d] every key of [s] has its entry of [s],
    every other key the one it had in [d]. *)
Theorem merge_lookup d s :
  config_wf s -> exists d', qd_config_merge d s = Ok (QD_OK, d') /\
    forall sec k, lookup d' sec k = match lookup s sec k with Some e => Some e | None => lookup d sec k end.
Proof.
  intros [[Hg Hk] Hn Hks]. unfold qd_config_merge.
  destruct (merge_sections_lookup (sections s) (add_entries d Global (entries (global s))) Hn Hks) as (d' & -> & Hl).
  exists d'. split; [done|]. intros sec k. rewrite Hl, (add_entries_lookup _ d None Global) by done.
  destruct sec as [[|x n]|]; cbn [norm].
  - by rewrite decide_True.
  - rewrite decide_False by done. rewrite (lookup_named s). by destruct (find_sec (sections s) (x :: n)).
  - by rewrite decide_True.
Qed.

Lemma merge_lookup_witness : exists d',
  qd_config_merge (qd_config_set_string qd_config_create (Some ("net"%string : cstr)) "port"%string (Some ("1"%string : cstr))).2
    demo_config = Ok (QD_OK, d') /\
  lookup d' (Some ("net"%string : cstr)) "port"%string = Some (mkEntry "port"%string (Some ("80"%string : cstr))).
Proof.
  destruct (merge_lookup (qd_config_set_string qd_config_create (Some ("net"%string : cstr)) "port"%string
    (Some ("1"%string : cstr))).2 demo_config (proj1 demo_config_ok)) as (d' & E & Hl).
  exists d'. split; [exact E|]. rewrite Hl. reflexivity.
Defined.

(** Arrays.  qd_config_get_array returns the values qd_config_set_array stored,
    if they are trimmed, not empty and free of commas. *)
Theorem array_roundtrip c sec k vals :
  Forall clean_item vals -> vals <> [] ->
  qd_config_get_array (qd_config_set_array c sec k vals).2 sec k = vals.
Proof.
  intros Hc Hne. unfold qd_config_get_array, qd_config_set_array, qd_config_get_string.
  rewrite lookup_entries, set_string_entries, decide_True, find_add_entry, decide_True by done. cbn [value].
  rewrite take_ge by (rewrite length_fmap; apply tokens_length).
  apply (tokens_join vals []); [done|done|by left].
Qed.

Lemma array_roundtrip_witness :
  qd_config_get_array (qd_config_set_array qd_config_create None "l"%string ["a b"%string : cstr; "c"%string : cstr]).2 None "l"%string
  = ["a b"%string : cstr; "c"%string : cstr].
Proof.
  apply array_roundtrip; [|done].
  repeat (apply List.Forall_cons; [split; [by vm_compute|split; [decide_goal|done]]|]). apply List.Forall_nil.
Defined.

(** Long lines.  A file is read in pieces of 1023 bytes, a string is not: a
    value of 1100 characters that qd_config_save has written comes back from
    qd_config_load truncated, while qd_config_load_string reads it in full. *)
Theorem long_value_truncated :
  let c := (qd_config_set_string qd_config_create None "k"%string (Some (replicate 1100 97))).2 in
  (exists c1, qd_config_load "f"%string (Some (qd_config_save c)) = Ok (Some c1) /\
     (length <$> qd_config_get_string c1 None "k"%string None) = Some 1019%nat) /\
  (exists c2, qd_config_load_string (Some (qd_config_save c)) = Ok (Some c2) /\
     (length <$> qd_config_get_string c2 None "k"%string None) = Some 1100%nat).
Proof. split; eexists; (split; [vm_compute; reflexivity|]); vm_compute; reflexivity. Qed.
