(* ===== verification/Lexer.v ===== *)
(** * src/cint/qd_cint_lexer.c: the tokenizer of the C interpreter

    The lexer's position is the list [rest] of the bytes from [pos] to [end];
    characters are bytes, and a zero byte is what [peek] returns at the end.  The
    value of a floating-point literal is its text (what strtod is applied to). *)

From S2P Require Import Prelude CString.

(** ** Token types *)

Inductive qd_cint_token_type :=
| TOK_EOF | TOK_ERROR | TOK_INT | TOK_FLOAT | TOK_STRING | TOK_CHAR | TOK_IDENT | TOK_IF | TOK_ELSE
| TOK_WHILE | TOK_FOR | TOK_DO | TOK_SWITCH | TOK_CASE | TOK_DEFAULT | TOK_BREAK | TOK_CONTINUE
| TOK_RETURN | TOK_GOTO | TOK_VOID | TOK_INT_KW | TOK_CHAR_KW | TOK_SHORT | TOK_LONG | TOK_FLOAT_KW
| TOK_DOUBLE | TOK_SIGNED | TOK_UNSIGNED | TOK_STRUCT | TOK_UNION | TOK_ENUM | TOK_TYPEDEF
| TOK_CONST | TOK_STATIC | TOK_EXTERN | TOK_SIZEOF | TOK_PLUS | TOK_MINUS | TOK_STAR | TOK_SLASH
| TOK_PERCENT | TOK_EQ | TOK_NE | TOK_LT | TOK_GT | TOK_LE | TOK_GE | TOK_AND | TOK_OR | TOK_NOT
| TOK_BAND | TOK_BOR | TOK_BXOR | TOK_BNOT | TOK_LSHIFT | TOK_RSHIFT | TOK_ASSIGN | TOK_PLUS_EQ
| TOK_MINUS_EQ | TOK_STAR_EQ | TOK_SLASH_EQ | TOK_PERCENT_EQ | TOK_BAND_EQ | TOK_BOR_EQ
| TOK_BXOR_EQ | TOK_LSHIFT_EQ | TOK_RSHIFT_EQ | TOK_INC | TOK_DEC | TOK_ARROW | TOK_DOT
| TOK_QUESTION | TOK_COLON | TOK_LPAREN | TOK_RPAREN | TOK_LBRACE | TOK_RBRACE | TOK_LBRACKET
| TOK_RBRACKET | TOK_SEMICOLON | TOK_COMMA.

(** The value of the enumerator. *)
Definition token_code (t : qd_cint_token_type) : Z :=
  match t with
  | TOK_EOF => 0 | TOK_ERROR => 1 | TOK_INT => 2 | TOK_FLOAT => 3 | TOK_STRING => 4 | TOK_CHAR => 5
  | TOK_IDENT => 6 | TOK_IF => 7 | TOK_ELSE => 8 | TOK_WHILE => 9 | TOK_FOR => 10 | TOK_DO => 11
  | TOK_SWITCH => 12 | TOK_CASE => 13 | TOK_DEFAULT => 14 | TOK_BREAK => 15 | TOK_CONTINUE => 16
  | TOK_RETURN => 17 | TOK_GOTO => 18 | TOK_VOID => 19 | TOK_INT_KW => 20 | TOK_CHAR_KW => 21
  | TOK_SHORT => 22 | TOK_LONG => 23 | TOK_FLOAT_KW => 24 | TOK_DOUBLE => 25 | TOK_SIGNED => 26
  | TOK_UNSIGNED => 27 | TOK_STRUCT => 28 | TOK_UNION => 29 | TOK_ENUM => 30 | TOK_TYPEDEF => 31
  | TOK_CONST => 32 | TOK_STATIC => 33 | TOK_EXTERN => 34 | TOK_SIZEOF => 35 | TOK_PLUS => 36
  | TOK_MINUS => 37 | TOK_STAR => 38 | TOK_SLASH => 39 | TOK_PERCENT => 40 | TOK_EQ => 41
  | TOK_NE => 42 | TOK_LT => 43 | TOK_GT => 44 | TOK_LE => 45 | TOK_GE => 46 | TOK_AND => 47
  | TOK_OR => 48 | TOK_NOT => 49 | TOK_BAND => 50 | TOK_BOR => 51 | TOK_BXOR => 52 | TOK_BNOT => 53
  | TOK_LSHIFT => 54 | TOK_RSHIFT => 55 | TOK_ASSIGN => 56 | TOK_PLUS_EQ => 57 | TOK_MINUS_EQ => 58
  | TOK_STAR_EQ => 59 | TOK_SLASH_EQ => 60 | TOK_PERCENT_EQ => 61 | TOK_BAND_EQ => 62
  | TOK_BOR_EQ => 63 | TOK_BXOR_EQ => 64 | TOK_LSHIFT_EQ => 65 | TOK_RSHIFT_EQ => 66
  | TOK_INC => 67 | TOK_DEC => 68 | TOK_ARROW => 69 | TOK_DOT => 70 | TOK_QUESTION => 71
  | TOK_COLON => 72 | TOK_LPAREN => 73 | TOK_RPAREN => 74 | TOK_LBRACE => 75 | TOK_RBRACE => 76
  | TOK_LBRACKET => 77 | TOK_RBRACKET => 78 | TOK_SEMICOLON => 79 | TOK_COMMA => 80
  end.

Definition token_types : list qd_cint_token_type :=
  [TOK_EOF; TOK_ERROR; TOK_INT; TOK_FLOAT; TOK_STRING; TOK_CHAR; TOK_IDENT; TOK_IF; TOK_ELSE;
  TOK_WHILE; TOK_FOR; TOK_DO; TOK_SWITCH; TOK_CASE; TOK_DEFAULT; TOK_BREAK; TOK_CONTINUE;
  TOK_RETURN; TOK_GOTO; TOK_VOID; TOK_INT_KW; TOK_CHAR_KW; TOK_SHORT; TOK_LONG; TOK_FLOAT_KW;
  TOK_DOUBLE; TOK_SIGNED; TOK_UNSIGNED; TOK_STRUCT; TOK_UNION; TOK_ENUM; TOK_TYPEDEF; TOK_CONST;
  TOK_STATIC; TOK_EXTERN; TOK_SIZEOF; TOK_PLUS; TOK_MINUS; TOK_STAR; TOK_SLASH; TOK_PERCENT;
  TOK_EQ; TOK_NE; TOK_LT; TOK_GT; TOK_LE; TOK_GE; TOK_AND; TOK_OR; TOK_NOT; TOK_BAND; TOK_BOR;
  TOK_BXOR; TOK_BNOT; TOK_LSHIFT; TOK_RSHIFT; TOK_ASSIGN; TOK_PLUS_EQ; TOK_MINUS_EQ; TOK_STAR_EQ;
  TOK_SLASH_EQ; TOK_PERCENT_EQ; TOK_BAND_EQ; TOK_BOR_EQ; TOK_BXOR_EQ; TOK_LSHIFT_EQ; TOK_RSHIFT_EQ;
  TOK_INC; TOK_DEC; TOK_ARROW; TOK_DOT; TOK_QUESTION; TOK_COLON; TOK_LPAREN; TOK_RPAREN;
  TOK_LBRACE; TOK_RBRACE; TOK_LBRACKET; TOK_RBRACKET; TOK_SEMICOLON; TOK_COMMA].

Lemma token_types_code t : token_types !! Z.to_nat (token_code t) = Some t.
Proof. by destruct t. Qed.

#[export] Instance token_type_dec : EqDecision qd_cint_token_type.
Proof.
  refine (fun a b => cast_if (decide (token_code a = token_code b))); [|congruence].
  pose proof (token_types_code a). pose proof (token_types_code b). congruence.
Defined.

(** The union of token values. *)
Inductive token_val :=
| VNone
| VInt (i : Z)
| VFloat (text : cstr)
| VStr (s : cstr)
| VChar (c : Z).

Record qd_cint_token := mkTok { type : qd_cint_token_type; val : token_val; tline : Z; tcol : Z }.

Definition keywords : list (cstr * qd_cint_token_type) :=
  [("if"%string : cstr, TOK_IF); ("else"%string : cstr, TOK_ELSE);
  ("while"%string : cstr, TOK_WHILE); ("for"%string : cstr, TOK_FOR); ("do"%string : cstr, TOK_DO);
  ("switch"%string : cstr, TOK_SWITCH); ("case"%string : cstr, TOK_CASE);
  ("default"%string : cstr, TOK_DEFAULT); ("break"%string : cstr, TOK_BREAK);
  ("continue"%string : cstr, TOK_CONTINUE); ("return"%string : cstr, TOK_RETURN);
  ("goto"%string : cstr, TOK_GOTO); ("void"%string : cstr, TOK_VOID);
  ("int"%string : cstr, TOK_INT_KW); ("char"%string : cstr, TOK_CHAR_KW);
  ("short"%string : cstr, TOK_SHORT); ("long"%string : cstr, TOK_LONG);
  ("float"%string : cstr, TOK_FLOAT_KW); ("double"%string : cstr, TOK_DOUBLE);
  ("signed"%string : cstr, TOK_SIGNED); ("unsigned"%string : cstr, TOK_UNSIGNED);
  ("struct"%string : cstr, TOK_STRUCT); ("union"%string : cstr, TOK_UNION);
  ("enum"%string : cstr, TOK_ENUM); ("typedef"%string : cstr, TOK_TYPEDEF);
  ("const"%string : cstr, TOK_CONST); ("static"%string : cstr, TOK_STATIC);
  ("extern"%string : cstr, TOK_EXTERN); ("sizeof"%string : cstr, TOK_SIZEOF)].

(** The entries of the table of names that are set. *)
Definition token_names (t : qd_cint_token_type) : option cstr :=
  match t with
  | TOK_EOF => Some ("EOF"%string : cstr) | TOK_ERROR => Some ("ERROR"%string : cstr)
  | TOK_INT => Some ("INT"%string : cstr) | TOK_FLOAT => Some ("FLOAT"%string : cstr)
  | TOK_STRING => Some ("STRING"%string : cstr) | TOK_CHAR => Some ("CHAR"%string : cstr)
  | TOK_IDENT => Some ("IDENT"%string : cstr) | TOK_IF => Some ("if"%string : cstr)
  | TOK_ELSE => Some ("else"%string : cstr) | TOK_WHILE => Some ("while"%string : cstr)
  | TOK_FOR => Some ("for"%string : cstr) | TOK_RETURN => Some ("return"%string : cstr)
  | TOK_PLUS => Some ("+"%string : cstr) | TOK_MINUS => Some ("-"%string : cstr)
  | TOK_STAR => Some ("*"%string : cstr) | TOK_SLASH => Some ("/"%string : cstr)
  | TOK_EQ => Some ("=="%string : cstr) | TOK_ASSIGN => Some ("="%string : cstr)
  | TOK_LPAREN => Some ("("%string : cstr) | TOK_RPAREN => Some (")"%string : cstr)
  | TOK_LBRACE => Some ("{"%string : cstr) | TOK_RBRACE => Some ("}"%string : cstr)
  | TOK_SEMICOLON => Some (";"%string : cstr) | TOK_COMMA => Some (","%string : cstr)
  | _ => None
  end.

Definition qd_cint_token_name (t : qd_cint_token_type) : cstr :=
  match token_names t with Some s => s | None => "UNKNOWN"%string : cstr end.

Definition qd_cint_token_is_type (t : qd_cint_token_type) : bool :=
  (token_code TOK_VOID <=? token_code t) && (token_code t <=? token_code TOK_EXTERN).

(** ** Lexer state *)

Record qd_cint_lexer := mkLexer { src : list Z; rest : list Z; line : Z; col : Z }.

(** [len = 0] means that the source is a string. *)
Definition qd_cint_lexer_init (s : list Z) (len : Z) : qd_cint_lexer :=
  let l := if negb (len =? 0) then take (Z.to_nat len) s else until_nul s in mkLexer l l 1 1.

Definition qd_cint_lexer_reset (lex : qd_cint_lexer) : qd_cint_lexer := mkLexer (src lex) (src lex) 1 1.

Definition is_ident_start (c : Z) : bool := isalpha c || (c =? 95).
Definition is_ident_char (c : Z) : bool := isalnum c || (c =? 95).

Definition peek (lex : qd_cint_lexer) : Z := match rest lex with c :: _ => c | [] => 0 end.
Definition peek_next (lex : qd_cint_lexer) : Z := match rest lex with _ :: c :: _ => c | _ => 0 end.
Definition at_end (lex : qd_cint_lexer) : bool := match rest lex with [] => true | _ => false end.

(** A zero byte is not passed. *)
Definition advance (lex : qd_cint_lexer) : Z * qd_cint_lexer :=
  let c := peek lex in
  (c, if c =? 0 then lex
      else if c =? 10 then mkLexer (src lex) (drop 1 (rest lex)) (line lex + 1) 1
      else mkLexer (src lex) (drop 1 (rest lex)) (line lex) (col lex + 1)).

Definition skip (lex : qd_cint_lexer) : qd_cint_lexer := (advance lex).2.

(** [while (p(peek(lex))) advance(lex);], with the text that was passed. *)
Fixpoint advance_while (fuel : nat) (p : Z -> bool) (lex : qd_cint_lexer) : outcome (cstr * qd_cint_lexer) :=
  if p (peek lex) then
    match fuel with
    | O => Fuel
    | S fuel =>
      let (c, lex) := advance lex in
      let! (t, lex) := advance_while fuel p lex in
      Ok (c :: t, lex)
    end
  else Ok ([], lex).

(** The inner loop of a block comment. *)
Fixpoint skip_block (fuel : nat) (lex : qd_cint_lexer) : outcome qd_cint_lexer :=
  if at_end lex then Ok lex else
  if (peek lex =? 42) && (peek_next lex =? 47) then Ok (skip (skip lex)) else
  match fuel with O => Fuel | S fuel => skip_block fuel (skip lex) end.

Fixpoint skip_whitespace (fuel : nat) (lex : qd_cint_lexer) : outcome qd_cint_lexer :=
  if at_end lex then Ok lex else
  match fuel with
  | O => Fuel
  | S n =>
    let c := peek lex in
    if isspace c then skip_whitespace n (skip lex)
    else if (c =? 47) && (peek_next lex =? 47) then
      let! (_, lex) := advance_while fuel (fun c => negb (c =? 0) && negb (c =? 10)) lex in
      skip_whitespace n lex
    else if (c =? 47) && (peek_next lex =? 42) then
      let! lex := skip_block n (skip (skip lex)) in
      skip_whitespace n lex
    else Ok lex
  end.

Definition make_token (lex : qd_cint_lexer) (t : qd_cint_token_type) : qd_cint_token :=
  mkTok t VNone (line lex) (col lex).
Definition set_type (t : qd_cint_token_type) (v : token_val) (tok : qd_cint_token) : qd_cint_token :=
  mkTok t v (tline tok) (tcol tok).

(** strtoll of an unsigned literal in a given base: saturated. *)
Definition literal_value (base : Z) (s : cstr) : Z := Z.min (digits base 0 s).1.1 (2 ^ 63 - 1).

Definition scan_number (fuel : nat) (lex : qd_cint_lexer) : outcome (qd_cint_token * qd_cint_lexer) :=
  let tok := make_token lex TOK_INT in
  if (peek lex =? 48) && ((peek_next lex =? 120) || (peek_next lex =? 88)) then
    let lex := skip (skip lex) in
    let! (h, lex) := advance_while fuel isxdigit lex in
    Ok (set_type TOK_INT (VInt (literal_value 16 h)) tok, lex)
  else
    let! (d, lex) := advance_while fuel isdigit lex in
    let! (frac, lex) :=
      if peek lex =? 46 then
        let! (t, lex) := advance_while fuel isdigit (skip lex) in Ok (46 :: t, lex)
      else Ok ([], lex) in
    let! (ex, lex) :=
      if (peek lex =? 101) || (peek lex =? 69) then
        let (e, lex) := advance lex in
        let (sign, lex) := if (peek lex =? 43) || (peek lex =? 45) then ([peek lex], skip lex) else ([], lex) in
        let! (t, lex) := advance_while fuel isdigit lex in Ok (e :: sign ++ t, lex)
      else Ok ([], lex) in
    let is_float := match frac, ex with [], [] => false | _, _ => true end in
    if is_float then Ok (set_type TOK_FLOAT (VFloat (d ++ frac ++ ex)) tok, lex)
    else if (match d with 48 :: _ :: _ => true | _ => false end)
    then Ok (set_type TOK_INT (VInt (literal_value 8 d)) tok, lex)
    else Ok (set_type TOK_INT (VInt (literal_value 10 d)) tok, lex).

(** The character an escape sequence denotes; [quote] is the escapable quote. *)
Definition unescape (quote c : Z) : Z :=
  if c =? 110 then 10 else if c =? 116 then 9 else if c =? 114 then 13
  else if c =? 92 then 92 else if c =? quote then quote else if c =? 48 then 0 else c.

(** The loop of scan_string; the buffer is grown as needed. *)
Fixpoint string_chars (fuel : nat) (lex : qd_cint_lexer) : outcome (cstr * qd_cint_lexer) :=
  if negb (peek lex =? 0) && negb (peek lex =? 34) then
    match fuel with
    | O => Fuel
    | S fuel =>
      let (c, lex) := advance lex in
      let (c, lex) := if c =? 92 then (let (c, lex) := advance lex in (unescape 34 c, lex)) else (c, lex) in
      let! (t, lex) := string_chars fuel lex in Ok (c :: t, lex)
    end
  else Ok ([], lex).

Definition scan_string (fuel : nat) (lex : qd_cint_lexer) : outcome (qd_cint_token * qd_cint_lexer) :=
  let tok := make_token lex TOK_STRING in
  let! (s, lex) := string_chars fuel (skip lex) in
  Ok (set_type TOK_STRING (VStr s) tok, skip lex).

(** The value is a [char], which is signed. *)
Definition scan_char (lex : qd_cint_lexer) : qd_cint_token * qd_cint_lexer :=
  let tok := make_token lex TOK_CHAR in
  let (c, lex) := advance (skip lex) in
  let (c, lex) := if c =? 92 then (let (c, lex) := advance lex in (unescape 39 c, lex)) else (c, lex) in
  (set_type TOK_CHAR (VChar (signed 8 c)) tok, skip lex).

Fixpoint find_keyword (l : list (cstr * qd_cint_token_type)) (s : cstr) : option qd_cint_token_type :=
  match l with
  | [] => None
  | (k, t) :: l => if decide (k = s) then Some t else find_keyword l s
  end.

Definition scan_ident (fuel : nat) (lex : qd_cint_lexer) : outcome (qd_cint_token * qd_cint_lexer) :=
  let tok := make_token lex TOK_IDENT in
  let! (s, lex) := advance_while fuel is_ident_char lex in
  match find_keyword keywords s with
  | Some t => Ok (set_type t VNone tok, lex)
  | None => Ok (set_type TOK_IDENT (VStr s) tok, lex)
  end.

(** The operator that starts with [c], and how many characters follow [c]; [p] and
    [q] are the next two characters. *)
Definition operator (c p q : Z) : qd_cint_token_type * nat :=
  if c =? 43 then if p =? 43 then (TOK_INC, 1%nat) else if p =? 61 then (TOK_PLUS_EQ, 1%nat) else (TOK_PLUS, 0%nat) else
  if c =? 45 then if p =? 45 then (TOK_DEC, 1%nat) else if p =? 61 then (TOK_MINUS_EQ, 1%nat) else if p =? 62 then (TOK_ARROW, 1%nat) else (TOK_MINUS, 0%nat) else
  if c =? 42 then if p =? 61 then (TOK_STAR_EQ, 1%nat) else (TOK_STAR, 0%nat) else
  if c =? 47 then if p =? 61 then (TOK_SLASH_EQ, 1%nat) else (TOK_SLASH, 0%nat) else
  if c =? 37 then if p =? 61 then (TOK_PERCENT_EQ, 1%nat) else (TOK_PERCENT, 0%nat) else
  if c =? 61 then if p =? 61 then (TOK_EQ, 1%nat) else (TOK_ASSIGN, 0%nat) else
  if c =? 33 then if p =? 61 then (TOK_NE, 1%nat) else (TOK_NOT, 0%nat) else
  if c =? 60 then if p =? 61 then (TOK_LE, 1%nat) else
    if p =? 60 then (if q =? 61 then (TOK_LSHIFT_EQ, 2%nat) else (TOK_LSHIFT, 1%nat)) else (TOK_LT, 0%nat) else
  if c =? 62 then if p =? 61 then (TOK_GE, 1%nat) else
    if p =? 62 then (if q =? 61 then (TOK_RSHIFT_EQ, 2%nat) else (TOK_RSHIFT, 1%nat)) else (TOK_GT, 0%nat) else
  if c =? 38 then if p =? 38 then (TOK_AND, 1%nat) else if p =? 61 then (TOK_BAND_EQ, 1%nat) else (TOK_BAND, 0%nat) else
  if c =? 124 then if p =? 124 then (TOK_OR, 1%nat) else if p =? 61 then (TOK_BOR_EQ, 1%nat) else (TOK_BOR, 0%nat) else
  if c =? 94 then if p =? 61 then (TOK_BXOR_EQ, 1%nat) else (TOK_BXOR, 0%nat) else
  if c =? 126 then (TOK_BNOT, 0%nat) else
  if c =? 63 then (TOK_QUESTION, 0%nat) else
  if c =? 58 then (TOK_COLON, 0%nat) else
  if c =? 46 then (TOK_DOT, 0%nat) else
  if c =? 40 then (TOK_LPAREN, 0%nat) else
  if c =? 41 then (TOK_RPAREN, 0%nat) else
  if c =? 123 then (TOK_LBRACE, 0%nat) else
  if c =? 125 then (TOK_RBRACE, 0%nat) else
  if c =? 91 then (TOK_LBRACKET, 0%nat) else
  if c =? 93 then (TOK_RBRACKET, 0%nat) else
  if c =? 59 then (TOK_SEMICOLON, 0%nat) else
  if c =? 44 then (TOK_COMMA, 0%nat) else
  (TOK_ERROR, 0%nat).

Definition scan_operator (lex : qd_cint_lexer) : qd_cint_token * qd_cint_lexer :=
  let tok := make_token lex TOK_ERROR in
  let (c, lex) := advance lex in
  let (t, n) := operator c (peek lex) (peek_next lex) in
  (set_type t VNone tok, Nat.iter n skip lex).

Definition qd_cint_lexer_next (fuel : nat) (lex : qd_cint_lexer) : outcome (qd_cint_token * qd_cint_lexer) :=
  let! lex := skip_whitespace fuel lex in
  if at_end lex then Ok (make_token lex TOK_EOF, lex) else
  let c := peek lex in
  if isdigit c then scan_number fuel lex
  else if c =? 34 then scan_string fuel lex
  else if c =? 39 then Ok (scan_char lex)
  else if is_ident_start c then scan_ident fuel lex
  else Ok (scan_operator lex).

(** Peeking gives the token and restores the position. *)
Definition qd_cint_lexer_peek (fuel : nat) (lex : qd_cint_lexer) : outcome qd_cint_token :=
  let! (tok, _) := qd_cint_lexer_next fuel lex in Ok tok.

(** All tokens up to TOK_EOF, as the parser takes them. *)
Fixpoint tokenize (fuel : nat) (lex : qd_cint_lexer) : outcome (list qd_cint_token) :=
  match fuel with
  | O => Fuel
  | S fuel =>
    let! (tok, lex) := qd_cint_lexer_next fuel lex in
    if decide (type tok = TOK_EOF) then Ok [] else
    let! l := tokenize fuel lex in Ok (tok :: l)
  end.

Example lex_ex :
  (let! l := tokenize 60 (qd_cint_lexer_init ("x1 <<= 0x1F; /* c */ 017 // e
'\n' 2.5e+1 if"%string : cstr) 0) in
   Ok (map (fun t => (type t, val t, tline t, tcol t)) l))
  = Ok [(TOK_IDENT, VStr ("x1"%string : cstr), 1, 1); (TOK_LSHIFT_EQ, VNone, 1, 4); (TOK_INT, VInt 31, 1, 8);
        (TOK_SEMICOLON, VNone, 1, 12); (TOK_INT, VInt 15, 1, 22); (TOK_CHAR, VChar 10, 2, 1);
        (TOK_FLOAT, VFloat ("2.5e+1"%string : cstr), 2, 6); (TOK_IF, VNone, 2, 13)].
Proof. vm_compute. reflexivity. Qed.


(** ** Positions *)

(** Line and column after a text. *)
Definition pos_step (p : Z * Z) (c : Z) : Z * Z := if c =? 10 then (p.1 + 1, 1) else (p.1, p.2 + 1).
Definition pos_after (p : Z * Z) (t : cstr) : Z * Z := foldl pos_step p t.
Definition pos (lex : qd_cint_lexer) : Z * Z := (line lex, col lex).

(** [lex'] is [lex] after the text [t]. *)
Definition passes (lex : qd_cint_lexer) (t : cstr) (lex' : qd_cint_lexer) : Prop :=
  rest lex = t ++ rest lex' /\ src lex' = src lex /\ pos lex' = pos_after (pos lex) t.

Lemma passes_nil lex : passes lex [] lex.
Proof. done. Qed.

Lemma passes_trans lex1 t lex2 u lex3 : passes lex1 t lex2 -> passes lex2 u lex3 -> passes lex1 (t ++ u) lex3.
Proof.
  intros (R1 & S1 & P1) (R2 & S2 & P2). unfold passes, pos_after in *. rewrite R1, R2, app_assoc, S2, S1, P2, P1.
  by rewrite foldl_app.
Qed.

Lemma passes_skip lex c r : rest lex = c :: r -> c <> 0 -> passes lex [c] (skip lex) /\ rest (skip lex) = r.
Proof.
  intros R Hc. unfold passes, skip, advance, pos_after, pos, pos_step, peek. rewrite R.
  destruct (Z.eqb_spec c 0); [done|]. simpl.
  destruct (Z.eqb_spec c 10); simpl; repeat split; done.
Qed.

Lemma advance_peek lex : advance lex = (peek lex, skip lex).
Proof. unfold skip, advance. by repeat case_match. Qed.

Lemma passes_rest lex t lex' : passes lex t lex' -> rest lex = t ++ rest lex'.
Proof. by intros (? & _). Qed.

Lemma passes_cons lex c r t lex' :
  rest lex = c :: r -> c <> 0 -> passes (skip lex) t lex' -> passes lex (c :: t) lex'.
Proof. intros R Hc H. destruct (passes_skip _ _ _ R Hc) as [Hp _]. exact (passes_trans _ _ _ _ _ Hp H). Qed.

(** A text without zero bytes stays one while it is read. *)
Lemma passes_no_nul lex t lex' : passes lex t lex' -> 0 ∉ rest lex -> 0 ∉ rest lex'.
Proof. intros (R & _) Hn. rewrite R, not_elem_of_app in Hn. tauto. Qed.

Lemma passes_length lex t lex' : passes lex t lex' -> (length (rest lex) = length t + length (rest lex'))%nat.
Proof. intros (R & _). by rewrite R, length_app. Qed.

Lemma peek_nonzero lex : peek lex <> 0 -> exists r, rest lex = peek lex :: r.
Proof. unfold peek. destruct (rest lex); [done|eauto]. Qed.

(** ** Loops *)

Lemma advance_while_ok fuel p lex :
  p 0 = false -> (length (rest lex) <= fuel)%nat ->
  exists t lex', advance_while fuel p lex = Ok (t, lex') /\ passes lex t lex' /\
    Forall (fun c => p c = true) t /\ p (peek lex') = false.
Proof.
  intros Hp. revert lex. induction fuel as [|fuel IH]; intros lex Hf; cbn [advance_while];
    destruct (p (peek lex)) eqn:E; try (by exists [], lex; repeat split; auto);
    (destruct (peek_nonzero lex) as [r R]; [intros E0; rewrite E0 in E; congruence|]);
    [rewrite R in Hf; simpl in Hf; lia|].
  assert (peek lex <> 0) as Hc by (intros E0; rewrite E0 in E; congruence).
  destruct (passes_skip _ _ _ R Hc) as [_ R'].
  destruct (IH (skip lex)) as (t & lex' & E' & Hpass & Ht & Hl); [rewrite R'; rewrite R in Hf; simpl in Hf; lia|].
  rewrite advance_peek, E'. simpl. exists (peek lex :: t), lex'. split; [done|]. split; [|auto].
  by eapply passes_cons.
Qed.

(** The loop stops at the end of the run. *)
Lemma advance_while_exact fuel p lex t r :
  rest lex = t ++ r -> Forall (fun c => p c = true) t -> p 0 = false ->
  (match r with c :: _ => p c = false | [] => True end) -> (length (rest lex) <= fuel)%nat ->
  exists lex', advance_while fuel p lex = Ok (t, lex') /\ passes lex t lex' /\ rest lex' = r.
Proof.
  intros R Ht Hp Hr Hf. destruct (advance_while_ok fuel p lex Hp Hf) as (u & lex' & E & (R' & Hs) & Hu & Hl).
  assert (u = t /\ rest lex' = r) as [-> E'].
  { clear E Hs Hf. rewrite R in R'. clear R. revert u R' Hu. induction Ht as [|c t Hc Ht IH]; intros u R' Hu; simpl in R'.
    - destruct Hu as [|c u Hc Hu]; [done|]. simpl in R'. rewrite R' in Hr. congruence.
    - destruct Hu as [|d u Hd Hu]; simpl in R'.
      + unfold peek in Hl. rewrite <- R' in Hl. congruence.
      + injection R' as -> R'. destruct (IH u R' Hu) as [-> ?]. done. }
  exists lex'. repeat split; [done| |apply Hs..|done]. by rewrite R', E'.
Qed.

(** ** Blanks: white space and comments *)

(** The text has the end of a block comment. *)
Fixpoint has_close (t : cstr) : bool :=
  match t with
  | [] => false
  | c :: u => ((c =? 42) && (match u with d :: _ => d =? 47 | [] => false end)) || has_close u
  end.

(** The text starts with white space or opens a comment. *)
Definition starts_blank (t : cstr) : bool :=
  match t with
  | [] => false
  | c :: u => isspace c || ((c =? 47) && (match u with d :: _ => (d =? 47) || (d =? 42) | [] => false end))
  end.

(** White space, line comments up to the end of the line, block comments up to the
    first closing mark; a block comment may be open at the end of the source. *)
Inductive blank : cstr -> Prop :=
| blank_nil : blank []
| blank_space c t : isspace c = true -> blank t -> blank (c :: t)
| blank_line b t : 10 ∉ b -> (t = [] \/ head t = Some 10) -> blank t -> blank (47 :: 47 :: b ++ t)
| blank_block b t : has_close (b ++ [42]) = false -> blank t -> blank (47 :: 42 :: (b ++ [42; 47]) ++ t)
| blank_open b : has_close b = false -> blank (47 :: 42 :: b).

Lemma isspace_nonzero c : isspace c = true -> c <> 0.
Proof. intros H ->. discriminate. Qed.

(** The next two characters. *)
Ltac look lex R := unfold at_end, peek, peek_next; rewrite R; cbv iota.

Lemma skip_block_ok fuel lex :
  0 ∉ rest lex -> (length (rest lex) <= fuel)%nat ->
  exists t lex', skip_block fuel lex = Ok lex' /\ passes lex t lex' /\
    ((exists b, t = b ++ [42; 47] /\ has_close (b ++ [42]) = false) \/ (has_close t = false /\ rest lex' = [])).
Proof.
  revert lex. induction fuel as [|fuel IH]; intros lex Hn Hf; cbn [skip_block];
    destruct (rest lex) as [|c r] eqn:R; (look lex R);
    try (by exists [], lex; repeat split; auto); [simpl in Hf; lia|].
  rewrite not_elem_of_cons in Hn. destruct Hn as [Hc Hn].
  destruct (passes_skip lex c r R ltac:(congruence)) as [Hp Rs].
  destruct ((c =? 42) && (match r with d :: _ => d | [] => 0 end =? 47)) eqn:E.
  - destruct r as [|d r]; [by rewrite andb_false_r in E|]. apply andb_true_iff in E as [->%Z.eqb_eq ->%Z.eqb_eq].
    destruct (passes_skip _ _ _ Rs ltac:(lia)) as [Hp2 Rs2].
    exists [42; 47], (skip (skip lex)). split; [done|]. split; [exact (passes_trans _ _ _ _ _ Hp Hp2)|]. left. by exists [].
  - destruct (IH (skip lex)) as (t & lex' & Ek & Hp' & Hd); [by rewrite Rs|rewrite Rs; simpl in Hf; lia|].
    exists (c :: t), lex'. split; [done|]. split; [exact (passes_trans _ _ _ _ _ Hp Hp')|].
    pose proof (passes_rest _ _ _ Hp') as Rt. rewrite Rs in Rt. destruct Hd as [(b & -> & Hb)|[Ht Hr]].
    + left. exists (c :: b). split; [done|]. cbn [app has_close]. rewrite Hb, orb_false_r.
      destruct b as [|d b]; simpl in *; [by rewrite andb_false_r|]. by rewrite Rt in E.
    + right. split; [|done]. cbn [has_close]. rewrite Ht, orb_false_r. rewrite Hr, app_nil_r in Rt.
      destruct t; [by rewrite andb_false_r|]. by rewrite Rt in E.
Qed.


(** The inner loop of a line comment. *)
Definition in_line (c : Z) : bool := negb (c =? 0) && negb (c =? 10).

Lemma line_comment_ok fuel lex r :
  rest lex = 47 :: 47 :: r -> 0 ∉ r -> (length (rest lex) <= fuel)%nat ->
  exists b lex', advance_while fuel in_line lex = Ok (47 :: 47 :: b, lex') /\ passes lex (47 :: 47 :: b) lex' /\
    10 ∉ b /\ (rest lex' = [] \/ head (rest lex') = Some 10).
Proof.
  intros R Hn Hf. destruct (advance_while_ok fuel in_line lex eq_refl Hf) as (t & lex' & E & Hp & Ht & Hl).
  pose proof (passes_rest _ _ _ Hp) as Rt. rewrite R in Rt.
  destruct Ht as [|x t Hx Ht]; simpl in Rt; [unfold peek in Hl; by rewrite <- Rt in Hl|]. injection Rt as <- Rt.
  destruct Ht as [|y t Hy Ht]; simpl in Rt; [unfold peek in Hl; by rewrite <- Rt in Hl|]. injection Rt as <- Rt.
  exists t, lex'. split; [done|]. split; [done|]. split.
  - intros Hin. rewrite Forall_forall in Ht. by apply Ht in Hin.
  - destruct (rest lex') as [|c r'] eqn:R'; [by left|]. right. unfold peek, in_line in Hl. rewrite R' in Hl.
    assert (c <> 0). { intros ->. apply Hn. rewrite Rt. set_solver. }
    destruct (Z.eqb_spec c 0); [done|]. destruct (Z.eqb_spec c 10) as [E10|]; [|done]. simpl. congruence.
Qed.

Lemma skip_whitespace_ok fuel lex :
  0 ∉ rest lex -> (length (rest lex) <= fuel)%nat ->
  exists b lex', skip_whitespace fuel lex = Ok lex' /\ passes lex b lex' /\ blank b /\ starts_blank (rest lex') = false.
Proof.
  revert lex. induction fuel as [|fuel IH]; intros lex Hn Hf; cbn [skip_whitespace];
    destruct (rest lex) as [|c r] eqn:R; (look lex R);
    try (by exists [], lex; rewrite ?R; repeat split; auto; constructor); [simpl in Hf; lia|].
  rewrite not_elem_of_cons in Hn. destruct Hn as [Hc Hn]. simpl in Hf.
  destruct (passes_skip lex c r R ltac:(congruence)) as [Hp Rs].
  destruct (isspace c) eqn:Es.
  { destruct (IH (skip lex)) as (b & lex' & E & Hp' & Hb & Hl); [by rewrite Rs|rewrite Rs; lia|].
    exists (c :: b), lex'. repeat split; [done|apply (passes_trans _ _ _ _ _ Hp Hp')..|by constructor|done]. }
  destruct r as [|d r]; [rewrite !andb_false_r; exists [], lex; rewrite R; simpl; rewrite Es, andb_false_r; repeat split; constructor|].
  rewrite not_elem_of_cons in Hn. destruct Hn as [Hd Hn].
  destruct (Z.eqb_spec c 47) as [->|]; cbn [andb].
  2: { exists [], lex. rewrite R. simpl. rewrite Es. destruct (Z.eqb_spec c 47); [done|]. repeat split; constructor. }
  destruct (Z.eqb_spec d 47) as [->|]; cbn [andb]; [|destruct (Z.eqb_spec d 42) as [->|]; cbn [andb]].
  - destruct (line_comment_ok (S fuel) lex r R Hn) as (t & l1 & E1 & Hp1 & Ht & Hl1); [by rewrite R|].
    change (fun c : Z => negb (c =? 0) && negb (c =? 10)) with in_line. rewrite E1. cbn [obind].
    pose proof (passes_length _ _ _ Hp1) as L1. rewrite R in L1. simpl in L1, Hf.
    destruct (IH l1) as (b & lex' & E & Hp' & Hb & Hl); [|lia|].
    { apply (passes_no_nul _ _ _ Hp1). rewrite R. rewrite !not_elem_of_cons. auto. }
    exists (47 :: 47 :: t ++ b), lex'. split; [done|]. split; [exact (passes_trans _ _ _ _ _ Hp1 Hp')|].
    split; [|done]. constructor; [done| |done]. pose proof (passes_rest _ _ _ Hp') as R1. rewrite R1 in Hl1.
    destruct b as [|x b]; [by left|]. destruct Hl1 as [|]; [done|]. by right.
  - destruct (passes_skip _ _ _ Rs ltac:(lia)) as [Hp2 Rs2].
    destruct (skip_block_ok fuel (skip (skip lex))) as (t & l1 & E1 & Hp1 & Ht); [by rewrite Rs2|rewrite Rs2; simpl in Hf; lia|].
    rewrite E1. cbn [obind]. pose proof (passes_length _ _ _ Hp1) as L1. rewrite Rs2 in L1. simpl in Hf.
    destruct (IH l1) as (b & lex' & E & Hp' & Hb & Hl); [apply (passes_no_nul _ _ _ Hp1); by rewrite Rs2|lia|].
    exists (47 :: 42 :: t ++ b), lex'. split; [done|].
    split; [exact (passes_trans _ _ _ _ _ Hp (passes_trans _ _ _ _ _ Hp2 (passes_trans _ _ _ _ _ Hp1 Hp')))|].
    split; [|done]. destruct Ht as [(b0 & -> & Hb0)|[Ht Hr]]; [by constructor|].
    pose proof (passes_rest _ _ _ Hp') as R1. rewrite Hr in R1. destruct b; [|done]. rewrite app_nil_r. by constructor.
  - exists [], lex. rewrite R. simpl. destruct (Z.eqb_spec d 47), (Z.eqb_spec d 42); try done. repeat split; constructor.
Qed.

(** ** One token *)

Lemma string_chars_ok fuel lex :
  0 ∉ rest lex -> (length (rest lex) <= fuel)%nat ->
  exists s t lex', string_chars fuel lex = Ok (s, lex') /\ passes lex t lex' /\ (peek lex' = 0 \/ peek lex' = 34).
Proof.
  revert lex. induction fuel as [|fuel IH]; intros lex Hn Hf; cbn [string_chars];
    destruct (negb (peek lex =? 0) && negb (peek lex =? 34)) eqn:E;
    try (exists [], [], lex; repeat split; by destruct (Z.eqb_spec (peek lex) 0), (Z.eqb_spec (peek lex) 34); auto);
    apply andb_true_iff in E as [E0%negb_true_iff%Z.eqb_neq E1%negb_true_iff%Z.eqb_neq];
    destruct (peek_nonzero lex E0) as [r R]; [rewrite R in Hf; simpl in Hf; lia|].
  rewrite advance_peek. destruct (passes_skip _ _ _ R E0) as [Hp Rs].
  pose proof (passes_no_nul _ _ _ Hp Hn) as Hn1. rewrite R in Hf. simpl in Hf.
  assert (exists c u l1, (if peek lex =? 92 then let (c, lex0) := advance (skip lex) in (unescape 34 c, lex0) else (peek lex, skip lex)) = (c, l1)
    /\ passes (skip lex) u l1) as (c & u & l1 & -> & Hp1).
  { destruct (Z.eqb_spec (peek lex) 92); [|by exists (peek lex), [], (skip lex)].
    rewrite advance_peek. destruct (Z.eq_dec (peek (skip lex)) 0) as [Ez|Hne].
    - exists (unescape 34 (peek (skip lex))), [], (skip (skip lex)). split; [done|].
      assert (skip (skip lex) = skip lex) as ->; [|done]. unfold skip at 1, advance. by rewrite Ez.
    - destruct (peek_nonzero _ Hne) as [r2 R2]. eexists _, [_], _. split; [done|]. by apply (passes_skip _ _ _ R2 Hne). }
  pose proof (passes_length _ _ _ Hp1) as L1. rewrite Rs in L1.
  destruct (IH l1) as (s & t & lex' & -> & Hp2 & Hl); [by apply (passes_no_nul _ _ _ Hp1)|lia|].
  exists (c :: s), ([peek lex] ++ u ++ t), lex'. split; [done|]. split; [|done].
  exact (passes_trans _ _ _ _ _ Hp (passes_trans _ _ _ _ _ Hp1 Hp2)).
Qed.

(** Skipping never goes wrong: at the end it stays. *)
Lemma passes_skip_any lex : exists t, passes lex t (skip lex).
Proof.
  destruct (Z.eq_dec (peek lex) 0) as [E|Hne].
  - exists []. assert (skip lex = lex) as ->; [|done]. unfold skip, advance. by rewrite E.
  - destruct (peek_nonzero _ Hne) as [r R]. exists [peek lex]. by apply (passes_skip _ _ _ R Hne).
Qed.

Lemma passes_iter n lex : exists t, passes lex t (Nat.iter n skip lex).
Proof.
  induction n as [|n [t IH]]; [by exists []|]. destruct (passes_skip_any (Nat.iter n skip lex)) as [u Hu].
  exists (t ++ u). exact (passes_trans _ _ _ _ _ IH Hu).
Qed.

(** A token that starts where the lexer is and takes at least one character. *)
Definition scanned (lex : qd_cint_lexer) (tok : qd_cint_token) (lex' : qd_cint_lexer) : Prop :=
  exists t, passes lex t lex' /\ t <> [] /\ (tline tok, tcol tok) = pos lex /\ type tok <> TOK_EOF.

Lemma scanned_intro lex t lex' ty v ty0 :
  passes lex t lex' -> t <> [] -> ty <> TOK_EOF -> scanned lex (set_type ty v (make_token lex ty0)) lex'.
Proof. intros. by exists t. Qed.

(** After a nonempty first part. *)
Lemma nonempty_app {A} (t u : list A) : t <> [] -> t ++ u <> [].
Proof. by destruct t. Qed.

Lemma run_ok fuel lex l0 t0 p :
  p 0 = false -> passes lex t0 l0 -> (length (rest lex) <= fuel)%nat ->
  exists t l1, advance_while fuel p l0 = Ok (t, l1) /\ passes lex (t0 ++ t) l1.
Proof.
  intros Hp H0 Hf. pose proof (passes_length _ _ _ H0).
  destruct (advance_while_ok fuel p l0 Hp) as (t & l1 & E & H1 & _); [lia|].
  exists t, l1. split; [done|]. exact (passes_trans _ _ _ _ _ H0 H1).
Qed.

Lemma scan_number_ok fuel lex :
  isdigit (peek lex) = true -> (length (rest lex) <= fuel)%nat ->
  exists tok lex', scan_number fuel lex = Ok (tok, lex') /\ scanned lex tok lex'.
Proof.
  intros Hd Hf. assert (peek lex <> 0) as H0 by (intros E; by rewrite E in Hd).
  destruct (peek_nonzero _ H0) as [r R]. destruct (passes_skip _ _ _ R H0) as [Hp _].
  unfold scan_number. case_match.
  - destruct (passes_skip_any (skip lex)) as [u Hu].
    destruct (run_ok fuel lex _ _ isxdigit eq_refl (passes_trans _ _ _ _ _ Hp Hu) Hf) as (t & l1 & -> & K1).
    eexists _, _. split; [done|]. by eapply scanned_intro.
  - destruct (advance_while_ok fuel isdigit lex eq_refl Hf) as (d & l1 & E1 & K1 & Hfd & Hl).
    assert (d <> []) as Hne. { intros ->. pose proof (passes_rest _ _ _ K1) as R1. simpl in R1. unfold peek in Hd, Hl. rewrite R1 in Hd. congruence. }
    rewrite E1. cbn [obind].
    assert (exists f l2 u, (if peek l1 =? 46 then let! (t, lex0) := advance_while fuel isdigit (skip l1) in Ok (46 :: t, lex0) else Ok ([], l1)) = Ok (f, l2)
      /\ passes lex (d ++ u) l2) as (f & l2 & u & -> & K2).
    { case_match; [|exists [], l1, []; by rewrite app_nil_r].
      destruct (passes_skip_any l1) as [u Hu].
      destruct (run_ok fuel lex _ _ isdigit eq_refl (passes_trans _ _ _ _ _ K1 Hu) Hf) as (t & l2 & -> & K2).
      eexists _, _, _. split; [done|]. by rewrite <- app_assoc in K2. }
    cbn [obind].
    assert (exists x l3 v, (if (peek l2 =? 101) || (peek l2 =? 69) then
        let (e, lex) := advance l2 in
        let (sign, lex) := if (peek lex =? 43) || (peek lex =? 45) then ([peek lex], skip lex) else ([], lex) in
        let! (t, lex) := advance_while fuel isdigit lex in Ok (e :: sign ++ t, lex)
      else Ok ([], l2)) = Ok (x, l3) /\ passes lex (d ++ v) l3) as (x & l3 & v & -> & K3).
    { case_match; [|exists [], l2, u; done]. rewrite advance_peek.
      destruct (passes_skip_any l2) as [w Hw]. pose proof (passes_trans _ _ _ _ _ K2 Hw) as K2'.
      destruct ((peek (skip l2) =? 43) || (peek (skip l2) =? 45)).
      - destruct (passes_skip_any (skip l2)) as [w2 Hw2].
        destruct (run_ok fuel lex _ _ isdigit eq_refl (passes_trans _ _ _ _ _ K2' Hw2) Hf) as (t & l3 & -> & K3).
        eexists _, _, _. split; [done|]. by rewrite <- !app_assoc in K3.
      - destruct (run_ok fuel lex _ _ isdigit eq_refl K2' Hf) as (t & l3 & -> & K3).
        eexists _, _, _. split; [done|]. by rewrite <- !app_assoc in K3. }
    cbn [obind]. pose proof (nonempty_app d v Hne).
    repeat case_match; (eexists _, _; split; [done|]; by eapply scanned_intro).
Qed.

Lemma scan_string_ok fuel lex :
  peek lex = 34 -> 0 ∉ rest lex -> (length (rest lex) <= fuel)%nat ->
  exists tok lex', scan_string fuel lex = Ok (tok, lex') /\ scanned lex tok lex'.
Proof.
  intros H0 Hn Hf. destruct (peek_nonzero lex) as [r R]; [lia|]. rewrite H0 in R.
  destruct (passes_skip _ _ _ R ltac:(lia)) as [Hp Rs]. pose proof (passes_length _ _ _ Hp).
  destruct (string_chars_ok fuel (skip lex) (passes_no_nul _ _ _ Hp Hn) ltac:(lia)) as (s & t & l1 & E & H1 & _).
  destruct (passes_skip_any l1) as [u Hu].
  unfold scan_string. rewrite E. eexists _, _. split; [done|].
  eapply scanned_intro; [exact (passes_trans _ _ _ _ _ Hp (passes_trans _ _ _ _ _ H1 Hu))|done|done].
Qed.

Lemma scan_char_ok lex : peek lex = 39 -> scanned lex (scan_char lex).1 (scan_char lex).2.
Proof.
  intros H0. destruct (peek_nonzero lex) as [r R]; [lia|]. rewrite H0 in R.
  destruct (passes_skip _ _ _ R ltac:(lia)) as [Hp _].
  unfold scan_char. rewrite (advance_peek (skip lex)), (advance_peek (skip (skip lex))).
  assert (forall n, exists t, passes lex (39 :: t) (Nat.iter n skip (skip lex))) as Hall.
  { intros n. destruct (passes_iter n (skip lex)) as [t Ht]. exists t. exact (passes_trans _ _ _ _ _ Hp Ht). }
  destruct (peek (skip lex) =? 92); simpl.
  - destruct (Hall 3%nat) as [t Ht]. eapply scanned_intro; [exact Ht|done|done].
  - destruct (Hall 2%nat) as [t Ht]. eapply scanned_intro; [exact Ht|done|done].
Qed.

Lemma keyword_not_eof s t : find_keyword keywords s = Some t -> t <> TOK_EOF.
Proof.
  intros H ->. revert H. unfold keywords.
  assert (forall l, Forall (fun kt => kt.2 <> TOK_EOF) l -> find_keyword l s <> Some TOK_EOF) as Hl.
  { induction 1 as [|[k t] l Hk _ IH]; simpl; [done|]. case_match; [|done]. simpl in Hk. congruence. }
  apply Hl. repeat constructor; done.
Qed.

Lemma scan_ident_ok fuel lex :
  is_ident_start (peek lex) = true -> (length (rest lex) <= fuel)%nat ->
  exists tok lex', scan_ident fuel lex = Ok (tok, lex') /\ scanned lex tok lex'.
Proof.
  intros Hs Hf. destruct (advance_while_ok fuel is_ident_char lex eq_refl Hf) as (t & l1 & E & Hp & Ht & Hl).
  assert (t <> []) as Hne.
  { intros ->. pose proof (passes_rest _ _ _ Hp) as R1. simpl in R1. unfold peek in Hs, Hl. rewrite R1 in Hs.
    unfold is_ident_start in Hs. unfold is_ident_char, isalnum in Hl. apply orb_false_iff in Hl as [[Ha _]%orb_false_iff Hu].
    by rewrite Ha, Hu in Hs. }
  unfold scan_ident. rewrite E. cbn [obind]. destruct (find_keyword keywords t) eqn:Ek.
  - eexists _, _. split; [done|]. eapply scanned_intro; [done..|]. by eapply keyword_not_eof.
  - eexists _, _. split; [done|]. by eapply scanned_intro.
Qed.

Lemma operator_not_eof c p q : (operator c p q).1 <> TOK_EOF.
Proof. unfold operator. repeat (case_match; try done). Qed.

Lemma scan_operator_ok lex c r :
  rest lex = c :: r -> c <> 0 -> scanned lex (scan_operator lex).1 (scan_operator lex).2.
Proof.
  intros R Hc. destruct (passes_skip _ _ _ R Hc) as [Hp _]. unfold scan_operator. rewrite advance_peek.
  destruct (operator _ _ _) as [t n] eqn:Eo. destruct (passes_iter n (skip lex)) as [u Hu]. simpl.
  eapply scanned_intro; [exact (passes_trans _ _ _ _ _ Hp Hu)|done|].
  intros ->. eapply operator_not_eof. by rewrite Eo.
Qed.

(** The token at a position that is not blank. *)
Definition scan_token (fuel : nat) (lex : qd_cint_lexer) : outcome (qd_cint_token * qd_cint_lexer) :=
  if at_end lex then Ok (make_token lex TOK_EOF, lex) else
  let c := peek lex in
  if isdigit c then scan_number fuel lex
  else if c =? 34 then scan_string fuel lex
  else if c =? 39 then Ok (scan_char lex)
  else if is_ident_start c then scan_ident fuel lex
  else Ok (scan_operator lex).

Lemma scan_token_ok fuel lex :
  0 ∉ rest lex -> rest lex <> [] -> (length (rest lex) <= fuel)%nat ->
  exists tok lex', scan_token fuel lex = Ok (tok, lex') /\ scanned lex tok lex'.
Proof.
  intros Hn Hne Hf. unfold scan_token, at_end. destruct (rest lex) as [|c r] eqn:R; [done|].
  rewrite <- R in *. assert (peek lex = c) as Hpk by (unfold peek; by rewrite R).
  destruct (isdigit (peek lex)) eqn:Ed; [by apply scan_number_ok|].
  destruct (Z.eqb_spec (peek lex) 34); [by apply scan_string_ok|].
  destruct (Z.eqb_spec (peek lex) 39).
  { destruct (scan_char lex) as [tok lex'] eqn:E. exists tok, lex'. split; [done|].
    pose proof (scan_char_ok lex ltac:(done)) as H. by rewrite E in H. }
  destruct (is_ident_start (peek lex)) eqn:Ei; [by apply scan_ident_ok|].
  destruct (scan_operator lex) as [tok lex'] eqn:E. exists tok, lex'. split; [done|].
  assert (c <> 0) as Hc. { intros ->. apply Hn. rewrite R. set_solver. }
  pose proof (scan_operator_ok lex c r R Hc) as H. by rewrite E in H.
Qed.

(** On a source without zero bytes the next token is always found: the lexer
    passes the blanks (white space and comments), which it does not leave any of, then
    the text of the token; the token carries the line and column of its first
    character, the lexer those of the next one; TOK_EOF is returned at the end of the
    source and only there, and every other token takes at least one character. *)
Theorem lexer_next_total fuel lex :
  0 ∉ rest lex -> (length (rest lex) <= fuel)%nat ->
  exists tok lex' blanks text,
    qd_cint_lexer_next fuel lex = Ok (tok, lex') /\
    passes lex (blanks ++ text) lex' /\ blank blanks /\ starts_blank (text ++ rest lex') = false /\
    (tline tok, tcol tok) = pos_after (pos lex) blanks /\
    (type tok = TOK_EOF <-> text = []) /\ (text = [] -> rest lex' = []).
Proof.
  intros Hn Hf. destruct (skip_whitespace_ok fuel lex Hn Hf) as (b & l1 & E & Hp & Hb & Hl).
  pose proof (passes_length _ _ _ Hp) as L. pose proof (passes_no_nul _ _ _ Hp Hn) as Hn1.
  unfold qd_cint_lexer_next. rewrite E. cbn [obind]. fold (scan_token fuel l1).
  assert (pos l1 = pos_after (pos lex) b) as Hpos by apply Hp.
  destruct (rest l1) as [|c r] eqn:R.
  - exists (make_token l1 TOK_EOF), l1, b, []. unfold scan_token, at_end. rewrite R, app_nil_r.
    repeat (split; [done|]). done.
  - destruct (scan_token_ok fuel l1) as (tok & l2 & E2 & t & Hp2 & Hne & Ht & Hty); [by rewrite R|by rewrite R|rewrite R; lia|].
    exists tok, l2, b, t. split; [done|]. split; [exact (passes_trans _ _ _ _ _ Hp Hp2)|].
    rewrite <- (passes_rest _ _ _ Hp2), R, Ht. repeat (split; [done|]). done.
Qed.

Lemma lexer_next_total_witness :
  exists tok lex' blanks text,
    qd_cint_lexer_next 20 (mkLexer [] ("/**/ 7"%string : cstr) 3 5) = Ok (tok, lex') /\
    passes (mkLexer [] ("/**/ 7"%string : cstr) 3 5) (blanks ++ text) lex' /\ blank blanks /\ starts_blank (text ++ rest lex') = false /\
    (tline tok, tcol tok) = pos_after (3, 5) blanks /\
    (type tok = TOK_EOF <-> text = []) /\ (text = [] -> rest lex' = []).
Proof.
  apply (lexer_next_total 20 (mkLexer [] ("/**/ 7"%string : cstr) 3 5)).
  - apply (bool_decide_unpack _). vm_compute. reflexivity.
  - simpl. lia.
Defined.

(** A zero byte inside a block comment of a source with an explicit length is not
    passed by advance: the scan never ends, whatever the fuel. *)
Theorem nul_in_comment_hangs fuel l :
  qd_cint_lexer_next fuel (qd_cint_lexer_init (47 :: 42 :: 0 :: l) (Z.of_nat (3 + length l))) = Fuel.
Proof.
  set (lex0 := qd_cint_lexer_init _ _).
  assert (rest lex0 = 47 :: 42 :: 0 :: l) as R.
  { unfold lex0, qd_cint_lexer_init. destruct (Z.eqb_spec (Z.of_nat (3 + length l)) 0); [lia|]. simpl rest.
    rewrite take_ge; [done|]. simpl. lia. }
  unfold qd_cint_lexer_next. destruct fuel as [|fuel]; cbn [skip_whitespace]; (look lex0 R); [done|].
  cbn [isspace between Z.eqb Z.leb andb orb Z.compare Pos.compare Pos.compare_cont Pos.eqb].
  destruct (passes_skip _ _ _ R ltac:(lia)) as [_ R1]. destruct (passes_skip _ _ _ R1 ltac:(lia)) as [_ R2].
  assert (forall n lex, rest lex = 0 :: l -> skip_block n lex = Fuel) as ->; [|done|done].
  induction n as [|n IH]; intros lex H; cbn [skip_block]; (look lex H); [by destruct l|].
  cbn [Z.eqb andb]. apply IH. unfold skip, advance, peek. by rewrite H.
Qed.

(** ** Printing tokens *)

Definition escape (quote c : Z) : cstr :=
  if c =? 10 then [92; 110] else if c =? 9 then [92; 116] else if c =? 13 then [92; 114]
  else if c =? 92 then [92; 92] else if c =? quote then [92; quote] else if c =? 0 then [92; 48] else [c].

Definition operators : list (cstr * qd_cint_token_type) :=
  [("+"%string : cstr, TOK_PLUS); ("-"%string : cstr, TOK_MINUS); ("*"%string : cstr, TOK_STAR);
   ("/"%string : cstr, TOK_SLASH); ("%"%string : cstr, TOK_PERCENT); ("=="%string : cstr, TOK_EQ);
   ("!="%string : cstr, TOK_NE); ("<"%string : cstr, TOK_LT); (">"%string : cstr, TOK_GT);
   ("<="%string : cstr, TOK_LE); (">="%string : cstr, TOK_GE); ("&&"%string : cstr, TOK_AND);
   ("||"%string : cstr, TOK_OR); ("!"%string : cstr, TOK_NOT); ("&"%string : cstr, TOK_BAND);
   ("|"%string : cstr, TOK_BOR); ("^"%string : cstr, TOK_BXOR); ("~"%string : cstr, TOK_BNOT);
   ("<<"%string : cstr, TOK_LSHIFT); (">>"%string : cstr, TOK_RSHIFT); ("="%string : cstr, TOK_ASSIGN);
   ("+="%string : cstr, TOK_PLUS_EQ); ("-="%string : cstr, TOK_MINUS_EQ); ("*="%string : cstr, TOK_STAR_EQ);
   ("/="%string : cstr, TOK_SLASH_EQ); ("%="%string : cstr, TOK_PERCENT_EQ); ("&="%string : cstr, TOK_BAND_EQ);
   ("|="%string : cstr, TOK_BOR_EQ); ("^="%string : cstr, TOK_BXOR_EQ); ("<<="%string : cstr, TOK_LSHIFT_EQ);
   (">>="%string : cstr, TOK_RSHIFT_EQ); ("++"%string : cstr, TOK_INC); ("--"%string : cstr, TOK_DEC);
   ("->"%string : cstr, TOK_ARROW); ("."%string : cstr, TOK_DOT); ("?"%string : cstr, TOK_QUESTION);
   (":"%string : cstr, TOK_COLON); ("("%string : cstr, TOK_LPAREN); (")"%string : cstr, TOK_RPAREN);
   ("{"%string : cstr, TOK_LBRACE); ("}"%string : cstr, TOK_RBRACE); ("["%string : cstr, TOK_LBRACKET);
   ("]"%string : cstr, TOK_RBRACKET); (";"%string : cstr, TOK_SEMICOLON); (","%string : cstr, TOK_COMMA)].

(** The spelling of a token: decimal integers, identifiers that are not keywords,
    strings and characters with their escapes, keywords and operators. *)
Inductive spells : cstr -> qd_cint_token_type -> token_val -> Prop :=
| spells_int i : 0 <= i < 2 ^ 63 -> spells (print_lld i) TOK_INT (VInt i)
| spells_string s : spells (34 :: flat_map (escape 34) s ++ [34]) TOK_STRING (VStr s)
| spells_char c : spells (39 :: escape 39 c ++ [39]) TOK_CHAR (VChar (signed 8 c))
| spells_ident c s : is_ident_start c = true -> Forall (fun x => is_ident_char x = true) s ->
    find_keyword keywords (c :: s) = None -> spells (c :: s) TOK_IDENT (VStr (c :: s))
| spells_keyword s t : (s, t) ∈ keywords -> spells s t VNone
| spells_operator s t : (s, t) ∈ operators -> spells s t VNone.

(** The text after a token: the end or a blank. *)
Definition stops (r : cstr) : Prop := match r with [] => True | c :: _ => c = 32 end.

Definition lexes (fuel : nat) (lex : qd_cint_lexer) (s r : cstr) (t : qd_cint_token_type) (v : token_val) : Prop :=
  exists tok lex', scan_token fuel lex = Ok (tok, lex') /\ passes lex s lex' /\ rest lex' = r /\
    type tok = t /\ val tok = v.

Lemma scan_operator_lexes fuel lex s t r :
  (s, t) ∈ operators -> rest lex = s ++ r -> stops r -> lexes fuel lex s r t VNone.
Proof.
  intros Hin R Hr. destruct lex as [sr rs ln cl]. simpl in R. subst rs. unfold operators in Hin.
  destruct r as [|x r]; simpl in Hr; subst;
    repeat (apply elem_of_cons in Hin as [[= -> ->]|Hin]; [eexists _, _; split; [reflexivity|]; repeat split|]);
    by apply not_elem_of_nil in Hin.
Qed.

Lemma find_keyword_in s t : (s, t) ∈ keywords -> find_keyword keywords s = Some t.
Proof.
  intros Hin. unfold keywords in Hin.
  repeat (apply elem_of_cons in Hin as [[= -> ->]|Hin]; [reflexivity|]). by apply not_elem_of_nil in Hin.
Qed.

Lemma keyword_ident s t : (s, t) ∈ keywords ->
  exists c u, s = c :: u /\ is_ident_start c = true /\ Forall (fun x => is_ident_char x = true) u.
Proof.
  intros Hin. unfold keywords in Hin.
  repeat (apply elem_of_cons in Hin as [[= -> ->]|Hin]; [eexists _, _; split; [reflexivity|]; split; [done|]; by repeat constructor|]).
  by apply not_elem_of_nil in Hin.
Qed.

Lemma ident_start_cases c :
  is_ident_start c = true -> isdigit c = false /\ c <> 34 /\ c <> 39 /\ c <> 0 /\ is_ident_char c = true.
Proof.
  unfold is_ident_start, is_ident_char, isalnum, isalpha, isupper, islower, isdigit, between. intros H.
  repeat zcase; simpl in *; try discriminate; repeat split; lia || done.
Qed.

Lemma scan_ident_lexes fuel lex c s r :
  is_ident_start c = true -> Forall (fun x => is_ident_char x = true) s ->
  rest lex = (c :: s) ++ r -> stops r -> (length (rest lex) <= fuel)%nat ->
  lexes fuel lex (c :: s) r (default TOK_IDENT (find_keyword keywords (c :: s)))
    (match find_keyword keywords (c :: s) with Some _ => VNone | None => VStr (c :: s) end).
Proof.
  intros Hc Hs R Hr Hf. destruct (ident_start_cases c Hc) as (Hd & H1 & H2 & H0 & Hi).
  destruct (advance_while_exact fuel is_ident_char lex (c :: s) r) as (lex' & E & Hp & Rr);
    [done|by constructor|done|by destruct r; simpl in Hr; subst|done|].
  unfold lexes, scan_token, at_end, peek. rewrite R. cbn [app]. rewrite Hd, Hc.
  destruct (Z.eqb_spec c 34); [done|]. destruct (Z.eqb_spec c 39); [done|].
  unfold scan_ident. rewrite E. cbn [obind]. destruct (find_keyword keywords (c :: s)); (eexists _, _; split; [done|]; split; [exact Hp|]; by split).
Qed.

(** Decimal numbers. *)
Lemma decimal_digits fuel v acc :
  Forall (fun c => isdigit c = true) acc -> 0 <= v -> Forall (fun c => isdigit c = true) (decimal fuel v acc).
Proof.
  revert v acc. induction fuel as [|fuel IH]; intros v acc Ha Hv; simpl; [done|].
  pose proof (Z.mod_pos_bound v 10 ltac:(lia)).
  assert (isdigit (48 + v mod 10) = true) by (unfold isdigit, between; repeat zcase; simpl; lia || done).
  case_match; [by constructor|]. apply IH; [by constructor|]. apply Z.div_pos; lia.
Qed.

Lemma decimal_literal i : 0 <= i < 2 ^ 63 ->
  literal_value 10 (print_lld i) = i /\
  (i = 0 \/ exists d t, print_lld i = d :: t /\ d <> 48 /\ isdigit d = true).
Proof.
  intros Hi. unfold literal_value, print_lld. destruct (Z.ltb_spec i 0); [lia|]. split.
  - destruct (digits_decimal 20 i [] 0 ltac:(simpl; lia) ltac:(lia) ltac:(lia)) as (k & -> & _). simpl. lia.
  - destruct (Z.eq_dec i 0); [by left|right]. destruct (decimal_first 20 i [] ltac:(simpl; lia)) as (d & t & -> & Hd).
    exists (48 + d), t. split; [done|]. split; [lia|]. unfold isdigit, between. repeat zcase; simpl; lia || done.
Qed.

(** A run of digits that nothing extends is an integer. *)
Lemma scan_number_plain fuel lex d lex' :
  (peek lex =? 48) && ((peek_next lex =? 120) || (peek_next lex =? 88)) = false ->
  advance_while fuel isdigit lex = Ok (d, lex') -> (peek lex' = 0 \/ peek lex' = 32) ->
  scan_number fuel lex =
    Ok (set_type TOK_INT (VInt (literal_value (match d with 48 :: _ :: _ => 8 | _ => 10 end) d)) (make_token lex TOK_INT), lex').
Proof.
  intros Hx E Hpk. unfold scan_number. rewrite Hx, E. cbn [obind].
  assert (peek lex' =? 46 = false) as -> by (by destruct Hpk as [-> | ->]). cbn [obind].
  assert ((peek lex' =? 101) || (peek lex' =? 69) = false) as -> by (by destruct Hpk as [-> | ->]). cbn [obind].
  by repeat case_match.
Qed.

Lemma scan_int_lexes fuel lex i r :
  0 <= i < 2 ^ 63 -> rest lex = print_lld i ++ r -> stops r -> (length (rest lex) <= fuel)%nat ->
  lexes fuel lex (print_lld i) r TOK_INT (VInt i).
Proof.
  intros Hi R Hr Hf. destruct (decimal_literal i Hi) as [Hv Hs].
  assert (Forall (fun c => isdigit c = true) (print_lld i)) as Hd.
  { unfold print_lld. destruct (Z.ltb_spec i 0); [lia|]. apply decimal_digits; [constructor|lia]. }
  destruct (advance_while_exact fuel isdigit lex (print_lld i) r) as (lex' & E & Hp & Rr);
    [done|done|done|by destruct r; simpl in Hr; subst|done|].
  assert (peek lex' = 0 \/ peek lex' = 32) as Hpk by (unfold peek; rewrite Rr; destruct r; auto).
  assert (exists d t, print_lld i = d :: t /\ isdigit d = true /\ (d = 48 -> t = [])) as (d & t & Ed & Hdd & H48).
  { destruct Hs as [->|(d & t & Ed & Hne & Hdd)]; [by eexists _, _|]. by exists d, t. }
  unfold lexes, scan_token, at_end. rewrite (scan_number_plain fuel lex (print_lld i) lex'); [| |done|done].
  - unfold peek at 1. rewrite R, Ed. cbn [app]. rewrite Hdd, <- Ed. eexists _, _. split; [reflexivity|].
    split; [exact Hp|]. split; [done|]. split; [done|]. simpl. rewrite <- Hv at 2. rewrite Ed.
    repeat f_equal. repeat case_match; try done. exfalso. by specialize (H48 eq_refl).
  - unfold peek, peek_next. rewrite R, Ed. cbn [app]. destruct (Z.eqb_spec d 48) as [->|]; [|reflexivity].
    rewrite H48 by done. by destruct r; simpl in Hr; subst.
Qed.

(** Escapes. *)
Lemma escape_spec q c : q = 34 \/ q = 39 ->
  (exists x, escape q c = [92; x] /\ x <> 0 /\ unescape q x = c) \/ (escape q c = [c] /\ c <> 0 /\ c <> 92 /\ c <> q).
Proof.
  intros Hq. unfold escape.
  repeat (case_match; [left; eexists; split; [done|]; split; [destruct Hq; lia|]; unfold unescape; destruct Hq as [-> | ->]; simpl; lia|]).
  right. split; [done|]. lia.
Qed.

Lemma skip_exact lex c r : rest lex = c :: r -> c <> 0 -> advance lex = (c, skip lex) /\ passes lex [c] (skip lex) /\ rest (skip lex) = r.
Proof. intros R Hc. rewrite advance_peek. split; [unfold peek; by rewrite R|]. by apply passes_skip. Qed.

Lemma string_chars_lexes fuel lex s r :
  rest lex = flat_map (escape 34) s ++ 34 :: r -> (length (rest lex) <= fuel)%nat ->
  exists lex', string_chars fuel lex = Ok (s, lex') /\ passes lex (flat_map (escape 34) s) lex' /\ rest lex' = 34 :: r.
Proof.
  revert fuel lex. induction s as [|c s IH]; intros fuel lex R Hf; simpl in R.
  { exists lex. destruct fuel; cbn [string_chars]; unfold peek; by rewrite R. }
  rewrite <- app_assoc in R. destruct (escape_spec 34 c) as [(x & Ee & Hx & Hu)|(Ee & H0 & H92 & H34)]; [by left| |];
    simpl; rewrite Ee in *; cbn [app] in *; (destruct fuel as [|fuel]; [rewrite R in Hf; simpl in Hf; lia|]);
    cbn [string_chars]; rewrite R in Hf; simpl in Hf.
  - destruct (skip_exact _ _ _ R ltac:(lia)) as (E1 & P1 & R1). destruct (skip_exact _ _ _ R1 Hx) as (E2 & P2 & R2).
    assert (peek lex = 92) as -> by (unfold peek; by rewrite R). cbn [Z.eqb negb andb Pos.eqb]. rewrite E1. cbn [Z.eqb Pos.eqb].
    rewrite E2, Hu. destruct (IH fuel (skip (skip lex)) R2) as (lex' & -> & P3 & R3); [rewrite R2; lia|].
    exists lex'. split; [done|]. split; [|done]. exact (passes_trans _ _ _ _ _ P1 (passes_trans _ _ _ _ _ P2 P3)).
  - destruct (skip_exact _ _ _ R H0) as (E1 & P1 & R1).
    assert (peek lex = c) as -> by (unfold peek; by rewrite R).
    destruct (Z.eqb_spec c 0); [done|]. destruct (Z.eqb_spec c 34); [done|]. cbn [negb andb]. rewrite E1.
    destruct (Z.eqb_spec c 92); [done|]. destruct (IH fuel (skip lex) R1) as (lex' & -> & P3 & R3); [rewrite R1; lia|].
    exists lex'. split; [done|]. split; [|done]. exact (passes_trans _ _ _ _ _ P1 P3).
Qed.

Lemma scan_string_lexes fuel lex s r :
  rest lex = (34 :: flat_map (escape 34) s ++ [34]) ++ r -> (length (rest lex) <= fuel)%nat ->
  lexes fuel lex (34 :: flat_map (escape 34) s ++ [34]) r TOK_STRING (VStr s).
Proof.
  intros R Hf. cbn [app] in R. rewrite <- app_assoc in R. cbn [app] in R.
  destruct (skip_exact _ _ _ R ltac:(lia)) as (E1 & P1 & R1).
  destruct (string_chars_lexes fuel (skip lex) s r R1) as (l1 & E & P2 & R2); [rewrite R1; rewrite R in Hf; simpl in Hf; lia|].
  destruct (skip_exact _ _ _ R2 ltac:(lia)) as (E3 & P3 & R3).
  unfold lexes. assert (scan_token fuel lex = scan_string fuel lex) as -> by (unfold scan_token, at_end, peek; by rewrite R).
  unfold scan_string. rewrite E. eexists _, _. split; [reflexivity|].
  split; [exact (passes_trans _ _ _ _ _ P1 (passes_trans _ _ _ _ _ P2 P3))|]. done.
Qed.

Lemma scan_char_lexes fuel lex c r :
  rest lex = (39 :: escape 39 c ++ [39]) ++ r -> lexes fuel lex (39 :: escape 39 c ++ [39]) r TOK_CHAR (VChar (signed 8 c)).
Proof.
  intros R. cbn [app] in R. rewrite <- app_assoc in R.
  destruct (skip_exact _ _ _ R ltac:(lia)) as (E1 & P1 & R1).
  unfold lexes. assert (scan_token fuel lex = Ok (scan_char lex)) as -> by (unfold scan_token, at_end, peek; by rewrite R).
  unfold scan_char.
  destruct (escape_spec 39 c) as [(x & Ee & Hx & Hu)|(Ee & H0 & H92 & H39)]; [by right| |]; rewrite Ee in *; cbn [app] in *.
  - destruct (skip_exact _ _ _ R1 ltac:(lia)) as (E2 & P2 & R2). destruct (skip_exact _ _ _ R2 Hx) as (E3 & P3 & R3).
    destruct (skip_exact _ _ _ R3 ltac:(lia)) as (E4 & P4 & R4). rewrite E2. cbn [Z.eqb Pos.eqb]. rewrite E3, Hu.
    eexists _, _. split; [reflexivity|]. split; [|done].
    exact (passes_trans _ _ _ _ _ P1 (passes_trans _ _ _ _ _ P2 (passes_trans _ _ _ _ _ P3 P4))).
  - destruct (skip_exact _ _ _ R1 H0) as (E2 & P2 & R2). destruct (skip_exact _ _ _ R2 ltac:(lia)) as (E3 & P3 & R3).
    rewrite E2. destruct (Z.eqb_spec c 92); [done|]. eexists _, _. split; [reflexivity|]. split; [|done].
    exact (passes_trans _ _ _ _ _ P1 (passes_trans _ _ _ _ _ P2 P3)).
Qed.

(** A spelled token does not start like a blank. *)
Lemma spells_not_blank s t v r : spells s t v -> stops r -> starts_blank (s ++ r) = false /\ s <> [].
Proof.
  assert (forall c, is_ident_start c = true \/ isdigit c = true -> isspace c = false /\ c <> 47) as Hid.
  { intros c. unfold is_ident_start, isalpha, isupper, islower, isdigit, isspace, between.
    intros Hc; repeat zcase; simpl in *; destruct Hc; try discriminate; split; done || lia. }
  assert (forall c u, is_ident_start c = true \/ isdigit c = true -> starts_blank (c :: u) = false) as Hb.
  { intros c u Hc. destruct (Hid c Hc) as [E H]. simpl. rewrite E. by destruct (Z.eqb_spec c 47). }
  intros [i Hi|s'|c|c s' Hc Hs _|s' t' Hin|s' t' Hin] Hr; try (split; [reflexivity|done]).
  - destruct (decimal_literal i Hi) as [_ [->|(d & u & -> & _ & Hd)]]; [done|]. split; [|done]. apply Hb. by right.
  - split; [|done]. apply Hb. by left.
  - destruct (keyword_ident _ _ Hin) as (c & u & -> & Hc & _). split; [|done]. apply Hb. by left.
  - unfold operators in Hin. destruct r as [|x r]; simpl in Hr; subst;
      repeat (apply elem_of_cons in Hin as [[= -> ->]|Hin]; [done|]); by apply not_elem_of_nil in Hin.
Qed.

Lemma spells_lexes fuel lex s t v r :
  spells s t v -> rest lex = s ++ r -> stops r -> (length (rest lex) <= fuel)%nat -> lexes fuel lex s r t v.
Proof.
  intros [i Hi|s'|c|c s' Hc Hs Hk|s' t' Hin|s' t' Hin] R Hr Hf.
  - by apply scan_int_lexes.
  - by apply scan_string_lexes.
  - by apply scan_char_lexes.
  - pose proof (scan_ident_lexes fuel lex c s' r Hc Hs R Hr Hf) as H. by rewrite Hk in H.
  - destruct (keyword_ident _ _ Hin) as (c & u & -> & Hc & Hu).
    pose proof (scan_ident_lexes fuel lex c u r Hc Hu R Hr Hf) as H. by rewrite (find_keyword_in _ _ Hin) in H.
  - by apply scan_operator_lexes.
Qed.

(** One blank and a token. *)
Lemma next_lexes fuel lex s t v r :
  spells s t v -> rest lex = 32 :: s ++ r -> stops r -> (length (rest lex) <= fuel)%nat ->
  exists tok lex', qd_cint_lexer_next fuel lex = Ok (tok, lex') /\ rest lex' = r /\ type tok = t /\ val tok = v.
Proof.
  intros Hs R Hr Hf. destruct (spells_not_blank s t v r Hs Hr) as [Hb Hne].
  destruct (skip_exact _ _ _ R ltac:(lia)) as (_ & P1 & R1).
  assert (skip_whitespace fuel lex = Ok (skip lex)) as E.
  { rewrite R in Hf. simpl in Hf. rewrite length_app in Hf. destruct s as [|c s]; [done|]. simpl in Hf, R1, Hb.
    destruct fuel as [|[|fuel]]; [lia..|]. cbn [skip_whitespace]. unfold at_end at 1. rewrite R. cbv iota.
    assert (isspace (peek lex) = true) as -> by (unfold peek; by rewrite R).
    unfold at_end, peek, peek_next. rewrite R1. cbv iota. apply orb_false_iff in Hb as [-> Hb]. simpl.
    destruct (c =? 47); [|done]. simpl in *. destruct (s ++ r); [done|]. by apply orb_false_iff in Hb as [-> ->]. }
  destruct (spells_lexes fuel (skip lex) s t v r Hs R1 Hr) as (tok & lex' & Es & Hp & Rr & Ht & Hv).
  { rewrite R1. rewrite R in Hf. simpl in Hf. lia. }
  exists tok, lex'. unfold qd_cint_lexer_next. rewrite E. cbn [obind]. by fold (scan_token fuel (skip lex)).
Qed.

Lemma spells_not_eof s t v : spells s t v -> t <> TOK_EOF.
Proof.
  intros [i Hi|s'|c|c s' Hc Hs Hk|s' t' Hin|s' t' Hin]; try done.
  - apply find_keyword_in in Hin. by eapply keyword_not_eof.
  - intros ->. unfold operators in Hin. repeat (apply elem_of_cons in Hin as [[=]|Hin]). by apply not_elem_of_nil in Hin.
Qed.

(** A spelling has no zero byte. *)
Lemma spells_no_nul s t v : spells s t v -> 0 ∉ s.
Proof.
  assert (forall q c, q <> 0 -> 0 ∉ escape q c) as He.
  { intros q c Hq. unfold escape. repeat case_match; rewrite ?not_elem_of_cons; repeat split; try lia; apply not_elem_of_nil. }
  assert (forall q u, q <> 0 -> 0 ∉ u -> 0 ∉ q :: u ++ [q]) as Hquote.
  { intros q u Hq Hu. rewrite not_elem_of_cons, not_elem_of_app, list_elem_of_singleton. repeat split; done || lia. }
  assert (forall (p : Z -> bool) u, p 0 = false -> Forall (fun x => p x = true) u -> 0 ∉ u) as Hp.
  { intros p u H0 Hu Hin. rewrite Forall_forall in Hu. apply Hu in Hin. congruence. }
  intros [i Hi|s'|c|c s' Hc Hs _|s' t' Hin|s' t' Hin].
  - apply (Hp isdigit); [done|]. unfold print_lld. destruct (Z.ltb_spec i 0); [lia|]. apply decimal_digits; [constructor|lia].
  - apply Hquote; [lia|]. rewrite list_elem_of_In, in_flat_map. intros (c & _ & Hin%list_elem_of_In). by apply (He 34 c).
  - apply Hquote; [lia|]. by apply He.
  - apply (Hp is_ident_char); [done|]. constructor; [|done]. by apply ident_start_cases.
  - destruct (keyword_ident _ _ Hin) as (c & u & -> & Hc & Hu). apply (Hp is_ident_char); [done|].
    constructor; [|done]. by apply ident_start_cases.
  - unfold operators in Hin. repeat (apply elem_of_cons in Hin as [[= -> ->]|Hin]; [by apply (bool_decide_unpack _)|]).
    by apply not_elem_of_nil in Hin.
Qed.

(** The source that has the tokens, a blank before each of them. *)
Definition source (l : list (cstr * qd_cint_token_type * token_val)) : cstr := flat_map (fun x => 32 :: x.1.1) l.

Lemma source_no_nul l : Forall (fun x => spells x.1.1 x.1.2 x.2) l -> 0 ∉ source l.
Proof.
  induction 1 as [|x l Hx _ IH]; simpl; [apply not_elem_of_nil|]. fold (source l).
  rewrite not_elem_of_cons, not_elem_of_app. split; [done|]. split; [by eapply spells_no_nul|done].
Qed.

(** C10: Print and tokenize: a source made of the spellings of tokens, separated by
    blanks, gives exactly these tokens with their values: keywords, identifiers,
    decimal integers, every operator, strings and characters with any content. *)
Theorem tokenize_source l fuel :
  Forall (fun x => spells x.1.1 x.1.2 x.2) l -> (length (source l) < fuel)%nat ->
  exists toks, tokenize fuel (qd_cint_lexer_init (source l) 0) = Ok toks /\
    map (fun t => (type t, val t)) toks = map (fun x => (x.1.2, x.2)) l.
Proof.
  intros Hl Hf. pose proof (source_no_nul l Hl) as Hn. unfold qd_cint_lexer_init. rewrite until_nul_id by done. simpl.
  remember (mkLexer (source l) (source l) 1 1) as lex eqn:El.
  assert (rest lex = source l) as R by (by subst). clear El Hn. revert fuel lex R Hf.
  induction Hl as [|[[s t] v] l Hs Hl IH]; intros fuel lex R Hf; (destruct fuel as [|fuel]; [lia|]); cbn [tokenize].
  - exists []. unfold qd_cint_lexer_next. destruct fuel; cbn [skip_whitespace]; unfold at_end; rewrite R; simpl; unfold at_end; rewrite R; done.
  - simpl in R, Hs. change (foldr _ _ _) with (source l) in R. fold (source l) in R.
    destruct (next_lexes fuel lex s t v (source l) Hs R) as (tok & lex' & -> & Rr & Ht & Hv).
    { by destruct l as [|[[s' t'] v'] l]. }
    { rewrite R. simpl in Hf. fold (source l) in Hf. simpl. lia. }
    cbn [obind]. rewrite Ht. destruct (decide (t = TOK_EOF)) as [->|]; [by apply spells_not_eof in Hs|].
    destruct (IH fuel lex' Rr) as (toks & -> & Em).
    { simpl in Hf. rewrite length_app in Hf. fold (source l) in Hf. destruct (spells_not_blank s t v [] Hs I) as [_ Hne].
      destruct s; [done|]. simpl in Hf. lia. }
    exists (tok :: toks). split; [done|]. simpl. by rewrite Ht, Hv, Em.
Qed.

Lemma tokenize_source_witness :
  exists toks, tokenize 40 (qd_cint_lexer_init (source
      [("if"%string : cstr, TOK_IF, VNone); (print_lld 42, TOK_INT, VInt 42); ("<<="%string : cstr, TOK_LSHIFT_EQ, VNone);
       (34 :: flat_map (escape 34) [97; 0; 34] ++ [34], TOK_STRING, VStr [97; 0; 34])]) 0) = Ok toks /\
    map (fun t => (type t, val t)) toks = [(TOK_IF, VNone); (TOK_INT, VInt 42); (TOK_LSHIFT_EQ, VNone); (TOK_STRING, VStr [97; 0; 34])].
Proof.
  apply (tokenize_source
      [("if"%string : cstr, TOK_IF, VNone); (print_lld 42, TOK_INT, VInt 42); ("<<="%string : cstr, TOK_LSHIFT_EQ, VNone);
       (34 :: flat_map (escape 34) [97; 0; 34] ++ [34], TOK_STRING, VStr [97; 0; 34])] 40).
  - repeat apply Forall_cons_2; [| | | |apply Forall_nil_2]; cbn [fst snd].
    + apply spells_keyword. apply list_elem_of_In. simpl. auto.
    + apply spells_int. lia.
    + apply spells_operator. apply list_elem_of_In. vm_compute. tauto.
    + apply spells_string.
  - vm_compute. lia.
Defined.
