(* ===== verification/Arena.v ===== *)
(** * src/core/qd_memory.c: the arena allocator

    An arena is the list of its blocks (the [next] links) and the index of the
    current one.  The result of the calls of malloc for a block is an argument: the
    address of the block, or [None] when one of the calls fails.  Contents are a
    byte-addressed memory. *)

From S2P Require Import Prelude Common CString.

Definition QD_ARENA_DEFAULT_SIZE : Z := 64 * 1024.
Definition QD_ARENA_MIN_SIZE : Z := 4096.

Record block := mkBlock { base : Z; size : Z; offset : Z; peak : Z }.
Record qd_arena := mkArena { blocks : list block; current : nat }.

Abbreviation memory := (gmap Z Z).

Fixpoint write_bytes (m : memory) (a : Z) (l : list Z) : memory :=
  match l with [] => m | b :: l => write_bytes (<[a := b]> m) (a + 1) l end.

Definition new_block (b n : Z) : block := mkBlock b n 0 0.

(** The size qd_arena_create asks malloc for. *)
Definition initial_block (initial_size : Z) : Z :=
  if initial_size <? QD_ARENA_MIN_SIZE then QD_ARENA_DEFAULT_SIZE else initial_size.

Definition qd_arena_create (initial_size : Z) (ans : option Z) : option qd_arena :=
  match ans with
  | None => None
  | Some b => Some (mkArena [new_block b (initial_block initial_size)] 0)
  end.

(** The size of the block that is added for a request. *)
Definition next_block (first size align : Z) : Z :=
  let new_size := first *64 2 in
  if new_size <? size +64 align then (size +64 align) +64 QD_ARENA_MIN_SIZE else new_size.

Definition arena_alloc_internal (A : qd_arena) (sz align : Z) (ans : option Z) : outcome (option Z * qd_arena) :=
  let! a := of_option (blocks A !! current A) in
  let aligned_offset := QD_ALIGN (offset a) align in
  if aligned_offset +64 sz <=? size a then
    let off := aligned_offset +64 sz in
    let a' := mkBlock (base a) (size a) off (if peak a <? off then off else peak a) in
    Ok (Some (base a + aligned_offset), mkArena (<[current A := a']> (blocks A)) (current A))
  else
    let! first := of_option (blocks A !! 0%nat) in
    match ans with
    | None => Ok (None, A)
    | Some b =>
      let n := new_block b (next_block (size first) sz align) in
      let aligned_offset := QD_ALIGN (offset n) align in
      let off := aligned_offset +64 sz in
      Ok (Some (base n + aligned_offset),
          mkArena (take (S (current A)) (blocks A) ++ [mkBlock (base n) (size n) off off]) (S (current A)))
    end.

Definition qd_arena_alloc (A : qd_arena) (sz : Z) (ans : option Z) : outcome (option Z * qd_arena) :=
  if sz =? 0 then Ok (None, A) else arena_alloc_internal A sz 8 ans.

Definition qd_arena_alloc_aligned (A : qd_arena) (sz align : Z) (ans : option Z) : outcome (option Z * qd_arena) :=
  if sz =? 0 then Ok (None, A) else
  arena_alloc_internal A sz (if align =? 0 then 8 else align) ans.

Definition qd_arena_zalloc (A : qd_arena) (m : memory) (sz : Z) (ans : option Z) : outcome (option Z * qd_arena * memory) :=
  let! (p, A) := qd_arena_alloc A sz ans in
  Ok (p, A, match p with Some a => write_bytes m a (repeat 0 (Z.to_nat sz)) | None => m end).

Definition qd_arena_strdup (A : qd_arena) (m : memory) (str : cstr) (ans : option Z) : outcome (option Z * qd_arena * memory) :=
  let len := Z.of_nat (length str) +64 1 in
  let! (p, A) := qd_arena_alloc A len ans in
  Ok (p, A, match p with Some a => write_bytes m a (str ++ [0]) | None => m end).

Definition qd_arena_strndup (A : qd_arena) (m : memory) (str : cstr) (n : Z) (ans : option Z) : outcome (option Z * qd_arena * memory) :=
  let s := take (Z.to_nat n) str in
  let! (p, A) := qd_arena_alloc A (Z.of_nat (length s) +64 1) ans in
  Ok (p, A, match p with Some a => write_bytes m a (s ++ [0]) | None => m end).

(** All blocks but the first are freed; the peak of the first stays. *)
Definition qd_arena_reset (A : qd_arena) : outcome qd_arena :=
  let! f := of_option (blocks A !! 0%nat) in
  Ok (mkArena [mkBlock (base f) (size f) 0 (peak f)] 0).

Record qd_arena_stats_t := mkStats { allocated : Z; st_peak : Z; total_size : Z; num_blocks : Z }.

Definition qd_arena_stats (A : qd_arena) : qd_arena_stats_t :=
  foldl (fun st b => mkStats (allocated st +64 offset b) (if st_peak st <? peak b then peak b else st_peak st)
                       (total_size st +64 size b) (num_blocks st +64 1))
    (mkStats 0 0 0 0) (blocks A).

(** ** Invariant *)

(** Two ranges of addresses. *)
Definition disjoint_range (x y : Z * Z) : Prop := x.1 + x.2 <= y.1 \/ y.1 + y.2 <= x.1.

Definition range (b : block) : Z * Z := (base b, size b).

(** malloc has at most PTRDIFF_MAX bytes to give. *)
Definition PTRDIFF_MAX : Z := 2 ^ 63 - 1.

(** The ranges [L] handed out are inside the used parts of the blocks and disjoint. *)
Record arena_inv (A : qd_arena) (L : list (Z * Z)) : Prop := {
  inv_current : length (blocks A) = S (current A);
  inv_block : forall i b, blocks A !! i = Some b ->
    base b mod 16 = 0 /\ 0 <= offset b <= size b /\ size b <= PTRDIFF_MAX /\ offset b <= peak b <= size b;
  inv_blocks : forall i j b c, blocks A !! i = Some b -> blocks A !! j = Some c -> i <> j -> disjoint_range (range b) (range c);
  inv_in : forall r, r ∈ L -> exists i b, blocks A !! i = Some b /\ base b <= r.1 /\ r.1 + r.2 <= base b + offset b;
  inv_disjoint : forall i j x y, L !! i = Some x -> L !! j = Some y -> i <> j -> disjoint_range x y
}.

(** malloc's answer for [n] bytes: memory that no block has. *)
Definition fresh (A : qd_arena) (n : Z) (ans : option Z) : Prop :=
  match ans with
  | None => True
  | Some b => 0 < b /\ b mod 16 = 0 /\ n <= PTRDIFF_MAX /\ Forall (fun c => disjoint_range (b, n) (range c)) (blocks A)
  end.

(** A request: a size up to 2^62 and a power of two up to a page. *)
Definition request (sz align : Z) : Prop := 0 < sz <= 2 ^ 62 /\ exists k, 0 <= k <= 12 /\ align = 2 ^ k.

Lemma create_inv n ans A :
  fresh (mkArena [] 0) (initial_block n) ans -> 0 <= n -> qd_arena_create n ans = Some A -> arena_inv A [].
Proof.
  destruct ans as [b|]; [|done]. simpl. intros (_ & H16 & Hn & _) H0 [= <-].
  split; simpl; [done| | |by intros r ?%elem_of_nil|done].
  - intros i c Hc. assert (0 <= initial_block n) by (unfold initial_block, QD_ARENA_DEFAULT_SIZE; case_match; lia).
    apply list_lookup_singleton_Some in Hc as [_ <-]. simpl. lia.
  - intros i j c d [-> _]%list_lookup_singleton_Some [-> _]%list_lookup_singleton_Some. done.
Qed.

Lemma align_small k x : 0 <= k <= 12 -> 0 <= x <= PTRDIFF_MAX ->
  QD_ALIGN x (2 ^ k) mod 2 ^ k = 0 /\ x <= QD_ALIGN x (2 ^ k) < x + 2 ^ k.
Proof.
  intros Hk Hx. unfold PTRDIFF_MAX in Hx. assert (2 ^ k <= 2 ^ 12) by (apply Z.pow_le_mono_r; lia).
  apply align_bounds; [lia..|]. unfold_widths. lia.
Qed.

Lemma align_zero k : 0 <= k <= 12 -> QD_ALIGN 0 (2 ^ k) = 0.
Proof.
  intros Hk. destruct (align_small k 0 Hk) as [Hm Hb]; [unfold PTRDIFF_MAX; lia|].
  rewrite Z.mod_small in Hm; lia.
Qed.

(** A range inside the used part of a block. *)
Definition inside (b : block) (r : Z * Z) : Prop := base b <= r.1 /\ r.1 + r.2 <= base b + offset b.

(** One more range, away from the others. *)
Lemma disjoint_cons (L : list (Z * Z)) x :
  (forall i j a b, L !! i = Some a -> L !! j = Some b -> i <> j -> disjoint_range a b) ->
  (forall r, r ∈ L -> disjoint_range x r) ->
  forall i j a b, (x :: L) !! i = Some a -> (x :: L) !! j = Some b -> i <> j -> disjoint_range a b.
Proof.
  intros HL Hx [|i] [|j] a b Ha Hb Hne; simpl in *; simplify_eq.
  - apply Hx. by eapply list_elem_of_lookup_2.
  - destruct (Hx a); [by eapply list_elem_of_lookup_2|by right|by left].
  - eapply HL; eauto.
Qed.

(** The request is served from the current block. *)
Lemma alloc_current A L a off sz k :
  arena_inv A L -> blocks A !! current A = Some a -> request sz (2 ^ k) -> 0 <= k <= 12 ->
  off = QD_ALIGN (offset a) (2 ^ k) -> off + sz <= size a ->
  let a' := mkBlock (base a) (size a) (off + sz) (if peak a <? off + sz then off + sz else peak a) in
  arena_inv (mkArena (<[current A := a']> (blocks A)) (current A)) ((base a + off, sz) :: L).
Proof.
  intros [Hc Hb Hbb Hin Hd] Ha [Hsz _] Hk Hoff Hfit a'. pose proof (Hb _ _ Ha) as (H16 & Ho & Hs & Hp).
  destruct (align_small k (offset a) Hk ltac:(lia)) as [_ Hal]. rewrite <- Hoff in Hal.
  assert (offset a' = off + sz) as Eo by done.
  assert (forall i b, <[current A:=a']> (blocks A) !! i = Some b -> (i = current A /\ b = a') \/ (i <> current A /\ blocks A !! i = Some b)) as Hi.
  { intros i b [(-> & <- & _)|(? & ?)]%list_lookup_insert_Some; auto. }
  split; simpl.
  - by rewrite length_insert.
  - intros i b [[-> ->]|[_ ?]]%Hi; [|by eapply Hb]. subst a'. simpl. destruct (Z.ltb_spec (peak a) (off + sz)); lia.
  - assert (forall i b, <[current A:=a']> (blocks A) !! i = Some b -> exists c, blocks A !! i = Some c /\ range c = range b) as Hr.
    { intros i b [[-> ->]|[_ ?]]%Hi; [by exists a|by exists b]. }
    intros i j b c (b' & Hb' & <-)%Hr (c' & Hc' & <-)%Hr. by eapply Hbb.
  - intros r [->|Hr]%elem_of_cons.
    + exists (current A), a'. rewrite list_lookup_insert_eq by (apply lookup_lt_is_Some; eauto). simpl. split; [done|]. lia.
    + destruct (Hin r Hr) as (i & b & Hb' & H1 & H2). destruct (decide (i = current A)) as [->|Hne].
      * exists (current A), a'. rewrite list_lookup_insert_eq by (apply lookup_lt_is_Some; eauto). simpl.
        rewrite Ha in Hb'. injection Hb' as <-. split; [done|]. lia.
      * exists i, b. rewrite list_lookup_insert_ne by done. done.
  - apply disjoint_cons; [done|]. intros r Hr. destruct (Hin r Hr) as (i & b & Hb' & H1 & H2).
    unfold disjoint_range. simpl. destruct (decide (i = current A)) as [->|Hne].
    + rewrite Ha in Hb'. injection Hb' as <-. lia.
    + pose proof (Hb _ _ Hb') as (_ & ? & _). destruct (Hbb _ _ _ _ Hb' Ha Hne); simpl in *; lia.
Qed.

(** The request is served from a new block. *)
Lemma alloc_new A L b n sz :
  arena_inv A L -> fresh A n (Some b) -> 0 < sz <= n ->
  arena_inv (mkArena (take (S (current A)) (blocks A) ++ [mkBlock b n sz sz]) (S (current A))) ((b, sz) :: L).
Proof.
  intros [Hc Hb Hbb Hin Hd] (Hb0 & H16 & Hn & Hf) Hsz. rewrite take_ge by lia. rewrite Forall_forall in Hf.
  assert (forall i c, (blocks A ++ [mkBlock b n sz sz]) !! i = Some c ->
    (blocks A !! i = Some c /\ disjoint_range (b, n) (range c)) \/ (i = length (blocks A) /\ c = mkBlock b n sz sz)) as Hi.
  { intros i c [Hl|[Hl Hx]]%lookup_app_Some.
    - left. split; [done|]. apply Hf. by eapply list_elem_of_lookup_2.
    - apply list_lookup_singleton_Some in Hx as [Hx <-]. right. split; [lia|done]. }
  split; simpl.
  - rewrite length_app. simpl. lia.
  - intros i c [[Hl _]|[_ ->]]%Hi; [by eapply Hb|]. simpl. lia.
  - intros i j c d [[Hl Hlc]|[-> ->]]%Hi [[Hr Hrc]|[-> ->]]%Hi Hne; [by eapply Hbb| | |done].
    + destruct Hlc; [by right|by left].
    + done.
  - intros r [->|Hr]%elem_of_cons.
    + exists (length (blocks A)), (mkBlock b n sz sz). rewrite lookup_app_r, Nat.sub_diag by lia. simpl. split; [done|]. lia.
    + destruct (Hin r Hr) as (i & c & Hl & ?). exists i, c. split; [by apply lookup_app_l_Some|done].
  - apply disjoint_cons; [done|]. intros r Hr. destruct (Hin r Hr) as (i & c & Hl & H1 & H2).
    pose proof (Hb _ _ Hl) as (_ & ? & _).
    destruct (Hf c) as [?|?]; [by eapply list_elem_of_lookup_2| |]; unfold disjoint_range in *; simpl in *; lia.
Qed.

Lemma next_block_fits first sz k : 0 <= first <= PTRDIFF_MAX -> 0 < sz <= 2 ^ 62 -> 0 <= k <= 12 -> sz <= next_block first sz (2 ^ k).
Proof.
  intros Hf Hs Hk. unfold next_block, PTRDIFF_MAX, QD_ARENA_MIN_SIZE in *.
  assert (0 < 2 ^ k <= 2 ^ 12) by (split; [apply Z.pow_pos_nonneg|apply Z.pow_le_mono_r]; lia).
  rewrite (u64_small (first * 2)), (u64_small (sz + 2 ^ k)) by (unfold_widths; lia).
  rewrite (u64_small (sz + 2 ^ k + 4096)) by (unfold_widths; lia). destruct (Z.ltb_spec (first * 2) (sz + 2 ^ k)); lia.
Qed.

Definition first_size (A : qd_arena) : Z := match blocks A with b :: _ => size b | [] => 0 end.

(** An aligned address: the offset is aligned, and blocks are aligned to 16. *)
Lemma aligned_address b off k : b mod 16 = 0 -> off mod 2 ^ k = 0 -> 0 <= k <= 4 -> (b + off) mod 2 ^ k = 0.
Proof.
  intros Hb Ho Hk. assert (0 < 2 ^ k) by (apply Z.pow_pos_nonneg; lia).
  apply Z.mod_divide in Ho as [x ->]; [|lia]. apply Z.mod_divide in Hb as [y ->]; [|lia].
  apply Z.mod_divide; [lia|]. exists (y * 2 ^ (4 - k) + x).
  replace 16 with (2 ^ (4 - k) * 2 ^ k); [ring|]. rewrite <- Z.pow_add_r by lia. by replace (4 - k + k) with 4 by lia.
Qed.

Lemma alloc_internal_ok A L sz align ans :
  arena_inv A L -> request sz align -> fresh A (next_block (first_size A) sz align) ans ->
  exists p A', arena_alloc_internal A sz align ans = Ok (p, A') /\
    match p with
    | None => ans = None /\ A' = A
    | Some a => arena_inv A' ((a, sz) :: L) /\ (align <= 16 -> a mod align = 0)
    end.
Proof.
  intros HI Hreq Hfr. pose proof HI as [Hc Hb _ _ _]. pose proof Hreq as [Hsz (k & Hk & ->)].
  assert (2 ^ k <= 2 ^ 12) by (apply Z.pow_le_mono_r; lia).
  assert (2 ^ k <= 16 -> k <= 4) as Hk4. { intros H16. change 16 with (2 ^ 4) in H16. apply Z.pow_le_mono_r_iff in H16; lia. }
  destruct (lookup_lt_is_Some_2 (blocks A) (current A) ltac:(lia)) as [a Ha].
  pose proof (Hb _ _ Ha) as (H16 & Ho & Hs & Hp). unfold PTRDIFF_MAX in *.
  destruct (align_small k (offset a) Hk ltac:(unfold PTRDIFF_MAX; lia)) as [Hm Hal].
  unfold arena_alloc_internal. rewrite Ha. cbn [of_option obind].
  rewrite (u64_small (QD_ALIGN _ _ + sz)) by (unfold_widths; lia).
  destruct (Z.leb_spec (QD_ALIGN (offset a) (2 ^ k) + sz) (size a)) as [Hfit|Hfit].
  - eexists _, _. split; [reflexivity|]. split; [by eapply alloc_current|].
    intros. apply aligned_address; [done|done|]. split; [lia|auto].
  - destruct (blocks A) as [|f l] eqn:Eb; [done|]. cbn [lookup list_lookup of_option obind].
    destruct ans as [b|]; [|by eexists _, _]. cbn [new_block offset base size]. rewrite align_zero by done.
    rewrite (u64_small (0 + sz)), Z.add_0_r, Z.add_0_l by (unfold_widths; lia).
    eexists _, _. split; [reflexivity|]. rewrite <- Eb. split.
    + unfold first_size in Hfr. rewrite Eb in Hfr. apply alloc_new; [done|done|].
      pose proof (Hb 0%nat f eq_refl) as (_ & ? & ? & _). split; [lia|]. apply next_block_fits; [unfold PTRDIFF_MAX; lia|lia|done].
    + intros. destruct Hfr as (_ & Hb16 & _). rewrite <- (Z.add_0_r b). apply aligned_address; [done|apply Z.mod_0_l; lia|]. split; [lia|auto].
Qed.

Lemma reset_inv A L : arena_inv A L -> exists A', qd_arena_reset A = Ok A' /\ arena_inv A' [].
Proof.
  intros [Hc Hb _ _ _]. unfold qd_arena_reset. destruct (blocks A) as [|f l] eqn:Eb; [done|]. simpl.
  eexists. split; [reflexivity|]. pose proof (Hb 0%nat f eq_refl) as (? & ? & ? & ?).
  split; simpl; [done| | |by intros r ?%elem_of_nil|done].
  - intros i c [_ <-]%list_lookup_singleton_Some. simpl. lia.
  - by intros i j c d [-> _]%list_lookup_singleton_Some [-> _]%list_lookup_singleton_Some.
Qed.

(** The alignment a call asks for: 0 stands for the size of a pointer. *)
Definition alignment (align : Z) : Z := if align =? 0 then 8 else align.
Definition valid_call (sz align : Z) : Prop := 0 <= sz <= 2 ^ 62 /\ exists k, 0 <= k <= 12 /\ alignment align = 2 ^ k.

(** The arenas that calls reach, with the ranges handed out since the last reset. *)
Inductive reachable : qd_arena -> list (Z * Z) -> Prop :=
| reach_create n ans A :
    0 <= n -> fresh (mkArena [] 0) (initial_block n) ans -> qd_arena_create n ans = Some A -> reachable A []
| reach_alloc A L sz align ans p A' :
    reachable A L -> valid_call sz align -> fresh A (next_block (first_size A) sz (alignment align)) ans ->
    qd_arena_alloc_aligned A sz align ans = Ok (p, A') ->
    reachable A' (match p with Some a => (a, sz) :: L | None => L end)
| reach_reset A L A' : reachable A L -> qd_arena_reset A = Ok A' -> reachable A' [].

Lemma alloc_aligned_ok A L sz align ans :
  arena_inv A L -> valid_call sz align -> fresh A (next_block (first_size A) sz (alignment align)) ans ->
  exists p A', qd_arena_alloc_aligned A sz align ans = Ok (p, A') /\
    match p with
    | None => (sz = 0 \/ ans = None) /\ A' = A
    | Some a => arena_inv A' ((a, sz) :: L) /\ (alignment align <= 16 -> a mod alignment align = 0)
    end.
Proof.
  intros HI [Hsz Hal] Hfr. unfold qd_arena_alloc_aligned. destruct (Z.eqb_spec sz 0) as [->|Hne].
  - exists None, A. split; [reflexivity|]. split; [by left|done].
  - destruct (alloc_internal_ok A L sz (alignment align) ans HI) as (p & A' & E & Hp); [split; [lia|done]|done|].
    exists p, A'. split; [done|]. destruct p; [done|]. destruct Hp. auto.
Qed.

Lemma reachable_inv A L : reachable A L -> arena_inv A L.
Proof.
  induction 1 as [n ans A Hn Hf Hc|A L sz align ans p A' _ IH Hv Hf E|A L A' _ IH E].
  - by eapply create_inv.
  - destruct (alloc_aligned_ok A L sz align ans IH Hv Hf) as (q & B & E' & Hq). rewrite E' in E. injection E as -> ->.
    destruct p; [apply Hq|]. by destruct Hq as [_ ->].
  - destruct (reset_inv A L IH) as (B & E' & HB). congruence.
Qed.

(** C11: In every arena that calls reach, the ranges handed out since the last reset are
    pairwise disjoint and inside the blocks, and the next request of at most 2^62 bytes
    is served (only a request of 0 bytes or a failing malloc gives NULL, and then
    nothing changes), with an address that is aligned for alignments up to 16. *)
Theorem arena_safe A L sz align ans :
  reachable A L -> valid_call sz align -> fresh A (next_block (first_size A) sz (alignment align)) ans ->
  (forall i j x y, L !! i = Some x -> L !! j = Some y -> i <> j -> disjoint_range x y) /\
  (forall r, r ∈ L -> exists b, b ∈ blocks A /\ base b <= r.1 /\ r.1 + r.2 <= base b + size b) /\
  exists p A', qd_arena_alloc_aligned A sz align ans = Ok (p, A') /\
    match p with
    | None => (sz = 0 \/ ans = None) /\ A' = A
    | Some a => (forall r, r ∈ L -> disjoint_range (a, sz) r) /\ (alignment align <= 16 -> a mod alignment align = 0)
    end.
Proof.
  intros HR Hv Hf. pose proof (reachable_inv A L HR) as HI. pose proof HI as [_ Hb _ Hin Hd]. split; [done|]. split.
  - intros r Hr. destruct (Hin r Hr) as (i & b & Hl & H1 & H2). exists b. pose proof (Hb _ _ Hl) as (_ & ? & _).
    split; [by eapply list_elem_of_lookup_2|]. lia.
  - destruct (alloc_aligned_ok A L sz align ans HI Hv Hf) as (p & A' & E & Hp). exists p, A'. split; [done|].
    destruct p as [a|]; [|done]. destruct Hp as [[_ _ _ _ Hd'] Hal]. split; [|done].
    intros r [i Hr]%list_elem_of_lookup. by apply (Hd' 0%nat (S i)).
Qed.

Lemma arena_safe_witness :
  exists A L, reachable A L /\ L = [(1048576, 100)] /\
  exists p A', qd_arena_alloc_aligned A 8000 16 (Some 2097152) = Ok (p, A') /\
    match p with
    | None => (8000 = 0 \/ Some 2097152 = None) /\ A' = A
    | Some a => (forall r, r ∈ L -> disjoint_range (a, 8000) r) /\ (alignment 16 <= 16 -> a mod alignment 16 = 0)
    end.
Proof.
  set (A0 := mkArena [new_block 1048576 4096] 0).
  set (A1 := mkArena [mkBlock 1048576 4096 100 100] 0).
  assert (reachable A1 [(1048576, 100)]) as HR.
  { apply (reach_alloc A0 [] 100 0 None (Some 1048576) A1).
    - apply (reach_create 4096 (Some 1048576)); [lia|by repeat split|reflexivity].
    - split; [lia|]. exists 3. split; [lia|done].
    - done.
    - vm_compute. reflexivity. }
  exists A1, [(1048576, 100)]. split; [exact HR|]. split; [done|].
  apply (arena_safe A1 [(1048576, 100)] 8000 16 (Some 2097152) HR).
  - split; [lia|]. exists 4. split; [lia|done].
  - split; [lia|]. split; [reflexivity|]. split; [vm_compute; discriminate|].
    apply Forall_singleton. right. vm_compute. discriminate.
Defined.

(** A size close to 2^64 makes the sum wrap around: the request is granted
    in a block of 4096 bytes, the offset goes back, and the next allocation overlaps an
    earlier one. *)
Theorem arena_overflow :
  let A0 := mkArena [new_block 1048576 4096] 0 in
  exists A1 A2 A3,
    qd_arena_alloc A0 128 None = Ok (Some 1048576, A1) /\
    qd_arena_alloc A1 (2 ^ 64 - 64) None = Ok (Some (1048576 + 128), A2) /\
    qd_arena_alloc A2 64 None = Ok (Some (1048576 + 64), A3) /\
    ~ disjoint_range (1048576, 128) (1048576 + 64, 64).
Proof.
  eexists _, _, _. repeat split; [vm_compute; reflexivity..|]. unfold disjoint_range. simpl. lia.
Qed.

(** ** Contents *)

Lemma write_bytes_lookup l : forall m a x,
  write_bytes m a l !! x = if (a <=? x) && (x <? a + Z.of_nat (length l)) then l !! Z.to_nat (x - a) else m !! x.
Proof.
  induction l as [|b l IH]; intros m a x; simpl write_bytes; simpl length.
  - destruct (Z.leb_spec a x), (Z.ltb_spec x (a + Z.of_nat 0)); simpl; done || lia.
  - rewrite IH. destruct (Z.eq_dec x a) as [->|Hne].
    + rewrite Z.sub_diag, lookup_insert_eq. repeat (zcase; simpl; try lia); done.
    + rewrite lookup_insert_ne by done. repeat (zcase; simpl; try lia); try done.
      by replace (Z.to_nat (x - a)) with (S (Z.to_nat (x - (a + 1)))) by lia.
Qed.

(** Qd_arena_strdup: the copy reads back as the string and its terminator, and no
    byte of a range handed out before changes. *)
Theorem arena_strdup_copy A L m str ans :
  reachable A L -> Z.of_nat (length str) < 2 ^ 62 ->
  fresh A (next_block (first_size A) (Z.of_nat (length str) + 1) 8) ans ->
  exists p A' m', qd_arena_strdup A m str ans = Ok (p, A', m') /\
    match p with
    | None => ans = None /\ m' = m
    | Some a =>
      (forall i, (i <= length str)%nat -> m' !! (a + Z.of_nat i) = (str ++ [0]) !! i) /\
      (forall r x, r ∈ L -> r.1 <= x < r.1 + r.2 -> m' !! x = m !! x)
    end.
Proof.
  intros HR Hs Hf. pose proof (reachable_inv A L HR) as HI. unfold qd_arena_strdup, qd_arena_alloc.
  rewrite (u64_small (Z.of_nat (length str) + 1)) by (unfold_widths; lia). destruct (Z.eqb_spec (Z.of_nat (length str) + 1) 0); [lia|].
  destruct (alloc_internal_ok A L (Z.of_nat (length str) + 1) 8 ans HI) as (p & A' & E & Hp); [|done|].
  { split; [lia|]. by exists 3. }
  rewrite E. cbn [obind]. eexists _, _, _. split; [reflexivity|]. destruct p as [a|]; [|by destruct Hp].
  destruct Hp as [[_ _ _ _ Hd] _]. split.
  - intros i Hi. rewrite write_bytes_lookup, length_app. simpl length.
    destruct (Z.leb_spec a (a + Z.of_nat i)), (Z.ltb_spec (a + Z.of_nat i) (a + Z.of_nat (length str + 1))); simpl; try lia. f_equal. lia.
  - intros r x [i Hr]%list_elem_of_lookup Hx. rewrite write_bytes_lookup, length_app. simpl length.
    pose proof (Hd 0%nat (S i) _ _ eq_refl Hr ltac:(lia)) as Hdj. unfold disjoint_range in Hdj. simpl in Hdj.
    destruct (Z.leb_spec a x), (Z.ltb_spec x (a + Z.of_nat (length str + 1))); simpl; done || lia.
Qed.

Lemma arena_strdup_copy_witness :
  exists p A' m', qd_arena_strdup (mkArena [new_block 1048576 65536] 0) ∅ [104; 105] None = Ok (p, A', m') /\
    match p with
    | None => @None Z = None /\ m' = ∅
    | Some a =>
      (forall i, (i <= 2)%nat -> m' !! (a + Z.of_nat i) = ([104; 105] ++ [0]) !! i) /\
      (forall r x, r ∈ @nil (Z * Z) -> r.1 <= x < r.1 + r.2 -> m' !! x = (∅ : memory) !! x)
    end.
Proof.
  apply (arena_strdup_copy (mkArena [new_block 1048576 65536] 0) [] ∅ [104; 105] None).
  - apply (reach_create 100 (Some 1048576)); [lia|by repeat split|reflexivity].
  - simpl. lia.
  - done.
Defined.
