(* ===== verification/Slab.v ===== *)
(** * src/core/qd_memory.c: the slab allocator and the memory pool

    Memory is a map from addresses (multiples of 8) to 64-bit words; an access to an
    address that is not mapped is undefined.  Free lists live in that memory: the
    first word of a free object points to the next one.  The doubly linked lists of
    slabs are lists.  The answers of mmap and malloc are arguments: the address and
    the words of the new block.  Operations are the critical sections of the calls. *)

From S2P Require Import Prelude Common.

Abbreviation words := (gmap Z Z).

Definition read (m : words) (a : Z) : outcome Z := of_option (m !! a).
Definition write (m : words) (a v : Z) : outcome words :=
  match m !! a with Some _ => Ok (<[a := v]> m) | None => Undef end.

(** memset over [n] words. *)
Fixpoint fill (m : words) (a : Z) (n : nat) (v : Z) : outcome words :=
  match n with O => Ok m | S n => let! m := write m a v in fill m (a + 8) n v end.

(** The loop that builds a free list of [n] objects. *)
Fixpoint build_freelist (n : nat) (obj obj_size fl : Z) (m : words) : outcome (Z * words) :=
  match n with
  | O => Ok (fl, m)
  | S n => let! m := write m obj fl in build_freelist n (obj + obj_size) obj_size obj m
  end.

(** ** Slabs *)

Definition QD_SLAB_MIN_SIZE : Z := 8.
Definition QD_SLAB_PAGE_SIZE : Z := 4096.
Definition QD_SLAB_PAGES_PER_SLAB : Z := 1.
Definition QD_SLAB_ZERO : Z := 1.
Definition QD_SLAB_POISON : Z := 4.

Record qd_slab := mkSlab { sbase : Z; freelist : Z; inuse : Z; total : Z }.

Record qd_slab_cache := mkCache {
  obj_size : Z; obj_align : Z; slab_size : Z; flags : Z; objs_per_slab : Z;
  slabs_full : list qd_slab; slabs_partial : list qd_slab; slabs_empty : list qd_slab;
  allocs : Z; frees : Z; cache_misses : Z
}.

Definition set_lists (c : qd_slab_cache) (full partial empty : list qd_slab) : qd_slab_cache :=
  mkCache (obj_size c) (obj_align c) (slab_size c) (flags c) (objs_per_slab c) full partial empty
    (allocs c) (frees c) (cache_misses c).

(** QD_ALIGN(sizeof(qd_slab_t), 16) *)
Definition header_size : Z := QD_ALIGN 48 16.

Definition slab_create (c : qd_slab_cache) (ans : option (Z * words)) (m : words) : outcome (option qd_slab * words) :=
  match ans with
  | None => Ok (None, m)
  | Some (mem, blk) =>
    let b := mem + header_size in
    let! (fl, m) := build_freelist (Z.to_nat (objs_per_slab c)) b (obj_size c) 0 (blk ∪ m) in
    Ok (Some (mkSlab b fl 0 (objs_per_slab c)), m)
  end.

Definition slab_list_add (head : list qd_slab) (s : qd_slab) : list qd_slab := s :: head.

(** Removal from the list [head]; the slab has to be in it. *)
Fixpoint slab_list_remove (head : list qd_slab) (s : qd_slab) : outcome (list qd_slab) :=
  match head with
  | [] => Undef
  | t :: l => if sbase t =? sbase s then Ok l else let! l := slab_list_remove l s in Ok (t :: l)
  end.

(** The lists hold pointers: a change of a slab shows in its list. *)
Definition update (s : qd_slab) (l : list qd_slab) : list qd_slab :=
  map (fun t => if sbase t =? sbase s then s else t) l.
Definition store_slab (c : qd_slab_cache) (s : qd_slab) : qd_slab_cache :=
  set_lists c (update s (slabs_full c)) (update s (slabs_partial c)) (update s (slabs_empty c)).

Definition slab_ptr_matches (c : qd_slab_cache) (s : qd_slab) (p : Z) : bool :=
  if (p <? sbase s) || (sbase s + slab_size c <=? p) then false else (p - sbase s) mod obj_size c =? 0.

Definition slab_find_by_ptr (c : qd_slab_cache) (p : Z) : option qd_slab :=
  List.find (fun s => (sbase s <=? p) && (p <? sbase s + slab_size c) && slab_ptr_matches c s p)
    (slabs_full c ++ slabs_partial c ++ slabs_empty c).

Definition count_free (c : qd_slab_cache) : qd_slab_cache :=
  mkCache (obj_size c) (obj_align c) (slab_size c) (flags c) (objs_per_slab c) (slabs_full c) (slabs_partial c) (slabs_empty c)
    (allocs c) (frees c +64 1) (cache_misses c).

(** The move between lists after an object of [s] was freed. *)
Definition relist_free (c : qd_slab_cache) (s : qd_slab) : outcome qd_slab_cache :=
  if inuse s =? 0 then
    let! l := slab_list_remove (slabs_partial c) s in
    Ok (set_lists c (slabs_full c) l (slab_list_add (slabs_empty c) s))
  else if inuse s =? u32 (total s - 1) then
    let! l := slab_list_remove (slabs_full c) s in
    Ok (set_lists c l (slab_list_add (slabs_partial c) s) (slabs_empty c))
  else Ok c.

Definition slab_free_locked (c : qd_slab_cache) (s : qd_slab) (p : Z) (m : words) : outcome (qd_slab_cache * words) :=
  let! m := if negb (Z.land (flags c) QD_SLAB_POISON =? 0)
            then fill m p (Z.to_nat (obj_size c / 8)) 0xDEDEDEDEDEDEDEDE else Ok m in
  let! m := write m p (freelist s) in
  let s := mkSlab (sbase s) p (u32 (inuse s - 1)) (total s) in
  let! c := relist_free (store_slab c s) s in
  Ok (count_free c, m).

Definition qd_slab_cache_create (size align fl : Z) : qd_slab_cache :=
  let size := if size <? QD_SLAB_MIN_SIZE then QD_SLAB_MIN_SIZE else size in
  let align := if align =? 0 then 8 else align in
  let align := if align <? 8 then 8 else align in
  let size := QD_ALIGN size align in
  let slab_size := QD_SLAB_PAGE_SIZE * QD_SLAB_PAGES_PER_SLAB in
  let slab_size := if slab_size / 4 <? size then size *64 4 else slab_size in
  let objs := u32 (slab_size / size) in
  let objs := if objs =? 0 then 1 else objs in
  mkCache size align slab_size fl objs [] [] [] 0 0 0.

(** [slab == cache->slabs_partial] *)
Definition is_head (l : list qd_slab) (s : qd_slab) : bool :=
  match l with t :: _ => sbase t =? sbase s | [] => false end.

Definition count_alloc (c : qd_slab_cache) : qd_slab_cache :=
  mkCache (obj_size c) (obj_align c) (slab_size c) (flags c) (objs_per_slab c) (slabs_full c) (slabs_partial c) (slabs_empty c)
    (allocs c +64 1) (frees c) (cache_misses c +64 1).

(** The slab an allocation is made from: the first partial one, else the first empty
    one, else a new one. *)
Definition choose_slab (c : qd_slab_cache) (ans : option (Z * words)) (m : words) : outcome (option qd_slab * qd_slab_cache * words) :=
  match slabs_partial c with
  | s :: _ => Ok (Some s, c, m)
  | [] =>
    match slabs_empty c with
    | s :: _ => Ok (Some s, c, m)
    | [] =>
      let! (r, m) := slab_create c ans m in
      match r with
      | None => Ok (None, c, m)
      | Some s => Ok (Some s, set_lists c (slabs_full c) (slabs_partial c) (slab_list_add (slabs_empty c) s), m)
      end
    end
  end.

(** The move between lists after an allocation from [s]. *)
Definition relist_alloc (c : qd_slab_cache) (s : qd_slab) : outcome qd_slab_cache :=
  if (inuse s =? 1) && negb (is_head (slabs_partial c) s) then
    let! l := slab_list_remove (slabs_empty c) s in
    Ok (set_lists c (slabs_full c) (slab_list_add (slabs_partial c) s) l)
  else if inuse s =? total s then
    let! l := slab_list_remove (slabs_partial c) s in
    Ok (set_lists c (slab_list_add (slabs_full c) s) l (slabs_empty c))
  else Ok c.

(** Allocation from the chosen slab: the object and its slab. *)
Definition alloc_from (s : qd_slab) (c : qd_slab_cache) (m : words) : outcome (option (Z * Z) * qd_slab_cache * words) :=
  let obj := freelist s in
  let! nxt := read m obj in
  let s := mkSlab (sbase s) nxt (u32 (inuse s + 1)) (total s) in
  let! c := relist_alloc (store_slab c s) s in
  let c := count_alloc c in
  let! m := if negb (Z.land (flags c) QD_SLAB_ZERO =? 0) then fill m obj (Z.to_nat (obj_size c / 8)) 0 else Ok m in
  Ok (Some (obj, sbase s), c, m).

Definition qd_slab_alloc_internal (c : qd_slab_cache) (ans : option (Z * words)) (m : words)
  : outcome (option (Z * Z) * qd_slab_cache * words) :=
  let! (r, c, m) := choose_slab c ans m in
  match r with
  | None => Ok (None, c, m)
  | Some s => alloc_from s c m
  end.

Definition qd_slab_alloc (c : qd_slab_cache) (ans : option (Z * words)) (m : words) : outcome (option Z * qd_slab_cache * words) :=
  let! (r, c, m) := qd_slab_alloc_internal c ans m in Ok (fst <$> r, c, m).

Definition qd_slab_zalloc (c : qd_slab_cache) (ans : option (Z * words)) (m : words) : outcome (option Z * qd_slab_cache * words) :=
  let! (r, c, m) := qd_slab_alloc c ans m in
  match r with
  | None => Ok (None, c, m)
  | Some p => let! m := fill m p (Z.to_nat (obj_size c / 8)) 0 in Ok (Some p, c, m)
  end.

(** The result tells whether the pointer belongs to the cache; NULL is 0. *)
Definition slab_free_checked (c : qd_slab_cache) (p : Z) (m : words) : outcome (Z * qd_slab_cache * words) :=
  if p =? 0 then Ok (0, c, m) else
  match slab_find_by_ptr c p with
  | None => Ok (0, c, m)
  | Some s => let! (c, m) := slab_free_locked c s p m in Ok (1, c, m)
  end.

Definition qd_slab_free (c : qd_slab_cache) (p : Z) (m : words) : outcome (qd_slab_cache * words) :=
  let! (_, c, m) := slab_free_checked c p m in Ok (c, m).

(** munmap of a slab with its header. *)
Definition slab_destroy (c : qd_slab_cache) (s : qd_slab) (m : words) : words :=
  filter (fun kv => ~ (sbase s - header_size <= kv.1 < sbase s + slab_size c)) m.

(** The loop over the empty slabs; [freed] counts them. *)
Fixpoint shrink_loop (todo : list qd_slab) (c : qd_slab_cache) (m : words) (freed : Z) : outcome (Z * qd_slab_cache * words) :=
  match todo with
  | [] => Ok (freed, c, m)
  | s :: next =>
    let! l := slab_list_remove (slabs_empty c) s in
    shrink_loop next (set_lists c (slabs_full c) (slabs_partial c) l) (slab_destroy c s m) (freed + 1)
  end.

Definition qd_slab_cache_shrink (c : qd_slab_cache) (m : words) : outcome (Z * qd_slab_cache * words) :=
  shrink_loop (slabs_empty c) c m 0.

Record qd_slab_stats := mkSlabStats {
  st_allocs : Z; st_frees : Z; st_misses : Z; active_objs : Z; total_slabs : Z; free_slabs : Z; memory_used : Z
}.

Definition sum_inuse (l : list qd_slab) : Z := foldr (fun s n => inuse s + n) 0 l.

Definition qd_slab_cache_stats (c : qd_slab_cache) : qd_slab_stats :=
  let n l := Z.of_nat (length (l : list qd_slab)) in
  mkSlabStats (allocs c) (frees c) (cache_misses c)
    (u64 (sum_inuse (slabs_full c) + sum_inuse (slabs_partial c)))
    (n (slabs_full c) + n (slabs_partial c) + n (slabs_empty c)) (n (slabs_empty c))
    (u64 ((n (slabs_full c) + n (slabs_partial c) + n (slabs_empty c)) * slab_size c)).

(** ** The memory pool *)

Record qd_mempool := mkPool { p_base : Z; p_freelist : Z; p_obj_size : Z; capacity : Z; count : Z }.

Definition pool_obj_size (n : Z) : Z := QD_ALIGN (if n <? 8 then 8 else n) 8.

(** [ans] is what malloc gives for [obj_size * count] bytes. *)
Definition qd_mempool_create (n cnt : Z) (ans : option (Z * words)) (m : words) : outcome (option qd_mempool * words) :=
  let n := pool_obj_size n in
  match ans with
  | None => Ok (None, m)
  | Some (b, blk) =>
    let! (fl, m) := build_freelist (Z.to_nat cnt) b n 0 (blk ∪ m) in
    Ok (Some (mkPool b fl n cnt cnt), m)
  end.

Definition qd_mempool_alloc (p : qd_mempool) (m : words) : outcome (option Z * qd_mempool) :=
  if p_freelist p =? 0 then Ok (None, p) else
  let obj := p_freelist p in
  let! nxt := read m obj in
  Ok (Some obj, mkPool (p_base p) nxt (p_obj_size p) (capacity p) (count p -64 1)).

Definition qd_mempool_free (p : qd_mempool) (ptr : Z) (m : words) : outcome (qd_mempool * words) :=
  if ptr =? 0 then Ok (p, m) else
  let! m := write m ptr (p_freelist p) in
  Ok (mkPool (p_base p) ptr (p_obj_size p) (capacity p) (count p +64 1), m).

(** A block of [n] zero words. *)
Definition zero_block (a : Z) (n : nat) : words := list_to_map (map (fun i => (a + 8 * Z.of_nat i, 0)) (seq 0 n)).

Example slab_ex :
  (let c := qd_slab_cache_create 1000 16 4 in
   let! (p, c, m) := qd_slab_alloc c (Some (65536, zero_block 65536 518)) ∅ in
   let! (q, c, m) := qd_slab_alloc c None m in
   let! (_, c, m) := slab_free_checked c (default 0 p) m in
   let! (r, c, m) := qd_slab_alloc c None m in
   Ok (p, q, r, active_objs (qd_slab_cache_stats c), objs_per_slab c, map inuse (slabs_partial c)))
  = Ok (Some (65536 + 48 + 3 * 1008), Some (65536 + 48 + 2 * 1008), Some (65536 + 48 + 3 * 1008), 2, 4, [2]).
Proof. vm_compute. reflexivity. Qed.

(** ** Free lists *)

(** [p] points to a list of the objects [l] that ends with NULL. *)
Fixpoint chain (m : words) (p : Z) (l : list Z) : Prop :=
  match l with
  | [] => p = 0
  | a :: l => p = a /\ a <> 0 /\ exists q, m !! a = Some q /\ chain m q l
  end.

Lemma chain_ext m m' p l : (forall a, a ∈ l -> m' !! a = m !! a) -> chain m p l -> chain m' p l.
Proof.
  revert p. induction l as [|a l IH]; intros p Hm; simpl; [done|]. intros (-> & H0 & q & Hq & Hc).
  split; [done|]. split; [done|]. exists q. rewrite Hm by set_solver. split; [done|]. apply IH; [|done]. set_solver.
Qed.

(** [n] objects of a size from [b] on. *)
Definition slots (b osz : Z) (n : nat) : list Z := map (fun i => b + Z.of_nat i * osz) (seq 0 n).

Lemma slots_S b osz n : slots b osz (S n) = b :: slots (b + osz) osz n.
Proof.
  unfold slots. cbn [seq map]. change (Z.of_nat 0) with 0. rewrite Z.mul_0_l, Z.add_0_r. f_equal. rewrite <- seq_shift, map_map. apply map_ext. intros i.
  rewrite Nat2Z.inj_succ. ring.
Qed.

Lemma elem_of_slots a b osz n : a ∈ slots b osz n <-> exists i, 0 <= i < Z.of_nat n /\ a = b + i * osz.
Proof.
  unfold slots. rewrite list_elem_of_In, in_map_iff. split.
  - intros (i & <- & Hi%in_seq). exists (Z.of_nat i). split; [lia|done].
  - intros (i & Hi & ->). exists (Z.to_nat i). split; [by rewrite Z2Nat.id by lia|]. apply in_seq. lia.
Qed.

Lemma slots_length b osz n : length (slots b osz n) = n.
Proof. unfold slots. by rewrite length_map, length_seq. Qed.

Lemma slots_nodup b osz n : 0 < osz -> NoDup (slots b osz n).
Proof.
  intros Ho. unfold slots. apply NoDup_fmap_2_strong; [|apply NoDup_seq]. intros i j _ _ E. nia.
Qed.

(** What a range of addresses keeps. *)
Definition same_outside (a n : Z) (m m' : words) : Prop :=
  (forall x, x < a \/ a + n <= x -> m' !! x = m !! x) /\ (forall x, is_Some (m !! x) -> is_Some (m' !! x)).

Lemma same_outside_refl a n m : same_outside a n m m.
Proof. done. Qed.

Lemma same_outside_trans a n m1 m2 m3 : same_outside a n m1 m2 -> same_outside a n m2 m3 -> same_outside a n m1 m3.
Proof. intros [H1 D1] [H2 D2]. split; [|auto]. intros x Hx. by rewrite H2, H1. Qed.

Lemma write_ok m a v : is_Some (m !! a) -> write m a v = Ok (<[a := v]> m).
Proof. unfold write. by intros [w ->]. Qed.

Lemma insert_same_outside m a n v : 0 < n -> same_outside a n m (<[a := v]> m).
Proof.
  intros Hn. split.
  - intros x Hx. apply lookup_insert_ne. lia.
  - intros x Hx. destruct (decide (x = a)) as [->|]; [by rewrite lookup_insert_eq|by rewrite lookup_insert_ne].
Qed.

Lemma fill_ok k : forall m a v,
  (forall x, a <= x < a + 8 * Z.of_nat k -> (x - a) mod 8 = 0 -> is_Some (m !! x)) ->
  exists m', fill m a k v = Ok m' /\ same_outside a (8 * Z.of_nat k) m m' /\
    (forall x, a <= x < a + 8 * Z.of_nat k -> (x - a) mod 8 = 0 -> m' !! x = Some v).
Proof.
  induction k as [|k IH]; intros m a v Hm; simpl.
  - exists m. split; [done|]. split; [done|]. intros x Hx. lia.
  - rewrite write_ok by (apply Hm; [lia|by rewrite Z.sub_diag]). cbn [obind].
    assert (forall x, (x - (a + 8)) mod 8 = (x - a) mod 8) as Hmod.
    { intros x. replace (x - a) with (x - (a + 8) + 1 * 8) by lia. by rewrite Z.mod_add by lia. }
    destruct (IH (<[a := v]> m) (a + 8) v) as (m' & E & [Ho Hd] & Hv).
    { intros x Hx Hx8. rewrite Hmod in Hx8. rewrite lookup_insert_ne by lia. apply Hm; [lia|done]. }
    exists m'. split; [done|]. split; [split|].
    + intros x Hx. rewrite Ho by lia. apply lookup_insert_ne. lia.
    + intros x Hx. apply Hd. apply (insert_same_outside m a 8 v); [lia|done].
    + intros x Hx Hx8. destruct (Z.lt_ge_cases x (a + 8)).
      * assert (x = a) as ->. { pose proof (Z.div_mod (x - a) 8 ltac:(lia)). nia. }
        rewrite Ho by lia. by rewrite lookup_insert_eq.
      * apply Hv; [lia|]. by rewrite Hmod.
Qed.

(** The free list that is built: the objects in reverse order. *)
Lemma build_freelist_ok osz n : forall b fl m done0,
  0 < osz -> 0 < b -> (forall a, a ∈ slots b osz n -> is_Some (m !! a)) ->
  (forall a, a ∈ done0 -> a < b) -> chain m fl done0 ->
  exists fl' m', build_freelist n b osz fl m = Ok (fl', m') /\ chain m' fl' (reverse (slots b osz n) ++ done0) /\
    same_outside b (Z.of_nat n * osz) m m'.
Proof.
  induction n as [|n IH]; intros b fl m done0 Ho Hb Hm Hd Hc; cbn [build_freelist].
  - by exists fl, m.
  - assert (is_Some (m !! b)) as Hw. { apply Hm. rewrite slots_S. set_solver. }
    rewrite write_ok by done. cbn [obind].
    destruct (IH (b + osz) b (<[b := fl]> m) (b :: done0)) as (fl' & m' & E & Hc' & [Hs Hdom]); [lia|lia| | | |].
    + intros a Ha. apply (insert_same_outside m b 1); [lia|]. apply Hm. rewrite slots_S. set_solver.
    + intros a [->|Ha]%elem_of_cons; [lia|]. specialize (Hd a Ha). lia.
    + split; [done|]. split; [lia|]. exists fl. rewrite lookup_insert_eq. split; [done|].
      apply (chain_ext m); [|done]. intros a Ha. apply lookup_insert_ne. specialize (Hd a Ha). lia.
    + exists fl', m'. split; [done|]. split.
      * rewrite slots_S. rewrite reverse_cons. by rewrite <- app_assoc.
      * split; [intros x Hx; rewrite Hs by nia; apply lookup_insert_ne; nia|].
        intros x Hx. apply Hdom. by apply (insert_same_outside m b 1); [lia|].
Qed.

(** ** Slabs of one geometry *)

Section slabs.
Context (osz ssz : Z) (n : nat).

(** Object size, slab size and number of objects as qd_slab_cache_create computes them. *)
Definition geometry : Prop :=
  8 <= osz /\ osz mod 8 = 0 /\ (2 <= n)%nat /\ Z.of_nat n * osz <= ssz /\ Z.of_nat n < u32_mod.

Definition objs (s : qd_slab) : list Z := slots (sbase s) osz n.

(** A slab whose free objects are [fl]. *)
Record slab_ok (m : words) (s : qd_slab) (fl : list Z) : Prop := {
  so_base : 0 < sbase s - header_size /\ sbase s mod 8 = 0;
  so_total : total s = Z.of_nat n;
  so_chain : chain m (freelist s) fl;
  so_nodup : NoDup fl;
  so_sub : forall a, a ∈ fl -> a ∈ objs s;
  so_inuse : inuse s + Z.of_nat (length fl) = total s;
  so_words : forall x, sbase s - header_size <= x < sbase s + ssz -> x mod 8 = 0 -> is_Some (m !! x);
  so_page : (sbase s - header_size) mod QD_SLAB_PAGE_SIZE = 0
}.

Definition apart (s t : qd_slab) : Prop :=
  sbase s + ssz <= sbase t - header_size \/ sbase t + ssz <= sbase s - header_size.

(** [F] gives the free objects of the slab with a given base. *)
Definition slabs_inv (m : words) (F : Z -> list Z) (l : list qd_slab) : Prop :=
  (forall s, s ∈ l -> slab_ok m s (F (sbase s))) /\ NoDup (sbase <$> l) /\
  (forall s t, s ∈ l -> t ∈ l -> sbase s <> sbase t -> apart s t).

Definition live (F : Z -> list Z) (l : list qd_slab) (a : Z) : Prop :=
  exists s, s ∈ l /\ a ∈ objs s /\ a ∉ F (sbase s).

Definition upd (F : Z -> list Z) (b : Z) (fl : list Z) : Z -> list Z := fun x => if x =? b then fl else F x.

Lemma upd_same F b fl : upd F b fl b = fl.
Proof. unfold upd. by rewrite Z.eqb_refl. Qed.
Lemma upd_other F b fl x : x <> b -> upd F b fl x = F x.
Proof. unfold upd. by destruct (Z.eqb_spec x b). Qed.

Lemma slabs_inv_perm m F l l' : l ≡ₚ l' -> slabs_inv m F l -> slabs_inv m F l'.
Proof.
  intros Hp (H1 & H2 & H3). split; [|split].
  - intros s Hs. apply H1. by rewrite Hp.
  - by rewrite <- Hp.
  - intros s t Hs Ht. apply H3; by rewrite Hp.
Qed.

Lemma live_perm F l l' a : l ≡ₚ l' -> live F l a <-> live F l' a.
Proof. intros Hp. unfold live. by setoid_rewrite Hp. Qed.

(** Bases identify slabs. *)
Lemma base_inj m F l s t : slabs_inv m F l -> s ∈ l -> t ∈ l -> sbase s = sbase t -> s = t.
Proof.
  intros (_ & Hn & _) Hs Ht E. apply list_elem_of_lookup in Hs as [i Hi]. apply list_elem_of_lookup in Ht as [j Hj].
  assert (i = j) as ->; [|congruence].
  eapply NoDup_lookup; [done|by rewrite list_lookup_fmap, Hi|by rewrite list_lookup_fmap, Hj, E].
Qed.

Context (Hgeo : geometry).

Lemma slot_bounds s a : a ∈ objs s -> sbase s <= a /\ a + osz <= sbase s + ssz.
Proof. destruct Hgeo as (? & ? & ? & ? & ?). intros (i & Hi & ->)%elem_of_slots. nia. Qed.

Lemma slot_mod8 s a : sbase s mod 8 = 0 -> a ∈ objs s -> a mod 8 = 0.
Proof.
  destruct Hgeo as (_ & H8 & _). intros Hb (i & Hi & ->)%elem_of_slots.
  apply Z.mod_divide in Hb as [x ->]; [|lia]. apply Z.mod_divide in H8 as [y Hy]; [|lia].
  apply Z.mod_divide; [lia|]. exists (x + i * y). rewrite Hy. ring.
Qed.

Lemma objs_apart m F l s t a b :
  slabs_inv m F l -> s ∈ l -> t ∈ l -> a ∈ objs s -> b ∈ objs t -> a <> b -> a + osz <= b \/ b + osz <= a.
Proof.
  intros (_ & Hn & Hap) Hs Ht Ha Hb Hne. pose proof (slot_bounds s a Ha). pose proof (slot_bounds t b Hb).
  assert (0 <= header_size) by (vm_compute; discriminate). destruct Hgeo as (Hosz & _).
  destruct (Z.eq_dec (sbase s) (sbase t)) as [E|E]; [|destruct (Hap s t Hs Ht E); lia].
  apply elem_of_slots in Ha as (i & Hi & ->). apply elem_of_slots in Hb as (j & Hj & ->). rewrite E in *.
  assert (i <> j) by (intros ->; done). destruct (Z.lt_ge_cases i j); [left|right]; nia.
Qed.

(** Words of a live object may change. *)
Lemma inv_same_outside m m' F l a :
  slabs_inv m F l -> live F l a -> same_outside a osz m m' -> slabs_inv m' F l.
Proof.
  intros HI (t & Ht & Ha & Hna) [Hs Hd]. pose proof HI as (H1 & H2 & H3). split; [|done].
  intros s Hin. destruct (H1 s Hin) as [Hb Htot Hc Hnd Hsub Hiu Hw]. split; try done; [|auto].
  apply (chain_ext m); [|done]. intros b Hb'. apply Hs.
  assert (a <> b) as Hne.
  { intros ->. apply Hna. assert (sbase s = sbase t) as <-; [|done].
    destruct (Z.eq_dec (sbase s) (sbase t)) as [|E]; [done|]. exfalso.
    pose proof (slot_bounds t b Ha). pose proof (slot_bounds s b (Hsub b Hb')).
    assert (0 <= header_size) by (vm_compute; discriminate). destruct Hgeo as (? & _). destruct (H3 s t Hin Ht E); lia. }
  destruct (objs_apart m F l t s a b HI Ht Hin Ha (Hsub b Hb') Hne); lia.
Qed.

(** Changing one slab in place. *)
Lemma slabs_inv_update m F s s' fl l :
  slabs_inv m F (s :: l) -> sbase s' = sbase s -> slab_ok m s' fl -> slabs_inv m (upd F (sbase s) fl) (s' :: l).
Proof.
  intros (H1 & H2 & H3) E Hok. simpl in H2. apply NoDup_cons in H2 as [Hn Hnd].
  assert (forall t, t ∈ l -> sbase t <> sbase s) as Hne.
  { intros t Ht Eb. apply Hn. rewrite <- Eb. by apply list_elem_of_fmap_2. }
  split; [|split].
  - intros t [->|Ht]%elem_of_cons; [by rewrite E, upd_same|]. rewrite upd_other by auto. apply H1. set_solver.
  - simpl. rewrite E. by apply NoDup_cons.
  - assert (forall t, t ∈ l -> apart s t) as Hs. { intros t Ht. apply H3; [set_solver..|]. intros Eb. by apply (Hne t Ht). }
    intros t u [->|Ht]%elem_of_cons [->|Hu]%elem_of_cons Htu; [done| | |apply H3; set_solver].
    + specialize (Hs u Hu). unfold apart in *. by rewrite E.
    + destruct (Hs t Ht); unfold apart; rewrite E; auto.
Qed.

Lemma live_update F s s' fl l x :
  NoDup (sbase <$> s :: l) -> sbase s' = sbase s ->
  live (upd F (sbase s) fl) (s' :: l) x <-> (x ∈ objs s /\ x ∉ fl) \/ live F l x.
Proof.
  intros [Hn _]%NoDup_cons E.
  assert (forall t, t ∈ l -> sbase t <> sbase s) as Hne.
  { intros t Ht Eb. apply Hn. rewrite <- Eb. by apply list_elem_of_fmap_2. }
  assert (objs s' = objs s) as Eo by (unfold objs; by rewrite E). split.
  - intros (t & [->|Ht]%elem_of_cons & Ho & Hf); [left; rewrite E, upd_same in Hf; by rewrite <- Eo|].
    right. exists t. rewrite upd_other in Hf by auto. done.
  - intros [[Ho Hf]|(t & Ht & Ho & Hf)].
    + exists s'. split; [set_solver|]. rewrite Eo, E, upd_same. done.
    + exists t. split; [set_solver|]. rewrite upd_other by auto. done.
Qed.

Lemma live_cons F s l x : live F (s :: l) x <-> (x ∈ objs s /\ x ∉ F (sbase s)) \/ live F l x.
Proof.
  split.
  - intros (t & [->|Ht]%elem_of_cons & ?); [by left|]. right. by exists t.
  - intros [?|(t & Ht & ?)]; [exists s; set_solver|exists t; set_solver].
Qed.

(** Another slab has none of the objects of this one. *)
Lemma live_other m F s l x : slabs_inv m F (s :: l) -> x ∈ objs s -> ~ live F l x.
Proof.
  intros (_ & H2 & H3) Hx (t & Ht & Hxt & _). simpl in H2. apply NoDup_cons in H2 as [Hn _].
  assert (sbase s <> sbase t) as Hne. { intros Eb. apply Hn. rewrite Eb. by apply list_elem_of_fmap_2. }
  pose proof (slot_bounds s x Hx). pose proof (slot_bounds t x Hxt).
  assert (0 <= header_size) by (vm_compute; discriminate). destruct Hgeo as (? & _).
  destruct (H3 s t ltac:(set_solver) ltac:(set_solver) Hne); lia.
Qed.

(** Taking the first free object of a slab. *)
Lemma slab_pop m F s l :
  slabs_inv m F (s :: l) -> inuse s <> total s ->
  exists q fl, m !! freelist s = Some q /\ F (sbase s) = freelist s :: fl /\ freelist s ∈ objs s /\ 0 <= inuse s < total s /\
    let s' := mkSlab (sbase s) q (inuse s + 1) (total s) in
    slabs_inv m (upd F (sbase s) fl) (s' :: l) /\
    ~ live F (s :: l) (freelist s) /\
    (forall x, live (upd F (sbase s) fl) (s' :: l) x <-> live F (s :: l) x \/ x = freelist s).
Proof.
  intros HI Hne. pose proof HI as (H1 & H2 & H3). destruct (H1 s ltac:(set_solver)) as [Hb Ht Hc Hnd Hsub Hiu Hw].
  assert (length (F (sbase s)) <= n)%nat as Hlen.
  { rewrite <- (slots_length (sbase s) osz n). apply submseteq_length, NoDup_submseteq; done. }
  destruct (F (sbase s)) as [|a fl] eqn:EF; [simpl in Hiu; lia|]. destruct Hc as (-> & Ha0 & q & Hq & Hc).
  exists q, fl. apply NoDup_cons in Hnd as [Hna Hnd]. simpl in Hiu, Hlen.
  assert (a ∈ objs s) as Hao by (apply Hsub; set_solver). split; [done|]. split; [done|]. split; [done|]. split; [lia|].
  set (s' := mkSlab _ _ _ _).
  assert (~ live F (s :: l) a) as Hnl.
  { rewrite live_cons, EF. intros [[_ Hx]|Hx]; [set_solver|]. by apply (live_other m F s l a HI Hao). }
  split; [apply (slabs_inv_update m F s s'); [done|done|]|split; [done|]].
  - split; simpl; try done; [by intros x Hx; apply Hsub; set_solver|lia].
  - intros x. rewrite live_update, live_cons by done. rewrite EF.
    split; [|intros [[[? ?]|?]| ->]; [left; set_solver|by right|by left]].
    intros [[Ho Hx]|?]; [|by left; right]. destruct (decide (x = a)); [by right|]. left. left. set_solver.
Qed.

(** Giving an object back to its slab. *)
Lemma slab_push m F s l a :
  slabs_inv m F (s :: l) -> a ∈ objs s -> a ∉ F (sbase s) -> m !! a = Some (freelist s) ->
  0 < inuse s <= total s /\
  let s' := mkSlab (sbase s) a (inuse s - 1) (total s) in
  slabs_inv m (upd F (sbase s) (a :: F (sbase s))) (s' :: l) /\
  (forall x, live (upd F (sbase s) (a :: F (sbase s))) (s' :: l) x <-> live F (s :: l) x /\ x <> a).
Proof.
  intros HI Ha Hna Hma. pose proof HI as (H1 & H2 & H3). destruct (H1 s ltac:(set_solver)) as [Hb Ht Hc Hnd Hsub Hiu Hw].
  assert (length (a :: F (sbase s)) <= n)%nat as Hlen.
  { rewrite <- (slots_length (sbase s) osz n). apply submseteq_length, NoDup_submseteq; [by apply NoDup_cons|].
    intros x [->|Hx]%elem_of_cons; [done|by apply Hsub]. }
  simpl in Hlen. split; [lia|]. set (s' := mkSlab _ _ _ _). split; [apply (slabs_inv_update m F s s'); [done|done|]|].
  - pose proof (slot_bounds s a Ha). assert (0 <= header_size) by (vm_compute; discriminate).
    split; simpl; try done; [|by apply NoDup_cons|by intros x [->|Hx]%elem_of_cons; [|apply Hsub]|lia].
    split; [done|]. split; [lia|]. by exists (freelist s).
  - intros x. rewrite live_update, live_cons by done. rewrite not_elem_of_cons. split.
    + intros [(? & ? & ?)|Hl]; [by split; [left|]|]. split; [by right|]. intros ->. by apply (live_other m F s l a HI Ha).
    + intros [[[? ?]|?] ?]; auto.
Qed.

(** What mmap gives: a page-aligned block that is not mapped yet. *)
Definition fresh_pages (m : words) (ans : option (Z * words)) : Prop :=
  match ans with
  | None => True
  | Some (pg, blk) =>
    0 < pg /\ pg mod QD_SLAB_PAGE_SIZE = 0 /\ m ##ₘ blk /\
    (forall x, pg <= x < pg + header_size + ssz -> x mod 8 = 0 -> is_Some (blk !! x))
  end.

Lemma header_48 : header_size = 48.
Proof. reflexivity. Qed.

Lemma mod8_of_page pg k : pg mod QD_SLAB_PAGE_SIZE = 0 -> (pg + 8 * k) mod 8 = 0.
Proof.
  unfold QD_SLAB_PAGE_SIZE. intros Hp. apply Z.mod_divide in Hp as [x ->]; [|lia].
  replace (x * 4096 + 8 * k) with ((x * 512 + k) * 8) by ring. apply Z.mod_mul. lia.
Qed.

(** A new slab is away from those that are there. *)
Lemma fresh_apart m F l pg blk s :
  slabs_inv m F l -> fresh_pages m (Some (pg, blk)) -> s ∈ l ->
  sbase s + ssz <= pg \/ pg + header_size + ssz <= sbase s - header_size.
Proof.
  intros (H1 & _) (H0 & Hp & Hd & Hw) Hs. destruct (H1 s Hs) as [[_ Hb8] _ _ _ _ _ Hws].
  rewrite header_48 in *. destruct Hgeo as (? & ? & ? & ? & ?).
  assert (forall x, is_Some (m !! x) -> is_Some (blk !! x) -> False) as Hdj.
  { intros x [v Hv] [w Hx]. by apply (map_disjoint_spec m blk) with x v w in Hd. }
  assert (pg mod 8 = 0) as Hpg. { pose proof (mod8_of_page pg 0 Hp). by rewrite Z.mul_0_r, Z.add_0_r in *. }
  assert ((sbase s - 48) mod 8 = 0) as Hs8.
  { replace (sbase s - 48) with (sbase s + (-6) * 8) by lia. by rewrite Z.mod_add by lia. }
  destruct (Z.le_gt_cases (sbase s + ssz) pg); [by left|]. destruct (Z.le_gt_cases (pg + 48 + ssz) (sbase s - 48)); [by right|].
  exfalso. destruct (Z.le_gt_cases (sbase s - 48) pg).
  - apply (Hdj pg); [apply Hws; [nia|done]|apply Hw; [nia|done]].
  - apply (Hdj (sbase s - 48)); [apply Hws; [nia|done]|apply Hw; [nia|done]].
Qed.

Lemma slab_add m F l pg blk :
  slabs_inv m F l -> fresh_pages m (Some (pg, blk)) ->
  exists fl m', build_freelist n (pg + header_size) osz 0 (blk ∪ m) = Ok (fl, m') /\
    let s := mkSlab (pg + header_size) fl 0 (Z.of_nat n) in
    let F' := upd F (sbase s) (reverse (slots (sbase s) osz n)) in
    slabs_inv m' F' (s :: l) /\ (forall x, live F' (s :: l) x <-> live F l x) /\ (forall t, t ∈ l -> sbase t <> sbase s) /\
    (forall x, x mod 8 = 0 -> is_Some (m !! x) -> m' !! x = m !! x).
Proof.
  intros HI Hf. pose proof HI as (H1 & H2 & H3). pose proof Hf as (H0 & Hp & Hd & Hw). pose proof Hgeo as (Ho & Ho8 & Hn & Hsz & _).
  set (b := pg + header_size). assert (b mod 8 = 0) as Hb8. { unfold b. rewrite header_48. by apply (mod8_of_page pg 6). }
  assert (forall a, a ∈ slots b osz n -> is_Some ((blk ∪ m) !! a)) as Hsl.
  { intros a Ha. set (s0 := mkSlab b 0 0 0). assert (a ∈ objs s0) as Ha0 by done.
    pose proof (slot_bounds s0 a Ha0) as [? ?]. pose proof (slot_mod8 s0 a Hb8 Ha0). simpl in *.
    apply lookup_union_is_Some. left. apply Hw; [|done]. subst b. rewrite header_48 in *. lia. }
  destruct (build_freelist_ok osz n b 0 (blk ∪ m) []) as (fl & m' & E & Hc & [Hout Hdom]);
    [lia|subst b; rewrite header_48; lia|done|by intros a ?%elem_of_nil|done|].
  rewrite app_nil_r in Hc. exists fl, m'. split; [done|]. set (s := mkSlab b fl 0 (Z.of_nat n)).
  assert (forall x, x mod 8 = 0 -> is_Some (m !! x) -> m' !! x = m !! x) as Hsame.
  { intros x Hx8 Hx. assert (blk !! x = None) as Hbx.
    { destruct (blk !! x) eqn:Eb; [|done]. destruct Hx as [v Hv]. by eapply map_disjoint_spec in Hd. }
    rewrite Hout; [by rewrite lookup_union_r|]. destruct (Z.lt_ge_cases x b); [by left|]. right.
    destruct (Z.lt_ge_cases x (b + Z.of_nat n * osz)); [|done]. exfalso.
    destruct (Hw x) as [v Hv]; [subst b; rewrite header_48 in *; lia|done|congruence]. }
  assert (forall t, t ∈ l -> sbase t <> b) as Hne.
  { intros t Ht Eb. pose proof (fresh_apart m F l pg blk t HI Hf Ht). subst b. rewrite header_48 in *. nia. }
  assert (slab_ok m' s (reverse (slots b osz n))) as Hok.
  { split; simpl; [split; [subst b; lia|done]|done|done| | | | |].
    - rewrite reverse_Permutation. apply slots_nodup. lia.
    - intros a Ha. by rewrite elem_of_reverse in Ha.
    - rewrite length_reverse, slots_length. lia.
    - intros x Hx Hx8. apply Hdom. apply lookup_union_is_Some. left. apply Hw; [subst b; lia|done].
    - subst b. by replace (pg + header_size - header_size) with pg by lia. }
  split; [split; [|split]|split; [|by split]].
  - intros t [->|Ht]%elem_of_cons; [by rewrite upd_same|]. rewrite upd_other by auto.
    destruct (H1 t Ht) as [Hb Htt Hc' Hnd Hsub Hiu Hws]. split; try done.
    + apply (chain_ext m); [|done]. intros a Ha. apply Hsame; [apply (slot_mod8 t); [apply Hb|by apply Hsub]|].
      pose proof (slot_bounds t a (Hsub a Ha)). rewrite header_48 in *.
      apply Hws; [lia|]. apply (slot_mod8 t); [apply Hb|by apply Hsub].
    + intros x Hx Hx8. apply Hdom. apply lookup_union_is_Some. right. by apply Hws.
  - simpl. apply NoDup_cons. split; [|done]. intros (t & -> & Ht)%list_elem_of_fmap. by apply (Hne t Ht).
  - assert (forall t, t ∈ l -> apart s t) as Hap.
    { intros t Ht. pose proof (fresh_apart m F l pg blk t HI Hf Ht). unfold apart. simpl. subst b. rewrite header_48 in *. lia. }
    intros t u [->|Ht]%elem_of_cons [->|Hu]%elem_of_cons Htu; [done|by apply Hap| |by apply H3].
    destruct (Hap t Ht); [by right|by left].
  - intros x. rewrite live_cons, upd_same. split.
    + intros [[Hx Hnx]|(t & Ht & Hx & Hnx)]; [exfalso; apply Hnx; by rewrite elem_of_reverse|]. exists t. by rewrite upd_other in Hnx by auto.
    + intros (t & Ht & Hx & Hnx). right. exists t. by rewrite upd_other by auto.
Qed.

(** Unmapping an empty slab. *)
Lemma slab_unmap m F s l c :
  slabs_inv m F (s :: l) -> inuse s = 0 -> slab_size c = ssz ->
  slabs_inv (slab_destroy c s m) F l /\ (forall x, live F (s :: l) x <-> live F l x) /\
  (forall t x, t ∈ l -> sbase t - header_size <= x < sbase t + ssz -> slab_destroy c s m !! x = m !! x).
Proof.
  intros (H1 & H2 & H3) Hiu Hc. pose proof (H1 s ltac:(set_solver)) as [_ Ht _ Hnd Hsub Hlen _].
  simpl in H2. apply NoDup_cons in H2 as [Hn H2].
  assert (forall t x, t ∈ l -> sbase t - header_size <= x < sbase t + ssz -> slab_destroy c s m !! x = m !! x) as Hkeep.
  { intros t x Htl Hx. unfold slab_destroy.
    assert (sbase s <> sbase t) as Hne. { intros Eb. apply Hn. rewrite Eb. by apply list_elem_of_fmap_2. }
    destruct (m !! x) as [v|] eqn:Ev; [|by apply map_lookup_filter_None; left].
    apply map_lookup_filter_Some. split; [done|]. simpl. rewrite Hc. destruct (H3 s t ltac:(set_solver) ltac:(set_solver) Hne); lia. }
  split; [split; [|split; [done|]]|split; [|done]].
  - intros t Htl. destruct (H1 t ltac:(set_solver)) as [Hb Htt Hch Hnd' Hsub' Hlen' Hw]. split; try done.
    + apply (chain_ext m); [|done]. intros a Ha. apply (Hkeep t); [done|].
      pose proof (slot_bounds t a (Hsub' a Ha)). rewrite header_48. destruct Hgeo as (? & _). lia.
    + intros x Hx Hx8. rewrite (Hkeep t) by done. by apply Hw.
  - intros t u Htl Hul. apply H3; set_solver.
  - intros x. rewrite live_cons. split; [|auto]. intros [[Hx Hnx]|?]; [|done]. exfalso. apply Hnx.
    assert (F (sbase s) ≡ₚ objs s) as ->; [|done].
    assert (length (F (sbase s)) = length (objs s)) as El by (unfold objs; rewrite slots_length; lia).
    apply submseteq_length_Permutation; [by apply NoDup_submseteq|lia].
Qed.

(** ** The cache *)

Definition all (c : qd_slab_cache) : list qd_slab := slabs_full c ++ slabs_partial c ++ slabs_empty c.

Record cache_inv (c : qd_slab_cache) (m : words) (F : Z -> list Z) : Prop := {
  ci_geo : obj_size c = osz /\ slab_size c = ssz /\ objs_per_slab c = Z.of_nat n;
  ci_slabs : slabs_inv m F (all c);
  ci_full : forall s, s ∈ slabs_full c -> inuse s = total s;
  ci_partial : forall s, s ∈ slabs_partial c -> 0 < inuse s < total s;
  ci_empty : forall s, s ∈ slabs_empty c -> inuse s = 0
}.

Lemma update_other s l : sbase s ∉ sbase <$> l -> update s l = l.
Proof.
  induction l as [|t l IH]; simpl; [done|]. rewrite not_elem_of_cons. intros [Hne Hn].
  destruct (Z.eqb_spec (sbase t) (sbase s)); [congruence|]. f_equal. by apply IH.
Qed.

Lemma update_mid s t l1 l2 :
  sbase t = sbase s -> sbase s ∉ sbase <$> l1 -> sbase s ∉ sbase <$> l2 -> update s (l1 ++ t :: l2) = l1 ++ s :: l2.
Proof.
  intros E H1 H2. unfold update. rewrite map_app. cbn [map]. rewrite E, Z.eqb_refl.
  f_equal; [by apply (update_other s)|]. f_equal. by apply (update_other s).
Qed.

Lemma remove_mid s l1 l2 : sbase s ∉ sbase <$> l1 -> slab_list_remove (l1 ++ s :: l2) s = Ok (l1 ++ l2).
Proof.
  induction l1 as [|t l1 IH]; simpl; [by rewrite Z.eqb_refl|]. rewrite not_elem_of_cons. intros [Hne Hn].
  destruct (Z.eqb_spec (sbase t) (sbase s)); [congruence|]. by rewrite IH.
Qed.

Lemma update_head s t l : sbase t = sbase s -> sbase s ∉ sbase <$> l -> update s (t :: l) = s :: l.
Proof. intros. apply (update_mid s t [] l); [done|apply not_elem_of_nil|done]. Qed.

Lemma remove_head s l : slab_list_remove (s :: l) s = Ok l.
Proof. apply (remove_mid s [] l), not_elem_of_nil. Qed.

(** No other slab has the base of one in the middle. *)
Lemma base_unique (s : qd_slab) l r : l ≡ₚ s :: r -> NoDup (sbase <$> l) -> sbase s ∉ sbase <$> r.
Proof. intros ->. simpl. by intros [? _]%NoDup_cons. Qed.

Lemma sum_inuse_perm l l' : l ≡ₚ l' -> sum_inuse l = sum_inuse l'.
Proof. induction 1; simpl; lia. Qed.

Lemma fill_object m F l s a v :
  slabs_inv m F l -> s ∈ l -> a ∈ objs s ->
  exists m', fill m a (Z.to_nat (osz / 8)) v = Ok m' /\ same_outside a osz m m' /\
    (forall x, a <= x < a + osz -> (x - a) mod 8 = 0 -> m' !! x = Some v).
Proof.
  intros (H1 & _) Hs Ha. destruct (H1 s Hs) as [Hb _ _ _ _ _ Hw]. pose proof (slot_bounds s a Ha). pose proof (slot_mod8 s a (proj2 Hb) Ha) as Ha8.
  pose proof Hgeo as (Ho & Ho8 & _).
  assert (8 * Z.of_nat (Z.to_nat (osz / 8)) = osz) as E.
  { rewrite Z2Nat.id by (apply Z.div_pos; lia). pose proof (Z.div_mod osz 8 ltac:(lia)). lia. }
  destruct (fill_ok (Z.to_nat (osz / 8)) m a v) as (m' & Ef & Hso & Hv).
  - rewrite E. intros x Hx Hx8. apply Hw; [rewrite header_48; lia|].
    replace x with (a + (x - a)) by lia. rewrite Z.add_mod, Ha8, Hx8 by lia. done.
  - rewrite E in Hso, Hv. by exists m'.
Qed.

(** A cache with the slab [s] in place of one with the same base. *)
Definition same_cache (c c' : qd_slab_cache) : Prop :=
  obj_size c' = obj_size c /\ slab_size c' = slab_size c /\ objs_per_slab c' = objs_per_slab c /\ flags c' = flags c.

Definition classed (c : qd_slab_cache) : Prop :=
  (forall s, s ∈ slabs_full c -> inuse s = total s) /\
  (forall s, s ∈ slabs_partial c -> 0 < inuse s < total s) /\
  (forall s, s ∈ slabs_empty c -> inuse s = 0).

Lemma relist_alloc_ok c s s' :
  NoDup (sbase <$> all c) -> classed c -> 2 <= total s -> 0 <= inuse s < total s ->
  sbase s' = sbase s -> inuse s' = inuse s + 1 -> total s' = total s ->
  (exists l, slabs_partial c = s :: l) \/ (slabs_partial c = [] /\ exists l, slabs_empty c = s :: l) ->
  exists c' r, relist_alloc (store_slab c s') s' = Ok c' /\ same_cache c c' /\ classed c' /\ all c ≡ₚ s :: r /\ all c' ≡ₚ s' :: r.
Proof.
  intros Hn (Hfu & Hpa & Hem) H2 Hiu Eb Ei Et Hch.
  destruct c as [oz oa sz fl ob full partial empty al fr cm]. unfold all in *. simpl in *.
  destruct Hch as [[l ->]|[-> [l ->]]].
  - assert (full ++ (s :: l) ++ empty ≡ₚ s :: full ++ l ++ empty) as Hp by (cbn [app]; by rewrite <- Permutation_middle).
    pose proof (base_unique s _ _ Hp Hn) as Hu. rewrite !fmap_app, !not_elem_of_app, <- Eb in Hu. destruct Hu as (U1 & U2 & U3).
    unfold store_slab, relist_alloc, set_lists. cbn [slabs_full slabs_partial slabs_empty obj_size obj_align slab_size flags objs_per_slab allocs frees cache_misses].
    rewrite (update_other s' full), (update_other s' empty) by done.
    rewrite (update_head s' s l) by done. specialize (Hpa s ltac:(set_solver)) as Hs.
    destruct (Z.eqb_spec (inuse s') 1); [lia|]. cbn [andb].
    destruct (Z.eqb_spec (inuse s') (total s')) as [Ef|Ef].
    + rewrite remove_head. cbn [obind].
      eexists _, _. split; [reflexivity|]. split; [done|]. split; [|split; [exact Hp|done]].
      split; [|split]; simpl; [intros t [->|Ht]%elem_of_cons; auto|intros t Ht; apply Hpa; set_solver|auto].
    + eexists _, _. split; [reflexivity|]. split; [done|]. split; [|split; [exact Hp|simpl; by rewrite <- Permutation_middle]].
      split; [|split]; simpl; [auto|intros t [->|Ht]%elem_of_cons; [lia|apply Hpa; set_solver]|auto].
  - assert (full ++ [] ++ (s :: l) ≡ₚ s :: full ++ l) as Hp by (simpl; by rewrite <- Permutation_middle).
    pose proof (base_unique s _ _ Hp Hn) as Hu. rewrite !fmap_app, !not_elem_of_app, <- Eb in Hu. destruct Hu as (U1 & U2).
    unfold store_slab, relist_alloc, set_lists. cbn [slabs_full slabs_partial slabs_empty obj_size obj_align slab_size flags objs_per_slab allocs frees cache_misses].
    rewrite (update_other s' full) by done. rewrite (update_head s' s l) by done.
    specialize (Hem s ltac:(set_solver)) as Hs. destruct (Z.eqb_spec (inuse s') 1); [|lia]. cbn [andb negb is_head update map].
    rewrite remove_head. cbn [obind].
    eexists _, _. split; [reflexivity|]. split; [done|]. split; [|split; [exact Hp|simpl; by rewrite <- Permutation_middle]].
    split; [|split]; simpl; [auto|intros t [->|Ht]%elem_of_cons; [lia|by apply elem_of_nil in Ht]|intros t Ht; apply Hem; set_solver].
Qed.

Ltac solve_middle := simpl; unfold slab_list_add; rewrite <- ?app_assoc; cbn [app]; rewrite <- ?Permutation_middle; done.

Ltac open_cache :=
  unfold store_slab, set_lists;
  cbn [slabs_full slabs_partial slabs_empty obj_size obj_align slab_size flags objs_per_slab allocs frees cache_misses].

Lemma relist_free_ok c s s' :
  NoDup (sbase <$> all c) -> classed c -> 2 <= total s < u32_mod -> 0 < inuse s <= total s ->
  sbase s' = sbase s -> inuse s' = inuse s - 1 -> total s' = total s -> s ∈ all c ->
  exists c' r, relist_free (store_slab c s') s' = Ok c' /\ same_cache c c' /\ classed c' /\ all c ≡ₚ s :: r /\ all c' ≡ₚ s' :: r.
Proof.
  intros Hn (Hfu & Hpa & Hem) H2 Hiu Eb Ei Et Hin.
  destruct c as [oz oa sz fl ob full partial empty al fr cm]. unfold all in *. simpl in *.
  rewrite !elem_of_app in Hin. unfold relist_free. rewrite (u32_small (total s' - 1)) by (unfold is_u32; lia).
  destruct Hin as [Hin|[Hin|Hin]]; [| |specialize (Hem s Hin); lia]; apply list_elem_of_split in Hin as (l1 & l2 & ->).
  - assert ((l1 ++ s :: l2) ++ partial ++ empty ≡ₚ s :: l1 ++ l2 ++ partial ++ empty) as Hp
      by solve_middle.
    pose proof (base_unique s _ _ Hp Hn) as Hu. rewrite !fmap_app, !not_elem_of_app, <- Eb in Hu. destruct Hu as (U1 & U2 & U3 & U4).
    specialize (Hfu s ltac:(set_solver)) as Hs. open_cache.
    rewrite (update_mid s' s l1 l2), (update_other s' partial), (update_other s' empty) by done.
    destruct (Z.eqb_spec (inuse s') 0); [lia|]. destruct (Z.eqb_spec (inuse s') (total s' - 1)); [|lia].
    rewrite remove_mid by done. cbn [obind]. eexists _, _. split; [reflexivity|]. split; [done|]. split; [|split; [exact Hp|]].
    + split; [|split]; simpl; [intros t Ht; apply Hfu; set_solver|intros t [->|Ht]%elem_of_cons; [lia|auto]|auto].
    + solve_middle.
  - assert (full ++ (l1 ++ s :: l2) ++ empty ≡ₚ s :: full ++ l1 ++ l2 ++ empty) as Hp
      by solve_middle.
    pose proof (base_unique s _ _ Hp Hn) as Hu. rewrite !fmap_app, !not_elem_of_app, <- Eb in Hu. destruct Hu as (U1 & U2 & U3 & U4).
    specialize (Hpa s ltac:(set_solver)) as Hs. open_cache.
    rewrite (update_mid s' s l1 l2), (update_other s' full), (update_other s' empty) by done.
    destruct (Z.eqb_spec (inuse s') 0) as [E0|E0]; [|destruct (Z.eqb_spec (inuse s') (total s' - 1)); [lia|]].
    + rewrite remove_mid by done. cbn [obind]. eexists _, _. split; [reflexivity|]. split; [done|]. split; [|split; [exact Hp|]].
      * split; [|split]; simpl; [auto|intros t Ht; apply Hpa; set_solver|intros t [->|Ht]%elem_of_cons; auto].
      * solve_middle.
    + eexists _, _. split; [reflexivity|]. split; [done|]. split; [|split; [exact Hp|]].
      * split; [|split]; simpl; [auto| |auto].
        intros t [Ht|[->|Ht]%elem_of_cons]%elem_of_app; [apply Hpa; set_solver|lia|apply Hpa; set_solver].
      * solve_middle.
Qed.

(** ** Operations *)

Lemma inv_classed c m F : cache_inv c m F -> classed c.
Proof. by intros [_ _ ? ? ?]. Qed.

Lemma inv_intro c c' m F :
  same_cache c c' -> obj_size c = osz /\ slab_size c = ssz /\ objs_per_slab c = Z.of_nat n ->
  slabs_inv m F (all c') -> classed c' -> cache_inv c' m F.
Proof. intros (E1 & E2 & E3 & _) (H1 & H2 & H3) HI (C1 & C2 & C3). split; [split; [|split]; congruence|done..]. Qed.

Lemma alloc_from_ok c m F s :
  cache_inv c m F ->
  (exists l, slabs_partial c = s :: l) \/ (slabs_partial c = [] /\ exists l, slabs_empty c = s :: l) ->
  exists c' m' F', alloc_from s c m = Ok (Some (freelist s, sbase s), c', m') /\ cache_inv c' m' F' /\ same_cache c c' /\
    freelist s ∈ objs s /\ ~ live F (all c) (freelist s) /\
    (forall x, live F' (all c') x <-> live F (all c) x \/ x = freelist s) /\
    sum_inuse (all c') = sum_inuse (all c) + 1 /\ same_outside (freelist s) osz m m' /\ sbase <$> all c' ≡ₚ sbase <$> all c.
Proof.
  intros HI Hch. pose proof HI as [Hg HS Cf Cp Ce]. pose proof HS as (H1 & H2 & H3).
  assert (s ∈ all c /\ inuse s <> total s) as [Hin Hne].
  { pose proof Hgeo as (_ & _ & Hn2 & _).
    destruct Hch as [[l E]|[_ [l E]]]; (assert (s ∈ all c) as Hin by (unfold all; rewrite E; set_solver)); split; [done| |done|].
    - specialize (Cp s). rewrite E in Cp. specialize (Cp ltac:(set_solver)). lia.
    - specialize (Ce s). rewrite E in Ce. specialize (Ce ltac:(set_solver)). rewrite (so_total _ _ _ (H1 s Hin)). lia. }
  pose proof (so_total _ _ _ (H1 s Hin)) as Ht. pose proof Hgeo as (Ho & _ & Hn2 & _ & Hn32).
  destruct (proj1 (elem_of_Permutation _ _) Hin) as [r0 Hr0].
  destruct (slab_pop m F s r0 (slabs_inv_perm _ _ _ _ Hr0 HS) Hne) as (q & fl & Hq & EF & Hobj & Hiu & _).
  set (s' := mkSlab (sbase s) q (inuse s + 1) (total s)).
  destruct (relist_alloc_ok c s s' H2 (inv_classed _ _ _ HI) ltac:(lia) Hiu eq_refl eq_refl eq_refl Hch) as (c' & r & E & Hsc & Hcl & Hp & Hp').
  destruct (slab_pop m F s r (slabs_inv_perm _ _ _ _ Hp HS) Hne) as (q' & fl' & Hq' & EF' & _ & _ & HS' & Hnl & Hlv).
  assert (q' = q) as -> by congruence. assert (fl' = fl) as -> by congruence. fold s' in HS', Hlv.
  unfold alloc_from, read. rewrite Hq. cbn [of_option obind]. rewrite (u32_small (inuse s + 1)) by (unfold is_u32; lia).
  fold s'. rewrite E. cbn [obind].
  set (F' := upd F (sbase s) fl) in *.
  assert (slabs_inv m F' (all c')) as HI' by (by apply (slabs_inv_perm _ _ (s' :: r))).
  assert (live F' (all c') (freelist s)) as Hlive by (apply (live_perm F' (all c') (s' :: r)); [done|]; apply Hlv; by right).
  assert (exists m', (if negb (Z.land (flags (count_alloc c')) QD_SLAB_ZERO =? 0) then fill m (freelist s) (Z.to_nat (obj_size (count_alloc c') / 8)) 0 else Ok m) = Ok m'
     /\ same_outside (freelist s) osz m m') as (m' & Em & Hso).
  { case_match; [|by exists m]. destruct Hlive as (t & Ht' & Hobjt & _).
    destruct (fill_object m F' (all c') t (freelist s) 0 HI' Ht' Hobjt) as (m' & Ef & Hso & _).
    exists m'. simpl. destruct Hsc as (-> & _). destruct Hg as (-> & _). done. }
  rewrite Em. cbn [obind]. exists (count_alloc c'), m', F'. split; [done|]. split.
  { apply (inv_intro c); [done|done| |done]. by apply (inv_same_outside m _ _ _ (freelist s)). }
  split; [done|]. split; [done|]. split; [by rewrite (live_perm F _ _ _ Hp)|]. change (all (count_alloc c')) with (all c'). split; [|split; [|split; [done|]]].
  - intros x. rewrite (live_perm F _ _ _ Hp), <- Hlv. by apply live_perm.
  - rewrite (sum_inuse_perm _ _ Hp'), (sum_inuse_perm _ _ Hp). simpl. lia.
  - by rewrite Hp', Hp.
Qed.

Lemma choose_ok c m F ans :
  cache_inv c m F -> fresh_pages m ans ->
  exists r c1 m1, choose_slab c ans m = Ok (r, c1, m1) /\
    match r with
    | None => ans = None /\ slabs_partial c = [] /\ slabs_empty c = [] /\ c1 = c /\ m1 = m
    | Some s => exists F1, cache_inv c1 m1 F1 /\ same_cache c c1 /\
        ((exists l, slabs_partial c1 = s :: l) \/ (slabs_partial c1 = [] /\ exists l, slabs_empty c1 = s :: l)) /\
        (forall x, live F1 (all c1) x <-> live F (all c) x) /\ sum_inuse (all c1) = sum_inuse (all c) /\
        (forall x, x mod 8 = 0 -> is_Some (m !! x) -> m1 !! x = m !! x) /\ sbase <$> all c ⊆ sbase <$> all c1
    end.
Proof.
  intros HI Hf. pose proof HI as [Hg HS Cf Cp Ce]. unfold choose_slab.
  destruct (slabs_partial c) as [|s l] eqn:Ep.
  2: { exists (Some s), c, m. split; [done|]. exists F. split; [done|]. split; [done|]. split; [left; by exists l|]. done. }
  destruct (slabs_empty c) as [|s l] eqn:Ee.
  2: { exists (Some s), c, m. split; [done|]. exists F. split; [done|]. split; [done|]. split; [right; split; [done|by exists l]|]. done. }
  unfold slab_create. destruct ans as [[pg blk]|]; [|by exists None, c, m].
  destruct Hg as (G1 & G2 & G3).
  destruct (slab_add m F (all c) pg blk HS Hf) as (fl & m' & E & HS' & Hlv & Hne & Hsame).
  rewrite G3, G1, Nat2Z.id, E. cbn [obind].
  set (s := mkSlab (pg + header_size) fl 0 (Z.of_nat n)) in *.
  set (c1 := set_lists c (slabs_full c) (slabs_partial c) (slab_list_add [] s)).
  assert (all c1 ≡ₚ s :: all c) as Hp by (unfold all, c1; simpl; rewrite Ep, Ee; solve_middle).
  eexists (Some s), c1, m'. split; [unfold c1; by rewrite Ep|].
  exists (upd F (sbase s) (reverse (slots (sbase s) osz n))). split.
  - split; [by unfold c1; simpl| |exact Cf|unfold c1; simpl; rewrite Ep; exact Cp|].
    + eapply slabs_inv_perm; [|exact HS']. by symmetry.
    + unfold c1. simpl. intros t [->|Ht]%elem_of_cons; [done|by apply elem_of_nil in Ht].
  - split; [done|]. split; [right; unfold c1; simpl; eauto|]. split; [|split; [|split; [done|]]].
    + intros x. rewrite (live_perm _ _ _ x Hp). apply Hlv.
    + by rewrite (sum_inuse_perm _ _ Hp).
    + rewrite Hp. set_solver.
Qed.

(** The words of live objects. *)
Definition keeps (P : Z -> Prop) (m m' : words) : Prop :=
  forall y x, P y -> y <= x < y + osz -> x mod 8 = 0 -> m' !! x = m !! x.

Lemma live_words m F l y x :
  slabs_inv m F l -> live F l y -> y <= x < y + osz -> x mod 8 = 0 -> is_Some (m !! x).
Proof.
  intros (H1 & _) (s & Hs & Hy & _) Hx Hx8. pose proof (slot_bounds s y Hy). apply (so_words _ _ _ (H1 s Hs)); [rewrite header_48; lia|done].
Qed.

(** Outside a live object nothing of another one changes. *)
Lemma outside_keeps m F l m1 m2 a :
  slabs_inv m F l -> live F l a -> same_outside a osz m1 m2 ->
  keeps (fun y => live F l y /\ y <> a) m1 m2.
Proof.
  intros HI (t & Ht & Hat & _) [Hs _] y x [(s & Hin & Hy & _) Hne] Hx _. apply Hs.
  destruct (objs_apart m F l t s a y HI Ht Hin Hat Hy ltac:(congruence)); lia.
Qed.

Lemma alloc_ok c m F ans :
  cache_inv c m F -> fresh_pages m ans ->
  exists r c' m', qd_slab_alloc_internal c ans m = Ok (r, c', m') /\
    match r with
    | None => ans = None /\ slabs_partial c = [] /\ slabs_empty c = [] /\ c' = c /\ m' = m
    | Some (a, b) => exists F', cache_inv c' m' F' /\ same_cache c c' /\ ~ live F (all c) a /\
        (forall x, live F' (all c') x <-> live F (all c) x \/ x = a) /\
        sum_inuse (all c') = sum_inuse (all c) + 1 /\ keeps (live F (all c)) m m' /\
        (exists s, s ∈ all c' /\ sbase s = b /\ a ∈ objs s) /\ sbase <$> all c ⊆ sbase <$> all c'
    end.
Proof.
  intros HI Hf. destruct (choose_ok c m F ans HI Hf) as (r & c1 & m1 & E & Hr). unfold qd_slab_alloc_internal. rewrite E. cbn [obind].
  destruct r as [s|]; [|by exists None, c1, m1]. destruct Hr as (F1 & HI1 & Hsc & Hch & Hlv & Hsum & Hsame & Hsub).
  destruct (alloc_from_ok c1 m1 F1 s HI1 Hch) as (c' & m' & F' & E' & HI' & Hsc' & Hobj & Hnl & Hlv' & Hsum' & Hso & Hbs).
  rewrite E'. eexists _, _, _. split; [reflexivity|]. exists F'. split; [done|].
  split; [destruct Hsc as (? & ? & ? & ?), Hsc' as (? & ? & ? & ?); repeat split; congruence|].
  assert (s ∈ all c1) as Hs1 by (unfold all; destruct Hch as [[l ->]|[_ [l ->]]]; set_solver).
  split; [by rewrite <- Hlv|]. split; [intros x; by rewrite Hlv', Hlv|]. split; [lia|]. split.
  2: { split; [|by rewrite Hbs]. assert (sbase s ∈ sbase <$> all c') as (t & Et & Ht)%list_elem_of_fmap by (rewrite Hbs; by apply list_elem_of_fmap_2).
       exists t. split; [done|]. split; [done|]. unfold objs in *. by rewrite <- Et. }
  intros y x Hy Hx Hx8. rewrite <- Hsame by (done || by apply (live_words m F (all c) y); [apply HI|..]).
  destruct Hso as [Hs _]. apply Hs.
  assert (live F1 (all c1) y) as Hy1 by (by apply Hlv). assert (y <> freelist s) by (intros ->; done).
  destruct Hy1 as (t & Ht & Hyt & _).
  destruct (objs_apart m1 F1 (all c1) t s y (freelist s) (ci_slabs _ _ _ HI1) Ht Hs1 Hyt Hobj ltac:(done)); lia.
Qed.

Lemma find_unique {A} (f : A -> bool) l s :
  s ∈ l -> f s = true -> (forall t, t ∈ l -> f t = true -> t = s) -> List.find f l = Some s.
Proof.
  induction l as [|t l IH]; intros Hin Hs Hu; [by apply elem_of_nil in Hin|]. simpl.
  destruct (f t) eqn:Et; [f_equal; apply Hu; [set_solver|done]|].
  apply elem_of_cons in Hin as [->|Hin]; [congruence|]. apply IH; [done|done|]. intros u Hu'. apply Hu. set_solver.
Qed.

Lemma matches_slot c s a : obj_size c = osz -> slab_size c = ssz -> a ∈ objs s ->
  (sbase s <=? a) && (a <? sbase s + slab_size c) && slab_ptr_matches c s a = true.
Proof.
  intros E1 E2 Ha. pose proof (slot_bounds s a Ha). pose proof Hgeo as (? & _). unfold slab_ptr_matches. rewrite E1, E2.
  destruct (Z.leb_spec (sbase s) a); [|lia]. destruct (Z.ltb_spec a (sbase s + ssz)); [|lia].
  destruct (Z.ltb_spec a (sbase s)); [lia|]. destruct (Z.leb_spec (sbase s + ssz) a); [lia|]. simpl.
  apply elem_of_slots in Ha as (i & Hi & ->). replace (sbase s + i * osz - sbase s) with (i * osz) by ring.
  rewrite Z.mod_mul by lia. done.
Qed.

Lemma find_by_ptr_ok c m F s a : cache_inv c m F -> s ∈ all c -> a ∈ objs s -> slab_find_by_ptr c a = Some s.
Proof.
  intros [(E1 & E2 & _) HS _ _ _] Hs Ha. unfold slab_find_by_ptr. fold (all c). apply find_unique; [done|by apply matches_slot|].
  intros t Ht [[H1 H2]%andb_true_iff _]%andb_true_iff. rewrite E2 in H2. apply (base_inj m F (all c)); [done..|].
  destruct (Z.eq_dec (sbase t) (sbase s)) as [|Hne]; [done|]. exfalso. pose proof (slot_bounds s a Ha). pose proof Hgeo as (? & _).
  destruct HS as (_ & _ & Hap). destruct (Hap t s Ht Hs Hne) as [Hx|Hx]; rewrite header_48 in Hx; lia.
Qed.

Lemma free_ok c m F a :
  cache_inv c m F -> live F (all c) a ->
  exists c' m' F', slab_free_checked c a m = Ok (1, c', m') /\ cache_inv c' m' F' /\ same_cache c c' /\
    (forall x, live F' (all c') x <-> live F (all c) x /\ x <> a) /\
    sum_inuse (all c') = sum_inuse (all c) - 1 /\ keeps (fun y => live F (all c) y /\ y <> a) m m' /\ sbase <$> all c' ≡ₚ sbase <$> all c.
Proof.
  intros HI Hl. pose proof HI as [Hg HS _ _ _]. pose proof Hl as (s & Hs & Ha & Hna). pose proof HS as (H1 & H2 & _).
  destruct (H1 s Hs) as [Hb Ht _ _ _ _ _]. pose proof (slot_bounds s a Ha) as Hbd. pose proof Hgeo as (Ho & _ & Hn2 & _ & Hn32).
  unfold slab_free_checked. destruct (Z.eqb_spec a 0); [rewrite header_48 in Hb; lia|].
  rewrite (find_by_ptr_ok c m F s a HI Hs Ha). unfold slab_free_locked.
  assert (exists m1, (if negb (Z.land (flags c) QD_SLAB_POISON =? 0) then fill m a (Z.to_nat (obj_size c / 8)) 0xDEDEDEDEDEDEDEDE else Ok m) = Ok m1
    /\ same_outside a osz m m1) as (m1 & -> & Hso).
  { case_match; [|by exists m]. destruct Hg as (-> & _). destruct (fill_object m F (all c) s a 0xDEDEDEDEDEDEDEDE HS Hs Ha) as (m1 & ? & ? & _). eauto. }
  cbn [obind]. assert (is_Some (m1 !! a)) as Hma.
  { apply Hso. apply (live_words m F (all c) a); [done|done|lia|]. apply (slot_mod8 s); [apply Hb|done]. }
  rewrite write_ok by done. cbn [obind]. set (m2 := <[a := freelist s]> m1).
  assert (same_outside a osz m m2) as Hso2 by (apply (same_outside_trans _ _ _ m1); [done|]; apply insert_same_outside; lia).
  pose proof (inv_same_outside m m2 F (all c) a HS Hl Hso2) as HS2.
  destruct (proj1 (elem_of_Permutation _ _) Hs) as [r0 Hr0].
  destruct (slab_push m2 F s r0 a (slabs_inv_perm _ _ _ _ Hr0 HS2) Ha Hna) as (Hiu & _); [by apply lookup_insert_eq|].
  set (s' := mkSlab (sbase s) a (inuse s - 1) (total s)).
  destruct (relist_free_ok c s s' H2 (inv_classed _ _ _ HI) ltac:(lia) Hiu eq_refl eq_refl eq_refl Hs) as (c' & r & E & Hsc & Hcl & Hp & Hp').
  destruct (slab_push m2 F s r a (slabs_inv_perm _ _ _ _ Hp HS2) Ha Hna) as (_ & HS' & Hlv); [by apply lookup_insert_eq|].
  fold s' in HS', Hlv. set (F' := upd F (sbase s) (a :: F (sbase s))) in *.
  rewrite (u32_small (inuse s - 1)) by (unfold is_u32; lia). fold s'. rewrite E. cbn [obind].
  exists (count_free c'), m2, F'. split; [done|]. split.
  { apply (inv_intro c); [done|done| |done]. eapply slabs_inv_perm; [|exact HS']. by symmetry. }
  split; [done|]. change (all (count_free c')) with (all c'). split; [|split; [|split]].
  - intros x. rewrite (live_perm F _ _ _ Hp), <- Hlv. by apply live_perm.
  - rewrite (sum_inuse_perm _ _ Hp'), (sum_inuse_perm _ _ Hp). simpl. lia.
  - by apply (outside_keeps m F (all c)).
  - by rewrite Hp', Hp.
Qed.

(** Other parts of the program map memory. *)
Lemma inv_grow m m' F l : m ⊆ m' -> slabs_inv m F l -> slabs_inv m' F l.
Proof.
  intros Hm (H1 & H2 & H3). split; [|done]. intros s Hs. destruct (H1 s Hs) as [Hb Ht Hc Hnd Hsub Hiu Hw Hpg]. split; try done.
  - apply (chain_ext m); [|done]. intros a Ha.
    destruct (Hw a) as [v Hv]; [|by apply (slot_mod8 s); [apply Hb|apply Hsub]|].
    + pose proof (slot_bounds s a (Hsub a Ha)). destruct Hgeo as (? & _). rewrite header_48. lia.
    + rewrite Hv. by eapply lookup_weaken.
  - intros x Hx Hx8. destruct (Hw x Hx Hx8) as [v Hv]. exists v. by eapply lookup_weaken.
Qed.

Lemma shrink_loop_ok c m F k :
  cache_inv c m F ->
  exists c' m', shrink_loop (slabs_empty c) c m k = Ok (k + Z.of_nat (length (slabs_empty c)), c', m') /\ cache_inv c' m' F /\ same_cache c c' /\
    slabs_empty c' = [] /\ (forall x, live F (all c') x <-> live F (all c) x) /\ sum_inuse (all c') = sum_inuse (all c) /\
    keeps (live F (all c)) m m'.
Proof.
  remember (slabs_empty c) as todo eqn:E. revert c m k E. induction todo as [|s l IH]; intros c m k E HI; cbn [shrink_loop].
  - exists c, m. rewrite Z.add_0_r. done.
  - rewrite <- E, remove_head. cbn [obind]. pose proof HI as [Hg HS Cf Cp Ce]. set (c1 := set_lists c (slabs_full c) (slabs_partial c) l).
    assert (all c ≡ₚ s :: all c1) as Hp by (unfold all, c1; simpl; rewrite <- E; rewrite !app_assoc; solve_middle).
    assert (inuse s = 0) as Hs0 by (apply Ce; rewrite <- E; set_solver).
    destruct (slab_unmap m F s (all c1) c (slabs_inv_perm _ _ _ _ Hp HS) Hs0 (proj1 (proj2 Hg))) as (HS1 & Hlv & Hkeep).
    assert (cache_inv c1 (slab_destroy c s m) F) as HI1.
    { split; [done|done|done|done|]. intros t Ht. apply Ce. rewrite <- E. set_solver. }
    destruct (IH c1 (slab_destroy c s m) (k + 1) eq_refl HI1) as (c' & m' & E' & HI' & Hsc & He & Hlv' & Hsum & Hk).
    exists c', m'. split; [rewrite E'; do 3 f_equal; simpl; lia|]. split; [done|]. split; [done|]. split; [done|].
    assert (forall x, live F (all c1) x <-> live F (all c) x) as Hl1 by (intros x; rewrite (live_perm F _ _ x Hp); symmetry; apply Hlv).
    split; [intros x; by rewrite Hlv'|]. split; [rewrite Hsum, (sum_inuse_perm _ _ Hp); simpl; lia|].
    intros y x Hy Hx Hx8. rewrite (Hk y x) by (by rewrite ?Hl1). apply Hl1 in Hy as (t & Ht & Hyt & _).
    pose proof (slot_bounds t y Hyt). apply (Hkeep t); [done|]. rewrite header_48. lia.
Qed.

End slabs.

(** ** Caches as clients see them *)

Abbreviation objects c := (Z.to_nat (objs_per_slab c)).

(** The objects in use are [L]. *)
Definition cache_ok (c : qd_slab_cache) (m : words) (L : gset Z) : Prop :=
  geometry (obj_size c) (slab_size c) (objects c) /\
  exists F, cache_inv (obj_size c) (slab_size c) (objects c) c m F /\
    (forall x, x ∈ L <-> live (obj_size c) (objects c) F (all c) x) /\ sum_inuse (all c) = Z.of_nat (size L).

(** A cache is asked for objects of up to 2^32 bytes, aligned to at most a page. *)
Definition valid_cache (sz align : Z) : Prop :=
  0 <= sz <= 2 ^ 32 /\ (align = 0 \/ exists k, 0 <= k <= 12 /\ align = 2 ^ k).

(** The alignment and the size a cache works with. *)
Lemma create_geometry sz align fl :
  valid_cache sz align ->
  let c := qd_slab_cache_create sz align fl in
  geometry (obj_size c) (slab_size c) (objects c) /\ objs_per_slab c = Z.of_nat (objects c) /\ sz <= obj_size c /\
  (exists k, 3 <= k <= 12 /\ obj_align c = 2 ^ k /\ (align <= 2 ^ k /\ obj_size c mod 2 ^ k = 0)).
Proof.
  intros [Hsz Hal] c.
  assert (exists k, 3 <= k <= 12 /\ obj_align c = 2 ^ k /\ align <= 2 ^ k) as (k & Hk & Ek & Hle).
  { unfold c, qd_slab_cache_create. cbn [obj_align]. destruct Hal as [->|(k & Hk & ->)]; [exists 3; simpl; lia|].
    assert (0 < 2 ^ k) by (apply Z.pow_pos_nonneg; lia). destruct (Z.eqb_spec (2 ^ k) 0); [lia|].
    destruct (Z.ltb_spec (2 ^ k) 8); [exists 3; change (2 ^ 3) with 8; lia|]. exists k. split; [|lia]. split; [|lia].
    change 8 with (2 ^ 3) in *. apply Z.pow_le_mono_r_iff in H0; lia. }
  assert (8 <= 2 ^ k <= 4096) as Hp.
  { split; [change 8 with (2 ^ 3)|change 4096 with (2 ^ 12)]; apply Z.pow_le_mono_r; lia. }
  set (s0 := if sz <? QD_SLAB_MIN_SIZE then QD_SLAB_MIN_SIZE else sz).
  assert (8 <= s0 <= 2 ^ 32) as Hs0 by (unfold s0, QD_SLAB_MIN_SIZE; destruct (Z.ltb_spec sz 8); lia).
  assert (obj_size c = QD_ALIGN s0 (2 ^ k)) as Eo by (by rewrite <- Ek).
  destruct (align_bounds k s0) as [Hm Hb]; [lia|lia|unfold_widths; lia|].
  assert (slab_size c = if 1024 <? obj_size c then obj_size c *64 4 else 4096) as Ess by done.
  assert (objs_per_slab c = if u32 (slab_size c / obj_size c) =? 0 then 1 else u32 (slab_size c / obj_size c)) as En by done.
  rewrite <- Eo in Hm, Hb.
  assert (4 <= slab_size c / obj_size c <= 4096 /\ slab_size c / obj_size c * obj_size c <= slab_size c) as [Hq Hq'].
  { split; [|rewrite Z.mul_comm; apply Z.mul_div_le; lia]. rewrite Ess. destruct (Z.ltb_spec 1024 (obj_size c)).
    - rewrite u64_small, Z.mul_comm, Z.div_mul by (unfold_widths; lia). lia.
    - split; [apply Z.div_le_lower_bound; lia|apply Z.div_le_upper_bound; lia]. }
  rewrite u32_small in En by (unfold_widths; lia). destruct (Z.eqb_spec (slab_size c / obj_size c) 0); [lia|].
  assert (objs_per_slab c = Z.of_nat (objects c)) as Enat by (rewrite Z2Nat.id; lia).
  split; [|split; [done|split; [|by exists k]]]; [|unfold s0, QD_SLAB_MIN_SIZE in *; destruct (Z.ltb_spec sz 8); lia]. unfold geometry. rewrite <- Enat, En. unfold_widths.
  split; [lia|]. split; [|split; [lia|split; [done|lia]]].
  apply Z.mod_divide in Hm as [x Hx]; [|lia]. apply Z.mod_divide; [lia|]. exists (x * 2 ^ (k - 3)).
  rewrite Hx. replace 8 with (2 ^ 3) by done. rewrite <- Z.mul_assoc, <- Z.pow_add_r by lia. do 2 f_equal. lia.
Qed.

Lemma create_ok sz align fl m : valid_cache sz align -> cache_ok (qd_slab_cache_create sz align fl) m ∅.
Proof.
  intros Hv. destruct (create_geometry sz align fl Hv) as (Hg & En & _). split; [done|]. exists (fun _ => []). split; [|split; [|done]].
  - split; [done| |by intros s ?%elem_of_nil..]. split; [by intros s ?%elem_of_nil|]. split; [apply NoDup_nil_2|by intros s t ?%elem_of_nil].
  - intros x. split; [set_solver|]. by intros (s & ?%elem_of_nil & _).
Qed.

(** What an operation keeps of a cache. *)
Lemma same_cache_objects c c' : same_cache c c' -> obj_size c' = obj_size c /\ slab_size c' = slab_size c /\ objects c' = objects c.
Proof. by intros (-> & -> & -> & _). Qed.

Lemma alloc_step c m L ans :
  cache_ok c m L -> fresh_pages (slab_size c) m ans ->
  exists r c' m', qd_slab_alloc c ans m = Ok (r, c', m') /\
    match r with
    | None => ans = None /\ c' = c /\ m' = m
    | Some a => a ∉ L /\ cache_ok c' m' ({[a]} ∪ L) /\ same_cache c c' /\ keeps (obj_size c) (fun y => y ∈ L) m m'
    end.
Proof.
  intros (Hg & F & HI & HL & Hsz) Hf. destruct (alloc_ok _ _ _ Hg c m F ans HI Hf) as (r & c' & m' & E & Hr).
  unfold qd_slab_alloc. rewrite E. cbn [obind]. eexists _, _, _. split; [reflexivity|]. destruct r as [[a b]|]; simpl; [|tauto].
  destruct Hr as (F' & HI' & Hsc & Hnl & Hlv & Hsum & Hk & _). destruct (same_cache_objects c c' Hsc) as (E1 & E2 & E3).
  split; [by rewrite HL|]. split; [|split; [done|]].
  - unfold cache_ok. rewrite E1, E2, E3. split; [done|]. exists F'. split; [done|]. split.
    + intros x. rewrite elem_of_union, elem_of_singleton, Hlv, HL. tauto.
    + rewrite size_union by (rewrite disjoint_singleton_l, HL; done). rewrite size_singleton. lia.
  - intros y x Hy. apply Hk. by apply HL.
Qed.

Lemma free_step c m L a :
  cache_ok c m L -> a ∈ L ->
  exists c' m', slab_free_checked c a m = Ok (1, c', m') /\ cache_ok c' m' (L ∖ {[a]}) /\ same_cache c c' /\
    keeps (obj_size c) (fun y => y ∈ L ∖ {[a]}) m m'.
Proof.
  intros (Hg & F & HI & HL & Hsz) Ha. destruct (free_ok _ _ _ Hg c m F a HI) as (c' & m' & F' & E & HI' & Hsc & Hlv & Hsum & Hk & _); [by apply HL|].
  exists c', m'. split; [done|]. destruct (same_cache_objects c c' Hsc) as (E1 & E2 & E3). split; [|split; [done|]].
  - unfold cache_ok. rewrite E1, E2, E3. split; [done|]. exists F'. split; [done|]. split.
    + intros x. rewrite elem_of_difference, elem_of_singleton, Hlv, HL. done.
    + assert (size ({[a]} : gset Z) <= size L)%nat as Hle by (apply subseteq_size; set_solver).
      rewrite size_difference by set_solver. rewrite size_singleton in *. lia.
  - intros y x Hy. apply Hk. rewrite <- HL. set_solver.
Qed.

(** The caches that calls reach: allocations, releases of objects in use, writes of
    clients to their objects, shrinking, and memory that is mapped elsewhere. *)
Inductive reachable (c0 : qd_slab_cache) : qd_slab_cache -> words -> gset Z -> Prop :=
| reach_init m : reachable c0 c0 m ∅
| reach_alloc c m L ans r c' m' :
    reachable c0 c m L -> fresh_pages (slab_size c) m ans -> qd_slab_alloc c ans m = Ok (r, c', m') ->
    reachable c0 c' m' (match r with Some a => {[a]} ∪ L | None => L end)
| reach_free c m L a r c' m' :
    reachable c0 c m L -> a ∈ L -> slab_free_checked c a m = Ok (r, c', m') -> reachable c0 c' m' (L ∖ {[a]})
| reach_write c m L a x v :
    reachable c0 c m L -> a ∈ L -> a <= x < a + obj_size c -> x mod 8 = 0 -> reachable c0 c (<[x := v]> m) L
| reach_shrink c m L k c' m' :
    reachable c0 c m L -> qd_slab_cache_shrink c m = Ok (k, c', m') -> reachable c0 c' m' L
| reach_other c m L m' : reachable c0 c m L -> m ⊆ m' -> reachable c0 c m' L.

Lemma shrink_step c m L :
  cache_ok c m L ->
  exists c' m', qd_slab_cache_shrink c m = Ok (Z.of_nat (length (slabs_empty c)), c', m') /\ cache_ok c' m' L /\ same_cache c c' /\
    slabs_empty c' = [] /\ keeps (obj_size c) (fun y => y ∈ L) m m'.
Proof.
  intros (Hg & F & HI & HL & Hsz). destruct (shrink_loop_ok _ _ _ Hg c m F 0 HI) as (c' & m' & E & HI' & Hsc & He & Hlv & Hsum & Hk).
  exists c', m'. split; [exact E|]. destruct (same_cache_objects c c' Hsc) as (E1 & E2 & E3). split; [|split; [done|split; [done|]]].
  - unfold cache_ok. rewrite E1, E2, E3. split; [done|]. exists F. split; [done|]. split; [intros x; by rewrite Hlv|lia].
  - intros y x Hy. apply Hk. by apply HL.
Qed.

Lemma write_step c m L a x v :
  cache_ok c m L -> a ∈ L -> a <= x < a + obj_size c -> x mod 8 = 0 -> cache_ok c (<[x := v]> m) L.
Proof.
  intros (Hg & F & HI & HL & Hsz) Ha Hx Hx8. split; [done|]. exists F. split; [|done]. destruct HI as [G HS C1 C2 C3]. split; try done.
  apply (inv_same_outside _ _ _ Hg m _ F (all c) a HS); [by apply HL|]. split.
  - intros y Hy. apply lookup_insert_ne. lia.
  - intros y Hy. destruct (decide (x = y)) as [->|]; [by rewrite lookup_insert_eq|by rewrite lookup_insert_ne].
Qed.

Lemma reachable_ok sz align fl c m L :
  valid_cache sz align -> reachable (qd_slab_cache_create sz align fl) c m L ->
  cache_ok c m L /\ same_cache (qd_slab_cache_create sz align fl) c.
Proof.
  intros Hv. induction 1 as [m|c m L ans r c' m' _ [IH Hs] Hf E|c m L a r c' m' _ [IH Hs] Ha E|c m L a x v _ [IH Hs] Ha Hx H8|c m L k c' m' _ [IH Hs] E|c m L m' _ [IH Hs] Hm].
  - split; [by apply create_ok|done].
  - destruct (alloc_step c m L ans IH Hf) as (r1 & c1 & m1 & E1 & H1). rewrite E1 in E. injection E as -> -> ->.
    destruct r as [a|]; [|by destruct H1 as (_ & -> & ->)]. destruct H1 as (_ & Hok & Hsc & _). split; [done|].
    destruct Hs as (? & ? & ? & ?), Hsc as (? & ? & ? & ?). repeat split; congruence.
  - destruct (free_step c m L a IH Ha) as (c1 & m1 & E1 & Hok & Hsc & _). rewrite E1 in E. injection E as <- -> ->. split; [done|].
    destruct Hs as (? & ? & ? & ?), Hsc as (? & ? & ? & ?). repeat split; congruence.
  - split; [by eapply write_step|done].
  - destruct (shrink_step c m L IH) as (c1 & m1 & E1 & Hok & Hsc & _). rewrite E1 in E. injection E as <- -> ->. split; [done|].
    destruct Hs as (? & ? & ? & ?), Hsc as (? & ? & ? & ?). repeat split; congruence.
  - split; [|done]. destruct IH as (Hg & F & [G HS C1 C2 C3] & HL & Hsz). split; [done|]. exists F. split; [|done]. split; try done.
    by apply (inv_grow _ _ _ Hg m).
Qed.

(** Objects in use do not overlap. *)
Lemma live_apart c m L a b : cache_ok c m L -> a ∈ L -> b ∈ L -> a <> b -> a + obj_size c <= b \/ b + obj_size c <= a.
Proof.
  intros (Hg & F & [_ HS _ _ _] & HL & _) Ha Hb Hne. apply HL in Ha as (s & Hs & Ha & _). apply HL in Hb as (t & Ht & Hb & _).
  by apply (objs_apart _ _ _ Hg m F (all c) s t).
Qed.

(** In every cache that calls reach, an allocation gives NULL only when mmap fails;
    else the object was not in use, overlaps no object in use, and no word of an object
    in use changes. *)
Theorem slab_alloc_fresh sz align fl c m L ans :
  valid_cache sz align -> reachable (qd_slab_cache_create sz align fl) c m L -> fresh_pages (slab_size c) m ans ->
  exists r c' m', qd_slab_alloc c ans m = Ok (r, c', m') /\
    match r with
    | None => ans = None /\ c' = c /\ m' = m
    | Some a => a ∉ L /\ sz <= obj_size c /\
        (forall b, b ∈ L -> a + obj_size c <= b \/ b + obj_size c <= a) /\
        (forall b x, b ∈ L -> b <= x < b + obj_size c -> x mod 8 = 0 -> m' !! x = m !! x)
    end.
Proof.
  intros Hv HR Hf. destruct (reachable_ok _ _ _ _ _ _ Hv HR) as [Hok Hsc].
  destruct (alloc_step c m L ans Hok Hf) as (r & c' & m' & E & Hr). exists r, c', m'. split; [done|].
  destruct r as [a|]; [|done]. destruct Hr as (Hn & Hok' & Hsc' & Hk). split; [done|]. split; [|split; [|done]].
  - destruct Hsc as (-> & _). by destruct (create_geometry sz align fl Hv) as (_ & _ & ? & _).
  - intros b Hb. assert (obj_size c' = obj_size c) as <- by apply Hsc'. apply (live_apart c' m' _ a b Hok'); set_solver.
Qed.

(** Releasing an object in use succeeds, makes exactly this object free and changes
    no word of the others; the statistics count the objects in use. *)
Theorem slab_free_exact sz align fl c m L a :
  valid_cache sz align -> reachable (qd_slab_cache_create sz align fl) c m L -> a ∈ L ->
  exists c' m', slab_free_checked c a m = Ok (1, c', m') /\
    (forall b x, b ∈ L -> b <> a -> b <= x < b + obj_size c -> x mod 8 = 0 -> m' !! x = m !! x) /\
    (Z.of_nat (size L) < u64_mod ->
     active_objs (qd_slab_cache_stats c) = Z.of_nat (size L) /\ active_objs (qd_slab_cache_stats c') = Z.of_nat (size L) - 1).
Proof.
  intros Hv HR Ha. destruct (reachable_ok _ _ _ _ _ _ Hv HR) as [Hok _].
  destruct (free_step c m L a Hok Ha) as (c' & m' & E & Hok' & _ & Hk). exists c', m'. split; [done|]. split.
  - intros b x Hb Hne. apply Hk. set_solver.
  - assert (forall d n K, cache_ok d n K -> Z.of_nat (size K) < u64_mod -> active_objs (qd_slab_cache_stats d) = Z.of_nat (size K)) as Hst.
    { intros d n K (_ & F & [_ _ _ _ He] & _ & Hs) HK. simpl. assert (forall l1 l2, sum_inuse (l1 ++ l2) = sum_inuse l1 + sum_inuse l2) as Happ.
      { induction l1 as [|t l1 IH]; intros l2; simpl; [done|]. rewrite IH. lia. }
      unfold all in Hs. rewrite !Happ in Hs. assert (sum_inuse (slabs_empty d) = 0) as H0.
      { clear -He. induction (slabs_empty d) as [|t l IH]; simpl; [done|]. rewrite He by set_solver. rewrite IH; [done|]. intros s Hs. apply He. set_solver. }
      rewrite u64_small by (unfold is_u64; lia). lia. }
    intros HL. split; [by apply (Hst c m)|]. assert (size ({[a]} : gset Z) <= size L)%nat as Hle by (apply subseteq_size; set_solver).
    rewrite (Hst c' m' (L ∖ {[a]})); [| done |]; rewrite size_difference by set_solver; rewrite size_singleton in *; lia.
Qed.

(** Objects are placed after the header of 48 bytes of a page-aligned slab: every
    object of a cache created with alignment [2^k] has an address that is 48 modulo
    [2^k], which is not aligned for 32 and above. *)
Theorem slab_alignment sz k fl c m L a :
  0 <= sz <= 2 ^ 32 -> 3 <= k <= 12 -> reachable (qd_slab_cache_create sz (2 ^ k) fl) c m L -> a ∈ L ->
  a mod 2 ^ k = 48 mod 2 ^ k.
Proof.
  intros Hsz Hk HR Ha. assert (valid_cache sz (2 ^ k)) as Hv by (split; [done|]; right; exists k; split; [lia|done]).
  destruct (reachable_ok _ _ _ _ _ _ Hv HR) as [(Hg & F & [_ (H1 & _) _ _ _] & HL & _) (E1 & _)].
  destruct (create_geometry sz (2 ^ k) fl Hv) as (_ & _ & _ & j & Hj & Ej & Hle & Hm).
  assert (2 ^ j = 2 ^ k) as E.
  { rewrite <- Ej. unfold qd_slab_cache_create. cbn [obj_align]. assert (2 ^ 3 <= 2 ^ k) by (apply Z.pow_le_mono_r; lia).
    destruct (Z.eqb_spec (2 ^ k) 0); [lia|]. destruct (Z.ltb_spec (2 ^ k) 8); [lia|done]. }
  rewrite E, <- E1 in Hm. apply HL in Ha as (s & Hs & (i & _ & ->)%elem_of_slots & _). pose proof (so_page _ _ _ _ _ _ (H1 s Hs)) as Hpg.
  assert (0 < 2 ^ k) by (apply Z.pow_pos_nonneg; lia).
  apply Z.mod_divide in Hm as [y Hy]; [|lia]. unfold QD_SLAB_PAGE_SIZE in Hpg. apply Z.mod_divide in Hpg as [x Hx]; [|lia].
  rewrite header_48 in Hx. replace (sbase s + i * obj_size c) with (48 + (x * 2 ^ (12 - k) + i * y) * 2 ^ k); [apply Z.mod_add; lia|].
  rewrite Hy. assert (2 ^ (12 - k) * 2 ^ k = 4096) as Ep by (rewrite <- Z.pow_add_r by lia; by replace (12 - k + k) with 12 by lia).
  replace (sbase s) with (48 + x * 4096) by lia. rewrite <- Ep. ring.
Qed.

(** ** A cache at work *)

Lemma zero_block_lookup a k x : a <= x < a + 8 * Z.of_nat k -> (x - a) mod 8 = 0 -> zero_block a k !! x = Some 0.
Proof.
  intros Hx H8. unfold zero_block. apply elem_of_list_to_map_1.
  - rewrite <- list_fmap_compose. apply NoDup_fmap_2_strong; [|apply NoDup_seq]. intros i j _ _. simpl. lia.
  - apply list_elem_of_fmap. exists (Z.to_nat ((x - a) / 8)). pose proof (Z.div_mod (x - a) 8 ltac:(lia)).
    assert (0 <= (x - a) / 8 < Z.of_nat k) by (split; [apply Z.div_pos; lia|apply Z.div_lt_upper_bound; lia]).
    split; [f_equal; rewrite Z2Nat.id by lia; lia|]. apply elem_of_seq. lia.
Qed.

Definition demo_block : option (Z * words) := Some (65536, zero_block 65536 518).
Definition demo_cache : qd_slab_cache := qd_slab_cache_create 1000 64 0.

Lemma demo_fresh : fresh_pages 4096 ∅ demo_block.
Proof.
  split; [lia|]. split; [done|]. split; [apply map_disjoint_empty_l|]. intros x Hx H8. rewrite header_48 in Hx. eexists.
  apply zero_block_lookup; [lia|]. rewrite Zminus_mod, H8. done.
Qed.

(** After one allocation from a cache of objects of 1000 bytes aligned to 64. *)
Lemma demo_reachable : exists c m, reachable demo_cache c m {[65536 + 48 + 3 * 1024]} /\ slab_size c = 4096.
Proof.
  assert (exists c m, qd_slab_alloc demo_cache demo_block ∅ = Ok (Some (65536 + 48 + 3 * 1024), c, m) /\ slab_size c = 4096) as (c & m & E & Es).
  { assert ((match qd_slab_alloc demo_cache demo_block ∅ with
             | Ok (Some a, c, _) => (a =? 65536 + 48 + 3 * 1024) && (slab_size c =? 4096)
             | _ => false end) = true) as H by (vm_compute; reflexivity).
    destruct (qd_slab_alloc demo_cache demo_block ∅) as [[[[a|] c] m]| |]; try discriminate H.
    apply andb_true_iff in H as [->%Z.eqb_eq H%Z.eqb_eq]. by exists c, m. }
  exists c, m. split; [|done]. rewrite <- (union_empty_r_L {[65536 + 48 + 3 * 1024]}).
  apply (reach_alloc demo_cache demo_cache ∅ ∅ demo_block (Some (65536 + 48 + 3 * 1024)) c m); [apply reach_init|apply demo_fresh|exact E].
Qed.

Lemma slab_alloc_fresh_witness :
  exists r c' m', qd_slab_alloc demo_cache demo_block ∅ = Ok (r, c', m') /\
    match r with
    | None => demo_block = None /\ c' = demo_cache /\ m' = ∅
    | Some a => a ∉ (∅ : gset Z) /\ 1000 <= obj_size demo_cache /\
        (forall b, b ∈ (∅ : gset Z) -> a + obj_size demo_cache <= b \/ b + obj_size demo_cache <= a) /\
        (forall b x, b ∈ (∅ : gset Z) -> b <= x < b + obj_size demo_cache -> x mod 8 = 0 -> m' !! x = (∅ : words) !! x)
    end.
Proof.
  apply (slab_alloc_fresh 1000 64 0 demo_cache ∅ ∅ demo_block).
  - split; [lia|]. right. exists 6. split; [lia|done].
  - apply reach_init.
  - apply demo_fresh.
Defined.

Lemma slab_free_exact_witness :
  exists c m c' m', reachable demo_cache c m {[65536 + 48 + 3 * 1024]} /\ slab_free_checked c (65536 + 48 + 3 * 1024) m = Ok (1, c', m').
Proof.
  destruct demo_reachable as (c & m & HR & _). exists c, m.
  destruct (slab_free_exact 1000 64 0 c m {[65536 + 48 + 3 * 1024]} (65536 + 48 + 3 * 1024)) as (c' & m' & E & _).
  - split; [lia|]. right. exists 6. split; [lia|done].
  - exact HR.
  - set_solver.
  - exists c', m'. split; [exact HR|exact E].
Defined.

Lemma slab_alignment_witness : (65536 + 48 + 3 * 1024) mod 2 ^ 6 = 48 mod 2 ^ 6 /\ 48 mod 2 ^ 6 <> 0.
Proof.
  split; [|done]. destruct demo_reachable as (c & m & HR & _).
  apply (slab_alignment 1000 6 0 c m {[65536 + 48 + 3 * 1024]}); [lia|lia|exact HR|set_solver].
Defined.

(** ** The pool *)

Abbreviation pool_slots p := (slots (p_base p) (p_obj_size p) (Z.to_nat (capacity p))).

(** The pool [p] with the objects [L] in use; [fl] are the free ones. *)
Record pool_inv (p : qd_mempool) (m : words) (L : gset Z) (fl : list Z) : Prop := {
  pi_size : 8 <= p_obj_size p /\ 0 < p_base p /\ 0 <= capacity p < u64_mod;
  pi_chain : chain m (p_freelist p) fl;
  pi_nodup : NoDup fl;
  pi_count : count p = Z.of_nat (length fl) /\ count p + Z.of_nat (size L) = capacity p;
  pi_slots : forall a, a ∈ fl \/ a ∈ L -> a ∈ pool_slots p;
  pi_disj : forall a, a ∈ fl -> a ∉ L;
  pi_words : forall a, a ∈ pool_slots p -> is_Some (m !! a)
}.

(** malloc's block for [k] bytes. *)
Definition fresh_block (m : words) (k : Z) (b : Z) (blk : words) : Prop :=
  0 < b /\ b mod 16 = 0 /\ m ##ₘ blk /\ (forall x, b <= x < b + k -> x mod 8 = 0 -> is_Some (blk !! x)).

(** Objects of up to 2^32 bytes, less than 2^31 of them: the product does not wrap. *)
Inductive pool_run : qd_mempool -> words -> gset Z -> Prop :=
| pool_create k cnt b blk m p m' :
    0 <= k <= 2 ^ 32 -> 0 <= cnt < 2 ^ 31 -> fresh_block m (pool_obj_size k *64 cnt) b blk ->
    qd_mempool_create k cnt (Some (b, blk)) m = Ok (Some p, m') -> pool_run p m' ∅
| pool_alloc p m L r p' :
    pool_run p m L -> qd_mempool_alloc p m = Ok (r, p') -> pool_run p' m (match r with Some a => {[a]} ∪ L | None => L end)
| pool_free p m L a p' m' :
    pool_run p m L -> a ∈ L -> qd_mempool_free p a m = Ok (p', m') -> pool_run p' m' (L ∖ {[a]})
| pool_write p m L a x v :
    pool_run p m L -> a ∈ L -> a <= x < a + p_obj_size p -> pool_run p (<[x := v]> m) L.

Lemma pool_create_inv k cnt b blk m :
  0 <= k <= 2 ^ 32 -> 0 <= cnt < 2 ^ 31 -> fresh_block m (pool_obj_size k *64 cnt) b blk ->
  exists p m' fl, qd_mempool_create k cnt (Some (b, blk)) m = Ok (Some p, m') /\ pool_inv p m' ∅ fl.
Proof.
  intros Hk Hc (Hb & H16 & Hd & Hw). set (o := pool_obj_size k) in *.
  assert (o mod 8 = 0 /\ 8 <= o < 2 ^ 32 + 16) as [Ho8 Ho].
  { unfold o, pool_obj_size. set (k0 := if k <? 8 then 8 else k). assert (8 <= k0 <= 2 ^ 32) by (unfold k0; destruct (Z.ltb_spec k 8); lia).
    destruct (align_bounds 3 k0) as [Hm Hbd]; [lia|lia|unfold_widths; lia|]. change (2 ^ 3) with 8 in *. lia. }
  rewrite u64_small in Hw by (unfold_widths; nia).
  assert (forall a, a ∈ slots b o (Z.to_nat cnt) -> is_Some ((blk ∪ m) !! a)) as Hsl.
  { intros a (i & Hi & ->)%elem_of_slots. apply lookup_union_is_Some. left. rewrite Z2Nat.id in Hi by lia. apply Hw; [nia|].
    apply Z.mod_divide in Ho8 as [y ->]; [|lia]. apply Z.mod_divide in H16 as [x ->]; [|lia].
    replace (x * 16 + i * (y * 8)) with ((x * 2 + i * y) * 8) by ring. apply Z.mod_mul. lia. }
  destruct (build_freelist_ok o (Z.to_nat cnt) b 0 (blk ∪ m) []) as (fl & m' & E & Hch & [_ Hdom]);
    [lia|lia|done|by intros a ?%elem_of_nil|done|].
  rewrite app_nil_r in Hch. exists (mkPool b fl o cnt cnt), m', (reverse (slots b o (Z.to_nat cnt))).
  unfold qd_mempool_create. fold o. rewrite E. split; [done|]. split; simpl.
  - unfold_widths. lia.
  - done.
  - rewrite reverse_Permutation. apply slots_nodup. lia.
  - rewrite length_reverse, slots_length. change (set_size _) with (size (∅ : gset Z)). rewrite size_empty. lia.
  - intros a [Ha|Ha]; [by rewrite elem_of_reverse in Ha|set_solver].
  - set_solver.
  - intros a Ha. by apply Hdom, Hsl.
Qed.

Lemma pool_alloc_inv p m L fl :
  pool_inv p m L fl ->
  match fl with
  | [] => qd_mempool_alloc p m = Ok (None, p)
  | a :: fl' => exists p', qd_mempool_alloc p m = Ok (Some a, p') /\ a ∉ L /\ pool_inv p' m ({[a]} ∪ L) fl' /\ p_obj_size p' = p_obj_size p
  end.
Proof.
  intros [Hs Hc Hn [Hcn Hsz] Hsl Hd Hw]. unfold qd_mempool_alloc. destruct fl as [|a fl]; simpl in Hc; [by rewrite Hc|].
  destruct Hc as (-> & H0 & q & Hq & Hc). destruct (Z.eqb_spec a 0); [done|]. unfold read. rewrite Hq. cbn [of_option obind].
  eexists. split; [reflexivity|]. apply NoDup_cons in Hn as [Hna Hn]. simpl in Hcn. assert (a ∉ L) as HaL by (apply Hd; set_solver).
  split; [done|]. split; [|done]. rewrite u64_small by (unfold is_u64; lia). split; simpl; try done.
  - rewrite size_union by set_solver. rewrite size_singleton. lia.
  - intros x Hx. apply Hsl. set_solver.
  - intros x Hx. specialize (Hd x ltac:(set_solver)). set_solver.
Qed.

Lemma pool_free_inv p m L fl a :
  pool_inv p m L fl -> a ∈ L -> exists p' m', qd_mempool_free p a m = Ok (p', m') /\ pool_inv p' m' (L ∖ {[a]}) (a :: fl) /\
    (forall x, x <> a -> m' !! x = m !! x).
Proof.
  intros [Hs Hc Hn [Hcn Hsz] Hsl Hd Hw] Ha. assert (a ∈ pool_slots p) as Hsa by auto.
  assert (a <> 0) as H0. { apply elem_of_slots in Hsa as (i & Hi & ->). nia. }
  assert (a ∉ fl) as Hnf by (intros Hx; by apply (Hd a)).
  unfold qd_mempool_free. destruct (Z.eqb_spec a 0); [done|]. rewrite write_ok by auto. cbn [obind].
  assert (size ({[a]} : gset Z) <= size L)%nat as Hle by (apply subseteq_size; set_solver). rewrite size_singleton in Hle.
  eexists _, _. split; [reflexivity|]. split; [|intros x Hx; by apply lookup_insert_ne].
  rewrite u64_small by (unfold is_u64; lia). split; simpl; [done| | | | | |].
  - split; [done|]. split; [done|]. exists (p_freelist p). rewrite lookup_insert_eq. split; [done|].
    apply (chain_ext m); [|done]. intros x Hx. apply lookup_insert_ne. congruence.
  - by apply NoDup_cons.
  - rewrite size_difference by set_solver. rewrite size_singleton. lia.
  - intros x Hx. apply Hsl. set_solver.
  - intros x [->|Hx]%elem_of_cons; [set_solver|]. specialize (Hd x Hx). set_solver.
  - intros x Hx. apply (insert_same_outside m a 1); [lia|auto].
Qed.

Lemma pool_slots_apart p a b : 8 <= p_obj_size p ->
  a ∈ pool_slots p -> b ∈ pool_slots p -> a <> b -> a + p_obj_size p <= b \/ b + p_obj_size p <= a.
Proof.
  intros Ho (i & Hi & ->)%elem_of_slots (j & Hj & ->)%elem_of_slots Hne. assert (i <> j) by congruence.
  destruct (Z.lt_ge_cases i j); [left|right]; nia.
Qed.

Lemma pool_run_inv p m L : pool_run p m L -> exists fl, pool_inv p m L fl.
Proof.
  induction 1 as [k cnt b blk m p m' Hk Hc Hf E|p m L r p' _ [fl IH] E|p m L a p' m' _ [fl IH] Ha E|p m L a x v _ [fl IH] Ha Hx].
  - destruct (pool_create_inv k cnt b blk m Hk Hc Hf) as (p1 & m1 & fl & E1 & HI). exists fl. congruence.
  - pose proof (pool_alloc_inv p m L fl IH) as H. destruct fl as [|a fl].
    { rewrite H in E. injection E as <- <-. by exists []. }
    destruct H as (p1 & E1 & _ & HI & _). exists fl. rewrite E1 in E. by injection E as <- <-.
  - destruct (pool_free_inv p m L fl a IH Ha) as (p1 & m1 & E1 & HI & _). exists (a :: fl). rewrite E1 in E. by injection E as <- <-.
  - exists fl. destruct IH as [Hs Hc Hn Hcn Hsl Hd Hw]. split; try done.
    + apply (chain_ext m); [|done]. intros y Hy. apply lookup_insert_ne.
      assert (a <> y) as Hne by (intros ->; by apply (Hd y)).
      destruct (pool_slots_apart p a y (proj1 Hs) (Hsl a (or_intror Ha)) (Hsl y (or_introl Hy)) Hne); lia.
    + intros y Hy. destruct (decide (x = y)) as [->|]; [by rewrite lookup_insert_eq|]. rewrite lookup_insert_ne by done. auto.
Qed.

(** In every pool that calls reach, an allocation gives NULL exactly when all objects
    are in use; else an object that is not in use and overlaps none that is; the count is
    the number of free objects, and an object in use can always be given back. *)
Theorem mempool_exact p m L :
  pool_run p m L ->
  count p = capacity p - Z.of_nat (size L) /\
  (exists r p', qd_mempool_alloc p m = Ok (r, p') /\ (r = None <-> Z.of_nat (size L) = capacity p) /\
    (forall a, r = Some a -> a ∉ L /\ forall b, b ∈ L -> a + p_obj_size p <= b \/ b + p_obj_size p <= a)) /\
  (forall a, a ∈ L -> exists p' m', qd_mempool_free p a m = Ok (p', m') /\ count p' = count p + 1 /\
    forall x, x <> a -> m' !! x = m !! x).
Proof.
  intros [fl HI]%pool_run_inv. pose proof HI as [Hs _ Hn [Hcn Hsz] Hsl Hd _]. split; [lia|]. split.
  - pose proof (pool_alloc_inv p m L fl HI) as H. destruct fl as [|a fl]; simpl in *.
    + exists None, p. split; [done|]. split; [|done]. split; [lia|done].
    + destruct H as (p' & E & Ha & HI' & _). exists (Some a), p'. split; [done|]. split; [split; [done|lia]|].
      intros ? [= <-]. split; [done|]. intros b Hb. apply pool_slots_apart; [lia|apply Hsl; set_solver|apply Hsl; by right|].
      intros ->. done.
  - intros a Ha. destruct (pool_free_inv p m L fl a HI Ha) as (p' & m' & E & HI' & Hk). exists p', m'. split; [done|]. split; [|done].
    destruct HI' as [_ _ _ [Hc' _] _ _ _]. simpl in Hc'. lia.
Qed.

Definition demo_pool : qd_mempool := mkPool 65536 65568 16 3 3.

Lemma mempool_exact_witness :
  exists m, pool_run demo_pool m ∅ /\ exists r p', qd_mempool_alloc demo_pool m = Ok (r, p') /\ (r = None <-> Z.of_nat (size (∅ : gset Z)) = 3).
Proof.
  assert (exists m, qd_mempool_create 12 3 (Some (65536, zero_block 65536 6)) ∅ = Ok (Some demo_pool, m)) as [m E].
  { eexists. vm_compute. reflexivity. }
  assert (pool_run demo_pool m ∅) as HR.
  { apply (pool_create 12 3 65536 (zero_block 65536 6) ∅ demo_pool m); [lia|lia| |exact E].
    split; [lia|]. split; [done|]. split; [apply map_disjoint_empty_l|]. intros x Hx H8. eexists.
    change (pool_obj_size 12 *64 3) with 48 in Hx. apply zero_block_lookup; [lia|]. rewrite Zminus_mod, H8. done. }
  exists m. split; [exact HR|]. destruct (mempool_exact demo_pool m ∅ HR) as (_ & (r & p' & Ea & Hr & _) & _).
  exists r, p'. split; [exact Ea|exact Hr].
Defined.

(** The product of size and count is not checked: for 2^61 objects of 8 bytes
    malloc is asked for 0 bytes, and the first link is written outside the block. *)
Theorem mempool_create_overflow m b :
  m !! b = None -> pool_obj_size 8 *64 2 ^ 61 = 0 /\ qd_mempool_create 8 (2 ^ 61) (Some (b, ∅)) m = Undef.
Proof.
  intros Hb. split; [reflexivity|]. unfold qd_mempool_create.
  destruct (Z.to_nat (2 ^ 61)) as [|k] eqn:E; [lia|]. cbn [build_freelist]. unfold write. rewrite map_empty_union, Hb. done.
Qed.

Lemma mempool_create_overflow_witness : qd_mempool_create 8 (2 ^ 61) (Some (65536, ∅)) ∅ = Undef.
Proof. apply (mempool_create_overflow ∅ 65536). reflexivity. Defined.
