(* ===== verification/Malloc.v ===== *)
(** * src/core/qd_memory.c: the general allocator

    qd_malloc, qd_free, qd_realloc and the calls built on them.  A block is an object
    of one of twelve slab caches, or a block of malloc; a header of 32 bytes in front of
    it says which.  The headers and the bytes of the blocks are words of the memory of
    Slab.v; the structures of the caches and of the slabs are records, found by their
    address.  The answers of calloc, mmap and malloc are arguments.  Calls are made one
    after the other, and QD_MEMORY_DISABLE_SLAB is not defined. *)

From S2P Require Import Prelude Common Slab.

Definition size_classes : list Z := [8; 16; 32; 64; 128; 256; 512; 1024; 2048; 4096; 8192; 16384].

Definition QD_ALLOC_MAGIC : Z := 0x51444D48.
Definition QD_ALLOC_FLAG_SLAB : Z := 1.
Definition QD_ALLOC_FLAG_HEAP : Z := 2.
Definition QD_MAX_ALIGN : Z := 16.

(** sizeof(qd_alloc_header_t) is 32. *)
Definition qd_alloc_header_size : Z := QD_ALIGN 32 QD_MAX_ALIGN.

(** [caches] holds the address and the structure of each cache, [None] for NULL. *)
Record g_memory := mkMem {
  initialized : bool; total_allocated : Z; total_freed : Z; peak_usage : Z;
  slab_allocations : Z; heap_allocations : Z;
  caches : list (option (Z * qd_slab_cache)); num_caches : Z
}.

(** The process: the allocator, whether g_memory_once has run, the words, and the words
    that malloc gave for each of its blocks. *)
Record process := mkProc { gm : g_memory; once : bool; ws : words; heap : gmap Z words }.

Definition set_caches (g : g_memory) (i : bool) (cs : list (option (Z * qd_slab_cache))) (n : Z) : g_memory :=
  mkMem i (total_allocated g) (total_freed g) (peak_usage g) (slab_allocations g) (heap_allocations g) cs n.

Definition g_memory_0 : g_memory := mkMem false 0 0 0 0 0 (replicate 12 None) 0.
Definition process_0 : process := mkProc g_memory_0 false ∅ ∅.

(** ** Start and end *)

Fixpoint find_class (i : Z) (classes : list Z) (size : Z) : Z :=
  match classes with
  | [] => -1
  | c :: classes => if size <=? c then i else find_class (i + 1) classes size
  end.
Definition find_size_class (size : Z) : Z := find_class 0 size_classes size.

(** Every slab of the cache is unmapped. *)
Definition qd_slab_cache_destroy (c : qd_slab_cache) (m : words) : words :=
  foldl (fun m s => slab_destroy c s m) m (slabs_full c ++ slabs_partial c ++ slabs_empty c).

Fixpoint destroy_caches (cs : list (option (Z * qd_slab_cache))) (m : words) : words :=
  match cs with
  | [] => m
  | None :: cs => destroy_caches cs m
  | Some (_, c) :: cs => destroy_caches cs (qd_slab_cache_destroy c m)
  end.

(** The loop that creates the caches; [done] are those that are there, [ans] what calloc
    gives for the structure of each.  When it fails the caches are destroyed; the entries
    that were not reached keep what they held. *)
Fixpoint create_caches (classes : list Z) (ans : list (option Z)) (done old : list (option (Z * qd_slab_cache))) (m : words)
  : bool * list (option (Z * qd_slab_cache)) * words :=
  match classes with
  | [] => (true, done, m)
  | size :: classes =>
    match ans with
    | Some a :: ans => create_caches classes ans (done ++ [Some (a, qd_slab_cache_create size QD_MAX_ALIGN 0)]) (tail old) m
    | _ => (false, map (fun _ => None) done ++ None :: tail old, destroy_caches done m)
    end
  end.

Definition qd_memory_init (ans : list (option Z)) (p : process) : Z * process :=
  if initialized (gm p) then (0, p) else
  let '(ok, cs, m) := create_caches size_classes ans [] (caches (gm p)) (ws p) in
  if ok : bool then (0, mkProc (set_caches (gm p) true cs 12) (once p) m (heap p))
  else (-1, mkProc (set_caches (gm p) false cs (num_caches (gm p))) (once p) m (heap p)).

Definition qd_memory_shutdown (p : process) : process :=
  if negb (initialized (gm p)) then p else
  let n := Z.to_nat (num_caches (gm p)) in
  let cs := map (fun _ => None) (take n (caches (gm p))) ++ drop n (caches (gm p)) in
  mkProc (set_caches (gm p) false cs 0) (once p) (destroy_caches (take n (caches (gm p))) (ws p)) (heap p).

(** pthread_once(&g_memory_once, qd_memory_init_once) *)
Definition memory_once (ans : list (option Z)) (p : process) : process :=
  if once p then p
  else let p := snd (qd_memory_init ans p) in mkProc (gm p) true (ws p) (heap p).

(** ** Bytes: the words are little endian *)

Definition word_of (a : Z) : Z := 8 * (a / 8).
Definition byte_shift (a : Z) : Z := 8 * (a mod 8).
Definition load_byte (m : words) (a : Z) : outcome Z :=
  let! w := read m (word_of a) in Ok (Z.land (Z.shiftr w (byte_shift a)) 255).
Definition store_byte (m : words) (a v : Z) : outcome words :=
  let! w := read m (word_of a) in
  write m (word_of a) (Z.lor (Z.ldiff w (Z.shiftl 255 (byte_shift a))) (Z.shiftl (u8 v) (byte_shift a))).

Fixpoint memset (m : words) (a v : Z) (n : nat) : outcome words :=
  match n with O => Ok m | S n => let! m := store_byte m a v in memset m (a + 1) v n end.

Fixpoint memcpy (m : words) (dst src : Z) (n : nat) : outcome words :=
  match n with
  | O => Ok m
  | S n => let! b := load_byte m src in let! m := store_byte m dst b in memcpy m (dst + 1) (src + 1) n
  end.

(** The number of bytes before the first zero, at most [n]. *)
Fixpoint strnlen (m : words) (a : Z) (n : nat) : outcome Z :=
  match n with
  | O => Ok 0
  | S n => let! b := load_byte m a in if b =? 0 then Ok 0 else let! k := strnlen m (a + 1) n in Ok (1 + k)
  end.

Fixpoint strlen (fuel : nat) (m : words) (a : Z) : outcome Z :=
  match fuel with
  | O => Fuel
  | S fuel => let! b := load_byte m a in if b =? 0 then Ok 0 else let! k := strlen fuel m (a + 1) in Ok (1 + k)
  end.

(** ** Allocation *)

(** The header: magic, flags and reserved in the first word. *)
Definition write_header (m : words) (hdr fl size cache slab : Z) : outcome words :=
  let! m := write m hdr (QD_ALLOC_MAGIC + Z.shiftl fl 32) in
  let! m := write m (hdr + 8) size in
  let! m := write m (hdr + 16) cache in
  write m (hdr + 24) slab.

Definition hdr_flags (w : Z) : Z := Z.land (Z.shiftr w 32) 0xFFFF.

Definition count_slab (g : g_memory) (size : Z) (cs : list (option (Z * qd_slab_cache))) : g_memory :=
  mkMem (initialized g) (total_allocated g +64 size) (total_freed g) (peak_usage g)
    (slab_allocations g +64 1) (heap_allocations g) cs (num_caches g).
Definition count_heap (g : g_memory) (size : Z) : g_memory :=
  mkMem (initialized g) (total_allocated g +64 size) (total_freed g) (peak_usage g)
    (slab_allocations g) (heap_allocations g +64 1) (caches g) (num_caches g).
Definition count_freed (g : g_memory) (cs : list (option (Z * qd_slab_cache))) : g_memory :=
  mkMem (initialized g) (total_allocated g) (total_freed g +64 1) (peak_usage g)
    (slab_allocations g) (heap_allocations g) cs (num_caches g).

(** What the system answers during one call. *)
Record answers := mkAns { a_caches : list (option Z); a_pages : option (Z * words); a_block : option (Z * words) }.

(** The attempt with a slab cache; NULL is 0. *)
Definition malloc_slab (size alloc_size : Z) (pages : option (Z * words)) (p : process) : outcome (Z * process) :=
  if initialized (gm p) then
    let class_idx := find_size_class alloc_size in
    if 0 <=? class_idx then
      let i := Z.to_nat class_idx in
      match caches (gm p) !! i with
      | None => Undef
      | Some None => Ok (0, p)
      | Some (Some (cache, c)) =>
        let! (r, c, m) := qd_slab_alloc_internal c pages (ws p) in
        let p := mkProc (gm p) (once p) m (heap p) in
        match r with
        | None => Ok (0, p)
        | Some (obj, slab_base) =>
          let! m := write_header m obj QD_ALLOC_FLAG_SLAB size cache (slab_base - header_size) in
          Ok (obj + qd_alloc_header_size,
              mkProc (count_slab (gm p) size (<[i := Some (cache, c)]> (caches (gm p)))) (once p) m (heap p))
        end
      end
    else Ok (0, p)
  else Ok (0, p).

Definition malloc_heap (size : Z) (block : option (Z * words)) (p : process) : outcome (Z * process) :=
  match block with
  | None => Ok (0, p)
  | Some (base, blk) =>
    let! m := write_header (blk ∪ ws p) base QD_ALLOC_FLAG_HEAP size 0 0 in
    Ok (base + qd_alloc_header_size, mkProc (count_heap (gm p) size) (once p) m (<[base := blk]> (heap p)))
  end.

Definition qd_malloc (size : Z) (ans : answers) (p : process) : outcome (Z * process) :=
  if size =? 0 then Ok (0, p) else
  let p := memory_once (a_caches ans) p in
  if (u64_mod - 1) - qd_alloc_header_size <? size then Ok (0, p) else
  let alloc_size := size +64 qd_alloc_header_size in
  let! (obj, p) := malloc_slab size alloc_size (a_pages ans) p in
  if negb (obj =? 0) then Ok (obj, p) else malloc_heap size (a_block ans) p.

(** ** Release *)

Definition with_addr (a : Z) (o : option (Z * qd_slab_cache)) : bool :=
  match o with Some (b, _) => b =? a | None => false end.

(** The cache at an address. *)
Definition cache_at (cs : list (option (Z * qd_slab_cache))) (a : Z) : outcome (nat * qd_slab_cache) :=
  match list_find (with_addr a) cs with Some (i, Some (_, c)) => Ok (i, c) | _ => Undef end.
(** The slab whose structure is at an address. *)
Definition slab_at (c : qd_slab_cache) (a : Z) : outcome qd_slab :=
  of_option (List.find (fun s => sbase s - header_size =? a) (slabs_full c ++ slabs_partial c ++ slabs_empty c)).

Definition free_slab (hdr cache slab : Z) (p : process) : outcome process :=
  let! (i, c) := cache_at (caches (gm p)) cache in
  let! s := slab_at c slab in
  let! (c, m) := if slab_ptr_matches c s hdr then slab_free_locked c s hdr (ws p) else Ok (c, ws p) in
  Ok (mkProc (count_freed (gm p) (<[i := Some (cache, c)]> (caches (gm p)))) (once p) m (heap p)).

(** free *)
Definition libc_free (a : Z) (p : process) : outcome process :=
  match heap p !! a with
  | None => Undef
  | Some blk => Ok (mkProc (gm p) (once p) (ws p ∖ blk) (delete a (heap p)))
  end.

(** [free(hdr)] and the statistics. *)
Definition free_heap (hdr : Z) (p : process) : outcome process :=
  let! p := libc_free hdr p in Ok (mkProc (count_freed (gm p) (caches (gm p))) (once p) (ws p) (heap p)).

Definition qd_free (ptr : Z) (p : process) : outcome process :=
  if ptr =? 0 then Ok p else
  let hdr := ptr - qd_alloc_header_size in
  let! w := read (ws p) hdr in
  if negb (Z.land (hdr_flags w) QD_ALLOC_FLAG_SLAB =? 0) then
    let! cache := read (ws p) (hdr + 16) in
    let! slab := read (ws p) (hdr + 24) in
    if negb (cache =? 0) && negb (slab =? 0) then free_slab hdr cache slab p else free_heap hdr p
  else free_heap hdr p.

(** ** The calls built on them *)

Definition qd_calloc (nmemb size : Z) (ans : answers) (p : process) : outcome (Z * process) :=
  let total := nmemb *64 size in
  let! (ptr, p) := qd_malloc total ans p in
  if ptr =? 0 then Ok (0, p) else
  let! m := memset (ws p) ptr 0 (Z.to_nat total) in Ok (ptr, mkProc (gm p) (once p) m (heap p)).

Definition qd_realloc (ptr size : Z) (ans : answers) (p : process) : outcome (Z * process) :=
  if ptr =? 0 then qd_malloc size ans p else
  if size =? 0 then let! p := qd_free ptr p in Ok (0, p) else
  let! (new_ptr, p) := qd_malloc size ans p in
  if new_ptr =? 0 then Ok (0, p) else
  let! old_size := read (ws p) (ptr - qd_alloc_header_size + 8) in
  let copy_size := if old_size <? size then old_size else size in
  let! m := memcpy (ws p) new_ptr ptr (Z.to_nat copy_size) in
  let! p := qd_free ptr (mkProc (gm p) (once p) m (heap p)) in
  Ok (new_ptr, p).

Definition qd_memdup (src size : Z) (ans : answers) (p : process) : outcome (Z * process) :=
  if (src =? 0) || (size =? 0) then Ok (0, p) else
  let! (copy, p) := qd_malloc size ans p in
  if copy =? 0 then Ok (0, p) else
  let! m := memcpy (ws p) copy src (Z.to_nat size) in Ok (copy, mkProc (gm p) (once p) m (heap p)).

Definition qd_strdup (fuel : nat) (str : Z) (ans : answers) (p : process) : outcome (Z * process) :=
  if str =? 0 then Ok (0, p) else
  let! n := strlen fuel (ws p) str in qd_memdup str (n +64 1) ans p.

Definition qd_strndup (str n : Z) (ans : answers) (p : process) : outcome (Z * process) :=
  if str =? 0 then Ok (0, p) else
  let! len := strnlen (ws p) str (Z.to_nat n) in
  let! (copy, p) := qd_malloc (len +64 1) ans p in
  if copy =? 0 then Ok (0, p) else
  let! m := memcpy (ws p) copy str (Z.to_nat len) in
  let! m := store_byte m (copy + len) 0 in Ok (copy, mkProc (gm p) (once p) m (heap p)).

(** posix_memalign and free: no header, no statistics. *)
Definition qd_aligned_alloc (block : option (Z * words)) (p : process) : Z * process :=
  match block with
  | None => (0, p)
  | Some (base, blk) => (base, mkProc (gm p) (once p) (blk ∪ ws p) (<[base := blk]> (heap p)))
  end.
Definition qd_aligned_free (ptr : Z) (p : process) : outcome process :=
  if ptr =? 0 then Ok p else libc_free ptr p.

Record qd_memory_stats_t := mkStats {
  s_allocated : Z; s_freed : Z; current_usage : Z; s_peak : Z; s_slab : Z; s_heap : Z
}.
Definition qd_memory_stats (p : process) : qd_memory_stats_t :=
  let g := gm p in
  mkStats (total_allocated g) (total_freed g) (total_allocated g -64 total_freed g) (peak_usage g)
    (slab_allocations g) (heap_allocations g).

(** ** The allocator at work *)

Definition demo_caches : list (option Z) := map (fun i => Some (1000 + 200 * Z.of_nat i)) (seq 0 12).
Definition demo_ans : answers := mkAns demo_caches (Some (65536, zero_block 65536 518)) (Some (131072, zero_block 131072 4)).

Example malloc_ex :
  (let! (a, p) := qd_malloc 100 demo_ans process_0 in
   let! m := memset (ws p) a 7 100 in
   let p := mkProc (gm p) (once p) m (heap p) in
   let! (b, p) := qd_realloc a 200 (mkAns [] (Some (196608, zero_block 196608 518)) None) p in
   let! x := load_byte (ws p) (b + 99) in
   let! (c, p) := qd_malloc 17000 (mkAns [] None (Some (262144, zero_block 262144 2129))) p in
   let! p := qd_free b p in
   let! p := qd_free c p in
   Ok (a, b, c, x, qd_memory_stats p, size (ws p)))
  = Ok (65536 + 48 + 256 * 15 + 32, 65536 + 48 + 256 * 14 + 32, 262144 + 32, 7, mkStats 17300 3 17297 0 2 1, 518%nat).
Proof. vm_compute. reflexivity. Qed.
