(* ===== verification/MallocFrame.v ===== *)
(** * The general allocator: memory in parts

    The memory of the process is the disjoint union of a part for each slab cache and
    one for malloc.  An operation that runs on its part runs on any larger memory and
    leaves the rest alone. *)

From S2P Require Import Prelude Common Slab Malloc.

(** ** Locality *)

(** The result of [op] on a part of memory is its result on the whole. *)
Definition local {A} (op : words -> outcome (A * words)) (f : words) : Prop :=
  forall m r m', m ##ₘ f -> op m = Ok (r, m') -> op (m ∪ f) = Ok (r, m' ∪ f) /\ m' ##ₘ f.
Definition local_w (op : words -> outcome words) (f : words) : Prop :=
  forall m m', m ##ₘ f -> op m = Ok m' -> op (m ∪ f) = Ok (m' ∪ f) /\ m' ##ₘ f.

Lemma read_local m f a v : read m a = Ok v -> read (m ∪ f) a = Ok v.
Proof. unfold read. destruct (m !! a) as [w|] eqn:E; [|done]. by rewrite (lookup_union_Some_l _ _ _ _ E). Qed.

Lemma write_local a v f : local_w (fun m => write m a v) f.
Proof.
  intros m m' Hd. unfold write. destruct (m !! a) as [w|] eqn:E; [|done]. intros [= <-].
  rewrite (lookup_union_Some_l _ _ _ _ E). split; [by rewrite insert_union_l|].
  apply map_disjoint_insert_l_2; [|done]. by eapply map_disjoint_Some_l.
Qed.

Lemma fill_local n : forall a v f, local_w (fun m => fill m a n v) f.
Proof.
  induction n as [|n IH]; intros a v f m m' Hd; simpl; [by intros [= <-]|].
  intros (m1 & E1 & E2)%obind_ok. destruct (write_local a v f m m1 Hd E1) as [-> Hd1]. by apply (IH (a + 8) v f m1).
Qed.

Lemma build_local n : forall obj sz fl f, local (build_freelist n obj sz fl) f.
Proof.
  induction n as [|n IH]; intros obj sz fl f m r m' Hd; simpl; [by intros [= <- <-]|].
  intros (m1 & E1 & E2)%obind_ok. destruct (write_local obj fl f m m1 Hd E1) as [-> Hd1]. by apply (IH _ _ _ f m1).
Qed.

(** The fill that a flag of the cache asks for. *)
Lemma fill_if_local (b : bool) a n v f : local_w (fun m => if b then fill m a n v else Ok m) f.
Proof. destruct b; [apply fill_local|]. intros m m' Hd. by intros [= <-]. Qed.

Lemma slab_free_local c s p f : local (slab_free_locked c s p) f.
Proof.
  intros m r m' Hd. unfold slab_free_locked. intros (m1 & E1 & H)%obind_ok.
  destruct (fill_if_local _ _ _ _ f m m1 Hd E1) as [-> Hd1]. apply obind_ok in H as (m2 & E2 & H).
  cbn [obind]. destruct (write_local _ _ f m1 m2 Hd1 E2) as [-> Hd2]. cbn [obind].
  apply obind_ok in H as (c1 & -> & [= <- <-]). done.
Qed.

(** The pages that mmap gives are away from the rest. *)
Definition away (ans : option (Z * words)) (f : words) : Prop :=
  match ans with Some (_, blk) => blk ##ₘ f | None => True end.

Lemma choose_local c ans f : away ans f -> forall m r c' m', m ##ₘ f ->
  choose_slab c ans m = Ok (r, c', m') -> choose_slab c ans (m ∪ f) = Ok (r, c', m' ∪ f) /\ m' ##ₘ f.
Proof.
  intros Ha m r c' m' Hd. unfold choose_slab. destruct (slabs_partial c); [|by intros [= <- <- <-]].
  destruct (slabs_empty c); [|by intros [= <- <- <-]]. unfold slab_create. destruct ans as [[pg blk]|]; [|by intros [= <- <- <-]].
  simpl in Ha. intros ([r1 m1] & H & E)%obind_ok. apply obind_ok in H as ([fl m2] & E2 & [= <- <-]). injection E as <- <- <-.
  apply (build_local _ _ _ _ f) in E2 as [E3 Hd3]; [|by apply map_disjoint_union_l_2].
  rewrite <- map_union_assoc in E3. rewrite E3. done.
Qed.

Lemma alloc_local c ans f : away ans f -> forall m r c' m', m ##ₘ f ->
  qd_slab_alloc_internal c ans m = Ok (r, c', m') -> qd_slab_alloc_internal c ans (m ∪ f) = Ok (r, c', m' ∪ f) /\ m' ##ₘ f.
Proof.
  intros Ha m r c' m' Hd. unfold qd_slab_alloc_internal. intros ([[r1 c1] m1] & E1 & H)%obind_ok.
  destruct (choose_local c ans f Ha m r1 c1 m1 Hd E1) as [-> Hd1]. cbn [obind]. destruct r1 as [s|]; [|by injection H as <- <- <-].
  unfold alloc_from in *. apply obind_ok in H as (nxt & E2 & H). rewrite (read_local _ f _ _ E2). cbn [obind].
  apply obind_ok in H as (c2 & -> & H). cbn [obind]. apply obind_ok in H as (m2 & E3 & [= <- <- <-]).
  by destruct (fill_if_local _ _ _ _ f m1 m2 Hd1 E3) as [-> Hd2].
Qed.

Lemma header_local hdr fl size cache slab f : local_w (fun m => write_header m hdr fl size cache slab) f.
Proof.
  intros m m' Hd. unfold write_header. intros (m1 & E1 & H)%obind_ok. destruct (write_local _ _ f _ _ Hd E1) as [-> Hd1].
  apply obind_ok in H as (m2 & E2 & H). cbn [obind]. destruct (write_local _ _ f _ _ Hd1 E2) as [-> Hd2].
  apply obind_ok in H as (m3 & E3 & H). cbn [obind]. destruct (write_local _ _ f _ _ Hd2 E3) as [-> Hd3]. cbn [obind].
  by apply (write_local _ _ f).
Qed.

(** ** Parts *)

(** The memory [m] is divided into [parts]. *)
Record owns (m : words) (parts : list words) : Prop := {
  ow_all : forall x v, m !! x = Some v <-> exists i q, parts !! i = Some q /\ q !! x = Some v;
  ow_apart : forall i j q r, i <> j -> parts !! i = Some q -> parts !! j = Some r -> q ##ₘ r
}.

(** One part and the rest; the part may change. *)
Lemma owns_focus m parts i q : owns m parts -> parts !! i = Some q ->
  exists f, m = q ∪ f /\ q ##ₘ f /\ (forall q', q' ##ₘ f -> owns (q' ∪ f) (<[i := q']> parts)) /\
    (forall j r, i <> j -> parts !! j = Some r -> r ⊆ f).
Proof.
  intros [Ha Hd] Hi. assert (q ⊆ m) as Hq by (apply map_subseteq_spec; intros x v Hx; apply Ha; eauto).
  assert (forall x v, (m ∖ q) !! x = Some v <-> exists j r, i <> j /\ parts !! j = Some r /\ r !! x = Some v) as Hf.
  { intros x v. rewrite lookup_difference_Some, Ha. split.
    - intros [(j & r & Hj & Hx) Hn]. exists j, r. split; [|done]. intros ->. congruence.
    - intros (j & r & Hne & Hj & Hx). split; [eauto|]. destruct (q !! x) as [w|] eqn:E; [|done]. exfalso.
      by apply (map_disjoint_spec q r) with x w v in E; [|by apply (Hd i j)|]. }
  exists (m ∖ q). split; [symmetry; by apply map_difference_union|]. split; [by apply map_disjoint_difference_r1|]. split.
  - intros q' Hq'. split.
    + intros x v. rewrite lookup_union_Some, Hf by done. split.
      * intros [Hx|(j & r & Hne & Hj & Hx)]; [exists i, q'|exists j, r; by rewrite list_lookup_insert_ne].
        split; [|done]. apply list_lookup_insert_eq. by eapply lookup_lt_Some.
      * intros (j & r & Hj & Hx). apply list_lookup_insert_Some in Hj as [(<- & <- & _)|[Hne Hj]]; [by left|]. right; eauto.
    + assert (forall j r, i <> j -> parts !! j = Some r -> q' ##ₘ r) as Hr.
      { intros j r Hne Hj. apply map_disjoint_spec. intros x v w Hv Hw. apply (map_disjoint_spec q' (m ∖ q)) with x v w in Hq'; [done|done|].
        apply Hf. eauto. }
      intros j k r s Hne. intros [(<- & <- & _)|[Hj Ej]]%list_lookup_insert_Some [(<- & <- & _)|[Hk Ek]]%list_lookup_insert_Some; [done|by eauto| |by eauto].
      symmetry. by eapply Hr.
  - intros j r Hne Hj. apply map_subseteq_spec. intros x v Hx. apply Hf. eauto.
Qed.

Lemma owns_sub m parts i q : owns m parts -> parts !! i = Some q -> q ⊆ m.
Proof. intros [Ha _] Hi. apply map_subseteq_spec. intros x v Hx. apply Ha. eauto. Qed.
