(* ===== verification/MallocInv.v ===== *)
(** * The general allocator: the invariant

    The blocks in use and where they are; every operation of the allocator keeps the
    invariant and the words of the blocks it is not asked about. *)

From S2P Require Import Prelude Common Slab Malloc MallocFrame.

(** ** Objects of one cache *)

(** The object [a] is in the slab with base [b]. *)
Definition home (c : qd_slab_cache) (a b : Z) : Prop :=
  exists s, s ∈ all c /\ sbase s = b /\ a ∈ slots b (obj_size c) (objects c).

Lemma home_mono c c' a b : same_cache c c' -> sbase <$> all c ⊆ sbase <$> all c' -> home c a b -> home c' a b.
Proof.
  intros Hsc Hsub (s & Hs & <- & Ha). destruct (same_cache_objects c c' Hsc) as (E1 & _ & E3).
  assert (sbase s ∈ sbase <$> all c') as (t & Et & Ht)%list_elem_of_fmap by (apply Hsub; by apply list_elem_of_fmap_2).
  exists t. rewrite E1, E3. done.
Qed.

(** An allocation also tells the slab of the object. *)
Lemma cache_alloc c m L ans :
  cache_ok c m L -> fresh_pages (slab_size c) m ans ->
  exists r c' m', qd_slab_alloc_internal c ans m = Ok (r, c', m') /\
    match r with
    | None => ans = None /\ c' = c /\ m' = m
    | Some (a, b) => a ∉ L /\ cache_ok c' m' ({[a]} ∪ L) /\ same_cache c c' /\ keeps (obj_size c) (fun y => y ∈ L) m m' /\
        home c' a b /\ (forall x y, home c x y -> home c' x y)
    end.
Proof.
  intros Hok Hf. destruct (alloc_step c m L ans Hok Hf) as (r0 & c0 & m0 & E0 & H0).
  pose proof Hok as (Hg & F & HI & _). destruct (alloc_ok _ _ _ Hg c m F ans HI Hf) as (r & c' & m' & E & Hr).
  unfold qd_slab_alloc in E0. rewrite E in E0. injection E0 as <- <- <-. exists r, c', m'. split; [done|].
  destruct r as [[a b]|]; simpl in H0; [|done]. destruct H0 as (? & ? & Hsc & ?).
  destruct Hr as (F' & _ & _ & _ & _ & _ & _ & (s & Hs & <- & Ha) & Hsub). repeat (split; [done|]). split.
  - exists s. destruct (same_cache_objects c c' Hsc) as (-> & _ & ->). done.
  - intros x y. by apply home_mono.
Qed.

(** Releasing an object through the slab of its header. *)
Lemma cache_free c m L a b :
  cache_ok c m L -> a ∈ L -> home c a b ->
  exists s c' m', slab_at c (b - header_size) = Ok s /\ slab_ptr_matches c s a = true /\ slab_free_locked c s a m = Ok (c', m') /\
    cache_ok c' m' (L ∖ {[a]}) /\ same_cache c c' /\ keeps (obj_size c) (fun y => y ∈ L ∖ {[a]}) m m' /\
    (forall x y, home c x y -> home c' x y).
Proof.
  intros Hok Ha (s & Hs & <- & Hb). destruct (free_step c m L a Hok Ha) as (c0 & m0 & E0 & H1 & Hsc & H3).
  pose proof Hok as (Hg & F & HI & HL & _). destruct (free_ok _ _ _ Hg c m F a HI) as (c' & m' & F' & E & _ & _ & _ & _ & _ & Hbs); [by apply HL|].
  rewrite E in E0. injection E0 as <- <-. pose proof (find_by_ptr_ok _ _ _ Hg c m F s a HI Hs Hb) as Ef.
  exists s, c', m'. split; [|split].
  - unfold slab_at. rewrite (find_unique _ _ _ Hg _ _ s); [done|done|lia|]. intros t Ht Et. destruct HI as [_ HS _ _ _].
    apply (base_inj _ _ _ m F (all c) t s HS); [done|done|lia].
  - unfold slab_find_by_ptr in Ef. apply List.find_some in Ef as [_ [_ ?]%andb_true_iff]. done.
  - unfold slab_free_checked in E. rewrite Ef in E. destruct (a =? 0); [done|].
    destruct (slab_free_locked c s a m) as [[c1 m1]| |]; [|done..]. injection E as <- <-.
    repeat (split; [done|]). intros x y. apply home_mono; [done|]. by rewrite Hbs.
Qed.

(** ** Headers *)

Definition header_at (m : words) (hdr fl size cache slab : Z) : Prop :=
  m !! hdr = Some (QD_ALLOC_MAGIC + Z.shiftl fl 32) /\ m !! (hdr + 8) = Some size /\
  m !! (hdr + 16) = Some cache /\ m !! (hdr + 24) = Some slab.

Lemma write_header_ok m hdr fl size cache slab :
  (forall k, 0 <= k < 4 -> is_Some (m !! (hdr + 8 * k))) ->
  exists m', write_header m hdr fl size cache slab = Ok m' /\ header_at m' hdr fl size cache slab /\ same_outside hdr 32 m m'.
Proof.
  intros H. pose proof (H 0 ltac:(lia)) as H0. pose proof (H 1 ltac:(lia)) as H1. pose proof (H 2 ltac:(lia)) as H2. pose proof (H 3 ltac:(lia)) as H3.
  rewrite Z.mul_0_r, Z.add_0_r in H0. change (8 * 1) with 8 in H1. change (8 * 2) with 16 in H2. change (8 * 3) with 24 in H3.
  unfold write_header. rewrite write_ok by done. cbn [obind]. rewrite write_ok by (rewrite lookup_insert_ne by lia; done). cbn [obind].
  rewrite write_ok by (rewrite !lookup_insert_ne by lia; done). cbn [obind]. rewrite write_ok by (rewrite !lookup_insert_ne by lia; done).
  eexists. split; [reflexivity|]. split.
  - split; [|split; [|split]]; repeat (rewrite lookup_insert_ne by lia); apply lookup_insert_eq.
  - split.
    + intros x Hx. by rewrite !lookup_insert_ne by lia.
    + intros x Hx. rewrite !lookup_insert_is_Some'. auto.
Qed.

Lemma header_keep m m' hdr fl size cache slab :
  (forall k, 0 <= k < 4 -> m' !! (hdr + 8 * k) = m !! (hdr + 8 * k)) ->
  header_at m hdr fl size cache slab -> header_at m' hdr fl size cache slab.
Proof.
  intros H (H0 & H1 & H2 & H3). pose proof (H 0 ltac:(lia)) as E. rewrite Z.mul_0_r, Z.add_0_r in E.
  split; [by rewrite E|]. split; [by rewrite <- H1; apply (H 1)|]. split; [by rewrite <- H2; apply (H 2)|by rewrite <- H3; apply (H 3)].
Qed.

(** ** The invariant *)

(** Where a block is; the part of memory it belongs to. *)
Inductive place := InSlab (i : nat) | InHeap.
#[export] Instance place_eq_dec : EqDecision place.
Proof. solve_decision. Defined.
Definition part_of (k : place) : nat := match k with InSlab i => i | InHeap => 12%nat end.

(** The blocks in use: the pointer of the client, the size asked for and the place. *)
Abbreviation blocks := (gmap Z (Z * place)).

Definition covers (q : words) (a n : Z) : Prop := forall x, a <= x < a + n -> x mod 8 = 0 -> is_Some (q !! x).

Definition block_ok (p : process) (ptr sz : Z) (k : place) : Prop :=
  0 < sz /\
  match k with
  | InSlab i => exists ca c b, caches (gm p) !! i = Some (Some (ca, c)) /\ home c (ptr - 32) b /\ sz + 32 <= obj_size c /\
      header_at (ws p) (ptr - 32) QD_ALLOC_FLAG_SLAB sz ca (b - header_size)
  | InHeap => exists blk, heap p !! (ptr - 32) = Some blk /\ covers blk (ptr - 32) (sz + 32) /\ 0 < ptr - 32 /\ (ptr - 32) mod 16 = 0 /\
      header_at (ws p) (ptr - 32) QD_ALLOC_FLAG_HEAP sz 0 0
  end.

(** The cache of class [i] and its objects. *)
Definition class_ok (p : process) (B : blocks) (parts : list words) (i : nat) (cl : Z) : Prop :=
  exists ca c q L, caches (gm p) !! i = Some (Some (ca, c)) /\ 0 < ca /\ parts !! i = Some q /\
    same_cache (qd_slab_cache_create cl QD_MAX_ALIGN 0) c /\ cache_ok c q L /\
    (forall a, a ∈ L <-> exists sz, B !! (a + 32) = Some (sz, InSlab i)).

(** The blocks of malloc. *)
Definition heap_ok (h : gmap Z words) (q : words) : Prop :=
  (forall b blk x, h !! b = Some blk -> is_Some (blk !! x) -> x mod 8 = 0 /\ is_Some (q !! x)) /\
  (forall b b' blk blk', b <> b' -> h !! b = Some blk -> h !! b' = Some blk' -> blk ##ₘ blk').

Record mem_inv (p : process) (B : blocks) (parts : list words) : Prop := {
  mi_parts : length parts = 13%nat /\ owns (ws p) parts;
  mi_class : initialized (gm p) = true -> forall i cl, size_classes !! i = Some cl -> class_ok p B parts i cl;
  mi_heap : exists q, parts !! 12%nat = Some q /\ heap_ok (heap p) q;
  mi_block : forall ptr sz k, B !! ptr = Some (sz, k) -> block_ok p ptr sz k;
  mi_caches : length (caches (gm p)) = 12%nat /\ num_caches (gm p) = (if initialized (gm p) then 12 else 0) /\
    (initialized (gm p) = false -> caches (gm p) = replicate 12 None);
  mi_addr : forall i j ca c d, caches (gm p) !! i = Some (Some (ca, c)) -> caches (gm p) !! j = Some (Some (ca, d)) -> i = j
}.

Lemma class_geometry : Forall (fun cl => valid_cache cl QD_MAX_ALIGN /\ obj_size (qd_slab_cache_create cl QD_MAX_ALIGN 0) mod 16 = 0 /\
  cl <= obj_size (qd_slab_cache_create cl QD_MAX_ALIGN 0)) size_classes.
Proof.
  repeat (apply Forall_cons; split; [split; [split; [lia|right; exists 4; split; [lia|reflexivity]]|split; [reflexivity|by vm_compute]]|]).
  by apply Forall_nil.
Qed.

Lemma hdr_32 : qd_alloc_header_size = 32.
Proof. reflexivity. Qed.

(** An object of a cache in use is mapped and aligned. *)
Lemma object_covered c q L a b :
  cache_ok c q L -> a ∈ L -> home c a b -> obj_size c mod 16 = 0 ->
  covers q a (obj_size c) /\ a mod 16 = 0 /\ 0 < a /\ 0 < b - header_size.
Proof.
  intros (Hg & F & [_ HS _ _ _] & HL & _) Ha (s & Hs & <- & Hb) H16. split; [|].
  - intros x Hx H8. apply (live_words _ _ _ Hg q F (all c) a x HS); [by apply HL|done|done].
  - destruct HS as (H1 & _). destruct (H1 s Hs) as [[Hb0 _] _ _ _ _ _ _ Hpg]. rewrite header_48 in *. unfold QD_SLAB_PAGE_SIZE in Hpg.
    apply elem_of_slots in Hb as (i & Hi & ->). destruct Hg as (Ho & _). split; [|split; [nia|done]].
    apply Z.mod_divide in Hpg as [y Hy]; [|lia]. apply Z.mod_divide in H16 as [z Hz]; [|lia].
    replace (sbase s + i * obj_size c) with (0 + (y * 256 + 3 + i * z) * 16) by nia. by rewrite Z.mod_add.
Qed.

Lemma mod8_of_16 x : x mod 16 = 0 -> x mod 8 = 0.
Proof. intros H. apply Z.mod_divide in H as [y ->]; [|lia]. replace (y * 16) with (y * 2 * 8) by lia. apply Z.mod_mul. lia. Qed.

(** A cache that is there belongs to a class. *)
Lemma cache_class p B parts i ca c :
  mem_inv p B parts -> caches (gm p) !! i = Some (Some (ca, c)) ->
  exists cl q L, size_classes !! i = Some cl /\ (i < 12)%nat /\ initialized (gm p) = true /\ 0 < ca /\ parts !! i = Some q /\
    same_cache (qd_slab_cache_create cl QD_MAX_ALIGN 0) c /\ obj_size c mod 16 = 0 /\ cache_ok c q L /\
    (forall a, a ∈ L <-> exists sz, B !! (a + 32) = Some (sz, InSlab i)).
Proof.
  intros HI Hi. destruct (mi_caches _ _ _ HI) as (El & _ & Hn). pose proof (lookup_lt_Some _ _ _ Hi) as Hlt.
  destruct (initialized (gm p)) eqn:Ei; [|rewrite (Hn eq_refl) in Hi; by apply lookup_replicate in Hi as [? _]].
  assert (is_Some (size_classes !! i)) as [cl Hcl] by (apply lookup_lt_is_Some; simpl; lia).
  destruct (mi_class _ _ _ HI Ei i cl Hcl) as (ca' & c' & q & L & Hi' & Hca & Hq & Hsc & Hok & HL).
  rewrite Hi in Hi'. injection Hi' as <- <-. exists cl, q, L. repeat (split; [done || lia|]). split; [|done].
  pose proof class_geometry as Hg. rewrite Forall_lookup in Hg. destruct (Hg i cl Hcl) as (_ & Hm & _). by destruct Hsc as (-> & _).
Qed.

(** A block is in its part. *)
Lemma block_covered p B parts ptr sz k :
  mem_inv p B parts -> B !! ptr = Some (sz, k) ->
  exists q, parts !! part_of k = Some q /\ covers q (ptr - 32) (sz + 32) /\ (ptr - 32) mod 16 = 0 /\ 0 < ptr - 32 /\ 0 < sz.
Proof.
  intros HI HB. destruct (mi_block _ _ _ HI _ _ _ HB) as [Hsz Hk]. destruct k as [i|]; simpl.
  - destruct Hk as (ca & c & b & Hc & Hh & Hle & _).
    destruct (cache_class _ _ _ _ _ _ HI Hc) as (cl & q & L & _ & _ & _ & _ & Hq & _ & Hm & Hok & HL). exists q. split; [done|].
    destruct (object_covered c q L (ptr - 32) b) as (H1 & H2 & H3 & _); [done| |done|done|].
    + apply HL. exists sz. by replace (ptr - 32 + 32) with ptr by lia.
    + split; [|done]. intros x Hx. apply H1. lia.
  - destruct Hk as (blk & Hb & Hcov & Hp & H16 & _). destruct (mi_heap _ _ _ HI) as (q & Hq & Hh & _). exists q. split; [done|].
    split; [|done]. intros x Hx H8. apply (Hh (ptr - 32) blk x); [done|]. by apply Hcov.
Qed.

(** Disjoint parts hold disjoint blocks. *)
Lemma covers_apart q r a b n k :
  q ##ₘ r -> covers q a n -> covers r b k -> a mod 16 = 0 -> b mod 16 = 0 -> 0 < n -> 0 < k -> a + n <= b \/ b + k <= a.
Proof.
  intros Hd Hq Hr Ha%mod8_of_16 Hb%mod8_of_16 Hn Hk. destruct (Z.le_gt_cases (a + n) b); [by left|]. destruct (Z.le_gt_cases (b + k) a); [by right|].
  exfalso. assert (exists x, is_Some (q !! x) /\ is_Some (r !! x)) as (x & [v Hv] & [w Hw]).
  { destruct (Z.le_gt_cases a b); [exists b|exists a]; (split; [apply Hq|apply Hr]); (done || lia). }
  by apply (map_disjoint_spec q r) with x v w in Hd.
Qed.

Lemma block_pair_apart p B parts ptr sz k ptr' sz' k' :
  mem_inv p B parts -> B !! ptr = Some (sz, k) -> B !! ptr' = Some (sz', k') -> ptr <> ptr' ->
  ptr + sz <= ptr' - 32 \/ ptr' + sz' <= ptr - 32.
Proof.
  intros HI HB HB' Hne. destruct (block_covered _ _ _ _ _ _ HI HB) as (q & Hq & Hc & H16 & _ & Hsz).
  destruct (block_covered _ _ _ _ _ _ HI HB') as (q' & Hq' & Hc' & H16' & _ & Hsz').
  destruct (decide (part_of k = part_of k')) as [Ep|Hp].
  - destruct (mi_block _ _ _ HI _ _ _ HB) as [_ Hk]. destruct (mi_block _ _ _ HI _ _ _ HB') as [_ Hk'].
    destruct k as [i|], k' as [j|]; simpl in Ep, Hk, Hk'.
    + subst j. destruct Hk as (ca & c & b & Hi & _ & Hle & _). destruct Hk' as (ca' & c' & b' & Hi' & _ & Hle' & _).
      rewrite Hi in Hi'. injection Hi' as <- <-.
      destruct (cache_class _ _ _ _ _ _ HI Hi) as (cl & q0 & L & _ & _ & _ & _ & _ & _ & _ & Hok & HL).
      destruct (live_apart c q0 L (ptr - 32) (ptr' - 32) Hok); [apply HL; exists sz|apply HL; exists sz'|lia|lia|lia].
      * by replace (ptr - 32 + 32) with ptr by lia.
      * by replace (ptr' - 32 + 32) with ptr' by lia.
    + destruct Hk as (ca & c & b & Hi & _). destruct (cache_class _ _ _ _ _ _ HI Hi) as (? & ? & ? & _ & ? & _). lia.
    + destruct Hk' as (ca & c & b & Hi & _). destruct (cache_class _ _ _ _ _ _ HI Hi) as (? & ? & ? & _ & ? & _). lia.
    + destruct Hk as (blk & Hb & Hcb & _). destruct Hk' as (blk' & Hb' & Hcb' & _). destruct (mi_heap _ _ _ HI) as (_ & _ & _ & Hd).
      destruct (covers_apart blk blk' (ptr - 32) (ptr' - 32) (sz + 32) (sz' + 32)); try done; try lia. eapply (Hd (ptr - 32) (ptr' - 32)); [lia|done|done].
  - destruct (mi_parts _ _ _ HI) as [_ [_ Hd]].
    destruct (covers_apart q q' (ptr - 32) (ptr' - 32) (sz + 32) (sz' + 32)); try done; try lia. by apply (Hd (part_of k) (part_of k')).
Qed.
