(* ===== verification/MallocSafe.v ===== *)
(** * The general allocator: every operation keeps the invariant *)

From S2P Require Import Prelude Common Slab Malloc MallocFrame MallocInv.

(** The words of the blocks [B], headers included, are the same in both memories. *)
Definition kept (B : blocks) (m m' : words) : Prop :=
  forall ptr sz k x, B !! ptr = Some (sz, k) -> ptr - 32 <= x < ptr + sz -> x mod 8 = 0 -> m' !! x = m !! x.

Lemma kept_refl B m : kept B m m.
Proof. done. Qed.
Lemma kept_trans B m1 m2 m3 : kept B m1 m2 -> kept B m2 m3 -> kept B m1 m3.
Proof. intros H1 H2 ptr sz k x HB Hx H8. by rewrite (H2 ptr sz k x), (H1 ptr sz k x). Qed.
Lemma kept_sub B B' m m' : B' ⊆ B -> kept B m m' -> kept B' m m'.
Proof. intros Hs H ptr sz k x HB. apply (H ptr sz k). by eapply lookup_weaken. Qed.

Lemma mod8_step a k : a mod 16 = 0 -> (a + 8 * k) mod 8 = 0.
Proof. intros H%mod8_of_16. rewrite Z.mul_comm, Z.mod_add by lia. done. Qed.

(** What a block needs to stay in place: its header and its cache. *)
Lemma block_kept p p' B parts ptr sz k :
  mem_inv p B parts -> B !! ptr = Some (sz, k) -> (forall x, ptr - 32 <= x < ptr + sz -> x < ptr -> x mod 8 = 0 -> ws p' !! x = ws p !! x) ->
  match k with
  | InSlab i => forall ca c, caches (gm p) !! i = Some (Some (ca, c)) ->
      exists c', caches (gm p') !! i = Some (Some (ca, c')) /\ obj_size c' = obj_size c /\ (forall b, home c (ptr - 32) b -> home c' (ptr - 32) b)
  | InHeap => heap p' !! (ptr - 32) = heap p !! (ptr - 32)
  end -> block_ok p' ptr sz k.
Proof.
  intros HI HB Hw Hk. destruct (block_covered _ _ _ _ _ _ HI HB) as (_ & _ & _ & H16 & _ & Hsz).
  assert (forall fl size cache slab, header_at (ws p) (ptr - 32) fl size cache slab -> header_at (ws p') (ptr - 32) fl size cache slab) as Hh.
  { intros fl size cache slab. apply header_keep. intros j Hj. apply Hw; [lia|lia|by apply mod8_step]. }
  destruct (mi_block _ _ _ HI _ _ _ HB) as [_ Hb]. split; [done|]. destruct k as [i|].
  - destruct Hb as (ca & c & b & Hi & Hhm & Hle & Hhd). destruct (Hk ca c Hi) as (c' & Hi' & Eo & Hm). exists ca, c', b.
    rewrite Eo. split_and!; auto.
  - destruct Hb as (blk & Hb & ? & ? & ? & ?). exists blk. rewrite Hk. split_and!; auto.
Qed.

(** A change of one part that keeps the objects in use of its cache keeps the blocks. *)
Lemma kept_part p B parts i ca c q f q' (P : Z -> Prop) B0 :
  mem_inv p B parts -> caches (gm p) !! i = Some (Some (ca, c)) -> parts !! i = Some q -> q ##ₘ f -> q' ##ₘ f ->
  (forall j r, i <> j -> parts !! j = Some r -> r ⊆ f) -> B0 ⊆ B ->
  (forall ptr sz, B0 !! ptr = Some (sz, InSlab i) -> P (ptr - 32)) -> keeps (obj_size c) P q q' -> kept B0 (q ∪ f) (q' ∪ f).
Proof.
  intros HI Hi Hq Hd Hd' Hf Hs HP Hk ptr sz k x HB0 Hx H8. pose proof (lookup_weaken _ _ _ _ HB0 Hs) as HB.
  destruct (block_covered _ _ _ _ _ _ HI HB) as (r & Hr & Hc & _). destruct (Hc x ltac:(lia) H8) as [v Hv].
  destruct (decide (part_of k = i)) as [Ei|Hne].
  - destruct k as [i'|]; simpl in Ei; subst; [|destruct (cache_class _ _ _ _ _ _ HI Hi) as (? & ? & ? & _ & ? & _); lia].
    simpl in Hr. rewrite Hq in Hr. injection Hr as <-. destruct (mi_block _ _ _ HI _ _ _ HB) as [_ (ca' & c' & b & Hi' & _ & Hle & _)].
    rewrite Hi in Hi'. injection Hi' as <- <-. assert (q' !! x = q !! x) as E by (apply (Hk (ptr - 32)); [by eapply HP|lia|done]).
    rewrite (lookup_union_Some_l q f x v) by done. apply lookup_union_Some_l. by rewrite E.
  - assert (f !! x = Some v) as Hfx by (eapply lookup_weaken; [done|by apply (Hf (part_of k))]).
    rewrite !lookup_union_r; [done| |]; by eapply map_disjoint_Some_r.
Qed.

(** A step of the cache of class [i]: its part, its structure and its blocks change. *)
Lemma slab_step p B B' parts i ca c c' q f q' L' g' :
  mem_inv p B parts -> caches (gm p) !! i = Some (Some (ca, c)) -> parts !! i = Some q -> ws p = q ∪ f ->
  owns (q' ∪ f) (<[i := q']> parts) -> same_cache c c' -> cache_ok c' q' L' ->
  caches g' = <[i := Some (ca, c')]> (caches (gm p)) -> initialized g' = initialized (gm p) -> num_caches g' = num_caches (gm p) ->
  (forall a, a ∈ L' <-> exists sz, B' !! (a + 32) = Some (sz, InSlab i)) ->
  (forall ptr sz k, k <> InSlab i -> B' !! ptr = Some (sz, k) <-> B !! ptr = Some (sz, k)) ->
  (forall ptr sz k x, k <> InSlab i -> B' !! ptr = Some (sz, k) -> ptr - 32 <= x < ptr + sz -> x < ptr -> x mod 8 = 0 -> (q' ∪ f) !! x = (q ∪ f) !! x) ->
  let p' := mkProc g' (once p) (q' ∪ f) (heap p) in
  (forall ptr sz, B' !! ptr = Some (sz, InSlab i) -> block_ok p' ptr sz (InSlab i)) ->
  mem_inv p' B' (<[i := q']> parts).
Proof.
  intros HI Hi Hq Ew Hown Hsc Hok Eg Ei En HL HB Hw p' Hnew.
  destruct (cache_class _ _ _ _ _ _ HI Hi) as (cl & q0 & L & Hcl & Hlt & Hin & Hca & Hq0 & Hsc0 & _). rewrite Hq in Hq0. injection Hq0 as <-.
  destruct (mi_parts _ _ _ HI) as [El _]. destruct (mi_caches _ _ _ HI) as (Elc & Enc & _).
  assert (i < length parts)%nat as Hip by lia. assert (i < length (caches (gm p)))%nat as Hic by lia.
  split; unfold p'; cbn [ws gm heap].
  - split; [by rewrite length_insert|done].
  - intros _ j clj Hj. destruct (decide (i = j)) as [<-|Hne].
    + rewrite Hcl in Hj. injection Hj as <-. exists ca, c', q', L'. cbn [gm]. rewrite Eg, !list_lookup_insert_eq by done.
      do 3 (split; [done|]). split; [|done]. unfold same_cache in *. destruct Hsc as (-> & -> & -> & ->). done.
    + destruct (mi_class _ _ _ HI Hin j clj Hj) as (ca1 & c1 & q1 & L1 & H1 & H2 & H3 & H4 & H5 & H6). exists ca1, c1, q1, L1. cbn [gm].
      rewrite Eg, !list_lookup_insert_ne by done. do 5 (split; [done|]). intros a. rewrite H6. split; intros [s Hs]; exists s; (apply HB; [congruence|done]).
  - destruct (mi_heap _ _ _ HI) as (h & Hh & Hhp). exists h. rewrite list_lookup_insert_ne by lia. done.
  - intros ptr sz k HBk. destruct (decide (k = InSlab i)) as [->|Hk]; [by apply Hnew|].
    apply (block_kept p p' B parts); [done|by apply HB| |].
    + intros x Hx Hlt' H8. unfold p'. cbn [ws]. rewrite Ew. by apply (Hw ptr sz k).
    + destruct k as [j|]; [|done]. intros ca1 c1 Hj. exists c1. unfold p'. cbn [gm]. rewrite Eg, list_lookup_insert_ne by congruence. done.
  - rewrite Eg, Ei, En, length_insert. split; [done|]. split; [done|congruence].
  - rewrite Eg. intros j k cj d e Hj Hk. apply list_lookup_insert_Some in Hj as [(<- & [= <- <-] & _)|[Hj1 Hj]];
      apply list_lookup_insert_Some in Hk as [(<- & Ek & _)|[Hk1 Hk]]; [done| |injection Ek as <- <-|]; by eapply (mi_addr _ _ _ HI).
Qed.

Lemma cache_ok_outside c m L a n m' :
  cache_ok c m L -> a ∈ L -> same_outside a n m m' -> n <= obj_size c -> cache_ok c m' L.
Proof.
  intros (Hg & F & HI & HL & Hsz) Ha [H1 H2] Hn. split; [done|]. exists F. split; [|done]. destruct HI as [G HS C1 C2 C3]. split; try done.
  apply (inv_same_outside _ _ _ Hg m _ F (all c) a HS); [by apply HL|]. split; [|done]. intros y Hy. apply H1. lia.
Qed.

Lemma fresh_part sz q f pages : q ##ₘ f -> fresh_pages sz (q ∪ f) pages -> fresh_pages sz q pages /\ away pages f.
Proof.
  intros Hd Hf. destruct pages as [[pg blk]|]; [|done]. destruct Hf as (H1 & H2 & H3 & H4).
  apply map_disjoint_union_l in H3 as [? ?]. split; [done|]. simpl. by symmetry.
Qed.

(** ** Allocation from a slab *)

Lemma slab_block_fresh p B parts i c q f q' (L : gset Z) a :
  mem_inv p B parts -> parts !! i = Some q -> (forall j r, i <> j -> parts !! j = Some r -> r ⊆ f) -> q' ##ₘ f -> (i < 12)%nat ->
  (forall a, a ∈ L <-> exists sz, B !! (a + 32) = Some (sz, InSlab i)) -> a ∉ L -> 8 <= obj_size c -> covers q' a (obj_size c) -> a mod 16 = 0 ->
  B !! (a + 32) = None.
Proof.
  intros HI Hq Hf Hd Hi HL Ha Ho Hc H16. destruct (B !! (a + 32)) as [[s k]|] eqn:E; [|done]. exfalso.
  destruct (decide (part_of k = i)) as [Ek|Hne].
  - destruct k as [j|]; simpl in Ek; [subst j|lia]. apply Ha, HL. eauto.
  - destruct (block_covered _ _ _ _ _ _ HI E) as (r & Hr & Hcr & _ & _ & Hs). pose proof (mod8_of_16 a H16).
    destruct (Hcr a) as [v Hv]; [lia|done|]. destruct (Hc a) as [w Hw]; [lia|done|].
    apply (map_disjoint_spec q' f) with a w v in Hd; [done|done|]. eapply lookup_weaken; [done|by apply (Hf (part_of k))].
Qed.

Lemma keeps_chain n P m1 m2 m3 : keeps n P m1 m2 -> keeps n P m2 m3 -> keeps n P m1 m3.
Proof. intros H1 H2 y x Hy Hx H8. by rewrite (H2 y x), (H1 y x). Qed.

(** Writing the header of an object keeps the other objects in use. *)
Lemma header_keeps c m L a n m' P :
  cache_ok c m L -> a ∈ L -> (forall y, P y -> y ∈ L /\ y <> a) -> n <= obj_size c -> same_outside a n m m' -> keeps (obj_size c) P m m'.
Proof.
  intros Hok Ha HP Hn [Hs _] y x Hy Hx _. destruct (HP y Hy) as [HyL Hne]. apply Hs.
  destruct (live_apart c m L y a Hok HyL Ha Hne); lia.
Qed.

Lemma malloc_slab_ok p B parts i cl sz pages :
  mem_inv p B parts -> initialized (gm p) = true -> size_classes !! i = Some cl -> find_size_class (sz + 32) = Z.of_nat i ->
  0 < sz -> sz + 32 <= cl -> fresh_pages (slab_size (qd_slab_cache_create cl QD_MAX_ALIGN 0)) (ws p) pages ->
  exists r p', malloc_slab sz (sz + 32) pages p = Ok (r, p') /\
    ((r = 0 /\ pages = None /\ p' = p) \/
     (0 < r /\ B !! r = None /\ kept B (ws p) (ws p') /\ exists parts', mem_inv p' (<[r := (sz, InSlab i)]> B) parts')).
Proof.
  intros HI Hin Hcl Hfc Hsz Hle Hf. destruct (mi_class _ _ _ HI Hin i cl Hcl) as (ca & c & _ & _ & Hi & _).
  destruct (cache_class _ _ _ _ _ _ HI Hi) as (cl' & q & L & Hcl' & Hlt & _ & Hca & Hq & Hsc & H16 & Hok & HL).
  rewrite Hcl in Hcl'. injection Hcl' as <-. destruct (mi_parts _ _ _ HI) as [_ Hown].
  destruct (owns_focus _ _ _ _ Hown Hq) as (f & Ew & Hd & Hback & Hsub).
  assert (cl <= obj_size c) as Hclo.
  { pose proof class_geometry as Hg. rewrite Forall_lookup in Hg. destruct (Hg i cl Hcl) as (_ & _ & ?). by destruct Hsc as (-> & _). }
  rewrite Ew in Hf. destruct (fresh_part _ q f pages Hd Hf) as [Hfq Haw]. assert (slab_size c = slab_size (qd_slab_cache_create cl QD_MAX_ALIGN 0)) as Ess by apply Hsc.
  rewrite <- Ess in Hfq. destruct (cache_alloc c q L pages Hok Hfq) as (r & c' & q1 & E & Hr).
  destruct (alloc_local c pages f Haw q r c' q1 Hd E) as [E' Hd1].
  unfold malloc_slab. rewrite Hin, Hfc. destruct (Z.leb_spec 0 (Z.of_nat i)); [|lia]. rewrite Nat2Z.id, Hi, Ew, E'. cbn [obind].
  destruct r as [[a b]|]; [|destruct Hr as (? & -> & ->); exists 0, p; split; [|by left]; destruct p; simpl in Ew; by rewrite <- Ew].
  destruct Hr as (Ha & Hok1 & Hsc1 & Hk1 & Hh & Hhm). assert (obj_size c' = obj_size c) as Eo by apply Hsc1.
  assert (a ∈ ({[a]} ∪ L : gset Z)) as HaL by set_solver.
  destruct (object_covered c' q1 _ a b Hok1 HaL Hh) as (Hcov & Ha16 & Hpos & _); [by rewrite Eo|].
  destruct (write_header_ok q1 a QD_ALLOC_FLAG_SLAB sz ca (b - header_size)) as (q2 & E2 & Hhd & Hso).
  { intros k Hk. apply Hcov; [lia|by apply mod8_step]. }
  destruct (header_local a _ _ _ _ f q1 q2 Hd1 E2) as [E2' Hd2]. rewrite E2'. cbn [obind]. rewrite hdr_32.
  eexists _, _. split; [reflexivity|]. right. cbn [ws gm].
  assert (B !! (a + 32) = None) as Hfresh by (apply (slab_block_fresh p B parts i c' q f q1 L a); try done; lia).
  assert (cache_ok c' q2 ({[a]} ∪ L)) as Hok2 by (apply (cache_ok_outside c' q1 _ a 32); [done|done|done|lia]).
  assert (keeps (obj_size c) (fun y => y ∈ L) q q2) as Hk2.
  { apply (keeps_chain _ _ q q1 q2 Hk1). rewrite <- Eo. apply (header_keeps c' q1 ({[a]} ∪ L) a 32); [done|done| |lia|done]. set_solver. }
  assert (kept B (q ∪ f) (q2 ∪ f)) as HK.
  { apply (kept_part p B parts i ca c q f q2 (fun y => y ∈ L) B HI Hi Hq Hd Hd2 Hsub); [done| |done].
    intros ptr s HB. apply HL. exists s. by replace (ptr - 32 + 32) with ptr by lia. }
  split; [lia|]. split; [done|]. split; [done|]. exists (<[i := q2]> parts).
  apply (slab_step p B _ parts i ca c c' q f q2 ({[a]} ∪ L)); try done; [by apply Hback| | | |].
  - intros x. rewrite elem_of_union, elem_of_singleton, HL. split.
    + intros [->|[s Hs]]; [exists sz; apply lookup_insert_eq|]. exists s. rewrite lookup_insert_ne by congruence. done.
    + intros [s Hs]. destruct (decide (x = a)) as [->|]; [by left|]. right. exists s. by rewrite lookup_insert_ne in Hs by lia.
  - intros ptr s k Hk. destruct (decide (a + 32 = ptr)) as [<-|]; [|by rewrite lookup_insert_ne].
    rewrite lookup_insert_eq, Hfresh. split; congruence.
  - intros ptr s k x Hk HB Hx _ H8. apply (HK ptr s k); [|done|done]. rewrite lookup_insert_ne in HB; [done|]. intros <-. rewrite lookup_insert_eq in HB. congruence.
  - intros ptr s HB. destruct (decide (a + 32 = ptr)) as [<-|Hne].
    + rewrite lookup_insert_eq in HB. injection HB as <-. split; [done|]. exists ca, c', b. cbn [gm ws count_slab caches].
      rewrite list_lookup_insert_eq by (by eapply lookup_lt_Some). replace (a + 32 - 32) with a by lia. split; [done|]. split; [done|]. split; [lia|].
      apply (header_keep q2); [|done]. intros k Hk. destruct Hhd as (H0 & H1 & H2 & H3).
      assert (is_Some (q2 !! (a + 8 * k))) as [v Hv] by (apply Hso, Hcov; [lia|by apply mod8_step]). rewrite Hv. by apply lookup_union_Some_l.
    + rewrite lookup_insert_ne in HB by done. apply (block_kept p _ B parts); [done|done| |].
      * intros x Hx _ H8. cbn [ws]. rewrite Ew. by apply (HK ptr s (InSlab i)).
      * intros ca1 c1 Hi1. rewrite Hi in Hi1. injection Hi1 as <- <-. exists c'. cbn [gm count_slab caches].
        rewrite list_lookup_insert_eq by (by eapply lookup_lt_Some). split; [done|]. split; [done|]. intros y. apply Hhm.
Qed.

(** ** Release of an object of a slab *)

Lemma cache_at_ok p B parts i ca c : mem_inv p B parts -> caches (gm p) !! i = Some (Some (ca, c)) -> cache_at (caches (gm p)) ca = Ok (i, c).
Proof.
  intros HI Hi. unfold cache_at. assert (list_find (with_addr ca) (caches (gm p)) = Some (i, Some (ca, c))) as ->; [|done].
  apply list_find_Some. split; [done|]. split; [simpl; by rewrite Z.eqb_refl|]. intros j y Hj Hlt Hy. destruct y as [[a d]|]; [|done].
  simpl in Hy. apply Is_true_true, Z.eqb_eq in Hy as ->. pose proof (mi_addr _ _ _ HI j i ca d c Hj Hi). lia.
Qed.

Lemma header_flags fl : 0 <= fl < 65536 -> hdr_flags (QD_ALLOC_MAGIC + Z.shiftl fl 32) = fl.
Proof.
  intros H. unfold hdr_flags, QD_ALLOC_MAGIC. rewrite Z.shiftl_mul_pow2, Z.shiftr_div_pow2 by lia.
  rewrite Z.div_add by lia. change (0x51444D48 / 2 ^ 32) with 0. rewrite Z.add_0_l.
  change 0xFFFF with (Z.ones 16). rewrite Z.land_ones by lia. apply Z.mod_small. lia.
Qed.

Lemma free_slab_block p B parts ptr sz i :
  mem_inv p B parts -> B !! ptr = Some (sz, InSlab i) ->
  exists p', qd_free ptr p = Ok p' /\ kept (delete ptr B) (ws p) (ws p') /\ exists parts', mem_inv p' (delete ptr B) parts'.
Proof.
  intros HI HB. destruct (block_covered _ _ _ _ _ _ HI HB) as (_ & _ & _ & _ & Hpos & _).
  destruct (mi_block _ _ _ HI _ _ _ HB) as [_ (ca & c & b & Hi & Hh & Hle & H0 & _ & H2 & H3)].
  destruct (cache_class _ _ _ _ _ _ HI Hi) as (cl & q & L & Hcl & Hlt & _ & Hca & Hq & Hsc & H16 & Hok & HL).
  assert (ptr - 32 ∈ L) as Ha by (apply HL; exists sz; by replace (ptr - 32 + 32) with ptr by lia).
  destruct (object_covered c q L _ b Hok Ha Hh H16) as (_ & _ & _ & Hb). destruct (mi_parts _ _ _ HI) as [_ Hown].
  destruct (owns_focus _ _ _ _ Hown Hq) as (f & Ew & Hd & Hback & Hsub).
  destruct (cache_free c q L (ptr - 32) b Hok Ha Hh) as (s & c' & q' & Es & Em & Ef & Hok' & Hsc' & Hk & Hhm).
  destruct (slab_free_local c s (ptr - 32) f q c' q' Hd Ef) as [Ef' Hd'].
  unfold qd_free. destruct (Z.eqb_spec ptr 0); [lia|]. rewrite hdr_32. unfold read. rewrite H0. cbn [obind of_option].
  rewrite header_flags by (unfold QD_ALLOC_FLAG_SLAB; lia). change (negb (Z.land QD_ALLOC_FLAG_SLAB QD_ALLOC_FLAG_SLAB =? 0)) with true. cbn iota.
  rewrite H2, H3. cbn [obind of_option]. destruct (Z.eqb_spec ca 0); [lia|]. destruct (Z.eqb_spec (b - header_size) 0); [lia|]. cbn [negb andb].
  unfold free_slab. rewrite (cache_at_ok _ _ _ _ _ _ HI Hi). cbn [obind]. rewrite Es. cbn [obind]. rewrite Em, Ew, Ef'. cbn [obind].
  eexists. split; [reflexivity|]. cbn [ws].
  assert (kept (delete ptr B) (q ∪ f) (q' ∪ f)) as HK.
  { apply (kept_part p B parts i ca c q f q' (fun y => y ∈ L ∖ {[ptr - 32]}) _ HI Hi Hq Hd Hd' Hsub); [apply delete_subseteq| |done].
    intros r s' [Hne Hr]%lookup_delete_Some. apply elem_of_difference. rewrite elem_of_singleton, HL. split; [|lia].
    exists s'. by replace (r - 32 + 32) with r by lia. }
  split; [done|]. exists (<[i := q']> parts). apply (slab_step p B _ parts i ca c c' q f q' (L ∖ {[ptr - 32]})); try done; [by apply Hback| | | |].
  - intros x. rewrite elem_of_difference, elem_of_singleton, HL. split.
    + intros [[s' Hs] Hne]. exists s'. rewrite lookup_delete_ne by lia. done.
    + intros [s' [Hne Hs]%lookup_delete_Some]. split; [eauto|lia].
  - intros r s' k Hk'. rewrite lookup_delete_Some. split; [tauto|]. intros Hr. split; [|done]. congruence.
  - intros r s' k x _ Hr Hx _ H8. by apply (HK r s' k).
  - intros r s' Hr. pose proof Hr as [Hne Hr']%lookup_delete_Some. apply (block_kept p _ B parts); [done|done| |].
    + intros x Hx _ H8. cbn [ws]. rewrite Ew. by apply (HK r s' (InSlab i)).
    + intros ca1 c1 Hi1. rewrite Hi in Hi1. injection Hi1 as <- <-. exists c'. cbn [gm count_freed caches].
      rewrite list_lookup_insert_eq by (by eapply lookup_lt_Some). split; [done|]. split; [apply Hsc'|]. intros y. apply Hhm.
Qed.

(** ** Blocks of malloc *)

(** A step of malloc's part. *)
Lemma heap_step p B B' parts q f q' g' h' :
  mem_inv p B parts -> parts !! 12%nat = Some q -> ws p = q ∪ f ->
  owns (q' ∪ f) (<[12%nat := q']> parts) -> heap_ok h' q' ->
  caches g' = caches (gm p) -> initialized g' = initialized (gm p) -> num_caches g' = num_caches (gm p) ->
  (forall ptr sz i, B' !! ptr = Some (sz, InSlab i) <-> B !! ptr = Some (sz, InSlab i)) ->
  (forall ptr sz k x, B !! ptr = Some (sz, k) -> B' !! ptr = Some (sz, k) -> ptr - 32 <= x < ptr + sz -> x < ptr -> x mod 8 = 0 -> (q' ∪ f) !! x = (q ∪ f) !! x) ->
  let p' := mkProc g' (once p) (q' ∪ f) h' in
  (forall ptr sz, B' !! ptr = Some (sz, InHeap) -> block_ok p' ptr sz InHeap) ->
  mem_inv p' B' (<[12%nat := q']> parts).
Proof.
  intros HI Hq Ew Hown Hh Eg Ei En HB Hw p' Hnew. destruct (mi_parts _ _ _ HI) as [El _].
  split; unfold p'; cbn [ws gm heap].
  - split; [by rewrite length_insert|done].
  - rewrite Ei. intros Hin j cl Hj. assert (j < 12)%nat as Hlt by (by apply lookup_lt_Some in Hj).
    destruct (mi_class _ _ _ HI Hin j cl Hj) as (ca1 & c1 & q1 & L1 & H1 & H2 & H3 & H4 & H5 & H6). exists ca1, c1, q1, L1. cbn [gm].
    rewrite Eg, list_lookup_insert_ne by lia. do 5 (split; [done|]). intros a. rewrite H6. split; intros [s Hs]; exists s; by apply HB.
  - exists q'. split; [apply list_lookup_insert_eq; lia|done].
  - intros ptr sz k HBk. destruct k as [j|]; [|by apply Hnew]. pose proof (proj1 (HB _ _ _) HBk) as HB0.
    apply (block_kept p p' B parts); [done|done| |].
    + intros x Hx Hlt' H8. unfold p'. cbn [ws]. rewrite Ew. by apply (Hw ptr sz (InSlab j)).
    + intros ca1 c1 Hj. exists c1. unfold p'. cbn [gm]. rewrite Eg. done.
  - rewrite Eg, Ei, En. apply (mi_caches _ _ _ HI).
  - rewrite Eg. apply (mi_addr _ _ _ HI).
Qed.

(** What malloc gives for [n] bytes: words that are not mapped yet, aligned to 16. *)
Definition fresh_heap (n : Z) (m : words) (ans : option (Z * words)) : Prop :=
  match ans with
  | None => True
  | Some (b, blk) => 0 < b /\ b mod 16 = 0 /\ blk ##ₘ m /\ covers blk b n /\ (forall x, is_Some (blk !! x) -> x mod 8 = 0)
  end.

Lemma disjoint_is_Some (q r : words) x : q ##ₘ r -> is_Some (q !! x) -> is_Some (r !! x) -> False.
Proof. intros Hd [v Hv] [w Hw]. by apply (map_disjoint_spec q r) with x v w in Hd. Qed.

(** The words of a block are mapped. *)
Lemma block_mapped p B parts ptr sz k : mem_inv p B parts -> B !! ptr = Some (sz, k) -> covers (ws p) (ptr - 32) (sz + 32).
Proof.
  intros HI HB x Hx H8. destruct (block_covered _ _ _ _ _ _ HI HB) as (r & Hr & Hc & _). destruct (mi_parts _ _ _ HI) as [_ Hown].
  destruct (Hc x Hx H8) as [v Hv]. exists v. eapply lookup_weaken; [done|]. by eapply owns_sub.
Qed.

Lemma malloc_heap_ok p B parts sz b blk :
  mem_inv p B parts -> 0 < sz -> fresh_heap (sz + 32) (ws p) (Some (b, blk)) ->
  exists p', malloc_heap sz (Some (b, blk)) p = Ok (b + 32, p') /\ 0 < b + 32 /\ B !! (b + 32) = None /\ kept B (ws p) (ws p') /\
    exists parts', mem_inv p' (<[b + 32 := (sz, InHeap)]> B) parts'.
Proof.
  intros HI Hsz (Hb & H16 & Hdb & Hcov & H8b). destruct (mi_heap _ _ _ HI) as (q & Hq & Hh1 & Hh2). destruct (mi_parts _ _ _ HI) as [Elp Hown].
  destruct (owns_focus _ _ _ _ Hown Hq) as (f & Ew & Hd & Hback & Hsub). pose proof Hdb as Hdb'.
  rewrite Ew in Hdb'. apply map_disjoint_union_r in Hdb' as [Hbq Hbf].
  assert ((blk ∪ q) ##ₘ f) as Hd1 by (by apply map_disjoint_union_l_2).
  destruct (write_header_ok (blk ∪ q) b QD_ALLOC_FLAG_HEAP sz 0 0) as (q' & E & Hhd & Hso).
  { intros k Hk. apply lookup_union_is_Some. left. apply Hcov; [lia|by apply mod8_step]. }
  destruct (header_local b _ _ _ _ f _ _ Hd1 E) as [E' Hd']. rewrite <- map_union_assoc, <- Ew in E'.
  unfold malloc_heap. rewrite E'. cbn [obind]. rewrite hdr_32. eexists. split; [reflexivity|]. split; [lia|]. cbn [ws].
  assert (B !! (b + 32) = None) as Hfresh.
  { destruct (B !! (b + 32)) as [[s k]|] eqn:EB; [|done]. exfalso. pose proof (block_mapped _ _ _ _ _ _ HI EB) as Hm.
    destruct (block_covered _ _ _ _ _ _ HI EB) as (_ & _ & _ & _ & _ & Hs). pose proof (mod8_of_16 b H16).
    apply (disjoint_is_Some blk (ws p) b Hdb); [apply Hcov; [lia|done]|apply Hm; [lia|done]]. }
  assert (kept B (ws p) (q' ∪ f)) as HK.
  { intros ptr s k x HB Hx H8. pose proof (block_mapped _ _ _ _ _ _ HI HB x ltac:(lia) H8) as Hm.
    assert (blk !! x = None) as Hbx by (apply eq_None_not_Some; intros Hx'; by apply (disjoint_is_Some blk (ws p) x)).
    rewrite Ew, !lookup_union. f_equal. destruct Hso as [Hs _]. rewrite Hs; [by rewrite lookup_union_r|].
    destruct (Z.lt_ge_cases x b); [by left|]. destruct (Z.lt_ge_cases x (b + 32)); [|by right]. exfalso.
    destruct (Hcov x ltac:(lia) H8). congruence. }
  split; [done|]. split; [done|]. exists (<[12%nat := q']> parts).
  apply (heap_step p B _ parts q f q' _ _ HI Hq Ew); try done; [by apply Hback| | | |].
  - destruct Hso as [_ Hdom]. split.
    + intros b' blk' x [[<- <-]|[Hne Hb']]%lookup_insert_Some Hx.
      * split; [by apply H8b|]. apply Hdom, lookup_union_is_Some. by left.
      * destruct (Hh1 b' blk' x Hb' Hx). split; [done|]. apply Hdom, lookup_union_is_Some. by right.
    + assert (forall b' blk', heap p !! b' = Some blk' -> blk ##ₘ blk') as Hn.
      { intros b' blk' Hb'. apply map_disjoint_spec. intros x v w Hv Hw. apply (disjoint_is_Some blk q x Hbq); [by exists v|].
        apply (Hh1 b' blk' x Hb'). by exists w. }
      intros b1 b2 k1 k2 Hne [[<- <-]|[Hn1 H1]]%lookup_insert_Some [[<- <-]|[Hn2 H2]]%lookup_insert_Some; [done|by eapply Hn|symmetry; by eapply Hn|by apply (Hh2 b1 b2)].
  - intros ptr s i. destruct (decide (b + 32 = ptr)) as [<-|]; [|by rewrite lookup_insert_ne]. rewrite lookup_insert_eq, Hfresh. split; congruence.
  - intros ptr s k x HB _ Hx _ H8. rewrite <- Ew. by apply (HK ptr s k).
  - intros ptr s HB. destruct (decide (b + 32 = ptr)) as [<-|Hne].
    + rewrite lookup_insert_eq in HB. injection HB as <-. split; [done|]. exists blk. cbn [heap ws]. replace (b + 32 - 32) with b by lia.
      rewrite lookup_insert_eq. do 4 (split; [done|]). apply (header_keep q'); [|done]. intros k Hk.
      assert (is_Some (q' !! (b + 8 * k))) as [v Hv].
      { apply Hso, lookup_union_is_Some. left. apply Hcov; [lia|by apply mod8_step]. }
      rewrite Hv. by apply lookup_union_Some_l.
    + rewrite lookup_insert_ne in HB by done. apply (block_kept p _ B parts); [done|done| |].
      * intros x Hx _ H8. cbn [ws]. by apply (HK ptr s InHeap).
      * cbn [heap]. rewrite lookup_insert_ne by lia. done.
Qed.

(** The counters of the statistics are free. *)
Lemma mem_inv_gm p B parts g b :
  mem_inv p B parts -> caches g = caches (gm p) -> initialized g = initialized (gm p) -> num_caches g = num_caches (gm p) ->
  mem_inv (mkProc g b (ws p) (heap p)) B parts.
Proof.
  intros [H1 H2 H3 H4 H5 H6] E1 E2 E3. split; cbn [gm ws heap]; rewrite ?E1, ?E2, ?E3; try done.
  - intros Hin i cl Hi. unfold class_ok. cbn [gm]. rewrite E1. by apply H2.
  - intros ptr sz k HB. pose proof (H4 ptr sz k HB) as Hb. unfold block_ok in *. cbn [gm ws heap]. by rewrite E1.
Qed.

(** free of a block of malloc, which may be one of the allocator. *)
Lemma libc_free_ok p B parts a blk :
  mem_inv p B parts -> heap p !! a = Some blk -> (forall sz i, B !! (a + 32) <> Some (sz, InSlab i)) ->
  exists p', libc_free a p = Ok p' /\ gm p' = gm p /\ kept (delete (a + 32) B) (ws p) (ws p') /\ exists parts', mem_inv p' (delete (a + 32) B) parts'.
Proof.
  intros HI Hb HnB. destruct (mi_heap _ _ _ HI) as (q & Hq & Hh1 & Hh2). destruct (mi_parts _ _ _ HI) as [Elp Hown].
  destruct (owns_focus _ _ _ _ Hown Hq) as (f & Ew & Hd & Hback & Hsub).
  unfold libc_free. rewrite Hb. eexists. split; [reflexivity|]. split; [done|]. cbn [ws].
  assert (forall x, is_Some (f !! x) -> blk !! x = None) as Hfb.
  { intros x Hx. apply eq_None_not_Some. intros Hy. apply (disjoint_is_Some q f x Hd); [|done]. by apply (Hh1 a blk). }
  assert (ws p ∖ blk = (q ∖ blk) ∪ f) as Ed.
  { rewrite Ew, map_difference_union_distr_l. f_equal. apply map_eq. intros x. destruct (f !! x) as [v|] eqn:Ex.
    - apply lookup_difference_Some. split; [done|]. apply Hfb. by exists v.
    - apply lookup_difference_None. by left. }
  assert (kept (delete (a + 32) B) (ws p) (ws p ∖ blk)) as HK.
  { intros r s k x [Hne Hr]%lookup_delete_Some Hx H8. destruct (block_mapped _ _ _ _ _ _ HI Hr x ltac:(lia) H8) as [v Hv]. rewrite Hv.
    apply lookup_difference_Some. split; [done|]. apply eq_None_not_Some. intros Hbx. destruct k as [i|].
    - destruct (block_covered _ _ _ _ _ _ HI Hr) as (r' & Hr' & Hc & _). destruct (Hc x ltac:(lia) H8) as [w Hw].
      destruct (mi_block _ _ _ HI _ _ _ Hr) as [_ (ca & c & y & Hi & _)].
      destruct (cache_class _ _ _ _ _ _ HI Hi) as (_ & _ & _ & _ & Hlt & _).
      assert (f !! x = Some w) as Hfx by (eapply lookup_weaken; [done|]; apply (Hsub i); [lia|done]).
      rewrite Hfb in Hbx by (by exists w). by destruct Hbx.
    - destruct (mi_block _ _ _ HI _ _ _ Hr) as [_ (blk' & Hb' & Hc' & _)]. apply (disjoint_is_Some blk blk' x); [|done|apply Hc'; [lia|done]].
      apply (Hh2 a (r - 32)); [lia|done|done]. }
  split; [done|]. exists (<[12%nat := q ∖ blk]> parts). rewrite Ed in *.
  assert (q ∖ blk ##ₘ f) as Hd'.
  { eapply map_disjoint_weaken_l; [exact Hd|]. apply map_subseteq_spec. intros x v. rewrite lookup_difference_Some. tauto. }
  apply (heap_step p B _ parts q f (q ∖ blk) _ _ HI Hq Ew); try done; [by apply Hback| | | |].
  - split.
    + intros b' blk' x [Hne Hb']%lookup_delete_Some Hx. destruct (Hh1 b' blk' x Hb' Hx) as [H8 [v Hv]]. split; [done|]. exists v.
      apply lookup_difference_Some. split; [done|]. apply eq_None_not_Some. intros Hy. apply (disjoint_is_Some blk blk' x); [|done..]. by eapply (Hh2 a b').
    + intros b1 b2 k1 k2 Hne [_ H1]%lookup_delete_Some [_ H2]%lookup_delete_Some. by eapply Hh2.
  - intros r s i. rewrite lookup_delete_Some. split; [tauto|]. intros Hr. split; [|done]. intros <-. by apply (HnB s i).
  - intros r s k x _ Hr Hx _ H8. rewrite <- Ew. by apply (HK r s k).
  - intros r s Hr. pose proof Hr as [Hne Hr']%lookup_delete_Some. apply (block_kept p _ B parts); [done|done| |].
    + intros x Hx _ H8. cbn [ws]. by apply (HK r s InHeap).
    + cbn [heap]. rewrite lookup_delete_ne by lia. done.
Qed.

Lemma free_heap_block p B parts ptr sz :
  mem_inv p B parts -> B !! ptr = Some (sz, InHeap) ->
  exists p', qd_free ptr p = Ok p' /\ kept (delete ptr B) (ws p) (ws p') /\ exists parts', mem_inv p' (delete ptr B) parts'.
Proof.
  intros HI HB. destruct (mi_block _ _ _ HI _ _ _ HB) as [_ (blk & Hb & Hcov & Hpos & _ & H0 & _)].
  destruct (libc_free_ok p B parts (ptr - 32) blk HI Hb) as (p1 & E & Eg & HK & parts' & HI').
  { intros s i. replace (ptr - 32 + 32) with ptr by lia. congruence. }
  replace (ptr - 32 + 32) with ptr in * by lia.
  unfold qd_free. destruct (Z.eqb_spec ptr 0); [lia|]. rewrite hdr_32. unfold read. rewrite H0. cbn [obind of_option].
  rewrite header_flags by (unfold QD_ALLOC_FLAG_HEAP; lia). change (negb (Z.land QD_ALLOC_FLAG_HEAP QD_ALLOC_FLAG_SLAB =? 0)) with false. cbn iota.
  unfold free_heap. rewrite E. cbn [obind]. eexists. split; [reflexivity|]. split; [done|]. exists parts'. by apply mem_inv_gm.
Qed.

(** Releasing a block in use. *)
Lemma free_block p B parts ptr sz k :
  mem_inv p B parts -> B !! ptr = Some (sz, k) ->
  exists p', qd_free ptr p = Ok p' /\ kept (delete ptr B) (ws p) (ws p') /\ exists parts', mem_inv p' (delete ptr B) parts'.
Proof. destruct k; [apply free_slab_block|apply free_heap_block]. Qed.
