(* ===== verification/MallocRun.v ===== *)
(** * The general allocator: bytes, start, end, and whole calls *)

From S2P Require Import Prelude Common Slab Malloc MallocFrame MallocInv MallocSafe.

(** ** Bytes *)

Lemma byte_bits w s n : 0 <= s -> 0 <= n -> Z.testbit (Z.land (Z.shiftr w s) 255) n = (n <? 8) && Z.testbit w (n + s).
Proof.
  intros Hs Hn. change 255 with (Z.ones 8). rewrite Z.land_spec, Z.shiftr_spec, Z.testbit_ones by lia.
  destruct (Z.leb_spec 0 n); [|lia]. simpl. apply andb_comm.
Qed.

(** A byte that is stored is read back, the other bytes of the word are the same. *)
Lemma put_get w s v : 0 <= s ->
  Z.land (Z.shiftr (Z.lor (Z.ldiff w (Z.shiftl 255 s)) (Z.shiftl (u8 v) s)) s) 255 = u8 v.
Proof.
  intros Hs. apply Z.bits_inj'. intros n Hn. rewrite byte_bits, Z.lor_spec, Z.ldiff_spec, !Z.shiftl_spec by lia.
  replace (n + s - s) with n by lia. unfold u8, u8_mod. change 255 with (Z.ones 8). rewrite Z.testbit_ones by lia.
  change (2 ^ 8) with (2 ^ 8). destruct (Z.ltb_spec n 8).
  - destruct (Z.leb_spec 0 n); [|lia]. simpl. by rewrite andb_false_r.
  - simpl. symmetry. change 256 with (2 ^ 8). rewrite Z.mod_pow2_bits_high by lia. done.
Qed.

Lemma put_get_other w s t v : 0 <= s -> 0 <= t -> (t + 8 <= s \/ s + 8 <= t) ->
  Z.land (Z.shiftr (Z.lor (Z.ldiff w (Z.shiftl 255 s)) (Z.shiftl (u8 v) s)) t) 255 = Z.land (Z.shiftr w t) 255.
Proof.
  intros Hs Ht Hd. apply Z.bits_inj'. intros n Hn. rewrite !byte_bits, Z.lor_spec, Z.ldiff_spec, !Z.shiftl_spec by lia.
  destruct (Z.ltb_spec n 8); [|done]. simpl. change 255 with (Z.ones 8). unfold u8, u8_mod. change 256 with (2 ^ 8).
  destruct Hd as [Hd|Hd].
  - rewrite !(Z.testbit_neg_r _ (n + t - s)) by lia. by rewrite andb_true_r, orb_false_r.
  - rewrite Z.ones_spec_high, Z.mod_pow2_bits_high by lia. by rewrite andb_true_r, orb_false_r.
Qed.

Lemma byte_place a : a = word_of a + a mod 8 /\ word_of a mod 8 = 0 /\ 0 <= a mod 8 < 8.
Proof.
  unfold word_of. pose proof (Z.div_mod a 8 ltac:(lia)). split; [lia|]. split; [|apply Z.mod_pos_bound; lia].
  rewrite Z.mul_comm. apply Z.mod_mul. lia.
Qed.

Lemma store_load m a v : is_Some (m !! word_of a) ->
  exists w, store_byte m a v = Ok (<[word_of a := w]> m) /\ load_byte (<[word_of a := w]> m) a = Ok (u8 v) /\
    forall b, b <> a -> load_byte (<[word_of a := w]> m) b = load_byte m b.
Proof.
  intros [x Hx]. unfold store_byte, load_byte, read. rewrite Hx. cbn [of_option obind]. rewrite write_ok by (by exists x). eexists. split; [reflexivity|].
  rewrite lookup_insert_eq. cbn [of_option obind]. pose proof (byte_place a) as (Ea & _ & Ha). split.
  - rewrite put_get; [done|]. unfold byte_shift. lia.
  - intros b Hb. pose proof (byte_place b) as (Eb & _ & Hb8). destruct (decide (word_of a = word_of b)) as [E|Hne]; [|by rewrite lookup_insert_ne].
    rewrite <- E, lookup_insert_eq, Hx. cbn [of_option obind]. rewrite put_get_other; [done|unfold byte_shift; lia..].
Qed.

Lemma load_u8 m a b : load_byte m a = Ok b -> u8 b = b.
Proof.
  unfold load_byte. intros (w & _ & [= <-])%obind_ok. unfold u8, u8_mod. change 255 with (Z.ones 8). rewrite Z.land_ones by lia.
  change 256 with (2 ^ 8). by apply Z.mod_mod.
Qed.

(** ** Writing to a block *)

Definition set_ws (p : process) (m : words) : process := mkProc (gm p) (once p) m (heap p).

Lemma store_word p B parts ptr sz k w v :
  mem_inv p B parts -> B !! ptr = Some (sz, k) -> ptr <= w < ptr + sz -> w mod 8 = 0 ->
  exists parts', mem_inv (set_ws p (<[w := v]> (ws p))) B parts'.
Proof.
  intros HI HB Hw H8. destruct (block_covered _ _ _ _ _ _ HI HB) as (q & Hq & Hc & H16 & Hpos & Hsz).
  destruct (mi_parts _ _ _ HI) as [Elp Hown]. destruct (owns_focus _ _ _ _ Hown Hq) as (f & Ew & Hd & Hback & Hsub).
  assert (is_Some (q !! w)) as [x Hx] by (apply Hc; [lia|done]).
  assert (<[w := v]> q ##ₘ f) as Hd' by (apply map_disjoint_insert_l_2; [by eapply map_disjoint_Some_l|done]).
  assert (forall r s k' y, B !! r = Some (s, k') -> r - 32 <= y < r + s -> y < r -> (<[w := v]> q ∪ f) !! y = (q ∪ f) !! y) as Hother.
  { intros r s k' y Hr Hy Hlt. rewrite <- insert_union_l, lookup_insert_ne; [done|]. intros <-. destruct (decide (ptr = r)) as [->|Hne]; [lia|].
    destruct (block_pair_apart _ _ _ _ _ _ _ _ _ HI HB Hr Hne); lia. }
  exists (<[part_of k := <[w := v]> q]> parts). unfold set_ws. rewrite Ew, insert_union_l.
  destruct (mi_block _ _ _ HI _ _ _ HB) as [_ Hb]. destruct k as [i|]; simpl in *.
  - destruct Hb as (ca & c & b & Hi & Hh & Hle & _). destruct (cache_class _ _ _ _ _ _ HI Hi) as (cl & q0 & L & _ & _ & _ & _ & Hq0 & _ & _ & Hok & HL).
    rewrite Hq in Hq0. injection Hq0 as <-.
    apply (slab_step p B B parts i ca c c q f _ L); try done; [by apply Hback| | | |].
    + apply (write_step c q L (ptr - 32)); [done| |lia|done]. apply HL. exists sz. by replace (ptr - 32 + 32) with ptr by lia.
    + by rewrite list_insert_id.
    + intros r s k' y _ Hr Hy Hlt _. by apply (Hother r s k').
    + intros r s Hr. apply (block_kept p _ B parts); [done|done| |].
      * intros y Hy Hlt _. cbn [ws]. rewrite Ew. by apply (Hother r s (InSlab i)).
      * intros ca1 c1 Hi1. exists c1. done.
  - apply (heap_step p B B parts q f); try done; [by apply Hback| | |].
    + destruct (mi_heap _ _ _ HI) as (q0 & Hq0 & Hh1 & Hh2). rewrite Hq in Hq0. injection Hq0 as <-. split; [|done].
      intros b blk y Hb0 Hy. destruct (Hh1 b blk y Hb0 Hy). split; [done|]. rewrite lookup_insert_is_Some'. by right.
    + intros r s k' y Hr _ Hy Hlt _. by apply (Hother r s k').
    + intros r s Hr. apply (block_kept p _ B parts); [done|done| |done].
      intros y Hy Hlt _. cbn [ws]. rewrite Ew. by apply (Hother r s InHeap).
Qed.

Lemma store_byte_ok p B parts ptr sz k a v :
  mem_inv p B parts -> B !! ptr = Some (sz, k) -> ptr <= a < ptr + sz ->
  exists m', store_byte (ws p) a v = Ok m' /\ load_byte m' a = Ok (u8 v) /\ (forall b, b <> a -> load_byte m' b = load_byte (ws p) b) /\
    kept (delete ptr B) (ws p) m' /\ exists parts', mem_inv (set_ws p m') B parts'.
Proof.
  intros HI HB Ha. destruct (block_covered _ _ _ _ _ _ HI HB) as (q & _ & _ & H16 & Hpos & Hsz).
  pose proof (byte_place a) as (Ea & Ha8 & Hm).
  assert (ptr <= word_of a) as Hge.
  { pose proof (mod8_step (ptr - 32) 4 H16) as Hp8. replace (ptr - 32 + 8 * 4) with ptr in Hp8 by lia.
    unfold word_of. pose proof (Z.div_mod ptr 8 ltac:(lia)). pose proof (Z.div_le_mono ptr a 8 ltac:(lia) ltac:(lia)). lia. }
  destruct (store_load (ws p) a v) as (w & E & H1 & H2); [by apply (block_mapped _ _ _ _ _ _ HI HB); [lia|]|].
  eexists. split; [exact E|]. split; [done|]. split; [done|]. split; [|apply (store_word p B parts ptr sz k); [done|done|lia|done]].
  intros r s k' x [Hne Hr]%lookup_delete_Some Hx H8. rewrite lookup_insert_ne; [done|]. intros <-.
  destruct (block_pair_apart _ _ _ _ _ _ _ _ _ HI HB Hr Hne); lia.
Qed.

Lemma memset_ok n : forall p B parts ptr sz k a v,
  mem_inv p B parts -> B !! ptr = Some (sz, k) -> ptr <= a -> a + Z.of_nat n <= ptr + sz ->
  exists m', memset (ws p) a v n = Ok m' /\ (forall i, 0 <= i < Z.of_nat n -> load_byte m' (a + i) = Ok (u8 v)) /\
    (forall b, b < a \/ a + Z.of_nat n <= b -> load_byte m' b = load_byte (ws p) b) /\
    kept (delete ptr B) (ws p) m' /\ exists parts', mem_inv (set_ws p m') B parts'.
Proof.
  induction n as [|n IH]; intros p B parts ptr sz k a v HI HB Ha Hn; simpl.
  { exists (ws p). split; [done|]. split; [lia|]. split; [done|]. split; [done|]. exists parts. by destruct p. }
  destruct (store_byte_ok p B parts ptr sz k a v HI HB ltac:(lia)) as (m1 & -> & H1 & H2 & HK1 & parts1 & HI1). cbn [obind].
  destruct (IH (set_ws p m1) B parts1 ptr sz k (a + 1) v HI1 HB ltac:(lia) ltac:(lia)) as (m' & E & H3 & H4 & HK2 & parts' & HI').
  exists m'. split; [exact E|]. split; [|split; [|split; [by eapply kept_trans|by exists parts']]].
  - intros i Hi. destruct (decide (i = 0)) as [->|].
    + rewrite Z.add_0_r, H4 by lia. exact H1.
    + replace (a + i) with (a + 1 + (i - 1)) by lia. apply H3. lia.
  - intros b Hb. rewrite H4 by lia. apply H2. lia.
Qed.

Lemma memcpy_ok n : forall p B parts ptr sz k dst src,
  mem_inv p B parts -> B !! ptr = Some (sz, k) -> ptr <= dst -> dst + Z.of_nat n <= ptr + sz ->
  (dst + Z.of_nat n <= src \/ src + Z.of_nat n <= dst) ->
  (forall i, 0 <= i < Z.of_nat n -> exists b, load_byte (ws p) (src + i) = Ok b) ->
  exists m', memcpy (ws p) dst src n = Ok m' /\ (forall i, 0 <= i < Z.of_nat n -> load_byte m' (dst + i) = load_byte (ws p) (src + i)) /\
    (forall b, b < dst \/ dst + Z.of_nat n <= b -> load_byte m' b = load_byte (ws p) b) /\
    kept (delete ptr B) (ws p) m' /\ exists parts', mem_inv (set_ws p m') B parts'.
Proof.
  induction n as [|n IH]; intros p B parts ptr sz k dst src HI HB Ha Hn Hd Hl; simpl.
  { exists (ws p). split; [done|]. split; [lia|]. split; [done|]. split; [done|]. exists parts. by destruct p. }
  destruct (Hl 0 ltac:(lia)) as [b Hb]. rewrite Z.add_0_r in Hb. rewrite Hb. cbn [obind].
  destruct (store_byte_ok p B parts ptr sz k dst b HI HB ltac:(lia)) as (m1 & -> & H1 & H2 & HK1 & parts1 & HI1). cbn [obind].
  destruct (IH (set_ws p m1) B parts1 ptr sz k (dst + 1) (src + 1) HI1 HB ltac:(lia) ltac:(lia) ltac:(lia)) as (m' & E & H3 & H4 & HK2 & parts' & HI').
  { intros i Hi. cbn [ws set_ws]. rewrite H2 by lia. replace (src + 1 + i) with (src + (1 + i)) by lia. apply Hl. lia. }
  cbn [ws set_ws] in *. exists m'. split; [exact E|]. split; [|split; [|split; [by eapply kept_trans|by exists parts']]].
  - intros i Hi. destruct (decide (i = 0)) as [->|].
    + rewrite !Z.add_0_r, H4, H1, Hb by lia. f_equal. by eapply load_u8.
    + replace (dst + i) with (dst + 1 + (i - 1)) by lia. rewrite H3, H2 by lia. f_equal. lia.
  - intros x Hx. rewrite H4 by lia. apply H2. lia.
Qed.

(** ** Start *)

(** calloc gives different addresses, none of them NULL. *)
Definition good_caches (ans : list (option Z)) : Prop :=
  forall i a, ans !! i = Some (Some a) -> 0 < a /\ forall j, ans !! j = Some (Some a) -> i = j.

Definition new_cache (a cl : Z) : option (Z * qd_slab_cache) := Some (a, qd_slab_cache_create cl QD_MAX_ALIGN 0).

Lemma destroy_empty cs m : Forall (fun o => match o with Some (_, c) => all c = [] | None => True end) cs -> destroy_caches cs m = m.
Proof.
  induction 1 as [|[[a c]|] cs Hc _ IH]; simpl; [done| |done]. unfold qd_slab_cache_destroy. unfold all in Hc. by rewrite Hc.
Qed.

Lemma create_caches_ok classes : forall ans done old m,
  Forall (fun o => match o with Some (_, c) => all c = [] | None => True end) done -> old = replicate (length classes) None ->
  (exists addrs, (Some <$> addrs) `prefix_of` ans /\ length addrs = length classes /\
     create_caches classes ans done old m = (true, done ++ zip_with new_cache addrs classes, m)) \/
  create_caches classes ans done old m = (false, replicate (length done + length classes) None, m).
Proof.
  induction classes as [|cl classes IH]; intros ans done old m Hd Ho; simpl in *.
  { left. exists []. split; [apply prefix_nil|]. split; [done|]. by rewrite app_nil_r. }
  assert ((false, map (fun _ => None) done ++ None :: tail old, destroy_caches done m) =
          (false, replicate (length done + S (length classes)) (None : option (Z * qd_slab_cache)), m)) as Efail.
  { rewrite destroy_empty, Ho by done. f_equal. f_equal. rewrite replicate_add. f_equal. clear. induction done; simpl; congruence. }
  destruct ans as [|[a|] ans]; [by right| |by right].
  destruct (IH ans (done ++ [new_cache a cl]) (tail old) m) as [(addrs & Hp & El & E)|E].
  - apply Forall_app. split; [done|]. by apply Forall_singleton.
  - by rewrite Ho.
  - left. exists (a :: addrs). split; [by apply prefix_cons|]. split; [simpl; lia|]. unfold new_cache in E at 1. rewrite E, <- app_assoc. done.
  - right. unfold new_cache in E. rewrite E. do 2 f_equal. rewrite length_app. simpl. f_equal. lia.
Qed.

Lemma no_slab_blocks p B parts ptr sz i : mem_inv p B parts -> initialized (gm p) = false -> B !! ptr <> Some (sz, InSlab i).
Proof.
  intros HI Hin HB. destruct (mi_block _ _ _ HI _ _ _ HB) as [_ (ca & c & b & Hi & _)].
  destruct (cache_class _ _ _ _ _ _ HI Hi) as (_ & _ & _ & _ & _ & ? & _). congruence.
Qed.

Lemma memory_init_ok p B parts ans : mem_inv p B parts -> good_caches ans ->
  let p' := snd (qd_memory_init ans p) in mem_inv p' B parts /\ ws p' = ws p /\ heap p' = heap p.
Proof.
  intros HI Hg. unfold qd_memory_init. destruct (initialized (gm p)) eqn:Hin; [done|].
  destruct (mi_caches _ _ _ HI) as (_ & Hnum & Hn). specialize (Hn Hin). rewrite Hin in Hnum. destruct (mi_parts _ _ _ HI) as [Elp _].
  assert (forall g, (forall ptr sz, B !! ptr = Some (sz, InHeap) -> block_ok (mkProc g (once p) (ws p) (heap p)) ptr sz InHeap)) as Hheap.
  { intros g ptr sz HB. by apply (block_kept p _ B parts). }
  destruct (create_caches_ok size_classes ans [] (caches (gm p)) (ws p)) as [(addrs & Hp & El & E)|E]; [done|by rewrite Hn| |]; rewrite E; cbn [snd ws heap app]; (split; [|done]).
  - assert (forall i a, addrs !! i = Some a -> ans !! i = Some (Some a)) as Hans.
    { intros i a Ha. eapply prefix_lookup_Some; [|done]. by rewrite list_lookup_fmap, Ha. }
    assert (forall i o, zip_with new_cache addrs size_classes !! i = Some o -> exists a cl, addrs !! i = Some a /\ size_classes !! i = Some cl /\ o = new_cache a cl) as Hz.
    { intros i o (a & cl & -> & ? & ?)%lookup_zip_with_Some. by exists a, cl. }
    split; cbn [ws gm heap set_caches caches initialized num_caches].
    + apply (mi_parts _ _ _ HI).
    + intros _ i cl Hi. assert (i < 12)%nat as Hlt by (by apply lookup_lt_Some in Hi).
      destruct (lookup_lt_is_Some_2 addrs i) as [a Ha]; [rewrite El; simpl; lia|]. destruct (lookup_lt_is_Some_2 parts i) as [q Hq]; [lia|].
      exists a, (qd_slab_cache_create cl QD_MAX_ALIGN 0), q, ∅. cbn [gm caches set_caches]. split; [apply lookup_zip_with_Some; by exists a, cl|].
      split; [by apply (Hg i), Hans|]. split; [done|]. split; [done|]. split.
      * apply create_ok. pose proof class_geometry as Hcg. rewrite Forall_lookup in Hcg. by apply (Hcg i).
      * intros x. split; [set_solver|]. intros [sz HB]. by apply (no_slab_blocks _ _ _ _ _ _ HI Hin) in HB.
    + apply (mi_heap _ _ _ HI).
    + intros ptr sz [i|] HB; [by apply (no_slab_blocks _ _ _ _ _ _ HI Hin) in HB|by apply Hheap].
    + rewrite length_zip_with, El. done.
    + intros i j ca c d (a & cl & Ha & _ & [= <- _])%Hz (a' & cl' & Ha' & _ & [= Ea _])%Hz. subst a'. destruct (Hg i ca (Hans i ca Ha)) as [_ Hu].
      by apply Hu, Hans.
  - split; cbn [ws gm heap set_caches caches initialized num_caches].
    + apply (mi_parts _ _ _ HI).
    + done.
    + apply (mi_heap _ _ _ HI).
    + intros ptr sz [i|] HB; [by apply (no_slab_blocks _ _ _ _ _ _ HI Hin) in HB|by apply Hheap].
    + done.
    + intros i j ca c d Hi. by apply lookup_replicate in Hi as [? _].
Qed.

Lemma once_ok p B parts ans : mem_inv p B parts -> good_caches ans ->
  let p' := memory_once ans p in mem_inv p' B parts /\ ws p' = ws p /\ heap p' = heap p.
Proof.
  intros HI Hg. unfold memory_once. destruct (once p); [done|]. destruct (memory_init_ok p B parts ans HI Hg) as (H1 & H2 & H3).
  split; [by apply mem_inv_gm|done].
Qed.

(** ** Allocation *)

Lemma find_class_spec l : forall i n,
  (find_class i l n = -1 /\ Forall (fun c => c < n) l) \/ (exists j c, find_class i l n = i + Z.of_nat j /\ l !! j = Some c /\ n <= c).
Proof.
  induction l as [|c l IH]; intros i n; simpl; [by left|]. destruct (Z.leb_spec n c).
  - right. exists 0%nat, c. split; [lia|done].
  - destruct (IH (i + 1) n) as [[-> H1]|(j & d & -> & H1 & H2)]; [left; split; [done|by constructor]|].
    right. exists (S j), d. split; [lia|done].
Qed.

(** What the system may answer to a call that allocates [sz] bytes. *)
Definition answers_ok (sz : Z) (ans : answers) (p : process) : Prop :=
  good_caches (a_caches ans) /\
  (forall i cl, find_size_class (sz + 32) = Z.of_nat i -> size_classes !! i = Some cl ->
     fresh_pages (slab_size (qd_slab_cache_create cl QD_MAX_ALIGN 0)) (ws p) (a_pages ans)) /\
  fresh_heap (sz + 32) (ws p) (a_block ans).

Lemma malloc_ok p B parts sz ans :
  mem_inv p B parts -> 0 < sz < u64_mod -> answers_ok sz ans p ->
  exists r p', qd_malloc sz ans p = Ok (r, p') /\ kept B (ws p) (ws p') /\
    ((r = 0 /\ (u64_mod - 32 <= sz \/ a_block ans = None) /\ exists parts', mem_inv p' B parts') \/
     (0 < r /\ B !! r = None /\ exists k parts', mem_inv p' (<[r := (sz, k)]> B) parts')).
Proof.
  intros HI Hsz (Hg & Hpg & Hbl). unfold qd_malloc. destruct (Z.eqb_spec sz 0); [lia|]. rewrite hdr_32.
  destruct (once_ok p B parts _ HI Hg) as (HI1 & Ew & Eh). set (p1 := memory_once (a_caches ans) p) in *.
  destruct (Z.ltb_spec (u64_mod - 1 - 32) sz).
  { exists 0, p1. split; [done|]. rewrite Ew. split; [done|]. left. split; [done|]. split; [left; lia|]. by exists parts. }
  rewrite u64_small by (unfold is_u64; lia).
  assert (forall p2 o, p2 = p1 -> o = 0 -> exists r p', (if negb (o =? 0) then Ok (o, p2) else malloc_heap sz (a_block ans) p2) = Ok (r, p') /\ kept B (ws p) (ws p') /\
    ((r = 0 /\ (u64_mod - 32 <= sz \/ a_block ans = None) /\ exists parts', mem_inv p' B parts') \/
     (0 < r /\ B !! r = None /\ exists k parts', mem_inv p' (<[r := (sz, k)]> B) parts'))) as Hheap.
  { intros p2 o -> ->. cbn [negb Z.eqb]. destruct (a_block ans) as [[b blk]|].
    - rewrite <- Ew in Hbl. destruct (malloc_heap_ok p1 B parts sz b blk HI1 ltac:(lia) Hbl) as (p' & -> & H1 & H2 & H3 & parts' & H4).
      exists (b + 32), p'. split; [done|]. rewrite <- Ew. split; [done|]. right. eauto.
    - exists 0, p1. split; [done|]. rewrite Ew. split; [done|]. left. split; [done|]. split; [by right|]. by exists parts. }
  destruct (initialized (gm p1)) eqn:Hin.
  2: { unfold malloc_slab. rewrite Hin. cbn [obind]. by apply Hheap. }
  destruct (find_class_spec size_classes 0 (sz + 32)) as [[E _]|(i & cl & E & Hcl & Hle)]; fold (find_size_class (sz + 32)) in E.
  { unfold malloc_slab. rewrite Hin, E. cbn [obind Z.leb Z.compare]. by apply Hheap. }
  rewrite Z.add_0_l in E. pose proof (Hpg i cl E Hcl) as Hf. rewrite <- Ew in Hf.
  destruct (malloc_slab_ok p1 B parts i cl sz (a_pages ans) HI1 Hin Hcl E ltac:(lia) Hle Hf) as (r & p' & -> & [(-> & _ & ->)|(Hr & Hfr & HK & parts' & HI')]).
  - cbn [obind]. by apply Hheap.
  - cbn [obind]. destruct (Z.eqb_spec r 0); [lia|]. cbn [negb]. exists r, p'. split; [done|]. rewrite <- Ew. split; [done|]. right. eauto.
Qed.
