(* ===== verification/MallocFacts.v ===== *)
(** * The general allocator: what clients get

    The states that calls reach, and the theorems about them. *)

From S2P Require Import Prelude Common Slab Malloc MallocFrame MallocInv MallocSafe MallocRun.

(** ** The bytes of blocks *)

Lemma block_aligned p B parts ptr sz k : mem_inv p B parts -> B !! ptr = Some (sz, k) -> ptr mod 16 = 0 /\ 32 < ptr /\ 0 < sz.
Proof.
  intros HI HB. destruct (block_covered _ _ _ _ _ _ HI HB) as (_ & _ & _ & H16 & Hpos & Hsz). split; [|lia].
  apply Z.mod_divide in H16 as [y Hy]; [|lia]. replace ptr with (0 + (y + 2) * 16) by lia. by rewrite Z.mod_add.
Qed.

Lemma block_word p B parts ptr sz k a : mem_inv p B parts -> B !! ptr = Some (sz, k) -> ptr <= a -> ptr <= word_of a <= a.
Proof.
  intros HI HB Ha. destruct (block_aligned _ _ _ _ _ _ HI HB) as [H16%mod8_of_16 _]. pose proof (byte_place a) as (Ea & _ & Hm). split; [|lia].
  unfold word_of in *. pose proof (Z.div_mod ptr 8 ltac:(lia)). pose proof (Z.div_le_mono ptr a 8 ltac:(lia) ltac:(lia)). lia.
Qed.

Lemma kept_bytes p B parts B0 m m' ptr sz k a :
  mem_inv p B parts -> B !! ptr = Some (sz, k) -> B0 !! ptr = Some (sz, k) -> kept B0 m m' -> ptr <= a < ptr + sz -> load_byte m' a = load_byte m a.
Proof.
  intros HI HB HB0 HK Ha. pose proof (block_word _ _ _ _ _ _ a HI HB ltac:(lia)). pose proof (byte_place a) as (_ & H8 & _).
  unfold load_byte, read. rewrite (HK ptr sz k (word_of a)); [done|done|lia|done].
Qed.

Lemma block_loads p B parts ptr sz k a : mem_inv p B parts -> B !! ptr = Some (sz, k) -> ptr <= a < ptr + sz -> exists b, load_byte (ws p) a = Ok b.
Proof.
  intros HI HB Ha. pose proof (block_word _ _ _ _ _ _ a HI HB ltac:(lia)). pose proof (byte_place a) as (_ & H8 & _).
  destruct (block_mapped _ _ _ _ _ _ HI HB (word_of a)) as [v Hv]; [lia|done|]. unfold load_byte, read. rewrite Hv. simpl. eauto.
Qed.

(** ** Whole calls *)

Lemma calloc_ok p B parts n sz ans :
  mem_inv p B parts -> 0 < n * sz < u64_mod -> answers_ok (n * sz) ans p ->
  exists r p', qd_calloc n sz ans p = Ok (r, p') /\ kept B (ws p) (ws p') /\
    ((r = 0 /\ exists parts', mem_inv p' B parts') \/
     (0 < r /\ B !! r = None /\ (forall i, 0 <= i < n * sz -> load_byte (ws p') (r + i) = Ok 0) /\
      exists k parts', mem_inv p' (<[r := (n * sz, k)]> B) parts')).
Proof.
  intros HI Hs Ha. unfold qd_calloc. rewrite (u64_small (n * sz)) by (unfold is_u64; lia).
  destruct (malloc_ok p B parts (n * sz) ans HI Hs Ha) as (r & p1 & -> & HK & [(-> & _ & HI1)|(Hr & Hfr & k & parts1 & HI1)]); cbn [obind].
  { exists 0, p1. split; [done|]. split; [done|]. by left. }
  destruct (Z.eqb_spec r 0); [lia|].
  destruct (memset_ok (Z.to_nat (n * sz)) p1 _ parts1 r (n * sz) k r 0 HI1 (lookup_insert_eq _ _ _)) as (m & -> & H1 & _ & HK2 & parts2 & HI2); [lia|lia|].
  cbn [obind]. eexists _, _. split; [reflexivity|]. cbn [ws]. rewrite delete_insert_id in HK2 by done.
  split; [by eapply kept_trans|]. right. split; [done|]. split; [done|]. split; [|by eauto]. intros i Hi. apply H1. lia.
Qed.

Lemma realloc_ok p B parts ptr old k sz ans :
  mem_inv p B parts -> B !! ptr = Some (old, k) -> 0 < sz < u64_mod -> answers_ok sz ans p ->
  exists r p', qd_realloc ptr sz ans p = Ok (r, p') /\ kept (delete ptr B) (ws p) (ws p') /\
    ((r = 0 /\ kept B (ws p) (ws p') /\ exists parts', mem_inv p' B parts') \/
     (0 < r /\ B !! r = None /\ (forall i, 0 <= i < old -> i < sz -> load_byte (ws p') (r + i) = load_byte (ws p) (ptr + i)) /\
      exists k' parts', mem_inv p' (<[r := (sz, k')]> (delete ptr B)) parts')).
Proof.
  intros HI HB Hs Ha. destruct (block_aligned _ _ _ _ _ _ HI HB) as (_ & Hptr & Hold).
  unfold qd_realloc. destruct (Z.eqb_spec ptr 0); [lia|]. destruct (Z.eqb_spec sz 0); [lia|].
  destruct (malloc_ok p B parts sz ans HI Hs Ha) as (r & p1 & -> & HK & [(-> & _ & HI1)|(Hr & Hfr & k' & parts1 & HI1)]); cbn [obind].
  { exists 0, p1. split; [done|]. split; [eapply kept_sub; [apply delete_subseteq|done]|]. by left. }
  destruct (Z.eqb_spec r 0); [lia|]. assert (r <> ptr) as Hne by (intros ->; congruence).
  assert (<[r := (sz, k')]> B !! ptr = Some (old, k)) as HB1 by (by rewrite lookup_insert_ne).
  assert (read (ws p1) (ptr - qd_alloc_header_size + 8) = Ok old) as ->.
  { rewrite hdr_32. unfold read. destruct (mi_block _ _ _ HI1 _ _ _ HB1) as [_ Hb]. destruct k as [i|].
    - destruct Hb as (ca & c & b & _ & _ & _ & _ & -> & _). done.
    - destruct Hb as (blk & _ & _ & _ & _ & _ & -> & _). done. }
  cbn [obind]. set (len := Z.to_nat (if old <? sz then old else sz)).
  assert (Z.of_nat len = Z.min old sz) as En by (unfold len; destruct (Z.ltb_spec old sz); lia).
  pose proof (block_pair_apart _ _ _ _ _ _ _ _ _ HI1 (lookup_insert_eq B r (sz, k')) HB1 Hne) as Hap.
  destruct (memcpy_ok len p1 _ parts1 r sz k' r ptr HI1 (lookup_insert_eq _ _ _)) as (m & -> & H1 & H2 & HK2 & parts2 & HI2); [lia|lia|lia| |].
  { intros i Hi. apply (block_loads p1 (<[r := (sz, k')]> B) parts1 ptr old k); [done|done|lia]. }
  cbn [obind]. destruct (free_block _ _ _ ptr old k HI2 HB1) as (p' & E3 & HK3 & parts3 & HI3). unfold set_ws in E3. rewrite E3. cbn [obind].
  rewrite delete_insert_id in HK2 by done. rewrite delete_insert_ne in HI3, HK3 by done. cbn [ws set_ws] in HK3.
  exists r, p'. split; [done|]. split.
  { apply (kept_trans _ _ m); [apply (kept_sub B); [apply delete_subseteq|by eapply kept_trans]|].
    eapply kept_sub; [|exact HK3]. apply insert_subseteq. rewrite lookup_delete_ne by done. done. }
  right. split; [done|]. split; [done|]. split; [|by eauto]. intros i Hi Hi'.
  rewrite (kept_bytes p' (<[r := (sz, k')]> (delete ptr B)) parts3 (<[r := (sz, k')]> (delete ptr B)) m (ws p') r sz k' (r + i)); [|done|apply lookup_insert_eq|apply lookup_insert_eq|done|lia].
  rewrite H1 by lia. apply (kept_bytes p B parts B _ _ ptr old k); [done|done|done|done|lia].
Qed.

(** Memory that posix_memalign or other parts of the program take. *)
Lemma heap_add p B parts n b blk :
  mem_inv p B parts -> 0 < n -> fresh_heap n (ws p) (Some (b, blk)) ->
  let p' := mkProc (gm p) (once p) (blk ∪ ws p) (<[b := blk]> (heap p)) in
  kept B (ws p) (ws p') /\ exists parts', mem_inv p' B parts'.
Proof.
  intros HI Hn (Hb & H16 & Hdb & Hcov & H8b) p'. destruct (mi_heap _ _ _ HI) as (q & Hq & Hh1 & Hh2). destruct (mi_parts _ _ _ HI) as [Elp Hown].
  destruct (owns_focus _ _ _ _ Hown Hq) as (f & Ew & Hd & Hback & Hsub). pose proof Hdb as Hdb'.
  rewrite Ew in Hdb'. apply map_disjoint_union_r in Hdb' as [Hbq Hbf].
  assert (forall ptr s k x, B !! ptr = Some (s, k) -> ptr - 32 <= x < ptr + s -> x mod 8 = 0 -> blk !! x = None) as Hnone.
  { intros ptr s k x HB Hx H8. apply eq_None_not_Some. intros Hy. apply (disjoint_is_Some blk (ws p) x Hdb Hy).
    apply (block_mapped _ _ _ _ _ _ HI HB); [lia|done]. }
  assert (kept B (ws p) (blk ∪ ws p)) as HK by (intros ptr s k x HB Hx H8; rewrite lookup_union_r; [done|by eapply Hnone]).
  split; [done|]. exists (<[12%nat := blk ∪ q]> parts). unfold p'. rewrite Ew, map_union_assoc in *.
  apply (heap_step p B B parts q f (blk ∪ q) _ _ HI Hq Ew); try done; [by apply Hback, map_disjoint_union_l_2| | |].
  - split.
    + intros b' blk' x [[<- <-]|[Hne Hb']]%lookup_insert_Some Hx; rewrite lookup_union_is_Some; [by auto|]. destruct (Hh1 b' blk' x Hb' Hx). by auto.
    + assert (forall b' blk', heap p !! b' = Some blk' -> blk ##ₘ blk') as Hdj.
      { intros b' blk' Hb'. apply map_disjoint_spec. intros x v w Hv Hw. apply (disjoint_is_Some blk q x Hbq); [by exists v|].
        apply (Hh1 b' blk' x Hb'). by exists w. }
      intros b1 b2 k1 k2 Hne [[<- <-]|[Hn1 H1]]%lookup_insert_Some [[<- <-]|[Hn2 H2]]%lookup_insert_Some; [done|by eapply Hdj|symmetry; by eapply Hdj|by apply (Hh2 b1 b2)].
  - intros ptr s k x HB _ Hx _ H8. by apply (HK ptr s k).
  - intros ptr s HB. apply (block_kept p _ B parts); [done|done| |].
    + intros x Hx _ H8. cbn [ws]. rewrite Ew. by apply (HK ptr s InHeap).
    + cbn [heap]. rewrite lookup_insert_ne; [done|]. intros E. destruct (block_covered _ _ _ _ _ _ HI HB) as (_ & _ & _ & _ & _ & Hs).
      pose proof (mod8_of_16 b H16). destruct (Hcov b) as [v Hv]; [lia|done|]. rewrite (Hnone ptr s InHeap b) in Hv; [done|done|lia|done].
Qed.

(** ** The end *)

(** The address [x] is in a slab of one of the caches. *)
Definition gone (cs : list (option (Z * qd_slab_cache))) (x : Z) : Prop :=
  exists a c s, Some (a, c) ∈ cs /\ s ∈ all c /\ sbase s - header_size <= x < sbase s + slab_size c.

Lemma destroy_slabs_lookup c l : forall m x v,
  foldl (fun m s => slab_destroy c s m) m l !! x = Some v <->
  m !! x = Some v /\ ~ exists s, s ∈ l /\ sbase s - header_size <= x < sbase s + slab_size c.
Proof.
  induction l as [|s l IH]; intros m x v; simpl.
  - split; [|tauto]. intros H. split; [done|]. by intros (s & ?%elem_of_nil & _).
  - rewrite IH. unfold slab_destroy. rewrite map_lookup_filter_Some. cbn [fst]. setoid_rewrite elem_of_cons. split.
    + intros [[H1 H2] H3]. split; [done|]. intros (t & [->|Ht] & Hx); [done|]. apply H3. eauto.
    + intros [H1 H2]. split; [split; [done|]; intros Hx; apply H2; eauto|]. intros (t & Ht & Hx). apply H2. eauto.
Qed.

Lemma destroy_lookup cs : forall m x v, destroy_caches cs m !! x = Some v <-> m !! x = Some v /\ ~ gone cs x.
Proof.
  induction cs as [|[[a c]|] cs IH]; intros m x v; simpl.
  - split; [|tauto]. intros H. split; [done|]. by intros (a & c & s & ?%elem_of_nil & _).
  - rewrite IH. unfold qd_slab_cache_destroy. rewrite destroy_slabs_lookup. split.
    + intros [[H1 H2] H3]. split; [done|]. intros (a' & c' & s & [[= -> ->]|Hc]%elem_of_cons & Hs & Hx); [by apply H2; exists s|]. apply H3. by exists a', c', s.
    + intros [H1 H2]. split; [split; [done|]|].
      * intros (s & Hs & Hx). apply H2. exists a, c, s. split; [set_solver|done].
      * intros (a' & c' & s & Hc & Hs & Hx). apply H2. exists a', c', s. split; [set_solver|done].
  - rewrite IH. split; intros [H1 H2]; (split; [done|]); intros (a & c & s & Hc & Hs & Hx); apply H2; exists a, c, s; (split; [set_solver|done]).
Qed.

(** When no block is in use, the end unmaps the slabs and keeps the rest. *)
Lemma shutdown_ok p parts : mem_inv p ∅ parts -> exists parts', mem_inv (qd_memory_shutdown p) ∅ parts'.
Proof.
  intros HI. unfold qd_memory_shutdown. destruct (initialized (gm p)) eqn:Hin; [|by exists parts]. cbn [negb].
  destruct (mi_caches _ _ _ HI) as (El & En & _). rewrite Hin in En. rewrite En. change (Z.to_nat 12) with 12%nat.
  rewrite take_ge, drop_ge, app_nil_r by lia. set (cs := caches (gm p)) in *.
  destruct (mi_parts _ _ _ HI) as [Elp [Ha Hd]]. exists (destroy_caches cs <$> parts).
  assert (map (fun _ : option (Z * qd_slab_cache) => None) cs = replicate 12 (None : option (Z * qd_slab_cache))) as Ecs.
  { rewrite <- El. clear. induction cs; simpl; congruence. }
  split; cbn [ws gm heap set_caches caches initialized num_caches].
  - split; [by rewrite length_fmap|]. split.
    + intros x v. rewrite destroy_lookup, Ha. split.
      * intros [(i & q & Hq & Hx) Hn]. exists i, (destroy_caches cs q). rewrite list_lookup_fmap, Hq. split; [done|]. by apply destroy_lookup.
      * intros (i & q & Hq & Hx). rewrite list_lookup_fmap in Hq. destruct (parts !! i) as [q0|] eqn:E; [|done]. injection Hq as <-.
        apply destroy_lookup in Hx as [Hx Hn]. eauto.
    + intros i j q r Hne Hq Hr. rewrite list_lookup_fmap in Hq, Hr. destruct (parts !! i) as [q0|] eqn:Ei; [|done]. destruct (parts !! j) as [r0|] eqn:Ej; [|done].
      injection Hq as <-. injection Hr as <-. apply map_disjoint_spec. intros x v w [Hv _]%destroy_lookup [Hw _]%destroy_lookup.
      by eapply (disjoint_is_Some q0 r0 x); [by apply (Hd i j)|exists v|exists w].
  - done.
  - destruct (mi_heap _ _ _ HI) as (q & Hq & Hh1 & Hh2). exists (destroy_caches cs q). rewrite list_lookup_fmap, Hq. split; [done|]. split; [|done].
    intros b blk x Hb Hx. destruct (Hh1 b blk x Hb Hx) as [H8 [v Hv]]. split; [done|]. exists v. apply destroy_lookup. split; [done|].
    intros (a & c & s & [i Hi]%list_elem_of_lookup & Hs & Hr).
    destruct (cache_class _ _ _ _ _ _ HI Hi) as (cl & qi & L & _ & Hlt & _ & _ & Hqi & _ & _ & (Hg & F & [_ (H1 & _) _ _ _] & _) & _).
    apply (disjoint_is_Some qi q x); [apply (Hd i 12%nat); [lia|done|done]| |by exists v]. by apply (so_words _ _ _ _ _ _ (H1 s Hs)).
  - intros ptr sz k HB. by rewrite lookup_empty in HB.
  - by rewrite Ecs.
  - rewrite Ecs. intros i j ca c d Hi. by apply lookup_replicate in Hi as [? _].
Qed.

(** ** The states that calls reach *)

(** The blocks in use with their sizes; NULL is not one. *)
Abbreviation sizes := (gmap Z Z).
Definition taken (r sz : Z) (S : sizes) : sizes := if r =? 0 then S else <[r := sz]> S.

Inductive reach : process -> sizes -> Prop :=
| reach_start : reach process_0 ∅
| reach_init p S ans : reach p S -> good_caches ans -> reach (snd (qd_memory_init ans p)) S
| reach_malloc p S sz ans r p' :
    reach p S -> 0 < sz < u64_mod -> answers_ok sz ans p -> qd_malloc sz ans p = Ok (r, p') -> reach p' (taken r sz S)
| reach_calloc p S n sz ans r p' :
    reach p S -> 0 < n * sz < u64_mod -> answers_ok (n * sz) ans p -> qd_calloc n sz ans p = Ok (r, p') -> reach p' (taken r (n * sz) S)
| reach_realloc p S ptr old sz ans r p' :
    reach p S -> S !! ptr = Some old -> 0 < sz < u64_mod -> answers_ok sz ans p -> qd_realloc ptr sz ans p = Ok (r, p') ->
    reach p' (if r =? 0 then S else <[r := sz]> (delete ptr S))
| reach_free p S ptr sz p' : reach p S -> S !! ptr = Some sz -> qd_free ptr p = Ok p' -> reach p' (delete ptr S)
| reach_store p S ptr sz a v m' :
    reach p S -> S !! ptr = Some sz -> ptr <= a < ptr + sz -> store_byte (ws p) a v = Ok m' -> reach (set_ws p m') S
| reach_aligned p S n b blk :
    reach p S -> 0 < n -> fresh_heap n (ws p) (Some (b, blk)) -> reach (snd (qd_aligned_alloc (Some (b, blk)) p)) S
| reach_aligned_free p S a p' :
    reach p S -> S !! (a + 32) = None -> is_Some (heap p !! a) -> qd_aligned_free a p = Ok p' -> reach p' S
| reach_shutdown p : reach p ∅ -> reach (qd_memory_shutdown p) ∅.

Definition state_ok (p : process) (S : sizes) : Prop := exists B parts, mem_inv p B parts /\ S = fst <$> B.

Lemma state_lookup B (S : sizes) ptr sz : S = fst <$> (B : blocks) -> S !! ptr = Some sz -> exists k, B !! ptr = Some (sz, k).
Proof. intros -> H. rewrite lookup_fmap in H. destruct (B !! ptr) as [[s k]|]; [|done]. injection H as <-. by exists k. Qed.
Lemma state_lookup_None B (S : sizes) ptr : S = fst <$> (B : blocks) -> B !! ptr = None <-> S !! ptr = None.
Proof. intros ->. rewrite lookup_fmap. by destruct (B !! ptr). Qed.

Lemma start_ok : mem_inv process_0 ∅ (replicate 13 ∅).
Proof.
  split; cbn [ws gm heap process_0 g_memory_0 caches initialized num_caches].
  - split; [done|]. split.
    + intros x v. rewrite lookup_empty. split; [done|]. intros (i & q & [-> _]%lookup_replicate & Hx). by rewrite lookup_empty in Hx.
    + intros i j q r _ [-> _]%lookup_replicate _. apply map_disjoint_empty_l.
  - done.
  - exists ∅. split; [done|]. split; [intros b blk x Hb|intros b b' blk blk' _ Hb]; by rewrite lookup_empty in Hb.
  - intros ptr sz k HB. by rewrite lookup_empty in HB.
  - done.
  - intros i j ca c d Hi. by apply lookup_replicate in Hi as [? _].
Qed.

Lemma reach_ok p S : reach p S -> state_ok p S.
Proof.
  induction 1 as [|p S ans _ (B & parts & HI & ES) Hg|p S sz ans r p' _ (B & parts & HI & ES) Hs Ha E|p S n sz ans r p' _ (B & parts & HI & ES) Hs Ha E
    |p S ptr old sz ans r p' _ (B & parts & HI & ES) Hp Hs Ha E|p S ptr sz p' _ (B & parts & HI & ES) Hp E|p S ptr sz a v m' _ (B & parts & HI & ES) Hp Ha E
    |p S n b blk _ (B & parts & HI & ES) Hn Hf|p S a p' _ (B & parts & HI & ES) HN [blk Hb] E|p _ (B & parts & HI & ES)].
  - exists ∅, (replicate 13 ∅). split; [apply start_ok|by rewrite fmap_empty].
  - exists B, parts. split; [by apply memory_init_ok|done].
  - destruct (malloc_ok p B parts sz ans HI Hs Ha) as (r1 & p1 & E1 & _ & H1). rewrite E1 in E. injection E as -> ->.
    destruct H1 as [(-> & _ & parts' & H1)|(Hr & _ & k & parts' & H1)]; [by exists B, parts'|]. exists (<[r := (sz, k)]> B), parts'. split; [done|].
    unfold taken. destruct (Z.eqb_spec r 0); [lia|]. by rewrite fmap_insert, ES.
  - destruct (calloc_ok p B parts n sz ans HI Hs Ha) as (r1 & p1 & E1 & _ & H1). rewrite E1 in E. injection E as -> ->.
    destruct H1 as [(-> & parts' & H1)|(Hr & _ & _ & k & parts' & H1)]; [by exists B, parts'|]. exists (<[r := (n * sz, k)]> B), parts'. split; [done|].
    unfold taken. destruct (Z.eqb_spec r 0); [lia|]. by rewrite fmap_insert, ES.
  - destruct (state_lookup B S ptr old ES Hp) as [k HB].
    destruct (realloc_ok p B parts ptr old k sz ans HI HB Hs Ha) as (r1 & p1 & E1 & _ & H1). rewrite E1 in E. injection E as -> ->.
    destruct H1 as [(-> & _ & parts' & H1)|(Hr & _ & _ & k' & parts' & H1)]; [by exists B, parts'|]. eexists _, parts'. split; [exact H1|].
    destruct (Z.eqb_spec r 0); [lia|]. by rewrite fmap_insert, fmap_delete, ES.
  - destruct (state_lookup B S ptr sz ES Hp) as [k HB]. destruct (free_block p B parts ptr sz k HI HB) as (p1 & E1 & _ & parts' & H1).
    rewrite E1 in E. injection E as ->. exists (delete ptr B), parts'. split; [done|]. by rewrite fmap_delete, ES.
  - destruct (state_lookup B S ptr sz ES Hp) as [k HB]. destruct (store_byte_ok p B parts ptr sz k a v HI HB Ha) as (m1 & E1 & _ & _ & _ & parts' & H1).
    rewrite E1 in E. injection E as ->. by exists B, parts'.
  - destruct (heap_add p B parts n b blk HI Hn Hf) as (_ & parts' & H1). by exists B, parts'.
  - unfold qd_aligned_free in E. destruct (a =? 0); [injection E as <-; by exists B, parts|]. apply (state_lookup_None B) in HN; [|done].
    destruct (libc_free_ok p B parts a blk HI Hb) as (p1 & E1 & _ & _ & parts' & H1); [by rewrite HN|]. rewrite E1 in E. injection E as ->.
    rewrite delete_id in H1 by done. by exists B, parts'.
  - symmetry in ES. apply fmap_empty_inv in ES as ->. destruct (shutdown_ok p parts HI) as [parts' H1]. exists ∅, parts'. split; [done|by rewrite fmap_empty].
Qed.

(** ** What clients get *)

(** C12: In every state that calls reach, qd_malloc gives NULL only when the size is
    within 32 bytes of the largest number or the system has no memory; else a pointer
    aligned to 16 to readable bytes that, with their header, overlap no block in use.
    The bytes of the blocks in use stay the same. *)
Theorem malloc_fresh p S sz ans :
  reach p S -> 0 < sz < u64_mod -> answers_ok sz ans p ->
  exists r p', qd_malloc sz ans p = Ok (r, p') /\
    (forall q s a, S !! q = Some s -> q <= a < q + s -> load_byte (ws p') a = load_byte (ws p) a) /\
    ((r = 0 /\ (u64_mod - 32 <= sz \/ a_block ans = None)) \/
     (0 < r /\ r mod 16 = 0 /\ (forall q s, S !! q = Some s -> r + sz <= q - 32 \/ q + s <= r - 32) /\
      forall a, r <= a < r + sz -> exists b, load_byte (ws p') a = Ok b)).
Proof.
  intros (B & parts & HI & ES)%reach_ok Hs Ha. destruct (malloc_ok p B parts sz ans HI Hs Ha) as (r & p' & E & HK & H).
  exists r, p'. split; [done|]. split.
  { intros q s a [k HB]%(state_lookup B S q s ES) Hq. by apply (kept_bytes p B parts B _ _ q s k). }
  destruct H as [(-> & Hn & _)|(Hr & Hfr & k & parts' & HI')]; [by left|]. right. pose proof (lookup_insert_eq B r (sz, k)) as HBr.
  split; [done|]. split; [by apply (block_aligned p' _ parts' r sz k HI')|]. split.
  - intros q s [k' HB]%(state_lookup B S q s ES). assert (r <> q) as Hne by (intros ->; congruence).
    apply (block_pair_apart p' _ parts' r sz k q s k' HI' HBr); [by rewrite lookup_insert_ne|done].
  - intros a Hra. by apply (block_loads p' _ parts' r sz k a HI' HBr).
Qed.

(** C13: In every state that calls reach, qd_realloc of a block in use either gives NULL
    and leaves that block as it is, or a block that starts with the bytes of the old one
    up to the smaller of the two sizes.  The bytes of the other blocks stay the same. *)
Theorem realloc_keeps p S ptr old sz ans :
  reach p S -> S !! ptr = Some old -> 0 < sz < u64_mod -> answers_ok sz ans p ->
  exists r p', qd_realloc ptr sz ans p = Ok (r, p') /\
    (forall q s a, S !! q = Some s -> q <> ptr -> q <= a < q + s -> load_byte (ws p') a = load_byte (ws p) a) /\
    (r = 0 -> forall a, ptr <= a < ptr + old -> load_byte (ws p') a = load_byte (ws p) a) /\
    (r <> 0 -> forall i, 0 <= i < old -> i < sz -> load_byte (ws p') (r + i) = load_byte (ws p) (ptr + i)).
Proof.
  intros (B & parts & HI & ES)%reach_ok [k HB]%(state_lookup B S ptr old ES) Hs Ha.
  destruct (realloc_ok p B parts ptr old k sz ans HI HB Hs Ha) as (r & p' & E & HK & H). exists r, p'. split; [done|]. split.
  { intros q s a [k' HBq]%(state_lookup B S q s ES) Hne Hq. apply (kept_bytes p B parts (delete ptr B) _ _ q s k'); [done|done|by rewrite lookup_delete_ne|done|done]. }
  destruct H as [(-> & HK' & _)|(Hr & _ & Hc & _)].
  - split; [|done]. intros _ a Hx. by apply (kept_bytes p B parts B _ _ ptr old k).
  - split; [lia|]. intros _. exact Hc.
Qed.

(** A block in use can be released; the bytes of the others stay the same. *)
Theorem free_keeps p S ptr sz :
  reach p S -> S !! ptr = Some sz ->
  exists p', qd_free ptr p = Ok p' /\ forall q s a, S !! q = Some s -> q <> ptr -> q <= a < q + s -> load_byte (ws p') a = load_byte (ws p) a.
Proof.
  intros (B & parts & HI & ES)%reach_ok [k HB]%(state_lookup B S ptr sz ES). destruct (free_block p B parts ptr sz k HI HB) as (p' & E & HK & _).
  exists p'. split; [done|]. intros q s a [k' HBq]%(state_lookup B S q s ES) Hne Hq.
  apply (kept_bytes p B parts (delete ptr B) _ _ q s k'); [done|done|by rewrite lookup_delete_ne|done|done].
Qed.

Lemma strlen_ok m l : forall fuel a, (forall i b, l !! i = Some b -> b <> 0 /\ load_byte m (a + Z.of_nat i) = Ok b) ->
  load_byte m (a + Z.of_nat (length l)) = Ok 0 -> (length l < fuel)%nat -> strlen fuel m a = Ok (Z.of_nat (length l)).
Proof.
  induction l as [|b l IH]; intros [|fuel] a Hl H0 Hf; simpl in Hf; try lia; cbn [strlen].
  - rewrite Z.add_0_r in H0. by rewrite H0.
  - destruct (Hl 0%nat b eq_refl) as [Hb E]. rewrite Z.add_0_r in E. rewrite E. cbn [obind]. destruct (Z.eqb_spec b 0); [done|].
    rewrite (IH fuel (a + 1)); [cbn [obind length]; f_equal; lia| | |lia].
    + intros i c Hi. replace (a + 1 + Z.of_nat i) with (a + Z.of_nat (S i)) by lia. by apply (Hl (S i)).
    + rewrite <- H0. f_equal. simpl. lia.
Qed.

(** qd_strdup of a string in a block in use copies it with its terminator. *)
Theorem strdup_copies p S q s str l fuel ans :
  reach p S -> S !! q = Some s -> q <= str -> str + Z.of_nat (length l) < q + s ->
  (forall i b, l !! i = Some b -> b <> 0 /\ load_byte (ws p) (str + Z.of_nat i) = Ok b) -> load_byte (ws p) (str + Z.of_nat (length l)) = Ok 0 ->
  (length l < fuel)%nat -> Z.of_nat (length l) + 1 < u64_mod -> answers_ok (Z.of_nat (length l) + 1) ans p ->
  exists r p', qd_strdup fuel str ans p = Ok (r, p') /\
    (r = 0 \/ forall i, 0 <= i <= Z.of_nat (length l) -> load_byte (ws p') (r + i) = load_byte (ws p) (str + i)).
Proof.
  intros (B & parts & HI & ES)%reach_ok [k HB]%(state_lookup B S q s ES) Hq Hs Hl H0 Hf Hn Ha.
  destruct (block_aligned _ _ _ _ _ _ HI HB) as (_ & Hpos & _).
  unfold qd_strdup, qd_memdup. destruct (Z.eqb_spec str 0); [lia|]. rewrite (strlen_ok _ l) by done. cbn [obind].
  rewrite u64_small by (unfold is_u64; lia). destruct (Z.eqb_spec (Z.of_nat (length l) + 1) 0); [lia|]. cbn [orb].
  destruct (malloc_ok p B parts (Z.of_nat (length l) + 1) ans HI ltac:(lia) Ha) as (r & p1 & -> & HK & [(-> & _)|(Hr & Hfr & k' & parts1 & HI1)]); cbn [obind].
  { exists 0, p1. split; [done|by left]. }
  destruct (Z.eqb_spec r 0); [lia|]. set (B1 := <[r := (Z.of_nat (length l) + 1, k')]> B) in *.
  assert (B1 !! q = Some (s, k)) as HB1 by (unfold B1; rewrite lookup_insert_ne by congruence; done).
  pose proof (block_pair_apart p1 B1 parts1 r (Z.of_nat (length l) + 1) k' q s k HI1 (lookup_insert_eq _ _ _) HB1 ltac:(congruence)) as Hap.
  destruct (memcpy_ok (Z.to_nat (Z.of_nat (length l) + 1)) p1 B1 parts1 r (Z.of_nat (length l) + 1) k' r str HI1 (lookup_insert_eq _ _ _)) as (m & -> & H1 & _); [lia|lia|lia| |].
  { intros i Hi. apply (block_loads p1 B1 parts1 q s k); [done|done|lia]. }
  cbn [obind]. eexists _, _. split; [reflexivity|]. right. intros i Hi. cbn [ws]. rewrite H1 by lia.
  apply (kept_bytes p B parts B _ _ q s k); [done|done|done|done|lia].
Qed.

(** ** Where the code differs from its intent *)

(** qd_calloc does not check the product: it allocates and clears the number of bytes
    that is left of it modulo 2^64. *)
Theorem calloc_wraps nmemb size ans p : qd_calloc nmemb size ans p = qd_calloc 1 (u64 (nmemb * size)) ans p.
Proof. unfold qd_calloc. rewrite Z.mul_1_l, u64_idem. done. Qed.

(** qd_free counts one byte, whatever the size of the block: current_usage is not the
    number of bytes in use. *)
Theorem free_counts_one ptr p p' :
  ptr <> 0 -> qd_free ptr p = Ok p' ->
  current_usage (qd_memory_stats p') = total_allocated (gm p) -64 (total_freed (gm p) +64 1) /\ peak_usage (gm p') = peak_usage (gm p).
Proof.
  intros Hp. unfold qd_free. destruct (Z.eqb_spec ptr 0); [done|]. intros (w & _ & H)%obind_ok.
  assert (forall hdr q, free_heap hdr p = Ok q -> current_usage (qd_memory_stats q) = total_allocated (gm p) -64 (total_freed (gm p) +64 1) /\ peak_usage (gm q) = peak_usage (gm p)) as Hh.
  { intros hdr q. unfold free_heap, libc_free. destruct (heap p !! hdr); [|done]. by intros [= <-]. }
  destruct (negb _); [|by eapply Hh]. apply obind_ok in H as (ca & _ & H). apply obind_ok in H as (sl & _ & H).
  destruct (negb _ && negb _); [|by eapply Hh]. unfold free_slab in H. apply obind_ok in H as ([i c] & _ & H). apply obind_ok in H as (s & _ & H).
  apply obind_ok in H as ([c' m] & _ & [= <-]). done.
Qed.

(** ** The allocator at work *)

Definition small_ans : answers := mkAns demo_caches demo_block None.

Lemma demo_caches_good : good_caches demo_caches.
Proof.
  assert (forall i a, demo_caches !! i = Some (Some a) -> a = 1000 + 200 * Z.of_nat i) as H.
  { intros i a Hi. unfold demo_caches in Hi. apply list_lookup_fmap_Some in Hi as (j & Hj & Ej). apply lookup_seq in Ej as [-> _]. by injection Hj as ->. }
  intros i a Hi%H. split; [lia|]. intros j Hj%H. lia.
Qed.

Lemma small_ok sz : find_size_class (sz + 32) = 5 -> answers_ok sz small_ans process_0.
Proof.
  intros E. split; [apply demo_caches_good|]. split; [|done]. intros i cl Ei Hcl. rewrite E in Ei. assert (i = 5%nat) as -> by lia.
  injection Hcl as <-. change (slab_size (qd_slab_cache_create 256 QD_MAX_ALIGN 0)) with 4096. apply demo_fresh.
Qed.

Lemma malloc_block : exists r p, qd_malloc 100 small_ans process_0 = Ok (r, p) /\ 0 < r.
Proof.
  assert ((match qd_malloc 100 small_ans process_0 with Ok (r, _) => 0 <? r | _ => false end) = true) as Hv by (vm_compute; reflexivity).
  destruct (qd_malloc 100 small_ans process_0) as [[r p]| |]; [|done..]. exists r, p. split; [done|lia].
Qed.

Lemma malloc_fresh_witness :
  exists r p', qd_malloc 100 small_ans process_0 = Ok (r, p') /\ 0 < r /\ r mod 16 = 0.
Proof.
  destruct malloc_block as (r0 & p0 & E0 & Hr0).
  destruct (malloc_fresh process_0 ∅ 100 small_ans) as (r & p' & E & _ & H); [apply reach_start|unfold u64_mod; lia|by apply small_ok|].
  rewrite E0 in E. injection E as <- <-. exists r0, p0. split; [exact E0|].
  destruct H as [(H0 & _)|(H1 & H2 & _)]; [exfalso; clear -H0 Hr0; lia|split; [exact H1|exact H2]].
Defined.

(** A block of 100 bytes. *)
Lemma small_reach : exists r p, 0 < r /\ reach p {[r := 100]}.
Proof.
  destruct malloc_block as (r & p & E & Hr). exists r, p. split; [done|].
  pose proof (reach_malloc process_0 ∅ 100 small_ans r p reach_start) as H. unfold taken in H. destruct (Z.eqb_spec r 0); [lia|].
  apply H; [unfold u64_mod; lia|by apply small_ok|done].
Qed.

Lemma realloc_keeps_witness :
  exists ptr p r p', reach p {[ptr := 100]} /\ qd_realloc ptr 50 (mkAns [] None None) p = Ok (r, p').
Proof.
  destruct small_reach as (ptr & p & _ & HR). exists ptr, p.
  destruct (realloc_keeps p {[ptr := 100]} ptr 100 50 (mkAns [] None None) HR) as (r & p' & E & _).
  - apply lookup_singleton_eq.
  - unfold u64_mod. lia.
  - split; [|split; [done|done]]. intros i a Hi. by destruct i.
  - exists r, p'. split; [exact HR|exact E].
Defined.

(** 2^60 + 1 objects of 16 bytes get one object's bytes. *)
Example calloc_small : u64 ((2 ^ 60 + 1) * 16) = 16.
Proof. reflexivity. Qed.

(** After 100 bytes were allocated and released, 99 bytes seem to be in use. *)
Example usage_after_free :
  (let! (r, p) := qd_malloc 100 small_ans process_0 in let! p := qd_free r p in Ok (current_usage (qd_memory_stats p))) = Ok 99.
Proof. vm_compute. reflexivity. Qed.

(** The end unmaps blocks that are in use. *)
Example shutdown_unmaps :
  (let! (r, p) := qd_malloc 100 small_ans process_0 in load_byte (ws (qd_memory_shutdown p)) r) = Undef.
Proof. vm_compute. reflexivity. Qed.
