(* ===== verification/Parser.v ===== *)
(** * src/cint/qd_cint_ast.c, qd_cint_parser.c: syntax trees and the recursive descent parser

    A pointer to a node is an [option]: [None] is NULL.  Only the node types the
    parser builds are listed.  The arrays of arguments, parameters and statements are
    on the C stack with a fixed size: a write past their end is [Undef], as is a read
    of [val.s] of a token that holds no string. *)

From S2P Require Import Prelude CString Lexer.

(** ** Syntax trees *)

Inductive qd_cint_binop :=
| OP_ADD | OP_SUB | OP_MUL | OP_DIV | OP_MOD | OP_EQ | OP_NE | OP_LT | OP_GT | OP_LE | OP_GE
| OP_AND | OP_OR | OP_BAND | OP_BOR | OP_BXOR | OP_LSHIFT | OP_RSHIFT
| OP_ASSIGN | OP_ADD_ASSIGN | OP_SUB_ASSIGN | OP_MUL_ASSIGN | OP_DIV_ASSIGN | OP_MOD_ASSIGN | OP_COMMA.

Inductive qd_cint_unop := UOP_NEG | UOP_NOT | UOP_BNOT | UOP_PRE_INC | UOP_PRE_DEC | UOP_POST_INC | UOP_POST_DEC.

Record qd_cint_typespec := mkTypespec {
  ts_name : cstr; pointer_depth : Z; array_size : Z; is_const : bool; is_unsigned : bool
}.

(** Every node starts with its line and column. *)
Inductive qd_cint_ast :=
| AST_INT (l c : Z) (int_val : Z)
| AST_FLOAT (l c : Z) (float_val : cstr)
| AST_STRING (l c : Z) (str_val : cstr)
| AST_CHAR (l c : Z) (char_val : Z)
| AST_IDENT (l c : Z) (ident : cstr)
| AST_BINOP (l c : Z) (op : qd_cint_binop) (left right : option qd_cint_ast)
| AST_UNOP (l c : Z) (op : qd_cint_unop) (operand : option qd_cint_ast)
| AST_ASSIGN (l c : Z) (target value : option qd_cint_ast) (compound_op : qd_cint_binop)
| AST_CALL (l c : Z) (func : option qd_cint_ast) (args : list (option qd_cint_ast))
| AST_INDEX (l c : Z) (array index : option qd_cint_ast)
| AST_MEMBER (l c : Z) (object : option qd_cint_ast) (member : cstr)
| AST_PTRMEMBER (l c : Z) (object : option qd_cint_ast) (member : cstr)
| AST_TERNARY (l c : Z) (cond then_expr else_expr : option qd_cint_ast)
| AST_SIZEOF (l c : Z) (ts : option qd_cint_typespec)
| AST_ADDR (l c : Z) (operand : option qd_cint_ast)
| AST_DEREF (l c : Z) (operand : option qd_cint_ast)
| AST_BLOCK (l c : Z) (stmts : list (option qd_cint_ast))
| AST_IF (l c : Z) (cond then_body else_body : option qd_cint_ast)
| AST_WHILE (l c : Z) (cond body : option qd_cint_ast)
| AST_FOR (l c : Z) (init cond incr body : option qd_cint_ast)
| AST_BREAK (l c : Z)
| AST_CONTINUE (l c : Z)
| AST_RETURN (l c : Z) (value : option qd_cint_ast)
| AST_EXPR_STMT (l c : Z) (expr : option qd_cint_ast)
| AST_VARDECL (l c : Z) (ts : option qd_cint_typespec) (name : cstr) (init : option qd_cint_ast)
| AST_FUNCDECL (l c : Z) (return_type : option qd_cint_typespec) (name : cstr) (params : list (option qd_cint_ast)) (body : option qd_cint_ast)
| AST_PARAM (ts : option qd_cint_typespec) (name : option cstr).

Abbreviation node := (option qd_cint_ast).

(** strdup copies up to the first zero byte. *)
Definition qd_cint_ast_int (v l c : Z) : node := Some (AST_INT l c v).
Definition qd_cint_ast_float (v : cstr) (l c : Z) : node := Some (AST_FLOAT l c v).
Definition qd_cint_ast_string (s : cstr) (l c : Z) : node := Some (AST_STRING l c (until_nul s)).
Definition qd_cint_ast_char (v l c : Z) : node := Some (AST_CHAR l c v).
Definition qd_cint_ast_ident (s : cstr) (l c : Z) : node := Some (AST_IDENT l c (until_nul s)).
Definition qd_cint_ast_binop (op : qd_cint_binop) (a b : node) (l c : Z) : node := Some (AST_BINOP l c op a b).
Definition qd_cint_ast_unop (op : qd_cint_unop) (a : node) (l c : Z) : node := Some (AST_UNOP l c op a).
Definition qd_cint_ast_call (f : node) (args : list node) (l c : Z) : node := Some (AST_CALL l c f args).
Definition qd_cint_ast_if (a b e : node) (l c : Z) : node := Some (AST_IF l c a b e).
Definition qd_cint_ast_while (a b : node) (l c : Z) : node := Some (AST_WHILE l c a b).
Definition qd_cint_ast_for (i a n b : node) (l c : Z) : node := Some (AST_FOR l c i a n b).
Definition qd_cint_ast_block (stmts : list node) (l c : Z) : node := Some (AST_BLOCK l c stmts).
Definition qd_cint_ast_return (v : node) (l c : Z) : node := Some (AST_RETURN l c v).
Definition qd_cint_ast_vardecl (ts : option qd_cint_typespec) (name : cstr) (init : node) (l c : Z) : node :=
  Some (AST_VARDECL l c ts name init).
Definition qd_cint_ast_funcdecl (ts : option qd_cint_typespec) (name : cstr) (params : list node) (body : node) (l c : Z) : node :=
  Some (AST_FUNCDECL l c ts name params body).
Definition qd_cint_typespec_create (name : cstr) : qd_cint_typespec := mkTypespec name 0 (-1) false false.

(** ** Parser state *)

Record qd_cint_parser := mkParser {
  lex : qd_cint_lexer; current : qd_cint_token; prev : qd_cint_token;
  had_error : bool; error_line : Z; error_col : Z; error_msg : cstr; error_got : cstr
}.

(** Code that changes the parser. *)
Definition parser (A : Type) : Type := qd_cint_parser -> outcome (A * qd_cint_parser).
Definition ret {A} (a : A) : parser A := fun p => Ok (a, p).
Definition pbind {A B} (m : parser A) (k : A -> parser B) : parser B := fun p => let! (a, p) := m p in k a p.
Definition undef {A} : parser A := fun _ => Undef.
Definition no_fuel {A} : parser A := fun _ => Fuel.

Notation "'let*' x := m 'in' k" := (pbind m (fun x => k)) (at level 10, x pattern, m at level 100, k at level 200) : qd_scope.

(** The lexer has fuel for the characters that are left. *)
Definition advance : parser unit := fun p =>
  let! (tok, lx) := qd_cint_lexer_next (length (rest (lex p))) (lex p) in
  Ok (tt, mkParser lx tok (current p) (had_error p) (error_line p) (error_col p) (error_msg p) (error_got p)).

Definition CHECK (t : qd_cint_token_type) : parser bool := fun p => Ok (bool_decide (type (current p) = t), p).
Definition current_type : parser qd_cint_token_type := fun p => Ok (type (current p), p).
Definition position : parser (Z * Z) := fun p => Ok ((tline (current p), tcol (current p)), p).
Definition prev_position : parser (Z * Z) := fun p => Ok ((tline (prev p), tcol (prev p)), p).
Definition prev_val : parser token_val := fun p => Ok (val (prev p), p).

(** [PREV(p).val.s] and [CURRENT(p).val.s] *)
Definition string_of (v : token_val) : parser cstr := match v with VStr s => ret (until_nul s) | _ => undef end.
Definition prev_string : parser cstr := fun p => string_of (val (prev p)) p.
Definition current_string : parser cstr := fun p => string_of (val (current p)) p.

Definition pmatch (t : qd_cint_token_type) : parser bool :=
  let* b := CHECK t in if b then (let* _ := advance in ret true) else ret false.

(** Only the first error is kept. *)
Definition error (msg : cstr) : parser unit := fun p =>
  Ok (tt, if had_error p then p
          else mkParser (lex p) (current p) (prev p) true (tline (current p)) (tcol (current p)) msg
                 (qd_cint_token_name (type (current p)))).

Definition expect (t : qd_cint_token_type) (msg : cstr) : parser unit :=
  let* b := CHECK t in if b then advance else error msg.

(** ** Types *)

Fixpoint pointer_loop (fuel : nat) (ts : qd_cint_typespec) : parser qd_cint_typespec :=
  match fuel with
  | O => no_fuel
  | S fuel =>
    let* b := pmatch TOK_STAR in
    if b then pointer_loop fuel (mkTypespec (ts_name ts) (pointer_depth ts + 1) (array_size ts) (is_const ts) (is_unsigned ts))
    else ret ts
  end.

(** The name of a base type that is a keyword. *)
Definition base_type (t : qd_cint_token_type) : option cstr :=
  match t with
  | TOK_VOID => Some ("void"%string : cstr) | TOK_INT_KW => Some ("int"%string : cstr)
  | TOK_CHAR_KW => Some ("char"%string : cstr) | TOK_SHORT => Some ("short"%string : cstr)
  | TOK_LONG => Some ("long"%string : cstr) | TOK_FLOAT_KW => Some ("float"%string : cstr)
  | TOK_DOUBLE => Some ("double"%string : cstr) | _ => None
  end.

(** The name is built in an array of 128 bytes. *)
Definition parse_typespec (fuel : nat) : parser (option qd_cint_typespec) :=
  let* t := current_type in
  if negb (qd_cint_token_is_type t) && negb (bool_decide (t = TOK_IDENT)) then
    (let* _ := error "Expected type"%string in ret None)
  else
    let* u := pmatch TOK_UNSIGNED in
    let* s := if u then ret false else pmatch TOK_SIGNED in
    let prefix : cstr := if u then "unsigned "%string : cstr else if s then "signed "%string : cstr else [] in
    let* t := current_type in
    let* name :=
      match base_type t with
      | Some b => let* _ := advance in ret (Some (prefix ++ b))
      | None =>
        if bool_decide (t = TOK_IDENT) then
          let* i := current_string in
          if 128 <=? Z.of_nat (length (prefix ++ i)) then undef
          else (let* _ := advance in ret (Some (prefix ++ i)))
        else if u then ret (Some (prefix ++ ("int"%string : cstr)))
        else (let* _ := error "Expected type name"%string in ret None)
      end in
    match name with
    | None => ret None
    | Some name =>
      let ts := qd_cint_typespec_create name in
      let* ts := pointer_loop fuel (mkTypespec (ts_name ts) (pointer_depth ts) (array_size ts) (is_const ts) u) in
      ret (Some ts)
    end.

(** ** Expressions *)

(** A left-associative level: the operators and the parser of the operands. *)
Fixpoint binary_loop (fuel : nat) (ops : list (qd_cint_token_type * qd_cint_binop)) (operand : parser node) (lhs : node) : parser node :=
  match fuel with
  | O => no_fuel
  | S fuel =>
    let* t := current_type in
    match List.find (fun x => bool_decide (x.1 = t)) ops with
    | None => ret lhs
    | Some (_, op) =>
      let* (l, c) := position in
      let* _ := advance in
      let* rhs := operand in
      binary_loop fuel ops operand (qd_cint_ast_binop op lhs rhs l c)
    end
  end.

Definition binary_level (fuel : nat) (ops : list (qd_cint_token_type * qd_cint_binop)) (operand : parser node) : parser node :=
  let* lhs := operand in binary_loop fuel ops operand lhs.

Definition factor_ops := [(TOK_STAR, OP_MUL); (TOK_SLASH, OP_DIV); (TOK_PERCENT, OP_MOD)].
Definition term_ops := [(TOK_PLUS, OP_ADD); (TOK_MINUS, OP_SUB)].
Definition shift_ops := [(TOK_LSHIFT, OP_LSHIFT); (TOK_RSHIFT, OP_RSHIFT)].
Definition comparison_ops := [(TOK_LT, OP_LT); (TOK_GT, OP_GT); (TOK_LE, OP_LE); (TOK_GE, OP_GE)].
Definition equality_ops := [(TOK_EQ, OP_EQ); (TOK_NE, OP_NE)].
Definition bitand_ops := [(TOK_BAND, OP_BAND)].
Definition bitxor_ops := [(TOK_BXOR, OP_BXOR)].
Definition bitor_ops := [(TOK_BOR, OP_BOR)].
Definition and_ops := [(TOK_AND, OP_AND)].
Definition or_ops := [(TOK_OR, OP_OR)].
Definition assign_ops :=
  [(TOK_ASSIGN, OP_ASSIGN); (TOK_PLUS_EQ, OP_ADD_ASSIGN); (TOK_MINUS_EQ, OP_SUB_ASSIGN);
   (TOK_STAR_EQ, OP_MUL_ASSIGN); (TOK_SLASH_EQ, OP_DIV_ASSIGN)].

(** The node a prefix operator builds. *)
Definition prefix_op (t : qd_cint_token_type) : option (node -> Z -> Z -> node) :=
  match t with
  | TOK_MINUS => Some (qd_cint_ast_unop UOP_NEG)
  | TOK_NOT => Some (qd_cint_ast_unop UOP_NOT)
  | TOK_BNOT => Some (qd_cint_ast_unop UOP_BNOT)
  | TOK_INC => Some (qd_cint_ast_unop UOP_PRE_INC)
  | TOK_DEC => Some (qd_cint_ast_unop UOP_PRE_DEC)
  | TOK_STAR => Some (fun a l c => Some (AST_DEREF l c a))
  | TOK_BAND => Some (fun a l c => Some (AST_ADDR l c a))
  | _ => None
  end.

Section levels.
Context (parse_unary : parser node) (fuel : nat).

Definition parse_factor : parser node := binary_level fuel factor_ops parse_unary.
Definition parse_term : parser node := binary_level fuel term_ops parse_factor.
Definition parse_shift : parser node := binary_level fuel shift_ops parse_term.
Definition parse_comparison : parser node := binary_level fuel comparison_ops parse_shift.
Definition parse_equality : parser node := binary_level fuel equality_ops parse_comparison.
Definition parse_bitand : parser node := binary_level fuel bitand_ops parse_equality.
Definition parse_bitxor : parser node := binary_level fuel bitxor_ops parse_bitand.
Definition parse_bitor : parser node := binary_level fuel bitor_ops parse_bitxor.
Definition parse_and : parser node := binary_level fuel and_ops parse_bitor.
Definition parse_or : parser node := binary_level fuel or_ops parse_and.
End levels.

(** The recursion is through parse_unary, parse_assignment and parse_ternary. *)
Fixpoint parse_primary (fuel : nat) : parser node :=
  match fuel with
  | O => no_fuel
  | S fuel =>
    let* (l, c) := position in
    let* t := current_type in
    match t with
    | TOK_INT => let* _ := advance in let* v := prev_val in match v with VInt i => ret (qd_cint_ast_int i l c) | _ => undef end
    | TOK_FLOAT => let* _ := advance in let* v := prev_val in match v with VFloat f => ret (qd_cint_ast_float f l c) | _ => undef end
    | TOK_STRING => let* _ := advance in let* s := prev_string in ret (qd_cint_ast_string s l c)
    | TOK_CHAR => let* _ := advance in let* v := prev_val in match v with VChar x => ret (qd_cint_ast_char x l c) | _ => undef end
    | TOK_IDENT => let* _ := advance in let* s := prev_string in ret (qd_cint_ast_ident s l c)
    | TOK_LPAREN =>
      let* _ := advance in
      let* e := parse_assignment fuel in
      let* _ := expect TOK_RPAREN "Expected ')' after expression"%string in
      ret e
    | TOK_SIZEOF =>
      let* _ := advance in
      let* _ := expect TOK_LPAREN "Expected '(' after sizeof"%string in
      let* ts := parse_typespec fuel in
      let* _ := expect TOK_RPAREN "Expected ')' after sizeof"%string in
      ret (Some (AST_SIZEOF l c ts))
    | _ => let* _ := error "Expected expression"%string in ret None
    end
  end

with parse_postfix (fuel : nat) : parser node :=
  match fuel with
  | O => no_fuel
  | S fuel =>
    let* e := parse_primary fuel in
    match e with None => ret None | Some _ => postfix_loop fuel e end
  end

with postfix_loop (fuel : nat) (e : node) : parser node :=
  match fuel with
  | O => no_fuel
  | S fuel =>
    let* (l, c) := position in
    let* t := current_type in
    match t with
    | TOK_LPAREN =>
      let* _ := advance in
      let* close := CHECK TOK_RPAREN in
      let* args := if close then ret [] else args_loop fuel [] in
      let* _ := expect TOK_RPAREN "Expected ')' after arguments"%string in
      postfix_loop fuel (qd_cint_ast_call e args l c)
    | TOK_LBRACKET =>
      let* _ := advance in
      let* i := parse_assignment fuel in
      let* _ := expect TOK_RBRACKET "Expected ']' after index"%string in
      postfix_loop fuel (Some (AST_INDEX l c e i))
    | TOK_DOT =>
      let* _ := advance in
      let* _ := expect TOK_IDENT "Expected member name"%string in
      let* s := prev_string in
      postfix_loop fuel (Some (AST_MEMBER l c e s))
    | TOK_ARROW =>
      let* _ := advance in
      let* _ := expect TOK_IDENT "Expected member name"%string in
      let* s := prev_string in
      postfix_loop fuel (Some (AST_PTRMEMBER l c e s))
    | TOK_INC => let* _ := advance in postfix_loop fuel (qd_cint_ast_unop UOP_POST_INC e l c)
    | TOK_DEC => let* _ := advance in postfix_loop fuel (qd_cint_ast_unop UOP_POST_DEC e l c)
    | _ => ret e
    end
  end

(** The array of arguments has 64 entries. *)
with args_loop (fuel : nat) (args : list node) : parser (list node) :=
  match fuel with
  | O => no_fuel
  | S fuel =>
    let* a := parse_assignment fuel in
    if (64 <=? length args)%nat then undef else
    let* b := pmatch TOK_COMMA in
    if b then args_loop fuel (args ++ [a]) else ret (args ++ [a])
  end

with parse_unary (fuel : nat) : parser node :=
  match fuel with
  | O => no_fuel
  | S fuel =>
    let* (l, c) := position in
    let* t := current_type in
    match prefix_op t with
    | Some build => let* _ := advance in let* e := parse_unary fuel in ret (build e l c)
    | None => parse_postfix fuel
    end
  end

with parse_ternary (fuel : nat) : parser node :=
  match fuel with
  | O => no_fuel
  | S fuel =>
    let* cond := parse_or (parse_unary fuel) fuel in
    let* q := pmatch TOK_QUESTION in
    if q then
      let* (l, c) := prev_position in
      let* t := parse_assignment fuel in
      let* _ := expect TOK_COLON "Expected ':' in ternary expression"%string in
      let* e := parse_ternary fuel in
      ret (Some (AST_TERNARY l c cond t e))
    else ret cond
  end

with parse_assignment (fuel : nat) : parser node :=
  match fuel with
  | O => no_fuel
  | S fuel =>
    let* lhs := parse_ternary fuel in
    let* t := current_type in
    match List.find (fun x => bool_decide (x.1 = t)) assign_ops with
    | None => ret lhs
    | Some (_, op) =>
      let* (l, c) := position in
      let* _ := advance in
      let* rhs := parse_assignment fuel in
      ret (Some (AST_ASSIGN l c lhs rhs op))
    end
  end.

Definition parse_expression (fuel : nat) : parser node := parse_assignment fuel.

(** ** Statements and declarations *)

Definition unless (t : qd_cint_token_type) (m : parser node) : parser node :=
  let* b := CHECK t in if b then ret None else m.

(** The array of parameters has 16 entries. *)
Fixpoint params_loop (fuel : nat) (params : list node) : parser (list node) :=
  match fuel with
  | O => no_fuel
  | S fuel =>
    let* ts := parse_typespec fuel in
    let* i := CHECK TOK_IDENT in
    let* name := if i then (let* s := current_string in let* _ := advance in ret (Some s)) else ret None in
    if (16 <=? length params)%nat then undef else
    let params := params ++ [Some (AST_PARAM ts name)] in
    let* b := pmatch TOK_COMMA in
    if b then params_loop fuel params else ret params
  end.

Fixpoint parse_block (fuel : nat) : parser node :=
  match fuel with
  | O => no_fuel
  | S fuel =>
    let* (l, c) := position in
    let* _ := expect TOK_LBRACE "Expected '{'"%string in
    let* stmts := block_loop fuel [] in
    let* _ := expect TOK_RBRACE "Expected '}'"%string in
    ret (qd_cint_ast_block stmts l c)
  end

(** The array of statements has 256 entries. *)
with block_loop (fuel : nat) (stmts : list node) : parser (list node) :=
  match fuel with
  | O => no_fuel
  | S fuel =>
    let* r := CHECK TOK_RBRACE in
    let* e := CHECK TOK_EOF in
    if r || e then ret stmts else
    let* s := parse_statement fuel in
    if (256 <=? length stmts)%nat then undef else block_loop fuel (stmts ++ [s])
  end

with parse_statement (fuel : nat) : parser node :=
  match fuel with
  | O => no_fuel
  | S fuel =>
    let* (l, c) := position in
    let* t := current_type in
    match t with
    | TOK_LBRACE => parse_block fuel
    | TOK_IF =>
      let* _ := advance in
      let* _ := expect TOK_LPAREN "Expected '(' after 'if'"%string in
      let* cond := parse_expression fuel in
      let* _ := expect TOK_RPAREN "Expected ')' after condition"%string in
      let* then_body := parse_statement fuel in
      let* b := pmatch TOK_ELSE in
      let* else_body := if b then parse_statement fuel else ret None in
      ret (qd_cint_ast_if cond then_body else_body l c)
    | TOK_WHILE =>
      let* _ := advance in
      let* _ := expect TOK_LPAREN "Expected '(' after 'while'"%string in
      let* cond := parse_expression fuel in
      let* _ := expect TOK_RPAREN "Expected ')' after condition"%string in
      let* body := parse_statement fuel in
      ret (qd_cint_ast_while cond body l c)
    | TOK_FOR =>
      let* _ := advance in
      let* _ := expect TOK_LPAREN "Expected '(' after 'for'"%string in
      let* init := unless TOK_SEMICOLON (parse_expression fuel) in
      let* _ := expect TOK_SEMICOLON "Expected ';' after for init"%string in
      let* cond := unless TOK_SEMICOLON (parse_expression fuel) in
      let* _ := expect TOK_SEMICOLON "Expected ';' after for condition"%string in
      let* incr := unless TOK_RPAREN (parse_expression fuel) in
      let* _ := expect TOK_RPAREN "Expected ')' after for clauses"%string in
      let* body := parse_statement fuel in
      ret (qd_cint_ast_for init cond incr body l c)
    | TOK_RETURN =>
      let* _ := advance in
      let* value := unless TOK_SEMICOLON (parse_expression fuel) in
      let* _ := expect TOK_SEMICOLON "Expected ';' after return"%string in
      ret (qd_cint_ast_return value l c)
    | TOK_BREAK =>
      let* _ := advance in
      let* _ := expect TOK_SEMICOLON "Expected ';' after break"%string in
      ret (Some (AST_BREAK l c))
    | TOK_CONTINUE =>
      let* _ := advance in
      let* _ := expect TOK_SEMICOLON "Expected ';' after continue"%string in
      ret (Some (AST_CONTINUE l c))
    | _ =>
      if qd_cint_token_is_type t then parse_declaration fuel else
      let* e := parse_expression fuel in
      let* _ := expect TOK_SEMICOLON "Expected ';' after expression"%string in
      ret (Some (AST_EXPR_STMT l c e))
    end
  end

with parse_declaration (fuel : nat) : parser node :=
  match fuel with
  | O => no_fuel
  | S fuel =>
    let* (l, c) := position in
    let* ts := parse_typespec fuel in
    match ts with
    | None => ret None
    | Some _ =>
      let* _ := expect TOK_IDENT "Expected identifier"%string in
      let* name := prev_string in
      let* f := pmatch TOK_LPAREN in
      if f then
        let* close := CHECK TOK_RPAREN in
        let* params := if close then ret [] else params_loop fuel [] in
        let* _ := expect TOK_RPAREN "Expected ')' after parameters"%string in
        let* b := CHECK TOK_LBRACE in
        let* body := if b then parse_block fuel
                     else (let* _ := expect TOK_SEMICOLON "Expected ';' or function body"%string in ret None) in
        ret (qd_cint_ast_funcdecl ts name params body l c)
      else
        let* a := pmatch TOK_ASSIGN in
        let* init := if a then parse_expression fuel else ret None in
        let* _ := expect TOK_SEMICOLON "Expected ';' after variable declaration"%string in
        ret (qd_cint_ast_vardecl ts name init l c)
    end
  end.

(** ** Entry points *)

Definition no_token : qd_cint_token := mkTok TOK_EOF VNone 0 0.

Definition qd_cint_parser_init (s : list Z) (len : Z) : outcome qd_cint_parser :=
  let lx := qd_cint_lexer_init s len in
  let! (tok, lx) := qd_cint_lexer_next (length (rest lx)) lx in
  Ok (mkParser lx tok no_token false 0 0 [] []).

Definition get_error : parser bool := fun p => Ok (had_error p, p).

Fixpoint program_loop (fuel : nat) (stmts : list node) : parser (list node) :=
  match fuel with
  | O => no_fuel
  | S fuel =>
    let* e := CHECK TOK_EOF in
    let* h := get_error in
    if e || h then ret stmts else
    let* d := parse_declaration fuel in
    if (256 <=? length stmts)%nat then undef else program_loop fuel (stmts ++ [d])
  end.

Definition qd_cint_parse_program (fuel : nat) : parser node :=
  let* stmts := program_loop fuel [] in
  let* h := get_error in
  if h then ret None else ret (qd_cint_ast_block stmts 1 1).

Definition qd_cint_parse_statement (fuel : nat) : parser node := parse_statement fuel.
Definition qd_cint_parse_expression (fuel : nat) : parser node := parse_expression fuel.
Definition qd_cint_parser_had_error (p : qd_cint_parser) : bool := had_error p.
Definition qd_cint_parser_error (p : qd_cint_parser) : option (Z * Z * cstr * cstr) :=
  if had_error p then Some (error_line p, error_col p, error_msg p, error_got p) else None.

Example parse_ex :
  (let! p := qd_cint_parser_init ("int f(int a, char *b) { if (a < 2) return a * 2 + 1; x = a ? b[1] : g(a, 3); }"%string : cstr) 0 in
   let! (d, p) := qd_cint_parse_program 60 p in
   Ok (d, had_error p))
  = Ok (Some (AST_BLOCK 1 1
      [Some (AST_FUNCDECL 1 1 (Some (mkTypespec "int"%string 0 (-1) false false)) "f"%string
         [Some (AST_PARAM (Some (mkTypespec "int"%string 0 (-1) false false)) (Some ("a"%string : cstr)));
          Some (AST_PARAM (Some (mkTypespec "char"%string 1 (-1) false false)) (Some ("b"%string : cstr)))]
         (Some (AST_BLOCK 1 23
            [Some (AST_IF 1 25 (Some (AST_BINOP 1 31 OP_LT (Some (AST_IDENT 1 29 "a"%string)) (Some (AST_INT 1 33 2))))
               (Some (AST_RETURN 1 36 (Some (AST_BINOP 1 49 OP_ADD
                  (Some (AST_BINOP 1 45 OP_MUL (Some (AST_IDENT 1 43 "a"%string)) (Some (AST_INT 1 47 2)))) (Some (AST_INT 1 51 1)))))) None);
             Some (AST_EXPR_STMT 1 54 (Some (AST_ASSIGN 1 56 (Some (AST_IDENT 1 54 "x"%string))
               (Some (AST_TERNARY 1 60 (Some (AST_IDENT 1 58 "a"%string))
                  (Some (AST_INDEX 1 63 (Some (AST_IDENT 1 62 "b"%string)) (Some (AST_INT 1 64 1))))
                  (Some (AST_CALL 1 70 (Some (AST_IDENT 1 69 "g"%string)) [Some (AST_IDENT 1 71 "a"%string); Some (AST_INT 1 74 3)]))))
               OP_ASSIGN)))]))) ]), false).
Proof. vm_compute. reflexivity. Qed.
