(* ===== verification/ParserRoundtrip.v ===== *)
(** * Printing and parsing expressions

    Expressions without positions, a printer that writes the parentheses that the
    precedences of C require and no others, and the proof that the parser of
    src/cint/qd_cint_parser.c reads the printed text back. *)

From S2P Require Import Prelude CString Lexer Parser.

(** ** Expressions *)

Inductive prefix := PNeg | PNot | PBNot | PInc | PDec | PDeref | PAddr.

(** [EChar c]: the literal of the byte [c]. *)
Inductive expr :=
| EInt (i : Z)
| EChar (c : Z)
| EStr (s : cstr)
| EIdent (s : cstr)
| EUn (op : prefix) (a : expr)
| EPost (inc : bool) (a : expr)
| EBin (op : qd_cint_binop) (a b : expr)
| EAssign (op : qd_cint_binop) (a b : expr)
| ETern (a b c : expr)
| EIndex (a i : expr)
| EMember (arrow : bool) (a : expr) (s : cstr)
| ECall (f : expr) (args : exprs)
with exprs :=
| ENil
| ECons (e : expr) (es : exprs).

Scheme expr_mut := Induction for expr Sort Prop
with exprs_mut := Induction for exprs Sort Prop.

Fixpoint count (es : exprs) : nat := match es with ENil => 0 | ECons _ es => S (count es) end.

(** The token and the level of a binary operator: 2 is "||", 11 is "*". *)
Definition binop_token (op : qd_cint_binop) : option (qd_cint_token_type * nat) :=
  match op with
  | OP_MUL => Some (TOK_STAR, 11%nat) | OP_DIV => Some (TOK_SLASH, 11%nat) | OP_MOD => Some (TOK_PERCENT, 11%nat)
  | OP_ADD => Some (TOK_PLUS, 10%nat) | OP_SUB => Some (TOK_MINUS, 10%nat)
  | OP_LSHIFT => Some (TOK_LSHIFT, 9%nat) | OP_RSHIFT => Some (TOK_RSHIFT, 9%nat)
  | OP_LT => Some (TOK_LT, 8%nat) | OP_GT => Some (TOK_GT, 8%nat) | OP_LE => Some (TOK_LE, 8%nat) | OP_GE => Some (TOK_GE, 8%nat)
  | OP_EQ => Some (TOK_EQ, 7%nat) | OP_NE => Some (TOK_NE, 7%nat)
  | OP_BAND => Some (TOK_BAND, 6%nat) | OP_BXOR => Some (TOK_BXOR, 5%nat) | OP_BOR => Some (TOK_BOR, 4%nat)
  | OP_AND => Some (TOK_AND, 3%nat) | OP_OR => Some (TOK_OR, 2%nat)
  | _ => None
  end.

Definition assign_token (op : qd_cint_binop) : option qd_cint_token_type :=
  match op with
  | OP_ASSIGN => Some TOK_ASSIGN | OP_ADD_ASSIGN => Some TOK_PLUS_EQ | OP_SUB_ASSIGN => Some TOK_MINUS_EQ
  | OP_MUL_ASSIGN => Some TOK_STAR_EQ | OP_DIV_ASSIGN => Some TOK_SLASH_EQ | _ => None
  end.

Definition prefix_token (op : prefix) : qd_cint_token_type :=
  match op with
  | PNeg => TOK_MINUS | PNot => TOK_NOT | PBNot => TOK_BNOT | PInc => TOK_INC | PDec => TOK_DEC
  | PDeref => TOK_STAR | PAddr => TOK_BAND
  end.

(** An identifier that is not a keyword. *)
Definition is_ident (s : cstr) : bool :=
  match s with
  | [] => false
  | c :: t => is_ident_start c && forallb is_ident_char t && bool_decide (find_keyword keywords s = None)
  end.

(** Literals fit their types, names are identifiers, operators are those of the
    grammar, calls have at most 64 arguments. *)
Fixpoint wf (e : expr) : Prop :=
  match e with
  | EInt i => 0 <= i < 2 ^ 63
  | EChar _ => True
  | EStr s => 0 ∉ s
  | EIdent s => is_ident s = true
  | EUn _ a | EPost _ a => wf a
  | EBin op a b => is_Some (binop_token op) /\ wf a /\ wf b
  | EAssign op a b => is_Some (assign_token op) /\ wf a /\ wf b
  | ETern a b c => wf a /\ wf b /\ wf c
  | EIndex a i => wf a /\ wf i
  | EMember _ a s => wf a /\ is_ident s = true
  | ECall f args => wf f /\ wfs args /\ (count args <= 64)%nat
  end
with wfs (es : exprs) : Prop := match es with ENil => True | ECons e es => wf e /\ wfs es end.

(** The node for an expression, whatever its positions. *)
Fixpoint rep (e : expr) (n : node) : Prop :=
  match e with
  | EInt i => exists l c, n = Some (AST_INT l c i)
  | EChar x => exists l c, n = Some (AST_CHAR l c (signed 8 x))
  | EStr s => exists l c, n = Some (AST_STRING l c s)
  | EIdent s => exists l c, n = Some (AST_IDENT l c s)
  | EUn op a => exists l c x, rep a x /\ n = match op with
      | PNeg => Some (AST_UNOP l c UOP_NEG x) | PNot => Some (AST_UNOP l c UOP_NOT x) | PBNot => Some (AST_UNOP l c UOP_BNOT x)
      | PInc => Some (AST_UNOP l c UOP_PRE_INC x) | PDec => Some (AST_UNOP l c UOP_PRE_DEC x)
      | PDeref => Some (AST_DEREF l c x) | PAddr => Some (AST_ADDR l c x) end
  | EPost inc a => exists l c x, rep a x /\ n = Some (AST_UNOP l c (if inc then UOP_POST_INC else UOP_POST_DEC) x)
  | EBin op a b => exists l c x y, rep a x /\ rep b y /\ n = Some (AST_BINOP l c op x y)
  | EAssign op a b => exists l c x y, rep a x /\ rep b y /\ n = Some (AST_ASSIGN l c x y op)
  | ETern a b d => exists l c x y z, rep a x /\ rep b y /\ rep d z /\ n = Some (AST_TERNARY l c x y z)
  | EIndex a i => exists l c x y, rep a x /\ rep i y /\ n = Some (AST_INDEX l c x y)
  | EMember arrow a s => exists l c x, rep a x /\ n = Some (if arrow then AST_PTRMEMBER l c x s else AST_MEMBER l c x s)
  | ECall f args => exists l c x ys, rep f x /\ reps args ys /\ n = Some (AST_CALL l c x ys)
  end
with reps (es : exprs) (ns : list node) : Prop :=
  match es with
  | ENil => ns = []
  | ECons e es => exists n ns', rep e n /\ reps es ns' /\ ns = n :: ns'
  end.

Lemma rep_some e n : rep e n -> n <> None.
Proof. destruct e as [| | | |op| | | | | | |]; simpl; intros H; decompose record H; subst; try done; by destruct op. Qed.

(** ** The printer *)

Abbreviation lexeme := (cstr * qd_cint_token_type * token_val)%type.

Definition spelling (t : qd_cint_token_type) : cstr :=
  match List.find (fun x => bool_decide (x.2 = t)) operators with Some (s, _) => s | None => [] end.
Definition tok (t : qd_cint_token_type) : lexeme := (spelling t, t, VNone).

Definition paren (b : bool) (l : list lexeme) : list lexeme :=
  if b then tok TOK_LPAREN :: l ++ [tok TOK_RPAREN] else l.

Definition prec (e : expr) : nat :=
  match e with
  | EInt _ | EChar _ | EStr _ | EIdent _ => 14
  | EPost _ _ | EIndex _ _ | EMember _ _ _ | ECall _ _ => 13
  | EUn _ _ => 12
  | EBin op _ _ => match binop_token op with Some (_, q) => q | None => 2 end
  | ETern _ _ _ => 1
  | EAssign _ _ _ => 0
  end%nat.

Fixpoint body (e : expr) : list lexeme :=
  let at_level k e := paren (Nat.ltb (prec e) k) (body e) in
  match e with
  | EInt i => [(print_lld i, TOK_INT, VInt i)]
  | EChar c => [(39 :: escape 39 c ++ [39], TOK_CHAR, VChar (signed 8 c))]
  | EStr s => [(34 :: flat_map (escape 34) s ++ [34], TOK_STRING, VStr s)]
  | EIdent s => [(s, TOK_IDENT, VStr s)]
  | EUn op a => tok (prefix_token op) :: at_level 12%nat a
  | EPost inc a => at_level 13%nat a ++ [tok (if inc then TOK_INC else TOK_DEC)]
  | EBin op a b =>
    match binop_token op with
    | Some (t, q) => at_level q a ++ tok t :: at_level (S q) b
    | None => []
    end
  | EAssign op a b =>
    match assign_token op with
    | Some t => at_level 1%nat a ++ tok t :: at_level 0%nat b
    | None => []
    end
  | ETern a b c => at_level 2%nat a ++ tok TOK_QUESTION :: at_level 0%nat b ++ tok TOK_COLON :: at_level 1%nat c
  | EIndex a i => at_level 13%nat a ++ tok TOK_LBRACKET :: at_level 0%nat i ++ [tok TOK_RBRACKET]
  | EMember arrow a s => at_level 13%nat a ++ [tok (if arrow then TOK_ARROW else TOK_DOT); (s, TOK_IDENT, VStr s)]
  | ECall f args => at_level 13%nat f ++ tok TOK_LPAREN :: bodies args ++ [tok TOK_RPAREN]
  end
with bodies (es : exprs) : list lexeme :=
  match es with
  | ENil => []
  | ECons e ENil => body e
  | ECons e es => body e ++ tok TOK_COMMA :: bodies es
  end.

Definition print (k : nat) (e : expr) : list lexeme := paren (Nat.ltb (prec e) k) (body e).
Definition print_expression (e : expr) : cstr := source (print 0 e).

Example print_example :
  print_expression (EBin OP_MUL (EBin OP_ADD (EInt 1) (EIdent "x"%string)) (EUn PNeg (EIndex (EIdent "a"%string) (EInt 2))))
  = " ( 1 + x ) * - a [ 2 ]"%string.
Proof. vm_compute. reflexivity. Qed.

(** ** Token streams *)

Definition spelled (x : lexeme) : Prop := spells x.1.1 x.1.2 x.2.

(** The tokens the parser still has: the current one and those in the source. *)
Definition stream (p : qd_cint_parser) (l : list lexeme) : Prop :=
  Forall spelled l /\
  match l with
  | [] => type (current p) = TOK_EOF /\ rest (lex p) = []
  | x :: l => type (current p) = x.1.2 /\ val (current p) = x.2 /\ rest (lex p) = source l
  end.

Lemma source_cons x l : source (x :: l) = 32 :: x.1.1 ++ source l.
Proof. done. Qed.

Lemma source_stops l : stops (source l).
Proof. by destruct l. Qed.

Lemma advance_stream p x l :
  stream p (x :: l) ->
  exists p', advance p = Ok (tt, p') /\ stream p' l /\ prev p' = current p /\ had_error p' = had_error p.
Proof.
  intros (Hs & _ & _ & R). apply Forall_cons in Hs as [_ Hs]. unfold advance. rewrite R. destruct l as [|y l].
  - assert (qd_cint_lexer_next (length (source [])) (lex p) = Ok (make_token (lex p) TOK_EOF, lex p)) as ->.
    { unfold qd_cint_lexer_next. simpl. unfold at_end. by rewrite R; simpl; unfold at_end; rewrite R. }
    eexists. split; [reflexivity|]. by repeat split.
  - rewrite source_cons in R |- *. apply Forall_cons in Hs as [Hy Hs].
    destruct (next_lexes (length (32 :: y.1.1 ++ source l)) (lex p) y.1.1 y.1.2 y.2 (source l) Hy R (source_stops l)) as (tk & lx & -> & Rx & Ht & Hv);
      [by rewrite R|].
    eexists. split; [reflexivity|]. split; [|done]. split; [by constructor|]. by split.
Qed.

Lemma pmatch_yes p t s v l :
  stream p ((s, t, v) :: l) ->
  exists p', pmatch t p = Ok (true, p') /\ stream p' l /\ prev p' = current p /\ had_error p' = had_error p.
Proof.
  intros Hp. destruct (advance_stream _ _ _ Hp) as (p' & E & H). exists p'. split; [|done].
  destruct Hp as (_ & Ht & _). unfold pmatch, pbind, CHECK. cbn [obind]. rewrite bool_decide_eq_true_2 by done.
  unfold pbind. rewrite E. done.
Qed.

Lemma pmatch_no p t : type (current p) <> t -> pmatch t p = Ok (false, p).
Proof. intros Hn. unfold pmatch, pbind, CHECK. cbn [obind]. by rewrite bool_decide_eq_false_2. Qed.

Lemma expect_yes p t s v msg l :
  stream p ((s, t, v) :: l) ->
  exists p', expect t msg p = Ok (tt, p') /\ stream p' l /\ prev p' = current p /\ had_error p' = had_error p.
Proof.
  intros Hp. destruct (advance_stream _ _ _ Hp) as (p' & E & H). exists p'. split; [|done].
  destruct Hp as (_ & Ht & _). unfold expect, pbind, CHECK. cbn [obind]. by rewrite bool_decide_eq_true_2.
Qed.

(** The level whose loop takes a token after an operand. *)
Definition level_of (t : qd_cint_token_type) : option nat :=
  match t with
  | TOK_LPAREN | TOK_LBRACKET | TOK_DOT | TOK_ARROW | TOK_INC | TOK_DEC => Some 13
  | TOK_STAR | TOK_SLASH | TOK_PERCENT => Some 11
  | TOK_PLUS | TOK_MINUS => Some 10
  | TOK_LSHIFT | TOK_RSHIFT => Some 9
  | TOK_LT | TOK_GT | TOK_LE | TOK_GE => Some 8
  | TOK_EQ | TOK_NE => Some 7
  | TOK_BAND => Some 6 | TOK_BXOR => Some 5 | TOK_BOR => Some 4 | TOK_AND => Some 3 | TOK_OR => Some 2
  | TOK_QUESTION => Some 1
  | TOK_ASSIGN | TOK_PLUS_EQ | TOK_MINUS_EQ | TOK_STAR_EQ | TOK_SLASH_EQ => Some 0
  | _ => None
  end%nat.

(** Nothing at level [k] or above goes on with the type [t]. *)
Definition ends (k : nat) (t : qd_cint_token_type) : Prop :=
  match level_of t with Some j => (j < k)%nat | None => True end.
Definition head_type (r : list lexeme) : qd_cint_token_type := match r with [] => TOK_EOF | x :: _ => x.1.2 end.

Lemma stream_type p r : stream p r -> type (current p) = head_type r.
Proof. destruct r as [|x r]; by intros (_ & H & _). Qed.

Lemma ends_S k t : ends k t -> ends (S k) t.
Proof. unfold ends. case_match; [lia|done]. Qed.

Definition ops_at (k : nat) : list (qd_cint_token_type * qd_cint_binop) :=
  match k with
  | 2 => or_ops | 3 => and_ops | 4 => bitor_ops | 5 => bitxor_ops | 6 => bitand_ops | 7 => equality_ops
  | 8 => comparison_ops | 9 => shift_ops | 10 => term_ops | 11 => factor_ops | _ => []
  end%nat.

Definition parse_at (k f : nat) : parser node :=
  match k with
  | 0 => parse_assignment f | 1 => parse_ternary f
  | 2 => parse_or (parse_unary f) f | 3 => parse_and (parse_unary f) f | 4 => parse_bitor (parse_unary f) f
  | 5 => parse_bitxor (parse_unary f) f | 6 => parse_bitand (parse_unary f) f | 7 => parse_equality (parse_unary f) f
  | 8 => parse_comparison (parse_unary f) f | 9 => parse_shift (parse_unary f) f | 10 => parse_term (parse_unary f) f
  | 11 => parse_factor (parse_unary f) f | 12 => parse_unary f | 13 => parse_postfix f | _ => parse_primary f
  end%nat.

(** The binary levels. *)
Lemma parse_at_binary k f : (2 <= k <= 11)%nat -> parse_at k f = binary_level f (ops_at k) (parse_at (S k) f).
Proof. intros Hk. do 12 (destruct k as [|k]; [try lia; reflexivity|]). lia. Qed.

Lemma find_ops_none k t : (forall x, x ∈ ops_at k -> x.1 <> t) -> List.find (fun x => bool_decide (x.1 = t)) (ops_at k) = None.
Proof.
  induction (ops_at k) as [|x l IH]; intros Hn; simpl; [done|]. rewrite bool_decide_eq_false_2 by (apply Hn; set_solver).
  apply IH. intros y Hy. apply Hn. set_solver.
Qed.

Lemma ops_level k x : x ∈ ops_at k -> level_of x.1 = Some k.
Proof.
  intros Hx. do 12 (destruct k as [|k]; [simpl in Hx; unfold factor_ops, term_ops, shift_ops, comparison_ops, equality_ops, bitand_ops, bitxor_ops, bitor_ops, and_ops, or_ops in Hx;
    repeat (apply elem_of_cons in Hx as [->|Hx]; [done|]); by apply elem_of_nil in Hx|]). by apply elem_of_nil in Hx.
Qed.

Lemma ops_end k t : ends k t -> List.find (fun x => bool_decide (x.1 = t)) (ops_at k) = None.
Proof. intros He. apply find_ops_none. intros x Hx <-. unfold ends in He. rewrite (ops_level k x Hx) in He. lia. Qed.

Lemma ops_find op t q : binop_token op = Some (t, q) ->
  (2 <= q <= 11)%nat /\ level_of t = Some q /\ List.find (fun x => bool_decide (x.1 = t)) (ops_at q) = Some (t, op).
Proof. destruct op; intros [= <- <-]; (split; [lia|]); by split. Qed.

Lemma assign_end t : ends 0 t -> List.find (fun x => bool_decide (x.1 = t)) assign_ops = None.
Proof. destruct t; try reflexivity; unfold ends; simpl; lia. Qed.

Lemma assign_find op t : assign_token op = Some t ->
  List.find (fun x => bool_decide (x.1 = t)) assign_ops = Some (t, op) /\ ends 1 t.
Proof. destruct op; intros [= <-]; (split; [reflexivity|]); unfold ends; simpl; lia. Qed.

(** ** Levels *)

Definition gives (m : parser node) (p : qd_cint_parser) (e : expr) (r : list lexeme) : Prop :=
  exists n p', m p = Ok (n, p') /\ rep e n /\ stream p' r /\ had_error p' = had_error p.

(** With enough fuel, level [k] reads the tokens [ts] as [e]. *)
Definition reads (k : nat) (ts : list lexeme) (e : expr) : Prop :=
  exists N, forall f, (N <= f)%nat -> forall r p, ends k (head_type r) -> stream p (ts ++ r) -> gives (parse_at k f) p e r.

(** A binary level reads [ts] as [e] and goes on with its loop. *)
Definition reads_loop (q : nat) (ts : list lexeme) (e : expr) : Prop :=
  exists c N, (c < N)%nat /\ forall f, (N <= f)%nat -> forall r p, ends (S q) (head_type r) -> stream p (ts ++ r) ->
    exists n p', parse_at q f p = binary_loop (f - c) (ops_at q) (parse_at (S q) f) n p' /\
      rep e n /\ stream p' r /\ had_error p' = had_error p.

(** The same for the postfix operators. *)
Definition reads_post (ts : list lexeme) (e : expr) : Prop :=
  exists c N, (c < N)%nat /\ forall f, (N <= f)%nat -> forall r p, stream p (ts ++ r) ->
    exists n p', parse_postfix f p = postfix_loop (f - c) n p' /\
      rep e n /\ stream p' r /\ had_error p' = had_error p.

Ltac prun := unfold pbind, current_type, position, prev_position, prev_val, ret; cbn [obind].

(** [fuel] is a successor. *)
Ltac fuel_S f := let g := fresh f in destruct f as [|g]; [lia|].

Lemma binary_loop_end f ops m n p :
  List.find (fun x => bool_decide (x.1 = type (current p))) ops = None -> (0 < f)%nat -> binary_loop f ops m n p = Ok (n, p).
Proof. intros E Hf. destruct f as [|f]; [lia|]. cbn [binary_loop]. prun. by rewrite E. Qed.

Lemma reads_to_loop q ts e : (2 <= q <= 11)%nat -> reads (S q) ts e -> reads_loop q ts e.
Proof.
  intros Hq [N H]. exists 0%nat, (S N). split; [lia|]. intros f Hf r p He Hp.
  destruct (H f ltac:(lia) r p He Hp) as (n & p' & E & Hr). exists n, p'. split; [|done].
  rewrite parse_at_binary by done. unfold binary_level, pbind. rewrite E. cbn [obind]. by rewrite Nat.sub_0_r.
Qed.

Lemma loop_to_reads q ts e : reads_loop q ts e -> reads q ts e.
Proof.
  intros (c & N & Hc & H). exists N. intros f Hf r p He Hp.
  destruct (H f Hf r p (ends_S _ _ He) Hp) as (n & p' & E & Hr & Hs & Hh). exists n, p'. split; [|done].
  rewrite E. apply binary_loop_end; [|lia]. rewrite (stream_type _ _ Hs). by apply ops_end.
Qed.

Lemma loop_binary q op t ts1 ts2 a b :
  binop_token op = Some (t, q) -> reads_loop q ts1 a -> reads (S q) ts2 b -> reads_loop q (ts1 ++ tok t :: ts2) (EBin op a b).
Proof.
  intros Ht (c & N1 & Hc & H1) [N2 H2]. destruct (ops_find op t q Ht) as (Hq & Hl & Hfind).
  exists (S c), (S (S (N1 + N2 + c))). split; [lia|]. intros f Hf r p He Hp. rewrite <- app_assoc in Hp. cbn [app] in Hp.
  destruct (H1 f ltac:(lia) (tok t :: ts2 ++ r) p) as (n & p1 & E & Hr & Hs & Hh); [|exact Hp|].
  { unfold ends. simpl. rewrite Hl. lia. }
  rewrite E. destruct (f - c)%nat as [|g] eqn:Eg; [lia|]. cbn [binary_loop]. prun.
  rewrite (stream_type _ _ Hs). change (head_type (tok t :: ts2 ++ r)) with t. rewrite Hfind.
  destruct (advance_stream _ _ _ Hs) as (p2 & E2 & Hs2 & _ & Hh2). rewrite E2. cbn [obind].
  destruct (H2 f ltac:(lia) r p2 He Hs2) as (m & p3 & E3 & Hr3 & Hs3 & Hh3). rewrite E3. cbn [obind].
  eexists _, p3. split; [replace (f - S c)%nat with g by lia; reflexivity|]. split; [|split; [done|congruence]].
  simpl. eexists _, _, n, m. done.
Qed.

Lemma post_to_reads ts e : reads_post ts e -> reads 13 ts e.
Proof.
  intros (c & N & Hc & H). exists N. intros f Hf r p He Hp. destruct (H f Hf r p Hp) as (n & p' & E & Hr & Hs & Hh).
  exists n, p'. split; [|done]. cbn [parse_at]. rewrite E. destruct (f - c)%nat as [|g] eqn:Eg; [lia|]. cbn [postfix_loop]. prun.
  rewrite (stream_type _ _ Hs). unfold ends in He. destruct (head_type r); simpl in He; done || lia.
Qed.

Lemma reads_to_post ts e : reads 14 ts e -> reads_post ts e.
Proof.
  intros [N H]. exists 1%nat, (S (S N)). split; [lia|]. intros f Hf r p Hp. destruct f as [|f]; [lia|].
  destruct (H f ltac:(lia) r p) as (n & p' & E & Hr & Hs); [|done|].
  { unfold ends. destruct (head_type r); simpl; done || lia. }
  exists n, p'. split; [|done]. cbn [parse_at] in E. cbn [parse_postfix]. prun. rewrite E. cbn [obind].
  replace (S f - 1)%nat with f by lia. destruct n; [done|]. by destruct (rep_some e None Hr).
Qed.

(** The first token is no prefix operator. *)
Definition plain_start (ts : list lexeme) : Prop :=
  match ts with [] => False | x :: _ => prefix_op x.1.2 = None end.

Lemma stream_app_type p ts r : stream p (ts ++ r) -> ts <> [] -> type (current p) = head_type ts.
Proof. intros Hs Hne. rewrite (stream_type _ _ Hs). by destruct ts. Qed.

Lemma lift k ts e : (k <= 13)%nat -> (k = 12%nat -> plain_start ts) -> reads (S k) ts e -> reads k ts e.
Proof.
  intros Hk Hst HR. destruct (decide (k = 13%nat)) as [->|Hn13]; [by apply post_to_reads, reads_to_post|].
  destruct (decide (2 <= k <= 11)%nat) as [Hb|Hnb]; [by apply loop_to_reads, reads_to_loop|].
  destruct HR as [N H]. exists (S N). intros f Hf r p He Hp. destruct f as [|f]; [lia|].
  destruct (H f ltac:(lia) r p (ends_S _ _ He) Hp) as (n & p' & E & Hr & Hs & Hh). exists n, p'. split; [|done].
  destruct k as [|[|k]]; [| |assert (k = 10%nat) as -> by lia]; cbn [parse_at] in *.
  - cbn [parse_assignment]. prun. rewrite E. cbn [obind]. by rewrite (stream_type _ _ Hs), assign_end.
  - cbn [parse_ternary]. prun. rewrite E. cbn [obind]. rewrite pmatch_no; [done|]. rewrite (stream_type _ _ Hs).
    unfold ends in He. intros Eq. rewrite Eq in He. simpl in He. lia.
  - cbn [parse_unary]. prun. specialize (Hst eq_refl). destruct ts as [|x ts]; [done|].
    rewrite (stream_type _ _ Hp). simpl in Hst |- *. by rewrite Hst.
Qed.

Lemma lift_to j k ts e : (k <= j <= 14)%nat -> (j <= 12)%nat \/ plain_start ts -> reads j ts e -> reads k ts e.
Proof.
  intros [Hkj Hj] Hst. induction Hkj as [|j Hkj IH]; [done|]. intros HR. apply IH; [lia|destruct Hst; [left; lia|by right]|].
  apply lift; [lia| |done]. intros ->. destruct Hst; [lia|done].
Qed.

(** ** Constructs *)

Ltac go E := rewrite E; cbn [obind].

Lemma reads_literal s t v e :
  (forall f p l c, type (current p) = t -> val (current p) = v -> tline (current p) = l -> tcol (current p) = c ->
    forall p', advance p = Ok (tt, p') -> prev p' = current p -> exists n, parse_primary (S f) p = Ok (n, p') /\ rep e n) ->
  reads 14 [(s, t, v)] e.
Proof.
  intros H. exists 1%nat. intros f Hf r p _ Hp. destruct f as [|f]; [lia|].
  destruct (advance_stream _ _ _ Hp) as (p' & E & Hs & Hpr & Hh). destruct Hp as (_ & Ht & Hv & _). simpl in Ht, Hv.
  destruct (H f p _ _ Ht Hv eq_refl eq_refl p' E Hpr) as (n & En & Hn). by exists n, p'.
Qed.

Lemma reads_int i : reads 14 [(print_lld i, TOK_INT, VInt i)] (EInt i).
Proof.
  apply reads_literal. intros f p l c Ht Hv <- <- p' E Hpr. cbn [parse_primary]. prun. rewrite Ht. go E.
  rewrite Hpr, Hv. simpl. eauto.
Qed.

Lemma reads_char x s : reads 14 [(s, TOK_CHAR, VChar (signed 8 x))] (EChar x).
Proof.
  apply reads_literal. intros f p l c Ht Hv <- <- p' E Hpr. cbn [parse_primary]. prun. rewrite Ht. go E.
  rewrite Hpr, Hv. simpl. eauto.
Qed.

Lemma reads_string s t : 0 ∉ s -> reads 14 [(t, TOK_STRING, VStr s)] (EStr s).
Proof.
  intros Hn. apply reads_literal. intros f p l c Ht Hv <- <- p' E Hpr. cbn [parse_primary]. prun. rewrite Ht. go E.
  unfold prev_string. rewrite Hpr, Hv. simpl. unfold qd_cint_ast_string. rewrite !(until_nul_id s) by done. eauto.
Qed.

Lemma reads_ident s : 0 ∉ s -> reads 14 [(s, TOK_IDENT, VStr s)] (EIdent s).
Proof.
  intros Hn. apply reads_literal. intros f p l c Ht Hv <- <- p' E Hpr. cbn [parse_primary]. prun. rewrite Ht. go E.
  unfold prev_string. rewrite Hpr, Hv. simpl. unfold qd_cint_ast_ident. rewrite !(until_nul_id s) by done. eauto.
Qed.

Lemma ends_none k t : level_of t = None -> ends k t.
Proof. unfold ends. by intros ->. Qed.

Lemma reads_paren ts e : reads 0 ts e -> reads 14 (paren true ts) e.
Proof.
  intros [N H]. exists (S N). intros f Hf r p _ Hp. destruct f as [|f]; [lia|].
  simpl in Hp. rewrite <- app_assoc in Hp. cbn [app] in Hp.
  destruct (advance_stream _ _ _ Hp) as (p1 & E1 & Hs1 & _ & Hh1).
  destruct (H f ltac:(lia) (tok TOK_RPAREN :: r) p1 ltac:(by apply ends_none) Hs1) as (n & p2 & E2 & Hr & Hs2 & Hh2).
  destruct (expect_yes p2 TOK_RPAREN _ _ "Expected ')' after expression"%string _ Hs2) as (p3 & E3 & Hs3 & _ & Hh3).
  exists n, p3. split; [|split; [done|split; [done|congruence]]].
  cbn [parse_at parse_primary]. prun. rewrite (stream_type _ _ Hp). cbn [head_type tok fst snd]. go E1. cbn [parse_at] in E2. go E2. go E3. done.
Qed.

Lemma reads_unary op ts a : reads 12 ts a -> reads 12 (tok (prefix_token op) :: ts) (EUn op a).
Proof.
  intros [N H]. exists (S N). intros f Hf r p He Hp. destruct f as [|f]; [lia|]. cbn [app] in Hp.
  destruct (advance_stream _ _ _ Hp) as (p1 & E1 & Hs1 & _ & Hh1).
  destruct (H f ltac:(lia) r p1 He Hs1) as (n & p2 & E2 & Hr & Hs2 & Hh2). cbn [parse_at] in *.
  assert (exists m, parse_unary (S f) p = Ok (m, p2) /\ rep (EUn op a) m) as (m & E & Hm).
  { cbn [parse_unary]. prun. rewrite (stream_type _ _ Hp). cbn [head_type tok fst snd].
    destruct op; cbn [prefix_token prefix_op]; go E1; go E2; (eexists; split; [reflexivity|]; simpl; eexists _, _, n; done). }
  exists m, p2. split; [done|]. split; [done|]. split; [done|congruence].
Qed.

Lemma reads_ternary ta tb tc a b c :
  reads 2 ta a -> reads 0 tb b -> reads 1 tc c -> reads 1 (ta ++ tok TOK_QUESTION :: tb ++ tok TOK_COLON :: tc) (ETern a b c).
Proof.
  intros [Na Ha] [Nb Hb] [Nc Hc]. exists (S (Na + Nb + Nc)). intros f Hf r p He Hp. destruct f as [|f]; [lia|].
  rewrite <- app_assoc in Hp. cbn [app] in Hp. rewrite <- app_assoc in Hp. cbn [app] in Hp.
  destruct (Ha f ltac:(lia) (tok TOK_QUESTION :: tb ++ tok TOK_COLON :: tc ++ r) p) as (x & p1 & E1 & R1 & S1 & H1);
    [unfold ends; simpl; lia|exact Hp|].
  destruct (pmatch_yes p1 TOK_QUESTION _ _ _ S1) as (p2 & E2 & S2 & _ & H2).
  destruct (Hb f ltac:(lia) (tok TOK_COLON :: tc ++ r) p2 ltac:(by apply ends_none) S2) as (y & p3 & E3 & R3 & S3 & H3).
  destruct (expect_yes p3 TOK_COLON _ _ "Expected ':' in ternary expression"%string _ S3) as (p4 & E4 & S4 & _ & H4).
  destruct (Hc f ltac:(lia) r p4 He S4) as (z & p5 & E5 & R5 & S5 & H5). cbn [parse_at] in *.
  eexists _, p5. split; [|split; [|split; [exact S5|congruence]]].
  - cbn [parse_ternary]. prun. go E1. go E2. go E3. go E4. go E5. reflexivity.
  - simpl. eexists _, _, x, y, z. done.
Qed.

Lemma reads_assign op t ta tb a b :
  assign_token op = Some t -> reads 1 ta a -> reads 0 tb b -> reads 0 (ta ++ tok t :: tb) (EAssign op a b).
Proof.
  intros Ht [Na Ha] [Nb Hb]. destruct (assign_find op t Ht) as [Hf1 He1]. exists (S (Na + Nb)). intros f Hf r p He Hp. destruct f as [|f]; [lia|].
  rewrite <- app_assoc in Hp. cbn [app] in Hp.
  destruct (Ha f ltac:(lia) (tok t :: tb ++ r) p He1 Hp) as (x & p1 & E1 & R1 & S1 & H1).
  destruct (advance_stream _ _ _ S1) as (p2 & E2 & S2 & _ & H2).
  destruct (Hb f ltac:(lia) r p2 He S2) as (y & p3 & E3 & R3 & S3 & H3). cbn [parse_at] in *.
  eexists _, p3. split; [|split; [|split; [exact S3|congruence]]].
  - cbn [parse_assignment]. prun. go E1. rewrite (stream_type _ _ S1). change (head_type (tok t :: tb ++ r)) with t. rewrite Hf1.
    go E2. go E3. reflexivity.
  - simpl. eexists _, _, x, y. done.
Qed.

(** One more postfix operator. *)
Lemma post_step ts1 ts2 a e d :
  reads_post ts1 a -> 
  (exists N, forall f, (N <= f)%nat -> forall r p x, rep a x -> stream p (ts2 ++ r) ->
     exists n p', postfix_loop (S f) x p = postfix_loop (f - d) n p' /\ rep e n /\ stream p' r /\ had_error p' = had_error p) ->
  reads_post (ts1 ++ ts2) e.
Proof.
  intros (c & N1 & Hc & H1) [N2 H2]. exists (S (c + d)), (S (S (N1 + N2 + c + d))). split; [lia|]. intros f Hf r p Hp.
  rewrite <- app_assoc in Hp. destruct (H1 f ltac:(lia) _ p Hp) as (x & p1 & E1 & R1 & S1 & H3). rewrite E1.
  destruct (f - c)%nat as [|g] eqn:Eg; [lia|]. destruct (H2 g ltac:(lia) r p1 x R1 S1) as (n & p2 & E2 & R2 & S2 & H4).
  exists n, p2. split; [|split; [done|split; [done|congruence]]]. rewrite E2. f_equal. lia.
Qed.

Lemma reads_incdec ts a (inc : bool) : reads_post ts a -> reads_post (ts ++ [tok (if inc then TOK_INC else TOK_DEC)]) (EPost inc a).
Proof.
  intros Ha. apply (post_step ts _ a _ 0 Ha). exists 0%nat. intros f _ r p x Rx Hp. cbn [app] in Hp.
  destruct (advance_stream _ _ _ Hp) as (p1 & E1 & S1 & _ & H1).
  destruct inc; (eexists _, p1; split; [cbn [postfix_loop]; prun; rewrite (stream_type _ _ Hp); cbn [head_type tok fst snd]; go E1; by rewrite Nat.sub_0_r|]);
    (split; [simpl; by eexists _, _, x|done]).
Qed.

Lemma reads_index ts ti a i :
  reads_post ts a -> reads 0 ti i -> reads_post (ts ++ tok TOK_LBRACKET :: ti ++ [tok TOK_RBRACKET]) (EIndex a i).
Proof.
  intros Ha [N H]. apply (post_step ts _ a _ 0 Ha). exists N. intros f Hf r p x Rx Hp. cbn [app] in Hp. rewrite <- app_assoc in Hp. cbn [app] in Hp.
  destruct (advance_stream _ _ _ Hp) as (p1 & E1 & S1 & _ & H1).
  destruct (H f Hf (tok TOK_RBRACKET :: r) p1 ltac:(by apply ends_none) S1) as (y & p2 & E2 & R2 & S2 & H2). cbn [parse_at] in E2.
  destruct (expect_yes p2 TOK_RBRACKET _ _ "Expected ']' after index"%string _ S2) as (p3 & E3 & S3 & _ & H3).
  eexists _, p3. split; [|split; [|split; [exact S3|congruence]]].
  - cbn [postfix_loop]. prun. rewrite (stream_type _ _ Hp). cbn [head_type tok fst snd]. go E1. go E2. go E3. by rewrite Nat.sub_0_r.
  - simpl. by eexists _, _, x, y.
Qed.

Lemma reads_member ts a (arrow : bool) s :
  0 ∉ s -> reads_post ts a -> reads_post (ts ++ [tok (if arrow then TOK_ARROW else TOK_DOT); (s, TOK_IDENT, VStr s)]) (EMember arrow a s).
Proof.
  intros Hs Ha. apply (post_step ts _ a _ 0 Ha). exists 0%nat. intros f _ r p x Rx Hp. cbn [app] in Hp.
  destruct (advance_stream _ _ _ Hp) as (p1 & E1 & S1 & _ & H1).
  destruct (expect_yes p1 TOK_IDENT _ _ "Expected member name"%string _ S1) as (p2 & E2 & S2 & Hpr & H2).
  assert (prev_string p2 = Ok (s, p2)) as E3.
  { unfold prev_string. rewrite Hpr. destruct S1 as (_ & _ & -> & _). simpl. by rewrite until_nul_id. }
  destruct arrow; (eexists _, p2; split;
    [cbn [postfix_loop]; prun; rewrite (stream_type _ _ Hp); cbn [head_type tok fst snd]; go E1; go E2; go E3; by rewrite Nat.sub_0_r|]);
    (split; [simpl; by eexists _, _, x|split; [exact S2|congruence]]).
Qed.

(** Arguments up to the closing parenthesis. *)
Definition reads_args (es : exprs) : Prop :=
  exists N, forall f, (N <= f)%nat -> forall r p acc, es <> ENil -> (length acc + count es <= 64)%nat ->
    stream p (bodies es ++ tok TOK_RPAREN :: r) ->
    exists ns p', args_loop f acc p = Ok (acc ++ ns, p') /\ reps es ns /\ stream p' (tok TOK_RPAREN :: r) /\ had_error p' = had_error p.

Lemma reads_args_cons e es : reads 0 (body e) e -> reads_args es -> reads_args (ECons e es).
Proof.
  intros [N1 H1] [N2 H2]. exists (S (N1 + N2)). intros f Hf r p acc _ Hlen Hp. destruct f as [|f]; [lia|]. simpl in Hlen.
  assert (exists ts, bodies (ECons e es) = body e ++ ts /\ (es = ENil /\ ts = [] \/ es <> ENil /\ ts = tok TOK_COMMA :: bodies es)) as (ts & Eb & Hts).
  { destruct es; [exists []; by rewrite app_nil_r; auto|]. eexists. split; [reflexivity|]. by right. }
  rewrite Eb, <- app_assoc in Hp.
  destruct (H1 f ltac:(lia) (ts ++ tok TOK_RPAREN :: r) p) as (n & p1 & E1 & R1 & S1 & Hh1); [|exact Hp|].
  { destruct Hts as [[_ ->]|[_ ->]]; by apply ends_none. }
  cbn [parse_at] in E1. destruct Hts as [[-> ->]|[Hne ->]].
  - exists [n], p1. split; [|split; [by exists n, []|done]]. cbn [args_loop]. prun. go E1.
    destruct (Nat.leb_spec 64 (length acc)); [simpl in Hlen; lia|]. unfold pbind. rewrite pmatch_no; [done|]. by rewrite (stream_type _ _ S1).
  - destruct (pmatch_yes p1 TOK_COMMA _ _ _ S1) as (p2 & E2 & S2 & _ & Hh2).
    destruct (H2 f ltac:(lia) r p2 (acc ++ [n]) Hne) as (ns & p3 & E3 & R3 & S3 & Hh3); [rewrite length_app; simpl; lia|exact S2|].
    exists (n :: ns), p3. split; [|split; [by exists n, ns|split; [done|congruence]]]. cbn [args_loop]. prun. go E1.
    destruct (Nat.leb_spec 64 (length acc)); [lia|]. unfold pbind. go E2. rewrite E3. by rewrite <- app_assoc.
Qed.

Lemma reads_call ts f es :
  (count es <= 64)%nat -> (es <> ENil -> head_type (bodies es) <> TOK_RPAREN /\ bodies es <> []) ->
  reads_post ts f -> reads_args es -> reads_post (ts ++ tok TOK_LPAREN :: bodies es ++ [tok TOK_RPAREN]) (ECall f es).
Proof.
  intros Hcount Hhd Hf' [N H]. apply (post_step ts _ f _ 0 Hf'). exists N. intros g Hg r p x Rx Hp. cbn [app] in Hp. rewrite <- app_assoc in Hp. cbn [app] in Hp.
  destruct (advance_stream _ _ _ Hp) as (p1 & E1 & S1 & _ & H1).
  assert (exists b ns p2, CHECK TOK_RPAREN p1 = Ok (b, p1) /\ (if b then ret [] else args_loop g []) p1 = Ok (ns, p2) /\
    reps es ns /\ stream p2 (tok TOK_RPAREN :: r) /\ had_error p2 = had_error p1) as (b & ns & p2 & Ec & E2 & R2 & S2 & H2).
  { unfold CHECK. rewrite (stream_type _ _ S1). destruct es as [|e es]; [by exists true, [], p1|].
    destruct (Hhd ltac:(done)) as [Hn1 Hn2]. destruct (H g Hg r p1 [] ltac:(done) ltac:(done) S1) as (ns & p2 & E2 & ?).
    exists false, ns, p2. split; [|done]. rewrite bool_decide_eq_false_2; [done|]. by destruct (bodies (ECons e es)). }
  destruct (expect_yes p2 TOK_RPAREN _ _ "Expected ')' after arguments"%string _ S2) as (p3 & E3 & S3 & _ & H3).
  eexists _, p3. split; [|split; [|split; [exact S3|congruence]]].
  - cbn [postfix_loop]. unfold pbind, position, current_type. cbn [obind]. rewrite (stream_type _ _ Hp). cbn [head_type tok fst snd].
    go E1. go Ec. go E2. go E3. by rewrite Nat.sub_0_r.
  - simpl. by eexists _, _, x, ns.
Qed.

(** ** All expressions *)

Lemma print_low k e : (k <= prec e)%nat -> print k e = body e.
Proof. intros H. unfold print. destruct (Nat.ltb_spec (prec e) k); [lia|done]. Qed.

Lemma print_high k e : (prec e < k)%nat -> print k e = paren true (body e).
Proof. intros H. unfold print. destruct (Nat.ltb_spec (prec e) k); [done|lia]. Qed.

Lemma print_S k e : prec e <> k -> print k e = print (S k) e.
Proof.
  intros H. destruct (Nat.lt_ge_cases (prec e) k); [by rewrite !print_high by lia|by rewrite !print_low by lia].
Qed.

(** A text starts with a token that is no closing parenthesis, and with no prefix
    operator from the postfix level on. *)
Definition good_start (strict : bool) (l : list lexeme) : Prop :=
  match l with [] => False | x :: _ => x.1.2 <> TOK_RPAREN /\ (strict = true -> prefix_op x.1.2 = None) end.

Lemma good_start_app b l r : good_start b l -> good_start b (l ++ r).
Proof. by destruct l. Qed.

Lemma good_start_print k e :
  good_start (Nat.leb 13 (prec e)) (body e) -> good_start (Nat.leb 13 k) (print k e).
Proof.
  intros H. destruct (Nat.lt_ge_cases (prec e) k) as [Hl|Hl]; [by rewrite print_high|]. rewrite print_low by done.
  destruct (body e) as [|x l]; [done|]. destruct H as [H1 H2]. split; [done|]. intros H. apply H2.
  destruct (Nat.leb_spec 13 k), (Nat.leb_spec 13 (prec e)); done || lia.
Qed.

Lemma body_start e : wf e -> good_start (Nat.leb 13 (prec e)) (body e).
Proof.
  induction e as [i|c|s|s|op a IH|inc a IH|op a IHa b IHb|op a IHa b IHb|a IHa b IHb c IHc|a IHa i IHi|arrow a IH s|f IHf args] using expr_ind;
    simpl wf; intros H; cbn [body prec]; try (by split).
  - split; [by destruct op|done].
  - apply good_start_app, (good_start_print 13), IH, H.
  - destruct H as ([[t q] Ht] & Ha & _). rewrite Ht. destruct (ops_find op t q Ht) as (Hq & _).
    apply good_start_app. apply (good_start_print q), IHa, Ha.
  - destruct H as ([t Ht] & Ha & _). rewrite Ht. apply good_start_app. apply (good_start_print 1), IHa, Ha.
  - apply good_start_app. apply (good_start_print 2), IHa, H.
  - apply good_start_app, (good_start_print 13), IHa, H.
  - apply good_start_app, (good_start_print 13), IH, H.
  - apply good_start_app, (good_start_print 13), IHf, H.
Qed.

Lemma bodies_start es : wfs es -> es <> ENil -> head_type (bodies es) <> TOK_RPAREN /\ bodies es <> [].
Proof.
  destruct es as [|e es]; [done|]. intros [He _] _. pose proof (body_start e He) as H.
  assert (exists l, bodies (ECons e es) = body e ++ l) as [l ->].
  { destruct es; [exists []; by rewrite app_nil_r|]. by eexists. }
  destruct (body e) as [|x k]; [done|]. by destruct H.
Qed.

(** What is known of the parts of an expression. *)
Definition claim (e : expr) : Prop :=
  (forall k, (k <= 14)%nat -> reads k (print k e) e) /\
  (forall q, (2 <= q <= 11)%nat -> reads_loop q (print q e) e) /\
  reads_post (print 13 e) e.

Lemma derive e :
  good_start (Nat.leb 13 (prec e)) (body e) -> (prec e <= 14)%nat ->
  reads (prec e) (body e) e ->
  ((2 <= prec e <= 11)%nat -> reads_loop (prec e) (body e) e) -> (prec e = 13%nat -> reads_post (body e) e) -> claim e.
Proof.
  intros Hst H14 Hown Hloop Hpost.
  assert (forall k, (k <= prec e)%nat -> reads k (body e) e) as Hlow.
  { intros k Hk. apply (lift_to (prec e)); [lia| |done]. destruct (Nat.leb_spec 13 (prec e)); [right|left; lia].
    destruct (body e); [done|]. by apply Hst. }
  assert (forall k, (k <= 14)%nat -> reads k (print k e) e) as Hall.
  { intros k Hk. destruct (Nat.lt_ge_cases (prec e) k); [|rewrite print_low by done; auto]. rewrite print_high by done.
    apply (lift_to 14); [lia|by right|]. apply reads_paren, Hlow. lia. }
  split; [done|]. split.
  - intros q Hq. destruct (Nat.eq_dec (prec e) q) as [<-|Hne]; [rewrite print_low by done; by apply Hloop|].
    apply reads_to_loop; [done|]. rewrite print_S by done. apply Hall. lia.
  - destruct (Nat.eq_dec (prec e) 13%nat) as [E|Hne]; [rewrite print_low by lia; by apply Hpost|].
    apply reads_to_post. rewrite print_S by done. by apply Hall.
Qed.

Lemma is_ident_spelled s : is_ident s = true -> spells s TOK_IDENT (VStr s).
Proof.
  destruct s as [|c s]; [done|]. intros [[H1 H2]%andb_true_iff H3%bool_decide_eq_true]%andb_true_iff.
  constructor; [done| |done]. apply Forall_forall. intros x Hx. rewrite forallb_forall in H2. by apply H2, list_elem_of_In.
Qed.

Lemma is_ident_no_nul s : is_ident s = true -> 0 ∉ s.
Proof. intros H. by eapply spells_no_nul, is_ident_spelled. Qed.

Lemma claim_literal e : prec e = 14%nat -> good_start true (body e) -> reads 14 (body e) e -> claim e.
Proof. intros E Hs HR. apply derive; rewrite E; [done|lia|done|lia|lia]. Qed.

Lemma claim_post e : prec e = 13%nat -> good_start true (body e) -> reads_post (body e) e -> claim e.
Proof. intros E Hs HR. apply derive; rewrite E; [done|lia|by apply post_to_reads|lia|done]. Qed.

Lemma claim_all e : wf e -> claim e.
Proof.
  induction e as [i|c|s|s|op a IH|inc a IH|op a IHa b IHb|op a IHa b IHb|a IHa b IHb c IHc|a IHa i IHi|arrow a IH s|f IHf args IHargs| |e IHe es IHes]
    using expr_mut with (P0 := fun es => wfs es -> reads_args es); intros Hw; pose proof Hw as Hw'; simpl in Hw'.
  - apply claim_literal; [done|by apply (body_start (EInt i))|apply reads_int].
  - apply claim_literal; [done|by apply (body_start (EChar c))|apply reads_char].
  - apply claim_literal; [done|by apply (body_start (EStr s))|by apply reads_string].
  - apply claim_literal; [done|by apply (body_start (EIdent s))|by apply reads_ident, is_ident_no_nul].
  - apply derive; [by apply body_start|simpl; lia| |simpl; lia|done]. apply reads_unary. apply (IH Hw'). lia.
  - apply claim_post; [done|by apply (body_start (EPost inc a))|]. apply reads_incdec. apply (IH Hw').
  - destruct Hw' as ([[t q] Ht] & Ha & Hb). destruct (ops_find op t q Ht) as (Hq & _).
    assert (prec (EBin op a b) = q) as Eq by (simpl; by rewrite Ht).
    assert (reads_loop q (body (EBin op a b)) (EBin op a b)) as HL.
    { cbn [body]. rewrite Ht. apply loop_binary; [done|by apply (IHa Ha)|apply (IHb Hb); lia]. }
    apply derive; [by apply body_start|lia|rewrite Eq; by apply loop_to_reads|by rewrite Eq|lia].
  - destruct Hw' as ([t Ht] & Ha & Hb). apply derive; [by apply body_start|simpl; lia| |simpl; lia|done].
    cbn [body prec]. rewrite Ht. apply reads_assign; [done|apply (IHa Ha); lia|apply (IHb Hb); lia].
  - destruct Hw' as (Ha & Hb & Hc). apply derive; [by apply body_start|simpl; lia| |simpl; lia|done].
    apply reads_ternary; [apply (IHa Ha); lia|apply (IHb Hb); lia|apply (IHc Hc); lia].
  - destruct Hw' as (Ha & Hi). apply claim_post; [done|by apply (body_start (EIndex a i))|].
    apply reads_index; [apply (IHa Ha)|apply (IHi Hi); lia].
  - destruct Hw' as (Ha & Hs). apply claim_post; [done|by apply (body_start (EMember arrow a s))|].
    apply reads_member; [by apply is_ident_no_nul|apply (IH Ha)].
  - destruct Hw' as (Hf & Hargs & Hn). apply claim_post; [done|by apply (body_start (ECall f args))|].
    apply reads_call; [done|by apply bodies_start|apply (IHf Hf)|by apply IHargs].
  - by exists 0%nat.
  - destruct Hw' as (He & Hes). apply reads_args_cons; [|by apply IHes]. rewrite <- (print_low 0) by lia. apply (IHe He). lia.
Qed.

(** ** The text *)

(** An operator of the grammar is spelled in the table of operators. *)
Lemma tok_spelled t : spelling t <> [] -> spelled (tok t).
Proof.
  unfold tok, spelling, spelled. destruct (List.find _ operators) as [[s u]|] eqn:E; [|done]. intros _.
  apply find_some in E as [Hin Hu%bool_decide_eq_true]. simpl in Hu. subst u. by apply spells_operator, list_elem_of_In.
Qed.

Lemma paren_spelled b l : Forall spelled l -> Forall spelled (paren b l).
Proof.
  intros H. destruct b; [|done]. simpl. constructor; [by apply tok_spelled|]. apply Forall_app. split; [done|].
  constructor; [by apply tok_spelled|done].
Qed.

Ltac spelled_tac :=
  repeat first [ done | apply Forall_app; split | apply Forall_cons; split | apply Forall_nil
    | apply paren_spelled | apply tok_spelled ].

Lemma body_spelled e : wf e -> Forall spelled (body e).
Proof.
  induction e as [i|c|s|s|op a IH|inc a IH|op a IHa b IHb|op a IHa b IHb|a IHa b IHb c IHc|a IHa i IHi|arrow a IH s|f IHf args IHargs| |e IHe es IHes]
    using expr_mut with (P0 := fun es => wfs es -> Forall spelled (bodies es)); intros Hw; simpl in Hw; cbn [body].
  - apply Forall_singleton. by apply spells_int.
  - apply Forall_singleton. apply spells_char.
  - apply Forall_singleton. apply spells_string.
  - apply Forall_singleton. by apply is_ident_spelled.
  - spelled_tac; [by destruct op|auto].
  - spelled_tac; [auto|by destruct inc].
  - destruct Hw as ([[t q] Ht] & Ha & Hb). rewrite Ht. spelled_tac; [auto| |auto]. destruct op; inversion Ht; by subst.
  - destruct Hw as ([t Ht] & Ha & Hb). rewrite Ht. spelled_tac; [auto| |auto]. destruct op; inversion Ht; by subst.
  - destruct Hw as (Ha & Hb & Hc). spelled_tac; auto.
  - destruct Hw as (Ha & Hi). spelled_tac; auto.
  - destruct Hw as (Ha & Hs). spelled_tac; [auto|by destruct arrow|by apply is_ident_spelled].
  - destruct Hw as (Hf & Hargs & _). spelled_tac; auto.
  - done.
  - destruct Hw as (He & Hes). destruct es as [|e' es]; [auto|]. change (Forall spelled (body e ++ tok TOK_COMMA :: bodies (ECons e' es))).
    spelled_tac; auto.
Qed.

(** The parser at the start of a text. *)
Lemma init_stream l :
  Forall spelled l -> l <> [] ->
  exists p0, qd_cint_parser_init (source l) 0 = Ok p0 /\ stream p0 l /\ had_error p0 = false.
Proof.
  intros Hsp Hne. unfold qd_cint_parser_init, qd_cint_lexer_init. rewrite until_nul_id by (by apply source_no_nul).
  simpl. destruct l as [|x l]; [done|]. pose proof Hsp as [Hx Hl]%Forall_cons.
  destruct (next_lexes (length (source (x :: l))) (mkLexer (source (x :: l)) (source (x :: l)) 1 1) x.1.1 x.1.2 x.2 (source l) Hx eq_refl (source_stops l)) as (tk & lx & E & Rx & Ht & Hv);
    [done|]. cbn [rest]. rewrite E. cbn [obind]. eexists. split; [reflexivity|]. by split.
Qed.

(** C14: Print and parse: for every expression over the operators, calls, members and
    literals of the language, the parser reads the text printed with the parentheses
    that precedence and associativity require as exactly this expression, to the end of
    the text and without an error, with any fuel from some bound on. *)
Theorem parse_print e :
  wf e -> exists p0 N, qd_cint_parser_init (print_expression e) 0 = Ok p0 /\
    forall fuel, (N <= fuel)%nat ->
    exists n p', qd_cint_parse_expression fuel p0 = Ok (n, p') /\ rep e n /\
      qd_cint_parser_had_error p' = false /\ type (current p') = TOK_EOF.
Proof.
  intros Hw. pose proof (body_spelled e Hw) as Hsp. destruct (claim_all e Hw) as [Hall _]. destruct (Hall 0%nat ltac:(lia)) as [N HN].
  rewrite print_low in HN by lia. pose proof (body_start e Hw) as Hst.
  destruct (init_stream (body e) Hsp) as (p0 & E0 & S0 & H0); [by destruct (body e)|].
  unfold print_expression. rewrite print_low by lia.
  exists p0, N. split; [done|]. intros fuel Hf.
  destruct (HN fuel Hf [] p0) as (n & p' & E & Hr & Hs & Hh); [by apply ends_none|by rewrite app_nil_r|].
  exists n, p'. split; [exact E|]. split; [done|]. split; [by rewrite <- H0|]. by destruct Hs as (_ & ? & _).
Qed.

Definition demo_expr : expr :=
  EAssign OP_ADD_ASSIGN (EIdent "x"%string)
    (EBin OP_SUB (EBin OP_SUB (EInt 7) (EInt 2)) (EBin OP_SUB (ECall (EIdent "f"%string) (ECons (EStr "a"%string) ENil)) (EUn PNeg (EInt 1)))).

Lemma parse_print_witness :

  exists p0 N, qd_cint_parser_init (print_expression demo_expr) 0 = Ok p0 /\
    forall fuel, (N <= fuel)%nat ->
    exists n p', qd_cint_parse_expression fuel p0 = Ok (n, p') /\ rep demo_expr n /\
      qd_cint_parser_had_error p' = false /\ type (current p') = TOK_EOF.
Proof.
  apply (parse_print demo_expr).
  simpl wf. repeat split; try lia; try (by eexists); try reflexivity. apply (bool_decide_unpack _). vm_compute. reflexivity.
Defined.

(** A statement that makes no progress: in a block, after an error the current token
    stays, the loop of parse_block runs on, and the 257th statement is written past the
    end of the array of 256. *)
Theorem block_error_overruns :
  (let! p := qd_cint_parser_init ("{ ) }"%string : cstr) 0 in qd_cint_parse_statement 300 p) = Undef.
Proof. vm_compute. reflexivity. Qed.
