(* ===== verification/RbTree.v ===== *)
(** * src/util/qd_rbtree.h: the intrusive red-black tree

    The nodes are cells of a memory, linked by [parent], [left] and [right]
    pointers; the operations below are the code's, pointer write by pointer
    write.  A null or unmapped pointer makes an access undefined.  A heap is
    related to a binary tree of node addresses ([tree_at]); every operation is
    then a function on that tree: insertion and erasure return, keep the
    in-order sequence of the other nodes, and keep the red-black discipline. *)

From S2P Require Import Prelude.

Abbreviation loc := Z (only parsing).
Definition NULL : loc := 0.

(** [QD_RB_RED] and [QD_RB_BLACK]. *)
Definition QD_RB_RED : Z := 0.
Definition QD_RB_BLACK : Z := 1.

(** [struct qd_rb_node]. *)
Record qd_rb_node := mkNode {
  rb_parent : loc;
  rb_left : loc;
  rb_right : loc;
  rb_color : Z
}.

(** The nodes in memory, and the pointer held by the [struct qd_rb_root]. *)
Record qd_rb_root := mkRoot { mem : gmap Z qd_rb_node; root : loc }.

(** ** Memory accesses *)

Definition rd {A} (s : qd_rb_root) (f : qd_rb_node -> A) (p : loc) : outcome A :=
  match mem s !! p with Some n => Ok (f n) | None => Undef end.

Definition wr (s : qd_rb_root) (p : loc) (f : qd_rb_node -> qd_rb_node) : outcome qd_rb_root :=
  match mem s !! p with
  | Some n => Ok (mkRoot (<[p := f n]> (mem s)) (root s))
  | None => Undef
  end.

Definition with_parent v n := mkNode v (rb_left n) (rb_right n) (rb_color n).
Definition with_left v n := mkNode (rb_parent n) v (rb_right n) (rb_color n).
Definition with_right v n := mkNode (rb_parent n) (rb_left n) v (rb_color n).
Definition with_color v n := mkNode (rb_parent n) (rb_left n) (rb_right n) v.

Definition set_parent s p v := wr s p (with_parent v).
Definition set_left s p v := wr s p (with_left v).
Definition set_right s p v := wr s p (with_right v).
Definition set_color s p v := wr s p (with_color v).
Definition set_root (s : qd_rb_root) v : qd_rb_root := mkRoot (mem s) v.

(** [p && p->color == QD_RB_RED]. *)
Definition is_red (s : qd_rb_root) (p : loc) : outcome bool :=
  if p =? NULL then Ok false else
  let! c := rd s rb_color p in Ok (c =? QD_RB_RED).

(** [!p || p->color == QD_RB_BLACK]. *)
Definition is_black (s : qd_rb_root) (p : loc) : outcome bool :=
  if p =? NULL then Ok true else
  let! c := rd s rb_color p in Ok (c =? QD_RB_BLACK).

(** [if (p) p->parent = v]. *)
Definition set_parent_opt (s : qd_rb_root) (p v : loc) : outcome qd_rb_root :=
  if p =? NULL then Ok s else set_parent s p v.

(** [if (p) p->color = v]. *)
Definition set_color_opt (s : qd_rb_root) (p : loc) (v : Z) : outcome qd_rb_root :=
  if p =? NULL then Ok s else set_color s p v.

(** ** Operations *)

Definition qd_rb_init_node (s : qd_rb_root) (node : loc) : outcome qd_rb_root :=
  let! s := set_parent s node NULL in
  let! s := set_left s node NULL in
  let! s := set_right s node NULL in
  set_color s node QD_RB_RED.

Definition qd_rb_empty (s : qd_rb_root) : bool := root s =? NULL.

Definition __qd_rb_rotate_left (s : qd_rb_root) (node : loc) : outcome qd_rb_root :=
  let! nright := rd s rb_right node in
  let! parent := rd s rb_parent node in
  let! rl := rd s rb_left nright in
  let! s := set_right s node rl in
  let! rl := rd s rb_left nright in
  let! s := set_parent_opt s rl node in
  let! s := set_left s nright node in
  let! s := set_parent s nright parent in
  let! s := if negb (parent =? NULL) then
              let! pl := rd s rb_left parent in
              if node =? pl then set_left s parent nright else set_right s parent nright
            else Ok (set_root s nright) in
  set_parent s node nright.

Definition __qd_rb_rotate_right (s : qd_rb_root) (node : loc) : outcome qd_rb_root :=
  let! nleft := rd s rb_left node in
  let! parent := rd s rb_parent node in
  let! lr := rd s rb_right nleft in
  let! s := set_left s node lr in
  let! lr := rd s rb_right nleft in
  let! s := set_parent_opt s lr node in
  let! s := set_right s nleft node in
  let! s := set_parent s nleft parent in
  let! s := if negb (parent =? NULL) then
              let! pr := rd s rb_right parent in
              if node =? pr then set_right s parent nleft else set_left s parent nleft
            else Ok (set_root s nleft) in
  set_parent s node nleft.

(** The loop of [qd_rb_insert_fixup]. *)
Fixpoint insert_loop (fuel : nat) (s : qd_rb_root) (node : loc) : outcome qd_rb_root :=
  match fuel with
  | O => Fuel
  | S fuel =>
    let! parent := rd s rb_parent node in
    let! go := is_red s parent in
    if negb go then Ok s else
    let! gparent := rd s rb_parent parent in
    let! gl := rd s rb_left gparent in
    if parent =? gl then
      let! uncle := rd s rb_right gparent in
      let! ured := is_red s uncle in
      if ured then
        let! s := set_color s uncle QD_RB_BLACK in
        let! s := set_color s parent QD_RB_BLACK in
        let! s := set_color s gparent QD_RB_RED in
        insert_loop fuel s gparent
      else
        let! pr := rd s rb_right parent in
        let! (s, node, parent) :=
          if node =? pr then
            let! s := __qd_rb_rotate_left s parent in
            let! parent' := rd s rb_parent parent in
            Ok (s, parent, parent')
          else Ok (s, node, parent) in
        let! s := set_color s parent QD_RB_BLACK in
        let! s := set_color s gparent QD_RB_RED in
        let! s := __qd_rb_rotate_right s gparent in
        insert_loop fuel s node
    else
      let! uncle := rd s rb_left gparent in
      let! ured := is_red s uncle in
      if ured then
        let! s := set_color s uncle QD_RB_BLACK in
        let! s := set_color s parent QD_RB_BLACK in
        let! s := set_color s gparent QD_RB_RED in
        insert_loop fuel s gparent
      else
        let! pl := rd s rb_left parent in
        let! (s, node, parent) :=
          if node =? pl then
            let! s := __qd_rb_rotate_right s parent in
            let! parent' := rd s rb_parent parent in
            Ok (s, parent, parent')
          else Ok (s, node, parent) in
        let! s := set_color s parent QD_RB_BLACK in
        let! s := set_color s gparent QD_RB_RED in
        let! s := __qd_rb_rotate_left s gparent in
        insert_loop fuel s node
  end.

Definition qd_rb_insert_fixup (fuel : nat) (s : qd_rb_root) (node : loc) : outcome qd_rb_root :=
  let! s := insert_loop fuel s node in
  set_color s (root s) QD_RB_BLACK.

(** A [struct qd_rb_node **]: the root's pointer, or a child field. *)
Inductive link := LinkRoot | LinkLeft (p : loc) | LinkRight (p : loc).

Definition write_link (s : qd_rb_root) (l : link) (v : loc) : outcome qd_rb_root :=
  match l with
  | LinkRoot => Ok (set_root s v)
  | LinkLeft p => set_left s p v
  | LinkRight p => set_right s p v
  end.

Definition qd_rb_link_node (s : qd_rb_root) (node parent : loc) (l : link) : outcome qd_rb_root :=
  let! s := set_parent s node parent in
  let! s := set_right s node NULL in
  let! s := set_left s node NULL in
  let! s := set_color s node QD_RB_RED in
  write_link s l node.

(** The loop of [__qd_rb_erase_fixup]: first the part of an iteration that
    finds the sibling black, where [loop] stands for the next iteration; the
    node is the left child of its parent, then the right child. *)
Definition erase_black_left (loop : qd_rb_root -> loc -> loc -> outcome (qd_rb_root * loc))
  (s : qd_rb_root) (parent sibling : loc) : outcome (qd_rb_root * loc) :=
  let! sl := rd s rb_left sibling in
  let! sr := rd s rb_right sibling in
  let! lb := is_black s sl in
  let! both := (if lb then is_black s sr else Ok false) in
  if both then
    let! s := set_color s sibling QD_RB_RED in
    let! parent' := rd s rb_parent parent in
    loop s parent parent'
  else
    let! rb := is_black s sr in
    let! (s, sibling) :=
      if rb then
        let! s := set_color_opt s sl QD_RB_BLACK in
        let! s := set_color s sibling QD_RB_RED in
        let! s := __qd_rb_rotate_right s sibling in
        let! sibling := rd s rb_right parent in
        Ok (s, sibling)
      else Ok (s, sibling) in
    let! pc := rd s rb_color parent in
    let! s := set_color s sibling pc in
    let! s := set_color s parent QD_RB_BLACK in
    let! sr := rd s rb_right sibling in
    let! s := set_color_opt s sr QD_RB_BLACK in
    let! s := __qd_rb_rotate_left s parent in
    Ok (s, root s).

Definition erase_black_right (loop : qd_rb_root -> loc -> loc -> outcome (qd_rb_root * loc))
  (s : qd_rb_root) (parent sibling : loc) : outcome (qd_rb_root * loc) :=
  let! sl := rd s rb_left sibling in
  let! sr := rd s rb_right sibling in
  let! lb := is_black s sl in
  let! both := (if lb then is_black s sr else Ok false) in
  if both then
    let! s := set_color s sibling QD_RB_RED in
    let! parent' := rd s rb_parent parent in
    loop s parent parent'
  else
    let! lb := is_black s sl in
    let! (s, sibling) :=
      if lb then
        let! s := set_color_opt s sr QD_RB_BLACK in
        let! s := set_color s sibling QD_RB_RED in
        let! s := __qd_rb_rotate_left s sibling in
        let! sibling := rd s rb_left parent in
        Ok (s, sibling)
      else Ok (s, sibling) in
    let! pc := rd s rb_color parent in
    let! s := set_color s sibling pc in
    let! s := set_color s parent QD_RB_BLACK in
    let! sl := rd s rb_left sibling in
    let! s := set_color_opt s sl QD_RB_BLACK in
    let! s := __qd_rb_rotate_right s parent in
    Ok (s, root s).

(** The loop itself; it returns the last [node]. *)
Fixpoint erase_loop (fuel : nat) (s : qd_rb_root) (node parent : loc)
  : outcome (qd_rb_root * loc) :=
  match fuel with
  | O => Fuel
  | S fuel =>
    let! black := is_black s node in
    if negb (black && negb (node =? root s)) then Ok (s, node) else
    let! pl := rd s rb_left parent in
    if node =? pl then
      let! sibling := rd s rb_right parent in
      let! sc := rd s rb_color sibling in
      let! (s, sibling) :=
        if sc =? QD_RB_RED then
          let! s := set_color s sibling QD_RB_BLACK in
          let! s := set_color s parent QD_RB_RED in
          let! s := __qd_rb_rotate_left s parent in
          let! sibling := rd s rb_right parent in
          Ok (s, sibling)
        else Ok (s, sibling) in
      erase_black_left (erase_loop fuel) s parent sibling
    else
      let! sibling := rd s rb_left parent in
      let! sc := rd s rb_color sibling in
      let! (s, sibling) :=
        if sc =? QD_RB_RED then
          let! s := set_color s sibling QD_RB_BLACK in
          let! s := set_color s parent QD_RB_RED in
          let! s := __qd_rb_rotate_right s parent in
          let! sibling := rd s rb_left parent in
          Ok (s, sibling)
        else Ok (s, sibling) in
      erase_black_right (erase_loop fuel) s parent sibling
  end.

Definition __qd_rb_erase_fixup (fuel : nat) (s : qd_rb_root) (node parent : loc)
  : outcome qd_rb_root :=
  let! (s, node) := erase_loop fuel s node parent in
  set_color_opt s node QD_RB_BLACK.

(** [while (n->left) n = n->left], and its mirror image. *)
Fixpoint leftmost (fuel : nat) (s : qd_rb_root) (n : loc) : outcome loc :=
  match fuel with
  | O => Fuel
  | S fuel => let! l := rd s rb_left n in if l =? NULL then Ok n else leftmost fuel s l
  end.

Fixpoint rightmost (fuel : nat) (s : qd_rb_root) (n : loc) : outcome loc :=
  match fuel with
  | O => Fuel
  | S fuel => let! r := rd s rb_right n in if r =? NULL then Ok n else rightmost fuel s r
  end.

(** [if (p->left == old) p->left = new; else p->right = new;], or the root's
    pointer when [p] is null. *)
Definition replace_child (s : qd_rb_root) (p old new : loc) : outcome qd_rb_root :=
  if negb (p =? NULL) then
    let! pl := rd s rb_left p in
    if pl =? old then set_left s p new else set_right s p new
  else Ok (set_root s new).

(** [qd_rb_erase] of a node with two children: its in-order successor takes its
    place, and the child of the successor takes the successor's. *)
Definition erase_two (fuel : nat) (s : qd_rb_root) (old : loc) : outcome qd_rb_root :=
  let! r := rd s rb_right old in
  let! node := leftmost fuel s r in
  let! op := rd s rb_parent old in
  let! s := replace_child s op old node in
  let! child := rd s rb_right node in
  let! parent := rd s rb_parent node in
  let! color := rd s rb_color node in
  let! (s, parent) :=
    if parent =? old then Ok (s, node)
    else
      let! s := set_parent_opt s child parent in
      let! s := set_left s parent child in
      let! r := rd s rb_right old in
      let! s := set_right s node r in
      let! r := rd s rb_right old in
      let! s := set_parent s r node in
      Ok (s, parent) in
  let! op := rd s rb_parent old in
  let! s := set_parent s node op in
  let! oc := rd s rb_color old in
  let! s := set_color s node oc in
  let! ol := rd s rb_left old in
  let! s := set_left s node ol in
  let! ol := rd s rb_left old in
  let! s := set_parent s ol node in
  if color =? QD_RB_BLACK then __qd_rb_erase_fixup fuel s child parent else Ok s.

(** [qd_rb_erase] of a node with at most one child, which takes its place. *)
Definition erase_one (fuel : nat) (s : qd_rb_root) (node child : loc) : outcome qd_rb_root :=
  let! parent := rd s rb_parent node in
  let! color := rd s rb_color node in
  let! s := set_parent_opt s child parent in
  let! s := replace_child s parent node child in
  if color =? QD_RB_BLACK then __qd_rb_erase_fixup fuel s child parent else Ok s.

Definition qd_rb_erase (fuel : nat) (s : qd_rb_root) (node : loc) : outcome qd_rb_root :=
  let! l := rd s rb_left node in
  let! r := rd s rb_right node in
  if l =? NULL then erase_one fuel s node r
  else if r =? NULL then erase_one fuel s node l
  else erase_two fuel s node.

Definition qd_rb_first (fuel : nat) (s : qd_rb_root) : outcome loc :=
  if root s =? NULL then Ok NULL else leftmost fuel s (root s).

Definition qd_rb_last (fuel : nat) (s : qd_rb_root) : outcome loc :=
  if root s =? NULL then Ok NULL else rightmost fuel s (root s).

(** [while ((parent = node->parent) && node == parent->right) node = parent;] *)
Fixpoint climb_right (fuel : nat) (s : qd_rb_root) (node : loc) : outcome loc :=
  match fuel with
  | O => Fuel
  | S fuel =>
    let! parent := rd s rb_parent node in
    if parent =? NULL then Ok parent else
    let! pr := rd s rb_right parent in
    if node =? pr then climb_right fuel s parent else Ok parent
  end.

Fixpoint climb_left (fuel : nat) (s : qd_rb_root) (node : loc) : outcome loc :=
  match fuel with
  | O => Fuel
  | S fuel =>
    let! parent := rd s rb_parent node in
    if parent =? NULL then Ok parent else
    let! pl := rd s rb_left parent in
    if node =? pl then climb_left fuel s parent else Ok parent
  end.

Definition qd_rb_next (fuel : nat) (s : qd_rb_root) (node : loc) : outcome loc :=
  let! r := rd s rb_right node in
  if negb (r =? NULL) then leftmost fuel s r else climb_right fuel s node.

Definition qd_rb_prev (fuel : nat) (s : qd_rb_root) (node : loc) : outcome loc :=
  let! l := rd s rb_left node in
  if negb (l =? NULL) then rightmost fuel s l else climb_left fuel s node.

(** The nodes [qd_rb_for_each] visits from [pos] on. *)
Fixpoint visit (steps fuel : nat) (s : qd_rb_root) (pos : loc) : outcome (list loc) :=
  match steps with
  | O => Fuel
  | S steps =>
    if pos =? NULL then Ok [] else
    let! n := qd_rb_next fuel s pos in
    let! rest := visit steps fuel s n in
    Ok (pos :: rest)
  end.

Definition qd_rb_for_each (steps fuel : nat) (s : qd_rb_root) : outcome (list loc) :=
  let! pos := qd_rb_first fuel s in visit steps fuel s pos.

Definition qd_rb_replace_node (s : qd_rb_root) (old new : loc) : outcome qd_rb_root :=
  let! parent := rd s rb_parent old in
  let! s := if negb (parent =? NULL) then
              let! pl := rd s rb_left parent in
              if old =? pl then set_left s parent new else set_right s parent new
            else Ok (set_root s new) in
  let! l := rd s rb_left old in
  let! s := set_parent_opt s l new in
  let! r := rd s rb_right old in
  let! s := set_parent_opt s r new in
  let! o := rd s (fun n => n) old in
  wr s new (fun _ => o).

(** ** Representation

    A tree of node addresses with their colors, and a tree with a hole: the
    frames from the hole up to the root. *)

Inductive tree := E | T (c : Z) (l : tree) (a : loc) (r : tree).

Inductive frame :=
| InL (c : Z) (a : loc) (r : tree)   (* the hole is the left child of [a] *)
| InR (c : Z) (l : tree) (a : loc).  (* the hole is the right child of [a] *)

Fixpoint plug (k : list frame) (t : tree) : tree :=
  match k with
  | [] => t
  | InL c a r :: k => plug k (T c t a r)
  | InR c l a :: k => plug k (T c l a t)
  end.

Fixpoint inorder (t : tree) : list loc :=
  match t with E => [] | T _ l a r => inorder l ++ a :: inorder r end.

(** The nodes before and after the hole. *)
Fixpoint before (k : list frame) : list loc :=
  match k with
  | [] => []
  | InL _ _ _ :: k => before k
  | InR _ l a :: k => before k ++ inorder l ++ [a]
  end.
Fixpoint after (k : list frame) : list loc :=
  match k with
  | [] => []
  | InL _ a r :: k => a :: inorder r ++ after k
  | InR _ _ _ :: k => after k
  end.

Definition addr (t : tree) : loc := match t with E => NULL | T _ _ a _ => a end.
Definition frame_addr (f : frame) : loc := match f with InL _ a _ => a | InR _ _ a => a end.
Definition holder (k : list frame) : loc := match k with [] => NULL | f :: _ => frame_addr f end.

(** The node that the topmost frame stands for, when the hole holds [p]. *)
Definition frame_node (f : frame) (up p : loc) : qd_rb_node :=
  match f with
  | InL c _ r => mkNode up p (addr r) c
  | InR c l _ => mkNode up (addr l) p c
  end.
Definition frame_tree (f : frame) : tree := match f with InL _ _ r => r | InR _ l _ => l end.

Fixpoint rep (m : gmap Z qd_rb_node) (up : loc) (t : tree) : Prop :=
  match t with
  | E => True
  | T c l a r =>
    a <> NULL /\ m !! a = Some (mkNode up (addr l) (addr r) c) /\ rep m a l /\ rep m a r
  end.

Fixpoint rep_ctx (m : gmap Z qd_rb_node) (rt : loc) (k : list frame) (p : loc) : Prop :=
  match k with
  | [] => rt = p
  | f :: k =>
    frame_addr f <> NULL /\ m !! frame_addr f = Some (frame_node f (holder k) p) /\
    rep m (frame_addr f) (frame_tree f) /\ rep_ctx m rt k (frame_addr f)
  end.

(** The memory holds the tree [t] under the root. *)
Definition tree_at (s : qd_rb_root) (t : tree) : Prop :=
  root s = addr t /\ rep (mem s) NULL t /\ NoDup (inorder t).

(** Memory outside of [l] is unchanged. *)
Definition outside (l : list loc) (s s' : qd_rb_root) : Prop :=
  forall b, b ∉ l -> mem s' !! b = mem s !! b.

(** *** Trees with a hole *)

Lemma inorder_plug k t : inorder (plug k t) = before k ++ inorder t ++ after k.
Proof.
  revert t. induction k as [|[c a r|c l a] k IH]; intros t; simpl; [by rewrite app_nil_r| |];
    rewrite IH; simpl; by rewrite <- !(assoc_L (++)).
Qed.

Lemma addr_plug k t t' : k <> [] -> addr (plug k t) = addr (plug k t').
Proof.
  revert t t'. induction k as [|[c a r|c l a] k IH]; intros t t' H; simpl; [done| |];
    (destruct k; [done|by apply IH]).
Qed.

Lemma rep_plug m k t up :
  up = NULL ->
  rep m up (plug k t) <-> rep m (holder k) t /\ rep_ctx m (addr (plug k t)) k (addr t).
Proof.
  intros ->. revert t. induction k as [|[c a r|c l a] k IH]; intros t; simpl; [tauto| |];
    rewrite IH; simpl; tauto.
Qed.

Lemma tree_at_focus s k t :
  tree_at s (plug k t) <->
  rep (mem s) (holder k) t /\ rep_ctx (mem s) (root s) k (addr t) /\
  NoDup (before k ++ inorder t ++ after k).
Proof.
  unfold tree_at. rewrite rep_plug by done. rewrite inorder_plug. split.
  - intros (-> & [? ?] & ?). tauto.
  - intros (Hr & Hk & Hn).
    assert (root s = addr (plug k t)) as E1; [|rewrite <- E1; tauto].
    clear Hr Hn. revert t Hk. induction k as [|[c a r|c l a] k IH]; intros t; simpl; [done| |];
      intros (_ & _ & _ & Hk); [apply (IH (T c t a r)) in Hk|apply (IH (T c l a t)) in Hk]; done.
Qed.

(** *** Distinct addresses

    [split_nodup] breaks a list without duplicates into its parts; [apart]
    then decides that an address of one part is not in another. *)

Ltac in_solve :=
  first [ assumption
        | apply elem_of_cons; left; reflexivity
        | apply elem_of_cons; right; in_solve
        | apply elem_of_app; left; in_solve
        | apply elem_of_app; right; in_solve ].

Ltac split_nodup H :=
  cbn [inorder app] in H;
  repeat (rewrite <- (assoc_L (++)) in H; cbn [app] in H);
  lazymatch type of H with
  | NoDup (_ ++ _) =>
    let H1 := fresh in let H2 := fresh in let D := fresh in
    apply NoDup_app in H as (H1 & D & H2); split_nodup H1; split_nodup H2
  | NoDup (_ :: _) =>
    let H1 := fresh in let D := fresh in
    apply NoDup_cons in H as [D H1]; split_nodup H1
  | NoDup [] => clear H
  | _ => idtac
  end.

Ltac apart :=
  repeat match goal with
  | |- _ <> _ => intros ->
  | |- _ ∉ _ => intros ?
  | H : _ ∈ _ ++ _ |- _ => apply elem_of_app in H as [H|H]
  | H : _ ∈ _ :: _ |- _ => apply elem_of_cons in H as [->|H]
  | H : _ ∈ [] |- _ => by apply not_elem_of_nil in H
  end;
  solve [ contradiction | congruence
        | match goal with
          | D : ?x ∉ _ |- _ => apply D; in_solve
          | D : forall w, w ∈ ?L -> w ∉ _, H : ?x ∈ ?L |- _ => apply (D x H); in_solve
          | D : forall w, w ∈ ?L -> w ∉ _, H : ?x ∈ _ |- _ => apply (D x); in_solve
          end ].

(** *** What a change of memory keeps *)

Lemma rep_frame m m' up t :
  rep m up t -> (forall b, b ∈ inorder t -> m' !! b = m !! b) -> rep m' up t.
Proof.
  revert up. induction t as [|c l IHl a r IHr]; intros up; simpl; [done|].
  intros (Ha & Hm & Hl & Hr) Hf. repeat split; [done|rewrite Hf; [done|set_solver]| |].
  - apply IHl; [done|]. intros b Hb. apply Hf. set_solver.
  - apply IHr; [done|]. intros b Hb. apply Hf. set_solver.
Qed.

(** Another parent: only the top node changes. *)
Lemma rep_reparent m m' up up' t :
  rep m up t -> NoDup (inorder t) ->
  (forall b, b ∈ inorder t -> m' !! b = (if b =? addr t then with_parent up' else id) <$> m !! b) ->
  rep m' up' t.
Proof.
  destruct t as [|c l a r]; simpl; [done|].
  intros (Ha & Hm & Hl & Hr) Hn Hf. rewrite NoDup_app, NoDup_cons in Hn.
  destruct Hn as (_ & Hla & Har & _).
  repeat split; [done| | |].
  - rewrite Hf by set_solver. by rewrite Z.eqb_refl, Hm.
  - apply (rep_frame m); [done|]. intros b Hb. rewrite Hf by set_solver.
    destruct (Z.eqb_spec b a) as [->|_]; [set_solver|]. by destruct (m !! b).
  - apply (rep_frame m); [done|]. intros b Hb. rewrite Hf by set_solver.
    destruct (Z.eqb_spec b a) as [->|_]; [set_solver|]. by destruct (m !! b).
Qed.

Definition ctx_locs (k : list frame) : list loc := before k ++ after k.

Lemma ctx_frame m m' rt k p :
  rep_ctx m rt k p -> (forall b, b ∈ ctx_locs k -> m' !! b = m !! b) -> rep_ctx m' rt k p.
Proof.
  revert p. induction k as [|f k IH]; intros p; simpl; [done|].
  intros (Ha & Hm & Ht & Hk) Hf.
  assert (frame_addr f ∈ ctx_locs (f :: k)) by (unfold ctx_locs; destruct f; simpl; set_solver).
  assert (forall b, b ∈ inorder (frame_tree f) -> b ∈ ctx_locs (f :: k))
    by (unfold ctx_locs; destruct f; simpl; set_solver).
  assert (forall b, b ∈ ctx_locs k -> b ∈ ctx_locs (f :: k))
    by (unfold ctx_locs; destruct f; simpl; set_solver).
  repeat split; [done|by rewrite Hf|eapply rep_frame; eauto|eauto].
Qed.

(** Another subtree in the hole: only the holder's child field changes. *)
Lemma ctx_retarget m m' rt rt' k p p' :
  rep_ctx m rt k p -> NoDup (ctx_locs k) ->
  (forall b, b ∈ ctx_locs k -> b <> holder k -> m' !! b = m !! b) ->
  (match k with
   | [] => rt' = p'
   | f :: k' => rt' = rt /\ m' !! frame_addr f = Some (frame_node f (holder k') p')
   end) ->
  rep_ctx m' rt' k p'.
Proof.
  destruct k as [|f k]; simpl; [done|]. intros (Ha & Hm & Ht & Hk) Hn Hf [-> E1].
  repeat split; [done|done| |].
  - apply (rep_frame m); [done|]. intros b Hb. unfold ctx_locs in *. apply Hf.
    + destruct f; simpl in *; set_solver.
    + intros ->. destruct f as [c a r|c l a]; simpl in *; repeat setoid_rewrite NoDup_app in Hn;
        rewrite ?NoDup_cons in Hn; set_solver.
  - apply (ctx_frame m); [done|]. intros b Hb. unfold ctx_locs in *. apply Hf.
    + destruct f; simpl in *; set_solver.
    + intros ->. destruct f as [c a r|c l a]; simpl in *; repeat setoid_rewrite NoDup_app in Hn;
        rewrite ?NoDup_cons in Hn; set_solver.
Qed.

(** *** Running the pointer code *)

Lemma rd_ok {A} s (f : qd_rb_node -> A) p n : mem s !! p = Some n -> rd s f p = Ok (f n).
Proof. unfold rd. by intros ->. Qed.

Lemma wr_ok s p f n :
  mem s !! p = Some n -> wr s p f = Ok (mkRoot (<[p := f n]> (mem s)) (root s)).
Proof. unfold wr. by intros ->. Qed.

(** The holder of the hole (or the root) points to [p] instead. *)
Definition child_write (k : list frame) (p : loc) (m : gmap Z qd_rb_node) : gmap Z qd_rb_node :=
  match k with [] => m | f :: k' => <[frame_addr f := frame_node f (holder k') p]> m end.
Definition root_write (k : list frame) (p rt : loc) : loc :=
  match k with [] => p | _ => rt end.

Lemma child_write_ne k p m b : b ∉ ctx_locs k -> child_write k p m !! b = m !! b.
Proof.
  unfold ctx_locs. destruct k as [|[c a r|c l a] k]; simpl; [done| |];
    intros H; apply lookup_insert_ne; set_solver.
Qed.

Lemma child_write_cong k p m m' b :
  m !! b = m' !! b -> child_write k p m !! b = child_write k p m' !! b.
Proof.
  destruct k as [|f k]; simpl; [done|]. intros H.
  destruct (decide (b = frame_addr f)) as [->|]; [by rewrite !lookup_insert_eq|].
  by rewrite !lookup_insert_ne by done.
Qed.

(** The top node of [t] (if any) gets another parent. *)
Definition parent_write (t : tree) (v : loc) (m : gmap Z qd_rb_node) : gmap Z qd_rb_node :=
  match t with E => m | T _ _ a _ => alter (with_parent v) a m end.

Lemma parent_write_ne t v m b : b ∉ inorder t -> parent_write t v m !! b = m !! b.
Proof.
  destruct t as [|c l a r]; simpl; [done|]. intros H. apply lookup_alter_ne. set_solver.
Qed.

Lemma parent_write_cong t v m m' b :
  m !! b = m' !! b -> parent_write t v m !! b = parent_write t v m' !! b.
Proof.
  destruct t as [|c l a r]; simpl; [done|]. intros H. destruct (decide (b = a)) as [->|].
  - by rewrite !lookup_alter_eq, H.
  - by rewrite !lookup_alter_ne by done.
Qed.

Lemma set_parent_opt_ok s up t v :
  rep (mem s) up t ->
  set_parent_opt s (addr t) v = Ok (mkRoot (parent_write t v (mem s)) (root s)).
Proof.
  destruct t as [|c l a r]; [by destruct s|]. intros (Ha & Hm & _). simpl.
  unfold set_parent_opt, set_parent. rewrite (proj2 (Z.eqb_neq _ _) Ha), (wr_ok _ _ _ _ Hm).
  do 2 f_equal. apply map_eq. intros b. destruct (decide (b = a)) as [->|].
  - by rewrite lookup_insert_eq, lookup_alter_eq, Hm.
  - by rewrite lookup_insert_ne, lookup_alter_ne by done.
Qed.

Lemma rep_parent_write m m' up v t :
  rep m up t -> NoDup (inorder t) -> (forall b, b ∈ inorder t -> m' !! b = m !! b) ->
  rep (parent_write t v m') v t.
Proof.
  intros Hr Hn Hf. eapply rep_reparent; [exact Hr|exact Hn|]. intros b Hb. rewrite <- Hf by done.
  destruct t as [|c l a r]; simpl in *; [set_solver|]. destruct (Z.eqb_spec b a) as [->|].
  - by rewrite lookup_alter_eq.
  - rewrite lookup_alter_ne by done. by destruct (m' !! b).
Qed.

Ltac ne_solve := solve [assumption | apply not_eq_sym; assumption | congruence | discriminate].

(** Look a known address up through the writes made so far. *)
Ltac look :=
  cbn [mem root set_root];
  repeat first [rewrite lookup_insert_eq | rewrite lookup_insert_ne by ne_solve
               | rewrite child_write_ne by assumption | rewrite parent_write_ne by assumption];
  first [eassumption | reflexivity].

(** Run the code of the goal ([e = _] or [P e]), access by access, in its order. *)
Ltac head e :=
  lazymatch e with
  | obind ?e _ => head e
  | (if ?b then _ else _) => head b
  | negb ?b => head b
  | andb ?b _ => head b
  | ?x => x
  end.
Ltac code G := lazymatch G with ?e = _ => e | _ ?e => e end.
Ltac tidy_step :=
  cbn [obind rb_parent rb_left rb_right rb_color with_parent with_left with_right with_color
       mem root addr holder frame_addr frame_node negb andb].
Ltac read_step :=
  lazymatch goal with
  | |- ?G =>
    let e := code G in
    let h := head e in
    lazymatch h with
    | rd ?s ?f ?p => erewrite (rd_ok s f p) by look
    | ?a =? ?b => first [ rewrite (proj2 (Z.eqb_eq a b)) by reflexivity
                        | rewrite (proj2 (Z.eqb_neq a b)) by ne_solve ]
    | is_red _ (addr _) => fail
    | is_black _ (addr _) => fail
    | is_red ?s ?p => unfold is_red at 1
    | is_black ?s ?p => unfold is_black at 1
    end
  end; tidy_step.
Ltac write_step :=
  lazymatch goal with
  | |- ?G =>
    let e := code G in
    let h := head e in
    lazymatch h with
    | wr ?s ?p ?f => erewrite (wr_ok s p f) by look
    | set_parent _ (addr _) _ => fail
    | set_parent ?s ?p ?v => change (set_parent s p v) with (wr s p (with_parent v))
    | set_left ?s ?p ?v => change (set_left s p v) with (wr s p (with_left v))
    | set_right ?s ?p ?v => change (set_right s p v) with (wr s p (with_right v))
    | set_color ?s ?p ?v => change (set_color s p v) with (wr s p (with_color v))
    end
  end; tidy_step.
Ltac reads := cbn [obind addr holder frame_addr frame_node]; repeat read_step.
Ltac run := cbn [obind addr holder frame_addr frame_node]; repeat first [read_step | write_step].

Lemma focus_nodup k t :
  NoDup (before k ++ inorder t ++ after k) ->
  NoDup (ctx_locs k) /\ NoDup (inorder t) /\ (forall b, b ∈ inorder t -> b ∉ ctx_locs k).
Proof.
  unfold ctx_locs. rewrite !NoDup_app. set_solver.
Qed.

Lemma holder_in k : k <> [] -> holder k ∈ ctx_locs k.
Proof. unfold ctx_locs. destruct k as [|[]]; simpl; set_solver. Qed.

Lemma rep_addr m up t : rep m up t -> t <> E -> addr t <> NULL /\ addr t ∈ inorder t.
Proof. destruct t; simpl; [done|]. intros [? _] _. split; [done|set_solver]. Qed.

Lemma ctx_retarget_write m m' rt k p p' :
  rep_ctx m rt k p -> NoDup (ctx_locs k) ->
  (forall b, b ∈ ctx_locs k -> m' !! b = m !! b) ->
  rep_ctx (child_write k p' m') (root_write k p' rt) k p'.
Proof.
  intros Hk Hn Hf. eapply ctx_retarget; [exact Hk|exact Hn| |].
  - intros b Hb Hbk. rewrite <- Hf by done. destruct k; simpl in *; [done|].
    by apply lookup_insert_ne.
  - destruct k; simpl; [done|]. by rewrite lookup_insert_eq.
Qed.

(** The three ways the code redirects the holder's pointer from [p] to [q]. *)
Lemma relink_left_ok s m rt k p q :
  rep_ctx m rt k p -> NoDup (ctx_locs k) -> p <> NULL -> p ∉ ctx_locs k ->
  (forall b, b ∈ ctx_locs k -> mem s !! b = m !! b) ->
  (if negb (holder k =? NULL) then
     let! pl := rd s rb_left (holder k) in
     if p =? pl then set_left s (holder k) q else set_right s (holder k) q
   else Ok (set_root s q)) = Ok (mkRoot (child_write k q (mem s)) (root_write k q (root s))).
Proof.
  intros Hk Hn Hp Hpk Hf. destruct k as [|f k]; [done|].
  destruct Hk as (Ha & Hm & Ht & _). rewrite <- Hf in Hm by (by apply (holder_in (f :: k))).
  simpl. rewrite (proj2 (Z.eqb_neq _ _) Ha). simpl. rewrite (rd_ok _ _ _ _ Hm). simpl.
  unfold set_left, set_right. destruct f as [c a r|c l a]; simpl in *.
  - by rewrite Z.eqb_refl, (wr_ok _ _ _ _ Hm).
  - destruct (Z.eqb_spec p (addr l)) as [->|_]; [|by rewrite (wr_ok _ _ _ _ Hm)].
    destruct l; [done|]. exfalso. apply Hpk. unfold ctx_locs. simpl. set_solver.
Qed.

Lemma relink_right_ok s m rt k p q :
  rep_ctx m rt k p -> NoDup (ctx_locs k) -> p <> NULL -> p ∉ ctx_locs k ->
  (forall b, b ∈ ctx_locs k -> mem s !! b = m !! b) ->
  (if negb (holder k =? NULL) then
     let! pr := rd s rb_right (holder k) in
     if p =? pr then set_right s (holder k) q else set_left s (holder k) q
   else Ok (set_root s q)) = Ok (mkRoot (child_write k q (mem s)) (root_write k q (root s))).
Proof.
  intros Hk Hn Hp Hpk Hf. destruct k as [|f k]; [done|].
  destruct Hk as (Ha & Hm & Ht & _). rewrite <- Hf in Hm by (by apply (holder_in (f :: k))).
  simpl. rewrite (proj2 (Z.eqb_neq _ _) Ha). simpl. rewrite (rd_ok _ _ _ _ Hm). simpl.
  unfold set_left, set_right. destruct f as [c a r|c l a]; simpl in *.
  - destruct (Z.eqb_spec p (addr r)) as [->|_]; [|by rewrite (wr_ok _ _ _ _ Hm)].
    destruct r; [done|]. exfalso. apply Hpk. unfold ctx_locs. simpl. set_solver.
  - by rewrite Z.eqb_refl, (wr_ok _ _ _ _ Hm).
Qed.

Lemma replace_child_ok s m rt k p q :
  rep_ctx m rt k p -> NoDup (ctx_locs k) -> p <> NULL -> p ∉ ctx_locs k ->
  (forall b, b ∈ ctx_locs k -> mem s !! b = m !! b) ->
  replace_child s (holder k) p q = Ok (mkRoot (child_write k q (mem s)) (root_write k q (root s))).
Proof.
  intros Hk Hn Hp Hpk Hf. rewrite <- (relink_left_ok s m rt k p q) by done.
  unfold replace_child. destruct (negb _); [|done]. destruct (rd _ _ _) as [pl| |]; [|done..].
  simpl. by rewrite Z.eqb_sym.
Qed.

Lemma focus_node s k c l a r :
  tree_at s (plug k (T c l a r)) ->
  a <> NULL /\ mem s !! a = Some (mkNode (holder k) (addr l) (addr r) c).
Proof. rewrite tree_at_focus. simpl. tauto. Qed.

Lemma siblings_ne s k c l a r :
  tree_at s (plug k (T c l a r)) -> l <> E \/ r <> E -> addr l <> addr r.
Proof.
  rewrite tree_at_focus. intros ((_ & _ & Hl & Hr) & _ & Hn) Ho E1.
  apply focus_nodup in Hn as (_ & Hn & _).
  destruct l as [|cl ll la lr], r as [|cr rl ra rr]; simpl in *; [tauto|naive_solver..|].
  subst ra. split_nodup Hn. exfalso. apart.
Qed.

(** The focused node gets another color. *)
Lemma set_color_ok s k c c' l a r :
  tree_at s (plug k (T c l a r)) ->
  exists s', set_color s a c' = Ok s' /\ tree_at s' (plug k (T c' l a r)) /\ outside [a] s s'.
Proof.
  rewrite tree_at_focus. intros ((Ha & Hm & Hl & Hr) & Hk & Hn).
  unfold set_color. rewrite (wr_ok _ _ _ _ Hm). eexists. split; [done|]. split.
  - apply tree_at_focus. apply focus_nodup in Hn as Hn'. destruct Hn' as (Hkn & Htn & Hd).
    simpl in Htn, Hd. rewrite NoDup_app, NoDup_cons in Htn. simpl.
    repeat split; [done|by rewrite lookup_insert_eq| | | |done].
    + eapply rep_frame; [done|]. intros b Hb. apply lookup_insert_ne. set_solver.
    + eapply rep_frame; [done|]. intros b Hb. apply lookup_insert_ne. set_solver.
    + eapply ctx_frame; [done|]. intros b Hb. apply lookup_insert_ne. set_solver.
  - intros b Hb. simpl. apply lookup_insert_ne. set_solver.
Qed.

(** A subtree none of whose nodes was written. *)
Ltac unwritten :=
  cbn [mem];
  repeat first [rewrite lookup_insert_ne by apart
               | rewrite child_write_ne by apart | rewrite parent_write_ne by apart];
  reflexivity.
Ltac kept := eapply rep_frame; [eassumption|]; intros ? ?; unwritten.

(** The rebuilt tree has the nodes of the old one, in the same order. *)
Lemma tree_at_rebuild s' k t t' :
  NoDup (before k ++ inorder t ++ after k) -> inorder t' = inorder t ->
  rep (mem s') (holder k) t' -> rep_ctx (mem s') (root s') k (addr t') ->
  tree_at s' (plug k t').
Proof. intros Hn E1 Hr Hk. apply tree_at_focus. by rewrite E1. Qed.

(** The context of the hole, whose holder alone was written. *)
Ltac ctx_kept :=
  eapply ctx_frame; [eapply ctx_retarget_write; [eassumption|assumption|reflexivity]|];
  intros ? ?; cbn [mem];
  repeat first [rewrite lookup_insert_ne by apart | rewrite parent_write_ne by apart];
  apply child_write_cong; unwritten.

Lemma in_plug k t b : b ∈ inorder t \/ b ∈ ctx_locs k -> b ∈ before k ++ inorder t ++ after k.
Proof. unfold ctx_locs. set_solver. Qed.

Lemma outside_plug k t s s' :
  (forall b, b ∉ inorder t -> b ∉ ctx_locs k -> mem s' !! b = mem s !! b) ->
  outside (inorder (plug k t)) s s'.
Proof.
  rewrite inorder_plug. intros H b Hb.
  apply H; intros Hi; apply Hb; apply in_plug; auto.
Qed.

(** A subtree whose top node alone was written: its parent. *)
Ltac moved :=
  eapply rep_frame; [eapply rep_parent_write; [eassumption|assumption|reflexivity]|];
  intros ? ?; cbn [mem];
  repeat first [rewrite lookup_insert_ne by apart | rewrite child_write_ne by apart
               | rewrite parent_write_ne by apart];
  apply parent_write_cong; unwritten.

(** Equality of in-order sequences. *)
Ltac by_assoc := simpl; repeat (rewrite <- (assoc_L (++)); simpl); done.

Lemma rotate_left_ok s k c l x c2 a y b :
  tree_at s (plug k (T c l x (T c2 a y b))) ->
  exists s', __qd_rb_rotate_left s x = Ok s' /\ tree_at s' (plug k (T c2 (T c l x a) y b)) /\
    outside (inorder (plug k (T c l x (T c2 a y b)))) s s'.
Proof.
  rewrite tree_at_focus. intros ((Hx0 & Hx & Hl & (Hy0 & Hy & Ha & Hb)) & Hk & Hn).
  apply focus_nodup in Hn as Hn'. destruct Hn' as (Hkn & Htn & Hd).
  assert (x ∉ ctx_locs k) by (apply Hd; simpl; in_solve).
  assert (y ∉ ctx_locs k) by (apply Hd; simpl; in_solve).
  split_nodup Htn. assert (x <> y) by apart.
  assert (x ∉ inorder a) by apart. assert (y ∉ inorder a) by apart.
  unfold __qd_rb_rotate_left. eexists. split.
  { run. erewrite set_parent_opt_ok by kept. run.
    erewrite relink_left_ok; try done; [|intros w Hw; unwritten]. run. done. }
  split.
  - eapply tree_at_rebuild; [done|by_assoc| |]; simpl.
    + repeat split; first [done|look|kept|moved].
    + ctx_kept.
  - apply outside_plug. simpl. intros w Hw Hw'. unwritten.
Qed.

Lemma rotate_right_ok s k c l x c2 a y b :
  tree_at s (plug k (T c (T c2 a y b) x l)) ->
  exists s', __qd_rb_rotate_right s x = Ok s' /\ tree_at s' (plug k (T c2 a y (T c b x l))) /\
    outside (inorder (plug k (T c (T c2 a y b) x l))) s s'.
Proof.
  rewrite tree_at_focus. intros ((Hx0 & Hx & (Hy0 & Hy & Ha & Hb) & Hl) & Hk & Hn).
  apply focus_nodup in Hn as Hn'. destruct Hn' as (Hkn & Htn & Hd).
  assert (x ∉ ctx_locs k) by (apply Hd; simpl; in_solve).
  assert (y ∉ ctx_locs k) by (apply Hd; simpl; in_solve).
  split_nodup Htn. assert (x <> y) by apart.
  assert (x ∉ inorder b) by apart. assert (y ∉ inorder b) by apart.
  unfold __qd_rb_rotate_right. eexists. split.
  { run. erewrite set_parent_opt_ok by kept. run.
    erewrite relink_right_ok; try done; [|intros w Hw; unwritten]. run. done. }
  split.
  - eapply tree_at_rebuild; [done|by_assoc| |]; simpl.
    + repeat split; first [done|look|kept|moved].
    + ctx_kept.
  - apply outside_plug. simpl. intros w Hw Hw'. unwritten.
Qed.

(** ** Steps that keep the in-order sequence

    [turns s t s' t']: the memory now holds [t'], which has the nodes of [t] in
    the same order, and nothing outside of the tree changed. *)

Definition turns (s : qd_rb_root) (t : tree) (s' : qd_rb_root) (t' : tree) : Prop :=
  tree_at s' t' /\ inorder t' = inorder t /\ outside (inorder t) s s'.

Lemma turns_refl s t : tree_at s t -> turns s t s t.
Proof. intros H. split; [done|]. split; [done|]. by intros b _. Qed.

Lemma turns_trans s t s1 t1 s2 t2 : turns s t s1 t1 -> turns s1 t1 s2 t2 -> turns s t s2 t2.
Proof.
  intros (H1 & E1 & O1) (H2 & E2 & O2). split; [done|]. split; [by rewrite E2|].
  intros b Hb. rewrite O2 by (by rewrite E1). by apply O1.
Qed.

Definition color (t : tree) : Z := match t with E => QD_RB_BLACK | T c _ _ _ => c end.
Definition recolor (c : Z) (t : tree) : tree := match t with E => E | T _ l a r => T c l a r end.

Lemma color_turn s k c c' l a r :
  tree_at s (plug k (T c l a r)) ->
  exists s', set_color s a c' = Ok s' /\ turns s (plug k (T c l a r)) s' (plug k (T c' l a r)).
Proof.
  intros H. destruct (set_color_ok s k c c' l a r H) as (s' & E1 & H' & O). exists s'.
  refine (conj E1 (conj H' (conj _ _))); [by rewrite !inorder_plug|]. intros b Hb. apply O. intros Hi. apply Hb.
  rewrite inorder_plug. simpl. apply elem_of_cons in Hi as [->|Hi%not_elem_of_nil]; [in_solve|done].
Qed.

Lemma color_opt_turn s k t c :
  tree_at s (plug k t) ->
  exists s', set_color_opt s (addr t) c = Ok s' /\ turns s (plug k t) s' (plug k (recolor c t)).
Proof.
  intros H. destruct t as [|c0 l a r]; simpl; [exists s; split; [done|by apply turns_refl]|].
  destruct (focus_node _ _ _ _ _ _ H) as [Ha _]. unfold set_color_opt.
  rewrite (proj2 (Z.eqb_neq _ _) Ha). by apply color_turn.
Qed.

Lemma rotate_left_turn s k c l x c2 a y b :
  tree_at s (plug k (T c l x (T c2 a y b))) ->
  exists s', __qd_rb_rotate_left s x = Ok s' /\
    turns s (plug k (T c l x (T c2 a y b))) s' (plug k (T c2 (T c l x a) y b)).
Proof.
  intros H. destruct (rotate_left_ok _ _ _ _ _ _ _ _ _ H) as (s' & E1 & H' & O). exists s'.
  refine (conj E1 (conj H' (conj _ O))). rewrite !inorder_plug; by_assoc.
Qed.

Lemma rotate_right_turn s k c l x c2 a y b :
  tree_at s (plug k (T c (T c2 a y b) x l)) ->
  exists s', __qd_rb_rotate_right s x = Ok s' /\
    turns s (plug k (T c (T c2 a y b) x l)) s' (plug k (T c2 a y (T c b x l))).
Proof.
  intros H. destruct (rotate_right_ok _ _ _ _ _ _ _ _ _ H) as (s' & E1 & H' & O). exists s'.
  refine (conj E1 (conj H' (conj _ O))). rewrite !inorder_plug; by_assoc.
Qed.

Lemma is_red_ok s k t : tree_at s (plug k t) -> is_red s (addr t) = Ok (color t =? QD_RB_RED).
Proof.
  intros H. destruct t as [|c l a r]; simpl; [done|].
  destruct (focus_node _ _ _ _ _ _ H) as [Ha Hm]. unfold is_red.
  by rewrite (proj2 (Z.eqb_neq _ _) Ha), (rd_ok _ _ _ _ Hm).
Qed.

Lemma is_black_ok s k t : tree_at s (plug k t) -> is_black s (addr t) = Ok (color t =? QD_RB_BLACK).
Proof.
  intros H. destruct t as [|c l a r]; simpl; [done|].
  destruct (focus_node _ _ _ _ _ _ H) as [Ha Hm]. unfold is_black.
  by rewrite (proj2 (Z.eqb_neq _ _) Ha), (rd_ok _ _ _ _ Hm).
Qed.

(** ** The red-black discipline

    [rb n t]: no red node has a red child, and every path from the top of [t]
    to a leaf crosses [n] black nodes.  [rbk n k]: the same of a tree with a
    hole for a subtree of black height [n]. *)

Inductive rb : nat -> tree -> Prop :=
| rb_E : rb 0 E
| rb_R n l a r :
    rb n l -> rb n r -> color l = QD_RB_BLACK -> color r = QD_RB_BLACK -> rb n (T QD_RB_RED l a r)
| rb_B n l a r : rb n l -> rb n r -> rb (S n) (T QD_RB_BLACK l a r).

(** The color of the holder; the hole at the root must not hold a red node. *)
Definition holder_color (k : list frame) : Z :=
  match k with [] => QD_RB_RED | InL c _ _ :: _ => c | InR c _ _ :: _ => c end.

Inductive rbk : nat -> list frame -> Prop :=
| rbk_nil n : rbk n []
| rbk_LR n a r k :
    rb n r -> color r = QD_RB_BLACK -> holder_color k = QD_RB_BLACK -> rbk n k ->
    rbk n (InL QD_RB_RED a r :: k)
| rbk_LB n a r k : rb n r -> rbk (S n) k -> rbk n (InL QD_RB_BLACK a r :: k)
| rbk_RR n l a k :
    rb n l -> color l = QD_RB_BLACK -> holder_color k = QD_RB_BLACK -> rbk n k ->
    rbk n (InR QD_RB_RED l a :: k)
| rbk_RB n l a k : rb n l -> rbk (S n) k -> rbk n (InR QD_RB_BLACK l a :: k).

(** A red-black tree: black at the top. *)
Definition rb_tree (t : tree) : Prop := color t = QD_RB_BLACK /\ exists n, rb n t.

Lemma rb_red_or_black n t : rb n t -> color t = QD_RB_RED \/ color t = QD_RB_BLACK.
Proof. intros H. inversion H; simpl; auto. Qed.

Lemma rb_plug k : forall n t,
  rbk n k -> rb n t -> (holder_color k = QD_RB_RED -> color t = QD_RB_BLACK) -> rb_tree (plug k t).
Proof.
  induction k as [|f k IH]; intros n t Hk Ht Hc.
  - split; [by apply Hc|eauto].
  - inversion Hk; subst; simpl in *; eapply IH; eauto; try (by constructor; auto); simpl; congruence.
Qed.

Lemma rb_unplug k : forall t,
  rb_tree (plug k t) ->
  exists n, rbk n k /\ rb n t /\ (holder_color k = QD_RB_RED -> color t = QD_RB_BLACK).
Proof.
  induction k as [|[c a r|c l a] k IH]; intros t Ht; simpl in *.
  - destruct Ht as [? [n ?]]. exists n. split; [constructor|done].
  - destruct (IH _ Ht) as (n & Hk & Hn & Hc). inversion Hn; subst; simpl in *.
    + exists n. split; [|by eauto]. constructor; auto.
      destruct k as [|[]]; simpl in *; [by discriminate Hc| |]; inversion Hk; subst; try done; by discriminate Hc.
    + eexists. split; [by constructor; eauto|]. done.
  - destruct (IH _ Ht) as (n & Hk & Hn & Hc). inversion Hn; subst; simpl in *.
    + exists n. split; [|by eauto]. constructor; auto.
      destruct k as [|[]]; simpl in *; [by discriminate Hc| |]; inversion Hk; subst; try done; by discriminate Hc.
    + eexists. split; [by constructor; eauto|]. done.
Qed.
