(* ===== verification/RbBalance.v ===== *)
(** * Insertion into and erasure from the red-black tree

    The loops of [qd_rb_insert_fixup] and [__qd_rb_erase_fixup], and the
    operations around them, return a red-black tree with the expected in-order
    sequence; the traversal functions follow that sequence. *)

From S2P Require Import Prelude RbTree.

(** ** Driving the code *)

(** The fields of the nodes of a focused tree, read from the memory. *)
Ltac facts_at s k t H :=
  lazymatch t with
  | T ?c ?l ?a ?r =>
    pose proof (focus_node s k c l a r H) as [? ?];
    facts_at s constr:(InL c a r :: k) l H; facts_at s constr:(InR c l a :: k) r H
  | _ => idtac
  end.
Ltac facts H :=
  lazymatch type of H with tree_at ?s (plug ?k ?t) => facts_at s k t H end.

Section insertion.
Implicit Types (s : qd_rb_root) (k : list frame).

(** Where the loop of the insertion ends: a tree with the same nodes. *)
Definition fixed s (t : tree) (m : outcome qd_rb_root) : Prop :=
  exists s' t', m = Ok s' /\ turns s t s' t' /\ exists n, rb n t'.

Lemma fixed_turn s t s1 t1 m : turns s t s1 t1 -> fixed s1 t1 m -> fixed s t m.
Proof.
  intros H (s' & t' & E1 & H' & Hn). exists s', t'. split; [done|]. split; [|done].
  by eapply turns_trans.
Qed.

(** Run the next step of the code, whose effect is a [turns]. *)
Ltac turn L s' H :=
  let E := fresh in
  destruct L as (s' & E & H); rewrite E; cbn [obind]; clear E;
  eapply fixed_turn; [exact H|]; apply proj1 in H.

(** The new node under a black holder, or at the root: the loop stops. *)
Lemma insert_stops fuel s k n l x r :
  tree_at s (plug k (T QD_RB_RED l x r)) -> rb n (T QD_RB_RED l x r) -> rbk n k ->
  k = [] \/ holder_color k = QD_RB_BLACK ->
  fixed s (plug k (T QD_RB_RED l x r)) (insert_loop (S fuel) s x).
Proof.
  intros H Hn Hk Hc. exists s. eexists. split; [|split; [by apply turns_refl|]].
  - facts H. simpl. reads. destruct k as [|f k]; [done|].
    destruct Hc as [?|Hc]; [done|]. destruct f as [c a t|c t a]; simpl in Hc; subst c; simpl in H;
      facts H; reads; done.
  - destruct Hc as [->|Hc]; [by exists n|].
    destruct (rb_plug k n (T QD_RB_RED l x r)) as [_ ?]; [done..|by rewrite Hc|done].
Qed.

(** A red holder that is the left child of [g], with a red uncle: recolor and
    go on from [g]. *)
Lemma insert_recolor_left fuel s f k g u l x r :
  let t := T QD_RB_RED l x r in
  let t0 := T QD_RB_BLACK (plug [f] t) g u in
  let t1 := T QD_RB_RED (recolor QD_RB_BLACK (plug [f] t)) g (recolor QD_RB_BLACK u) in
  tree_at s (plug k t0) -> holder_color [f] = QD_RB_RED -> color u = QD_RB_RED ->
  (forall s1, tree_at s1 (plug k t1) -> fixed s1 (plug k t1) (insert_loop fuel s1 g)) ->
  fixed s (plug k t0) (insert_loop (S fuel) s x).
Proof.
  intros t t0 t1 H Hf Hu Hgo.
  destruct u as [|cu ul ua ur]; [done|]. simpl in Hu. subst cu.
  destruct f as [c p pr|c pl p]; simpl in Hf; subst c; simpl in t1, t0; subst t t0 t1.
  - facts H. cbn [insert_loop]. reads.
    turn (color_turn s (InR _ _ g :: k) _ QD_RB_BLACK _ _ _ H) s1 K1.
    turn (color_turn s1 (InL _ g _ :: k) _ QD_RB_BLACK _ _ _ K1) s2 K2.
    turn (color_turn s2 k _ QD_RB_RED _ _ _ K2) s3 K3. by apply Hgo.
  - facts H. cbn [insert_loop]. reads.
    turn (color_turn s (InR _ _ g :: k) _ QD_RB_BLACK _ _ _ H) s1 K1.
    turn (color_turn s1 (InL _ g _ :: k) _ QD_RB_BLACK _ _ _ K1) s2 K2.
    turn (color_turn s2 k _ QD_RB_RED _ _ _ K2) s3 K3. by apply Hgo.
Qed.

(** The same with a black uncle: one or two rotations, and the loop ends. *)
Lemma insert_rotate_left fuel s f k n g u l x r :
  let t := T QD_RB_RED l x r in
  let t0 := T QD_RB_BLACK (plug [f] t) g u in
  tree_at s (plug k t0) -> rbk n (f :: InL QD_RB_BLACK g u :: k) -> rb n t ->
  holder_color [f] = QD_RB_RED -> color u = QD_RB_BLACK -> (0 < fuel)%nat ->
  fixed s (plug k t0) (insert_loop (S fuel) s x).
Proof.
  intros t t0 H Hk Ht Hf Hu Hfu. inversion Ht; subst.
  destruct f as [c p pr|c pl p]; simpl in Hf; subst c; subst t t0; simpl in H |- *.
  - inversion Hk as [|? ? ? ? Hpr Hprc Hh Hk'| | |]; subst. inversion Hk'; subst.
    facts H. pose proof (siblings_ne s (InL _ g u :: k) _ _ _ _ H ltac:(by left)).
    simpl in *. reads. rewrite (is_red_ok s (InR _ _ g :: k) u H), Hu. reads.
    turn (color_turn s (InL _ g _ :: k) _ QD_RB_BLACK _ _ _ H) s1 K1.
    turn (color_turn s1 k _ QD_RB_RED _ _ _ K1) s2 K2.
    turn (rotate_right_turn s2 k _ _ _ _ _ _ _ K2) s3 K3.
    destruct fuel; [lia|].
    eapply (insert_stops fuel s3 (InL QD_RB_BLACK p _ :: k)); [exact K3|done| |by right].
    constructor; [|done]. by constructor.
  - inversion Hk as [| | |? ? ? ? Hpl Hplc Hh Hk'|]; subst. inversion Hk'; subst.
    facts H. pose proof (siblings_ne s (InL _ g u :: k) _ _ _ _ H ltac:(by right)).
    simpl in *. reads. rewrite (is_red_ok s (InR _ _ g :: k) u H), Hu. reads.
    turn (rotate_left_turn s (InL _ g _ :: k) _ _ _ _ _ _ _ H) s1 K1. facts K1. reads.
    turn (color_turn s1 (InL _ g _ :: k) _ QD_RB_BLACK _ _ _ K1) s2 K2.
    turn (color_turn s2 k _ QD_RB_RED _ _ _ K2) s3 K3.
    turn (rotate_right_turn s3 k _ _ _ _ _ _ _ K3) s4 K4.
    destruct fuel; [lia|].
    eapply (insert_stops fuel s4 (InL QD_RB_BLACK x _ :: k)); [exact K4|by constructor| |by right].
    constructor; [|done]. by constructor.
Qed.

(** The mirror images: the holder is the right child of [g]. *)
Lemma insert_recolor_right fuel s f k g u l x r :
  let t := T QD_RB_RED l x r in
  let t0 := T QD_RB_BLACK u g (plug [f] t) in
  let t1 := T QD_RB_RED (recolor QD_RB_BLACK u) g (recolor QD_RB_BLACK (plug [f] t)) in
  tree_at s (plug k t0) -> holder_color [f] = QD_RB_RED -> color u = QD_RB_RED ->
  (forall s1, tree_at s1 (plug k t1) -> fixed s1 (plug k t1) (insert_loop fuel s1 g)) ->
  fixed s (plug k t0) (insert_loop (S fuel) s x).
Proof.
  intros t t0 t1 H Hf Hu Hgo.
  destruct u as [|cu ul ua ur]; [done|]. simpl in Hu. subst cu.
  pose proof (siblings_ne s k _ _ _ _ H ltac:(by left)) as Hne.
  destruct f as [c p pr|c pl p]; simpl in Hf; subst c; simpl in t1, t0, Hne; subst t t0 t1.
  - facts H. cbn [insert_loop]. reads.
    turn (color_turn s (InL _ g _ :: k) _ QD_RB_BLACK _ _ _ H) s1 K1.
    turn (color_turn s1 (InR _ _ g :: k) _ QD_RB_BLACK _ _ _ K1) s2 K2.
    turn (color_turn s2 k _ QD_RB_RED _ _ _ K2) s3 K3. by apply Hgo.
  - facts H. cbn [insert_loop]. reads.
    turn (color_turn s (InL _ g _ :: k) _ QD_RB_BLACK _ _ _ H) s1 K1.
    turn (color_turn s1 (InR _ _ g :: k) _ QD_RB_BLACK _ _ _ K1) s2 K2.
    turn (color_turn s2 k _ QD_RB_RED _ _ _ K2) s3 K3. by apply Hgo.
Qed.

Lemma insert_rotate_right fuel s f k n g u l x r :
  let t := T QD_RB_RED l x r in
  let t0 := T QD_RB_BLACK u g (plug [f] t) in
  tree_at s (plug k t0) -> rbk n (f :: InR QD_RB_BLACK u g :: k) -> rb n t ->
  holder_color [f] = QD_RB_RED -> color u = QD_RB_BLACK -> (0 < fuel)%nat ->
  fixed s (plug k t0) (insert_loop (S fuel) s x).
Proof.
  intros t t0 H Hk Ht Hf Hu Hfu. inversion Ht; subst.
  assert (addr u <> addr (plug [f] t)) as Hne
    by (eapply (siblings_ne s k); [exact H|right; by destruct f]).
  destruct f as [c p pr|c pl p]; simpl in Hf; subst c; subst t t0; simpl in H, Hne |- *.
  - inversion Hk as [|? ? ? ? Hpr Hprc Hh Hk'| | |]; subst. inversion Hk'; subst.
    facts H. pose proof (siblings_ne s (InR _ u g :: k) _ _ _ _ H ltac:(by left)).
    simpl in *. reads. rewrite (is_red_ok s (InL _ g _ :: k) u H), Hu. reads.
    turn (rotate_right_turn s (InR _ _ g :: k) _ _ _ _ _ _ _ H) s1 K1. facts K1. reads.
    turn (color_turn s1 (InR _ _ g :: k) _ QD_RB_BLACK _ _ _ K1) s2 K2.
    turn (color_turn s2 k _ QD_RB_RED _ _ _ K2) s3 K3.
    turn (rotate_left_turn s3 k _ _ _ _ _ _ _ K3) s4 K4.
    destruct fuel; [lia|].
    eapply (insert_stops fuel s4 (InR QD_RB_BLACK _ x :: k)); [exact K4|by constructor| |by right].
    constructor; [|done]. by constructor.
  - inversion Hk as [| | |? ? ? ? Hpl Hplc Hh Hk'|]; subst. inversion Hk'; subst.
    facts H. pose proof (siblings_ne s (InR _ u g :: k) _ _ _ _ H ltac:(by right)).
    simpl in *. reads. rewrite (is_red_ok s (InL _ g _ :: k) u H), Hu. reads.
    turn (color_turn s (InR _ _ g :: k) _ QD_RB_BLACK _ _ _ H) s1 K1.
    turn (color_turn s1 k _ QD_RB_RED _ _ _ K1) s2 K2.
    turn (rotate_left_turn s2 k _ _ _ _ _ _ _ K2) s3 K3.
    destruct fuel; [lia|].
    eapply (insert_stops fuel s3 (InR QD_RB_BLACK _ p :: k)); [exact K3|done| |by right].
    constructor; [|done]. by constructor.
Qed.

Lemma rb_recolor n t : rb n t -> color t = QD_RB_RED -> rb (S n) (recolor QD_RB_BLACK t).
Proof. intros H. inversion H; subst; simpl; intros; try done; by constructor. Qed.

Lemma plug_cons f k t : plug (f :: k) t = plug k (plug [f] t).
Proof. by destruct f. Qed.

(** The loop, from a red node whose only fault may be a red holder. *)
Lemma insert_loop_ok fuel : forall s k n l x r,
  (length k < fuel)%nat ->
  tree_at s (plug k (T QD_RB_RED l x r)) -> rb n (T QD_RB_RED l x r) -> rbk n k ->
  fixed s (plug k (T QD_RB_RED l x r)) (insert_loop fuel s x).
Proof.
  induction fuel as [|fuel IH]; intros s k n l x r Hfu H Ht Hk; [lia|].
  destruct k as [|f k]; [by eapply insert_stops; eauto|].
  destruct (decide (holder_color (f :: k) = QD_RB_BLACK)) as [|Hb]; [by eapply insert_stops; eauto|].
  assert (holder_color [f] = QD_RB_RED) as Hf by (inversion Hk; subst; simpl in *; done).
  assert (holder_color k = QD_RB_BLACK) as Hh by (inversion Hk; subst; simpl in *; done).
  assert (rbk n k) as Hk' by (inversion Hk; subst; simpl in *; done).
  assert (rb (S n) (recolor QD_RB_BLACK (plug [f] (T QD_RB_RED l x r))) /\
          color (recolor QD_RB_BLACK (plug [f] (T QD_RB_RED l x r))) = QD_RB_BLACK) as [Hp Hpc]
    by (inversion Hk; subst; split; simpl; by try constructor).
  destruct k as [|g' k]; [discriminate Hh|]. simpl in Hfu.
  rewrite plug_cons in H |- *.
  destruct g' as [cg g u|cg u g]; simpl in Hh; subst cg.
  - assert (rb n u /\ rbk (S n) k) as [Hu Hk2] by (inversion Hk'; by subst).
    destruct (rb_red_or_black _ _ Hu) as [Hc|Hc].
    + apply (insert_recolor_left fuel s f k g u l x r); [done..|]. intros s1 H1.
      eapply (IH _ _ (S n)); [lia|done| |done].
      constructor; auto using rb_recolor. by destruct u.
    + apply (insert_rotate_left fuel s f k n g u l x r); auto. lia.
  - assert (rb n u /\ rbk (S n) k) as [Hu Hk2] by (inversion Hk'; by subst).
    destruct (rb_red_or_black _ _ Hu) as [Hc|Hc].
    + apply (insert_recolor_right fuel s f k g u l x r); [done..|]. intros s1 H1.
      eapply (IH _ _ (S n)); [lia|done| |done].
      constructor; auto using rb_recolor. by destruct u.
    + apply (insert_rotate_right fuel s f k n g u l x r); auto. lia.
Qed.
End insertion.

(** ** Height

    A red-black tree of [m] nodes is at most [2 * log2 (m + 1)] deep, which
    bounds the iterations of every loop. *)

Definition size (t : tree) : nat := length (inorder t).

Fixpoint blacks (k : list frame) : nat :=
  match k with
  | [] => 0
  | f :: k => (if decide (holder_color [f] = QD_RB_BLACK) then 1 else 0) + blacks k
  end.

Lemma rb_size n t : rb n t -> (2 ^ n <= S (size t))%nat.
Proof.
  unfold size. induction 1; simpl in *; rewrite ?length_app; simpl; lia.
Qed.

Lemma rb_height n k : forall t,
  rbk n k -> rb n t -> (holder_color k = QD_RB_RED -> color t = QD_RB_BLACK) ->
  rb (n + blacks k) (plug k t).
Proof.
  revert n. induction k as [|f k IH]; intros n t Hk Ht Hc.
  - simpl. by rewrite Nat.add_0_r.
  - inversion Hk; subst; simpl in *; rewrite ?Nat.add_succ_r;
      (eapply IH; [done|by constructor; auto|simpl; congruence]) ||
      (apply (IH (S n)); [done|by constructor; auto|simpl; done]).
Qed.

Lemma rbk_length n k :
  rbk n k ->
  (length k <= 2 * blacks k)%nat /\
  (k <> [] -> holder_color k = QD_RB_BLACK -> S (length k) <= 2 * blacks k)%nat.
Proof.
  induction 1 as [| ? ? ? k ? ? Hh ? IH|? ? ? k ? ? IH|? ? ? k ? ? Hh ? IH|? ? ? k ? ? IH];
    simpl; split; try done; try lia; try (intros _ [=]);
    destruct IH as [_ IH]; destruct k; (discriminate Hh || specialize (IH ltac:(done) Hh); simpl in *; lia).
Qed.

Definition depth_bound (t : tree) : nat := 2 * Nat.log2 (S (size t)).

Lemma rb_depth k t : rb_tree (plug k t) -> (length k <= depth_bound (plug k t))%nat.
Proof.
  intros H. destruct (rb_unplug _ _ H) as (n & Hk & Ht & Hc).
  pose proof (rb_size _ _ (rb_height _ _ _ Hk Ht Hc)) as Hs.
  destruct (rbk_length _ _ Hk) as [Hl _]. unfold depth_bound.
  apply Nat.log2_le_mono in Hs. rewrite Nat.log2_pow2 in Hs by lia. lia.
Qed.

(** ** Insertion *)

(** The empty link of a hole, as [struct qd_rb_node **]. *)
Definition link_of (k : list frame) : link :=
  match k with [] => LinkRoot | InL _ a _ :: _ => LinkLeft a | InR _ _ a :: _ => LinkRight a end.

Lemma write_link_ok s m rt k p q :
  rep_ctx m rt k p -> (forall b, b ∈ ctx_locs k -> mem s !! b = m !! b) ->
  write_link s (link_of k) q = Ok (mkRoot (child_write k q (mem s)) (root_write k q (root s))).
Proof.
  intros Hk Hf. destruct k as [|f k]; [done|]. destruct Hk as (Ha & Hm & Ht & _).
  rewrite <- Hf in Hm by (by apply (holder_in (f :: k))).
  destruct f as [c a r|c l a]; simpl in *; unfold set_left, set_right; by rewrite (wr_ok _ _ _ _ Hm).
Qed.

Lemma link_node_ok s k x :
  tree_at s (plug k E) -> is_Some (mem s !! x) -> x <> NULL -> x ∉ inorder (plug k E) ->
  exists s', qd_rb_link_node s x (holder k) (link_of k) = Ok s' /\
    tree_at s' (plug k (T QD_RB_RED E x E)) /\ outside (x :: inorder (plug k E)) s s'.
Proof.
  rewrite tree_at_focus, inorder_plug. intros (_ & Hk & Hn) [nd Hx] Hx0 Hxk.
  assert (x ∉ ctx_locs k) as Hxc by (intros Hi; apply Hxk, in_plug; auto).
  apply focus_nodup in Hn as Hn'. destruct Hn' as (Hkn & _ & _).
  unfold qd_rb_link_node. eexists. split; [|split].
  - run. erewrite write_link_ok; [done|exact Hk|]. intros w Hw. unwritten.
  - apply tree_at_focus. split; [|split].
    + simpl. split; [done|]. split; [look|done].
    + simpl. ctx_kept.
    + simpl in *. apply NoDup_app in Hn as (H1 & H2 & H3). apply NoDup_app. split_and!; [done| |].
      * intros w Hw [->|Hi]%elem_of_cons; [apply Hxk; in_solve|by eapply H2].
      * apply NoDup_cons. split; [|done]. intros Hi. apply Hxk. in_solve.
  - intros w Hw. cbn [mem]. rewrite child_write_ne.
    + repeat rewrite lookup_insert_ne by (intros ->; apply Hw; in_solve). done.
    + intros Hi. apply Hw. apply elem_of_cons. right. apply in_plug. auto.
Qed.

Lemma rb_blacken n t : rb n t -> rb_tree (recolor QD_RB_BLACK t).
Proof. destruct 1; (split; [done|]); eexists; by constructor. Qed.

Lemma insert_fixup_ok fuel s k n x :
  (length k < fuel)%nat -> tree_at s (plug k (T QD_RB_RED E x E)) -> rbk n k -> rb n E ->
  exists s' t', qd_rb_insert_fixup fuel s x = Ok s' /\
    turns s (plug k (T QD_RB_RED E x E)) s' t' /\ rb_tree t'.
Proof.
  intros Hfu H Hk Hn.
  assert (rb n (T QD_RB_RED E x E)) as Ht by (by constructor).
  destruct (insert_loop_ok fuel s k n E x E Hfu H Ht Hk) as (s1 & t1 & E1 & H1 & n1 & Hn1).
  unfold qd_rb_insert_fixup. rewrite E1. cbn [obind].
  assert (x ∈ inorder t1) as Hx.
  { destruct H1 as (_ & -> & _). rewrite inorder_plug. simpl. in_solve. }
  destruct t1 as [|c l a r]; [by apply not_elem_of_nil in Hx|].
  destruct (color_turn s1 [] c QD_RB_BLACK l a r (proj1 H1)) as (s2 & E2 & H2).
  destruct H1 as [Hat H1]. pose proof (proj1 Hat) as Hr. simpl in Hr. rewrite Hr, E2.
  eexists _, _. split; [done|]. split; [eapply turns_trans; [exact (conj Hat H1)|exact H2]|].
  by apply (rb_blacken n1 (T c l a r)).
Qed.

(** ** Erasure: the rebalancing loop

    The hole holds a subtree of black height one less than the context expects,
    or a red node that only has to be painted black. *)

Definition short (n : nat) (t : tree) : Prop :=
  (color t = QD_RB_BLACK /\ rb n t) \/
  (color t = QD_RB_RED /\ rb (S n) (recolor QD_RB_BLACK t)).

(** The loop returns a node that, painted black, completes a red-black tree. *)
Definition repaired (s : qd_rb_root) (t : tree) (m : outcome (qd_rb_root * loc)) : Prop :=
  exists s' k u, m = Ok (s', addr u) /\ turns s t s' (plug k u) /\
    rb_tree (plug k (recolor QD_RB_BLACK u)).

Lemma repaired_turn s t s1 t1 m : turns s t s1 t1 -> repaired s1 t1 m -> repaired s t m.
Proof.
  intros H (s' & k & u & E1 & H' & Hn). exists s', k, u. split; [done|]. split; [|done].
  by eapply turns_trans.
Qed.

Ltac turn_r L s' H :=
  let E := fresh in
  destruct L as (s' & E & H); rewrite E; cbn [obind]; clear E;
  eapply repaired_turn; [exact H|]; apply proj1 in H.

Lemma hole_not_root s f k t : tree_at s (plug (f :: k) t) -> addr t <> root s.
Proof.
  intros H. pose proof (proj1 H) as Hr. rewrite tree_at_focus in H.
  destruct H as (Ht & Hk & Hn). apply focus_nodup in Hn as (_ & _ & Hd).
  assert (forall k p, k <> [] -> rep_ctx (mem s) (root s) k p -> root s <> NULL /\ root s ∈ ctx_locs k) as Hin.
  { clear. induction k as [|f k IH]; intros p Hk; [done|]. intros (Ha & _ & _ & Hc).
    destruct k as [|f' k]; [simpl in Hc; rewrite Hc; split; [done|by apply (holder_in [f])]|].
    destruct (IH _ ltac:(done) Hc) as [? Hi]. split; [done|]. unfold ctx_locs in *.
    destruct f; simpl in *; set_solver. }
  destruct (Hin (f :: k) _ ltac:(done) Hk) as [Hnull Hroot]. intros E1.
  destruct t as [|c l a r]; simpl in E1; [congruence|]. apply (Hd a); [simpl; in_solve|congruence].
Qed.

(** The node at the root, or red: the loop stops. *)
Lemma erase_stops fuel s k n t :
  tree_at s (plug k t) -> rbk (S n) k -> short n t -> k = [] \/ color t = QD_RB_RED ->
  repaired s (plug k t) (erase_loop (S fuel) s (addr t) (holder k)).
Proof.
  intros H Hk Ht Hs. exists s, k, t. split; [|split; [by apply turns_refl|]].
  - cbn [erase_loop]. rewrite (is_black_ok s k t H). cbn [obind].
    destruct Hs as [->| ->]; [|done]. rewrite (proj1 H). simpl. rewrite Z.eqb_refl.
    by rewrite andb_false_r.
  - destruct Ht as [[Hc Ht]|[Hc Ht]].
    + destruct Hs as [->|Hs]; [by eapply rb_blacken|by rewrite Hc in Hs].
    + eapply rb_plug; [done|done|]. by destruct t.
Qed.

(** The last rotation: the far child of the sibling is red. *)
Lemma erase_rotate_left_rb n c p t sl sa sr k :
  rbk (S n) (InL c p (T QD_RB_BLACK sl sa sr) :: k) -> rb n t -> rb n sl -> rb n sr ->
  color sr = QD_RB_RED ->
  rb_tree (plug k (T c (T QD_RB_BLACK t p sl) sa (recolor QD_RB_BLACK sr))).
Proof.
  intros Hk Ht Hl Hr Hc.
  assert (rb (S n) (recolor QD_RB_BLACK sr)) by (by apply rb_recolor).
  assert (rb (S n) (T QD_RB_BLACK t p sl)) by (by constructor).
  inversion Hk as [|? ? ? ? ? ? Hh ?| | |]; subst.
  - eapply rb_plug; [done| |by rewrite Hh]. apply rb_R; [done..|]. by destruct sr.
  - eapply rb_plug; [done| |done]. by apply rb_B.
Qed.

Lemma rb_tree_recolor t : rb_tree t -> recolor QD_RB_BLACK t = t.
Proof. destruct t as [|c l a r]; [done|]. intros [Hc _]. simpl in *. by subst. Qed.

Lemma erase_far_red_left s n c p t sl sa sr k :
  let t0 := plug (InL c p (T QD_RB_BLACK sl sa sr) :: k) t in
  tree_at s t0 -> rbk (S n) (InL c p (T QD_RB_BLACK sl sa sr) :: k) ->
  rb n t -> rb n sl -> rb n sr -> color sr = QD_RB_RED ->
  repaired s t0
    (let! s := set_color s sa c in
     let! s := set_color s p QD_RB_BLACK in
     let! sr := rd s rb_right sa in
     let! s := set_color_opt s sr QD_RB_BLACK in
     let! s := __qd_rb_rotate_left s p in
     Ok (s, root s)).
Proof.
  intros t0 H Hk Ht Hl Hr Hc. subst t0. simpl plug in *.
  facts H. reads.
  turn_r (color_turn s (InR _ _ p :: k) _ c _ _ _ H) s1 K1.
  turn_r (color_turn s1 k _ QD_RB_BLACK _ _ _ K1) s2 K2. facts K2. reads.
  turn_r (color_opt_turn s2 (InR c sl sa :: InR QD_RB_BLACK t p :: k) sr QD_RB_BLACK K2) s3 K3.
  simpl plug in K3.
  turn_r (rotate_left_turn s3 k _ _ _ _ _ _ _ K3) s4 K4.
  eexists s4, [], _. split; [by rewrite (proj1 K4)|]. split; [by apply turns_refl|]. simpl plug.
  pose proof (erase_rotate_left_rb n c p t sl sa sr k Hk Ht Hl Hr Hc) as Hrb.
  by rewrite rb_tree_recolor.
Qed.

Lemma rbk_sibling n c p u k : rbk n (InL c p u :: k) \/ rbk n (InR c u p :: k) -> rb n u.
Proof. intros [H|H]; inversion H; by subst. Qed.

Lemma rb_black_sibling n l a r : rb (S n) (T QD_RB_BLACK l a r) -> rb n l /\ rb n r.
Proof. intros H. inversion H; by subst. Qed.

(** An iteration that finds a black sibling on the right. *)
Lemma erase_black_left_ok loop s n c p t sl sa sr k :
  let t0 := plug (InL c p (T QD_RB_BLACK sl sa sr) :: k) t in
  let t1 := plug k (T c t p (T QD_RB_RED sl sa sr)) in
  tree_at s t0 -> rbk (S n) (InL c p (T QD_RB_BLACK sl sa sr) :: k) -> rb n t ->
  (forall s1, tree_at s1 t1 -> color sl = QD_RB_BLACK -> color sr = QD_RB_BLACK ->
     repaired s1 t1 (loop s1 p (holder k))) ->
  repaired s t0 (erase_black_left loop s p sa).
Proof.
  intros t0 t1 H Hk Ht Hloop. subst t0 t1. simpl plug in *.
  destruct (rb_black_sibling _ _ _ _ (rbk_sibling _ _ _ _ _ (or_introl Hk))) as [Hl Hr].
  facts H. unfold erase_black_left. reads.
  rewrite (is_black_ok s (InL _ sa sr :: InR _ t p :: k) sl H). cbn [obind].
  rewrite (is_black_ok s (InR _ sl sa :: InR _ t p :: k) sr H).
  destruct (rb_red_or_black _ _ Hr) as [Hcr|Hcr]; rewrite Hcr.
  - replace (if color sl =? QD_RB_BLACK then _ else _) with (@Ok bool false)
      by (by destruct (_ =? _)). reads.
    by eapply erase_far_red_left.
  - destruct (rb_red_or_black _ _ Hl) as [Hcl|Hcl]; rewrite Hcl; cbn [obind].
    + reads. destruct sl as [|cl sll sla slr]; [done|]. simpl in Hcl. subst cl.
      turn_r (color_opt_turn s (InL _ sa sr :: InR _ t p :: k) _ QD_RB_BLACK H) s1 K1.
      simpl plug in K1.
      turn_r (color_turn s1 (InR _ t p :: k) _ QD_RB_RED _ _ _ K1) s2 K2.
      turn_r (rotate_right_turn s2 (InR _ t p :: k) _ _ _ _ _ _ _ K2) s3 K3.
      simpl plug in K3. facts K3. reads.
      inversion Hl; subst.
      eapply (erase_far_red_left s3 n c p t _ _ (T QD_RB_RED slr sa sr)); try done.
      * inversion Hk; subst; constructor; try done; constructor; try done; by constructor.
      * by constructor.
    + reads. turn_r (color_turn s (InR _ t p :: k) _ QD_RB_RED _ _ _ H) s1 K1.
      simpl plug in K1. facts K1. reads. by apply Hloop.
Qed.

(** The mirror images. *)
Lemma erase_rotate_right_rb n c p t sl sa sr k :
  rbk (S n) (InR c (T QD_RB_BLACK sl sa sr) p :: k) -> rb n t -> rb n sl -> rb n sr ->
  color sl = QD_RB_RED ->
  rb_tree (plug k (T c (recolor QD_RB_BLACK sl) sa (T QD_RB_BLACK sr p t))).
Proof.
  intros Hk Ht Hl Hr Hc.
  assert (rb (S n) (recolor QD_RB_BLACK sl)) by (by apply rb_recolor).
  assert (rb (S n) (T QD_RB_BLACK sr p t)) by (by constructor).
  inversion Hk as [| | |? ? ? ? ? ? Hh ?|]; subst.
  - eapply rb_plug; [done| |by rewrite Hh]. apply rb_R; [done..| |done]. by destruct sl.
  - eapply rb_plug; [done| |done]. by apply rb_B.
Qed.

Lemma erase_far_red_right s n c p t sl sa sr k :
  let t0 := plug (InR c (T QD_RB_BLACK sl sa sr) p :: k) t in
  tree_at s t0 -> rbk (S n) (InR c (T QD_RB_BLACK sl sa sr) p :: k) ->
  rb n t -> rb n sl -> rb n sr -> color sl = QD_RB_RED ->
  repaired s t0
    (let! s := set_color s sa c in
     let! s := set_color s p QD_RB_BLACK in
     let! sl := rd s rb_left sa in
     let! s := set_color_opt s sl QD_RB_BLACK in
     let! s := __qd_rb_rotate_right s p in
     Ok (s, root s)).
Proof.
  intros t0 H Hk Ht Hl Hr Hc. subst t0. simpl plug in *.
  facts H. reads.
  turn_r (color_turn s (InL _ p _ :: k) _ c _ _ _ H) s1 K1.
  turn_r (color_turn s1 k _ QD_RB_BLACK _ _ _ K1) s2 K2. facts K2. reads.
  turn_r (color_opt_turn s2 (InL c sa sr :: InL QD_RB_BLACK p t :: k) sl QD_RB_BLACK K2) s3 K3.
  simpl plug in K3.
  turn_r (rotate_right_turn s3 k _ _ _ _ _ _ _ K3) s4 K4.
  eexists s4, [], _. split; [by rewrite (proj1 K4)|]. split; [by apply turns_refl|]. simpl plug.
  pose proof (erase_rotate_right_rb n c p t sl sa sr k Hk Ht Hl Hr Hc) as Hrb.
  by rewrite rb_tree_recolor.
Qed.

Lemma erase_black_right_ok loop s n c p t sl sa sr k :
  let t0 := plug (InR c (T QD_RB_BLACK sl sa sr) p :: k) t in
  let t1 := plug k (T c (T QD_RB_RED sl sa sr) p t) in
  tree_at s t0 -> rbk (S n) (InR c (T QD_RB_BLACK sl sa sr) p :: k) -> rb n t ->
  (forall s1, tree_at s1 t1 -> color sl = QD_RB_BLACK -> color sr = QD_RB_BLACK ->
     repaired s1 t1 (loop s1 p (holder k))) ->
  repaired s t0 (erase_black_right loop s p sa).
Proof.
  intros t0 t1 H Hk Ht Hloop. subst t0 t1. simpl plug in *.
  destruct (rb_black_sibling _ _ _ _ (rbk_sibling _ _ _ _ _ (or_intror Hk))) as [Hl Hr].
  facts H. unfold erase_black_right. reads.
  rewrite (is_black_ok s (InL _ sa sr :: InL _ p t :: k) sl H). cbn [obind].
  rewrite (is_black_ok s (InR _ sl sa :: InL _ p t :: k) sr H).
  destruct (rb_red_or_black _ _ Hl) as [Hcl|Hcl]; rewrite Hcl.
  - cbn [obind]. reads. by eapply erase_far_red_right.
  - destruct (rb_red_or_black _ _ Hr) as [Hcr|Hcr]; rewrite Hcr; cbn [obind].
    + reads. destruct sr as [|cr srl sra srr]; [done|]. simpl in Hcr. subst cr.
      turn_r (color_opt_turn s (InR _ sl sa :: InL _ p t :: k) _ QD_RB_BLACK H) s1 K1.
      simpl plug in K1.
      turn_r (color_turn s1 (InL _ p t :: k) _ QD_RB_RED _ _ _ K1) s2 K2.
      turn_r (rotate_left_turn s2 (InL _ p t :: k) _ _ _ _ _ _ _ K2) s3 K3.
      simpl plug in K3. facts K3. reads.
      inversion Hr; subst.
      eapply (erase_far_red_right s3 n c p t (T QD_RB_RED sl sa srl)); try done.
      * inversion Hk; subst; constructor; try done; constructor; try done; by constructor.
      * by constructor.
    + reads. turn_r (color_turn s (InL _ p t :: k) _ QD_RB_RED _ _ _ H) s1 K1.
      simpl plug in K1. facts K1. reads. by apply Hloop.
Qed.

(** What the next iteration finds at the parent, once the sibling is red. *)
Lemma short_left n c p u t sl sa sr k :
  rbk (S n) (InL c p u :: k) -> rb n t -> color t = QD_RB_BLACK -> rb n sl -> rb n sr ->
  color sl = QD_RB_BLACK -> color sr = QD_RB_BLACK ->
  exists n', rbk (S n') k /\ short n' (T c t p (T QD_RB_RED sl sa sr)).
Proof.
  intros Hk Ht Hc Hl Hr Hcl Hcr. assert (rb n (T QD_RB_RED sl sa sr)) by (by constructor).
  inversion Hk; subst.
  - exists n. split; [done|]. right. split; [done|]. by constructor.
  - exists (S n). split; [done|]. left. split; [done|]. by constructor.
Qed.

Lemma short_right n c p u t sl sa sr k :
  rbk (S n) (InR c u p :: k) -> rb n t -> color t = QD_RB_BLACK -> rb n sl -> rb n sr ->
  color sl = QD_RB_BLACK -> color sr = QD_RB_BLACK ->
  exists n', rbk (S n') k /\ short n' (T c (T QD_RB_RED sl sa sr) p t).
Proof.
  intros Hk Ht Hc Hl Hr Hcl Hcr. assert (rb n (T QD_RB_RED sl sa sr)) by (by constructor).
  inversion Hk; subst.
  - exists n. split; [done|]. right. split; [done|]. by constructor.
  - exists (S n). split; [done|]. left. split; [done|]. by constructor.
Qed.

(** A black sibling whose children are black: the parent is examined next. *)
Definition goes_on (fuel : nat) (k : list frame) : Prop :=
  forall s n t, tree_at s (plug k t) -> rbk (S n) k -> short n t ->
  repaired s (plug k t) (erase_loop fuel s (addr t) (holder k)).

Lemma erase_left_ok fuel s n c p t u k :
  tree_at s (plug (InL c p u :: k) t) -> rbk (S n) (InL c p u :: k) -> rb n t ->
  color t = QD_RB_BLACK -> goes_on fuel k -> (0 < fuel)%nat ->
  repaired s (plug (InL c p u :: k) t) (erase_loop (S fuel) s (addr t) p).
Proof.
  intros H Hk Ht Hc IH Hfu. pose proof (rbk_sibling _ _ _ _ _ (or_introl Hk)) as Hu.
  pose proof (hole_not_root _ _ _ _ H) as Hroot.
  destruct u as [|cu sl sa sr]; [inversion Hu|].
  cbn [erase_loop]. rewrite (is_black_ok s _ t H), Hc. simpl plug in *. facts H. reads.
  inversion Hu as [|? ? ? ? Hl Hr Hcl Hcr|? ? ? ? Hl Hr]; subst; reads.
  - (* a red sibling *)
    turn_r (color_turn s (InR _ t p :: k) _ QD_RB_BLACK _ _ _ H) s1 K1.
    turn_r (color_turn s1 k _ QD_RB_RED _ _ _ K1) s2 K2.
    turn_r (rotate_left_turn s2 k _ _ _ _ _ _ _ K2) s3 K3. facts K3. reads.
    destruct sl as [|cl sll sla slr]; [inversion Hl|]. simpl in Hcl. subst cl.
    assert (rbk (S n) (InL QD_RB_BLACK sa sr :: k)) as Hk1.
    { inversion Hk; subst; [done|]. by constructor. }
    assert (rbk (S n) (InL QD_RB_RED p (T QD_RB_BLACK sll sla slr) :: InL QD_RB_BLACK sa sr :: k)) as Hk2
      by (by constructor).
    eapply (erase_black_left_ok _ s3 n _ p t sll sla slr (InL QD_RB_BLACK sa sr :: k) K3 Hk2 Ht).
    intros s4 K4 Hcll Hclr. apply rb_black_sibling in Hl as [Hll Hlr].
    destruct (short_left _ _ _ _ _ _ sla _ _ Hk2 Ht Hc Hll Hlr Hcll Hclr) as (n' & Hk' & Hs').
    destruct fuel; [lia|].
    apply (erase_stops fuel s4 (InL QD_RB_BLACK sa sr :: k) n' (T QD_RB_RED _ p _) K4 Hk' Hs'). by right.
  - eapply (erase_black_left_ok _ s n c p t sl sa sr k H Hk Ht). intros s1 K1 Hcl Hcr.
    destruct (short_left _ _ _ _ _ _ sa _ _ Hk Ht Hc Hl Hr Hcl Hcr) as (n' & Hk' & Hs').
    by apply (IH s1 n' (T c t p _)).
Qed.

Lemma erase_right_ok fuel s n c p t u k :
  tree_at s (plug (InR c u p :: k) t) -> rbk (S n) (InR c u p :: k) -> rb n t ->
  color t = QD_RB_BLACK -> goes_on fuel k -> (0 < fuel)%nat ->
  repaired s (plug (InR c u p :: k) t) (erase_loop (S fuel) s (addr t) p).
Proof.
  intros H Hk Ht Hc IH Hfu. pose proof (rbk_sibling _ _ _ _ _ (or_intror Hk)) as Hu.
  pose proof (hole_not_root _ _ _ _ H) as Hroot.
  destruct u as [|cu sl sa sr]; [inversion Hu|].
  pose proof (siblings_ne s k _ _ _ _ H ltac:(by left)) as Hne.
  cbn [erase_loop]. rewrite (is_black_ok s _ t H), Hc. simpl plug in *. simpl in Hne. facts H. reads.
  inversion Hu as [|? ? ? ? Hl Hr Hcl Hcr|? ? ? ? Hl Hr]; subst; reads.
  - (* a red sibling *)
    turn_r (color_turn s (InL _ p t :: k) _ QD_RB_BLACK _ _ _ H) s1 K1.
    turn_r (color_turn s1 k _ QD_RB_RED _ _ _ K1) s2 K2.
    turn_r (rotate_right_turn s2 k _ _ _ _ _ _ _ K2) s3 K3. facts K3. reads.
    destruct sr as [|cr srl sra srr]; [inversion Hr|]. simpl in Hcr. subst cr.
    assert (rbk (S n) (InR QD_RB_BLACK sl sa :: k)) as Hk1.
    { inversion Hk; subst; [done|]. by constructor. }
    assert (rbk (S n) (InR QD_RB_RED (T QD_RB_BLACK srl sra srr) p :: InR QD_RB_BLACK sl sa :: k)) as Hk2
      by (by constructor).
    eapply (erase_black_right_ok _ s3 n _ p t srl sra srr (InR QD_RB_BLACK sl sa :: k) K3 Hk2 Ht).
    intros s4 K4 Hcll Hclr. apply rb_black_sibling in Hr as [Hll Hlr].
    destruct (short_right _ _ _ _ _ _ sra _ _ Hk2 Ht Hc Hll Hlr Hcll Hclr) as (n' & Hk' & Hs').
    destruct fuel; [lia|].
    apply (erase_stops fuel s4 (InR QD_RB_BLACK sl sa :: k) n' (T QD_RB_RED _ p _) K4 Hk' Hs'). by right.
  - eapply (erase_black_right_ok _ s n c p t sl sa sr k H Hk Ht). intros s1 K1 Hcl Hcr.
    destruct (short_right _ _ _ _ _ _ sa _ _ Hk Ht Hc Hl Hr Hcl Hcr) as (n' & Hk' & Hs').
    by apply (IH s1 n' (T c _ p t)).
Qed.

Lemma erase_loop_ok fuel : forall k, (length k < fuel)%nat -> goes_on fuel k.
Proof.
  induction fuel as [|fuel IH]; intros k Hfu; [lia|]. intros s n t H Hk Hs.
  destruct k as [|f k]; [by eapply erase_stops; eauto|]. simpl in Hfu.
  destruct Hs as [[Hc Ht]|[Hc Ht]]; [|by eapply erase_stops; eauto; right].
  destruct f as [c p u|c u p]; simpl holder.
  - eapply erase_left_ok; eauto; [|lia]. apply IH. lia.
  - eapply erase_right_ok; eauto; [|lia]. apply IH. lia.
Qed.

Lemma erase_fixup_ok fuel s k n t :
  (length k < fuel)%nat -> tree_at s (plug k t) -> rbk (S n) k -> short n t ->
  exists s' t', __qd_rb_erase_fixup fuel s (addr t) (holder k) = Ok s' /\
    turns s (plug k t) s' t' /\ rb_tree t'.
Proof.
  intros Hfu H Hk Hs.
  destruct (erase_loop_ok fuel k Hfu s n t H Hk Hs) as (s1 & k1 & u & E1 & H1 & Hrb).
  unfold __qd_rb_erase_fixup. rewrite E1. cbn [obind].
  destruct (color_opt_turn s1 k1 u QD_RB_BLACK (proj1 H1)) as (s2 & E2 & H2).
  exists s2, (plug k1 (recolor QD_RB_BLACK u)). split; [done|]. split; [|done].
  by eapply turns_trans.
Qed.

(** ** Erasure: taking the node out *)

Lemma plug_app k1 k2 t : plug (k1 ++ k2) t = plug k2 (plug k1 t).
Proof. revert t. induction k1 as [|[] k1 IH]; intros t; simpl; auto. Qed.

(** A node with at most one subtree [t]: the subtree takes its place. *)
Definition one_child (u : tree) (c : Z) (x : loc) (t : tree) : Prop := u = T c t x E \/ u = T c E x t.

Lemma one_child_perm u c x t : one_child u c x t -> inorder u ≡ₚ x :: inorder t.
Proof. intros [-> | ->]; simpl; [|done]. apply Permutation_app_comm. Qed.

Lemma splice_ok s k c x t u :
  one_child u c x t -> tree_at s (plug k u) ->
  exists s1,
    (let! s := set_parent_opt s (addr t) (holder k) in replace_child s (holder k) x (addr t)) = Ok s1 /\
    tree_at s1 (plug k t) /\ outside (inorder (plug k u)) s s1.
Proof.
  intros Hu H. rewrite tree_at_focus in H. destruct H as (Hr & Hk & Hn).
  assert (before k ++ inorder u ++ after k ≡ₚ x :: before k ++ inorder t ++ after k) as Hp.
  { rewrite (one_child_perm _ _ _ _ Hu). simpl. symmetry. apply Permutation_middle. }
  assert (x <> NULL /\ rep (mem s) x t /\ addr u = x) as (Hx & Ht & Eu).
  { destruct Hu as [-> | ->]; simpl in Hr; tauto. }
  rewrite Hp, NoDup_cons in Hn. destruct Hn as [Hxn Hn].
  apply focus_nodup in Hn as Hn'. destruct Hn' as (Hkn & Htn & Hd).
  assert (x ∉ ctx_locs k) by (intros Hi; apply Hxn, in_plug; auto).
  rewrite Eu in Hk. eexists. split; [|split].
  - erewrite set_parent_opt_ok by done. cbn [obind].
    erewrite replace_child_ok; [done|exact Hk|done..|]. intros w Hw.
    cbn [mem]. apply parent_write_ne. intros Hi. by apply (Hd w).
  - apply tree_at_focus. split; [|split; [|done]]; cbn [mem root].
    + eapply rep_frame; [eapply rep_parent_write; [exact Ht|done|done]|]. intros w Hw.
      apply child_write_ne. by apply Hd.
    + eapply ctx_frame; [eapply ctx_retarget_write; [exact Hk|done|reflexivity]|].
      intros w Hw. apply child_write_cong, parent_write_ne. intros Hi. by apply (Hd w).
  - apply outside_plug. intros w Hw Hw'. cbn [mem]. rewrite child_write_ne by done.
    apply parent_write_ne. intros Hi. apply Hw. rewrite (one_child_perm _ _ _ _ Hu). in_solve.
Qed.

(** The result of erasing [x] from the tree [t]. *)
Definition erased s (t : tree) (x : loc) (m : outcome qd_rb_root) : Prop :=
  exists s' t', m = Ok s' /\ tree_at s' t' /\ rb_tree t' /\
    inorder t' = filter (fun b => b <> x) (inorder t) /\ outside (inorder t) s s'.

Lemma filter_ne (x : loc) (l : list loc) : x ∉ l -> filter (fun b => b <> x) l = l.
Proof.
  induction l as [|b l IH]; [done|]. rewrite not_elem_of_cons. intros [Hb Hl].
  rewrite filter_cons_True by done. by rewrite IH.
Qed.

Lemma filter_out (x : loc) (l l1 l2 : list loc) :
  NoDup l -> l = l1 ++ x :: l2 -> filter (fun b => b <> x) l = l1 ++ l2.
Proof.
  intros Hn ->. split_nodup Hn. rewrite filter_app, filter_cons_False by (by intros []).
  by rewrite !filter_ne by apart.
Qed.

(** Once the node is out: rebalance if it was black. *)
Lemma rebalance_ok fuel s k n c x t u :
  (length k < fuel)%nat -> one_child u c x t -> rbk n k -> rb n u ->
  (holder_color k = QD_RB_RED -> color u = QD_RB_BLACK) -> tree_at s (plug k t) ->
  exists s' t',
    (if c =? QD_RB_BLACK then __qd_rb_erase_fixup fuel s (addr t) (holder k) else Ok s) = Ok s' /\
    turns s (plug k t) s' t' /\ rb_tree t'.
Proof.
  intros Hfu Hu Hk Hn Hc H.
  assert (color u = c) as Ec by (by destruct Hu as [-> | ->]).
  destruct (rb_red_or_black _ _ Hn) as [Hr|Hb].
  - assert (c = QD_RB_RED) as -> by congruence. simpl. exists s, (plug k t).
    split; [done|]. split; [by apply turns_refl|].
    assert (rb n t /\ color t = QD_RB_BLACK) as [Ht Htc].
    { destruct Hu as [-> | ->]; inversion Hn; by subst. }
    by eapply rb_plug.
  - assert (c = QD_RB_BLACK) as -> by congruence. rewrite Z.eqb_refl.
    assert (n = 1%nat /\ rb 0 t) as [-> Ht].
    { destruct Hu as [-> | ->]; inversion Hn as [| |? ? ? ? Hn1 Hn2]; subst;
        inversion Hn1; inversion Hn2; subst; try done; split; try done; by constructor. }
    apply (erase_fixup_ok fuel s k 0 t); [done..|]. unfold short.
    destruct (rb_red_or_black _ _ Ht) as [Hc'|Hc']; [right|by left].
    split; [done|]. by apply rb_recolor.
Qed.

Lemma erase_one_ok fuel s k c x t u :
  (depth_bound (plug k u) < fuel)%nat -> one_child u c x t ->
  tree_at s (plug k u) -> rb_tree (plug k u) ->
  erased s (plug k u) x (erase_one fuel s x (addr t)).
Proof.
  intros Hfu Hu H Hrb. pose proof (rb_depth _ _ Hrb) as Hd.
  destruct (rb_unplug _ _ Hrb) as (n & Hk & Hn & Hc).
  destruct (splice_ok s k c x t u Hu H) as (s1 & E1 & H1 & O1).
  destruct (rebalance_ok fuel s1 k n c x t u ltac:(lia) Hu Hk Hn Hc H1)
    as (s2 & t2 & E2 & (H2 & I2 & O2) & Hrb2).
  exists s2, t2. split; [|split; [done|split; [done|split]]].
  - unfold erase_one.
    assert (exists l r, mem s !! x = Some (mkNode (holder k) l r c)) as (? & ? & Hx).
    { destruct Hu as [-> | ->]; destruct (focus_node _ _ _ _ _ _ H); eauto. }
    reads. destruct (set_parent_opt s (addr t) (holder k)) as [s0| |]; [|done..].
    cbn [obind] in *. by rewrite E1.
  - rewrite I2, !inorder_plug. pose proof (proj2 (proj2 H)) as Hnd. rewrite inorder_plug in Hnd.
    destruct Hu as [-> | ->]; simpl in *.
    + rewrite (filter_out x _ (before k ++ inorder t) (after k)); [by_assoc|done|by_assoc].
    + by rewrite (filter_out x _ (before k) (inorder t ++ after k)).
  - intros w Hw. rewrite O2; [by apply O1|]. rewrite inorder_plug in *.
    rewrite (one_child_perm _ _ _ _ Hu) in Hw. simpl in Hw. rewrite <- Permutation_middle in Hw.
    rewrite not_elem_of_cons in Hw. tauto.
Qed.

(** *** The leftmost node of a subtree *)

Definition is_left (f : frame) : Prop := match f with InL _ _ _ => True | InR _ _ _ => False end.
Definition is_right (f : frame) : Prop := match f with InR _ _ _ => True | InL _ _ _ => False end.

Lemma left_spine t :
  t <> E -> exists kl c y r, t = plug kl (T c E y r) /\ Forall is_left kl.
Proof.
  induction t as [|c l IH a r _]; [done|]. intros _.
  destruct l as [|cl ll la lr]; [by exists [], c, a, r|].
  destruct IH as (kl & c' & y & r' & Et & Hl); [done|].
  exists (kl ++ [InL c a r]), c', y, r'. rewrite plug_app, <- Et. split; [done|].
  apply Forall_app. split; [done|by constructor].
Qed.

Lemma before_left kl : Forall is_left kl -> before kl = [].
Proof. induction 1 as [|[] ? Hf ? IH]; done. Qed.

Lemma spine_ne kl t : t <> E -> plug kl t <> E.
Proof. revert t. induction kl as [|[] kl IH]; intros t H; simpl; [done|by apply IH..]. Qed.

Lemma addr_spine kl t t' : kl <> [] -> addr (plug kl t) = addr (plug kl t').
Proof. by apply addr_plug. Qed.

Lemma addr_null s k t : tree_at s (plug k t) -> t <> E -> addr t <> NULL.
Proof. intros H Ht. destruct t; [done|]. by destruct (focus_node _ _ _ _ _ _ H). Qed.

Lemma leftmost_ok kl : forall fuel s k c y r,
  Forall is_left kl -> tree_at s (plug k (plug kl (T c E y r))) -> (length kl < fuel)%nat ->
  leftmost fuel s (addr (plug kl (T c E y r))) = Ok y.
Proof.
  induction kl as [|f kl IH] using rev_ind; intros fuel s k c y r Hl H Hfu;
    (destruct fuel as [|fuel]; [simpl in Hfu; rewrite ?length_app in Hfu; lia|]); cbn [leftmost].
  - simpl plug in *. facts H. reads. done.
  - apply Forall_app in Hl as [Hl Hf]. inversion Hf as [|? ? Hf1 _]; subst.
    destruct f as [c' x rr|]; [|done]. rewrite plug_app in *. simpl plug in *. facts H. reads.
    pose proof (addr_null s (InL c' x rr :: k) _ H (spine_ne kl (T c E y r) ltac:(done))). reads.
    apply (IH fuel s (InL c' x rr :: k)); [done|done|]. rewrite length_app in Hfu. simpl in Hfu. lia.
Qed.

(** The leftmost node [y], not at the top, is cut out of a subtree: the memory
    in which the holder of [y] points to the right child of [y]. *)
Definition cut (kl : list frame) (r : tree) (m : gmap Z qd_rb_node) : gmap Z qd_rb_node :=
  alter (with_left (addr r)) (holder kl) (parent_write r (holder kl) m).

Lemma cut_ne kl r m b : b <> holder kl -> b ∉ inorder r -> cut kl r m !! b = m !! b.
Proof. intros H1 H2. unfold cut. rewrite lookup_alter_ne by done. by apply parent_write_ne. Qed.

Lemma holder_spine kl f t : kl <> [] -> holder (kl ++ [f]) = holder kl /\ holder kl ∈ inorder (plug kl t).
Proof.
  intros H. rewrite inorder_plug. split; [by destruct kl|]. apply in_plug. right. by apply holder_in.
Qed.

Lemma rep_cut kl : forall m up c y r,
  kl <> [] -> Forall is_left kl -> rep m up (plug kl (T c E y r)) ->
  NoDup (inorder (plug kl (T c E y r))) -> rep (cut kl r m) up (plug kl r).
Proof.
  induction kl as [|f kl IH] using rev_ind; intros m up c y r Hne Hl Hr Hn; [done|].
  apply Forall_app in Hl as [Hl Hf]. inversion Hf as [|? ? Hf1 _]; subst.
  destruct f as [c' x rr|]; [|done]. rewrite plug_app in *. simpl plug in *.
  destruct Hr as (Hx & Hm & Hy & Hrr).
  destruct (decide (kl = [])) as [->|Hkl].
  - simpl in *. destruct Hy as (Hy0 & Hmy & _ & Hr). split_nodup Hn. unfold cut. simpl.
    split; [done|]. split; [|split].
    + rewrite lookup_alter_eq, parent_write_ne by apart. by rewrite Hm.
    + eapply rep_frame; [eapply rep_parent_write; [exact Hr|done|reflexivity]|].
      intros w Hw. apply lookup_alter_ne. apart.
    + eapply rep_frame; [exact Hrr|]. intros w Hw. rewrite lookup_alter_ne by apart.
      apply parent_write_ne. apart.
  - destruct (holder_spine kl (InL c' x rr) (T c E y r) Hkl) as [Eh Hh].
    assert (forall w, w ∈ inorder r -> w ∈ inorder (plug kl (T c E y r))) as Hsub.
    { intros w Hw. rewrite inorder_plug. simpl. in_solve. }
    unfold cut. rewrite Eh. fold (cut kl r m). split_nodup Hn.
    assert (forall w, w ∉ inorder (plug kl (T c E y r)) -> cut kl r m !! w = m !! w) as Hcut.
    { intros w Hw. apply cut_ne; [by intros ->|auto]. }
    split; [done|]. split; [|split].
    + rewrite Hcut by apart. rewrite Hm. by rewrite (addr_spine kl (T c E y r) r Hkl).
    + by eapply IH.
    + eapply rep_frame; [exact Hrr|]. intros w Hw. apply Hcut. apart.
Qed.

(** *** A node with two children *)

Lemma set_parent_ok s up t v :
  rep (mem s) up t -> t <> E ->
  set_parent s (addr t) v = Ok (mkRoot (parent_write t v (mem s)) (root s)).
Proof.
  intros Hr Ht. rewrite <- (set_parent_opt_ok s up t v Hr). unfold set_parent_opt.
  destruct t as [|c l a r]; [done|]. destruct Hr as [Ha _]. simpl.
  by rewrite (proj2 (Z.eqb_neq _ _) Ha).
Qed.

Lemma NoDup_without (a : loc) (l l1 l2 l' : list loc) :
  NoDup l -> l = l1 ++ a :: l2 -> l' = l1 ++ l2 -> NoDup l'.
Proof.
  intros Hn -> ->. rewrite NoDup_app, NoDup_cons in Hn. destruct Hn as (H1 & H2 & _ & H3).
  apply NoDup_app. split_and!; [done| |done]. intros w Hw Hi. eapply H2; [exact Hw|in_solve].
Qed.

(** The successor [y] takes the place of [a] when it is the right child of [a]. *)
Lemma erase_two_near fuel s k c l a cy y yr :
  (0 < fuel)%nat -> l <> E -> tree_at s (plug k (T c l a (T cy E y yr))) ->
  exists s1,
    erase_two fuel s a =
      (if cy =? QD_RB_BLACK then __qd_rb_erase_fixup fuel s1 (addr yr) y else Ok s1) /\
    tree_at s1 (plug k (T c l y yr)) /\ outside (inorder (plug k (T c l a (T cy E y yr)))) s s1.
Proof.
  intros Hfu Hl0 H.
  pose proof (leftmost_ok [] fuel s (InR c l a :: k) cy y yr (Forall_nil_2 _) H Hfu) as Hlm. simpl in Hlm.
  rewrite tree_at_focus in H. destruct H as ((Ha0 & Ha & Hl & (Hy0 & Hy & _ & Hyr)) & Hk & Hn).
  apply focus_nodup in Hn as Hn'. destruct Hn' as (Hkn & Htn & Hd).
  assert (a ∉ ctx_locs k) by (apply Hd; simpl; in_solve).
  assert (y ∉ ctx_locs k) by (apply Hd; simpl; in_solve).
  split_nodup Htn. assert (a <> y) by apart. assert (y ∉ inorder l) by apart.
  unfold erase_two. eexists. split; [|split].
  - reads. rewrite Hlm. reads. erewrite replace_child_ok; [|exact Hk|done..]. run.
    erewrite (set_parent_ok _ a l) by (done || kept). reads. done.
  - apply tree_at_focus. split; [|split].
    + simpl. repeat split; first [done|look|kept|moved].
    + simpl. ctx_kept.
    + eapply (NoDup_without a _ (before k ++ inorder l) (y :: inorder yr ++ after k)); [exact Hn|by_assoc..].
  - apply outside_plug. simpl. intros w Hw Hw'. unwritten.
Qed.

Lemma set_left_alter s p v :
  is_Some (mem s !! p) -> set_left s p v = Ok (mkRoot (alter (with_left v) p (mem s)) (root s)).
Proof.
  intros [n Hn]. unfold set_left. rewrite (wr_ok _ _ _ _ Hn). do 2 f_equal.
  apply map_eq. intros b. destruct (decide (b = p)) as [->|].
  - by rewrite lookup_insert_eq, lookup_alter_eq, Hn.
  - by rewrite lookup_insert_ne, lookup_alter_ne by done.
Qed.

(** The right subtree before and after [y] is cut out of it. *)
Lemma spine_facts kl cy y yr :
  let r := plug kl (T cy E y yr) in let r' := plug kl yr in
  kl <> [] -> Forall is_left kl ->
  inorder r = y :: inorder r' /\ addr r' = addr r /\ r' <> E /\ holder kl ∈ inorder r' /\
  (forall w, w ∈ inorder yr -> w ∈ inorder r') /\
  (forall m b, b ∉ inorder r' -> cut kl yr m !! b = m !! b).
Proof.
  intros r r' Hkl Hleft.
  assert (holder kl ∈ inorder r') as Hp by (by apply (holder_spine kl (InL 0 0 E))).
  assert (forall w, w ∈ inorder yr -> w ∈ inorder r') as Hsub.
  { intros w Hw. unfold r'. rewrite inorder_plug. in_solve. }
  split; [unfold r, r'; by rewrite !inorder_plug, (before_left kl Hleft)|].
  split; [by apply addr_spine|]. split; [intros Er; rewrite Er in Hp; by apply not_elem_of_nil in Hp|].
  split; [done|]. split; [done|]. intros m b Hb. apply cut_ne; [by intros ->|auto].
Qed.

Lemma spine_nodes s k c l a kl cy y yr :
  kl <> [] -> Forall is_left kl -> tree_at s (plug k (T c l a (plug kl (T cy E y yr)))) ->
  is_Some (mem s !! holder kl) /\ y <> NULL /\
  mem s !! y = Some (mkNode (holder kl) NULL (addr yr) cy) /\ rep (mem s) y yr.
Proof.
  intros Hkl Hleft H.
  assert (tree_at s (plug (kl ++ InR c l a :: k) (T cy E y yr))) as H' by (by rewrite plug_app).
  split; [|destruct kl; [done|]; rewrite tree_at_focus in H'; simpl in H'; tauto].
  destruct kl as [|[cp p pr|] kl]; [done| |by inversion Hleft].
  destruct (focus_node s (kl ++ InR c l a :: k) cp (T cy E y yr) p pr H') as [_ Hm]. simpl. eauto.
Qed.

Lemma parent_write_is_Some t v m b : is_Some (m !! b) -> is_Some (parent_write t v m !! b).
Proof.
  destruct t as [|c l a r]; simpl; [done|]. intros [n Hn]. destruct (decide (b = a)) as [->|].
  - rewrite lookup_alter_eq, Hn. by eexists.
  - rewrite lookup_alter_ne by done. eauto.
Qed.

(** The memory once [y] is cut out and the holder of [a] points to [y]. *)
Lemma far_memory s k c l a kl cy y yr :
  let r := plug kl (T cy E y yr) in let r' := plug kl yr in
  let M := cut kl yr (child_write k y (mem s)) in
  kl <> [] -> Forall is_left kl -> tree_at s (plug k (T c l a r)) ->
  M !! a = Some (mkNode (holder k) (addr l) (addr r) c) /\
  M !! y = Some (mkNode (holder kl) NULL (addr yr) cy) /\
  rep M a l /\ rep M a r' /\ rep_ctx M (root_write k y (root s)) k y /\
  (forall w, w ∉ inorder r' -> w ∉ ctx_locs k -> M !! w = mem s !! w).
Proof.
  intros r r' M Hkl Hleft H.
  destruct (spine_nodes _ _ _ _ _ _ _ _ _ Hkl Hleft H) as (_ & _ & Hy & _).
  destruct (spine_facts kl cy y yr Hkl Hleft) as (Er & _ & _ & _ & _ & Hcut).
  fold r r' in Er, Hcut. rewrite tree_at_focus in H. destruct H as ((Ha0 & Ha & Hl & Hr) & Hk & Hn).
  apply focus_nodup in Hn as (Hkn & Htn & Hd). simpl in Htn, Hd.
  assert (forall w, w ∉ inorder r' -> w ∉ ctx_locs k -> M !! w = mem s !! w) as HM.
  { intros w Hw Hw'. unfold M. rewrite Hcut by done. by apply child_write_ne. }
  assert (rep (child_write k y (mem s)) a r /\ NoDup (inorder r)) as [Hcr Hrn].
  { split; [|split_nodup Htn; done]. eapply rep_frame; [exact Hr|]. intros w Hw.
    apply child_write_ne, Hd. in_solve. }
  rewrite Er in Htn, Hd. split_nodup Htn.
  split; [rewrite HM; [done|apart|apply Hd; in_solve]|].
  split; [rewrite HM; [done|apart|apply Hd; in_solve]|].
  split; [eapply rep_frame; [exact Hl|]; intros w Hw; apply HM; [apart|apply Hd; in_solve]|].
  split; [by eapply rep_cut|]. split; [|done].
  eapply ctx_frame; [eapply ctx_retarget_write; [exact Hk|done|reflexivity]|].
  intros w Hw. apply Hcut. intros Hi. apply (Hd w); [in_solve|done].
Qed.

(** The same when it is deeper in the right subtree. *)
Lemma erase_two_far fuel s k c l a kl cy y yr :
  let r := plug kl (T cy E y yr) in
  (length kl < fuel)%nat -> l <> E -> kl <> [] -> Forall is_left kl ->
  tree_at s (plug k (T c l a r)) ->
  exists s1,
    erase_two fuel s a =
      (if cy =? QD_RB_BLACK then __qd_rb_erase_fixup fuel s1 (addr yr) (holder kl) else Ok s1) /\
    tree_at s1 (plug k (T c l y (plug kl yr))) /\ outside (inorder (plug k (T c l a r))) s s1.
Proof.
  intros r Hfu Hl0 Hkl Hleft H.
  pose proof (leftmost_ok kl fuel s (InR c l a :: k) cy y yr Hleft H Hfu) as Hlm. fold r in Hlm.
  destruct (far_memory _ _ _ _ _ _ _ _ _ Hkl Hleft H) as (HMa & HMy & HMl & HMr & HMk & HMo).
  destruct (spine_nodes _ _ _ _ _ _ _ _ _ Hkl Hleft H) as (Hp & Hy0 & Hy & Hyr).
  destruct (spine_facts kl cy y yr Hkl Hleft) as (Er & Ear & Hrne & Hpr & Hsub & _).
  fold r in Er, Ear, HMa. set (r' := plug kl yr) in *.
  set (M := cut kl yr (child_write k y (mem s))) in *.
  rewrite tree_at_focus in H. destruct H as ((Ha0 & Ha & Hl & Hr) & Hk & Hn).
  apply focus_nodup in Hn as Hn'. destruct Hn' as (Hkn & Htn & Hd). simpl in Htn, Hd.
  rewrite Er in Htn, Hd.
  assert (a ∉ ctx_locs k) by (apply Hd; in_solve). assert (y ∉ ctx_locs k) by (apply Hd; in_solve).
  split_nodup Htn. assert (a <> y) by apart. assert (y ∉ inorder l) by apart.
  assert (y ∉ inorder r') by apart. assert (a ∉ inorder r') by apart. assert (a ∉ inorder l) by apart.
  assert (holder kl <> a) by apart. assert (holder kl ∉ ctx_locs k) by (apply Hd; in_solve).
  unfold erase_two. eexists. split; [|split].
  - reads. rewrite Hlm. reads. erewrite replace_child_ok; [|exact Hk|done..]. reads.
    erewrite set_parent_opt_ok.
    2: { eapply rep_frame; [exact Hyr|]. intros w Hw. apply child_write_ne, Hd. apply Hsub in Hw. in_solve. }
    cbn [obind mem root].
    rewrite set_left_alter by (apply parent_write_is_Some; cbn [mem]; by rewrite child_write_ne).
    cbn [obind mem root]. fold (cut kl yr (child_write k y (mem s))). fold M. run.
    rewrite <- Ear. erewrite (set_parent_ok _ a r'); [|kept|done]. run.
    erewrite (set_parent_ok _ a l); [|kept|done]. reads. done.
  - apply tree_at_focus. split; [|split].
    + simpl. repeat split; first [done|look|kept|moved].
    + simpl. eapply ctx_frame; [exact HMk|]. intros w Hw. unwritten.
    + eapply (NoDup_without a _ (before k ++ inorder l) (y :: inorder r' ++ after k)); [exact Hn|..].
      * simpl. rewrite Er. by_assoc.
      * simpl. fold r'. by_assoc.
  - apply outside_plug. simpl. rewrite Er. intros w Hw Hw'. rewrite <- (HMo w) by (done || apart). unwritten.
Qed.

Lemma erase_two_splice fuel s k c l a kl cy y yr :
  let t0 := plug k (T c l a (plug kl (T cy E y yr))) in
  let k' := kl ++ InR c l y :: k in
  (length kl < fuel)%nat -> l <> E -> Forall is_left kl -> tree_at s t0 ->
  exists s1,
    erase_two fuel s a =
      (if cy =? QD_RB_BLACK then __qd_rb_erase_fixup fuel s1 (addr yr) (holder k') else Ok s1) /\
    tree_at s1 (plug k' yr) /\ outside (inorder t0) s s1.
Proof.
  intros t0 k' Hfu Hl Hleft H. subst t0 k'. rewrite plug_app. destruct (decide (kl = [])) as [->|Hkl].
  - by apply erase_two_near.
  - replace (holder (kl ++ InR c l y :: k)) with (holder kl) by (by destruct kl).
    by apply erase_two_far.
Qed.

Lemma rbk_rename n kl c l a y k :
  rbk n (kl ++ InR c l a :: k) -> rbk n (kl ++ InR c l y :: k).
Proof.
  revert n. induction kl as [|f kl IH]; intros n H; simpl in *.
  - inversion H; subst; by constructor.
  - assert (holder_color (kl ++ InR c l a :: k) = holder_color (kl ++ InR c l y :: k)) as Hc
      by (by destruct kl).
    inversion H; subst; constructor; auto; congruence.
Qed.

Lemma erase_two_ok fuel s k c l a r :
  let t0 := plug k (T c l a r) in
  (depth_bound t0 < fuel)%nat -> l <> E -> r <> E -> tree_at s t0 -> rb_tree t0 ->
  erased s t0 a (erase_two fuel s a).
Proof.
  intros t0 Hfu Hl Hr H Hrb. subst t0.
  destruct (left_spine r Hr) as (kl & cy & y & yr & -> & Hleft).
  assert (plug (kl ++ InR c l a :: k) (T cy E y yr) = plug k (T c l a (plug kl (T cy E y yr)))) as Ep
    by (by rewrite plug_app).
  assert (rb_tree (plug (kl ++ InR c l a :: k) (T cy E y yr))) as Hrb' by (by rewrite Ep).
  pose proof (rb_depth _ _ Hrb') as Hd. rewrite Ep, length_app in Hd. simpl in Hd.
  destruct (rb_unplug _ _ Hrb') as (n & Hk & Hn & Hc). apply (rbk_rename n kl c l a y k) in Hk.
  destruct (erase_two_splice fuel s k c l a kl cy y yr ltac:(lia) Hl Hleft H) as (s1 & E1 & H1 & O1).
  rewrite E1.
  destruct (rebalance_ok fuel s1 (kl ++ InR c l y :: k) n cy y yr (T cy E y yr))
    as (s2 & t2 & E2 & (H2 & I2 & O2) & Hrb2); [rewrite length_app; simpl; lia|by right|done|done| |done|].
  { intros Hh. apply Hc. rewrite <- Hh. by destruct kl. }
  assert (inorder (plug (kl ++ InR c l y :: k) yr) =
          filter (fun b => b <> a) (inorder (plug k (T c l a (plug kl (T cy E y yr)))))) as Ei.
  { rewrite (filter_out a _ (before k ++ inorder l) (y :: inorder (plug kl yr) ++ after k)).
    - rewrite plug_app, inorder_plug. simpl. by_assoc.
    - apply H.
    - rewrite !inorder_plug. simpl. rewrite !inorder_plug, (before_left kl Hleft). by_assoc. }
  exists s2, t2. split; [done|]. split; [done|]. split; [done|]. split; [by rewrite I2|].
  intros w Hw. rewrite O2; [by apply O1|]. rewrite Ei. rewrite list_elem_of_filter. tauto.
Qed.

Lemma focus_in t x : x ∈ inorder t -> exists k c l r, t = plug k (T c l x r).
Proof.
  induction t as [|c l IHl a r IHr]; simpl; [by intros ?%not_elem_of_nil|].
  intros [Hi|[->|Hi]%elem_of_cons]%elem_of_app.
  - destruct (IHl Hi) as (k & c' & l' & r' & ->). exists (k ++ [InL c a r]), c', l', r'. by rewrite plug_app.
  - by exists [], c, l, r.
  - destruct (IHr Hi) as (k & c' & l' & r' & ->). exists (k ++ [InR c l a]), c', l', r'. by rewrite plug_app.
Qed.

(** ** Traversal *)

Lemma right_spine t :
  t <> E -> exists kr c l y, t = plug kr (T c l y E) /\ Forall is_right kr.
Proof.
  induction t as [|c l _ a r IH]; [done|]. intros _.
  destruct r as [|cr rl ra rr]; [by exists [], c, l, a|].
  destruct IH as (kr & c' & l' & y & Et & Hr); [done|].
  exists (kr ++ [InR c l a]), c', l', y. rewrite plug_app, <- Et. split; [done|].
  apply Forall_app. split; [done|by constructor].
Qed.

Lemma after_right kr : Forall is_right kr -> after kr = [].
Proof. induction 1 as [|[] ? Hf ? IH]; done. Qed.

Lemma rightmost_ok kr : forall fuel s k c l y,
  Forall is_right kr -> tree_at s (plug k (plug kr (T c l y E))) -> (length kr < fuel)%nat ->
  rightmost fuel s (addr (plug kr (T c l y E))) = Ok y.
Proof.
  induction kr as [|f kr IH] using rev_ind; intros fuel s k c l y Hr H Hfu;
    (destruct fuel as [|fuel]; [simpl in Hfu; rewrite ?length_app in Hfu; lia|]); cbn [rightmost].
  - simpl plug in *. facts H. reads. done.
  - apply Forall_app in Hr as [Hr Hf]. inversion Hf as [|? ? Hf1 _]; subst.
    destruct f as [|c' ll x]; [done|]. rewrite plug_app in *. simpl plug in *. facts H. reads.
    pose proof (addr_null s (InR c' ll x :: k) _ H (spine_ne kr (T c l y E) ltac:(done))). reads.
    apply (IH fuel s (InR c' ll x :: k)); [done|done|]. rewrite length_app in Hfu. simpl in Hfu. lia.
Qed.

Section traversal.
Context (fuel : nat) (s : qd_rb_root) (t0 : tree).
Context (Hat : tree_at s t0) (Hrb : rb_tree t0) (Hfuel : (depth_bound t0 < fuel)%nat).

Lemma spine_depth k kl t : t0 = plug k (plug kl t) -> (length kl + length k < fuel)%nat.
Proof.
  intros E1. rewrite <- plug_app in E1. pose proof (rb_depth (kl ++ k) t) as Hd.
  rewrite <- E1, length_app in Hd. specialize (Hd Hrb). lia.
Qed.

Lemma leftmost_first k t : t0 = plug k t -> t <> E -> leftmost fuel s (addr t) = Ok (hd NULL (inorder t)).
Proof.
  intros E1 Ht. destruct (left_spine t Ht) as (kl & c & y & r & -> & Hl).
  rewrite (leftmost_ok kl fuel s k); [|done|by rewrite <- E1|pose proof (spine_depth _ _ _ E1); lia].
  by rewrite inorder_plug, (before_left kl Hl).
Qed.

Lemma rightmost_last k t : t0 = plug k t -> t <> E -> rightmost fuel s (addr t) = Ok (List.last (inorder t) NULL).
Proof.
  intros E1 Ht. destruct (right_spine t Ht) as (kr & c & l & y & -> & Hr).
  rewrite (rightmost_ok kr fuel s k); [|done|by rewrite <- E1|pose proof (spine_depth _ _ _ E1); lia].
  rewrite inorder_plug, (after_right kr Hr). simpl. rewrite app_nil_r, (assoc_L (++)).
  by rewrite List.last_last.
Qed.

Lemma climb_right_ok k : forall n t,
  tree_at s (plug k t) -> t <> E -> (length k < n)%nat -> climb_right n s (addr t) = Ok (hd NULL (after k)).
Proof.
  induction k as [|f k IH]; intros n t H Ht Hn; (destruct n as [|n]; [simpl in Hn; lia|]);
    destruct t as [|c l a r]; try done; cbn [climb_right].
  - facts H. reads. done.
  - facts H. destruct f as [fc p u|fc u p]; simpl plug in H.
    + pose proof (siblings_ne s k _ _ _ _ H ltac:(by left)). simpl in *. facts H. reads. done.
    + facts H. reads. apply (IH n (T fc u p (T c l a r))); [done|done|]. simpl in Hn. lia.
Qed.

Lemma climb_left_ok k : forall n t,
  tree_at s (plug k t) -> t <> E -> (length k < n)%nat -> climb_left n s (addr t) = Ok (List.last (before k) NULL).
Proof.
  induction k as [|f k IH]; intros n t H Ht Hn; (destruct n as [|n]; [simpl in Hn; lia|]);
    destruct t as [|c l a r]; try done; cbn [climb_left].
  - facts H. reads. done.
  - facts H. destruct f as [fc p u|fc u p]; simpl plug in H.
    + facts H. reads. apply (IH n (T fc (T c l a r) p u)); [done|done|]. simpl in Hn. lia.
    + pose proof (siblings_ne s k _ _ _ _ H ltac:(by right)). simpl in *. facts H. reads.
      by rewrite (assoc_L (++)), List.last_last.
Qed.

Lemma split_unique (x : loc) (l l1 l2 l1' l2' : list loc) :
  NoDup l -> l = l1 ++ x :: l2 -> l = l1' ++ x :: l2' -> l1 = l1' /\ l2 = l2'.
Proof.
  intros Hn -> E1. revert l1' E1. induction l1 as [|a l1 IH]; intros [|b l1'] E1; simpl in *.
  - by injection E1.
  - injection E1 as -> ->. split_nodup Hn. exfalso. apart.
  - injection E1 as -> <-. split_nodup Hn. exfalso. apart.
  - injection E1 as -> E1. apply NoDup_cons in Hn as [_ Hn]. destruct (IH Hn _ E1) as [-> ->]. done.
Qed.

(** The neighbours of a node in the in-order sequence. *)
Lemma next_ok x l1 l2 : inorder t0 = l1 ++ x :: l2 -> qd_rb_next fuel s x = Ok (hd NULL l2).
Proof.
  intros Ei. destruct (focus_in t0 x) as (k & c & l & r & E1); [rewrite Ei; in_solve|].
  destruct (split_unique x (inorder t0) l1 l2 (before k ++ inorder l) (inorder r ++ after k)) as [_ ->];
    [apply Hat|done|rewrite E1, inorder_plug; by_assoc|].
  pose proof (spine_depth k [] (T c l x r) E1) as Hd. simpl in Hd.
  pose proof Hat as H. rewrite E1 in H. unfold qd_rb_next. facts H. reads.
  destruct r as [|cr rl ra rr]; simpl addr.
  - reads. by apply (climb_right_ok k fuel (T c l x E)).
  - pose proof (addr_null s (InR c l x :: k) (T cr rl ra rr) H ltac:(done)) as Hra. simpl in Hra. reads.
    etrans; [exact (leftmost_first (InR c l x :: k) (T cr rl ra rr) E1 ltac:(done))|]. simpl.
    by destruct (inorder rl).
Qed.

Lemma prev_ok x l1 l2 : inorder t0 = l1 ++ x :: l2 -> qd_rb_prev fuel s x = Ok (List.last l1 NULL).
Proof.
  intros Ei. destruct (focus_in t0 x) as (k & c & l & r & E1); [rewrite Ei; in_solve|].
  destruct (split_unique x (inorder t0) l1 l2 (before k ++ inorder l) (inorder r ++ after k)) as [-> _];
    [apply Hat|done|rewrite E1, inorder_plug; by_assoc|].
  pose proof (spine_depth k [] (T c l x r) E1) as Hd. simpl in Hd.
  pose proof Hat as H. rewrite E1 in H. unfold qd_rb_prev. facts H. reads.
  destruct l as [|cl ll la lr]; simpl addr.
  - reads. simpl. rewrite app_nil_r. by apply (climb_left_ok k fuel (T c E x r)).
  - pose proof (addr_null s (InL c x r :: k) (T cl ll la lr) H ltac:(done)) as Hla. simpl in Hla. reads.
    etrans; [exact (rightmost_last (InL c x r :: k) (T cl ll la lr) E1 ltac:(done))|]. simpl. f_equal.
    generalize (inorder lr). intros q. induction q as [|b q _] using rev_ind; rewrite ?app_comm_cons, ?(assoc_L (++)), !List.last_last; done.
Qed.

Lemma empty_or_not (t : tree) : t = E \/ t <> E.
Proof. destruct t; auto. Qed.

Lemma first_ok : qd_rb_first fuel s = Ok (hd NULL (inorder t0)).
Proof.
  unfold qd_rb_first. rewrite (proj1 Hat). destruct (empty_or_not t0) as [E1|E1]; [by rewrite E1|].
  rewrite (proj2 (Z.eqb_neq _ _) (addr_null s [] t0 Hat E1)). by apply (leftmost_first []).
Qed.

Lemma last_ok : qd_rb_last fuel s = Ok (List.last (inorder t0) NULL).
Proof.
  unfold qd_rb_last. rewrite (proj1 Hat). destruct (empty_or_not t0) as [E1|E1]; [by rewrite E1|].
  rewrite (proj2 (Z.eqb_neq _ _) (addr_null s [] t0 Hat E1)). by apply (rightmost_last []).
Qed.

Lemma visit_ok l2 : forall steps l1,
  inorder t0 = l1 ++ l2 -> (length l2 < steps)%nat -> visit steps fuel s (hd NULL l2) = Ok l2.
Proof.
  induction l2 as [|x l2 IH]; intros steps l1 Ei Hs; (destruct steps as [|steps]; [lia|]); cbn [visit hd].
  - done.
  - assert (x <> NULL) as Hx.
    { destruct (focus_in t0 x) as (k & c & l & r & E1); [rewrite Ei; in_solve|].
      pose proof Hat as H. rewrite E1 in H. by destruct (focus_node _ _ _ _ _ _ H). }
    rewrite (proj2 (Z.eqb_neq _ _) Hx). rewrite (next_ok x l1 l2) by done. cbn [obind].
    rewrite (IH steps (l1 ++ [x])); [done|rewrite Ei; by_assoc|simpl in Hs; lia].
Qed.
End traversal.

(** ** Replacement *)

Lemma replace_node_ok s k c l old r new :
  tree_at s (plug k (T c l old r)) -> is_Some (mem s !! new) -> new <> NULL ->
  new ∉ inorder (plug k (T c l old r)) ->
  exists s', qd_rb_replace_node s old new = Ok s' /\ tree_at s' (plug k (T c l new r)).
Proof.
  intros H [nd Hnew] Hnew0 Hn0. rewrite inorder_plug in Hn0. rewrite tree_at_focus in H.
  destruct H as ((Ho0 & Ho & Hl & Hr) & Hk & Hn).
  apply focus_nodup in Hn as Hn'. destruct Hn' as (Hkn & Htn & Hd).
  assert (new ∉ ctx_locs k) as Hnk by (intros Hi; apply Hn0, in_plug; auto).
  assert (new ∉ inorder l) as Hnl by (intros Hi; apply Hn0; simpl; in_solve).
  assert (new ∉ inorder r) as Hnr by (intros Hi; apply Hn0; simpl; in_solve).
  assert (new <> old) as Hno by (intros ->; apply Hn0; simpl; in_solve).
  assert (old ∉ ctx_locs k) by (apply Hd; simpl; in_solve).
  assert (NoDup (before k ++ inorder (T c l new r) ++ after k)) as Hnd.
  { clear - Hn Hn0. simpl in *. repeat rewrite NoDup_app in *. rewrite NoDup_cons in *. set_solver. }
  split_nodup Htn. assert (old ∉ inorder l) by apart. assert (old ∉ inorder r) by apart.
  unfold qd_rb_replace_node. eexists. split; [|].
  - reads. erewrite relink_left_ok; [|exact Hk|done..]. reads.
    erewrite set_parent_opt_ok by kept. reads. erewrite set_parent_opt_ok by kept. run. done.
  - apply tree_at_focus. split; [|split; [|exact Hnd]].
    + simpl. repeat split; first [done|look|kept|moved].
    + simpl. ctx_kept.
Qed.

(** ** The theorems *)

(** C15: Insertion.  Take a red-black tree in memory with an empty link (the hole
    of [k]), and a node [x] outside of the tree.  [qd_rb_link_node] with the
    parent and the link of the hole, then [qd_rb_insert_fixup], return without an
    invalid access after at most [2 log2 (n+1)] iterations; the memory then holds
    a red-black tree whose in-order sequence is the old one with [x] at the place
    of the link, and no memory but that of the tree and of [x] has changed. *)
Theorem rb_insert_correct fuel s k x :
  (depth_bound (plug k E) < fuel)%nat ->
  tree_at s (plug k E) -> rb_tree (plug k E) ->
  is_Some (mem s !! x) -> x <> NULL -> x ∉ inorder (plug k E) ->
  exists s' t',
    (let! s := qd_rb_link_node s x (holder k) (link_of k) in qd_rb_insert_fixup fuel s x) = Ok s' /\
    tree_at s' t' /\ rb_tree t' /\ inorder t' = before k ++ x :: after k /\
    outside (x :: inorder (plug k E)) s s'.
Proof.
  intros Hfu H Hrb Hx Hx0 Hxk. pose proof (rb_depth _ _ Hrb) as Hd.
  destruct (rb_unplug _ _ Hrb) as (n & Hk & Hn & _).
  destruct (link_node_ok s k x H Hx Hx0 Hxk) as (s1 & E1 & H1 & O1). rewrite E1. cbn [obind].
  destruct (insert_fixup_ok fuel s1 k n x ltac:(lia) H1 Hk Hn) as (s2 & t2 & E2 & (H2 & I2 & O2) & Hrb2).
  exists s2, t2. split; [done|]. split; [done|]. split; [done|]. rewrite inorder_plug in I2. split; [done|].
  intros w Hw. rewrite O2; [by apply O1|].
  rewrite inorder_plug in *. simpl in *. intros Hi. apply Hw.
  repeat (apply elem_of_app in Hi as [Hi|Hi] || apply elem_of_cons in Hi as [->|Hi]); in_solve.
Qed.

(** C16: Erasure.  [qd_rb_erase] of any node of a red-black tree returns without an
    invalid access; the memory then holds a red-black tree whose in-order sequence
    is the old one without that node, and nothing outside of the tree changed. *)
Theorem rb_erase_correct fuel s t x :
  (depth_bound t < fuel)%nat -> tree_at s t -> rb_tree t -> x ∈ inorder t ->
  exists s' t', qd_rb_erase fuel s x = Ok s' /\ tree_at s' t' /\ rb_tree t' /\
    inorder t' = filter (fun b => b <> x) (inorder t) /\ outside (inorder t) s s'.
Proof.
  intros Hfu H Hrb Hx. change (erased s t x (qd_rb_erase fuel s x)). destruct (focus_in t x Hx) as (k & c & l & r & ->).
  unfold qd_rb_erase. facts H. reads.
  destruct l as [|cl ll la lr]; simpl addr; reads.
  { apply (erase_one_ok fuel s k c x r (T c E x r)); [done|by right|done..]. }
  pose proof (addr_null s (InL c x r :: k) (T cl ll la lr) H ltac:(done)) as Hla. simpl in Hla. reads.
  destruct r as [|cr rl ra rr]; simpl addr; reads.
  { apply (erase_one_ok fuel s k c x (T cl ll la lr) (T c (T cl ll la lr) x E)); [done|by left|done..]. }
  pose proof (addr_null s (InR c (T cl ll la lr) x :: k) (T cr rl ra rr) H ltac:(done)) as Hra. simpl in Hra. reads.
  by apply erase_two_ok.
Qed.

(** C17: Traversal.  On a red-black tree in memory, [qd_rb_for_each] visits the
    nodes in order and ends; [qd_rb_first] and [qd_rb_last] are the ends of the
    sequence, and [qd_rb_next] and [qd_rb_prev] its neighbours. *)
Theorem rb_traversal fuel steps s t :
  tree_at s t -> rb_tree t -> (depth_bound t < fuel)%nat -> (size t < steps)%nat ->
  qd_rb_for_each steps fuel s = Ok (inorder t) /\
  qd_rb_first fuel s = Ok (hd NULL (inorder t)) /\
  qd_rb_last fuel s = Ok (List.last (inorder t) NULL) /\
  forall l1 x l2, inorder t = l1 ++ x :: l2 ->
    qd_rb_next fuel s x = Ok (hd NULL l2) /\ qd_rb_prev fuel s x = Ok (List.last l1 NULL).
Proof.
  intros H Hrb Hf Hs. pose proof (first_ok fuel s t H Hrb Hf) as Hfirst.
  split; [|split; [done|split; [by apply last_ok|]]].
  - unfold qd_rb_for_each. rewrite Hfirst. cbn [obind]. by apply (visit_ok fuel s t H Hrb Hf (inorder t) steps []).
  - intros l1 x l2 Ei. split; [by eapply next_ok|by eapply prev_ok].
Qed.

(** ** Examples *)

Definition demo_mem : gmap Z qd_rb_node :=
  <[8 := mkNode 0 0 16 QD_RB_BLACK]> (<[16 := mkNode 8 0 0 QD_RB_RED]> (<[24 := mkNode 0 0 0 7]> ∅)).
Definition demo_tree : tree := T QD_RB_BLACK E 8 (T QD_RB_RED E 16 E).
Definition demo_hole : list frame := [InR QD_RB_RED E 16; InR QD_RB_BLACK E 8].

(** Inserting 24 rotates; erasing 16 splices its successor in. *)
Example demo_run :
  (let! s := qd_rb_link_node (mkRoot demo_mem 8) 24 16 (LinkRight 16) in
   let! s := qd_rb_insert_fixup 5 s 24 in
   let! l := qd_rb_for_each 5 5 s in
   let! s := qd_rb_erase 5 s 16 in
   let! l' := qd_rb_for_each 5 5 s in
   Ok (l, l', root s)) = Ok ([8; 16; 24], [8; 24], 24).
Proof. vm_compute. done. Qed.

Lemma demo_tree_at : tree_at (mkRoot demo_mem 8) demo_tree.
Proof.
  split; [done|]. split; [repeat split; done|]. simpl.
  apply NoDup_cons. split; [|apply NoDup_singleton]. rewrite list_elem_of_singleton. done.
Qed.

Lemma demo_rb : rb_tree demo_tree.
Proof. split; [done|]. exists 1%nat. repeat constructor. Qed.

Lemma rb_insert_correct_witness :
  exists s' t',
    (let! s := qd_rb_link_node (mkRoot demo_mem 8) 24 16 (LinkRight 16) in
     qd_rb_insert_fixup 5 s 24) = Ok s' /\
    tree_at s' t' /\ rb_tree t' /\ inorder t' = [8; 16; 24] /\
    outside (24 :: inorder demo_tree) (mkRoot demo_mem 8) s'.
Proof.
  apply (rb_insert_correct 5 (mkRoot demo_mem 8) demo_hole 24).
  - vm_compute. lia.
  - exact demo_tree_at.
  - exact demo_rb.
  - by eexists.
  - done.
  - simpl. rewrite !not_elem_of_cons. split; [done|]. split; [done|apply not_elem_of_nil].
Defined.

Lemma rb_erase_correct_witness :
  exists s' t', qd_rb_erase 5 (mkRoot demo_mem 8) 8 = Ok s' /\ tree_at s' t' /\ rb_tree t' /\
    inorder t' = filter (fun b => b <> 8) (inorder demo_tree) /\
    outside (inorder demo_tree) (mkRoot demo_mem 8) s'.
Proof.
  apply (rb_erase_correct 5 (mkRoot demo_mem 8) demo_tree 8).
  - vm_compute. lia.
  - exact demo_tree_at.
  - exact demo_rb.
  - simpl. apply elem_of_cons. by left.
Defined.

Lemma rb_traversal_witness : qd_rb_for_each 5 5 (mkRoot demo_mem 8) = Ok [8; 16].
Proof.
  apply (rb_traversal 5 5 (mkRoot demo_mem 8) demo_tree).
  - exact demo_tree_at.
  - exact demo_rb.
  - vm_compute. lia.
  - vm_compute. lia.
Defined.
