(* ===== verification/Eval.v ===== *)
(** * src/cint/qd_cint_eval.c and qd_cint.c: the tree-walking evaluator

    The state of the evaluator, with the memory it shares: variables are cells with
    their own identity (the C code keeps pointers to them), strings are blocks that
    are allocated and freed (a use of a freed block is [Undef]), and a function value
    points into the syntax tree it was declared in, which the entry points free.
    Signed overflow, a shift out of range and a float that does not fit are [Undef].

    A double is an IEEE 754 number of the Standard Library's [SpecFloat]; the
    conversions between text and double ([strtod], printf's "%g" and "%p") and the native
    functions are parameters. *)

From S2P Require Import Prelude CString Lexer Parser.
From Stdlib Require Import SpecFloat.

(** ** Values *)

Inductive qd_cint_val_type :=
| VT_VOID | VT_INT | VT_FLOAT | VT_STRING | VT_CHAR | VT_PTR | VT_FUNC | VT_NATIVE.

(** A string is the address of its block; a function is its declaration and the
    number of the tree that owns it. *)
Inductive qd_cint_value :=
| VAL_VOID
| VAL_INT (i : Z)
| VAL_FLOAT (f : spec_float)
| VAL_STRING (s : Z)
| VAL_CHAR (c : Z)
| VAL_PTR (ptr : Z)
| VAL_FUNC (tree : Z) (decl : qd_cint_ast)
| VAL_NATIVE.

Inductive qd_cint_flow := FLOW_NORMAL | FLOW_RETURN | FLOW_BREAK | FLOW_CONTINUE.

#[global] Instance flow_eq_dec : EqDecision qd_cint_flow.
Proof. solve_decision. Defined.

Record native_entry := mkNative { n_name : cstr; n_fptr : Z; n_num_args : Z; n_ret_type : qd_cint_val_type }.

(** A scope is the list of its variables, the newest first: names and cells. *)
Abbreviation scope := (list (cstr * Z)).

(** [local_scope] is the scope of the running function, when [current_scope] is not
    the global one; [strs] holds the live string blocks, [freed] the numbers of the
    freed trees, [out] what was printed. *)
Record qd_cint_eval := mkEval {
  global_scope : scope;
  local_scope : option scope;
  vals : gmap Z qd_cint_value;
  next_var : Z;
  strs : gmap Z cstr;
  next_str : Z;
  return_value : qd_cint_value;
  flow : qd_cint_flow;
  ev_error : option cstr;
  ev_error_line : Z;
  natives : list native_entry;
  freed : list Z;
  out : cstr
}.

Definition with_global s e := mkEval s (local_scope e) (vals e) (next_var e) (strs e) (next_str e) (return_value e) (flow e) (ev_error e) (ev_error_line e) (natives e) (freed e) (out e).
Definition with_local s e := mkEval (global_scope e) s (vals e) (next_var e) (strs e) (next_str e) (return_value e) (flow e) (ev_error e) (ev_error_line e) (natives e) (freed e) (out e).
Definition with_vals v n e := mkEval (global_scope e) (local_scope e) v n (strs e) (next_str e) (return_value e) (flow e) (ev_error e) (ev_error_line e) (natives e) (freed e) (out e).
Definition with_strs s n e := mkEval (global_scope e) (local_scope e) (vals e) (next_var e) s n (return_value e) (flow e) (ev_error e) (ev_error_line e) (natives e) (freed e) (out e).
Definition with_return v e := mkEval (global_scope e) (local_scope e) (vals e) (next_var e) (strs e) (next_str e) v (flow e) (ev_error e) (ev_error_line e) (natives e) (freed e) (out e).
Definition with_flow f e := mkEval (global_scope e) (local_scope e) (vals e) (next_var e) (strs e) (next_str e) (return_value e) f (ev_error e) (ev_error_line e) (natives e) (freed e) (out e).
Definition with_error m l e := mkEval (global_scope e) (local_scope e) (vals e) (next_var e) (strs e) (next_str e) (return_value e) (flow e) m l (natives e) (freed e) (out e).
Definition with_natives n e := mkEval (global_scope e) (local_scope e) (vals e) (next_var e) (strs e) (next_str e) (return_value e) (flow e) (ev_error e) (ev_error_line e) n (freed e) (out e).
Definition with_freed f e := mkEval (global_scope e) (local_scope e) (vals e) (next_var e) (strs e) (next_str e) (return_value e) (flow e) (ev_error e) (ev_error_line e) (natives e) f (out e).
Definition with_out o e := mkEval (global_scope e) (local_scope e) (vals e) (next_var e) (strs e) (next_str e) (return_value e) (flow e) (ev_error e) (ev_error_line e) (natives e) (freed e) o.

(** Code that changes the evaluator. *)
Definition ev (A : Type) : Type := qd_cint_eval -> outcome (A * qd_cint_eval).
Definition done {A} (a : A) : ev A := fun e => Ok (a, e).
Definition ebind {A B} (m : ev A) (k : A -> ev B) : ev B := fun e => let! (a, e) := m e in k a e.
Definition wrong {A} : ev A := fun _ => Undef.
Definition exhausted {A} : ev A := fun _ => Fuel.
Definition elift {A} (o : outcome A) : ev A := fun e => let! a := o in Ok (a, e).
Definition modify (f : qd_cint_eval -> qd_cint_eval) : ev unit := fun e => Ok (tt, f e).
Definition gets {A} (f : qd_cint_eval -> A) : ev A := fun e => Ok (f e, e).

Notation "'do!' x := m 'in' k" := (ebind m (fun x => k))
  (at level 10, x pattern, m at level 100, k at level 200) : qd_scope.

(** ** Strings in memory *)

Definition alloc_string (s : cstr) : ev qd_cint_value := fun e =>
  Ok (VAL_STRING (next_str e), with_strs (<[next_str e := s]> (strs e)) (next_str e + 1) e).

Definition read_string (p : Z) : ev cstr := fun e =>
  match strs e !! p with Some s => Ok (s, e) | None => Undef end.

Definition free_string (p : Z) : ev unit := fun e =>
  match strs e !! p with Some _ => Ok (tt, with_strs (delete p (strs e)) (next_str e) e) | None => Undef end.

Definition qd_cint_val_free (v : qd_cint_value) : ev unit :=
  match v with VAL_STRING p => free_string p | _ => done tt end.

(** ** Scopes *)

Definition find_in (s : scope) (name : cstr) : option Z :=
  match List.find (fun v => bool_decide (v.1 = name)) s with Some (_, x) => Some x | None => None end.

Definition scope_find (e : qd_cint_eval) (name : cstr) : option Z :=
  match local_scope e with
  | Some s => match find_in s name with Some x => Some x | None => find_in (global_scope e) name end
  | None => find_in (global_scope e) name
  end.

(** A new variable of the current scope; calloc makes its value void. *)
Definition scope_define (name : cstr) : ev Z := fun e =>
  let x := next_var e in
  let e := with_vals (<[x := VAL_VOID]> (vals e)) (x + 1) e in
  Ok (x, match local_scope e with
         | Some s => with_local (Some ((name, x) :: s)) e
         | None => with_global ((name, x) :: global_scope e) e
         end).

Definition get_var (x : Z) : ev qd_cint_value := fun e =>
  match vals e !! x with Some v => Ok (v, e) | None => Undef end.

Definition set_var (x : Z) (v : qd_cint_value) : ev unit := fun e =>
  match vals e !! x with Some _ => Ok (tt, with_vals (<[x := v]> (vals e)) (next_var e) e) | None => Undef end.

Fixpoint scope_destroy (s : scope) : ev unit :=
  match s with
  | [] => done tt
  | (_, x) :: s =>
    do! v := get_var x in
    do! _ := qd_cint_val_free v in
    do! _ := modify (fun e => with_vals (delete x (vals e)) (next_var e) e) in
    scope_destroy s
  end.

(** The message is formatted into an array of 256 bytes. *)
Definition eval_error (line : Z) (msg : cstr) : ev unit :=
  modify (with_error (Some (take 255 (("Runtime error at line "%string : cstr) ++ print_lld line ++ (": "%string : cstr) ++ msg))) line).

(** ** Conversions *)

Definition in_i64 (z : Z) : bool := (- 2 ^ 63 <=? z) && (z <? 2 ^ 63).

(** A signed result: overflow is undefined. *)
Definition i64_result (z : Z) : outcome Z := if in_i64 z then Ok z else Undef.

(** (int64_t)f and (double)i. *)
Definition float_to_int (f : spec_float) : outcome Z :=
  match f with
  | S754_zero _ => Ok 0
  | S754_finite s m x =>
    let a := if 0 <=? x then Z.pos m * 2 ^ x else Z.pos m / 2 ^ (- x) in
    i64_result (if s then - a else a)
  | S754_infinity _ | S754_nan => Undef
  end.
Definition int_to_float (i : Z) : spec_float := binary_normalize 53 1024 i 0 false.

(** char is signed. *)
Definition char_to_int (c : Z) : Z := signed 8 c.

Definition qd_cint_val_to_int (v : qd_cint_value) : outcome Z :=
  match v with
  | VAL_INT i => Ok i
  | VAL_FLOAT f => float_to_int f
  | VAL_CHAR c => Ok (char_to_int c)
  | _ => Ok 0
  end.

Definition qd_cint_val_to_float (v : qd_cint_value) : spec_float :=
  match v with
  | VAL_INT i => int_to_float i
  | VAL_FLOAT f => f
  | VAL_CHAR c => int_to_float (char_to_int c)
  | _ => S754_zero false
  end.

Definition qd_cint_val_to_bool (v : qd_cint_value) : ev bool :=
  match v with
  | VAL_INT i => done (negb (i =? 0))
  | VAL_FLOAT f => done (negb (SFeqb f (S754_zero false)))
  | VAL_CHAR c => done (negb (char_to_int c =? 0))
  | VAL_STRING p => do! s := read_string p in done (match s with c :: _ => negb (c =? 0) | [] => false end)
  | VAL_PTR p => done (negb (p =? 0))
  | _ => done false
  end.

(** ** Operators *)

Definition bool_int (b : bool) : outcome qd_cint_value := Ok (VAL_INT (Z.b2z b)).
Definition int_result (z : Z) : outcome qd_cint_value := let! z := i64_result z in Ok (VAL_INT z).

Definition shift_left (l r : Z) : outcome Z :=
  if (0 <=? r) && (r <? 64) && (0 <=? l) then i64_result (Z.shiftl l r) else Undef.
Definition shift_right (l r : Z) : outcome Z :=
  if (0 <=? r) && (r <? 64) then Ok (Z.shiftr l r) else Undef.
Definition int_rem (l r : Z) : outcome Z :=
  if (l =? - 2 ^ 63) && (r =? -1) then Undef else Ok (Z.rem l r).

(** The second halves of [eval_binop]. *)
Definition binop_float (op : qd_cint_binop) (l r : spec_float) : outcome qd_cint_value :=
  match op with
  | OP_ADD => Ok (VAL_FLOAT (SFadd 53 1024 l r))
  | OP_SUB => Ok (VAL_FLOAT (SFsub 53 1024 l r))
  | OP_MUL => Ok (VAL_FLOAT (SFmul 53 1024 l r))
  | OP_DIV => Ok (VAL_FLOAT (SFdiv 53 1024 l r))
  | OP_EQ => bool_int (SFeqb l r)
  | OP_NE => bool_int (negb (SFeqb l r))
  | OP_LT => bool_int (SFltb l r)
  | OP_GT => bool_int (SFltb r l)
  | OP_LE => bool_int (SFleb l r)
  | OP_GE => bool_int (SFleb r l)
  | _ => Ok VAL_VOID
  end.

Definition binop_int (op : qd_cint_binop) (l r : Z) : outcome qd_cint_value :=
  match op with
  | OP_ADD => int_result (l + r)
  | OP_SUB => int_result (l - r)
  | OP_MUL => int_result (l * r)
  | OP_DIV => int_result (if r =? 0 then 0 else Z.quot l r)
  | OP_MOD => if r =? 0 then Ok (VAL_INT 0) else let! z := int_rem l r in Ok (VAL_INT z)
  | OP_EQ => bool_int (l =? r)
  | OP_NE => bool_int (negb (l =? r))
  | OP_LT => bool_int (l <? r)
  | OP_GT => bool_int (r <? l)
  | OP_LE => bool_int (l <=? r)
  | OP_GE => bool_int (r <=? l)
  | OP_AND => bool_int (negb (l =? 0) && negb (r =? 0))
  | OP_OR => bool_int (negb (l =? 0) || negb (r =? 0))
  | OP_BAND => Ok (VAL_INT (Z.land l r))
  | OP_BOR => Ok (VAL_INT (Z.lor l r))
  | OP_BXOR => Ok (VAL_INT (Z.lxor l r))
  | OP_LSHIFT => let! z := shift_left l r in Ok (VAL_INT z)
  | OP_RSHIFT => let! z := shift_right l r in Ok (VAL_INT z)
  | _ => Ok VAL_VOID
  end.

Definition is_float (v : qd_cint_value) : bool := match v with VAL_FLOAT _ => true | _ => false end.

Definition binop_values (op : qd_cint_binop) (l r : qd_cint_value) : outcome qd_cint_value :=
  if is_float l || is_float r then binop_float op (qd_cint_val_to_float l) (qd_cint_val_to_float r)
  else
    let! a := qd_cint_val_to_int l in
    let! b := qd_cint_val_to_int r in
    binop_int op a b.

Definition compound (op : qd_cint_binop) (old v : Z) : outcome Z :=
  match op with
  | OP_ADD_ASSIGN => i64_result (old + v)
  | OP_SUB_ASSIGN => i64_result (old - v)
  | OP_MUL_ASSIGN => i64_result (old * v)
  | OP_DIV_ASSIGN => i64_result (if v =? 0 then 0 else Z.quot old v)
  | _ => Ok v
  end.

#[global] Instance binop_eq_dec : EqDecision qd_cint_binop.
Proof. solve_decision. Defined.
#[global] Instance val_type_eq_dec : EqDecision qd_cint_val_type.
Proof. solve_decision. Defined.

Section evaluator.
Context (strtod : cstr -> spec_float) (print_g : spec_float -> cstr) (print_p : Z -> cstr)
  (native_call : Z -> list Z -> Z).

(** ** Output *)

Definition put (s : cstr) : ev unit := modify (fun e => with_out (out e ++ s) e).

Definition qd_cint_val_print (v : qd_cint_value) : ev unit :=
  match v with
  | VAL_VOID => put "void"%string
  | VAL_INT i => put (print_lld i)
  | VAL_FLOAT f => put (print_g f)
  | VAL_STRING p => do! s := read_string p in put s
  | VAL_CHAR c => put [u8 c]
  | VAL_PTR p => put (("0x"%string : cstr) ++ print_p p)
  | VAL_FUNC _ _ | VAL_NATIVE => put "?"%string
  end.

(** ** Expressions *)

Section nodes.
(** The next level of [eval_node]: in the tree of the node, and in another tree. *)
Context (tree : Z) (eval : node -> ev qd_cint_value) (eval_in : Z -> node -> ev qd_cint_value).

Definition eval_binop (op : qd_cint_binop) (left right : node) : ev qd_cint_value :=
  do! l := eval left in
  do! r := eval right in
  elift (binop_values op l r).

(** [++] and [--] on a variable; [operand->type] is read. *)
Definition eval_incdec (op : qd_cint_unop) (operand : node) (val : qd_cint_value) : ev qd_cint_value :=
  match operand with
  | None => wrong
  | Some (AST_IDENT _ _ name) =>
    do! f := gets (fun e => scope_find e name) in
    match f with
    | None => done val
    | Some x =>
      do! v := get_var x in
      do! old := elift (qd_cint_val_to_int v) in
      do! new := elift (i64_result (old + match op with UOP_PRE_INC | UOP_POST_INC => 1 | _ => -1 end)) in
      do! _ := set_var x (VAL_INT new) in
      done (match op with UOP_PRE_INC | UOP_PRE_DEC => VAL_INT new | _ => VAL_INT old end)
    end
  | Some _ => done val
  end.

Definition eval_unop (op : qd_cint_unop) (operand : node) : ev qd_cint_value :=
  do! val := eval operand in
  match op with
  | UOP_NEG =>
    match val with
    | VAL_FLOAT f => done (VAL_FLOAT (SFopp f))
    | _ => do! i := elift (qd_cint_val_to_int val) in elift (int_result (- i))
    end
  | UOP_NOT => do! b := qd_cint_val_to_bool val in elift (bool_int (negb b))
  | UOP_BNOT => do! i := elift (qd_cint_val_to_int val) in done (VAL_INT (Z.lnot i))
  | _ => eval_incdec op operand val
  end.

(** print(...): every argument is printed and its string is freed. *)
Fixpoint print_args (first : bool) (args : list node) : ev unit :=
  match args with
  | [] => put [10]
  | a :: args =>
    do! _ := if first then done tt else put [32] in
    do! v := eval a in
    do! _ := qd_cint_val_print v in
    do! _ := qd_cint_val_free v in
    print_args false args
  end.

(** The arguments of a native function; there is room for 16. *)
Fixpoint native_args (room : nat) (args : list node) : ev (list Z) :=
  match room, args with
  | S room, a :: args =>
    do! v := eval a in
    do! i := elift (qd_cint_val_to_int v) in
    do! _ := qd_cint_val_free v in
    do! rest := native_args room args in
    done (i :: rest)
  | _, _ => done []
  end.

(** An argument is evaluated twice, both times with the callee's scope current.  The
    first evaluation uses a pointer computed from [old_scope] when the caller is
    itself a function, which is not an evaluator. *)
Fixpoint bind_params (nested : bool) (params args : list node) : ev unit :=
  match params, args with
  | p :: params, a :: args =>
    if nested then wrong else
    do! _ := eval a in
    do! v := eval a in
    match p with
    | Some (AST_PARAM _ (Some name)) =>
      do! x := scope_define name in
      do! _ := set_var x v in
      bind_params nested params args
    | _ => wrong
    end
  | _, _ => done tt
  end.

(** A call of an interpreted function. *)
Definition call_function (owner : Z) (params : list node) (body : node) (args : list node) : ev qd_cint_value :=
  do! old := gets local_scope in
  do! _ := modify (with_local (Some [])) in
  do! _ := bind_params (match old with Some _ => true | None => false end) params args in
  do! _ := modify (with_flow FLOW_NORMAL) in
  do! _ := eval_in owner body in
  do! result := gets return_value in
  do! _ := modify (with_return VAL_VOID) in
  do! _ := modify (with_flow FLOW_NORMAL) in
  do! s := gets local_scope in
  do! _ := scope_destroy (default [] s) in
  do! _ := modify (with_local old) in
  done result.

Definition find_native (ns : list native_entry) (name : cstr) : option native_entry :=
  List.find (fun n => bool_decide (n_name n = name)) ns.

Definition eval_call (line : Z) (func : node) (args : list node) : ev qd_cint_value :=
  match func with
  | None => wrong
  | Some (AST_IDENT _ _ name) =>
    if bool_decide (name = ("print"%string : cstr)) then
      do! _ := print_args true args in done VAL_VOID
    else if bool_decide (name = ("printf"%string : cstr)) && negb (Nat.eqb (length args) 0) then
      do! fmt := eval (default None (head args)) in
      do! _ := match fmt with VAL_STRING p => do! s := read_string p in put s | _ => done tt end in
      do! _ := qd_cint_val_free fmt in
      done (VAL_INT 0)
    else
      do! ns := gets natives in
      match find_native ns name with
      | Some n =>
        do! l := native_args 16 args in
        let r := native_call (n_fptr n) (take 4 (l ++ [0; 0; 0; 0])) in
        done (if bool_decide (n_ret_type n = VT_VOID) then VAL_VOID else VAL_INT r)
      | None =>
        do! f := gets (fun e => scope_find e name) in
        do! v := match f with Some x => (do! v := get_var x in done (Some v)) | None => done None end in
        match v with
        | Some (VAL_FUNC owner decl) =>
          do! dead := gets (fun e => bool_decide (owner ∈ freed e)) in
          if dead then wrong else
          match decl with
          | AST_FUNCDECL _ _ _ _ params body => call_function owner params body args
          | _ => wrong
          end
        | _ => do! _ := eval_error line "Unknown function"%string in done VAL_VOID
        end
      end
  | Some _ => do! _ := eval_error line "Function expression not supported"%string in done VAL_VOID
  end.

Definition eval_assign (line : Z) (target value : node) (op : qd_cint_binop) : ev qd_cint_value :=
  do! val := eval value in
  let invalid := do! _ := eval_error line "Invalid assignment target"%string in done val in
  match target with
  | None => wrong
  | Some (AST_IDENT _ _ name) =>
    do! f := gets (fun e => scope_find e name) in
    match f with
    | None => invalid
    | Some x =>
      do! cur := get_var x in
      do! val :=
        if bool_decide (op = OP_ASSIGN) then done val
        else
          do! old := elift (qd_cint_val_to_int cur) in
          do! v := elift (qd_cint_val_to_int val) in
          do! z := elift (compound op old v) in
          done (VAL_INT z) in
      do! _ := qd_cint_val_free cur in
      do! _ := set_var x val in
      done val
    end
  | Some _ => invalid
  end.

Definition eval_cond (cond : node) : ev bool :=
  do! c := eval cond in qd_cint_val_to_bool c.

(** ** Statements *)

Fixpoint eval_block (stmts : list node) : ev unit :=
  match stmts with
  | [] => done tt
  | s :: stmts =>
    do! _ := eval s in
    do! f := gets flow in
    if bool_decide (f = FLOW_NORMAL) then eval_block stmts else done tt
  end.

(** The loops: [test] is the condition, [step] the increment.  A continue leads to
    the increment, a break or a return leaves the loop. *)
Fixpoint eval_loop (fuel : nat) (test : ev bool) (body : node) (step : ev unit) : ev unit :=
  match fuel with
  | O => exhausted
  | S fuel =>
    do! go := test in
    if negb go then done tt else
    do! _ := eval body in
    do! f := gets flow in
    match f with
    | FLOW_BREAK => modify (with_flow FLOW_NORMAL)
    | FLOW_RETURN => done tt
    | _ =>
      do! _ := modify (with_flow FLOW_NORMAL) in
      do! _ := step in
      eval_loop fuel test body step
    end
  end.
End nodes.

(** One level of [eval_node]. *)
Fixpoint eval_node (fuel : nat) (tree : Z) (n : node) : ev qd_cint_value :=
  match fuel with
  | O => exhausted
  | S fuel =>
    let eval := eval_node fuel tree in
    match n with
    | None => done VAL_VOID
    | Some (AST_INT _ _ i) => done (VAL_INT i)
    | Some (AST_FLOAT _ _ t) => done (VAL_FLOAT (strtod t))
    | Some (AST_STRING _ _ s) => alloc_string s
    | Some (AST_CHAR _ _ c) => done (VAL_CHAR c)
    | Some (AST_IDENT l _ name) =>
      do! f := gets (fun e => scope_find e name) in
      match f with
      | Some x => get_var x
      | None => do! _ := eval_error l "Undefined variable"%string in done VAL_VOID
      end
    | Some (AST_BINOP _ _ op a b) => eval_binop eval op a b
    | Some (AST_UNOP _ _ op a) => eval_unop eval op a
    | Some (AST_CALL l _ f args) => eval_call eval (eval_node fuel) l f args
    | Some (AST_ASSIGN l _ t v op) => eval_assign eval l t v op
    | Some (AST_TERNARY _ _ c a b) =>
      do! go := eval_cond eval c in if go then eval a else eval b
    | Some (AST_BLOCK _ _ stmts) => do! _ := eval_block eval stmts in done VAL_VOID
    | Some (AST_IF _ _ c a b) =>
      do! go := eval_cond eval c in
      do! _ := if go then eval a else match b with Some _ => eval b | None => done VAL_VOID end in
      done VAL_VOID
    | Some (AST_WHILE _ _ c body) =>
      do! _ := eval_loop eval fuel (eval_cond eval c) body (done tt) in done VAL_VOID
    | Some (AST_FOR _ _ init c incr body) =>
      do! _ := match init with Some _ => eval init | None => done VAL_VOID end in
      do! _ := eval_loop eval fuel
                 (match c with Some _ => eval_cond eval c | None => done true end) body
                 (match incr with Some _ => do! _ := eval incr in done tt | None => done tt end) in
      done VAL_VOID
    | Some (AST_RETURN _ _ v) =>
      do! _ := match v with
               | Some _ => do! r := eval v in modify (with_return r)
               | None => done tt
               end in
      do! _ := modify (with_flow FLOW_RETURN) in
      done VAL_VOID
    | Some (AST_BREAK _ _) => do! _ := modify (with_flow FLOW_BREAK) in done VAL_VOID
    | Some (AST_CONTINUE _ _) => do! _ := modify (with_flow FLOW_CONTINUE) in done VAL_VOID
    | Some (AST_EXPR_STMT _ _ x) => eval x
    | Some (AST_VARDECL _ _ _ name init) =>
      do! x := scope_define name in
      do! _ := match init with
               | Some _ => do! v := eval init in set_var x v
               | None => done tt
               end in
      done VAL_VOID
    | Some (AST_FUNCDECL l c ts name params body) =>
      do! x := scope_define name in
      do! _ := set_var x (VAL_FUNC tree (AST_FUNCDECL l c ts name params body)) in
      done VAL_VOID
    | Some (AST_INDEX l _ _ _) | Some (AST_MEMBER l _ _ _) | Some (AST_PTRMEMBER l _ _ _)
    | Some (AST_SIZEOF l _ _) | Some (AST_ADDR l _ _) | Some (AST_DEREF l _ _) =>
      do! _ := eval_error l "Unsupported AST node"%string in done VAL_VOID
    | Some (AST_PARAM _ _) => do! _ := eval_error 0 "Unsupported AST node"%string in done VAL_VOID
    end
  end.

(** ** Entry points *)

Definition qd_cint_eval_create : qd_cint_eval :=
  mkEval [] None ∅ 0 ∅ 0 VAL_VOID FLOW_NORMAL None 0 [] [] [].

(** The names of the native functions and the error text are freed as well; no one
    else uses these blocks. *)
Definition qd_cint_eval_destroy : ev unit :=
  do! l := gets local_scope in
  do! _ := scope_destroy (default [] l) in
  do! g := gets global_scope in
  scope_destroy g.

(** Every entry point evaluates a tree of its own. *)
Definition fresh_tree (e : qd_cint_eval) : Z := Z.of_nat (length (freed e)).
Definition free_tree (t : Z) : ev unit := modify (fun e => with_freed (t :: freed e) e).

Definition qd_cint_eval_ast (fuel : nat) (t : Z) (ast : node) : ev qd_cint_value := eval_node fuel t ast.

(** The text of a parse error, formatted into an array of 256 bytes. *)
Definition parse_error_text (p : qd_cint_parser) : cstr :=
  take 255 (("Line "%string : cstr) ++ print_lld (error_line p) ++ (":"%string : cstr) ++ print_lld (error_col p)
            ++ (": "%string : cstr) ++ error_msg p ++ (" (got "%string : cstr) ++ error_got p ++ (")"%string : cstr)).

Definition qd_cint_eval_string (fuel : nat) (code : cstr) : ev qd_cint_value :=
  do! p := elift (qd_cint_parser_init code 0) in
  do! (ast, p) := elift (qd_cint_parse_statement fuel p) in
  if qd_cint_parser_had_error p then
    do! _ := eval_error 1 (parse_error_text p) in done VAL_VOID
  else
    do! t := gets fresh_tree in
    do! result := eval_node fuel t ast in
    do! _ := free_tree t in
    done result.

Definition qd_cint_eval_register_native (name : cstr) (fptr num_args : Z) (ret : qd_cint_val_type) : ev Z :=
  do! ns := gets natives in
  if (256 <=? length ns)%nat then done (-1) else
  do! _ := modify (with_natives (ns ++ [mkNative name fptr num_args ret])) in
  done 0.

Definition qd_cint_eval_get_var (name : cstr) : ev (option qd_cint_value) :=
  do! f := gets (fun e => scope_find e name) in
  match f with Some x => do! v := get_var x in done (Some v) | None => done None end.

Definition qd_cint_eval_set_var (name : cstr) (value : qd_cint_value) : ev Z :=
  do! f := gets (fun e => scope_find e name) in
  do! x := match f with Some x => done x | None => scope_define name end in
  do! v := get_var x in
  do! _ := qd_cint_val_free v in
  do! _ := set_var x value in
  done 0.

Definition qd_cint_eval_error (e : qd_cint_eval) : option cstr := ev_error e.
Definition qd_cint_eval_clear_error : ev unit := modify (fun e => with_error None (ev_error_line e) e).

(** *** qd_cint.c

    What goes to the error stream is left out. *)

(** The last part of an entry point: an error is reported and cleared. *)
Definition report : ev Z :=
  do! err := gets qd_cint_eval_error in
  match err with
  | Some _ => do! _ := qd_cint_eval_clear_error in done (-1)
  | None => done 0
  end.

(** qd_cint_eval: evaluate one statement. *)
Definition qd_cint_eval_line (fuel : nat) (verbose : bool) (code : cstr) : ev Z :=
  do! p := elift (qd_cint_parser_init code 0) in
  do! (ast, p) := elift (qd_cint_parse_statement fuel p) in
  if qd_cint_parser_had_error p then done (-1) else
  do! t := gets fresh_tree in
  do! result := qd_cint_eval_ast fuel t ast in
  do! _ := match result with
           | VAL_VOID => done tt
           | _ => if verbose then (do! _ := put "= "%string in do! _ := qd_cint_val_print result in put [10])
                  else done tt
           end in
  do! _ := qd_cint_val_free result in
  do! _ := free_tree t in
  report.

(** qd_cint_exec_file, on the contents of the file ([None]: it cannot be read). *)
Definition qd_cint_exec_file (fuel : nat) (contents : option (list Z)) : ev Z :=
  match contents with
  | None => done (-1)
  | Some code =>
    do! p := elift (qd_cint_parser_init code (Z.of_nat (length code))) in
    do! (ast, p) := elift (qd_cint_parse_program fuel p) in
    if qd_cint_parser_had_error p then done (-1) else
    do! t := gets fresh_tree in
    do! _ := qd_cint_eval_ast fuel t ast in
    do! _ := free_tree t in
    report
  end.

Definition qd_cint_register_native (name : cstr) (fptr num_args : Z) : ev Z :=
  qd_cint_eval_register_native name fptr num_args VT_INT.

Definition line_feed (s : cstr) : cstr := s ++ [10].

(** The help text of the prompt. *)
Definition help_text : cstr :=
  line_feed "Commands:"%string
  ++ line_feed "  exit, quit    - Exit interpreter"%string
  ++ line_feed "  help          - Show this help"%string
  ++ line_feed "  vars          - Show variables"%string
  ++ [10] ++ line_feed "C Syntax:"%string
  ++ line_feed "  int x = 10;   - Declare variable"%string
  ++ line_feed "  print(x);     - Print value"%string
  ++ line_feed "  x + y * z;    - Expressions"%string
  ++ line_feed "  func(a, b);   - Function calls"%string.

(** The loop of the prompt: [lines] are the answers of readline up to the first NULL.
    The prompt, the history and what readline shows are left out. *)
Fixpoint repl_loop (fuel : nat) (lines : list cstr) : ev unit :=
  match lines with
  | [] => done tt
  | line :: lines =>
    if bool_decide (line = []) then repl_loop fuel lines
    else if bool_decide (line = ("exit"%string : cstr)) || bool_decide (line = ("quit"%string : cstr)) then done tt
    else if bool_decide (line = ("help"%string : cstr)) then
      do! _ := put help_text in repl_loop fuel lines
    else if bool_decide (line = ("vars"%string : cstr)) then
      do! _ := put (line_feed "(Variable listing not implemented)"%string) in repl_loop fuel lines
    else
      do! _ := qd_cint_eval_line fuel true line in repl_loop fuel lines
  end.

Definition qd_cint_repl (fuel : nat) (lines : list cstr) : ev Z :=
  do! _ := put (line_feed "QD-CINT C Interpreter"%string) in
  do! _ := put (line_feed "Type 'exit' to quit, 'help' for commands"%string ++ [10]) in
  do! _ := repl_loop fuel lines in
  do! _ := put [10] in
  done 0.
End evaluator.

(** ** Examples *)

Definition no_strtod (_ : cstr) : spec_float := S754_nan.
Definition no_text {A} (_ : A) : cstr := [].
Definition no_native (_ : Z) (_ : list Z) : Z := 0.

(** Run lines one after the other; the codes and the output. *)
Fixpoint run_lines (fuel : nat) (lines : list cstr) : ev (list Z) :=
  match lines with
  | [] => done []
  | l :: lines =>
    do! r := qd_cint_eval_line no_strtod no_text no_text no_native fuel true l in
    do! rs := run_lines fuel lines in
    done (r :: rs)
  end.
Definition session (lines : list cstr) : outcome (list Z * cstr) :=
  let! (rs, e) := run_lines 60 lines qd_cint_eval_create in Ok (rs, out e).

Example session_ex :
  session [("int x = 6;"%string : cstr); ("x * 7;"%string : cstr); ("while (x > 4) { x -= 1; print(x, 'c'); }"%string : cstr); ("y;"%string : cstr)]
  = Ok ([0; 0; 0; -1], (of_string "= 42" ++ [10] ++ of_string "5 c" ++ [10] ++ of_string "4 c" ++ [10])).
Proof. vm_compute. reflexivity. Qed.

(** ** Where the code departs from C, or from what its callers may expect *)

(** A source text, with ' for the double quote. *)
Definition src (s : string) : cstr := (fun c => if c =? 39 then 34 else c) <$> of_string s.
Definition file (s : string) : outcome (list Z * cstr) :=
  let! (r, e) := qd_cint_exec_file no_strtod no_text no_text no_native 60 (Some (src s)) qd_cint_eval_create in
  Ok ([r], out e).

(** [print] frees the string of its argument: printing a variable twice reads a freed
    block. *)
Theorem print_frees_variable :
  session [src "char *s = 'hi';"; src "print(s);"] = Ok ([0; 0], of_string "hi" ++ [10]) /\
  session [src "char *s = 'hi';"; src "print(s);"; src "print(s);"] = Undef.
Proof. split; vm_compute; reflexivity. Qed.

(** Two variables share one string; assigning the first frees it. *)
Theorem assignment_frees_alias :
  session [src "char *s = 'a';"; src "char *t = s;"; src "s = 'b';"; src "print(t);"] = Undef.
Proof. vm_compute. reflexivity. Qed.

(** The statement of a line is freed after it ran, with the functions it declares. *)
Theorem function_outlives_tree :
  session [src "int f() { return 1; }"; src "f();"] = Undef.
Proof. vm_compute. reflexivity. Qed.

(** An argument is evaluated twice: n++ counts to 2. *)
Theorem argument_evaluated_twice :
  file "int n = 0; int f(int a) { return a; } int r = f(n++); int p = print(n, r);" = Ok ([0], of_string "2 1" ++ [10]).
Proof. vm_compute. reflexivity. Qed.

(** A function that calls a function with an argument computes a wild pointer. *)
Theorem nested_call_undefined :
  file "int g(int a) { return a; } int f(int a) { return g(a); } int r = f(1);" = Undef.
Proof. vm_compute. reflexivity. Qed.

(** The right operand of [&&] is always evaluated. *)
Theorem no_short_circuit :
  session [src "int x = 1;"; src "0 && (x = 5);"; src "x;"]
  = Ok ([0; 0; 0], of_string "= 0" ++ [10] ++ of_string "= 5" ++ [10]).
Proof. vm_compute. reflexivity. Qed.

(** A break outside of a loop is remembered: the next block stops after its first
    statement. *)
Theorem flow_outlives_statement :
  session [src "break;"; src "{ print(1); print(2); }"] = Ok ([0; 0], of_string "1" ++ [10]).
Proof. vm_compute. reflexivity. Qed.
