(* ===== verification/EvalScopes.v ===== *)
(** * The evaluator keeps its scopes well formed

    Every name in scope has a cell, no cell has two names, and the evaluation of any
    tree gives the caller's scope back: with new variables in front of the old ones,
    all of whose cells are still there. *)

From S2P Require Import Prelude CString Lexer Parser Eval.

(** ** Well-formed states *)

Definition ids (s : scope) : list Z := s.*2.
Definition current_ids (e : qd_cint_eval) : list Z := ids (default [] (local_scope e)) ++ ids (global_scope e).

Record wf_eval (e : qd_cint_eval) : Prop := {
  wf_nodup : NoDup (current_ids e);
  wf_cells : forall x, x ∈ current_ids e -> is_Some (vals e !! x);
  wf_next : forall x, is_Some (vals e !! x) -> x < next_var e
}.

(** [s'] is [s] with newer variables in front. *)
Definition newer (n : Z) (s s' : scope) : Prop := exists t, s' = t ++ s /\ forall x, x ∈ ids t -> n <= x.

Definition same_local (n : Z) (s s' : option scope) : Prop :=
  match s, s' with
  | None, None => True
  | Some s, Some s' => newer n s s'
  | _, _ => False
  end.

Record grows (e e' : qd_cint_eval) : Prop := {
  grows_next : next_var e <= next_var e';
  grows_cells : forall x, x < next_var e -> is_Some (vals e !! x) <-> is_Some (vals e' !! x);
  grows_global : newer (next_var e) (global_scope e) (global_scope e');
  grows_local : same_local (next_var e) (local_scope e) (local_scope e')
}.

Lemma newer_refl n s : newer n s s.
Proof. exists []. split; [reflexivity|]. simpl. intros x Hx. by apply not_elem_of_nil in Hx. Qed.

Lemma newer_trans n n' s s' s'' : n <= n' -> newer n s s' -> newer n' s' s'' -> newer n s s''.
Proof.
  intros Hn (t & -> & Ht) (u & -> & Hu). exists (u ++ t). split; [by rewrite (assoc_L (++))|].
  intros x. unfold ids in *. rewrite fmap_app, elem_of_app. intros [Hx|Hx]; [|by apply Ht].
  specialize (Hu x Hx). lia.
Qed.

Lemma grows_refl e : grows e e.
Proof.
  split; [lia|done|apply newer_refl|]. unfold same_local. destruct (local_scope e); [apply newer_refl|done].
Qed.

Lemma grows_trans e e1 e2 : grows e e1 -> grows e1 e2 -> grows e e2.
Proof.
  intros [N1 C1 G1 L1] [N2 C2 G2 L2]. split; [lia| |by eapply newer_trans|].
  - intros x Hx. rewrite C1 by done. apply C2. lia.
  - unfold same_local in *. destruct (local_scope e), (local_scope e1), (local_scope e2); try done.
    by eapply newer_trans.
Qed.

(** ** Code that keeps them *)

Definition safe {A} (m : ev A) : Prop :=
  forall e a e', wf_eval e -> m e = Ok (a, e') -> wf_eval e' /\ grows e e'.

Lemma safe_bind {A B} (m : ev A) (k : A -> ev B) : safe m -> (forall a, safe (k a)) -> safe (ebind m k).
Proof.
  intros Hm Hk e b e' He E. unfold ebind in E. apply obind_ok in E as ([a e1] & E1 & E2).
  destruct (Hm _ _ _ He E1) as [He1 G1]. destruct (Hk _ _ _ _ He1 E2) as [He2 G2].
  split; [done|]. by eapply grows_trans.
Qed.

(** Code that leaves the scopes and the cells alone. *)
Definition quiet {A} (m : ev A) : Prop :=
  forall e a e', m e = Ok (a, e') ->
  global_scope e' = global_scope e /\ local_scope e' = local_scope e /\ vals e' = vals e /\ next_var e' = next_var e.

Lemma quiet_safe {A} (m : ev A) : quiet m -> safe m.
Proof.
  intros Hm e a e' He E. destruct (Hm _ _ _ E) as (Eg & El & Ev & En).
  assert (current_ids e' = current_ids e) as Ec by (unfold current_ids; by rewrite Eg, El).
  destruct He as [H1 H2 H3]. split.
  - split; rewrite ?Ec, ?Ev, ?En; done.
  - split; rewrite ?Eg, ?El, ?Ev, ?En; [lia|done|apply newer_refl|].
    unfold same_local. destruct (local_scope e); [apply newer_refl|done].
Qed.

Create HintDb safe.

Lemma safe_done {A} (a : A) : safe (done a).
Proof. apply quiet_safe. intros e b e' [= <- <-]. done. Qed.
Lemma safe_wrong {A} : safe (@wrong A).
Proof. intros e a e' _ [=]. Qed.
Lemma safe_exhausted {A} : safe (@exhausted A).
Proof. intros e a e' _ [=]. Qed.
Lemma safe_elift {A} (o : outcome A) : safe (elift o).
Proof. apply quiet_safe. intros e b e' E. apply obind_ok in E as (c & _ & [= <- <-]). done. Qed.
Lemma safe_gets {A} (f : qd_cint_eval -> A) : safe (gets f).
Proof. apply quiet_safe. intros e b e' [= <- <-]. done. Qed.
Lemma safe_flow f : safe (modify (with_flow f)).
Proof. apply quiet_safe. intros e b e' [= <- <-]. done. Qed.
Lemma safe_return f : safe (modify (with_return f)).
Proof. apply quiet_safe. intros e b e' [= <- <-]. done. Qed.
Lemma safe_error l m : safe (eval_error l m).
Proof. apply quiet_safe. intros e b e' [= <- <-]. done. Qed.
Lemma safe_put s : safe (put s).
Proof. apply quiet_safe. intros e b e' [= <- <-]. done. Qed.
Lemma safe_alloc s : safe (alloc_string s).
Proof. apply quiet_safe. intros e b e' [= <- <-]. done. Qed.
Lemma safe_read p : safe (read_string p).
Proof. apply quiet_safe. unfold read_string. intros e b e'. destruct (strs e !! p); [|done]. by intros [= <- <-]. Qed.
Lemma safe_free_string p : safe (free_string p).
Proof. apply quiet_safe. unfold free_string. intros e b e'. destruct (strs e !! p); [|done]. by intros [= <- <-]. Qed.
Lemma safe_get_var x : safe (get_var x).
Proof. apply quiet_safe. unfold get_var. intros e b e'. destruct (vals e !! x); [|done]. by intros [= <- <-]. Qed.

#[export] Hint Resolve safe_done safe_wrong safe_exhausted safe_elift safe_gets safe_flow safe_return safe_error
  safe_put safe_alloc safe_read safe_free_string safe_get_var : safe.

Lemma safe_free v : safe (qd_cint_val_free v).
Proof. destruct v; simpl; auto with safe. Qed.
#[export] Hint Resolve safe_free : safe.

Lemma safe_set_var x v : safe (set_var x v).
Proof.
  intros e a e' [H1 H2 H3] E. unfold set_var in E. destruct (vals e !! x) as [w|] eqn:Ew; [|done].
  injection E as <- <-.
  assert (forall y, is_Some (vals e !! y) <-> is_Some (<[x:=v]> (vals e) !! y)) as Hs.
  { intros y. destruct (decide (y = x)) as [->|]; [by rewrite lookup_insert_eq, Ew|by rewrite lookup_insert_ne]. }
  split.
  - split; [done|simpl; intros y Hy; by apply Hs, H2|simpl; intros y Hy; by apply H3, Hs].
  - split; simpl; [lia|intros y _; apply Hs|apply newer_refl|].
    unfold same_local. destruct (local_scope e); [apply newer_refl|done].
Qed.

Lemma safe_define name : safe (scope_define name).
Proof.
  intros e x e' [H1 H2 H3] E. unfold scope_define in E. injection E as <- <-.
  assert (forall y, y ∈ current_ids e -> y < next_var e) as Hlt by auto.
  assert (forall y, y < next_var e -> <[next_var e := VAL_VOID]> (vals e) !! y = vals e !! y) as Hold
    by (intros y Hy; apply lookup_insert_ne; lia).
  assert (newer (next_var e) (global_scope e) ((name, next_var e) :: global_scope e)) as Hg.
  { exists [(name, next_var e)]. split; [done|]. simpl. intros y [->|Hy%not_elem_of_nil]%elem_of_cons; [lia|done]. }
  assert (forall y, is_Some (<[next_var e := VAL_VOID]> (vals e) !! y) -> y < next_var e + 1) as Hn.
  { intros y Hy. destruct (decide (y = next_var e)) as [->|]; [lia|]. rewrite lookup_insert_ne in Hy by done.
    specialize (H3 y Hy). lia. }
  assert (NoDup (next_var e :: current_ids e)) as Hnd.
  { apply NoDup_cons. split; [|done]. intros Hi. specialize (Hlt _ Hi). lia. }
  assert (forall y, y ∈ next_var e :: current_ids e -> is_Some (<[next_var e := VAL_VOID]> (vals e) !! y)) as Hc.
  { intros y [->|Hy]%elem_of_cons; [by rewrite lookup_insert_eq|]. rewrite Hold by auto. by apply H2. }
  unfold current_ids in Hnd, Hc. simpl.
  destruct (local_scope e) as [s|] eqn:El; (split; [split|split]); unfold current_ids, same_local; simpl;
    rewrite ?El; simpl; try done; try lia; try apply newer_refl.
  - intros y Hy. by rewrite Hold.
  - exists [(name, next_var e)]. split; [done|]. simpl. intros y [->|Hy%not_elem_of_nil]%elem_of_cons; [lia|done].
  - intros y Hy. by rewrite Hold.
Qed.
#[export] Hint Resolve safe_set_var safe_define : safe.

(** Split the code along its binds and its case distinctions. *)
Ltac safe_step :=
  first
    [ solve [auto with safe]
    | apply safe_bind; [|intros ?]
    | match goal with |- safe (match ?x with _ => _ end) => destruct x end
    | match goal with |- safe (if ?x then _ else _) => destruct x end ].
Ltac safe_code := cbv zeta; repeat safe_step.

Lemma safe_to_bool v : safe (qd_cint_val_to_bool v).
Proof. unfold qd_cint_val_to_bool. safe_code. Qed.
#[export] Hint Resolve safe_to_bool : safe.

(** ** Function calls *)

Lemma scope_destroy_cells s : forall e e',
  scope_destroy s e = Ok (tt, e') ->
  global_scope e' = global_scope e /\ local_scope e' = local_scope e /\ next_var e' = next_var e /\
  forall x, vals e' !! x = if decide (x ∈ ids s) then None else vals e !! x.
Proof.
  induction s as [|[n y] s IH]; intros e e' E; simpl in E.
  - injection E as <-. repeat split.
  - unfold ebind, get_var in E. destruct (vals e !! y) as [v|] eqn:Ey; [|done]. simpl in E.
    apply obind_ok in E as ([[] e1] & E1 & E2).
    assert (global_scope e1 = global_scope e /\ local_scope e1 = local_scope e /\ next_var e1 = next_var e /\ vals e1 = vals e)
      as (Eg & El & En & Ev).
    { destruct v; try (injection E1 as <-; done). simpl in E1. unfold free_string in E1.
      destruct (strs e !! _); [|done]. by injection E1 as <-. }
    simpl in E2. destruct (IH _ _ E2) as (Eg2 & El2 & En2 & Ev2). simpl in *.
    rewrite Eg2, El2, En2. repeat split; try done. intros x. rewrite Ev2, Ev.
    destruct (decide (x = y)) as [->|Hxy].
    + rewrite lookup_delete_eq. rewrite (decide_True (P := y ∈ y :: ids s)) by (apply elem_of_cons; by left).
      by case_decide.
    + rewrite lookup_delete_ne by done. apply decide_ext. rewrite elem_of_cons. naive_solver.
Qed.

(** A new, empty scope, and the caller's scope put back. *)
Lemma enter_ok e : wf_eval e -> wf_eval (with_local (Some []) e).
Proof.
  intros [H1 H2 H3]. unfold current_ids in *. split; unfold current_ids; simpl; [|intros x Hx; apply H2; set_solver|done].
  by apply NoDup_app in H1 as (_ & _ & ?).
Qed.

Lemma leave_ok e e1 e2 s :
  wf_eval e -> wf_eval e1 -> grows (with_local (Some []) e) e1 -> local_scope e1 = Some s ->
  scope_destroy s e1 = Ok (tt, e2) ->
  wf_eval (with_local (local_scope e) e2) /\ grows e (with_local (local_scope e) e2).
Proof.
  intros [H1 H2 H3] [W1 W2 W3] [N C G L] El E2.
  destruct (scope_destroy_cells _ _ _ E2) as (Eg & _ & En & Ev).
  simpl in N, C, G, L. rewrite El in L. unfold newer in L. destruct L as (t & -> & Ht).
  rewrite app_nil_r in *. destruct G as (g & Egl & Hg).
  unfold current_ids in *. rewrite El in W1, W2. simpl in W1, W2. rewrite Egl in *.
  assert (forall x, x < next_var e -> x ∉ ids t) as Hold by (intros x Hx Hi; specialize (Ht x Hi); lia).
  assert (forall x, x ∈ ids (default [] (local_scope e)) ++ ids (global_scope e) -> x < next_var e) as Hlt by auto.
  assert (forall x, x < next_var e -> is_Some (vals e !! x) <-> is_Some (vals e2 !! x)) as Hcells.
  { intros x Hx. rewrite Ev, decide_False by auto. by apply C. }
  apply NoDup_app in W1 as (_ & Wd & Wg).
  split; [split|split]; unfold current_ids; simpl; rewrite ?Eg, ?En.
  - apply NoDup_app in H1 as (Hl & Hd & Hgl). apply NoDup_app. split; [done|]. split; [|done].
    intros x Hx. unfold ids in *. rewrite fmap_app, elem_of_app. intros [Hi|Hi]; [|by apply (Hd x)].
    specialize (Hg x Hi). assert (x < next_var e) by (apply Hlt; set_solver). lia.
  - intros x. rewrite elem_of_app. intros [Hx|Hx].
    + apply Hcells; [apply Hlt; set_solver|]. apply H2. set_solver.
    + rewrite Ev, decide_False; [apply W2; set_solver|]. intros Hi. by apply (Wd x).
  - intros x Hx. apply W3. rewrite Ev in Hx. case_decide; [by destruct Hx|done].
  - done.
  - done.
  - by exists g.
  - unfold same_local. destruct (local_scope e); [apply newer_refl|done].
Qed.

Section operations.
Context (strtod : cstr -> SpecFloat.spec_float) (print_g : SpecFloat.spec_float -> cstr) (print_p : Z -> cstr)
  (native_call : Z -> list Z -> Z).
Context (eval : node -> ev qd_cint_value) (eval_in : Z -> node -> ev qd_cint_value).
Context (Heval : forall n, safe (eval n)) (Hin : forall t n, safe (eval_in t n)).

#[local] Hint Resolve Heval Hin : safe.

Lemma safe_bind_params nested ps : forall args, safe (bind_params eval nested ps args).
Proof. induction ps as [|p ps IH]; intros [|a args]; simpl; safe_code. Qed.

Lemma safe_print_args args : forall first, safe (print_args print_g print_p eval first args).
Proof.
  induction args as [|a args IH]; intros first; simpl; [auto with safe|].
  unfold qd_cint_val_print. safe_code.
Qed.

Lemma safe_native_args room : forall args, safe (native_args eval room args).
Proof. induction room as [|room IH]; intros [|a args]; simpl; safe_code. Qed.

#[local] Hint Resolve safe_bind_params safe_print_args safe_native_args : safe.

Lemma safe_call owner params body args : safe (call_function eval eval_in owner params body args).
Proof.
  intros e v e' He E. unfold call_function, ebind, gets, modify in E. simpl in E.
  apply obind_ok in E as ([[] e1] & E1 & E). simpl in E.
  apply obind_ok in E as ([r e2] & E2 & E). simpl in E.
  apply obind_ok in E as ([[] e3] & E3 & E). injection E as <- <-.
  destruct (safe_bind_params _ _ _ _ _ _ (enter_ok e He) E1) as [W1 G1].
  destruct (safe_flow FLOW_NORMAL e1 tt _ W1 eq_refl) as [W2 G2].
  destruct (Hin _ _ _ _ _ W2 E2) as [W3 G3].
  destruct (safe_return VAL_VOID e2 tt _ W3 eq_refl) as [W4 G4].
  destruct (safe_flow FLOW_NORMAL _ tt _ W4 eq_refl) as [W5 G5].
  pose proof (grows_trans _ _ _ (grows_trans _ _ _ G1 G2) (grows_trans _ _ _ (grows_trans _ _ _ G3 G4) G5)) as G.
  assert (exists s, local_scope e2 = Some s) as [s Es].
  { destruct G as [_ _ _ L]. simpl in L. destruct (local_scope e2); [by eexists|done]. }
  rewrite Es in E3. simpl in E3.
  by apply (leave_ok e (with_flow FLOW_NORMAL (with_return VAL_VOID e2)) e3 s).
Qed.
#[local] Hint Resolve safe_call : safe.

Lemma safe_eval_call line f args : safe (eval_call print_g print_p native_call eval eval_in line f args).
Proof. unfold eval_call. safe_code. Qed.

Lemma safe_unop op a : safe (eval_unop eval op a).
Proof. unfold eval_unop, eval_incdec. safe_code. Qed.

Lemma safe_assign line t v op : safe (eval_assign eval line t v op).
Proof. unfold eval_assign. safe_code. Qed.

Lemma safe_block stmts : safe (eval_block eval stmts).
Proof. induction stmts as [|s stmts IH]; simpl; safe_code. Qed.

Lemma safe_loop fuel test body step : safe test -> safe step -> safe (eval_loop eval fuel test body step).
Proof. intros Ht Hs. induction fuel as [|fuel IH]; simpl; safe_code. Qed.

Lemma safe_cond c : safe (eval_cond eval c).
Proof. unfold eval_cond. safe_code. Qed.
End operations.

#[export] Hint Resolve safe_eval_call safe_unop safe_assign safe_block safe_loop safe_cond : safe.

Lemma safe_eval_node strtod print_g print_p native_call fuel : forall t n,
  safe (eval_node strtod print_g print_p native_call fuel t n).
Proof.
  induction fuel as [|fuel IH]; intros t n; cbn [eval_node]; [auto with safe|].
  destruct n as [a|]; [|auto with safe].
  destruct a; unfold eval_binop; safe_code.
  apply safe_loop; [exact (IH t)|safe_code|safe_code].
Qed.
#[export] Hint Resolve safe_eval_node : safe.

(** ** Entry points *)

Section entries.
Context (strtod : cstr -> SpecFloat.spec_float) (print_g : SpecFloat.spec_float -> cstr) (print_p : Z -> cstr)
  (native_call : Z -> list Z -> Z).

Lemma safe_free_tree t : safe (free_tree t).
Proof. apply quiet_safe. intros e b e' [= <- <-]. done. Qed.
Lemma safe_clear : safe qd_cint_eval_clear_error.
Proof. apply quiet_safe. intros e b e' [= <- <-]. done. Qed.
Lemma safe_natives ns : safe (modify (with_natives ns)).
Proof. apply quiet_safe. intros e b e' [= <- <-]. done. Qed.
#[local] Hint Resolve safe_free_tree safe_clear safe_natives : safe.

Lemma safe_report : safe report.
Proof. unfold report. safe_code. Qed.
#[local] Hint Resolve safe_report : safe.

(** What a program that embeds the interpreter can do with it. *)
Inductive entry :=
| Line (verbose : bool) (code : cstr)
| File (contents : option (list Z))
| Repl (lines : list cstr)
| Str (code : cstr)
| SetVar (name : cstr) (value : qd_cint_value)
| Native (name : cstr) (fptr num_args : Z).

Definition run_entry (fuel : nat) (c : entry) : ev unit :=
  match c with
  | Line v code => do! _ := qd_cint_eval_line strtod print_g print_p native_call fuel v code in done tt
  | File f => do! _ := qd_cint_exec_file strtod print_g print_p native_call fuel f in done tt
  | Repl lines => do! _ := qd_cint_repl strtod print_g print_p native_call fuel lines in done tt
  | Str code => do! _ := qd_cint_eval_string strtod print_g print_p native_call fuel code in done tt
  | SetVar n v => do! _ := qd_cint_eval_set_var n v in done tt
  | Native n f a => do! _ := qd_cint_register_native n f a in done tt
  end.

Fixpoint run_entries (fuel : nat) (cs : list entry) : ev unit :=
  match cs with [] => done tt | c :: cs => do! _ := run_entry fuel c in run_entries fuel cs end.

Lemma safe_repl fuel lines : safe (repl_loop strtod print_g print_p native_call fuel lines).
Proof.
  induction lines as [|l lines IH]; simpl; [auto with safe|].
  unfold qd_cint_eval_line, qd_cint_val_print, qd_cint_eval_ast. safe_code.
Qed.
#[local] Hint Resolve safe_repl : safe.

Lemma safe_entry fuel c : safe (run_entry fuel c).
Proof.
  destruct c; simpl; unfold qd_cint_repl, qd_cint_eval_line, qd_cint_exec_file, qd_cint_eval_string, qd_cint_eval_set_var,
    qd_cint_register_native, qd_cint_eval_register_native, qd_cint_val_print, qd_cint_eval_ast; safe_code.
Qed.

Lemma safe_entries fuel cs : safe (run_entries fuel cs).
Proof. induction cs as [|c cs IH]; simpl; [auto with safe|]. apply safe_bind; [apply safe_entry|auto]. Qed.

Lemma new_eval_wf : wf_eval qd_cint_eval_create.
Proof.
  split; unfold current_ids; simpl; [constructor|by intros x ?%not_elem_of_nil|].
  intros x [v Hv]. by rewrite lookup_empty in Hv.
Qed.

(** C20: Scopes of the interpreter.  Whatever statements, files, prompt sessions, variables and native
    functions are given to a new interpreter, after every sequence of calls that
    returns: the global scope is current again; every variable in scope has its own
    cell; and one more call keeps all of them, with their cells, adding only new
    variables in front. *)
Theorem interpreter_scopes fuel cs c e e' :
  run_entries fuel cs qd_cint_eval_create = Ok (tt, e) -> run_entry fuel c e = Ok (tt, e') ->
  local_scope e' = None /\
  NoDup (ids (global_scope e')) /\
  (forall x, x ∈ ids (global_scope e') -> is_Some (vals e' !! x)) /\
  exists new, global_scope e' = new ++ global_scope e /\ forall x, x ∈ ids new -> x ∉ ids (global_scope e).
Proof.
  intros E1 E2. destruct (safe_entries _ _ _ _ _ new_eval_wf E1) as [W1 G1].
  destruct (safe_entry _ _ _ _ _ W1 E2) as [[W2a W2b W2c] G2].
  assert (local_scope e = None) as L1.
  { destruct G1 as [_ _ _ L]. simpl in L. by destruct (local_scope e). }
  assert (local_scope e' = None) as L2.
  { destruct G2 as [_ _ _ L]. rewrite L1 in L. simpl in L. by destruct (local_scope e'). }
  unfold current_ids in *. rewrite L2 in *. simpl in *. split; [done|]. split; [done|]. split; [done|].
  destruct (grows_global _ _ G2) as (new & En & Hn). exists new. split; [done|].
  intros x Hx Hi. specialize (Hn x Hx). destruct W1 as [_ C N].
  assert (x < next_var e); [|lia]. apply N, C. unfold current_ids. rewrite L1. done.
Qed.
End entries.

Definition demo_entries : list entry :=
  [Line true (src "int x = 6;"); File (Some (src "int f(int a) { int b = a * x; return b; } int y = f(7);"))].
Definition demo_entry : entry := Line true (src "{ int z = y; print(z); }").

Definition result_state (m : outcome (unit * qd_cint_eval)) : qd_cint_eval :=
  match m with Ok (_, e) => e | _ => qd_cint_eval_create end.
Definition demo_before : qd_cint_eval :=
  result_state (run_entries no_strtod no_text no_text no_native 60 demo_entries qd_cint_eval_create).
Definition demo_after : qd_cint_eval :=
  result_state (run_entry no_strtod no_text no_text no_native 60 demo_entry demo_before).

Lemma interpreter_scopes_witness :
  out demo_after = of_string "42" ++ [10] /\ local_scope demo_after = None /\ NoDup (ids (global_scope demo_after)).
Proof.
  split; [vm_compute; reflexivity|].
  pose proof (interpreter_scopes no_strtod no_text no_text no_native 60 demo_entries demo_entry demo_before demo_after
    ltac:(vm_compute; reflexivity) ltac:(vm_compute; reflexivity)) as (H1 & H2 & _).
  split; [exact H1|exact H2].
Defined.
