(* ===== verification/EvalExpr.v ===== *)
(** * The value of an expression, from its text

    A reference semantics of integer expressions with variables (assignments,
    increments, conditionals, all operators), and the proof that the interpreter (the
    lexer, the parser and the evaluator of src/cint, composed as qd_cint_eval and
    qd_cint_eval_string compose them) gives a printed expression this value and this
    effect, and reports an error exactly when a name is not in scope. *)

From S2P Require Import Prelude CString Lexer Parser ParserRoundtrip Eval EvalScopes.

(** ** Reference semantics *)

(** Integers in scope, by name. *)
Abbreviation env := (gmap cstr Z).

(** [None]: the C standard leaves the operation undefined. *)
Definition fits (z : Z) : option Z := if bool_decide (- 2 ^ 63 <= z < 2 ^ 63) then Some z else None.

(** A division by zero gives 0 in this language. *)
Definition ref_div (l r : Z) : option Z := if bool_decide (r = 0) then Some 0 else fits (Z.quot l r).
Definition ref_mod (l r : Z) : option Z :=
  if bool_decide (r = 0) then Some 0 else if bool_decide (l = - 2 ^ 63 /\ r = -1) then None else Some (Z.rem l r).
Definition truth (P : Prop) `{Decision P} : option Z := Some (if bool_decide P then 1 else 0).

Definition ref_binop (op : qd_cint_binop) (l r : Z) : option Z :=
  match op with
  | OP_ADD => fits (l + r) | OP_SUB => fits (l - r) | OP_MUL => fits (l * r)
  | OP_DIV => ref_div l r | OP_MOD => ref_mod l r
  | OP_EQ => truth (l = r) | OP_NE => truth (l <> r)
  | OP_LT => truth (l < r) | OP_GT => truth (r < l) | OP_LE => truth (l <= r) | OP_GE => truth (r <= l)
  | OP_AND => truth (l <> 0 /\ r <> 0) | OP_OR => truth (l <> 0 \/ r <> 0)
  | OP_BAND => Some (Z.land l r) | OP_BOR => Some (Z.lor l r) | OP_BXOR => Some (Z.lxor l r)
  | OP_LSHIFT => if bool_decide (0 <= r < 64 /\ 0 <= l) then fits (l * 2 ^ r) else None
  | OP_RSHIFT => if bool_decide (0 <= r < 64) then Some (l / 2 ^ r) else None
  | _ => None
  end.

Definition ref_assign (op : qd_cint_binop) (old v : Z) : option Z :=
  match op with
  | OP_ASSIGN => Some v
  | OP_ADD_ASSIGN => fits (old + v) | OP_SUB_ASSIGN => fits (old - v)
  | OP_MUL_ASSIGN => fits (old * v) | OP_DIV_ASSIGN => ref_div old v
  | _ => None
  end.

(** Value, variables afterwards, and whether a name was not in scope (it counts as 0,
    and an assignment to it is dropped). *)
Fixpoint denote (r : env) (e : expr) : option (Z * env * bool) :=
  match e with
  | EInt i => Some (i, r, false)
  | EChar c => Some (char_to_int c, r, false)
  | EIdent x => match r !! x with Some z => Some (z, r, false) | None => Some (0, r, true) end
  | EUn PNeg a => '(z, r, b) ← denote r a; z ← fits (- z); Some (z, r, b)
  | EUn PNot a => '(z, r, b) ← denote r a; z ← truth (z = 0); Some (z, r, b)
  | EUn PBNot a => '(z, r, b) ← denote r a; Some (- z - 1, r, b)
  | EUn PInc (EIdent x) =>
    match r !! x with Some z => n ← fits (z + 1); Some (n, <[x := n]> r, false) | None => Some (0, r, true) end
  | EUn PDec (EIdent x) =>
    match r !! x with Some z => n ← fits (z - 1); Some (n, <[x := n]> r, false) | None => Some (0, r, true) end
  | EPost inc (EIdent x) =>
    match r !! x with
    | Some z => n ← fits (if inc then z + 1 else z - 1); Some (z, <[x := n]> r, false)
    | None => Some (0, r, true)
    end
  | EBin op a b =>
    '(x, r, e1) ← denote r a; '(y, r, e2) ← denote r b;
    z ← ref_binop op x y; Some (z, r, e1 || e2)
  | EAssign op (EIdent x) b =>
    '(v, r, e1) ← denote r b;
    match r !! x with
    | Some old => z ← ref_assign op old v; Some (z, <[x := z]> r, e1)
    | None => Some (v, r, true)
    end
  | ETern c a b =>
    '(x, r, e1) ← denote r c;
    '(z, r, e2) ← denote r (if bool_decide (x = 0) then b else a);
    Some (z, r, e1 || e2)
  | _ => None
  end.

(** ** States that hold an environment *)

(** A value that counts as an integer. *)
Definition num (v : qd_cint_value) (z : Z) : Prop :=
  match v with
  | VAL_VOID => z = 0
  | VAL_INT i => z = i
  | VAL_CHAR c => z = char_to_int c
  | _ => False
  end.

Definition agree (e : qd_cint_eval) (r : env) : Prop :=
  forall x, match r !! x with
            | Some z => exists c v, scope_find e x = Some c /\ vals e !! c = Some v /\ num v z
            | None => scope_find e x = None
            end.

(** Only values and the error change. *)
Record only_values (e e' : qd_cint_eval) : Prop := {
  ov_global : global_scope e' = global_scope e;
  ov_local : local_scope e' = local_scope e;
  ov_flow : flow e' = flow e;
  ov_freed : freed e' = freed e;
  ov_out : out e' = out e;
  ov_strs : strs e' = strs e
}.

(** [b]: an error was recorded in between. *)
Definition error_iff (e e' : qd_cint_eval) (b : bool) : Prop :=
  if b then is_Some (ev_error e') else ev_error e' = ev_error e.

Lemma only_refl e : only_values e e.
Proof. by split. Qed.
Lemma only_trans e e1 e2 : only_values e e1 -> only_values e1 e2 -> only_values e e2.
Proof. intros [] []. split; congruence. Qed.

Lemma error_trans e e1 e2 b b' : error_iff e e1 b -> error_iff e1 e2 b' -> error_iff e e2 (b || b').
Proof. unfold error_iff. destruct b, b'; simpl; intros H1 H2; try done; congruence. Qed.

Lemma find_in_elem s x c : find_in s x = Some c -> (x, c) ∈ s.
Proof.
  unfold find_in. destruct (List.find _ s) as [[n y]|] eqn:E; [|done]. intros [= <-].
  apply find_some in E as [Hi Hx%bool_decide_eq_true]. simpl in Hx. subst n. by apply list_elem_of_In.
Qed.

Lemma scope_find_elem e x c :
  scope_find e x = Some c -> (x, c) ∈ default [] (local_scope e) ++ global_scope e.
Proof.
  unfold scope_find. rewrite elem_of_app.
  destruct (local_scope e) as [s|]; simpl; [|intros H; right; by apply find_in_elem].
  destruct (find_in s x) as [y|] eqn:E; [intros [= <-]; left; by apply find_in_elem|].
  intros H. right. by apply find_in_elem.
Qed.

Lemma nodup_snd (l : list (cstr * Z)) x y c : NoDup (l.*2) -> (x, c) ∈ l -> (y, c) ∈ l -> x = y.
Proof.
  induction l as [|[n d] l IH]; simpl; [by intros _ ?%not_elem_of_nil|]. rewrite NoDup_cons. intros [Hd Hn].
  assert (forall z, (z, d) ∈ l -> False) as Hf by (intros z Hz; apply Hd; apply list_elem_of_fmap; by exists (z, d)).
  intros [Ex|Hx]%elem_of_cons [Ey|Hy]%elem_of_cons; [congruence| | |by apply IH].
  - injection Ex as -> ->. by apply Hf in Hy.
  - injection Ey as -> ->. by apply Hf in Hx.
Qed.

Lemma scope_find_inj e x y c : wf_eval e -> scope_find e x = Some c -> scope_find e y = Some c -> x = y.
Proof.
  intros [H1 _ _] Hx%scope_find_elem Hy%scope_find_elem. eapply nodup_snd; [|exact Hx|exact Hy].
  unfold current_ids, ids in H1. by rewrite fmap_app.
Qed.

(** Writing a variable. *)
Lemma set_var_agree e r x c z v :
  wf_eval e -> agree e r -> scope_find e x = Some c -> num v z ->
  agree (with_vals (<[c := v]> (vals e)) (next_var e) e) (<[x := z]> r).
Proof.
  intros Hw Ha Hx Hv y. destruct (decide (x = y)) as [<-|Hne].
  - rewrite lookup_insert_eq. exists c, v. split; [done|]. split; [apply lookup_insert_eq|done].
  - rewrite lookup_insert_ne by done. specialize (Ha y). destruct (r !! y) as [zy|]; [|done].
    destruct Ha as (d & w & Hy & Hd & Hw'). exists d, w. split; [done|]. split; [|done].
    simpl. rewrite lookup_insert_ne; [done|]. intros ->. by eapply Hne, scope_find_inj.
Qed.

(** ** Operators *)

Lemma num_to_int v z : num v z -> qd_cint_val_to_int v = Ok z.
Proof. destruct v; simpl; intros; by subst. Qed.

Lemma num_not_float v z : num v z -> is_float v = false.
Proof. by destruct v. Qed.

Lemma num_to_bool v z e : num v z -> qd_cint_val_to_bool v e = Ok (negb (z =? 0), e).
Proof. destruct v; simpl; intros; by subst. Qed.

Lemma num_free v z e : num v z -> qd_cint_val_free v e = Ok (tt, e).
Proof. by destruct v. Qed.

Lemma fits_result z y : fits z = Some y -> i64_result z = Ok y.
Proof.
  unfold fits, i64_result, in_i64. case_bool_decide as H; [|done]. intros [= <-].
  destruct (Z.leb_spec (- 2 ^ 63) z), (Z.ltb_spec z (2 ^ 63)); try lia. done.
Qed.

Lemma truth_b2z (P : Prop) `{Decision P} (b : bool) z : (b = true <-> P) -> truth P = Some z -> z = Z.b2z b.
Proof. unfold truth. intros Hb [= <-]. case_bool_decide; destruct b; simpl; try done; naive_solver. Qed.

Lemma bool_int_num (P : Prop) `{Decision P} (b : bool) z :
  (b = true <-> P) -> truth P = Some z -> exists u, bool_int b = Ok u /\ num u z.
Proof. intros H1 H2. eexists. split; [done|]. simpl. by eapply truth_b2z. Qed.

Lemma fits_num z y : fits z = Some y -> exists u, int_result z = Ok u /\ num u y.
Proof. intros H. unfold int_result. rewrite (fits_result _ _ H). simpl. by eexists. Qed.

Lemma shift_left_ref l r z :
  (if bool_decide (0 <= r < 64 /\ 0 <= l) then fits (l * 2 ^ r) else None) = Some z -> shift_left l r = Ok z.
Proof.
  case_bool_decide as H; [|done]. unfold shift_left. intros Hf.
  rewrite Z.shiftl_mul_pow2 by lia. rewrite (fits_result _ _ Hf).
  destruct (Z.leb_spec 0 r), (Z.ltb_spec r 64), (Z.leb_spec 0 l); try lia; done.
Qed.

Lemma shift_right_ref l r z :
  (if bool_decide (0 <= r < 64) then Some (l / 2 ^ r) else None) = Some z -> shift_right l r = Ok z.
Proof.
  case_bool_decide as H; [|done]. unfold shift_right. intros [= <-]. rewrite Z.shiftr_div_pow2 by lia.
  destruct (Z.leb_spec 0 r), (Z.ltb_spec r 64); try lia; done.
Qed.

Ltac decide_goal :=
  rewrite ?andb_true_iff, ?orb_true_iff, ?negb_true_iff, ?Z.eqb_eq, ?Z.eqb_neq, ?Z.ltb_lt, ?Z.leb_le; try done; lia.

Lemma binop_ref op l r z : ref_binop op l r = Some z -> exists u, binop_int op l r = Ok u /\ num u z.
Proof.
  destruct op; simpl; try done; try (intros [= <-]; by eexists); try apply fits_num;
    try (apply bool_int_num; decide_goal).
  - unfold ref_div, int_result. case_bool_decide as H; [subst r; intros [= <-]; by eexists|].
    rewrite (proj2 (Z.eqb_neq _ _) H). apply fits_num.
  - unfold ref_mod, int_rem. case_bool_decide as H; [subst r; intros [= <-]; by eexists|].
    rewrite (proj2 (Z.eqb_neq _ _) H). case_bool_decide as H2; [done|]. intros [= <-].
    destruct (Z.eqb_spec l (- 2 ^ 63)), (Z.eqb_spec r (-1)); simpl; try (by eexists). exfalso. by apply H2.
  - intros Hs%shift_left_ref. rewrite Hs. simpl. by eexists.
  - intros Hs%shift_right_ref. rewrite Hs. simpl. by eexists.
Qed.

Lemma binop_values_ref op v w x y z :
  num v x -> num w y -> ref_binop op x y = Some z -> exists u, binop_values op v w = Ok u /\ num u z.
Proof.
  intros Hv Hw H. unfold binop_values.
  rewrite (num_not_float _ _ Hv), (num_not_float _ _ Hw), (num_to_int _ _ Hv), (num_to_int _ _ Hw). by apply binop_ref.
Qed.

Lemma compound_ref op old v z : op <> OP_ASSIGN -> ref_assign op old v = Some z -> compound op old v = Ok z.
Proof.
  destruct op; simpl; try done; intros _; try apply fits_result.
  unfold ref_div. case_bool_decide as H; [subst v; by intros [= <-]|]. rewrite (proj2 (Z.eqb_neq _ _) H). apply fits_result.
Qed.

(** ** Evaluation *)

Fixpoint depth (e : expr) : nat :=
  match e with
  | EUn _ a | EPost _ a => S (depth a)
  | EBin _ a b | EAssign _ a b => S (max (depth a) (depth b))
  | ETern a b c => S (max (depth a) (max (depth b) (depth c)))
  | _ => 1
  end.

Section evaluation.
Context (strtod : cstr -> SpecFloat.spec_float) (print_g : SpecFloat.spec_float -> cstr) (print_p : Z -> cstr)
  (native_call : Z -> list Z -> Z).

Abbreviation eval_node := (Eval.eval_node strtod print_g print_p native_call).

(** The code returns [z], leaves the variables [r], records an error iff [b]. *)
Definition yields (m : ev qd_cint_value) (e : qd_cint_eval) (z : Z) (r : env) (b : bool) : Prop :=
  exists v e', m e = Ok (v, e') /\ num v z /\ agree e' r /\ wf_eval e' /\ only_values e e' /\ error_iff e e' b.

(** What is known of the evaluation of a subexpression. *)
Definition correct (a : expr) (m : ev qd_cint_value) : Prop :=
  forall e r z r' b, wf_eval e -> agree e r -> denote r a = Some (z, r', b) -> yields m e z r' b.

Lemma lookup_some e r x z :
  agree e r -> r !! x = Some z -> exists c v, scope_find e x = Some c /\ vals e !! c = Some v /\ num v z.
Proof. intros Ha Hx. specialize (Ha x). by rewrite Hx in Ha. Qed.

Lemma lookup_none e r x : agree e r -> r !! x = None -> scope_find e x = None.
Proof. intros Ha Hx. specialize (Ha x). by rewrite Hx in Ha. Qed.

Lemma with_error_ok e r l m :
  wf_eval e -> agree e r ->
  agree (with_error m l e) r /\ wf_eval (with_error m l e) /\ only_values e (with_error m l e).
Proof. intros [] Ha. repeat split; done. Qed.

Lemma ident_correct x l c fuel t : correct (EIdent x) (eval_node (S fuel) t (Some (AST_IDENT l c x))).
Proof.
  intros e r z r' b Hw Ha Hd. simpl in Hd. cbn [Eval.eval_node]. unfold yields, ebind, gets. cbn [obind].
  destruct (r !! x) as [zx|] eqn:Ex; injection Hd as <- <- <-.
  - destruct (lookup_some _ _ _ _ Ha Ex) as (k & v & Hf & Hv & Hn). rewrite Hf. unfold get_var. rewrite Hv.
    exists v, e. split; [done|]. split; [done|]. split; [done|]. split; [done|]. split; [apply only_refl|done].
  - rewrite (lookup_none _ _ _ Ha Ex). cbn.
    destruct (with_error_ok e r l (Some (take 255 (("Runtime error at line "%string : cstr) ++ print_lld l ++ (": "%string : cstr) ++ ("Undefined variable"%string : cstr)))) Hw Ha) as (H1 & H2 & H3).
    eexists _, _. split; [reflexivity|]. split; [done|]. split; [exact H1|]. split; [exact H2|]. split; [exact H3|].
    simpl. by eexists.
Qed.

Lemma write_var_ok e r x c w z v :
  wf_eval e -> agree e r -> scope_find e x = Some c -> vals e !! c = Some w -> num v z ->
  exists e', set_var c v e = Ok (tt, e') /\ agree e' (<[x := z]> r) /\ wf_eval e' /\ only_values e e' /\
    ev_error e' = ev_error e.
Proof.
  intros Hw Ha Hx Hc Hv. assert (exists e', set_var c v e = Ok (tt, e')) as [e' E].
  { unfold set_var. rewrite Hc. by eexists. }
  exists e'. split; [done|]. destruct (safe_set_var c v e tt e' Hw E) as [Hw' _].
  unfold set_var in E. rewrite Hc in E. injection E as <-.
  split; [by apply set_var_agree|]. split; [done|]. by split.
Qed.

(** Reading an identifier. *)
Lemma eval_ident_found fuel t l c e x k v :
  scope_find e x = Some k -> vals e !! k = Some v -> eval_node (S fuel) t (Some (AST_IDENT l c x)) e = Ok (v, e).
Proof. intros Hf Hv. cbn. unfold ebind, gets. cbn. rewrite Hf. unfold get_var. by rewrite Hv. Qed.

Definition is_incdec (op : qd_cint_unop) : Prop :=
  match op with UOP_PRE_INC | UOP_PRE_DEC | UOP_POST_INC | UOP_POST_DEC => True | _ => False end.
Definition step_of (op : qd_cint_unop) : Z := match op with UOP_PRE_INC | UOP_POST_INC => 1 | _ => -1 end.
Definition is_pre (op : qd_cint_unop) : bool := match op with UOP_PRE_INC | UOP_PRE_DEC => true | _ => false end.

Lemma incdec_correct op fuel t l c l' c' e r x :
  is_incdec op -> wf_eval e -> agree e r ->
  match r !! x with
  | Some z => forall n, fits (z + step_of op) = Some n ->
      yields (eval_node (S (S fuel)) t (Some (AST_UNOP l c op (Some (AST_IDENT l' c' x))))) e
        (if is_pre op then n else z) (<[x := n]> r) false
  | None => yields (eval_node (S (S fuel)) t (Some (AST_UNOP l c op (Some (AST_IDENT l' c' x))))) e 0 r true
  end.
Proof.
  intros Hop Hw Ha. set (f1 := S fuel). cbn [Eval.eval_node]. unfold eval_unop. destruct (r !! x) as [z|] eqn:Ex.
  - intros n Hn. destruct (lookup_some _ _ _ _ Ha Ex) as (k & v & Hf & Hv & Hnum).
    destruct (write_var_ok e r x k v n (VAL_INT n) Hw Ha Hf Hv eq_refl) as (e' & E & Ha' & Hw' & Ho & He).
    exists (if is_pre op then VAL_INT n else VAL_INT z), e'. split; [|split; [by destruct (is_pre op)|]].
    + unfold ebind at 1. subst f1. rewrite (eval_ident_found fuel t l' c' e x k v Hf Hv). cbn [obind].
      destruct op; try done; unfold eval_incdec, ebind, gets; cbn [obind]; rewrite Hf; unfold get_var; rewrite Hv;
        cbn [obind]; unfold elift; rewrite (num_to_int _ _ Hnum); cbn [obind]; simpl in Hn; rewrite (fits_result _ _ Hn);
        cbn [obind]; rewrite E; done.
    + split; [done|]. split; [done|]. split; [done|]. done.
  - destruct (ident_correct x l' c' fuel t e r 0 r true Hw Ha) as (v & e' & E & Hv & Ha' & Hw' & Ho & He);
      [simpl; by rewrite Ex|].
    exists v, e'. split; [|done]. unfold ebind at 1. subst f1. rewrite E. cbn [obind].
    destruct op; try done; unfold eval_incdec, ebind, gets; cbn [obind]; by rewrite (lookup_none _ _ _ Ha' Ex).
Qed.

Section operators.
Context (eval : node -> ev qd_cint_value).

(** Run the subexpression [a] of the goal's code. *)
Ltac sub H e r b Hw Ha Hd v e' Hv Ha' Hw' Ho He :=
  let E := fresh in
  destruct (H e r _ _ b Hw Ha Hd) as (v & e' & E & Hv & Ha' & Hw' & Ho & He);
  unfold ebind at 1; rewrite E; cbn [obind]; clear E.

Lemma unop_correct op a x :
  correct a (eval x) -> op = PNeg \/ op = PNot \/ op = PBNot ->
  correct (EUn op a) (eval_unop eval (match op with PNeg => UOP_NEG | PNot => UOP_NOT | _ => UOP_BNOT end) x).
Proof.
  intros Hc Hop e r z r' b Hw Ha Hd. unfold yields, eval_unop.
  assert (exists y, denote r a = Some (y, r', b) /\
    match op with PNeg => fits (- y) = Some z | PNot => truth (y = 0) = Some z | _ => z = - y - 1 end) as (y & Hy & Hz).
  { destruct Hop as [->|[->| ->]]; simpl in Hd; destruct (denote r a) as [[[y r1] b1]|]; try done; simpl in Hd.
    - destruct (fits (- y)) eqn:Ef; [|done]. injection Hd as <- <- <-. eauto.
    - injection Hd as <- <- <-. eauto.
    - injection Hd as <- <- <-. eauto. }
  sub Hc e r b Hw Ha Hy v e' Hv Ha' Hw' Ho He.
  assert (exists u, (match op with
     | PNeg => match v with VAL_FLOAT f => done (VAL_FLOAT (SpecFloat.SFopp f)) | _ => do! i := elift (qd_cint_val_to_int v) in elift (int_result (- i)) end
     | PNot => do! b := qd_cint_val_to_bool v in elift (bool_int (negb b))
     | _ => do! i := elift (qd_cint_val_to_int v) in done (VAL_INT (Z.lnot i)) end) e' = Ok (u, e') /\ num u z) as (u & E & Hu).
  { destruct Hop as [->|[->| ->]].
    - destruct (fits_num _ _ Hz) as (u & Eu & Hu). exists u. split; [|done].
      destruct v; try done; simpl in Hv; subst; unfold ebind, elift; cbn; by rewrite Eu.
    - destruct (bool_int_num (y = 0) (negb (negb (y =? 0))) z) as (u & Eu & Hu); [rewrite negb_involutive; apply Z.eqb_eq|done|].
      exists u. split; [|done]. unfold ebind, elift. rewrite (num_to_bool _ _ _ Hv). cbn [obind]. by rewrite Eu.
    - exists (VAL_INT (Z.lnot y)). split; [|simpl; rewrite Hz; unfold Z.lnot; lia].
      unfold ebind, elift. by rewrite (num_to_int _ _ Hv). }
  exists u, e'. split; [|done]. by destruct Hop as [->|[->| ->]].
Qed.

Lemma binop_correct op a b x y :
  correct a (eval x) -> correct b (eval y) -> correct (EBin op a b) (eval_binop eval op x y).
Proof.
  intros H1 H2 e r z r' err Hw Ha Hd. simpl in Hd.
  destruct (denote r a) as [[[za r1] b1]|] eqn:Ea; [|done]. simpl in Hd.
  destruct (denote r1 b) as [[[zb r2] b2]|] eqn:Eb; [|done]. simpl in Hd.
  destruct (ref_binop op za zb) as [w|] eqn:Eo; [|done]. injection Hd as <- <- <-.
  unfold yields, eval_binop.
  sub H1 e r b1 Hw Ha Ea v1 e1 Hv1 Ha1 Hw1 Ho1 He1. sub H2 e1 r1 b2 Hw1 Ha1 Eb v2 e2 Hv2 Ha2 Hw2 Ho2 He2.
  destruct (binop_values_ref _ _ _ _ _ _ Hv1 Hv2 Eo) as (u & Eu & Hu). unfold elift. rewrite Eu. cbn [obind].
  exists u, e2. split; [done|]. split; [done|]. split; [done|]. split; [done|].
  split; [by eapply only_trans|by eapply error_trans].
Qed.

Lemma tern_correct a b c x y z :
  correct a (eval x) -> correct b (eval y) -> correct c (eval z) ->
  correct (ETern a b c) (do! go := eval_cond eval x in if go then eval y else eval z).
Proof.
  intros H1 H2 H3 e r w r' err Hw Ha Hd. simpl in Hd.
  destruct (denote r a) as [[[za r1] b1]|] eqn:Ea; [|done]. simpl in Hd.
  destruct (denote r1 (if bool_decide (za = 0) then c else b)) as [[[zb r2] b2]|] eqn:Eb; [|done]. simpl in Hd.
  injection Hd as <- <- <-. unfold yields, eval_cond.
  destruct (H1 e r _ _ b1 Hw Ha Ea) as (v1 & e1 & E1 & Hv1 & Ha1 & Hw1 & Ho1 & He1).
  unfold ebind. rewrite E1. cbn [obind]. rewrite (num_to_bool _ _ _ Hv1). cbn [obind].
  assert (correct (if bool_decide (za = 0) then c else b) (if negb (za =? 0) then eval y else eval z)) as Hbr.
  { case_bool_decide as Hz; [by subst|]. by rewrite (proj2 (Z.eqb_neq _ _) Hz). }
  destruct (Hbr e1 r1 _ _ b2 Hw1 Ha1 Eb) as (v2 & e2 & E2 & Hv2 & Ha2 & Hw2 & Ho2 & He2).
  exists v2, e2. split; [done|]. split; [done|]. split; [done|]. split; [done|].
  split; [by eapply only_trans|by eapply error_trans].
Qed.

Lemma assign_correct op line l c s b y :
  correct b (eval y) -> correct (EAssign op (EIdent s) b) (eval_assign eval line (Some (AST_IDENT l c s)) y op).
Proof.
  intros H1 e r z r' err Hw Ha Hd. simpl in Hd.
  destruct (denote r b) as [[[zb r1] b1]|] eqn:Eb; [|done]. simpl in Hd.
  unfold yields, eval_assign. sub H1 e r b1 Hw Ha Eb v1 e1 Hv1 Ha1 Hw1 Ho1 He1.
  unfold ebind at 1, gets. cbn [obind]. destruct (r1 !! s) as [old|] eqn:Es.
  - destruct (ref_assign op old zb) as [w|] eqn:Er; [|done]. simpl in Hd. injection Hd as <- <- <-.
    destruct (lookup_some _ _ _ _ Ha1 Es) as (k & v & Hf & Hv & Hn). rewrite Hf.
    unfold ebind at 1, get_var. rewrite Hv. cbn [obind].
    assert (exists u, (if bool_decide (op = OP_ASSIGN) then done v1
       else do! old := elift (qd_cint_val_to_int v) in do! v := elift (qd_cint_val_to_int v1) in
            do! z := elift (compound op old v) in done (VAL_INT z)) e1 = Ok (u, e1) /\ num u w) as (u & Eu & Hu).
    { case_bool_decide as Hop; [subst op; injection Er as <-; by exists v1|].
      exists (VAL_INT w). split; [|done]. unfold ebind, elift.
      rewrite (num_to_int _ _ Hn), (num_to_int _ _ Hv1). cbn [obind]. by rewrite (compound_ref _ _ _ _ Hop Er). }
    unfold ebind at 1. rewrite Eu. cbn [obind]. unfold ebind at 1. rewrite (num_free _ _ _ Hn). cbn [obind].
    destruct (write_var_ok e1 r1 s k v w u Hw1 Ha1 Hf Hv Hu) as (e2 & E2 & Ha2 & Hw2 & Ho2 & He2).
    unfold ebind. rewrite E2. cbn. exists u, e2. split; [done|]. split; [done|]. split; [done|]. split; [done|].
    split; [by eapply only_trans|]. destruct b1; unfold error_iff in *; by rewrite He2.
  - injection Hd as <- <- <-. rewrite (lookup_none _ _ _ Ha1 Es). unfold ebind, eval_error, modify. cbn [obind].
    eexists v1, _. split; [reflexivity|]. split; [done|].
    destruct (with_error_ok e1 r1 line (Some (take 255 (("Runtime error at line "%string : cstr) ++ print_lld line ++ (": "%string : cstr) ++ ("Invalid assignment target"%string : cstr)))) Hw1 Ha1) as (K1 & K2 & K3).
    split; [exact K1|]. split; [exact K2|]. split; [by eapply only_trans|]. simpl. by eexists.
Qed.
End operators.

Lemma char_signed c : char_to_int (signed 8 c) = char_to_int c.
Proof.
  unfold char_to_int, signed. change (2 ^ 8) with 256. change (2 ^ (8 - 1)) with 128. f_equal.
  replace ((c + 128) mod 256 - 128 + 128) with ((c + 128) mod 256) by lia. by rewrite Z.mod_mod.
Qed.

Lemma literal_correct a m v z :
  (forall r, denote r a = Some (z, r, false)) -> num v z -> (forall e, m e = Ok (v, e)) -> correct a m.
Proof.
  intros Hd Hv Hm e r z' r' b Hw Ha Hd'. rewrite Hd in Hd'. injection Hd' as <- <- <-.
  exists v, e. split; [done|]. split; [done|]. split; [done|]. split; [done|]. split; [apply only_refl|done].
Qed.

Lemma none_correct a m : (forall r, denote r a = None) -> correct a m.
Proof. intros H e r z r' b _ _ Hd. by rewrite H in Hd. Qed.

Lemma expr_correct a : forall n fuel t, rep a n -> (depth a <= fuel)%nat -> correct a (eval_node fuel t n).
Proof.
  induction a as [i|c|s|s|op a IH|inc a IH|op a IHa b IHb|op a IHa b IHb|a IHa b IHb c IHc|a IHa i IHi|arrow a IH s|f IHf args _| |]
    using expr_mut with (P0 := fun _ => True); try done; intros n fuel t Hn Hf; simpl in Hf;
    (destruct fuel as [|fuel]; [lia|]); simpl in Hn.
  - destruct Hn as (l & k & ->). by apply (literal_correct _ _ (VAL_INT i) i).
  - destruct Hn as (l & k & ->). apply (literal_correct _ _ (VAL_CHAR (signed 8 c)) (char_to_int c)); [done|..|done]. simpl. symmetry. apply char_signed.
  - destruct Hn as (l & k & ->). apply ident_correct.
  - destruct Hn as (l & k & x & Hx & ->).
    destruct op; try (cbn [Eval.eval_node]; eapply unop_correct; [apply IH; [done|lia]|tauto]);
      try (by apply none_correct); intros e r z r' b Hw Ha Hd; destruct a; try done;
      simpl in Hx; destruct Hx as (l' & k' & ->); simpl in Hd, Hf; (destruct fuel as [|fuel]; [lia|]).
    + pose proof (incdec_correct UOP_PRE_INC fuel t l k l' k' e r s I Hw Ha) as H.
      destruct (r !! s) as [y|]; [|by injection Hd as <- <- <-].
      destruct (fits (y + 1)) as [m|] eqn:Em; [|done]. injection Hd as <- <- <-. by apply H.
    + pose proof (incdec_correct UOP_PRE_DEC fuel t l k l' k' e r s I Hw Ha) as H.
      destruct (r !! s) as [y|]; [|by injection Hd as <- <- <-].
      destruct (fits (y - 1)) as [m|] eqn:Em; [|done]. injection Hd as <- <- <-. by apply H.
  - destruct Hn as (l & k & x & Hx & ->). intros e r z r' b Hw Ha Hd. destruct a; try done.
    simpl in Hx. destruct Hx as (l' & k' & ->). simpl in Hd, Hf. (destruct fuel as [|fuel]; [lia|]).
    pose proof (incdec_correct (if inc then UOP_POST_INC else UOP_POST_DEC) fuel t l k l' k' e r s ltac:(by destruct inc) Hw Ha) as H.
    destruct (r !! s) as [y|]; [|injection Hd as <- <- <-; by destruct inc].
    destruct (fits (if inc then y + 1 else y - 1)) as [m|] eqn:Em; [|done]. injection Hd as <- <- <-.
    destruct inc; by apply H.
  - destruct Hn as (l & k & x & y & Hx & Hy & ->). cbn [Eval.eval_node]. apply binop_correct; [apply IHa|apply IHb]; auto; lia.
  - destruct Hn as (l & k & x & y & Hx & Hy & ->). destruct a; try (by apply none_correct).
    simpl in Hx. destruct Hx as (l' & k' & ->). cbn [Eval.eval_node]. apply assign_correct. apply IHb; auto. lia.
  - destruct Hn as (l & k & x & y & w & Hx & Hy & Hz & ->). cbn [Eval.eval_node].
    apply tern_correct; [apply IHa|apply IHb|apply IHc]; auto; lia.
Qed.
End evaluation.

(** ** From the text *)

(** The text of an expression statement. *)
Definition print_statement (a : expr) : cstr := source (body a ++ [tok TOK_SEMICOLON]).

(** The tokens an expression starts with. *)
Definition starts : list qd_cint_token_type :=
  [TOK_INT; TOK_CHAR; TOK_STRING; TOK_IDENT; TOK_MINUS; TOK_NOT; TOK_BNOT; TOK_INC; TOK_DEC; TOK_STAR; TOK_BAND; TOK_LPAREN].

Definition starts_well (l : list lexeme) : Prop := match l with [] => False | x :: _ => x.1.2 ∈ starts end.

Lemma starts_app l r : starts_well l -> starts_well (l ++ r).
Proof. by destruct l. Qed.

Lemma starts_paren b l : starts_well l -> starts_well (paren b l).
Proof. destruct b; [|done]. intros _. apply (bool_decide_unpack _). vm_compute. exact I. Qed.

Lemma body_starts a : wf a -> starts_well (body a).
Proof.
  induction a as [i|c|s|s|op a IH|inc a IH|op a IHa b IHb|op a IHa b IHb|a IHa b IHb c IHc|a IHa i IHi|arrow a IH s|f IHf args _| |]
    using expr_mut with (P0 := fun _ => True); try done; intros Hw; simpl in Hw; cbn [body];
    try (apply (bool_decide_unpack _); vm_compute; exact I).
  - destruct op; apply (bool_decide_unpack _); vm_compute; exact I.
  - by apply starts_app, starts_paren, IH.
  - destruct Hw as ([[t q] Ht] & Ha & Hb). rewrite Ht. by apply starts_app, starts_paren, IHa.
  - destruct Hw as ([t Ht] & Ha & Hb). rewrite Ht. by apply starts_app, starts_paren, IHa.
  - destruct Hw as [Ha _]. by apply starts_app, starts_paren, IHa.
  - destruct Hw as [Ha _]. by apply starts_app, starts_paren, IHa.
  - destruct Hw as [Ha _]. by apply starts_app, starts_paren, IH.
  - destruct Hw as [Ha _]. by apply starts_app, starts_paren, IHf.
Qed.

(** The statement parser takes it as an expression statement. *)
Lemma statement_default f p :
  type (current p) ∈ starts ->
  parse_statement (S f) p =
    (let* (l, c) := position in
     let* e := parse_expression f in
     let* _ := expect TOK_SEMICOLON ("Expected ';' after expression"%string : cstr) in
     ret (Some (AST_EXPR_STMT l c e))) p.
Proof.
  intros Ht. cbn [parse_statement]. unfold pbind at 1 2, position at 1, current_type. cbn [obind].
  unfold starts in Ht. repeat (apply elem_of_cons in Ht as [Ht|Ht]; [by rewrite Ht|]). by apply not_elem_of_nil in Ht.
Qed.

Lemma statement_text a :
  wf a -> exists p0 N, qd_cint_parser_init (print_statement a) 0 = Ok p0 /\
    forall fuel, (N <= fuel)%nat -> exists l c n p',
      qd_cint_parse_statement fuel p0 = Ok (Some (AST_EXPR_STMT l c n), p') /\ rep a n /\
      qd_cint_parser_had_error p' = false.
Proof.
  intros Hw. pose proof (body_starts a Hw) as Hst.
  assert (Forall spelled (body a ++ [tok TOK_SEMICOLON])) as Hsp.
  { apply Forall_app. split; [by apply body_spelled|]. apply Forall_singleton. by apply tok_spelled. }
  destruct (init_stream _ Hsp) as (p0 & E0 & S0 & H0); [by destruct (body a)|].
  destruct (claim_all a Hw) as [Hall _]. destruct (Hall 0%nat ltac:(lia)) as [N HN]. rewrite print_low in HN by lia.
  exists p0, (S N). split; [done|]. intros fuel Hf. destruct fuel as [|fuel]; [lia|].
  destruct (HN fuel ltac:(lia) [tok TOK_SEMICOLON] p0) as (n & p1 & E1 & Hr & Hs1 & He1); [by apply ends_none|done|].
  destruct (expect_yes p1 TOK_SEMICOLON _ _ ("Expected ';' after expression"%string : cstr) _ Hs1) as (p2 & E2 & _ & _ & He2).
  eexists _, _, n, p2. split; [|split; [done|unfold qd_cint_parser_had_error; congruence]].
  unfold qd_cint_parse_statement. rewrite statement_default.
  - unfold pbind, position, ret. cbn [obind]. unfold parse_at in E1. change (parse_expression fuel) with (parse_assignment fuel).
    rewrite E1. cbn [obind]. rewrite E2. reflexivity.
  - destruct S0 as [_ S0]. destruct (body a) as [|x l]; [done|]. simpl in S0. destruct S0 as (-> & _). done.
Qed.

(** ** The interpreter on the text of an expression *)

Section interpreter.
Context (strtod : cstr -> SpecFloat.spec_float) (print_g : SpecFloat.spec_float -> cstr) (print_p : Z -> cstr)
  (native_call : Z -> list Z -> Z).
Implicit Types (e : qd_cint_eval) (r : env).

Lemma free_tree_agree e r t : agree e r -> agree (with_freed (t :: freed e) e) r.
Proof. done. Qed.

(** The parsed statement evaluates as the expression. *)
Lemma statement_evaluates a :
  wf a -> exists p0 N, qd_cint_parser_init (print_statement a) 0 = Ok p0 /\
    forall fuel, (N <= fuel)%nat -> exists n p',
      qd_cint_parse_statement fuel p0 = Ok (n, p') /\ qd_cint_parser_had_error p' = false /\
      forall t e r z r' b, wf_eval e -> agree e r -> denote r a = Some (z, r', b) ->
        yields (eval_node strtod print_g print_p native_call fuel t n) e z r' b.
Proof.
  intros Hw. destruct (statement_text a Hw) as (p0 & N & E0 & HN).
  exists p0, (max N (S (depth a))). split; [done|]. intros fuel Hf.
  destruct (HN fuel ltac:(lia)) as (l & c & n & p' & E1 & Hr & He).
  eexists _, p'. split; [exact E1|]. split; [done|]. intros t e r z r' b He' Ha Hd.
  destruct fuel as [|fuel]; [lia|]. cbn [eval_node].
  apply (expr_correct strtod print_g print_p native_call a n fuel t Hr ltac:(lia) e r); done.
Qed.

(** C18: Expressions, from text to value.  Let the variables in scope hold the
    integers [r].  For every expression of the reference semantics (literals,
    variables, all arithmetic, comparison, logical and bit operators, conditionals,
    assignments, increments and decrements), [qd_cint_eval_string] on its text (with
    only the parentheses that C's precedences require) returns without undefined
    behaviour the value of the reference semantics, leaves the variables as it says,
    and prints nothing. *)
Theorem eval_string_correct a e r z r' b :
  wf a -> wf_eval e -> agree e r -> denote r a = Some (z, r', b) ->
  exists N, forall fuel, (N <= fuel)%nat -> exists v e',
    qd_cint_eval_string strtod print_g print_p native_call fuel (print_statement a) e = Ok (v, e') /\
    num v z /\ agree e' r' /\ out e' = out e.
Proof.
  intros Hw He Ha Hd. destruct (statement_evaluates a Hw) as (p0 & N & E0 & HN).
  exists N. intros fuel Hf. destruct (HN fuel Hf) as (n & p' & E1 & Hp & Hy).
  destruct (Hy (fresh_tree e) e r z r' b He Ha Hd) as (v & e' & E2 & Hv & Ha' & _ & Ho & _).
  exists v, (with_freed (fresh_tree e :: freed e') e'). split.
  - unfold qd_cint_eval_string, ebind, elift. rewrite E0. cbn [obind]. rewrite E1. cbn [obind]. rewrite Hp.
    unfold gets. cbn [obind]. rewrite E2. reflexivity.
  - split; [done|]. split; [done|]. apply Ho.
Qed.

(** C19: The result code of qd_cint_eval on the text of an expression to which [denote]
    gives a value: integers, characters, variables, operators, assignments and increments of
    variables and conditionals, with no overflow, division by zero, call, array, member or
    assignment to anything but a variable. In an interpreter whose variables in scope are
    all of type int or char, that is not verbose and has no error pending, the call returns
    -1 exactly when the evaluation reads or assigns a variable that is not in scope, and 0
    otherwise (a variable in the branch of a conditional that is not taken does not count);
    in both cases the rest of the expression takes effect as [denote] says, nothing is
    printed and no error is left pending. *)
Theorem eval_line_reports a e r z r' b :
  wf a -> wf_eval e -> agree e r -> ev_error e = None -> denote r a = Some (z, r', b) ->
  exists N, forall fuel, (N <= fuel)%nat -> exists e',
    qd_cint_eval_line strtod print_g print_p native_call fuel false (print_statement a) e
      = Ok (if b then -1 else 0, e') /\
    ev_error e' = None /\ agree e' r' /\ out e' = out e.
Proof.
  intros Hw He Ha Herr Hd. destruct (statement_evaluates a Hw) as (p0 & N & E0 & HN).
  exists N. intros fuel Hf. destruct (HN fuel Hf) as (n & p' & E1 & Hp & Hy).
  destruct (Hy (fresh_tree e) e r z r' b He Ha Hd) as (v & e' & E2 & Hv & Ha' & _ & Ho & Her).
  assert (exists e2, report (with_freed (fresh_tree e :: freed e') e') = Ok (if b then -1 else 0, e2) /\
    ev_error e2 = None /\ agree e2 r' /\ out e2 = out e') as (e2 & E3 & H1 & H2 & H3).
  { unfold report, ebind, gets, qd_cint_eval_error. cbn. destruct b; simpl in Her.
    - destruct Her as [m Hm]. rewrite Hm. by eexists.
    - rewrite Her, Herr. eexists. split; [done|]. split; [simpl; congruence|done]. }
  exists e2. split; [|split; [done|]; split; [done|rewrite H3; apply Ho]].
  unfold qd_cint_eval_line, ebind, elift. rewrite E0. cbn [obind]. rewrite E1. cbn [obind]. rewrite Hp.
  unfold gets, qd_cint_eval_ast. cbn [obind]. rewrite E2. cbn [obind].
  replace (match v with VAL_VOID => done tt | _ => done tt end) with (@done unit tt) by (by destruct v).
  cbn. rewrite (num_free v z e' Hv). cbn. exact E3.
Qed.
End interpreter.

(** ** Examples *)

Definition demo_state : qd_cint_eval :=
  mkEval [(of_string "x", 0)] None {[0 := VAL_INT 6]} 1 ∅ 0 VAL_VOID FLOW_NORMAL None 0 [] [] [].
Definition demo_env : env := {[of_string "x" := 6]}.

Lemma demo_state_wf : wf_eval demo_state.
Proof.
  split; unfold current_ids; simpl.
  - apply NoDup_singleton.
  - intros c Hc. apply list_elem_of_singleton in Hc as ->. by eexists.
  - intros c [v Hv]. apply lookup_singleton_Some in Hv as [<- _]. lia.
Qed.

Lemma demo_state_agree : agree demo_state demo_env.
Proof.
  intros y. unfold demo_env. destruct (decide (of_string "x" = y)) as [<-|Hne].
  - rewrite lookup_singleton_eq. by exists 0, (VAL_INT 6).
  - rewrite lookup_singleton_ne by done. unfold scope_find, find_in. cbn [local_scope demo_state global_scope List.find fst].
    by rewrite bool_decide_eq_false_2.
Qed.

(** x += (x = 2) * (3 - 7) *)
Definition sum_expr : expr :=
  EAssign OP_ADD_ASSIGN (EIdent (of_string "x"))
    (EBin OP_MUL (EAssign OP_ASSIGN (EIdent (of_string "x")) (EInt 2)) (EBin OP_SUB (EInt 3) (EInt 7))).

Lemma sum_expr_wf : wf sum_expr.
Proof. simpl. repeat split; try lia; try (by eexists); reflexivity. Qed.

Lemma eval_string_correct_witness :
  denote demo_env sum_expr = Some (-6, {[of_string "x" := -6]}, false) /\
  exists N, forall fuel, (N <= fuel)%nat -> exists v e',
    qd_cint_eval_string no_strtod no_text no_text no_native fuel (print_statement sum_expr) demo_state = Ok (v, e') /\
    num v (-6) /\ agree e' {[of_string "x" := -6]} /\ out e' = out demo_state.
Proof.
  split; [vm_compute; reflexivity|].
  apply (eval_string_correct no_strtod no_text no_text no_native sum_expr demo_state demo_env (-6) {[of_string "x" := -6]} false).
  - exact sum_expr_wf.
  - exact demo_state_wf.
  - exact demo_state_agree.
  - vm_compute. reflexivity.
Defined.

Definition unbound_expr : expr := EBin OP_ADD (EIdent (of_string "x")) (EIdent (of_string "y")).

Lemma eval_line_reports_witness :
  exists N, forall fuel, (N <= fuel)%nat -> exists e',
    qd_cint_eval_line no_strtod no_text no_text no_native fuel false (print_statement unbound_expr) demo_state = Ok (-1, e') /\
    ev_error e' = None /\ agree e' demo_env /\ out e' = out demo_state.
Proof.
  apply (eval_line_reports no_strtod no_text no_text no_native unbound_expr demo_state demo_env 6 demo_env true).
  - simpl. repeat split; try (by eexists); reflexivity.
  - exact demo_state_wf.
  - exact demo_state_agree.
  - reflexivity.
  - vm_compute. reflexivity.
Defined.
