(* ===== verification/MpmcRing.v ===== *)
(** * src/core/qd_threadpool.c: the lock-free ring of external submissions

    A bounded ring for several producers and several consumers; every cell carries a
    sequence number that tells whose turn it is.  As for the channel, a call is a
    machine whose steps are the atomic accesses of the C function, and a run is any
    interleaving of the steps of any number of threads (sequentially consistent
    memory).  Running a machine alone gives the function a single thread sees. *)

From S2P Require Import Prelude Common.

(** [struct qd_mpmc_ring]: a cell is its sequence number and its task pointer. *)
Record qd_mpmc_ring := mkMpmc {
  cells : list (Z * Z);
  r_capacity : Z;
  r_mask : Z;
  r_head : Z;
  r_tail : Z
}.

Definition set_cells (l : list (Z * Z)) (r : qd_mpmc_ring) : qd_mpmc_ring :=
  mkMpmc l (r_capacity r) (r_mask r) (r_head r) (r_tail r).
Definition set_r_head (h : Z) (r : qd_mpmc_ring) : qd_mpmc_ring :=
  mkMpmc (cells r) (r_capacity r) (r_mask r) h (r_tail r).
Definition set_r_tail (t : Z) (r : qd_mpmc_ring) : qd_mpmc_ring :=
  mkMpmc (cells r) (r_capacity r) (r_mask r) (r_head r) t.

(** [calloc_ok]: the cells could be allocated. *)
Definition qd_mpmc_ring_init (calloc_ok : bool) (capacity : Z) : option qd_mpmc_ring :=
  if capacity =? 0 then None else
  let capacity := qd_next_pow2_64 capacity in
  if negb calloc_ok then None else
  Some (mkMpmc ((fun i => (Z.of_nat i, 0)) <$> seq 0 (Z.to_nat capacity)) capacity (capacity -64 1) 0 0).

Definition get_cell (r : qd_mpmc_ring) (pos : Z) : outcome (Z * Z) :=
  of_option (cells r !! Z.to_nat (Z.land pos (r_mask r))).

Definition put_seq (r : qd_mpmc_ring) (pos s : Z) : outcome qd_mpmc_ring :=
  let! c := get_cell r pos in
  Ok (set_cells (<[Z.to_nat (Z.land pos (r_mask r)) := (s, c.2)]> (cells r)) r).

Definition put_task (r : qd_mpmc_ring) (pos t : Z) : outcome qd_mpmc_ring :=
  let! c := get_cell r pos in
  Ok (set_cells (<[Z.to_nat (Z.land pos (r_mask r)) := (c.1, t)]> (cells r)) r).

(** [(intptr_t)a - (intptr_t)b]; signed overflow is undefined. *)
Definition intptr_diff (a b : Z) : outcome Z :=
  let d := i64 a - i64 b in
  if (- 2 ^ 63 <=? d) && (d <? 2 ^ 63) then Ok d else Undef.

(** ** qd_mpmc_ring_push *)

Inductive push_pc :=
| PLoad
| PSeq (pos : Z)
| PCas (pos : Z)
| PWrite (pos : Z)
| PPublish (pos : Z)
| PReturn (code : Z).

(** One atomic step; [weak] tells a compare-and-exchange to fail spuriously. *)
Definition push_step (weak : bool) (task : Z) (pc : push_pc) (r : qd_mpmc_ring)
  : outcome (push_pc * qd_mpmc_ring) :=
  match pc with
  | PLoad => Ok (PSeq (r_tail r), r)
  | PSeq pos =>
    let! c := get_cell r pos in
    let! dif := intptr_diff c.1 pos in
    Ok (if dif =? 0 then PCas pos else if dif <? 0 then PReturn QD_ERR_BUSY else PLoad, r)
  | PCas pos =>
    if negb weak && (r_tail r =? pos) then Ok (PWrite pos, set_r_tail (pos +64 1) r)
    else Ok (PSeq (r_tail r), r)
  | PWrite pos => let! r := put_task r pos task in Ok (PPublish pos, r)
  | PPublish pos => let! r := put_seq r pos (pos +64 1) in Ok (PReturn QD_OK, r)
  | PReturn code => Ok (PReturn code, r)
  end.

(** ** qd_mpmc_ring_pop *)

Inductive pop_pc :=
| QLoad
| QSeq (pos : Z)
| QCas (pos : Z)
| QRead (pos : Z)
| QPublish (pos task : Z)
| QReturn (code : Z) (task : option Z).

Definition pop_step (weak : bool) (pc : pop_pc) (r : qd_mpmc_ring) : outcome (pop_pc * qd_mpmc_ring) :=
  match pc with
  | QLoad => Ok (QSeq (r_head r), r)
  | QSeq pos =>
    let! c := get_cell r pos in
    let! dif := intptr_diff c.1 (pos +64 1) in
    Ok (if dif =? 0 then QCas pos else if dif <? 0 then QReturn QD_ERR_AGAIN None else QLoad, r)
  | QCas pos =>
    if negb weak && (r_head r =? pos) then Ok (QRead pos, set_r_head (pos +64 1) r)
    else Ok (QSeq (r_head r), r)
  | QRead pos => let! c := get_cell r pos in Ok (QPublish pos c.2, r)
  | QPublish pos t => let! r := put_seq r pos (pos +64 r_capacity r) in Ok (QReturn QD_OK (Some t), r)
  | QReturn code t => Ok (QReturn code t, r)
  end.

(** ** The calls of a thread that runs alone *)

Fixpoint run_push (fuel : nat) (task : Z) (pc : push_pc) (r : qd_mpmc_ring) : outcome (Z * qd_mpmc_ring) :=
  match pc, fuel with
  | PReturn code, _ => Ok (code, r)
  | _, O => Fuel
  | _, S fuel => let! (pc, r) := push_step false task pc r in run_push fuel task pc r
  end.
Definition qd_mpmc_ring_push (fuel : nat) (r : qd_mpmc_ring) (task : Z) : outcome (Z * qd_mpmc_ring) :=
  run_push fuel task PLoad r.

Fixpoint run_pop (fuel : nat) (pc : pop_pc) (r : qd_mpmc_ring) : outcome (Z * option Z * qd_mpmc_ring) :=
  match pc, fuel with
  | QReturn code t, _ => Ok (code, t, r)
  | _, O => Fuel
  | _, S fuel => let! (pc, r) := pop_step false pc r in run_pop fuel pc r
  end.
Definition qd_mpmc_ring_pop (fuel : nat) (r : qd_mpmc_ring) : outcome (Z * option Z * qd_mpmc_ring) :=
  run_pop fuel QLoad r.

(** ** The interleaving of all threads

    [pushed] logs the tasks in the order in which producers reserved their positions,
    [popped] the positions and tasks that consumers read. *)

Inductive thread :=
| TPush (task : Z) (pc : push_pc)
| TPop (pc : pop_pc).

Record world := mkWorld {
  ring : qd_mpmc_ring;
  threads : gmap nat thread;
  pushed : list Z;
  popped : list (Z * Z)
}.

Inductive action :=
| APush (i : nat) (task : Z)
| APop (i : nat)
| AStep (i : nat) (weak : bool).

(** A thread is idle before its first call and after the return of a call. *)
Definition idle (t : option thread) : bool :=
  match t with
  | None | Some (TPush _ (PReturn _)) | Some (TPop (QReturn _ _)) => true
  | _ => false
  end.

Definition reserved (task : Z) (pc pc' : push_pc) : list Z :=
  match pc, pc' with PCas _, PWrite _ => [task] | _, _ => [] end.
Definition obtained (pc pc' : pop_pc) : list (Z * Z) :=
  match pc, pc' with QRead _, QPublish pos t => [(pos, t)] | _, _ => [] end.

Definition start (i : nat) (t : thread) (w : world) : world :=
  if idle (threads w !! i) then mkWorld (ring w) (<[i := t]> (threads w)) (pushed w) (popped w) else w.

Definition step (a : action) (w : world) : outcome world :=
  match a with
  | APush i task => Ok (start i (TPush task PLoad) w)
  | APop i => Ok (start i (TPop QLoad) w)
  | AStep i weak =>
    match threads w !! i with
    | None => Ok w
    | Some (TPush task pc) =>
      let! (pc', r) := push_step weak task pc (ring w) in
      Ok (mkWorld r (<[i := TPush task pc']> (threads w)) (pushed w ++ reserved task pc pc') (popped w))
    | Some (TPop pc) =>
      let! (pc', r) := pop_step weak pc (ring w) in
      Ok (mkWorld r (<[i := TPop pc']> (threads w)) (pushed w) (popped w ++ obtained pc pc'))
    end
  end.

Fixpoint run (l : list action) (w : world) : outcome world :=
  match l with
  | [] => Ok w
  | a :: l => let! w := step a w in run l w
  end.

Definition new_world (r : qd_mpmc_ring) : world := mkWorld r ∅ [] [].

(** Two producers and a consumer on a ring of two cells. *)
Example mpmc_ex :
  (let! w := run ([APush 0 7; APush 1 8; APop 2] ++ concat (replicate 12 [AStep 0 false; AStep 1 false; AStep 2 false]))
     (new_world (default (mkMpmc [] 0 0 0 0) (qd_mpmc_ring_init true 2))) in
   Ok (pushed w, popped w, threads w !! 2%nat)) = Ok ([7; 8], [], Some (TPop (QReturn QD_ERR_AGAIN None))).
Proof. vm_compute. reflexivity. Qed.

(** ** The shape of a ring *)

Record shape (r : qd_mpmc_ring) : Prop := {
  sh_pow : exists k, 1 <= k /\ r_capacity r = 2 ^ k;
  sh_mask : r_mask r = r_capacity r - 1;
  sh_cells : Z.of_nat (length (cells r)) = r_capacity r
}.

Definition slot (r : qd_mpmc_ring) (pos : Z) : nat := Z.to_nat (pos mod r_capacity r).

Lemma shape_capacity2 r : shape r -> 2 <= r_capacity r.
Proof.
  intros [(k & Hk & ->) _ _]. change 2 with (2 ^ 1) at 1. apply Z.pow_le_mono_r; lia.
Qed.

Lemma slot_land r pos : shape r -> Z.to_nat (Z.land pos (r_mask r)) = slot r pos.
Proof. intros [(k & Hk & E) Hm _]. unfold slot. rewrite Hm, E, land_mask by lia. done. Qed.

Lemma slot_lt r pos : shape r -> (slot r pos < length (cells r))%nat.
Proof.
  intros Hs. pose proof (shape_capacity2 r Hs). destruct Hs as [_ _ Hc]. unfold slot.
  pose proof (Z.mod_pos_bound pos (r_capacity r)). lia.
Qed.

(** Positions less than a capacity apart with the same slot are equal. *)
Lemma slot_inj r p q :
  shape r -> slot r p = slot r q -> - r_capacity r < p - q < r_capacity r -> p = q.
Proof.
  intros Hs E Hd. pose proof (shape_capacity2 r Hs). unfold slot in E.
  pose proof (Z.mod_pos_bound p (r_capacity r)). pose proof (Z.mod_pos_bound q (r_capacity r)).
  pose proof (Z.div_mod p (r_capacity r)). pose proof (Z.div_mod q (r_capacity r)).
  assert (p mod r_capacity r = q mod r_capacity r) by lia.
  assert (p / r_capacity r = q / r_capacity r); nia.
Qed.

Lemma slot_next r p : shape r -> slot r (p + r_capacity r) = slot r p.
Proof.
  intros Hs. pose proof (shape_capacity2 r Hs). unfold slot. f_equal.
  replace (p + r_capacity r) with (p + 1 * r_capacity r) by lia. apply Z.mod_add. lia.
Qed.

Lemma get_cell_ok r pos : shape r ->
  exists c, cells r !! slot r pos = Some c /\ get_cell r pos = Ok c.
Proof.
  intros Hs. destruct (lookup_lt_is_Some_2 _ _ (slot_lt r pos Hs)) as [c Hc].
  exists c. split; [done|]. unfold get_cell. by rewrite slot_land, Hc.
Qed.

Lemma get_cell_eq r pos c : shape r -> cells r !! slot r pos = Some c -> get_cell r pos = Ok c.
Proof. intros Hs Hc. unfold get_cell. by rewrite slot_land, Hc. Qed.

Lemma put_seq_eq r pos c s : shape r -> cells r !! slot r pos = Some c ->
  put_seq r pos s = Ok (set_cells (<[slot r pos := (s, c.2)]> (cells r)) r).
Proof. intros Hs Hc. unfold put_seq. rewrite (get_cell_eq _ _ c) by done. simpl. by rewrite slot_land. Qed.

Lemma put_task_eq r pos c t : shape r -> cells r !! slot r pos = Some c ->
  put_task r pos t = Ok (set_cells (<[slot r pos := (c.1, t)]> (cells r)) r).
Proof. intros Hs Hc. unfold put_task. rewrite (get_cell_eq _ _ c) by done. simpl. by rewrite slot_land. Qed.

Lemma intptr_diff_small a b : 0 <= a < 2 ^ 63 -> 0 <= b < 2 ^ 63 -> intptr_diff a b = Ok (a - b).
Proof.
  intros Ha Hb. unfold intptr_diff, i64. rewrite !signed_small by lia. cbv zeta.
  destruct (Z.leb_spec (- 2 ^ 63) (a - b)); [|lia]. destruct (Z.ltb_spec (a - b) (2 ^ 63)); [done|lia].
Qed.

(** ** The invariant

    A cell is in turn empty for position [p] (sequence number [p]), full with the task
    of position [p] ([p + 1]), empty for [p + capacity], and so on.  [owner b p i]:
    thread [i] has reserved the position [p] for its push ([b = true]) or its pop. *)

Definition empty_for (r : qd_mpmc_ring) (p : Z) (c : Z * Z) : Prop :=
  c.1 = p /\ r_head r <= p < r_head r + r_capacity r.
Definition full_with (r : qd_mpmc_ring) (log : list Z) (p : Z) (c : Z * Z) : Prop :=
  c.1 = p + 1 /\ 0 <= p < r_tail r /\ log !! Z.to_nat p = Some c.2 /\ r_tail r <= p + r_capacity r.

Definition push_claim (pc : push_pc) : option Z :=
  match pc with PWrite p | PPublish p => Some p | _ => None end.
Definition pop_claim (pc : pop_pc) : option Z :=
  match pc with QRead p | QPublish p _ => Some p | _ => None end.
Definition claim (t : thread) : option (bool * Z) :=
  match t with
  | TPush _ pc => (fun p => (true, p)) <$> push_claim pc
  | TPop pc => (fun p => (false, p)) <$> pop_claim pc
  end.

Record ring_ok (r : qd_mpmc_ring) (log : list Z) : Prop := {
  ok_shape : shape r;
  ok_order : 0 <= r_head r <= r_tail r /\ r_tail r <= r_head r + r_capacity r /\ r_tail r = Z.of_nat (length log);
  ok_cells : forall j c, cells r !! j = Some c -> exists p, slot r p = j /\ (empty_for r p c \/ full_with r log p c)
}.

(** The cell of a position is at least so far. *)
Definition reached (r : qd_mpmc_ring) (pos s : Z) : Prop :=
  exists c, cells r !! slot r pos = Some c /\ s <= c.1.

Definition push_ok (r : qd_mpmc_ring) (log : list Z) (task : Z) (pc : push_pc) : Prop :=
  match pc with
  | PSeq p => 0 <= p <= r_tail r
  | PCas p => 0 <= p <= r_tail r /\ reached r p p
  | PWrite p => 0 <= p < r_tail r /\ log !! Z.to_nat p = Some task /\ exists t, cells r !! slot r p = Some (p, t)
  | PPublish p => 0 <= p < r_tail r /\ log !! Z.to_nat p = Some task /\ cells r !! slot r p = Some (p, task)
  | _ => True
  end.

Definition pop_ok (r : qd_mpmc_ring) (log : list Z) (pc : pop_pc) : Prop :=
  match pc with
  | QSeq p => 0 <= p <= r_head r
  | QCas p => 0 <= p <= r_head r /\ reached r p (p + 1)
  | QRead p => 0 <= p < r_head r /\ exists t, cells r !! slot r p = Some (p + 1, t)
  | QPublish p t =>
    0 <= p < r_head r /\ log !! Z.to_nat p = Some t /\ exists t', cells r !! slot r p = Some (p + 1, t')
  | _ => True
  end.

Definition thread_ok (r : qd_mpmc_ring) (log : list Z) (t : thread) : Prop :=
  match t with TPush task pc => push_ok r log task pc | TPop pc => pop_ok r log pc end.

(** ** Reservations *)

Section ring_facts.
Context (r : qd_mpmc_ring) (log : list Z).
Hypothesis HR : ring_ok r log.

Lemma cell_phase p : exists c q, cells r !! slot r p = Some c /\ slot r q = slot r p /\
  (empty_for r q c \/ full_with r log q c).
Proof.
  destruct HR as [Hs _ Hc]. destruct (get_cell_ok r p Hs) as (c & Hl & _).
  destruct (Hc _ _ Hl) as (q & ? & ?). by exists c, q.
Qed.

(** The next position to push is empty when its cell has reached it. *)
Lemma tail_empty : reached r (r_tail r) (r_tail r) ->
  exists c, cells r !! slot r (r_tail r) = Some c /\ empty_for r (r_tail r) c.
Proof.
  intros (c & Hc & Hge). destruct (ok_cells _ _ HR _ _ Hc) as (q & Hq & [[E1 E2]|(F1 & F2 & F3 & F4)]).
  - pose proof (ok_order _ _ HR) as (O1 & O2 & O3). exists c. split; [done|].
    assert (q = r_tail r) as <-; [|done]. apply (slot_inj r); [apply HR|done|]. lia.
  - exfalso. pose proof (shape_capacity2 r (ok_shape _ _ HR)).
    assert (q = r_tail r); [|lia]. apply (slot_inj r); [apply HR|done|]. lia.
Qed.

(** The next position to pop is full when its cell has passed it. *)
Lemma head_full : reached r (r_head r) (r_head r + 1) ->
  exists c, cells r !! slot r (r_head r) = Some c /\ full_with r log (r_head r) c.
Proof.
  intros (c & Hc & Hge). pose proof (ok_order _ _ HR) as (O1 & O2 & O3).
  destruct (ok_cells _ _ HR _ _ Hc) as (q & Hq & [[E1 E2]|(F1 & F2 & F3 & F4)]).
  - exfalso. assert (q = r_head r); [|lia]. apply (slot_inj r); [apply HR|done|]. lia.
  - exists c. split; [done|]. assert (q = r_head r) as <-; [|done]. apply (slot_inj r); [apply HR|done|]. lia.
Qed.

(** The sequence number tells the phase. *)
Lemma empty_seq p t : cells r !! slot r p = Some (p, t) -> empty_for r p (p, t).
Proof.
  intros Hc. pose proof (shape_capacity2 r (ok_shape _ _ HR)).
  destruct (ok_cells _ _ HR _ _ Hc) as (q & Hq & [[E1 E2]|(F1 & F2 & F3 & F4)]); simpl in *.
  - by subst.
  - exfalso. assert (q = p); [|lia]. apply (slot_inj r); [apply HR|done|]. lia.
Qed.

Lemma full_seq p t : cells r !! slot r p = Some (p + 1, t) -> full_with r log p (p + 1, t).
Proof.
  intros Hc. pose proof (shape_capacity2 r (ok_shape _ _ HR)).
  destruct (ok_cells _ _ HR _ _ Hc) as (q & Hq & [[E1 E2]|(F1 & F2 & F3 & F4)]); simpl in *.
  - exfalso. assert (q = p); [|lia]. apply (slot_inj r); [apply HR|done|]. lia.
  - replace p with q in * by lia. done.
Qed.
End ring_facts.

(** ** The steps that change the ring

    [evolves r log r' log' j]: positions and sequence numbers only grow, and no cell but
    [j] changes. *)

Record evolves (r : qd_mpmc_ring) (log : list Z) (r' : qd_mpmc_ring) (log' : list Z) (j : option nat) : Prop := {
  ev_capacity : r_capacity r' = r_capacity r;
  ev_head : r_head r <= r_head r';
  ev_tail : r_tail r <= r_tail r';
  ev_log : log `prefix_of` log';
  ev_cells : forall k c, cells r !! k = Some c ->
    exists c', cells r' !! k = Some c' /\ c.1 <= c'.1 /\ (Some k <> j -> c' = c)
}.

Lemma evolves_slot r log r' log' j p : evolves r log r' log' j -> slot r' p = slot r p.
Proof. intros [E _ _ _ _]. unfold slot. by rewrite E. Qed.

Lemma evolves_same r log r' log' :
  cells r' = cells r -> r_capacity r' = r_capacity r -> r_head r <= r_head r' -> r_tail r <= r_tail r' ->
  log `prefix_of` log' -> evolves r log r' log' None.
Proof. intros Hc ? ? ? ?. split; try done. intros k c Hk. exists c. rewrite Hc. split; [done|]. split; [lia|done]. Qed.

Lemma evolves_cell r log k c c' :
  cells r !! k = Some c -> c.1 <= c'.1 -> evolves r log (set_cells (<[k := c']> (cells r)) r) log (Some k).
Proof.
  intros Hk Hle. split; try done; try lia. simpl. intros j d Hj. destruct (decide (j = k)) as [->|Hne].
  - exists c'. rewrite list_lookup_insert_eq by (by eapply lookup_lt_Some). simplify_eq. split; [done|]. by split.
  - exists d. rewrite list_lookup_insert_ne by done. split; [done|]. split; [lia|done].
Qed.

(** What a thread knows stays true when others change other cells. *)
Lemma thread_ok_evolves r log r' log' j t :
  evolves r log r' log' j -> thread_ok r log t ->
  (forall b p, claim t = Some (b, p) -> Some (slot r p) <> j) -> thread_ok r' log' t.
Proof.
  intros He Ht Hj. pose proof (fun p => evolves_slot _ _ _ _ _ p He) as Hsl. destruct He as [Ec Eh Et El Ecl].
  assert (forall p s, reached r p s -> reached r' p s) as Hre.
  { intros p s (c & Hc & Hs). destruct (Ecl _ _ Hc) as (c' & Hc' & Hle & _). exists c'. rewrite Hsl. split; [done|lia]. }
  assert (forall p t, log !! p = Some t -> log' !! p = Some t) as Hlog by (intros; by eapply prefix_lookup_Some).
  assert (forall p c, Some (slot r p) <> j -> cells r !! slot r p = Some c -> cells r' !! slot r' p = Some c) as Hcell.
  { intros p c Hne Hc. destruct (Ecl _ _ Hc) as (c' & Hc' & _ & Hk). rewrite Hsl, Hc'. f_equal. by apply Hk. }
  destruct t as [task pc|pc]; destruct pc; simpl in *; try done; try lia.
  - destruct Ht as [? ?]. split; [lia|auto].
  - destruct Ht as (? & ? & u & ?). split; [lia|]. split; [auto|]. exists u. eapply Hcell; [by eapply Hj|done].
  - destruct Ht as (? & ? & ?). split; [lia|]. split; [auto|]. eapply Hcell; [by eapply Hj|done].
  - destruct Ht as [? ?]. split; [lia|auto].
  - destruct Ht as (? & u & ?). split; [lia|]. exists u. eapply Hcell; [by eapply Hj|done].
  - destruct Ht as (? & ? & u & ?). split; [lia|]. split; [auto|]. exists u. eapply Hcell; [by eapply Hj|done].
Qed.

Section ring_changes.
Context (r : qd_mpmc_ring) (log : list Z).
Hypothesis HR : ring_ok r log.

Lemma shape_same l r' : r_capacity r' = r_capacity r -> r_mask r' = r_mask r -> cells r' = l ->
  length l = length (cells r) -> shape r'.
Proof. destruct HR as [[? ? ?] _ _]. intros E1 E2 <- E4. split; rewrite ?E1, ?E2, ?E4; done. Qed.

(** The compare-and-exchange of a push. *)
Lemma reserve_push t : reached r (r_tail r) (r_tail r) ->
  ring_ok (set_r_tail (r_tail r + 1) r) (log ++ [t]).
Proof.
  intros Hre. destruct (tail_empty r log HR Hre) as (c & Hc & Hem). pose proof Hem as [E1 E2].
  pose proof (ok_order _ _ HR) as (O1 & O2 & O3). split.
  - by eapply shape_same.
  - simpl. rewrite length_app. simpl. lia.
  - simpl. intros j d Hd. destruct (ok_cells _ _ HR _ _ Hd) as (q & Hq & Hph). exists q. split; [done|].
    destruct Hph as [?|(F1 & F2 & F3 & F4)]; [by left|right].
    split; [done|]. simpl. split; [lia|]. split; [by apply lookup_app_l_Some|].
    destruct (Z.eq_dec (r_tail r) (q + r_capacity r)) as [Heq|]; [|lia]. exfalso.
    assert (slot r q = slot r (r_tail r)) as Hs by (rewrite Heq; symmetry; apply slot_next, HR).
    rewrite <- Hq, Hs, Hc in Hd. simplify_eq. pose proof (shape_capacity2 r (ok_shape _ _ HR)). lia.
Qed.

(** The compare-and-exchange of a pop. *)
Lemma reserve_pop : reached r (r_head r) (r_head r + 1) -> ring_ok (set_r_head (r_head r + 1) r) log.
Proof.
  intros Hre. destruct (head_full r log HR Hre) as (c & Hc & Hfu). pose proof Hfu as (F1 & F2 & F3 & F4).
  pose proof (ok_order _ _ HR) as (O1 & O2 & O3). split.
  - by eapply shape_same.
  - simpl. lia.
  - simpl. intros j d Hd. destruct (ok_cells _ _ HR _ _ Hd) as (q & Hq & Hph). exists q. split; [done|].
    destruct Hph as [[E1 E2]|?]; [left|by right]. split; [done|]. simpl.
    destruct (Z.eq_dec (r_head r) q) as [Heq|]; [|lia]. exfalso.
    rewrite <- Hq, <- Heq, Hc in Hd. simplify_eq. lia.
Qed.

Lemma cells_changed k c' p :
  slot r p = k -> empty_for r p c' \/ full_with r log p c' ->
  ring_ok (set_cells (<[k := c']> (cells r)) r) log.
Proof.
  intros Hk Hph. split.
  - eapply shape_same; [done|done|done|]. simpl. by rewrite length_insert.
  - apply HR.
  - simpl. intros j d Hd. destruct (decide (j = k)) as [->|Hne].
    + rewrite list_lookup_insert_eq in Hd by (rewrite <- Hk; apply slot_lt, HR). simplify_eq. by exists p.
    + rewrite list_lookup_insert_ne in Hd by done. apply (ok_cells _ _ HR _ _ Hd).
Qed.
End ring_changes.

(** ** The invariant of all threads *)

Record inv (w : world) : Prop := {
  inv_ring : ring_ok (ring w) (pushed w);
  inv_threads : forall i t, threads w !! i = Some t -> thread_ok (ring w) (pushed w) t;
  inv_claims : forall i i' t t' b p, threads w !! i = Some t -> threads w !! i' = Some t' ->
    claim t = Some (b, p) -> claim t' = Some (b, p) -> i = i';
  inv_writers : forall p u, cells (ring w) !! slot (ring w) p = Some (p, u) -> p < r_tail (ring w) ->
    exists i t, threads w !! i = Some t /\ claim t = Some (true, p);
  inv_readers : forall p u, cells (ring w) !! slot (ring w) p = Some (p + 1, u) -> p < r_head (ring w) ->
    exists i t, threads w !! i = Some t /\ claim t = Some (false, p)
}.

(** The log of the pops: every position below the head was read once, or is about to be. *)
Record log_ok (w : world) : Prop := {
  lg_popped : forall p t, (p, t) ∈ popped w -> 0 <= p < r_head (ring w) /\ pushed w !! Z.to_nat p = Some t;
  lg_once : NoDup (popped w).*1;
  lg_unread : forall i p, threads w !! i = Some (TPop (QRead p)) -> p ∉ (popped w).*1;
  lg_read : forall p, 0 <= p < r_head (ring w) ->
    p ∈ (popped w).*1 \/ exists i, threads w !! i = Some (TPop (QRead p))
}.

(** What a thread reserved determines the sequence number of its cell. *)
Lemma claim_cell r log t b p :
  thread_ok r log t -> claim t = Some (b, p) -> exists u, cells r !! slot r p = Some (if b then p else p + 1, u).
Proof.
  destruct t as [task pc|pc]; destruct pc; simpl; try done; intros Ht [= <- <-].
  - by destruct Ht as (_ & _ & ?).
  - destruct Ht as (_ & _ & ?). eauto.
  - by destruct Ht as (_ & ?).
  - by destruct Ht as (_ & _ & ?).
Qed.

(** Different threads have reserved different cells. *)
Lemma claims_apart w i i' t t' b b' p p' :
  inv w -> i <> i' -> threads w !! i = Some t -> threads w !! i' = Some t' ->
  claim t = Some (b, p) -> claim t' = Some (b', p') -> slot (ring w) p <> slot (ring w) p'.
Proof.
  intros Hw Hne Ht Ht' Hc Hc' E. pose proof (ok_shape _ _ (inv_ring _ Hw)) as Hs. pose proof (shape_capacity2 _ Hs).
  destruct (claim_cell _ _ _ _ _ (inv_threads _ Hw _ _ Ht) Hc) as (u & Hu).
  destruct (claim_cell _ _ _ _ _ (inv_threads _ Hw _ _ Ht') Hc') as (u' & Hu').
  rewrite E, Hu' in Hu. simplify_eq.
  assert (p = p') as <- by (apply (slot_inj (ring w)); [done|done|destruct b, b'; lia]).
  assert (b = b') as <- by (destruct b, b'; lia || done).
  apply Hne. by eapply (inv_claims _ Hw).
Qed.

Lemma claim_bound r log t b p :
  thread_ok r log t -> claim t = Some (b, p) -> p < if b then r_tail r else r_head r.
Proof.
  destruct t as [task pc|pc]; destruct pc; simpl; try done; intros Ht [= <- <-]; destruct Ht; lia.
Qed.

(** One thread moves; the cell it changes is one it has reserved, and a new
    reservation is of the next position. *)
Lemma inv_put w i t t' r' log' pop' j :
  inv w -> threads w !! i = Some t ->
  ring_ok r' log' -> evolves (ring w) (pushed w) r' log' j ->
  (forall k, j = Some k -> exists b p, claim t = Some (b, p) /\ k = slot (ring w) p) ->
  thread_ok r' log' t' ->
  (forall b p, claim t' = Some (b, p) ->
     claim t = Some (b, p) \/ p = (if b then r_tail (ring w) else r_head (ring w))) ->
  (forall b p u, cells r' !! slot (ring w) p = Some (if b : bool then p else p + 1, u) ->
     p < (if b then r_tail r' else r_head r') ->
     claim t' = Some (b, p) \/
     (exists u', cells (ring w) !! slot (ring w) p = Some (if b then p else p + 1, u')) /\
     p < (if b then r_tail (ring w) else r_head (ring w)) /\ claim t <> Some (b, p)) ->
  inv (mkWorld r' (<[i := t']> (threads w)) log' pop').
Proof.
  intros Hw Ht HR' He Hj Ht' Hnew Hcov. pose proof (fun p => evolves_slot _ _ _ _ _ p He) as Hsl.
  assert (forall b p u, cells r' !! slot r' p = Some (if b : bool then p else p + 1, u) ->
    p < (if b then r_tail r' else r_head r') ->
    exists k s, <[i := t']> (threads w) !! k = Some s /\ claim s = Some (b, p)) as Hall.
  { intros b p u Hu Hp. rewrite Hsl in Hu. destruct (Hcov b p u Hu Hp) as [Hc|((u' & Hu') & Hp' & Hc)].
    - exists i, t'. by rewrite lookup_insert_eq.
    - assert (exists k s, threads w !! k = Some s /\ claim s = Some (b, p)) as (k & s & Hk & Hs).
      { destruct b; [by eapply (inv_writers _ Hw)|by eapply (inv_readers _ Hw)]. }
      exists k, s. rewrite lookup_insert_ne; [done|]. intros <-. congruence. }
  split; simpl.
  - done.
  - intros k s Hk. destruct (decide (k = i)) as [->|Hne]; [rewrite lookup_insert_eq in Hk; congruence|].
    rewrite lookup_insert_ne in Hk by done. eapply thread_ok_evolves; [done|by eapply (inv_threads _ Hw)|].
    intros b p Hc E. destruct (Hj _ (eq_sym E)) as (b' & p' & Hc' & E'). revert E'.
    by eapply (claims_apart w k i s t).
  - assert (forall k s b p, k <> i -> threads w !! k = Some s -> claim s = Some (b, p) -> claim t' = Some (b, p) -> False) as Hx.
    { intros k s b p Hne Hk Hs Hc. destruct (Hnew b p Hc) as [Hc'|Hp].
      - apply Hne. by eapply (inv_claims _ Hw).
      - pose proof (claim_bound _ _ _ _ _ (inv_threads _ Hw _ _ Hk) Hs). lia. }
    intros k k' s s' b p Hk Hk' Hs Hs'.
    destruct (decide (k = i)) as [->|Hne], (decide (k' = i)) as [->|Hne']; [done| | |];
      rewrite ?lookup_insert_eq in Hk; rewrite ?lookup_insert_eq in Hk'; rewrite ?lookup_insert_ne in Hk by done;
      rewrite ?lookup_insert_ne in Hk' by done; simplify_eq.
    + exfalso. by eapply (Hx k').
    + exfalso. by eapply (Hx k).
    + by eapply (inv_claims _ Hw).
  - intros p u Hu Hp. by apply (Hall true p u).
  - intros p u Hu Hp. by apply (Hall false p u).
Qed.

(** A step that changes neither the ring nor what the thread has reserved. *)
Lemma inv_quiet w i t t' pop' :
  inv w -> threads w !! i = Some t -> claim t' = claim t -> thread_ok (ring w) (pushed w) t' ->
  inv (mkWorld (ring w) (<[i := t']> (threads w)) (pushed w) pop').
Proof.
  intros Hw Ht Hc Ht'. eapply (inv_put w i t t' _ _ _ None); try done.
  - apply Hw.
  - apply evolves_same; done || lia.
  - intros b p Hp. left. congruence.
  - intros b p u Hu Hp. rewrite Hc. destruct (decide (claim t = Some (b, p))); [by left|right]. by eauto.
Qed.

(** ** Every step keeps the invariant *)

Definition small (r : qd_mpmc_ring) : Prop := r_tail r + r_capacity r + 1 < 2 ^ 63.

Lemma seq_bound r log j c : ring_ok r log -> cells r !! j = Some c -> 0 <= c.1 <= r_tail r + r_capacity r.
Proof.
  intros HR Hc. pose proof (ok_order _ _ HR). destruct (ok_cells _ _ HR _ _ Hc) as (q & _ & [[E1 E2]|(F1 & F2 & F3 & F4)]); lia.
Qed.

(** A thread changes the cell it has reserved. *)
Lemma inv_cell w i t t' b pos c c' pop' :
  inv w -> threads w !! i = Some t -> claim t = Some (b, pos) ->
  cells (ring w) !! slot (ring w) pos = Some c -> c.1 <= c'.1 ->
  let r' := set_cells (<[slot (ring w) pos := c']> (cells (ring w))) (ring w) in
  ring_ok r' (pushed w) -> thread_ok r' (pushed w) t' ->
  claim t' = Some (b, pos) \/ claim t' = None ->
  (forall b' p, slot (ring w) p = slot (ring w) pos -> c'.1 = (if b' : bool then p else p + 1) ->
     p < (if b' then r_tail (ring w) else r_head (ring w)) -> claim t' = Some (b', p)) ->
  inv (mkWorld r' (<[i := t']> (threads w)) (pushed w) pop').
Proof.
  intros Hw Ht Hb Hc Hle r' HR' Ht' Hcl Hph. pose proof (ok_shape _ _ (inv_ring _ Hw)) as Hs.
  eapply (inv_put w i t t' _ _ _ (Some (slot (ring w) pos))); try done.
  - by eapply evolves_cell.
  - intros k [= <-]. eauto.
  - intros b' p Hp. left. destruct Hcl; congruence.
  - intros b' p v Hv Hlt. simpl in Hv, Hlt.
    destruct (decide (slot (ring w) p = slot (ring w) pos)) as [E|Hne].
    + left. rewrite E, list_lookup_insert_eq in Hv by (by apply slot_lt).
      apply Hph; [done| |done]. by injection Hv as ->.
    + rewrite list_lookup_insert_ne in Hv by done. right. split; [eauto|]. split; [done|]. congruence.
Qed.

(** A thread reserves the next position. *)
Lemma inv_reserve w i t t' b pos r' log' pop' :
  inv w -> threads w !! i = Some t -> claim t = None -> claim t' = Some (b, pos) ->
  pos = (if b then r_tail (ring w) else r_head (ring w)) ->
  cells r' = cells (ring w) -> r_capacity r' = r_capacity (ring w) ->
  r_head r' = r_head (ring w) + (if b then 0 else 1) -> r_tail r' = r_tail (ring w) + (if b then 1 else 0) ->
  pushed w `prefix_of` log' -> ring_ok r' log' -> thread_ok r' log' t' ->
  inv (mkWorld r' (<[i := t']> (threads w)) log' pop').
Proof.
  intros Hw Ht Hn Hc Hpos Ecl Ecap Eh Et Hlog HR' Ht'.
  eapply (inv_put w i t t' _ _ _ None); try done.
  - apply evolves_same; try done; destruct b; lia.
  - intros b' p Hp. right. rewrite Hc in Hp. injection Hp as <- <-. done.
  - intros b' p u Hu Hlt. rewrite Ecl in Hu. rewrite Hn.
    destruct (decide (b' = b /\ p = pos)) as [[-> ->]|Hne]; [by left|right]. split; [eauto|]. split; [|done].
    destruct b, b'; try lia; destruct (Z.eq_dec p pos); subst; try lia; exfalso; by apply Hne.
Qed.

Section push.
Context (w : world) (i : nat) (task : Z) (pop' : list (Z * Z)).
Hypotheses (Hw : inv w) (Hsm : small (ring w)).

Definition after_push (pc : push_pc) (r : qd_mpmc_ring) (log : list Z) : world :=
  mkWorld r (<[i := TPush task pc]> (threads w)) log pop'.

Lemma push_cas pos :
  threads w !! i = Some (TPush task (PCas pos)) -> r_tail (ring w) = pos ->
  inv (after_push (PWrite pos) (set_r_tail (pos +64 1) (ring w)) (pushed w ++ [task])).
Proof.
  intros Ht <-. pose proof (inv_threads _ Hw _ _ Ht) as [Hp Hre]. pose proof (inv_ring _ Hw) as HR.
  pose proof (ok_order _ _ HR) as (O1 & O2 & O3). pose proof (shape_capacity2 _ (ok_shape _ _ HR)).
  unfold small in Hsm. rewrite u64_small by (unfold_widths; lia).
  destruct (tail_empty _ _ HR Hre) as (c & Hc & [Hc1 _]).
  eapply (inv_reserve w i _ _ true); try done; simpl; try lia.
  - by apply prefix_app_r.
  - by apply reserve_push.
  - split; [lia|]. split; [|destruct c as [c1 c2]; simpl in *; subst c1; by exists c2].
    apply lookup_app_Some. right. split; [lia|]. by rewrite O3, Nat2Z.id, Nat.sub_diag.
Qed.

Lemma push_write pos :
  threads w !! i = Some (TPush task (PWrite pos)) ->
  exists r', put_task (ring w) pos task = Ok r' /\ inv (after_push (PPublish pos) r' (pushed w)) /\
    r_head r' = r_head (ring w) /\ r_tail r' = r_tail (ring w) /\ r_capacity r' = r_capacity (ring w).
Proof.
  intros Ht. pose proof (inv_threads _ Hw _ _ Ht) as (Hb & Hl & u & Hc). pose proof (inv_ring _ Hw) as HR.
  pose proof (ok_shape _ _ HR) as Hs. pose proof (ok_order _ _ HR). pose proof (shape_capacity2 _ Hs).
  eexists. split; [by apply put_task_eq|]. split; [|done].
  eapply (inv_cell w i _ _ true pos _ (pos, task)); try done.
  - eapply cells_changed; [done|done|]. left. by apply (empty_seq _ _ HR pos u).
  - simpl. split; [done|]. split; [done|]. rewrite list_lookup_insert_eq; [done|]. by apply slot_lt.
  - by left.
  - intros b' p E1 E2 E3. simpl in *. assert (p = pos) as -> by (apply (slot_inj (ring w)); [done|done|destruct b'; lia]).
    destruct b'; [done|lia].
Qed.

Lemma push_publish pos :
  threads w !! i = Some (TPush task (PPublish pos)) ->
  exists r', put_seq (ring w) pos (pos +64 1) = Ok r' /\ inv (after_push (PReturn QD_OK) r' (pushed w)) /\
    r_head r' = r_head (ring w) /\ r_tail r' = r_tail (ring w) /\ r_capacity r' = r_capacity (ring w).
Proof.
  intros Ht. pose proof (inv_threads _ Hw _ _ Ht) as (Hb & Hl & Hc). pose proof (inv_ring _ Hw) as HR.
  pose proof (ok_shape _ _ HR) as Hs. pose proof (ok_order _ _ HR). pose proof (shape_capacity2 _ Hs).
  pose proof (empty_seq _ _ HR pos task Hc) as [_ He]. unfold small in Hsm.
  eexists. split; [by apply put_seq_eq|]. split; [|done]. rewrite u64_small by (unfold_widths; lia). simpl.
  eapply (inv_cell w i _ _ true pos _ (pos + 1, task)); try done; simpl; try lia.
  - eapply cells_changed; [done|done|]. right. split; [done|]. simpl. split; [lia|]. split; [done|lia].
  - by right.
  - intros b' p E1 E2 E3. assert (p = pos) as -> by (apply (slot_inj (ring w)); [done|done|destruct b'; lia]).
    destruct b'; lia.
Qed.
End push.

Lemma inv_push w i task pc weak pop' :
  inv w -> threads w !! i = Some (TPush task pc) -> small (ring w) ->
  exists pc' r', push_step weak task pc (ring w) = Ok (pc', r') /\
    inv (after_push w i task pop' pc' r' (pushed w ++ reserved task pc pc')) /\
    r_head r' = r_head (ring w) /\ r_tail (ring w) <= r_tail r' <= r_tail (ring w) + 1 /\
    r_capacity r' = r_capacity (ring w).
Proof.
  intros Hw Ht Hsm. pose proof (inv_ring _ Hw) as HR. pose proof (ok_shape _ _ HR) as Hs.
  pose proof (ok_order _ _ HR) as (O1 & O2 & O3). pose proof (inv_threads _ Hw _ _ Ht) as Hp.
  assert (forall pc', push_claim pc' = push_claim pc -> reserved task pc pc' = [] -> push_ok (ring w) (pushed w) task pc' ->
    inv (after_push w i task pop' pc' (ring w) (pushed w ++ reserved task pc pc'))) as Hq.
  { intros pc' E1 E2 H. rewrite E2, app_nil_r. eapply inv_quiet; [done|done| |done]. simpl. by rewrite E1. }
  destruct pc as [|pos|pos|pos|pos|code]; simpl in Hp |- *.
  - eexists _, _. split; [done|]. split; [|lia]. apply Hq; try done. simpl. lia.
  - destruct (get_cell_ok (ring w) pos Hs) as (c & Hc & ->). cbn [obind].
    pose proof (seq_bound _ _ _ _ HR Hc). unfold small in Hsm. rewrite intptr_diff_small by lia. cbn [obind].
    eexists _, _. split; [done|]. split; [|lia].
    destruct (Z.eqb_spec (c.1 - pos) 0); [|destruct (Z.ltb_spec (c.1 - pos) 0); by apply Hq].
    apply Hq; try done. simpl. split; [done|]. exists c. split; [done|lia].
  - destruct (negb weak && (r_tail (ring w) =? pos)) eqn:E; (eexists _, _; split; [reflexivity|]).
    + apply andb_prop in E as [_ E%Z.eqb_eq]. split; [by apply push_cas|]. simpl. unfold small in Hsm.
      pose proof (shape_capacity2 _ Hs). rewrite u64_small by (unfold_widths; lia). lia.
    + split; [|lia]. apply Hq; try done. simpl. lia.
  - destruct (push_write w i task pop' Hw pos Ht) as (r' & -> & Hi & ? & ? & ?). eexists _, _. split; [done|].
    simpl. rewrite app_nil_r. split; [done|lia].
  - destruct (push_publish w i task pop' Hw Hsm pos Ht) as (r' & -> & Hi & ? & ? & ?). eexists _, _. split; [done|].
    simpl. rewrite app_nil_r. split; [done|lia].
  - eexists _, _. split; [done|]. split; [|lia]. by apply Hq.
Qed.

Section pop.
Context (w : world) (i : nat) (pop' : list (Z * Z)).
Hypotheses (Hw : inv w) (Hsm : small (ring w)).

Definition after_pop (pc : pop_pc) (r : qd_mpmc_ring) : world :=
  mkWorld r (<[i := TPop pc]> (threads w)) (pushed w) pop'.

Lemma pop_cas pos :
  threads w !! i = Some (TPop (QCas pos)) -> r_head (ring w) = pos ->
  inv (after_pop (QRead pos) (set_r_head (pos +64 1) (ring w))).
Proof.
  intros Ht <-. pose proof (inv_threads _ Hw _ _ Ht) as [Hp Hre]. pose proof (inv_ring _ Hw) as HR.
  pose proof (ok_order _ _ HR) as (O1 & O2 & O3). pose proof (shape_capacity2 _ (ok_shape _ _ HR)).
  unfold small in Hsm. rewrite u64_small by (unfold_widths; lia).
  destruct (head_full _ _ HR Hre) as (c & Hc & Hc1 & _).
  eapply (inv_reserve w i _ _ false); try done; simpl; try lia.
  - by apply reserve_pop.
  - split; [lia|]. destruct c as [c1 c2]; simpl in *; subst c1. by exists c2.
Qed.

Lemma pop_publish pos t :
  threads w !! i = Some (TPop (QPublish pos t)) ->
  exists r', put_seq (ring w) pos (pos +64 r_capacity (ring w)) = Ok r' /\
    inv (after_pop (QReturn QD_OK (Some t)) r') /\
    r_head r' = r_head (ring w) /\ r_tail r' = r_tail (ring w) /\ r_capacity r' = r_capacity (ring w).
Proof.
  intros Ht. pose proof (inv_threads _ Hw _ _ Ht) as (Hb & Hl & u & Hc). pose proof (inv_ring _ Hw) as HR.
  pose proof (ok_shape _ _ HR) as Hs. pose proof (ok_order _ _ HR). pose proof (shape_capacity2 _ Hs).
  pose proof (full_seq _ _ HR pos u Hc) as (_ & _ & _ & He). unfold small in Hsm.
  eexists. split; [by apply put_seq_eq|]. split; [|done]. rewrite u64_small by (unfold_widths; lia). simpl.
  eapply (inv_cell w i _ _ false pos _ (pos + r_capacity (ring w), u)); try done; simpl; try lia.
  - eapply cells_changed; [done|by apply (slot_next (ring w) pos Hs)|]. left. split; [done|]. lia.
  - by right.
  - intros b' p E1 E2 E3. rewrite <- (slot_next (ring w) pos Hs) in E1.
    assert (p = pos + r_capacity (ring w)) as -> by (apply (slot_inj (ring w)); [done|done|destruct b'; lia]).
    destruct b'; lia.
Qed.
End pop.

Lemma inv_pop w i pc weak pop' :
  inv w -> threads w !! i = Some (TPop pc) -> small (ring w) ->
  exists pc' r', pop_step weak pc (ring w) = Ok (pc', r') /\
    inv (after_pop w i pop' pc' r') /\
    r_tail r' = r_tail (ring w) /\ r_capacity r' = r_capacity (ring w) /\
    (r_head r' = r_head (ring w) \/
     pc = QCas (r_head (ring w)) /\ pc' = QRead (r_head (ring w)) /\ r_head r' = r_head (ring w) + 1).
Proof.
  intros Hw Ht Hsm. pose proof (inv_ring _ Hw) as HR. pose proof (ok_shape _ _ HR) as Hs.
  pose proof (ok_order _ _ HR) as (O1 & O2 & O3). pose proof (inv_threads _ Hw _ _ Ht) as Hp.
  assert (forall pc', pop_claim pc' = pop_claim pc -> pop_ok (ring w) (pushed w) pc' ->
    inv (after_pop w i pop' pc' (ring w))) as Hq.
  { intros pc' E1 H. eapply inv_quiet; [done|done| |done]. simpl. by rewrite E1. }
  destruct pc as [|pos|pos|pos|pos t|code t]; simpl in Hp |- *.
  - eexists _, _. split; [done|]. split; [|auto]. apply Hq; try done. simpl. lia.
  - destruct (get_cell_ok (ring w) pos Hs) as (c & Hc & ->). cbn [obind].
    pose proof (seq_bound _ _ _ _ HR Hc). pose proof (shape_capacity2 _ Hs). unfold small in Hsm.
    rewrite u64_small by (unfold_widths; lia). rewrite intptr_diff_small by lia. cbn [obind].
    eexists _, _. split; [done|]. split; [|auto].
    destruct (Z.eqb_spec (c.1 - (pos + 1)) 0); [|destruct (Z.ltb_spec (c.1 - (pos + 1)) 0); by apply Hq].
    apply Hq; try done. simpl. split; [done|]. exists c. split; [done|lia].
  - destruct (negb weak && (r_head (ring w) =? pos)) eqn:E; (eexists _, _; split; [reflexivity|]).
    + apply andb_prop in E as [_ E%Z.eqb_eq]. split; [by apply pop_cas|]. simpl. unfold small in Hsm.
      pose proof (shape_capacity2 _ Hs). rewrite u64_small by (unfold_widths; lia). subst pos.
      split; [done|]. split; [done|]. by right.
    + split; [|auto]. apply Hq; try done. simpl. lia.
  - destruct Hp as (Hb & u & Hc). rewrite (get_cell_eq _ _ _ Hs Hc). cbn [obind snd].
    eexists _, _. split; [done|]. split; [|auto]. apply Hq; [done|]. simpl.
    destruct (full_seq _ _ HR pos u Hc) as (_ & _ & Hl & _). simpl in Hl. eauto.
  - destruct (pop_publish w i pop' Hw Hsm pos t Ht) as (r' & -> & Hi & ? & ? & ?). eexists _, _. split; [done|]. auto.
  - eexists _, _. split; [done|]. split; [|auto]. by apply Hq.
Qed.

(** ** The log *)

Lemma log_push w i task pc pc' r' new :
  log_ok w -> threads w !! i = Some (TPush task pc) -> r_head r' = r_head (ring w) ->
  log_ok (after_push w i task (popped w) pc' r' (pushed w ++ new)).
Proof.
  intros [H1 H2 H3 H4] Ht Eh.
  assert (forall k p, <[i := TPush task pc']> (threads w) !! k = Some (TPop (QRead p)) <->
    threads w !! k = Some (TPop (QRead p))) as Hk.
  { intros k p. destruct (decide (k = i)) as [->|]; [rewrite lookup_insert_eq, Ht; naive_solver|by rewrite lookup_insert_ne]. }
  split; simpl; rewrite ?Eh; [|done| |].
  - intros p t Hp. destruct (H1 p t Hp) as [? ?]. split; [done|]. by apply lookup_app_l_Some.
  - intros k p Hq. apply Hk in Hq. eauto.
  - intros p Hp. destruct (H4 p Hp) as [?|(k & ?)]; [by left|right]. exists k. by apply Hk.
Qed.

(** A pop reads the task of the position it has reserved. *)
Lemma log_read w i p t :
  inv w -> log_ok w -> threads w !! i = Some (TPop (QRead p)) -> 0 <= p < r_head (ring w) ->
  pushed w !! Z.to_nat p = Some t ->
  log_ok (after_pop w i (popped w ++ [(p, t)]) (QPublish p t) (ring w)).
Proof.
  intros Hw [H1 H2 H3 H4] Ht Hp Hl. split; simpl; rewrite ?fmap_app; simpl.
  - intros q u [Hq|Hq%list_elem_of_singleton]%elem_of_app; [by apply H1|]. by simplify_eq.
  - apply NoDup_app. split; [done|]. split; [|apply NoDup_singleton].
    intros q Hq ->%list_elem_of_singleton. by eapply H3.
  - intros k q Hk. destruct (decide (k = i)) as [->|]; [by rewrite lookup_insert_eq in Hk|].
    rewrite lookup_insert_ne in Hk by done. intros [Hq| ->%list_elem_of_singleton]%elem_of_app; [by eapply H3|].
    assert (k = i); [|done]. by eapply (inv_claims _ Hw).
  - intros q Hq. rewrite elem_of_app, list_elem_of_singleton.
    destruct (H4 q Hq) as [?|(k & Hk)]; [by left; left|]. destruct (decide (k = i)) as [->|Hne].
    + left. right. congruence.
    + right. exists k. by rewrite lookup_insert_ne.
Qed.

(** A pop that reads nothing in this step. *)
Lemma log_quiet w i pc pc' r' :
  log_ok w -> threads w !! i = Some (TPop pc) -> (forall p, pc <> QRead p) ->
  (r_head r' = r_head (ring w) /\ (forall p, pc' <> QRead p)) \/
  (pc' = QRead (r_head (ring w)) /\ r_head r' = r_head (ring w) + 1) ->
  log_ok (after_pop w i (popped w) pc' r').
Proof.
  intros [H1 H2 H3 H4] Ht Hn Hc.
  assert (forall k p, k <> i -> threads w !! k = Some (TPop (QRead p)) ->
    <[i := TPop pc']> (threads w) !! k = Some (TPop (QRead p))) as Hk by (intros; by rewrite lookup_insert_ne).
  assert (forall p, (exists k, threads w !! k = Some (TPop (QRead p))) ->
    exists k, <[i := TPop pc']> (threads w) !! k = Some (TPop (QRead p))) as Hx.
  { intros p (k & Hq). exists k. apply Hk; [|done]. intros ->. rewrite Ht in Hq. by destruct (Hn p ltac:(congruence)). }
  split; simpl; [|done| |].
  - intros p t Hp. destruct (H1 p t Hp) as [? ?]. split; [|done]. destruct Hc as [[-> _]|[_ ->]]; lia.
  - intros k p Hq. destruct (decide (k = i)) as [->|]; [|rewrite lookup_insert_ne in Hq by done; by eapply H3].
    rewrite lookup_insert_eq in Hq. destruct Hc as [[_ Hc]|[-> _]]; [by destruct (Hc p ltac:(congruence))|].
    injection Hq as <-. intros ((q & u) & E & Hqu)%list_elem_of_fmap. destruct (H1 q u Hqu) as [Hb _]. simpl in E. lia.
  - intros p Hp. destruct Hc as [[Eh _]|[-> Eh]]; rewrite Eh in Hp.
    + destruct (H4 p Hp); [by left|right; auto].
    + destruct (Z.eq_dec p (r_head (ring w))) as [->|]; [right; exists i; by rewrite lookup_insert_eq|].
      destruct (H4 p ltac:(lia)); [by left|right; auto].
Qed.

(** ** Runs *)

Lemma idle_claim t : idle (Some t) = true -> claim t = None.
Proof. by destruct t as [? []|[]]. Qed.

Lemma start_inv w i t :
  claim t = None -> (forall r log, thread_ok r log t) -> inv w -> inv (start i t w).
Proof.
  intros Hc Ht Hw. unfold start. destruct (idle (threads w !! i)) eqn:Hi; [|done].
  destruct (threads w !! i) as [u|] eqn:Hu.
  { eapply inv_quiet; [done|done|by rewrite (idle_claim u)|auto]. }
  assert (forall k s, <[i := t]> (threads w) !! k = Some s -> claim s <> None -> threads w !! k = Some s) as Hk.
  { intros k s Hk. destruct (decide (k = i)) as [->|]; [rewrite lookup_insert_eq in Hk; congruence|].
    by rewrite lookup_insert_ne in Hk. }
  assert (forall k s, threads w !! k = Some s -> <[i := t]> (threads w) !! k = Some s) as Hk'.
  { intros k s Hs. rewrite lookup_insert_ne; [done|]. congruence. }
  destruct Hw as [W1 W2 W3 W4 W5]. split; simpl; [done| | | |].
  - intros k s Hs. destruct (decide (k = i)) as [->|].
    + rewrite lookup_insert_eq in Hs. by simplify_eq.
    + rewrite lookup_insert_ne in Hs by done. eauto.
  - intros k k' s s' b p Hs Hs' E E'. eapply W3; [by eapply Hk; [|rewrite E]|by eapply Hk; [|rewrite E']|done|done].
  - intros p u Hp Hlt. destruct (W4 p u Hp Hlt) as (k & s & ? & ?). eauto.
  - intros p u Hp Hlt. destruct (W5 p u Hp Hlt) as (k & s & ? & ?). eauto.
Qed.

Lemma start_log w i t : claim t = None -> log_ok w -> log_ok (start i t w).
Proof.
  intros Hc [H1 H2 H3 H4]. unfold start. destruct (idle (threads w !! i)) eqn:Hi; [|done]. split; simpl; [done|done| |].
  - intros k p Hk. destruct (decide (k = i)) as [->|]; [rewrite lookup_insert_eq in Hk; by simplify_eq|].
    rewrite lookup_insert_ne in Hk by done. by eapply H3.
  - intros p Hp. destruct (H4 p Hp) as [?|(k & Hk)]; [by left|right]. exists k. rewrite lookup_insert_ne; [done|].
    intros ->. rewrite Hk in Hi. done.
Qed.

Lemma start_ring w i t : ring (start i t w) = ring w.
Proof. unfold start. by destruct (idle (threads w !! i)). Qed.

Lemma ring_step_inv w a :
  inv w -> log_ok w -> small (ring w) ->
  exists w', step a w = Ok w' /\ inv w' /\ log_ok w' /\
    r_capacity (ring w') = r_capacity (ring w) /\ r_tail (ring w') <= r_tail (ring w) + 1.
Proof.
  intros Hw Hl Hsm. destruct a as [i task|i|i weak]; simpl.
  - eexists. split; [done|]. split; [by apply start_inv|]. split; [by apply start_log|]. rewrite start_ring. lia.
  - eexists. split; [done|]. split; [by apply start_inv|]. split; [by apply start_log|]. rewrite start_ring. lia.
  - destruct (threads w !! i) as [[task pc|pc]|] eqn:Ht.
    + destruct (inv_push w i task pc weak (popped w) Hw Ht Hsm) as (pc' & r' & -> & Hi & Eh & Et & Ec).
      eexists. split; [done|]. split; [done|]. split; [by eapply log_push|]. simpl. lia.
    + destruct (inv_pop w i pc weak (popped w ++ match pc with QRead p => [(p, default 0 (pushed w !! Z.to_nat p))] | _ => [] end)
        Hw Ht Hsm) as (pc' & r' & E & Hi & Et & Ec & Hh).
      rewrite E. cbn [obind]. eexists. split; [done|]. simpl. split; [|split; [|lia]].
      * revert Hi. unfold after_pop. destruct pc; simpl in E; try (by rewrite ?app_nil_r).
        destruct (get_cell (ring w) pos) as [c| |] eqn:Eg; try done. simpl in E. injection E as <- <-.
        intros Hi. pose proof (inv_threads _ Hi i (TPop (QPublish pos c.2)) ltac:(apply lookup_insert_eq)) as (_ & Hd & _).
        simpl in Hd. by rewrite Hd in Hi.
      * destruct pc; simpl in E |- *; rewrite ?app_nil_r.
        4: { destruct (get_cell (ring w) pos) as [c| |] eqn:Eg; try done. simpl in E. injection E as <- <-.
             destruct (inv_threads _ Hi i (TPop (QPublish pos c.2)) ltac:(apply lookup_insert_eq)) as (Hb & Hd & _).
             by apply log_read. }
        all: eapply log_quiet; [done|exact Ht|done|]. all: destruct Hh as [Hh|(E1 & E2 & Hh)]; [left|right; done].
        all: split; [done|]. all: intros p ->.
        all: try (simplify_eq; fail).
        -- destruct (get_cell (ring w) pos) as [c| |]; try done. simpl in E.
           destruct (intptr_diff c.1 (pos +64 1)) as [d| |]; try done. simpl in E. by repeat zcase.
        -- destruct (negb weak && (r_head (ring w) =? pos)) eqn:Eb; [|done]. apply andb_prop in Eb as [_ Eb%Z.eqb_eq].
           simplify_eq. simpl in Hh. rewrite u64_small in Hh; [lia|].
           pose proof (ok_order _ _ (inv_ring _ Hw)). pose proof (shape_capacity2 _ (ok_shape _ _ (inv_ring _ Hw))).
           unfold small in Hsm. unfold_widths. lia.
        -- destruct (put_seq (ring w) pos _) as [c| |]; try done.
    + eexists. split; [done|]. auto with lia.
Qed.

Lemma ring_run_inv l : forall w,
  inv w -> log_ok w -> r_tail (ring w) + Z.of_nat (length l) + r_capacity (ring w) + 1 < 2 ^ 63 ->
  exists w', run l w = Ok w' /\ inv w' /\ log_ok w' /\ r_capacity (ring w') = r_capacity (ring w).
Proof.
  induction l as [|a l IH]; intros w Hw Hl Hb; simpl in *; [eauto|].
  destruct (ring_step_inv w a Hw Hl ltac:(unfold small; lia)) as (w1 & -> & Hw1 & Hl1 & Ec & Et). cbn [obind].
  destruct (IH w1 Hw1 Hl1 ltac:(lia)) as (w' & E & ? & ? & Ec'). exists w'. rewrite Ec', Ec. auto.
Qed.

(** ** Creation and rest *)

Lemma init_ok n r :
  2 <= n <= 2 ^ 63 -> qd_mpmc_ring_init true n = Some r ->
  inv (new_world r) /\ r_head r = 0 /\ r_tail r = 0 /\ n <= r_capacity r.
Proof.
  intros Hn E. unfold qd_mpmc_ring_init in E. destruct (Z.eqb_spec n 0); [lia|].
  destruct (next_pow2_64_correct n ltac:(lia)) as (k & Hk & Ek & Hle & _). rewrite Ek in E. simpl in E. injection E as <-.
  assert (k <> 0) by (intros ->; simpl in Hle; lia).
  assert (2 ^ k <= 2 ^ 63) by (apply Z.pow_le_mono_r; lia).
  rewrite u64_small by (unfold_widths; lia). split; [|done]. split; simpl; try done.
  - assert (shape (mkMpmc ((λ i : nat, (Z.of_nat i, 0)) <$> seq 0 (Z.to_nat (2 ^ k))) (2 ^ k) (2 ^ k - 1) 0 0)) as Hs.
    { split; simpl; [exists k; lia|done|]. rewrite length_fmap, length_seq. lia. }
    split; [done|simpl; lia|]. simpl. intros j c (i & -> & Hi)%list_lookup_fmap_Some. apply lookup_seq in Hi as [-> Hi].
    exists (Z.of_nat j). split; [unfold slot; simpl; rewrite Z.mod_small by lia; lia|]. left. split; simpl; lia.
  - intros p u (i & Hi & Hs)%list_lookup_fmap_Some Hp. injection Hi as -> ->. simpl in Hp. lia.
  - intros p u (i & Hi & Hs)%list_lookup_fmap_Some Hp. injection Hi as Hp' ->. simpl in Hp.
    apply lookup_seq in Hs as [Hs _]. unfold slot in Hs. simpl in Hs. replace p with (-1 + 0) in Hs by lia.
    replace (-1 + 0) with (2 ^ k - 1 + (-1) * 2 ^ k) in Hs by lia. rewrite Z.mod_add, Z.mod_small in Hs by lia. lia.
Qed.

(** No thread is inside a call. *)
Definition at_rest (w : world) : Prop := map_Forall (fun _ t => idle (Some t) = true) (threads w).

(** The tasks in the ring, from the head to the tail. *)
Definition contents (r : qd_mpmc_ring) : list Z :=
  (fun p => default 0 (snd <$> cells r !! slot r p)) <$> seqZ (r_head r) (r_tail r - r_head r).

(** A ring that no thread is working on. *)
Definition quiet (r : qd_mpmc_ring) (log : list Z) : Prop := inv (mkWorld r ∅ log []).

Lemma rest_quiet w : inv w -> at_rest w -> quiet (ring w) (pushed w).
Proof.
  intros [W1 W2 W3 W4 W5] Hr.
  assert (forall i t, threads w !! i = Some t -> claim t = None) as Hn.
  { intros i t Ht. apply idle_claim, (Hr i t Ht). }
  split; simpl; try done.
  - intros p u Hp Hlt. destruct (W4 p u Hp Hlt) as (i & t & Ht & Hc). specialize (Hn i t Ht). congruence.
  - intros p u Hp Hlt. destruct (W5 p u Hp Hlt) as (i & t & Ht & Hc). specialize (Hn i t Ht). congruence.
Qed.

Section quiet.
Context (r : qd_mpmc_ring) (log : list Z).
Hypothesis HQ : quiet r log.

Lemma quiet_ring : ring_ok r log.
Proof. apply HQ. Qed.

(** Below the tail the cells hold their tasks; above they are empty. *)
Lemma quiet_full p : r_head r <= p < r_tail r ->
  exists t, cells r !! slot r p = Some (p + 1, t) /\ log !! Z.to_nat p = Some t.
Proof.
  intros Hp. pose proof quiet_ring as HR. pose proof (ok_order _ _ HR) as (O1 & O2 & O3).
  destruct (cell_phase r log HR p) as ([s u] & q & Hc & Hq & [[E1 E2]|(F1 & F2 & F3 & F4)]); simpl in *; subst s.
  - exfalso. assert (q = p) as -> by (apply (slot_inj r); [apply HR|done|lia]).
    destruct (inv_writers _ HQ p u Hc ltac:(simpl; lia)) as (i & t & Ht & _). done.
  - destruct (Z.le_gt_cases (r_head r) q).
    + assert (q = p) as -> by (apply (slot_inj r); [apply HR|done|lia]). eauto.
    + exfalso. rewrite <- Hq in Hc. destruct (inv_readers _ HQ q u Hc ltac:(simpl; lia)) as (i & t & Ht & _). done.
Qed.

Lemma quiet_tail : exists t,
  cells r !! slot r (r_tail r) =
    Some (if r_tail r <? r_head r + r_capacity r then r_tail r else r_head r + 1, t).
Proof.
  pose proof quiet_ring as HR. pose proof (ok_order _ _ HR) as (O1 & O2 & O3). pose proof (shape_capacity2 r (ok_shape _ _ HR)).
  destruct (cell_phase r log HR (r_tail r)) as ([s u] & q & Hc & Hq & Hph). rewrite Hc. exists u. repeat f_equal.
  destruct Hph as [[E1 E2]|(F1 & F2 & F3 & F4)]; simpl in *; subst s; rewrite <- Hq in Hc.
  - assert (r_tail r <= q).
    { destruct (Z.le_gt_cases (r_tail r) q); [done|]. destruct (inv_writers _ HQ q u Hc ltac:(simpl; lia)) as (i & t & Ht & _). done. }
    assert (q = r_tail r) as -> by (apply (slot_inj r); [apply HR|done|lia]).
    destruct (Z.ltb_spec (r_tail r) (r_head r + r_capacity r)); [done|lia].
  - assert (r_head r <= q).
    { destruct (Z.le_gt_cases (r_head r) q); [done|]. destruct (inv_readers _ HQ q u Hc ltac:(simpl; lia)) as (i & t & Ht & _). done. }
    destruct (Z.ltb_spec (r_tail r) (r_head r + r_capacity r)) as [|Hge].
    + assert (q = r_tail r); [|lia]. apply (slot_inj r); [apply HR|done|lia].
    + assert (q = r_head r); [|lia]. apply (slot_inj r); [apply HR| |lia].
      rewrite Hq, <- (slot_next r (r_head r)) by apply HR. f_equal. lia.
Qed.

Lemma quiet_contents : contents r = drop (Z.to_nat (r_head r)) log.
Proof.
  pose proof quiet_ring as HR. pose proof (ok_order _ _ HR) as (O1 & O2 & O3). apply list_eq. intros j.
  unfold contents. rewrite lookup_drop, list_lookup_fmap.
  destruct (Z.lt_ge_cases (Z.of_nat j) (r_tail r - r_head r)).
  - rewrite lookup_seqZ_lt by lia. simpl. destruct (quiet_full (r_head r + Z.of_nat j) ltac:(lia)) as (t & -> & Hl).
    simpl. rewrite <- Hl. f_equal. lia.
  - rewrite lookup_seqZ_ge by lia. simpl. symmetry. apply lookup_ge_None. lia.
Qed.
End quiet.

(** Everything below the head was popped once. *)
Lemma rest_popped w : inv w -> log_ok w -> at_rest w ->
  Z.of_nat (length (popped w)) = r_head (ring w) /\
  (popped w).*2 ≡ₚ take (Z.to_nat (r_head (ring w))) (pushed w).
Proof.
  intros Hw [H1 H2 _ H4] Hr. pose proof (ok_order _ _ (inv_ring _ Hw)) as (O1 & O2 & O3).
  assert ((popped w).*1 ≡ₚ seqZ 0 (r_head (ring w))) as Hp.
  { apply NoDup_Permutation; [done|apply NoDup_seqZ|]. intros p. rewrite elem_of_seqZ. split.
    - intros ((q & u) & -> & Hq)%list_elem_of_fmap. simpl. destruct (H1 q u Hq). lia.
    - intros Hp. destruct (H4 p ltac:(lia)) as [?|(i & Hi)]; [done|]. by pose proof (Hr i _ Hi). }
  split.
  - rewrite <- (length_fmap fst), Hp, length_seqZ. lia.
  - assert ((popped w).*2 = (fun p => default 0 (pushed w !! Z.to_nat p)) <$> (popped w).*1) as ->.
    { rewrite <- list_fmap_compose. apply list_fmap_ext. intros i [p t] Hi. simpl.
      destruct (H1 p t) as [_ ->]; [by eapply list_elem_of_lookup_2|done]. }
    assert (take (Z.to_nat (r_head (ring w))) (pushed w) =
      (fun p => default 0 (pushed w !! Z.to_nat p)) <$> seqZ 0 (r_head (ring w))) as ->; [|by rewrite Hp].
    apply list_eq. intros j. rewrite list_lookup_fmap.
    destruct (Z.lt_ge_cases (Z.of_nat j) (r_head (ring w))).
    + rewrite lookup_seqZ_lt by lia. rewrite lookup_take_lt by lia. cbn. rewrite Z.add_0_l, Nat2Z.id.
      destruct (lookup_lt_is_Some_2 (pushed w) j ltac:(lia)) as [t ->]. done.
    + rewrite lookup_seqZ_ge by lia. apply lookup_take_ge. lia.
Qed.

(** ** Calls of a thread that runs alone *)

Lemma quiet_start r log t :
  claim t = None -> (forall r log, thread_ok r log t) -> quiet r log -> inv (mkWorld r {[0%nat := t]} log []).
Proof. intros Hc Ht Hq. apply (start_inv (mkWorld r ∅ log []) 0 t Hc Ht Hq). Qed.

Lemma quiet_stop r log t l : inv (mkWorld r {[0%nat := t]} log l) -> claim t = None -> quiet r log.
Proof.
  intros Hi Hc.
  assert (forall i s, ({[0%nat := t]} : gmap nat thread) !! i = Some s -> claim s = None) as Hn.
  { intros i s Hs. apply lookup_singleton_Some in Hs as [_ <-]. done. }
  destruct Hi as [W1 W2 W3 W4 W5]. split; simpl in *; try done.
  - intros p u Hp Hlt. destruct (W4 p u Hp Hlt) as (i & s & Hs & E). rewrite (Hn i s Hs) in E. done.
  - intros p u Hp Hlt. destruct (W5 p u Hp Hlt) as (i & s & Hs & E). rewrite (Hn i s Hs) in E. done.
Qed.

Section alone.
Context (r : qd_mpmc_ring) (log : list Z).
Hypotheses (HQ : quiet r log) (Hsm : small r).

Lemma push_seq_step t :
  push_step false t (PSeq (r_tail r)) r =
    Ok (if r_tail r <? r_head r + r_capacity r then PCas (r_tail r) else PReturn QD_ERR_BUSY, r).
Proof.
  pose proof (quiet_ring r log HQ) as HR. pose proof (ok_order _ _ HR). pose proof (shape_capacity2 r (ok_shape _ _ HR)).
  destruct (quiet_tail r log HQ) as (u & Hu). unfold small in Hsm. simpl. rewrite (get_cell_eq _ _ _ (ok_shape _ _ HR) Hu). cbn [obind fst].
  destruct (Z.ltb_spec (r_tail r) (r_head r + r_capacity r)); rewrite intptr_diff_small by lia; cbn [obind].
  - by rewrite Z.sub_diag.
  - destruct (Z.eqb_spec (r_head r + 1 - r_tail r) 0); [lia|]. destruct (Z.ltb_spec (r_head r + 1 - r_tail r) 0); [done|lia].
Qed.

Lemma pop_seq_step :
  pop_step false (QSeq (r_head r)) r =
    Ok (if r_head r <? r_tail r then QCas (r_head r) else QReturn QD_ERR_AGAIN None, r).
Proof.
  pose proof (quiet_ring r log HQ) as HR. pose proof (ok_order _ _ HR). pose proof (shape_capacity2 r (ok_shape _ _ HR)).
  unfold small in Hsm. simpl. rewrite u64_small by (unfold_widths; lia).
  destruct (Z.ltb_spec (r_head r) (r_tail r)).
  - destruct (quiet_full r log HQ (r_head r) ltac:(lia)) as (u & Hu & _).
    rewrite (get_cell_eq _ _ _ (ok_shape _ _ HR) Hu). cbn [obind fst]. rewrite intptr_diff_small by lia. cbn [obind].
    by rewrite Z.sub_diag.
  - destruct (quiet_tail r log HQ) as (u & Hu). replace (r_tail r) with (r_head r) in Hu by lia.
    destruct (Z.ltb_spec (r_head r) (r_head r + r_capacity r)); [|lia].
    rewrite (get_cell_eq _ _ _ (ok_shape _ _ HR) Hu). cbn [obind fst]. rewrite intptr_diff_small by lia. cbn [obind].
    destruct (Z.eqb_spec (r_head r - (r_head r + 1)) 0); [lia|].
    destruct (Z.ltb_spec (r_head r - (r_head r + 1)) 0); [done|lia].
Qed.
End alone.

Lemma run_push_S fuel t pc r pc' r' :
  push_step false t pc r = Ok (pc', r') -> idle (Some (TPush t pc)) = false ->
  run_push (S fuel) t pc r = run_push fuel t pc' r'.
Proof. intros E Hi. destruct pc; try done; cbn [run_push]; rewrite E; done. Qed.

Lemma run_pop_S fuel pc r pc' r' :
  pop_step false pc r = Ok (pc', r') -> idle (Some (TPop pc)) = false ->
  run_pop (S fuel) pc r = run_pop fuel pc' r'.
Proof. intros E Hi. destruct pc; try done; cbn [run_pop]; rewrite E; done. Qed.

(** The steps of the only thread. *)
Definition solo (r : qd_mpmc_ring) (log : list Z) (t : thread) : Prop := inv (mkWorld r {[0%nat := t]} log []).

Lemma solo_push r log t pc pc' r' :
  solo r log (TPush t pc) -> small r -> push_step false t pc r = Ok (pc', r') ->
  solo r' (log ++ reserved t pc pc') (TPush t pc').
Proof.
  intros Hi Hs E. destruct (inv_push _ 0 t pc false [] Hi (lookup_singleton_eq _ _) Hs) as (pc1 & r1 & E1 & Hi1 & _).
  cbn [ring] in E1. rewrite E in E1. injection E1 as <- <-. unfold after_push in Hi1. cbn in Hi1.
  by rewrite insert_singleton_eq in Hi1.
Qed.

Lemma solo_pop r log pc pc' r' :
  solo r log (TPop pc) -> small r -> pop_step false pc r = Ok (pc', r') -> solo r' log (TPop pc').
Proof.
  intros Hi Hs E. destruct (inv_pop _ 0 pc false [] Hi (lookup_singleton_eq _ _) Hs) as (pc1 & r1 & E1 & Hi1 & _).
  cbn [ring] in E1. rewrite E in E1. injection E1 as <- <-. unfold after_pop in Hi1. cbn in Hi1.
  by rewrite insert_singleton_eq in Hi1.
Qed.

(** A push alone succeeds exactly when the ring is not full. *)
Lemma push_alone r log fuel t : quiet r log -> r_tail r + r_capacity r + 2 < 2 ^ 63 -> (5 <= fuel)%nat ->
  if r_tail r <? r_head r + r_capacity r then
    exists r', qd_mpmc_ring_push fuel r t = Ok (QD_OK, r') /\ quiet r' (log ++ [t]) /\
      r_head r' = r_head r /\ r_tail r' = r_tail r + 1 /\ r_capacity r' = r_capacity r
  else qd_mpmc_ring_push fuel r t = Ok (QD_ERR_BUSY, r).
Proof.
  intros HQ Hsm' Hf. assert (small r) as Hsm by (unfold small; lia). do 5 (destruct fuel as [|fuel]; [lia|]). unfold qd_mpmc_ring_push.
  pose proof (quiet_ring r log HQ) as HR. pose proof (shape_capacity2 r (ok_shape _ _ HR)). pose proof (ok_order _ _ HR).
  assert (solo r log (TPush t PLoad)) as I0 by (by apply quiet_start).
  rewrite (run_push_S _ t PLoad r _ _ eq_refl eq_refl). pose proof (push_seq_step r log HQ Hsm t) as E2.
  rewrite (run_push_S _ t (PSeq (r_tail r)) r _ _ E2 eq_refl).
  destruct (Z.ltb_spec (r_tail r) (r_head r + r_capacity r)); [|done].
  pose proof (solo_push _ _ _ _ _ _ I0 Hsm eq_refl) as I1. pose proof (solo_push _ _ _ _ _ _ I1 Hsm E2) as I2.
  cbn [reserved] in I2. rewrite !app_nil_r in I2.
  assert (push_step false t (PCas (r_tail r)) r = Ok (PWrite (r_tail r), set_r_tail (r_tail r + 1) r)) as E3.
  { cbn [push_step negb andb]. rewrite Z.eqb_refl, u64_small by (unfold_widths; lia). done. }
  pose proof (solo_push _ _ _ _ _ _ I2 Hsm E3) as I3. cbn [reserved] in I3.
  rewrite (run_push_S _ t _ _ _ _ E3 eq_refl).
  destruct (push_write _ 0 t [] I3 (r_tail r) (lookup_singleton_eq _ _)) as (r4 & E4 & I4 & Eh4 & Et4 & Ec4).
  cbn [ring set_r_tail r_head r_tail r_capacity] in E4, Eh4, Et4, Ec4.
  rewrite (run_push_S _ t _ _ (PPublish (r_tail r)) r4) by (done || cbn [push_step]; by rewrite E4).
  unfold after_push in I4. cbn [ring threads pushed] in I4. rewrite insert_singleton_eq in I4.
  destruct (push_publish _ 0 t [] I4 ltac:(unfold small; simpl; lia) (r_tail r) (lookup_singleton_eq _ _)) as (r5 & E5 & I5 & Eh5 & Et5 & Ec5).
  cbn [ring] in E5, Eh5, Et5, Ec5. exists r5.
  rewrite (run_push_S _ t _ _ (PReturn QD_OK) r5) by (done || cbn [push_step]; by rewrite E5).
  split; [by destruct fuel|]. split; [|lia]. unfold after_push in I5. cbn [ring threads pushed] in I5.
  rewrite insert_singleton_eq in I5. by eapply quiet_stop.
Qed.

(** A pop alone takes the oldest task, or reports that there is none. *)
Lemma pop_alone r log fuel : quiet r log -> small r -> (5 <= fuel)%nat ->
  match drop (Z.to_nat (r_head r)) log with
  | t :: _ => exists r', qd_mpmc_ring_pop fuel r = Ok (QD_OK, Some t, r') /\ quiet r' log /\
      r_head r' = r_head r + 1 /\ r_tail r' = r_tail r /\ r_capacity r' = r_capacity r
  | [] => qd_mpmc_ring_pop fuel r = Ok (QD_ERR_AGAIN, None, r)
  end.
Proof.
  intros HQ Hsm Hf. do 5 (destruct fuel as [|fuel]; [lia|]). unfold qd_mpmc_ring_pop.
  pose proof (quiet_ring r log HQ) as HR. pose proof (shape_capacity2 r (ok_shape _ _ HR)). pose proof (ok_order _ _ HR).
  assert (solo r log (TPop QLoad)) as I0 by (by apply quiet_start). pose proof Hsm as Hsm'. unfold small in Hsm'.
  rewrite (run_pop_S _ QLoad r _ _ eq_refl eq_refl). pose proof (pop_seq_step r log HQ Hsm) as E2.
  rewrite (run_pop_S _ (QSeq (r_head r)) r _ _ E2 eq_refl).
  destruct (Z.ltb_spec (r_head r) (r_tail r)) as [Hlt|Hge].
  2: { rewrite drop_ge by lia. done. }
  pose proof (solo_pop _ _ _ _ _ I0 Hsm eq_refl) as I1. pose proof (solo_pop _ _ _ _ _ I1 Hsm E2) as I2.
  destruct (quiet_full r log HQ (r_head r) ltac:(lia)) as (t & Hc & Hl).
  rewrite (drop_S _ t _ Hl).
  assert (pop_step false (QCas (r_head r)) r = Ok (QRead (r_head r), set_r_head (r_head r + 1) r)) as E3.
  { cbn [pop_step negb andb]. rewrite Z.eqb_refl, u64_small by (unfold_widths; lia). done. }
  pose proof (solo_pop _ _ _ _ _ I2 Hsm E3) as I3. rewrite (run_pop_S _ _ _ _ _ E3 eq_refl).
  assert (pop_step false (QRead (r_head r)) (set_r_head (r_head r + 1) r) = Ok (QPublish (r_head r) t, set_r_head (r_head r + 1) r)) as E4.
  { cbn [pop_step]. rewrite (get_cell_eq _ _ (r_head r + 1, t)); [done| |done]. apply (inv_ring _ I3). }
  pose proof (solo_pop _ _ _ _ _ I3 Hsm E4) as I4. rewrite (run_pop_S _ _ _ _ _ E4 eq_refl).
  destruct (pop_publish _ 0 [] I4 Hsm (r_head r) t (lookup_singleton_eq _ _)) as (r5 & E5 & I5 & Eh5 & Et5 & Ec5).
  cbn [ring set_r_head r_head r_tail r_capacity] in E5, Eh5, Et5, Ec5. exists r5.
  rewrite (run_pop_S _ _ _ (QReturn QD_OK (Some t)) r5) by (done || cbn [pop_step set_r_head r_capacity]; by rewrite E5).
  split; [by destruct fuel|]. split; [|lia]. unfold after_pop in I5. cbn [ring threads pushed] in I5.
  rewrite insert_singleton_eq in I5. by eapply quiet_stop.
Qed.

(** ** The ring as a bounded queue

    [ring_holds n r q]: no call is running, the tasks in the ring are [q], oldest first,
    and [n] more pushes cannot bring a position near the end of its range. *)

Definition ring_holds (n : nat) (r : qd_mpmc_ring) (q : list Z) : Prop :=
  exists log, quiet r log /\ q = drop (Z.to_nat (r_head r)) log /\
    r_tail r + r_capacity r + Z.of_nat n + 1 < 2 ^ 63.

Lemma ring_init_holds n c r :
  2 <= c <= 2 ^ 61 -> Z.of_nat n <= 2 ^ 61 -> qd_mpmc_ring_init true c = Some r ->
  ring_holds n r [] /\ c <= r_capacity r.
Proof.
  intros Hc Hn E. destruct (init_ok c r ltac:(lia) E) as (Hi & Eh & Et & Hle). split; [|done].
  exists []. split; [done|]. split; [by rewrite drop_nil|]. rewrite Et.
  unfold qd_mpmc_ring_init in E. destruct (Z.eqb_spec c 0); [lia|]. simpl in E. injection E as <-. simpl.
  destruct (next_pow2_64_correct c ltac:(lia)) as (k & Hk & -> & _ & Hmin).
  assert (2 ^ k <= 2 ^ 61) by (apply Z.pow_le_mono_r; [lia|apply Hmin; lia]). lia.
Qed.

Lemma ring_holds_length n r q : ring_holds n r q -> Z.of_nat (length q) = r_tail r - r_head r.
Proof.
  intros (log & HQ & -> & _). pose proof (ok_order _ _ (quiet_ring _ _ HQ)) as (? & ? & ?). rewrite length_drop. lia.
Qed.

Lemma ring_push_holds n r q t fuel :
  ring_holds (S n) r q -> (5 <= fuel)%nat ->
  if Z.of_nat (length q) <? r_capacity r then
    exists r', qd_mpmc_ring_push fuel r t = Ok (QD_OK, r') /\ ring_holds n r' (q ++ [t]) /\ r_capacity r' = r_capacity r
  else qd_mpmc_ring_push fuel r t = Ok (QD_ERR_BUSY, r).
Proof.
  intros Hh Hf. rewrite (ring_holds_length _ _ _ Hh). destruct Hh as (log & HQ & -> & Hb).
  pose proof (ok_order _ _ (quiet_ring _ _ HQ)) as (? & ? & ?).
  pose proof (push_alone r log fuel t HQ ltac:(lia) Hf) as Hp.
  destruct (Z.ltb_spec (r_tail r) (r_head r + r_capacity r));
    destruct (Z.ltb_spec (r_tail r - r_head r) (r_capacity r)); try lia; [|done].
  destruct Hp as (r' & E & HQ' & Eh & Et & Ec). exists r'. split; [done|]. split; [|done].
  exists (log ++ [t]). split; [done|]. rewrite Eh, Et, Ec. split; [|lia]. symmetry. apply drop_app_le. lia.
Qed.

Lemma ring_pop_holds n r q fuel :
  ring_holds n r q -> (5 <= fuel)%nat ->
  match q with
  | t :: q => exists r', qd_mpmc_ring_pop fuel r = Ok (QD_OK, Some t, r') /\ ring_holds n r' q /\ r_capacity r' = r_capacity r
  | [] => qd_mpmc_ring_pop fuel r = Ok (QD_ERR_AGAIN, None, r)
  end.
Proof.
  intros (log & HQ & -> & Hb) Hf. pose proof (ok_order _ _ (quiet_ring _ _ HQ)) as (? & ? & ?).
  pose proof (pop_alone r log fuel HQ ltac:(unfold small; lia) Hf) as Hp.
  destruct (drop (Z.to_nat (r_head r)) log) as [|t q] eqn:Ed; [done|].
  destruct Hp as (r' & E & HQ' & Eh & Et & Ec). exists r'. split; [done|]. split; [|done].
  exists log. split; [done|]. rewrite Eh, Et, Ec. split; [|lia].
  replace (Z.to_nat (r_head r + 1)) with (1 + Z.to_nat (r_head r))%nat by lia. rewrite Nat.add_comm, <- drop_drop, Ed. done.
Qed.

(** C22: The ring under every interleaving.  A ring for at least two tasks is used by
    any number of threads, each making any pushes and pops, with their atomic steps
    interleaved in any order and with spurious CAS failures.  No step is undefined; a
    pop returns the task of its position in the order of the pushes, and no position
    twice.  When no call is running, the tasks popped are the oldest ones pushed, each
    once, and the ring holds the others in order, at most its capacity. *)
Theorem mpmc_fifo n r l :
  2 <= n <= 2 ^ 61 -> qd_mpmc_ring_init true n = Some r -> Z.of_nat (length l) < 2 ^ 61 ->
  exists w, run l (new_world r) = Ok w /\
    NoDup (popped w).*1 /\
    (forall p t, (p, t) ∈ popped w -> 0 <= p /\ pushed w !! Z.to_nat p = Some t) /\
    (at_rest w ->
       (popped w).*2 ≡ₚ take (length (popped w)) (pushed w) /\
       contents (ring w) = drop (length (popped w)) (pushed w) /\
       Z.of_nat (length (contents (ring w))) <= r_capacity r).
Proof.
  intros Hn E Hl. destruct (init_ok n r ltac:(lia) E) as (Hi & Eh & Et & Hle).
  destruct (ring_init_holds 0 n r Hn ltac:(lia) E) as ((log & _ & _ & Hb) & _).
  assert (r_capacity r <= 2 ^ 61) as Hc.
  { unfold qd_mpmc_ring_init in E. destruct (Z.eqb_spec n 0); [lia|]. simpl in E. injection E as <-. simpl.
    destruct (next_pow2_64_correct n ltac:(lia)) as (k & Hk & -> & _ & Hmin). apply Z.pow_le_mono_r; [lia|apply Hmin; lia]. }
  destruct (ring_run_inv l (new_world r) Hi) as (w & Ew & Hw & Hlog & Ec).
  { split; simpl; [by intros ? ? ?%not_elem_of_nil|constructor|done|rewrite Eh; lia]. }
  { simpl. lia. }
  exists w. split; [done|]. split; [apply Hlog|]. split.
  { intros p t Hp. destruct (lg_popped _ Hlog p t Hp). split; [lia|done]. }
  intros Hr. destruct (rest_popped w Hw Hlog Hr) as [Hlen Hp].
  replace (length (popped w)) with (Z.to_nat (r_head (ring w))) by lia.
  pose proof (quiet_contents _ _ (rest_quiet w Hw Hr)) as Hco. split; [done|]. split; [done|].
  rewrite Hco, length_drop. pose proof (ok_order _ _ (inv_ring _ Hw)). cbn [new_world ring] in Ec. lia.
Qed.

Definition demo_ring : qd_mpmc_ring := default (mkMpmc [] 0 0 0 0) (qd_mpmc_ring_init true 2).
Definition demo_run : list action :=
  [APush 0 7; APush 1 8; APop 2] ++ concat (replicate 5 [AStep 0 false; AStep 1 true; AStep 2 false; AStep 1 false])
  ++ [APop 2] ++ concat (replicate 20 [AStep 2 false; AStep 1 false]).

Lemma mpmc_fifo_witness :
  exists w, run demo_run (new_world demo_ring) = Ok w /\ (popped w).*2 ≡ₚ [7] /\ contents (ring w) = [8].
Proof.
  destruct (mpmc_fifo 2 demo_ring demo_run ltac:(lia) eq_refl ltac:(vm_compute; reflexivity)) as (w & E & _ & _ & Hr).
  exists w. split; [exact E|]. vm_compute in E. injection E as <-.
  destruct Hr as (Hp & Hc & _).
  { apply (bool_decide_unpack _). vm_compute. exact I. }
  split; [exact Hp|exact Hc].
Defined.

(** A ring of one cell is not a queue: the sequence numbers of a full cell and of the
    next empty one are the same, so a second push overwrites the task of the first, and
    reports success; then the sequence number is ahead of every pop, which never ends. *)
Theorem mpmc_one_cell_overwrites :
  exists r r1 r2, qd_mpmc_ring_init true 1 = Some r /\
    qd_mpmc_ring_push 5 r 7 = Ok (QD_OK, r1) /\ qd_mpmc_ring_push 5 r1 8 = Ok (QD_OK, r2) /\
    cells r2 = [(2, 8)] /\ forall fuel, qd_mpmc_ring_pop fuel r2 = Fuel.
Proof.
  eexists _, _, (mkMpmc [(2, 8)] 1 0 0 2). split; [vm_compute; reflexivity|]. split; [vm_compute; reflexivity|].
  split; [vm_compute; reflexivity|]. split; [done|]. unfold qd_mpmc_ring_pop.
  assert (forall fuel pc, pc = QLoad \/ pc = QSeq 0 -> run_pop fuel pc (mkMpmc [(2, 8)] 1 0 0 2) = Fuel) as H;
    [|intros fuel; apply H; by left].
  induction fuel as [|fuel IH]; intros pc [-> | ->]; try done.
  - cbn [run_pop pop_step obind r_head]. apply IH. by right.
  - rewrite (run_pop_S _ _ _ QLoad (mkMpmc [(2, 8)] 1 0 0 2)) by done. apply IH. by left.
Qed.
