(* ===== verification/WsDeque.v ===== *)
(** * src/core/qd_threadpool.c: the work-stealing deque

    The owner pushes and pops at the bottom, any number of thieves steal at the top.
    Calls are machines whose steps are the atomic accesses of the C functions; a run is
    any interleaving of the owner and the thieves (sequentially consistent memory).
    Running a machine alone gives the function a single thread sees. *)

From S2P Require Import Prelude Common.

(** [struct qd_wsdeque]; the buffer holds task pointers. *)
Record qd_wsdeque := mkDeque { d_buffer : list Z; d_capacity : Z; d_top : Z; d_bottom : Z }.

Definition set_top (t : Z) (d : qd_wsdeque) : qd_wsdeque := mkDeque (d_buffer d) (d_capacity d) t (d_bottom d).
Definition set_bottom (b : Z) (d : qd_wsdeque) : qd_wsdeque := mkDeque (d_buffer d) (d_capacity d) (d_top d) b.

(** [calloc_ok]: the buffer could be allocated. *)
Definition qd_wsdeque_init (calloc_ok : bool) (capacity : Z) : option qd_wsdeque :=
  if capacity =? 0 then None else
  let capacity := qd_next_pow2_64 capacity in
  if negb calloc_ok then None else
  Some (mkDeque (replicate (Z.to_nat capacity) 0) capacity 0 0).

Definition index (d : qd_wsdeque) (i : Z) : nat := Z.to_nat (Z.land i (d_capacity d -64 1)).

Definition get_slot (d : qd_wsdeque) (i : Z) : outcome Z := of_option (d_buffer d !! index d i).

Definition put_slot (d : qd_wsdeque) (i t : Z) : outcome qd_wsdeque :=
  let! _ := get_slot d i in
  Ok (mkDeque (<[index d i := t]> (d_buffer d)) (d_capacity d) (d_top d) (d_bottom d)).

(** ** qd_wsdeque_push *)

Inductive push_pc :=
| PBottom
| PTop (bottom : Z)
| PStore (bottom : Z)
| PPublish (bottom : Z)
| PReturn (code : Z).

Definition push_step (task : Z) (pc : push_pc) (d : qd_wsdeque) : outcome (push_pc * qd_wsdeque) :=
  match pc with
  | PBottom => Ok (PTop (d_bottom d), d)
  | PTop bottom =>
    let size := bottom -64 d_top d in
    Ok (if d_capacity d -64 1 <=? size then PReturn (-1) else PStore bottom, d)
  | PStore bottom => let! d := put_slot d bottom task in Ok (PPublish bottom, d)
  | PPublish bottom => Ok (PReturn 0, set_bottom (bottom +64 1) d)
  | PReturn code => Ok (PReturn code, d)
  end.

(** ** qd_wsdeque_pop *)

(** [bottom] is the decremented value; a result [None] is NULL. *)
Inductive pop_pc :=
| QBottom
| QDec (bottom : Z)
| QTop (bottom : Z)
| QRead (top bottom : Z)
| QCas (bottom task : Z)
| QRestore (bottom : Z) (task : option Z)
| QReturn (task : option Z).

Definition pop_step (pc : pop_pc) (d : qd_wsdeque) : outcome (pop_pc * qd_wsdeque) :=
  match pc with
  | QBottom => Ok (if d_bottom d =? 0 then QReturn None else QDec (d_bottom d -64 1), d)
  | QDec bottom => Ok (QTop bottom, set_bottom bottom d)
  | QTop bottom => Ok (if d_top d <=? bottom then QRead (d_top d) bottom else QRestore bottom None, d)
  | QRead top bottom =>
    let! task := get_slot d bottom in
    Ok (if top =? bottom then QCas bottom task else QReturn (Some task), d)
  | QCas bottom task =>
    if d_top d =? bottom then Ok (QRestore bottom (Some task), set_top (bottom +64 1) d)
    else Ok (QRestore bottom None, d)
  | QRestore bottom task => Ok (QReturn task, set_bottom (bottom +64 1) d)
  | QReturn task => Ok (QReturn task, d)
  end.

(** ** qd_wsdeque_steal *)

Inductive steal_pc :=
| STop
| SBottom (top : Z)
| SRead (top : Z)
| SCas (top task : Z)
| SReturn (task : option Z).

Definition steal_step (pc : steal_pc) (d : qd_wsdeque) : outcome (steal_pc * qd_wsdeque) :=
  match pc with
  | STop => Ok (SBottom (d_top d), d)
  | SBottom top => Ok (if d_bottom d <=? top then SReturn None else SRead top, d)
  | SRead top => let! task := get_slot d top in Ok (SCas top task, d)
  | SCas top task =>
    if d_top d =? top then Ok (SReturn (Some task), set_top (top +64 1) d) else Ok (SReturn None, d)
  | SReturn task => Ok (SReturn task, d)
  end.

(** ** The calls of a thread that runs alone *)

Fixpoint run_push (fuel : nat) (task : Z) (pc : push_pc) (d : qd_wsdeque) : outcome (Z * qd_wsdeque) :=
  match pc, fuel with
  | PReturn code, _ => Ok (code, d)
  | _, O => Fuel
  | _, S fuel => let! (pc, d) := push_step task pc d in run_push fuel task pc d
  end.
Definition qd_wsdeque_push (fuel : nat) (d : qd_wsdeque) (task : Z) : outcome (Z * qd_wsdeque) :=
  run_push fuel task PBottom d.

Fixpoint run_pop (fuel : nat) (pc : pop_pc) (d : qd_wsdeque) : outcome (option Z * qd_wsdeque) :=
  match pc, fuel with
  | QReturn task, _ => Ok (task, d)
  | _, O => Fuel
  | _, S fuel => let! (pc, d) := pop_step pc d in run_pop fuel pc d
  end.
Definition qd_wsdeque_pop (fuel : nat) (d : qd_wsdeque) : outcome (option Z * qd_wsdeque) :=
  run_pop fuel QBottom d.

Fixpoint run_steal (fuel : nat) (pc : steal_pc) (d : qd_wsdeque) : outcome (option Z * qd_wsdeque) :=
  match pc, fuel with
  | SReturn task, _ => Ok (task, d)
  | _, O => Fuel
  | _, S fuel => let! (pc, d) := steal_step pc d in run_steal fuel pc d
  end.
Definition qd_wsdeque_steal (fuel : nat) (d : qd_wsdeque) : outcome (option Z * qd_wsdeque) :=
  run_steal fuel STop d.

(** ** The interleaving of the owner and the thieves

    [given] logs the tasks whose push took effect, [taken] the tasks that pops and
    steals have returned. *)

Inductive owner :=
| OPush (task : Z) (pc : push_pc)
| OPop (pc : pop_pc).

Record world := mkWorld {
  deque : qd_wsdeque;
  the_owner : owner;
  thieves : gmap nat steal_pc;
  given : list Z;
  taken : list Z
}.

Inductive action :=
| APush (task : Z)
| APop
| ASteal (i : nat)
| AOwner
| AThief (i : nat).

Definition owner_idle (o : owner) : bool :=
  match o with OPush _ (PReturn _) | OPop (QReturn _) => true | _ => false end.
Definition thief_idle (s : option steal_pc) : bool :=
  match s with None | Some (SReturn _) => true | _ => false end.

Definition put_owner (o : owner) (d : qd_wsdeque) (new got : list Z) (w : world) : world :=
  mkWorld d o (thieves w) (given w ++ new) (taken w ++ got).
Definition put_thief (i : nat) (s : steal_pc) (d : qd_wsdeque) (got : list Z) (w : world) : world :=
  mkWorld d (the_owner w) (<[i := s]> (thieves w)) (given w) (taken w ++ got).

(** What a step hands over. *)
Definition pushed_by (task : Z) (pc : push_pc) : list Z := match pc with PPublish _ => [task] | _ => [] end.
Definition popped_by (pc pc' : pop_pc) : list Z :=
  match pc, pc' with QReturn _, _ => [] | _, QReturn (Some task) => [task] | _, _ => [] end.
Definition stolen_by (pc pc' : steal_pc) : list Z :=
  match pc, pc' with SReturn _, _ => [] | _, SReturn (Some task) => [task] | _, _ => [] end.

Definition step (a : action) (w : world) : outcome world :=
  let d := deque w in
  match a with
  | APush task => Ok (if owner_idle (the_owner w) then put_owner (OPush task PBottom) d [] [] w else w)
  | APop => Ok (if owner_idle (the_owner w) then put_owner (OPop QBottom) d [] [] w else w)
  | ASteal i => Ok (if thief_idle (thieves w !! i) then put_thief i STop d [] w else w)
  | AOwner =>
    match the_owner w with
    | OPush task pc =>
      let! (pc', d) := push_step task pc d in Ok (put_owner (OPush task pc') d (pushed_by task pc) [] w)
    | OPop pc => let! (pc', d) := pop_step pc d in Ok (put_owner (OPop pc') d [] (popped_by pc pc') w)
    end
  | AThief i =>
    match thieves w !! i with
    | None => Ok w
    | Some pc => let! (pc', d) := steal_step pc d in Ok (put_thief i pc' d (stolen_by pc pc') w)
    end
  end.

Fixpoint run (l : list action) (w : world) : outcome world :=
  match l with
  | [] => Ok w
  | a :: l => let! w := step a w in run l w
  end.

Definition new_world (d : qd_wsdeque) : world := mkWorld d (OPop (QReturn None)) ∅ [] [].

(** The owner pops the last task while a thief tries to steal it. *)
Example deque_race :
  (let! w := run ([APush 7; AOwner; AOwner; AOwner; AOwner; ASteal 0; APop; AThief 0; AThief 0] ++
                  [AOwner; AOwner; AOwner; AOwner; AThief 0; AOwner; AThief 0; AOwner])
     (new_world (default (mkDeque [] 0 0 0) (qd_wsdeque_init true 4))) in
   Ok (given w, taken w, the_owner w, thieves w !! 0%nat, deque w))
  = Ok ([7], [7], OPop (QReturn (Some 7)), Some (SReturn None), mkDeque [7; 0; 0; 0] 4 1 1).
Proof. vm_compute. reflexivity. Qed.

(** ** The invariant

    [q] are the tasks in the deque, from the top to the logical bottom (which [d_bottom]
    shows except while the owner pops); [h] is the task the owner has taken and not
    returned yet. *)

Record shape (d : qd_wsdeque) : Prop := {
  sh_pow : exists k, 0 <= k < 63 /\ d_capacity d = 2 ^ k;
  sh_buffer : Z.of_nat (length (d_buffer d)) = d_capacity d
}.

Definition slot (d : qd_wsdeque) (p : Z) : nat := Z.to_nat (p mod d_capacity d).

Definition logical (d : qd_wsdeque) (q : list Z) : Z := d_top d + Z.of_nat (length q).

Record deque_ok (d : qd_wsdeque) (q : list Z) : Prop := {
  ok_shape : shape d;
  ok_top : 0 <= d_top d;
  ok_room : Z.of_nat (length q) < d_capacity d;
  ok_slots : forall j t, q !! j = Some t -> d_buffer d !! slot d (d_top d + Z.of_nat j) = Some t
}.

Definition push_ok (d : qd_wsdeque) (q : list Z) (task : Z) (pc : push_pc) : Prop :=
  d_bottom d = logical d q /\
  match pc with
  | PTop b => b = d_bottom d
  | PStore b => b = d_bottom d /\ Z.of_nat (length q) < d_capacity d - 1
  | PPublish b =>
    b = d_bottom d /\ Z.of_nat (length q) < d_capacity d - 1 /\ d_buffer d !! slot d b = Some task
  | _ => True
  end.

Definition pop_ok (d : qd_wsdeque) (q h : list Z) (pc : pop_pc) : Prop :=
  match pc with
  | QBottom | QReturn _ => d_bottom d = logical d q /\ h = []
  | QDec b => d_bottom d = logical d q /\ b + 1 = d_bottom d /\ h = [] /\ 0 <= b
  | QTop b => d_bottom d = b /\ logical d q = b + 1 /\ h = [] /\ 0 <= b
  | QRead t b =>
    0 <= b /\ d_bottom d = b /\
    (t < b /\ logical d q = b /\ (exists v, h = [v] /\ d_buffer d !! slot d b = Some v) \/
     t = b /\ logical d q = b + 1 /\ h = [] /\ b <= d_top d)
  | QCas b v =>
    0 <= b /\ d_bottom d = b /\ logical d q = b + 1 /\ h = [] /\ b <= d_top d /\ (d_top d = b -> q = [v])
  | QRestore b r =>
    0 <= b /\ d_bottom d = b /\ logical d q = b + 1 /\ h = option_list r
  end.

Definition owner_ok (d : qd_wsdeque) (q h : list Z) (o : owner) : Prop :=
  match o with
  | OPush task pc => push_ok d q task pc /\ h = []
  | OPop pc => pop_ok d q h pc
  end.

Definition thief_ok (d : qd_wsdeque) (q : list Z) (s : steal_pc) : Prop :=
  match s with
  | STop | SReturn _ => True
  | SBottom t => 0 <= t <= d_top d
  | SRead t => 0 <= t <= d_top d /\ (d_top d = t -> q <> [])
  | SCas t v => 0 <= t <= d_top d /\ (d_top d = t -> list.head q = Some v)
  end.

Record inv (w : world) (q h : list Z) : Prop := {
  inv_deque : deque_ok (deque w) q;
  inv_owner : owner_ok (deque w) q h (the_owner w);
  inv_thieves : forall i s, thieves w !! i = Some s -> thief_ok (deque w) q s;
  inv_tasks : given w ≡ₚ taken w ++ h ++ q
}.

Lemma shape_pos d : shape d -> 0 < d_capacity d < 2 ^ 63.
Proof.
  intros [(k & Hk & ->) _]. split; [apply Z.pow_pos_nonneg; lia|]. apply Z.pow_lt_mono_r; lia.
Qed.

Lemma index_slot d p : shape d -> index d p = slot d p.
Proof.
  intros Hs. pose proof (shape_pos d Hs). destruct Hs as [(k & Hk & E) _]. unfold index, slot.
  rewrite u64_small by (unfold_widths; lia). rewrite E, land_mask by lia. done.
Qed.

Lemma deque_slot_lt d p : shape d -> (slot d p < length (d_buffer d))%nat.
Proof.
  intros Hs. pose proof (shape_pos d Hs). destruct Hs as [_ Hb]. unfold slot.
  pose proof (Z.mod_pos_bound p (d_capacity d)). lia.
Qed.

Lemma deque_slot_inj d p p' : shape d -> slot d p = slot d p' -> - d_capacity d < p - p' < d_capacity d -> p = p'.
Proof.
  intros Hs E Hd. pose proof (shape_pos d Hs). unfold slot in E.
  pose proof (Z.mod_pos_bound p (d_capacity d)). pose proof (Z.mod_pos_bound p' (d_capacity d)).
  pose proof (Z.div_mod p (d_capacity d)). pose proof (Z.div_mod p' (d_capacity d)).
  assert (p mod d_capacity d = p' mod d_capacity d) by lia.
  assert (p / d_capacity d = p' / d_capacity d); nia.
Qed.

Lemma get_slot_ok d p : shape d -> exists t, d_buffer d !! slot d p = Some t /\ get_slot d p = Ok t.
Proof.
  intros Hs. destruct (lookup_lt_is_Some_2 _ _ (deque_slot_lt d p Hs)) as [t Ht].
  exists t. split; [done|]. unfold get_slot. by rewrite index_slot, Ht.
Qed.

Lemma put_slot_eq d p t : shape d ->
  put_slot d p t = Ok (mkDeque (<[slot d p := t]> (d_buffer d)) (d_capacity d) (d_top d) (d_bottom d)).
Proof.
  intros Hs. unfold put_slot. destruct (get_slot_ok d p Hs) as (u & _ & ->). simpl. by rewrite index_slot.
Qed.

(** ** Steps *)

Section steps.
Context (w : world) (q h : list Z).
Hypotheses (Hw : inv w q h) (Hsmall : logical (deque w) q + 1 < u64_mod).

(** The owner moves; the deque and what it holds stay. *)
Lemma owner_quiet o :
  owner_ok (deque w) q h o -> inv (put_owner o (deque w) [] [] w) q h.
Proof. destruct Hw as [W1 W2 W3 W4]. intros Ho. split; simpl; rewrite ?app_nil_r; done. Qed.

(** The bottom of the deque is the owner's alone. *)
Lemma bottom_deque b : deque_ok (set_bottom b (deque w)) q.
Proof. destruct (inv_deque _ _ _ Hw) as [[S1 S2] ? ? ?]. split; [by split|done|done|done]. Qed.

(** The thieves do not see the bottom after they have read it. *)
Lemma thieves_bottom b s : thief_ok (deque w) q s -> thief_ok (set_bottom b (deque w)) q s.
Proof. by destruct s. Qed.

(** A push: the slot is outside of the tasks in the deque. *)
Lemma push_store task b :
  the_owner w = OPush task (PStore b) ->
  exists d', put_slot (deque w) b task = Ok d' /\
    inv (put_owner (OPush task (PPublish b)) d' [] [] w) q h /\
    d_top d' = d_top (deque w) /\ d_capacity d' = d_capacity (deque w).
Proof.
  intros Eo. destruct Hw as [W1 W2 W3 W4]. rewrite Eo in W2. destruct W2 as ((Hb & -> & Hr) & Hh).
  pose proof W1 as [S1 S2 S3 S4]. eexists. split; [by apply put_slot_eq|]. split; [|done]. unfold logical in Hb.
  assert (forall j t, q !! j = Some t ->
    <[slot (deque w) (d_bottom (deque w)) := task]> (d_buffer (deque w)) !! slot (deque w) (d_top (deque w) + Z.of_nat j) = Some t) as Hs.
  { intros j t Hj. rewrite list_lookup_insert_ne; [by apply S4|]. intros E. apply lookup_lt_Some in Hj.
    pose proof (deque_slot_inj (deque w) _ _ S1 E). lia. }
  split; simpl; rewrite ?app_nil_r; [|split; [split|]; simpl; [done| |done]| |done].
  - split; simpl; [|done|done|done]. destruct S1 as [? ?]. split; simpl; [done|]. by rewrite length_insert.
  - split; [done|]. split; [done|]. apply list_lookup_insert_eq. by apply deque_slot_lt.
  - intros i s Hi. specialize (W3 i s Hi). by destruct s.
Qed.

Lemma deque_push_publish task b :
  the_owner w = OPush task (PPublish b) ->
  inv (put_owner (OPush task (PReturn 0)) (set_bottom (b +64 1) (deque w)) [task] [] w) (q ++ [task]) h.
Proof.
  intros Eo. destruct Hw as [W1 W2 W3 W4]. rewrite Eo in W2. destruct W2 as ((Hb & -> & Hr & Hs) & Hh).
  pose proof W1 as [[S1 S1'] S2 S3 S4]. unfold logical in *. rewrite u64_small by (unfold_widths; lia).
  split; simpl; [split; simpl|split; [split|]; simpl| |].
  - by split.
  - done.
  - rewrite length_app. simpl. lia.
  - intros j t [Hj|[Hj Ht]]%lookup_app_Some; [by apply S4|]. apply list_lookup_singleton_Some in Ht as [Ej <-].
    replace (Z.of_nat j) with (Z.of_nat (length q)) by lia. by rewrite <- Hb.
  - unfold logical. simpl. rewrite length_app. simpl. lia.
  - done.
  - done.
  - intros i s Hi. specialize (W3 i s Hi). destruct s as [|t|t|t v|]; simpl in *; try done.
    + destruct W3 as [? ?]. split; [done|]. intros _. by destruct q.
    + destruct W3 as [? W3]. split; [done|]. intros E. specialize (W3 E). by destruct q.
  - rewrite W4, app_nil_r. by rewrite <- !app_assoc.
Qed.

(** A pop takes the last task as soon as it has read a smaller top. *)
Lemma pop_take b :
  the_owner w = OPop (QTop b) -> d_top (deque w) < b ->
  exists q' v, q = q' ++ [v] /\ inv (put_owner (OPop (QRead (d_top (deque w)) b)) (deque w) [] [] w) q' [v].
Proof.
  intros Eo Hlt. destruct Hw as [W1 W2 W3 W4]. rewrite Eo in W2. destruct W2 as (Hb & Hlo & -> & Hb0).
  pose proof W1 as [S1 S2 S3 S4]. unfold logical in *.
  destruct (exists_last (l := q)) as (q' & v & ->); [intros ->; simpl in Hlo; lia|].
  rewrite length_app in Hlo, S3. simpl in Hlo, S3. exists q', v. split; [done|].
  split; simpl; rewrite ?app_nil_r.
  - split; [done|done|lia|]. intros j t Hj. apply S4. by apply lookup_app_l_Some.
  - split; [done|]. split; [done|]. left. split; [done|]. unfold logical. split; [lia|]. exists v. split; [done|].
    rewrite <- (S4 (length q') v) by (by apply list_lookup_middle). f_equal. f_equal. lia.
  - intros i s Hi. specialize (W3 i s Hi).
    assert (q' <> []) as Hne by (intros ->; simpl in Hlo; lia).
    destruct s as [|t|t|t u|]; simpl in *; try done.
    + split; [apply W3|done].
    + destruct W3 as [? W3]. split; [done|]. intros E. specialize (W3 E). by destruct q'.
  - rewrite W4. simpl. by rewrite (Permutation_app_comm q' [v]).
Qed.

(** Reading the slot of the task taken, or of the one that may be stolen. *)
Lemma pop_read t b :
  the_owner w = OPop (QRead t b) ->
  exists v h', get_slot (deque w) b = Ok v /\
    inv (put_owner (OPop (if t =? b then QCas b v else QReturn (Some v))) (deque w) [] (if t =? b then [] else [v]) w) q h'.
Proof.
  intros Eo. destruct Hw as [W1 W2 W3 W4]. rewrite Eo in W2. destruct W2 as (Hb0 & Hb & Hc).
  pose proof W1 as [S1 S2 S3 S4]. destruct (get_slot_ok (deque w) b S1) as (v & Hv & ->). exists v.
  destruct Hc as [(Hlt & Hlo & u & -> & Hu)|(-> & Hlo & -> & Hge)].
  - destruct (Z.eqb_spec t b); [lia|]. exists []. split; [done|]. rewrite Hv in Hu. injection Hu as <-.
    split; simpl; rewrite ?app_nil_r; [done|split; [lia|done]|done|]. by rewrite W4, <- !app_assoc.
  - rewrite Z.eqb_refl. exists []. split; [done|]. split; simpl; rewrite ?app_nil_r; [done| |done|done].
    do 5 (split; [done|]). intros Et. unfold logical in Hlo.
    destruct q as [|u [|]]; simpl in Hlo; try lia.
    specialize (S4 0%nat u eq_refl). rewrite Et, Z.add_0_r in S4. congruence.
Qed.

(** The owner wins the race for the last task. *)
Lemma deque_pop_cas b v :
  the_owner w = OPop (QCas b v) -> d_top (deque w) = b ->
  inv (put_owner (OPop (QRestore b (Some v))) (set_top (b +64 1) (deque w)) [] [] w) [] [v].
Proof.
  intros Eo Et. destruct Hw as [W1 W2 W3 W4]. rewrite Eo in W2. destruct W2 as (Hb0 & Hb & Hlo & -> & _ & Hq).
  rewrite (Hq Et) in *. pose proof W1 as [[S1 S1'] S2 S3 S4]. unfold logical in *. simpl in *. clear Hlo.
  rewrite u64_small by (unfold_widths; lia). split; simpl; rewrite ?app_nil_r.
  - split; simpl; [by split|lia|lia|done].
  - split; [done|]. split; [done|]. unfold logical. simpl. split; [lia|done].
  - intros i s Hi. specialize (W3 i s Hi). destruct s as [|t|t|t u|]; simpl in *; try done; [lia| |]; (split; [lia|]); intros; lia.
  - done.
Qed.

(** A thief wins the race for the first task. *)
Lemma steal_cas i t v :
  thieves w !! i = Some (SCas t v) -> d_top (deque w) = t ->
  exists q', q = v :: q' /\ inv (put_thief i (SReturn (Some v)) (set_top (t +64 1) (deque w)) [v] w) q' h.
Proof.
  intros Hi Et. destruct Hw as [W1 W2 W3 W4]. destruct (W3 i _ Hi) as [Hr Hq]. specialize (Hq Et).
  destruct q as [|u q']; [done|]. injection Hq as ->. exists q'. split; [done|].
  pose proof W1 as [[S1 S1'] S2 S3 S4]. unfold logical in Hsmall. simpl in Hsmall, S3.
  rewrite u64_small by (unfold_widths; lia). split; simpl.
  - split; simpl; [by split|lia|lia|]. intros j x Hj. specialize (S4 (S j) x Hj). unfold slot in *. simpl.
    rewrite <- S4. f_equal. f_equal. f_equal. lia.
  - assert (forall z, logical (deque w) (v :: q') = z -> logical (set_top (t + 1) (deque w)) q' = z) as Hl.
    { intros z. unfold logical. simpl. lia. }
    destruct (the_owner w) as [task pc|pc]; simpl in *.
    + destruct W2 as ((Hb & Hp) & Hh). split; [|done]. split; [symmetry; apply Hl; exact (eq_sym Hb)|].
      destruct pc; try done; simpl in *; destruct_and?; split_and?; try done; lia.
    + destruct pc as [|b|b|t' b|b u|b r|r]; simpl in W2 |- *.
      * destruct W2 as [E ?]. split; [symmetry; apply Hl, (eq_sym E)|done].
      * destruct W2 as (E & ? & ? & ?). split; [symmetry; apply Hl, (eq_sym E)|done].
      * destruct W2 as (? & E & ? & ?). split; [done|]. split; [by apply Hl|done].
      * destruct W2 as (? & ? & [(? & E & ?)|(? & E & ? & ?)]); split; [done| |done|]; (split; [done|]);
          [left|right]; (split; [done|]); (split; [by apply Hl|]); [done|]. split; [done|]. simpl. lia.
      * destruct W2 as (? & ? & E & ? & ? & ?). do 2 (split; [done|]). split; [by apply Hl|]. split; [done|].
        simpl. split; [lia|]. intros E'. lia.
      * destruct W2 as (? & ? & E & ?). do 2 (split; [done|]). split; [by apply Hl|done].
      * destruct W2 as [E ?]. split; [symmetry; apply Hl, (eq_sym E)|done].
  - intros k s Hk. destruct (decide (k = i)) as [->|]; [rewrite lookup_insert_eq in Hk; by simplify_eq|].
    rewrite lookup_insert_ne in Hk by done. specialize (W3 k s Hk).
    destruct s as [|x|x|x u|]; simpl in *; try done; [lia| |]; (split; [lia|]); intros; lia.
  - rewrite W4. rewrite <- app_assoc. simpl. by rewrite <- Permutation_middle.
Qed.
End steps.

(** The bottom is restored, or moved by the owner. *)
Lemma owner_bottom w q h b o got h' :
  inv w q h -> owner_ok (set_bottom b (deque w)) q h' o -> h = got ++ h' ->
  inv (put_owner o (set_bottom b (deque w)) [] got w) q h'.
Proof.
  intros Hw Ho ->. split; simpl; rewrite ?app_nil_r.
  - by eapply bottom_deque.
  - done.
  - intros i s Hi. apply thieves_bottom. by eapply inv_thieves.
  - rewrite (inv_tasks _ _ _ Hw). by rewrite <- !app_assoc.
Qed.

Definition grows (w w' : world) (q q' : list Z) : Prop :=
  logical (deque w') q' <= logical (deque w) q + 1 /\ d_capacity (deque w') = d_capacity (deque w).

Lemma owner_push_inv w q h task pc :
  inv w q h -> logical (deque w) q + 1 < u64_mod -> the_owner w = OPush task pc ->
  exists w' q', step AOwner w = Ok w' /\ inv w' q' h /\ grows w w' q q'.
Proof.
  intros Hw Hs Eo. pose proof (inv_owner _ _ _ Hw) as Ho. rewrite Eo in Ho. destruct Ho as [(Hb & Hp) Hh].
  pose proof (inv_deque _ _ _ Hw) as [S1 S2 S3 S4]. pose proof (shape_pos _ S1).
  unfold step, grows. rewrite Eo. destruct pc as [|b|b|b|code]; cbn [push_step obind].
  - eexists _, q. split; [done|]. split; [|simpl; lia]. by apply owner_quiet.
  - eexists _, q. split; [done|]. split; [|simpl; lia]. apply owner_quiet; [done|]. simpl in Hp. subst b. unfold logical in *.
    rewrite (u64_small (d_capacity _ - 1)) by (unfold_widths; lia). rewrite u64_small by (unfold_widths; lia).
    zcase; (split; [|done]); (split; [done|]); simpl; [done|]. split; [done|]. lia.
  - destruct (push_store w q h Hw task b Eo) as (d' & -> & Hi & Et & Ec). eexists _, q. split; [done|]. split; [done|].
    unfold logical. simpl. rewrite Et. lia.
  - eexists _, _. split; [done|]. split; [by apply deque_push_publish|]. unfold logical. simpl. rewrite length_app. simpl. lia.
  - eexists _, q. split; [done|]. split; [|simpl; lia]. by apply owner_quiet.
Qed.

Lemma owner_pop_inv w q h pc :
  inv w q h -> logical (deque w) q + 1 < u64_mod -> the_owner w = OPop pc ->
  exists w' q' h', step AOwner w = Ok w' /\ inv w' q' h' /\ grows w w' q q'.
Proof.
  intros Hw Hs Eo. pose proof (inv_owner _ _ _ Hw) as Ho. rewrite Eo in Ho.
  pose proof (inv_deque _ _ _ Hw) as [S1 S2 S3 S4]. pose proof (shape_pos _ S1).
  unfold step, grows. rewrite Eo. destruct pc as [|b|b|t b|b v|b r|r]; cbn [pop_step obind].
  - destruct Ho as [Hb ->]. eexists _, q, []. split; [done|].
    replace (popped_by _ _) with (@nil Z) by (by destruct (d_bottom (deque w) =? 0)).
    split; [|simpl; lia]. apply owner_quiet; [done|]. unfold logical in *. destruct (Z.eqb_spec (d_bottom (deque w)) 0); [done|].
    simpl. rewrite u64_small by (unfold_widths; lia). unfold logical. split_and!; try done; lia.
  - destruct Ho as (Hb & Hb1 & -> & Hb0). eexists _, q, []. split; [done|].
    split; [|unfold logical; simpl; lia]. eapply owner_bottom; [done| |done]. simpl. unfold logical in *. simpl. split_and!; try done. lia.
  - pose proof Ho as (Hb & Hl & -> & Hb0). unfold logical in Hl, Hs. destruct (Z.leb_spec (d_top (deque w)) b) as [Hle|Hgt].
    + destruct (Z.eq_dec (d_top (deque w)) b) as [E|].
      * eexists _, q, []. split; [done|]. split; [|simpl; lia]. apply owner_quiet; [done|]. simpl.
        split_and!; try done. right. unfold logical. split_and!; done || lia.
      * destruct (pop_take w q [] Hw Hs b Eo ltac:(lia)) as (q' & v & -> & Hi). eexists _, q', [v]. split; [done|].
        split; [done|]. unfold logical. simpl. rewrite length_app. lia.
    + eexists _, q, []. split; [done|]. split; [|simpl; lia]. apply owner_quiet; [done|]. simpl. unfold logical. split_and!; done || lia.
  - destruct (pop_read w q h Hw Hs t b Eo) as (v & h' & -> & Hi). eexists _, q, h'. split; [done|].
    destruct (t =? b); (split; [exact Hi|unfold logical; simpl; lia]).
  - destruct Ho as (Hb0 & Hb & Hl & -> & Hge & Hq). unfold logical in Hl, Hs. destruct (Z.eqb_spec (d_top (deque w)) b) as [E|Hne].
    + eexists _, [], [v]. split; [done|]. split; [by eapply deque_pop_cas|]. unfold logical. simpl. rewrite u64_small by (unfold_widths; lia). lia.
    + eexists _, q, []. split; [done|]. split; [|simpl; lia]. apply owner_quiet; [done|]. simpl. unfold logical. split_and!; done || lia.
  - destruct Ho as (Hb0 & Hb & Hl & ->). unfold logical in Hl, Hs. rewrite u64_small by (unfold_widths; lia). eexists _, q, []. split; [done|].
    split; [|unfold logical; simpl; lia]. eapply owner_bottom; [done| |by destruct r]. simpl. unfold logical. simpl. split; [lia|done].
  - eexists _, q, h. split; [done|]. split; [|simpl; lia]. by apply owner_quiet.
Qed.

Lemma thief_quiet w q h i s d :
  inv w q h -> d = deque w -> thief_ok d q s -> inv (put_thief i s d [] w) q h.
Proof.
  intros [W1 W2 W3 W4] -> Hs. split; simpl; rewrite ?app_nil_r; try done.
  intros k s' Hk. destruct (decide (k = i)) as [->|]; [rewrite lookup_insert_eq in Hk; by simplify_eq|].
  rewrite lookup_insert_ne in Hk by done. eauto.
Qed.

Lemma thief_inv w q h i :
  inv w q h -> logical (deque w) q + 1 < u64_mod ->
  exists w' q', step (AThief i) w = Ok w' /\ inv w' q' h /\ grows w w' q q'.
Proof.
  intros Hw Hs. unfold step, grows. destruct (thieves w !! i) as [pc|] eqn:Hi; [|exists w, q; split; [done|]; split; [done|]; lia].
  pose proof (inv_thieves _ _ _ Hw i pc Hi) as Ht. pose proof (inv_deque _ _ _ Hw) as [S1 S2 S3 S4].
  destruct pc as [|t|t|t v|r]; cbn [steal_step obind].
  - eexists _, q. split; [done|]. split; [|simpl; lia]. apply thief_quiet; [done|done|]. simpl. lia.
  - eexists _, q. split; [done|]. replace (stolen_by _ _) with (@nil Z) by (by destruct (d_bottom (deque w) <=? t)).
    split; [|simpl; lia]. apply thief_quiet; [done|done|]. destruct (Z.leb_spec (d_bottom (deque w)) t); [done|]. simpl in *. split; [done|].
    intros E ->. assert (d_bottom (deque w) <= logical (deque w) []); [|unfold logical in *; simpl in *; lia].
    pose proof (inv_owner _ _ _ Hw) as Ho. unfold logical in *. simpl in *.
    destruct (the_owner w) as [task pc|pc]; [destruct Ho as [[? _] _]; unfold logical in *; simpl in *; lia|].
    destruct pc; simpl in Ho; unfold logical in Ho; simpl in Ho; destruct_and?; destruct_or?; lia.
  - destruct (get_slot_ok (deque w) t S1) as (v & Hv & ->). cbn [obind]. eexists _, q. split; [done|]. split; [|simpl; lia].
    apply thief_quiet; [done|done|]. simpl in *. destruct Ht as [? Ht]. split; [done|]. intros E. specialize (Ht E).
    destruct q as [|u q']; [done|]. specialize (S4 0%nat u eq_refl). rewrite Z.add_0_r, E in S4. simpl. congruence.
  - destruct (Z.eqb_spec (d_top (deque w)) t) as [E|].
    + destruct (steal_cas w q h Hw Hs i t v Hi E) as (q' & -> & Hi'). eexists _, q'. split; [done|]. split; [done|].
      unfold logical in *. simpl in *. rewrite u64_small by (unfold_widths; lia). lia.
    + eexists _, q. split; [done|]. split; [|simpl; lia]. by apply thief_quiet.
  - eexists _, q. split; [done|]. split; [|simpl; lia]. by apply thief_quiet.
Qed.

Lemma deque_step_inv w q h a :
  inv w q h -> logical (deque w) q + 1 < u64_mod ->
  exists w' q' h', step a w = Ok w' /\ inv w' q' h' /\ grows w w' q q'.
Proof.
  intros Hw Hs.
  assert (owner_idle (the_owner w) = true -> d_bottom (deque w) = logical (deque w) q /\ h = []) as Hidle.
  { pose proof (inv_owner _ _ _ Hw) as Ho. destruct (the_owner w) as [? []|[]]; try done; simpl in Ho; unfold push_ok in Ho; naive_solver. }
  destruct a as [task| |i| |i].
  - eexists _, q, h. split; [done|]. destruct (owner_idle (the_owner w)) eqn:E; [|split; [done|unfold grows; lia]].
    destruct (Hidle eq_refl) as [Hb ->]. split; [by apply owner_quiet|unfold grows; simpl; lia].
  - eexists _, q, h. split; [done|]. destruct (owner_idle (the_owner w)) eqn:E; [|split; [done|unfold grows; lia]].
    destruct (Hidle eq_refl) as [Hb ->]. split; [by apply owner_quiet|unfold grows; simpl; lia].
  - eexists _, q, h. split; [done|]. destruct (thief_idle (thieves w !! i)); [|split; [done|unfold grows; lia]].
    split; [by apply thief_quiet|unfold grows; simpl; lia].
  - destruct (the_owner w) as [task pc|pc] eqn:E.
    + destruct (owner_push_inv w q h task pc Hw Hs E) as (w' & q' & ? & ? & ?). eauto 6.
    + destruct (owner_pop_inv w q h pc Hw Hs E) as (w' & q' & h' & ? & ? & ?). eauto 6.
  - destruct (thief_inv w q h i Hw Hs) as (w' & q' & ? & ? & ?). eauto 6.
Qed.

Lemma deque_run_inv l : forall w q h,
  inv w q h -> logical (deque w) q + Z.of_nat (length l) + 1 < u64_mod ->
  exists w' q' h', run l w = Ok w' /\ inv w' q' h' /\ d_capacity (deque w') = d_capacity (deque w).
Proof.
  induction l as [|a l IH]; intros w q h Hw Hb; simpl in *; [eauto 6|].
  destruct (deque_step_inv w q h a Hw ltac:(lia)) as (w1 & q1 & h1 & -> & Hw1 & Hg & Ec). cbn [obind].
  destruct (IH w1 q1 h1 Hw1 ltac:(lia)) as (w' & q' & h' & E & Hi & Ec'). exists w', q', h'. split; [done|]. split; [done|congruence].
Qed.

(** ** Creation and rest *)

Lemma deque_init_ok n d :
  1 <= n <= 2 ^ 62 -> qd_wsdeque_init true n = Some d ->
  deque_ok d [] /\ d_top d = 0 /\ d_bottom d = 0 /\ n <= d_capacity d /\ d_capacity d <= 2 ^ 62.
Proof.
  intros Hn E. unfold qd_wsdeque_init in E. destruct (Z.eqb_spec n 0); [lia|].
  destruct (next_pow2_64_correct n ltac:(lia)) as (k & Hk & Ek & Hle & Hmin). rewrite Ek in E. simpl in E. injection E as <-.
  specialize (Hmin 62 ltac:(lia) ltac:(lia)).
  assert (0 < 2 ^ k) by (apply Z.pow_pos_nonneg; lia). assert (2 ^ k <= 2 ^ 62) by (apply Z.pow_le_mono_r; lia).
  split; [|done]. split; simpl; [|lia|lia|done]. split; simpl; [exists k; lia|]. rewrite length_replicate. lia.
Qed.

Definition at_rest (w : world) : Prop :=
  owner_idle (the_owner w) = true /\ map_Forall (fun _ s => thief_idle (Some s) = true) (thieves w).

(** The tasks in the deque, from the top to the bottom. *)
Definition contents (d : qd_wsdeque) : list Z :=
  (fun p => default 0 (d_buffer d !! slot d p)) <$> seqZ (d_top d) (d_bottom d - d_top d).

Lemma contents_ok d q : deque_ok d q -> d_bottom d = logical d q -> contents d = q.
Proof.
  intros [S1 S2 S3 S4] Hb. unfold contents. rewrite Hb. unfold logical. replace (_ + _ - _) with (Z.of_nat (length q)) by lia.
  apply list_eq. intros j. rewrite list_lookup_fmap. destruct (lookup_lt_is_Some q j) as [_ Hlt].
  destruct (Nat.lt_ge_cases j (length q)).
  - rewrite lookup_seqZ_lt by lia. destruct (Hlt ltac:(done)) as [t Ht]. cbn. by rewrite (S4 j t Ht).
  - rewrite lookup_seqZ_ge by lia. symmetry. by apply lookup_ge_None.
Qed.

(** ** The calls of a thread that runs alone *)

(** [deque_holds n d q]: no call is running, the tasks are [q] from the top to the bottom,
    and the next [n] pushes cannot bring a position to the end of its range. *)
Definition deque_holds (n : nat) (d : qd_wsdeque) (q : list Z) : Prop :=
  deque_ok d q /\ d_bottom d = logical d q /\ logical d q + Z.of_nat n + 1 < u64_mod.

Lemma deque_init_holds n c d :
  1 <= c <= 2 ^ 62 -> Z.of_nat n <= 2 ^ 62 -> qd_wsdeque_init true c = Some d ->
  deque_holds n d [] /\ c <= d_capacity d.
Proof.
  intros Hc Hn E. destruct (deque_init_ok c d Hc E) as (H1 & H2 & H3 & H4 & H5). split; [|done]. split; [done|].
  unfold logical. rewrite H2, H3. simpl. unfold_widths. lia.
Qed.

Lemma deque_push_holds n d q t fuel :
  deque_holds (S n) d q -> (4 <= fuel)%nat ->
  if Z.of_nat (length q) <? d_capacity d - 1 then
    exists d', qd_wsdeque_push fuel d t = Ok (0, d') /\ deque_holds n d' (q ++ [t]) /\ d_capacity d' = d_capacity d
  else qd_wsdeque_push fuel d t = Ok (-1, d).
Proof.
  intros (Hd & Hb & Hn) Hf. pose proof Hd as [S1 S2 S3 S4]. pose proof (shape_pos d S1).
  do 4 (destruct fuel as [|fuel]; [lia|]). unfold qd_wsdeque_push. cbn [run_push push_step obind].
  rewrite (u64_small (d_capacity d - 1)) by (unfold_widths; lia).
  rewrite u64_small by (unfold logical in Hb, Hn; unfold_widths; lia).
  replace (d_bottom d - d_top d) with (Z.of_nat (length q)) by (unfold logical in Hb; lia).
  destruct (Z.ltb_spec (Z.of_nat (length q)) (d_capacity d - 1)), (Z.leb_spec (d_capacity d - 1) (Z.of_nat (length q))); try lia; [|done].
  assert (inv (mkWorld d (OPush t (PStore (d_bottom d))) ∅ q []) q []) as I0.
  { by split. }
  destruct (push_store _ _ _ I0 t _ eq_refl) as (d1 & E1 & I1 & Et1 & Ec1). cbn [deque] in E1, Et1, Ec1.
  cbn [run_push push_step]. rewrite E1. cbn [obind run_push push_step].
  pose proof (deque_push_publish _ _ _ I1 ltac:(unfold logical in *; simpl; rewrite Et1; lia) t _ eq_refl) as I2.
  eexists. split; [by destruct fuel|]. split; [|exact Ec1]. split; [apply (inv_deque _ _ _ I2)|].
  destruct (inv_owner _ _ _ I2) as [[Hb2 _] _]. split; [exact Hb2|]. unfold logical in *. simpl. rewrite Et1, length_app. simpl. lia.
Qed.

Lemma deque_pop_holds n d q fuel :
  deque_holds n d q -> (6 <= fuel)%nat ->
  match q with
  | [] => qd_wsdeque_pop fuel d = Ok (None, d)
  | _ => exists d' q' v, q = q' ++ [v] /\ qd_wsdeque_pop fuel d = Ok (Some v, d') /\ deque_holds n d' q' /\ d_capacity d' = d_capacity d
  end.
Proof.
  intros (Hd & Hb & Hn) Hf. pose proof Hd as [S1 S2 S3 S4]. pose proof (shape_pos d S1). unfold logical in Hb, Hn.
  do 6 (destruct fuel as [|fuel]; [lia|]). unfold qd_wsdeque_pop. cbn [run_pop pop_step obind].
  destruct q as [|u q0].
  - simpl in Hb. destruct (Z.eqb_spec (d_bottom d) 0); [done|]. rewrite u64_small by (unfold_widths; lia).
    cbn [run_pop pop_step obind set_bottom d_top]. destruct (Z.leb_spec (d_top d) (d_bottom d - 1)); [lia|].
    cbn [run_pop pop_step obind]. rewrite u64_small by (unfold_widths; lia). unfold set_bottom; simpl.
    replace (d_bottom d - 1 + 1) with (d_bottom d) by lia. by destruct d, fuel.
  - destruct (exists_last (l := u :: q0)) as (q' & v & Eq); [done|]. rewrite Eq in *. clear Eq u q0.
    rewrite length_app in *. simpl in *. destruct (Z.eqb_spec (d_bottom d) 0); [lia|]. rewrite u64_small by (unfold_widths; lia).
    cbn [run_pop pop_step obind set_bottom d_top]. destruct (Z.leb_spec (d_top d) (d_bottom d - 1)); [|lia].
    assert (get_slot (set_bottom (d_bottom d - 1) d) (d_bottom d - 1) = Ok v) as Eg.
    { unfold get_slot. change (index (set_bottom _ d) ?p) with (index d p). cbn [set_bottom d_buffer]. rewrite index_slot by done.
      replace (d_bottom d - 1) with (d_top d + Z.of_nat (length q')) by lia.
      rewrite (S4 (length q') v) by (by apply list_lookup_middle). done. }
    cbn [run_pop pop_step]. rewrite Eg. cbn [obind].
    destruct (Z.eqb_spec (d_top d) (d_bottom d - 1)) as [E|].
    + cbn [run_pop pop_step obind set_bottom d_top]. rewrite E, Z.eqb_refl. cbn [obind run_pop pop_step].
      rewrite u64_small by (unfold_widths; lia).
      destruct q'; [|simpl in *; lia]. eexists _, [], v. split; [done|]. split; [by destruct fuel|]. split; [|done].
      split; [|unfold logical; simpl in *; split; lia]. split; simpl; [by destruct S1|lia|lia|done].
    + eexists _, q', v. split; [done|]. split; [by destruct fuel|]. split; [|done].
      split; [|unfold logical; simpl in *; split; lia]. split; simpl; [by destruct S1|lia|lia|].
      intros j t Hj. apply S4. by apply lookup_app_l_Some.
Qed.

Lemma deque_steal_holds n d q fuel :
  deque_holds n d q -> (4 <= fuel)%nat ->
  match q with
  | [] => qd_wsdeque_steal fuel d = Ok (None, d)
  | v :: q => exists d', qd_wsdeque_steal fuel d = Ok (Some v, d') /\ deque_holds n d' q /\ d_capacity d' = d_capacity d
  end.
Proof.
  intros (Hd & Hb & Hn) Hf. pose proof Hd as [S1 S2 S3 S4].
  do 4 (destruct fuel as [|fuel]; [lia|]). unfold qd_wsdeque_steal. cbn [run_steal steal_step obind].
  unfold logical in Hb, Hn. destruct q as [|v q]; simpl in Hb, Hn.
  - destruct (Z.leb_spec (d_bottom d) (d_top d)); [done|lia].
  - destruct (Z.leb_spec (d_bottom d) (d_top d)); [lia|]. cbn [run_steal steal_step obind].
    assert (get_slot d (d_top d) = Ok v) as ->.
    { unfold get_slot. rewrite index_slot by done. specialize (S4 0%nat v eq_refl). rewrite Z.add_0_r in S4. by rewrite S4. }
    cbn [run_steal steal_step obind]. rewrite Z.eqb_refl. cbn [obind].
    assert (inv (mkWorld d (OPop (QReturn None)) {[0%nat := SCas (d_top d) v]} (v :: q) []) (v :: q) []) as I0.
    { split; simpl; try done. intros i s Hs. apply lookup_singleton_Some in Hs as [_ <-]. simpl. split; [lia|done]. }
    destruct (steal_cas _ _ _ I0 ltac:(unfold logical; simpl; lia) 0%nat _ v (lookup_singleton_eq _ _) eq_refl) as (q' & Eq & I1).
    injection Eq as <-. eexists. split; [by destruct fuel|]. split; [|done]. split; [apply (inv_deque _ _ _ I1)|].
    destruct (inv_owner _ _ _ I1) as [Hb1 _]. split; [exact Hb1|]. unfold logical. simpl. rewrite u64_small by (unfold_widths; lia). lia.
Qed.

(** C23: The deque under every interleaving.  The owner makes any pushes and pops, any
    number of thieves steal, with their atomic steps interleaved in any order.  No step
    is undefined; the tasks that pops and steals return were pushed, and none of them is
    returned twice.  When no call is running, every task pushed has been returned or is
    in the deque. *)
Theorem wsdeque_exactly_once n d l :
  1 <= n <= 2 ^ 62 -> qd_wsdeque_init true n = Some d -> Z.of_nat (length l) < 2 ^ 62 ->
  exists w, run l (new_world d) = Ok w /\ taken w ⊆+ given w /\
    (at_rest w -> given w ≡ₚ taken w ++ contents (deque w) /\
       Z.of_nat (length (contents (deque w))) < d_capacity d).
Proof.
  intros Hn E Hl. destruct (deque_init_ok n d Hn E) as (Hd & Et & Eb & _ & _).
  destruct (deque_run_inv l (new_world d) [] []) as (w & q & h & Ew & Hw & Ec).
  { split; simpl; try done. unfold logical. rewrite Et, Eb. done. }
  { unfold logical. simpl. rewrite Et. unfold_widths. simpl. lia. }
  exists w. split; [done|]. split.
  { rewrite (inv_tasks _ _ _ Hw). by apply submseteq_inserts_r. }
  intros [Ho _]. pose proof (inv_owner _ _ _ Hw) as Hok.
  assert (d_bottom (deque w) = logical (deque w) q /\ h = []) as [Hb ->].
  { destruct (the_owner w) as [? []|[]]; try done; simpl in Hok; unfold push_ok in Hok; tauto. }
  rewrite (contents_ok _ q (inv_deque _ _ _ Hw) Hb). split; [apply Hw|]. cbn in Ec. rewrite <- Ec. apply (inv_deque _ _ _ Hw).
Qed.

Definition demo_deque : qd_wsdeque := default (mkDeque [] 0 0 0) (qd_wsdeque_init true 4).
Definition demo_run : list action :=
  [APush 7; AOwner; AOwner; AOwner; AOwner; APush 8; AOwner; AOwner; AOwner; AOwner] ++
  [ASteal 0; APop; AThief 0; AOwner; AThief 0; AOwner; AThief 0; AOwner; AOwner; AThief 0; AOwner; AOwner].

Lemma wsdeque_exactly_once_witness :
  exists w, run demo_run (new_world demo_deque) = Ok w /\ taken w = [8; 7] /\ [7; 8] ≡ₚ [8; 7] ++ contents (deque w).
Proof.
  destruct (wsdeque_exactly_once 4 demo_deque demo_run ltac:(lia) eq_refl ltac:(vm_compute; reflexivity)) as (w & E & _ & Hr).
  exists w. split; [exact E|]. vm_compute in E. injection E as <-. split; [reflexivity|].
  destruct Hr as [Hr _]; [|exact Hr]. split; [reflexivity|]. apply (bool_decide_unpack _). vm_compute. exact I.
Defined.
