(* ===== verification/ThreadPool.v ===== *)
(** * src/core/qd_threadpool.c: tasks, work queues, futures, workers and submission

    The pool on top of its lock-free rings ([MpmcRing]) and its work-stealing deques
    ([WsDeque]).  Threads are machines; a step is one access to a shared variable or one
    operation of a queue.  A ring or deque operation takes effect at one of its atomic
    steps, or fails as if the queue were full or empty because another thread is in the
    middle of an operation ([busy]); the priority lists are used under their lock.  A run is
    any interleaving of the workers, of threads that submit tasks and of threads that control
    the pool; task functions and callbacks are unknown code that may submit tasks itself.  The
    addresses the allocators return are arguments of the steps. *)

From S2P Require Import Prelude Common MpmcRing WsDeque.

(** ** Tasks *)

Definition QD_PRIORITY_LOW : Z := 0.
Definition QD_PRIORITY_NORMAL : Z := 1.
Definition QD_PRIORITY_HIGH : Z := 2.
Definition QD_PRIORITY_URGENT : Z := 3.
Definition QD_TASK_DETACHED : Z := 1.

(** [struct qd_task]; addresses and functions are numbers, 0 is NULL. *)
Record qd_task := mkTask {
  t_func : Z;
  t_arg : Z;
  t_on_complete : Z;
  t_complete_arg : Z;
  t_priority : Z;
  t_flags : Z;
  t_future : Z;
  t_next : Z
}.

Abbreviation heap := (gmap Z qd_task).

Definition with_next (n : Z) (t : qd_task) : qd_task :=
  mkTask (t_func t) (t_arg t) (t_on_complete t) (t_complete_arg t) (t_priority t) (t_flags t) (t_future t) n.

Definition read_task (h : heap) (t : Z) : outcome qd_task := of_option (h !! t).
Definition set_next (h : heap) (t n : Z) : outcome heap := let! x := read_task h t in Ok (<[t := with_next n x]> h).
Definition qd_task_free (h : heap) (t : Z) : outcome heap := let! _ := read_task h t in Ok (delete t h).

(** ** Work queues *)

(** [struct qd_work_queue]: the deque, a linked list per priority, the counter. *)
Record qd_work_queue := mkQueue {
  q_deque : qd_wsdeque;
  q_heads : list Z;
  q_tails : list Z;
  q_count : Z
}.

Definition work_queue_init (ok : bool) : option qd_work_queue :=
  match qd_wsdeque_init ok 1024 with
  | Some d => Some (mkQueue d (replicate 4 0) (replicate 4 0) 0)
  | None => None
  end.

Definition set_lists (hs ts : list Z) (n : Z) (q : qd_work_queue) : qd_work_queue := mkQueue (q_deque q) hs ts n.
Definition set_deque (d : qd_wsdeque) (n : Z) (q : qd_work_queue) : qd_work_queue := mkQueue d (q_heads q) (q_tails q) n.

(** An operation of the deque, with enough steps for a thread that runs alone. *)
Definition deque_fuel : nat := 6.

(** The list of a priority, under the lock. *)
Definition push_list (q : qd_work_queue) (h : heap) (task prio : Z) : outcome (qd_work_queue * heap) :=
  let! h := set_next h task 0 in
  let! tail := of_option (q_tails q !! Z.to_nat prio) in
  let! (heads, h) :=
    if negb (tail =? 0) then let! h := set_next h tail task in Ok (q_heads q, h)
    else Ok (<[Z.to_nat prio := task]> (q_heads q), h) in
  Ok (set_lists heads (<[Z.to_nat prio := task]> (q_tails q)) (i32 (q_count q + 1)) q, h).

(** [busy]: the deque refuses for the sake of a thief that is under way. *)
Definition work_queue_push (busy : bool) (q : qd_work_queue) (h : heap) (task : Z) (use_deque : bool)
  : outcome (Z * qd_work_queue * heap) :=
  let! t := read_task h task in
  if use_deque && (t_priority t =? QD_PRIORITY_NORMAL) then
    if busy then Ok (-1, q, h) else
    let! (result, d) := qd_wsdeque_push deque_fuel (q_deque q) task in
    Ok (result, set_deque d (if result =? 0 then i32 (q_count q + 1) else q_count q) q, h)
  else
    let! (q, h) := push_list q h task (t_priority t) in Ok (0, q, h).

(** The loop over the priorities, from [level - 1] down. *)
Fixpoint pop_lists (level : nat) (q : qd_work_queue) (h : heap) : outcome (option Z * qd_work_queue * heap) :=
  match level with
  | O => Ok (None, q, h)
  | S i =>
    let! task := of_option (q_heads q !! i) in
    if negb (task =? 0) then
      let! t := read_task h task in
      let heads := <[i := t_next t]> (q_heads q) in
      let tails := if t_next t =? 0 then <[i := 0]> (q_tails q) else q_tails q in
      let! h := set_next h task 0 in
      Ok (Some task, set_lists heads tails (i32 (q_count q - 1)) q, h)
    else pop_lists i q h
  end.

Definition work_queue_pop_priority (q : qd_work_queue) (h : heap) : outcome (option Z * qd_work_queue * heap) :=
  pop_lists 4 q h.

Definition work_queue_pop (busy : bool) (q : qd_work_queue) (h : heap) : outcome (option Z * qd_work_queue * heap) :=
  let! (task, q, h) := pop_lists 4 q h in
  match task with
  | Some t => Ok (Some t, q, h)
  | None =>
    if busy then Ok (None, q, h) else
    let! (task, d) := qd_wsdeque_pop deque_fuel (q_deque q) in
    Ok (task, set_deque d (match task with Some _ => i32 (q_count q - 1) | None => q_count q end) q, h)
  end.

Definition work_queue_steal (busy : bool) (q : qd_work_queue) : outcome (option Z * qd_work_queue) :=
  if busy then Ok (None, q) else
  let! (task, d) := qd_wsdeque_steal deque_fuel (q_deque q) in
  Ok (task, set_deque d (match task with Some _ => i32 (q_count q - 1) | None => q_count q end) q).

(** ** Futures *)

Inductive qd_future_state := QD_FUTURE_PENDING | QD_FUTURE_RUNNING | QD_FUTURE_COMPLETED | QD_FUTURE_CANCELLED | QD_FUTURE_ERROR.

#[global] Instance future_state_dec : EqDecision qd_future_state.
Proof. solve_decision. Defined.

Record qd_future := mkFuture { f_state : qd_future_state; f_result : Z; f_error : Z; f_refcount : Z }.

Definition with_state (s : qd_future_state) (f : qd_future) : qd_future := mkFuture s (f_result f) (f_error f) (f_refcount f).

Definition future_create : qd_future := mkFuture QD_FUTURE_PENDING 0 0 1.

(** The stores to a future by its address. *)
Definition set_state (s : qd_future_state) (f : Z) (fs : gmap Z qd_future) : outcome (gmap Z qd_future) :=
  match fs !! f with Some x => Ok (<[f := with_state s x]> fs) | None => Undef end.

Definition add_ref (n : Z) (f : Z) (fs : gmap Z qd_future) : outcome (gmap Z qd_future) :=
  match fs !! f with
  | Some x => Ok (<[f := mkFuture (f_state x) (f_result x) (f_error x) (i32 (f_refcount x + n))]> fs)
  | None => Undef
  end.

Definition qd_future_release (f : Z) (fs : gmap Z qd_future) : outcome (gmap Z qd_future) :=
  if f =? 0 then Ok fs else
  match fs !! f with
  | None => Undef
  | Some x =>
    let! fs := add_ref (-1) f fs in
    Ok (if f_refcount x =? 1 then delete f fs else fs)
  end.

Definition qd_future_is_done (f : option qd_future) : bool :=
  match f with
  | None => true
  | Some x => match f_state x with QD_FUTURE_PENDING | QD_FUTURE_RUNNING => false | _ => true end
  end.

Definition qd_future_cancel (f : Z) (fs : gmap Z qd_future) : outcome (Z * gmap Z qd_future) :=
  if f =? 0 then Ok (QD_ERR_INVAL, fs) else
  match fs !! f with
  | None => Undef
  | Some x =>
    if bool_decide (f_state x = QD_FUTURE_PENDING) then
      let! fs := set_state QD_FUTURE_CANCELLED f fs in Ok (QD_OK, fs)
    else Ok (QD_ERR_BUSY, fs)
  end.

Definition qd_future_get (f : option qd_future) : Z * Z :=
  match f with None => (0, QD_ERR_INVAL) | Some x => (f_result x, f_error x) end.

(** ** The pool *)

(** [struct qd_threadpool]; [wake_fd] is the counter of the event descriptor, a
    semaphore. *)
Record qd_threadpool := mkPool {
  queues : list qd_work_queue;
  global_queue : qd_work_queue;
  global_ring : qd_mpmc_ring;
  ext_rings : list qd_mpmc_ring;
  rr_index : Z;
  wake_fd : Z;
  running : bool;
  shutdown_mode : Z;
  paused : bool;
  active_workers : Z;
  pending_tasks : Z;
  enable_stealing : bool;
  total_submitted : Z;
  total_completed : Z;
  total_stolen : Z
}.

Definition num_workers (p : qd_threadpool) : nat := length (queues p).

Definition set_queues x p := mkPool x (global_queue p) (global_ring p) (ext_rings p) (rr_index p) (wake_fd p) (running p) (shutdown_mode p) (paused p) (active_workers p) (pending_tasks p) (enable_stealing p) (total_submitted p) (total_completed p) (total_stolen p).
Definition set_global_queue x p := mkPool (queues p) x (global_ring p) (ext_rings p) (rr_index p) (wake_fd p) (running p) (shutdown_mode p) (paused p) (active_workers p) (pending_tasks p) (enable_stealing p) (total_submitted p) (total_completed p) (total_stolen p).
Definition set_global_ring x p := mkPool (queues p) (global_queue p) x (ext_rings p) (rr_index p) (wake_fd p) (running p) (shutdown_mode p) (paused p) (active_workers p) (pending_tasks p) (enable_stealing p) (total_submitted p) (total_completed p) (total_stolen p).
Definition set_ext_rings x p := mkPool (queues p) (global_queue p) (global_ring p) x (rr_index p) (wake_fd p) (running p) (shutdown_mode p) (paused p) (active_workers p) (pending_tasks p) (enable_stealing p) (total_submitted p) (total_completed p) (total_stolen p).
Definition set_rr_index x p := mkPool (queues p) (global_queue p) (global_ring p) (ext_rings p) x (wake_fd p) (running p) (shutdown_mode p) (paused p) (active_workers p) (pending_tasks p) (enable_stealing p) (total_submitted p) (total_completed p) (total_stolen p).
Definition set_wake_fd x p := mkPool (queues p) (global_queue p) (global_ring p) (ext_rings p) (rr_index p) x (running p) (shutdown_mode p) (paused p) (active_workers p) (pending_tasks p) (enable_stealing p) (total_submitted p) (total_completed p) (total_stolen p).
Definition set_running x p := mkPool (queues p) (global_queue p) (global_ring p) (ext_rings p) (rr_index p) (wake_fd p) x (shutdown_mode p) (paused p) (active_workers p) (pending_tasks p) (enable_stealing p) (total_submitted p) (total_completed p) (total_stolen p).
Definition set_shutdown_mode x p := mkPool (queues p) (global_queue p) (global_ring p) (ext_rings p) (rr_index p) (wake_fd p) (running p) x (paused p) (active_workers p) (pending_tasks p) (enable_stealing p) (total_submitted p) (total_completed p) (total_stolen p).
Definition set_paused x p := mkPool (queues p) (global_queue p) (global_ring p) (ext_rings p) (rr_index p) (wake_fd p) (running p) (shutdown_mode p) x (active_workers p) (pending_tasks p) (enable_stealing p) (total_submitted p) (total_completed p) (total_stolen p).
Definition set_active x p := mkPool (queues p) (global_queue p) (global_ring p) (ext_rings p) (rr_index p) (wake_fd p) (running p) (shutdown_mode p) (paused p) x (pending_tasks p) (enable_stealing p) (total_submitted p) (total_completed p) (total_stolen p).
Definition set_pending x p := mkPool (queues p) (global_queue p) (global_ring p) (ext_rings p) (rr_index p) (wake_fd p) (running p) (shutdown_mode p) (paused p) (active_workers p) x (enable_stealing p) (total_submitted p) (total_completed p) (total_stolen p).
Definition set_totals s c t p := mkPool (queues p) (global_queue p) (global_ring p) (ext_rings p) (rr_index p) (wake_fd p) (running p) (shutdown_mode p) (paused p) (active_workers p) (pending_tasks p) (enable_stealing p) s c t.

(** qd_pool_wake: a write to the event descriptor. *)
Definition qd_pool_wake (count : Z) (p : qd_threadpool) : qd_threadpool :=
  if count =? 0 then p else set_wake_fd (wake_fd p + count) p.

Record qd_threadpool_config := mkPoolConfig { c_num_threads : Z; c_max_queue_size : Z; c_enable_stealing : bool }.

(** qd_threadpool_create_ex, when every allocation, the event descriptor and every
    thread can be had ([ok]); otherwise NULL.  [nproc] is what sysconf returns. *)
Definition qd_threadpool_create_ex (ok : bool) (nproc : Z) (config : qd_threadpool_config) : option qd_threadpool :=
  let num_threads :=
    if c_num_threads config <=? 0 then (if nproc <=? 0 then 4 else nproc) else c_num_threads config in
  let ring_capacity := if 0 <? c_max_queue_size config then c_max_queue_size config else 1024 in
  let global_capacity :=
    let g := ring_capacity *64 num_threads in if g <? ring_capacity then ring_capacity else g in
  match work_queue_init ok, qd_mpmc_ring_init ok ring_capacity, qd_mpmc_ring_init ok global_capacity with
  | Some q, Some r, Some g =>
    Some (mkPool (replicate (Z.to_nat num_threads) q) q g (replicate (Z.to_nat num_threads) r) 0 0 true 0 false 0 0
            (c_enable_stealing config) 0 0 0)
  | _, _, _ => None
  end.

Definition qd_threadpool_create (ok : bool) (nproc num_threads : Z) : option qd_threadpool :=
  qd_threadpool_create_ex ok nproc (mkPoolConfig num_threads 0 true).

(** What the threads share. *)
Record shared := mkShared { pool : qd_threadpool; tasks : heap; futures : gmap Z qd_future }.

Definition on_pool (f : qd_threadpool -> qd_threadpool) (s : shared) : shared := mkShared (f (pool s)) (tasks s) (futures s).
Definition set_tasks (h : heap) (s : shared) : shared := mkShared (pool s) h (futures s).
Definition set_futures (fs : gmap Z qd_future) (s : shared) : shared := mkShared (pool s) (tasks s) fs.

(** ** Queue operations on the shared state *)

Definition ring_fuel : nat := 5.

(** [busy]: a cell is held by a thread that is in the middle of a push or a pop. *)
Definition push_global_ring (busy : bool) (t : Z) (s : shared) : outcome (Z * shared) :=
  if busy then Ok (QD_ERR_BUSY, s) else
  let! (code, r) := qd_mpmc_ring_push ring_fuel (global_ring (pool s)) t in
  Ok (code, on_pool (set_global_ring r) s).
Definition pop_global_ring (busy : bool) (s : shared) : outcome (option Z * shared) :=
  if busy then Ok (None, s) else
  let! (_, t, r) := qd_mpmc_ring_pop ring_fuel (global_ring (pool s)) in
  Ok (t, on_pool (set_global_ring r) s).

Definition push_ext_ring (busy : bool) (i : nat) (t : Z) (s : shared) : outcome (Z * shared) :=
  if busy then Ok (QD_ERR_BUSY, s) else
  let! r := of_option (ext_rings (pool s) !! i) in
  let! (code, r) := qd_mpmc_ring_push ring_fuel r t in
  Ok (code, on_pool (set_ext_rings (<[i := r]> (ext_rings (pool s)))) s).
Definition pop_ext_ring (busy : bool) (i : nat) (s : shared) : outcome (option Z * shared) :=
  if busy then Ok (None, s) else
  let! r := of_option (ext_rings (pool s) !! i) in
  let! (_, t, r) := qd_mpmc_ring_pop ring_fuel r in
  Ok (t, on_pool (set_ext_rings (<[i := r]> (ext_rings (pool s)))) s).

Definition put_queue (i : nat) (q : qd_work_queue) (s : shared) : shared :=
  on_pool (set_queues (<[i := q]> (queues (pool s)))) s.

Definition push_queue (busy : bool) (i : nat) (t : Z) (use_deque : bool) (s : shared) : outcome (Z * shared) :=
  let! q := of_option (queues (pool s) !! i) in
  let! (code, q, h) := work_queue_push busy q (tasks s) t use_deque in
  Ok (code, set_tasks h (put_queue i q s)).
Definition pop_queue (busy : bool) (i : nat) (s : shared) : outcome (option Z * shared) :=
  let! q := of_option (queues (pool s) !! i) in
  let! (t, q, h) := work_queue_pop busy q (tasks s) in
  Ok (t, set_tasks h (put_queue i q s)).
Definition steal_queue (busy : bool) (i : nat) (s : shared) : outcome (option Z * shared) :=
  let! q := of_option (queues (pool s) !! i) in
  let! (t, q) := work_queue_steal busy q in
  Ok (t, put_queue i q s).

Definition push_global_queue (t : Z) (s : shared) : outcome (Z * shared) :=
  let! (code, q, h) := work_queue_push false (global_queue (pool s)) (tasks s) t false in
  Ok (code, set_tasks h (on_pool (set_global_queue q) s)).
Definition pop_global_queue (s : shared) : outcome (option Z * shared) :=
  let! (t, q, h) := work_queue_pop_priority (global_queue (pool s)) (tasks s) in
  Ok (t, set_tasks h (on_pool (set_global_queue q) s)).

(** ** Submission: qd_threadpool_submit_priority, _submit_callback, _submit_future *)

Inductive request :=
| RTask (func arg prio : Z)
| RCallback (func arg on_complete complete_arg : Z)
| RFuture (func arg : Z).

(** qd_threadpool_submit. *)
Definition RSubmit (func arg : Z) : request := RTask func arg QD_PRIORITY_NORMAL.

Definition request_func (r : request) : Z :=
  match r with RTask f _ _ | RCallback f _ _ _ | RFuture f _ => f end.

(** The task a request fills in; [f] is its future. *)
Definition request_task (r : request) (f : Z) : qd_task :=
  match r with
  | RTask func arg prio => mkTask func arg 0 0 prio QD_TASK_DETACHED 0 0
  | RCallback func arg cb carg => mkTask func arg cb carg QD_PRIORITY_NORMAL QD_TASK_DETACHED 0 0
  | RFuture func arg => mkTask func arg 0 0 QD_PRIORITY_NORMAL QD_TASK_DETACHED f 0
  end.

Definition request_priority (r : request) : Z :=
  match r with RTask _ _ prio => prio | _ => QD_PRIORITY_NORMAL end.

(** [f] is the future of the request, 0 when it has none; the result of
    qd_threadpool_submit_future is its address, 0 for NULL. *)
Inductive submit_pc :=
| SStart
| SNewFuture
| SAlloc (f : Z)
| SRef (f t : Z)
| SPending (f t : Z)
| SPush (f t : Z)
| SExt (f t : Z)
| SOverflow (f t : Z)
| SUndo (f t : Z)
| SFree (f t : Z)
| SRelease (f : Z) (n : nat)
| STotal (f t : Z)
| SWake (f : Z)
| SReturn (result : Z).

Definition is_future (r : request) : bool := match r with RFuture _ _ => true | _ => false end.
Definition failed (r : request) (code : Z) : submit_pc := SReturn (if is_future r then 0 else code).

(** What a step cannot know: the answer of the allocator (an address in use is no answer),
    and whether a queue refuses because of another thread. *)
Record luck := mkLuck { l_mem : option Z; l_busy : bool }.

Definition calm (m : option Z) : luck := mkLuck m false.

(** [tls_worker_id], when it is a worker id of this pool. *)
Definition own_worker (me : option nat) (p : qd_threadpool) : option nat :=
  match me with Some w => if (w <? num_workers p)%nat then Some w else None | None => None end.

(** One step; [me] is the [tls_worker_id] of the calling thread, None for -1. *)
Definition submit_step (me : option nat) (mem : luck) (r : request) (pc : submit_pc) (s : shared)
  : outcome (submit_pc * shared) :=
  let p := pool s in
  match pc with
  | SStart =>
    if request_func r =? 0 then Ok (failed r QD_ERR_INVAL, s) else
    if negb (running p) then Ok (failed r QD_ERR_BUSY, s) else
    Ok (if is_future r then SNewFuture else SAlloc 0, s)
  | SNewFuture =>
    match l_mem mem with
    | None => Ok (SReturn 0, s)
    | Some f =>
      if (f <=? 0) || bool_decide (is_Some (futures s !! f)) then Ok (pc, s)
      else Ok (SAlloc f, set_futures (<[f := future_create]> (futures s)) s)
    end
  | SAlloc f =>
    match l_mem mem with
    | None => Ok (if is_future r then SRelease f 1 else SReturn QD_ERR_NOMEM, s)
    | Some t =>
      if (t <=? 0) || bool_decide (is_Some (tasks s !! t)) then Ok (pc, s)
      else Ok (if is_future r then SRef f t else SPending f t, set_tasks (<[t := request_task r f]> (tasks s)) s)
    end
  | SRef f t => let! fs := add_ref 1 f (futures s) in Ok (SPending f t, set_futures fs s)
  | SPending f t => Ok (SPush f t, on_pool (set_pending (i32 (pending_tasks p + 1))) s)
  | SPush f t =>
    match own_worker me p with
    | Some w =>
      let! (code, s) := push_queue (l_busy mem) w t (request_priority r =? QD_PRIORITY_NORMAL) s in
      Ok (if code =? 0 then STotal f t else SUndo f t, s)
    | None =>
      if request_priority r =? QD_PRIORITY_NORMAL then
        let! (code, s) := push_global_ring (l_busy mem) t s in
        Ok (if code =? QD_OK then STotal f t else SExt f t, s)
      else
        let! (code, s) := push_global_queue t s in
        Ok (if code =? 0 then STotal f t else SUndo f t, s)
    end
  | SExt f t =>
    let idx := rr_index p in
    let s := on_pool (set_rr_index (u32 (idx + 1))) s in
    let! (code, s) := push_ext_ring (l_busy mem) (Z.to_nat (idx mod Z.of_nat (num_workers p))) t s in
    Ok (if code =? QD_OK then STotal f t else SOverflow f t, s)
  | SOverflow f t =>
    let! (code, s) := push_global_queue t s in
    Ok (if code =? 0 then STotal f t else SUndo f t, s)
  | SUndo f t => Ok (SFree f t, on_pool (set_pending (i32 (pending_tasks p - 1))) s)
  | SFree f t =>
    let! h := qd_task_free (tasks s) t in
    Ok (if is_future r then SRelease f 2 else SReturn QD_ERR_BUSY, set_tasks h s)
  | SRelease f n =>
    match n with
    | O => Ok (SReturn 0, s)
    | S n => let! fs := qd_future_release f (futures s) in Ok (SRelease f n, set_futures fs s)
    end
  | STotal f t => Ok (SWake f, on_pool (set_totals (u64 (total_submitted p + 1)) (total_completed p) (total_stolen p)) s)
  | SWake f => Ok (SReturn (if is_future r then f else QD_OK), on_pool (qd_pool_wake 1) s)
  | SReturn code => Ok (SReturn code, s)
  end.

(** ** Workers: worker_thread *)

(** In [WBody t callback call] the function of the task, or its completion callback,
    runs; [call] is the submission it is making. *)
Inductive worker_pc :=
| WTop
| WGraceful
| WPaused
| WSleepPaused
| WLocal
| WGlobalQueue
| WExt
| WRing
| WSteal (i : nat)
| WStealDeque (i : nat)
| WStolen (t : Z)
| WFound (t : Z)
| WStart (t : Z)
| WCall (t : Z)
| WBody (t : Z) (callback : bool) (call : option (request * submit_pc))
| WComplete (t : Z)
| WCallback (t : Z)
| WCount (t : Z)
| WDone (t : Z)
| WFree (t : Z)
| WInactive
| WIdle
| WIdleGraceful
| WSleep
| WExit.

Definition QD_SHUTDOWN_GRACEFUL : Z := 0.
Definition QD_SHUTDOWN_IMMEDIATE : Z := 1.

Definition victim (p : qd_threadpool) (w i : nat) : nat := ((w + i) mod num_workers p)%nat.

(** After an attempt to get a task. *)
Definition got (t : option Z) (found : Z -> worker_pc) (next : worker_pc) : worker_pc :=
  match t with Some t => found t | None => next end.

Definition worker_step (w : nat) (mem : luck) (pc : worker_pc) (s : shared) : outcome (worker_pc * shared) :=
  let p := pool s in
  match pc with
  | WTop =>
    Ok (if shutdown_mode p =? QD_SHUTDOWN_IMMEDIATE + 1 then WExit
        else if shutdown_mode p =? QD_SHUTDOWN_GRACEFUL + 1 then WGraceful
        else if shutdown_mode p =? 0 then WPaused else WLocal, s)
  | WGraceful => Ok (if pending_tasks p =? 0 then WExit else WLocal, s)
  | WPaused => Ok (if paused p then WSleepPaused else WLocal, s)
  | WSleepPaused => if 0 <? wake_fd p then Ok (WTop, on_pool (set_wake_fd (wake_fd p - 1)) s) else Ok (WSleepPaused, s)
  | WLocal => let! (t, s) := pop_queue (l_busy mem) w s in Ok (got t WFound WGlobalQueue, s)
  | WGlobalQueue => let! (t, s) := pop_global_queue s in Ok (got t WFound WExt, s)
  | WExt => let! (t, s) := pop_ext_ring (l_busy mem) w s in Ok (got t WFound WRing, s)
  | WRing =>
    let! (t, s) := pop_global_ring (l_busy mem) s in
    Ok (got t WFound (if enable_stealing p then WSteal 0 else WIdle), s)
  | WSteal i =>
    if (num_workers p <=? i)%nat then Ok (WIdle, s)
    else if Nat.eqb i w then Ok (WSteal (S i), s)
    else let! (t, s) := pop_ext_ring (l_busy mem) (victim p w i) s in Ok (got t WStolen (WStealDeque i), s)
  | WStealDeque i => let! (t, s) := steal_queue (l_busy mem) (victim p w i) s in Ok (got t WStolen (WSteal (S i)), s)
  | WStolen t => Ok (WFound t, on_pool (set_totals (total_submitted p) (total_completed p) (u64 (total_stolen p + 1))) s)
  | WFound t => Ok (WStart t, on_pool (set_active (i32 (active_workers p + 1))) s)
  | WStart t =>
    let! x := read_task (tasks s) t in
    if t_future x =? 0 then Ok (WCall t, s)
    else let! fs := set_state QD_FUTURE_RUNNING (t_future x) (futures s) in Ok (WCall t, set_futures fs s)
  | WCall t =>
    let! x := read_task (tasks s) t in Ok (if t_func x =? 0 then WComplete t else WBody t false None, s)
  | WBody t callback (Some (r, SReturn _)) => Ok (WBody t callback None, s)
  | WBody t callback (Some (r, pc)) =>
    let! (pc, s) := submit_step (Some w) mem r pc s in Ok (WBody t callback (Some (r, pc)), s)
  | WBody t callback None => Ok (if callback then WCount t else WComplete t, s)
  | WComplete t =>
    let! x := read_task (tasks s) t in
    if t_future x =? 0 then Ok (WCallback t, s)
    else let! fs := set_state QD_FUTURE_COMPLETED (t_future x) (futures s) in Ok (WCallback t, set_futures fs s)
  | WCallback t =>
    let! x := read_task (tasks s) t in Ok (if t_on_complete x =? 0 then WCount t else WBody t true None, s)
  | WCount t => Ok (WDone t, on_pool (set_totals (total_submitted p) (u64 (total_completed p + 1)) (total_stolen p)) s)
  | WDone t => Ok (WFree t, on_pool (set_pending (i32 (pending_tasks p - 1))) s)
  | WFree t =>
    let! x := read_task (tasks s) t in
    if Z.land (t_flags x) QD_TASK_DETACHED =? 0 then Ok (WInactive, s)
    else let! h := qd_task_free (tasks s) t in Ok (WInactive, set_tasks h s)
  | WInactive => Ok (WTop, on_pool (set_active (i32 (active_workers p - 1))) s)
  | WIdle =>
    Ok (if shutdown_mode p =? QD_SHUTDOWN_IMMEDIATE + 1 then WExit
        else if shutdown_mode p =? QD_SHUTDOWN_GRACEFUL + 1 then WIdleGraceful else WSleep, s)
  | WIdleGraceful => Ok (if pending_tasks p =? 0 then WExit else WSleep, s)
  | WSleep => if 0 <? wake_fd p then Ok (WTop, on_pool (set_wake_fd (wake_fd p - 1)) s) else Ok (WSleep, s)
  | WExit => Ok (WExit, s)
  end.

(** ** Control: qd_threadpool_shutdown, _pause, _resume and _wait *)

Inductive control_pc :=
| CShutdown (mode : Z)
| CStop
| CPause (on : bool)
| CWakeAll
| CWait (timeout start : Z)
| CReturn (code : Z).

(** [now] is what the clock shows. *)
Definition control_step (now : Z) (pc : control_pc) (s : shared) : outcome (control_pc * shared) :=
  match pc with
  | CShutdown mode => Ok (CStop, on_pool (set_shutdown_mode (mode + 1)) s)
  | CStop => Ok (CWakeAll, on_pool (set_running false) s)
  | CPause on => Ok (CWakeAll, on_pool (set_paused on) s)
  | CWakeAll => Ok (CReturn QD_OK, on_pool (qd_pool_wake (Z.of_nat (num_workers (pool s)))) s)
  | CWait timeout start =>
    if 0 <? pending_tasks (pool s) then
      Ok (if (0 <=? timeout) && (timeout <=? (now -64 start)) then CReturn QD_ERR_TIMEOUT else CWait timeout start, s)
    else Ok (CReturn QD_OK, s)
  | CReturn code => Ok (CReturn code, s)
  end.

(** ** The interleaving of all threads

    [accepted] logs the tasks that were put into a queue, [executed] those whose
    function was called. *)

Record world := mkWorld {
  sh : shared;
  workers : list worker_pc;
  clients : gmap nat (request * submit_pc);
  controls : gmap nat control_pc;
  accepted : list Z;
  executed : list Z
}.

(** A client is no worker of this pool: its [tls_worker_id] is -1, or the id of a worker of
    a larger pool that this one does not have.  Only a future that exists is cancelled:
    whoever does it holds a reference. *)
Inductive action :=
| ASubmit (i : nat) (r : request)
| AClient (i : nat) (me : option nat) (mem : luck)
| ANested (w : nat) (r : request)
| AWorker (w : nat) (mem : luck)
| ACommand (i : nat) (c : control_pc)
| AControl (i : nat) (now : Z)
| ACancel (f : Z).

(** The task a submission step has put into a queue. *)
Definition enqueued (pc pc' : submit_pc) : list Z :=
  match pc, pc' with STotal _ _, _ => [] | _, STotal _ t => [t] | _, _ => [] end.

Definition worker_enqueued (pc pc' : worker_pc) : list Z :=
  match pc, pc' with WBody _ _ (Some (_, c)), WBody _ _ (Some (_, c')) => enqueued c c' | _, _ => [] end.

Definition called (pc : worker_pc) : list Z := match pc with WCall t => [t] | _ => [] end.

Definition client_idle (c : option (request * submit_pc)) : bool :=
  match c with None | Some (_, SReturn _) => true | _ => false end.
Definition control_idle (c : option control_pc) : bool :=
  match c with None | Some (CReturn _) => true | _ => false end.

(** The calls that start a control function; a time stamp is taken by qd_threadpool_wait. *)
Definition is_command (c : control_pc) : bool :=
  match c with CShutdown m => (m =? 0) || (m =? 1) | CPause _ | CWait _ _ => true | _ => false end.

(** The priorities of the enumeration. *)
Definition request_ok (r : request) : bool :=
  (0 <=? request_priority r) && (request_priority r <? 4).

Definition outsider (me : option nat) (p : qd_threadpool) : bool := bool_decide (own_worker me p = None).

Definition step (a : action) (w : world) : outcome world :=
  match a with
  | ASubmit i r =>
    Ok (if client_idle (clients w !! i) && request_ok r
        then mkWorld (sh w) (workers w) (<[i := (r, SStart)]> (clients w)) (controls w) (accepted w) (executed w) else w)
  | AClient i me mem =>
    match clients w !! i with
    | None => Ok w
    | Some (r, pc) =>
      if negb (outsider me (pool (sh w))) then Ok w else
      let! (pc', s) := submit_step me mem r pc (sh w) in
      Ok (mkWorld s (workers w) (<[i := (r, pc')]> (clients w)) (controls w) (accepted w ++ enqueued pc pc') (executed w))
    end
  | ANested k r =>
    Ok match workers w !! k with
       | Some (WBody t callback None) =>
         if request_ok r then
           mkWorld (sh w) (<[k := WBody t callback (Some (r, SStart))]> (workers w)) (clients w) (controls w) (accepted w) (executed w)
         else w
       | _ => w
       end
  | AWorker k mem =>
    match workers w !! k with
    | None => Ok w
    | Some pc =>
      let! (pc', s) := worker_step k mem pc (sh w) in
      Ok (mkWorld s (<[k := pc']> (workers w)) (clients w) (controls w) (accepted w ++ worker_enqueued pc pc')
            (executed w ++ called pc))
    end
  | ACommand i c =>
    Ok (if control_idle (controls w !! i) && is_command c
        then mkWorld (sh w) (workers w) (clients w) (<[i := c]> (controls w)) (accepted w) (executed w) else w)
  | AControl i now =>
    match controls w !! i with
    | None => Ok w
    | Some c =>
      let! (c', s) := control_step now c (sh w) in
      Ok (mkWorld s (workers w) (clients w) (<[i := c']> (controls w)) (accepted w) (executed w))
    end
  | ACancel f =>
    match futures (sh w) !! f with
    | None => Ok w
    | Some _ =>
      let! (_, fs) := qd_future_cancel f (futures (sh w)) in
      Ok (mkWorld (set_futures fs (sh w)) (workers w) (clients w) (controls w) (accepted w) (executed w))
    end
  end.

Fixpoint run (l : list action) (w : world) : outcome world :=
  match l with
  | [] => Ok w
  | a :: l => let! w := step a w in run l w
  end.

Definition new_world (p : qd_threadpool) : world :=
  mkWorld (mkShared p ∅ ∅) (replicate (num_workers p) WTop) ∅ ∅ [] [].

(** ** Examples and hazards *)

Definition demo_pool (n max : Z) : qd_threadpool :=
  default (mkPool [] (mkQueue (mkDeque [] 0 0 0) [] [] 0) (mkMpmc [] 0 0 0 0) [] 0 0 false 0 false 0 0 false 0 0 0)
    (qd_threadpool_create_ex true 4 (mkPoolConfig n max true)).

Definition steps {A} (n : nat) (a : A) : list A := replicate n a.
Definition finish (m : outcome world) : option world := match m with Ok w => Some w | _ => None end.

(** A task is submitted by a client and run by the worker, which submits a second one
    from its function. *)
Example pool_ex :
  (let! w := run (ASubmit 0 (RSubmit 100 5) :: steps 8 (AClient 0 None (calm (Some 16))) ++ steps 9 (AWorker 0 (calm None)) ++
                  [ANested 0 (RTask 101 6 QD_PRIORITY_HIGH)] ++ steps 9 (AWorker 0 (calm (Some 32))) ++ steps 60 (AWorker 0 (calm None)))
     (new_world (demo_pool 1 4)) in
   Ok (accepted w, executed w, workers w, pending_tasks (pool (sh w)), total_completed (pool (sh w)), wake_fd (pool (sh w))))
  = Ok ([16; 32], [16; 32], [WSleep], 0, 2, 0).
Proof. vm_compute. reflexivity. Qed.

(** A worker that runs a task, and one that has gone to sleep. *)
Definition busy_pool : list action :=
  steps 12 (AWorker 1 (calm None)) ++ ASubmit 0 (RSubmit 100 5) :: steps 8 (AClient 0 None (calm (Some 16))) ++ steps 9 (AWorker 0 (calm None)).

(** Graceful shutdown may never end: the sleeping worker uses up both wake-ups while the
    other one still runs the last task, and then sleeps for ever. *)
Theorem graceful_shutdown_hangs :
  exists w, run (busy_pool ++ ACommand 0 (CShutdown QD_SHUTDOWN_GRACEFUL) :: steps 4 (AControl 0 0) ++
                 steps 40 (AWorker 1 (calm None)) ++ steps 20 (AWorker 0 (calm None))) (new_world (demo_pool 2 4)) = Ok w /\
    pending_tasks (pool (sh w)) = 0 /\ workers w = [WExit; WSleep] /\
    forall l, Forall (fun a => exists k mem, a = AWorker k mem /\ (k < 2)%nat) l -> run l w = Ok w.
Proof.
  eexists. split; [vm_compute; reflexivity|]. split; [reflexivity|]. split; [reflexivity|].
  intros l Hl. induction Hl as [|a l (k & mem & -> & Hk) Hl IH]; [reflexivity|]. cbn [run].
  match goal with |- obind (step ?a ?w) _ = _ => assert (step a w = Ok w) as ->; [|exact IH] end.
  destruct k as [|[|k]]; [vm_compute; reflexivity|vm_compute; reflexivity|lia].
Qed.

(** Worker 1 of 2 never steals: for [i = 0] it looks at its own queue, and [i = 1] is
    skipped.  A task in the deque of the other worker, which is busy, waits while worker 1
    sleeps. *)
Theorem stealing_skips_victim :
  exists w q t, run (busy_pool ++ [ANested 0 (RSubmit 101 6)] ++ steps 7 (AWorker 0 (calm (Some 32))) ++ steps 40 (AWorker 1 (calm None)))
      (new_world (demo_pool 2 4)) = Ok w /\
    workers w = [WBody 16 false None; WSleep] /\ wake_fd (pool (sh w)) = 0 /\
    queues (pool (sh w)) !! 0%nat = Some q /\ WsDeque.contents (q_deque q) = [t] /\ t ∉ executed w.
Proof.
  eexists _, _, 32. split; [vm_compute; reflexivity|]. split; [reflexivity|]. split; [reflexivity|].
  split; [reflexivity|]. split; [vm_compute; reflexivity|]. vm_compute executed. by intros ?%list_elem_of_singleton.
Qed.

(** A future whose cancellation succeeded is run and completed all the same; and its
    counter of references does not come back to 1 after the task is gone. *)
Theorem cancelled_future_runs :
  exists w1 w2, run (ASubmit 0 (RFuture 100 5) :: steps 2 (AClient 0 None (calm (Some 64))) ++ steps 8 (AClient 0 None (calm (Some 16))) ++ [ACancel 64])
      (new_world (demo_pool 1 4)) = Ok w1 /\
    futures (sh w1) !! 64 = Some (mkFuture QD_FUTURE_CANCELLED 0 0 2) /\
    run (steps 60 (AWorker 0 (calm None))) w1 = Ok w2 /\ executed w2 = [16] /\ tasks (sh w2) = ∅ /\
    futures (sh w2) !! 64 = Some (mkFuture QD_FUTURE_COMPLETED 0 0 2).
Proof.
  do 2 eexists. split; [vm_compute; reflexivity|]. split; [vm_compute; reflexivity|]. split; [vm_compute; reflexivity|].
  split; [reflexivity|]. split; [reflexivity|]. vm_compute. reflexivity.
Qed.

(** A thread of another pool that submits has the id of a worker of this one: it pushes to
    the deque of that worker.  Two pushes at the same time both succeed and one task is
    gone. *)
Theorem two_pushers_lose_task :
  exists d0 d1 d2 d3 d4, qd_wsdeque_init true 1024 = Some d0 /\
    (let! (pc, d) := WsDeque.push_step 16 PBottom d0 in WsDeque.push_step 16 pc d) = Ok (PStore 0, d1) /\
    qd_wsdeque_push deque_fuel d1 32 = Ok (0, d2) /\
    WsDeque.push_step 16 (PStore 0) d2 = Ok (PPublish 0, d3) /\ WsDeque.push_step 16 (PPublish 0) d3 = Ok (PReturn 0, d4) /\
    WsDeque.contents d2 = [32] /\ WsDeque.contents d4 = [16].
Proof. do 5 eexists. repeat (split; [vm_compute; reflexivity|]). vm_compute. reflexivity. Qed.
