(* ===== verification/PoolQueues.v ===== *)
(** * The queues of the thread pool, as one store of tasks

    What the pool's code relies on when it puts a task into one of its queues (rings,
    deques, priority lists) or takes one out: the classes [Puts] and [Takes], with an
    instance for every queue operation of [ThreadPool]. *)

From S2P Require Import Prelude Common MpmcRing WsDeque ThreadPool.

(** ** Linked lists of tasks *)

Fixpoint linked (h : heap) (p : Z) (l : list Z) : Prop :=
  match l with
  | [] => p = 0
  | t :: l => p = t /\ t <> 0 /\ exists x, h !! t = Some x /\ linked h (t_next x) l
  end.

Lemma linked_frame h h' l : forall p,
  (forall t, t ∈ l -> h' !! t = h !! t) -> linked h p l -> linked h' p l.
Proof.
  induction l as [|t l IH]; intros p Hf; simpl; [done|]. intros (-> & H0 & x & Hx & Hl). split; [done|]. split; [done|].
  exists x. split; [rewrite Hf by left; done|]. apply IH; [|done]. intros u Hu. apply Hf. by right.
Qed.

Lemma linked_dom h l : forall p t, linked h p l -> t ∈ l -> t <> 0 /\ is_Some (h !! t).
Proof.
  induction l as [|u l IH]; intros p t Hl Ht; [by apply not_elem_of_nil in Ht|].
  destruct Hl as (-> & H0 & x & Hx & Hl). apply elem_of_cons in Ht as [->|Ht]; [|by eapply IH]. split; [done|by exists x].
Qed.

Lemma linked_snoc h l e t x y : forall p,
  linked h p (l ++ [e]) -> e ∉ l -> t ∉ l -> t <> e -> t <> 0 ->
  h !! t = Some x -> t_next x = 0 -> h !! e = Some y ->
  linked (<[e := with_next t y]> h) p (l ++ [e; t]).
Proof.
  induction l as [|u l IH]; intros p Hl He Ht Hne H0 Hx Hn Hy; simpl in *.
  - destruct Hl as (-> & He0 & x' & Hx' & _). split; [done|]. split; [done|]. exists (with_next t y).
    rewrite lookup_insert_eq. split; [done|]. split; [done|]. split; [done|]. exists x. by rewrite lookup_insert_ne.
  - destruct Hl as (-> & Hu0 & x' & Hx' & Hl). rewrite not_elem_of_cons in He, Ht. split; [done|]. split; [done|].
    exists x'. rewrite lookup_insert_ne by (by intros ->; tauto). split; [done|]. apply IH; tauto.
Qed.

Definition list_at (h : heap) (p e : Z) (l : list Z) : Prop := linked h p l /\ e = default 0 (last l).

(** ** Work queues *)

(** [queue_holds n q h D P]: the deque holds [D], the list of priority [i] holds [P i]. *)
Record queue_holds (n : nat) (q : qd_work_queue) (h : heap) (D : list Z) (P : nat -> list Z) : Prop := {
  qh_deque : deque_holds n (q_deque q) D;
  qh_heads : length (q_heads q) = 4%nat;
  qh_tails : length (q_tails q) = 4%nat;
  qh_lists : forall i p e, q_heads q !! i = Some p -> q_tails q !! i = Some e -> list_at h p e (P i);
  qh_none : forall i, (4 <= i)%nat -> P i = []
}.

Definition fupd {A B} `{EqDecision A} (f : A -> B) (a : A) (b : B) : A -> B := fun x => if decide (x = a) then b else f x.

Lemma fupd_same {A B} `{EqDecision A} (f : A -> B) a b : fupd f a b a = b.
Proof. unfold fupd. by rewrite decide_True. Qed.
Lemma fupd_other {A B} `{EqDecision A} (f : A -> B) a b x : x <> a -> fupd f a b x = f x.
Proof. intros. unfold fupd. by rewrite decide_False. Qed.

Ltac fupd_cases x a := destruct (decide (x = a)) as [->|]; [rewrite ?fupd_same in * | rewrite ?fupd_other in * by done].

Lemma deque_holds_mono n d q : deque_holds (S n) d q -> deque_holds n d q.
Proof. intros (? & ? & ?). split; [done|]. split; [done|lia]. Qed.
Lemma ring_holds_mono n r q : ring_holds (S n) r q -> ring_holds n r q.
Proof. intros (log & ? & ? & ?). exists log. split; [done|]. split; [done|lia]. Qed.
Lemma queue_holds_mono n q h D P : queue_holds (S n) q h D P -> queue_holds n q h D P.
Proof. intros [H1 H2 H3 H4 H5]. split; try done. by apply deque_holds_mono. Qed.

Lemma queue_holds_frame n q h h' D P :
  (forall i t, t ∈ P i -> h' !! t = h !! t) -> queue_holds n q h D P -> queue_holds n q h' D P.
Proof.
  intros Hf [H1 H2 H3 H4 H5]. split; try done. intros i p e Hp He. destruct (H4 i p e Hp He) as [Hl ->]. split; [|done].
  eapply linked_frame; [|done]. intros t Ht. by eapply Hf.
Qed.

Definition same_tasks (h h' : heap) : Prop :=
  forall t, match h !! t, h' !! t with
            | Some x, Some y => y = with_next (t_next y) x
            | None, None => True
            | _, _ => False
            end.

Lemma same_tasks_refl h : same_tasks h h.
Proof. intros t. destruct (h !! t) as [[]|]; done. Qed.

Lemma same_tasks_trans h1 h2 h3 : same_tasks h1 h2 -> same_tasks h2 h3 -> same_tasks h1 h3.
Proof.
  intros H1 H2 t. specialize (H1 t). specialize (H2 t). destruct (h1 !! t), (h2 !! t), (h3 !! t); try done. rewrite H2, H1. done.
Qed.

Lemma set_next_same h t x n : h !! t = Some x -> same_tasks h (<[t := with_next n x]> h).
Proof.
  intros Hx u. destruct (decide (u = t)) as [->|]; [by rewrite lookup_insert_eq, Hx|].
  rewrite lookup_insert_ne by done. apply same_tasks_refl.
Qed.

Lemma same_tasks_some h h' t x : same_tasks h h' -> h !! t = Some x -> exists n, h' !! t = Some (with_next n x).
Proof. intros H Hx. specialize (H t). rewrite Hx in H. destruct (h' !! t) as [y|]; [|done]. exists (t_next y). by f_equal. Qed.

Lemma set_next_eq h t x n : h !! t = Some x -> set_next h t n = Ok (<[t := with_next n x]> h).
Proof. intros Hx. unfold set_next, read_task. by rewrite Hx. Qed.

(** A task at the end of a list. *)
Lemma push_list_ok n q h D P task x prio :
  queue_holds n q h D P -> h !! task = Some x -> task <> 0 -> 0 <= prio < 4 ->
  (forall i, task ∉ P i) -> (forall i, NoDup (P i)) -> (forall i j t, t ∈ P i -> t ∈ P j -> i = j) ->
  exists q' h', push_list q h task prio = Ok (q', h') /\
    queue_holds n q' h' D (fupd P (Z.to_nat prio) (P (Z.to_nat prio) ++ [task])) /\ q_deque q' = q_deque q /\
    same_tasks h h' /\ (forall t, t <> task -> (forall i, t ∉ P i) -> h' !! t = h !! t).
Proof.
  intros [H1 H2 H3 H4 H5] Hx H0 Hp Hnew Hnd Hdj. unfold push_list. rewrite (set_next_eq _ _ _ _ Hx). cbn [obind].
  set (k := Z.to_nat prio) in *. set (h1 := <[task := with_next 0 x]> h) in *.
  destruct (lookup_lt_is_Some_2 (q_heads q) k ltac:(lia)) as [p Hh].
  destruct (lookup_lt_is_Some_2 (q_tails q) k ltac:(lia)) as [e He]. rewrite He. cbn [of_option obind].
  pose proof (H4 k p e Hh He) as [Hl Ee].
  assert (h1 !! task = Some (with_next 0 x)) as Ht1 by apply lookup_insert_eq.
  assert (forall i p e, i <> k -> q_heads q !! i = Some p -> q_tails q !! i = Some e -> list_at h1 p e (P i)) as Ho.
  { intros i p' e' _ Hp' He'. destruct (H4 i p' e' Hp' He') as [Hl' ->]. split; [|done]. eapply linked_frame; [|done].
    intros t Ht. apply lookup_insert_ne. intros ->. by eapply Hnew. }
  destruct (last (P k)) as [e0|] eqn:El; simpl in Ee; subst e.
  - apply last_Some in El as [l0 El]. rewrite El in Hl.
    destruct (linked_dom _ _ _ e0 Hl ltac:(apply elem_of_app; right; by left)) as [He0 [y Hy]].
    assert (task <> e0) as Hne by (intros ->; apply (Hnew k); rewrite El; apply elem_of_app; right; by left).
    assert (h1 !! e0 = Some y) as Hy1 by (by unfold h1; rewrite lookup_insert_ne).
    destruct (Z.eqb_spec e0 0); [done|]. cbn [negb]. rewrite (set_next_eq _ _ _ _ Hy1). cbn [obind].
    pose proof (Hnd k) as Hndk. rewrite El in Hndk. apply NoDup_app in Hndk as (_ & Hd0 & _).
    eexists _, _. split; [done|]. split; [|split; [done|split]].
    + split; simpl; try done; [by rewrite length_insert| |].
      * intros i p' e' Hp' He'. fupd_cases i k.
        -- rewrite list_lookup_insert_eq in He' by lia. injection He' as <-. rewrite Hh in Hp'. injection Hp' as <-.
           split; [|by rewrite last_snoc]. rewrite El, <- app_assoc. simpl. apply (linked_snoc h1 l0 e0 task (with_next 0 x) y); try done.
           ++ eapply linked_frame; [|exact Hl]. intros t Ht. apply lookup_insert_ne. intros ->. apply (Hnew k). by rewrite El.
           ++ intros Hi. by apply (Hd0 e0 Hi), list_elem_of_singleton.
           ++ intros Hi. apply (Hnew k). rewrite El. apply elem_of_app. by left.
        -- rewrite list_lookup_insert_ne in He' by done. destruct (Ho i p' e' ltac:(done) Hp' He') as [Hl' ->]. split; [|done].
           eapply linked_frame; [|done]. intros t Ht. apply lookup_insert_ne. intros <-.
           apply n1. apply (Hdj _ _ e0); [done|]. rewrite El. apply elem_of_app. right. by left.
      * intros i Hi. rewrite fupd_other by lia. by apply H5.
    + eapply same_tasks_trans; [by eapply (set_next_same h task x 0)|]. by apply set_next_same.
    + intros t Htt Hti. rewrite lookup_insert_ne; [by apply lookup_insert_ne|]. intros <-. apply (Hti k). rewrite El. apply elem_of_app. right. by left.
  - apply last_None in El. rewrite El in Hl. simpl in Hl. subst p. cbn [Z.eqb negb obind].
    eexists _, _. split; [done|]. split; [|split; [done|split]].
    + split; simpl; try done; [by rewrite length_insert|by rewrite length_insert| |].
      * intros i p' e' Hp' He'. fupd_cases i k.
        -- rewrite list_lookup_insert_eq in Hp' by lia. rewrite list_lookup_insert_eq in He' by lia. injection Hp' as <-. injection He' as <-.
           rewrite El. simpl. split; [|done]. simpl. split; [done|]. split; [done|]. exists (with_next 0 x). done.
        -- rewrite list_lookup_insert_ne in Hp' by done. rewrite list_lookup_insert_ne in He' by done. by apply Ho.
      * intros i Hi. rewrite fupd_other by lia. by apply H5.
    + by apply set_next_same.
    + intros t Htt Hti. by apply lookup_insert_ne.
Qed.

(** The head of one list is taken out. *)
Lemma take_head_ok n q h D P i task e x l :
  queue_holds n q h D P -> P i = task :: l -> NoDup (P i) -> (forall j t, t ∈ P i -> t ∈ P j -> i = j) ->
  q_tails q !! i = Some e -> h !! task = Some x -> linked h (t_next x) l -> (i < 4)%nat ->
  queue_holds n (set_lists (<[i := t_next x]> (q_heads q))
                   (if t_next x =? 0 then <[i := 0]> (q_tails q) else q_tails q) (i32 (q_count q - 1)) q)
    (<[task := with_next 0 x]> h) D (fupd P i l).
Proof.
  intros [H1 H2 H3 H4 H5] El Hnd Hdj He Hx Hl Hi. rewrite El in Hnd. apply NoDup_cons in Hnd as [Hni _].
  destruct (lookup_lt_is_Some_2 (q_heads q) i ltac:(lia)) as [p Hp]. destruct (H4 i p e Hp He) as [_ Ee].
  split; simpl; [done|by rewrite length_insert|by destruct (_ =? 0); rewrite ?length_insert| |].
  - intros j p' e' Hp' He'. fupd_cases j i.
    + rewrite list_lookup_insert_eq in Hp' by lia. injection Hp' as <-. split.
      * eapply linked_frame; [|done]. intros t Ht. apply lookup_insert_ne. by intros ->.
      * destruct l as [|u l]; simpl in Hl.
        -- rewrite Hl in He'. simpl in He'. rewrite list_lookup_insert_eq in He' by lia. by injection He' as <-.
        -- destruct Hl as (Eu & Hu & _). destruct (Z.eqb_spec (t_next x) 0); [congruence|]. rewrite He in He'. injection He' as <-.
           rewrite Ee, El. by rewrite last_cons_cons.
    + rewrite list_lookup_insert_ne in Hp' by done.
      assert (q_tails q !! j = Some e') as Hej by (destruct (t_next x =? 0); [by rewrite list_lookup_insert_ne in He'|done]).
      destruct (H4 j p' e' Hp' Hej) as [Hlj ->]. split; [|done]. eapply linked_frame; [|done].
      intros t Ht. apply lookup_insert_ne. intros <-. apply n0. symmetry. apply (Hdj _ task); [rewrite El; by left|done].
  - intros j Hj. rewrite fupd_other by lia. by apply H5.
Qed.

Lemma pop_lists_ok n q h D P lv :
  queue_holds n q h D P -> (forall i, NoDup (P i)) -> (forall i j t, t ∈ P i -> t ∈ P j -> i = j) -> (lv <= 4)%nat ->
  exists r q' h', pop_lists lv q h = Ok (r, q', h') /\ q_deque q' = q_deque q /\ same_tasks h h' /\
    match r with
    | Some t => exists i l, P i = t :: l /\ queue_holds n q' h' D (fupd P i l) /\ (forall u, u <> t -> h' !! u = h !! u)
    | None => q' = q /\ h' = h /\ forall i, (i < lv)%nat -> P i = []
    end.
Proof.
  intros HQ Hnd Hdj. induction lv as [|i IH]; intros Hlv; simpl.
  { eexists None, _, _. split; [done|]. split; [done|]. split; [apply same_tasks_refl|]. split; [done|]. split; [done|]. lia. }
  pose proof HQ as [H1 H2 H3 H4 H5].
  destruct (lookup_lt_is_Some_2 (q_heads q) i ltac:(lia)) as [p Hp]. destruct (lookup_lt_is_Some_2 (q_tails q) i ltac:(lia)) as [e He].
  rewrite Hp. cbn [of_option obind]. destruct (H4 i p e Hp He) as [Hl Ee].
  destruct (P i) as [|t l] eqn:El.
  - simpl in Hl. subst p. cbn [Z.eqb negb]. destruct (IH ltac:(lia)) as (r & q' & h' & E & Ed & Es & Hr).
    exists r, q', h'. split; [done|]. split; [done|]. split; [done|]. destruct r as [t|]; [done|].
    destruct Hr as (-> & -> & Hr). split; [done|]. split; [done|]. intros j Hj. destruct (decide (j = i)) as [->|]; [done|]. apply Hr. lia.
  - destruct Hl as (-> & H0 & x & Hx & Hl). destruct (Z.eqb_spec t 0); [done|]. cbn [negb].
    unfold read_task. rewrite Hx. cbn [of_option obind]. rewrite (set_next_eq _ _ _ _ Hx). cbn [obind].
    eexists (Some t), _, _. split; [done|]. split; [done|]. split; [by apply set_next_same|]. exists i, l. split; [done|].
    split; [|intros u Hu; by apply lookup_insert_ne].
    eapply take_head_ok; try done. by intros j u Hu1 Hu2; eapply Hdj.
Qed.

(** ** The store: all queues of the pool *)

Inductive site := AtRing | AtExt (i : nat) | AtDeque (i : nat) | AtList (i level : nat) | AtGlobal (level : nat).

#[global] Instance site_dec : EqDecision site.
Proof. solve_decision. Defined.

Definition has_worker (i : nat) (s : shared) : Prop := (i < num_workers (pool s))%nat.

(** The queues the pool has. *)
Definition in_range (s : shared) (y : site) : Prop :=
  match y with AtExt i | AtDeque i | AtList i _ => has_worker i s | _ => True end.

(** [C x] are the tasks at [x]; the next [n] operations are within the range of every
    position. *)
Record store (n : nat) (s : shared) (C : site -> list Z) : Prop := {
  st_len : length (ext_rings (pool s)) = num_workers (pool s);
  st_ring : ring_holds n (global_ring (pool s)) (C AtRing);
  st_ext : forall i r, ext_rings (pool s) !! i = Some r -> ring_holds n r (C (AtExt i));
  st_queue : forall i q, queues (pool s) !! i = Some q -> queue_holds n q (tasks s) (C (AtDeque i)) (fun l => C (AtList i l));
  st_global : queue_holds n (global_queue (pool s)) (tasks s) [] (fun l => C (AtGlobal l));
  st_nodup : forall x, NoDup (C x);
  st_apart : forall x y t, t ∈ C x -> t ∈ C y -> x = y;
  st_live : forall x t, t ∈ C x -> is_Some (tasks s !! t);
  st_range : forall x t, t ∈ C x -> in_range s x
}.

(** What no queue operation changes. *)
Record rest_same (s s' : shared) : Prop := {
  rs_pending : pending_tasks (pool s') = pending_tasks (pool s);
  rs_workers : num_workers (pool s') = num_workers (pool s);
  rs_futures : futures s' = futures s;
  rs_tasks : same_tasks (tasks s) (tasks s')
}.

Definition added (C C' : site -> list Z) (y : site) (t : Z) : Prop :=
  forall z u, u ∈ C' z <-> u ∈ C z \/ z = y /\ u = t.
Definition removed (C C' : site -> list Z) (t : Z) : Prop :=
  forall z u, u ∈ C' z <-> u ∈ C z /\ u <> t.

(** A task that is in no queue is put into one, or refused. *)
Class Puts (ok : shared -> Prop) (op : Z -> shared -> outcome (Z * shared)) : Prop :=
  puts_ok : forall n s C t x,
    store (S n) s C -> ok s -> tasks s !! t = Some x -> t <> 0 -> 0 <= t_priority x < 4 -> (forall y, t ∉ C y) ->
    exists code s' C', op t s = Ok (code, s') /\ store n s' C' /\ rest_same s s' /\
      (code = 0 /\ (exists y, added C C' y t) \/ code <> 0 /\ C' = C).

(** A task is taken out of a queue, or none. *)
Class Takes (ok : shared -> Prop) (op : shared -> outcome (option Z * shared)) : Prop :=
  takes_ok : forall n s C, store (S n) s C -> ok s ->
    exists r s' C', op s = Ok (r, s') /\ store n s' C' /\ rest_same s s' /\
      match r with Some t => (exists y, t ∈ C y) /\ removed C C' t | None => C' = C end.

Definition always (s : shared) : Prop := True.

(** *** Lemmas for the instances *)

Lemma queue_holds_ext n q h D P P' : (forall i, P' i = P i) -> queue_holds n q h D P -> queue_holds n q h D P'.
Proof. intros E [H1 H2 H3 H4 H5]. split; try done; intros; rewrite E; eauto. Qed.

Lemma queue_holds_deque n q h D P d D' c :
  queue_holds (S n) q h D P -> deque_holds n d D' -> queue_holds n (set_deque d c q) h D' P.
Proof. intros [H1 H2 H3 H4 H5] Hd. by split. Qed.

Lemma added_fupd C y t l : (forall u, u ∈ l <-> u ∈ C y \/ u = t) -> added C (fupd C y l) y t.
Proof. intros H z u. fupd_cases z y; [rewrite H; naive_solver|naive_solver]. Qed.

Lemma removed_fupd C y t l :
  (forall x z u, u ∈ C x -> u ∈ C z -> x = z) -> t ∈ C y -> (forall u, u ∈ l <-> u ∈ C y /\ u <> t) -> removed C (fupd C y l) t.
Proof.
  intros Ha Ht H z u. fupd_cases z y; [done|]. split; [|naive_solver]. intros Hu. split; [done|]. intros ->. by apply n, (Ha _ _ t).
Qed.

(** The side conditions of the store after a change at one site. *)
Record sane (h : heap) (C : site -> list Z) : Prop := {
  sn_nodup : forall x, NoDup (C x);
  sn_apart : forall x y t, t ∈ C x -> t ∈ C y -> x = y;
  sn_live : forall x t, t ∈ C x -> is_Some (h !! t)
}.

Lemma store_sane n s C : store n s C -> sane (tasks s) C.
Proof. intros []. by split. Qed.

Lemma sane_add h C y t l x :
  sane h C -> h !! t = Some x -> (forall z, t ∉ C z) -> l ≡ₚ t :: C y -> sane h (fupd C y l).
Proof.
  intros [H1 H2 H3] Hx Hn Hl. split.
  - intros z. fupd_cases z y; [|done]. rewrite Hl. by constructor.
  - intros z1 z2 u Hu1 Hu2. fupd_cases z1 y; fupd_cases z2 y; [done| | |by eapply H2].
    + rewrite Hl in Hu1. apply elem_of_cons in Hu1 as [->|Hu1]; [by destruct (Hn z2)|by eapply H2].
    + rewrite Hl in Hu2. apply elem_of_cons in Hu2 as [->|Hu2]; [by destruct (Hn z1)|by eapply H2].
  - intros z u Hu. fupd_cases z y; [|by eapply H3]. rewrite Hl in Hu. apply elem_of_cons in Hu as [->|Hu]; [by exists x|by eapply H3].
Qed.

Lemma sane_remove h C y l : sane h C -> (forall u, u ∈ l -> u ∈ C y) -> NoDup l -> sane h (fupd C y l).
Proof.
  intros [H1 H2 H3] Hl Hnd. split.
  - intros z. by fupd_cases z y.
  - intros z1 z2 u Hu1 Hu2. fupd_cases z1 y; fupd_cases z2 y; eauto.
  - intros z u Hu. fupd_cases z y; eauto.
Qed.

Lemma sane_heap h h' C : same_tasks h h' -> sane h C -> sane h' C.
Proof.
  intros Hs [H1 H2 H3]. split; try done. intros x t Ht. destruct (H3 x t Ht) as [y Hy].
  destruct (same_tasks_some _ _ _ _ Hs Hy) as [m ->]. by exists (with_next m y).
Qed.

Lemma rest_same_intro s s' :
  pending_tasks (pool s') = pending_tasks (pool s) -> num_workers (pool s') = num_workers (pool s) ->
  futures s' = futures s -> tasks s' = tasks s -> rest_same s s'.
Proof. intros ? ? ? E. split; try done. rewrite E. apply same_tasks_refl. Qed.

Lemma perm_mem (l l' : list Z) t : l ≡ₚ t :: l' -> t ∉ l' -> forall u, u ∈ l' <-> u ∈ l /\ u <> t.
Proof. intros E Hn u. rewrite E, elem_of_cons. naive_solver. Qed.

Lemma store_mono n s C : store (S n) s C -> store n s C.
Proof. intros []. split; eauto using ring_holds_mono, queue_holds_mono. Qed.

(** Lists of tasks whose lists stay as they are. *)
Lemma lists_keep n q h D P P' : queue_holds (S n) q h D P -> (forall i, P' i = P i) -> queue_holds n q h D P'.
Proof. intros HQ HE. apply queue_holds_mono. by eapply queue_holds_ext. Qed.

Section change.
Context (n : nat) (s : shared) (C : site -> list Z).
Hypothesis HS : store (S n) s C.

Lemma store_ring r l :
  ring_holds n r l -> sane (tasks s) (fupd C AtRing l) -> store n (on_pool (set_global_ring r) s) (fupd C AtRing l).
Proof.
  intros Hr [N1 N2 N3]. pose proof HS as [H1 H2 H3 H4 H5 _ _ _ H9]. split; simpl; try done.
  - intros i r' Hr'. rewrite fupd_other by done. by apply ring_holds_mono, H3.
  - intros i q Hq. rewrite fupd_other by done. eapply lists_keep; [by apply H4|]. intros l'. by rewrite fupd_other.
  - eapply lists_keep; [exact H5|]. intros l'. by rewrite fupd_other.
  - intros x t Ht. fupd_cases x AtRing; [done|]. by apply (H9 x t).
Qed.

Lemma store_ext i r l :
  ring_holds n r l -> (i < num_workers (pool s))%nat -> sane (tasks s) (fupd C (AtExt i) l) ->
  store n (on_pool (set_ext_rings (<[i := r]> (ext_rings (pool s)))) s) (fupd C (AtExt i) l).
Proof.
  intros Hr Hi [N1 N2 N3]. pose proof HS as [H1 H2 H3 H4 H5 _ _ _ H9]. split; simpl; try done.
  - by rewrite length_insert.
  - by apply ring_holds_mono.
  - intros j r' Hr'. destruct (decide (j = i)) as [->|].
    + rewrite list_lookup_insert_eq in Hr' by lia. injection Hr' as <-. by rewrite fupd_same.
    + rewrite list_lookup_insert_ne in Hr' by done. rewrite fupd_other by congruence. by apply ring_holds_mono, H3.
  - intros j q Hq. rewrite fupd_other by done. eapply lists_keep; [by apply H4|]. intros l'. by rewrite fupd_other.
  - eapply lists_keep; [exact H5|]. intros l'. by rewrite fupd_other.
  - intros x t Ht. fupd_cases x (AtExt i); [done|]. by apply (H9 x t).
Qed.

(** A work queue and the heap change; the tasks of the other queues stay. *)
Lemma store_queue i q h C' :
  queue_holds n q h (C' (AtDeque i)) (fun l => C' (AtList i l)) -> (i < num_workers (pool s))%nat -> sane h C' ->
  (forall y, match y with AtDeque j | AtList j _ => j <> i | _ => True end -> C' y = C y /\ forall t, t ∈ C y -> h !! t = tasks s !! t) ->
  store n (set_tasks h (put_queue i q s)) C'.
Proof.
  intros Hq Hi [N1 N2 N3] Hk. pose proof HS as [H1 H2 H3 H4 H5 _ _ _ H9]. split; simpl; try done.
  - by rewrite H1; unfold num_workers; simpl; rewrite length_insert.
  - rewrite (proj1 (Hk AtRing I)). by apply ring_holds_mono.
  - intros j r Hr. rewrite (proj1 (Hk (AtExt j) I)). by apply ring_holds_mono, H3.
  - intros j q' Hq'. destruct (decide (j = i)) as [->|Hne].
    + rewrite list_lookup_insert_eq in Hq' by done. by injection Hq' as <-.
    + rewrite list_lookup_insert_ne in Hq' by done. rewrite (proj1 (Hk (AtDeque j) Hne)).
      eapply lists_keep; [|intros l; apply (proj1 (Hk (AtList j l) Hne))].
      eapply queue_holds_frame; [|by apply H4]. intros l t Ht. by apply (Hk (AtList j l) Hne).
  - eapply lists_keep; [|intros l; apply (proj1 (Hk (AtGlobal l) I))].
    eapply queue_holds_frame; [|exact H5]. intros l t Ht. by apply (Hk (AtGlobal l) I).
  - intros x t Ht. assert (match x with AtDeque j | AtList j _ => j = i | _ => False end \/ C' x = C x) as [E|E].
    { destruct x; try (right; by apply Hk); destruct (decide (i0 = i)); (by left) || (right; by apply Hk). }
    + destruct x; subst; try done; unfold in_range, has_worker, num_workers; simpl; by rewrite length_insert.
    + rewrite E in Ht. specialize (H9 x t Ht). unfold in_range, has_worker, num_workers in *. simpl. by rewrite length_insert.
Qed.

Lemma store_global q h C' :
  queue_holds n q h [] (fun l => C' (AtGlobal l)) -> sane h C' ->
  (forall y, match y with AtGlobal _ => False | _ => True end -> C' y = C y /\ forall t, t ∈ C y -> h !! t = tasks s !! t) ->
  store n (set_tasks h (on_pool (set_global_queue q) s)) C'.
Proof.
  intros Hq [N1 N2 N3] Hk. pose proof HS as [H1 H2 H3 H4 H5 _ _ _ H9]. split; simpl; try done.
  - rewrite (proj1 (Hk AtRing I)). by apply ring_holds_mono.
  - intros j r Hr. rewrite (proj1 (Hk (AtExt j) I)). by apply ring_holds_mono, H3.
  - intros j q' Hq'. rewrite (proj1 (Hk (AtDeque j) I)).
    eapply lists_keep; [|intros l; apply (proj1 (Hk (AtList j l) I))].
    eapply queue_holds_frame; [|by apply H4]. intros l t Ht. by apply (Hk (AtList j l) I).
  - intros x t Ht. destruct x as [|i|i|i l|l]; try done; [rewrite (proj1 (Hk (AtExt i) I)) in Ht|rewrite (proj1 (Hk (AtDeque i) I)) in Ht|rewrite (proj1 (Hk (AtList i l) I)) in Ht]; by apply H9 in Ht.
Qed.

(** What a put and a take at the site [y] give. *)
Lemma sane_put y t x : tasks s !! t = Some x -> (forall z, t ∉ C z) -> sane (tasks s) (fupd C y (C y ++ [t])).
Proof. intros Hx Hn. eapply sane_add; [by eapply store_sane|done|done|]. by rewrite Permutation_app_comm. Qed.

Lemma added_put y t : added C (fupd C y (C y ++ [t])) y t.
Proof. apply added_fupd. intros u. by rewrite elem_of_app, list_elem_of_singleton. Qed.

Lemma site_take y t l : C y ≡ₚ t :: l ->
  sane (tasks s) (fupd C y l) /\ (exists z, t ∈ C z) /\ removed C (fupd C y l) t.
Proof.
  intros E. pose proof HS as [_ _ _ _ _ H6 H7 H8 _]. pose proof (H6 y) as Hnd. rewrite E in Hnd. apply NoDup_cons in Hnd as [Ht Hnd].
  assert (t ∈ C y) as Hty by (rewrite E; by left). split; [|split; [by exists y|]].
  - apply sane_remove; [by eapply store_sane| |done]. intros u Hu. rewrite E. by right.
  - apply removed_fupd; [done|done|]. by apply perm_mem.
Qed.
End change.

(** A queue that refuses. *)
Lemma put_refused n s C t code : store (S n) s C -> code <> 0 ->
  exists code' s' C', Ok (code, s) = Ok (code', s') /\ store n s' C' /\ rest_same s s' /\
    (code' = 0 /\ (exists y, added C C' y t) \/ code' <> 0 /\ C' = C).
Proof. intros HS Hc. exists code, s, C. split; [done|]. split; [by apply store_mono|]. split; [by apply rest_same_intro|by right]. Qed.

Lemma take_refused n s C : store (S n) s C ->
  exists r s' C', Ok (None, s) = Ok (r, s') /\ store n s' C' /\ rest_same s s' /\
    match r with Some t => (exists y, t ∈ C y) /\ removed C C' t | None => C' = C end.
Proof. intros HS. exists None, s, C. split; [done|]. split; [by apply store_mono|]. split; [by apply rest_same_intro|done]. Qed.

(** *** Rings *)

Lemma pool_id s : mkShared (pool s) (tasks s) (futures s) = s.
Proof. by destruct s. Qed.

#[global] Instance puts_global_ring busy : Puts always (push_global_ring busy).
Proof.
  intros n s C t x HS _ Hx H0 Hp Hn. unfold push_global_ring. destruct busy; [by apply put_refused|].
  pose proof (ring_push_holds n _ _ t ring_fuel (st_ring _ _ _ HS) ltac:(unfold ring_fuel; lia)) as Hr. destruct (_ <? _).
  - destruct Hr as (r' & -> & Hh & Ec). cbn [obind]. eexists QD_OK, _, (fupd C AtRing (C AtRing ++ [t])).
    split; [done|]. split; [by apply store_ring; [| |by eapply sane_put]|]. split; [by apply rest_same_intro|].
    left. split; [done|]. exists AtRing. by apply added_put.
  - rewrite Hr. cbn [obind]. eexists QD_ERR_BUSY, _, C. split; [done|]. replace (on_pool _ s) with s by (by destruct s as [[] ? ?]).
    split; [by apply store_mono|]. split; [by apply rest_same_intro|by right].
Qed.

#[global] Instance takes_global_ring busy : Takes always (pop_global_ring busy).
Proof.
  intros n s C HS _. unfold pop_global_ring. destruct busy; [by apply take_refused|].
  pose proof (ring_pop_holds (S n) _ _ ring_fuel (st_ring _ _ _ HS) ltac:(unfold ring_fuel; lia)) as Hr.
  destruct (C AtRing) as [|t l] eqn:E.
  - rewrite Hr. cbn [obind]. eexists None, _, C. split; [done|]. replace (on_pool _ s) with s by (by destruct s as [[] ? ?]).
    split; [by apply store_mono|]. split; [by apply rest_same_intro|done].
  - destruct Hr as (r' & -> & Hh & Ec). cbn [obind]. destruct (site_take n s C HS AtRing t l) as (N & T); [by rewrite E|].
    eexists (Some t), _, (fupd C AtRing l). split; [done|]. split; [by apply store_ring; [|apply ring_holds_mono|]|].
    split; [by apply rest_same_intro|done].
Qed.

Lemma ext_ring_get n s C i : store n s C -> has_worker i s -> exists r, ext_rings (pool s) !! i = Some r /\ ring_holds n r (C (AtExt i)).
Proof.
  intros HS Hi. destruct (lookup_lt_is_Some_2 (ext_rings (pool s)) i) as [r Hr]; [rewrite (st_len _ _ _ HS); done|].
  exists r. split; [done|]. by eapply st_ext.
Qed.

Lemma ext_ring_id s i r : ext_rings (pool s) !! i = Some r -> on_pool (set_ext_rings (<[i := r]> (ext_rings (pool s)))) s = s.
Proof. intros Hr. rewrite list_insert_id by done. by destruct s as [[] ? ?]. Qed.

#[global] Instance puts_ext_ring busy i : Puts (has_worker i) (push_ext_ring busy i).
Proof.
  intros n s C t x HS Hi Hx H0 Hp Hn. unfold push_ext_ring. destruct busy; [by apply put_refused|]. destruct (ext_ring_get _ _ _ _ HS Hi) as (r & Hr & Hh). rewrite Hr. cbn [of_option obind].
  pose proof (ring_push_holds n _ _ t ring_fuel Hh ltac:(unfold ring_fuel; lia)) as Hp'. destruct (_ <? _).
  - destruct Hp' as (r' & -> & Hh' & Ec). cbn [obind]. eexists QD_OK, _, (fupd C (AtExt i) (C (AtExt i) ++ [t])).
    split; [done|]. split; [by apply store_ext; [| | |by eapply sane_put]|]. split; [by apply rest_same_intro|].
    left. split; [done|]. exists (AtExt i). by apply added_put.
  - rewrite Hp'. cbn [obind]. rewrite ext_ring_id by done. eexists QD_ERR_BUSY, _, C. split; [done|].
    split; [by apply store_mono|]. split; [by apply rest_same_intro|by right].
Qed.

#[global] Instance takes_ext_ring busy i : Takes (has_worker i) (pop_ext_ring busy i).
Proof.
  intros n s C HS Hi. unfold pop_ext_ring. destruct busy; [by apply take_refused|]. destruct (ext_ring_get _ _ _ _ HS Hi) as (r & Hr & Hh). rewrite Hr. cbn [of_option obind].
  pose proof (ring_pop_holds (S n) _ _ ring_fuel Hh ltac:(unfold ring_fuel; lia)) as Hp'.
  destruct (C (AtExt i)) as [|t l] eqn:E.
  - rewrite Hp'. cbn [obind]. rewrite ext_ring_id by done. eexists None, _, C. split; [done|].
    split; [by apply store_mono|]. split; [by apply rest_same_intro|done].
  - destruct Hp' as (r' & -> & Hh' & Ec). cbn [obind]. destruct (site_take n s C HS (AtExt i) t l) as (N & T); [by rewrite E|].
    eexists (Some t), _, (fupd C (AtExt i) l). split; [done|]. split; [by apply store_ext; [|apply ring_holds_mono| |]|].
    split; [by apply rest_same_intro|done].
Qed.

(** *** Work queues *)

Definition lists_ok (P : nat -> list Z) : Prop :=
  (forall i, NoDup (P i)) /\ (forall i j t, t ∈ P i -> t ∈ P j -> i = j).

Lemma work_queue_push_ok busy n q h D P task x b :
  queue_holds (S n) q h D P -> lists_ok P -> h !! task = Some x -> task <> 0 -> 0 <= t_priority x < 4 -> (forall i, task ∉ P i) ->
  exists code q' h', work_queue_push busy q h task b = Ok (code, q', h') /\ same_tasks h h' /\
    (forall t, t <> task -> (forall i, t ∉ P i) -> h' !! t = h !! t) /\
    (code = 0 /\ b = true /\ h' = h /\ queue_holds n q' h (D ++ [task]) P \/
     code = 0 /\ (exists i, queue_holds n q' h' D (fupd P i (P i ++ [task]))) \/
     code <> 0 /\ q' = q /\ h' = h).
Proof.
  intros HQ [Hnd Hdj] Hx H0 Hp Hn. unfold work_queue_push, read_task. rewrite Hx. cbn [of_option obind].
  destruct (b && (t_priority x =? QD_PRIORITY_NORMAL)) eqn:E.
  - apply andb_prop in E as [-> _].
    destruct busy; [eexists (-1), q, h; split; [done|]; split; [apply same_tasks_refl|]; split; [done|]; right; right; by split; [lia|]|].
    pose proof (deque_push_holds n _ _ task deque_fuel (qh_deque _ _ _ _ _ HQ) ltac:(unfold deque_fuel; lia)) as Hd. destruct (_ <? _).
    + destruct Hd as (d' & -> & Hd' & _). cbn [obind]. eexists 0, _, h. split; [done|]. split; [apply same_tasks_refl|]. split; [done|].
      left. split; [done|]. split; [done|]. split; [done|]. by eapply queue_holds_deque.
    + rewrite Hd. cbn [obind]. eexists (-1), _, h. split; [done|]. split; [apply same_tasks_refl|]. split; [done|].
      right. right. split; [lia|]. split; [by destruct q|done].
  - destruct (push_list_ok (S n) q h D P task x (t_priority x)) as (q' & h' & -> & HQ' & _ & Hs & Hf); try done. cbn [obind].
    eexists 0, q', h'. split; [done|]. split; [done|]. split; [done|]. right. left. split; [done|].
    eexists. by apply queue_holds_mono.
Qed.

Lemma work_queue_pop_ok busy n q h D P :
  queue_holds (S n) q h D P -> lists_ok P ->
  exists r q' h', work_queue_pop busy q h = Ok (r, q', h') /\ same_tasks h h' /\
    match r with
    | Some t =>
      (exists i l, P i = t :: l /\ queue_holds n q' h' D (fupd P i l) /\ (forall u, u <> t -> h' !! u = h !! u)) \/
      (exists l, D ≡ₚ t :: l /\ h' = h /\ queue_holds n q' h l P)
    | None => q' = q /\ h' = h
    end.
Proof.
  intros HQ [Hnd Hdj]. unfold work_queue_pop.
  destruct (pop_lists_ok _ _ _ _ _ 4 HQ Hnd Hdj ltac:(lia)) as (r & q' & h' & -> & Ed & Hs & Hr). cbn [obind].
  destruct r as [t|].
  - destruct Hr as (i & l & El & HQ' & Hf). eexists _, _, _. split; [done|]. split; [done|]. left. exists i, l.
    split; [done|]. split; [by apply queue_holds_mono|done].
  - destruct Hr as (-> & -> & _). destruct busy; [eexists None, _, _; split; [done|]; by split|]. pose proof (deque_pop_holds (S n) _ _ deque_fuel (qh_deque _ _ _ _ _ HQ) ltac:(unfold deque_fuel; lia)) as Hd.
    destruct D as [|u D].
    + rewrite Hd. cbn [obind]. eexists None, _, _. split; [done|]. split; [done|]. split; [by destruct q|done].
    + destruct Hd as (d' & D' & v & E & -> & Hd' & _). cbn [obind]. eexists (Some v), _, _. split; [done|]. split; [done|]. right.
      exists D'. split; [rewrite E; by rewrite Permutation_app_comm|]. split; [done|].
      eapply queue_holds_deque; [done|]. by apply deque_holds_mono.
Qed.

Lemma work_queue_steal_ok busy n q h D P :
  queue_holds (S n) q h D P ->
  exists r q', work_queue_steal busy q = Ok (r, q') /\
    match r with Some t => exists l, D = t :: l /\ queue_holds n q' h l P | None => q' = q end.
Proof.
  intros HQ. unfold work_queue_steal. destruct busy; [by eexists None, _|].
  pose proof (deque_steal_holds (S n) _ _ deque_fuel (qh_deque _ _ _ _ _ HQ) ltac:(unfold deque_fuel; lia)) as Hd. destruct D as [|v D].
  - rewrite Hd. cbn [obind]. eexists None, _. split; [done|]. by destruct q.
  - destruct Hd as (d' & -> & Hd' & _). cbn [obind]. eexists (Some v), _. split; [done|]. exists D. split; [done|].
    eapply queue_holds_deque; [done|]. by apply deque_holds_mono.
Qed.

Lemma site_lists n s C i : store n s C -> lists_ok (fun l => C (AtList i l)).
Proof.
  intros HS. split; [intros l; by eapply st_nodup|]. intros l l' t Hl Hl'.
  pose proof (st_apart _ _ _ HS _ _ t Hl Hl') as E. by injection E.
Qed.
Lemma global_lists n s C : store n s C -> lists_ok (fun l => C (AtGlobal l)).
Proof.
  intros HS. split; [intros l; by eapply st_nodup|]. intros l l' t Hl Hl'.
  pose proof (st_apart _ _ _ HS _ _ t Hl Hl') as E. by injection E.
Qed.

Lemma queue_get n s C i : store n s C -> has_worker i s ->
  exists q, queues (pool s) !! i = Some q /\ queue_holds n q (tasks s) (C (AtDeque i)) (fun l => C (AtList i l)).
Proof.
  intros HS Hi. destruct (lookup_lt_is_Some_2 (queues (pool s)) i Hi) as [q Hq]. exists q. split; [done|]. by eapply st_queue.
Qed.

Lemma queue_id s i q : queues (pool s) !! i = Some q -> set_tasks (tasks s) (put_queue i q s) = s.
Proof. intros Hq. unfold put_queue. rewrite list_insert_id by done. by destruct s as [[] ? ?]. Qed.

Lemma queue_rest s i q h : same_tasks (tasks s) h -> rest_same s (set_tasks h (put_queue i q s)).
Proof. intros Hs. split; try done. unfold num_workers. simpl. by rewrite length_insert. Qed.

Lemma global_rest s q h : same_tasks (tasks s) h -> rest_same s (set_tasks h (on_pool (set_global_queue q) s)).
Proof. intros Hs. by split. Qed.

Lemma at_list_fupd (C : site -> list Z) i l L l' : fupd C (AtList i l) L (AtList i l') = fupd (fun l => C (AtList i l)) l L l'.
Proof. unfold fupd. destruct (decide (l' = l)) as [->|]; [by rewrite decide_True|]. rewrite decide_False; congruence. Qed.
Lemma at_global_fupd (C : site -> list Z) l L l' : fupd C (AtGlobal l) L (AtGlobal l') = fupd (fun l => C (AtGlobal l)) l L l'.
Proof. unfold fupd. destruct (decide (l' = l)) as [->|]; [by rewrite decide_True|]. rewrite decide_False; congruence. Qed.

#[global] Instance puts_queue busy i b : Puts (has_worker i) (fun t => push_queue busy i t b).
Proof.
  intros n s C t x HS Hi Hx H0 Hp Hn. unfold push_queue. destruct (queue_get _ _ _ _ HS Hi) as (q & Hq & HQ). rewrite Hq. cbn [of_option obind].
  destruct (work_queue_push_ok busy n q (tasks s) _ _ t x b HQ) as (code & q' & h' & -> & Hs & Hf & Hc); try done; [by eapply site_lists|].
  cbn [obind]. destruct Hc as [(-> & _ & -> & HQ')|[(-> & l & HQ')|(Hc & -> & ->)]].
  - eexists 0, _, (fupd C (AtDeque i) (C (AtDeque i) ++ [t])). split; [done|]. split; [|split; [by apply queue_rest|left; split; [done|]; exists (AtDeque i); by apply added_put]].
    apply (store_queue n s C HS); [| |by eapply sane_put|].
    + rewrite fupd_same. eapply queue_holds_ext; [|exact HQ']. intros l. by rewrite fupd_other.
    + done.
    + intros y Hy. rewrite fupd_other; [done|]. by intros ->.
  - eexists 0, _, (fupd C (AtList i l) (C (AtList i l) ++ [t])). split; [done|].
    split; [|split; [by apply queue_rest|left; split; [done|]; exists (AtList i l); by apply added_put]].
    apply (store_queue n s C HS); [| |eapply sane_heap; [done|by eapply sane_put]|].
    + rewrite fupd_other by done. eapply queue_holds_ext; [|exact HQ']. intros l'; apply at_list_fupd.
    + done.
    + intros y Hy. rewrite fupd_other by (by intros ->). split; [done|]. intros u Hu. apply Hf.
      * intros ->. by eapply Hn.
      * intros l' Hl'. pose proof (st_apart _ _ _ HS _ _ u Hu Hl') as ->. done.
  - rewrite queue_id by done. eexists code, _, C. split; [done|]. split; [by apply store_mono|]. split; [by apply rest_same_intro|by right].
Qed.

#[global] Instance takes_queue busy i : Takes (has_worker i) (pop_queue busy i).
Proof.
  intros n s C HS Hi. unfold pop_queue. destruct (queue_get _ _ _ _ HS Hi) as (q & Hq & HQ). rewrite Hq. cbn [of_option obind].
  destruct (work_queue_pop_ok busy n q (tasks s) _ _ HQ) as (r & q' & h' & -> & Hs & Hr); [by eapply site_lists|]. cbn [obind].
  destruct r as [t|]; [destruct Hr as [(l & L & El & HQ' & Hf)|(L & El & -> & HQ')]|].
  - destruct (site_take n s C HS (AtList i l) t L) as (N & T & R); [by rewrite El|].
    eexists (Some t), _, _. split; [done|]. split; [|split; [by apply queue_rest|done]].
    apply (store_queue n s C HS); [| |by eapply sane_heap|].
    + rewrite fupd_other by done. eapply queue_holds_ext; [|exact HQ']. intros l'; apply at_list_fupd.
    + done.
    + intros y Hy. rewrite fupd_other by (by intros ->). split; [done|]. intros u Hu. apply Hf. intros ->.
      assert (t ∈ C (AtList i l)) as Ht by (rewrite El; by left). pose proof (st_apart _ _ _ HS _ _ t Hu Ht) as ->. done.
  - destruct (site_take n s C HS (AtDeque i) t L El) as (N & T & R).
    eexists (Some t), _, _. split; [done|]. split; [|split; [by apply queue_rest|done]].
    apply (store_queue n s C HS); [| |done|].
    + rewrite fupd_same. eapply queue_holds_ext; [|exact HQ']. intros l'. by rewrite fupd_other.
    + done.
    + intros y Hy. rewrite fupd_other; [done|]. by intros ->.
  - destruct Hr as [-> ->]. rewrite queue_id by done. eexists None, _, C. split; [done|]. split; [by apply store_mono|]. split; [by apply rest_same_intro|done].
Qed.

#[global] Instance takes_steal busy i : Takes (has_worker i) (steal_queue busy i).
Proof.
  intros n s C HS Hi. unfold steal_queue. destruct (queue_get _ _ _ _ HS Hi) as (q & Hq & HQ). rewrite Hq. cbn [of_option obind].
  destruct (work_queue_steal_ok busy n q (tasks s) _ _ HQ) as (r & q' & -> & Hr). cbn [obind].
  assert (put_queue i q' s = set_tasks (tasks s) (put_queue i q' s)) as -> by done.
  destruct r as [t|]; [destruct Hr as (L & El & HQ')|subst q'].
  - destruct (site_take n s C HS (AtDeque i) t L) as (N & T & R); [by rewrite El|].
    eexists (Some t), _, _. split; [done|]. split; [|split; [apply queue_rest, same_tasks_refl|done]].
    apply (store_queue n s C HS); [| |done|].
    + rewrite fupd_same. eapply queue_holds_ext; [|exact HQ']. intros l'. by rewrite fupd_other.
    + done.
    + intros y Hy. rewrite fupd_other; [done|]. by intros ->.
  - rewrite queue_id by done. eexists None, _, C. split; [done|]. split; [by apply store_mono|]. split; [by apply rest_same_intro|done].
Qed.

#[global] Instance puts_global_queue : Puts always push_global_queue.
Proof.
  intros n s C t x HS _ Hx H0 Hp Hn. unfold push_global_queue. pose proof (st_global _ _ _ HS) as HQ.
  destruct (work_queue_push_ok false n _ (tasks s) _ _ t x false HQ) as (code & q' & h' & -> & Hs & Hf & Hc); try done; [by eapply global_lists|].
  cbn [obind]. destruct Hc as [(_ & ? & _)|[(-> & l & HQ')|(Hc & -> & ->)]]; [done| |].
  - eexists 0, _, (fupd C (AtGlobal l) (C (AtGlobal l) ++ [t])). split; [done|].
    split; [|split; [by apply global_rest|left; split; [done|]; exists (AtGlobal l); by apply added_put]].
    apply (store_global n s C HS); [|eapply sane_heap; [done|by eapply sane_put]|].
    + eapply queue_holds_ext; [|exact HQ']. intros l'; apply at_global_fupd.
    + intros y Hy. rewrite fupd_other by (by intros ->). split; [done|]. intros u Hu. apply Hf.
      * intros ->. by eapply Hn.
      * intros l' Hl'. pose proof (st_apart _ _ _ HS _ _ u Hu Hl') as ->. done.
  - eexists code, _, C. split; [done|]. replace (set_tasks _ _) with s by (by destruct s as [[] ? ?]).
    split; [by apply store_mono|]. split; [by apply rest_same_intro|by right].
Qed.

#[global] Instance takes_global_queue : Takes always pop_global_queue.
Proof.
  intros n s C HS _. unfold pop_global_queue, work_queue_pop_priority. pose proof (st_global _ _ _ HS) as HQ.
  destruct (global_lists _ _ _ HS) as [Hnd Hdj].
  destruct (pop_lists_ok _ _ _ _ _ 4 HQ Hnd Hdj ltac:(lia)) as (r & q' & h' & -> & Ed & Hs & Hr). cbn [obind].
  destruct r as [t|].
  - destruct Hr as (l & L & El & HQ' & Hf). destruct (site_take n s C HS (AtGlobal l) t L) as (N & T & R); [by rewrite El|].
    eexists (Some t), _, _. split; [done|]. split; [|split; [by apply global_rest|done]].
    apply (store_global n s C HS); [|by eapply sane_heap|].
    + apply queue_holds_mono. eapply queue_holds_ext; [|exact HQ']. intros l'; apply at_global_fupd.
    + intros y Hy. rewrite fupd_other by (by intros ->). split; [done|]. intros u Hu. apply Hf. intros ->.
      assert (t ∈ C (AtGlobal l)) as Ht by (rewrite El; by left). pose proof (st_apart _ _ _ HS _ _ t Hu Ht) as ->. done.
  - destruct Hr as (-> & -> & _). eexists None, _, C. split; [done|]. replace (set_tasks _ _) with s by (by destruct s as [[] ? ?]).
    split; [by apply store_mono|]. split; [by apply rest_same_intro|done].
Qed.
