(* ===== verification/PoolSafe.v ===== *)
(** * The thread pool runs every accepted task once

    The invariant of [ThreadPool] under every interleaving: each live task has one place
    (being submitted, in a queue, with a worker), the counter [pending_tasks] counts the
    tasks in the places that matter, and the logs agree with the places. *)

From S2P Require Import Prelude Common MpmcRing WsDeque ThreadPool PoolQueues.

(** ** Places *)

(** Who submits: a client, or a worker from inside a task. *)
Inductive sid := Client (i : nat) | Nested (k : nat).

Inductive place := PFresh (id : sid) | PSub (id : sid) | PSite | PHand (k : nat) | PRun (k : nat) | PGone (k : nat) | PDead (id : sid).

#[global] Instance sid_dec : EqDecision sid.
Proof. solve_decision. Defined.
#[global] Instance place_dec : EqDecision place.
Proof. solve_decision. Defined.

Definition counted (p : place) : bool := match p with PFresh _ | PDead _ | PGone _ => false | _ => true end.
Definition waits (p : place) : bool := match p with PSite | PHand _ => true | _ => false end.

Abbreviation places := (gmap Z place).

Definition count (pl : places) : nat := size (filter (fun tp => counted tp.2 = true) pl).
Definition waiting (pl : places) : list Z := (map_to_list (filter (fun tp => waits tp.2 = true) pl)).*1.

Lemma elem_of_waiting pl t : t ∈ waiting pl <-> exists p, pl !! t = Some p /\ waits p = true.
Proof.
  unfold waiting. rewrite list_elem_of_fmap. split.
  - intros ([u p] & -> & Hu). apply elem_of_map_to_list, map_lookup_filter_Some in Hu as [? ?]. eauto.
  - intros (p & Hp & Hw). exists (t, p). split; [done|]. by apply elem_of_map_to_list, map_lookup_filter_Some.
Qed.

Lemma waiting_nodup pl : NoDup (waiting pl).
Proof. apply NoDup_fst_map_to_list. Qed.

Lemma waiting_same pl pl' t :
  (forall u, u <> t -> pl' !! u = pl !! u) -> (t ∈ waiting pl' <-> t ∈ waiting pl) -> waiting pl' ≡ₚ waiting pl.
Proof.
  intros Hu Ht. apply NoDup_Permutation; [apply waiting_nodup..|]. intros u. destruct (decide (u = t)) as [->|Hne]; [done|].
  rewrite !elem_of_waiting. by rewrite Hu.
Qed.

Lemma waiting_add pl pl' t :
  (forall u, u <> t -> pl' !! u = pl !! u) -> t ∈ waiting pl' -> t ∉ waiting pl -> waiting pl' ≡ₚ t :: waiting pl.
Proof.
  intros Hu Ht Hn. apply NoDup_Permutation; [apply waiting_nodup|constructor; [done|apply waiting_nodup]|].
  intros u. rewrite elem_of_cons. destruct (decide (u = t)) as [->|Hne]; [naive_solver|].
  rewrite !elem_of_waiting, Hu by done. naive_solver.
Qed.

Lemma count_insert pl t p : pl !! t = None -> count (<[t := p]> pl) = (count pl + (if counted p then 1 else 0))%nat.
Proof.
  intros Hn. unfold count. rewrite map_filter_insert. case_decide as Hc; simpl in Hc.
  - rewrite Hc, map_size_insert_None; [lia|]. apply map_lookup_filter_None. by left.
  - destruct (counted p); [done|]. rewrite delete_id by done. lia.
Qed.

Lemma count_delete pl t p : pl !! t = Some p -> count pl = (count (delete t pl) + (if counted p then 1 else 0))%nat.
Proof. intros Hp. rewrite <- (insert_delete_id pl t p) at 1 by done. apply count_insert, lookup_delete_eq. Qed.

Lemma count_change pl t p p' : pl !! t = Some p ->
  (count (<[t := p']> pl) + (if counted p then 1 else 0) = count pl + (if counted p' then 1 else 0))%nat.
Proof.
  intros Hp. rewrite (count_delete pl t p Hp), <- insert_delete_eq. rewrite count_insert by apply lookup_delete_eq. lia.
Qed.

Lemma count_size pl : (count pl <= size pl)%nat.
Proof. unfold count. apply map_size_filter. Qed.

Lemma waiting_le pl : (length (waiting pl) <= count pl)%nat.
Proof.
  unfold waiting, count. rewrite length_fmap, length_map_to_list. apply map_subseteq_size, map_filter_subseteq_ext.
  intros t p _. simpl. by destruct p.
Qed.

(** ** Claims of the threads *)

(** The task a submission is working on, and its place. *)
Definition sub_task (id : sid) (pc : submit_pc) : option (Z * place) :=
  match pc with
  | SRef _ t | SPending _ t => Some (t, PFresh id)
  | SPush _ t | SExt _ t | SOverflow _ t | SUndo _ t => Some (t, PSub id)
  | SFree _ t => Some (t, PDead id)
  | _ => None
  end.

(** The task a worker has. *)
Definition worker_task (k : nat) (pc : worker_pc) : option (Z * place) :=
  match pc with
  | WStolen t | WFound t | WStart t | WCall t => Some (t, PHand k)
  | WBody t _ _ | WComplete t | WCallback t | WCount t | WDone t => Some (t, PRun k)
  | WFree t => Some (t, PGone k)
  | _ => None
  end.

Abbreviation subs := (sid -> option (request * submit_pc)).
Abbreviation owns := (nat -> option (Z * place)).

(** A request as its callers make it, at a point of the code it gets to. *)
Definition legal (r : request) (pc : submit_pc) : bool :=
  request_ok r && match pc with SNewFuture | SRef _ _ | SRelease _ _ => is_future r | _ => true end.

Definition subs_ok (sub : subs) (pl : places) : Prop :=
  forall id r pc, sub id = Some (r, pc) ->
    legal r pc = true /\ forall t p, sub_task id pc = Some (t, p) -> pl !! t = Some p.

Definition worker_place (k : nat) (p : place) : Prop := p = PHand k \/ p = PRun k \/ p = PGone k.

(** A worker has at most one of its own tasks; what is in its hands, it has. *)
Definition owns_ok (own : owns) (pl : places) : Prop :=
  (forall k t p, own k = Some (t, p) -> pl !! t = Some p /\ worker_place k p) /\
  (forall t k, pl !! t = Some (PHand k) -> own k = Some (t, PHand k)).

(** What the heap holds. *)
Definition heap_ok (h : heap) (pl : places) : Prop :=
  (forall t, is_Some (pl !! t) <-> is_Some (h !! t)) /\
  (forall t x, h !! t = Some x -> 0 < t /\ 0 <= t_priority x < 4).

Record inv (n : nat) (s : shared) (sub : subs) (own : owns) (pl : places) (C : site -> list Z) (acc exe : list Z) : Prop := {
  iv_store : store n s C;
  iv_sites : forall t, pl !! t = Some PSite <-> exists y, t ∈ C y;
  iv_subs : subs_ok sub pl;
  iv_owns : owns_ok own pl;
  iv_heap : heap_ok (tasks s) pl;
  iv_pending : pending_tasks (pool s) = Z.of_nat (count pl);
  iv_small : Z.of_nat (size pl) + Z.of_nat n < 2 ^ 31;
  iv_logs : acc ≡ₚ exe ++ waiting pl
}.

(** A thread that claims another place than that of [t] does not claim [t]. *)
Lemma claim_other (pl : places) t u p q : pl !! u = Some q -> pl !! t = Some p -> q <> p -> u <> t.
Proof. intros Hu Ht Hne ->. congruence. Qed.

(** Changes of the place of one task: what others claim stays. *)
Section move.
Context (pl pl' : places) (t : Z).
Hypothesis Hsame : forall u, u <> t -> pl' !! u = pl !! u.

Lemma subs_move (sub : subs) id r pc :
  subs_ok sub pl -> legal r pc = true ->
  (forall id' q, (exists r' pc' , sub id' = Some (r', pc') /\ sub_task id' pc' = Some (t, q)) -> id' <> id -> False) ->
  (forall u p, sub_task id pc = Some (u, p) -> pl' !! u = Some p) ->
  subs_ok (fupd sub id (Some (r, pc))) pl'.
Proof.
  intros Hs Hr Ho Hn id' r' pc' E. fupd_cases id' id.
  - injection E as <- <-. auto.
  - destruct (Hs id' r' pc' E) as [? Hc]. split; [done|]. intros u p Hu. rewrite Hsame; [by apply Hc|].
    intros ->. by apply (Ho id' p); [by exists r', pc'|].
Qed.

Lemma subs_stay (sub : subs) :
  subs_ok sub pl -> (forall id q, (exists r pc, sub id = Some (r, pc) /\ sub_task id pc = Some (t, q)) -> False) -> subs_ok sub pl'.
Proof.
  intros Hs Ho id r pc E. destruct (Hs id r pc E) as [? Hc]. split; [done|]. intros u p Hu. rewrite Hsame; [by apply Hc|].
  intros ->. apply (Ho id p). by exists r, pc.
Qed.
End move.

(** The claims that a submission of another thread can have on a task of this place. *)
Lemma sub_place id pc t p : sub_task id pc = Some (t, p) -> p = PFresh id \/ p = PSub id \/ p = PDead id.
Proof. destruct pc; simpl; naive_solver. Qed.

Definition owned_by (id : sid) (p : place) : Prop := p = PFresh id \/ p = PSub id \/ p = PDead id.

Lemma sub_excludes (sub : subs) pl id t p :
  subs_ok sub pl -> pl !! t = Some p -> owned_by id p ->
  forall id' q, (exists r' pc', sub id' = Some (r', pc') /\ sub_task id' pc' = Some (t, q)) -> id' <> id -> False.
Proof.
  intros Hs Ht Hp id' q (r' & pc' & E & Hc) Hne. destruct (Hs id' r' pc' E) as [_ H]. specialize (H t q Hc).
  apply sub_place in Hc. unfold owned_by in *. naive_solver.
Qed.

Lemma sub_excludes_all (sub : subs) pl t p :
  subs_ok sub pl -> pl !! t = Some p -> (forall id, ~ owned_by id p) ->
  forall id q, (exists r pc, sub id = Some (r, pc) /\ sub_task id pc = Some (t, q)) -> False.
Proof.
  intros Hs Ht Hp id q (r & pc & E & Hc). destruct (Hs id r pc E) as [_ H]. specialize (H t q Hc).
  apply sub_place in Hc. apply (Hp id). unfold owned_by. naive_solver.
Qed.

(** ** The places of a worker's task *)

Lemma worker_place_inj k k' p : worker_place k p -> worker_place k' p -> k = k'.
Proof. unfold worker_place. naive_solver. Qed.

Lemma owns_stay own pl pl' t :
  owns_ok own pl -> (forall u, u <> t -> pl' !! u = pl !! u) ->
  (forall k p, pl !! t = Some p -> ~ worker_place k p) -> (forall k p, pl' !! t = Some p -> ~ worker_place k p) ->
  owns_ok own pl'.
Proof.
  intros [H1 H2] Hs Hp Hp'. split.
  - intros k u q E. destruct (H1 k u q E) as [Hu Hq]. rewrite Hs; [done|]. intros ->. by eapply Hp.
  - intros u k Hu. apply H2. rewrite <- Hs; [done|]. intros ->. eapply Hp'; [done|]. by left.
Qed.

(** Worker [k] has [t] now: it had it before, or it had none and no worker had [t]. *)
Lemma owns_change own pl pl' k t p p' :
  owns_ok own pl -> (forall u, u <> t -> pl' !! u = pl !! u) -> pl !! t = Some p -> pl' !! t = Some p' -> worker_place k p' ->
  (own k = Some (t, p) \/ own k = None /\ (forall k, ~ worker_place k p)) ->
  owns_ok (fupd own k (Some (t, p'))) pl'.
Proof.
  intros [H1 H2] Hs Hp Hp' Hw Ho.
  assert (forall j, j <> k -> ~ worker_place j p) as Hx.
  { destruct Ho as [Ho|[_ Ho]]; [|auto]. intros j Hj Hjp. apply Hj. eapply worker_place_inj; [done|]. by apply (H1 k t). }
  split.
  - intros j u q E. fupd_cases j k; [by injection E as <- <-|]. destruct (H1 j u q E) as [Hu Hq].
    rewrite Hs; [done|]. intros ->. apply (Hx j); [done|]. congruence.
  - intros u j Hu. destruct (decide (u = t)) as [->|Hne].
    + rewrite Hp' in Hu. injection Hu as ->. assert (j = k) as -> by (eapply worker_place_inj; [by left|done]). by rewrite fupd_same.
    + rewrite Hs in Hu by done. specialize (H2 u j Hu). fupd_cases j k; [|done]. destruct Ho as [Ho|[Ho _]]; congruence.
Qed.

(** Worker [k] is done with a task that is no longer in its hands. *)
Lemma owns_drop own pl pl' k t :
  owns_ok own pl -> (forall u, u <> t -> pl' !! u = pl !! u) -> own k = Some (t, PGone k) -> (forall j, pl' !! t <> Some (PHand j)) ->
  owns_ok (fupd own k None) pl'.
Proof.
  intros [H1 H2] Hs Hk Hn. split.
  - intros j u q E. fupd_cases j k; [done|]. destruct (H1 j u q E) as [Hu Hq]. rewrite Hs; [done|]. intros ->.
    destruct (H1 k t _ Hk) as [Hu' _]. rewrite Hu' in Hu. injection Hu as <-. apply n. eapply worker_place_inj; [done|]. by right; right.
  - intros u j Hu. destruct (decide (u = t)) as [->|Hne]; [by apply Hn in Hu|]. rewrite Hs in Hu by done. specialize (H2 u j Hu).
    fupd_cases j k; [congruence|done].
Qed.

(** ** How the invariant moves *)

(** The counters and flags that the queues do not depend on. *)
Record same_queues (s s' : shared) : Prop := {
  sq_queues : queues (pool s') = queues (pool s);
  sq_global : global_queue (pool s') = global_queue (pool s);
  sq_ring : global_ring (pool s') = global_ring (pool s);
  sq_ext : ext_rings (pool s') = ext_rings (pool s)
}.

Lemma store_same n s s' C : store n s C -> same_queues s s' -> tasks s' = tasks s -> store n s' C.
Proof.
  intros [H1 H2 H3 H4 H5 H6 H7 H8 H9] [E1 E2 E3 E4] E5.
  assert (num_workers (pool s') = num_workers (pool s)) as E6 by (unfold num_workers; by rewrite E1).
  split; rewrite ?E1, ?E2, ?E3, ?E4, ?E5, ?E6; auto. intros x t Ht. specialize (H9 x t Ht).
  unfold in_range, has_worker in *. by rewrite E6.
Qed.

(** A task that is in no queue comes or goes. *)
Lemma store_heap n s C t h :
  store n s C -> (forall y, t ∉ C y) -> (forall u, u <> t -> h !! u = tasks s !! u) -> store n (set_tasks h s) C.
Proof.
  intros [H1 H2 H3 H4 H5 H6 H7 H8 H9] Hn Hh. assert (forall y u, u ∈ C y -> h !! u = tasks s !! u) as Hu.
  { intros y u Hu. apply Hh. intros ->. by eapply Hn. }
  split; simpl; try done.
  - intros i q Hq. eapply queue_holds_frame; [|by apply H4]. intros l u Hl. by eapply Hu.
  - eapply queue_holds_frame; [|done]. intros l u Hl. by eapply Hu.
  - intros y u Hy. rewrite (Hu y u) by done. by eapply H8.
Qed.

Lemma same_tasks_heap h h' pl : same_tasks h h' -> heap_ok h pl -> heap_ok h' pl.
Proof.
  intros Hs [H1 H2]. split.
  - intros t. rewrite H1. specialize (Hs t). destruct (h !! t), (h' !! t); done || by split.
  - intros t x Hx. specialize (Hs t). rewrite Hx in Hs. destruct (h !! t) as [y|] eqn:Hy; [|done].
    destruct (H2 t y Hy). rewrite Hs. done.
Qed.

Section moves.
Context {n : nat} {s : shared} {sub : subs} {own : owns} {pl : places} {C : site -> list Z} {acc exe : list Z}.
Hypothesis HI : inv (S n) s sub own pl C acc exe.

Lemma inv_steady s' sub' own' :
  same_queues s s' -> tasks s' = tasks s -> pending_tasks (pool s') = pending_tasks (pool s) ->
  subs_ok sub' pl -> owns_ok own' pl -> inv n s' sub' own' pl C acc exe.
Proof.
  intros Hq Ht Hp Hs Ho. destruct HI as [I1 I2 I3 I4 I5 I6 I7 I8]. split; try done; [|by rewrite Ht|congruence|lia].
  by eapply store_same, Ht; [apply store_mono|].
Qed.

(** The place of [t] changes. *)
Lemma inv_at s' sub' own' pl' C' acc' exe' t :
  (forall u, u <> t -> pl' !! u = pl !! u) -> store n s' C' ->
  (forall u, u <> t -> (exists y, u ∈ C' y) <-> (exists y, u ∈ C y)) -> (pl' !! t = Some PSite <-> exists y, t ∈ C' y) ->
  subs_ok sub' pl' -> owns_ok own' pl' -> heap_ok (tasks s') pl' -> pending_tasks (pool s') = Z.of_nat (count pl') ->
  (size pl' <= S (size pl))%nat -> acc' ≡ₚ exe' ++ waiting pl' -> inv n s' sub' own' pl' C' acc' exe'.
Proof.
  intros Hs Hst Hc Hct Hsub Hown Hheap Hpen Hsz Hlog. destruct HI as [I1 I2 I3 I4 I5 I6 I7 I8].
  split; try done; [|lia]. intros u. destruct (decide (u = t)) as [->|]; [done|]. by rewrite Hs, Hc.
Qed.

Lemma inv_move s' sub' own' C' acc' exe' t p p' :
  pl !! t = Some p -> store n s' C' -> same_tasks (tasks s) (tasks s') ->
  (forall u, u <> t -> (exists y, u ∈ C' y) <-> (exists y, u ∈ C y)) -> (p' = PSite <-> exists y, t ∈ C' y) ->
  subs_ok sub' (<[t := p']> pl) -> owns_ok own' (<[t := p']> pl) ->
  pending_tasks (pool s') = pending_tasks (pool s) + (if counted p' then 1 else 0) - (if counted p then 1 else 0) ->
  acc' ≡ₚ exe' ++ waiting (<[t := p']> pl) -> inv n s' sub' own' (<[t := p']> pl) C' acc' exe'.
Proof.
  intros Hp Hst Hh Hc Hct Hsub Hown Hpen Hlog. destruct HI as [I1 I2 I3 I4 I5 I6 I7 I8].
  apply (inv_at s' sub' own' _ C' acc' exe' t); try done.
  - intros u Hu. by rewrite lookup_insert_ne.
  - rewrite lookup_insert_eq, <- Hct. naive_solver.
  - apply (same_tasks_heap (tasks s)); [done|]. destruct I5 as [Hd Hr]. split; [|done]. intros u. rewrite <- Hd.
    destruct (decide (u = t)) as [->|]; [rewrite lookup_insert_eq, Hp; by split|by rewrite lookup_insert_ne].
  - pose proof (count_change pl t p p' Hp). rewrite Hpen, I6. destruct (counted p), (counted p'); lia.
  - rewrite map_size_insert_Some by (by exists p). lia.
Qed.

(** A task is allocated; the submission [id] fills it in. *)
Lemma inv_new sub' t x id :
  tasks s !! t = None -> 0 < t -> 0 <= t_priority x < 4 -> subs_ok sub' (<[t := PFresh id]> pl) ->
  inv n (set_tasks (<[t := x]> (tasks s)) s) sub' own (<[t := PFresh id]> pl) C acc exe.
Proof.
  intros Hx H0 Hp Hs. destruct HI as [I1 I2 I3 I4 I5 I6 I7 I8]. pose proof I5 as [Hd Hr].
  assert (pl !! t = None) as Hn by (apply eq_None_not_Some; rewrite Hd, Hx; by intros [? ?]).
  assert (forall y, t ∉ C y) as Ht by (intros y Hy; assert (pl !! t = Some PSite) by (apply I2; eauto); congruence).
  apply (inv_at _ sub' own _ C acc exe t); try done.
  - intros u Hu. by rewrite lookup_insert_ne.
  - eapply store_heap; [by apply store_mono|exact Ht|]. intros u Hu. by rewrite lookup_insert_ne.
  - rewrite lookup_insert_eq. split; [done|]. intros [y Hy]. by apply Ht in Hy.
  - apply (owns_stay own pl _ t); [done| | |].
    + intros u Hu. by rewrite lookup_insert_ne.
    + intros k p. by rewrite Hn.
    + intros k p. rewrite lookup_insert_eq. intros [= <-]. unfold worker_place. naive_solver.
  - split; simpl.
    + intros u. destruct (decide (u = t)) as [->|]; [rewrite !lookup_insert_eq; by split|by rewrite !lookup_insert_ne].
    + intros u y. destruct (decide (u = t)) as [->|]; [rewrite lookup_insert_eq; by intros [= <-]|rewrite lookup_insert_ne by done; apply Hr].
  - simpl. rewrite count_insert by done. simpl. rewrite I6. lia.
  - rewrite map_size_insert_None by done. lia.
  - rewrite I8. f_equiv. symmetry. apply (waiting_same pl _ t); [intros u Hu; by rewrite lookup_insert_ne|].
    rewrite !elem_of_waiting, lookup_insert_eq, Hn. naive_solver.
Qed.

(** A task that no longer counts is freed. *)
Lemma inv_free s' sub' own' t p :
  pl !! t = Some p -> counted p = false -> s' = set_tasks (delete t (tasks s)) s ->
  subs_ok sub' (delete t pl) -> owns_ok own' (delete t pl) -> inv n s' sub' own' (delete t pl) C acc exe.
Proof.
  intros Hp Hc -> Hs Ho. destruct HI as [I1 I2 I3 I4 I5 I6 I7 I8]. pose proof I5 as [Hd Hr].
  assert (forall y, t ∉ C y) as Ht.
  { intros y Hy. assert (pl !! t = Some PSite) as E by (apply I2; eauto). rewrite Hp in E. by injection E as ->. }
  apply (inv_at _ sub' own' _ C acc exe t); try done.
  - intros u Hu. by rewrite lookup_delete_ne.
  - eapply store_heap; [by apply store_mono|exact Ht|]. intros u Hu. by rewrite lookup_delete_ne.
  - rewrite lookup_delete_eq. split; [done|]. intros [y Hy]. by apply Ht in Hy.
  - split; simpl.
    + intros u. destruct (decide (u = t)) as [->|]; [rewrite !lookup_delete_eq; by split|by rewrite !lookup_delete_ne].
    + intros u y. rewrite lookup_delete_Some. intros [_ Hy]. by apply Hr.
  - simpl. rewrite I6, (count_delete pl t p Hp), Hc. lia.
  - rewrite map_size_delete_Some by (by exists p). lia.
  - rewrite I8. f_equiv. symmetry. apply (waiting_same pl _ t); [intros u Hu; by rewrite lookup_delete_ne|].
    rewrite !elem_of_waiting, lookup_delete_eq, Hp. split; [naive_solver|]. intros (q & [= <-] & Hq). by destruct p.
Qed.
End moves.

(** ** Futures *)

(** What a submission knows of its future: its address, its counter, and the only task
    that may refer to it. *)
Definition claim (r : request) (pc : submit_pc) : option (Z * Z * option Z) :=
  if is_future r then
    match pc with
    | SAlloc f => Some (f, 1, None)
    | SRef f t => Some (f, 1, Some t)
    | SPending f t | SPush f t | SExt f t | SOverflow f t | SUndo f t | SFree f t => Some (f, 2, Some t)
    | SRelease f (S n) => Some (f, Z.of_nat (S n), None)
    | _ => None
    end
  else None.

Definition claims (sub : subs) (id : sid) (c : Z * Z * option Z) : Prop :=
  exists r pc, sub id = Some (r, pc) /\ claim r pc = Some c.

Definition claim_ok (h : heap) (fs : gmap Z qd_future) (c : Z * Z * option Z) : Prop :=
  0 < c.1.1 /\ c.1.2 < 3 /\ (exists x, fs !! c.1.1 = Some x /\ f_refcount x = c.1.2) /\
  forall t y, h !! t = Some y -> t_future y = c.1.1 -> c.2 = Some t.

Record finv (h : heap) (fs : gmap Z qd_future) (sub : subs) : Prop := {
  fi_live : forall t x, h !! t = Some x -> t_future x <> 0 -> is_Some (fs !! t_future x);
  fi_claims : forall id c, claims sub id c -> claim_ok h fs c;
  fi_apart : forall id id' c c', claims sub id c -> claims sub id' c' -> c.1.1 = c'.1.1 -> id = id'
}.

Lemma claims_upd sub id r pc id' c :
  claims (fupd sub id (Some (r, pc))) id' c -> id' = id /\ claim r pc = Some c \/ id' <> id /\ claims sub id' c.
Proof. intros (r' & pc' & E & Hc). fupd_cases id' id; [injection E as <- <-; by left|]. right. split; [done|by exists r', pc']. Qed.

Lemma finv_same h h' fs sub : same_tasks h h' -> finv h fs sub -> finv h' fs sub.
Proof.
  intros Hs [F1 F2 F3].
  assert (forall t x, h' !! t = Some x -> exists y, h !! t = Some y /\ t_future y = t_future x) as Hb.
  { intros t x Hx. specialize (Hs t). rewrite Hx in Hs. destruct (h !! t) as [y|]; [|done]. exists y. split; [done|]. by rewrite Hs. }
  split; [| |done].
  - intros t x Hx H0. destruct (Hb t x Hx) as (y & Hy & E). rewrite <- E in *. by eapply F1.
  - intros id c Hc. destruct (F2 id c Hc) as (? & ? & ? & Hu). split; [done|]. split; [done|]. split; [done|].
    intros t x Hx E. destruct (Hb t x Hx) as (y & Hy & E'). eapply Hu; [done|congruence].
Qed.

Lemma finv_delete h fs sub t : finv h fs sub -> finv (delete t h) fs sub.
Proof.
  intros [F1 F2 F3]. split; [| |done].
  - intros u x [_ Hx]%lookup_delete_Some. by eapply F1.
  - intros id c Hc. destruct (F2 id c Hc) as (? & ? & ? & Hu). split; [done|]. split; [done|]. split; [done|].
    intros u y [_ Hy]%lookup_delete_Some. by apply Hu.
Qed.

(** Stores to the states of futures. *)
Lemma finv_state h fs sub st f fs' : set_state st f fs = Ok fs' -> finv h fs sub -> finv h fs' sub.
Proof.
  unfold set_state. destruct (fs !! f) as [x|] eqn:Hx; [|done]. intros [= <-] [F1 F2 F3].
  split; [| |done].
  - intros t y Hy H0. specialize (F1 t y Hy H0). destruct (decide (t_future y = f)) as [->|]; [by rewrite lookup_insert_eq|by rewrite lookup_insert_ne].
  - intros id c Hc. destruct (F2 id c Hc) as (? & ? & (z & Hz & Er) & Hu). split; [done|]. split; [done|]. split; [|done].
    destruct (decide (c.1.1 = f)) as [<-|]; [|exists z; by rewrite lookup_insert_ne].
    rewrite lookup_insert_eq. eexists. split; [done|]. simpl. congruence.
Qed.

Section submission.
Context {h : heap} {fs : gmap Z qd_future} {sub : subs} (id : sid) (r : request) (pc : submit_pc).
Hypothesis HF : finv h fs sub.
Hypothesis Hid : sub id = Some (r, pc).

Lemma finv_pc pc' : claim r pc' = claim r pc \/ claim r pc' = None -> finv h fs (fupd sub id (Some (r, pc'))).
Proof.
  intros Hc. destruct HF as [F1 F2 F3].
  assert (forall id' c, claims (fupd sub id (Some (r, pc'))) id' c -> claims sub id' c) as Hk.
  { intros id' c [[-> E]|[_ ?]]%claims_upd; [|done]. exists r, pc. split; [done|]. destruct Hc; congruence. }
  split; [done|eauto|eauto].
Qed.

(** A change of the heap and of the future that only this submission can notice. *)
Lemma finv_own h' fs' pc' f n o :
  claim r pc' = Some (f, n, o) -> claim_ok h' fs' (f, n, o) ->
  (forall t x, h' !! t = Some x -> t_future x <> 0 -> is_Some (fs' !! t_future x)) ->
  (forall id' c, id' <> id -> claims sub id' c -> claim_ok h' fs' c /\ c.1.1 <> f) ->
  finv h' fs' (fupd sub id (Some (r, pc'))).
Proof.
  intros Hc Hok Hlive Ho. destruct HF as [F1 F2 F3]. split; [done| |].
  - intros id' c [[-> E]|[Hne Hcl]]%claims_upd; [congruence|]. by apply (Ho id').
  - intros i j c c' [[-> E]|[Hi Hci]]%claims_upd [[-> E']|[Hj Hcj]]%claims_upd; [done| | |by eapply F3].
    + intros E2. destruct (Ho j c' Hj Hcj) as [_ []]. rewrite <- E2. rewrite Hc in E. by injection E as <-.
    + intros E2. destruct (Ho i c Hi Hci) as [_ []]. rewrite E2. rewrite Hc in E'. by injection E' as <-.
Qed.

(** The claim of another submission, when the future [f] changes and no task gets it. *)
Lemma claim_frame h' fs' c f :
  claim_ok h fs c -> c.1.1 <> f -> (forall g, g <> f -> fs' !! g = fs !! g) ->
  (forall t x, h' !! t = Some x -> h !! t = Some x \/ t_future x = f \/ t_future x = 0) -> claim_ok h' fs' c.
Proof.
  intros (H0 & H3 & (x & Hx & Er) & Hu) Hne Hfs Hh. split; [done|]. split; [done|]. split.
  - exists x. by rewrite Hfs.
  - intros t y Hy E. destruct (Hh t y Hy) as [?|[?|?]]; [by eapply Hu|congruence|lia].
Qed.

Lemma finv_new f pc' :
  fs !! f = None -> 0 < f -> claim r pc' = Some (f, 1, None) -> finv h (<[f := future_create]> fs) (fupd sub id (Some (r, pc'))).
Proof.
  intros Hf H0 Hc. pose proof HF as [F1 F2 F3].
  assert (forall t x, h !! t = Some x -> t_future x <> f) as Hno.
  { intros t x Hx E. destruct (F1 t x Hx ltac:(lia)) as [y Hy]. congruence. }
  eapply finv_own; [exact Hc| | |].
  - split; [done|]. split; [simpl; lia|]. split; [exists future_create; by rewrite lookup_insert_eq|].
    intros t y Hy E. by apply Hno in Hy.
  - intros t x Hx Hn. rewrite lookup_insert_ne by (intros E; by eapply Hno). by eapply F1.
  - intros id' c Hne Hcl. assert (c.1.1 <> f) as Hcf.
    { intros E. destruct (F2 id' c Hcl) as (_ & _ & (x & Hx & _) & _). congruence. }
    split; [|done]. eapply claim_frame; [by eapply F2|exact Hcf| |by left]. intros g Hg. by rewrite lookup_insert_ne.
Qed.

Lemma other_claim f n o id' c : claim r pc = Some (f, n, o) -> id' <> id -> claims sub id' c -> c.1.1 <> f.
Proof.
  intros Hc Hne Hcl E. apply Hne. pose proof HF as [_ _ F3]. apply (F3 id' id c (f, n, o)); [done| |done]. by exists r, pc.
Qed.

Lemma finv_task f t x pc' :
  h !! t = None -> claim r pc = Some (f, 1, None) -> claim r pc' = Some (f, 1, Some t) -> t_future x = f ->
  finv (<[t := x]> h) fs (fupd sub id (Some (r, pc'))).
Proof.
  intros Ht Hc Hc' Hx. pose proof HF as [F1 F2 F3].
  destruct (F2 id (f, 1, None) ltac:(by exists r, pc)) as (H0 & _ & (z & Hz & Er) & Hu). simpl in *.
  eapply finv_own; [exact Hc'| | |].
  - split; [done|]. split; [simpl; lia|]. split; [by exists z|]. simpl. intros u y. destruct (decide (u = t)) as [->|]; [done|].
    rewrite lookup_insert_ne by done. intros Hy E. by specialize (Hu u y Hy E).
  - intros u y. destruct (decide (u = t)) as [->|]; [rewrite lookup_insert_eq|rewrite lookup_insert_ne by done; apply F1].
    intros [= <-] _. rewrite Hx. by exists z.
  - intros id' c Hne Hcl. split; [|by eapply other_claim]. eapply claim_frame; [by eapply F2|by eapply other_claim|done|].
    intros u y. destruct (decide (u = t)) as [->|]; [rewrite lookup_insert_eq; intros [= <-]; by right; left|].
    rewrite lookup_insert_ne by done. by left.
Qed.

(** A task without a future. *)
Lemma finv_plain t x pc' :
  h !! t = None -> t_future x = 0 -> is_future r = false -> finv (<[t := x]> h) fs (fupd sub id (Some (r, pc'))).
Proof.
  intros Ht Hx Hr. pose proof (finv_pc pc' ltac:(unfold claim; rewrite Hr; by left)) as [F1 F2 F3]. split; [| |done].
  - intros u y. destruct (decide (u = t)) as [->|]; [rewrite lookup_insert_eq; by intros [= <-]|rewrite lookup_insert_ne by done; apply F1].
  - intros id' c Hcl. eapply (claim_frame _ _ _ 0); [by eapply F2| |done|].
    + destruct (F2 id' c Hcl) as (? & _). lia.
    + intros u y. destruct (decide (u = t)) as [->|]; [rewrite lookup_insert_eq; intros [= <-]; by right; left|].
      rewrite lookup_insert_ne by done. by left.
Qed.

Lemma finv_ref f t pc' :
  claim r pc = Some (f, 1, Some t) -> claim r pc' = Some (f, 2, Some t) ->
  exists fs', add_ref 1 f fs = Ok fs' /\ finv h fs' (fupd sub id (Some (r, pc'))).
Proof.
  intros Hc Hc'. pose proof HF as [F1 F2 F3].
  destruct (F2 id (f, 1, Some t) ltac:(by exists r, pc)) as (H0 & _ & (z & Hz & Er) & Hu). simpl in *.
  unfold add_ref. rewrite Hz. eexists. split; [done|]. eapply finv_own; [exact Hc'| | |].
  - split; [done|]. split; [simpl; lia|]. split; [|done]. simpl. rewrite lookup_insert_eq. eexists. split; [done|]. simpl. by rewrite Er.
  - intros u y Hy Hn. specialize (F1 u y Hy Hn). destruct (decide (t_future y = f)) as [->|]; [by rewrite lookup_insert_eq|by rewrite lookup_insert_ne].
  - intros id' c Hne Hcl. split; [|by eapply other_claim]. eapply claim_frame; [by eapply F2|by eapply other_claim| |by left].
    intros g Hg. by rewrite lookup_insert_ne.
Qed.

(** The task of a submission that failed is gone. *)
Lemma finv_undo f t pc' :
  claim r pc = Some (f, 2, Some t) -> claim r pc' = Some (f, 2, None) -> finv (delete t h) fs (fupd sub id (Some (r, pc'))).
Proof.
  intros Hc Hc'. pose proof HF as [F1 F2 F3].
  destruct (F2 id (f, 2, Some t) ltac:(by exists r, pc)) as (H0 & _ & Hz & Hu). simpl in *.
  eapply finv_own; [exact Hc'| | |].
  - split; [done|]. split; [simpl; lia|]. split; [done|]. simpl. intros u y [Hne Hy]%lookup_delete_Some E. specialize (Hu u y Hy E). congruence.
  - intros u y [_ Hy]%lookup_delete_Some. by apply F1 with u.
  - intros id' c Hne Hcl. split; [|by eapply other_claim]. eapply claim_frame; [by eapply F2|by eapply other_claim|done|].
    intros u y [_ Hy]%lookup_delete_Some. by left.
Qed.

Lemma finv_release f n pc' :
  claim r pc = Some (f, Z.of_nat (S n), None) -> claim r pc' = (if n is O then None else Some (f, Z.of_nat n, None)) ->
  exists fs', qd_future_release f fs = Ok fs' /\ finv h fs' (fupd sub id (Some (r, pc'))).
Proof.
  intros Hc Hc'. pose proof HF as [F1 F2 F3].
  destruct (F2 id _ ltac:(by exists r, pc)) as (H0 & H3 & (z & Hz & Er) & Hu). cbn [fst snd] in *.
  assert (forall t x, h !! t = Some x -> t_future x <> f) as Hno by (intros t x Hx E; by specialize (Hu t x Hx E)).
  assert (forall fs', (forall g, g <> f -> fs' !! g = fs !! g) ->
     (forall t x, h !! t = Some x -> t_future x <> 0 -> is_Some (fs' !! t_future x)) /\
     (forall id' c, id' <> id -> claims sub id' c -> claim_ok h fs' c /\ c.1.1 <> f)) as Hother.
  { intros fs' Hfs. split.
    - intros t x Hx Hn. rewrite Hfs by (by eapply Hno). by eapply F1.
    - intros id' c Hne Hcl. split; [|by eapply other_claim]. eapply claim_frame; [by eapply F2|by eapply other_claim|done|by left]. }
  unfold qd_future_release, add_ref. destruct (Z.eqb_spec f 0); [lia|]. rewrite Hz. cbn [obind]. eexists. split; [done|].
  destruct n as [|n]; cbn [Z.of_nat] in *.
  - rewrite Er. cbn [Z.eqb]. destruct (Hother (delete f (<[f := mkFuture (f_state z) (f_result z) (f_error z) (i32 (f_refcount z + -1))]> fs))) as [Hl Ho].
    { intros g Hg. by rewrite lookup_delete_ne, lookup_insert_ne. }
    rewrite Er in Hl, Ho. split; [done| |].
    + intros id' c [[-> E]|[Hne Hcl]]%claims_upd; [congruence|]. by apply (Ho id').
    + intros i j c c' [[-> E]|[Hi Hci]]%claims_upd [[-> E']|[Hj Hcj]]%claims_upd; [congruence..|by eapply F3].
  - assert (n = 0)%nat as -> by lia. rewrite Er. cbn [Z.eqb Pos.eqb].
    destruct (Hother (<[f := mkFuture (f_state z) (f_result z) (f_error z) (i32 (f_refcount z + -1))]> fs)) as [Hl Ho].
    { intros g Hg. by rewrite lookup_insert_ne. }
    rewrite Er in Hl, Ho. eapply finv_own; [exact Hc'| |exact Hl|exact Ho].
    split; [done|]. split; [simpl; lia|]. split.
    + simpl. rewrite lookup_insert_eq. eexists. by split.
    + simpl. intros t y Hy E. by apply Hno in Hy.
Qed.
End submission.

(** ** Submission *)

Record good (n : nat) (s : shared) (sub : subs) (own : owns) (pl : places) (C : site -> list Z) (acc exe : list Z) : Prop := {
  gd_inv : inv n s sub own pl C acc exe;
  gd_futures : finv (tasks s) (futures s) sub;
  gd_workers : (0 < num_workers (pool s))%nat
}.

Lemma waiting_idle pl t p p' : pl !! t = Some p -> waits p = waits p' -> waiting (<[t := p']> pl) ≡ₚ waiting pl.
Proof.
  intros Hp Hw. apply (waiting_same pl _ t); [intros u Hu; by rewrite lookup_insert_ne|].
  rewrite !elem_of_waiting, lookup_insert_eq, Hp. split; intros (q & [= <-] & Hq); eexists; (split; [done|congruence]).
Qed.

Section submit.
Context {n : nat} {s : shared} {sub : subs} {own : owns} {pl : places} {C : site -> list Z} {acc exe : list Z}.
Context (id : sid) (r : request) (pc : submit_pc) (me : option nat) (mem : luck).
Hypothesis HG : good (S n) s sub own pl C acc exe.
Hypothesis Hid : sub id = Some (r, pc).

Let HI := gd_inv _ _ _ _ _ _ _ _ HG.

(** What a step of a submission does to the invariant. *)
Definition submits : Prop :=
  exists pc' s' pl' C', submit_step me mem r pc s = Ok (pc', s') /\
    good n s' (fupd sub id (Some (r, pc'))) own pl' C' (acc ++ enqueued pc pc') exe /\ num_workers (pool s') = num_workers (pool s).

Lemma submit_legal : legal r pc = true.
Proof. by destruct (iv_subs _ _ _ _ _ _ _ _ HI id r pc Hid). Qed.

Lemma submit_place t p : sub_task id pc = Some (t, p) -> pl !! t = Some p.
Proof. intros. by eapply (iv_subs _ _ _ _ _ _ _ _ HI id r pc Hid). Qed.

Lemma submit_stays pc' : legal r pc' = true -> sub_task id pc' = None \/ sub_task id pc' = sub_task id pc -> subs_ok (fupd sub id (Some (r, pc'))) pl.
Proof.
  intros Hl Hc id' r' pc'' E. fupd_cases id' id.
  - injection E as <- <-. split; [done|]. intros t p Ht. apply submit_place. destruct Hc; congruence.
  - by apply (iv_subs _ _ _ _ _ _ _ _ HI).
Qed.

Lemma submit_moves pc' t p p' :
  legal r pc' = true -> pl !! t = Some p -> owned_by id p -> sub_task id pc' = None \/ sub_task id pc' = Some (t, p') ->
  subs_ok (fupd sub id (Some (r, pc'))) (<[t := p']> pl).
Proof.
  intros Hl Hp Ho Hc. apply (subs_move pl _ t).
  - intros u Hu. by rewrite lookup_insert_ne.
  - apply (iv_subs _ _ _ _ _ _ _ _ HI).
  - done.
  - eapply sub_excludes; [apply (iv_subs _ _ _ _ _ _ _ _ HI)|done|done].
  - intros u q Hu. destruct Hc as [Hc|Hc]; [congruence|]. rewrite Hc in Hu. injection Hu as <- <-. by rewrite lookup_insert_eq.
Qed.

Lemma owned_not_worker p k : owned_by id p -> ~ worker_place k p.
Proof. unfold owned_by, worker_place. naive_solver. Qed.

Lemma submit_owns t p p' : pl !! t = Some p -> owned_by id p -> (forall k, ~ worker_place k p') -> owns_ok own (<[t := p']> pl).
Proof.
  intros Hp Ho Hn. apply (owns_stay own pl _ t); [apply (iv_owns _ _ _ _ _ _ _ _ HI)| | |].
  - intros u Hu. by rewrite lookup_insert_ne.
  - intros k q. rewrite Hp. intros [= <-]. by apply owned_not_worker.
  - intros k q. rewrite lookup_insert_eq. intros [= <-]. apply Hn.
Qed.

Lemma submit_not_queued t p : pl !! t = Some p -> owned_by id p -> forall y, t ∉ C y.
Proof.
  intros Hp Ho y Hy. assert (pl !! t = Some PSite) as E by (apply (iv_sites _ _ _ _ _ _ _ _ HI); eauto).
  unfold owned_by in Ho. naive_solver.
Qed.

(** Steps that leave the places. *)
Lemma submit_quiet pc' s' :
  submit_step me mem r pc s = Ok (pc', s') -> legal r pc' = true -> same_queues s s' -> tasks s' = tasks s ->
  pending_tasks (pool s') = pending_tasks (pool s) -> sub_task id pc' = None \/ sub_task id pc' = sub_task id pc ->
  enqueued pc pc' = [] -> finv (tasks s) (futures s') (fupd sub id (Some (r, pc'))) -> submits.
Proof.
  intros E Hl Hq Ht Hp Hc He HF. assert (num_workers (pool s') = num_workers (pool s)) as Hn by (unfold num_workers; by rewrite (sq_queues _ _ Hq)).
  exists pc', s', pl, C. split; [done|]. split; [|done]. rewrite He, app_nil_r. split; [|by rewrite Ht|rewrite Hn; apply HG].
  apply (inv_steady HI); try done; [by apply submit_stays|apply (iv_owns _ _ _ _ _ _ _ _ HI)].
Qed.

(** The counter of waiting tasks goes up or down with the place. *)
Lemma submit_counts pc' t p p' z :
  legal r pc' = true ->
  submit_step me mem r pc s = Ok (pc', on_pool (set_pending (i32 z)) s) -> z = pending_tasks (pool s) + (if counted p' then 1 else 0) - (if counted p then 1 else 0) ->
  pl !! t = Some p -> owned_by id p -> owned_by id p' -> sub_task id pc' = Some (t, p') -> enqueued pc pc' = [] -> claim r pc' = claim r pc -> submits.
Proof.
  intros Hl E Hz Hp Ho Ho' Hc He Hcl. exists pc', (on_pool (set_pending (i32 z)) s), (<[t := p']> pl), C. split; [done|]. split; [|done].
  assert (i32 z = z) as Ez.
  { pose proof (iv_pending _ _ _ _ _ _ _ _ HI). pose proof (iv_small _ _ _ _ _ _ _ _ HI). pose proof (count_size pl).
    apply i32_small. destruct (counted p), (counted p'); lia. }
  rewrite He, app_nil_r. split; [|eapply finv_pc; [apply HG|exact Hid|by left]|apply HG].
  eapply (inv_move HI); try done.
  - eapply store_same; [apply store_mono, (iv_store _ _ _ _ _ _ _ _ HI)|by split|done].
  - apply same_tasks_refl.
  - split; [intros ->; unfold owned_by in Ho'; naive_solver|]. intros [y Hy]. by eapply submit_not_queued in Hy.
  - eapply submit_moves; [done|done|done|by right].
  - eapply submit_owns; [done|done|]. intros k. by apply owned_not_worker.
  - simpl. by rewrite Ez.
  - rewrite (waiting_idle pl t p p' Hp); [apply (iv_logs _ _ _ _ _ _ _ _ HI)|]. unfold owned_by in *. naive_solver.
Qed.

(** An attempt to put the task into a queue. *)
Lemma submit_put (ok : shared -> Prop) op `{!Puts ok op} s1 t f pc_no :
  same_queues s s1 -> tasks s1 = tasks s -> futures s1 = futures s -> pending_tasks (pool s1) = pending_tasks (pool s) -> ok s1 ->
  submit_step me mem r pc s = (let! (code, s') := op t s1 in Ok (if code =? 0 then STotal f t else pc_no, s')) -> legal r pc_no = true ->
  sub_task id pc = Some (t, PSub id) -> sub_task id pc_no = Some (t, PSub id) ->
  enqueued pc (STotal f t) = [t] -> enqueued pc pc_no = [] -> claim r pc_no = claim r pc -> submits.
Proof.
  intros Hq Et Ef Ep Hok E Hl Ht Hno Ey En Hcl. pose proof (submit_place _ _ Ht) as Hp. assert (owned_by id (PSub id)) as Ho by (right; by left).
  assert (num_workers (pool s1) = num_workers (pool s)) as Hn1 by (unfold num_workers; by rewrite (sq_queues _ _ Hq)).
  pose proof (iv_heap _ _ _ _ _ _ _ _ HI) as [Hd Hr]. destruct (proj1 (Hd t) ltac:(by exists (PSub id))) as [x Hx]. destruct (Hr t x Hx).
  destruct (puts_ok n s1 C t x) as (code & s' & C' & Eop & Hst & [R1 R2 R3 R4] & Hc); try done; [|by rewrite Et|lia|by eapply submit_not_queued|].
  { eapply store_same; [apply (iv_store _ _ _ _ _ _ _ _ HI)|done|done]. }
  rewrite Eop in E. cbn [obind] in E. rewrite Et in R4. destruct Hc as [[-> [y Ha]]|[Hc ->]].
  - exists (STotal f t), s', (<[t := PSite]> pl), C'. split; [done|]. split; [|congruence]. rewrite Ey. split; [| |rewrite R2, Hn1; apply HG].
    + eapply (inv_move HI); try done.
      * intros u Hu. split; intros [z Hz]; exists z; [apply Ha in Hz as [?|[_ ?]]; done|apply Ha; by left].
      * split; [|done]. intros _. exists y. apply Ha. by right.
      * eapply submit_moves; [|done|done|by left]. pose proof submit_legal as Hl'. unfold legal in *. by apply andb_prop in Hl' as [-> _].
      * eapply submit_owns; [done|done|]. unfold worker_place. naive_solver.
      * rewrite R1, Ep. simpl. lia.
      * rewrite (waiting_add pl _ t).
        -- rewrite (iv_logs _ _ _ _ _ _ _ _ HI). rewrite <- app_assoc. f_equiv. by rewrite Permutation_app_comm.
        -- intros u Hu. by rewrite lookup_insert_ne.
        -- apply elem_of_waiting. rewrite lookup_insert_eq. by exists PSite.
        -- rewrite elem_of_waiting, Hp. naive_solver.
    + rewrite R3, Ef. eapply finv_same; [done|]. eapply finv_pc; [apply HG|exact Hid|]. right. unfold claim. by destruct (is_future r).
  - destruct (Z.eqb_spec code 0); [done|]. exists pc_no, s', pl, C. split; [done|]. split; [|congruence]. rewrite En, app_nil_r.
    split; [| |rewrite R2, Hn1; apply HG].
    + destruct HI as [I1 I2 I3 I4 I5 I6 I7 I8]. split; try done; [|by eapply same_tasks_heap|congruence|lia].
      apply submit_stays; [done|]. right. congruence.
    + rewrite R3, Ef. eapply finv_same; [done|]. eapply finv_pc; [apply HG|exact Hid|by left].
Qed.
End submit.

Lemma same_queues_refl s : same_queues s s.
Proof. by split. Qed.
#[export] Hint Resolve same_queues_refl same_tasks_refl : qd.

Lemma own_worker_has me s k : own_worker me (pool s) = Some k -> has_worker k s.
Proof. unfold own_worker, has_worker. destruct me as [w|]; [|done]. destruct (Nat.ltb_spec w (num_workers (pool s))); [by intros [= <-]|done]. Qed.

Section submit_steps.
Context {n : nat} {s : shared} {sub : subs} {own : owns} {pl : places} {C : site -> list Z} {acc exe : list Z}.
Context (id : sid) (r : request) (me : option nat) (mem : luck).
Hypothesis HG : good (S n) s sub own pl C acc exe.
Hypothesis Hme : forall k, me = Some k -> has_worker k s.

Let HI := gd_inv _ _ _ _ _ _ _ _ HG.
Let HF := gd_futures _ _ _ _ _ _ _ _ HG.

Abbreviation submits_at pc := (submits (n := n) (s := s) (sub := sub) (own := own) (acc := acc) (exe := exe) id r pc me mem).

(** Steps that only move the program counter. *)
Lemma submit_goto pc pc' :
  sub id = Some (r, pc) -> submit_step me mem r pc s = Ok (pc', s) -> legal r pc' = true -> sub_task id pc' = None \/ sub_task id pc' = sub_task id pc ->
  claim r pc' = claim r pc \/ claim r pc' = None -> enqueued pc pc' = [] -> submits_at pc.
Proof. intros Hid E Hl Ht Hc He. eapply submit_quiet; eauto with qd. by eapply finv_pc. Qed.

Lemma legal_request pc : legal r pc = true -> request_ok r = true.
Proof. unfold legal. by intros [? _]%andb_prop. Qed.

Lemma legal_future pc : legal r pc = true -> match pc with SNewFuture | SRef _ _ | SRelease _ _ => is_future r = true | _ => True end.
Proof. unfold legal. intros [_ H]%andb_prop. by destruct pc. Qed.

Lemma legal_plain pc : request_ok r = true -> match pc with SNewFuture | SRef _ _ | SRelease _ _ => is_future r = true | _ => True end -> legal r pc = true.
Proof. unfold legal. intros -> H. by destruct pc. Qed.

Lemma submit_start : sub id = Some (r, SStart) -> submits_at SStart.
Proof.
  intros Hid. pose proof (legal_request _ (submit_legal id r _ HG Hid)) as Hl.
  assert (exists pc', submit_step me mem r SStart s = Ok (pc', s) /\ sub_task id pc' = None /\
    claim r pc' = None /\ enqueued SStart pc' = [] /\ legal r pc' = true) as (pc' & E & Ht & Hc & He & Hl').
  { unfold submit_step, failed, claim. destruct (is_future r) eqn:Er; destruct (_ =? 0); [|destruct (negb _)| |destruct (negb _)];
      eexists; (split; [done|]); rewrite ?Er; eauto using legal_plain. }
  eapply submit_goto; eauto.
Qed.

Lemma mem_cases : l_mem mem = None \/ exists a, l_mem mem = Some a.
Proof. destruct (l_mem mem); eauto. Qed.

Lemma submit_new_future : sub id = Some (r, SNewFuture) -> submits_at SNewFuture.
Proof.
  intros Hid. pose proof (submit_legal id r _ HG Hid) as Hl. pose proof (legal_future _ Hl) as Hr. simpl in Hr.
  destruct mem_cases as [Em|[f Em]].
  - apply (submit_goto _ (SReturn 0) Hid); [simpl; by rewrite Em|by apply legal_plain; [apply (legal_request SNewFuture)|]|by left| |done].
    right. unfold claim. by destruct (is_future r).
  - destruct ((f <=? 0) || bool_decide (is_Some (futures s !! f))) eqn:E.
    + eapply (submit_goto _ SNewFuture); auto. unfold submit_step. rewrite Em. by rewrite E.
    + pose proof E as [E1 E2]%orb_false_iff. apply (submit_quiet id r SNewFuture me mem HG Hid (SAlloc f) (set_futures (<[f := future_create]> (futures s)) s)); auto.
      * unfold submit_step. rewrite Em. rewrite E. reflexivity.
      * by apply legal_plain; [apply (legal_request SNewFuture)|].
      * by split.
      * simpl. apply finv_new; [apply HF| |lia|unfold claim; by rewrite Hr].
        apply bool_decide_eq_false in E2. by apply eq_None_not_Some.
Qed.

Lemma request_task_priority f : t_priority (request_task r f) = request_priority r.
Proof. by destruct r. Qed.

Lemma submit_alloc f : sub id = Some (r, SAlloc f) -> submits_at (SAlloc f).
Proof.
  intros Hid. pose proof (legal_request _ (submit_legal id r _ HG Hid)) as Hl. destruct mem_cases as [Em|[t Em]].
  - destruct (is_future r) eqn:Er.
    + apply (submit_goto _ (SRelease f 1) Hid); [simpl; by rewrite Em, Er|by eapply legal_plain|by left| |done]. unfold claim. rewrite Er. by left.
    + apply (submit_goto _ (SReturn QD_ERR_NOMEM) Hid); [simpl; by rewrite Em, Er|by eapply legal_plain|by left| |done]. unfold claim. rewrite Er. by left.
  - destruct ((t <=? 0) || bool_decide (is_Some (tasks s !! t))) eqn:E.
    + eapply (submit_goto _ (SAlloc f)); auto; [|by eapply legal_plain]. unfold submit_step. rewrite Em. by rewrite E.
    + pose proof E as [E1 E2]%orb_false_iff. apply bool_decide_eq_false, eq_None_not_Some in E2.
      assert (pl !! t = None) as Hpl.
      { apply eq_None_not_Some. rewrite (proj1 (iv_heap _ _ _ _ _ _ _ _ HI)), E2. by intros [? ?]. }
      set (pc' := if is_future r then SRef f t else SPending f t).
      assert (sub_task id pc' = Some (t, PFresh id)) as Ht' by (unfold pc'; by destruct (is_future r)).
      assert (legal r pc' = true) as Hl' by (unfold pc'; destruct (is_future r) eqn:Er; by eapply legal_plain).
      exists pc', (set_tasks (<[t := request_task r f]> (tasks s)) s), (<[t := PFresh id]> pl), C. split; [|split; [|done]].
      { unfold submit_step. rewrite Em, E. reflexivity. }
      replace (enqueued (SAlloc f) pc') with (@nil Z) by (unfold pc'; by destruct (is_future r)). rewrite app_nil_r.
      split; [|simpl|apply HG].
      * unfold request_ok in Hl. apply (inv_new HI); [done|lia|rewrite request_task_priority; lia|]. apply (subs_move pl _ t); auto.
        -- intros u Hu. by rewrite lookup_insert_ne.
        -- apply (iv_subs _ _ _ _ _ _ _ _ HI).
        -- intros id' q (r' & pc'' & Es & Hc) _. destruct (iv_subs _ _ _ _ _ _ _ _ HI id' r' pc'' Es) as [_ Hs]. by rewrite (Hs t q Hc) in Hpl.
        -- intros u p. rewrite Ht'. intros [= <- <-]. by rewrite lookup_insert_eq.
      * unfold pc'. destruct (is_future r) eqn:Er.
        -- apply finv_task with (pc := SAlloc f) (f := f); auto; unfold claim; rewrite ?Er; try done. by destruct r.
        -- apply finv_plain with (pc := SAlloc f); auto. by destruct r.
Qed.

(** The other points of the code. *)
Lemma legal_same pc pc' :
  sub id = Some (r, pc) -> match pc' with SNewFuture | SRef _ _ | SRelease _ _ => is_future r = true | _ => True end -> legal r pc' = true.
Proof. intros Hid Hp. apply legal_plain; [|done]. apply (legal_request pc). by eapply submit_legal. Qed.

Lemma claim_none pc : match pc with STotal _ _ | SWake _ | SReturn _ | SRelease _ O => True | _ => False end -> claim r pc = None.
Proof. unfold claim. destruct (is_future r), pc as [| | | | | | | | | |? []| | |]; done. Qed.

Lemma claim_two pc pc' :
  match pc, pc' with
  | SPending f t, SPush f' t' | SPush f t, SUndo f' t' | SPush f t, SExt f' t' | SExt f t, SOverflow f' t'
  | SOverflow f t, SUndo f' t' | SUndo f t, SFree f' t' => f = f' /\ t = t'
  | _, _ => False
  end -> claim r pc' = claim r pc.
Proof. unfold claim. destruct (is_future r); [|done]. destruct pc, pc'; try done; by intros [-> ->]. Qed.

Lemma submit_ref f t : sub id = Some (r, SRef f t) -> submits_at (SRef f t).
Proof.
  intros Hid. pose proof (legal_future _ (submit_legal id r _ HG Hid)) as Hr. simpl in Hr.
  destruct (finv_ref id r (SRef f t) HF Hid f t (SPending f t)) as (fs' & E & HF'); [unfold claim; by rewrite Hr..|].
  apply (submit_quiet id r (SRef f t) me mem HG Hid (SPending f t) (set_futures fs' s)); auto; [simpl; by rewrite E|by eapply legal_same|by split].
Qed.

Lemma submit_pending f t : sub id = Some (r, SPending f t) -> submits_at (SPending f t).
Proof.
  intros Hid. eapply (submit_counts id r (SPending f t) me mem HG Hid (SPush f t) t (PFresh id) (PSub id)); try done.
  - by eapply legal_same.
  - simpl. lia.
  - by eapply (submit_place id r _ HG Hid).
  - by left.
  - right. by left.
Qed.

Lemma submit_undo f t : sub id = Some (r, SUndo f t) -> submits_at (SUndo f t).
Proof.
  intros Hid. eapply (submit_counts id r (SUndo f t) me mem HG Hid (SFree f t) t (PSub id) (PDead id)); try done.
  - by eapply legal_same.
  - simpl. lia.
  - by eapply (submit_place id r _ HG Hid).
  - right. by left.
  - right. by right.
Qed.

Ltac put_tac Hid := first [done | by eapply legal_same | by apply claim_two | by split].

Lemma submit_push f t : sub id = Some (r, SPush f t) -> submits_at (SPush f t).
Proof.
  intros Hid. destruct (own_worker me (pool s)) as [k|] eqn:Em.
  - eapply (submit_put id r (SPush f t) me mem HG Hid (has_worker k) (fun t => push_queue (l_busy mem) k t (request_priority r =? QD_PRIORITY_NORMAL)) s t f (SUndo f t)); try put_tac Hid.
    + by eapply own_worker_has.
    + simpl. by rewrite Em.
  - destruct (request_priority r =? QD_PRIORITY_NORMAL) eqn:Ep.
    + eapply (submit_put id r (SPush f t) me mem HG Hid always (push_global_ring (l_busy mem)) s t f (SExt f t)); try put_tac Hid. simpl. by rewrite Em, Ep.
    + eapply (submit_put id r (SPush f t) me mem HG Hid always push_global_queue s t f (SUndo f t)); try put_tac Hid. simpl. by rewrite Em, Ep.
Qed.

Lemma submit_ext f t : sub id = Some (r, SExt f t) -> submits_at (SExt f t).
Proof.
  intros Hid. set (idx := Z.to_nat (rr_index (pool s) mod Z.of_nat (num_workers (pool s)))).
  eapply (submit_put id r (SExt f t) me mem HG Hid (has_worker idx) (push_ext_ring (l_busy mem) idx)
    (on_pool (set_rr_index (u32 (rr_index (pool s) + 1))) s) t f (SOverflow f t)); try put_tac Hid.
  pose proof (gd_workers _ _ _ _ _ _ _ _ HG). unfold has_worker. simpl. unfold idx, num_workers in *. simpl.
  pose proof (Z.mod_pos_bound (rr_index (pool s)) (Z.of_nat (length (queues (pool s)))) ltac:(lia)). lia.
Qed.

Lemma submit_overflow f t : sub id = Some (r, SOverflow f t) -> submits_at (SOverflow f t).
Proof.
  intros Hid. eapply (submit_put id r (SOverflow f t) me mem HG Hid always push_global_queue s t f (SUndo f t)); put_tac Hid.
Qed.

Lemma submit_free f t : sub id = Some (r, SFree f t) -> submits_at (SFree f t).
Proof.
  intros Hid. pose proof (submit_place id r _ HG Hid t _ eq_refl) as Hp.
  destruct (proj1 (proj1 (iv_heap _ _ _ _ _ _ _ _ HI) t) ltac:(by eexists)) as [x Hx].
  set (pc' := if is_future r then SRelease f 2 else SReturn QD_ERR_BUSY).
  exists pc', (set_tasks (delete t (tasks s)) s), (delete t pl), C. split; [|split; [|done]].
  { simpl. unfold qd_task_free, read_task. by rewrite Hx. }
  replace (enqueued (SFree f t) pc') with (@nil Z) by (unfold pc'; by destruct (is_future r)). rewrite app_nil_r.
  assert (forall u, u <> t -> delete t pl !! u = pl !! u) as Hsame by (intros u Hu; by rewrite lookup_delete_ne).
  split; [|simpl|apply HG].
  - apply (inv_free HI _ _ _ t (PDead id)); auto.
    + apply (subs_move pl _ t); auto; [apply (iv_subs _ _ _ _ _ _ _ _ HI)| | |].
      * unfold pc'. destruct (is_future r) eqn:Er; by eapply legal_same.
      * eapply sub_excludes; [apply (iv_subs _ _ _ _ _ _ _ _ HI)|done|]. right. by right.
      * intros u p. unfold pc'. by destruct (is_future r).
    + apply (owns_stay own pl _ t); auto; [apply (iv_owns _ _ _ _ _ _ _ _ HI)| |].
      * intros k p. rewrite Hp. intros [= <-]. apply (owned_not_worker id). right. by right.
      * intros k p. by rewrite lookup_delete_eq.
  - unfold pc'. destruct (is_future r) eqn:Er.
    + apply finv_undo with (pc := SFree f t) (f := f); auto; unfold claim; by rewrite Er.
    + apply finv_delete. apply finv_pc with (pc := SFree f t); auto. unfold claim. rewrite Er. by left.
Qed.

Lemma submit_release f k : sub id = Some (r, SRelease f k) -> submits_at (SRelease f k).
Proof.
  intros Hid. pose proof (legal_future _ (submit_legal id r _ HG Hid)) as Hr. simpl in Hr. destruct k as [|k].
  - apply (submit_goto _ (SReturn 0) Hid); [done|by eapply legal_same|by left| |done]. right. by apply claim_none.
  - destruct (finv_release id r (SRelease f (S k)) HF Hid f k (SRelease f k)) as (fs' & E & HF').
    { unfold claim. by rewrite Hr. }
    { unfold claim. rewrite Hr. by destruct k. }
    apply (submit_quiet id r (SRelease f (S k)) me mem HG Hid (SRelease f k) (set_futures fs' s)); auto; [simpl; by rewrite E|by eapply legal_same|by split].
Qed.

Lemma submit_step_ok pc : sub id = Some (r, pc) -> submits_at pc.
Proof.
  intros Hid. destruct pc.
  - by apply submit_start.
  - by apply submit_new_future.
  - by apply submit_alloc.
  - by apply submit_ref.
  - by apply submit_pending.
  - by apply submit_push.
  - by apply submit_ext.
  - by apply submit_overflow.
  - by apply submit_undo.
  - by apply submit_free.
  - by apply submit_release.
  - eapply (submit_quiet id r _ me mem HG Hid (SWake f)); [done|by eapply legal_same|by split|done|done|by left|done|].
    eapply finv_pc; [exact HF|exact Hid|]. right. by apply claim_none.
  - eapply (submit_quiet id r _ me mem HG Hid (SReturn _)); [done|by eapply legal_same|by split|done|done|by left|done|].
    eapply finv_pc; [exact HF|exact Hid|]. right. by apply claim_none.
  - apply (submit_goto _ (SReturn result) Hid); [done|by eapply legal_same|by left| |done]. right. by apply claim_none.
Qed.
End submit_steps.

(** ** Workers *)

Definition call_of (pc : worker_pc) : option (request * submit_pc) := match pc with WBody _ _ c => c | _ => None end.

Lemma subs_none sub pl id : subs_ok sub pl -> subs_ok (fupd sub id None) pl.
Proof. intros Hs id' r pc E. fupd_cases id' id; [done|]. by apply Hs. Qed.

Lemma finv_none h fs sub id : finv h fs sub -> finv h fs (fupd sub id None).
Proof.
  intros [F1 F2 F3]. assert (forall i c, claims (fupd sub id None) i c -> claims sub i c) as Hk.
  { intros i c (r & pc & E & Hc). fupd_cases i id; [done|]. by exists r, pc. }
  split; [done|eauto|eauto].
Qed.

Lemma owns_same own pl k v : owns_ok own pl -> own k = v -> owns_ok (fupd own k v) pl.
Proof.
  intros [H1 H2] <-. split.
  - intros j u p E. fupd_cases j k; by apply H1.
  - intros u j Hu. specialize (H2 u j Hu). by fupd_cases j k.
Qed.

Section work.
Context {n : nat} {s : shared} {sub : subs} {own : owns} {pl : places} {C : site -> list Z} {acc exe : list Z}.
Context (k : nat) (mem : luck).
Hypothesis HG : good (S n) s sub own pl C acc exe.
Hypothesis Hk : has_worker k s.

Let HI := gd_inv _ _ _ _ _ _ _ _ HG.
Let HF := gd_futures _ _ _ _ _ _ _ _ HG.

(** What a step of the worker does to the invariant. *)
Definition works (pc : worker_pc) : Prop :=
  exists pc' s' pl' C', worker_step k mem pc s = Ok (pc', s') /\
    good n s' (fupd sub (Nested k) (call_of pc')) (fupd own k (worker_task k pc')) pl' C'
      (acc ++ worker_enqueued pc pc') (exe ++ called pc) /\ num_workers (pool s') = num_workers (pool s).

Lemma work_quiet pc pc' s' :
  worker_step k mem pc s = Ok (pc', s') -> same_queues s s' -> tasks s' = tasks s -> pending_tasks (pool s') = pending_tasks (pool s) ->
  finv (tasks s) (futures s') sub -> call_of pc' = None -> own k = worker_task k pc -> worker_task k pc' = worker_task k pc ->
  called pc = [] -> works pc.
Proof.
  intros E Hq Ht Hp HF' Hc Ho Hw He. assert (num_workers (pool s') = num_workers (pool s)) as Hn by (unfold num_workers; by rewrite (sq_queues _ _ Hq)).
  exists pc', s', pl, C. split; [done|]. split; [|done].
  assert (worker_enqueued pc pc' = []) as -> by (destruct pc, pc'; try done; simpl in Hc; subst; by destruct call as [[]|]).
  rewrite He, !app_nil_r, Hc, Hw. split; [|rewrite Ht; by apply finv_none|rewrite Hn; apply HG].
  apply (inv_steady HI); try done; [apply subs_none, (iv_subs _ _ _ _ _ _ _ _ HI)|].
  apply owns_same; [apply (iv_owns _ _ _ _ _ _ _ _ HI)|done].
Qed.

Lemma work_place pc t p : own k = worker_task k pc -> worker_task k pc = Some (t, p) -> pl !! t = Some p.
Proof. intros Ho Hw. apply (proj1 (iv_owns _ _ _ _ _ _ _ _ HI) k t p). by rewrite Ho. Qed.

(** A move of a task between the hands of the worker, or from a queue into them. *)
Lemma work_moves pc pc' s' C' t p p' :
  worker_step k mem pc s = Ok (pc', s') -> pl !! t = Some p -> store n s' C' -> rest_same s (on_pool (set_pending (pending_tasks (pool s))) s') ->
  pending_tasks (pool s') = pending_tasks (pool s) + (if counted p' then 1 else 0) - (if counted p then 1 else 0) ->
  (forall u, u <> t -> (exists y, u ∈ C' y) <-> (exists y, u ∈ C y)) -> (forall y, t ∉ C' y) ->
  worker_task k pc' = Some (t, p') -> worker_place k p' -> call_of pc' = None ->
  (own k = Some (t, p) \/ own k = None /\ p = PSite) ->
  acc ++ worker_enqueued pc pc' ≡ₚ (exe ++ called pc) ++ waiting (<[t := p']> pl) -> works pc.
Proof.
  intros E Hp Hst [R1 R2 R3 R4] Hpen Hc Ht Hw Hwp Hcall Ho Hlog. simpl in *.
  exists pc', s', (<[t := p']> pl), C'. split; [done|]. split; [|done]. rewrite Hcall, Hw.
  assert (forall id, ~ owned_by id p) as Hno.
  { intros id Hid. destruct Ho as [Ho|[_ ->]]; [|unfold owned_by in Hid; naive_solver].
    destruct (proj1 (iv_owns _ _ _ _ _ _ _ _ HI) k t p Ho) as [_ Hwo]. unfold owned_by, worker_place in *. naive_solver. }
  assert (num_workers (pool s') = num_workers (pool s)) as Hn by done.
  split; [|rewrite R3; eapply finv_none, finv_same; [done|apply HF]|rewrite Hn; apply HG].
  eapply (inv_move HI); try done.
  - split; [intros ->; unfold worker_place in Hwp; naive_solver|]. intros [y Hy]. by apply Ht in Hy.
  - apply subs_none, (subs_stay pl _ t); [intros u Hu; by rewrite lookup_insert_ne|apply (iv_subs _ _ _ _ _ _ _ _ HI)|].
    eapply sub_excludes_all; [apply (iv_subs _ _ _ _ _ _ _ _ HI)|done|done].
  - eapply (owns_change own pl _ k t p p'); try done; [apply (iv_owns _ _ _ _ _ _ _ _ HI)|intros u Hu; by rewrite lookup_insert_ne|by rewrite lookup_insert_eq|].
    destruct Ho as [?|[? ->]]; [by left|right]. split; [done|]. unfold worker_place. naive_solver.
Qed.

(** An attempt to take a task from a queue. *)
Lemma work_take (ok : shared -> Prop) op `{!Takes ok op} pc found next :
  ok s -> worker_step k mem pc s = (let! (t, s') := op s in Ok (got t found next, s')) ->
  own k = None -> worker_task k pc = None -> worker_task k next = None -> call_of next = None -> called pc = [] -> call_of pc = None ->
  (forall t, worker_task k (found t) = Some (t, PHand k) /\ call_of (found t) = None) -> works pc.
Proof.
  intros Hok E Ho Hw Hwn Hcn He Hcp Hf. destruct (takes_ok n s C (iv_store _ _ _ _ _ _ _ _ HI) Hok) as (o & s' & C' & Eop & Hst & HR & Hc).
  rewrite Eop in E. cbn [obind] in E. destruct o as [t|]; simpl in E.
  - destruct Hc as [Hin Hrem]. destruct (Hf t) as [Hft Hct].
    assert (pl !! t = Some PSite) as Hp by (by apply (iv_sites _ _ _ _ _ _ _ _ HI)).
    eapply (work_moves pc (found t) s' C' t PSite (PHand k)); try done.
    + by destruct HR.
    + rewrite (rs_pending _ _ HR). simpl. lia.
    + intros u Hu. split; intros [y Hy]; exists y; [by apply Hrem in Hy as [? _]|by apply Hrem].
    + intros y Hy. by apply Hrem in Hy as [_ ?].
    + by left.
    + by right.
    + rewrite He, app_nil_r. assert (worker_enqueued pc (found t) = []) as -> by (destruct pc, (found t); try done; simpl in Hct; subst; by destruct call as [[]|]).
      rewrite app_nil_r, (waiting_idle pl t PSite (PHand k) Hp) by done. apply (iv_logs _ _ _ _ _ _ _ _ HI).
  - subst C'. destruct HR as [R1 R2 R3 R4]. exists next, s', pl, C. split; [done|]. split; [|done].
    assert (worker_enqueued pc next = []) as -> by (destruct pc, next; try done; simpl in Hcn; subst; by destruct call as [[]|]).
    rewrite He, !app_nil_r, Hcn, Hwn. split; [|rewrite R3; eapply finv_none, finv_same; [done|apply HF]|rewrite R2; apply HG].
    destruct HI as [I1 I2 I3 I4 I5 I6 I7 I8]. split; try done; [by apply subs_none|by apply owns_same|by eapply same_tasks_heap|congruence|lia].
Qed.

Lemma work_goto pc pc' :
  worker_step k mem pc s = Ok (pc', s) -> call_of pc' = None -> own k = worker_task k pc -> worker_task k pc' = worker_task k pc ->
  called pc = [] -> works pc.
Proof. intros. eapply work_quiet; eauto with qd. Qed.

Lemma has_victim i : has_worker (victim (pool s) k i) s.
Proof. unfold has_worker, victim. apply Nat.mod_upper_bound. pose proof (gd_workers _ _ _ _ _ _ _ _ HG). lia. Qed.

(** The task in the worker's hands is live, and so is its future. *)
Lemma work_task pc t p : own k = worker_task k pc -> worker_task k pc = Some (t, p) ->
  exists x, tasks s !! t = Some x /\ (t_future x <> 0 -> is_Some (futures s !! t_future x)).
Proof.
  intros Ho Hw. pose proof (work_place _ _ _ Ho Hw) as Hp.
  destruct (proj1 (proj1 (iv_heap _ _ _ _ _ _ _ _ HI) t) ltac:(by eexists)) as [x Hx]. exists x. split; [done|]. by apply (fi_live _ _ _ HF t).
Qed.

(** The steps that set the state of the future of a task. *)
Lemma work_state pc pc' t p st :
  own k = worker_task k pc -> worker_task k pc = Some (t, p) -> worker_task k pc' = Some (t, p) -> call_of pc' = None -> called pc = [] ->
  worker_step k mem pc s =
    (let! x := read_task (tasks s) t in
     if t_future x =? 0 then Ok (pc', s)
     else let! fs := set_state st (t_future x) (futures s) in Ok (pc', set_futures fs s)) -> works pc.
Proof.
  intros Ho Hw Hw' Hc Hcl E. destruct (work_task _ _ _ Ho Hw) as (x & Hx & Hf). unfold read_task in E. rewrite Hx in E. cbn [of_option obind] in E.
  destruct (Z.eqb_spec (t_future x) 0); [apply (work_goto pc pc'); congruence|].
  destruct (Hf n0) as [y Hy]. destruct (set_state st (t_future x) (futures s)) as [fs'| |] eqn:Es; [|unfold set_state in Es; by rewrite Hy in Es..].
  cbn [obind] in E. eapply (work_quiet pc pc' (set_futures fs' s)); try done; [by eapply finv_state|congruence].
Qed.

Lemma work_count pc pc' t p p' :
  worker_step k mem pc s = Ok (pc', on_pool (set_pending (i32 (pending_tasks (pool s) - 1))) s) ->
  own k = worker_task k pc -> worker_task k pc = Some (t, p) -> worker_task k pc' = Some (t, p') ->
  counted p = true -> counted p' = false -> waits p = false -> worker_place k p' -> call_of pc' = None -> called pc = [] ->
  worker_enqueued pc pc' = [] -> (forall y, t ∉ C y) -> works pc.
Proof.
  intros E Ho Hw Hw' Hc Hc' Hwt Hwp Hcall Hcl He Hn. pose proof (work_place _ _ _ Ho Hw) as Hp.
  pose proof (count_delete pl t p Hp) as Hcd. rewrite Hc in Hcd.
  pose proof (iv_pending _ _ _ _ _ _ _ _ HI) as Hpen. pose proof (iv_small _ _ _ _ _ _ _ _ HI). pose proof (count_size pl).
  eapply (work_moves pc pc' _ C t p p'); try done.
  - eapply store_same; [apply store_mono, (iv_store _ _ _ _ _ _ _ _ HI)|by split|done].
  - split; try done. apply same_tasks_refl.
  - simpl. rewrite i32_small by lia. rewrite Hc, Hc'. lia.
  - left. by rewrite Ho.
  - rewrite He, Hcl, !app_nil_r, (waiting_idle pl t p p' Hp) by (by destruct p'). apply (iv_logs _ _ _ _ _ _ _ _ HI).
Qed.

Lemma not_queued t p : pl !! t = Some p -> p <> PSite -> forall y, t ∉ C y.
Proof. intros Hp Hne y Hy. assert (pl !! t = Some PSite) by (apply (iv_sites _ _ _ _ _ _ _ _ HI); eauto). congruence. Qed.

Lemma work_call t : own k = worker_task k (WCall t) -> works (WCall t).
Proof.
  intros Ho. pose proof (work_place _ _ _ Ho eq_refl) as Hp. destruct (work_task _ _ _ Ho eq_refl) as (x & Hx & _).
  set (pc' := if t_func x =? 0 then WComplete t else WBody t false None).
  eapply (work_moves (WCall t) pc' s C t (PHand k) (PRun k)); try done.
  - simpl. unfold read_task. by rewrite Hx.
  - apply store_mono, (iv_store _ _ _ _ _ _ _ _ HI).
  - split; try done. apply same_tasks_refl.
  - simpl. lia.
  - by eapply not_queued.
  - unfold pc'. by destruct (_ =? 0).
  - right. by left.
  - unfold pc'. by destruct (_ =? 0).
  - by left.
  - simpl. rewrite app_nil_r, (iv_logs _ _ _ _ _ _ _ _ HI), <- app_assoc. f_equiv. apply (waiting_add (<[t := PRun k]> pl) pl t).
    + intros u Hu. by rewrite lookup_insert_ne.
    + apply elem_of_waiting. by exists (PHand k).
    + rewrite elem_of_waiting, lookup_insert_eq. naive_solver.
Qed.

Lemma work_free t : own k = worker_task k (WFree t) -> works (WFree t).
Proof.
  intros Ho. pose proof (work_place _ _ _ Ho eq_refl) as Hp. destruct (work_task _ _ _ Ho eq_refl) as (x & Hx & _). simpl in Ho.
  destruct (Z.land (t_flags x) QD_TASK_DETACHED =? 0) eqn:Ed.
  - exists WInactive, s, pl, C. split; [simpl; unfold read_task; rewrite Hx; cbn [of_option obind]; by rewrite Ed|]. split; [|done].
    simpl. rewrite !app_nil_r. split; [|by apply finv_none|apply HG].
    apply (inv_steady HI); try done; [apply subs_none, (iv_subs _ _ _ _ _ _ _ _ HI)|].
    eapply (owns_drop own pl pl k t); try done; [apply (iv_owns _ _ _ _ _ _ _ _ HI)|]. intros j. by rewrite Hp.
  - exists WInactive, (set_tasks (delete t (tasks s)) s), (delete t pl), C.
    split; [simpl; unfold qd_task_free, read_task; rewrite Hx; cbn [of_option obind]; rewrite Ed; done|]. split; [|done].
    assert (forall u, u <> t -> delete t pl !! u = pl !! u) as Hsame by (intros u Hu; by rewrite lookup_delete_ne).
    simpl. rewrite !app_nil_r. split; [|by apply finv_none, finv_delete|apply HG].
    apply (inv_free HI _ _ _ t (PGone k)); auto.
    + apply subs_none, (subs_stay pl _ t); [done|apply (iv_subs _ _ _ _ _ _ _ _ HI)|].
      eapply sub_excludes_all; [apply (iv_subs _ _ _ _ _ _ _ _ HI)|done|]. unfold owned_by. naive_solver.
    + eapply (owns_drop own pl _ k t); try done; [apply (iv_owns _ _ _ _ _ _ _ _ HI)|]. intros j. by rewrite lookup_delete_eq.
Qed.

(** A step of a submission that the task makes. *)
Lemma work_body t b c : own k = worker_task k (WBody t b c) -> sub (Nested k) = c -> works (WBody t b c).
Proof.
  intros Ho Hs. destruct c as [[r pc]|]; [|apply (work_goto _ (if b then WCount t else WComplete t)); by destruct b].
  assert ((forall res, pc <> SReturn res) -> works (WBody t b (Some (r, pc)))) as Hgo.
  { intros Hne. destruct (submit_step_ok (Nested k) r (Some k) mem HG pc Hs) as (pc' & s' & pl' & C' & E & HG' & Hn).
    exists (WBody t b (Some (r, pc'))), s', pl', C'. split; [|split; [|done]].
    - destruct pc; try (cbn [worker_step]; by rewrite E). exfalso. simpl in E. injection E as <- <-. by apply (Hne result).
    - simpl. rewrite app_nil_r. destruct HG' as [HI' HF' Hw']. split; [|done|done]. destruct HI'. split; try done. by apply owns_same. }
  destruct pc; try (by apply Hgo). apply (work_goto _ (WBody t b None)); done.
Qed.

Lemma worker_step_ok pc : own k = worker_task k pc -> sub (Nested k) = call_of pc -> works pc.
Proof.
  intros Ho Hs. pose proof has_victim as Hv. destruct pc.
  - eapply work_goto; [done| |done| |done]; repeat case_match; done.
  - eapply work_goto; [done| |done| |done]; repeat case_match; done.
  - eapply work_goto; [done| |done| |done]; repeat case_match; done.
  - destruct (0 <? wake_fd (pool s)) eqn:E; eapply work_quiet; try (simpl; by rewrite E); try done; by split.
  - eapply (work_take (has_worker k) (pop_queue (l_busy mem) k)); try done.
  - eapply (work_take always pop_global_queue); try done.
  - eapply (work_take (has_worker k) (pop_ext_ring (l_busy mem) k)); try done.
  - eapply (work_take always (pop_global_ring (l_busy mem)) _ WFound (if enable_stealing (pool s) then WSteal 0 else WIdle)); try done; by case_match.
  - destruct (num_workers (pool s) <=? i)%nat eqn:E1; [apply (work_goto _ WIdle); try done; simpl; by rewrite E1|].
    destruct (Nat.eqb i k) eqn:E2; [apply (work_goto _ (WSteal (S i))); try done; simpl; by rewrite E1, E2|].
    eapply (work_take (has_worker (victim (pool s) k i)) (pop_ext_ring (l_busy mem) (victim (pool s) k i)) _ WStolen (WStealDeque i)); try done.
    simpl. by rewrite E1, E2.
  - eapply (work_take (has_worker (victim (pool s) k i)) (steal_queue (l_busy mem) (victim (pool s) k i)) _ WStolen (WSteal (S i))); try done.
  - eapply work_quiet; try done; by split.
  - eapply work_quiet; try done; by split.
  - by eapply (work_state _ (WCall t) t _ QD_FUTURE_RUNNING).
  - by apply work_call.
  - by apply work_body.
  - by eapply (work_state _ (WCallback t) t _ QD_FUTURE_COMPLETED).
  - destruct (work_task _ _ _ Ho eq_refl) as (x & Hx & _).
    apply (work_goto _ (if t_on_complete x =? 0 then WCount t else WBody t true None)); try done; [|by case_match..].
    simpl. unfold read_task. by rewrite Hx.
  - eapply work_quiet; try done; by split.
  - eapply (work_count (WDone t) (WFree t) t (PRun k) (PGone k)); try done; [right; by right|].
    by eapply not_queued; [eapply (work_place (WDone t))|].
  - by apply work_free.
  - eapply work_quiet; try done; by split.
  - eapply work_goto; [done| |done| |done]; repeat case_match; done.
  - eapply work_goto; [done| |done| |done]; repeat case_match; done.
  - destruct (0 <? wake_fd (pool s)) eqn:E; eapply work_quiet; try (simpl; by rewrite E); try done; by split.
  - by apply (work_goto _ WExit).
Qed.
End work.

(** ** The pool as a whole *)

Definition subs_of (w : world) (id : sid) : option (request * submit_pc) :=
  match id with Client i => clients w !! i | Nested k => workers w !! k ≫= call_of end.
Definition owns_of (w : world) (k : nat) : option (Z * place) := workers w !! k ≫= worker_task k.

Definition winv (n : nat) (w : world) : Prop :=
  length (workers w) = num_workers (pool (sh w)) /\
  exists pl C, good n (sh w) (subs_of w) (owns_of w) pl C (accepted w) (executed w).

Lemma claims_ext sub sub' id c : (forall i, sub' i = sub i) -> claims sub' id c -> claims sub id c.
Proof. intros E (r & pc & Hs & Hc). exists r, pc. by rewrite <- E. Qed.

Lemma good_ext n s sub sub' own own' pl C acc exe :
  (forall id, sub' id = sub id) -> (forall k, own' k = own k) -> good n s sub own pl C acc exe -> good n s sub' own' pl C acc exe.
Proof.
  intros Es Eo [[I1 I2 I3 I4 I5 I6 I7 I8] [F1 F2 F3] Hw]. split; [split; try done| |done].
  - intros id r pc. rewrite Es. apply I3.
  - destruct I4 as [H1 H2]. split; intros; rewrite Eo in *; auto.
  - split; [done| |].
    + intros id c Hc. eapply F2, claims_ext; [apply Es|done].
    + intros id id' c c' Hc Hc'. apply F3; by eapply claims_ext.
Qed.

Lemma good_idle n s s' sub sub' own pl C acc exe :
  good (S n) s sub own pl C acc exe -> same_queues s s' -> tasks s' = tasks s -> pending_tasks (pool s') = pending_tasks (pool s) ->
  subs_ok sub' pl -> finv (tasks s) (futures s') sub' -> good n s' sub' own pl C acc exe.
Proof.
  intros [HI HF Hw] Hq Ht Hp Hs HF'. split; [|by rewrite Ht|unfold num_workers; by rewrite (sq_queues _ _ Hq)].
  apply (inv_steady HI); try done. apply (iv_owns _ _ _ _ _ _ _ _ HI).
Qed.

Lemma good_stop n s s' sub own pl C acc exe :
  good (S n) s sub own pl C acc exe -> same_queues s s' -> tasks s' = tasks s -> pending_tasks (pool s') = pending_tasks (pool s) ->
  finv (tasks s) (futures s') sub -> good n s' sub own pl C acc exe.
Proof. intros HG Hq Ht Hp HF. eapply good_idle; eauto. apply (iv_subs _ _ _ _ _ _ _ _ (gd_inv _ _ _ _ _ _ _ _ HG)). Qed.

Lemma winv_mono n w : winv (S n) w -> winv n w.
Proof. intros (Hl & pl & C & HG). split; [done|]. exists pl, C. eapply good_stop; eauto with qd. apply HG. Qed.

(** A request that begins. *)
Lemma good_begin n s sub own pl C acc exe id r :
  good (S n) s sub own pl C acc exe -> request_ok r = true -> good n s (fupd sub id (Some (r, SStart))) own pl C acc exe.
Proof.
  intros HG Hr. pose proof HG as [HI HF _]. eapply good_idle; eauto with qd.
  - intros id' r' pc' E. fupd_cases id' id; [|by apply (iv_subs _ _ _ _ _ _ _ _ HI)]. injection E as <- <-.
    split; [unfold legal; by rewrite Hr|done].
  - destruct HF as [F1 F2 F3]. assert (forall i c, claims (fupd sub id (Some (r, SStart))) i c -> claims sub i c) as Hk.
    { intros i c [[-> E]|[_ ?]]%claims_upd; [unfold claim in E; by destruct (is_future r)|done]. }
    split; [done|eauto|eauto].
Qed.

Lemma subs_client w s i r pc acc exe ctl id :
  subs_of (mkWorld s (workers w) (<[i := (r, pc)]> (clients w)) ctl acc exe) id = fupd (subs_of w) (Client i) (Some (r, pc)) id.
Proof.
  destruct id as [j|k]; simpl; [|by rewrite fupd_other].
  destruct (decide (j = i)) as [->|Hne]; [by rewrite lookup_insert_eq, fupd_same|].
  rewrite lookup_insert_ne by done. by rewrite fupd_other by congruence.
Qed.

Lemma subs_worker w s k pc acc exe ctl id : (k < length (workers w))%nat ->
  subs_of (mkWorld s (<[k := pc]> (workers w)) (clients w) ctl acc exe) id = fupd (subs_of w) (Nested k) (call_of pc) id.
Proof.
  intros Hk. destruct id as [j|j]; simpl; [by rewrite fupd_other|].
  destruct (decide (j = k)) as [->|Hne]; [by rewrite list_lookup_insert_eq, fupd_same|].
  rewrite list_lookup_insert_ne by done. by rewrite fupd_other by congruence.
Qed.

Lemma owns_worker w s k pc acc exe ctl cl j : (k < length (workers w))%nat ->
  owns_of (mkWorld s (<[k := pc]> (workers w)) cl ctl acc exe) j = fupd (owns_of w) k (worker_task k pc) j.
Proof.
  intros Hk. unfold owns_of. simpl. destruct (decide (j = k)) as [->|Hne]; [by rewrite list_lookup_insert_eq, fupd_same|].
  rewrite list_lookup_insert_ne by done. by rewrite fupd_other by congruence.
Qed.

Lemma step_client n w i me mem : winv (S n) w -> exists w', step (AClient i me mem) w = Ok w' /\ winv n w'.
Proof.
  intros Hw. simpl. destruct (clients w !! i) as [[r pc]|] eqn:Hi; [|exists w; split; [done|by apply winv_mono]].
  destruct (negb (outsider _ _)); [exists w; split; [done|by apply winv_mono]|]. destruct Hw as (Hl & pl & C & HG).
  destruct (submit_step_ok (Client i) r me mem HG pc Hi) as (pc' & s' & pl' & C' & -> & HG' & Hn). cbn [obind].
  eexists. split; [done|]. split; [simpl; congruence|]. exists pl', C'. eapply good_ext; [| |exact HG'].
  - intros id. apply subs_client.
  - done.
Qed.

Lemma step_worker n w k mem : winv (S n) w -> exists w', step (AWorker k mem) w = Ok w' /\ winv n w'.
Proof.
  intros Hw. simpl. destruct (workers w !! k) as [pc|] eqn:Hk; [|exists w; split; [done|by apply winv_mono]].
  destruct Hw as (Hl & pl & C & HG). pose proof (lookup_lt_Some _ _ _ Hk) as Hlt.
  destruct (worker_step_ok k mem HG ltac:(unfold has_worker; lia) pc) as (pc' & s' & pl' & C' & -> & HG' & Hn).
  { unfold owns_of. by rewrite Hk. }
  { simpl. by rewrite Hk. }
  cbn [obind]. eexists. split; [done|]. split; [simpl; rewrite length_insert; congruence|]. exists pl', C'. eapply good_ext; [| |exact HG'].
  - intros id. by apply subs_worker.
  - intros j. by apply owns_worker.
Qed.

Lemma step_nested n w k r : winv (S n) w -> exists w', step (ANested k r) w = Ok w' /\ winv n w'.
Proof.
  intros Hw. simpl. eexists. split; [done|]. destruct (workers w !! k) as [pc|] eqn:Hk; [|by apply winv_mono].
  destruct pc as [| | | | | | | | | | | | | |t b [[]|]| | | | | | | | | |]; try by apply winv_mono.
  destruct (request_ok r) eqn:Hr; [|by apply winv_mono].
  destruct Hw as (Hl & pl & C & HG). pose proof (lookup_lt_Some _ _ _ Hk) as Hlt.
  split; [simpl; by rewrite length_insert|]. exists pl, C. eapply good_ext; [| |by apply (good_begin _ _ _ _ _ _ _ _ (Nested k) r HG)].
  - intros id. by apply subs_worker.
  - intros j. rewrite owns_worker by done. fupd_cases j k; [|done]. unfold owns_of. by rewrite Hk.
Qed.

Lemma step_control n w i now : winv (S n) w -> exists w', step (AControl i now) w = Ok w' /\ winv n w'.
Proof.
  intros Hw. simpl. destruct (controls w !! i) as [c|] eqn:Hi; [|exists w; split; [done|by apply winv_mono]].
  assert (exists c' s', control_step now c (sh w) = Ok (c', s') /\ same_queues (sh w) s' /\ tasks s' = tasks (sh w) /\
    pending_tasks (pool s') = pending_tasks (pool (sh w)) /\ futures s' = futures (sh w)) as (c' & s' & -> & Hq & Ht & Hp & Hf).
  { destruct c; simpl; unfold qd_pool_wake; repeat case_match; eexists _, _; (split; [done|]); (split; [by split|done]). }
  cbn [obind]. eexists. split; [done|]. destruct Hw as (Hl & pl & C & HG).
  split; [unfold num_workers; simpl; by rewrite (sq_queues _ _ Hq)|]. exists pl, C.
  eapply good_stop; [exact HG|done|done|done|]. simpl. rewrite Hf. apply HG.
Qed.

Lemma step_cancel n w f : winv (S n) w -> exists w', step (ACancel f) w = Ok w' /\ winv n w'.
Proof.
  intros Hw. simpl. destruct (futures (sh w) !! f) as [x|] eqn:Hf; [|exists w; split; [done|by apply winv_mono]].
  destruct Hw as (Hl & pl & C & HG).
  assert (exists code fs, qd_future_cancel f (futures (sh w)) = Ok (code, fs) /\ finv (tasks (sh w)) fs (subs_of w)) as (code & fs & -> & HF).
  { pose proof (gd_futures _ _ _ _ _ _ _ _ HG) as HF. unfold qd_future_cancel. destruct (f =? 0); [by eexists _, _|]. rewrite Hf.
    case_bool_decide; [|by eexists _, _]. destruct (set_state _ _ _) as [fs| |] eqn:Es; [|unfold set_state in Es; by rewrite Hf in Es..].
    eexists _, fs. split; [done|]. by eapply finv_state. }
  cbn [obind]. eexists. split; [done|]. split; [exact Hl|]. exists pl, C. eapply good_stop; [exact HG|by split|done|done|exact HF].
Qed.

Lemma step_ok n w a : winv (S n) w -> exists w', step a w = Ok w' /\ winv n w'.
Proof.
  intros Hw. destruct a; [|by apply step_client|by apply step_nested|by apply step_worker| |by apply step_control|by apply step_cancel].
  - simpl. eexists. split; [done|]. destruct (client_idle _ && request_ok r) eqn:E; [|by apply winv_mono].
    apply andb_prop in E as [_ Hr]. destruct Hw as (Hl & pl & C & HG). split; [done|]. exists pl, C.
    eapply good_ext; [| |by apply (good_begin _ _ _ _ _ _ _ _ (Client i) r HG)]; [|done]. intros id. apply subs_client.
  - simpl. eexists. split; [done|]. apply winv_mono in Hw. by destruct (_ && _).
Qed.

Lemma pool_run_ok l : forall n w, winv (length l + n) w -> exists w', run l w = Ok w' /\ winv n w'.
Proof.
  induction l as [|a l IH]; intros n w Hw; [by exists w|]. destruct (step_ok (length l + n) w a Hw) as (w' & E & Hw').
  simpl. rewrite E. cbn [obind]. by apply IH.
Qed.

(** ** A new pool *)

Lemma work_queue_init_ok n ok q h : Z.of_nat n <= 2 ^ 62 -> work_queue_init ok = Some q -> queue_holds n q h [] (fun _ => []).
Proof.
  intros Hn E. unfold work_queue_init in E. destruct (qd_wsdeque_init ok 1024) as [d|] eqn:Ed; [|done]. injection E as <-.
  destruct ok; [|done]. destruct (deque_init_holds n 1024 d ltac:(lia) Hn Ed) as [Hd _].
  split; simpl; try done. intros i x e Hx He. apply lookup_replicate in Hx as [-> _] || (apply (lookup_replicate 4 0) in Hx as [-> _]).
  apply (lookup_replicate 4 0) in He as [-> _]. done.
Qed.

(** The number of threads and of ring cells that are asked for. *)
Definition pool_limits (nproc : Z) (c : qd_threadpool_config) : Prop :=
  c_num_threads c <= 2 ^ 16 /\ nproc <= 2 ^ 16 /\ c_max_queue_size c <> 1 /\ c_max_queue_size c <= 2 ^ 30.

Lemma create_store ok nproc c p n :
  qd_threadpool_create_ex ok nproc c = Some p -> pool_limits nproc c -> Z.of_nat n <= 2 ^ 60 ->
  store n (mkShared p ∅ ∅) (fun _ => []) /\ (0 < num_workers p)%nat /\ pending_tasks p = 0.
Proof.
  intros E (L1 & L2 & L3 & L4) Hn. unfold qd_threadpool_create_ex in E.
  set (nt := if c_num_threads c <=? 0 then (if nproc <=? 0 then 4 else nproc) else c_num_threads c) in *.
  set (rc := if 0 <? c_max_queue_size c then c_max_queue_size c else 1024) in *.
  assert (1 <= nt <= 2 ^ 16) as Hnt by (unfold nt; destruct (Z.leb_spec (c_num_threads c) 0), (Z.leb_spec nproc 0); lia).
  assert (2 <= rc <= 2 ^ 30) as Hrc by (unfold rc; destruct (Z.ltb_spec 0 (c_max_queue_size c)); lia).
  assert (rc *64 nt = rc * nt) as Em by (apply u64_small; unfold_widths; nia).
  rewrite Em in E. set (g := if rc * nt <? rc then rc else rc * nt) in *.
  assert (2 <= g <= 2 ^ 46) as Hg by (unfold g; destruct (Z.ltb_spec (rc * nt) rc); nia).
  destruct (work_queue_init ok) as [q|] eqn:Eq; [|done]. destruct (qd_mpmc_ring_init ok rc) as [r|] eqn:Er; [|done].
  destruct (qd_mpmc_ring_init ok g) as [gr|] eqn:Eg; [|done]. injection E as <-.
  destruct ok; [|by unfold work_queue_init in Eq].
  pose proof (work_queue_init_ok n true q ∅ ltac:(lia) Eq) as HQ.
  destruct (ring_init_holds n rc r ltac:(lia) ltac:(lia) Er) as [HR _]. destruct (ring_init_holds n g gr ltac:(lia) ltac:(lia) Eg) as [HGR _].
  unfold num_workers. simpl. rewrite length_replicate. split; [|split; [lia|done]]. split; simpl; try done.
  - unfold num_workers. simpl. by rewrite !length_replicate.
  - intros i r' [-> _]%lookup_replicate. done.
  - intros i q' [-> _]%lookup_replicate. done.
  - intros x. constructor.
  - intros x y t Ht. by apply not_elem_of_nil in Ht.
  - intros x t Ht. by apply not_elem_of_nil in Ht.
  - intros x t Ht. by apply not_elem_of_nil in Ht.
Qed.

Lemma new_world_ok ok nproc c p n :
  qd_threadpool_create_ex ok nproc c = Some p -> pool_limits nproc c -> Z.of_nat n < 2 ^ 31 -> winv n (new_world p).
Proof.
  intros E L Hn. destruct (create_store ok nproc c p n E L ltac:(lia)) as (HS & Hw & Hp). split; [simpl; by rewrite length_replicate|].
  assert (forall id, subs_of (new_world p) id = None) as Es.
  { intros [i|k]; simpl; [apply lookup_empty|]. destruct (replicate (num_workers p) WTop !! k) as [pc|] eqn:Ek; [|done]. by apply lookup_replicate in Ek as [-> _]. }
  assert (forall k, owns_of (new_world p) k = None) as Eo.
  { intros k. unfold owns_of. simpl. destruct (replicate (num_workers p) WTop !! k) as [pc|] eqn:Ek; [|done]. by apply lookup_replicate in Ek as [-> _]. }
  exists ∅, (fun _ => []). split; [split; simpl| |done].
  - done.
  - intros t. rewrite lookup_empty. split; [done|]. intros [y Hy]. by apply not_elem_of_nil in Hy.
  - intros id r pc. by rewrite Es.
  - split; intros *; [by rewrite Eo|by rewrite lookup_empty].
  - split; intros *; rewrite !lookup_empty; [split; by intros [? ?]|done].
  - rewrite Hp. done.
  - rewrite map_size_empty. lia.
  - done.
  - split; simpl.
    + intros t x. by rewrite lookup_empty.
    + intros id c' (r & pc & E' & _). by rewrite Es in E'.
    + intros id id' c1 c2 (r & pc & E' & _). by rewrite Es in E'.
Qed.

(** ** What the queues hold, read off the state *)

Inductive reaches (h : heap) : Z -> Z -> Prop :=
| reaches_here t x : h !! t = Some x -> reaches h t t
| reaches_next a x t : h !! a = Some x -> reaches h (t_next x) t -> reaches h a t.

Lemma linked_reaches h l : forall p t, linked h p l -> t ∈ l -> reaches h p t.
Proof.
  induction l as [|u l IH]; intros p t Hl Ht; [by apply not_elem_of_nil in Ht|]. destruct Hl as (-> & _ & x & Hx & Hl).
  apply elem_of_cons in Ht as [->|Ht]; [by eapply reaches_here|]. eapply reaches_next; [done|]. by apply IH.
Qed.

(** [t] is in one of the rings, deques or priority lists of the pool. *)
Definition in_lists (h : heap) (q : qd_work_queue) (t : Z) : Prop := exists i p, q_heads q !! i = Some p /\ reaches h p t.
Definition in_work_queue (h : heap) (q : qd_work_queue) (t : Z) : Prop := t ∈ WsDeque.contents (q_deque q) \/ in_lists h q t.
Definition queued (s : shared) (t : Z) : Prop :=
  t ∈ MpmcRing.contents (global_ring (pool s)) \/
  (exists r, r ∈ ext_rings (pool s) /\ t ∈ MpmcRing.contents r) \/
  (exists q, q ∈ queues (pool s) /\ in_work_queue (tasks s) q t) \/
  in_work_queue (tasks s) (global_queue (pool s)) t.

(** [t] was taken out of a queue by a worker that has not called its function yet. *)
Definition in_hand (w : world) (t : Z) : Prop :=
  exists pc, pc ∈ workers w /\ (pc = WStolen t \/ pc = WFound t \/ pc = WStart t \/ pc = WCall t).

Lemma queue_in_lists n q h D P i t : queue_holds n q h D P -> t ∈ P i -> in_lists h q t.
Proof.
  intros [H1 H2 H3 H4 H5] Ht. assert (i < 4)%nat as Hi.
  { destruct (Nat.lt_ge_cases i 4); [done|]. rewrite H5 in Ht by done. by apply not_elem_of_nil in Ht. }
  destruct (lookup_lt_is_Some_2 (q_heads q) i ltac:(lia)) as [p Hp]. destruct (lookup_lt_is_Some_2 (q_tails q) i ltac:(lia)) as [e He].
  destruct (H4 i p e Hp He) as [Hl _]. exists i, p. split; [done|]. by eapply linked_reaches.
Qed.

Lemma ring_contents n r l : ring_holds n r l -> MpmcRing.contents r = l.
Proof. intros (log & Hq & -> & _). by apply quiet_contents. Qed.

Lemma deque_contents n d l : deque_holds n d l -> WsDeque.contents d = l.
Proof. intros (Hd & Hb & _). by apply contents_ok. Qed.

Lemma store_queued n s C y t : store n s C -> t ∈ C y -> queued s t.
Proof.
  intros HS Ht. pose proof (st_range _ _ _ HS y t Ht) as Hr. destruct y as [|i|i|i l|l]; simpl in Hr.
  - left. by rewrite (ring_contents n _ _ (st_ring _ _ _ HS)).
  - right. left. destruct (ext_ring_get _ _ _ _ HS Hr) as (r & Hi & Hh). exists r. split; [by eapply list_elem_of_lookup_2|].
    by rewrite (ring_contents n _ _ Hh).
  - right. right. left. destruct (queue_get _ _ _ _ HS Hr) as (q & Hi & Hh). exists q. split; [by eapply list_elem_of_lookup_2|].
    left. by rewrite (deque_contents n _ _ (qh_deque _ _ _ _ _ Hh)).
  - right. right. left. destruct (queue_get _ _ _ _ HS Hr) as (q & Hi & Hh). exists q. split; [by eapply list_elem_of_lookup_2|].
    right. by eapply (queue_in_lists n q (tasks s) _ (fun l => C (AtList i l)) l).
  - right. right. right. right. by eapply (queue_in_lists n _ (tasks s) _ (fun l => C (AtGlobal l)) l), Ht; apply HS.
Qed.

(** ** The theorem *)

(** C21: Under every interleaving of workers, submitting clients, tasks that submit tasks,
    pauses, shutdowns, waits and cancelled futures, a pool whose configured queue size is
    not 1 (see [mpmc_one_cell_overwrites]) never runs into undefined behaviour, and every
    task a queue accepted is called once: the calls so far and the tasks that still wait
    (each of them once, in a queue or in the hands of a worker) are the accepted tasks.
    [pending_tasks] covers the waiting tasks, so when qd_threadpool_wait sees 0 every
    accepted task has been called. A push, pop or steal on a ring or deque is one step, and
    at any time it may find the structure empty or full as it does when another thread is in
    the middle of an operation; clients are threads that do not carry the worker id of
    another pool (see [two_pushers_lose_task]); fewer than 2^30 steps are taken, with at
    most 2^16 workers and queues of at most 2^30 tasks. *)
Theorem pool_exactly_once ok nproc config p l :
  qd_threadpool_create_ex ok nproc config = Some p -> pool_limits nproc config -> Z.of_nat (length l) < 2 ^ 30 ->
  exists w waiting, run l (new_world p) = Ok w /\
    accepted w ≡ₚ executed w ++ waiting /\ NoDup waiting /\
    (forall t, t ∈ waiting -> is_Some (tasks (sh w) !! t) /\ (queued (sh w) t \/ in_hand w t)) /\
    Z.of_nat (length waiting) <= pending_tasks (pool (sh w)) /\
    (pending_tasks (pool (sh w)) = 0 -> accepted w ≡ₚ executed w).
Proof.
  intros E L Hl. destruct (pool_run_ok l 0 (new_world p)) as (w & Er & Hw).
  { eapply new_world_ok; [done|done|]. lia. }
  destruct Hw as (Hlen & pl & C & [HI HF Hnw]). destruct HI as [I1 I2 I3 [I4 I4'] [I5 _] I6 I7 I8].
  pose proof (waiting_le pl) as Hle. exists w, (waiting pl). split; [done|]. split; [done|]. split; [apply waiting_nodup|].
  split; [|split; [lia|]].
  - intros t (q & Hq & Hwt)%elem_of_waiting. split; [apply I5; by exists q|]. destruct q; try done.
    + left. destruct (proj1 (I2 t) Hq) as [y Hy]. by eapply store_queued.
    + right. specialize (I4' t k Hq). unfold owns_of in I4'. destruct (workers w !! k) as [pc|] eqn:Hk; [|done].
      exists pc. split; [by eapply list_elem_of_lookup_2|]. simpl in I4'. destruct pc; simpl in I4'; try done; injection I4' as ->; naive_solver.
  - intros E0. assert (length (waiting pl) = 0)%nat as Hz by lia. apply length_zero_iff_nil in Hz. by rewrite I8, Hz, app_nil_r.
Qed.

Definition demo_config : qd_threadpool_config := mkPoolConfig 2 4 true.
Definition demo_actions : list action :=
  ASubmit 0 (RSubmit 100 5) :: ASubmit 1 (RFuture 101 6) ::
  concat (replicate 12 [AClient 0 None (calm (Some 16)); AClient 1 (Some 7%nat) (calm (Some 32))]) ++
  concat (replicate 40 [AWorker 0 (calm None); AWorker 1 (mkLuck None true); AWorker 1 (calm None)]) ++ [ACommand 0 (CWait (-1) 0); AControl 0 0].

Lemma pool_exactly_once_witness :
  exists p w, qd_threadpool_create_ex true 4 demo_config = Some p /\ run demo_actions (new_world p) = Ok w /\
    controls w !! 0%nat = Some (CReturn QD_OK) /\ executed w = [16; 32] /\ accepted w ≡ₚ executed w.
Proof.
  eexists. destruct (pool_exactly_once true 4 demo_config _ demo_actions eq_refl) as (w & W & E & _ & _ & _ & _ & H).
  { split; [|split; [|split]]; simpl; lia. }
  { vm_compute. reflexivity. }
  exists w. split; [reflexivity|]. split; [exact E|]. vm_compute in E. injection E as <-.
  split; [reflexivity|]. split; [reflexivity|]. apply H. reflexivity.
Defined.
