(* ===== verification/Keyed.v ===== *)
(** * Heaps of records with distinct keys, as maps

    [keyed key val h]: the records of the heap [h] by their keys, with what [val] keeps of
    them.  It is the abstract view of tables whose records are linked in lists. *)

From S2P Require Import Prelude.

Section keyed.
Context {A C : Type} `{Countable K} (key : A -> K) (val : A -> C).
Implicit Types (h : gmap Z A).

Definition keyed h : gmap K C := list_to_map ((fun p => (key p.2, val p.2)) <$> map_to_list h).

Definition keys_distinct h : Prop := forall a b x y, h !! a = Some x -> h !! b = Some y -> key x = key y -> a = b.

Lemma keyed_nodup h : keys_distinct h -> NoDup ((fun p => (key p.2, val p.2)) <$> map_to_list h).*1.
Proof.
  intros Hd. rewrite <- list_fmap_compose. apply NoDup_fmap_2_strong; [|apply NoDup_map_to_list].
  intros [a x] [b y] Hx%elem_of_map_to_list Hy%elem_of_map_to_list E. simpl in E.
  assert (a = b) as -> by (eapply Hd; [exact Hx|exact Hy|congruence]). by simplify_eq.
Qed.

Lemma keyed_lookup h k c : keys_distinct h -> keyed h !! k = Some c <-> exists a x, h !! a = Some x /\ key x = k /\ val x = c.
Proof.
  intros Hd. unfold keyed. rewrite <- elem_of_list_to_map by by apply keyed_nodup. rewrite list_elem_of_fmap. split.
  - intros ([a x] & E & Hx%elem_of_map_to_list). simplify_eq. by exists a, x.
  - intros (a & x & Hx & <- & <-). exists (a, x). split; [done|]. by apply elem_of_map_to_list.
Qed.

Lemma keyed_none h k : keys_distinct h -> keyed h !! k = None <-> forall a x, h !! a = Some x -> key x <> k.
Proof.
  intros Hd. rewrite eq_None_not_Some. split.
  - intros Hn a x Ha Hk. apply Hn. exists (val x). apply keyed_lookup; [done|]. by exists a, x.
  - intros Hn [c (a & x & Ha & Hk & _)%keyed_lookup]; [by eapply Hn|done].
Qed.

Lemma keyed_size h : keys_distinct h -> size (keyed h) = size h.
Proof.
  intros Hd. unfold keyed. rewrite map_size_list_to_map by by apply keyed_nodup.
  by rewrite length_fmap, <- map_size_list_to_map, list_to_map_to_list by apply NoDup_fst_map_to_list.
Qed.

(** The view depends on the keys and the kept part only. *)
Definition keyed_same h h' : Prop :=
  forall a, match h !! a, h' !! a with Some x, Some y => key y = key x /\ val y = val x | None, None => True | _, _ => False end.

Lemma keys_ext h h' : keys_distinct h -> keyed_same h h' -> keys_distinct h'.
Proof.
  intros Hd He a b x y Hx Hy E. pose proof (He a) as Ha. pose proof (He b) as Hb. rewrite Hx in Ha. rewrite Hy in Hb.
  destruct (h !! a) as [x'|] eqn:Ex; [|done]. destruct (h !! b) as [y'|] eqn:Ey; [|done]. apply (Hd a b x' y' Ex Ey). destruct Ha, Hb. congruence.
Qed.

Lemma keyed_same_dom h h' : keyed_same h h' -> dom h' = dom h.
Proof.
  intros He. apply set_eq. intros a. rewrite !elem_of_dom. specialize (He a). destruct (h !! a), (h' !! a); try done; split; intros [? ?]; done.
Qed.

Lemma keyed_ext h h' : keys_distinct h -> keyed_same h h' -> keyed h' = keyed h.
Proof.
  intros Hd He. pose proof (keys_ext h h' Hd He) as Hd'. apply map_eq. intros k. apply option_eq. intros c. rewrite !keyed_lookup by done. split.
  - intros (a & y & Ha & <- & <-). specialize (He a). rewrite Ha in He. destruct (h !! a) as [x|] eqn:Ex; [|done]. destruct He as [-> ->]. by exists a, x.
  - intros (a & x & Ha & <- & <-). specialize (He a). rewrite Ha in He. destruct (h' !! a) as [y|] eqn:Ey; [|done]. destruct He as [<- <-]. by exists a, y.
Qed.

Lemma keys_insert h a x : keys_distinct h -> (forall b y, h !! b = Some y -> key y = key x -> b = a) -> keys_distinct (<[a := x]> h).
Proof.
  intros Hd Hx b c y z. destruct (decide (b = a)) as [->|Hb], (decide (c = a)) as [->|Hc]; rewrite ?lookup_insert_eq, ?lookup_insert_ne by done; try done.
  - intros [= <-] Hz E. symmetry. by apply (Hx c z).
  - intros Hy [= <-] E. by apply (Hx b y).
  - apply Hd.
Qed.

Lemma keys_delete h a : keys_distinct h -> keys_distinct (delete a h).
Proof. intros Hd b c y z [_ Hy]%lookup_delete_Some [_ Hz]%lookup_delete_Some. by apply Hd. Qed.

Lemma keyed_insert h a x : keys_distinct h -> keys_distinct (<[a := x]> h) -> (forall y, h !! a = Some y -> key y = key x) ->
  keyed (<[a := x]> h) = <[key x := val x]> (keyed h).
Proof.
  intros Hd Hd' Hx. apply map_eq. intros k. apply option_eq. intros c. rewrite lookup_insert_Some, !keyed_lookup by done. split.
  - intros (b & y & Hb & Hk & Hc). apply lookup_insert_Some in Hb as [[<- <-]|[Hne Hb]]; [by left|]. right. split; [|by exists b, y].
    intros E. apply Hne. eapply Hd'; [apply lookup_insert_eq|rewrite lookup_insert_ne by done; exact Hb|congruence].
  - intros [[<- <-]|(Hne & b & y & Hb & Hk & Hc)]; [exists a, x; by rewrite lookup_insert_eq|].
    exists b, y. split; [|done]. rewrite lookup_insert_ne; [done|]. intros ->. specialize (Hx y Hb). congruence.
Qed.

Lemma keyed_delete h a x : keys_distinct h -> h !! a = Some x -> keyed (delete a h) = delete (key x) (keyed h).
Proof.
  intros Hd Ha. apply map_eq. intros k. apply option_eq. intros c. rewrite lookup_delete_Some, !keyed_lookup by (try apply keys_delete; done). split.
  - intros (b & y & [Hne Hb]%lookup_delete_Some & Hk & Hc). split; [|by exists b, y]. intros <-. apply Hne. by eapply Hd.
  - intros (Hne & b & y & Hb & Hk & Hc). exists b, y. rewrite lookup_delete_ne; [done|]. intros ->. congruence.
Qed.
End keyed.

(** An allocator for examples: an address that is neither null nor in use. *)
Definition unused {A} (h : gmap Z A) : Z := fresh (dom h ∪ {[0]}).

Lemma unused_ok {A} (h : gmap Z A) : unused h <> 0 /\ h !! unused h = None.
Proof.
  pose proof (is_fresh (dom h ∪ {[0]})) as H. apply not_elem_of_union in H as [H1 H2]. split; [by apply not_elem_of_singleton in H2|by apply not_elem_of_dom].
Qed.
