(* ===== verification/Links.v ===== *)
(** * Linked lists in a heap

    Lists of records that are linked by pointers, for any type of records: the heap is a
    finite map from addresses, 0 is the null pointer.  [chain] is a list linked one way,
    [dseg] a stretch of a list linked both ways, [dchain] a whole one. *)

From S2P Require Import Prelude.

Section links.
Context {A : Type} (next prev : A -> Z).

Fixpoint chain (h : gmap Z A) (p : Z) (l : list Z) : Prop :=
  match l with
  | [] => p = 0
  | t :: l => p = t /\ t <> 0 /\ exists x, h !! t = Some x /\ chain h (next x) l
  end.

Lemma links_frame h h' l : forall p, (forall t, t ∈ l -> h' !! t = h !! t) -> chain h p l -> chain h' p l.
Proof.
  induction l as [|t l IH]; intros p Hf; simpl; [done|]. intros (-> & H0 & x & Hx & Hl). split; [done|]. split; [done|].
  exists x. split; [rewrite Hf by left; done|]. apply IH; [|done]. intros u Hu. apply Hf. by right.
Qed.

Lemma chain_live h l : forall p t, chain h p l -> t ∈ l -> t <> 0 /\ is_Some (h !! t).
Proof.
  induction l as [|u l IH]; intros p t Hl Ht; [by apply not_elem_of_nil in Ht|].
  destruct Hl as (-> & H0 & x & Hx & Hl). apply elem_of_cons in Ht as [->|Ht]; [|by eapply IH]. split; [done|by exists x].
Qed.

Lemma chain_head h p l : chain h p l -> p = default 0 (head l).
Proof. destruct l; simpl; [done|]. by intros [-> _]. Qed.

Lemma chain_in h l p : chain h p l -> p <> 0 -> p ∈ l.
Proof. destruct l; simpl; [done|]. intros [-> _] _. by left. Qed.

(** The record at the end is made to point at a new last one. *)
Lemma chain_snoc h h' l e t y y' x : forall p,
  chain h p (l ++ [e]) -> e ∉ l -> t <> 0 -> h !! e = Some y -> h' !! e = Some y' -> next y' = t -> h' !! t = Some x -> next x = 0 ->
  (forall u, u ∈ l -> h' !! u = h !! u) -> chain h' p (l ++ [e; t]).
Proof.
  induction l as [|u l IH]; intros p Hl He H0 Hy Hy' Hn Hx Hx0 Hf; simpl in *.
  - destruct Hl as (-> & He0 & _). split; [done|]. split; [done|]. exists y'. split; [done|]. split; [done|]. split; [done|]. by exists x.
  - destruct Hl as (-> & Hu0 & x' & Hx' & Hl). apply not_elem_of_cons in He as [_ He]. split; [done|]. split; [done|].
    exists x'. split; [rewrite Hf by left; done|]. apply IH; try done. intros v Hv. apply Hf. by right.
Qed.

(** One record in the middle is bypassed. *)
Lemma chain_bypass h h' l1 a t l2 x y y' : forall p,
  chain h p (l1 ++ a :: t :: l2) -> a ∉ l1 -> h !! a = Some y -> h' !! a = Some y' -> h !! t = Some x -> next y' = next x ->
  (forall u, u ∈ l1 \/ u ∈ l2 -> h' !! u = h !! u) -> chain h' p (l1 ++ a :: l2).
Proof.
  induction l1 as [|u l1 IH]; intros p Hl Ha Hy Hy' Hx Hn Hf; simpl in *.
  - destruct Hl as (-> & H0 & y0 & Hy0 & _ & _ & x0 & Hx0 & Hl). split; [done|]. split; [done|]. exists y'. split; [done|].
    rewrite Hx in Hx0. injection Hx0 as <-. rewrite Hn. eapply links_frame; [|done]. intros v Hv. apply Hf. by right.
  - destruct Hl as (-> & H0 & x0 & Hx0 & Hl). apply not_elem_of_cons in Ha as [_ Ha]. split; [done|]. split; [done|].
    exists x0. split; [rewrite Hf by (left; by left); done|]. apply IH; try done. intros v Hv. apply Hf. destruct Hv; [left; by right|by right].
Qed.

(** [dseg h q p l m]: the records [l], the first at [p] with [q] before it, the last with
    [m] after it. *)
Fixpoint dseg (h : gmap Z A) (q p : Z) (l : list Z) (m : Z) : Prop :=
  match l with
  | [] => p = m
  | t :: l => p = t /\ t <> 0 /\ exists x, h !! t = Some x /\ prev x = q /\ dseg h t (next x) l m
  end.

Definition dchain (h : gmap Z A) (p : Z) (l : list Z) : Prop := dseg h 0 p l 0.
Definition last_of (q : Z) (l : list Z) : Z := default q (last l).

Lemma last_of_cons q t l : last_of q (t :: l) = last_of t l.
Proof. unfold last_of. rewrite last_cons. by destruct (last l). Qed.
Lemma last_of_snoc q l t : last_of q (l ++ [t]) = t.
Proof. unfold last_of. by rewrite last_snoc. Qed.

Lemma dseg_frame h h' l : forall q p m, (forall t, t ∈ l -> h' !! t = h !! t) -> dseg h q p l m -> dseg h' q p l m.
Proof.
  induction l as [|t l IH]; intros q p m Hf; simpl; [done|]. intros (-> & H0 & x & Hx & Hp & Hl). split; [done|]. split; [done|].
  exists x. split; [rewrite Hf by left; done|]. split; [done|]. apply IH; [|done]. intros u Hu. apply Hf. by right.
Qed.

Lemma dseg_live h l : forall q p m t, dseg h q p l m -> t ∈ l -> t <> 0 /\ is_Some (h !! t).
Proof.
  induction l as [|u l IH]; intros q p m t Hl Ht; [by apply not_elem_of_nil in Ht|].
  destruct Hl as (-> & H0 & x & Hx & Hp & Hl). apply elem_of_cons in Ht as [->|Ht]; [|by eapply IH]. split; [done|by exists x].
Qed.

Lemma dseg_app h l1 l2 : forall q p m,
  dseg h q p (l1 ++ l2) m <-> exists k, dseg h q p l1 k /\ dseg h (last_of q l1) k l2 m.
Proof.
  induction l1 as [|t l1 IH]; intros q p m; simpl.
  - split; [intros H; by exists p|]. by intros (k & -> & H).
  - split.
    + intros (-> & H0 & x & Hx & Hp & (k & H1 & H2)%IH). exists k. rewrite last_of_cons. split; [|done].
      split; [done|]. split; [done|]. by exists x.
    + intros (k & (-> & H0 & x & Hx & Hp & H1) & H2). rewrite last_of_cons in H2. split; [done|]. split; [done|].
      exists x. split; [done|]. split; [done|]. apply IH. by exists k.
Qed.

(** The pointer after the last record, and the one before the first, change. *)
Lemma dseg_retarget h h' l t x x' q p m m' :
  dseg h q p (l ++ [t]) m -> h !! t = Some x -> h' !! t = Some x' -> prev x' = prev x -> next x' = m' ->
  (forall u, u ∈ l -> h' !! u = h !! u) -> dseg h' q p (l ++ [t]) m'.
Proof.
  intros (k & H1 & -> & H0 & y & Hy & Hp & Hm)%dseg_app Hx Hx' Ep En Hf. apply dseg_app. exists t.
  split; [by eapply dseg_frame|]. split; [done|]. split; [done|]. exists x'. split; [done|]. split; [congruence|done].
Qed.

Lemma dseg_reback h h' l t x x' q q' p m :
  dseg h q p (t :: l) m -> h !! t = Some x -> h' !! t = Some x' -> prev x' = q' -> next x' = next x ->
  (forall u, u ∈ l -> h' !! u = h !! u) -> dseg h' q' p (t :: l) m.
Proof.
  intros (-> & H0 & y & Hy & Hp & Hl) Hx Hx' Ep En Hf. split; [done|]. split; [done|]. exists x'. split; [done|]. split; [done|].
  rewrite En. eapply dseg_frame; [|by simplify_eq]. done.
Qed.

(** What a record in the middle points at. *)
Lemma dchain_mid h p l1 t l2 x : dchain h p (l1 ++ t :: l2) -> h !! t = Some x ->
  prev x = last_of 0 l1 /\ next x = default 0 (head l2).
Proof.
  intros (k & H1 & -> & H0 & y & Hy & Hp & H2)%dseg_app Hx. simplify_eq. split; [done|].
  destruct l2 as [|u l2]; simpl in *; [done|]. by destruct H2 as [-> _].
Qed.

(** A record is unlinked: the one before it and the one after it point at each other. *)
Lemma dchain_unlink h h' p l1 t l2 :
  dchain h p (l1 ++ t :: l2) -> NoDup (l1 ++ t :: l2) ->
  (forall u x, u ∈ l1 \/ u ∈ l2 -> h !! u = Some x ->
     exists x', h' !! u = Some x' /\
       next x' = (if decide (last l1 = Some u) then default 0 (head l2) else next x) /\
       prev x' = (if decide (head l2 = Some u) then last_of 0 l1 else prev x) /\
       (last l1 <> Some u -> head l2 <> Some u -> x' = x)) ->
  dchain h' (if l1 is [] then default 0 (head l2) else p) (l1 ++ l2).
Proof.
  intros Hd Hnd Hh. pose proof Hd as (k & H1 & -> & H0 & y & Hy & Hp & H2)%dseg_app.
  apply NoDup_app in Hnd as (N1 & Nd & N2). apply NoDup_cons in N2 as [Nt N2].
  assert (forall u, u ∈ l1 -> u ∉ l2) as Hdis by (intros u Hu1 Hu2; apply (Nd u Hu1); by right).
  apply dseg_app. exists (default 0 (head l2)). split.
  - destruct l1 as [|a l1 _] using rev_ind; [done|].
    assert (match l1 ++ [a] with [] => default 0 (head l2) | _ => p end = p) as -> by (by destruct l1).
    destruct (dseg_live _ _ _ _ _ a H1) as [_ [x Hx]]; [apply elem_of_app; right; by left|].
    destruct (Hh a x) as (x' & Hx' & En & Ep & _); [left; apply elem_of_app; right; by left|done|].
    rewrite last_snoc, decide_True in En by done.
    rewrite decide_False in Ep; [|intros E; apply (Hdis a); [apply elem_of_app; right; by left|]; destruct l2; simplify_eq/=; by left].
    eapply dseg_retarget; [exact H1|done|done|done|done|]. intros u Hu.
    apply NoDup_app in N1 as (_ & Na & _). destruct (dseg_live _ _ _ _ _ u H1) as [_ [z Hz]]; [apply elem_of_app; by left|].
    destruct (Hh u z) as (z' & Hz' & _ & _ & Ez); [left; apply elem_of_app; by left|done|]. rewrite Hz', Hz. f_equal. apply Ez.
    + rewrite last_snoc. intros [= ->]. apply (Na u Hu). by left.
    + intros E. apply (Hdis u); [apply elem_of_app; by left|]. destruct l2; simplify_eq/=; by left.
  - destruct l2 as [|b l2]; [done|]. cbn [head default] in *. change (dseg h t (next y) (b :: l2) 0) in H2.
    destruct (dseg_live _ _ _ _ _ b H2) as [_ [x Hx]]; [by left|].
    destruct (Hh b x) as (x' & Hx' & En & Ep & _); [right; by left|done|]. rewrite decide_True in Ep by done.
    assert (next y = b) as Eb by (by destruct H2 as [-> _]). rewrite Eb in H2.
    rewrite decide_False in En; [|intros [l E]%last_Some; apply (Hdis b); [rewrite E; apply elem_of_app; right; by left|by left]].
    eapply dseg_reback; [exact H2|done|done|done|done|]. intros u Hu. apply NoDup_cons in N2 as [Nb _].
    destruct (dseg_live _ _ _ _ _ u H2) as [_ [z Hz]]; [by right|].
    destruct (Hh u z) as (z' & Hz' & _ & _ & Ez); [right; by right|done|]. rewrite Hz', Hz. f_equal. apply Ez.
    + intros [l E]%last_Some. apply (Hdis u); [rewrite E; apply elem_of_app; right; by left|by right].
    + intros [= ->]. done.
Qed.

(** A record is put in front. *)
Lemma dchain_push h h' p l t x :
  dchain h p l -> t <> 0 -> t ∉ l -> NoDup l -> h' !! t = Some x -> next x = p -> prev x = 0 ->
  (forall u y, u ∈ l -> h !! u = Some y ->
     exists y', h' !! u = Some y' /\ next y' = next y /\ prev y' = (if decide (u = p) then t else prev y) /\ (u <> p -> y' = y)) ->
  dchain h' t (t :: l).
Proof.
  intros Hd H0 Ht Hnd Hx En Ep Hh. split; [done|]. split; [done|]. exists x. split; [done|]. split; [done|]. rewrite En.
  destruct l as [|u l]; [exact Hd|]. pose proof Hd as (-> & Hu0 & y & Hy & _ & _).
  destruct (Hh u y ltac:(by left) Hy) as (y' & Hy' & En' & Ep' & _). rewrite decide_True in Ep' by done.
  eapply dseg_reback; [exact Hd|done|done|done|done|]. intros v Hv. apply NoDup_cons in Hnd as [Hn _].
  destruct (dseg_live _ _ _ _ _ v Hd) as [_ [z Hz]]; [by right|].
  destruct (Hh v z ltac:(by right) Hz) as (z' & Hz' & _ & _ & Ez). rewrite Hz', Hz. f_equal. apply Ez. by intros ->.
Qed.
End links.

(** A heap has at least as many records as a list of different ones. *)
Lemma nodup_size {A} (h : gmap Z A) (l : list Z) : NoDup l -> (forall p, p ∈ l -> is_Some (h !! p)) -> (length l <= size h)%nat.
Proof.
  intros Hnd Hl. rewrite <- (size_list_to_set (C := gset Z) l Hnd), <- (size_dom (D := gset Z) h). apply subseteq_size.
  intros p Hp%elem_of_list_to_set. by apply elem_of_dom, Hl.
Qed.

Lemma omap_same {A B} (f g : A -> option B) (l : list A) : (forall x, x ∈ l -> f x = g x) -> omap f l = omap g l.
Proof.
  induction l as [|x l IH]; intros Hl; [done|]. simpl. rewrite (Hl x) by left.
  destruct (g x); [f_equal|]; apply IH; intros y Hy; apply Hl; by right.
Qed.
