(* ===== verification/Chains.v ===== *)
(** * Loops over lists linked one way

    The loops that search a list of heap records and unlink one of them, for any type of
    records: [get] reads and [set] writes the link field.  They run as searching and
    removing in the list of addresses. *)

From S2P Require Import Prelude Links.

Fixpoint walk {A} (get : A -> Z) (test : A -> bool) (fuel : nat) (h : gmap Z A) (a : Z) : outcome (option Z) :=
  if a =? 0 then Ok None else
  match fuel with
  | O => Fuel
  | S fuel =>
    let! l := of_option (h !! a) in
    if test l then Ok (Some a) else walk get test fuel h (get l)
  end.

(** The unlinking loops: [pp] is the head of the list ([prev] = None) or the link field of
    the record [prev]; the first record that passes the test is taken out.  The result has
    the heap, the new head and the record. *)
Fixpoint unlink {A} (get : A -> Z) (set : Z -> A -> A) (test : Z -> A -> bool) (fuel : nat) (h : gmap Z A)
  (head : Z) (prev : option Z) (cur : Z) : outcome (gmap Z A * Z * option Z) :=
  if cur =? 0 then Ok (h, head, None) else
  match fuel with
  | O => Fuel
  | S fuel =>
    let! l := of_option (h !! cur) in
    if test cur l then
      match prev with
      | None => Ok (h, get l, Some cur)
      | Some q => let! lq := of_option (h !! q) in Ok (<[q := set (get l) lq]> h, head, Some cur)
      end
    else unlink get set test fuel h head (Some cur) (get l)
  end.

(** ** What they do on a chain *)

Lemma nodup_middle {X} (l1 : list X) a l2 : NoDup (l1 ++ a :: l2) -> NoDup (l1 ++ l2) /\ a ∉ l1 ++ l2.
Proof.
  intros (N1 & Nd & [Na N2]%NoDup_cons)%NoDup_app. split.
  - apply NoDup_app. split; [done|]. split; [|done]. intros x Hx Hx2. apply (Nd x Hx). by right.
  - rewrite elem_of_app. intros [H|H]; [apply (Nd a H); left|done].
Qed.

Section chains.
Context {A : Type}.
Implicit Types (h : gmap Z A).

Lemma chain_same (get : A -> Z) h h' l : forall p,
  (forall t x, t ∈ l -> h !! t = Some x -> exists x', h' !! t = Some x' /\ get x' = get x) -> chain get h p l -> chain get h' p l.
Proof.
  induction l as [|t l IH]; intros p Hf; simpl; [done|]. intros (-> & H0 & x & Hx & Hl). split; [done|]. split; [done|].
  destruct (Hf t x ltac:(left) Hx) as (x' & Hx' & E). exists x'. split; [done|]. rewrite E. apply IH; [|done].
  intros u y Hu. apply Hf. by right.
Qed.

(** The first record of a list that passes a test. *)
Fixpoint first_in (h : gmap Z A) (test : A -> bool) (l : list Z) : option Z :=
  match l with
  | [] => None
  | a :: l => match h !! a with Some x => if test x then Some a else first_in h test l | None => first_in h test l end
  end.

Lemma first_in_spec h test (l : list Z) : 
  match first_in h test l with
  | Some a => a ∈ l /\ exists x, h !! a = Some x /\ test x = true
  | None => forall a x, a ∈ l -> h !! a = Some x -> test x = false
  end.
Proof.
  induction l as [|a l IH]; simpl; [by intros a x ?%not_elem_of_nil|].
  destruct (h !! a) as [x|] eqn:E; [destruct (test x) eqn:T|].
  - split; [left|]. by exists x.
  - destruct (first_in h test l) as [b|]; [destruct IH as [H1 H2]; split; [by right|done]|].
    intros b y [->|Hb]%elem_of_cons Hy; [congruence|by eapply IH].
  - destruct (first_in h test l) as [b|]; [destruct IH as [H1 H2]; split; [by right|done]|].
    intros b y [->|Hb]%elem_of_cons Hy; [congruence|by eapply IH].
Qed.

Lemma walk_run get test h l : forall fuel a, chain get h a l -> (length l < fuel)%nat -> walk get test fuel h a = Ok (first_in h test l).
Proof.
  induction l as [|t l IH]; intros fuel a Hl Hf; simpl in *.
  - subst a. by destruct fuel.
  - destruct Hl as (-> & H0 & x & Hx & Hl). destruct fuel as [|fuel]; [lia|]. simpl. destruct (Z.eqb_spec t 0); [done|].
    rewrite Hx. cbn [of_option obind]. destruct (test x); [done|]. apply IH; [done|lia].
Qed.

(** The unlinking loop stops at the first record that passes and rewrites the link that
    leads to it. *)
Lemma unlink_run get set test h head t x l2 : h !! t = Some x -> test t x = true ->
  forall l1 fuel prev cur, chain get h cur (l1 ++ t :: l2) -> (forall u y, u ∈ l1 -> h !! u = Some y -> test u y = false) -> (length l1 < fuel)%nat ->
  unlink get set test fuel h head prev cur =
    match (match last l1 with Some q => Some q | None => prev end) with
    | None => Ok (h, get x, Some t)
    | Some q => let! lq := of_option (h !! q) in Ok (<[q := set (get x) lq]> h, head, Some t)
    end.
Proof.
  intros Hx Ht. induction l1 as [|u l1 IH]; intros fuel prev cur Hl Hno Hf.
  - destruct fuel as [|fuel]; [lia|]. destruct Hl as (-> & H0 & _). cbn [unlink]. destruct (Z.eqb_spec t 0); [done|].
    rewrite Hx. cbn [of_option obind]. by rewrite Ht.
  - destruct fuel as [|fuel]; [simpl in Hf; lia|]. destruct Hl as (-> & H0 & y & Hy & Hl).
    cbn [unlink]. destruct (Z.eqb_spec u 0); [done|]. rewrite Hy. cbn [of_option obind]. rewrite (Hno u y ltac:(left) Hy).
    rewrite (IH fuel (Some u) (get y) Hl ltac:(intros v z Hv; apply Hno; by right) ltac:(simpl in Hf; lia)). rewrite last_cons. by destruct (last l1).
Qed.

(** No record passes. *)
Lemma unlink_none get set test h head l : forall fuel prev cur, chain get h cur l -> (forall u y, u ∈ l -> h !! u = Some y -> test u y = false) ->
  (length l < fuel)%nat -> unlink get set test fuel h head prev cur = Ok (h, head, None).
Proof.
  induction l as [|u l IH]; intros fuel prev cur Hl Hno Hf.
  - cbn in Hl. subst cur. by destruct fuel.
  - destruct Hl as (-> & H0 & y & Hy & Hl). destruct fuel as [|fuel]; [cbn in Hf; lia|]. cbn [unlink]. destruct (Z.eqb_spec u 0); [done|].
    rewrite Hy. cbn [of_option obind]. rewrite (Hno u y ltac:(left) Hy). apply IH; [done| |cbn in Hf; lia]. intros v z Hv. apply Hno. by right.
Qed.

(** The heap after unlinking: only the link field of the record before it changed. *)
Lemma unlink_spec (get : A -> Z) set test h head t x l1 l2 fuel :
  (forall n y, get (set n y) = n) -> chain get h head (l1 ++ t :: l2) -> NoDup (l1 ++ t :: l2) -> (length l1 < fuel)%nat ->
  h !! t = Some x -> test t x = true -> (forall u y, u ∈ l1 -> h !! u = Some y -> test u y = false) ->
  exists h' head', unlink get set test fuel h head None head = Ok (h', head', Some t) /\ chain get h' head' (l1 ++ l2) /\
    forall a, h' !! a = h !! a \/ (a ∈ l1 /\ exists y n, h !! a = Some y /\ h' !! a = Some (set n y)).
Proof.
  intros Hgs Hl Hnd Hf Hx Ht Hno. apply NoDup_app in Hnd as (N1 & Nd & N2). apply NoDup_cons in N2 as [Nt N2].
  rewrite (unlink_run get set test h head t x l2 Hx Ht l1 fuel None head Hl Hno Hf). clear Hno.
  destruct l1 as [|q l1 _] using rev_ind.
  - simpl. exists h, (get x). split; [done|]. destruct Hl as (-> & _ & y & Hy & Hl). simplify_eq. split; [done|]. intros a. by left.
  - rewrite last_snoc. destruct (chain_live get h _ head q Hl) as [_ [y Hy]]; [rewrite <- (assoc_L (++)); apply elem_of_app; right; left|].
    rewrite Hy. cbn [of_option obind]. exists (<[q := set (get x) y]> h), head. split; [done|]. split.
    + apply NoDup_app in N1 as (N1 & Nq & _). assert (q ∉ l1) as Hq by (intros H; apply (Nq q H); left).
      assert (q ∉ l2) as Hq2 by (intros H; apply (Nd q); [apply elem_of_app; right; left|by right]).
      rewrite <- (assoc_L (++)) in Hl |- *. apply (chain_bypass get h _ l1 q t l2 x y (set (get x) y)); try done.
      * by rewrite lookup_insert_eq.
      * intros u Hu. rewrite lookup_insert_ne; [done|]. intros ->. tauto.
    + intros a. destruct (decide (a = q)) as [->|Hne]; [right|left; by rewrite lookup_insert_ne].
      split; [apply elem_of_app; right; left|]. exists y, (get x). by rewrite lookup_insert_eq.
Qed.
End chains.
