(* ===== verification/Handler.v ===== *)
(** * src/core/qd_handler.c: tables of message handlers

    A table maps command numbers to handlers through 64 hash buckets, each a list of nodes
    in the heap; address 0 is NULL and an access to a freed node is [Undef].  Functions are
    numbers, 0 is a null function pointer; [exec] runs one of them on its argument, the
    result so far (for the hooks after a call) and the context, and may change the table and
    the rest of the world.  calloc is a function of the heap it finds, the clock of a
    dispatch is a pair of readings. *)

From S2P Require Import Prelude Common Bytes Keyed Links Chains.

Definition QD_HANDLER_MAX_ENTRIES : Z := 256.
Definition QD_HANDLER_HASH_SIZE : Z := 64.
Definition QD_HANDLER_FLAG_METRIC : Z := 4.
Definition QD_HANDLER_OK : Z := 0.
Definition QD_HANDLER_ERROR : Z := -1.
Definition QD_HANDLER_NOT_FOUND : Z := -2.
Definition QD_HANDLER_INVALID : Z := -3.
Definition QD_HANDLER_SKIP : Z := 1.

Record qd_handler_node := mkNode {
  n_cmd : Z; n_handler : Z; n_arg : Z; n_flags : Z; n_name : Z; n_next : Z;
  call_count : Z; error_count : Z; total_time_ns : Z
}.

(** A hook is a function and its argument. *)
Record qd_handler_table := mkTable {
  nodes : gmap Z qd_handler_node;
  buckets : list Z; num_handlers : Z;
  default_handler : Z * Z; pre_hook : Z * Z; post_hook : Z * Z; error_handler : Z * Z;
  t_user_data : Z;
  total_calls : Z; total_errors : Z; unknown_commands : Z
}.

Definition handler_hash (cmd : Z) : Z := u32 (cmd * 2654435761) mod QD_HANDLER_HASH_SIZE.
Definition bucket (cmd : Z) : nat := Z.to_nat (handler_hash cmd).

Definition qd_handler_table_create (calloc_ok : bool) : option qd_handler_table :=
  if calloc_ok then Some (mkTable ∅ (zeros QD_HANDLER_HASH_SIZE) 0 (0, 0) (0, 0) (0, 0) (0, 0) 0 0 0 0) else None.

(** ** Field updates *)

Definition set_nodes (h : gmap Z qd_handler_node) (b : list Z) (n : Z) (t : qd_handler_table) : qd_handler_table :=
  mkTable h b n (default_handler t) (pre_hook t) (post_hook t) (error_handler t) (t_user_data t)
    (total_calls t) (total_errors t) (unknown_commands t).
Definition set_hooks (d pre post err : Z * Z) (t : qd_handler_table) : qd_handler_table :=
  mkTable (nodes t) (buckets t) (num_handlers t) d pre post err (t_user_data t)
    (total_calls t) (total_errors t) (unknown_commands t).
Definition set_counts (calls errors unknown : Z) (t : qd_handler_table) : qd_handler_table :=
  mkTable (nodes t) (buckets t) (num_handlers t) (default_handler t) (pre_hook t) (post_hook t) (error_handler t) (t_user_data t)
    calls errors unknown.
Definition set_target (fn arg fl : Z) (n : qd_handler_node) : qd_handler_node :=
  mkNode (n_cmd n) fn arg fl (n_name n) (n_next n) (call_count n) (error_count n) (total_time_ns n).
Definition set_n_next (p : Z) (n : qd_handler_node) : qd_handler_node :=
  mkNode (n_cmd n) (n_handler n) (n_arg n) (n_flags n) (n_name n) p (call_count n) (error_count n) (total_time_ns n).
Definition set_stats (calls errors time : Z) (n : qd_handler_node) : qd_handler_node :=
  mkNode (n_cmd n) (n_handler n) (n_arg n) (n_flags n) (n_name n) (n_next n) calls errors time.

(** ** Registration *)

Definition chain_fuel (t : qd_handler_table) : nat := S (size (nodes t)).
Definition is_cmd (cmd : Z) (n : qd_handler_node) : bool := n_cmd n =? cmd.

Definition find_handler (t : qd_handler_table) (cmd : Z) : outcome (option Z) :=
  let! head := of_option (buckets t !! bucket cmd) in
  walk n_next (is_cmd cmd) (chain_fuel t) (nodes t) head.

Definition qd_handler_register_fn (alloc : gmap Z qd_handler_node -> option Z) (t : qd_handler_table) (cmd fn arg fl : Z)
  : outcome (Z * qd_handler_table) :=
  if fn =? 0 then Ok (QD_ERR_INVAL, t) else
  if QD_HANDLER_MAX_ENTRIES <=? num_handlers t then Ok (QD_ERR_NOMEM, t) else
  let! node := find_handler t cmd in
  match node with
  | Some a =>
    let! n := of_option (nodes t !! a) in
    Ok (QD_OK, set_nodes (<[a := set_target fn arg fl n]> (nodes t)) (buckets t) (num_handlers t) t)
  | None =>
    match alloc (nodes t) with
    | None => Ok (QD_ERR_NOMEM, t)
    | Some a =>
      let! head := of_option (buckets t !! bucket cmd) in
      Ok (QD_OK, set_nodes (<[a := mkNode cmd fn arg fl 0 head 0 0 0]> (nodes t)) (<[bucket cmd := a]> (buckets t)) (num_handlers t + 1) t)
    end
  end.

(** A static entry; its name is not passed on. *)
Record qd_handler_entry := mkEntry { e_cmd : Z; e_handler : Z; e_arg : Z; e_flags : Z; e_name : Z }.

Definition qd_handler_register (alloc : gmap Z qd_handler_node -> option Z) (t : qd_handler_table) (e : qd_handler_entry)
  : outcome (Z * qd_handler_table) :=
  if e_handler e =? 0 then Ok (QD_ERR_INVAL, t) else
  qd_handler_register_fn alloc t (e_cmd e) (e_handler e) (e_arg e) (e_flags e).

(** The array ends with an entry that has no handler; running past its end is [Undef]. *)
Fixpoint register_entries (alloc : gmap Z qd_handler_node -> option Z) (es : list qd_handler_entry) (n : Z) (t : qd_handler_table)
  : outcome (Z * qd_handler_table) :=
  match es with
  | [] => Undef
  | e :: es =>
    if e_handler e =? 0 then Ok (n, t) else
    let! (ret, t) := qd_handler_register alloc t e in
    if negb (ret =? QD_OK) then Ok (ret, t) else register_entries alloc es (n + 1) t
  end.
Definition qd_handler_register_table (alloc : gmap Z qd_handler_node -> option Z) (t : qd_handler_table) (es : list qd_handler_entry) :=
  register_entries alloc es 0 t.

Definition qd_handler_unregister (t : qd_handler_table) (cmd : Z) : outcome (Z * qd_handler_table) :=
  let! head := of_option (buckets t !! bucket cmd) in
  let! (h, head, node) := unlink n_next set_n_next (fun _ => is_cmd cmd) (chain_fuel t) (nodes t) head None head in
  match node with
  | Some a => Ok (QD_OK, set_nodes (delete a h) (<[bucket cmd := head]> (buckets t)) (num_handlers t - 1) t)
  | None => Ok (QD_ERR_NOENT, t)
  end.

Definition qd_handler_set_default (t : qd_handler_table) (fn arg : Z) := set_hooks (fn, arg) (pre_hook t) (post_hook t) (error_handler t) t.
Definition qd_handler_set_pre_hook (t : qd_handler_table) (fn arg : Z) := set_hooks (default_handler t) (fn, arg) (post_hook t) (error_handler t) t.
Definition qd_handler_set_post_hook (t : qd_handler_table) (fn arg : Z) := set_hooks (default_handler t) (pre_hook t) (fn, arg) (error_handler t) t.
Definition qd_handler_set_error_handler (t : qd_handler_table) (fn arg : Z) := set_hooks (default_handler t) (pre_hook t) (post_hook t) (fn, arg) t.
Definition qd_handler_set_user_data (t : qd_handler_table) (p : Z) : qd_handler_table :=
  mkTable (nodes t) (buckets t) (num_handlers t) (default_handler t) (pre_hook t) (post_hook t) (error_handler t) p
    (total_calls t) (total_errors t) (unknown_commands t).
Definition qd_handler_get_user_data (t : qd_handler_table) : Z := t_user_data t.

Definition qd_handler_exists (t : qd_handler_table) (cmd : Z) : outcome bool :=
  let! r := find_handler t cmd in Ok (bool_decide (is_Some r)).

(** The node read through a pointer to an entry: the five fields that come first in both. *)
Definition qd_handler_get (t : qd_handler_table) (cmd : Z) : outcome (option qd_handler_entry) :=
  let! r := find_handler t cmd in
  match r with
  | None => Ok None
  | Some a => let! n := of_option (nodes t !! a) in Ok (Some (mkEntry (n_cmd n) (n_handler n) (n_arg n) (n_flags n) (n_name n)))
  end.

(** ** The context and its response *)

Section dispatch.
Context {D U : Type}.

Record qd_handler_ctx := mkCtx {
  c_cmd : Z; c_flags : Z; c_data : option D; c_len : Z; c_user_data : Z; c_conn : Z;
  response : option (list Z); response_len : Z; response_cap : Z; c_status : Z;
  timestamp : Z; seq_no : Z
}.

Definition qd_handler_ctx_init : qd_handler_ctx := mkCtx 0 0 None 0 0 0 None 0 0 0 0 0.

Definition set_response (r : option (list Z)) (len cap : Z) (c : qd_handler_ctx) : qd_handler_ctx :=
  mkCtx (c_cmd c) (c_flags c) (c_data c) (c_len c) (c_user_data c) (c_conn c) r len cap (c_status c) (timestamp c) (seq_no c).
Definition set_cmd (cmd user : Z) (c : qd_handler_ctx) : qd_handler_ctx :=
  mkCtx cmd (c_flags c) (c_data c) (c_len c) user (c_conn c) (response c) (response_len c) (response_cap c) (c_status c) (timestamp c) (seq_no c).

(** A new block of [len] bytes, whose content is [junk]. *)
Definition block (junk : list Z) (len : Z) : list Z := take (Z.to_nat len) (junk ++ zeros len).

Definition qd_handler_ctx_set_response (malloc_ok : bool) (junk : list Z) (c : qd_handler_ctx) (data : list Z) (len : Z) : outcome (Z * qd_handler_ctx) :=
  match response c with
  | Some b =>
    if 0 <? response_cap c then
      let len := if response_cap c <? len then response_cap c else len in
      let! bytes := load data 0 len in
      let! b := store b 0 bytes in
      Ok (QD_OK, set_response (Some b) len (response_cap c) c)
    else if malloc_ok then
      let! bytes := load data 0 len in
      let! b := store (block junk len) 0 bytes in
      Ok (QD_OK, set_response (Some b) len len c)
    else Ok (QD_ERR_NOMEM, set_response None (response_len c) (response_cap c) c)
  | None =>
    if malloc_ok then
      let! bytes := load data 0 len in
      let! b := store (block junk len) 0 bytes in
      Ok (QD_OK, set_response (Some b) len len c)
    else Ok (QD_ERR_NOMEM, set_response None (response_len c) (response_cap c) c)
  end.

(** [while (new_cap < new_len) new_cap *= 2]; 64 rounds reach 2^64 from any start. *)
Fixpoint grow_cap (fuel : nat) (cap len : Z) : outcome Z :=
  if len <=? cap then Ok cap else
  match fuel with O => Fuel | S fuel => grow_cap fuel (cap *64 2) len end.

(** realloc: the old bytes are kept, the rest is [junk]. *)
Definition regrow (b : option (list Z)) (junk : list Z) (cap : Z) : list Z :=
  take (Z.to_nat cap) (default [] b ++ junk ++ zeros cap).

Definition qd_handler_ctx_append_response (realloc_ok : bool) (junk : list Z) (c : qd_handler_ctx) (data : list Z) (len : Z) : outcome (Z * qd_handler_ctx) :=
  let new_len := response_len c +64 len in
  let! bytes := load data 0 len in
  if response_cap c <? new_len then
    let! cap := grow_cap 64 (if response_cap c =? 0 then 256 else response_cap c *64 2) new_len in
    if realloc_ok then
      let! b := store (regrow (response c) junk cap) (response_len c) bytes in
      Ok (QD_OK, set_response (Some b) new_len cap c)
    else Ok (QD_ERR_NOMEM, c)
  else
    let! b := of_option (response c) in
    let! b := store b (response_len c) bytes in
    Ok (QD_OK, set_response (Some b) new_len (response_cap c) c).

Definition qd_handler_ctx_alloc_response (realloc_ok : bool) (junk : list Z) (c : qd_handler_ctx) (len : Z) : option (list Z) * qd_handler_ctx :=
  if len <=? response_cap c then (response c, set_response (response c) len (response_cap c) c) else
  if realloc_ok then let b := regrow (response c) junk len in (Some b, set_response (Some b) len len c) else (None, c).

(** ** Dispatch *)

Record hworld := mkHWorld { table : qd_handler_table; user : U }.

Context (exec : Z -> Z -> Z -> qd_handler_ctx -> hworld -> outcome (Z * qd_handler_ctx * hworld)).

Definition on_table (f : qd_handler_table -> qd_handler_table) (w : hworld) : hworld := mkHWorld (f (table w)) (user w).

Definition count_call (t : qd_handler_table) := set_counts (u64 (total_calls t + 1)) (total_errors t) (unknown_commands t) t.
Definition count_error (t : qd_handler_table) := set_counts (total_calls t) (u64 (total_errors t + 1)) (unknown_commands t) t.
Definition count_unknown (t : qd_handler_table) := set_counts (total_calls t) (total_errors t) (u64 (unknown_commands t + 1)) t.

(** Call a hook if it is set. *)
Definition hook (h : Z * Z) (r : Z) (c : qd_handler_ctx) (w : hworld) : outcome (Z * qd_handler_ctx * hworld) :=
  if h.1 =? 0 then Ok (0, c, w) else exec h.1 h.2 r c w.

(** The statistics of the node after the call. *)
Definition note_call (a result start stop : Z) (t : qd_handler_table) : outcome qd_handler_table :=
  let! n := of_option (nodes t !! a) in
  let errors := if result <? 0 then u64 (error_count n + 1) else error_count n in
  let time := if 0 <? start then total_time_ns n +64 (stop -64 start) else total_time_ns n in
  let t := set_nodes (<[a := set_stats (u64 (call_count n + 1)) errors time n]> (nodes t)) (buckets t) (num_handlers t) t in
  Ok (if result <? 0 then count_error t else t).

(** From the call of the handler on; [node]: where it was found. *)
Definition execute (clock : Z * Z) (node : option Z) (fn arg fl : Z) (c : qd_handler_ctx) (w : hworld) : outcome (Z * qd_handler_ctx * hworld) :=
  let start := if bool_decide (is_Some node) && negb (Z.land fl QD_HANDLER_FLAG_METRIC =? 0) then clock.1 else 0 in
  let! (result, c, w) := exec fn arg 0 c w in
  let! t := match node with Some a => note_call a result start clock.2 (table w) | None => Ok (table w) end in
  let w := mkHWorld t (user w) in
  let! (_, c, w) := if result <? 0 then hook (error_handler (table w)) result c w else Ok (0, c, w) in
  let! (_, c, w) := hook (post_hook (table w)) result c w in
  Ok (result, c, w).

Definition qd_handler_dispatch_cmd (clock : Z * Z) (cmd : Z) (c : qd_handler_ctx) (w : hworld) : outcome (Z * qd_handler_ctx * hworld) :=
  let c := set_cmd cmd (t_user_data (table w)) c in
  let w := on_table count_call w in
  let! (ret, c, w) := hook (pre_hook (table w)) 0 c w in
  if negb (ret =? 0) then Ok (QD_HANDLER_SKIP, c, w) else
  let! node := find_handler (table w) cmd in
  match node with
  | Some a =>
    let! n := of_option (nodes (table w) !! a) in
    execute clock (Some a) (n_handler n) (n_arg n) (n_flags n) c w
  | None =>
    let d := default_handler (table w) in
    let w := on_table count_unknown w in
    if d.1 =? 0 then Ok (QD_HANDLER_NOT_FOUND, c, w) else execute clock None d.1 d.2 0 c w
  end.

Definition qd_handler_dispatch (clock : Z * Z) (c : qd_handler_ctx) (w : hworld) := qd_handler_dispatch_cmd clock (c_cmd c) c w.
End dispatch.
Arguments qd_handler_ctx : clear implicits.
Arguments hworld : clear implicits.

(** ** Statistics *)

Definition qd_handler_get_stats (t : qd_handler_table) : Z * Z * Z * Z := (total_calls t, total_errors t, unknown_commands t, num_handlers t).

Record qd_handler_entry_stats := mkStats { s_cmd : Z; s_name : Z; s_calls : Z; s_errors : Z; s_avg : Z }.

Definition node_stats (n : qd_handler_node) : qd_handler_entry_stats :=
  mkStats (n_cmd n) (n_name n) (call_count n) (error_count n) (if 0 <? call_count n then total_time_ns n / call_count n else 0).

Definition qd_handler_get_entry_stats (t : qd_handler_table) (cmd : Z) : outcome (Z * option qd_handler_entry_stats) :=
  let! r := find_handler t cmd in
  match r with
  | None => Ok (QD_ERR_NOENT, None)
  | Some a => let! n := of_option (nodes t !! a) in Ok (QD_OK, Some (node_stats n))
  end.

(** [iter] is the caller's function on a state of its own; it leaves the table alone.  The
    first component of the result: it asked to stop. *)
Fixpoint iterate_chain {S} (iter : qd_handler_entry_stats -> S -> Z * S) (fuel : nat) (h : gmap Z qd_handler_node) (a : Z) (s : S) : outcome (bool * S) :=
  if a =? 0 then Ok (false, s) else
  match fuel with
  | O => Fuel
  | Datatypes.S fuel =>
    let! n := of_option (h !! a) in
    let (r, s) := iter (node_stats n) s in
    if negb (r =? 0) then Ok (true, s) else iterate_chain iter fuel h (n_next n) s
  end.

Fixpoint iterate_buckets {S} (iter : qd_handler_entry_stats -> S -> Z * S) (t : qd_handler_table) (bs : list Z) (s : S) : outcome S :=
  match bs with
  | [] => Ok s
  | a :: bs => let! (stop, s) := iterate_chain iter (chain_fuel t) (nodes t) a s in if (stop : bool) then Ok s else iterate_buckets iter t bs s
  end.
Definition qd_handler_iterate {S} (iter : qd_handler_entry_stats -> S -> Z * S) (t : qd_handler_table) (s : S) : outcome S :=
  iterate_buckets iter t (buckets t) s.

(** The loops of destroy. *)
Fixpoint free_chain (fuel : nat) (h : gmap Z qd_handler_node) (a : Z) : outcome (gmap Z qd_handler_node) :=
  if a =? 0 then Ok h else
  match fuel with
  | O => Fuel
  | S fuel => let! n := of_option (h !! a) in free_chain fuel (delete a h) (n_next n)
  end.
Fixpoint free_buckets (fuel : nat) (h : gmap Z qd_handler_node) (bs : list Z) : outcome (gmap Z qd_handler_node) :=
  match bs with [] => Ok h | a :: bs => let! h := free_chain fuel h a in free_buckets fuel h bs end.
(** The nodes that are left. *)
Definition qd_handler_table_destroy (t : qd_handler_table) : outcome (gmap Z qd_handler_node) := free_buckets (chain_fuel t) (nodes t) (buckets t).
