(* ===== verification/HandlerSpec.v ===== *)
(** * What a handler table promises

    [handlers t] is the table as a map from commands to functions with their arguments and
    flags.  Any history of registrations, removals, hooks and dispatches runs as on that
    map, and every dispatch makes the calls the hooks and the map ask for, in order. *)

From S2P Require Import Prelude Common Bytes Keyed Links Chains Handler.

(** ** Representation *)

Definition target (n : qd_handler_node) : Z * Z * Z := (n_handler n, n_arg n, n_flags n).
Definition handlers (t : qd_handler_table) : gmap Z (Z * Z * Z) := keyed n_cmd target (nodes t).

Record table_rep (t : qd_handler_table) (B : nat -> list Z) : Prop := {
  tr_len : length (buckets t) = 64%nat;
  tr_chain : forall i p, buckets t !! i = Some p -> chain n_next (nodes t) p (B i);
  tr_nodup : forall i, NoDup (B i);
  tr_in : forall i a, (i < 64)%nat -> a ∈ B i <-> exists n, nodes t !! a = Some n /\ bucket (n_cmd n) = i;
  tr_keys : keys_distinct n_cmd (nodes t);
  tr_num : num_handlers t = Z.of_nat (size (nodes t))
}.

Lemma bucket_lt cmd : (bucket cmd < 64)%nat.
Proof.
  unfold bucket, handler_hash. pose proof (Z.mod_pos_bound (u32 (cmd * 2654435761)) QD_HANDLER_HASH_SIZE ltac:(done)) as H.
  change QD_HANDLER_HASH_SIZE with 64 in *. lia.
Qed.

Lemma table_create_rep t : qd_handler_table_create true = Some t -> table_rep t (fun _ => []).
Proof.
  intros [= <-]. constructor; try done.
  - intros i p Hp. unfold buckets, zeros in Hp. apply lookup_replicate in Hp as [-> _]. done.
  - intros i. apply NoDup_nil_2.
  - intros i a _. split; [by intros ?%not_elem_of_nil|]. intros (n & Hn & _). cbn in Hn. by rewrite lookup_empty in Hn.
Qed.

Section rep.
Context (t : qd_handler_table) (B : nat -> list Z) (Hr : table_rep t B).

Lemma bucket_head cmd : exists p, buckets t !! bucket cmd = Some p.
Proof. apply lookup_lt_is_Some_2. rewrite (tr_len _ _ Hr). apply bucket_lt. Qed.

Lemma bucket_fuel i : (i < 64)%nat -> (length (B i) < chain_fuel t)%nat.
Proof.
  intros Hi. unfold chain_fuel. pose proof (nodup_size (nodes t) (B i) (tr_nodup _ _ Hr i)) as H.
  assert (length (B i) <= size (nodes t))%nat; [|lia]. apply H. intros p (n & Hn & _)%(tr_in _ _ Hr); [by exists n|done].
Qed.

Lemma in_bucket a n : nodes t !! a = Some n -> a ∈ B (bucket (n_cmd n)).
Proof. intros Hn. apply (tr_in _ _ Hr); [apply bucket_lt|]. by exists n. Qed.

Lemma handlers_size : size (handlers t) = size (nodes t).
Proof. apply keyed_size, (tr_keys _ _ Hr). Qed.

Lemma find_handler_spec cmd :
  exists r, find_handler t cmd = Ok r /\
    match r with
    | Some a => exists n, nodes t !! a = Some n /\ n_cmd n = cmd /\ handlers t !! cmd = Some (target n)
    | None => handlers t !! cmd = None
    end.
Proof.
  destruct (bucket_head cmd) as [p Hp]. unfold find_handler. rewrite Hp. cbn [of_option obind].
  rewrite (walk_run _ _ _ _ _ _ (tr_chain _ _ Hr _ _ Hp) (bucket_fuel _ (bucket_lt cmd))). eexists. split; [done|].
  pose proof (first_in_spec (nodes t) (is_cmd cmd) (B (bucket cmd))) as H. destruct (first_in _ _ _) as [a|].
  - destruct H as (_ & n & Hn & Hc%Z.eqb_eq). exists n. split; [done|]. split; [done|]. apply (keyed_lookup _ _ _ _ _ (tr_keys _ _ Hr)). by exists a, n.
  - apply (keyed_none _ _ _ _ (tr_keys _ _ Hr)). intros a n Hn Hc. specialize (H a n). unfold is_cmd in H. rewrite Hc, Z.eqb_refl in H.
    discriminate H; [|done]. rewrite <- Hc. by apply in_bucket.
Qed.

(** A change of a node that keeps its command and its link. *)
Lemma rep_node a n n' : nodes t !! a = Some n -> n_cmd n' = n_cmd n -> n_next n' = n_next n ->
  table_rep (set_nodes (<[a := n']> (nodes t)) (buckets t) (num_handlers t) t) B.
Proof.
  intros Hn Hc Hx. destruct Hr as [R1 R2 R3 R4 R5 R6]. constructor; cbn [buckets nodes num_handlers set_nodes]; try done.
  - intros i p Hp. eapply chain_same; [|by apply R2]. intros u x _ Hu. destruct (decide (u = a)) as [->|Hne].
    + exists n'. rewrite lookup_insert_eq. simplify_eq. done.
    + exists x. by rewrite lookup_insert_ne.
  - intros i b Hi. rewrite R4 by done. destruct (decide (b = a)) as [->|Hne]; [rewrite lookup_insert_eq|by rewrite lookup_insert_ne].
    split; intros (x & Hx' & Hb); simplify_eq; eexists; (split; [done|]); by rewrite ?Hc in *.
  - apply keys_insert; [done|]. intros b y Hy E. apply (R5 b a y n); try done. congruence.
  - rewrite R6. f_equal. by rewrite map_size_insert_Some by by exists n.
Qed.
End rep.

(** ** Registration and removal *)

Definition alloc_new (alloc : gmap Z qd_handler_node -> option Z) : Prop := forall h a, alloc h = Some a -> a <> 0 /\ h !! a = None.

(** The map after a registration. *)
Definition spec_register (mem : bool) (cmd fn arg fl : Z) (m : gmap Z (Z * Z * Z)) : Z * gmap Z (Z * Z * Z) :=
  if fn =? 0 then (QD_ERR_INVAL, m) else
  if QD_HANDLER_MAX_ENTRIES <=? Z.of_nat (size m) then (QD_ERR_NOMEM, m) else
  if bool_decide (is_Some (m !! cmd)) || mem then (QD_OK, <[cmd := (fn, arg, fl)]> m) else (QD_ERR_NOMEM, m).

(** What stays when the nodes change. *)
Definition same_rest (t t' : qd_handler_table) : Prop := t' = set_nodes (nodes t') (buckets t') (num_handlers t') t.

Lemma register_spec alloc t B cmd fn arg fl : table_rep t B -> alloc_new alloc ->
  exists t' B', qd_handler_register_fn alloc t cmd fn arg fl = Ok ((spec_register (bool_decide (is_Some (alloc (nodes t)))) cmd fn arg fl (handlers t)).1, t') /\
    table_rep t' B' /\ handlers t' = (spec_register (bool_decide (is_Some (alloc (nodes t)))) cmd fn arg fl (handlers t)).2 /\ same_rest t t'.
Proof.
  intros Hr Hal. unfold qd_handler_register_fn, spec_register. assert (same_rest t t) as Hself by by destruct t.
  destruct (fn =? 0); [by exists t, B|]. rewrite (tr_num _ _ Hr). rewrite (handlers_size t B Hr).
  destruct (_ <=? _); [by exists t, B|]. destruct (find_handler_spec t B Hr cmd) as ([a|] & -> & H); cbn [obind].
  - destruct H as (n & Hn & Hc & ->). rewrite Hn. cbn [of_option obind is_Some]. rewrite bool_decide_eq_true_2 by by eexists. cbn [orb fst snd].
    pose proof (rep_node t B Hr a n (set_target fn arg fl n) Hn eq_refl eq_refl) as Hr'. rewrite (tr_num _ _ Hr) in Hr'.
    eexists _, B. split; [done|]. split; [exact Hr'|]. split; [|done]. rewrite <- Hc. change (n_cmd n) with (n_cmd (set_target fn arg fl n)).
    apply (keyed_insert n_cmd target (nodes t) a (set_target fn arg fl n)); [apply (tr_keys _ _ Hr)|apply (tr_keys _ _ Hr')|]. intros y Hy. by simplify_eq.
  - rewrite H, bool_decide_eq_false_2 by (by intros [? ?]). cbn [orb]. destruct (alloc (nodes t)) as [a|] eqn:Ea; [|rewrite bool_decide_eq_false_2 by (by intros [? ?]); by exists t, B].
    rewrite bool_decide_eq_true_2 by by eexists. destruct (Hal _ _ Ea) as [Ha0 Ha]. destruct (bucket_head t B Hr cmd) as [p Hp]. rewrite Hp. cbn [of_option obind fst snd].
    set (n := mkNode cmd fn arg fl 0 p 0 0 0). pose proof Hr as [R1 R2 R3 R4 R5 R6]. pose proof (proj1 (keyed_none _ _ _ _ R5) H) as Hno.
    assert (keys_distinct n_cmd (<[a := n]> (nodes t))) as Hk by (apply keys_insert; [done|]; intros b y Hy E; by destruct (Hno b y Hy)).
    assert (forall i, (i < 64)%nat -> a ∉ B i) as HaB by (intros i Hi (x & Hx & _)%R4; [congruence|done]).
    eexists _, (fun i => if decide (i = bucket cmd) then a :: B i else B i). split; [done|]. split; [|split; [|done]].
    + constructor; cbn [buckets nodes num_handlers set_nodes]; [by rewrite length_insert| | | |done|].
      * intros i q Hq. assert (i < 64)%nat as Hi by (rewrite <- R1, <- (length_insert (buckets t) (bucket cmd) a); by eapply lookup_lt_Some).
        assert (forall q, chain n_next (nodes t) q (B i) -> chain n_next (<[a := n]> (nodes t)) q (B i)) as Hfr.
        { intros q' Hc. eapply links_frame; [|exact Hc]. intros u Hu. rewrite lookup_insert_ne; [done|]. intros ->. by apply (HaB i Hi). }
        destruct (decide (i = bucket cmd)) as [->|Hne].
        -- rewrite list_lookup_insert_eq in Hq by (rewrite R1; apply bucket_lt). injection Hq as <-. split; [done|]. split; [done|]. exists n. split; [apply lookup_insert_eq|]. by apply Hfr, R2.
        -- rewrite list_lookup_insert_ne in Hq by congruence. by apply Hfr, R2.
      * intros i. destruct (decide _) as [->|]; [|done]. constructor; [apply HaB, bucket_lt|done].
      * intros i b Hi. destruct (decide (b = a)) as [->|Hne].
        -- rewrite lookup_insert_eq. destruct (decide (i = bucket cmd)) as [->|Hb]; [split; [intros _; by exists n|intros _; left]|].
           split; [intros Hin; by destruct (HaB i Hi)|]. intros (x & [= <-] & Hx). by destruct Hb.
        -- rewrite lookup_insert_ne by done. rewrite <- R4 by done. destruct (decide (i = bucket cmd)); [|done]. rewrite elem_of_cons. tauto.
      * rewrite map_size_insert_None by done. lia.
    + change cmd with (n_cmd n). change (fn, arg, fl) with (target n). apply (keyed_insert n_cmd target (nodes t) a n); [done|done|]. intros y Hy. congruence.
Qed.

Lemma split_at_cmd t B cmd a n : table_rep t B -> nodes t !! a = Some n -> n_cmd n = cmd ->
  exists l1 l2, B (bucket cmd) = l1 ++ a :: l2 /\ forall u y, u ∈ l1 -> nodes t !! u = Some y -> is_cmd cmd y = false.
Proof.
  intros Hr Hn Hc. destruct (list_elem_of_split (B (bucket cmd)) a) as (l1 & l2 & E); [rewrite <- Hc; by apply (in_bucket t B Hr)|].
  exists l1, l2. split; [done|]. intros u y Hu Hy. apply Z.eqb_neq. intros Hcy. pose proof (tr_nodup _ _ Hr (bucket cmd)) as Hnd. rewrite E in Hnd.
  apply NoDup_app in Hnd as (_ & Hd & _). apply (Hd u Hu). rewrite (tr_keys _ _ Hr u a y n Hy Hn ltac:(congruence)). left.
Qed.

(** Taking a node out of its chain leaves the commands and targets. *)
Lemma unlinked_nodes (h h' : gmap Z qd_handler_node) (l1 : list Z) :
  (forall a, h' !! a = h !! a \/ (a ∈ l1 /\ exists y n, h !! a = Some y /\ h' !! a = Some (set_n_next n y))) ->
  keyed_same n_cmd target h h'.
Proof.
  intros Hd b. destruct (Hd b) as [->|(_ & y & n & -> & ->)]; [by destruct (h !! b)|done].
Qed.

Lemma unregister_spec t B cmd : table_rep t B ->
  exists t' B', qd_handler_unregister t cmd = Ok (match handlers t !! cmd with Some _ => QD_OK | None => QD_ERR_NOENT end, t') /\
    table_rep t' B' /\ handlers t' = delete cmd (handlers t) /\ same_rest t t'.
Proof.
  intros Hr. unfold qd_handler_unregister. destruct (bucket_head t B Hr cmd) as [p Hp]. rewrite Hp. cbn [of_option obind].
  pose proof (tr_chain _ _ Hr _ _ Hp) as Hch. pose proof (bucket_fuel t B Hr _ (bucket_lt cmd)) as Hfu. pose proof Hr as [R1 R2 R3 R4 R5 R6].
  destruct (find_handler_spec t B Hr cmd) as ([a|] & _ & H).
  - destruct H as (n & Hn & Hc & ->). destruct (split_at_cmd t B cmd a n Hr Hn Hc) as (l1 & l2 & EB & Hno). rewrite EB, length_app in *.
    pose proof (R3 (bucket cmd)) as Hnd. rewrite EB in Hnd.
    destruct (unlink_spec n_next set_n_next (fun _ => is_cmd cmd) (nodes t) p a n l1 l2 (chain_fuel t) ltac:(done) Hch Hnd ltac:(lia) Hn ltac:(by apply Z.eqb_eq) Hno)
      as (h & p' & -> & Hch' & Hd). cbn [obind]. pose proof (unlinked_nodes _ _ _ Hd) as He.
    pose proof (keys_ext _ _ _ _ R5 He) as Hk.
    destruct (nodup_middle _ _ _ Hnd) as [Hnd' Hna].
    assert (exists n0, h !! a = Some n0 /\ n_cmd n0 = cmd) as (n0 & Hn0 & Hc0).
    { specialize (He a). rewrite Hn in He. destruct (h !! a) as [x|]; [|done]. exists x. destruct He as [-> _]. done. }
    eexists _, (fun i => if decide (i = bucket cmd) then l1 ++ l2 else B i). split; [done|]. split; [|split; [|done]].
    + constructor; cbn [buckets nodes num_handlers set_nodes]; [by rewrite length_insert| | | |by apply keys_delete|].
      * intros i q Hq. destruct (decide (i = bucket cmd)) as [->|Hne].
        -- rewrite list_lookup_insert_eq in Hq by (rewrite R1; apply bucket_lt). injection Hq as <-. eapply links_frame; [|exact Hch'].
           intros u Hu. rewrite lookup_delete_ne; [done|]. by intros ->.
        -- rewrite list_lookup_insert_ne in Hq by congruence. assert (i < 64)%nat as Hi by (rewrite <- R1; by eapply lookup_lt_Some).
           eapply links_frame; [|by apply R2]. intros u Hu. pose proof (proj1 (R4 i u Hi) Hu) as (x & Hx & Hbx).
           assert (u <> a) as Hua by (intros ->; rewrite Hx in Hn; simplify_eq). rewrite lookup_delete_ne by done.
           destruct (Hd u) as [->|(Hin & _)]; [done|]. destruct Hne.
           assert (u ∈ B (bucket cmd)) as (z & Hz & Hbz)%R4 by (by (rewrite EB; apply elem_of_app; left) || apply bucket_lt); [congruence|apply bucket_lt].
      * intros i. by destruct (decide (i = bucket cmd)).
      * intros i b Hi. destruct (decide (b = a)) as [->|Hne].
        -- rewrite lookup_delete_eq. split; [|by intros (? & ? & _)]. destruct (decide (i = bucket cmd)) as [->|Hb]; [done|].
           intros Hin. apply R4 in Hin as (x & Hx & Hbx); [|done]. simplify_eq.
        -- rewrite lookup_delete_ne by done. assert (b ∈ (if decide (i = bucket cmd) then l1 ++ l2 else B i) <-> b ∈ B i) as ->.
           { destruct (decide (i = bucket cmd)) as [->|]; [|done]. rewrite EB, !elem_of_app, elem_of_cons. tauto. }
           rewrite R4 by done. specialize (He b). destruct (nodes t !! b) as [x|], (h !! b) as [y|]; try done.
           destruct He as [He _]. split; intros (z & [= <-] & Hz); eexists; (split; [done|]); congruence.
      * rewrite map_size_delete_Some by by exists n0. assert (size h = size (nodes t)) as -> by (by rewrite <- !size_dom, (keyed_same_dom _ _ _ _ He)).
        assert (size (nodes t) <> 0%nat) by (apply map_size_non_empty_iff; intros E; by rewrite E, lookup_empty in Hn). lia.
    + unfold handlers at 1. cbn [nodes set_nodes]. rewrite (keyed_delete n_cmd target h a n0 Hk Hn0), Hc0. f_equal. by apply keyed_ext.
  - rewrite H. rewrite (unlink_none n_next set_n_next (fun _ => is_cmd cmd) (nodes t) p (B (bucket cmd)) (chain_fuel t) None p Hch); [|..|done].
    + cbn [obind]. exists t, B. split; [done|]. split; [done|]. split; [|by destruct t]. by rewrite delete_id.
    + intros u y _ Hy. apply Z.eqb_neq. by apply (proj1 (keyed_none _ _ _ _ R5) H u y).
Qed.
