(* ===== verification/HandlerRun.v ===== *)
(** * Histories of a handler table

    The functions that a table calls are recorded: which function, with which argument,
    result so far and command.  What they return may depend on the call and on all calls
    before it, and they may fill in the context; they leave the table alone. *)

From S2P Require Import Prelude Common Bytes Keyed Links Chains Handler HandlerSpec.

Record call := mkCallRec { fn_of : Z; arg_of : Z; so_far : Z; cmd_of : Z }.

Section run.
Context {D : Type} (ret : list call -> call -> Z) (touch : list call -> call -> qd_handler_ctx D -> qd_handler_ctx D).

(** Functions that are recorded: [ret] and [touch] say what they return and how they leave
    the context, after the calls so far. *)
Definition recording (fn arg r : Z) (c : qd_handler_ctx D) (w : hworld (list call)) : outcome (Z * qd_handler_ctx D * hworld (list call)) :=
  let x := mkCallRec fn arg r (c_cmd c) in
  Ok (ret (user w) x, touch (user w) x c, mkHWorld (table w) (user w ++ [x])).

(** ** Specification *)

Record spec_table := mkSpec {
  s_map : gmap Z (Z * Z * Z);
  s_default : Z * Z; s_pre : Z * Z; s_post : Z * Z; s_error : Z * Z;
  s_calls_total : Z; s_errors_total : Z; s_unknown : Z
}.

Definition with_map (m : gmap Z (Z * Z * Z)) (s : spec_table) : spec_table :=
  mkSpec m (s_default s) (s_pre s) (s_post s) (s_error s) (s_calls_total s) (s_errors_total s) (s_unknown s).
Definition with_hooks (d pre post err : Z * Z) (s : spec_table) : spec_table :=
  mkSpec (s_map s) d pre post err (s_calls_total s) (s_errors_total s) (s_unknown s).
Definition with_totals (c e u : Z) (s : spec_table) : spec_table :=
  mkSpec (s_map s) (s_default s) (s_pre s) (s_post s) (s_error s) c e u.

(** The calls of a hook. *)
Definition hook_calls (h : Z * Z) (r cmd : Z) : list call := if h.1 =? 0 then [] else [mkCallRec h.1 h.2 r cmd].

(** The function for a command: its own, or the default one. *)
Definition chosen (s : spec_table) (cmd : Z) : option (Z * Z) :=
  match s_map s !! cmd with
  | Some (fn, arg, _) => Some (fn, arg)
  | None => if (s_default s).1 =? 0 then None else Some (s_default s)
  end.

(** [log]: the calls so far. *)
Definition vetoed (log : list call) (cmd : Z) (s : spec_table) : bool :=
  negb ((s_pre s).1 =? 0) && negb (ret log (mkCallRec (s_pre s).1 (s_pre s).2 0 cmd) =? 0).

(** The result of a dispatch that was not vetoed, the calls it makes, and the table after it. *)
Definition spec_run (log : list call) (cmd : Z) (s : spec_table) : Z * list call * spec_table :=
  let known := bool_decide (is_Some (s_map s !! cmd)) in
  let s := if known then s else with_totals (s_calls_total s) (s_errors_total s) (u64 (s_unknown s + 1)) s in
  match chosen s cmd with
  | None => (QD_HANDLER_NOT_FOUND, [], s)
  | Some (fn, arg) =>
    let r := ret log (mkCallRec fn arg 0 cmd) in
    (r, [mkCallRec fn arg 0 cmd] ++ (if r <? 0 then hook_calls (s_error s) r cmd else []) ++ hook_calls (s_post s) r cmd,
     if known && (r <? 0) then with_totals (s_calls_total s) (u64 (s_errors_total s + 1)) (s_unknown s) s else s)
  end.

Definition spec_dispatch (log : list call) (cmd : Z) (s : spec_table) : Z * list call * spec_table :=
  let s := with_totals (u64 (s_calls_total s + 1)) (s_errors_total s) (s_unknown s) s in
  let pre := hook_calls (s_pre s) 0 cmd in
  if vetoed log cmd s then (QD_HANDLER_SKIP, pre, s) else
  let '(r, calls, s) := spec_run (log ++ pre) cmd s in (r, pre ++ calls, s).

(** The table [t] is the specified one. *)
Definition implements_table (t : qd_handler_table) (s : spec_table) : Prop :=
  (exists B, table_rep t B) /\
  s = mkSpec (handlers t) (default_handler t) (pre_hook t) (post_hook t) (error_handler t) (total_calls t) (total_errors t) (unknown_commands t).

Lemma counts_rep t B a b c : table_rep t B -> table_rep (set_counts a b c t) B.
Proof. by intros [R1 R2 R3 R4 R5 R6]. Qed.

(** The counters of a node: its command, link and target stay. *)
Lemma note_call_spec t B a n r start stop : table_rep t B -> nodes t !! a = Some n ->
  exists t', note_call a r start stop t = Ok (if r <? 0 then count_error t' else t') /\ table_rep t' B /\ handlers t' = handlers t /\ same_rest t t'.
Proof.
  intros Hr Hn. unfold note_call. rewrite Hn. cbn [of_option obind]. eexists. split; [done|].
  match goal with |- context [<[a := ?x]> _] => pose proof (rep_node t B Hr a n x Hn eq_refl eq_refl) as Hr' end.
  split; [exact Hr'|]. split; [|done]. apply keyed_ext; [apply (tr_keys _ _ Hr)|]. intros b. cbn [nodes set_nodes].
  destruct (decide (b = a)) as [->|Hne]; [rewrite lookup_insert_eq, Hn; by split|]. rewrite lookup_insert_ne by done. by destruct (nodes t !! b).
Qed.

(** No function changes the command of the context. *)
Hypothesis Htouch : forall log x c, c_cmd (touch log x c) = c_cmd c.

Lemma hook_spec h r (c : qd_handler_ctx D) w :
  exists c', hook recording h r c w = Ok (if h.1 =? 0 then 0 else ret (user w) (mkCallRec h.1 h.2 r (c_cmd c)), c', mkHWorld (table w) (user w ++ hook_calls h r (c_cmd c))) /\
    c_cmd c' = c_cmd c.
Proof. unfold hook, hook_calls. destruct (h.1 =? 0); [exists c; rewrite app_nil_r; by destruct w|]. eexists. split; [done|]. apply Htouch. Qed.

(** After the call of the handler: the error handler and the post hook. *)
Lemma after_call t r (c : qd_handler_ctx D) log :
  exists c', (let! (_, c, w) := if r <? 0 then hook recording (error_handler t) r c (mkHWorld t log) else Ok (0, c, mkHWorld t log) in
   let! (_, c, w) := hook recording (post_hook (table w)) r c w in Ok (r, c, w)) =
  Ok (r, c', mkHWorld t (log ++ (if r <? 0 then hook_calls (error_handler t) r (c_cmd c) else []) ++ hook_calls (post_hook t) r (c_cmd c))).
Proof.
  destruct (r <? 0).
  - destruct (hook_spec (error_handler t) r c (mkHWorld t log)) as (c1 & -> & E1). cbn [obind table user].
    destruct (hook_spec (post_hook t) r c1 (mkHWorld t (log ++ hook_calls (error_handler t) r (c_cmd c)))) as (c2 & -> & _). cbn [obind table user].
    exists c2. by rewrite E1, <- (assoc_L (++)).
  - cbn [obind table user]. destruct (hook_spec (post_hook t) r c (mkHWorld t log)) as (c2 & -> & _). by exists c2.
Qed.

Lemma execute_spec clock node fn arg fl (c : qd_handler_ctx D) t B log s :
  table_rep t B -> implements_table t s -> match node with Some a => exists n, nodes t !! a = Some n | None => True end ->
  let r := ret log (mkCallRec fn arg 0 (c_cmd c)) in
  exists c' t', execute recording clock node fn arg fl c (mkHWorld t log) =
      Ok (r, c', mkHWorld t' (log ++ [mkCallRec fn arg 0 (c_cmd c)] ++ (if r <? 0 then hook_calls (s_error s) r (c_cmd c) else []) ++ hook_calls (s_post s) r (c_cmd c))) /\
    implements_table t' (if bool_decide (is_Some node) && (r <? 0) then with_totals (s_calls_total s) (u64 (s_errors_total s + 1)) (s_unknown s) s else s).
Proof.
  intros Hr [_ ->] Hn r. unfold execute. cbn [obind recording table user]. cbv zeta. fold r. set (c1 := touch _ _ c). assert (c_cmd c1 = c_cmd c) as Ec1 by apply Htouch.
  assert (exists t', match node with Some a => note_call a r (if bool_decide (is_Some node) && negb (Z.land fl QD_HANDLER_FLAG_METRIC =? 0) then clock.1 else 0) clock.2 t | None => Ok t end = Ok t' /\
     error_handler t' = error_handler t /\ post_hook t' = post_hook t /\
     implements_table t' (let s := mkSpec (handlers t) (default_handler t) (pre_hook t) (post_hook t) (error_handler t) (total_calls t) (total_errors t) (unknown_commands t) in
       if bool_decide (is_Some node) && (r <? 0) then with_totals (s_calls_total s) (u64 (s_errors_total s + 1)) (s_unknown s) s else s)) as (t' & -> & Ee & Ep & Hi).
  { destruct node as [a|]; [|exists t; split; [done|]; split; [done|]; split; [done|]; split; [by exists B|done]].
    destruct Hn as [n Hn]. destruct (note_call_spec t B a n r (if bool_decide (is_Some (Some a)) && negb (Z.land fl QD_HANDLER_FLAG_METRIC =? 0) then clock.1 else 0) clock.2 Hr Hn) as (t1 & -> & Hr1 & Hh & Hs).
    eexists. split; [done|]. rewrite bool_decide_eq_true_2 by by exists a. cbn [andb]. rewrite Hs. destruct (r <? 0); (split; [done|]); (split; [done|]);
      (split; [exists B|]); rewrite <- ?Hs; try (by apply counts_rep); try done.
    - cbn [handlers count_error set_counts nodes with_totals s_calls_total s_errors_total s_unknown]. rewrite <- Hh. rewrite Hs. done.
    - rewrite <- Hh. rewrite Hs. done. }
  cbn [obind]. destruct (after_call t' r c1 (log ++ [mkCallRec fn arg 0 (c_cmd c)])) as [c2 E]. exists c2, t'. split; [|exact Hi].
  cbn [table] in *. rewrite E, Ee, Ep, Ec1. by rewrite <- (assoc_L (++)).
Qed.

Lemma chosen_found s cmd fn arg fl : s_map s !! cmd = Some (fn, arg, fl) -> chosen s cmd = Some (fn, arg).
Proof. unfold chosen. by intros ->. Qed.

(** The part of a dispatch after the pre hook. *)
Definition rest_of_dispatch (clock : Z * Z) (cmd : Z) (c : qd_handler_ctx D) (w : hworld (list call)) : outcome (Z * qd_handler_ctx D * hworld (list call)) :=
  let! node := find_handler (table w) cmd in
  match node with
  | Some a =>
    let! n := of_option (nodes (table w) !! a) in
    execute recording clock (Some a) (n_handler n) (n_arg n) (n_flags n) c w
  | None =>
    let d := default_handler (table w) in
    let w := on_table count_unknown w in
    if d.1 =? 0 then Ok (QD_HANDLER_NOT_FOUND, c, w) else execute recording clock None d.1 d.2 0 c w
  end.

Lemma run_spec clock c t log s : implements_table t s ->
  exists c' t', rest_of_dispatch clock (c_cmd c) c (mkHWorld t log) = Ok ((spec_run log (c_cmd c) s).1.1, c', mkHWorld t' (log ++ (spec_run log (c_cmd c) s).1.2)) /\
    implements_table t' (spec_run log (c_cmd c) s).2.
Proof.
  intros Hi. pose proof Hi as [[B Hr] Es]. unfold rest_of_dispatch. cbn [table]. assert (s_map s = handlers t) as Em by (by rewrite Es).
  unfold spec_run. cbn zeta. destruct (find_handler_spec t B Hr (c_cmd c)) as ([a|] & -> & H); cbn [obind].
  - destruct H as (n & Hn & _ & Hm). rewrite Hn, Em, Hm. cbn [of_option obind]. rewrite <- Em in Hm. rewrite bool_decide_eq_true_2 by by eexists.
    rewrite (chosen_found _ _ _ _ _ Hm). destruct (execute_spec clock (Some a) (n_handler n) (n_arg n) (n_flags n) c t B log s Hr Hi ltac:(by exists n)) as (c' & t' & E & Hi').
    exists c', t'. rewrite bool_decide_eq_true_2 in Hi' by by eexists. by split.
  - rewrite Em, H, bool_decide_eq_false_2 by by intros [? ?]. cbn [on_table table user andb].
    set (s2 := with_totals (s_calls_total s) (s_errors_total s) (u64 (s_unknown s + 1)) s).
    assert (implements_table (count_unknown t) s2) as Hi2 by (split; [exists B; by apply counts_rep|unfold s2; by rewrite Es]).
    assert (chosen s2 (c_cmd c) = if (default_handler t).1 =? 0 then None else Some (default_handler t)) as ->.
    { unfold chosen. change (s_map s2) with (s_map s). change (s_default s2) with (s_default s). rewrite Em, H, Es. done. }
    destruct ((default_handler t).1 =? 0); [exists c, (count_unknown t); cbn [fst snd]; by rewrite app_nil_r|].
    destruct (execute_spec clock None (default_handler t).1 (default_handler t).2 0 c (count_unknown t) B log s2 ltac:(by apply counts_rep) Hi2 I) as (c' & t' & E & Hi').
    exists c', t'. rewrite bool_decide_eq_false_2 in Hi' by by intros [? ?]. destruct (default_handler t) as [fn arg]. by split.
Qed.

Lemma dispatch_spec clock cmd (c : qd_handler_ctx D) t log s : implements_table t s ->
  exists c' t', qd_handler_dispatch_cmd recording clock cmd c (mkHWorld t log) = Ok ((spec_dispatch log cmd s).1.1, c', mkHWorld t' (log ++ (spec_dispatch log cmd s).1.2)) /\
    implements_table t' (spec_dispatch log cmd s).2.
Proof.
  intros [[B Hr] Es]. set (s1 := with_totals (u64 (s_calls_total s + 1)) (s_errors_total s) (s_unknown s) s).
  assert (implements_table (count_call t) s1) as Hi1 by (split; [exists B; by apply counts_rep|unfold s1; by rewrite Es]).
  assert (pre_hook t = s_pre s1) as Ep by (unfold s1; by rewrite Es).
  unfold qd_handler_dispatch_cmd, spec_dispatch. cbn [on_table table user]. fold s1. change (pre_hook (count_call t)) with (pre_hook t). rewrite Ep.
  change (on_table count_call (mkHWorld t log)) with (mkHWorld (count_call t) log).
  destruct (hook_spec (s_pre s1) 0 (set_cmd cmd (t_user_data t) c) (mkHWorld (count_call t) log)) as (c1 & -> & Ec). cbn [obind table user].
  change (c_cmd (set_cmd cmd (t_user_data t) c)) with cmd in *.
  assert (negb ((if (s_pre s1).1 =? 0 then 0 else ret log (mkCallRec (s_pre s1).1 (s_pre s1).2 0 cmd)) =? 0) = vetoed log cmd s1) as -> by (unfold vetoed; by destruct ((s_pre s1).1 =? 0)).
  destruct (vetoed log cmd s1); [by exists c1, (count_call t)|].
  destruct (run_spec clock c1 (count_call t) (log ++ hook_calls (s_pre s1) 0 cmd) s1 Hi1) as (c' & t' & E & Hi').
  rewrite Ec in *. unfold rest_of_dispatch in E. cbn [table user on_table] in E. exists c', t'. cbn [table user on_table].
  rewrite E. destruct (spec_run (log ++ hook_calls (s_pre s1) 0 cmd) cmd s1) as [[r calls] s']. cbn [fst snd] in *. by rewrite <- (assoc_L (++)).
Qed.
End run.
