(* ===== verification/HandlerFacts.v ===== *)
(** * Theorems about handler tables

    The refinement of a table by a map over whole histories, responses built by appending,
    and what goes wrong when a handler removes itself or a full table is updated. *)

From S2P Require Import Prelude Common Bytes Keyed Links Chains Handler HandlerSpec HandlerRun.

(** ** Histories *)

Inductive table_op :=
| TRegister (cmd fn arg fl : Z)
| TUnregister (cmd : Z)
| TDefault (fn arg : Z)
| TPre (fn arg : Z)
| TPost (fn arg : Z)
| TError (fn arg : Z)
| TDispatch (clock : Z * Z) (cmd : Z).

(** An operation, whether calloc succeeds in it, and the block it then returns. *)
Record table_step := mkStep { what : table_op; mem_ok : bool; new_block : gmap Z qd_handler_node -> Z }.

Definition step_alloc (st : table_step) (h : gmap Z qd_handler_node) : option Z := if mem_ok st then Some (new_block st h) else None.
Definition step_valid (st : table_step) : Prop := forall h, new_block st h <> 0 /\ h !! new_block st h = None.

Section histories.
Context {D : Type} (ret : list call -> call -> Z) (touch : list call -> call -> qd_handler_ctx D -> qd_handler_ctx D).

Definition run_step (st : table_step) (w : hworld (list call)) : outcome (Z * hworld (list call)) :=
  let on t := mkHWorld t (user w) in
  match what st with
  | TRegister cmd fn arg fl => let! (r, t) := qd_handler_register_fn (step_alloc st) (table w) cmd fn arg fl in Ok (r, on t)
  | TUnregister cmd => let! (r, t) := qd_handler_unregister (table w) cmd in Ok (r, on t)
  | TDefault fn arg => Ok (0, on (qd_handler_set_default (table w) fn arg))
  | TPre fn arg => Ok (0, on (qd_handler_set_pre_hook (table w) fn arg))
  | TPost fn arg => Ok (0, on (qd_handler_set_post_hook (table w) fn arg))
  | TError fn arg => Ok (0, on (qd_handler_set_error_handler (table w) fn arg))
  | TDispatch clock cmd => let! (r, _, w) := qd_handler_dispatch_cmd (D := D) (recording ret touch) clock cmd qd_handler_ctx_init w in Ok (r, w)
  end.

(** [log]: the calls so far. *)
Definition spec_step (log : list call) (st : table_step) (s : spec_table) : Z * list call * spec_table :=
  match what st with
  | TRegister cmd fn arg fl => let r := spec_register (mem_ok st) cmd fn arg fl (s_map s) in (r.1, [], with_map r.2 s)
  | TUnregister cmd => (match s_map s !! cmd with Some _ => QD_OK | None => QD_ERR_NOENT end, [], with_map (delete cmd (s_map s)) s)
  | TDefault fn arg => (0, [], with_hooks (fn, arg) (s_pre s) (s_post s) (s_error s) s)
  | TPre fn arg => (0, [], with_hooks (s_default s) (fn, arg) (s_post s) (s_error s) s)
  | TPost fn arg => (0, [], with_hooks (s_default s) (s_pre s) (fn, arg) (s_error s) s)
  | TError fn arg => (0, [], with_hooks (s_default s) (s_pre s) (s_post s) (fn, arg) s)
  | TDispatch _ cmd => spec_dispatch ret log cmd s
  end.

Fixpoint run_steps (sts : list table_step) (w : hworld (list call)) : outcome (list Z * hworld (list call)) :=
  match sts with
  | [] => Ok ([], w)
  | st :: sts => let! (r, w) := run_step st w in let! (rs, w) := run_steps sts w in Ok (r :: rs, w)
  end.

(** The results, the calls that were made and the table at the end. *)
Fixpoint spec_steps (log : list call) (sts : list table_step) (s : spec_table) : list Z * list call * spec_table :=
  match sts with
  | [] => ([], [], s)
  | st :: sts => let a := spec_step log st s in let b := spec_steps (log ++ a.1.2) sts a.2 in (a.1.1 :: b.1.1, a.1.2 ++ b.1.2, b.2)
  end.

Hypothesis Htouch : forall log x c, c_cmd (touch log x c) = c_cmd c.

Lemma same_rest_spec t t' s : implements_table t s -> (exists B, table_rep t' B) -> same_rest t t' -> implements_table t' (with_map (handlers t') s).
Proof. intros [_ ->] HB Hs. split; [done|]. rewrite Hs. done. Qed.

Lemma hooks_spec t s d pre post err : implements_table t s -> implements_table (set_hooks d pre post err t) (with_hooks d pre post err s).
Proof. intros [[B [R1 R2 R3 R4 R5 R6]] ->]. split; [by exists B|done]. Qed.

Lemma step_spec st t log s : step_valid st -> implements_table t s ->
  exists t', run_step st (mkHWorld t log) = Ok ((spec_step log st s).1.1, mkHWorld t' (log ++ (spec_step log st s).1.2)) /\ implements_table t' (spec_step log st s).2.
Proof.
  intros Hv Hi. pose proof Hi as [[B Hr] Es]. assert (handlers t = s_map s) as Em by by rewrite Es.
  unfold run_step, spec_step. destruct (what st) as [cmd fn arg fl|cmd|fn arg|fn arg|fn arg|fn arg|clock cmd]; cbn [table user fst snd]; rewrite ?app_nil_r.
  - assert (alloc_new (step_alloc st)) as Ha by (intros h a; unfold step_alloc; destruct (mem_ok st); [intros [= <-]; apply Hv|done]).
    destruct (register_spec (step_alloc st) t B cmd fn arg fl Hr Ha) as (t' & B' & -> & Hr' & Hh & Hs). cbn [obind].
    assert (bool_decide (is_Some (step_alloc st (nodes t))) = mem_ok st) as Eb by (unfold step_alloc; by destruct (mem_ok st)). rewrite Eb, Em in *.
    exists t'. split; [done|]. rewrite <- Hh. apply (same_rest_spec t t' s Hi); [by exists B'|done].
  - destruct (unregister_spec t B cmd Hr) as (t' & B' & -> & Hr' & Hh & Hs). cbn [obind]. rewrite Em in *. exists t'. split; [done|].
    rewrite <- Hh. apply (same_rest_spec t t' s Hi); [by exists B'|done].
  - eexists. split; [done|]. rewrite Es. apply hooks_spec. by rewrite <- Es.
  - eexists. split; [done|]. rewrite Es. apply hooks_spec. by rewrite <- Es.
  - eexists. split; [done|]. rewrite Es. apply hooks_spec. by rewrite <- Es.
  - eexists. split; [done|]. rewrite Es. apply hooks_spec. by rewrite <- Es.
  - destruct (dispatch_spec (D := D) ret touch Htouch clock cmd qd_handler_ctx_init t log s Hi) as (c' & t' & -> & Hi'). cbn [obind]. by exists t'.
Qed.

Lemma steps_spec sts : forall t log s, Forall step_valid sts -> implements_table t s ->
  exists t', run_steps sts (mkHWorld t log) = Ok ((spec_steps log sts s).1.1, mkHWorld t' (log ++ (spec_steps log sts s).1.2)) /\ implements_table t' (spec_steps log sts s).2.
Proof.
  induction sts as [|st sts IH]; intros t log s Hv Hi; cbn [run_steps spec_steps fst snd]; [exists t; by rewrite app_nil_r|].
  apply Forall_cons in Hv as [Hst Hv]. destruct (step_spec st t log s Hst Hi) as (t1 & -> & Hi1). cbn [obind].
  destruct (IH t1 (log ++ (spec_step log st s).1.2) _ Hv Hi1) as (t' & -> & Hi'). cbn [obind]. exists t'. by rewrite <- (assoc_L (++)).
Qed.

(** C32: Any history of registrations, removals, hooks and dispatches on a new table runs
    without an invalid access, with the results and exactly the calls that a map from
    commands to functions prescribes, when the functions that are called leave the table and
    the command of the context alone (their results may depend on all calls so far; a
    handler that removes its own node is [handler_removes_its_node]): a dispatch asks the
    pre hook first and makes no other call if it refuses, then calls the function of the
    command or the default one, then the error handler if the result is negative, then the
    post hook. *)
Theorem handler_table_refines sts t : qd_handler_table_create true = Some t -> Forall step_valid sts ->
  let s := spec_steps [] sts (mkSpec ∅ (0, 0) (0, 0) (0, 0) (0, 0) 0 0 0) in
  exists t', run_steps sts (mkHWorld t []) = Ok (s.1.1, mkHWorld t' s.1.2) /\
    (forall cmd, qd_handler_exists t' cmd = Ok (bool_decide (is_Some (s_map s.2 !! cmd)))) /\
    qd_handler_get_stats t' = (s_calls_total s.2, s_errors_total s.2, s_unknown s.2, Z.of_nat (size (s_map s.2))).
Proof.
  intros Ht Hv s. assert (implements_table t (mkSpec ∅ (0, 0) (0, 0) (0, 0) (0, 0) 0 0 0)) as Hi.
  { split; [eexists; by apply table_create_rep|]. by injection Ht as <-. }
  destruct (steps_spec sts t [] _ Hv Hi) as (t' & E & [[B Hr] Es]). fold s in E, Es. exists t'. split; [exact E|]. rewrite Es. cbn [s_map s_calls_total s_errors_total s_unknown]. split.
  - intros cmd. unfold qd_handler_exists. destruct (find_handler_spec t' B Hr cmd) as ([a|] & -> & H); cbn [obind].
    + by destruct H as (n & _ & _ & ->).
    + by rewrite H.
  - unfold qd_handler_get_stats. by rewrite (tr_num _ _ Hr), (handlers_size t' B Hr).
Qed.
End histories.

(** ** Responses *)

(** The response holds the bytes [d], in a block of the capacity. *)
Definition holds_response {D} (c : qd_handler_ctx D) (d : list Z) : Prop :=
  response_len c = Z.of_nat (length d) /\ response_cap c < 2 ^ 64 /\
  match response c with
  | Some b => Z.of_nat (length b) = response_cap c /\ (length d <= length b)%nat /\ take (length d) b = d
  | None => d = [] /\ response_cap c = 0
  end.

Lemma grow_cap_ok fuel : forall cap len, 0 < cap -> len <= cap * 2 ^ Z.of_nat fuel -> len <= 2 ^ 63 -> cap < 2 ^ 64 ->
  exists c, grow_cap fuel cap len = Ok c /\ len <= c < 2 ^ 64 /\ 0 < c.
Proof.
  induction fuel as [|fuel IH]; intros cap len Hc Hl Hm Hb; cbn [grow_cap]; destruct (Z.leb_spec len cap); try (by exists cap); try (rewrite Z.pow_0_r in Hl; lia).
  rewrite u64_small by (unfold_widths; lia). apply IH; try lia. rewrite Nat2Z.inj_succ, Z.pow_succ_r in Hl by lia. lia.
Qed.

Lemma regrow_length b junk cap : length (regrow b junk cap) = Z.to_nat cap.
Proof. unfold regrow, zeros. rewrite length_take, !length_app, length_replicate. lia. Qed.

Lemma append_response_spec {D} junk (c : qd_handler_ctx D) d data : holds_response c d -> data <> [] ->
  Z.of_nat (length d + length data) <= 2 ^ 62 ->
  exists c', qd_handler_ctx_append_response true junk c data (Z.of_nat (length data)) = Ok (QD_OK, c') /\ holds_response c' (d ++ data).
Proof.
  intros (Hlen & Hcap & Hb) Hne Hmax. unfold qd_handler_ctx_append_response. rewrite Hlen, u64_small by (unfold_widths; lia). rewrite load_all. cbn [obind].
  assert (0 < Z.of_nat (length data)) by (destruct data; [done|cbn; lia]). assert (0 <= response_cap c) as Hc0 by (destruct (response c); lia).
  assert (forall b : list Z, (length d + length data <= length b)%nat -> take (length d) b = d ->
    exists b', store b (Z.of_nat (length d)) data = Ok b' /\ length b' = length b /\ take (length (d ++ data)) b' = d ++ data) as Hst.
  { intros b Hl Ht. rewrite store_ok by lia. eexists. split; [done|]. rewrite Nat2Z.id, Ht.
    split; [rewrite !length_app, length_drop; lia|]. rewrite (assoc_L (++)), length_app. by rewrite take_app_length' by (rewrite length_app; lia). }
  destruct (Z.ltb_spec (response_cap c) (Z.of_nat (length d) + Z.of_nat (length data))) as [Hlt|Hge].
  - destruct (grow_cap_ok 64 (if response_cap c =? 0 then 256 else u64 (response_cap c * 2)) (Z.of_nat (length d) + Z.of_nat (length data))) as (cap & -> & Hc & Hpos).
    { destruct (Z.eqb_spec (response_cap c) 0); [lia|]. rewrite u64_small by (unfold_widths; lia). lia. }
    { destruct (Z.eqb_spec (response_cap c) 0); [lia|]. rewrite u64_small by (unfold_widths; lia). lia. }
    { lia. }
    { destruct (Z.eqb_spec (response_cap c) 0); [lia|]. apply u64_range. }
    cbn [obind]. destruct (Hst (regrow (response c) junk cap)) as (b' & -> & Hl' & Ht').
    { rewrite regrow_length. lia. }
    { unfold regrow. rewrite take_take. destruct (response c) as [b|]; cbn [default from_option id].
      - destruct Hb as (Hl & Hle & Ht). rewrite Nat.min_l by lia. rewrite take_app_le by done. exact Ht.
      - destruct Hb as [-> _]. done. }
    cbn [obind]. eexists. split; [done|]. split; [cbn; rewrite length_app; lia|]. cbn [response response_cap set_response]. split; [lia|]. rewrite Hl', regrow_length.
    split; [lia|]. split; [rewrite length_app; lia|done].
  - destruct (response c) as [b|] eqn:Er; [|destruct Hb; lia]. destruct Hb as (Hl & Hle & Ht). cbn [of_option obind].
    destruct (Hst b ltac:(lia) Ht) as (b' & -> & Hl' & Ht'). cbn [obind]. eexists. split; [done|].
    split; [cbn; rewrite length_app; lia|]. cbn [response response_cap set_response]. split; [done|]. rewrite Hl'. split; [done|]. split; [rewrite length_app; lia|done].
Qed.

Fixpoint append_all {D} (junk : list Z) (c : qd_handler_ctx D) (chunks : list (list Z)) : outcome (qd_handler_ctx D) :=
  match chunks with
  | [] => Ok c
  | d :: chunks => let! (_, c) := qd_handler_ctx_append_response true junk c d (Z.of_nat (length d)) in append_all junk c chunks
  end.

(** Chunks appended to a response, one after the other, are in the response in that order and
    nothing else is, whatever the bytes that realloc leaves in the new part of the block;
    the buffer is never written past its end. *)
Theorem append_responses {D} junk chunks : Forall (fun d => d <> []) chunks -> Z.of_nat (length (concat chunks)) <= 2 ^ 62 ->
  exists c, append_all junk (qd_handler_ctx_init (D := D)) chunks = Ok c /\
    response_len c = Z.of_nat (length (concat chunks)) /\ take (length (concat chunks)) (default [] (response c)) = concat chunks.
Proof.
  assert (forall chunks (c : qd_handler_ctx D) d, holds_response c d -> Forall (fun d => d <> []) chunks -> Z.of_nat (length (d ++ concat chunks)) <= 2 ^ 62 ->
    exists c', append_all junk c chunks = Ok c' /\ holds_response c' (d ++ concat chunks)) as H.
  { clear chunks. induction chunks as [|x chunks IH]; intros c d Hh Hne Hmax; cbn [append_all concat]; [exists c; by rewrite app_nil_r|].
    apply Forall_cons in Hne as [Hx Hne]. cbn [concat] in Hmax. rewrite (assoc_L (++)) in Hmax |- *.
    destruct (append_response_spec junk c d x Hh Hx) as (c1 & -> & Hh1); [rewrite !length_app in Hmax; lia|]. cbn [obind]. by apply IH. }
  intros Hne Hmax. destruct (H chunks qd_handler_ctx_init []) as (c & E & Hl & _ & Hr); [done|done|done|]. exists c. split; [done|]. split; [exact Hl|].
  destruct (response c) as [b|]; [apply Hr|]. cbn [app] in Hr. destruct Hr as [-> _]. done.
Qed.

(** ** Examples *)

Definition demo_steps : list table_step :=
  [mkStep (TRegister 5 100 1 0) true unused; mkStep (TRegister 6 101 2 4) true unused; mkStep (TDefault 102 3) true unused;
   mkStep (TPost 103 4) true unused; mkStep (TError 104 5) true unused; mkStep (TDispatch (10, 20) 6) true unused;
   mkStep (TDispatch (21, 25) 6) true unused;   mkStep (TUnregister 6) true unused; mkStep (TDispatch (30, 40) 6) true unused].

(** Function 101 fails when it is called for the first time, and every function counts in
    the status of the context. *)
Definition demo_ret (log : list call) (x : call) : Z := if (fn_of x =? 101) && bool_decide (101 ∉ fn_of <$> log) then -1 else 0.
Definition demo_touch (log : list call) (x : call) (c : qd_handler_ctx unit) : qd_handler_ctx unit :=
  set_response (Some [Z.of_nat (length log)]) 1 1 c.

Lemma handler_table_refines_witness :
  exists t t', qd_handler_table_create true = Some t /\
    run_steps demo_ret demo_touch demo_steps (mkHWorld t []) =
      Ok ([0; 0; 0; 0; 0; -1; 0; 0; 0],
          mkHWorld t' [mkCallRec 101 2 0 6; mkCallRec 104 5 (-1) 6; mkCallRec 103 4 (-1) 6; mkCallRec 101 2 0 6; mkCallRec 103 4 0 6; mkCallRec 102 3 0 6; mkCallRec 103 4 0 6]) /\
    qd_handler_get_stats t' = (3, 1, 1, 1).
Proof.
  destruct (handler_table_refines demo_ret demo_touch ltac:(done) demo_steps _ eq_refl) as (t' & E & _ & Hs); [unfold demo_steps; repeat (apply Forall_cons_2; [intros h; apply unused_ok|]); apply Forall_nil_2|].
  eexists _, t'. split; [reflexivity|]. rewrite E, Hs. split; vm_compute; reflexivity.
Defined.

Lemma append_responses_witness :
  exists c, append_all [9; 9; 9] (qd_handler_ctx_init (D := unit)) [[1; 2]; [3]] = Ok c /\ take 3 (default [] (response c)) = [1; 2; 3].
Proof.
  destruct (append_responses (D := unit) [9; 9; 9] [[1; 2]; [3]]) as (c & E & _ & H); [repeat constructor; discriminate|vm_compute; discriminate|].
  by exists c.
Defined.

(** A handler that removes the command it was called for. *)
Definition removing (fn arg r : Z) (c : qd_handler_ctx unit) (w : hworld unit) : outcome (Z * qd_handler_ctx unit * hworld unit) :=
  let! (_, t) := qd_handler_unregister (table w) arg in Ok (QD_HANDLER_OK, c, mkHWorld t (user w)).

(** The statistics of the node are written after the call, when the handler has freed it. *)
Theorem handler_removes_its_node :
  (let! t := of_option (qd_handler_table_create true) in
   let! (_, t) := qd_handler_register_fn (fun h => Some (unused h)) t 5 100 5 0 in
   qd_handler_dispatch_cmd removing (0, 0) 5 qd_handler_ctx_init (mkHWorld t tt)) = Undef.
Proof. vm_compute. reflexivity. Qed.

Definition full_entries : list qd_handler_entry := ((fun i => mkEntry (Z.of_nat i) 100 0 0 77) <$> seq 0 256) ++ [mkEntry 0 0 0 0 0].

(** A table with 256 handlers refuses the update of one of them, although it needs no node. *)
Theorem full_table_refuses_update :
  (let! t := of_option (qd_handler_table_create true) in
   let! (n, t) := qd_handler_register_table (fun h => Some (unused h)) t full_entries in
   let! (r, _) := qd_handler_register_fn (fun h => Some (unused h)) t 5 200 0 0 in
   let! e := qd_handler_get t 5 in Ok (n, r, e)) = Ok (256, QD_ERR_NOMEM, Some (mkEntry 5 100 0 0 0)).
Proof. vm_compute. reflexivity. Qed.
