(* ===== verification/Event.v ===== *)
(** * src/core/qd_event.c: the event loop

    Sources, signal handlers and deferred work are records in heaps, linked by pointers as
    in the code.  The kernel is the table of an epoll descriptor and the counter of the
    wakeup descriptor, which is ready exactly while the counter is not zero; which other
    descriptors are ready, what the allocator answers and what the callbacks do is unknown,
    and a poll with no timeout and nothing ready blocks.  An iteration takes the answer of
    the kernel, an operation the
    answer of the allocator, and [behave] says which calls of the event API a callback
    makes.  The timer wheel is a callback like the others. *)

From S2P Require Import Prelude Common Links.

(** ** Event flags *)

Definition QD_EVENT_READ : Z := 0x01.
Definition QD_EVENT_WRITE : Z := 0x02.
Definition QD_EVENT_ERROR : Z := 0x04.
Definition QD_EVENT_HANGUP : Z := 0x08.
Definition QD_EVENT_RDHUP : Z := 0x10.
Definition QD_EVENT_EDGE : Z := 0x20.
Definition QD_EVENT_ONESHOT : Z := 0x40.

Definition EPOLLIN : Z := 0x001.
Definition EPOLLOUT : Z := 0x004.
Definition EPOLLERR : Z := 0x008.
Definition EPOLLHUP : Z := 0x010.
Definition EPOLLRDHUP : Z := 0x2000.
Definition EPOLLONESHOT : Z := 2 ^ 30.
Definition EPOLLET : Z := 2 ^ 31.

(** [if (from & a) to |= b]. *)
Definition carry (from a b to : Z) : Z := if Z.land from a =? 0 then to else Z.lor to b.

Definition to_epoll_events (events : Z) : Z :=
  carry events QD_EVENT_ONESHOT EPOLLONESHOT (carry events QD_EVENT_EDGE EPOLLET
  (carry events QD_EVENT_RDHUP EPOLLRDHUP (carry events QD_EVENT_HANGUP EPOLLHUP
  (carry events QD_EVENT_ERROR EPOLLERR (carry events QD_EVENT_WRITE EPOLLOUT
  (carry events QD_EVENT_READ EPOLLIN 0)))))).

Definition from_epoll_events (epoll_events : Z) : Z :=
  carry epoll_events EPOLLRDHUP QD_EVENT_RDHUP (carry epoll_events EPOLLHUP QD_EVENT_HANGUP
  (carry epoll_events EPOLLERR QD_EVENT_ERROR (carry epoll_events EPOLLOUT QD_EVENT_WRITE
  (carry epoll_events EPOLLIN QD_EVENT_READ 0)))).

(** ** Data *)

(** [struct qd_event_source]; the type is always QD_SOURCE_FD and the loop this one. *)
Record qd_event_source := mkSource {
  s_fd : Z;
  s_events : Z;
  s_active : Z;
  s_callback : Z;
  s_arg : Z;
  s_registered : bool;
  s_enabled : bool;
  s_next : Z;
  s_prev : Z
}.

Record qd_signal_handler := mkHandler { h_signo : Z; h_callback : Z; h_arg : Z; h_next : Z }.
Record qd_pending_work := mkWork { w_func : Z; w_arg : Z; w_next : Z }.

Definition QD_LOOP_STOPPED : Z := 0.
Definition QD_LOOP_RUNNING : Z := 1.
Definition QD_LOOP_STOPPING : Z := 2.

(** [struct qd_event_loop]; of its descriptors only the one that wakes it up. *)
Record qd_event_loop := mkLoop {
  state : Z;
  iteration : Z;
  sources : Z;
  num_sources : Z;
  signal_handlers : Z;
  pending_head : Z;
  pending_tail : Z;
  idle_callback : Z * Z;
  pre_poll_callback : Z * Z;
  post_poll_callback : Z * Z;
  max_events : Z;
  default_timeout : Z;
  poll_count : Z;
  event_count : Z;
  timeout_count : Z;
  wakeup_fd : Z
}.

(** Calls of code that is not the loop's own, with their arguments; [CPoll] is epoll_wait
    with its timeout. *)
Inductive call :=
| CPoll (timeout : Z)
| CSource (source callback fd revents arg : Z)
| CWork (func arg : Z)
| CSignal (callback signo arg : Z)
| CTick
| CPrePoll (callback arg : Z)
| CPostPoll (callback arg : Z)
| CIdle (callback arg : Z).

(** [wakeup] is the counter of [wakeup_fd], [epoll] the table of [epoll_fd]: for a
    descriptor its mask and the pointer that comes back.  [deferred] and [calls] are logs. *)
Record world := mkWorld {
  loop : qd_event_loop;
  srcs : gmap Z qd_event_source;
  sigs : gmap Z qd_signal_handler;
  works : gmap Z qd_pending_work;
  epoll : gmap Z (Z * Z);
  wakeup : Z;
  deferred : list (Z * Z);
  calls : list call
}.

Definition on_loop (f : qd_event_loop -> qd_event_loop) (w : world) : world :=
  mkWorld (f (loop w)) (srcs w) (sigs w) (works w) (epoll w) (wakeup w) (deferred w) (calls w).
Definition set_srcs h w := mkWorld (loop w) h (sigs w) (works w) (epoll w) (wakeup w) (deferred w) (calls w).
Definition set_sigs h w := mkWorld (loop w) (srcs w) h (works w) (epoll w) (wakeup w) (deferred w) (calls w).
Definition set_works h w := mkWorld (loop w) (srcs w) (sigs w) h (epoll w) (wakeup w) (deferred w) (calls w).
Definition set_epoll e w := mkWorld (loop w) (srcs w) (sigs w) (works w) e (wakeup w) (deferred w) (calls w).
Definition set_wakeup n w := mkWorld (loop w) (srcs w) (sigs w) (works w) (epoll w) n (deferred w) (calls w).
Definition log_deferred d w := mkWorld (loop w) (srcs w) (sigs w) (works w) (epoll w) (wakeup w) (deferred w ++ [d]) (calls w).
Definition log_call c w := mkWorld (loop w) (srcs w) (sigs w) (works w) (epoll w) (wakeup w) (deferred w) (calls w ++ [c]).

Definition set_state x l := mkLoop x (iteration l) (sources l) (num_sources l) (signal_handlers l) (pending_head l) (pending_tail l) (idle_callback l) (pre_poll_callback l) (post_poll_callback l) (max_events l) (default_timeout l) (poll_count l) (event_count l) (timeout_count l) (wakeup_fd l).
Definition set_sources x n l := mkLoop (state l) (iteration l) x n (signal_handlers l) (pending_head l) (pending_tail l) (idle_callback l) (pre_poll_callback l) (post_poll_callback l) (max_events l) (default_timeout l) (poll_count l) (event_count l) (timeout_count l) (wakeup_fd l).
Definition set_handlers x l := mkLoop (state l) (iteration l) (sources l) (num_sources l) x (pending_head l) (pending_tail l) (idle_callback l) (pre_poll_callback l) (post_poll_callback l) (max_events l) (default_timeout l) (poll_count l) (event_count l) (timeout_count l) (wakeup_fd l).
Definition set_pending h t l := mkLoop (state l) (iteration l) (sources l) (num_sources l) (signal_handlers l) h t (idle_callback l) (pre_poll_callback l) (post_poll_callback l) (max_events l) (default_timeout l) (poll_count l) (event_count l) (timeout_count l) (wakeup_fd l).
Definition set_callbacks i a b l := mkLoop (state l) (iteration l) (sources l) (num_sources l) (signal_handlers l) (pending_head l) (pending_tail l) i a b (max_events l) (default_timeout l) (poll_count l) (event_count l) (timeout_count l) (wakeup_fd l).
Definition set_counts it p e t l := mkLoop (state l) it (sources l) (num_sources l) (signal_handlers l) (pending_head l) (pending_tail l) (idle_callback l) (pre_poll_callback l) (post_poll_callback l) (max_events l) (default_timeout l) p e t (wakeup_fd l).

Definition source_links (n p : Z) (s : qd_event_source) : qd_event_source :=
  mkSource (s_fd s) (s_events s) (s_active s) (s_callback s) (s_arg s) (s_registered s) (s_enabled s) n p.
Definition source_state (ev act : Z) (reg en : bool) (s : qd_event_source) : qd_event_source :=
  mkSource (s_fd s) ev act (s_callback s) (s_arg s) reg en (s_next s) (s_prev s).

Definition read_source (w : world) (p : Z) : outcome qd_event_source := of_option (srcs w !! p).
Definition write_source (w : world) (p : Z) (s : qd_event_source) : world := set_srcs (<[p := s]> (srcs w)) w.

(** What the allocator answers: an address that is not in use. *)
Definition fresh {A} (h : gmap Z A) (a : Z) : bool := (0 <? a) && bool_decide (h !! a = None).

(** ** Sources *)

(** epoll_ctl with EPOLL_CTL_ADD fails for a descriptor it has, and may fail otherwise
    ([ok]); EPOLL_CTL_MOD fails for one it does not have.  Errors and hang-ups are always
    reported. *)
Definition always_reported : Z := Z.lor EPOLLERR EPOLLHUP.
Definition epoll_add (ok : bool) (fd mask p : Z) (e : gmap Z (Z * Z)) : option (gmap Z (Z * Z)) :=
  if ok && bool_decide (e !! fd = None) then Some (<[fd := (Z.lor mask always_reported, p)]> e) else None.
Definition epoll_mod (fd mask p : Z) (e : gmap Z (Z * Z)) : option (gmap Z (Z * Z)) :=
  if bool_decide (is_Some (e !! fd)) then Some (<[fd := (Z.lor mask always_reported, p)]> e) else None.

(** The new source is put in front of the list; [a] is the answer of calloc. *)
Definition qd_event_add (a : option Z) (ok : bool) (fd events callback arg : Z) (w : world) : outcome (Z * world) :=
  if fd <? 0 then Ok (0, w) else
  match a with
  | None => Ok (0, w)
  | Some p =>
    match epoll_add ok fd (to_epoll_events events) p (epoll w) with
    | None => Ok (0, w)
    | Some e =>
      let head := sources (loop w) in
      let w := write_source (set_epoll e w) p (mkSource fd events 0 callback arg true true head 0) in
      let! w :=
        if negb (head =? 0) then
          let! s := read_source w head in Ok (write_source w head (source_links (s_next s) p s))
        else Ok w in
      Ok (p, on_loop (set_sources p (i32 (num_sources (loop w) + 1))) w)
    end
  end.

Definition qd_event_mod (p events : Z) (w : world) : outcome (Z * world) :=
  if p =? 0 then Ok (QD_ERR_INVAL, w) else
  let! s := read_source w p in
  let w := write_source w p (source_state events (s_active s) (s_registered s) (s_enabled s) s) in
  match epoll_mod (s_fd s) (to_epoll_events events) p (epoll w) with
  | None => Ok (QD_ERR_IO, w)
  | Some e => Ok (QD_OK, set_epoll e w)
  end.

Definition qd_event_del (p : Z) (w : world) : outcome (Z * world) :=
  if p =? 0 then Ok (QD_ERR_INVAL, w) else
  let! s := read_source w p in
  let w :=
    if s_registered s then
      write_source (set_epoll (delete (s_fd s) (epoll w)) w) p (source_state (s_events s) (s_active s) false (s_enabled s) s)
    else w in
  let! w :=
    if negb (s_prev s =? 0) then
      let! b := read_source w (s_prev s) in Ok (write_source w (s_prev s) (source_links (s_next s) (s_prev b) b))
    else Ok (on_loop (set_sources (s_next s) (num_sources (loop w))) w) in
  let! w :=
    if negb (s_next s =? 0) then
      let! b := read_source w (s_next s) in Ok (write_source w (s_next s) (source_links (s_next b) (s_prev s) b))
    else Ok w in
  let w := on_loop (set_sources (sources (loop w)) (i32 (num_sources (loop w) - 1))) w in
  Ok (QD_OK, set_srcs (delete p (srcs w)) w).

Definition qd_event_enable (p : Z) (w : world) : outcome (Z * world) :=
  if p =? 0 then Ok (QD_ERR_INVAL, w) else
  let! s := read_source w p in
  if s_enabled s then Ok (QD_OK, w) else
  let w := write_source w p (source_state (s_events s) (s_active s) (s_registered s) true s) in
  match epoll_mod (s_fd s) (to_epoll_events (s_events s)) p (epoll w) with
  | None => Ok (QD_ERR_IO, w)
  | Some e => Ok (QD_OK, set_epoll e w)
  end.

Definition qd_event_disable (p : Z) (w : world) : outcome (Z * world) :=
  if p =? 0 then Ok (QD_ERR_INVAL, w) else
  let! s := read_source w p in
  if negb (s_enabled s) then Ok (QD_OK, w) else
  let w := write_source w p (source_state (s_events s) (s_active s) (s_registered s) false s) in
  match epoll_mod (s_fd s) 0 p (epoll w) with
  | None => Ok (QD_ERR_IO, w)
  | Some e => Ok (QD_OK, set_epoll e w)
  end.

(** The walk of qd_event_del_fd. *)
Fixpoint find_fd (fuel : nat) (fd p : Z) (w : world) : outcome Z :=
  if p =? 0 then Ok 0 else
  match fuel with
  | O => Fuel
  | S fuel => let! s := read_source w p in if s_fd s =? fd then Ok p else find_fd fuel fd (s_next s) w
  end.

Definition qd_event_del_fd (fd : Z) (w : world) : outcome (Z * world) :=
  if fd <? 0 then Ok (QD_ERR_INVAL, w) else
  let! p := find_fd (S (size (srcs w))) fd (sources (loop w)) w in
  if p =? 0 then Ok (QD_ERR_NOENT, w) else qd_event_del p w.

(** ** Signals *)

Definition qd_event_add_signal (a : option Z) (signo callback arg : Z) (w : world) : outcome (Z * world) :=
  if callback =? 0 then Ok (QD_ERR_INVAL, w) else
  match a with
  | None => Ok (QD_ERR_NOMEM, w)
  | Some p =>
    let w := set_sigs (<[p := mkHandler signo callback arg (signal_handlers (loop w))]> (sigs w)) w in
    Ok (QD_OK, on_loop (set_handlers p) w)
  end.

(** The walk of qd_event_del_signal; [at_] is the record whose pointer [pp] points at, 0
    for the head of the list. *)
Fixpoint del_signal (fuel : nat) (signo at_ p : Z) (w : world) : outcome (Z * world) :=
  if p =? 0 then Ok (QD_ERR_NOENT, w) else
  match fuel with
  | O => Fuel
  | S fuel =>
    let! h := of_option (sigs w !! p) in
    if h_signo h =? signo then
      let! w :=
        if at_ =? 0 then Ok (on_loop (set_handlers (h_next h)) w)
        else let! b := of_option (sigs w !! at_) in
             Ok (set_sigs (<[at_ := mkHandler (h_signo b) (h_callback b) (h_arg b) (h_next h)]> (sigs w)) w) in
      Ok (QD_OK, set_sigs (delete p (sigs w)) w)
    else del_signal fuel signo p (h_next h) w
  end.

Definition qd_event_del_signal (signo : Z) (w : world) : outcome (Z * world) :=
  del_signal (S (size (sigs w))) signo 0 (signal_handlers (loop w)) w.

(** ** Deferred work and the state of the loop *)

(** The counter has a largest value, at which the write fails. *)
Definition qd_event_loop_wakeup (w : world) : world := set_wakeup (Z.min (wakeup w + 1) (2 ^ 64 - 2)) w.

Definition qd_event_loop_stop (w : world) : world := qd_event_loop_wakeup (on_loop (set_state QD_LOOP_STOPPING) w).

Definition qd_event_loop_is_running (w : world) : bool := state (loop w) =? QD_LOOP_RUNNING.

Definition qd_event_defer (a : option Z) (func arg : Z) (w : world) : outcome (Z * world) :=
  if func =? 0 then Ok (QD_ERR_INVAL, w) else
  match a with
  | None => Ok (QD_ERR_NOMEM, w)
  | Some p =>
    let w := set_works (<[p := mkWork func arg 0]> (works w)) w in
    let tail := pending_tail (loop w) in
    let! w :=
      if negb (tail =? 0) then
        let! t := of_option (works w !! tail) in
        Ok (on_loop (set_pending (pending_head (loop w)) p) (set_works (<[tail := mkWork (w_func t) (w_arg t) p]> (works w)) w))
      else Ok (on_loop (set_pending p p) w) in
    Ok (QD_OK, log_deferred (func, arg) (qd_event_loop_wakeup w))
  end.

(** ** The calls a callback can make *)

Inductive op :=
| OAdd (a : option Z) (ok : bool) (fd events callback arg : Z)
| OMod (p events : Z)
| ODel (p : Z)
| OEnable (p : Z)
| ODisable (p : Z)
| ODelFd (fd : Z)
| OAddSignal (a : option Z) (signo callback arg : Z)
| ODelSignal (signo : Z)
| ODefer (a : option Z) (func arg : Z)
| OStop
| OWakeup
| OSetIdle (callback arg : Z)
| OSetPrePoll (callback arg : Z)
| OSetPostPoll (callback arg : Z).

#[global] Instance op_dec : EqDecision op.
Proof. solve_decision. Defined.

(** The callers pass sources of the loop and their own functions, and the allocator
    answers free addresses. *)
Definition op_ok (w : world) (o : op) : bool :=
  match o with
  | OAdd a _ _ _ callback _ => (0 <=? callback) && match a with Some a => fresh (srcs w) a | None => true end
  | OAddSignal (Some a) _ _ _ => fresh (sigs w) a
  | ODefer (Some a) _ _ => fresh (works w) a
  | OMod p _ | ODel p | OEnable p | ODisable p => (p =? 0) || bool_decide (is_Some (srcs w !! p))
  | _ => true
  end.

Definition run_op (o : op) (w : world) : outcome (Z * world) :=
  match o with
  | OAdd a ok fd events callback arg => qd_event_add a ok fd events callback arg w
  | OMod p events => qd_event_mod p events w
  | ODel p => qd_event_del p w
  | OEnable p => qd_event_enable p w
  | ODisable p => qd_event_disable p w
  | ODelFd fd => qd_event_del_fd fd w
  | OAddSignal a signo callback arg => qd_event_add_signal a signo callback arg w
  | ODelSignal signo => qd_event_del_signal signo w
  | ODefer a func arg => qd_event_defer a func arg w
  | OStop => Ok (QD_OK, qd_event_loop_stop w)
  | OWakeup => Ok (QD_OK, qd_event_loop_wakeup w)
  | OSetIdle callback arg => Ok (QD_OK, on_loop (fun l => set_callbacks (callback, arg) (pre_poll_callback l) (post_poll_callback l) l) w)
  | OSetPrePoll callback arg => Ok (QD_OK, on_loop (fun l => set_callbacks (idle_callback l) (callback, arg) (post_poll_callback l) l) w)
  | OSetPostPoll callback arg => Ok (QD_OK, on_loop (fun l => set_callbacks (idle_callback l) (pre_poll_callback l) (callback, arg) l) w)
  end.

Fixpoint run_ops (l : list op) (w : world) : outcome world :=
  match l with
  | [] => Ok w
  | o :: l => if op_ok w o then let! (_, w) := run_op o w in run_ops l w else run_ops l w
  end.

(** ** Iterations *)

(** The functions wakeup_callback, timer_callback and signal_callback. *)
Definition wakeup_callback : Z := -1.
Definition timer_callback : Z := -2.
Definition signal_callback : Z := -3.

(** What the kernel has ready, per descriptor, and what it was asked for.  A descriptor
    with EPOLLONESHOT is reported once. *)
Definition private_bits : Z := Z.lor EPOLLET EPOLLONESHOT.

Fixpoint epoll_wait (max : nat) (ready : list (Z * Z)) (e : gmap Z (Z * Z)) : list (Z * Z) * gmap Z (Z * Z) :=
  match max, ready with
  | O, _ | _, [] => ([], e)
  | S n, (fd, ev) :: ready =>
    match e !! fd with
    | Some (m, p) =>
      if negb (Z.land ev m =? 0) && negb (bool_decide (fd ∈ ready.*1)) then
        let '(l, e) := epoll_wait n ready (if Z.land m EPOLLONESHOT =? 0 then e else <[fd := (Z.land m private_bits, p)]> e) in
        ((p, Z.land ev m) :: l, e)
      else epoll_wait max ready e
    | None => epoll_wait max ready e
    end
  end.

(** The wakeup descriptor is ready to be read exactly while its counter is not zero,
    whatever the other descriptors are. *)
Definition kernel_ready (w : world) (ready : list (Z * Z)) : list (Z * Z) :=
  let fd := wakeup_fd (loop w) in
  if 0 <? wakeup w then
    if bool_decide (fd ∈ ready.*1) then (fun x => if x.1 =? fd then (fd, EPOLLIN) else x) <$> ready
    else ready ++ [(fd, EPOLLIN)]
  else filter (fun x => x.1 <> fd) ready.

(** What epoll_wait reports to a loop that polls. *)
Definition poll_events (w : world) (ready : list (Z * Z)) : list (Z * Z) * gmap Z (Z * Z) :=
  epoll_wait (Z.to_nat (max_events (loop w))) (kernel_ready w ready) (epoll w).

Inductive polled := PError (eintr : bool) | PReady (ready : list (Z * Z)).

(** What comes from outside in an iteration: the next expiry of the timer wheel, the calls
    other threads make while the loop waits, what is ready, the signal that is read. *)
Record answer := mkAnswer { a_next : Z; a_others : list op; a_polled : polled; a_signo : option Z }.

Section loop.
Context (behave : call -> world -> list op).

Definition invoke (c : call) (w : world) : outcome world := run_ops (behave c w) (log_call c w).

(** A callback of the loop that may be NULL. *)
Definition hook (mk : Z -> Z -> call) (cb : Z * Z) (w : world) : outcome world :=
  if cb.1 =? 0 then Ok w else invoke (mk cb.1 cb.2) w.

(** process_pending_work: the list is taken off the loop, then walked. *)
Fixpoint work_loop (fuel : nat) (p : Z) (w : world) : outcome world :=
  if p =? 0 then Ok w else
  match fuel with
  | O => Fuel
  | S fuel =>
    let! x := of_option (works w !! p) in
    let! w := if w_func x =? 0 then Ok w else invoke (CWork (w_func x) (w_arg x)) w in
    let! _ := of_option (works w !! p) in
    work_loop fuel (w_next x) (set_works (delete p (works w)) w)
  end.

Definition process_pending_work (w : world) : outcome world :=
  work_loop (S (size (works w))) (pending_head (loop w)) (on_loop (set_pending 0 0) w).

(** The walk of signal_callback. *)
Fixpoint signal_loop (fuel : nat) (signo p : Z) (w : world) : outcome world :=
  if p =? 0 then Ok w else
  match fuel with
  | O => Fuel
  | S fuel =>
    let! h := of_option (sigs w !! p) in
    let! w :=
      if (h_signo h =? signo) && negb (h_callback h =? 0) then invoke (CSignal (h_callback h) signo (h_arg h)) w else Ok w in
    let! h := of_option (sigs w !! p) in
    signal_loop fuel signo (h_next h) w
  end.

Definition run_signals (signo : option Z) (w : world) : outcome world :=
  match signo with
  | None => Ok w
  | Some signo => signal_loop (S (size (sigs w))) signo (signal_handlers (loop w)) w
  end.

Definition call_source (signo : option Z) (p : Z) (s : qd_event_source) (revents : Z) (w : world) : outcome world :=
  if s_callback s =? wakeup_callback then Ok (set_wakeup 0 w)
  else if s_callback s =? timer_callback then invoke CTick w
  else if s_callback s =? signal_callback then run_signals signo w
  else if s_callback s =? 0 then Ok w
  else invoke (CSource p (s_callback s) (s_fd s) revents (s_arg s)) w.

Fixpoint dispatch (signo : option Z) (events : list (Z * Z)) (w : world) : outcome world :=
  match events with
  | [] => Ok w
  | (p, ev) :: events =>
    if p =? 0 then dispatch signo events w else
    let! s := read_source w p in
    if negb (s_enabled s) then dispatch signo events w else
    let revents := from_epoll_events ev in
    let w := write_source w p (source_state (s_events s) revents (s_registered s) (s_enabled s) s) in
    let! w := call_source signo p s revents w in
    dispatch signo events (on_loop (fun l => set_counts (iteration l) (poll_count l) (u64 (event_count l + 1)) (timeout_count l) l) w)
  end.

Definition poll_timeout (next timeout : Z) : Z :=
  if (0 <=? next) && ((timeout <? 0) || (next <? timeout)) then i32 next else timeout.

(** qd_event_loop_run_once up to the moment epoll_wait returns, and after it. *)
Definition before_poll (timeout : Z) (a : answer) (w : world) : outcome world :=
  let! w := process_pending_work w in
  let! w := hook CPrePoll (pre_poll_callback (loop w)) w in
  run_ops (a_others a) (log_call (CPoll (poll_timeout (a_next a) timeout)) w).

Definition after_poll (a : answer) (w : world) : outcome (Z * world) :=
  let count := on_loop (fun l => set_counts (iteration l) (u64 (poll_count l + 1)) (event_count l) (timeout_count l) l) w in
  match a_polled a with
  | PError eintr => Ok (if eintr then QD_OK else QD_ERR_IO, count)
  | PReady ready =>
    match poll_events w ready with
    | ([], _) =>
      let w := on_loop (fun l => set_counts (iteration l) (poll_count l) (event_count l) (u64 (timeout_count l + 1)) l) count in
      let! w := hook CIdle (idle_callback (loop w)) w in Ok (QD_OK, w)
    | (events, e) =>
      let! w := dispatch (a_signo a) events (set_epoll e count) in
      let! w := hook CPostPoll (post_poll_callback (loop w)) w in
      Ok (QD_OK, on_loop (fun l => set_counts (i32 (iteration l + 1)) (poll_count l) (event_count l) (timeout_count l) l) w)
    end
  end.

(** epoll_wait with a negative timeout does not return while it has nothing to report. *)
Definition blocked (timeout : Z) (a : answer) (w : world) : bool :=
  match a_polled a with
  | PError _ => false
  | PReady ready => (poll_timeout (a_next a) timeout <? 0) && bool_decide ((poll_events w ready).1 = [])
  end.

(** [Fuel] when the poll does not return. *)
Definition qd_event_loop_run_once (timeout : Z) (a : answer) (w : world) : outcome (Z * world) :=
  let! w := before_poll timeout a w in
  if blocked timeout a w then Fuel else after_poll a w.

(** qd_event_loop_run with the answers of its iterations; [Fuel] when a poll does not return
    or when it still runs after the last answer. *)
Fixpoint run_loop (l : list answer) (w : world) : outcome world :=
  if negb (qd_event_loop_is_running w) then Ok w else
  match l with
  | [] => Fuel
  | a :: l =>
    let! (ret, w) := qd_event_loop_run_once (default_timeout (loop w)) a w in
    if negb (ret =? QD_OK) && negb (ret =? QD_ERR_TIMEOUT) then Ok w else run_loop l w
  end.

Definition qd_event_loop_run (l : list answer) (w : world) : outcome (Z * world) :=
  let! w := run_loop l (on_loop (set_state QD_LOOP_RUNNING) w) in
  Ok (QD_OK, on_loop (set_state QD_LOOP_STOPPED) w).
End loop.

(** ** Creation *)

(** The answers to the calls that create a loop: the descriptors (-1 for none) and the
    addresses of the first sources. *)
Record create_env := mkEnv {
  e_ok : bool;
  e_wakeup_fd : Z;
  e_timer_fd : Z;
  e_signal_fd : Z;
  e_wakeup_source : option Z;
  e_timer_source : option Z;
  e_signal_source : option Z
}.

Record qd_event_loop_config := mkLoopConfig { lc_max_events : Z; lc_timeout_ms : Z; lc_enable_signals : bool }.

Definition add_internal (a : option Z) (fd callback : Z) (w : world) : outcome world :=
  if fd =? -1 then Ok w else
  let! (_, w) := qd_event_add a true fd QD_EVENT_READ callback 0 w in Ok w.

(** The epoll descriptor, the memory of the loop and of its events and the wakeup
    descriptor must be had; the other descriptors need not. *)
Definition qd_event_loop_create_ex (e : create_env) (config : qd_event_loop_config) : outcome (option world) :=
  if negb (e_ok e) || (e_wakeup_fd e =? -1) then Ok None else
  let l := mkLoop QD_LOOP_STOPPED 0 0 0 0 0 0 (0, 0) (0, 0) (0, 0)
             (if 0 <? lc_max_events config then lc_max_events config else 1024) (lc_timeout_ms config) 0 0 0 (e_wakeup_fd e) in
  let! w := add_internal (e_wakeup_source e) (e_wakeup_fd e) wakeup_callback (mkWorld l ∅ ∅ ∅ ∅ 0 [] []) in
  let! w := add_internal (e_timer_source e) (e_timer_fd e) timer_callback w in
  let! w := add_internal (e_signal_source e) (if lc_enable_signals config then e_signal_fd e else -1) signal_callback w in
  Ok (Some w).

Definition qd_event_loop_create (e : create_env) : outcome (option world) :=
  qd_event_loop_create_ex e (mkLoopConfig 1024 (-1) true).
