(* ===== verification/EventSafe.v ===== *)
(** * The event loop keeps its registry, its queue of work and its promises

    Invariants of [Event] under arbitrary clients: the list of sources and the table of the
    kernel agree, deferred work is called once and in order, every event of a poll reaches
    its source, and a stop ends the loop. *)

From S2P Require Import Prelude Common Links Event.

(** ** The registry of sources *)

Definition full_mask (s : qd_event_source) : Z := Z.lor (to_epoll_events (s_events s)) always_reported.

(** An enabled source has its events in the table of the kernel, unless it has been
    reported and was registered for one report. *)
Definition armed (s : qd_event_source) (m : Z) : Prop :=
  s_enabled s = true -> m = full_mask s \/ Z.land (full_mask s) EPOLLONESHOT <> 0 /\ m = Z.land (full_mask s) private_bits.

Record srcs_ok (w : world) (l : list Z) : Prop := {
  so_chain : dchain s_next s_prev (srcs w) (sources (loop w)) l;
  so_nodup : NoDup l;
  so_dom : forall p, p ∈ l <-> is_Some (srcs w !! p);
  so_count : num_sources (loop w) = i32 (Z.of_nat (length l));
  so_table : forall fd m p, epoll w !! fd = Some (m, p) -> exists s, srcs w !! p = Some s /\ s_fd s = fd /\ armed s m;
  so_entry : forall p s, srcs w !! p = Some s -> s_registered s = true /\ exists m, epoll w !! s_fd s = Some (m, p)
}.

(** The same source, up to its place in the list. *)
Definition same_source (s s' : qd_event_source) : Prop := s' = source_links (s_next s') (s_prev s') s.

Lemma same_source_refl s : same_source s s.
Proof. by destruct s. Qed.
Lemma same_source_trans s1 s2 s3 : same_source s1 s2 -> same_source s2 s3 -> same_source s1 s3.
Proof. intros H1 H2. unfold same_source in *. rewrite H2, H1. done. Qed.
Lemma same_source_links n p s : same_source s (source_links n p s).
Proof. done. Qed.
Lemma same_source_state s s' ev act reg en : same_source s s' -> same_source (source_state ev act reg en s) (source_state ev act reg en s').
Proof. intros ->. done. Qed.
#[export] Hint Resolve same_source_refl same_source_links : qd.

Lemma same_source_armed s s' m : same_source s s' -> armed s m -> armed s' m.
Proof. intros ->. done. Qed.

(** A heap in which the sources of [h] are the same but for their links. *)
Definition relinked (h h' : gmap Z qd_event_source) : Prop :=
  forall u s, h !! u = Some s -> exists s', h' !! u = Some s' /\ same_source s s'.

(** The kernel's table only knows the sources, so a change of links does not matter. *)
Lemma table_relinked h h' (e : gmap Z (Z * Z)) :
  relinked h h' -> (forall fd m p, e !! fd = Some (m, p) -> exists s, h !! p = Some s /\ s_fd s = fd /\ armed s m) ->
  forall fd m p, e !! fd = Some (m, p) -> exists s, h' !! p = Some s /\ s_fd s = fd /\ armed s m.
Proof.
  intros Hr Ht fd m p Hp. destruct (Ht fd m p Hp) as (s & Hs & Hf & Ha). destruct (Hr p s Hs) as (s' & Hs' & E).
  exists s'. split; [done|]. split; [by rewrite E|by eapply same_source_armed].
Qed.

Section sources.
Context (w : world) (l : list Z).
Hypothesis HW : srcs_ok w l.

Lemma so_live p : p ∈ l -> p <> 0 /\ exists s, srcs w !! p = Some s.
Proof. intros Hp. destruct (dseg_live _ _ _ _ _ _ _ p (so_chain _ _ HW) Hp) as [? [s ?]]. eauto. Qed.

Lemma so_nonzero p s : srcs w !! p = Some s -> p <> 0.
Proof. intros Hs. apply so_live. apply (so_dom _ _ HW). by exists s. Qed.

(** The state of one source changes, in its record and in the table. *)
Lemma srcs_update p s s' m w' :
  srcs w !! p = Some s -> s_fd s' = s_fd s -> s_next s' = s_next s -> s_prev s' = s_prev s -> s_registered s' = true -> armed s' m ->
  srcs w' = <[p := s']> (srcs w) -> epoll w' = <[s_fd s := (m, p)]> (epoll w) -> sources (loop w') = sources (loop w) ->
  num_sources (loop w') = num_sources (loop w) -> srcs_ok w' l.
Proof.
  intros Hs Ef En Ep Er Ha Esr Eep Eh Ec. destruct HW as [W1 W2 W3 W4 W5 W6].
  assert (p ∈ l) as Hp by (apply W3; by exists s).
  split; [|done| |congruence| |].
  - rewrite Esr, Eh. destruct (list_elem_of_split _ _ Hp) as (l1 & l2 & E). unfold dchain in *. rewrite E in *.
    apply dseg_app in W1 as (k & H1 & -> & H0 & y & Hy & Hpy & H2). simplify_eq.
    apply NoDup_app in W2 as (N1 & Nd & N2). apply NoDup_cons in N2 as [N2 _].
    apply dseg_app. exists p. split.
    + eapply dseg_frame; [|done]. intros u Hu. rewrite lookup_insert_ne; [done|]. intros ->. apply (Nd u Hu). by left.
    + split; [done|]. split; [done|]. exists s'. rewrite lookup_insert_eq. split; [done|]. split; [congruence|]. rewrite En.
      eapply dseg_frame; [|done]. intros u Hu. rewrite lookup_insert_ne; [done|]. by intros ->.
  - intros u. rewrite W3, Esr. destruct (decide (u = p)) as [->|]; [rewrite lookup_insert_eq, Hs; by split|by rewrite lookup_insert_ne].
  - intros fd m' q. rewrite Eep, Esr. destruct (decide (fd = s_fd s)) as [->|Hne].
    + rewrite lookup_insert_eq. intros [= <- <-]. exists s'. rewrite lookup_insert_eq. done.
    + rewrite lookup_insert_ne by done. intros Hq. destruct (W5 fd m' q Hq) as (z & Hz & Hfz & Haz).
      exists z. rewrite lookup_insert_ne; [done|]. intros ->. congruence.
  - intros q z. rewrite Esr, Eep. destruct (decide (q = p)) as [->|Hne].
    + rewrite lookup_insert_eq. intros [= <-]. split; [done|]. rewrite Ef, lookup_insert_eq. by eexists.
    + rewrite lookup_insert_ne by done. intros Hz. destruct (W6 q z Hz) as [? [m' Hm']]. split; [done|]. exists m'.
      rewrite lookup_insert_ne; [done|]. intros E. destruct (W6 p s Hs) as [_ [m2 Hm2]]. rewrite E, Hm' in Hm2. congruence.
Qed.

Lemma srcs_same w' : srcs w' = srcs w -> epoll w' = epoll w -> sources (loop w') = sources (loop w) -> num_sources (loop w') = num_sources (loop w) -> srcs_ok w' l.
Proof. intros E1 E2 E3 E4. destruct HW as [W1 W2 W3 W4 W5 W6]. split; rewrite ?E1, ?E2, ?E3, ?E4; done. Qed.
End sources.

(** What a call about sources leaves: everything else, and the sources [P] does not name. *)
Record srcs_step (w w' : world) (P : Z -> Prop) : Prop := {
  ss_sigs : sigs w' = sigs w;
  ss_works : works w' = works w;
  ss_wakeup : wakeup w' = wakeup w;
  ss_deferred : deferred w' = deferred w;
  ss_calls : calls w' = calls w;
  ss_loop : loop w' = set_sources (sources (loop w')) (num_sources (loop w')) (loop w);
  ss_others : forall p s, srcs w !! p = Some s -> ~ P p -> exists s', srcs w' !! p = Some s' /\ same_source s s'
}.

Lemma qd_event_add_ok w l a ok fd ev cb arg :
  srcs_ok w l -> match a with Some p => fresh (srcs w) p = true | None => True end ->
  exists r w' l', qd_event_add a ok fd ev cb arg w = Ok (r, w') /\ srcs_ok w' l' /\ srcs_step w w' (fun _ => False).
Proof.
  intros HW Ha. assert (exists r w' l', Ok (0, w) = Ok (r, w') /\ srcs_ok w' l' /\ srcs_step w w' (fun _ => False)) as Hsame.
  { eexists _, _, l. split; [done|]. split; [done|]. split; try done; [by destruct (loop w)|]. eauto with qd. }
  unfold qd_event_add. destruct (fd <? 0); [done|]. destruct a as [p|]; [|done]. unfold epoll_add.
  destruct (ok && bool_decide (epoll w !! fd = None)) eqn:E; [|done]. clear Hsame.
  apply andb_prop in E as [_ E]. apply bool_decide_eq_true in E. unfold fresh in Ha. apply andb_prop in Ha as [Hp0 Hpn].
  apply bool_decide_eq_true in Hpn. assert (p <> 0) as Hp by lia.
  pose proof HW as [W1 W2 W3 W4 W5 W6]. set (head := sources (loop w)) in *.
  assert (p ∉ l) as Hpl by (rewrite W3, Hpn; by intros [? ?]).
  set (new := mkSource fd ev 0 cb arg true true head 0).
  set (h1 := <[p := new]> (srcs w)).
  assert (exists h', relinked h1 h' /\ h' !! p = Some new /\ (forall u, is_Some (h' !! u) <-> is_Some (h1 !! u)) /\
    dchain s_next s_prev h' p (p :: l) /\
    (if negb (head =? 0) then
       let! s := read_source (write_source (set_epoll (<[fd := (Z.lor (to_epoll_events ev) always_reported, p)]> (epoll w)) w) p new) head in
       Ok (write_source (write_source (set_epoll (<[fd := (Z.lor (to_epoll_events ev) always_reported, p)]> (epoll w)) w) p new) head (source_links (s_next s) p s))
     else Ok (write_source (set_epoll (<[fd := (Z.lor (to_epoll_events ev) always_reported, p)]> (epoll w)) w) p new)) =
    Ok (set_srcs h' (set_epoll (<[fd := (Z.lor (to_epoll_events ev) always_reported, p)]> (epoll w)) w))) as (h' & Hrel & Hnew & Hdom & Hch & ->).
  { destruct (Z.eqb_spec head 0) as [E0|E0]; cbn [negb].
    - assert (l = []) as -> by (destruct l; [done|]; destruct W1 as (E1 & H1 & _); congruence).
      exists h1. split; [intros u s Hu; eauto with qd|]. split; [apply lookup_insert_eq|]. split; [done|]. split; [|done].
      split; [done|]. split; [done|]. exists new. split; [apply lookup_insert_eq|done].
    - destruct l as [|u l]; [done|]. pose proof W1 as (Eu & _ & y & Hy & _). fold head in Eu. rewrite Eu in *.
      assert (u <> p) as Hup by (intros ->; by rewrite Hpn in Hy).
      unfold read_source. simpl. rewrite lookup_insert_ne by done. rewrite Hy. cbn [of_option obind].
      exists (<[u := source_links (s_next y) p y]> h1). split; [|split; [|split; [|split; [|done]]]].
      + intros v s Hv. destruct (decide (v = u)) as [->|].
        * unfold h1 in Hv. rewrite lookup_insert_ne in Hv by done. simplify_eq. rewrite lookup_insert_eq. eauto with qd.
        * rewrite lookup_insert_ne by done. eauto with qd.
      + rewrite lookup_insert_ne by done. apply lookup_insert_eq.
      + intros v. destruct (decide (v = u)) as [->|]; [|by rewrite lookup_insert_ne].
        rewrite lookup_insert_eq. unfold h1. rewrite lookup_insert_ne by done. rewrite Hy. by split.
      + apply (dchain_push s_next s_prev (srcs w) _ u (u :: l) p new); try done.
        * rewrite lookup_insert_ne by done. apply lookup_insert_eq.
        * intros v z Hv Hz. destruct (decide (v = u)) as [->|].
          -- rewrite lookup_insert_eq. simplify_eq. eexists. split; [done|]. split; [done|]. done.
          -- rewrite lookup_insert_ne by done. unfold h1. rewrite lookup_insert_ne by (intros ->; by apply Hpl).
             eexists. split; [exact Hz|]. split; [done|]. by rewrite ?decide_False by done. }
  cbn [obind]. eexists _, _, (p :: l). split; [done|]. split.
  - split; simpl; try done.
    + constructor; [done|done].
    + intros u. rewrite elem_of_cons, W3, Hdom. unfold h1. destruct (decide (u = p)) as [->|]; [rewrite lookup_insert_eq; split; eauto|].
      rewrite lookup_insert_ne by done. naive_solver.
    + rewrite W4, i32_step. f_equal. lia.
    + apply (table_relinked h1); [done|]. intros fd' m q. destruct (decide (fd' = fd)) as [->|].
      * rewrite lookup_insert_eq. intros [= <- <-]. exists new. split; [apply lookup_insert_eq|]. split; [done|]. by left.
      * rewrite lookup_insert_ne by done. intros Hq. destruct (W5 fd' m q Hq) as (s & Hs & ? & ?). exists s.
        unfold h1. rewrite lookup_insert_ne by (intros ->; congruence). done.
    + intros q s Hs. destruct (decide (q = p)) as [->|Hne].
      * rewrite Hnew in Hs. injection Hs as <-. split; [done|]. simpl. rewrite lookup_insert_eq. eauto.
      * destruct (proj1 (Hdom q) ltac:(by exists s)) as [s0 Hs0]. destruct (Hrel q s0 Hs0) as (s' & Hs' & Es). rewrite Hs in Hs'. injection Hs' as <-.
        unfold h1 in Hs0. rewrite lookup_insert_ne in Hs0 by done. destruct (W6 q s0 Hs0) as [Hreg [m Hm]]. rewrite Es. split; [done|]. simpl.
        exists m. rewrite lookup_insert_ne; [done|]. congruence.
  - split; simpl; try done. intros q s Hs _. apply Hrel. unfold h1. rewrite lookup_insert_ne; [done|]. intros ->. congruence.
Qed.

(** The heap after the two neighbours of a source were made to point at each other. *)
Definition unlink_heap (p : Z) (s : qd_event_source) (h : gmap Z qd_event_source) : outcome (gmap Z qd_event_source) :=
  let! h := if negb (s_prev s =? 0) then let! b := of_option (h !! s_prev s) in Ok (<[s_prev s := source_links (s_next s) (s_prev b) b]> h) else Ok h in
  let! h := if negb (s_next s =? 0) then let! b := of_option (h !! s_next s) in Ok (<[s_next s := source_links (s_next b) (s_prev s) b]> h) else Ok h in
  Ok (delete p h).

Lemma last_of_zero l : (forall u, u ∈ l -> u <> 0) -> last_of 0 l = 0 -> l = [].
Proof.
  intros Hl. destruct l as [|x l _] using rev_ind; [done|]. rewrite last_of_snoc. intros ->. destruct (Hl 0); [|done]. apply elem_of_app. right. by left.
Qed.

Ltac decides := repeat match goal with |- context [decide ?P] => destruct (decide P); try (exfalso; simplify_eq/=; congruence) end; try congruence.

Lemma unlink_heap_ok h p s head l1 l2 act :
  dchain s_next s_prev h head (l1 ++ p :: l2) -> NoDup (l1 ++ p :: l2) -> (forall u, u ∈ l1 ++ p :: l2 <-> is_Some (h !! u)) -> h !! p = Some s ->
  exists h', unlink_heap p s (<[p := act]> h) = Ok h' /\
    dchain s_next s_prev h' (if s_prev s =? 0 then s_next s else head) (l1 ++ l2) /\
    (forall u, u ∈ l1 ++ l2 <-> is_Some (h' !! u)) /\ h' !! p = None /\
    (forall u x, u <> p -> h !! u = Some x -> exists x', h' !! u = Some x' /\ same_source x x').
Proof.
  intros Hd Hnd Hdom Hs. destruct (dchain_mid _ _ _ _ _ _ _ _ Hd Hs) as [Ep En].
  assert (forall u, u ∈ l1 ++ p :: l2 -> u <> 0) as Hnz by (intros u Hu; by eapply dseg_live).
  pose proof Hnd as (N1 & Nd & N2)%NoDup_app. apply NoDup_cons in N2 as [Np N2].
  assert (p ∉ l1) as Np1 by (intros Hp; apply (Nd p Hp); by left).
  assert (forall u x, u ∈ l1 ++ l2 -> h !! u = Some x ->
    exists y, y = source_links (if decide (last l1 = Some u) then s_next s else s_next x) (if decide (list.head l2 = Some u) then s_prev s else s_prev x) x /\
      (last l1 <> Some u -> list.head l2 <> Some u -> y = x)) as Hy.
  { intros u x _ _. eexists. split; [done|]. intros H1 H2. rewrite !decide_False by done. by destruct x. }
  set (f := fun u x => source_links (if decide (last l1 = Some u) then s_next s else s_next x) (if decide (list.head l2 = Some u) then s_prev s else s_prev x) x).
  assert (exists h', unlink_heap p s (<[p := act]> h) = Ok h' /\ h' !! p = None /\ forall u, u <> p -> h' !! u = f u <$> h !! u) as (h' & Eh & Hp' & Hu').
  { assert (forall u x, last l1 <> Some u -> list.head l2 <> Some u -> f u x = x) as Hid.
    { intros u x H1 H2. unfold f. rewrite !decide_False by done. by destruct x. }
    unfold unlink_heap. destruct l1 as [|a l1 _] using rev_ind.
    - unfold last_of in Ep. simpl in Ep. rewrite Ep. cbn [Z.eqb negb obind]. destruct l2 as [|b l2].
      + simpl in En. rewrite En. cbn [Z.eqb negb obind]. eexists. split; [done|]. split; [apply lookup_delete_eq|]. intros u Hu.
        rewrite lookup_delete_ne, lookup_insert_ne by done. destruct (h !! u); simpl; [|done]. by rewrite Hid.
      + simpl in En. destruct (Z.eqb_spec (s_next s) 0) as [E0|_]; [exfalso; apply (Hnz b); [by right; left|congruence]|]. cbn [negb].
        assert (b <> p) as Hbp by (intros ->; apply Np; by left).
        destruct (proj1 (Hdom b)) as [x Hx]; [by right; left|]. rewrite En, lookup_insert_ne, Hx by done. cbn [of_option obind].
        eexists. split; [done|]. split; [apply lookup_delete_eq|]. intros u Hu. rewrite lookup_delete_ne by done.
        destruct (decide (u = b)) as [->|Hub].
        * rewrite lookup_insert_eq, Hx. simpl. f_equal. unfold f. decides; by rewrite Ep.
        * rewrite !lookup_insert_ne by done. destruct (h !! u); simpl; [|done]. rewrite Hid; [done|done|simpl; congruence].
    - rewrite last_of_snoc in Ep. assert (a ∈ l1 ++ [a]) as Ha by (apply elem_of_app; right; by left).
      destruct (Z.eqb_spec (s_prev s) 0) as [E0|_]; [exfalso; apply (Hnz a); [apply elem_of_app; by left|congruence]|]. cbn [negb].
      assert (a <> p) as Hap by (intros ->; done).
      destruct (proj1 (Hdom a)) as [y Hya]; [apply elem_of_app; by left|]. rewrite Ep, lookup_insert_ne, Hya by done. cbn [of_option obind].
      destruct l2 as [|b l2].
      + simpl in En. rewrite En. cbn [Z.eqb negb obind]. eexists. split; [done|]. split; [apply lookup_delete_eq|]. intros u Hu.
        rewrite lookup_delete_ne by done. destruct (decide (u = a)) as [->|Hua].
        * rewrite lookup_insert_eq, Hya. simpl. f_equal. unfold f. rewrite last_snoc. decides; by rewrite En.
        * rewrite !lookup_insert_ne by done. destruct (h !! u); simpl; [|done]. rewrite Hid; [done|rewrite last_snoc; congruence|done].
      + simpl in En. destruct (Z.eqb_spec (s_next s) 0) as [E0|_]; [exfalso; apply (Hnz b); [apply elem_of_app; right; right; by left|congruence]|]. cbn [negb].
        assert (b <> p) as Hbp by (intros ->; apply Np; by left).
        assert (b <> a) as Hba by (intros ->; apply (Nd a Ha); right; by left).
        destruct (proj1 (Hdom b)) as [x Hx]; [apply elem_of_app; right; right; by left|]. rewrite En, !lookup_insert_ne, Hx by done. cbn [of_option obind].
        eexists. split; [done|]. split; [apply lookup_delete_eq|]. intros u Hu. rewrite lookup_delete_ne by done.
        destruct (decide (u = b)) as [->|Hub]; [|destruct (decide (u = a)) as [->|Hua]].
        * rewrite lookup_insert_eq, Hx. simpl. f_equal. unfold f. rewrite last_snoc. decides; by rewrite Ep.
        * rewrite lookup_insert_ne, lookup_insert_eq, Hya by done. simpl. f_equal. unfold f. rewrite last_snoc. decides; by rewrite En.
        * rewrite !lookup_insert_ne by done. destruct (h !! u); simpl; [|done]. rewrite Hid; [done|rewrite last_snoc; congruence|simpl; congruence]. }
  exists h'. split; [done|]. split; [|split; [|split; [done|]]].
  - pose proof (dchain_unlink s_next s_prev h h' head l1 p l2 Hd Hnd) as Hun.
    assert ((if s_prev s =? 0 then s_next s else head) = (if l1 is [] then default 0 (list.head l2) else head)) as ->.
    { destruct l1 as [|x l1]; [by rewrite Ep|]. destruct (Z.eqb_spec (s_prev s) 0) as [E0|]; [|done].
      rewrite Ep in E0. apply last_of_zero in E0; [done|]. intros u Hu. apply Hnz, elem_of_app. by left. }
    apply Hun. intros u x Hu Hx. assert (u <> p) as Hup by (intros ->; tauto). exists (f u x). split; [by rewrite Hu', Hx|].
    unfold f. simpl. split; [by rewrite En|]. split; [by rewrite Ep|]. intros H1 H2. rewrite !decide_False by done. by destruct x.
  - intros u. destruct (decide (u = p)) as [->|Hne].
    + rewrite Hp', elem_of_app. split; [tauto|by intros [? ?]].
    + rewrite Hu', fmap_is_Some, <- Hdom, !elem_of_app, elem_of_cons by done. naive_solver.
  - intros u x Hne Hx. exists (f u x). rewrite Hu', Hx by done. done.
Qed.

Lemma qd_event_del_eq w p s :
  p <> 0 -> srcs w !! p = Some s -> s_registered s = true ->
  qd_event_del p w =
    let! h := unlink_heap p s (<[p := source_state (s_events s) (s_active s) false (s_enabled s) s]> (srcs w)) in
    Ok (QD_OK, set_srcs h (set_epoll (delete (s_fd s) (epoll w))
         (on_loop (set_sources (if s_prev s =? 0 then s_next s else sources (loop w)) (i32 (num_sources (loop w) - 1))) w))).
Proof.
  intros Hp Hs Hr. unfold qd_event_del, unlink_heap, read_source. destruct (Z.eqb_spec p 0); [done|]. rewrite Hs. cbn [of_option obind]. rewrite Hr.
  destruct (Z.eqb_spec (s_prev s) 0) as [E1|E1]; destruct (Z.eqb_spec (s_next s) 0) as [E2|E2]; cbn [negb obind]; simpl; try done;
    repeat match goal with |- context [of_option ?o] => destruct o; simpl; [|done] end; done.
Qed.

Lemma qd_event_del_ok w l p s :
  srcs_ok w l -> srcs w !! p = Some s ->
  exists w' l', qd_event_del p w = Ok (QD_OK, w') /\ srcs_ok w' l' /\ srcs w' !! p = None /\ srcs_step w w' (fun q => q = p).
Proof.
  intros HW Hs. pose proof (so_nonzero _ _ HW _ _ Hs) as Hp0. pose proof HW as [W1 W2 W3 W4 W5 W6].
  assert (p ∈ l) as Hp by (apply W3; by exists s). destruct (list_elem_of_split _ _ Hp) as (l1 & l2 & ->).
  rewrite (qd_event_del_eq w p s) by (done || by apply (W6 p s Hs)).
  destruct (unlink_heap_ok (srcs w) p s _ l1 l2 (source_state (s_events s) (s_active s) false (s_enabled s) s) W1 W2 W3 Hs)
    as (h' & -> & Hch & Hdom & Hnone & Hoth). cbn [obind].
  assert (forall u x', h' !! u = Some x' -> u <> p /\ exists x, srcs w !! u = Some x /\ same_source x x') as Hback.
  { intros u x' Hx'. assert (u <> p) as Hu by congruence. split; [done|].
    destruct (proj1 (W3 u)) as [x Hx]. { apply elem_of_app. rewrite elem_of_cons. assert (u ∈ l1 ++ l2) as [?|?]%elem_of_app by (apply Hdom; by exists x'); tauto. }
    destruct (Hoth u x Hu Hx) as (y & Hy & Es). rewrite Hx' in Hy. injection Hy as <-. eauto. }
  eexists _, (l1 ++ l2). split; [done|]. split; [|split; [done|]].
  - split; simpl; try done.
    + apply NoDup_app in W2 as (N1 & Nd & N2). apply NoDup_cons in N2 as [_ N2]. apply NoDup_app. split; [done|]. split; [|done].
      intros u Hu1 Hu2. apply (Nd u Hu1). by right.
    + rewrite W4. unfold Z.sub. rewrite i32_step. f_equal. rewrite !length_app. simpl. lia.
    + intros fd m q [Hne Hq]%lookup_delete_Some. destruct (W5 fd m q Hq) as (x & Hx & Hf & Ha).
      assert (q <> p) as Hqp by (intros ->; congruence). destruct (Hoth q x Hqp Hx) as (x' & Hx' & Es). exists x'. split; [done|].
      split; [by rewrite Es|by eapply same_source_armed].
    + intros q x' Hx'. destruct (Hback q x' Hx') as (Hqp & x & Hx & Es). destruct (W6 q x Hx) as [Hr [m Hm]]. rewrite Es. split; [done|]. simpl.
      exists m. rewrite lookup_delete_ne; [done|]. intros E. destruct (W6 p s Hs) as [_ [m2 Hm2]]. congruence.
  - split; simpl; try done. intros q x Hx Hne. by apply Hoth.
Qed.

(** *** Changes of one source *)

Lemma source_at w l p : srcs_ok w l -> (p =? 0) || bool_decide (is_Some (srcs w !! p)) = true -> p = 0 \/ p <> 0 /\ exists s, srcs w !! p = Some s.
Proof.
  intros HW [E|E]%orb_prop; [left; lia|]. apply bool_decide_eq_true in E as [s Hs]. right. split; [by eapply so_nonzero|eauto].
Qed.

Lemma srcs_step_refl w P : srcs_step w w P.
Proof. split; try done; [by destruct (loop w)|]. eauto with qd. Qed.

Lemma srcs_step_one w p s' e : srcs_step w (set_epoll e (write_source w p s')) (fun q => q = p).
Proof.
  split; try done; [simpl; by destruct (loop w)|]. intros q s Hs Hne. simpl. rewrite lookup_insert_ne by done. eauto with qd.
Qed.

(** The record and the table are changed together. *)
Lemma source_set_ok w l p s s' mask :
  srcs_ok w l -> srcs w !! p = Some s -> s_fd s' = s_fd s -> s_next s' = s_next s -> s_prev s' = s_prev s -> s_registered s' = true ->
  armed s' (Z.lor mask always_reported) ->
  exists e, epoll_mod (s_fd s) mask p (epoll (write_source w p s')) = Some e /\
    srcs_ok (set_epoll e (write_source w p s')) l /\ srcs_step w (set_epoll e (write_source w p s')) (fun q => q = p).
Proof.
  intros HW Hs E1 E2 E3 E4 Ha. unfold epoll_mod. destruct (so_entry _ _ HW p s Hs) as [_ [m Hm]]. simpl. rewrite Hm.
  rewrite bool_decide_eq_true_2 by eauto. eexists. split; [done|]. split; [|apply srcs_step_one].
  by apply (srcs_update w l HW p s s' (Z.lor mask always_reported)).
Qed.

Lemma qd_event_mod_ok w l p ev :
  srcs_ok w l -> (p =? 0) || bool_decide (is_Some (srcs w !! p)) = true ->
  exists r w', qd_event_mod p ev w = Ok (r, w') /\ srcs_ok w' l /\ srcs_step w w' (fun q => q = p).
Proof.
  intros HW [->|[H0 [s Hs]]]%(source_at _ _ _ HW); [eexists _, _; split; [done|]; split; [done|apply srcs_step_refl]|].
  unfold qd_event_mod, read_source. destruct (Z.eqb_spec p 0); [done|]. rewrite Hs. cbn [of_option obind].
  pose proof (proj1 (so_entry _ _ HW p s Hs)) as Hr. destruct (source_set_ok w l p s (source_state ev (s_active s) (s_registered s) (s_enabled s) s) (to_epoll_events ev) HW Hs) as (e & -> & Ho & St);
    try done; [intros _; by left|]. eauto.
Qed.

Lemma qd_event_enable_ok w l p :
  srcs_ok w l -> (p =? 0) || bool_decide (is_Some (srcs w !! p)) = true ->
  exists r w', qd_event_enable p w = Ok (r, w') /\ srcs_ok w' l /\ srcs_step w w' (fun q => q = p).
Proof.
  intros HW [->|[H0 [s Hs]]]%(source_at _ _ _ HW); [eexists _, _; split; [done|]; split; [done|apply srcs_step_refl]|].
  unfold qd_event_enable, read_source. destruct (Z.eqb_spec p 0); [done|]. rewrite Hs. cbn [of_option obind].
  destruct (s_enabled s); [eexists _, _; split; [done|]; split; [done|apply srcs_step_refl]|].
  pose proof (proj1 (so_entry _ _ HW p s Hs)) as Hr. destruct (source_set_ok w l p s (source_state (s_events s) (s_active s) (s_registered s) true s) (to_epoll_events (s_events s)) HW Hs) as (e & -> & Ho & St);
    try done; [intros _; by left|]. eauto.
Qed.

Lemma qd_event_disable_ok w l p :
  srcs_ok w l -> (p =? 0) || bool_decide (is_Some (srcs w !! p)) = true ->
  exists r w', qd_event_disable p w = Ok (r, w') /\ srcs_ok w' l /\ srcs_step w w' (fun q => q = p).
Proof.
  intros HW [->|[H0 [s Hs]]]%(source_at _ _ _ HW); [eexists _, _; split; [done|]; split; [done|apply srcs_step_refl]|].
  unfold qd_event_disable, read_source. destruct (Z.eqb_spec p 0); [done|]. rewrite Hs. cbn [of_option obind].
  destruct (s_enabled s); cbn [negb]; [|eexists _, _; split; [done|]; split; [done|apply srcs_step_refl]].
  pose proof (proj1 (so_entry _ _ HW p s Hs)) as Hr. destruct (source_set_ok w l p s (source_state (s_events s) (s_active s) (s_registered s) false s) 0 HW Hs) as (e & -> & Ho & St);
    try done. eauto.
Qed.

(** The walk finds the source of the descriptor. *)
Lemma find_fd_ok w l : srcs_ok w l -> forall l2 l1 fuel p, l = l1 ++ l2 -> (length l2 < fuel)%nat -> p = default 0 (head l2) ->
  forall fd, exists q, find_fd fuel fd p w = Ok q /\ (q = 0 \/ exists s, srcs w !! q = Some s /\ s_fd s = fd).
Proof.
  intros HW. induction l2 as [|t l2 IH]; intros l1 fuel p El Hf -> fd; (destruct fuel as [|fuel]; [simpl in Hf; lia|]).
  - exists 0. split; [done|by left].
  - assert (t ∈ l) as Ht by (rewrite El; apply elem_of_app; right; by left). destruct (so_live _ _ HW t Ht) as [H0 [s Hs]].
    simpl. destruct (Z.eqb_spec t 0); [done|]. unfold read_source. rewrite Hs. cbn [of_option obind].
    destruct (Z.eqb_spec (s_fd s) fd); [exists t; split; [done|right; eauto]|].
    apply (IH (l1 ++ [t])); [by rewrite <- app_assoc|simpl in Hf; lia|]. pose proof (so_chain _ _ HW) as Hc. rewrite El in Hc.
    by destruct (dchain_mid _ _ _ _ _ _ _ _ Hc Hs).
Qed.

Lemma qd_event_del_fd_ok w l fd :
  srcs_ok w l ->
  exists r w' l', qd_event_del_fd fd w = Ok (r, w') /\ srcs_ok w' l' /\ srcs_step w w' (fun q => exists s, srcs w !! q = Some s /\ s_fd s = fd).
Proof.
  intros HW. unfold qd_event_del_fd. destruct (fd <? 0); [eexists _, _, l; split; [done|]; split; [done|apply srcs_step_refl]|].
  destruct (find_fd_ok w l HW l [] (S (size (srcs w))) (sources (loop w)) eq_refl) with (fd := fd) as (q & -> & Hq).
  { pose proof (nodup_size (srcs w) l (so_nodup _ _ HW)). assert (length l <= size (srcs w))%nat by (apply H; intros p; apply (so_dom _ _ HW)). lia. }
  { destruct l; [exact (so_chain _ _ HW)|]. by destruct (so_chain _ _ HW) as [-> _]. }
  cbn [obind]. destruct (Z.eqb_spec q 0) as [->|H0]; [eexists _, _, l; split; [done|]; split; [done|apply srcs_step_refl]|].
  destruct Hq as [?|(s & Hs & Hf)]; [done|]. destruct (qd_event_del_ok w l q s HW Hs) as (w' & l' & -> & Ho & _ & St).
  eexists _, _, l'. split; [done|]. split; [done|]. destruct St as [S1 S2 S3 S4 S5 S6 S7]. split; try done. intros p x Hx Hn. apply S7; [done|].
  intros ->. apply Hn. exists x. split; [done|]. congruence.
Qed.

(** ** Signal handlers *)

Record sigs_ok (w : world) (l : list Z) : Prop := {
  sg_chain : chain h_next (sigs w) (signal_handlers (loop w)) l;
  sg_nodup : NoDup l;
  sg_dom : forall p, p ∈ l <-> is_Some (sigs w !! p)
}.

(** What a call about signals leaves. *)
Record sigs_step (w w' : world) : Prop := {
  gs_srcs : srcs w' = srcs w;
  gs_epoll : epoll w' = epoll w;
  gs_works : works w' = works w;
  gs_wakeup : wakeup w' = wakeup w;
  gs_deferred : deferred w' = deferred w;
  gs_calls : calls w' = calls w;
  gs_loop : loop w' = set_handlers (signal_handlers (loop w')) (loop w)
}.

Lemma sigs_step_refl w : sigs_step w w.
Proof. split; try done. by destruct (loop w). Qed.

Lemma qd_event_add_signal_ok w l a signo cb arg :
  sigs_ok w l -> match a with Some p => fresh (sigs w) p = true | None => True end ->
  exists r w' l', qd_event_add_signal a signo cb arg w = Ok (r, w') /\ sigs_ok w' l' /\ sigs_step w w' /\
    (forall p h, sigs w !! p = Some h -> sigs w' !! p = Some h).
Proof.
  intros HW Ha. assert (forall r : Z, exists r' w' l', Ok (r, w) = Ok (r', w') /\ sigs_ok w' l' /\ sigs_step w w' /\ (forall p h, sigs w !! p = Some h -> sigs w' !! p = Some h)) as Hsame.
  { intros r. eexists _, _, l. split; [done|]. split; [done|]. split; [apply sigs_step_refl|done]. }
  unfold qd_event_add_signal. destruct (cb =? 0); [apply Hsame|]. destruct a as [p|]; [|apply Hsame]. clear Hsame.
  unfold fresh in Ha. apply andb_prop in Ha as [H0 Hn]. apply bool_decide_eq_true in Hn. destruct HW as [W1 W2 W3].
  assert (p ∉ l) as Hp by (rewrite W3, Hn; by intros [? ?]).
  eexists _, _, (p :: l). split; [done|]. split; [|split; [by split|]].
  - split; simpl.
    + split; [done|]. split; [lia|]. eexists. split; [apply lookup_insert_eq|]. eapply links_frame; [|exact W1].
      intros t Ht. rewrite lookup_insert_ne; [done|]. by intros ->.
    + by constructor.
    + intros q. rewrite elem_of_cons, W3. destruct (decide (q = p)) as [->|]; [rewrite lookup_insert_eq; split; eauto|rewrite lookup_insert_ne by done; naive_solver].
  - intros q h Hq. simpl. rewrite lookup_insert_ne; [done|]. intros ->. congruence.
Qed.

Lemma del_signal_ok w l signo : sigs_ok w l -> forall l2 l1 fuel, l = l1 ++ l2 -> (length l2 < fuel)%nat ->
  exists r w' l', del_signal fuel signo (last_of 0 l1) (default 0 (head l2)) w = Ok (r, w') /\ sigs_ok w' l' /\ sigs_step w w'.
Proof.
  intros HW. pose proof HW as [W1 W2 W3].
  induction l2 as [|t l2 IH]; intros l1 fuel El Hf; (destruct fuel as [|fuel]; [simpl in Hf; lia|]).
  - eexists _, w, l. split; [done|]. split; [done|apply sigs_step_refl].
  - assert (t ∈ l) as Ht by (rewrite El; apply elem_of_app; right; by left). destruct (chain_live _ _ _ _ t W1 Ht) as [H0 [h Hh]].
    simpl. destruct (Z.eqb_spec t 0); [done|]. rewrite Hh. cbn [of_option obind].
    assert (h_next h = default 0 (head l2) /\ chain h_next (sigs w) t (t :: l2)) as [En Hc2].
    { rewrite El in W1. clear -W1 Hh. revert W1. generalize (signal_handlers (loop w)). induction l1 as [|u l1 IH]; intros p; simpl.
      - intros (-> & H0 & x & Hx & Hc). rewrite Hh in Hx. injection Hx as <-. split; [by eapply chain_head|]. split; [done|]. split; [done|]. by exists h.
      - intros (_ & _ & x & _ & Hc). by eapply IH. }
    destruct (Z.eqb_spec (h_signo h) signo) as [_|_].
    + clear IH. assert (t ∉ l1 /\ t ∉ l2 /\ NoDup (l1 ++ l2)) as (Nt1 & Nt2 & Nd).
      { rewrite El in W2. apply NoDup_app in W2 as (N1 & Nd & N2). apply NoDup_cons in N2 as [Nt N2]. split; [intros Hx; apply (Nd t Hx); by left|].
        split; [done|]. apply NoDup_app. split; [done|]. split; [|done]. intros u Hu1 Hu2. apply (Nd u Hu1). by right. }
      assert (forall u, u ∈ l1 ++ l2 <-> u <> t /\ is_Some (sigs w !! u)) as Hdom.
      { intros u. rewrite <- W3, El, !elem_of_app, elem_of_cons. naive_solver. }
      destruct l1 as [|a l1 _] using rev_ind.
      * eexists _, _, l2. split; [done|]. split; [|by split]. split; simpl; [|done|].
        -- rewrite En. destruct Hc2 as (_ & _ & x & Hx & Hc). rewrite Hh in Hx. injection Hx as <-. rewrite En in Hc.
           eapply links_frame; [|done]. intros u Hu. rewrite lookup_delete_ne; [done|]. by intros ->.
        -- intros u. simpl in Hdom. rewrite Hdom. destruct (decide (u = t)) as [->|]; [rewrite lookup_delete_eq; split; [naive_solver|by intros [? ?]]|rewrite lookup_delete_ne by done; naive_solver].
      * rewrite last_of_snoc. assert (a ∈ l) as Ha by (rewrite El; apply elem_of_app; left; apply elem_of_app; right; by left).
        destruct (chain_live _ _ _ _ a W1 Ha) as [Ha0 [y Hy]]. destruct (Z.eqb_spec a 0); [done|]. rewrite Hy. cbn [of_option obind].
        assert (a <> t) as Hat by (intros ->; apply Nt1, elem_of_app; right; by left).
        eexists _, _, ((l1 ++ [a]) ++ l2). split; [done|]. split; [|split; try done; simpl; by destruct (loop w)]. split; simpl; [|done|].
        -- rewrite <- app_assoc. simpl. eapply (chain_bypass h_next (sigs w) _ l1 a t l2 h y (mkHandler (h_signo y) (h_callback y) (h_arg y) (h_next h))).
           ++ rewrite El in W1. by rewrite <- app_assoc in W1.
           ++ apply NoDup_app in Nd as (N1 & _). apply NoDup_app in N1 as (_ & N1 & _). intros Hx. apply (N1 a Hx). by left.
           ++ done.
           ++ by rewrite lookup_delete_ne, lookup_insert_eq.
           ++ done.
           ++ done.
           ++ intros u Hu. assert (u <> t) as Hut by (intros ->; destruct Hu; [apply Nt1, elem_of_app; by left|done]).
              rewrite lookup_delete_ne by done. rewrite lookup_insert_ne; [done|]. intros <-.
              rewrite <- app_assoc in Nd. apply NoDup_app in Nd as (_ & N1 & N2). apply NoDup_cons in N2 as [N2 _]. destruct Hu as [Hu|Hu]; [apply (N1 a Hu); by left|done].
        -- intros u. rewrite Hdom. destruct (decide (u = t)) as [->|]; [rewrite lookup_delete_eq; split; [naive_solver|by intros [? ?]]|].
           rewrite lookup_delete_ne by done. destruct (decide (u = a)) as [->|]; [rewrite lookup_insert_eq, Hy; split; eauto|rewrite lookup_insert_ne by done; naive_solver].
    + rewrite En. destruct (IH (l1 ++ [t]) fuel) as (r & w' & l' & E & Hr); [by rewrite <- app_assoc|simpl in Hf; lia|].
      rewrite last_of_snoc in E. eauto.
Qed.

Lemma qd_event_del_signal_ok w l signo :
  sigs_ok w l -> exists r w' l', qd_event_del_signal signo w = Ok (r, w') /\ sigs_ok w' l' /\ sigs_step w w'.
Proof.
  intros HW. unfold qd_event_del_signal. rewrite (chain_head _ _ _ _ (sg_chain _ _ HW)).
  apply (del_signal_ok w l signo HW l [] (S (size (sigs w)))); [done|].
  pose proof (nodup_size (sigs w) l (sg_nodup _ _ HW)) as H. assert (length l <= size (sigs w))%nat by (apply H; intros p; apply (sg_dom _ _ HW)). lia.
Qed.

(** ** Deferred work *)

Definition work_call (c : call) : option (Z * Z) := match c with CWork f a => Some (f, a) | _ => None end.

(** The functions and arguments of some work items. *)
Definition item (x : qd_pending_work) : Z * Z := (w_func x, w_arg x).

Fixpoint items (h : gmap Z qd_pending_work) (l : list Z) : list (Z * Z) :=
  match l with
  | [] => []
  | p :: l => match h !! p with Some x => item x :: items h l | None => items h l end
  end.

Lemma items_app h l1 l2 : items h (l1 ++ l2) = items h l1 ++ items h l2.
Proof. induction l1 as [|p l1 IH]; simpl; [done|]. destruct (h !! p); [|done]. simpl. by rewrite IH. Qed.

Lemma items_same h h' l : (forall p, p ∈ l -> item <$> h' !! p = item <$> h !! p) -> items h' l = items h l.
Proof.
  induction l as [|p l IH]; intros Hl; [done|]. simpl. rewrite IH by (intros q Hq; apply Hl; by right).
  specialize (Hl p ltac:(by left)). destruct (h' !! p), (h !! p); simpl in Hl; try done. congruence.
Qed.

(** [l] waits; [d] has been taken off the list and is being walked, [r] of it has not been
    called yet. *)
Record works_ok (w : world) (d r l : list Z) : Prop := {
  wk_chain : chain w_next (works w) (pending_head (loop w)) l;
  wk_tail : pending_tail (loop w) = last_of 0 l;
  wk_nodup : NoDup (l ++ d);
  wk_dom : forall p, p ∈ l ++ d <-> is_Some (works w !! p);
  wk_func : forall p x, works w !! p = Some x -> w_func x <> 0;
  wk_log : omap work_call (calls w) ++ items (works w) r ++ items (works w) l = deferred w
}.

Definition awake (w : world) : Prop := pending_head (loop w) <> 0 -> 0 < wakeup w.

(** What a call about deferred work leaves. *)
Record works_step (w w' : world) (d : list Z) : Prop := {
  ks_srcs : srcs w' = srcs w;
  ks_epoll : epoll w' = epoll w;
  ks_sigs : sigs w' = sigs w;
  ks_calls : calls w' = calls w;
  ks_loop : loop w' = set_pending (pending_head (loop w')) (pending_tail (loop w')) (loop w);
  ks_kept : forall p, p ∈ d -> works w' !! p = works w !! p;
  ks_wakeup : 0 <= wakeup w -> 0 <= wakeup w' /\ (awake w -> awake w') /\ (0 < wakeup w -> 0 < wakeup w')
}.

Lemma works_step_refl w d : works_step w w d.
Proof. split; try done. by destruct (loop w). Qed.

Lemma qd_event_defer_ok w d r l a func arg :
  works_ok w d r l -> (forall p, p ∈ r -> p ∈ d) -> match a with Some p => fresh (works w) p = true | None => True end ->
  exists c w' l', qd_event_defer a func arg w = Ok (c, w') /\ works_ok w' d r l' /\ works_step w w' d.
Proof.
  intros HW Hrd Ha. assert (forall c : Z, exists c' w' l', Ok (c, w) = Ok (c', w') /\ works_ok w' d r l' /\ works_step w w' d) as Hsame.
  { intros c. eexists _, _, l. split; [done|]. split; [done|apply works_step_refl]. }
  unfold qd_event_defer. destruct (Z.eqb_spec func 0) as [|Hfn]; [apply Hsame|]. destruct a as [p|]; [|apply Hsame]. clear Hsame.
  unfold fresh in Ha. apply andb_prop in Ha as [H0 Hn]. apply bool_decide_eq_true in Hn. pose proof HW as [W1 W2 W3 W4 W5 W6].
  assert (p ∉ l ++ d) as Hp by (rewrite W4, Hn; by intros [? ?]). rewrite elem_of_app in Hp.
  set (new := mkWork func arg 0). simpl. rewrite W2.
  assert (exists h' head', (if negb (last_of 0 l =? 0) then
       let! t := of_option (<[p := new]> (works w) !! last_of 0 l) in
       Ok (on_loop (set_pending (pending_head (loop w)) p) (set_works (<[last_of 0 l := mkWork (w_func t) (w_arg t) p]> (<[p := new]> (works w))) (set_works (<[p := new]> (works w)) w)))
     else Ok (on_loop (set_pending p p) (set_works (<[p := new]> (works w)) w))) = Ok (on_loop (set_pending head' p) (set_works h' w)) /\
     chain w_next h' head' (l ++ [p]) /\ h' !! p = Some new /\ (forall q, q ∈ d -> h' !! q = works w !! q) /\
     (forall q, q <> p -> item <$> h' !! q = item <$> works w !! q)) as (h' & head' & -> & Hch & Hpn & Hd & Hv).
  { destruct l as [|e l0 _] using rev_ind.
    - simpl. eexists _, p. split; [done|]. split; [|split; [apply lookup_insert_eq|]].
      + split; [done|]. split; [lia|]. exists new. split; [apply lookup_insert_eq|done].
      + split; [intros q Hq; rewrite lookup_insert_ne; [done|]; intros ->; tauto|]. intros q Hq. by rewrite lookup_insert_ne.
    - rewrite last_of_snoc. assert (e ∈ l0 ++ [e]) as He by (apply elem_of_app; right; by left).
      destruct (chain_live _ _ _ _ e W1 He) as [He0 [y Hy]]. assert (e <> p) as Hep by (intros ->; tauto).
      destruct (Z.eqb_spec e 0); [done|]. cbn [negb]. rewrite lookup_insert_ne, Hy by done. cbn [of_option obind].
      assert (e ∉ l0 /\ e ∉ d) as [Ne Ned].
      { apply NoDup_app in W3 as (N1 & Nd & _). split; [|by apply Nd]. apply NoDup_app in N1 as (_ & N1 & _). intros Hx. apply (N1 e Hx). by left. }
      eexists _, (pending_head (loop w)). split; [done|]. split; [|split; [by rewrite lookup_insert_ne, lookup_insert_eq|split]].
      + rewrite <- app_assoc. simpl. eapply (chain_snoc w_next (works w) _ l0 e p y (mkWork (w_func y) (w_arg y) p) new); try done; [lia|apply lookup_insert_eq| |].
        * by rewrite lookup_insert_ne, lookup_insert_eq.
        * intros u Hu. rewrite !lookup_insert_ne; [done| |]; intros ->; [apply Hp; left; apply elem_of_app; by left|done].
      + intros q Hq. rewrite !lookup_insert_ne; [done| |]; intros ->; tauto.
      + intros q Hq. destruct (decide (q = e)) as [->|]; [by rewrite lookup_insert_eq, Hy|by rewrite !lookup_insert_ne]. }
  cbn [obind]. eexists _, _, (l ++ [p]). split; [done|]. split.
  - split; simpl; [done|by rewrite last_of_snoc| | | |].
    + rewrite <- app_assoc. simpl. apply NoDup_app in W3 as (N1 & Nd & N2). apply NoDup_app. split; [done|]. split.
      * intros u Hu [->|Hu2]%elem_of_cons; [tauto|by apply (Nd u Hu)].
      * constructor; [tauto|done].
    + intros q. rewrite elem_of_app, elem_of_app, list_elem_of_singleton. destruct (decide (q = p)) as [->|Hne].
      * rewrite Hpn. split; [eauto|]. intros _. left. by right.
      * assert (is_Some (h' !! q) <-> is_Some (works w !! q)) as ->.
        { rewrite <- !(fmap_is_Some item). by rewrite Hv. }
        rewrite <- W4, elem_of_app. naive_solver.
    + intros q x Hx. destruct (decide (q = p)) as [->|Hne]; [rewrite Hpn in Hx; by injection Hx as <-|].
      specialize (Hv q Hne). rewrite Hx in Hv. destruct (works w !! q) as [y|] eqn:Hy; [|done]. simpl in Hv. injection Hv as -> _. by apply (W5 q).
    + assert (forall l', (forall q, q ∈ l' -> q <> p) -> items h' l' = items (works w) l') as Hi.
      { intros l' Hl'. apply items_same. intros q Hq. by apply Hv, Hl'. }
      rewrite items_app, (Hi r), (Hi l); [|intros q Hq ->; apply Hp; by left|intros q Hq ->; apply Hp; right; by apply Hrd].
      simpl. rewrite Hpn, <- W6. by rewrite !app_assoc.
  - split; simpl; try done. intros Hw. split; [lia|]. split; [intros _ _; simpl; lia|lia].
Qed.
