(* ===== verification/EventRun.v ===== *)
(** * Iterations of the event loop

    The invariants of [EventSafe] carried through callbacks, through whole iterations and
    through qd_event_loop_run. *)

From S2P Require Import Prelude Common Links Event EventSafe.

(** ** All calls of the API *)

(** [d] and [r]: the deferred work that is being walked, as in [works_ok]. *)
Record ok (w : world) (d r : list Z) : Prop := {
  ok_srcs : exists l, srcs_ok w l;
  ok_sigs : exists l, sigs_ok w l;
  ok_works : exists l, works_ok w d r l;
  ok_wakeup : 0 <= wakeup w
}.

(** The calls that change or remove the source [s] at [p]. *)
Definition targets (p fd : Z) (o : op) : Prop :=
  match o with OMod q _ | ODel q | OEnable q | ODisable q => q = p | ODelFd f => f = fd | _ => False end.

Definition deletes_signal (o : op) : Prop := match o with ODelSignal _ => True | _ => False end.

(** What calls of the API keep, whatever they do. *)
Record keeps (w w' : world) (d : list Z) (ops : list op) : Prop := {
  kp_calls : calls w' = calls w;
  kp_works : forall p, p ∈ d -> works w' !! p = works w !! p;
  kp_sigs : (forall o, o ∈ ops -> ~ deletes_signal o) -> forall p h, sigs w !! p = Some h -> sigs w' !! p = Some h;
  kp_srcs : forall p s, srcs w !! p = Some s -> (forall o, o ∈ ops -> ~ targets p (s_fd s) o) -> exists s', srcs w' !! p = Some s' /\ same_source s s';
  kp_awake : 0 <= wakeup w -> awake w -> awake w';
  kp_state : state (loop w) <> QD_LOOP_RUNNING -> state (loop w') <> QD_LOOP_RUNNING;
  kp_stop : OStop ∈ ops -> state (loop w') <> QD_LOOP_RUNNING;
  kp_wakeup : 0 <= wakeup w -> 0 < wakeup w \/ OStop ∈ ops -> 0 < wakeup w';
  kp_config : max_events (loop w') = max_events (loop w) /\ default_timeout (loop w') = default_timeout (loop w)
}.

Lemma sigs_ok_same w w' l : sigs_ok w l -> sigs w' = sigs w -> signal_handlers (loop w') = signal_handlers (loop w) -> sigs_ok w' l.
Proof. intros [W1 W2 W3] E1 E2. split; rewrite ?E1, ?E2; done. Qed.

Lemma works_ok_same w w' d r l :
  works_ok w d r l -> works w' = works w -> pending_head (loop w') = pending_head (loop w) -> pending_tail (loop w') = pending_tail (loop w) ->
  omap work_call (calls w') = omap work_call (calls w) -> deferred w' = deferred w -> works_ok w' d r l.
Proof. intros [W1 W2 W3 W4 W5 W6] E1 E2 E3 E4 E5. split; rewrite ?E1, ?E2, ?E3, ?E4, ?E5; done. Qed.

Lemma awake_same w w' : pending_head (loop w') = pending_head (loop w) -> wakeup w' = wakeup w -> awake w -> awake w'.
Proof. unfold awake. by intros -> ->. Qed.

Section one_op.
Context (w : world) (d r : list Z) (o : op).
Hypothesis HO : ok w d r.
Hypothesis Hrd : forall p, p ∈ r -> p ∈ d.

Definition op_fine : Prop := exists c w', run_op o w = Ok (c, w') /\ ok w' d r /\ keeps w w' d [o].

(** The three groups of calls. *)
Lemma srcs_fine (P : Z -> Prop) c w' l' :
  run_op o w = Ok (c, w') -> srcs_ok w' l' -> srcs_step w w' P ->
  (forall p s, srcs w !! p = Some s -> P p -> targets p (s_fd s) o) -> o <> OStop -> op_fine.
Proof.
  intros E Hs [S1 S2 S3 S4 S5 S6 S7] Ht Hstop. exists c, w'. split; [done|]. destruct HO as [_ [lg Hg] [lk Hk] Hw].
  assert (signal_handlers (loop w') = signal_handlers (loop w) /\ pending_head (loop w') = pending_head (loop w) /\
    pending_tail (loop w') = pending_tail (loop w) /\ state (loop w') = state (loop w) /\ max_events (loop w') = max_events (loop w) /\
    default_timeout (loop w') = default_timeout (loop w)) as (E1 & E2 & E3 & E4 & E5 & E6) by (rewrite S6; done).
  split.
  - split; [eauto|exists lg; by eapply sigs_ok_same|exists lk; eapply works_ok_same; eauto; by rewrite S5|by rewrite S3].
  - split; try done.
    + intros p _. by rewrite S2.
    + intros _ p h. by rewrite S1.
    + intros p s Hp Hno. apply S7; [done|]. intros HP. eapply (Hno o); [by left|by eapply Ht].
    + intros _. by apply awake_same.
    + by rewrite E4.
    + intros H%list_elem_of_singleton. congruence.
    + rewrite S3. intros _ [H|H%list_elem_of_singleton]; [done|congruence].
Qed.

Lemma sigs_fine c w' l' :
  run_op o w = Ok (c, w') -> sigs_ok w' l' -> sigs_step w w' ->
  (~ deletes_signal o -> forall p h, sigs w !! p = Some h -> sigs w' !! p = Some h) -> o <> OStop -> op_fine.
Proof.
  intros E Hg [S1 S2 S3 S4 S5 S6 S7] Hd Hstop. exists c, w'. split; [done|]. destruct HO as [[ls Hs] _ [lk Hk] Hw].
  assert (sources (loop w') = sources (loop w) /\ num_sources (loop w') = num_sources (loop w) /\ pending_head (loop w') = pending_head (loop w) /\
    pending_tail (loop w') = pending_tail (loop w) /\ state (loop w') = state (loop w) /\ max_events (loop w') = max_events (loop w) /\
    default_timeout (loop w') = default_timeout (loop w)) as (E0 & E1 & E2 & E3 & E4 & E5 & E6) by (rewrite S7; done).
  split.
  - split; [exists ls; by eapply srcs_same|eauto|exists lk; eapply works_ok_same; eauto; by rewrite S6|by rewrite S4].
  - split; try done.
    + intros p _. by rewrite S3.
    + intros Hno. apply Hd, Hno. by left.
    + intros p s Hp _. rewrite S1. eauto with qd.
    + intros _. by apply awake_same.
    + by rewrite E4.
    + intros H%list_elem_of_singleton. congruence.
    + rewrite S4. intros _ [H|H%list_elem_of_singleton]; [done|congruence].
Qed.

Lemma works_fine c w' l' :
  run_op o w = Ok (c, w') -> works_ok w' d r l' -> works_step w w' d -> o <> OStop -> op_fine.
Proof.
  intros E Hk [S1 S2 S3 S4 S5 S6 S7] Hstop. exists c, w'. split; [done|]. destruct HO as [[ls Hs] [lg Hg] _ Hw]. destruct (S7 Hw) as (Hw' & Haw & Hpos).
  assert (sources (loop w') = sources (loop w) /\ num_sources (loop w') = num_sources (loop w) /\ signal_handlers (loop w') = signal_handlers (loop w) /\
    state (loop w') = state (loop w) /\ max_events (loop w') = max_events (loop w) /\
    default_timeout (loop w') = default_timeout (loop w)) as (E0 & E1 & E2 & E4 & E5 & E6) by (rewrite S5; done).
  split.
  - split; [exists ls; by eapply srcs_same|exists lg; by eapply sigs_ok_same|eauto|done].
  - split; try done.
    + intros _ p h. by rewrite S3.
    + intros p s Hp _. rewrite S1. eauto with qd.
    + by rewrite E4.
    + intros H%list_elem_of_singleton. congruence.
    + intros _ [H|H%list_elem_of_singleton]; [auto|congruence].
Qed.

(** Calls that change nothing the lists depend on. *)
Lemma loop_fine f c w' :
  run_op o w = Ok (c, w') -> w' = set_wakeup (wakeup w') (on_loop f w) -> (0 <= wakeup w -> 0 <= wakeup w' /\ (0 < wakeup w \/ o = OStop -> 0 < wakeup w')) ->
  (forall l, sources (f l) = sources l /\ num_sources (f l) = num_sources l /\ signal_handlers (f l) = signal_handlers l /\ pending_head (f l) = pending_head l /\
     pending_tail (f l) = pending_tail l /\ max_events (f l) = max_events l /\ default_timeout (f l) = default_timeout l) ->
  (forall l, state (f l) = (if decide (o = OStop) then QD_LOOP_STOPPING else state l)) -> op_fine.
Proof.
  intros E Ew Hwk Hf Hst. exists c, w'. split; [done|]. destruct HO as [[ls Hs] [lg Hg] [lk Hk] Hw]. rewrite Ew. destruct (Hf (loop w)) as (E1 & E2 & E3 & E4 & E5 & E6 & E7).
  split.
  - split; [exists ls; by eapply srcs_same|exists lg; by eapply sigs_ok_same|exists lk; by eapply works_ok_same|simpl; by apply Hwk].
  - split; simpl; try done.
    + intros p s Hp _. eauto with qd.
    + unfold awake. simpl. rewrite E4. intros _ Ha Hp. apply Hwk; [done|]. left. by apply Ha.
    + rewrite Hst. by case_decide.
    + intros <-%list_elem_of_singleton. rewrite Hst. by case_decide.
    + intros _ [H|H%list_elem_of_singleton]; apply Hwk; auto.
Qed.
End one_op.

Lemma run_op_ok w d r o : ok w d r -> (forall p, p ∈ r -> p ∈ d) -> op_ok w o = true -> op_fine w d r o.
Proof.
  intros HO Hrd Hop. pose proof HO as [[ls Hs] [lg Hg] [lk Hk] Hw]. destruct o; simpl in Hop.
  - apply andb_prop in Hop as [_ Ha].
    destruct (qd_event_add_ok w ls a ok0 fd events callback arg Hs ltac:(by destruct a)) as (c & w' & l' & E & Hs' & St). by eapply srcs_fine.
  - destruct (qd_event_mod_ok w ls p events Hs Hop) as (c & w' & E & Hs' & St). eapply srcs_fine; [done|done|done|done| |done]. by intros q s _ ->.
  - destruct (source_at _ _ _ Hs Hop) as [->|(H0 & s & Hp)].
    + eapply (srcs_fine w d r (ODel 0) HO (fun _ => False)); [done|done|apply srcs_step_refl|done|done].
    + destruct (qd_event_del_ok w ls p s Hs Hp) as (w' & l' & E & Hs' & _ & St). eapply srcs_fine; [done|done|done|done| |done]. by intros q x _ ->.
  - destruct (qd_event_enable_ok w ls p Hs Hop) as (c & w' & E & Hs' & St). eapply srcs_fine; [done|done|done|done| |done]. by intros q s _ ->.
  - destruct (qd_event_disable_ok w ls p Hs Hop) as (c & w' & E & Hs' & St). eapply srcs_fine; [done|done|done|done| |done]. by intros q s _ ->.
  - destruct (qd_event_del_fd_ok w ls fd Hs) as (c & w' & l' & E & Hs' & St). eapply srcs_fine; [done|done|done|done| |done].
    intros q s Hq (s' & Hs2 & Hf). simpl. congruence.
  - destruct (qd_event_add_signal_ok w lg a signo callback arg Hg ltac:(by destruct a)) as (c & w' & l' & E & Hg' & St & Hkeep). by eapply sigs_fine.
  - destruct (qd_event_del_signal_ok w lg signo Hg) as (c & w' & l' & E & Hg' & St). eapply sigs_fine; [done|done|done|done| |done]. intros H. by destruct H.
  - destruct (qd_event_defer_ok w d r lk a func arg Hk Hrd ltac:(by destruct a)) as (c & w' & l' & E & Hk' & St). by eapply works_fine.
  - eapply (loop_fine w d r OStop HO (set_state QD_LOOP_STOPPING)); try done. simpl. lia.
  - eapply (loop_fine w d r OWakeup HO (fun l => l)); try done. simpl. intros Hw'. split; [lia|]. intros [?|?]; [lia|done].
  - eapply (loop_fine w d r (OSetIdle callback arg) HO (fun l => set_callbacks (callback, arg) (pre_poll_callback l) (post_poll_callback l) l)); try done; simpl; naive_solver.
  - eapply (loop_fine w d r (OSetPrePoll callback arg) HO (fun l => set_callbacks (idle_callback l) (callback, arg) (post_poll_callback l) l)); try done; simpl; naive_solver.
  - eapply (loop_fine w d r (OSetPostPoll callback arg) HO (fun l => set_callbacks (idle_callback l) (pre_poll_callback l) (callback, arg) l)); try done; simpl; naive_solver.
Qed.

Lemma keeps_refl w d : keeps w w d [].
Proof. split; try done; [eauto with qd| |]; [by intros ?%not_elem_of_nil|]. by intros _ [?|?%not_elem_of_nil]. Qed.

Lemma keeps_trans w1 w2 w3 d o l : 0 <= wakeup w2 -> keeps w1 w2 d [o] -> keeps w2 w3 d l -> keeps w1 w3 d (o :: l).
Proof.
  intros Hw [A1 A2 A3 A4 A5 A6 A7 Aw [A8 A9]] [B1 B2 B3 B4 B5 B6 B7 Bw [B8 B9]]. split.
  - congruence.
  - intros p Hp. by rewrite B2, A2.
  - intros Hno p h Hp. apply B3; [intros x Hx; apply Hno; by right|]. apply A3; [|done]. intros x ->%list_elem_of_singleton. apply Hno. by left.
  - intros p s Hp Hno. destruct (A4 p s Hp) as (s1 & H1 & E1); [intros x ->%list_elem_of_singleton; apply Hno; by left|].
    destruct (B4 p s1 H1) as (s2 & H2 & E2); [|exists s2; split; [done|by eapply same_source_trans]].
    intros x Hx. rewrite E1. simpl. apply Hno. by right.
  - intros Hw1 Ha. apply B5; [done|]. by apply A5.
  - auto.
  - intros [<-|Hs]%elem_of_cons; [|auto]. apply B6, A7. by left.
  - intros Hw1 [Hp|[<-|Hs]%elem_of_cons]; apply Bw; auto. left. apply Aw; [done|]. right. by left.
  - split; congruence.
Qed.

Lemma keeps_more w w' d o l : o <> OStop -> keeps w w' d l -> keeps w w' d (o :: l).
Proof.
  intros Hne [A1 A2 A3 A4 A5 A6 A7 Aw A8]. split; try done.
  - intros Hno. apply A3. intros x Hx. apply Hno. by right.
  - intros p s Hp Hno. apply A4; [done|]. intros x Hx. apply Hno. by right.
  - intros [?|?]%elem_of_cons; [congruence|auto].
  - intros Hw [?|[?|?]%elem_of_cons]; [auto|congruence|auto].
Qed.

Lemma run_ops_ok l : forall w d r, ok w d r -> (forall p, p ∈ r -> p ∈ d) -> exists w', run_ops l w = Ok w' /\ ok w' d r /\ keeps w w' d l.
Proof.
  induction l as [|o l IH]; intros w d r HO Hrd; simpl; [exists w; split; [done|]; split; [done|apply keeps_refl]|].
  destruct (op_ok w o) eqn:Eo.
  - destruct (run_op_ok w d r o HO Hrd Eo) as (c & w1 & -> & HO1 & K1). cbn [obind].
    destruct (IH w1 d r HO1 Hrd) as (w2 & -> & HO2 & K2). exists w2. split; [done|]. split; [done|].
    eapply keeps_trans; [apply HO1|done|done].
  - destruct (IH w d r HO Hrd) as (w2 & -> & HO2 & K2). exists w2. split; [done|]. split; [done|].
    apply keeps_more; [|done]. by intros ->.
Qed.

(** ** Callbacks *)

(** A callback of a source changes and removes no other source; the timers and the signal
    handlers change none, and the signal handlers remove no handler.  Deferred work, idle,
    pre-poll and post-poll callbacks are free. *)
Definition own_only (p fd : Z) (o : op) : Prop :=
  match o with OMod q _ | ODel q | OEnable q | ODisable q => q = p | ODelFd f => f = fd | _ => True end.
Definition no_source (o : op) : Prop :=
  match o with OMod _ _ | ODel _ | OEnable _ | ODisable _ | ODelFd _ => False | _ => True end.

Definition polite_op (c : call) (o : op) : Prop :=
  match c with
  | CSource p _ fd _ _ => own_only p fd o
  | CTick => no_source o
  | CSignal _ _ _ => no_source o /\ ~ deletes_signal o
  | _ => True
  end.

Definition polite (behave : call -> world -> list op) : Prop := forall c w o, o ∈ behave c w -> polite_op c o.

(** What goes on in an iteration keeps. *)
Record goes (w w' : world) : Prop := {
  go_awake : awake w -> awake w';
  go_state : state (loop w) <> QD_LOOP_RUNNING -> state (loop w') <> QD_LOOP_RUNNING;
  go_config : max_events (loop w') = max_events (loop w) /\ default_timeout (loop w') = default_timeout (loop w)
}.

Lemma goes_refl w : goes w w.
Proof. by split. Qed.
Lemma goes_trans w1 w2 w3 : goes w1 w2 -> goes w2 w3 -> goes w1 w3.
Proof. intros [A1 A2 [A3 A4]] [B1 B2 [B3 B4]]. split; [auto|auto|split; congruence]. Qed.
#[export] Hint Resolve goes_refl : qd.

Lemma keeps_goes w w' d l : 0 <= wakeup w -> keeps w w' d l -> goes w w'.
Proof. intros Hw [A1 A2 A3 A4 A5 A6 A7 A8]. split; auto. Qed.

Lemma keeps_log w c w' d l : 0 <= wakeup w -> keeps (log_call c w) w' d l -> goes w w'.
Proof. intros Hw [A1 A2 A3 A4 A5 A6 A7 Aw A8]. split; [|exact A6|exact A8]. intros Ha. by apply A5. Qed.

Lemma log_ok w c d r : work_call c = None -> ok w d r -> ok (log_call c w) d r.
Proof.
  intros Hc [[ls Hs] [lg Hg] [lk Hk] Hw]. split; [exists ls; by eapply srcs_same|exists lg; by eapply sigs_ok_same| |done].
  exists lk. eapply works_ok_same; eauto. simpl. rewrite omap_app. simpl. rewrite Hc. by rewrite app_nil_r.
Qed.

(** The call of a deferred function moves it from the waiting ones to the log. *)
Lemma log_work_ok w p x d r : works w !! p = Some x -> ok w d (p :: r) -> ok (log_call (CWork (w_func x) (w_arg x)) w) d r.
Proof.
  intros Hx [[ls Hs] [lg Hg] [lk [W1 W2 W3 W4 W5 W6]] Hw]. split; [exists ls; by eapply srcs_same|exists lg; by eapply sigs_ok_same| |done].
  exists lk. split; try done. simpl in *. rewrite Hx in W6. rewrite omap_app. simpl. rewrite <- W6, <- app_assoc. done.
Qed.

Definition is_source (c : call) : bool := match c with CSource _ _ _ _ _ | CTick => true | _ => false end.
Definition source_calls (l : list call) : list call := filter (fun c => is_source c = true) l.

Section run.
Context (behave : call -> world -> list op).
Hypothesis Hpolite : polite behave.

Lemma invoke_ok c w d r :
  ok (log_call c w) d r -> (forall p, p ∈ r -> p ∈ d) ->
  exists w', invoke behave c w = Ok w' /\ ok w' d r /\ keeps (log_call c w) w' d (behave c w).
Proof. intros HO Hrd. unfold invoke. by apply run_ops_ok. Qed.

Lemma hook_ok mk cb w : (forall x y, work_call (mk x y) = None) -> ok w [] [] ->
  exists w', hook behave mk cb w = Ok w' /\ ok w' [] [] /\ goes w w' /\ omap work_call (calls w') = omap work_call (calls w) /\
    exists l, calls w' = calls w ++ l /\ (forall c, c ∈ l -> exists x y, c = mk x y).
Proof.
  intros Hm HO. unfold hook. destruct (_ =? 0).
  { exists w. split; [done|]. split; [done|]. split; [apply goes_refl|]. split; [done|]. exists []. rewrite app_nil_r. split; [done|]. by intros c ?%not_elem_of_nil. }
  destruct (invoke_ok (mk cb.1 cb.2) w [] []) as (w' & -> & HO' & K); [by apply log_ok|done|].
  exists w'. split; [done|]. split; [done|]. split; [eapply keeps_log; [apply HO|exact K]|]. rewrite (kp_calls _ _ _ _ K). simpl.
  rewrite omap_app. simpl. rewrite Hm, app_nil_r. split; [done|]. eexists. split; [done|]. intros c ->%list_elem_of_singleton. eauto.
Qed.

(** *** Deferred work *)

Lemma work_loop_ok l : forall fuel p w, ok w l l -> chain w_next (works w) p l -> (length l < fuel)%nat ->
  exists w', work_loop behave fuel p w = Ok w' /\ ok w' [] [] /\ goes w w' /\
    omap work_call (calls w') = omap work_call (calls w) ++ items (works w) l.
Proof.
  induction l as [|t l IH]; intros fuel p w HO Hc Hf; (destruct fuel as [|fuel]; [simpl in Hf; lia|]).
  - simpl in Hc. subst p. exists w. split; [done|]. split; [done|]. split; [apply goes_refl|]. by rewrite app_nil_r.
  - destruct Hc as (-> & H0 & x & Hx & Hc). simpl. destruct (Z.eqb_spec t 0); [done|]. rewrite Hx. cbn [of_option obind].
    assert (w_func x <> 0) as Hfn by (destruct (ok_works _ _ _ HO) as [lk Hk]; by eapply wk_func).
    destruct (Z.eqb_spec (w_func x) 0); [done|].
    destruct (invoke_ok (CWork (w_func x) (w_arg x)) w (t :: l) l) as (w1 & -> & HO1 & K); [by apply (log_work_ok w t)|by right|]. cbn [obind].
    pose proof (kp_works _ _ _ _ K) as Hkw. simpl in Hkw. rewrite Hkw by left. rewrite Hx. cbn [of_option obind].
    assert (t ∉ l) as Nt.
    { destruct (ok_works _ _ _ HO) as [lk Hk]. pose proof (wk_nodup _ _ _ _ Hk) as (_ & _ & N)%NoDup_app. by apply NoDup_cons in N as [? _]. }
    assert (forall q, q ∈ l -> delete t (works w1) !! q = works w !! q) as Hql.
    { intros q Hq. rewrite lookup_delete_ne by (by intros ->). apply Hkw. by right. }
    destruct (IH fuel (w_next x) (set_works (delete t (works w1)) w1)) as (w2 & -> & HO2 & G2 & Hlog).
    + destruct HO1 as [[ls Hs] [lg Hg] [lk [W1 W2 W3 W4 W5 W6]] Hw]. split; [exists ls; by eapply srcs_same|exists lg; by eapply sigs_ok_same| |done].
      assert (t ∉ lk) as Ntk by (apply NoDup_app in W3 as (_ & N & _); intros Hx'; apply (N t Hx'); by left).
      exists lk. split; simpl; try done.
      * eapply links_frame; [|done]. intros u Hu. rewrite lookup_delete_ne; [done|]. by intros ->.
      * apply NoDup_app in W3 as (N1 & N & N2). apply NoDup_cons in N2 as [_ N2]. apply NoDup_app. split; [done|]. split; [|done].
        intros u Hu1 Hu2. apply (N u Hu1). by right.
      * intros q. rewrite elem_of_app. destruct (decide (q = t)) as [->|]; [rewrite lookup_delete_eq; split; [tauto|by intros [? ?]]|].
        rewrite lookup_delete_ne by done. rewrite <- W4, elem_of_app, elem_of_cons. naive_solver.
      * intros q y [_ Hy]%lookup_delete_Some. by apply (W5 q).
      * rewrite <- W6. f_equal. f_equal; apply items_same; intros q Hq; (rewrite lookup_delete_ne; [done|]; by intros ->).
    + eapply links_frame; [|exact Hc]. exact Hql.
    + simpl in Hf. lia.
    + exists w2. split; [done|]. split; [done|]. split.
      * eapply goes_trans; [|exact G2]. eapply keeps_log; [apply HO|]. destruct K as [K1 K2 K3 K4 K5 K6 K7 Kw K8]. by split.
      * rewrite Hlog. simpl. rewrite (kp_calls _ _ _ _ K). simpl. rewrite omap_app. simpl. rewrite <- app_assoc. f_equal. simpl. unfold item. f_equal.
        apply items_same. intros q Hq. by rewrite Hql.
Qed.

Lemma process_ok w : ok w [] [] ->
  exists w', process_pending_work behave w = Ok w' /\ ok w' [] [] /\ awake w' /\ omap work_call (calls w') = deferred w /\
    (state (loop w) <> QD_LOOP_RUNNING -> state (loop w') <> QD_LOOP_RUNNING) /\
    max_events (loop w') = max_events (loop w) /\ default_timeout (loop w') = default_timeout (loop w).
Proof.
  intros [Hs [lg Hg] [l Hk] Hw]. pose proof Hk as [W1 W2 W3 W4 W5 W6]. rewrite app_nil_r in W3. unfold process_pending_work.
  assert (length l <= size (works w))%nat as Hlen.
  { apply nodup_size; [done|]. intros p Hp. apply W4. by rewrite app_nil_r. }
  destruct (work_loop_ok l (S (size (works w))) (pending_head (loop w)) (on_loop (set_pending 0 0) w)) as (w' & -> & HO' & [G1 G2 [G3 G4]] & Hlog).
  - split; [destruct Hs as [ls Hs]; exists ls; by eapply srcs_same|exists lg; by eapply sigs_ok_same| |done].
    exists []. split; simpl; try done.
    + intros p. rewrite <- W4. by rewrite app_nil_r.
    + rewrite <- W6. simpl. by rewrite app_nil_r.
  - exact W1.
  - lia.
  - exists w'. split; [done|]. split; [done|]. split; [apply G1; unfold awake; simpl; done|]. split; [|split; [exact G2|split; [exact G3|exact G4]]].
    rewrite Hlog. simpl. by rewrite <- W6.
Qed.

Lemma before_poll_ok timeout a w : ok w [] [] ->
  exists w', before_poll behave timeout a w = Ok w' /\ ok w' [] [] /\ awake w' /\ omap work_call (calls w') = deferred w /\
    (state (loop w) <> QD_LOOP_RUNNING \/ OStop ∈ a_others a -> state (loop w') <> QD_LOOP_RUNNING) /\
    max_events (loop w') = max_events (loop w) /\ default_timeout (loop w') = default_timeout (loop w) /\ (OStop ∈ a_others a -> 0 < wakeup w').
Proof.
  intros HO. unfold before_poll. destruct (process_ok w HO) as (w1 & -> & HO1 & A1 & L1 & S1 & M1 & D1). cbn [obind].
  destruct (hook_ok CPrePoll (pre_poll_callback (loop w1)) w1 ltac:(done) HO1) as (w2 & -> & HO2 & [G1 G2 [G3 G4]] & L2 & _). cbn [obind].
  set (w3 := log_call (CPoll (poll_timeout (a_next a) timeout)) w2).
  assert (ok w3 [] []) as HO3 by (by apply log_ok).
  destruct (run_ops_ok (a_others a) w3 [] [] HO3 ltac:(done)) as (w4 & -> & HO4 & K4).
  exists w4. split; [done|]. split; [done|]. split; [apply (kp_awake _ _ _ _ K4); [apply HO3|]; apply G1, A1|].
  split; [rewrite (kp_calls _ _ _ _ K4); simpl; rewrite omap_app; simpl; by rewrite app_nil_r, L2|].
  split; [intros [Hs|Hs]; [apply (kp_state _ _ _ _ K4); simpl; auto|by apply (kp_stop _ _ _ _ K4)]|].
  destruct (kp_config _ _ _ _ K4) as [E1 E2]. rewrite E1, E2. simpl. split; [congruence|]. split; [congruence|]. intros Hs. apply (kp_wakeup _ _ _ _ K4); [apply HO3|by right].
Qed.

(** *** Signals *)

Lemma no_source_targets p fd o : no_source o -> ~ targets p fd o.
Proof. destruct o; simpl; tauto. Qed.

(** What a call keeps of the sources. *)
Definition srcs_kept (w w' : world) : Prop := forall p s, srcs w !! p = Some s -> exists s', srcs w' !! p = Some s' /\ same_source s s'.

Lemma srcs_kept_refl w : srcs_kept w w.
Proof. intros p s Hs. eauto with qd. Qed.
Lemma srcs_kept_trans w1 w2 w3 : srcs_kept w1 w2 -> srcs_kept w2 w3 -> srcs_kept w1 w3.
Proof. intros H1 H2 p s Hs. destruct (H1 p s Hs) as (s1 & Hs1 & E1). destruct (H2 p s1 Hs1) as (s2 & Hs2 & E2). exists s2. split; [done|by eapply same_source_trans]. Qed.

Lemma signal_loop_ok signo l : forall fuel p w, ok w [] [] -> chain h_next (sigs w) p l -> (length l < fuel)%nat ->
  exists w', signal_loop behave fuel signo p w = Ok w' /\ ok w' [] [] /\ goes w w' /\ srcs_kept w w' /\ source_calls (calls w') = source_calls (calls w).
Proof.
  induction l as [|t l IH]; intros fuel p w HO Hc Hf; (destruct fuel as [|fuel]; [simpl in Hf; lia|]).
  - simpl in Hc. subst p. exists w. split; [done|]. split; [done|]. split; [apply goes_refl|]. split; [apply srcs_kept_refl|done].
  - pose proof Hc as (-> & H0 & x & Hx & Hc'). simpl. destruct (Z.eqb_spec t 0); [done|]. rewrite Hx. cbn [of_option obind].
    assert (exists w1, (if (h_signo x =? signo) && negb (h_callback x =? 0) then invoke behave (CSignal (h_callback x) signo (h_arg x)) w else Ok w) = Ok w1 /\
      ok w1 [] [] /\ goes w w1 /\ srcs_kept w w1 /\ source_calls (calls w1) = source_calls (calls w) /\ (forall q h, sigs w !! q = Some h -> sigs w1 !! q = Some h))
      as (w1 & -> & HO1 & G1 & K1 & L1 & Hkeep).
    { destruct (_ && _); [|exists w; split; [done|]; split; [done|]; split; [apply goes_refl|]; split; [apply srcs_kept_refl|done]].
      destruct (invoke_ok (CSignal (h_callback x) signo (h_arg x)) w [] []) as (w1 & -> & HO1 & K); [by apply log_ok|done|].
      exists w1. split; [done|]. split; [done|]. split; [eapply keeps_log; [apply HO|exact K]|]. split; [|split].
      - intros q s Hq. apply (kp_srcs _ _ _ _ K q s Hq). intros o Ho. apply no_source_targets. by apply (Hpolite _ _ _ Ho).
      - rewrite (kp_calls _ _ _ _ K). unfold source_calls. simpl. rewrite filter_app. simpl. by rewrite app_nil_r.
      - intros q h Hq. apply (kp_sigs _ _ _ _ K); [|done]. intros o Ho. by apply (Hpolite _ _ _ Ho). }
    cbn [obind]. rewrite (Hkeep t x Hx). cbn [of_option obind].
    destruct (IH fuel (h_next x) w1 HO1) as (w2 & -> & HO2 & G2 & K2 & L2).
    + eapply links_frame; [|exact Hc']. intros u Hu. destruct (chain_live _ _ _ _ u Hc ltac:(by right)) as [_ [y Hy]]. rewrite Hy. by apply Hkeep.
    + simpl in Hf. lia.
    + exists w2. split; [done|]. split; [done|]. split; [by eapply goes_trans|]. split; [by eapply srcs_kept_trans|congruence].
Qed.

Lemma run_signals_ok signo w : ok w [] [] ->
  exists w', run_signals behave signo w = Ok w' /\ ok w' [] [] /\ srcs_kept w w' /\ source_calls (calls w') = source_calls (calls w) /\
    (state (loop w) <> QD_LOOP_RUNNING -> state (loop w') <> QD_LOOP_RUNNING) /\
    max_events (loop w') = max_events (loop w) /\ default_timeout (loop w') = default_timeout (loop w).
Proof.
  intros HO. destruct signo as [n|]; [|exists w; split; [done|]; split; [done|]; split; [apply srcs_kept_refl|done]]. unfold run_signals.
  destruct (ok_sigs _ _ _ HO) as [l Hg]. pose proof Hg as [W1 W2 W3].
  destruct (signal_loop_ok n l (S (size (sigs w))) (signal_handlers (loop w)) w HO W1) as (w' & -> & HO' & [G1 G2 [G3 G4]] & K & L).
  { assert (length l <= size (sigs w))%nat by (apply nodup_size; [done|]; intros p; apply W3). lia. }
  exists w'. done.
Qed.

(** *** Dispatching *)

(** The call an event leads to. *)
Definition expected (w : world) (e : Z * Z) : option call :=
  s ← srcs w !! e.1;
  if negb (s_enabled s) then None
  else if s_callback s =? timer_callback then Some CTick
  else if (s_callback s =? wakeup_callback) || (s_callback s =? signal_callback) || (s_callback s =? 0) then None
  else Some (CSource e.1 (s_callback s) (s_fd s) (from_epoll_events e.2) (s_arg s)).

Lemma ok_active w p s act : ok w [] [] -> srcs w !! p = Some s ->
  ok (write_source w p (source_state (s_events s) act (s_registered s) (s_enabled s) s)) [] [].
Proof.
  intros [[ls Hs] [lg Hg] [lk Hk] Hw] Hp. split; [|exists lg; by eapply sigs_ok_same|exists lk; by eapply works_ok_same|done].
  destruct (so_entry _ _ Hs p s Hp) as [Hr [m Hm]]. destruct (so_table _ _ Hs _ _ _ Hm) as (s' & Hs' & _ & Ha). rewrite Hp in Hs'. injection Hs' as <-.
  exists ls. eapply (srcs_update w ls Hs p s (source_state (s_events s) act (s_registered s) (s_enabled s) s) m); try done. simpl. by rewrite insert_id.
Qed.

(** A step of the loop over the events leaves the sources other than its own. *)
Definition others_kept (p : Z) (w w' : world) : Prop :=
  forall q s, q <> p -> srcs w !! q = Some s -> exists s', srcs w' !! q = Some s' /\ same_source s s'.

Lemma call_source_ok signo p s ev w :
  ok w [] [] -> srcs w !! p = Some s -> s_enabled s = true ->
  exists w', call_source behave signo p s (from_epoll_events ev) (write_source w p (source_state (s_events s) (from_epoll_events ev) (s_registered s) (s_enabled s) s)) = Ok w' /\
    ok w' [] [] /\ others_kept p w w' /\ source_calls (calls w') = source_calls (calls w) ++ option_list (expected w (p, ev)) /\
    (state (loop w) <> QD_LOOP_RUNNING -> state (loop w') <> QD_LOOP_RUNNING) /\
    max_events (loop w') = max_events (loop w) /\ default_timeout (loop w') = default_timeout (loop w).
Proof.
  intros HO Hp Hen. set (w1 := write_source w p _). assert (ok w1 [] []) as HO1 by (by apply ok_active).
  assert (others_kept p w w1) as K1 by (intros q x Hne Hq; exists x; unfold w1; simpl; rewrite lookup_insert_ne by done; auto with qd).
  assert (forall w', srcs_kept w1 w' -> others_kept p w w') as Hoth.
  { intros w' Hk q x Hne Hq. apply Hk. unfold w1. simpl. by rewrite lookup_insert_ne. }
  unfold call_source, expected. simpl. rewrite Hp. simpl. rewrite Hen. cbn [negb].
  destruct (Z.eqb_spec (s_callback s) wakeup_callback) as [E|_].
  { rewrite E. exists (set_wakeup 0 w1). split; [done|]. split; [|split; [done|simpl; by rewrite app_nil_r]].
    destruct HO1 as [[ls Hs] [lg Hg] [lk Hk] Hw]. split; [exists ls; by eapply srcs_same|exists lg; by eapply sigs_ok_same|exists lk; by eapply works_ok_same|done]. }
  destruct (Z.eqb_spec (s_callback s) timer_callback) as [E|_].
  { destruct (invoke_ok CTick w1 [] []) as (w2 & -> & HO2 & K); [by apply log_ok|done|]. exists w2. split; [done|]. split; [done|]. split; [|split; [|split]].
    - apply Hoth. intros q x Hq. apply (kp_srcs _ _ _ _ K q x Hq). intros o Ho. apply no_source_targets. by apply (Hpolite _ _ _ Ho).
    - rewrite (kp_calls _ _ _ _ K). simpl. unfold source_calls. by rewrite filter_app.
    - exact (kp_state _ _ _ _ K).
    - exact (kp_config _ _ _ _ K). }
  destruct (Z.eqb_spec (s_callback s) signal_callback) as [E|_].
  { destruct (run_signals_ok signo w1 HO1) as (w2 & -> & HO2 & K & L & R). exists w2. split; [done|]. split; [done|]. split; [by apply Hoth|].
    split; [|exact R]. rewrite L. simpl. by rewrite app_nil_r. }
  destruct (Z.eqb_spec (s_callback s) 0) as [E|_].
  { exists w1. split; [done|]. split; [done|]. split; [done|]. split; [simpl; by rewrite app_nil_r|done]. }
  destruct (invoke_ok (CSource p (s_callback s) (s_fd s) (from_epoll_events ev) (s_arg s)) w1 [] []) as (w2 & -> & HO2 & K); [by apply log_ok|done|].
  exists w2. split; [done|]. split; [done|]. split; [|split; [|split]].
  - intros q x Hne Hq. destruct (K1 q x Hne Hq) as (x1 & Hx1 & Ex1).
    destruct (kp_srcs _ _ _ _ K q x1 Hx1) as (x2 & Hx2 & Ex2); [|exists x2; split; [done|by eapply same_source_trans]].
    intros o Ho Ht. pose proof (Hpolite _ _ _ Ho) as Hpo. simpl in Hpo.
    assert (s_fd x1 <> s_fd s) as Hfd.
    { rewrite Ex1. simpl. destruct (ok_srcs _ _ _ HO) as [ls Hs]. intros E. destruct (so_entry _ _ Hs q x Hq) as [_ [m1 Hm1]].
      destruct (so_entry _ _ Hs p s Hp) as [_ [m2 Hm2]]. congruence. }
    destruct o; simpl in *; try done; congruence.
  - rewrite (kp_calls _ _ _ _ K). simpl. unfold source_calls. by rewrite filter_app.
  - exact (kp_state _ _ _ _ K).
  - exact (kp_config _ _ _ _ K).
Qed.

Lemma dispatch_ok signo events : forall w,
  ok w [] [] -> NoDup events.*1 -> (forall e, e ∈ events -> is_Some (srcs w !! e.1)) ->
  exists w', dispatch behave signo events w = Ok w' /\ ok w' [] [] /\
    source_calls (calls w') = source_calls (calls w) ++ omap (expected w) events /\
    (state (loop w) <> QD_LOOP_RUNNING -> state (loop w') <> QD_LOOP_RUNNING) /\
    max_events (loop w') = max_events (loop w) /\ default_timeout (loop w') = default_timeout (loop w).
Proof.
  induction events as [|[p ev] events IH]; intros w HO Hnd Hlive.
  { exists w. split; [done|]. split; [done|]. split; [by rewrite app_nil_r|done]. }
  simpl in Hnd. apply NoDup_cons in Hnd as [Np Hnd]. destruct (Hlive (p, ev) ltac:(by left)) as [s Hs]. simpl in Hs.
  assert (p <> 0) as H0 by (destruct (ok_srcs _ _ _ HO) as [ls HL]; by eapply so_nonzero).
  simpl. destruct (Z.eqb_spec p 0); [done|]. unfold read_source. rewrite Hs. cbn [of_option obind].
  destruct (s_enabled s) eqn:Hen; cbn [negb].
  - destruct (call_source_ok signo p s ev w HO Hs Hen) as (w1 & E & HO1 & K1 & L1 & S1 & M1 & D1). rewrite Hen in E. rewrite E. cbn [obind].
    set (w2 := on_loop _ w1). assert (ok w2 [] []) as HO2.
    { destruct HO1 as [[ls HL] [lg Hg] [lk Hk] Hw]. split; [exists ls; by eapply srcs_same|exists lg; by eapply sigs_ok_same|exists lk; by eapply works_ok_same|done]. }
    assert (forall e, e ∈ events -> e.1 <> p) as Hne by (intros e He E1; apply Np; rewrite <- E1; apply list_elem_of_fmap; by exists e).
    destruct (IH w2 HO2 Hnd) as (w3 & -> & HO3 & L3 & S3 & M3 & D3).
    + intros e He. destruct (Hlive e ltac:(by right)) as [x Hx]. destruct (K1 e.1 x (Hne e He) Hx) as (x' & Hx' & _). exists x'. exact Hx'.
    + exists w3. split; [done|]. split; [done|]. split; [|split; [auto|split; [by rewrite M3|by rewrite D3]]].
      rewrite L3. simpl. rewrite L1, <- app_assoc. f_equal.
      assert (omap (expected w2) events = omap (expected w) events) as ->.
      { apply omap_same. intros e He. destruct (Hlive e ltac:(by right)) as [x Hx]. destruct (K1 e.1 x (Hne e He) Hx) as (x' & Hx' & Ex).
        unfold expected. change (srcs w2) with (srcs w1). rewrite Hx, Hx'. simpl. rewrite Ex. done. }
      by destruct (expected w (p, ev)).
  - destruct (IH w HO Hnd) as (w3 & -> & HO3 & L3 & R3); [intros e He; apply Hlive; by right|].
    exists w3. split; [done|]. split; [done|]. split; [|done]. rewrite L3. unfold expected at 2. simpl. rewrite Hs. simpl. by rewrite Hen.
Qed.
End run.
