(* ===== verification/EventWake.v ===== *)
(** * The wakeup source of the event loop

    The wakeup descriptor stays in the table of the kernel as long as nobody changes or
    removes its source, and a call of qd_event_loop_stop makes it ready: a loop that is
    told to stop does not stay in epoll_wait. *)

From S2P Require Import Prelude Common Links Event EventSafe EventRun.

(** ** The source stays *)

Section watch.
Context (wp wfd : Z).

(** What qd_event_loop_create_ex registers. *)
Definition wakeup_like (s : qd_event_source) : Prop :=
  s_fd s = wfd /\ s_enabled s = true /\ s_events s = QD_EVENT_READ /\ s_callback s = wakeup_callback.

(** It is at [wp], and no other source has the descriptor. *)
Definition fits (q : Z) (s : qd_event_source) : Prop := if decide (q = wp) then wakeup_like s else s_fd s <> wfd.
Definition watch (h : gmap Z qd_event_source) : Prop := is_Some (h !! wp) /\ forall q s, h !! q = Some s -> fits q s.

(** The kernel has the descriptor, and a poll reports something. *)
Definition watched (w : world) : Prop :=
  watch (srcs w) /\ is_Some (epoll w !! wfd) /\ wakeup_fd (loop w) = wfd /\ 0 < max_events (loop w).

Lemma watch_insert h q s : watch h -> fits q s -> watch (<[q := s]> h).
Proof.
  intros [Hs Hf] Hq. split.
  - destruct (decide (q = wp)) as [->|]; [rewrite lookup_insert_eq; eauto|by rewrite lookup_insert_ne].
  - intros q' s'. destruct (decide (q' = q)) as [->|]; [rewrite lookup_insert_eq; by intros [= <-]|rewrite lookup_insert_ne by done; apply Hf].
Qed.

Lemma watch_delete h q : watch h -> q <> wp -> watch (delete q h).
Proof. intros [Hs Hf] Hq. split; [by rewrite lookup_delete_ne|]. intros q' s' [_ H]%lookup_delete_Some. by apply Hf. Qed.

Lemma other_fits q s : q <> wp -> s_fd s <> wfd -> fits q s.
Proof. intros Hq Hs. unfold fits. by rewrite decide_False. Qed.

Lemma fits_other q s : fits q s -> q <> wp -> s_fd s <> wfd.
Proof. unfold fits. intros Hf Hq. by rewrite decide_False in Hf. Qed.

(** Links and pending events do not matter. *)
Lemma fits_same q s s' : fits q s -> s_fd s' = s_fd s -> s_enabled s' = s_enabled s -> s_events s' = s_events s -> s_callback s' = s_callback s -> fits q s'.
Proof. unfold fits, wakeup_like. intros Hf -> -> -> ->. done. Qed.

(** A step that leaves the loop's configuration is fine when the sources are. *)
Lemma watched_step w w' : watched w -> (watch (srcs w) -> watch (srcs w')) -> (is_Some (epoll w !! wfd) -> is_Some (epoll w' !! wfd)) ->
  wakeup_fd (loop w') = wakeup_fd (loop w) -> max_events (loop w') = max_events (loop w) -> watched w'.
Proof. intros (H1 & H2 & H3 & H4) Hw He E1 E2. unfold watched. rewrite E1, E2. auto. Qed.

Lemma relink_watched q n p w w' : watched w -> (let! b := read_source w q in Ok (write_source w q (source_links (n b) (p b) b))) = Ok w' -> watched w'.
Proof.
  intros HW E. apply obind_ok in E as (b & Eb & E). injection E as <-. unfold read_source in Eb. destruct (srcs w !! q) as [y|] eqn:Hy; [|done]. injection Eb as ->.
  eapply watched_step; [exact HW| |done|done|done]. intros Hh. apply watch_insert; [done|]. by apply (fits_same q b); [apply Hh|..].
Qed.

Lemma keeps_entry (e : gmap Z (Z * Z)) fd x : is_Some (e !! wfd) -> is_Some (<[fd := x]> e !! wfd).
Proof. destruct (decide (fd = wfd)) as [->|]; [rewrite lookup_insert_eq; eauto|by rewrite lookup_insert_ne]. Qed.

Lemma add_watched a k fd ev cb arg w c w' :
  watched w -> match a with Some p => fresh (srcs w) p = true | None => True end -> qd_event_add a k fd ev cb arg w = Ok (c, w') -> watched w'.
Proof.
  intros HW Ha E. unfold qd_event_add, epoll_add in E. destruct (fd <? 0); [by injection E as _ <-|]. destruct a as [p|]; [|by injection E as _ <-].
  destruct (k && bool_decide _) eqn:Ek; [|by injection E as _ <-]. apply obind_ok in E as (w1 & E1 & E2). injection E2 as _ <-.
  apply andb_prop in Ek as [_ Ek]. apply bool_decide_eq_true in Ek. pose proof HW as ([[s Hs] _] & Hent & _).
  assert (p <> wp /\ fd <> wfd) as [Hp Hfd].
  { split; [|intros ->; rewrite Ek in Hent; by destruct Hent]. intros ->. unfold fresh in Ha. apply andb_prop in Ha as [_ Ha]. apply bool_decide_eq_true in Ha. congruence. }
  apply (watched_step w1); try done.
  assert (forall e, watched (write_source (set_epoll (<[fd := e]> (epoll w)) w) p (mkSource fd ev 0 cb arg true true (sources (loop w)) 0))) as H1.
  { intros e. eapply watched_step; [exact HW| | |done|done]; [|apply keeps_entry]. intros Hh. apply watch_insert; [done|]. by apply other_fits. }
  destruct (negb _); [|by injection E1 as <-]. eapply (relink_watched _ s_next (fun _ => p)); [|exact E1]; apply H1.
Qed.

(** The calls that change the state of one other source. *)
Lemma state_watched p s ev act reg en w : watched w -> p <> wp -> srcs w !! p = Some s -> watched (write_source w p (source_state ev act reg en s)).
Proof.
  intros HW Hp Hs. eapply watched_step; [exact HW| |done|done|done]. intros Hh. apply watch_insert; [done|]. apply other_fits; [done|].
  apply (fits_other p s); [by apply Hh|done].
Qed.

Lemma epoll_mod_watched fd mask p w e : watched w -> epoll_mod fd mask p (epoll w) = Some e -> watched (set_epoll e w).
Proof.
  intros HW E. unfold epoll_mod in E. destruct (bool_decide _); [|done]. injection E as <-. eapply watched_step; [exact HW|done| |done|done]. apply keeps_entry.
Qed.

(** The end of qd_event_mod, qd_event_enable and qd_event_disable. *)
Lemma update_watched p s ev act reg en mask w c w' : watched w -> p <> wp -> srcs w !! p = Some s ->
  match epoll_mod (s_fd s) mask p (epoll (write_source w p (source_state ev act reg en s))) with
  | None => Ok (QD_ERR_IO, write_source w p (source_state ev act reg en s))
  | Some e => Ok (QD_OK, set_epoll e (write_source w p (source_state ev act reg en s)))
  end = Ok (c, w') -> watched w'.
Proof.
  intros HW Hp Hs E. pose proof (state_watched p s ev act reg en w HW Hp Hs) as H1.
  destruct (epoll_mod _ _ _ _) eqn:Em; injection E as _ <-; [|done]. by eapply epoll_mod_watched.
Qed.

Lemma mod_watched p ev w c w' : watched w -> p <> wp -> qd_event_mod p ev w = Ok (c, w') -> watched w'.
Proof.
  intros HW Hp E. unfold qd_event_mod, read_source in E. destruct (p =? 0); [by injection E as _ <-|].
  destruct (srcs w !! p) as [s|] eqn:Hs; [|done]. cbn [of_option obind] in E. eapply update_watched; [exact HW|exact Hp|exact Hs|exact E].
Qed.

Lemma enable_watched p w c w' : watched w -> p <> wp -> qd_event_enable p w = Ok (c, w') -> watched w'.
Proof.
  intros HW Hp E. unfold qd_event_enable, read_source in E. destruct (p =? 0); [by injection E as _ <-|].
  destruct (srcs w !! p) as [s|] eqn:Hs; [|done]. cbn [of_option obind] in E. destruct (s_enabled s); [by injection E as _ <-|]. cbn [of_option obind] in E. eapply update_watched; [exact HW|exact Hp|exact Hs|exact E].
Qed.

Lemma disable_watched p w c w' : watched w -> p <> wp -> qd_event_disable p w = Ok (c, w') -> watched w'.
Proof.
  intros HW Hp E. unfold qd_event_disable, read_source in E. destruct (p =? 0); [by injection E as _ <-|].
  destruct (srcs w !! p) as [s|] eqn:Hs; [|done]. cbn [of_option obind] in E. destruct (negb _); [by injection E as _ <-|]. cbn [of_option obind] in E. eapply update_watched; [exact HW|exact Hp|exact Hs|exact E].
Qed.

Lemma del_watched p w c w' : watched w -> p <> wp -> qd_event_del p w = Ok (c, w') -> watched w'.
Proof.
  intros HW Hp E. unfold qd_event_del, read_source in E. destruct (p =? 0); [by injection E as _ <-|].
  destruct (srcs w !! p) as [s|] eqn:Hs; [|done]. cbn [of_option obind] in E.
  set (w0 := if s_registered s then _ else _) in E.
  assert (watched w0) as H0.
  { unfold w0. destruct (s_registered s); [|done]. eapply (state_watched p s _ _ false _ (set_epoll (delete (s_fd s) (epoll w)) w)) in Hs as H1; [exact H1| |done].
    eapply watched_step; [exact HW|done| |done|done]. simpl. rewrite lookup_delete_ne; [done|]. apply (fits_other p); [|done]. by apply HW. }
  apply obind_ok in E as (w1 & E1 & E). apply obind_ok in E as (w2 & E2 & E). injection E as _ <-.
  assert (watched w1) as H1.
  { destruct (negb _) in E1; [by eapply (relink_watched (s_prev s) (fun _ => s_next s) s_prev)|]. injection E1 as <-. by eapply watched_step. }
  assert (watched w2) as H2.
  { destruct (negb _) in E2; [by eapply (relink_watched (s_next s) s_next (fun _ => s_prev s))|]. by injection E2 as <-. }
  eapply watched_step; [exact H2| |done|done|done]. intros Hh. by apply watch_delete.
Qed.

Lemma find_fd_found fuel fd : forall p w q, find_fd fuel fd p w = Ok q -> q = 0 \/ exists s, srcs w !! q = Some s /\ s_fd s = fd.
Proof.
  induction fuel as [|fuel IH]; intros p w q E; simpl in E; (destruct (p =? 0); [injection E as <-; by left|]); [done|].
  apply obind_ok in E as (s & Es & E). unfold read_source in Es. destruct (srcs w !! p) as [y|] eqn:Hy; [|done]. injection Es as ->.
  destruct (Z.eqb_spec (s_fd s) fd); [injection E as <-; right; eauto|by eapply IH].
Qed.

Lemma del_fd_watched fd w c w' : watched w -> fd <> wfd -> qd_event_del_fd fd w = Ok (c, w') -> watched w'.
Proof.
  intros HW Hfd E. unfold qd_event_del_fd in E. destruct (fd <? 0); [by injection E as _ <-|]. apply obind_ok in E as (q & Eq & E).
  destruct (Z.eqb_spec q 0) as [|H0]; [by injection E as _ <-|]. destruct (find_fd_found _ _ _ _ _ Eq) as [?|(s & Hs & Hf)]; [done|].
  eapply del_watched; [exact HW| |exact E]. intros ->. destruct HW as ([_ Hg] & _). specialize (Hg wp s Hs). unfold fits in Hg. rewrite decide_True in Hg by done.
  destruct Hg. congruence.
Qed.

Lemma del_signal_same fuel signo : forall at_ p w c w', del_signal fuel signo at_ p w = Ok (c, w') ->
  srcs w' = srcs w /\ epoll w' = epoll w /\ wakeup_fd (loop w') = wakeup_fd (loop w) /\ max_events (loop w') = max_events (loop w).
Proof.
  induction fuel as [|fuel IH]; intros at_ p w c w' E; simpl in E; (destruct (p =? 0); [by injection E as _ <-|]); [done|].
  apply obind_ok in E as (h & _ & E). destruct (h_signo h =? signo); [|by eapply IH]. apply obind_ok in E as (w1 & E1 & E). injection E as _ <-.
  destruct (at_ =? 0); [by injection E1 as <-|]. apply obind_ok in E1 as (b & _ & E1). by injection E1 as <-.
Qed.

Lemma defer_same a func arg w c w' : qd_event_defer a func arg w = Ok (c, w') ->
  srcs w' = srcs w /\ epoll w' = epoll w /\ wakeup_fd (loop w') = wakeup_fd (loop w) /\ max_events (loop w') = max_events (loop w).
Proof.
  unfold qd_event_defer. intros E. destruct (func =? 0); [by injection E as _ <-|]. destruct a as [p|]; [|by injection E as _ <-].
  apply obind_ok in E as (w1 & E1 & E). injection E as _ <-. simpl in E1.
  destruct (negb _); [apply obind_ok in E1 as (t & _ & E1)|]; by injection E1 as <-.
Qed.

(** A call that is not about the wakeup source leaves it. *)
Lemma run_op_watched o w c w' : watched w -> op_ok w o = true -> ~ targets wp wfd o -> run_op o w = Ok (c, w') -> watched w'.
Proof.
  intros HW Hop Ht E. destruct o; simpl in Hop, Ht, E.
  - apply andb_prop in Hop as [_ Ha]. eapply add_watched; [exact HW| |exact E]. by destruct a.
  - by eapply mod_watched.
  - by eapply del_watched.
  - by eapply enable_watched.
  - by eapply disable_watched.
  - by eapply del_fd_watched.
  - unfold qd_event_add_signal in E. destruct (callback =? 0); [by injection E as _ <-|]. destruct a; injection E as _ <-; [|done]. by eapply watched_step.
  - apply del_signal_same in E as (E1 & E2 & E3 & E4). eapply watched_step; [exact HW| | |done|done]; by rewrite ?E1, ?E2.
  - apply defer_same in E as (E1 & E2 & E3 & E4). eapply watched_step; [exact HW| | |done|done]; by rewrite ?E1, ?E2.
  - injection E as _ <-. by eapply watched_step.
  - injection E as _ <-. by eapply watched_step.
  - injection E as _ <-. by eapply watched_step.
  - injection E as _ <-. by eapply watched_step.
  - injection E as _ <-. by eapply watched_step.
Qed.

Lemma run_ops_watched l : (forall o, o ∈ l -> ~ targets wp wfd o) -> forall w w', watched w -> run_ops l w = Ok w' -> watched w'.
Proof.
  induction l as [|o l IH]; intros Hl w w' HW E; simpl in E; [by injection E as <-|].
  assert (forall o, o ∈ l -> ~ targets wp wfd o) as Hl' by (intros x Hx; apply Hl; by right).
  destruct (op_ok w o) eqn:Eo; [|by eapply IH]. apply obind_ok in E as ([c w1] & E1 & E2).
  eapply IH; [done| |exact E2]. eapply run_op_watched; [exact HW|done| |exact E1]. apply Hl. by left.
Qed.

(** ** Iterations leave it *)

Context (behave : call -> world -> list op).

(** No callback changes or removes the wakeup source; what a callback of that source would
    do does not matter, since its callback is the loop's own. *)
Definition of_wakeup (c : call) : Prop := match c with CSource p _ fd _ _ => p = wp \/ fd = wfd | _ => False end.
Definition spares : Prop := forall c w o, o ∈ behave c w -> ~ of_wakeup c -> ~ targets wp wfd o.

Hypothesis Hspares : spares.

Lemma invoke_watched c w w' : ~ of_wakeup c -> watched w -> invoke behave c w = Ok w' -> watched w'.
Proof. intros Hc HW E. eapply run_ops_watched; [intros o Ho; by eapply Hspares| |exact E]. by eapply watched_step. Qed.

Lemma hook_watched mk cb w w' : (forall x y, ~ of_wakeup (mk x y)) -> watched w -> hook behave mk cb w = Ok w' -> watched w'.
Proof. intros Hm HW E. unfold hook in E. destruct (cb.1 =? 0); [by injection E as <-|by eapply invoke_watched]. Qed.

Lemma work_loop_watched fuel : forall p w w', watched w -> work_loop behave fuel p w = Ok w' -> watched w'.
Proof.
  induction fuel as [|fuel IH]; intros p w w' HW E; simpl in E; (destruct (p =? 0); [by injection E as <-|]); [done|].
  apply obind_ok in E as (x & _ & E). apply obind_ok in E as (w1 & E1 & E). apply obind_ok in E as (? & _ & E). eapply IH; [|exact E].
  eapply (watched_step w1); try done. destruct (w_func x =? 0); [by injection E1 as <-|eapply invoke_watched; [|done|exact E1]; by intros []].
Qed.

Lemma signal_loop_watched signo fuel : forall p w w', watched w -> signal_loop behave fuel signo p w = Ok w' -> watched w'.
Proof.
  induction fuel as [|fuel IH]; intros p w w' HW E; simpl in E; (destruct (p =? 0); [by injection E as <-|]); [done|].
  apply obind_ok in E as (x & _ & E). apply obind_ok in E as (w1 & E1 & E). apply obind_ok in E as (y & _ & E). eapply IH; [|exact E].
  destruct (_ && _); [eapply invoke_watched; [|done|exact E1]; by intros []|by injection E1 as <-].
Qed.

Lemma call_source_watched signo p s ev w w' : watched w -> fits p s -> call_source behave signo p s ev w = Ok w' -> watched w'.
Proof.
  intros HW Hf E. unfold call_source in E. destruct (Z.eqb_spec (s_callback s) wakeup_callback) as [|Hcb]; [injection E as <-; by eapply watched_step|].
  destruct (_ =? timer_callback); [eapply invoke_watched; [|done|exact E]; by intros []|]. destruct (_ =? signal_callback).
  { destruct signo; [by eapply signal_loop_watched|by injection E as <-]. }
  destruct (_ =? 0); [by injection E as <-|]. eapply invoke_watched; [|done|exact E]. unfold fits in Hf. simpl.
  destruct (decide (p = wp)); [destruct Hf as (_ & _ & _ & Hcb'); congruence|]. by intros [?|?].
Qed.

Lemma dispatch_watched signo evs : forall w w', watched w -> dispatch behave signo evs w = Ok w' -> watched w'.
Proof.
  induction evs as [|[p ev] evs IH]; intros w w' HW E; simpl in E; [by injection E as <-|]. destruct (p =? 0); [by eapply IH|].
  unfold read_source in E. destruct (srcs w !! p) as [s|] eqn:Hs; [|done]. cbn [of_option obind] in E.
  destruct (negb _); [by eapply IH|]. apply obind_ok in E as (w1 & E1 & E). eapply IH; [|exact E]. eapply (watched_step w1); try done.
  assert (fits p s) as Hf by (by apply HW). eapply call_source_watched; [|exact Hf|exact E1].
  eapply watched_step; [exact HW| |done|done|done]. intros Hh. apply watch_insert; [done|]. by apply (fits_same p s).
Qed.

Lemma epoll_wait_entry ready : forall max e fd, is_Some (e !! fd) -> is_Some ((epoll_wait max ready e).2 !! fd).
Proof.
  induction ready as [|[fd0 ev] ready IH]; intros max e fd He; destruct max as [|max]; simpl; try done.
  destruct (e !! fd0) as [[m p]|]; [|by apply IH]. destruct (_ && _); [|by apply IH].
  pose proof (IH max (if Z.land m EPOLLONESHOT =? 0 then e else <[fd0 := (Z.land m private_bits, p)]> e) fd) as H.
  destruct (epoll_wait max ready _) as [l e2]. apply H. destruct (_ =? 0); [done|].
  destruct (decide (fd0 = fd)) as [->|]; [rewrite lookup_insert_eq; eauto|by rewrite lookup_insert_ne].
Qed.

Lemma before_poll_watched timeout a w w' : (forall o, o ∈ a_others a -> ~ targets wp wfd o) -> watched w -> before_poll behave timeout a w = Ok w' -> watched w'.
Proof.
  intros Ha HW E. unfold before_poll in E. apply obind_ok in E as (w1 & E1 & E). apply obind_ok in E as (w2 & E2 & E).
  eapply run_ops_watched; [exact Ha| |exact E]. eapply (watched_step w2); try done. eapply hook_watched; [| |exact E2]; [by intros ? ? []|].
  eapply work_loop_watched; [|exact E1]. by eapply watched_step.
Qed.

Lemma after_poll_watched a w c w' : watched w -> after_poll behave a w = Ok (c, w') -> watched w'.
Proof.
  intros HW E. unfold after_poll in E. destruct (a_polled a) as [b|ready]; [injection E as _ <-; by eapply watched_step|].
  assert (is_Some ((poll_events w ready).2 !! wfd)) as He by (apply epoll_wait_entry, HW).
  destruct (poll_events w ready) as [[|x evs] e].
  - apply obind_ok in E as (w1 & E1 & E). injection E as _ <-. eapply hook_watched; [| |exact E1]; [by intros ? ? []|]. by eapply watched_step.
  - apply obind_ok in E as (w1 & E1 & E). apply obind_ok in E as (w2 & E2 & E). injection E as _ <-. eapply (watched_step w2); try done.
    eapply hook_watched; [| |exact E2]; [by intros ? ? []|]. eapply dispatch_watched; [|exact E1]. by eapply watched_step.
Qed.
End watch.

(** ** The wakeup descriptor in a poll *)

Lemma epoll_wait_reports fd ready : forall max e, (0 < max)%nat -> fd ∈ ready.*1 ->
  (forall x, x ∈ ready -> x.1 = fd -> exists m p, e !! fd = Some (m, p) /\ Z.land x.2 m <> 0) -> (epoll_wait max ready e).1 <> [].
Proof.
  induction ready as [|[fd0 ev] ready IH]; intros max e Hmax Hin Hx; [by apply not_elem_of_nil in Hin|].
  destruct max as [|max]; [lia|].
  assert (fd ∈ ready.*1 -> (epoll_wait (S max) ready e).1 <> []) as Hrest.
  { intros Hr. apply IH; [done|done|]. intros x Hx'. apply Hx. by right. }
  simpl in Hin. rewrite elem_of_cons in Hin. simpl. destruct (decide (fd0 = fd)) as [->|Hne].
  - destruct (Hx (fd, ev) ltac:(by left) eq_refl) as (m & p & -> & Hm). simpl in Hm. rewrite (proj2 (Z.eqb_neq _ _) Hm). cbn [negb andb].
    case_bool_decide as Hd; cbn [negb]; [by apply Hrest|]. by destruct (epoll_wait max ready _).
  - destruct Hin as [->|Hin]; [done|]. destruct (e !! fd0) as [[m p]|]; [|by apply Hrest].
    destruct (_ && _); [by destruct (epoll_wait max ready _)|by apply Hrest].
Qed.

Lemma kernel_ready_wakeup w ready : 0 < wakeup w ->
  wakeup_fd (loop w) ∈ (kernel_ready w ready).*1 /\ (forall x, x ∈ kernel_ready w ready -> x.1 = wakeup_fd (loop w) -> x.2 = EPOLLIN).
Proof.
  intros Hw. unfold kernel_ready. destruct (Z.ltb_spec 0 (wakeup w)); [|lia]. case_bool_decide as Hin.
  - split.
    + apply list_elem_of_fmap in Hin as (x & E & Hx). apply list_elem_of_fmap. exists (wakeup_fd (loop w), EPOLLIN). split; [done|].
      apply list_elem_of_fmap. exists x. split; [|done]. by rewrite <- E, Z.eqb_refl.
    + intros x (y & -> & Hy)%list_elem_of_fmap. destruct (Z.eqb_spec y.1 (wakeup_fd (loop w))); done.
  - split; [rewrite fmap_app; apply elem_of_app; right; by left|].
    intros x [Hx|Hx]%elem_of_app E; [|apply list_elem_of_singleton in Hx; by subst x]. destruct Hin. rewrite <- E. apply list_elem_of_fmap. by exists x.
Qed.

(** The table has the events of the wakeup source, so the poll of a loop that was woken up
    has something to report. *)
Lemma woken_reports wp wfd w ready : ok w [] [] -> watched wp wfd w -> 0 < wakeup w -> (poll_events w ready).1 <> [].
Proof.
  intros HO ([[s Hs] Hfits] & _ & Ewf & Hmax) Hw. destruct (ok_srcs _ _ _ HO) as [l Hl].
  pose proof (Hfits wp s Hs) as Hg. unfold fits in Hg. rewrite decide_True in Hg by done. destruct Hg as (Hf & Hen & Hev & _).
  destruct (kernel_ready_wakeup w ready Hw) as [Hin Hx]. apply (epoll_wait_reports (wakeup_fd (loop w))); [lia|done|].
  intros x Hxin E. rewrite (Hx x Hxin E). destruct (so_entry _ _ Hl wp s Hs) as [_ [m Hm]]. destruct (so_table _ _ Hl _ _ _ Hm) as (s' & Hs' & _ & Ha).
  rewrite Hs in Hs'. injection Hs' as <-. rewrite Hf, <- Ewf in Hm. exists m, wp. split; [done|].
  destruct (Ha Hen) as [->|[Hone _]]; unfold full_mask in *; rewrite Hev in *; [by vm_compute|]. by destruct Hone.
Qed.

(** The registry of a loop says all of this when the source is there. *)
Lemma ok_watched wp s w : ok w [] [] -> srcs w !! wp = Some s -> wakeup_like (wakeup_fd (loop w)) s -> 0 < max_events (loop w) -> watched wp (wakeup_fd (loop w)) w.
Proof.
  intros HO Hs Hg Hmax. destruct (ok_srcs _ _ _ HO) as [l Hl]. destruct (so_entry _ _ Hl wp s Hs) as [_ [m Hm]]. pose proof Hg as [Hf _].
  split; [|split; [rewrite <- Hf; eauto|done]]. split; [eauto|]. intros q s' Hq. unfold fits. case_decide as Hd; [congruence|].
  intros Hf'. destruct (so_entry _ _ Hl q s' Hq) as [_ [m' Hm']]. rewrite Hf', <- Hf in Hm'. congruence.
Qed.

(** So it does not stay in epoll_wait. *)
Lemma woken_not_blocked wp wfd timeout a w : ok w [] [] -> watched wp wfd w -> 0 < wakeup w -> blocked timeout a w = false.
Proof.
  intros HO HW Hw. unfold blocked. destruct (a_polled a) as [b|ready]; [done|].
  rewrite (bool_decide_eq_false_2 _ (woken_reports wp wfd w ready HO HW Hw)). apply andb_false_r.
Qed.
