(* ===== verification/EventSpec.v ===== *)
(** * What the event loop promises

    The theorems on reachable loops: the registry, the dispatch of events, deferred work
    and stopping; and the behaviours outside of them. *)

From S2P Require Import Prelude Common Links Event EventSafe EventRun EventWake.

(** ** The kernel *)

(** The table of the kernel as far as the sources [h] are concerned. *)
Definition table_ok (h : gmap Z qd_event_source) (e : gmap Z (Z * Z)) : Prop :=
  (forall fd m p, e !! fd = Some (m, p) -> exists s, h !! p = Some s /\ s_fd s = fd /\ armed s m) /\
  (forall p s, h !! p = Some s -> s_registered s = true /\ exists m, e !! s_fd s = Some (m, p)).

Lemma table_srcs w l e : srcs_ok w l -> table_ok (srcs w) e -> srcs_ok (set_epoll e w) l.
Proof. intros [W1 W2 W3 W4 W5 W6] [T1 T2]. by split. Qed.

Lemma armed_spent s m : armed s m -> Z.land m EPOLLONESHOT <> 0 -> armed s (Z.land m private_bits).
Proof.
  intros Ha Hm Hen. destruct (Ha Hen) as [->|[Hf ->]]; right; (split; [done|]); [done|].
  by rewrite <- Z.land_assoc, Z.land_diag.
Qed.

Lemma table_spent h e fd m p : table_ok h e -> e !! fd = Some (m, p) -> Z.land m EPOLLONESHOT <> 0 -> table_ok h (<[fd := (Z.land m private_bits, p)]> e).
Proof.
  intros [T1 T2] Hfd Hm. split.
  - intros fd' m' q. destruct (decide (fd' = fd)) as [->|]; [|rewrite lookup_insert_ne by done; apply T1].
    rewrite lookup_insert_eq. intros [= <- <-]. destruct (T1 fd m p Hfd) as (s & Hs & Hf & Ha). exists s. split; [done|]. split; [done|]. by apply armed_spent.
  - intros q s Hs. destruct (T2 q s Hs) as [Hr [m' Hm']]. split; [done|]. destruct (decide (s_fd s = fd)) as [E|]; [|exists m'; by rewrite lookup_insert_ne].
    rewrite E in *. rewrite lookup_insert_eq. rewrite Hm' in Hfd. injection Hfd as -> ->. eauto.
Qed.

Lemma epoll_wait_ok h ready : forall max e evs e', table_ok h e -> epoll_wait max ready e = (evs, e') ->
  table_ok h e' /\ NoDup evs.*1 /\ (forall x, x ∈ evs -> exists s, h !! x.1 = Some s /\ s_fd s ∈ ready.*1).
Proof.
  induction ready as [|[fd ev] ready IH]; intros max e evs e' HT E.
  { assert (evs = [] /\ e' = e) as [-> ->] by (destruct max; simpl in E; by injection E as <- <-). split; [done|]. split; [constructor|]. by intros x ?%not_elem_of_nil. }
  assert (forall evs' : list (Z * Z), (forall x, x ∈ evs' -> exists s, h !! x.1 = Some s /\ s_fd s ∈ ready.*1) ->
    forall x : Z * Z, x ∈ evs' -> exists s, h !! x.1 = Some s /\ s_fd s ∈ ((fd, ev) :: ready).*1) as Hmore.
  { intros evs' Hx x Hin. destruct (Hx x Hin) as (s & ? & ?). exists s. split; [done|by right]. }
  destruct max as [|max]; simpl in E; [injection E as <- <-; split; [done|]; split; [constructor|]; by intros x ?%not_elem_of_nil|].
  destruct (e !! fd) as [[m p]|] eqn:Hfd; [|destruct (IH _ _ _ _ HT E) as (? & ? & ?); eauto].
  destruct (negb _ && negb _) eqn:Ec; [|destruct (IH _ _ _ _ HT E) as (? & ? & ?); eauto].
  apply andb_prop in Ec as [_ Ec]. apply negb_true_iff, bool_decide_eq_false in Ec.
  destruct (epoll_wait max ready _) as [l e2] eqn:El. injection E as <- <-.
  assert (table_ok h (if Z.land m EPOLLONESHOT =? 0 then e else <[fd := (Z.land m private_bits, p)]> e)) as HT1.
  { destruct (Z.eqb_spec (Z.land m EPOLLONESHOT) 0); [done|by apply (table_spent h e fd m p)]. }
  destruct (IH _ _ _ _ HT1 El) as (HT2 & Hnd & Hx).
  destruct (proj1 HT fd m p Hfd) as (s & Hs & Hf & _). split; [done|]. split.
  - simpl. constructor; [|done]. intros (x & E1 & Hin)%list_elem_of_fmap. destruct (Hx x Hin) as (s' & Hs' & Hr). rewrite <- E1, Hs in Hs'.
    injection Hs' as <-. by rewrite Hf in Hr.
  - intros x [->|Hin]%elem_of_cons; [|by apply (Hmore l)]. exists s. split; [done|]. rewrite Hf. by left.
Qed.

Section iteration.
Context (behave : call -> world -> list op).
Hypothesis Hpolite : polite behave.

Lemma ok_counts w f : ok w [] [] ->
  (forall l, sources (f l) = sources l /\ num_sources (f l) = num_sources l /\ signal_handlers (f l) = signal_handlers l /\ pending_head (f l) = pending_head l /\ pending_tail (f l) = pending_tail l) ->
  ok (on_loop f w) [] [].
Proof.
  intros [[ls Hs] [lg Hg] [lk Hk] Hw] Hf. destruct (Hf (loop w)) as (E1 & E2 & E3 & E4 & E5).
  split; [exists ls; by eapply srcs_same|exists lg; by eapply sigs_ok_same|exists lk; by eapply works_ok_same|done].
Qed.

Lemma hook_sources (mk : Z -> Z -> call) (calls0 l : list call) :
  (forall x y, is_source (mk x y) = false) -> (forall c, c ∈ l -> exists x y, c = mk x y) -> source_calls (calls0 ++ l) = source_calls calls0.
Proof.
  intros Hm Hl. unfold source_calls. rewrite filter_app. replace (filter _ l) with (@nil call); [by rewrite app_nil_r|].
  induction l as [|c l IH]; [done|]. rewrite filter_cons_False; [apply IH; intros c' Hc'; apply Hl; by right|].
  destruct (Hl c ltac:(by left)) as (x & y & ->). by rewrite Hm.
Qed.

(** What is dispatched after the kernel's answer. *)
Definition reported (a : answer) (w : world) : list (Z * Z) :=
  match a_polled a with PError _ => [] | PReady ready => (poll_events w ready).1 end.

Lemma after_poll_ok a w : ok w [] [] ->
  exists c w', after_poll behave a w = Ok (c, w') /\ ok w' [] [] /\
    source_calls (calls w') = source_calls (calls w) ++ omap (expected w) (reported a w) /\
    (state (loop w) <> QD_LOOP_RUNNING -> state (loop w') <> QD_LOOP_RUNNING) /\ max_events (loop w') = max_events (loop w).
Proof.
  intros HO. unfold after_poll, reported. set (w0 := on_loop _ w). assert (ok w0 [] []) as HO0 by (by apply ok_counts).
  destruct (a_polled a) as [b|ready]; [eexists _, w0; split; [done|]; split; [done|]; split; [by rewrite app_nil_r|done]|].
  destruct (poll_events w ready) as [evs e'] eqn:Ee. destruct (ok_srcs _ _ _ HO) as [ls Hs].
  destruct (epoll_wait_ok (srcs w) (kernel_ready w ready) _ _ _ _ ltac:(split; [apply (so_table _ _ Hs)|apply (so_entry _ _ Hs)]) Ee) as (HT & Hnd & Hlive).
  destruct evs as [|x evs].
  - set (w1 := on_loop _ w0). assert (ok w1 [] []) as HO1 by (by apply ok_counts).
    destruct (hook_ok behave CIdle (idle_callback (loop w1)) w1 ltac:(done) HO1) as (w2 & -> & HO2 & [G1 G2 [G3 G4]] & _ & l & El & Hl).
    eexists _, w2. split; [done|]. split; [done|]. split; [|split; [exact G2|exact G3]]. simpl. rewrite app_nil_r, El. by apply (hook_sources CIdle).
  - assert (ok (set_epoll e' w0) [] []) as HO1.
    { destruct HO0 as [[l0 H0] [lg Hg] [lk Hk] Hw]. split; [exists l0; by apply table_srcs|exists lg; by eapply sigs_ok_same|exists lk; by eapply works_ok_same|done]. }
    destruct (dispatch_ok behave Hpolite (a_signo a) (x :: evs) (set_epoll e' w0) HO1 Hnd) as (w2 & -> & HO2 & L2 & S2 & M2 & D2).
    { intros y Hy. destruct (Hlive y Hy) as (s & Hys & _). by exists s. }
    cbn [obind]. destruct (hook_ok behave CPostPoll (post_poll_callback (loop w2)) w2 ltac:(done) HO2) as (w3 & -> & HO3 & [G1 G2 [G3 G4]] & _ & l & El & Hl).
    cbn [obind]. eexists _, _. split; [done|]. split; [by apply ok_counts|]. split; [|split; [simpl; auto|simpl; rewrite G3, M2; done]].
    simpl. rewrite El, (hook_sources CPostPoll) by done. rewrite L2. done.
Qed.

(** An iteration goes through unless its poll does not return. *)
Lemma run_once_ok timeout a w : ok w [] [] ->
  exists w1 c w2, before_poll behave timeout a w = Ok w1 /\ after_poll behave a w1 = Ok (c, w2) /\
    qd_event_loop_run_once behave timeout a w = (if blocked timeout a w1 then Fuel else Ok (c, w2)) /\ ok w1 [] [] /\ ok w2 [] [] /\
    (state (loop w) <> QD_LOOP_RUNNING \/ OStop ∈ a_others a -> state (loop w2) <> QD_LOOP_RUNNING) /\ max_events (loop w2) = max_events (loop w).
Proof.
  intros HO. unfold qd_event_loop_run_once. destruct (before_poll_ok behave timeout a w HO) as (w1 & -> & HO1 & _ & _ & S1 & M1 & _). cbn [obind].
  destruct (after_poll_ok a w1 HO1) as (c & w2 & E2 & HO2 & _ & S2 & M2). exists w1, c, w2. split; [done|]. split; [done|]. split; [by rewrite E2|].
  split; [done|]. split; [done|]. split; [auto|congruence].
Qed.

Lemma run_once_returns timeout a w c w' : ok w [] [] -> qd_event_loop_run_once behave timeout a w = Ok (c, w') ->
  exists w1, before_poll behave timeout a w = Ok w1 /\ after_poll behave a w1 = Ok (c, w') /\ ok w' [] [] /\ max_events (loop w') = max_events (loop w).
Proof.
  intros HO E. destruct (run_once_ok timeout a w HO) as (w1 & c' & w2 & E1 & E2 & E3 & _ & HO2 & _ & M). rewrite E in E3.
  destruct (blocked _ _ _); [done|]. injection E3 as -> ->. eauto 6.
Qed.
End iteration.

(** ** Reachable loops *)

Definition env_ok (e : create_env) : Prop :=
  Forall (fun a => 0 < a) (omap id [e_wakeup_source e; e_timer_source e; e_signal_source e]) /\
  NoDup (omap id [e_wakeup_source e; e_timer_source e; e_signal_source e]).

(** A loop after any calls of the API and any iterations. *)
Inductive reachable (behave : call -> world -> list op) : world -> Prop :=
| reach_create e config w : env_ok e -> qd_event_loop_create_ex e config = Ok (Some w) -> reachable behave w
| reach_calls l w w' : reachable behave w -> run_ops l w = Ok w' -> reachable behave w'
| reach_iteration timeout a w w1 c w' : reachable behave w -> before_poll behave timeout a w = Ok w1 -> after_poll behave a w1 = Ok (c, w') -> reachable behave w'
| reach_run l w c w' : reachable behave w -> qd_event_loop_run behave l w = Ok (c, w') -> reachable behave w'.

Lemma empty_ok l : sources l = 0 -> num_sources l = 0 -> signal_handlers l = 0 -> pending_head l = 0 -> pending_tail l = 0 -> ok (mkWorld l ∅ ∅ ∅ ∅ 0 [] []) [] [].
Proof.
  intros E1 E2 E3 E4 E5. split; [exists []|exists []|exists []|done].
  - split; simpl; try done.
    + constructor.
    + intros p. rewrite lookup_empty. split; [by intros ?%not_elem_of_nil|by intros [? ?]].
  - split; simpl; try done.
    + constructor.
    + intros p. rewrite lookup_empty. split; [by intros ?%not_elem_of_nil|by intros [? ?]].
  - split; simpl; try done.
    + constructor.
    + intros p. rewrite lookup_empty. split; [by intros ?%not_elem_of_nil|by intros [? ?]].
Qed.

Lemma add_internal_ok a fd cb w : ok w [] [] -> match a with Some p => fresh (srcs w) p = true | None => True end ->
  exists w', add_internal a fd cb w = Ok w' /\ ok w' [] [] /\ (forall q, srcs w !! q = None -> a <> Some q -> srcs w' !! q = None).
Proof.
  intros HO Ha. unfold add_internal. destruct (fd =? -1); [eauto|].
  destruct HO as [[ls Hs] [lg Hg] [lk Hk] Hw]. destruct (qd_event_add_ok w ls a true fd QD_EVENT_READ cb 0 Hs Ha) as (r & w' & l' & E & Hs' & [S1 S2 S3 S4 S5 S6 S7]).
  rewrite E. cbn [obind]. exists w'. split; [done|]. split.
  - split; [eauto|exists lg; eapply sigs_ok_same; [done|done|by rewrite S6]|exists lk; eapply works_ok_same; [done|done|by rewrite S6|by rewrite S6|by rewrite S5|done]|by rewrite S3].
  - intros q Hq Hne. unfold qd_event_add in E. destruct (fd <? 0); [by injection E as <- <-|]. destruct a as [p|]; [|by injection E as <- <-].
    destruct (epoll_add _ _ _ _ _); [|by injection E as <- <-]. apply obind_ok in E as (w1 & E1 & E2). injection E2 as <- <-. simpl.
    assert (q <> p) as Hqp by congruence. destruct (negb _) eqn:En.
    + apply obind_ok in E1 as (s & Es & E1). injection E1 as <-. unfold read_source in Es. simpl in Es.
      destruct (<[p := _]> (srcs w) !! sources (loop w)) as [y|] eqn:Ey; [|done]. simpl.
      rewrite lookup_insert_ne; [by rewrite lookup_insert_ne|]. intros <-. rewrite lookup_insert_ne in Ey by done. congruence.
    + injection E1 as <-. simpl. by rewrite lookup_insert_ne.
Qed.

Lemma add_internal_config a fd cb w w' : add_internal a fd cb w = Ok w' -> max_events (loop w') = max_events (loop w).
Proof.
  intros E. unfold add_internal in E. destruct (fd =? -1); [by injection E as <-|]. apply obind_ok in E as ([c w1] & E1 & E). injection E as <-.
  unfold qd_event_add in E1. destruct (fd <? 0); [by injection E1 as _ <-|]. destruct a; [|by injection E1 as _ <-].
  destruct (epoll_add _ _ _ _ _); [|by injection E1 as _ <-]. apply obind_ok in E1 as (w2 & E1 & E2). injection E2 as _ <-.
  destruct (negb _); [apply obind_ok in E1 as (s & _ & E1)|]; by injection E1 as <-.
Qed.

Lemma loop_create_ok e config w : env_ok e -> qd_event_loop_create_ex e config = Ok (Some w) -> ok w [] [].
Proof.
  intros [Hpos Hnd] E. unfold qd_event_loop_create_ex in E. destruct (_ || _); [done|].
  set (w0 := mkWorld _ _ _ _ _ _ _ _) in E. assert (ok w0 [] []) as H0 by (by apply empty_ok).
  destruct e as [eok f1 f2 f3 a1 a2 a3]. simpl in *.
  assert (forall a, match a with Some p => 0 < p | None => True end -> match a with Some p => fresh (srcs w0) p = true | None => True end) as Hf.
  { intros [p|] Hp; [|done]. unfold fresh. simpl. rewrite lookup_empty, bool_decide_eq_true_2 by done. lia. }
  assert (match a1 with Some p => 0 < p | None => True end /\ match a2 with Some p => 0 < p | None => True end /\ match a3 with Some p => 0 < p | None => True end) as (P1 & P2 & P3).
  { destruct a1, a2, a3; simpl in Hpos; repeat (apply Forall_cons in Hpos as [? Hpos]); done. }
  destruct (add_internal_ok a1 f1 wakeup_callback w0 H0 (Hf a1 P1)) as (w1 & E1 & H1 & N1). rewrite E1 in E. cbn [obind] in E.
  assert (forall q, a1 <> Some q -> srcs w1 !! q = None) as F1 by (intros q Hq; apply N1; [apply lookup_empty|done]).
  destruct (add_internal_ok a2 f2 timer_callback w1 H1) as (w2 & E2 & H2 & N2).
  { destruct a2 as [p|]; [|done]. unfold fresh. rewrite F1, bool_decide_eq_true_2 by (done || (intros ->; by apply NoDup_cons in Hnd as [Hx _]; apply Hx; left)). lia. }
  rewrite E2 in E. cbn [obind] in E.
  destruct (add_internal_ok a3 (if lc_enable_signals config then f3 else -1) signal_callback w2 H2) as (w3 & E3 & H3 & _).
  { destruct a3 as [p|]; [|done]. assert (a1 <> Some p /\ a2 <> Some p) as [Hn1 Hn2].
    { split; intros ->; simpl in Hnd; [|destruct a1; simpl in Hnd; [apply NoDup_cons in Hnd as [_ Hnd]|]]; apply NoDup_cons in Hnd as [Hx _]; apply Hx; [destruct a2; [right; by left|by left]|by left|by left]. }
    unfold fresh. rewrite N2, bool_decide_eq_true_2 by (done || by apply F1). lia. }
  rewrite E3 in E. cbn [obind] in E. by injection E as <-.
Qed.

Lemma run_loop_ok behave l : polite behave -> forall w w', ok w [] [] -> run_loop behave l w = Ok w' -> ok w' [] [] /\ max_events (loop w') = max_events (loop w).
Proof.
  intros Hp. induction l as [|a l IH]; intros w w' HO E; simpl in E; (destruct (negb _); [by injection E as <-|]); [done|].
  apply obind_ok in E as ([c w1] & E1 & E2). destruct (run_once_returns behave Hp _ a w c w1 HO E1) as (_ & _ & _ & HO2 & M). destruct (_ && _); [by injection E2 as <-|]. rewrite <- M. by apply IH.
Qed.

Lemma ok_state w x : ok w [] [] -> ok (on_loop (set_state x) w) [] [].
Proof. intros HO. by apply ok_counts. Qed.

Lemma create_max e config w : qd_event_loop_create_ex e config = Ok (Some w) -> 0 < max_events (loop w).
Proof.
  intros E. unfold qd_event_loop_create_ex in E. destruct (_ || _); [done|].
  apply obind_ok in E as (w1 & E1 & E). apply obind_ok in E as (w2 & E2 & E). apply obind_ok in E as (w3 & E3 & E). injection E as <-.
  rewrite (add_internal_config _ _ _ _ _ E3), (add_internal_config _ _ _ _ _ E2), (add_internal_config _ _ _ _ _ E1). simpl.
  destruct (Z.ltb_spec 0 (lc_max_events config)); lia.
Qed.

Lemma reachable_fine behave w : polite behave -> reachable behave w -> ok w [] [] /\ 0 < max_events (loop w).
Proof.
  intros Hp Hr. induction Hr as [e config w He E|l w w' _ [IH M] E|timeout a w w1 c w' _ [IH M] E1 E2|l w c w' _ [IH M] E].
  - split; [by eapply loop_create_ok|by eapply create_max].
  - destruct (run_ops_ok l w [] [] IH ltac:(done)) as (w2 & E2 & HO2 & K). rewrite E in E2. injection E2 as <-. split; [done|]. by rewrite (proj1 (kp_config _ _ _ _ K)).
  - destruct (run_once_ok behave Hp timeout a w IH) as (w1' & c' & w2 & E3 & E4 & _ & _ & HO2 & _ & M2). rewrite E1 in E3. injection E3 as <-.
    rewrite E2 in E4. injection E4 as <- <-. split; [done|]. by rewrite M2.
  - unfold qd_event_loop_run in E. apply obind_ok in E as (w1 & E1 & E2). injection E2 as <- <-.
    destruct (run_loop_ok behave l Hp _ _ (ok_state _ QD_LOOP_RUNNING IH) E1) as [HO1 M1]. split; [by apply ok_state|]. simpl. by rewrite M1.
Qed.

Lemma loop_reachable_ok behave w : polite behave -> reachable behave w -> ok w [] [].
Proof. intros Hp Hr. by apply (reachable_fine behave). Qed.

(** ** The theorems *)

(** Whatever the calls and iterations so far, the list the loop keeps of its sources is
    properly linked both ways and holds exactly the live sources, their number is counted,
    the table of the kernel has exactly one entry for each, under its descriptor and with
    its address, and an enabled source is registered for its events. *)
Theorem event_registry behave w :
  polite behave -> reachable behave w ->
  exists l, dchain s_next s_prev (srcs w) (sources (loop w)) l /\ NoDup l /\ (forall p, p ∈ l <-> is_Some (srcs w !! p)) /\
    num_sources (loop w) = i32 (Z.of_nat (length l)) /\
    (forall fd m p, epoll w !! fd = Some (m, p) -> exists s, srcs w !! p = Some s /\ s_fd s = fd /\ armed s m) /\
    (forall p s, srcs w !! p = Some s -> exists m, epoll w !! s_fd s = Some (m, p)).
Proof.
  intros Hp Hr. destruct (ok_srcs _ _ _ (loop_reachable_ok behave w Hp Hr)) as [l [W1 W2 W3 W4 W5 W6]]. exists l.
  split; [done|]. split; [done|]. split; [done|]. split; [done|]. split; [done|]. intros p s Hs. by apply W6.
Qed.

(** C24: An iteration of a reachable loop never touches memory that is gone, and every
    event that epoll_wait reports calls the callback of its source, once, in the order of
    the report, with the descriptor, the converted events and the argument it was
    registered with; only events of disabled sources are passed over. *)
Theorem event_dispatch behave timeout a w :
  polite behave -> reachable behave w ->
  exists w1 c w2, before_poll behave timeout a w = Ok w1 /\ after_poll behave a w1 = Ok (c, w2) /\ reachable behave w2 /\
    source_calls (calls w2) = source_calls (calls w1) ++ omap (expected w1) (reported a w1) /\ NoDup (reported a w1).*1 /\
    (forall x, x ∈ reported a w1 -> exists s, srcs w1 !! x.1 = Some s).
Proof.
  intros Hp Hr. pose proof (loop_reachable_ok behave w Hp Hr) as HO. destruct (before_poll_ok behave timeout a w HO) as (w1 & E1 & HO1 & _).
  destruct (after_poll_ok behave Hp a w1 HO1) as (c & w2 & E2 & HO2 & L & _). exists w1, c, w2. split; [done|]. split; [done|].
  split; [by eapply (reach_iteration behave timeout a w w1 c)|]. split; [done|].
  unfold reported. destruct (a_polled a) as [b|ready]; [split; [constructor|]; by intros x ?%not_elem_of_nil|].
  destruct (poll_events w1 ready) as [evs e'] eqn:Ee. destruct (ok_srcs _ _ _ HO1) as [ls Hs].
  destruct (epoll_wait_ok (srcs w1) (kernel_ready w1 ready) _ _ _ _ ltac:(split; [apply (so_table _ _ Hs)|apply (so_entry _ _ Hs)]) Ee) as (_ & Hnd & Hlive).
  split; [done|]. intros x Hx. destruct (Hlive x Hx) as (s & ? & _). eauto.
Qed.


(** ** Stopping *)

(** The iterations of qd_event_loop_run that have returned so far. *)
Inductive iterated (behave : call -> world -> list op) (w : world) : list answer -> world -> Prop :=
| iterated_none : iterated behave w [] w
| iterated_more l a w1 c w2 : iterated behave w l w1 -> qd_event_loop_is_running w1 = true ->
    qd_event_loop_run_once behave (default_timeout (loop w1)) a w1 = Ok (c, w2) -> c = QD_OK \/ c = QD_ERR_TIMEOUT -> iterated behave w (l ++ [a]) w2.

Lemma iterated_runs behave w l w1 : iterated behave w l w1 -> forall l2, run_loop behave (l ++ l2) w = run_loop behave l2 w1.
Proof.
  induction 1 as [|l a w1 c w2 _ IH Hrun E Hc]; intros l2; [done|]. rewrite <- app_assoc, IH. simpl. rewrite Hrun, E. cbn [negb obind]. by destruct Hc as [->| ->].
Qed.

(** No callback and no other thread changes or removes the wakeup source. *)
Definition all_spare (wp wfd : Z) (behave : call -> world -> list op) (l : list answer) : Prop :=
  spares wp wfd behave /\ forall a o, a ∈ l -> o ∈ a_others a -> ~ targets wp wfd o.

Lemma iterated_fine behave wp wfd w l w1 : polite behave -> all_spare wp wfd behave l -> ok w [] [] -> watched wp wfd w ->
  iterated behave w l w1 -> ok w1 [] [] /\ watched wp wfd w1.
Proof.
  intros Hp [Hb Hl] HO HW. induction 1 as [|l a w1 c w2 _ IH Hrun E Hc]; [done|].
  destruct IH as [HO1 HW1]; [intros b o Hb' Ho; apply (Hl b); [apply elem_of_app; by left|done]|].
  destruct (run_once_returns behave Hp _ a w1 c w2 HO1 E) as (w3 & E1 & E2 & HO2 & _). split; [done|].
  eapply after_poll_watched; [exact Hb| |exact E2]. eapply before_poll_watched; [exact Hb| |exact HW1|exact E1].
  intros o. apply Hl. apply elem_of_app. right. by left.
Qed.

(** The iteration in which another thread stops the loop gets out of its poll and is the
    last one. *)
Lemma stopped_iteration behave wp wfd a w : polite behave -> all_spare wp wfd behave [a] -> ok w [] [] -> watched wp wfd w -> OStop ∈ a_others a ->
  exists c w2, qd_event_loop_run_once behave (default_timeout (loop w)) a w = Ok (c, w2) /\ qd_event_loop_is_running w2 = false.
Proof.
  intros Hp [Hb Hl] HO HW Ha. destruct (run_once_ok behave Hp (default_timeout (loop w)) a w HO) as (w1 & c & w2 & E1 & E2 & E3 & HO1 & HO2 & Hst & _).
  destruct (before_poll_ok behave (default_timeout (loop w)) a w HO) as (w1' & E1' & _ & _ & _ & _ & _ & _ & Hwk). rewrite E1 in E1'. injection E1' as <-.
  exists c, w2. rewrite E3, (woken_not_blocked wp wfd); [|done| |by apply Hwk].
  - split; [done|]. unfold qd_event_loop_is_running. destruct (Z.eqb_spec (state (loop w2)) QD_LOOP_RUNNING); [|done]. by destruct (Hst ltac:(by right)).
  - eapply before_poll_watched; [exact Hb| |exact HW|exact E1]. intros o. apply Hl. by left.
Qed.

(** C26: Qd_event_loop_run returns once another thread has called qd_event_loop_stop while
    an iteration was under way, even if epoll_wait has no timeout and nothing else ever
    becomes ready: the wakeup descriptor makes the poll return, and that iteration is the
    last one.  The wakeup source must have been registered and nobody may change or remove
    it, and the callbacks are polite. *)
Theorem stop_ends_run behave wp s l1 a l2 w w1 :
  polite behave -> reachable behave w -> srcs w !! wp = Some s -> wakeup_like (wakeup_fd (loop w)) s -> all_spare wp (wakeup_fd (loop w)) behave (l1 ++ [a]) ->
  iterated behave (on_loop (set_state QD_LOOP_RUNNING) w) l1 w1 -> OStop ∈ a_others a ->
  exists w', qd_event_loop_run behave (l1 ++ a :: l2) w = Ok (QD_OK, w') /\ state (loop w') = QD_LOOP_STOPPED.
Proof.
  intros Hp Hr Hs Hg [Hb Hl] Hit Ha. destruct (reachable_fine behave w Hp Hr) as [HO Hmax]. pose proof (ok_watched wp s w HO Hs Hg Hmax) as HW.
  unfold qd_event_loop_run.
  destruct (iterated_fine behave wp (wakeup_fd (loop w)) (on_loop (set_state QD_LOOP_RUNNING) w) l1 w1 Hp) as [HO1 HW1];
    [|by apply ok_state|by eapply watched_step|exact Hit|].
  { split; [done|]. intros b o Hb' Ho. apply (Hl b); [apply elem_of_app; by left|done]. }
  destruct (stopped_iteration behave wp (wakeup_fd (loop w)) a w1 Hp) as (c & w2 & E & Hns); [|done|done|done|].
  { split; [done|]. intros b o ->%list_elem_of_singleton Ho. apply (Hl a); [apply elem_of_app; right; by left|done]. }
  rewrite (iterated_runs _ _ _ _ Hit). simpl. destruct (negb (qd_event_loop_is_running w1)); [cbn [obind]; eauto|]. rewrite E. cbn [obind].
  destruct (_ && _); [cbn [obind]; eauto|]. destruct l2; simpl; rewrite Hns; cbn [negb obind]; eauto.
Qed.

(** The conversion of flags gives back what epoll reports of the events that were asked for. *)
Theorem event_flags_back events : 0 <= events < 0x20 -> from_epoll_events (to_epoll_events events) = events.
Proof.
  intros He. assert (forallb (fun e => from_epoll_events (to_epoll_events e) =? e) (seqZ 0 32) = true) as H by (vm_compute; reflexivity).
  rewrite forallb_forall in H. apply Z.eqb_eq, H, list_elem_of_In, elem_of_seqZ. lia.
Qed.

(** *** A loop with two sources *)

(** The callback 7 defers a function and removes its own source. *)
Definition demo_behave (c : call) (w : world) : list op :=
  match c with CSource p 7 _ _ arg => [ODefer (Some 900) 50 arg; ODel p] | _ => [] end.

Lemma demo_polite : polite demo_behave.
Proof.
  intros c w o Ho. destruct c; try by apply not_elem_of_nil in Ho. simpl in Ho.
  destruct (decide (callback = 7)) as [->|Hne].
  - rewrite !elem_of_cons, elem_of_nil in Ho. by destruct Ho as [->|[->|[]]].
  - assert (match callback with 7 => [ODefer (Some 900) 50 arg; ODel source] | _ => [] end = []) as E.
    { destruct callback as [|q|]; [done| |done]. destruct q as [q|q|]; [|done|done]. destruct q as [q|q|]; [|done|done]. by destruct q. }
    rewrite E in Ho. by apply not_elem_of_nil in Ho.
Qed.

Definition demo_env : create_env := mkEnv true 3 4 (-1) (Some 100) (Some 200) None.
Definition demo_empty : world := mkWorld (mkLoop 0 0 0 0 0 0 0 (0, 0) (0, 0) (0, 0) 0 0 0 0 0 0) ∅ ∅ ∅ ∅ 0 [] [].
Definition demo_new : world := match qd_event_loop_create demo_env with Ok (Some w) => w | _ => demo_empty end.
Definition demo_ops : list op :=
  [OAdd (Some 300) true 10 QD_EVENT_READ 7 1; OAdd (Some 400) true 11 QD_EVENT_WRITE 8 2; ODefer (Some 800) 51 5].
Definition demo_loop : world := match run_ops demo_ops demo_new with Ok w => w | _ => demo_empty end.
Definition demo_answer : answer := mkAnswer (-1) [OWakeup] (PReady [(10, EPOLLIN); (11, Z.lor EPOLLIN EPOLLOUT); (3, EPOLLIN)]) None.

Lemma demo_loop_reachable : reachable demo_behave demo_loop.
Proof.
  apply (reach_calls _ demo_ops demo_new); [|vm_compute; reflexivity].
  apply (reach_create _ demo_env (mkLoopConfig 1024 (-1) true)); [|vm_compute; reflexivity].
  split; simpl; [repeat constructor; lia|]. repeat constructor; set_solver.
Qed.

Lemma event_registry_witness :
  exists l, dchain s_next s_prev (srcs demo_loop) (sources (loop demo_loop)) l /\ (400 ∈ l) /\ num_sources (loop demo_loop) = 4.
Proof.
  destruct (event_registry demo_behave demo_loop demo_polite demo_loop_reachable) as (l & Hd & _ & Hl & _). exists l. split; [exact Hd|].
  split; [apply Hl; vm_compute; eauto|vm_compute; reflexivity].
Defined.

Lemma event_dispatch_witness :
  exists w1 w2, before_poll demo_behave (-1) demo_answer demo_loop = Ok w1 /\ after_poll demo_behave demo_answer w1 = Ok (QD_OK, w2) /\
    source_calls (calls w2) = source_calls (calls w1) ++ [CSource 300 7 10 QD_EVENT_READ 1; CSource 400 8 11 QD_EVENT_WRITE 2].
Proof.
  destruct (event_dispatch demo_behave (-1) demo_answer demo_loop demo_polite demo_loop_reachable) as (w1 & c & w2 & E1 & E2 & _ & L & _).
  exists w1, w2. split; [exact E1|]. vm_compute in E1. injection E1 as <-. pose proof E2 as E3. vm_compute in E3. injection E3 as <- _.
  split; [exact E2|]. rewrite L. vm_compute. reflexivity.
Defined.


(** Nothing is ready but what the wakeup descriptor says. *)
Definition nothing : answer := mkAnswer (-1) [] (PReady []) None.
Definition stopped_outside : answer := mkAnswer (-1) [OStop] (PReady []) None.

Lemma demo_spares : all_spare 100 3 demo_behave [demo_answer; stopped_outside].
Proof.
  split.
  - intros c w o Ho Hc. destruct c; try by apply not_elem_of_nil in Ho. simpl in Ho, Hc.
    assert (o ∈ [ODefer (Some 900) 50 arg; ODel source]) as Ho'.
    { destruct callback as [|q|]; [by apply not_elem_of_nil in Ho| |by apply not_elem_of_nil in Ho]. do 3 (destruct q as [q|q|]; try by apply not_elem_of_nil in Ho). done. }
    rewrite !elem_of_cons, elem_of_nil in Ho'. destruct Ho' as [->|[->|[]]]; simpl; tauto.
  - intros a o. rewrite !elem_of_cons, elem_of_nil. intros [->|[->|[]]]; simpl; intros ->%list_elem_of_singleton; simpl; tauto.
Qed.

(** Every descriptor is silent in the last iteration, and the loop has no timeout. *)
Lemma stop_ends_run_witness :
  exists w', qd_event_loop_run demo_behave [demo_answer; stopped_outside] demo_loop = Ok (QD_OK, w').
Proof.
  destruct (stop_ends_run demo_behave 100 (mkSource 3 QD_EVENT_READ 0 wakeup_callback 0 true true 0 200) [demo_answer] stopped_outside [] demo_loop
    (match qd_event_loop_run_once demo_behave (-1) demo_answer (on_loop (set_state QD_LOOP_RUNNING) demo_loop) with Ok (_, w) => w | _ => demo_loop end)
    demo_polite demo_loop_reachable) as (w' & E & _).
  - vm_compute. reflexivity.
  - vm_compute. tauto.
  - exact demo_spares.
  - apply (iterated_more _ _ [] demo_answer (on_loop (set_state QD_LOOP_RUNNING) demo_loop) QD_OK);
      [constructor|vm_compute; reflexivity|vm_compute; reflexivity|by left].
  - simpl. by left.
  - exists w'. exact E.
Defined.

(** ** Outside of the promises *)

(** A callback that removes another source of the same report makes the loop read the
    freed source. *)
Definition rude_behave (c : call) (w : world) : list op :=
  match c with CSource _ 7 _ _ _ => [ODel 400] | _ => [] end.

Theorem removed_source_is_read : qd_event_loop_run_once rude_behave (-1) demo_answer demo_loop = Undef.
Proof. vm_compute. reflexivity. Qed.

(** A signal handler that removes itself is read after it was freed. *)
Theorem handler_removes_itself :
  match run_ops [OAddSignal (Some 600) 15 9 0] demo_loop with
  | Ok w => signal_loop (fun c _ => match c with CSignal _ n _ => [ODelSignal n] | _ => [] end) 5 15 (signal_handlers (loop w)) w
  | _ => Fuel end = Undef.
Proof. vm_compute. reflexivity. Qed.

(** A stop before qd_event_loop_run is forgotten: the first iteration takes the wakeup off
    the descriptor and the second one waits for ever. *)
Theorem early_stop_is_lost :
  exists w, run_ops [OStop] demo_new = Ok w /\ forall n, qd_event_loop_run demo_behave (replicate n nothing) w = Fuel.
Proof. eexists. split; [vm_compute; reflexivity|]. intros [|[|n]]; vm_compute; reflexivity. Qed.

(** qd_event_mod puts the events of a disabled source back into the table: the kernel
    reports them again and again, and the loop passes them over. *)
Theorem disabled_source_is_reported :
  exists w, run_ops [ODisable 300; OMod 300 QD_EVENT_READ] demo_loop = Ok w /\ reported demo_answer w = [(300, EPOLLIN); (400, EPOLLOUT); (100, EPOLLIN)] /\
    expected w (300, EPOLLIN) = None.
Proof. eexists. split; [vm_compute; reflexivity|]. split; vm_compute; reflexivity. Qed.
