(* ===== verification/DhcpOption.v ===== *)
(** * examples/dhcp/src/dhcp_option.c, with the option helpers of dhcp_protocol.h

    The builder that packs DHCP options into a 308-byte buffer, the parser, the queries on
    a received packet and the relay agent information (option 82).  An option is code,
    length, data; code 0 pads and code 255 ends the list.  The pointers the functions test
    against NULL are those of existing objects here, except where NULL is a meaningful
    argument; a position in an array is far below 2^64, so the sums of positions do not wrap. *)

From S2P Require Import Prelude Common Bytes.

(** ** dhcp_protocol.h *)

Definition DHCP_OPT_PAD : Z := 0.
Definition DHCP_OPT_SUBNET_MASK : Z := 1.
Definition DHCP_OPT_ROUTER : Z := 3.
Definition DHCP_OPT_DNS : Z := 6.
Definition DHCP_OPT_HOSTNAME : Z := 12.
Definition DHCP_OPT_DOMAIN : Z := 15.
Definition DHCP_OPT_BROADCAST : Z := 28.
Definition DHCP_OPT_REQUESTED_IP : Z := 50.
Definition DHCP_OPT_LEASE_TIME : Z := 51.
Definition DHCP_OPT_MSG_TYPE : Z := 53.
Definition DHCP_OPT_SERVER_ID : Z := 54.
Definition DHCP_OPT_PARAM_LIST : Z := 55.
Definition DHCP_OPT_MESSAGE : Z := 56.
Definition DHCP_OPT_RENEWAL_TIME : Z := 58.
Definition DHCP_OPT_REBIND_TIME : Z := 59.
Definition DHCP_OPT_CLIENT_ID : Z := 61.
Definition DHCP_OPT_RELAY_AGENT : Z := 82.
Definition DHCP_OPT_END : Z := 255.
Definition DHCP_RAI_CIRCUIT_ID : Z := 1.
Definition DHCP_RAI_REMOTE_ID : Z := 2.
Definition DHCP_RAI_LINK_SELECTION : Z := 5.
Definition DHCP_MAX_OPTIONS_SIZE : Z := 308.

(** The packed packet; [options] is its last member, so reading past it leaves the object. *)
Record dhcp_packet := mkPacket {
  op : Z; htype : Z; hlen : Z; hops : Z;
  xid : Z; secs : Z; flags : Z;
  ciaddr : Z; yiaddr : Z; siaddr : Z; giaddr : Z;
  chaddr : list Z; sname : list Z; file : list Z;
  magic : Z;
  options : list Z
}.

Definition set_options (o : list Z) (p : dhcp_packet) : dhcp_packet :=
  mkPacket (op p) (htype p) (hlen p) (hops p) (xid p) (secs p) (flags p) (ciaddr p) (yiaddr p)
    (siaddr p) (giaddr p) (chaddr p) (sname p) (file p) (magic p) o.

(** ** The builder *)

Record dhcp_option_list := mkList { buffer : list Z; offset : Z; count : Z; finalized : bool }.

Definition dhcp_option_list_init : dhcp_option_list := mkList (zeros DHCP_MAX_OPTIONS_SIZE) 0 0 false.

Definition dhcp_option_list_create (calloc_ok : bool) : option dhcp_option_list :=
  if calloc_ok then Some dhcp_option_list_init else None.

Definition dhcp_option_list_reset (l : dhcp_option_list) : dhcp_option_list := mkList (buffer l) 0 0 false.

(** [memcpy(&list->buffer[list->offset], bytes, n); list->offset += n]; with one byte,
    [list->buffer[list->offset++] = b]. *)
Definition put (l : dhcp_option_list) (bytes : list Z) : outcome dhcp_option_list :=
  let! b := store (buffer l) (offset l) bytes in
  Ok (mkList b (offset l + Z.of_nat (length bytes)) (count l) (finalized l)).

Definition incr_count (l : dhcp_option_list) : dhcp_option_list :=
  mkList (buffer l) (offset l) (count l + 1) (finalized l).

(** [data]: the block the caller's pointer refers to, or NULL. *)
Definition dhcp_option_add (l : dhcp_option_list) (code : Z) (data : option (list Z)) (len : Z)
  : outcome (Z * dhcp_option_list) :=
  if finalized l then Ok (-1, l) else
  if DHCP_MAX_OPTIONS_SIZE - 1 <? offset l + 2 + len then Ok (-1, l) else
  let! l := put l [code] in
  let! l := put l [len] in
  let! l :=
    match data with
    | Some d => if 0 <? len then let! bytes := load d 0 len in put l bytes else Ok l
    | None => Ok l
    end in
  Ok (0, incr_count l).

Definition dhcp_option_add_byte (l : dhcp_option_list) (code value : Z) : outcome (Z * dhcp_option_list) :=
  dhcp_option_add l code (Some [value]) 1.

Definition dhcp_option_add_u16 (l : dhcp_option_list) (code value : Z) : outcome (Z * dhcp_option_list) :=
  dhcp_option_add l code (Some (le 2 (htons value))) 2.

Definition dhcp_option_add_u32 (l : dhcp_option_list) (code value : Z) : outcome (Z * dhcp_option_list) :=
  dhcp_option_add l code (Some (le 4 (htonl value))) 4.

Definition dhcp_option_add_ip (l : dhcp_option_list) (code ip : Z) : outcome (Z * dhcp_option_list) :=
  dhcp_option_add l code (Some (le 4 ip)) 4.

(** [ips]: the array, [n] the count the caller passes. *)
Definition dhcp_option_add_ips (l : dhcp_option_list) (code : Z) (ips : list Z) (n : Z)
  : outcome (Z * dhcp_option_list) :=
  if (n <=? 0) || (63 <? n) then Ok (-1, l) else
  dhcp_option_add l code (Some (ips ≫= le 4)) (u8 (n * 4)).

(** [str]: the string without its terminating zero, or NULL. *)
Definition dhcp_option_add_string (l : dhcp_option_list) (code : Z) (str : option (list Z))
  : outcome (Z * dhcp_option_list) :=
  match str with
  | None => Ok (-1, l)
  | Some s =>
    let len := Z.of_nat (length s) in
    let len := if 255 <? len then 255 else len in
    dhcp_option_add l code (Some (s ++ [0])) (u8 len)
  end.

(** *** Standard options *)

Definition dhcp_option_add_msg_type l (type : Z) := dhcp_option_add_byte l DHCP_OPT_MSG_TYPE type.
Definition dhcp_option_add_server_id l (ip : Z) := dhcp_option_add_ip l DHCP_OPT_SERVER_ID ip.
Definition dhcp_option_add_lease_time l (seconds : Z) := dhcp_option_add_u32 l DHCP_OPT_LEASE_TIME seconds.
Definition dhcp_option_add_subnet_mask l (mask : Z) := dhcp_option_add_ip l DHCP_OPT_SUBNET_MASK mask.
Definition dhcp_option_add_router l (ip : Z) := dhcp_option_add_ip l DHCP_OPT_ROUTER ip.
Definition dhcp_option_add_routers l (ips : list Z) (n : Z) := dhcp_option_add_ips l DHCP_OPT_ROUTER ips n.
Definition dhcp_option_add_dns l (servers : list Z) (n : Z) := dhcp_option_add_ips l DHCP_OPT_DNS servers n.
Definition dhcp_option_add_domain l (s : option (list Z)) := dhcp_option_add_string l DHCP_OPT_DOMAIN s.
Definition dhcp_option_add_hostname l (s : option (list Z)) := dhcp_option_add_string l DHCP_OPT_HOSTNAME s.
Definition dhcp_option_add_broadcast l (addr : Z) := dhcp_option_add_ip l DHCP_OPT_BROADCAST addr.
Definition dhcp_option_add_renewal_time l (seconds : Z) := dhcp_option_add_u32 l DHCP_OPT_RENEWAL_TIME seconds.
Definition dhcp_option_add_rebind_time l (seconds : Z) := dhcp_option_add_u32 l DHCP_OPT_REBIND_TIME seconds.
Definition dhcp_option_add_requested_ip l (ip : Z) := dhcp_option_add_ip l DHCP_OPT_REQUESTED_IP ip.
Definition dhcp_option_add_message l (s : option (list Z)) := dhcp_option_add_string l DHCP_OPT_MESSAGE s.

Definition dhcp_option_add_client_id (l : dhcp_option_list) (id : option (list Z)) (len : Z)
  : outcome (Z * dhcp_option_list) :=
  if 255 <? len then Ok (-1, l) else dhcp_option_add l DHCP_OPT_CLIENT_ID id (u8 len).

(** [n] is an [int]. *)
Definition dhcp_option_add_param_request (l : dhcp_option_list) (params : option (list Z)) (n : Z)
  : outcome (Z * dhcp_option_list) :=
  if 255 <? n then Ok (-1, l) else dhcp_option_add l DHCP_OPT_PARAM_LIST params (u8 n).

(** *** Relay agent information *)

(** A sub-option is written when it has a pointer and a length. *)
Definition sub_present (id : option (list Z)) (len : Z) : option (list Z) :=
  if 0 <? len then id else None.

Definition sub_total (total : Z) (id : option (list Z)) (len : Z) : Z :=
  match sub_present id len with Some _ => total +64 (2 +64 len) | None => total end.

Definition put_sub (l : dhcp_option_list) (code : Z) (id : option (list Z)) (len : Z) : outcome dhcp_option_list :=
  match sub_present id len with
  | None => Ok l
  | Some d =>
    let! l := put l [code] in
    let! l := put l [u8 len] in
    let! bytes := load d 0 len in
    put l bytes
  end.

Definition dhcp_option_add_relay_info_ex (l : dhcp_option_list) (circuit_id : option (list Z)) (circuit_len : Z)
  (remote_id : option (list Z)) (remote_len : Z) (link_sel : option (list Z)) (link_sel_len : Z)
  : outcome (Z * dhcp_option_list) :=
  if finalized l then Ok (-1, l) else
  let total_len := sub_total 0 circuit_id circuit_len in
  let total_len := sub_total total_len remote_id remote_len in
  let total_len := sub_total total_len link_sel link_sel_len in
  if (total_len =? 0) || (255 <? total_len) then Ok (-1, l) else
  if DHCP_MAX_OPTIONS_SIZE - 1 <? offset l + 2 + total_len then Ok (-1, l) else
  let! l := put l [DHCP_OPT_RELAY_AGENT] in
  let! l := put l [u8 total_len] in
  let! l := put_sub l DHCP_RAI_CIRCUIT_ID circuit_id circuit_len in
  let! l := put_sub l DHCP_RAI_REMOTE_ID remote_id remote_len in
  let! l := put_sub l DHCP_RAI_LINK_SELECTION link_sel link_sel_len in
  Ok (0, incr_count l).

Definition dhcp_option_add_relay_info (l : dhcp_option_list) (circuit_id : option (list Z)) (circuit_len : Z)
  (remote_id : option (list Z)) (remote_len : Z) : outcome (Z * dhcp_option_list) :=
  dhcp_option_add_relay_info_ex l circuit_id circuit_len remote_id remote_len None 0.

(** *** Finishing *)

Definition dhcp_option_list_finalize (l : dhcp_option_list) : outcome (Z * dhcp_option_list) :=
  if finalized l then Ok (-1, l) else
  if DHCP_MAX_OPTIONS_SIZE <=? offset l then Ok (-1, l) else
  let! l := put l [DHCP_OPT_END] in
  Ok (0, mkList (buffer l) (offset l) (count l) true).

(** The result, the list and the caller's buffer. *)
Definition dhcp_option_list_serialize (l : dhcp_option_list) (buf : list Z) (max_len : Z)
  : outcome (Z * dhcp_option_list * list Z) :=
  let! (r, l) := (if finalized l then Ok (0, l) else dhcp_option_list_finalize l) in
  if r <? 0 then Ok (-1, l, buf) else
  if max_len <? offset l then Ok (-1, l, buf) else
  let! bytes := load (buffer l) 0 (offset l) in
  let! buf := store buf 0 bytes in
  Ok (i32 (offset l), l, buf).

Definition dhcp_option_list_size (l : dhcp_option_list) : Z := offset l.

(** ** The parser *)

(** [data] is the position in the parsed array the pointer refers to. *)
Record dhcp_option := mkOption { ocode : Z; olen : Z; data : Z }.

(** One iteration of the loop: skip a byte, stop, or take the option at [i]. *)
Fixpoint parse_loop (fuel : nat) (opts : list Z) (len max i : Z) (parsed : list dhcp_option)
  : outcome (list dhcp_option) :=
  if negb ((i <? len) && (Z.of_nat (length parsed) <? max)) then Ok parsed else
  match fuel with
  | O => Fuel
  | S fuel =>
    let! code := byte_at opts i in
    if code =? DHCP_OPT_PAD then parse_loop fuel opts len max (i + 1) parsed else
    if code =? DHCP_OPT_END then Ok parsed else
    if len <=? i + 1 then Ok parsed else
    let! opt_len := byte_at opts (i + 1) in
    if len <? i + 2 + opt_len then Ok parsed else
    parse_loop fuel opts len max (i + (2 + opt_len)) (parsed ++ [mkOption code opt_len (i + 2)])
  end.

(** The result is -1, or the count with the filled part of the caller's array. *)
Definition dhcp_options_parse (opts : list Z) (len max : Z) : outcome (Z * list dhcp_option) :=
  if max <=? 0 then Ok (-1, []) else
  let! parsed := parse_loop (Z.to_nat len) opts len max 0 [] in
  Ok (Z.of_nat (length parsed), parsed).

Definition dhcp_packet_parse_options (pkt : dhcp_packet) (max : Z) : outcome (Z * list dhcp_option) :=
  dhcp_options_parse (options pkt) DHCP_MAX_OPTIONS_SIZE max.

(** ** Queries *)

Fixpoint dhcp_option_find (opts : list dhcp_option) (code : Z) : option dhcp_option :=
  match opts with
  | [] => None
  | o :: opts => if ocode o =? code then Some o else dhcp_option_find opts code
  end.

(** [buf]: the caller's block or NULL; the result has its new content. *)
Fixpoint find_loop (fuel : nat) (opt : list Z) (code : Z) (buf : option (list Z)) (buflen i : Z)
  : outcome (Z * option (list Z)) :=
  if DHCP_MAX_OPTIONS_SIZE <=? i then Ok (-1, buf) else
  match fuel with
  | O => Fuel
  | S fuel =>
    let! c := byte_at opt i in
    if c =? DHCP_OPT_END then Ok (-1, buf) else
    if c =? DHCP_OPT_PAD then find_loop fuel opt code buf buflen (i + 1) else
    if DHCP_MAX_OPTIONS_SIZE <=? i + 1 then Ok (-1, buf) else
    let! opt_len := byte_at opt (i + 1) in
    if c =? code then
      match buf with
      | Some b =>
        if opt_len <=? buflen then
          let! bytes := load opt (i + 2) opt_len in
          let! b := store b 0 bytes in
          Ok (opt_len, Some b)
        else Ok (opt_len, buf)
      | None => Ok (opt_len, buf)
      end
    else find_loop fuel opt code buf buflen (i + (2 + opt_len))
  end.

Definition scan_fuel : nat := Z.to_nat DHCP_MAX_OPTIONS_SIZE.

Definition dhcp_option_find_in_packet (pkt : dhcp_packet) (code : Z) (buf : option (list Z)) (buflen : Z)
  : outcome (Z * option (list Z)) :=
  find_loop scan_fuel (options pkt) code buf buflen 0.

(** [val], not initialised, is written before it is read. *)
Definition dhcp_option_get_u32_from_packet (pkt : dhcp_packet) (code default_val : Z) : outcome Z :=
  let! (r, v) := dhcp_option_find_in_packet pkt code (Some (zeros 4)) 4 in
  if r =? 4 then Ok (ntohl (un_le (default [] v))) else Ok default_val.

Definition dhcp_option_get_string_from_packet (pkt : dhcp_packet) (code : Z) (buf : option (list Z)) (buflen : Z)
  : outcome (Z * option (list Z)) :=
  match buf with
  | None => Ok (-1, None)
  | Some b =>
    if buflen =? 0 then Ok (-1, Some b) else
    let! (len, b') := dhcp_option_find_in_packet pkt code (Some b) (buflen - 1) in
    let b := default [] b' in
    if 0 <? len then let! b := store b len [0] in Ok (len, Some b)
    else let! b := store b 0 [0] in Ok (-1, Some b)
  end.

(** *** The helpers of dhcp_protocol.h

    The four helpers run the same loop, written out in each: [hit] is the test in it with
    what follows a success, on the position, the code and the length byte.  They read
    [opt[i + 1]] without asking whether [i + 1] is inside. *)

Fixpoint scan {A} (none : A) (hit : Z -> Z -> Z -> option (outcome A)) (fuel : nat) (opt : list Z) (i : Z) : outcome A :=
  if DHCP_MAX_OPTIONS_SIZE <=? i then Ok none else
  match fuel with
  | O => Fuel
  | S fuel =>
    let! c := byte_at opt i in
    if c =? DHCP_OPT_END then Ok none else
    if c =? DHCP_OPT_PAD then scan none hit fuel opt (i + 1) else
    let! n := byte_at opt (i + 1) in
    match hit i c n with
    | Some r => r
    | None => scan none hit fuel opt (i + (2 + n))
    end
  end.

Definition dhcp_get_msg_type (pkt : dhcp_packet) : outcome Z :=
  let opt := options pkt in
  scan (-1) (fun i c n => if (c =? DHCP_OPT_MSG_TYPE) && (1 <=? n) then Some (byte_at opt (i + 2)) else None)
    scan_fuel opt 0.

Definition dhcp_get_requested_ip (pkt : dhcp_packet) : outcome Z :=
  let opt := options pkt in
  scan 0 (fun i c n =>
      if (c =? DHCP_OPT_REQUESTED_IP) && (4 <=? n) then Some (let! ip := load opt (i + 2) 4 in Ok (un_le ip)) else None)
    scan_fuel opt 0.

Definition dhcp_get_server_id (pkt : dhcp_packet) : outcome Z :=
  let opt := options pkt in
  scan 0 (fun i c n =>
      if (c =? DHCP_OPT_SERVER_ID) && (4 <=? n) then Some (let! ip := load opt (i + 2) 4 in Ok (un_le ip)) else None)
    scan_fuel opt 0.

Definition dhcp_get_option (pkt : dhcp_packet) (code : Z) (buf : option (list Z)) (buflen : Z)
  : outcome (Z * option (list Z)) :=
  let opt := options pkt in
  scan (-1, buf) (fun i c len =>
      if c =? code then
        Some match buf with
             | Some b =>
               if len <=? buflen then
                 let! bytes := load opt (i + 2) len in
                 let! b := store b 0 bytes in
                 Ok (len, Some b)
               else Ok (len, buf)
             | None => Ok (len, buf)
             end
      else None)
    scan_fuel opt 0.

Definition dhcp_has_option82 (pkt : dhcp_packet) : outcome bool :=
  let! (r, _) := dhcp_get_option pkt DHCP_OPT_RELAY_AGENT None 0 in Ok (0 <? r).

(** ** Relay agent information in a packet *)

Record dhcp_relay_info := mkRelayInfo {
  circuit_id : list Z; circuit_id_len : Z;
  remote_id : list Z; remote_id_len : Z;
  link_sel : list Z; has_link_sel : bool
}.

Definition relay_info_zero : dhcp_relay_info := mkRelayInfo (zeros 255) 0 (zeros 255) 0 (zeros 4) false.

(** The switch on the sub-option's code, with its data. *)
Definition relay_sub (info : dhcp_relay_info) (sub_code : Z) (bytes : list Z) : outcome dhcp_relay_info :=
  let n := Z.of_nat (length bytes) in
  if sub_code =? DHCP_RAI_CIRCUIT_ID then
    let! c := store (circuit_id info) 0 bytes in
    Ok (mkRelayInfo c n (remote_id info) (remote_id_len info) (link_sel info) (has_link_sel info))
  else if sub_code =? DHCP_RAI_REMOTE_ID then
    let! c := store (remote_id info) 0 bytes in
    Ok (mkRelayInfo (circuit_id info) (circuit_id_len info) c n (link_sel info) (has_link_sel info))
  else if (sub_code =? DHCP_RAI_LINK_SELECTION) && (n =? 4) then
    let! c := store (link_sel info) 0 bytes in
    Ok (mkRelayInfo (circuit_id info) (circuit_id_len info) (remote_id info) (remote_id_len info) c true)
  else Ok info.

Fixpoint relay_loop (fuel : nat) (opt82 : list Z) (len i : Z) (info : dhcp_relay_info) : outcome dhcp_relay_info :=
  if len <? i + 2 then Ok info else
  match fuel with
  | O => Fuel
  | S fuel =>
    let! sub_code := byte_at opt82 i in
    let! sub_len := byte_at opt82 (i + 1) in
    if len <? i + 2 + sub_len then Ok info else
    let! bytes := load opt82 (i + 2) sub_len in
    let! info := relay_sub info sub_code bytes in
    relay_loop fuel opt82 len (i + (2 + sub_len)) info
  end.

(** [opt82_buf] has 255 bytes, whose first content is not read. *)
Definition dhcp_option_parse_relay_info (pkt : dhcp_packet) : outcome (Z * dhcp_relay_info) :=
  let info := relay_info_zero in
  let! (n, buf) := dhcp_option_find_in_packet pkt DHCP_OPT_RELAY_AGENT (Some (zeros 255)) 255 in
  if n <=? 0 then Ok (-1, info) else
  let! info := relay_loop (Z.to_nat n) (default [] buf) n 0 info in
  Ok (0, info).

(** The loop of dhcp_option_strip_relay_info: reads at [i], writes at [w], in one array. *)
Fixpoint strip_loop (fuel : nat) (opt : list Z) (i w : Z) : outcome (list Z * Z) :=
  if DHCP_MAX_OPTIONS_SIZE <=? i then Ok (opt, w) else
  match fuel with
  | O => Fuel
  | S fuel =>
    let! c := byte_at opt i in
    if c =? DHCP_OPT_END then Ok (opt, w) else
    if c =? DHCP_OPT_PAD then
      let! (opt, w) :=
        (if w <? DHCP_MAX_OPTIONS_SIZE then let! opt := store opt w [DHCP_OPT_PAD] in Ok (opt, w + 1) else Ok (opt, w)) in
      strip_loop fuel opt (i + 1) w
    else
    if DHCP_MAX_OPTIONS_SIZE <=? i + 1 then Ok (opt, w) else
    let! len := byte_at opt (i + 1) in
    let! (opt, w) :=
      (if negb (c =? DHCP_OPT_RELAY_AGENT) then
         let opt_size := 2 + len in
         if w + opt_size <? DHCP_MAX_OPTIONS_SIZE then
           let! bytes := load opt i opt_size in
           let! opt := store opt w bytes in
           Ok (opt, w + opt_size)
         else Ok (opt, w)
       else Ok (opt, w)) in
    strip_loop fuel opt (i + (2 + len)) w
  end.

Definition dhcp_option_strip_relay_info (pkt : dhcp_packet) : outcome (Z * dhcp_packet) :=
  let! (opt, w) := strip_loop scan_fuel (options pkt) 0 0 in
  let! (opt, w) :=
    (if w <? DHCP_MAX_OPTIONS_SIZE then let! opt := store opt w [DHCP_OPT_END] in Ok (opt, w + 1) else Ok (opt, w)) in
  let! opt := (if w <? DHCP_MAX_OPTIONS_SIZE then store opt w (zeros (DHCP_MAX_OPTIONS_SIZE - w)) else Ok opt) in
  Ok (0, set_options opt pkt).

(** ** The format

    [wire items] are the bytes of a list of options and pad bytes. *)

Inductive item := Pad | Opt (code : Z) (bytes : list Z).

#[export] Instance item_eq_dec : EqDecision item.
Proof. solve_decision. Defined.

Definition item_bytes (it : item) : list Z :=
  match it with Pad => [DHCP_OPT_PAD] | Opt c d => c :: Z.of_nat (length d) :: d end.

Definition wire (l : list item) : list Z := l ≫= item_bytes.

Definition item_ok (it : item) : Prop :=
  match it with Pad => True | Opt c d => 0 < c < 255 /\ (length d <= 255)%nat end.

#[export] Instance item_ok_dec it : Decision (item_ok it).
Proof. destruct it; simpl; apply _. Defined.

(** The options of a list, and the first with a given code. *)
Definition contents (l : list item) : list (Z * list Z) :=
  omap (fun it => match it with Pad => None | Opt c d => Some (c, d) end) l.

Fixpoint first_with (code : Z) (l : list item) : option (list Z) :=
  match l with
  | [] => None
  | Pad :: l => first_with code l
  | Opt c d :: l => if c =? code then Some d else first_with code l
  end.

(** What ends a list of options: the end of the array, the END code, or an option whose
    header or data is cut off. *)
Definition stops (tail : list Z) : Prop :=
  match tail with
  | [] => True
  | c :: rest =>
    c = DHCP_OPT_END \/
    (c <> DHCP_OPT_PAD /\ match rest with [] => True | n :: d => Z.of_nat (length d) < n end)
  end.

(** The items at the front of some bytes, and where they stop. *)
Fixpoint decode (fuel : nat) (bs : list Z) : list item * list Z :=
  match fuel with
  | O => ([], bs)
  | S fuel =>
    match bs with
    | [] => ([], bs)
    | c :: rest =>
      if c =? DHCP_OPT_PAD then let '(l, t) := decode fuel rest in (Pad :: l, t)
      else if c =? DHCP_OPT_END then ([], bs)
      else match rest with
           | [] => ([], bs)
           | n :: d =>
             if Z.of_nat (length d) <? n then ([], bs)
             else let '(l, t) := decode fuel (drop (Z.to_nat n) d) in (Opt c (take (Z.to_nat n) d) :: l, t)
           end
    end
  end.

Definition items_of (bs : list Z) : list item := fst (decode (length bs) bs).
Definition tail_of (bs : list Z) : list Z := snd (decode (length bs) bs).

Lemma wire_cons it l : wire (it :: l) = item_bytes it ++ wire l.
Proof. done. Qed.
Lemma wire_app l1 l2 : wire (l1 ++ l2) = wire l1 ++ wire l2.
Proof. apply bind_app. Qed.

Lemma decode_sound fuel : forall bs l t, (length bs <= fuel)%nat -> Forall is_byte bs -> decode fuel bs = (l, t) ->
  bs = wire l ++ t /\ Forall item_ok l /\ stops t.
Proof.
  induction fuel as [|fuel IH]; intros bs l t Hf Hb; simpl.
  { destruct bs; simpl in Hf; [|lia]. intros [= <- <-]. done. }
  destruct bs as [|c rest]; [intros [= <- <-]; done|]. simpl in Hf. apply Forall_cons in Hb as [Hc Hb].
  destruct (Z.eqb_spec c DHCP_OPT_PAD) as [->|Hp].
  { destruct (decode fuel rest) as [l' t'] eqn:E. intros [= <- <-].
    destruct (IH rest l' t') as (-> & Hl & Ht); [lia|done|done|]. split; [done|]. split; [by constructor|done]. }
  destruct (Z.eqb_spec c DHCP_OPT_END) as [->|He]; [intros [= <- <-]; by repeat split; [constructor|left]|].
  destruct rest as [|n d]; [intros [= <- <-]; by repeat split; [constructor|right]|].
  apply Forall_cons in Hb as [Hn Hb]. unfold is_byte in Hc, Hn. unfold DHCP_OPT_PAD, DHCP_OPT_END in *.
  destruct (Z.ltb_spec (Z.of_nat (length d)) n); [intros [= <- <-]; by repeat split; [constructor|right]|].
  destruct (decode fuel (drop (Z.to_nat n) d)) as [l' t'] eqn:E. intros [= <- <-].
  destruct (IH (drop (Z.to_nat n) d) l' t') as (Ed & Hl & Ht); [rewrite length_drop; simpl in Hf; lia|by apply Forall_drop|done|].
  assert (length (take (Z.to_nat n) d) = Z.to_nat n) as Hlen by (rewrite length_take; lia).
  split; [|split; [|done]].
  - rewrite wire_cons. cbn [item_bytes]. rewrite Hlen, Z2Nat.id by lia. simpl. do 2 f_equal.
    by rewrite <- (assoc_L (++)), <- Ed, take_drop.
  - constructor; [|done]. simpl. rewrite Hlen. lia.
Qed.

(** Any bytes are some items and a tail that stops. *)
Lemma items_split bs : Forall is_byte bs ->
  bs = wire (items_of bs) ++ tail_of bs /\ Forall item_ok (items_of bs) /\ stops (tail_of bs).
Proof.
  intros Hb. unfold items_of, tail_of. destruct (decode (length bs) bs) as [l t] eqn:E.
  by apply decode_sound in E; [|lia|].
Qed.

Lemma decode_wire l t : Forall item_ok l -> stops t -> forall fuel, (length (wire l ++ t) <= fuel)%nat ->
  decode fuel (wire l ++ t) = (l, t).
Proof.
  intros Hl Ht. induction Hl as [|it l Hit Hl IH]; intros fuel Hf.
  - simpl in *. destruct fuel; [done|]. destruct t as [|c rest]; [done|]. simpl in *.
    destruct Ht as [->|[Hp Hr]]; [done|]. destruct (Z.eqb_spec c DHCP_OPT_PAD) as [|_]; [done|].
    destruct (Z.eqb_spec c DHCP_OPT_END) as [|_]; [done|]. destruct rest as [|n d]; [done|].
    destruct (Z.ltb_spec (Z.of_nat (length d)) n); [done|lia].
  - rewrite wire_cons, <- (assoc_L (++)) in Hf |- *. rewrite length_app in Hf. destruct fuel as [|fuel]; [destruct it; simpl in Hf; lia|].
    destruct it as [|c d]; simpl in *.
    + by rewrite IH by lia.
    + unfold DHCP_OPT_PAD, DHCP_OPT_END. destruct (Z.eqb_spec c 0); [lia|]. destruct (Z.eqb_spec c 255); [lia|].
      destruct (Z.ltb_spec (Z.of_nat (length (d ++ wire l ++ t))) (Z.of_nat (length d))) as [Hlt|_]; [rewrite length_app in Hlt; lia|].
      rewrite Nat2Z.id, drop_app_length, take_app_length, IH by lia. done.
Qed.

Lemma items_of_wire l t : Forall item_ok l -> stops t -> items_of (wire l ++ t) = l.
Proof. intros Hl Ht. unfold items_of. by rewrite decode_wire. Qed.

#[global] Arguments wire : simpl never.

(** ** The parser *)

(** The entries for the items [l], the first at position [i]. *)
Fixpoint positions (i : Z) (l : list item) : list dhcp_option :=
  match l with
  | [] => []
  | Pad :: l => positions (i + 1) l
  | Opt c d :: l => mkOption c (Z.of_nat (length d)) (i + 2) :: positions (i + (2 + Z.of_nat (length d))) l
  end.

Lemma not_pad_end c : 0 < c < 255 -> (c =? DHCP_OPT_PAD) = false /\ (c =? DHCP_OPT_END) = false.
Proof. unfold DHCP_OPT_PAD, DHCP_OPT_END. intros. split; zcase; lia. Qed.

(** Move the read position over a pad byte or an option. *)
Lemma step_pad (pre : list Z) l rest : pre ++ wire (Pad :: l) ++ rest = (pre ++ [DHCP_OPT_PAD]) ++ wire l ++ rest.
Proof. rewrite wire_cons. simpl. by rewrite <- (assoc_L (++)). Qed.
Lemma step_opt (pre : list Z) c d l rest :
  pre ++ wire (Opt c d :: l) ++ rest = (pre ++ c :: Z.of_nat (length d) :: d) ++ wire l ++ rest.
Proof. rewrite wire_cons. simpl. by rewrite <- !(assoc_L (++)). Qed.

Lemma step_opt_length (pre : list Z) c d i : i = Z.of_nat (length pre) ->
  i + (2 + Z.of_nat (length d)) = Z.of_nat (length (pre ++ c :: Z.of_nat (length d) :: d)).
Proof. intros ->. rewrite length_app. simpl. lia. Qed.

Lemma parse_stop fuel opts len max i parsed pre t more :
  opts = pre ++ t ++ more -> len = Z.of_nat (length (pre ++ t)) -> i = Z.of_nat (length pre) -> stops t -> (length t <= fuel)%nat ->
  parse_loop fuel opts len max i parsed = Ok parsed.
Proof.
  intros -> -> -> Ht Hf. rewrite length_app. destruct fuel; simpl; destruct t as [|c t]; simpl in *; try lia.
  1,2: destruct (Z.ltb_spec (Z.of_nat (length pre)) (Z.of_nat (length pre + 0))); [lia|done].
  destruct (negb _); [done|]. rewrite byte_at_app by done. simpl.
  destruct Ht as [->|[Hp Hr]]; [done|]. destruct (Z.eqb_spec c DHCP_OPT_PAD) as [|_]; [done|].
  destruct (c =? DHCP_OPT_END); [done|]. destruct t as [|n d]; simpl in *; [zcase; [done|lia]|].
  zcase; [lia|]. rewrite byte_at_app1 by done. simpl. zcase; [done|lia].
Qed.

Lemma parse_loop_run max t more : stops t -> forall l, Forall item_ok l -> forall fuel opts len i parsed pre,
  opts = pre ++ wire l ++ t ++ more -> len = Z.of_nat (length (pre ++ wire l ++ t)) -> i = Z.of_nat (length pre) ->
  (length (wire l ++ t) <= fuel)%nat -> (length parsed <= max)%nat ->
  parse_loop fuel opts len (Z.of_nat max) i parsed = Ok (parsed ++ take (max - length parsed) (positions i l)).
Proof.
  intros Ht l Hl. induction Hl as [|it l Hit Hl IH]; intros fuel opts len i parsed pre -> -> -> Hf Hm.
  { change (wire []) with (@nil Z) in *. simpl. rewrite take_nil, app_nil_r. by eapply parse_stop. }
  rewrite wire_cons, <- (assoc_L (++)), length_app in Hf. destruct fuel as [|fuel]; [destruct it; simpl in Hf; lia|].
  cbn [parse_loop]. destruct (Z.ltb_spec (Z.of_nat (length parsed)) (Z.of_nat max)) as [Hlt|Hge].
  2: { rewrite andb_false_r. simpl. replace (max - length parsed)%nat with 0%nat by lia. by rewrite take_0, app_nil_r. }
  replace (Z.of_nat (length pre) <? _) with true by (symmetry; apply Z.ltb_lt; rewrite wire_cons, !length_app; destruct it; simpl; lia).
  simpl. destruct it as [|c d].
  - rewrite wire_cons. simpl. rewrite byte_at_app by done. cbn [obind Z.eqb DHCP_OPT_PAD]. simpl.
    rewrite (cons_middle DHCP_OPT_PAD), (assoc_L (++) pre).
    replace (Z.of_nat (length pre) + 1) with (Z.of_nat (length (pre ++ [DHCP_OPT_PAD]))) by (rewrite length_app; simpl; lia).
    apply (IH fuel _ _ _ _ (pre ++ [DHCP_OPT_PAD])); try done; [|simpl in Hf; lia]. f_equal. rewrite !length_app. simpl. rewrite !length_app. lia.
  - destruct Hit as [Hc Hd]. apply not_pad_end in Hc as [E1 E2]. rewrite wire_cons. simpl. rewrite byte_at_app by done. simpl.
    rewrite E1, E2. zcase; [rewrite !length_app in *; simpl in *; rewrite !length_app in *; lia|].
    rewrite byte_at_app1 by done. simpl. zcase; [rewrite !length_app in *; simpl in *; rewrite !length_app in *; lia|].
    destruct (max - length parsed)%nat as [|k] eqn:Ek; [lia|]. simpl.
    rewrite (step_opt_length pre c d) by done.
    etrans; [apply (IH fuel _ _ _ _ (pre ++ c :: Z.of_nat (length d) :: d))|].
    + simpl. by rewrite <- !(assoc_L (++)).
    + f_equal. rewrite !length_app. simpl. rewrite !length_app. lia.
    + done.
    + simpl in Hf. lia.
    + rewrite length_app. simpl. lia.
    + rewrite length_app, <- (assoc_L (++)). simpl. by replace (max - (length parsed + 1))%nat with k by lia.
Qed.

Lemma positions_length l : forall i, length (positions i l) = length (contents l).
Proof. induction l as [|[|c d] l IH]; intros i; simpl; auto. Qed.

(** The entries refer to the data of the options. *)
Lemma positions_data l : forall pre rest k o, positions (Z.of_nat (length pre)) l !! k = Some o ->
  exists d, contents l !! k = Some (ocode o, d) /\ olen o = Z.of_nat (length d) /\
    load (pre ++ wire l ++ rest) (data o) (olen o) = Ok d.
Proof.
  induction l as [|[|c d] l IH]; intros pre rest k o; cbn [positions]; [done| |].
  - replace (Z.of_nat (length pre) + 1) with (Z.of_nat (length (pre ++ [DHCP_OPT_PAD]))) by (rewrite length_app; simpl; lia).
    intros (d & H1 & H2 & H3)%(IH _ rest). exists d. by rewrite step_pad.
  - destruct k as [|k].
    + intros [= <-]. exists d. split; [done|]. split; [done|]. cbn [data olen]. rewrite step_opt.
      change (c :: Z.of_nat (length d) :: d) with ([c; Z.of_nat (length d)] ++ d). rewrite (assoc_L (++) pre), <- (assoc_L (++)).
      apply load_app; [|done]. rewrite length_app. simpl. lia.
    + change ((?a :: ?b) !! S k) with (b !! k). rewrite (step_opt_length pre c d) by done. intros (d' & H1 & H2 & H3)%(IH _ rest). exists d'. by rewrite step_opt.
Qed.

(** The parser on bytes that start with some items. *)
Lemma parse_wire l t more max : Forall item_ok l -> stops t -> 0 < max ->
  let parsed := take (Z.to_nat max) (positions 0 l) in
  dhcp_options_parse (wire l ++ t ++ more) (Z.of_nat (length (wire l ++ t))) max = Ok (Z.of_nat (length parsed), parsed).
Proof.
  intros Hok Hst Hm. unfold dhcp_options_parse. zcase; [lia|]. rewrite Nat2Z.id.
  replace max with (Z.of_nat (Z.to_nat max)) at 1 by lia.
  rewrite (parse_loop_run (Z.to_nat max) t more Hst l Hok (length (wire l ++ t)) _ _ 0 [] []); simpl; try done; try lia.
  by rewrite Nat.sub_0_r.
Qed.

(** The parser on any bytes: it reads the items at the front of the first [len] bytes. *)
Lemma parse_items opts len max : Forall is_byte opts -> 0 <= len <= Z.of_nat (length opts) -> 0 < max ->
  let parsed := take (Z.to_nat max) (positions 0 (items_of (take (Z.to_nat len) opts))) in
  dhcp_options_parse opts len max = Ok (Z.of_nat (length parsed), parsed).
Proof.
  intros Hb Hlen Hm. simpl. destruct (items_split (take (Z.to_nat len) opts)) as (E & Hok & Hst); [by apply Forall_take|].
  rewrite <- (parse_wire _ _ (drop (Z.to_nat len) opts) max Hok Hst Hm), (assoc_L (++)), <- E, take_drop, length_take.
  by replace (Z.of_nat _) with len by lia.
Qed.

(** ** The builder *)

(** The bytes written so far. *)
Definition written (l : dhcp_option_list) (w : list Z) : Prop :=
  exists rest, buffer l = w ++ rest /\ offset l = Z.of_nat (length w) /\ Z.of_nat (length (buffer l)) = DHCP_MAX_OPTIONS_SIZE.

Lemma put_written l w bytes : written l w -> Z.of_nat (length w + length bytes) <= DHCP_MAX_OPTIONS_SIZE ->
  exists l', put l bytes = Ok l' /\ written l' (w ++ bytes) /\ count l' = count l /\ finalized l' = finalized l.
Proof.
  intros (rest & E & Eo & Hl) Hfit. rewrite E, length_app in Hl.
  destruct (decide (length bytes <= length rest)%nat); [|lia].
  unfold put. rewrite E, <- (take_drop (length bytes) rest), (store_app w) by (rewrite ?length_take; lia). simpl.
  eexists. split; [done|]. split; [|done]. exists (drop (length bytes) rest). simpl. split; [by rewrite <- (assoc_L (++))|].
  rewrite !length_app, length_drop. split; lia.
Qed.

(** A list that was started with dhcp_option_list_init and got the options [opts]. *)
Definition built (l : dhcp_option_list) (opts : list (Z * list Z)) : Prop :=
  written l (wire ((fun '(c, d) => Opt c d) <$> opts)) /\ offset l <= DHCP_MAX_OPTIONS_SIZE - 1 /\
  count l = Z.of_nat (length opts) /\ finalized l = false.

Lemma built_init : built dhcp_option_list_init [].
Proof. split; [|done]. exists (zeros DHCP_MAX_OPTIONS_SIZE). done. Qed.

(** The bytes after one more option. *)
Lemma wire_snoc opts c d :
  wire ((fun '(c, d) => Opt c d) <$> (opts ++ [(c, d)])) =
  ((wire ((fun '(c, d) => Opt c d) <$> opts) ++ [c]) ++ [Z.of_nat (length d)]) ++ d.
Proof.
  rewrite fmap_app, wire_app. change (wire _) with ((c :: Z.of_nat (length d) :: d) ++ []) at 2.
  by rewrite app_nil_r, <- !(assoc_L (++)).
Qed.

(** Adding an option: rejected without a change, or appended. *)
Lemma add_built l opts c d junk : built l opts -> (length d <= 255)%nat ->
  exists l', dhcp_option_add l c (Some (d ++ junk)) (Z.of_nat (length d)) =
      Ok (if DHCP_MAX_OPTIONS_SIZE - 1 <? offset l + 2 + Z.of_nat (length d) then -1 else 0, l') /\
    if DHCP_MAX_OPTIONS_SIZE - 1 <? offset l + 2 + Z.of_nat (length d) then l' = l
    else built l' (opts ++ [(c, d)]) /\ offset l' = offset l + 2 + Z.of_nat (length d).
Proof.
  intros (Hw & Ho & Hc & Hf) Hd. unfold dhcp_option_add. rewrite Hf. destruct (Z.ltb_spec (DHCP_MAX_OPTIONS_SIZE - 1) (offset l + 2 + Z.of_nat (length d))) as [|Hfit].
  { by exists l. }
  pose proof Hw as (_ & _ & Eo & _).
  destruct (put_written l _ [c] Hw) as (l1 & -> & W1 & C1 & F1); [simpl; lia|]. simpl.
  destruct (put_written l1 _ [Z.of_nat (length d)] W1) as (l2 & -> & W2 & C2 & F2); [rewrite length_app; simpl; lia|]. simpl.
  destruct (put_written l2 _ d W2) as (l3 & E3 & W3 & C3 & F3); [rewrite !length_app; simpl; lia|].
  assert ((if 0 <? Z.of_nat (length d) then let! bytes := load (d ++ junk) 0 (Z.of_nat (length d)) in put l2 bytes else Ok l2) = Ok l3) as ->.
  { rewrite (load_app [] d junk) by done. simpl. rewrite E3. zcase; [done|]. destruct d; simpl in *; [|lia].
    unfold put in E3. destruct W2 as (rest & Eb & Eof & _). rewrite Eb in E3.
    change rest with ([] ++ rest) in E3. rewrite (store_app _ [] []) in E3 by done. simpl in E3. rewrite <- E3.
    f_equal. destruct l2; simpl in *. f_equal; [done|lia]. }
  simpl. eexists. split; [done|]. rewrite <- wire_snoc in W3. pose proof W3 as (r & Eb & Eo3 & L3).
  assert (offset l3 = offset l + 2 + Z.of_nat (length d)) as Eoff.
  { rewrite Eo3, wire_snoc, !length_app. simpl. lia. }
  split; [|done]. split; [by exists r|]. simpl. rewrite length_app. simpl. split; [lia|]. split; [lia|congruence].
Qed.

(** Options are added one after the other; the results of the calls. *)
Fixpoint add_all (l : dhcp_option_list) (opts : list (Z * list Z)) : outcome (list Z * dhcp_option_list) :=
  match opts with
  | [] => Ok ([], l)
  | (c, d) :: opts =>
    let! (r, l) := dhcp_option_add l c (Some d) (Z.of_nat (length d)) in
    let! (rs, l) := add_all l opts in
    Ok (r :: rs, l)
  end.

(** The options that fit, when [used] bytes are taken and one byte is kept for END. *)
Fixpoint accepted (used : Z) (opts : list (Z * list Z)) : list (Z * list Z) :=
  match opts with
  | [] => []
  | (c, d) :: opts =>
    let n := used + 2 + Z.of_nat (length d) in
    if DHCP_MAX_OPTIONS_SIZE - 1 <? n then accepted used opts else (c, d) :: accepted n opts
  end.

(** What dhcp_option_add returns for each of them: 0 for an option that still fits, -1 for
    one that does not. *)
Fixpoint codes (used : Z) (opts : list (Z * list Z)) : list Z :=
  match opts with
  | [] => []
  | (c, d) :: opts =>
    let n := used + 2 + Z.of_nat (length d) in
    if DHCP_MAX_OPTIONS_SIZE - 1 <? n then -1 :: codes used opts else 0 :: codes n opts
  end.

Definition option_ok (o : Z * list Z) : Prop := 0 < fst o < 255 /\ (length (snd o) <= 255)%nat.

Lemma add_all_built opts : Forall option_ok opts -> forall l old, built l old ->
  exists l', add_all l opts = Ok (codes (offset l) opts, l') /\ built l' (old ++ accepted (offset l) opts).
Proof.
  induction 1 as [|[c d] opts [Hc Hd] Hopts IH]; intros l old Hb; simpl.
  { exists l. by rewrite app_nil_r. }
  destruct (add_built l old c d [] Hb Hd) as (l' & E & Hl'). rewrite app_nil_r in E. rewrite E. simpl.
  destruct (DHCP_MAX_OPTIONS_SIZE - 1 <? _).
  - subst l'. destruct (IH l old Hb) as (l' & -> & Hb'). simpl. by exists l'.
  - destruct Hl' as [Hb' Eo]. destruct (IH l' _ Hb') as (l'' & -> & Hb''). simpl.
    exists l''. split; [by rewrite Eo|]. by rewrite Eo, <- (assoc_L (++)) in Hb''.
Qed.

Lemma accepted_ok opts : Forall option_ok opts -> forall used, Forall option_ok (accepted used opts).
Proof. induction 1 as [|[c d] opts Ho Hopts IH]; intros used; simpl; [done|]. destruct (_ <? _); [apply IH|]. constructor; [done|apply IH]. Qed.

Definition opt_items (opts : list (Z * list Z)) : list item := (fun '(c, d) => Opt c d) <$> opts.

Lemma opt_items_ok opts : Forall option_ok opts -> Forall item_ok (opt_items opts).
Proof. intros H. apply Forall_fmap. eapply Forall_impl; [exact H|]. by intros [c d]. Qed.

Lemma contents_opt_items opts : contents (opt_items opts) = opts.
Proof. induction opts as [|[c d] opts IH]; [done|]. cbn. f_equal. apply IH. Qed.

(** Serializing: the options, END, and what the buffer had after them. *)
Lemma serialize_built l opts buf max_len : built l opts -> offset l + 1 <= max_len <= Z.of_nat (length buf) ->
  exists l' rest, dhcp_option_list_serialize l buf max_len =
      Ok (offset l + 1, l', wire (opt_items opts) ++ DHCP_OPT_END :: rest) /\
    rest = drop (Z.to_nat (offset l + 1)) buf /\ finalized l' = true.
Proof.
  intros (Hw & Ho & Hc & Hf) Hlen. unfold dhcp_option_list_serialize, dhcp_option_list_finalize. rewrite Hf.
  unfold DHCP_MAX_OPTIONS_SIZE in Ho. destruct (Z.leb_spec DHCP_MAX_OPTIONS_SIZE (offset l)); [unfold DHCP_MAX_OPTIONS_SIZE in *; lia|].
  pose proof Hw as (_ & _ & Eo & _).
  destruct (put_written l _ [DHCP_OPT_END] Hw) as (l1 & -> & (rest & Eb & Eo1 & Hl1) & _); [unfold DHCP_MAX_OPTIONS_SIZE; simpl; lia|].
  rewrite length_app in Eo1. simpl in *. zcase; [lia|].
  rewrite Eb. fold (opt_items opts) in *. set (w := wire (opt_items opts) ++ [DHCP_OPT_END]) in *.
  assert (offset l1 = Z.of_nat (length w)) as Ew by (unfold w; rewrite length_app; simpl; lia).
  rewrite (load_app [] w rest) by done. simpl.
  pose proof (store_app [] (take (length w) buf) w (drop (length w) buf) 0 eq_refl ltac:(rewrite length_take; lia)) as Es.
  simpl in Es. rewrite take_drop in Es. rewrite Es. simpl.
  assert (offset l1 = offset l + 1) as E1 by lia. exists (mkList (w ++ rest) (offset l1) (count l1) true), (drop (Z.to_nat (offset l + 1)) buf).
  split; [|done].
  f_equal. f_equal.
  - f_equal. unfold i32. rewrite signed_small by (simpl; lia). lia.
  - replace (length w) with (Z.to_nat (offset l + 1)) by lia. unfold w. by rewrite <- (assoc_L (++)).
Qed.

(** C27: Building and parsing are inverse.  Options with codes other than PAD and END are
    added one by one to an initialised list: each returns 0 exactly when it still fits
    beside the END byte, also after one that did not, and -1 otherwise, which changes
    nothing.  The serialized list is then parsed back to exactly the accepted options, in
    order, every entry's pointer and length delimiting the bytes that were added. *)
Theorem option_roundtrip opts buf max :
  Forall option_ok opts -> DHCP_MAX_OPTIONS_SIZE <= Z.of_nat (length buf) -> Z.of_nat (length opts) <= max -> 0 < max ->
  exists l n l' buf' parsed,
    add_all dhcp_option_list_init opts = Ok (codes 0 opts, l) /\
    dhcp_option_list_serialize l buf (Z.of_nat (length buf)) = Ok (n, l', buf') /\
    dhcp_options_parse buf' n max = Ok (Z.of_nat (length (accepted 0 opts)), parsed) /\
    length parsed = length (accepted 0 opts) /\
    forall k o, parsed !! k = Some o ->
      exists d, accepted 0 opts !! k = Some (ocode o, d) /\ olen o = Z.of_nat (length d) /\ load buf' (data o) (olen o) = Ok d.
Proof.
  intros Hopts Hbuf Hmax Hm. destruct (add_all_built opts Hopts _ _ built_init) as (l & Eadd & Hb).
  simpl in Hb, Eadd. set (acc := accepted 0 opts) in *.
  assert (length acc <= length opts)%nat as Hlen.
  { unfold acc. clear. generalize 0 as used. induction opts as [|[c d] opts IH]; intros used; simpl; [lia|].
    destruct (_ <? _); [specialize (IH used); lia|]. simpl. specialize (IH (used + 2 + Z.of_nat (length d))). lia. }
  destruct (serialize_built l acc buf (Z.of_nat (length buf)) Hb) as (l' & rest & Eser & _ & _).
  { destruct Hb as (_ & Ho & _). lia. }
  destruct Hb as ((r & Eb & Eo & _) & _). fold (opt_items acc) in Eo.
  exists l, (offset l + 1), l', (wire (opt_items acc) ++ DHCP_OPT_END :: rest), (positions 0 (opt_items acc)).
  assert (length (positions 0 (opt_items acc)) = length acc) as Epos by (by rewrite positions_length, contents_opt_items).
  split; [done|]. split; [done|]. split; [|split; [done|]].
  - pose proof (parse_wire (opt_items acc) [DHCP_OPT_END] rest max) as Hp. cbv zeta in Hp.
    rewrite take_ge in Hp by lia. rewrite length_app in Hp. simpl in Hp. rewrite Epos in Hp.
    rewrite Eo. rewrite Nat2Z.inj_add in Hp. apply Hp; [|by left|done]. apply opt_items_ok, accepted_ok, Hopts.
  - intros k o Hk. destruct (positions_data (opt_items acc) [] (DHCP_OPT_END :: rest) k o Hk) as (d & Hd).
    rewrite contents_opt_items in Hd. by exists d.
Qed.

Lemma option_roundtrip_witness :
  exists l n l' buf' parsed,
    add_all dhcp_option_list_init [(53, [2]); (82, replicate 255 7); (12, replicate 60 9); (51, [0; 0; 14; 16])] = Ok ([0; 0; -1; 0], l) /\
    dhcp_option_list_serialize l (zeros 400) 400 = Ok (n, l', buf') /\
    dhcp_options_parse buf' n 64 = Ok (3, parsed).
Proof.
  destruct (option_roundtrip [(53, [2]); (82, replicate 255 7); (12, replicate 60 9); (51, [0; 0; 14; 16])] (zeros 400) 64)
    as (l & n & l' & buf' & parsed & H1 & H2 & H3 & _).
  - repeat (constructor; [split; simpl; lia|]). constructor.
  - vm_compute. discriminate.
  - vm_compute. discriminate.
  - lia.
  - exists l, n, l', buf', parsed. repeat split; [exact H1|exact H2|exact H3].
Defined.
