(* ===== verification/DhcpPacket.v ===== *)
(** * Queries on the options of a received packet

    The theorems on the second half of dhcp_option.c and on the helpers of dhcp_protocol.h:
    what each query returns on any 308 bytes, which queries agree, where one reads past the
    packet, and what stripping option 82 leaves. *)

From S2P Require Import Prelude Common Bytes DhcpOption.

(** ** Finding an option *)

(** What a query does with the option it found. *)
Definition deliver (buf : option (list Z)) (buflen : Z) (d : list Z) : outcome (Z * option (list Z)) :=
  match buf with
  | Some b =>
    if Z.of_nat (length d) <=? buflen then let! b := store b 0 d in Ok (Z.of_nat (length d), Some b)
    else Ok (Z.of_nat (length d), buf)
  | None => Ok (Z.of_nat (length d), buf)
  end.

(** The length byte of an option with this code whose data is cut off by the end. *)
Definition cut_off (code : Z) (tail : list Z) : option Z :=
  match tail with
  | c :: n :: d => if negb (c =? DHCP_OPT_END) && (c =? code) && (Z.of_nat (length d) <? n) then Some n else None
  | _ => None
  end.

(** A query that ends on [tail]. *)
Definition find_tail (buf : option (list Z)) (buflen code : Z) (tail : list Z) : outcome (Z * option (list Z)) :=
  match cut_off code tail with
  | Some n => match buf with Some _ => if n <=? buflen then Undef else Ok (n, buf) | None => Ok (n, buf) end
  | None => Ok (-1, buf)
  end.

Section find.
Context (code buflen : Z) (buf : option (list Z)).

Lemma find_beyond fuel opt i : DHCP_MAX_OPTIONS_SIZE <= i -> find_loop fuel opt code buf buflen i = Ok (-1, buf).
Proof. intros Hi. destruct fuel; simpl; zcase; (done || lia). Qed.

Lemma find_stop fuel opt pre t i :
  opt = pre ++ t -> Z.of_nat (length opt) = DHCP_MAX_OPTIONS_SIZE -> i = Z.of_nat (length pre) -> stops t -> (length t <= fuel)%nat ->
  find_loop fuel opt code buf buflen i = find_tail buf buflen code t.
Proof.
  intros -> Hl -> Ht Hf. rewrite length_app in Hl. destruct t as [|c t]; cbn [length] in Hf, Hl; [apply find_beyond; lia|].
  destruct fuel as [|fuel]; [lia|]. cbn [find_loop]. zcase; [lia|]. rewrite byte_at_app by done. simpl.
  unfold find_tail, cut_off. destruct (Z.eqb_spec c DHCP_OPT_END) as [->|He]; [by destruct t|].
  destruct Ht as [->|[Hp Hr]]; [done|]. destruct (Z.eqb_spec c DHCP_OPT_PAD) as [|_]; [done|].
  destruct (Z.leb_spec DHCP_MAX_OPTIONS_SIZE (Z.of_nat (length pre) + 1)); destruct t as [|n d]; cbn [length] in *; [done|lia|lia|].
  rewrite byte_at_app1 by done. simpl.
  rewrite (proj2 (Z.ltb_lt _ _) Hr), andb_true_r. destruct (c =? code); [|apply find_beyond; lia].
  destruct buf as [b|]; [|done]. destruct (n <=? buflen); [|done]. unfold load.
  rewrite (proj2 (Z.leb_gt (Z.of_nat (length pre) + 2 + n) _)) by (rewrite length_app; simpl; lia). by rewrite andb_false_r.
Qed.

Lemma find_loop_run t : stops t -> forall l, Forall item_ok l -> forall fuel opt pre i,
  opt = pre ++ wire l ++ t -> Z.of_nat (length opt) = DHCP_MAX_OPTIONS_SIZE -> i = Z.of_nat (length pre) ->
  (length (wire l ++ t) <= fuel)%nat ->
  find_loop fuel opt code buf buflen i =
    match first_with code l with Some d => deliver buf buflen d | None => find_tail buf buflen code t end.
Proof.
  intros Ht l Hl. induction Hl as [|it l Hit Hl IH]; intros fuel opt pre i -> Hlen -> Hf.
  { by eapply find_stop. }
  rewrite wire_cons, <- (assoc_L (++)), length_app in Hf. rewrite wire_cons, !length_app in Hlen.
  destruct fuel as [|fuel]; [destruct it; simpl in Hf; lia|]. cbn [find_loop]. zcase; [destruct it; simpl in *; lia|].
  rewrite wire_cons, <- (assoc_L (++)). destruct it as [|c d]; cbn [item_bytes app].
  - rewrite byte_at_app by done. simpl. apply (IH _ _ (pre ++ [DHCP_OPT_PAD])).
    + by rewrite <- (assoc_L (++)).
    + rewrite length_app. simpl in *. rewrite length_app. lia.
    + rewrite length_app. simpl. lia.
    + simpl in Hf. lia.
  - destruct Hit as [Hc Hd]. apply not_pad_end in Hc as [E1 E2]. rewrite byte_at_app by done. cbn [obind]. rewrite E1, E2.
    simpl in Hlen. zcase; [lia|]. rewrite byte_at_app1 by done. cbn [obind first_with].
    destruct (c =? code).
    + unfold deliver. destruct buf as [b|]; [|done]. zcase; [|done].
      change (c :: ?n :: d ++ ?r) with ([c; n] ++ d ++ r). rewrite (assoc_L (++) pre), load_app; [done| |done].
      rewrite length_app. simpl. lia.
    + rewrite (step_opt_length pre c d) by done. apply (IH _ _ (pre ++ c :: Z.of_nat (length d) :: d)).
      * by rewrite <- (assoc_L (++)).
      * rewrite !length_app. simpl. rewrite !length_app. lia.
      * done.
      * simpl in Hf. lia.
Qed.
End find.

(** A packet as the kernel hands it over: 308 bytes of options. *)
Definition packet_ok (pkt : dhcp_packet) : Prop :=
  Z.of_nat (length (options pkt)) = DHCP_MAX_OPTIONS_SIZE /\ Forall is_byte (options pkt).

Lemma options_split pkt : packet_ok pkt ->
  options pkt = [] ++ wire (items_of (options pkt)) ++ tail_of (options pkt) /\
  Forall item_ok (items_of (options pkt)) /\ stops (tail_of (options pkt)) /\
  (length (wire (items_of (options pkt)) ++ tail_of (options pkt)) <= scan_fuel)%nat.
Proof.
  intros [Hl Hb]. destruct (items_split _ Hb) as (E & Hok & Hst). split; [done|]. split; [done|]. split; [done|].
  rewrite <- E. unfold scan_fuel. lia.
Qed.

(** Dhcp_option_find_in_packet on any packet.  The first complete option with the code is
    returned with its length, and copied when the caller's buffer takes it.  When only a
    last, truncated option has the code, its length byte is returned as if it were
    complete, and with a buffer that long the copy reads past the packet; otherwise the
    answer is -1.  In particular the scan always ends. *)
Theorem find_in_packet_spec pkt code buf buflen : packet_ok pkt ->
  dhcp_option_find_in_packet pkt code buf buflen =
    match first_with code (items_of (options pkt)) with
    | Some d => deliver buf buflen d
    | None =>
      match cut_off code (tail_of (options pkt)) with
      | Some n => match buf with Some _ => if n <=? buflen then Undef else Ok (n, buf) | None => Ok (n, buf) end
      | None => Ok (-1, buf)
      end
    end.
Proof.
  intros Hp. destruct (options_split pkt Hp) as (E & Hok & Hst & Hf). unfold dhcp_option_find_in_packet.
  by rewrite (find_loop_run code buflen buf _ Hst _ Hok scan_fuel (options pkt) [] 0 E (proj1 Hp) eq_refl Hf).
Qed.

(** ** The helpers of dhcp_protocol.h *)

(** The first option that [hit] accepts, and the result. *)
Fixpoint first_hit {A} (hit : Z -> list Z -> option (outcome A)) (l : list item) : option (outcome A) :=
  match l with
  | [] => None
  | Pad :: l => first_hit hit l
  | Opt c d :: l => match hit c d with Some r => Some r | None => first_hit hit l end
  end.

Section scan.
Context {A : Type} (none : A) (hit : Z -> Z -> Z -> option (outcome A)) (hit' : Z -> list Z -> option (outcome A)).

(** [hit] decides by the option alone, where the option is complete. *)
Definition hit_spec (opt : list Z) : Prop :=
  forall pre c d rest, opt = pre ++ c :: Z.of_nat (length d) :: d ++ rest -> hit (Z.of_nat (length pre)) c (Z.of_nat (length d)) = hit' c d.

Lemma scan_run t opt : hit_spec opt -> Z.of_nat (length opt) = DHCP_MAX_OPTIONS_SIZE ->
  forall l, Forall item_ok l -> forall fuel pre i, opt = pre ++ wire l ++ t -> i = Z.of_nat (length pre) ->
  (length (wire l ++ t) <= fuel)%nat ->
  scan none hit fuel opt i =
    match first_hit hit' l with
    | Some r => r
    | None => scan none hit (fuel - length l) opt (Z.of_nat (length (pre ++ wire l)))
    end.
Proof.
  intros Hh Hlen l Hl. induction Hl as [|it l Hit Hl IH]; intros fuel pre i E -> Hf.
  { simpl. by rewrite Nat.sub_0_r, app_nil_r. }
  rewrite wire_cons, <- (assoc_L (++)), length_app in Hf. pose proof (f_equal length E) as EL.
  rewrite wire_cons, !length_app in EL. destruct fuel as [|fuel]; [destruct it; simpl in Hf; lia|].
  cbn [scan]. zcase; [destruct it; simpl in *; lia|]. destruct it as [|c d].
  - rewrite step_pad in E. 
    assert (byte_at opt (Z.of_nat (length pre)) = Ok DHCP_OPT_PAD) as -> by (rewrite E, <- (assoc_L (++)); by apply byte_at_app).
    simpl. rewrite (IH fuel (pre ++ [DHCP_OPT_PAD])); [|done|rewrite length_app; simpl; lia|simpl in Hf; lia].
    by rewrite wire_cons, (assoc_L (++) pre).
  - destruct Hit as [Hc Hd]. apply not_pad_end in Hc as [E1 E2]. rewrite step_opt in E.
    pose proof E as E'. rewrite <- (assoc_L (++)) in E'. cbn [app] in E'.
    assert (byte_at opt (Z.of_nat (length pre)) = Ok c) as -> by (rewrite E'; by apply byte_at_app). cbn [obind]. rewrite E1, E2.
    assert (byte_at opt (Z.of_nat (length pre) + 1) = Ok (Z.of_nat (length d))) as -> by (rewrite E'; by apply byte_at_app1).
    cbn [obind first_hit]. rewrite (Hh pre c d (wire l ++ t) E').
    destruct (hit' c d); [done|].
    rewrite (step_opt_length pre c d) by done. rewrite (IH fuel (pre ++ c :: Z.of_nat (length d) :: d)); [|done|done|simpl in Hf; lia].
    by rewrite wire_cons, (assoc_L (++) pre).
Qed.

(** The options end with END or with the array. *)
Definition complete (t : list Z) : Prop := match t with [] => True | c :: _ => c = DHCP_OPT_END end.

Lemma scan_complete fuel opt w t : opt = w ++ t -> Z.of_nat (length opt) = DHCP_MAX_OPTIONS_SIZE -> complete t -> (length t <= fuel)%nat ->
  scan none hit fuel opt (Z.of_nat (length w)) = Ok none.
Proof.
  intros -> Hl Ht Hf. rewrite length_app in Hl. destruct t as [|c t]; cbn [length] in *.
  - destruct fuel; simpl; zcase; (done || lia).
  - destruct fuel as [|fuel]; [lia|]. simpl. zcase; [done|]. rewrite byte_at_app by done. simpl. simpl in Ht. by subst c.
Qed.

(** One byte of an option is left: its length byte is read outside. *)
Lemma scan_lone fuel opt w c : opt = w ++ [c] -> Z.of_nat (length opt) = DHCP_MAX_OPTIONS_SIZE ->
  c <> DHCP_OPT_END -> c <> DHCP_OPT_PAD -> (0 < fuel)%nat ->
  scan none hit fuel opt (Z.of_nat (length w)) = Undef.
Proof.
  intros -> Hl He Hp Hf. rewrite length_app in Hl. cbn [length] in Hl. destruct fuel as [|fuel]; [lia|]. simpl.
  destruct (Z.leb_spec DHCP_MAX_OPTIONS_SIZE (Z.of_nat (length w))); [lia|]. rewrite byte_at_app by done. simpl.
  destruct (Z.eqb_spec c DHCP_OPT_END); [done|]. destruct (Z.eqb_spec c DHCP_OPT_PAD); [done|].
  unfold byte_at. zcase; [|done]. rewrite lookup_ge_None_2; [done|]. rewrite length_app. simpl. lia.
Qed.
End scan.

(** The first option with this code and at least [n] bytes of data. *)
Fixpoint first_long (n code : Z) (l : list item) : option (list Z) :=
  match l with
  | [] => None
  | Pad :: l => first_long n code l
  | Opt c d :: l => if (c =? code) && (n <=? Z.of_nat (length d)) then Some d else first_long n code l
  end.

Lemma first_hit_long {A} n code (f : list Z -> outcome A) l :
  first_hit (fun c d => if (c =? code) && (n <=? Z.of_nat (length d)) then Some (f d) else None) l = f <$> first_long n code l.
Proof. induction l as [|[|c d] l IH]; simpl; [done|done|]. by destruct (_ && _). Qed.

Lemma first_hit_with {A} code (f : list Z -> outcome A) l :
  first_hit (fun c d => if c =? code then Some (f d) else None) l = f <$> first_with code l.
Proof. induction l as [|[|c d] l IH]; simpl; [done|done|]. by destruct (c =? code). Qed.

Lemma first_long_length n code l d : first_long n code l = Some d -> n <= Z.of_nat (length d).
Proof.
  induction l as [|[|c e] l IH]; simpl; [done|done|]. destruct (c =? code); simpl; [|done]. zcase; [|done]. by intros [= <-].
Qed.

Lemma wire_length_ge l : (length l <= length (wire l))%nat.
Proof. induction l as [|it l IH]; [simpl; lia|]. rewrite wire_cons, length_app. destruct it; simpl in *; lia. Qed.

(** A whole scan of a packet whose options are complete. *)
Lemma scan_packet {A} (none : A) hit hit' pkt : packet_ok pkt -> complete (tail_of (options pkt)) -> hit_spec hit hit' (options pkt) ->
  scan none hit scan_fuel (options pkt) 0 =
    match first_hit hit' (items_of (options pkt)) with Some r => r | None => Ok none end.
Proof.
  intros Hp Hc Hh. destruct (options_split pkt Hp) as (E & Hok & _ & Hf).
  rewrite (scan_run none hit hit' _ _ Hh (proj1 Hp) _ Hok scan_fuel [] 0 E eq_refl Hf).
  destruct (first_hit _ _); [done|]. eapply scan_complete; [exact E|by apply Hp|done|].
  pose proof (wire_length_ge (items_of (options pkt))). rewrite length_app in Hf. lia.
Qed.

(** The data of the option at the end of a known prefix. *)
Lemma load_data (pre : list Z) c n d rest i m : i = Z.of_nat (length pre) + 2 -> 0 <= m <= Z.of_nat (length d) ->
  load (pre ++ c :: n :: d ++ rest) i m = Ok (take (Z.to_nat m) d).
Proof.
  intros -> Hm. rewrite <- (take_drop (Z.to_nat m) d) at 1.
  change (c :: n :: ?x) with ([c; n] ++ x). rewrite <- (assoc_L (++)), (assoc_L (++) pre).
  apply load_app; [rewrite length_app; simpl; lia|]. rewrite length_take. lia.
Qed.

(** The option helpers of dhcp_protocol.h on a packet whose options are complete (they end
    with END or with the array): the message type is the first byte of the first non-empty
    option 53, the requested address and the server identifier are the first four bytes of
    the first option 50 and 54 that has four, and dhcp_get_option answers every query like
    dhcp_option_find_in_packet.  None of them leaves the packet. *)
Theorem packet_helpers pkt : packet_ok pkt -> complete (tail_of (options pkt)) ->
  let l := items_of (options pkt) in
  dhcp_get_msg_type pkt = Ok (match first_long 1 DHCP_OPT_MSG_TYPE l with Some (b :: _) => b | _ => -1 end) /\
  dhcp_get_requested_ip pkt = Ok (match first_long 4 DHCP_OPT_REQUESTED_IP l with Some d => un_le (take 4 d) | None => 0 end) /\
  dhcp_get_server_id pkt = Ok (match first_long 4 DHCP_OPT_SERVER_ID l with Some d => un_le (take 4 d) | None => 0 end) /\
  forall code buf buflen, dhcp_get_option pkt code buf buflen = dhcp_option_find_in_packet pkt code buf buflen.
Proof.
  intros Hp Hc. cbv zeta.
  assert (forall code, hit_spec (fun i c n => if (c =? code) && (4 <=? n) then Some (let! ip := load (options pkt) (i + 2) 4 in Ok (un_le ip)) else None)
     (fun c d => if (c =? code) && (4 <=? Z.of_nat (length d)) then Some (Ok (un_le (take 4 d))) else None) (options pkt)) as Hip.
  { intros code pre c d rest E. destruct (_ && _) eqn:T; [|done]. apply andb_true_iff in T as [_ T%Z.leb_le].
    rewrite E, load_data by (done || lia). done. }
  split; [|split; [|split]].
  - unfold dhcp_get_msg_type. rewrite (scan_packet _ _ (fun c d => if (c =? DHCP_OPT_MSG_TYPE) && (1 <=? Z.of_nat (length d))
      then Some (of_option (head d)) else None) pkt Hp Hc).
    + rewrite first_hit_long. destruct (first_long _ _ _) as [d|] eqn:Ef; [|done]. apply first_long_length in Ef.
      destruct d as [|b d]; [simpl in Ef; lia|done].
    + intros pre c d rest E. destruct (_ && _) eqn:T; [|done]. apply andb_true_iff in T as [_ T%Z.leb_le].
      destruct d as [|b d]; [simpl in T; lia|]. f_equal. rewrite E. change (c :: ?n :: (b :: d) ++ rest) with ([c; n] ++ b :: d ++ rest).
      rewrite (assoc_L (++)). apply byte_at_app. rewrite length_app. simpl. lia.
  - unfold dhcp_get_requested_ip. rewrite (scan_packet _ _ _ pkt Hp Hc (Hip _)), first_hit_long. by destruct (first_long _ _ _).
  - unfold dhcp_get_server_id. rewrite (scan_packet _ _ _ pkt Hp Hc (Hip _)), first_hit_long. by destruct (first_long _ _ _).
  - intros code buf buflen. unfold dhcp_get_option.
    rewrite (scan_packet _ _ (fun c d => if c =? code then Some (deliver buf buflen d) else None) pkt Hp Hc).
    + rewrite first_hit_with. destruct (options_split pkt Hp) as (E & Hok & Hst & Hf). unfold dhcp_option_find_in_packet.
      rewrite (find_loop_run code buflen buf _ Hst _ Hok scan_fuel (options pkt) [] 0 E (proj1 Hp) eq_refl Hf).
      destruct (first_with _ _); [done|]. simpl. unfold find_tail, cut_off. destruct (tail_of (options pkt)) as [|c [|n d]]; [done|done|].
      simpl in Hc. by subst c.
    + intros pre c d rest E. destruct (c =? code); [|done]. f_equal. unfold deliver. destruct buf as [b|]; [|done].
      zcase; [|done]. rewrite E, load_data by (done || lia). rewrite Nat2Z.id, take_ge by lia. done.
Qed.

(** A demonstration packet. *)
Definition demo_packet (opts : list Z) : dhcp_packet :=
  mkPacket 1 1 6 0 7 0 0 0 0 0 0 (zeros 16) (zeros 64) (zeros 128) 0x63538263 opts.

Definition demo_options : list Z := wire [Opt 53 [3]; Pad; Opt 50 [10; 0; 0; 9]; Opt 82 [1; 2; 65; 66]; Opt 12 [104; 105]] ++ [255].
Definition demo_request : dhcp_packet := demo_packet (demo_options ++ zeros (308 - Z.of_nat (length demo_options))).

Lemma demo_request_ok : packet_ok demo_request /\ complete (tail_of (options demo_request)).
Proof.
  split; [split|].
  - reflexivity.
  - apply (bool_decide_unpack (Forall is_byte (options demo_request))). vm_compute. exact I.
  - vm_compute. reflexivity.
Qed.

Lemma find_in_packet_spec_witness :
  dhcp_option_find_in_packet demo_request 82 (Some (zeros 8)) 8 = Ok (4, Some [1; 2; 65; 66; 0; 0; 0; 0]).
Proof. rewrite (find_in_packet_spec demo_request 82 (Some (zeros 8)) 8 (proj1 demo_request_ok)). vm_compute. reflexivity. Defined.

Lemma packet_helpers_witness :
  dhcp_get_msg_type demo_request = Ok 3 /\ dhcp_get_requested_ip demo_request = Ok 0x0900000A /\ dhcp_get_server_id demo_request = Ok 0.
Proof.
  destruct (packet_helpers demo_request (proj1 demo_request_ok) (proj2 demo_request_ok)) as (-> & -> & -> & _).
  vm_compute. done.
Defined.

(** ** Stripping option 82 *)

Definition not_relay (it : item) : Prop := match it with Opt c _ => c <> DHCP_OPT_RELAY_AGENT | Pad => True end.
#[export] Instance not_relay_dec it : Decision (not_relay it).
Proof. destruct it; simpl; apply _. Defined.

(** Write [bytes] over the start of what follows a prefix. *)
Lemma store_over (pre old rest bytes : list Z) w : w = Z.of_nat (length pre) -> (length bytes <= length old)%nat ->
  store (pre ++ old ++ rest) w bytes = Ok ((pre ++ bytes) ++ drop (length bytes) old ++ rest).
Proof.
  intros -> Hl. rewrite <- (take_drop (length bytes) old) at 1. rewrite <- (assoc_L (++)).
  rewrite store_app by (rewrite ?length_take; lia). by rewrite <- !(assoc_L (++)).
Qed.

(** The array holds what was kept, a gap, and the items still to read: one iteration of the
    loop on the end, a pad byte, an option 82 and any other option. *)
Section strip_step.
Context (fuel : nat) (kept gap rest : list Z) (i w : Z).
Context (Hi : i = Z.of_nat (length kept + length gap)) (Hw : w = Z.of_nat (length kept)).

Lemma strip_end : i < DHCP_MAX_OPTIONS_SIZE ->
  strip_loop (S fuel) (kept ++ gap ++ DHCP_OPT_END :: rest) i w = Ok (kept ++ gap ++ DHCP_OPT_END :: rest, w).
Proof.
  intros Hlt. cbn [strip_loop]. destruct (Z.leb_spec DHCP_MAX_OPTIONS_SIZE i); [lia|].
  by rewrite (assoc_L (++)), byte_at_app by (rewrite length_app; lia).
Qed.

Lemma strip_pad : i < DHCP_MAX_OPTIONS_SIZE ->
  strip_loop (S fuel) (kept ++ gap ++ [DHCP_OPT_PAD] ++ rest) i w =
  strip_loop fuel ((kept ++ [DHCP_OPT_PAD]) ++ drop 1 (gap ++ [DHCP_OPT_PAD]) ++ rest) (i + 1) (w + 1).
Proof.
  intros Hlt. cbn [strip_loop]. destruct (Z.leb_spec DHCP_MAX_OPTIONS_SIZE i); [lia|].
  assert (byte_at (kept ++ gap ++ [DHCP_OPT_PAD] ++ rest) i = Ok DHCP_OPT_PAD) as ->.
  { rewrite (assoc_L (++) kept). apply byte_at_app. rewrite length_app. lia. }
  rewrite (assoc_L (++) gap).
  cbn [obind]. change (DHCP_OPT_PAD =? DHCP_OPT_END) with false. change (DHCP_OPT_PAD =? DHCP_OPT_PAD) with true. cbv iota.
  destruct (Z.ltb_spec w DHCP_MAX_OPTIONS_SIZE); [|lia]. by rewrite store_over by (rewrite ?length_app; simpl; lia).
Qed.

Context (c : Z) (d : list Z) (Hc : 0 < c < 255) (Hfit : i + 2 + Z.of_nat (length d) < DHCP_MAX_OPTIONS_SIZE).

Lemma strip_option :
  let it := c :: Z.of_nat (length d) :: d in
  strip_loop (S fuel) (kept ++ gap ++ it ++ rest) i w =
  if decide (c = DHCP_OPT_RELAY_AGENT) then strip_loop fuel (kept ++ (gap ++ it) ++ rest) (i + (2 + Z.of_nat (length d))) w
  else strip_loop fuel ((kept ++ it) ++ drop (length it) (gap ++ it) ++ rest) (i + (2 + Z.of_nat (length d))) (w + (2 + Z.of_nat (length d))).
Proof.
  intros it. apply not_pad_end in Hc as [E1 E2]. set (opt := kept ++ gap ++ it ++ rest).
  assert (opt = (kept ++ gap) ++ it ++ rest) as E by (unfold opt; by rewrite <- (assoc_L (++))).
  cbn [strip_loop]. destruct (Z.leb_spec DHCP_MAX_OPTIONS_SIZE i); [lia|].
  assert (byte_at opt i = Ok c) as -> by (rewrite E; apply byte_at_app; rewrite length_app; lia).
  cbn [obind]. rewrite E1, E2. destruct (Z.leb_spec DHCP_MAX_OPTIONS_SIZE (i + 1)); [lia|].
  assert (byte_at opt (i + 1) = Ok (Z.of_nat (length d))) as -> by (rewrite E; apply byte_at_app1; rewrite length_app; lia).
  cbn [obind]. destruct (Z.eqb_spec c DHCP_OPT_RELAY_AGENT) as [Hr|Hr].
  - rewrite decide_True by done. cbn [negb obind]. unfold opt. by rewrite (assoc_L (++) gap).
  - rewrite decide_False by done. cbn [negb]. destruct (Z.ltb_spec (w + (2 + Z.of_nat (length d))) DHCP_MAX_OPTIONS_SIZE); [|lia].
    rewrite E at 1. rewrite load_app by (rewrite ?length_app; simpl; lia). cbn [obind].
    unfold opt. rewrite (assoc_L (++) gap), store_over by (rewrite ?length_app; simpl; lia). done.
Qed.
End strip_step.

Lemma strip_loop_run rest : forall l, Forall item_ok l -> forall fuel kept gap i w,
  Z.of_nat (length (kept ++ gap ++ wire l ++ DHCP_OPT_END :: rest)) = DHCP_MAX_OPTIONS_SIZE ->
  i = Z.of_nat (length kept + length gap) -> w = Z.of_nat (length kept) -> (length (wire l ++ DHCP_OPT_END :: rest) <= fuel)%nat ->
  exists more, strip_loop fuel (kept ++ gap ++ wire l ++ DHCP_OPT_END :: rest) i w =
    Ok ((kept ++ wire (filter not_relay l)) ++ more, Z.of_nat (length (kept ++ wire (filter not_relay l)))) /\
    Z.of_nat (length ((kept ++ wire (filter not_relay l)) ++ more)) = DHCP_MAX_OPTIONS_SIZE.
Proof.
  intros l Hl. induction Hl as [|it l Hit Hl IH]; intros fuel kept gap i w Hlen Hi Hw Hf.
  - rewrite filter_nil. change (wire []) with (@nil Z) in *. rewrite !app_nil_l, !app_nil_r in *. rewrite !length_app in Hlen.
    cbn [length] in *. destruct fuel as [|fuel]; [lia|]. exists (gap ++ DHCP_OPT_END :: rest). rewrite strip_end by lia.
    split; [by rewrite Hw|]. rewrite !length_app. done.
  - rewrite wire_cons, <- (assoc_L (++)) in *. rewrite !length_app in Hlen. rewrite !length_app in Hf. cbn [length] in Hlen, Hf.
    destruct fuel as [|fuel]; [lia|]. destruct it as [|c d].
    + cbn [item_bytes length] in *. rewrite strip_pad by (done || lia).
      rewrite filter_cons_True, wire_cons, (assoc_L (++) kept (item_bytes Pad) (wire _)) by done.
      apply IH; rewrite ?length_app, ?length_drop, ?length_app; cbn [length item_bytes]; lia.
    + cbn [item_bytes length] in *. rewrite (strip_option fuel kept gap _ i w Hi Hw c d (proj1 Hit) ltac:(lia)).
      case_decide as Hc.
      * rewrite filter_cons_False by (simpl; tauto). apply IH; rewrite ?length_app; cbn [length]; lia.
      * rewrite filter_cons_True, wire_cons, (assoc_L (++) kept (item_bytes (Opt c d)) (wire _)) by done.
        apply IH; rewrite ?length_app, ?length_drop, ?length_app; cbn [length item_bytes]; lia.
Qed.

Lemma strip_relay_run pkt rest : packet_ok pkt -> tail_of (options pkt) = DHCP_OPT_END :: rest ->
  let kept := wire (filter not_relay (items_of (options pkt))) in
  dhcp_option_strip_relay_info pkt =
    Ok (0, set_options (kept ++ DHCP_OPT_END :: zeros (DHCP_MAX_OPTIONS_SIZE - 1 - Z.of_nat (length kept))) pkt).
Proof.
  intros Hp Et kept. destruct (options_split pkt Hp) as (E & Hok & _ & Hf). destruct Hp as [Hlen _].
  unfold dhcp_option_strip_relay_info. rewrite Et in E, Hf. pose proof Hlen as Hlen'. rewrite E in Hlen'.
  destruct (strip_loop_run rest _ Hok scan_fuel [] [] 0 0 Hlen' eq_refl eq_refl Hf) as (more & Hs & Hl).
  rewrite !app_nil_l in Hs. rewrite !app_nil_l in E. rewrite <- E in Hs. rewrite Hs. fold kept. cbn [obind].
  rewrite app_nil_l in Hl. fold kept in Hl. rewrite length_app in Hl.
  assert (length kept <= length (wire (items_of (options pkt))))%nat as Hk.
  { unfold kept. clear. induction (items_of (options pkt)) as [|it l IH]; [done|]. rewrite wire_cons, length_app, filter_cons.
    case_decide; [rewrite wire_cons, length_app; lia|lia]. }
  rewrite E, length_app in Hlen. cbn [length] in Hlen.
  destruct (Z.ltb_spec (Z.of_nat (length kept)) DHCP_MAX_OPTIONS_SIZE) as [_|]; [|lia].
  destruct more as [|m more]; cbn [length] in Hl; [lia|]. change (kept ++ m :: more) with (kept ++ [m] ++ more).
  rewrite store_app by done. cbn [obind]. destruct (Z.ltb_spec (Z.of_nat (length kept) + 1) DHCP_MAX_OPTIONS_SIZE) as [Hz|Hz].
  - pose proof (store_app (kept ++ [DHCP_OPT_END]) more (zeros (DHCP_MAX_OPTIONS_SIZE - (Z.of_nat (length kept) + 1))) []
      (Z.of_nat (length kept) + 1)) as Hst. rewrite !app_nil_r, <- !(assoc_L (++)) in Hst. rewrite Hst; cbn [obind].
    + by replace (DHCP_MAX_OPTIONS_SIZE - (Z.of_nat (length kept) + 1)) with (DHCP_MAX_OPTIONS_SIZE - 1 - Z.of_nat (length kept)) by lia.
    + rewrite length_app. simpl. lia.
    + unfold zeros. rewrite length_replicate. lia.
  - destruct more; [|cbn [length] in Hl; lia]. cbn [obind]. replace (DHCP_MAX_OPTIONS_SIZE - 1 - Z.of_nat (length kept)) with 0 by lia. done.
Qed.

(** Dhcp_option_strip_relay_info on a packet whose options end with END removes every
    option 82 and nothing else: the other options and the pad bytes keep their order and
    their bytes, END follows them, and the rest of the array is zero.  No byte outside the
    array is read or written, and the rest of the packet stays. *)
Theorem strip_relay_exact pkt rest : packet_ok pkt -> tail_of (options pkt) = DHCP_OPT_END :: rest ->
  let kept := wire (filter not_relay (items_of (options pkt))) in
  dhcp_option_strip_relay_info pkt =
    Ok (0, set_options (kept ++ DHCP_OPT_END :: zeros (DHCP_MAX_OPTIONS_SIZE - 1 - Z.of_nat (length kept))) pkt).
Proof. apply strip_relay_run. Qed.

Lemma strip_relay_exact_witness :
  dhcp_option_strip_relay_info demo_request =
    Ok (0, set_options (wire [Opt 53 [3]; Pad; Opt 50 [10; 0; 0; 9]; Opt 12 [104; 105]] ++ 255 :: zeros 293) demo_request).
Proof.
  rewrite (strip_relay_exact demo_request (zeros 287) (proj1 demo_request_ok)); vm_compute; reflexivity.
Defined.

(** ** Relay agent information *)

(** A sub-option's effect on the result; the loop applies them in order. *)
Definition sub_effect (info : dhcp_relay_info) (s : Z * list Z) : outcome dhcp_relay_info := relay_sub info (fst s) (snd s).

Fixpoint sub_effects (info : dhcp_relay_info) (l : list (Z * list Z)) : outcome dhcp_relay_info :=
  match l with
  | [] => Ok info
  | s :: l => let! info := sub_effect info s in sub_effects info l
  end.

Lemma relay_loop_run rest : forall l fuel buf len pre i info,
  buf = pre ++ wire (opt_items l) ++ rest -> len = Z.of_nat (length (pre ++ wire (opt_items l))) -> i = Z.of_nat (length pre) ->
  (length (wire (opt_items l)) <= fuel)%nat -> relay_loop fuel buf len i info = sub_effects info l.
Proof.
  induction l as [|[c d] l IH]; intros fuel buf len pre i info -> -> -> Hf.
  - change (wire (opt_items [])) with (@nil Z). rewrite app_nil_r.
    destruct fuel; simpl; (destruct (Z.ltb_spec (Z.of_nat (length pre)) (Z.of_nat (length pre) + 2)); [done|lia]).
  - change (opt_items ((c, d) :: l)) with (Opt c d :: opt_items l) in *. rewrite wire_cons in *. rewrite !length_app in *.
    cbn [item_bytes length] in *. destruct fuel as [|fuel]; [lia|]. cbn [relay_loop].
    destruct (Z.ltb_spec (Z.of_nat (length pre + (S (S (length d)) + length (wire (opt_items l))))) (Z.of_nat (length pre) + 2)); [lia|].
    rewrite <- (assoc_L (++)). cbn [app]. rewrite byte_at_app by done. cbn [obind]. rewrite byte_at_app1 by done. cbn [obind].
    destruct (Z.ltb_spec (Z.of_nat (length pre + (S (S (length d)) + length (wire (opt_items l))))) (Z.of_nat (length pre) + 2 + Z.of_nat (length d))); [lia|].
    rewrite load_data by lia. cbn [obind]. rewrite Nat2Z.id, take_ge by lia. cbn [sub_effects]. unfold sub_effect at 1. cbn [fst snd].
    destruct (relay_sub info c d) as [info'| |]; [|done|done]. cbn [obind].
    apply (IH _ _ _ (pre ++ c :: Z.of_nat (length d) :: d)); [|rewrite !length_app; cbn [length]; lia|rewrite length_app; cbn [length]; lia|lia].
    by rewrite <- (assoc_L (++)).
Qed.

(** The sub-options that are written: the non-empty ones. *)
Definition sub_list (code : Z) (id : list Z) : list (Z * list Z) := match id with [] => [] | _ => [(code, id)] end.
Definition relay_subs (circuit remote sel : list Z) : list (Z * list Z) :=
  sub_list DHCP_RAI_CIRCUIT_ID circuit ++ sub_list DHCP_RAI_REMOTE_ID remote ++ sub_list DHCP_RAI_LINK_SELECTION sel.

Definition sub_bytes (l : list (Z * list Z)) : list Z := wire (opt_items l).

Lemma sub_bytes_app l1 l2 : sub_bytes (l1 ++ l2) = sub_bytes l1 ++ sub_bytes l2.
Proof. unfold sub_bytes, opt_items. by rewrite fmap_app, wire_app. Qed.

Lemma sub_bytes_one code b id : sub_bytes (sub_list code (b :: id)) = code :: Z.of_nat (length (b :: id)) :: b :: id.
Proof. change (sub_bytes _) with ((code :: Z.of_nat (length (b :: id)) :: b :: id) ++ []). apply app_nil_r. Qed.

Lemma sub_total_list total code id : 0 <= total -> total + 2 + Z.of_nat (length id) < u64_mod ->
  sub_total total (Some id) (Z.of_nat (length id)) = total + Z.of_nat (length (sub_bytes (sub_list code id))).
Proof.
  intros H0 Hlt. unfold sub_total, sub_present. destruct id as [|b id]; [simpl; lia|].
  destruct (Z.ltb_spec 0 (Z.of_nat (length (b :: id)))); [|simpl in *; lia].
  rewrite sub_bytes_one, !u64_small by (unfold is_u64; rewrite ?u64_small by (unfold is_u64; lia); lia). cbn [length]. lia.
Qed.

Lemma put_sub_written l w code id : written l w -> (length id <= 255)%nat ->
  Z.of_nat (length w + length (sub_bytes (sub_list code id))) <= DHCP_MAX_OPTIONS_SIZE ->
  exists l', put_sub l code (Some id) (Z.of_nat (length id)) = Ok l' /\ written l' (w ++ sub_bytes (sub_list code id)) /\
    count l' = count l /\ finalized l' = finalized l.
Proof.
  intros Hw Hid Hfit. unfold put_sub, sub_present. destruct id as [|b id]; [exists l; simpl; by rewrite app_nil_r|].
  destruct (Z.ltb_spec 0 (Z.of_nat (length (b :: id)))); [|simpl in *; lia]. remember (b :: id) as d eqn:Ed.
  assert (sub_bytes (sub_list code d) = code :: Z.of_nat (length d) :: d) as Es.
  { rewrite Ed. apply sub_bytes_one. }
  rewrite Es in *. cbn [length] in Hfit.
  destruct (put_written l w [code] Hw) as (l1 & -> & W1 & C1 & F1); [simpl; lia|]. cbn [obind].
  assert (u8 (Z.of_nat (length d)) = Z.of_nat (length d)) as -> by (unfold u8, u8_mod; apply Z.mod_small; lia).
  destruct (put_written l1 _ [Z.of_nat (length d)] W1) as (l2 & -> & W2 & C2 & F2); [rewrite length_app; simpl; lia|]. cbn [obind].
  rewrite load_all. cbn [obind].
  destruct (put_written l2 _ d W2) as (l3 & -> & W3 & C3 & F3); [rewrite !length_app; cbn [length]; lia|].
  exists l3. rewrite <- !(assoc_L (++)) in W3. split; [done|]. split; [done|]. split; congruence.
Qed.

(** Adding relay information appends one option 82 whose data are the sub-options. *)
Lemma add_relay_built l opts circuit remote sel : built l opts ->
  let subs := sub_bytes (relay_subs circuit remote sel) in
  (0 < length subs <= 255)%nat -> offset l + 2 + Z.of_nat (length subs) <= DHCP_MAX_OPTIONS_SIZE - 1 ->
  exists l', dhcp_option_add_relay_info_ex l (Some circuit) (Z.of_nat (length circuit)) (Some remote) (Z.of_nat (length remote))
      (Some sel) (Z.of_nat (length sel)) = Ok (0, l') /\ built l' (opts ++ [(DHCP_OPT_RELAY_AGENT, subs)]).
Proof.
  intros (Hw & Ho & Hc & Hf) subs Hsubs Hfit. unfold dhcp_option_add_relay_info_ex. rewrite Hf.
  unfold subs, relay_subs in *. rewrite !sub_bytes_app, !length_app in *.
  assert (forall code id, (length id <= length (sub_bytes (sub_list code id)))%nat) as Hge.
  { intros code [|b id]; [simpl; lia|]. rewrite sub_bytes_one. simpl. lia. }
  pose proof (Hge DHCP_RAI_CIRCUIT_ID circuit) as G1. pose proof (Hge DHCP_RAI_REMOTE_ID remote) as G2.
  pose proof (Hge DHCP_RAI_LINK_SELECTION sel) as G3.
  set (s1 := sub_bytes (sub_list DHCP_RAI_CIRCUIT_ID circuit)) in *. set (s2 := sub_bytes (sub_list DHCP_RAI_REMOTE_ID remote)) in *.
  set (s3 := sub_bytes (sub_list DHCP_RAI_LINK_SELECTION sel)) in *.
  rewrite (sub_total_list 0 DHCP_RAI_CIRCUIT_ID circuit) by (unfold u64_mod; lia). fold s1.
  rewrite (sub_total_list _ DHCP_RAI_REMOTE_ID remote) by (unfold u64_mod; lia). fold s2.
  rewrite (sub_total_list _ DHCP_RAI_LINK_SELECTION sel) by (unfold u64_mod; lia). fold s3.
  set (n := 0 + Z.of_nat (length s1) + Z.of_nat (length s2) + Z.of_nat (length s3)).
  destruct (Z.eqb_spec n 0); [lia|]. destruct (Z.ltb_spec 255 n); [lia|]. cbn [orb].
  destruct (Z.ltb_spec (DHCP_MAX_OPTIONS_SIZE - 1) (offset l + 2 + n)); [lia|].
  pose proof Hw as (_ & _ & Eo & _). unfold DHCP_MAX_OPTIONS_SIZE in *.
  destruct (put_written l _ [DHCP_OPT_RELAY_AGENT] Hw) as (l1 & -> & W1 & C1 & F1); [unfold DHCP_MAX_OPTIONS_SIZE; simpl; lia|]. cbn [obind].
  assert (u8 n = n) as -> by (unfold u8, u8_mod; apply Z.mod_small; lia).
  destruct (put_written l1 _ [n] W1) as (l2 & -> & W2 & C2 & F2); [unfold DHCP_MAX_OPTIONS_SIZE; rewrite length_app; simpl; lia|]. cbn [obind].
  destruct (put_sub_written l2 _ DHCP_RAI_CIRCUIT_ID circuit W2) as (l3 & -> & W3 & C3 & F3); [lia|fold s1; unfold DHCP_MAX_OPTIONS_SIZE; rewrite !length_app; simpl; lia|].
  cbn [obind]. fold s1 in W3.
  destruct (put_sub_written l3 _ DHCP_RAI_REMOTE_ID remote W3) as (l4 & -> & W4 & C4 & F4); [lia|fold s2; unfold DHCP_MAX_OPTIONS_SIZE; rewrite !length_app; simpl; lia|].
  cbn [obind]. fold s2 in W4.
  destruct (put_sub_written l4 _ DHCP_RAI_LINK_SELECTION sel W4) as (l5 & -> & W5 & C5 & F5); [lia|fold s3; unfold DHCP_MAX_OPTIONS_SIZE; rewrite !length_app; simpl; lia|].
  cbn [obind]. fold s3 in W5. eexists. split; [done|]. rewrite <- !(assoc_L (++)) in W5. split.
  - rewrite wire_snoc, !length_app, <- !(assoc_L (++)). replace (Z.of_nat _) with n by lia. destruct W5 as (r & ? & ? & ?). by exists r.
  - destruct W5 as (r & _ & Eo5 & _). cbn [offset incr_count count finalized]. rewrite Eo5, !length_app. cbn [length]. cbn [length]. unfold DHCP_MAX_OPTIONS_SIZE.
    split; [lia|]. split; [lia|congruence].
Qed.

(** A query on the options a builder serialized. *)
Lemma find_serialized pkt opts rest code buf buflen :
  options pkt = wire (opt_items opts) ++ DHCP_OPT_END :: rest -> Z.of_nat (length (options pkt)) = DHCP_MAX_OPTIONS_SIZE ->
  Forall option_ok opts ->
  dhcp_option_find_in_packet pkt code buf buflen =
    match first_with code (opt_items opts) with Some d => deliver buf buflen d | None => Ok (-1, buf) end.
Proof.
  intros E Hl Hok. unfold dhcp_option_find_in_packet.
  rewrite (find_loop_run code buflen buf (DHCP_OPT_END :: rest) ltac:(by left) _ (opt_items_ok _ Hok) scan_fuel (options pkt) [] 0 E Hl eq_refl).
  - by destruct (first_with code (opt_items opts)), rest.
  - rewrite <- E. unfold scan_fuel. lia.
Qed.

(** What the parsed relay information must hold. *)
Definition relay_info_is (info : dhcp_relay_info) (circuit remote sel : list Z) : Prop :=
  circuit_id_len info = Z.of_nat (length circuit) /\ take (length circuit) (circuit_id info) = circuit /\
  remote_id_len info = Z.of_nat (length remote) /\ take (length remote) (remote_id info) = remote /\
  has_link_sel info = negb (bool_decide (sel = [])) /\ (sel <> [] -> link_sel info = sel).

Lemma store_front (mem d : list Z) : (length d <= length mem)%nat ->
  exists mem', store mem 0 d = Ok mem' /\ take (length d) mem' = d /\ length mem' = length mem.
Proof.
  intros Hl. pose proof (store_app [] (take (length d) mem) d (drop (length d) mem) 0 eq_refl ltac:(rewrite length_take; lia)) as E.
  simpl in E. rewrite take_drop in E. exists (d ++ drop (length d) mem). split; [done|]. split; [apply take_app_length|].
  rewrite length_app, length_drop. lia.
Qed.

(** One sub-option, or none when the identifier is empty. *)
Lemma sub_effects_app info l1 l2 : sub_effects info (l1 ++ l2) = let! info := sub_effects info l1 in sub_effects info l2.
Proof. revert info. induction l1 as [|s l1 IH]; intros info; [done|]. simpl. destruct (sub_effect info s); simpl; auto. Qed.

Lemma relay_subs_effect circuit remote sel :
  (length circuit <= 255)%nat -> (length remote <= 255)%nat -> (sel = [] \/ length sel = 4%nat) ->
  exists info, sub_effects relay_info_zero (relay_subs circuit remote sel) = Ok info /\ relay_info_is info circuit remote sel.
Proof.
  intros Hc Hr Hs. unfold relay_subs. rewrite sub_effects_app.
  assert (exists c, sub_effects relay_info_zero (sub_list DHCP_RAI_CIRCUIT_ID circuit) =
      Ok (mkRelayInfo c (Z.of_nat (length circuit)) (zeros 255) 0 (zeros 4) false) /\ take (length circuit) c = circuit) as (c & -> & Ec).
  { destruct circuit as [|b circuit]; [by exists (zeros 255)|]. destruct (store_front (zeros 255) (b :: circuit)) as (c & E & Et & _); [done|].
    exists c. split; [|done]. simpl sub_effects. unfold sub_effect, relay_sub. cbn [fst snd circuit_id relay_info_zero Z.eqb]. by rewrite E. }
  cbn [obind]. rewrite sub_effects_app.
  assert (exists r, sub_effects (mkRelayInfo c (Z.of_nat (length circuit)) (zeros 255) 0 (zeros 4) false) (sub_list DHCP_RAI_REMOTE_ID remote) =
      Ok (mkRelayInfo c (Z.of_nat (length circuit)) r (Z.of_nat (length remote)) (zeros 4) false) /\ take (length remote) r = remote) as (r & -> & Er).
  { destruct remote as [|b remote]; [by exists (zeros 255)|]. destruct (store_front (zeros 255) (b :: remote)) as (r & E & Et & _); [done|].
    exists r. split; [|done]. simpl sub_effects. unfold sub_effect, relay_sub. cbn. by rewrite E. }
  cbn [obind]. destruct Hs as [->|Hs].
  - eexists. split; [done|]. unfold relay_info_is. cbn [circuit_id circuit_id_len remote_id remote_id_len link_sel has_link_sel].
    rewrite bool_decide_eq_true_2 by done. tauto.
  - do 5 (destruct sel as [|? sel]; [try discriminate Hs|]); [|discriminate Hs].
    eexists. split; [reflexivity|]. unfold relay_info_is. cbn [circuit_id circuit_id_len remote_id remote_id_len link_sel has_link_sel].
    rewrite bool_decide_eq_false_2 by done. tauto.
Qed.

Lemma first_with_accepted code opts : forall used, first_with code (opt_items opts) = None ->
  first_with code (opt_items (accepted used opts)) = None.
Proof.
  induction opts as [|[c d] opts IH]; intros used; [done|]. simpl. destruct (c =? code) eqn:E; [done|].
  intros H. destruct (_ <? _); [by apply IH|]. simpl. rewrite E. by apply IH.
Qed.

Lemma first_with_snoc code opts d : first_with code (opt_items opts) = None -> first_with code (opt_items (opts ++ [(code, d)])) = Some d.
Proof.
  induction opts as [|[c e] opts IH]; simpl; [by rewrite Z.eqb_refl|]. destruct (c =? code); [done|]. exact IH.
Qed.

(** The options of a builder, serialized into a packet, answer the queries. *)
Lemma serialize_packet l opts pkt : built l opts -> Forall option_ok opts -> Z.of_nat (length (options pkt)) = DHCP_MAX_OPTIONS_SIZE ->
  exists n l' o, dhcp_option_list_serialize l (options pkt) DHCP_MAX_OPTIONS_SIZE = Ok (n, l', o) /\
    forall code buf buflen, dhcp_option_find_in_packet (set_options o pkt) code buf buflen =
      match first_with code (opt_items opts) with Some d => deliver buf buflen d | None => Ok (-1, buf) end.
Proof.
  intros Hb Hok Hlen. pose proof Hb as ((r & _ & Eo & _) & Ho & _). fold (opt_items opts) in Eo.
  destruct (serialize_built l opts (options pkt) DHCP_MAX_OPTIONS_SIZE Hb) as (l' & rest & Es & Erest & _); [lia|].
  eexists _, l', _. split; [exact Es|]. intros code buf buflen. apply (find_serialized _ opts rest); [done| |done].
  cbn [options set_options]. rewrite length_app. cbn [length]. rewrite Erest, length_drop. lia.
Qed.

(** Parsing a packet in which the identifiers are found. *)
Lemma parse_found pkt circuit remote sel : (length circuit <= 255)%nat -> (length remote <= 255)%nat -> (sel = [] \/ length sel = 4%nat) ->
  let subs := sub_bytes (relay_subs circuit remote sel) in
  (0 < length subs <= 255)%nat ->
  dhcp_option_find_in_packet pkt DHCP_OPT_RELAY_AGENT (Some (zeros 255)) 255 = deliver (Some (zeros 255)) 255 subs ->
  exists info, dhcp_option_parse_relay_info pkt = Ok (0, info) /\ relay_info_is info circuit remote sel.
Proof.
  intros Hc Hr Hsel subs Hsubs Efind. destruct (relay_subs_effect circuit remote sel Hc Hr Hsel) as (info & Ei & Hinfo). exists info. split; [|done].
  unfold dhcp_option_parse_relay_info. rewrite Efind. unfold deliver. destruct (Z.leb_spec (Z.of_nat (length subs)) 255); [|lia].
  destruct (store_front (zeros 255) subs) as (b & Eb & Et & Hlb); [unfold zeros; rewrite length_replicate; lia|].
  rewrite Eb. cbn [obind]. destruct (Z.leb_spec (Z.of_nat (length subs)) 0); [lia|]. cbn [default].
  rewrite (relay_loop_run (drop (length subs) b) (relay_subs circuit remote sel) _ _ _ []); fold (sub_bytes (relay_subs circuit remote sel)).
  - by rewrite Ei.
  - rewrite app_nil_l. fold subs. rewrite <- Et at 1. by rewrite take_drop.
  - done.
  - done.
  - fold subs. lia.
Qed.

(** Relay agent information makes a round trip.  To any list of options without an option
    82, dhcp_option_add_relay_info_ex adds the circuit id, the remote id and a link selection
    of four bytes (each may be empty, not all) when they fit; dhcp_option_parse_relay_info
    on a packet with the serialized options gives back the same identifiers and lengths. *)
Theorem relay_info_roundtrip opts circuit remote sel pkt rs l :
  add_all dhcp_option_list_init opts = Ok (rs, l) -> Forall option_ok opts ->
  first_with DHCP_OPT_RELAY_AGENT (opt_items opts) = None ->
  let subs := sub_bytes (relay_subs circuit remote sel) in
  (0 < length subs <= 255)%nat -> (sel = [] \/ length sel = 4%nat) ->
  offset l + 2 + Z.of_nat (length subs) <= DHCP_MAX_OPTIONS_SIZE - 1 ->
  Z.of_nat (length (options pkt)) = DHCP_MAX_OPTIONS_SIZE ->
  exists l' n l'' o info,
    dhcp_option_add_relay_info_ex l (Some circuit) (Z.of_nat (length circuit)) (Some remote) (Z.of_nat (length remote))
      (Some sel) (Z.of_nat (length sel)) = Ok (0, l') /\
    dhcp_option_list_serialize l' (options pkt) DHCP_MAX_OPTIONS_SIZE = Ok (n, l'', o) /\
    dhcp_option_parse_relay_info (set_options o pkt) = Ok (0, info) /\ relay_info_is info circuit remote sel.
Proof.
  intros Hadd Hok Hnone subs Hsubs Hsel Hfit Hlen.
  destruct (add_all_built opts Hok _ _ built_init) as (l0 & E0 & Hb). rewrite Hadd in E0. injection E0 as _ <-.
  cbn [app offset dhcp_option_list_init] in Hb. apply (first_with_accepted _ _ 0) in Hnone. apply (accepted_ok _) with (used := 0) in Hok.
  set (acc := accepted 0 opts) in *. destruct (add_relay_built l acc circuit remote sel Hb Hsubs Hfit) as (l' & Er & Hb'). fold subs in Hb'.
  destruct (serialize_packet l' _ pkt Hb') as (n & l'' & o & Es & Efind); [|done|].
  { apply Forall_app. split; [done|]. constructor; [|done]. split; [done|]. simpl. lia. }
  assert (length circuit <= 255 /\ length remote <= 255)%nat as [Hc Hr].
  { unfold subs, relay_subs in Hsubs. rewrite !sub_bytes_app, !length_app in Hsubs.
    split; [destruct circuit as [|b id]|destruct remote as [|b id]]; try (simpl; lia); rewrite sub_bytes_one in Hsubs; cbn [length] in *; lia. }
  destruct (parse_found (set_options o pkt) circuit remote sel Hc Hr Hsel Hsubs) as (info & Ep & Hinfo); [by rewrite Efind, first_with_snoc|].
  by exists l', n, l'', o, info.
Qed.

Lemma relay_info_roundtrip_witness :
  exists rs l l' n l'' o info,
    add_all dhcp_option_list_init [(53, [1])] = Ok (rs, l) /\
    dhcp_option_add_relay_info_ex l (Some [101; 116; 104]) 3 (Some [7; 8]) 2 (Some [10; 0; 0; 1]) 4 = Ok (0, l') /\
    dhcp_option_list_serialize l' (options demo_request) DHCP_MAX_OPTIONS_SIZE = Ok (n, l'', o) /\
    dhcp_option_parse_relay_info (set_options o demo_request) = Ok (0, info) /\
    relay_info_is info [101; 116; 104] [7; 8] [10; 0; 0; 1].
Proof.
  destruct (add_all dhcp_option_list_init [(53, [1])]) as [[rs l]| |] eqn:E; [|vm_compute in E; discriminate E..].
  destruct (relay_info_roundtrip [(53, [1])] [101; 116; 104] [7; 8] [10; 0; 0; 1] demo_request rs l E) as (l' & n & l'' & o & info & H1 & H2 & H3 & H4).
  - constructor; [split; simpl; lia|constructor].
  - reflexivity.
  - vm_compute. split; lia.
  - by right.
  - vm_compute in E. injection E as _ <-. vm_compute. discriminate.
  - reflexivity.
  - exists rs, l, l', n, l'', o, info. done.
Defined.

(** A 32-bit value that was added is read back in host order. *)
Theorem u32_roundtrip opts code v pkt rs l dflt :
  add_all dhcp_option_list_init opts = Ok (rs, l) -> Forall option_ok opts -> 0 < code < 255 -> is_u32 v ->
  first_with code (opt_items opts) = None -> offset l + 6 <= DHCP_MAX_OPTIONS_SIZE - 1 ->
  Z.of_nat (length (options pkt)) = DHCP_MAX_OPTIONS_SIZE ->
  exists l' n l'' o, dhcp_option_add_u32 l code v = Ok (0, l') /\
    dhcp_option_list_serialize l' (options pkt) DHCP_MAX_OPTIONS_SIZE = Ok (n, l'', o) /\
    dhcp_option_get_u32_from_packet (set_options o pkt) code dflt = Ok v.
Proof.
  intros Hadd Hok Hcode Hv Hnone Hfit Hlen.
  destruct (add_all_built opts Hok _ _ built_init) as (l0 & E0 & Hb). rewrite Hadd in E0. injection E0 as _ <-.
  cbn [app offset dhcp_option_list_init] in Hb. apply (first_with_accepted _ _ 0) in Hnone. apply (accepted_ok _) with (used := 0) in Hok.
  set (acc := accepted 0 opts) in *. set (d := le 4 (htonl v)).
  destruct (add_built l acc code d [] Hb) as (l' & Ea & Hb'); [unfold d; rewrite length_le; lia|]. rewrite app_nil_r in Ea.
  assert (length d = 4%nat) as Ed by apply length_le. rewrite Ed in *. change (Z.of_nat 4) with 4 in *.
  destruct (Z.ltb_spec (DHCP_MAX_OPTIONS_SIZE - 1) (offset l + 2 + 4)); [lia|]. destruct Hb' as [Hb' Eo'].
  destruct (serialize_packet l' _ pkt Hb') as (n & l'' & o & Es & Efind); [|done|].
  { apply Forall_app. split; [done|]. constructor; [|done]. split; [done|]. cbn [snd]. lia. }
  exists l', n, l'', o. split; [exact Ea|]. split; [exact Es|]. unfold dhcp_option_get_u32_from_packet.
  rewrite Efind, first_with_snoc by done. unfold deliver. rewrite Ed. change (Z.of_nat 4 <=? 4) with true. cbv iota.
  pose proof (store_app [] (zeros 4) d [] 0 eq_refl (eq_sym Ed)) as Hst. rewrite !app_nil_l, !app_nil_r in Hst. rewrite Hst.
  cbn [obind]. change (Z.of_nat 4 =? 4) with true. cbv iota. change (default [] (Some d)) with d. unfold d.
  rewrite un_le_le; [by rewrite ntohl_htonl|]. pose proof (htonl_range v) as Hr. unfold is_u32, u32_mod in Hr. simpl. lia.
Qed.

(** ** Where the queries leave their objects *)

Definition cut_packet (front : list Z) : dhcp_packet := demo_packet (zeros (308 - Z.of_nat (length front)) ++ front).

(** An option 82 whose length byte points past the end of the packet: parsing the relay
    information copies the bytes after the packet. *)
Theorem relay_info_overread : dhcp_option_parse_relay_info (cut_packet [82; 200; 1; 2]) = Undef.
Proof. vm_compute. reflexivity. Qed.

(** A last byte that is an option code: the helpers of dhcp_protocol.h read the byte after
    the packet as its length; dhcp_option_find_in_packet does not. *)
Theorem lone_code_overread :
  dhcp_get_msg_type (cut_packet [12]) = Undef /\ dhcp_get_option (cut_packet [12]) 82 None 0 = Undef /\
  dhcp_option_find_in_packet (cut_packet [12]) 82 None 0 = Ok (-1, None).
Proof. vm_compute. done. Qed.

(** Stripping option 82 in front of a truncated option copies bytes from after the packet. *)
Theorem strip_overread : dhcp_option_strip_relay_info (cut_packet [82; 4; 1; 2; 3; 4; 12; 3; 65]) = Undef.
Proof. vm_compute. reflexivity. Qed.

(** An option longer than the caller's buffer is not copied, but its length is used as the
    index of the terminating zero. *)
Theorem string_overflow :
  dhcp_option_get_string_from_packet (demo_packet (wire [Opt 12 (replicate 20 65)] ++ 255 :: zeros 285)) 12 (Some (zeros 16)) 16 = Undef.
Proof. vm_compute. reflexivity. Qed.

(** Dhcp_option_get_string_from_packet on a complete packet.  An option with data shorter
    than the buffer is copied and terminated; an absent or empty option gives -1 and the
    empty string; an option of [buflen] bytes or more, which cannot be copied, is
    terminated at its own length, outside a buffer of [buflen] bytes. *)
Theorem get_string_spec pkt code buf : packet_ok pkt -> complete (tail_of (options pkt)) -> (0 < length buf)%nat ->
  match first_with code (items_of (options pkt)) with
  | Some (b :: d) =>
    if (length (b :: d) <? length buf)%nat then
      exists buf', dhcp_option_get_string_from_packet pkt code (Some buf) (Z.of_nat (length buf)) = Ok (Z.of_nat (length (b :: d)), Some buf') /\
        take (length (b :: d)) buf' = b :: d /\ buf' !! length (b :: d) = Some 0
    else dhcp_option_get_string_from_packet pkt code (Some buf) (Z.of_nat (length buf)) = Undef
  | _ => exists buf', dhcp_option_get_string_from_packet pkt code (Some buf) (Z.of_nat (length buf)) = Ok (-1, Some buf') /\ head buf' = Some 0
  end.
Proof.
  intros Hp Hc Hb. unfold dhcp_option_get_string_from_packet.
  assert (forall m : list Z, (0 < length m)%nat -> exists m', store m 0 [0] = Ok m' /\ head m' = Some 0) as Hclear.
  { intros m Hm. destruct m as [|x m]; [simpl in Hm; lia|]. exists (0 :: m). split; [|done]. apply (store_app [] [x] [0] m 0); done. }
  destruct (Z.eqb_spec (Z.of_nat (length buf)) 0); [lia|].
  destruct (options_split pkt Hp) as (E & Hok & Hst & Hf). unfold dhcp_option_find_in_packet.
  rewrite (find_loop_run _ _ _ _ Hst _ Hok scan_fuel (options pkt) [] 0 E (proj1 Hp) eq_refl Hf).
  destruct (first_with code (items_of (options pkt))) as [[|b d]|]; cbn [deliver].
  - destruct (Z.leb_spec (Z.of_nat (length (@nil Z))) (Z.of_nat (length buf) - 1)); [|simpl in *; lia].
    pose proof (store_app [] [] [] buf 0 eq_refl eq_refl) as Hs. simpl in Hs. rewrite Hs. cbn [obind]. change (default [] (Some buf)) with buf.
    change (0 <? Z.of_nat (length [])) with false. cbv iota. destruct (Hclear buf Hb) as (m & -> & Hm). by exists m.
  - set (s := b :: d) in *. assert (0 < Z.of_nat (length s)) as Hs by (unfold s; simpl; lia).
    destruct (Nat.ltb_spec (length s) (length buf)).
    + destruct (Z.leb_spec (Z.of_nat (length s)) (Z.of_nat (length buf) - 1)); [|lia].
      pose proof (store_app [] (take (length s) buf) s (drop (length s) buf) 0 eq_refl ltac:(rewrite length_take; lia)) as Es.
      rewrite !app_nil_l, take_drop in Es. rewrite Es. cbn [obind]. destruct (Z.ltb_spec 0 (Z.of_nat (length s))); [|lia]. change (default [] (Some ?m)) with m.
      destruct (drop (length s) buf) as [|x rest] eqn:Ed; [apply (f_equal length) in Ed; rewrite length_drop in Ed; cbn [length] in Ed; lia|].
      change (x :: rest) with ([x] ++ rest). rewrite (store_app s [x] [0] rest) by done. cbn [obind]. eexists. split; [done|].
      split; [apply take_app_length|]. simpl app. by apply list_lookup_middle.
    + destruct (Z.leb_spec (Z.of_nat (length s)) (Z.of_nat (length buf) - 1)); [lia|]. cbn [obind]. change (default [] (Some buf)) with buf.
      destruct (Z.ltb_spec 0 (Z.of_nat (length s))); [|lia]. unfold store. cbn [length].
      rewrite (proj2 (Z.leb_gt _ (Z.of_nat (length buf)))) by lia. by rewrite andb_false_r.
  - unfold find_tail, cut_off. assert (match tail_of (options pkt) with c :: n :: d => if negb (c =? DHCP_OPT_END) && (c =? code) && (Z.of_nat (length d) <? n) then Some n else None | _ => None end = None) as ->.
    { destruct (tail_of (options pkt)) as [|c [|n' d]]; [done|done|]. simpl in Hc. by subst c. }
    cbn [obind]. change (default [] (Some buf)) with buf. change (0 <? -1) with false. cbv iota.
    destruct (Hclear buf Hb) as (m & -> & Hm). by exists m.
Qed.

Lemma get_string_spec_witness :
  exists buf', dhcp_option_get_string_from_packet demo_request 12 (Some (zeros 4)) 4 = Ok (2, Some buf') /\ take 2 buf' = [104; 105].
Proof.
  pose proof (get_string_spec demo_request 12 (zeros 4) (proj1 demo_request_ok) (proj2 demo_request_ok) ltac:(vm_compute; lia)) as H.
  assert (first_with 12 (items_of (options demo_request)) = Some [104; 105]) as E by (vm_compute; reflexivity).
  rewrite E in H. change (length [104; 105] <? length (zeros 4))%nat with true in H. cbv iota in H.
  destruct H as (buf' & H1 & H2 & _). exists buf'. split; [exact H1|exact H2].
Defined.
