(* ===== verification/DhcpPool.v ===== *)
(** * examples/dhcp/src/dhcp_pool.c: the address pool

    A range of IPv4 addresses with one bit per address in an array of 64-bit words (1 =
    allocated or unavailable), a hint where the next search starts, reservations of an
    address for a MAC, and excluded ranges.  Addresses are in network byte order, offsets
    from the start of the range in host order.  An access outside the bitmap is [Undef]. *)

From S2P Require Import Prelude Common Bytes.

Definition DHCP_POOL_MAX_RESERVATIONS : Z := 256.
Definition DHCP_POOL_MAX_EXCLUSIONS : Z := 32.
Definition BITS_PER_WORD : Z := 64.

Record dhcp_reservation := mkRes { res_ip : Z; res_mac : list Z; res_hostname : list Z; active : bool }.
Record dhcp_exclusion := mkExcl { ex_start : Z; ex_end : Z }.

Record dhcp_pool_config := mkPoolConfig {
  name : list Z; network : Z; netmask : Z;
  range_start : Z; range_end : Z; gateway : Z;
  dns_servers : list Z; num_dns : Z; ntp_servers : list Z; num_ntp : Z; domain : list Z;
  default_lease : Z; max_lease : Z; min_lease : Z
}.

Record dhcp_pool := mkPool {
  config : dhcp_pool_config;
  bitmap : list Z; bitmap_size : Z; pool_size : Z;
  next_free_hint : Z;
  reservations : list dhcp_reservation; num_reservations : Z;
  exclusions : list dhcp_exclusion; num_exclusions : Z;
  allocated_count : Z; declined_count : Z
}.

Definition with_bitmap (b : list Z) (p : dhcp_pool) : dhcp_pool :=
  mkPool (config p) b (bitmap_size p) (pool_size p) (next_free_hint p) (reservations p) (num_reservations p)
    (exclusions p) (num_exclusions p) (allocated_count p) (declined_count p).
Definition with_hint (h : Z) (p : dhcp_pool) : dhcp_pool :=
  mkPool (config p) (bitmap p) (bitmap_size p) (pool_size p) h (reservations p) (num_reservations p)
    (exclusions p) (num_exclusions p) (allocated_count p) (declined_count p).
Definition with_config (c : dhcp_pool_config) (p : dhcp_pool) : dhcp_pool :=
  mkPool c (bitmap p) (bitmap_size p) (pool_size p) (next_free_hint p) (reservations p) (num_reservations p)
    (exclusions p) (num_exclusions p) (allocated_count p) (declined_count p).
Definition with_counts (a d : Z) (p : dhcp_pool) : dhcp_pool :=
  mkPool (config p) (bitmap p) (bitmap_size p) (pool_size p) (next_free_hint p) (reservations p) (num_reservations p)
    (exclusions p) (num_exclusions p) a d.
Definition with_reservations (r : list dhcp_reservation) (n : Z) (p : dhcp_pool) : dhcp_pool :=
  mkPool (config p) (bitmap p) (bitmap_size p) (pool_size p) (next_free_hint p) r n
    (exclusions p) (num_exclusions p) (allocated_count p) (declined_count p).
Definition with_exclusions (e : list dhcp_exclusion) (n : Z) (p : dhcp_pool) : dhcp_pool :=
  mkPool (config p) (bitmap p) (bitmap_size p) (pool_size p) (next_free_hint p) (reservations p) (num_reservations p)
    e n (allocated_count p) (declined_count p).

(** [allocated_count++]. *)
Definition count_up (p : dhcp_pool) : dhcp_pool := with_counts (u32 (allocated_count p + 1)) (declined_count p) p.

(** ** The bitmap *)

Definition word_at (bm : list Z) (w : Z) : outcome Z := of_option (bm !! Z.to_nat w).
Definition bit_mask (bit : Z) : Z := Z.shiftl 1 (bit mod BITS_PER_WORD).

Definition bitmap_set (bm : list Z) (bit : Z) : outcome (list Z) :=
  let! w := word_at bm (bit / BITS_PER_WORD) in
  Ok (<[Z.to_nat (bit / BITS_PER_WORD) := Z.lor w (bit_mask bit)]> bm).

Definition bitmap_clear (bm : list Z) (bit : Z) : outcome (list Z) :=
  let! w := word_at bm (bit / BITS_PER_WORD) in
  Ok (<[Z.to_nat (bit / BITS_PER_WORD) := Z.land w (u64 (Z.lnot (bit_mask bit)))]> bm).

Definition bitmap_test (bm : list Z) (bit : Z) : outcome bool :=
  let! w := word_at bm (bit / BITS_PER_WORD) in
  Ok (negb (Z.land w (bit_mask bit) =? 0)).

(** The inner loop: [n] bits are left from [b] on. *)
Fixpoint zero_in_word (n : nat) (word b : Z) : option Z :=
  match n with
  | O => None
  | S n => if Z.land word (Z.shiftl 1 b) =? 0 then Some b else zero_in_word n word (b + 1)
  end.

Definition NO_BIT : Z := u32 (-1).

(** The outer loop: [n] words are left from [w] on. *)
Fixpoint zero_in_words (n : nat) (bm : list Z) (start_word bit_in_word w : Z) : outcome Z :=
  match n with
  | O => Ok NO_BIT
  | S n =>
    let! word := word_at bm w in
    let word := if (w =? start_word) && (0 <? bit_in_word) then Z.lor word (Z.shiftl 1 bit_in_word - 1) else word in
    let next := zero_in_words n bm start_word bit_in_word (w + 1) in
    if negb (word =? u64 (-1)) then
      let b := if w =? start_word then bit_in_word else 0 in
      match zero_in_word (Z.to_nat (BITS_PER_WORD - b)) word b with
      | Some b => Ok (u32 (w * BITS_PER_WORD + b))
      | None => next
      end
    else next
  end.

Definition bitmap_find_first_zero (bm : list Z) (words start_bit : Z) : outcome Z :=
  let start_word := start_bit / BITS_PER_WORD in
  zero_in_words (Z.to_nat (words - start_word)) bm start_word (start_bit mod BITS_PER_WORD) start_word.

(** ** Addresses and offsets *)

Definition ip_to_offset (p : dhcp_pool) (ip : Z) : Z := u32 (ntohl ip - ntohl (range_start (config p))).
Definition offset_to_ip (p : dhcp_pool) (offset : Z) : Z := htonl (u32 (ntohl (range_start (config p)) + offset)).

Definition dhcp_pool_contains (p : dhcp_pool) (ip : Z) : bool :=
  (ntohl (range_start (config p)) <=? ntohl ip) && (ntohl ip <=? ntohl (range_end (config p))).

Definition in_exclusion (ip : Z) (e : dhcp_exclusion) : bool :=
  (ntohl (ex_start e) <=? ntohl ip) && (ntohl ip <=? ntohl (ex_end e)).

(** The exclusions in force: the first [num_exclusions] entries of the array. *)
Definition exclusion_list (p : dhcp_pool) : list dhcp_exclusion := take (Z.to_nat (num_exclusions p)) (exclusions p).
Definition is_excluded (p : dhcp_pool) (ip : Z) : bool := existsb (in_exclusion ip) (exclusion_list p).
Definition dhcp_pool_is_excluded (p : dhcp_pool) (ip : Z) : bool := is_excluded p ip.

(** ** Life cycle and configuration *)

Definition words_for (size : Z) : Z := (size + BITS_PER_WORD - 1) / BITS_PER_WORD.

Definition no_reservation : dhcp_reservation := mkRes 0 (zeros 6) (zeros 64) false.

Definition dhcp_pool_create (pool_ok bitmap_ok : bool) (c : dhcp_pool_config) : option dhcp_pool :=
  if negb pool_ok then None else
  let start := ntohl (range_start c) in
  let stop := ntohl (range_end c) in
  if stop <? start then None else
  let size := u32 (stop - start + 1) in
  let words := words_for size in
  if negb bitmap_ok then None else
  Some (mkPool c (zeros words) words size 0
          (replicate (Z.to_nat DHCP_POOL_MAX_RESERVATIONS) no_reservation) 0
          (replicate (Z.to_nat DHCP_POOL_MAX_EXCLUSIONS) (mkExcl 0 0)) 0 0 0).

Definition dhcp_pool_set_range (bitmap_ok : bool) (p : dhcp_pool) (start stop : Z) : Z * dhcp_pool :=
  let start_h := ntohl start in
  let end_h := ntohl stop in
  if end_h <? start_h then (-1, p) else
  let new_size := u32 (end_h - start_h + 1) in
  let new_bitmap_size := words_for new_size in
  if negb (new_bitmap_size =? bitmap_size p) && negb bitmap_ok then (-1, p) else
  let c := config p in
  (0, mkPool (mkPoolConfig (name c) (network c) (netmask c) start stop (gateway c) (dns_servers c) (num_dns c)
                (ntp_servers c) (num_ntp c) (domain c) (default_lease c) (max_lease c) (min_lease c))
        (zeros new_bitmap_size) new_bitmap_size new_size 0
        (reservations p) (num_reservations p) (exclusions p) (num_exclusions p) 0 (declined_count p)).

Definition dhcp_pool_set_network (p : dhcp_pool) (nw mask : Z) : Z * dhcp_pool :=
  let c := config p in
  (0, with_config (mkPoolConfig (name c) nw mask (range_start c) (range_end c) (gateway c) (dns_servers c) (num_dns c)
        (ntp_servers c) (num_ntp c) (domain c) (default_lease c) (max_lease c) (min_lease c)) p).

Definition dhcp_pool_set_gateway (p : dhcp_pool) (gw : Z) : Z * dhcp_pool :=
  let c := config p in
  (0, with_config (mkPoolConfig (name c) (network c) (netmask c) (range_start c) (range_end c) gw (dns_servers c) (num_dns c)
        (ntp_servers c) (num_ntp c) (domain c) (default_lease c) (max_lease c) (min_lease c)) p).

Definition dhcp_pool_set_dns (p : dhcp_pool) (servers : list Z) (n : Z) : outcome (Z * dhcp_pool) :=
  if (n <? 0) || (4 <? n) then Ok (-1, p) else
  let c := config p in
  let! s := load servers 0 n in
  let! s := store (dns_servers c) 0 s in
  Ok (0, with_config (mkPoolConfig (name c) (network c) (netmask c) (range_start c) (range_end c) (gateway c) s n
        (ntp_servers c) (num_ntp c) (domain c) (default_lease c) (max_lease c) (min_lease c)) p).

(** [strncpy] of 63 bytes into an array of 64. *)
Definition copy_name (s old : list Z) : list Z := strncpy s 63 ++ drop 63 old.

Definition dhcp_pool_set_domain (p : dhcp_pool) (d : option (list Z)) : Z * dhcp_pool :=
  let c := config p in
  (0, with_config (mkPoolConfig (name c) (network c) (netmask c) (range_start c) (range_end c) (gateway c) (dns_servers c)
        (num_dns c) (ntp_servers c) (num_ntp c) (copy_name (default [] d) (domain c))
        (default_lease c) (max_lease c) (min_lease c)) p).

Definition dhcp_pool_set_lease_times (p : dhcp_pool) (def max min : Z) : Z * dhcp_pool :=
  let c := config p in
  (0, with_config (mkPoolConfig (name c) (network c) (netmask c) (range_start c) (range_end c) (gateway c) (dns_servers c)
        (num_dns c) (ntp_servers c) (num_ntp c) (domain c) def max min) p).

(** ** Reservations *)

Definition reservation_list (p : dhcp_pool) : list dhcp_reservation := take (Z.to_nat (num_reservations p)) (reservations p).

(** The index of the first entry that satisfies a test. *)
Fixpoint index_of {A} (f : A -> bool) (l : list A) : option nat :=
  match l with [] => None | x :: l => if f x then Some 0%nat else S <$> index_of f l end.

Definition same_mac (mac : list Z) (r : dhcp_reservation) : bool := bool_decide (res_mac r = mac).
Definition same_ip (ip : Z) (r : dhcp_reservation) : bool := res_ip r =? ip.

Definition dhcp_pool_find_reservation (p : dhcp_pool) (mac : list Z) : option dhcp_reservation :=
  index_of (same_mac mac) (reservation_list p) ≫= fun i => reservations p !! i.
Definition dhcp_pool_find_reservation_by_ip (p : dhcp_pool) (ip : Z) : option dhcp_reservation :=
  index_of (same_ip ip) (reservation_list p) ≫= fun i => reservations p !! i.
Definition dhcp_pool_is_reserved (p : dhcp_pool) (ip : Z) : bool := bool_decide (is_Some (dhcp_pool_find_reservation_by_ip p ip)).

(** [mac] and [hostname] NULL as None; the hostname of the slot stays when none is given. *)
Definition dhcp_pool_add_reservation (p : dhcp_pool) (ip : Z) (mac : option (list Z)) (hostname : option (list Z))
  : outcome (Z * dhcp_pool) :=
  match mac with
  | None => Ok (-1, p)
  | Some m =>
    if DHCP_POOL_MAX_RESERVATIONS <=? num_reservations p then Ok (-1, p) else
    if existsb (fun r => same_ip ip r || same_mac m r) (reservation_list p) then Ok (-1, p) else
    let n := Z.to_nat (num_reservations p) in
    let! slot := of_option (reservations p !! n) in
    let host := match hostname with Some h => copy_name h (res_hostname slot) | None => res_hostname slot end in
    Ok (0, with_reservations (<[n := mkRes ip m host true]> (reservations p)) (num_reservations p + 1) p)
  end.

(** Slot [i] gets the last entry. *)
Definition remove_slot {A} (l : list A) (n : Z) (i : nat) : list A :=
  if Z.of_nat i <? n - 1 then match l !! Z.to_nat (n - 1) with Some x => <[i := x]> l | None => l end else l.

Definition remove_reservation_where (f : dhcp_reservation -> bool) (p : dhcp_pool) : Z * dhcp_pool :=
  match index_of f (reservation_list p) with
  | Some i => (0, with_reservations (remove_slot (reservations p) (num_reservations p) i) (num_reservations p - 1) p)
  | None => (-1, p)
  end.

Definition dhcp_pool_remove_reservation (p : dhcp_pool) (ip : Z) : Z * dhcp_pool := remove_reservation_where (same_ip ip) p.
Definition dhcp_pool_remove_reservation_by_mac (p : dhcp_pool) (mac : list Z) : Z * dhcp_pool :=
  remove_reservation_where (same_mac mac) p.

(** The result and what is copied to the caller's array. *)
Definition dhcp_pool_get_reservations (p : dhcp_pool) (max_count : Z) : outcome (Z * list dhcp_reservation) :=
  let n := if num_reservations p <? max_count then num_reservations p else max_count in
  let! out := load (reservations p) 0 n in
  Ok (n, out).

(** ** Exclusions *)

(** The marking loop of dhcp_pool_add_exclusion over [ip_h], [ip_h + 1], .. up to [end_h];
    the counter is a uint32_t. *)
Fixpoint mark_loop (fuel : nat) (range_start_h range_end_h end_h ip_h : Z) (bm : list Z) : outcome (list Z) :=
  if end_h <? ip_h then Ok bm else
  match fuel with
  | O => Fuel
  | S fuel =>
    let! bm :=
      (if (range_start_h <=? ip_h) && (ip_h <=? range_end_h) then
         let offset := u32 (ip_h - range_start_h) in
         let! t := bitmap_test bm offset in
         if negb t then bitmap_set bm offset else Ok bm
       else Ok bm) in
    mark_loop fuel range_start_h range_end_h end_h (u32 (ip_h + 1)) bm
  end.

Definition dhcp_pool_add_exclusion (fuel : nat) (p : dhcp_pool) (start stop : Z) : outcome (Z * dhcp_pool) :=
  if DHCP_POOL_MAX_EXCLUSIONS <=? num_exclusions p then Ok (-1, p) else
  let p := with_exclusions (<[Z.to_nat (num_exclusions p) := mkExcl start stop]> (exclusions p)) (num_exclusions p + 1) p in
  if dhcp_pool_contains p start then
    let! bm := mark_loop fuel (ntohl (range_start (config p))) (ntohl (range_end (config p))) (ntohl stop) (ntohl start) (bitmap p) in
    Ok (0, with_bitmap bm p)
  else Ok (0, p).

Definition dhcp_pool_remove_exclusion (p : dhcp_pool) (start : Z) : Z * dhcp_pool :=
  match index_of (fun e => ex_start e =? start) (exclusion_list p) with
  | Some i => (0, with_exclusions (remove_slot (exclusions p) (num_exclusions p) i) (num_exclusions p - 1) p)
  | None => (-1, p)
  end.

Definition dhcp_pool_clear_exclusions (p : dhcp_pool) : Z * dhcp_pool := (0, with_exclusions (exclusions p) 0 p).

(** ** Allocation *)

(** The loop that skips excluded addresses; None: no address is left. *)
Fixpoint skip_loop (fuel : nat) (p : dhcp_pool) (offset : Z) : outcome (dhcp_pool * option Z) :=
  if negb (is_excluded p (offset_to_ip p offset)) then Ok (p, Some offset) else
  match fuel with
  | O => Fuel
  | S fuel =>
    let! bm := bitmap_set (bitmap p) offset in
    let p := with_bitmap bm p in
    let! offset := bitmap_find_first_zero (bitmap p) (bitmap_size p) (u32 (offset + 1)) in
    if pool_size p <=? offset then Ok (p, None) else skip_loop fuel p offset
  end.

(** Without a reservation. *)
Definition allocate_free (fuel : nat) (p : dhcp_pool) : outcome (Z * dhcp_pool) :=
  let! offset := bitmap_find_first_zero (bitmap p) (bitmap_size p) (next_free_hint p) in
  let! offset :=
    (if (pool_size p <=? offset) && (0 <? next_free_hint p) then bitmap_find_first_zero (bitmap p) (bitmap_size p) 0
     else Ok offset) in
  if pool_size p <=? offset then Ok (0, p) else
  let! (p, o) := skip_loop fuel p offset in
  match o with
  | None => Ok (0, p)
  | Some offset =>
    let! bm := bitmap_set (bitmap p) offset in
    Ok (offset_to_ip p offset, with_hint (u32 (offset + 1)) (count_up (with_bitmap bm p)))
  end.

(** Set the bit of an address of the range and count it, unless it is set. *)
Definition take_offset (p : dhcp_pool) (offset : Z) : outcome dhcp_pool :=
  let! t := bitmap_test (bitmap p) offset in
  if negb t then let! bm := bitmap_set (bitmap p) offset in Ok (count_up (with_bitmap bm p)) else Ok p.

Definition dhcp_pool_allocate (fuel : nat) (p : dhcp_pool) (mac : option (list Z)) : outcome (Z * dhcp_pool) :=
  match mac ≫= dhcp_pool_find_reservation p with
  | Some res =>
    let! p := (if dhcp_pool_contains p (res_ip res) then take_offset p (ip_to_offset p (res_ip res)) else Ok p) in
    Ok (res_ip res, p)
  | None => allocate_free fuel p
  end.

Definition dhcp_pool_allocate_specific (p : dhcp_pool) (ip : Z) : outcome (Z * dhcp_pool) :=
  if negb (dhcp_pool_contains p ip) then Ok (0, p) else
  if is_excluded p ip then Ok (0, p) else
  let offset := ip_to_offset p ip in
  let! t := bitmap_test (bitmap p) offset in
  if t then Ok (0, p) else
  let! bm := bitmap_set (bitmap p) offset in
  Ok (ip, count_up (with_bitmap bm p)).

Definition dhcp_pool_release (p : dhcp_pool) (ip : Z) : outcome (Z * dhcp_pool) :=
  if negb (dhcp_pool_contains p ip) then Ok (-1, p) else
  let offset := ip_to_offset p ip in
  let! t := bitmap_test (bitmap p) offset in
  if negb t then Ok (0, p) else
  let! bm := bitmap_clear (bitmap p) offset in
  let p := with_counts (u32 (allocated_count p - 1)) (declined_count p) (with_bitmap bm p) in
  Ok (0, if offset <? next_free_hint p then with_hint offset p else p).

Definition dhcp_pool_mark_used (p : dhcp_pool) (ip : Z) : outcome (Z * dhcp_pool) :=
  if negb (dhcp_pool_contains p ip) then Ok (-1, p) else
  let! p := take_offset p (ip_to_offset p ip) in
  Ok (0, p).

Definition dhcp_pool_mark_declined (p : dhcp_pool) (ip : Z) : outcome (Z * dhcp_pool) :=
  if negb (dhcp_pool_contains p ip) then Ok (-1, p) else
  let! bm := bitmap_set (bitmap p) (ip_to_offset p ip) in
  Ok (0, with_counts (allocated_count p) (u32 (declined_count p + 1)) (with_bitmap bm p)).

(** ** Queries *)

Definition dhcp_pool_is_available (p : dhcp_pool) (ip : Z) : outcome bool :=
  if negb (dhcp_pool_contains p ip) then Ok false else
  if is_excluded p ip then Ok false else
  let! t := bitmap_test (bitmap p) (ip_to_offset p ip) in Ok (negb t).

Definition dhcp_pool_is_allocated (p : dhcp_pool) (ip : Z) : outcome bool :=
  if negb (dhcp_pool_contains p ip) then Ok false else bitmap_test (bitmap p) (ip_to_offset p ip).

(** dhcp_pool_get_next_available: the while loop from [offset]; [again]: the function calls
    itself. *)
Fixpoint next_loop (fuel : nat) (again : outcome Z) (p : dhcp_pool) (offset : Z) : outcome Z :=
  if negb (is_excluded p (offset_to_ip p offset)) then Ok (offset_to_ip p offset) else
  match fuel with
  | O => Fuel
  | S fuel =>
    let offset := u32 (offset + 1) in
    if pool_size p <=? offset then Ok 0 else
    let! t := bitmap_test (bitmap p) offset in
    if t then again else next_loop fuel again p offset
  end.

(** [depth] bounds the recursion, [fuel] each while loop. *)
Fixpoint dhcp_pool_get_next_available (depth fuel : nat) (p : dhcp_pool) : outcome Z :=
  match depth with
  | O => Fuel
  | S depth =>
    let! offset := bitmap_find_first_zero (bitmap p) (bitmap_size p) 0 in
    if pool_size p <=? offset then Ok 0 else
    next_loop fuel (dhcp_pool_get_next_available depth fuel p) p offset
  end.

(** ** Information *)

Record dhcp_pool_stats := mkStats {
  total_ips : Z; allocated_ips : Z; available_ips : Z; reserved_ips : Z; excluded_ips : Z; declined_ips : Z
}.

Definition dhcp_pool_get_stats (p : dhcp_pool) : dhcp_pool_stats :=
  mkStats (pool_size p) (allocated_count p) (u32 (pool_size p - allocated_count p)) (u32 (num_reservations p))
    (fold_left (fun n e => u32 (n + u32 (ntohl (ex_end e) - ntohl (ex_start e) + 1))) (exclusion_list p) 0)
    (declined_count p).

Definition dhcp_pool_get_name (p : dhcp_pool) : list Z := name (config p).
Definition dhcp_pool_get_config (p : dhcp_pool) : dhcp_pool_config := config p.
Definition dhcp_pool_ip_count (p : dhcp_pool) : Z := pool_size p.

(** The callback threads a state of the caller's; it is called on [n] addresses from [offset]. *)
Fixpoint iterate_loop {S} (fn : S -> Z -> bool -> bool -> Z * S) (n : nat) (p : dhcp_pool) (offset : Z) (s : S) : outcome S :=
  match n with
  | O => Ok s
  | Datatypes.S n =>
    let ip := offset_to_ip p offset in
    let! allocated := bitmap_test (bitmap p) offset in
    let '(r, s) := fn s ip allocated (dhcp_pool_is_reserved p ip) in
    if negb (r =? 0) then Ok s else iterate_loop fn n p (offset + 1) s
  end.

Definition dhcp_pool_iterate {S} (fn : S -> Z -> bool -> bool -> Z * S) (p : dhcp_pool) (s : S) : outcome S :=
  iterate_loop fn (Z.to_nat (pool_size p)) p 0 s.

Definition dhcp_pool_reset (p : dhcp_pool) : dhcp_pool :=
  with_hint 0 (with_counts 0 0 (with_bitmap (zeros (bitmap_size p)) p)).

(** ** Searches *)

Lemma index_of_spec {A} (f : A -> bool) l i : index_of f l = Some i -> exists x, l !! i = Some x /\ f x = true.
Proof.
  revert i. induction l as [|x l IH]; intros i; [done|]. simpl. destruct (f x) eqn:E; [intros [= <-]; by exists x|].
  destruct (index_of f l) as [j|]; [|done]. intros [= <-]. by apply IH.
Qed.

Lemma index_of_none {A} (f : A -> bool) l x : index_of f l = None -> x ∈ l -> f x = false.
Proof.
  induction l as [|y l IH]; [by intros _ ?%not_elem_of_nil|]. simpl. destruct (f y) eqn:E; [done|]. destruct (index_of f l); [done|].
  intros _ [->|H]%elem_of_cons; auto.
Qed.
