(* ===== verification/DhcpPoolBits.v ===== *)
(** * The bitmap of the address pool as a set of offsets

    [used bm o]: bit [o] of the bitmap.  Testing, setting, clearing and searching for a zero
    are specified by it. *)

From S2P Require Import Prelude Common Bytes DhcpPool.

Definition used (bm : list Z) (o : Z) : bool :=
  Z.testbit (default 0 (bm !! Z.to_nat (o / BITS_PER_WORD))) (o mod BITS_PER_WORD).

Definition bits (bm : list Z) : Z := BITS_PER_WORD * Z.of_nat (length bm).
Definition bm_ok (bm : list Z) : Prop := Forall is_u64 bm.

Lemma land_bit w b : 0 <= b -> (Z.land w (Z.shiftl 1 b) =? 0) = negb (Z.testbit w b).
Proof.
  intros Hb. rewrite Z.shiftl_1_l. destruct (Z.testbit w b) eqn:E; simpl.
  - apply Z.eqb_neq. intros H. apply (f_equal (fun z => Z.testbit z b)) in H.
    rewrite Z.land_spec, E, Z.pow2_bits_true, Z.bits_0 in H by lia. done.
  - apply Z.eqb_eq. apply Z.bits_inj'. intros i Hi. rewrite Z.land_spec, Z.bits_0.
    destruct (Z.eq_dec i b) as [->|Hne]; [by rewrite E|]. rewrite Z.pow2_bits_false by lia. apply andb_false_r.
Qed.

Lemma offset_word bm o : 0 <= o < bits bm ->
  0 <= o / BITS_PER_WORD < Z.of_nat (length bm) /\ 0 <= o mod BITS_PER_WORD < BITS_PER_WORD.
Proof.
  unfold bits, BITS_PER_WORD. intros Ho. pose proof (Z.mod_pos_bound o 64 ltac:(lia)).
  split; [|done]. split; [apply Z.div_pos; lia|]. apply Z.div_lt_upper_bound; lia.
Qed.

Lemma word_at_used bm o : 0 <= o < bits bm ->
  exists w, word_at bm (o / BITS_PER_WORD) = Ok w /\ bm !! Z.to_nat (o / BITS_PER_WORD) = Some w /\ used bm o = Z.testbit w (o mod BITS_PER_WORD).
Proof.
  intros Ho. destruct (offset_word bm o Ho) as [Hw _].
  destruct (lookup_lt_is_Some_2 bm (Z.to_nat (o / BITS_PER_WORD)) ltac:(lia)) as [w E].
  exists w. unfold word_at, used. by rewrite E.
Qed.

Lemma test_used bm o : 0 <= o < bits bm -> bitmap_test bm o = Ok (used bm o).
Proof.
  intros Ho. destruct (word_at_used bm o Ho) as (w & E & _ & Hu). destruct (offset_word bm o Ho) as [_ Hm].
  unfold bitmap_test, bit_mask. rewrite E, Hu. cbn [obind]. rewrite land_bit by lia. by rewrite negb_involutive.
Qed.

(** A word of the bitmap is replaced: the other bits stay. *)
Lemma used_insert bm o w w' f : 0 <= o < bits bm -> bm !! Z.to_nat (o / BITS_PER_WORD) = Some w ->
  (forall i, 0 <= i < BITS_PER_WORD -> Z.testbit w' i = f i (Z.testbit w i)) ->
  forall o', 0 <= o' -> used (<[Z.to_nat (o / BITS_PER_WORD) := w']> bm) o' =
    if o' / BITS_PER_WORD =? o / BITS_PER_WORD then f (o' mod BITS_PER_WORD) (used bm o') else used bm o'.
Proof.
  intros Ho E Hw o' Ho'. destruct (offset_word bm o Ho) as [Hq _]. unfold used, BITS_PER_WORD in *.
  pose proof (Z.div_pos o' 64 ltac:(lia) ltac:(lia)). destruct (Z.eqb_spec (o' / 64) (o / 64)) as [->|Hne].
  - rewrite list_lookup_insert_eq by lia. rewrite E. cbn. apply Hw, Z.mod_pos_bound. lia.
  - by rewrite list_lookup_insert_ne by lia.
Qed.

Lemma u64_testbit z i : 0 <= i < 64 -> Z.testbit (u64 z) i = Z.testbit z i.
Proof. intros Hi. unfold u64, u64_mod. apply Z.mod_pow2_bits_low. lia. Qed.

Lemma same_offset o o' : o' / BITS_PER_WORD = o / BITS_PER_WORD -> o' mod BITS_PER_WORD = o mod BITS_PER_WORD -> o' = o.
Proof. unfold BITS_PER_WORD. intros E1 E2. rewrite (Z.div_mod o' 64), (Z.div_mod o 64) by lia. congruence. Qed.

Lemma u64_log2 w : is_u64 w <-> 0 <= w /\ Z.log2 w < 64.
Proof.
  unfold is_u64, u64_mod. destruct (Z.eq_dec w 0) as [->|Hne]; [simpl; lia|]. split.
  - intros Hw. split; [lia|]. apply Z.log2_lt_pow2; lia.
  - intros [H0 Hl]. split; [done|]. apply Z.log2_lt_pow2; lia.
Qed.

Lemma bits_insert bm i w : bits (<[i := w]> bm) = bits bm.
Proof. unfold bits. by rewrite length_insert. Qed.

Lemma set_used bm o : bm_ok bm -> 0 <= o < bits bm ->
  exists bm', bitmap_set bm o = Ok bm' /\ bm_ok bm' /\ length bm' = length bm /\
    forall o', 0 <= o' -> used bm' o' = (o' =? o) || used bm o'.
Proof.
  intros Hok Ho. destruct (word_at_used bm o Ho) as (w & E & El & _). destruct (offset_word bm o Ho) as [_ Hm].
  unfold bitmap_set. rewrite E. cbn [obind]. eexists. split; [done|]. split; [|split; [apply length_insert|]].
  - apply Forall_insert; [done|]. assert (is_u64 w) as [H0 Hl]%u64_log2 by (eapply Forall_lookup_1; done).
    unfold bit_mask. rewrite Z.shiftl_1_l. assert (0 < 2 ^ (o mod BITS_PER_WORD)) by (apply Z.pow_pos_nonneg; lia).
    apply u64_log2. split; [apply Z.lor_nonneg; lia|]. rewrite Z.log2_lor, Z.log2_pow2 by lia. unfold BITS_PER_WORD in *. lia.
  - intros o' Ho'. rewrite (used_insert bm o w _ (fun i b => (i =? o mod BITS_PER_WORD) || b) Ho El); [| |done].
    + destruct (Z.eqb_spec (o' / BITS_PER_WORD) (o / BITS_PER_WORD)) as [E1|E1].
      * f_equal. apply eq_true_iff_eq. rewrite !Z.eqb_eq. split; [intros; by apply same_offset|by intros ->].
      * destruct (Z.eqb_spec o' o) as [->|]; done.
    + intros i Hi. unfold bit_mask. rewrite Z.lor_spec, Z.shiftl_1_l, orb_comm. f_equal.
      destruct (Z.eqb_spec i (o mod BITS_PER_WORD)) as [->|]; [apply Z.pow2_bits_true; lia|apply Z.pow2_bits_false; lia].
Qed.

Lemma clear_used bm o : bm_ok bm -> 0 <= o < bits bm ->
  exists bm', bitmap_clear bm o = Ok bm' /\ bm_ok bm' /\ length bm' = length bm /\
    forall o', 0 <= o' -> used bm' o' = negb (o' =? o) && used bm o'.
Proof.
  intros Hok Ho. destruct (word_at_used bm o Ho) as (w & E & El & _). destruct (offset_word bm o Ho) as [_ Hm].
  unfold bitmap_clear. rewrite E. cbn [obind]. eexists. split; [done|]. split; [|split; [apply length_insert|]].
  - apply Forall_insert; [done|]. assert (is_u64 w) as [H0 Hl]%u64_log2 by (eapply Forall_lookup_1; done).
    pose proof (u64_range (Z.lnot (bit_mask o))) as [Hr _]%u64_log2.
    apply u64_log2. split; [apply Z.land_nonneg; lia|]. pose proof (Z.log2_land w (u64 (Z.lnot (bit_mask o)))). lia.
  - intros o' Ho'. rewrite (used_insert bm o w _ (fun i b => negb (i =? o mod BITS_PER_WORD) && b) Ho El); [| |done].
    + destruct (Z.eqb_spec (o' / BITS_PER_WORD) (o / BITS_PER_WORD)) as [E1|E1].
      * do 2 f_equal. apply eq_true_iff_eq. rewrite !Z.eqb_eq. split; [intros; by apply same_offset|by intros ->].
      * destruct (Z.eqb_spec o' o) as [->|]; done.
    + intros i Hi. unfold bit_mask, BITS_PER_WORD in *. rewrite Z.land_spec, u64_testbit, Z.lnot_spec, Z.shiftl_1_l, andb_comm by lia. do 2 f_equal.
      destruct (Z.eqb_spec i (o mod 64)) as [->|]; [apply Z.pow2_bits_true; lia|apply Z.pow2_bits_false; lia].
Qed.

(** ** The search *)

Lemma zero_in_word_spec n word : forall b, 0 <= b ->
  match zero_in_word n word b with
  | Some r => b <= r < b + Z.of_nat n /\ Z.testbit word r = false /\ forall i, b <= i < r -> Z.testbit word i = true
  | None => forall i, b <= i < b + Z.of_nat n -> Z.testbit word i = true
  end.
Proof.
  induction n as [|n IH]; intros b Hb; cbn [zero_in_word]; [lia|]. rewrite land_bit by done.
  destruct (Z.testbit word b) eqn:E; cbn [negb]; [|split; [lia|]; split; [done|]; lia].
  specialize (IH (b + 1) ltac:(lia)). destruct (zero_in_word n word (b + 1)) as [r|].
  - destruct IH as (H1 & H2 & H3). split; [lia|]. split; [done|]. intros i Hi. destruct (Z.eq_dec i b) as [->|]; [done|]. apply H3. lia.
  - intros i Hi. destruct (Z.eq_dec i b) as [->|]; [done|]. apply IH. lia.
Qed.

(** The first bits of the first word are skipped. *)
Lemma low_mask b i : 0 <= b -> 0 <= i -> Z.testbit (Z.shiftl 1 b - 1) i = (i <? b).
Proof.
  intros Hb Hi. rewrite Z.shiftl_1_l. replace (2 ^ b - 1) with (Z.ones b) by (rewrite Z.ones_equiv; lia).
  apply Z.testbit_ones_nonneg; lia.
Qed.

(** [r] is the first zero bit from [from] on, or there is none. *)
Definition first_zero (bm : list Z) (from r : Z) : Prop :=
  (from <= r < bits bm /\ used bm r = false /\ forall o, from <= o < r -> used bm o = true) \/
  (r = NO_BIT /\ forall o, from <= o < bits bm -> used bm o = true).

Lemma used_word bm w word i : 0 <= w -> bm !! Z.to_nat w = Some word -> 0 <= i < BITS_PER_WORD -> used bm (w * BITS_PER_WORD + i) = Z.testbit word i.
Proof.
  intros Hw E Hi. unfold used. rewrite Z.add_comm, Z.div_add, Z.mod_add, Z.div_small, Z.mod_small by (unfold BITS_PER_WORD in *; lia).
  by rewrite Z.add_0_l, E.
Qed.

(** All offsets of the rest of a word are used, and the search goes on behind it. *)
Lemma first_zero_skip bm from to r : (forall o, from <= o < to -> used bm o = true) -> from <= to -> first_zero bm to r -> first_zero bm from r.
Proof.
  intros Hu Hle [(Hr & Hf & Hb)|[-> Ha]].
  - left. split; [lia|]. split; [done|]. intros o Ho. destruct (Z.lt_ge_cases o to); [apply Hu; lia|apply Hb; lia].
  - right. split; [done|]. intros o Ho. destruct (Z.lt_ge_cases o to); [apply Hu; lia|apply Ha; lia].
Qed.

Section search.
Context (bm : list Z) (start : Z) (Hbits : bits bm <= u32_mod) (Hstart : 0 <= start).
Let sw := start / BITS_PER_WORD.
Let bw := start mod BITS_PER_WORD.

(** The search in one word from bit [b0] on, with the mask. *)
Lemma word_search w word b0 next : 0 <= w -> bm !! Z.to_nat w = Some word -> 0 <= b0 < BITS_PER_WORD ->
  (w =? sw) && (0 <? bw) = true \/ b0 = 0 -> (if w =? sw then bw else 0) = b0 ->
  (exists r, next = Ok r /\ first_zero bm ((w + 1) * BITS_PER_WORD) r) ->
  exists r,
    (let word := if (w =? sw) && (0 <? bw) then Z.lor word (Z.shiftl 1 bw - 1) else word in
     if negb (word =? u64 (-1)) then
       match zero_in_word (Z.to_nat (BITS_PER_WORD - b0)) word b0 with Some b => Ok (u32 (w * BITS_PER_WORD + b)) | None => next end
     else next) = Ok r /\ first_zero bm (w * BITS_PER_WORD + b0) r.
Proof.
  intros Hw E Hb0 Hmask Hb (rn & En & Hn). set (word' := if (w =? sw) && (0 <? bw) then _ else _).
  assert (forall i, b0 <= i < BITS_PER_WORD -> Z.testbit word' i = Z.testbit word i) as Hsame.
  { intros i Hi. unfold word'. destruct ((w =? sw) && (0 <? bw)) eqn:T; [|done]. apply andb_true_iff in T as [T1 T2].
    rewrite T1 in Hb. subst b0. apply Z.ltb_lt in T2. rewrite Z.lor_spec, low_mask by lia. destruct (Z.ltb_spec i bw); [lia|]. apply orb_false_r. }
  assert (Hrest : (forall i, b0 <= i < BITS_PER_WORD -> Z.testbit word' i = true) -> first_zero bm (w * BITS_PER_WORD + b0) rn).
  { intros Hall. apply (first_zero_skip _ _ ((w + 1) * BITS_PER_WORD)); [|unfold BITS_PER_WORD in *; lia|exact Hn]. intros o Ho.
    replace o with (w * BITS_PER_WORD + (o - w * BITS_PER_WORD)) by lia. rewrite (used_word bm w word) by (done || unfold BITS_PER_WORD in *; lia).
    rewrite <- Hsame, Hall by (unfold BITS_PER_WORD in *; lia). done. }
  cbv zeta. destruct (Z.eqb_spec word' (u64 (-1))) as [Ew|Ew]; cbn [negb].
  - exists rn. split; [done|]. apply Hrest. intros i Hi. rewrite Ew, u64_testbit, Z.bits_m1; unfold BITS_PER_WORD in *; (done || lia).
  - pose proof (zero_in_word_spec (Z.to_nat (BITS_PER_WORD - b0)) word' b0 ltac:(lia)) as Hz. rewrite Z2Nat.id in Hz by lia.
    destruct (zero_in_word _ word' b0) as [b|].
    + destruct Hz as (H1 & H2 & H3). apply lookup_lt_Some in E as Hlt. eexists. split; [done|].
      rewrite u32_small by (unfold is_u32, bits, BITS_PER_WORD in *; lia). left. split; [unfold bits, BITS_PER_WORD in *; lia|]. split.
      * rewrite (used_word bm w word) by (done || lia). rewrite <- Hsame by lia. done.
      * intros o Ho. replace o with (w * BITS_PER_WORD + (o - w * BITS_PER_WORD)) by lia. rewrite (used_word bm w word) by (done || lia).
        rewrite <- Hsame by lia. apply H3. lia.
    + exists rn. split; [done|]. apply Hrest. intros i Hi. apply Hz. lia.
Qed.

Lemma zero_in_words_spec n : forall w, sw <= w -> Z.of_nat n + w = Z.of_nat (length bm) ->
  exists r, zero_in_words n bm sw bw w = Ok r /\ first_zero bm (if w =? sw then start else w * BITS_PER_WORD) r.
Proof.
  assert (0 <= sw /\ 0 <= bw < BITS_PER_WORD /\ start = sw * BITS_PER_WORD + bw) as (Hsw & Hbw & Es).
  { unfold sw, bw, BITS_PER_WORD. split; [apply Z.div_pos; lia|]. split; [apply Z.mod_pos_bound; lia|].
    rewrite (Z.div_mod start 64) at 1 by lia. lia. }
  induction n as [|n IH]; intros w Hw Hn.
  - exists NO_BIT. split; [done|]. right. split; [done|]. intros o Ho. exfalso. unfold bits in Ho.
    destruct (Z.eqb_spec w sw); unfold BITS_PER_WORD in *; lia.
  - destruct (lookup_lt_is_Some_2 bm (Z.to_nat w) ltac:(lia)) as [word E]. cbn [zero_in_words]. unfold word_at. rewrite E. cbn [of_option obind].
    destruct (IH (w + 1) ltac:(lia) ltac:(lia)) as (rn & En & Hr). destruct (Z.eqb_spec (w + 1) sw); [lia|].
    destruct (word_search w word (if w =? sw then bw else 0) (zero_in_words n bm sw bw (w + 1))) as (r & Er & Hz); try done; try lia.
    + destruct (w =? sw); unfold BITS_PER_WORD in *; lia.
    + destruct (Z.eqb_spec w sw); [|by right]. cbn [andb]. destruct (Z.ltb_spec 0 bw); [by left|right; lia].
    + by exists rn.
    + exists r. split; [exact Er|]. destruct (Z.eqb_spec w sw) as [->|]; [by rewrite Es|]. by rewrite Z.add_0_r in Hz.
Qed.
End search.

(** bitmap_find_first_zero finds the first zero bit. *)
Lemma find_zero bm words start : bits bm <= u32_mod -> 0 <= start -> words = Z.of_nat (length bm) ->
  exists r, bitmap_find_first_zero bm words start = Ok r /\ first_zero bm start r.
Proof.
  intros Hb Hs ->. unfold bitmap_find_first_zero. set (sw := start / BITS_PER_WORD).
  destruct (Z.le_gt_cases sw (Z.of_nat (length bm))) as [Hle|Hgt].
  - destruct (zero_in_words_spec bm start Hb Hs (Z.to_nat (Z.of_nat (length bm) - sw)) sw) as (r & E & Hr); [done|lia|].
    exists r. split; [exact E|]. fold sw in Hr. by rewrite Z.eqb_refl in Hr.
  - replace (Z.to_nat _) with 0%nat by lia. exists NO_BIT. split; [done|]. right. split; [done|]. intros o Ho. exfalso.
    assert (start = sw * 64 + start mod 64) by (unfold sw, BITS_PER_WORD; rewrite (Z.div_mod start 64) at 1 by lia; lia).
    pose proof (Z.mod_pos_bound start 64). unfold bits, BITS_PER_WORD in *. lia.
Qed.
