(* ===== verification/DhcpPoolSpec.v ===== *)
(** * Correctness of the address pool

    The invariant of a pool, the behaviour of every operation on the set of used offsets,
    sequences of operations, and the cases in which a caller gets less than it expects. *)

From S2P Require Import Prelude Common Bytes DhcpPool DhcpPoolBits.

(** ** The invariant *)

Definition first_host (p : dhcp_pool) : Z := ntohl (range_start (config p)).
Definition last_host (p : dhcp_pool) : Z := ntohl (range_end (config p)).

Record pool_wf (p : dhcp_pool) : Prop := {
  wf_order : first_host p <= last_host p;
  wf_size : pool_size p = last_host p - first_host p + 1;
  wf_small : pool_size p < u32_mod;
  wf_words : bitmap_size p = words_for (pool_size p);
  wf_len : bitmap_size p = Z.of_nat (length (bitmap p));
  wf_bits : bm_ok (bitmap p);
  wf_hint : 0 <= next_free_hint p <= pool_size p;
  wf_below : forall x, 0 <= x < next_free_hint p -> used (bitmap p) x = true;
  wf_res : length (reservations p) = Z.to_nat DHCP_POOL_MAX_RESERVATIONS;
  wf_nres : 0 <= num_reservations p <= DHCP_POOL_MAX_RESERVATIONS;
  wf_excl : length (exclusions p) = Z.to_nat DHCP_POOL_MAX_EXCLUSIONS;
  wf_nexcl : 0 <= num_exclusions p <= DHCP_POOL_MAX_EXCLUSIONS;
  wf_dns : length (dns_servers (config p)) = 4%nat;
  wf_resip : Forall (fun r => is_u32 (res_ip r)) (reservations p)
}.

Definition in_range (p : dhcp_pool) (o : Z) : Prop := 0 <= o < pool_size p.

(** What the searches and the bits do not touch. *)
Definition same_params (p p' : dhcp_pool) : Prop :=
  config p' = config p /\ bitmap_size p' = bitmap_size p /\ pool_size p' = pool_size p /\
  reservations p' = reservations p /\ num_reservations p' = num_reservations p /\
  exclusions p' = exclusions p /\ num_exclusions p' = num_exclusions p.

Lemma same_params_refl p : same_params p p.
Proof. repeat split. Qed.
Lemma same_params_trans p1 p2 p3 : same_params p1 p2 -> same_params p2 p3 -> same_params p1 p3.
Proof. unfold same_params. intuition congruence. Qed.
#[export] Hint Resolve same_params_refl : qd.

Lemma ntohl_range ip : is_u32 (ntohl ip).
Proof. apply htonl_range. Qed.

Section wf.
Context (p : dhcp_pool) (Hwf : pool_wf p).

Lemma size_pos : 0 < pool_size p.
Proof. destruct Hwf. lia. Qed.

Lemma bits_bound : bits (bitmap p) <= u32_mod.
Proof.
  pose proof (wf_small p Hwf) as Hsm. pose proof (wf_words p Hwf) as Hw. pose proof (wf_len p Hwf) as Hl. unfold bits. rewrite <- Hl, Hw. unfold words_for, BITS_PER_WORD, u32_mod in *.
  assert ((pool_size p + 64 - 1) / 64 < 67108865); [|lia]. apply Z.div_lt_upper_bound; lia.
Qed.

Lemma range_bits o : in_range p o -> 0 <= o < bits (bitmap p).
Proof.
  pose proof (wf_small p Hwf) as Hsm. pose proof (wf_words p Hwf) as Hw. pose proof (wf_len p Hwf) as Hl. unfold in_range, bits. rewrite <- Hl, Hw. unfold words_for, BITS_PER_WORD. intros Hr.
  pose proof (Z.div_mod (pool_size p + 64 - 1) 64 ltac:(lia)). pose proof (Z.mod_pos_bound (pool_size p + 64 - 1) 64). lia.
Qed.

Lemma offset_to_ip_host o : in_range p o -> ntohl (offset_to_ip p o) = first_host p + o.
Proof.
  intros Ho. unfold offset_to_ip. fold (first_host p). pose proof (wf_order p Hwf) as H1. pose proof (wf_size p Hwf) as H2. pose proof (wf_small p Hwf) as H3.
  pose proof (ntohl_range (range_start (config p))) as R1. pose proof (ntohl_range (range_end (config p))) as R2.
  fold (first_host p) in R1. fold (last_host p) in R2. unfold in_range, is_u32 in *. rewrite ntohl_htonl by apply u32_range.
  apply u32_small. unfold is_u32. lia.
Qed.

Lemma offset_to_ip_contained o : in_range p o -> dhcp_pool_contains p (offset_to_ip p o) = true.
Proof.
  intros Ho. unfold dhcp_pool_contains. rewrite offset_to_ip_host by done. fold (first_host p). fold (last_host p). destruct Hwf.
  unfold in_range in Ho. apply andb_true_iff. split; apply Z.leb_le; lia.
Qed.

Lemma contained_range ip : dhcp_pool_contains p ip = true -> in_range p (ip_to_offset p ip) /\ ntohl ip = first_host p + ip_to_offset p ip.
Proof.
  unfold dhcp_pool_contains, ip_to_offset. fold (first_host p). fold (last_host p). pose proof (wf_order p Hwf) as H1. pose proof (wf_size p Hwf) as H2. pose proof (wf_small p Hwf) as H3.
  intros [Ha%Z.leb_le Hb%Z.leb_le]%andb_true_iff. pose proof (ntohl_range ip) as R.
  pose proof (ntohl_range (range_start (config p))) as R1. fold (first_host p) in R1. unfold is_u32 in *.
  rewrite u32_small by (unfold is_u32; lia). unfold in_range. lia.
Qed.

Lemma offset_roundtrip o : in_range p o -> ip_to_offset p (offset_to_ip p o) = o.
Proof. intros Ho. destruct (contained_range _ (offset_to_ip_contained o Ho)) as [_ E]. rewrite offset_to_ip_host in E by done. lia. Qed.

Lemma ip_roundtrip ip : is_u32 ip -> dhcp_pool_contains p ip = true -> offset_to_ip p (ip_to_offset p ip) = ip.
Proof.
  intros Hip Hc. destruct (contained_range ip Hc) as [Hr E]. apply ntohl_inj; [apply htonl_range|done|].
  by rewrite offset_to_ip_host.
Qed.

Lemma test_range o : in_range p o -> bitmap_test (bitmap p) o = Ok (used (bitmap p) o).
Proof. intros Ho. apply test_used. by apply range_bits. Qed.

(** A new bitmap of the same length keeps the invariant, when the bits below the hint stay. *)
Lemma wf_bitmap bm : bm_ok bm -> length bm = length (bitmap p) -> (forall x, 0 <= x < next_free_hint p -> used bm x = true) ->
  pool_wf (with_bitmap bm p).
Proof. intros Hb Hl Hu. destruct Hwf. constructor; try done. cbn. by rewrite Hl. Qed.

Lemma set_range_bit o : in_range p o ->
  exists bm, bitmap_set (bitmap p) o = Ok bm /\ pool_wf (with_bitmap bm p) /\ forall x, 0 <= x -> used bm x = (x =? o) || used (bitmap p) x.
Proof.
  intros Ho. destruct (set_used (bitmap p) o (wf_bits _ Hwf) (range_bits o Ho)) as (bm & E & Hb & Hl & Hu).
  exists bm. split; [done|]. split; [|done]. apply wf_bitmap; [done|done|]. intros x Hx. rewrite Hu, (wf_below p Hwf) by lia. apply orb_true_r.
Qed.

Lemma wf_counts a d : pool_wf (with_counts a d p).
Proof. destruct Hwf. by constructor. Qed.
Lemma wf_set_hint h : 0 <= h <= pool_size p -> (forall x, 0 <= x < h -> used (bitmap p) x = true) -> pool_wf (with_hint h p).
Proof. intros. destruct Hwf. by constructor. Qed.

(** A bit is cleared and the hint lowered to it. *)
Lemma clear_range_bit o : in_range p o ->
  exists bm, bitmap_clear (bitmap p) o = Ok bm /\
    pool_wf (if o <? next_free_hint p then with_hint o (with_bitmap bm p) else with_bitmap bm p) /\
    forall x, 0 <= x -> used bm x = negb (x =? o) && used (bitmap p) x.
Proof.
  intros Ho. destruct (clear_used (bitmap p) o (wf_bits _ Hwf) (range_bits o Ho)) as (bm & E & Hb & Hl & Hu).
  exists bm. split; [done|]. split; [|done]. unfold in_range in Ho.
  assert (forall x, 0 <= x < next_free_hint p -> x <> o -> used bm x = true) as Hlow.
  { intros x Hx Hne. rewrite Hu, (wf_below p Hwf) by lia. by destruct (Z.eqb_spec x o). }
  destruct Hwf. destruct (Z.ltb_spec o (next_free_hint p)); constructor; try done; cbn; try congruence; try lia; intros x Hx; apply Hlow; lia.
Qed.

(** A search in a pool: the first free offset of the range from [from] on, or none. *)
Lemma pool_search from : 0 <= from ->
  exists r, bitmap_find_first_zero (bitmap p) (bitmap_size p) from = Ok r /\
    ((r < pool_size p /\ from <= r /\ used (bitmap p) r = false /\ forall x, from <= x < r -> used (bitmap p) x = true) \/
     (pool_size p <= r /\ forall x, from <= x < pool_size p -> used (bitmap p) x = true)).
Proof.
  intros Hf. destruct (find_zero (bitmap p) (bitmap_size p) from bits_bound Hf (wf_len _ Hwf)) as (r & E & Hz). exists r. split; [done|].
  assert (pool_size p <= bits (bitmap p)) as Hsz.
  { pose proof size_pos. destruct (range_bits (pool_size p - 1)); [unfold in_range; lia|]. lia. }
  destruct Hz as [(Hr & Hu & Hb)|[-> Ha]].
  - destruct (Z.lt_ge_cases r (pool_size p)); [left; repeat split; try done; lia|right; split; [done|]; intros x Hx; apply Hb; lia].
  - right. split; [|intros x Hx; apply Ha; lia]. pose proof (wf_small p Hwf) as Hsm. unfold NO_BIT.
    change (u32 (-1)) with (u32_mod - 1). lia.
Qed.
End wf.

(** ** Allocation *)

Definition excluded (p : dhcp_pool) (o : Z) : bool := is_excluded p (offset_to_ip p o).

Lemma excluded_params p p' o : same_params p p' -> excluded p' o = excluded p o.
Proof.
  intros (E1 & _ & _ & _ & _ & E2 & E3). unfold excluded, is_excluded, exclusion_list, offset_to_ip. by rewrite E1, E2, E3.
Qed.

Lemma ip_params p p' o : same_params p p' -> offset_to_ip p' o = offset_to_ip p o.
Proof. intros (E & _). unfold offset_to_ip. by rewrite E. Qed.

Lemma range_params p p' o : same_params p p' -> in_range p' o <-> in_range p o.
Proof. intros (_ & _ & E & _). unfold in_range. by rewrite E. Qed.

(** Only excluded addresses of the range have become used. *)
Definition marks (p p' : dhcp_pool) : Prop :=
  forall x, 0 <= x ->
    (used (bitmap p) x = true -> used (bitmap p') x = true) /\
    (used (bitmap p') x = true -> used (bitmap p) x = true \/ (in_range p x /\ excluded p x = true)).

Lemma marks_refl p : marks p p.
Proof. intros x Hx. tauto. Qed.

Lemma marks_trans p1 p2 p3 : same_params p1 p2 -> marks p1 p2 -> marks p2 p3 -> marks p1 p3.
Proof.
  intros Hs H12 H23 x Hx. destruct (H12 x Hx) as [A1 A2]. destruct (H23 x Hx) as [B1 B2]. split; [tauto|].
  intros H. apply B2 in H as [H|[H1 H2]]; [tauto|]. right. by rewrite <- (range_params p1 p2 x Hs), <- (excluded_params p1 p2 x Hs).
Qed.

(** Skipping from the free offset [o]: ends on the first offset from [o] on that is neither
    used nor excluded, or finds none; the excluded ones it met are marked. *)
Lemma skip_spec fuel : forall p o, pool_wf p -> in_range p o -> used (bitmap p) o = false -> pool_size p - o <= Z.of_nat fuel ->
  exists p' res, skip_loop fuel p o = Ok (p', res) /\ pool_wf p' /\ same_params p p' /\ marks p p' /\
    next_free_hint p' = next_free_hint p /\ allocated_count p' = allocated_count p /\ declined_count p' = declined_count p /\
    match res with
    | Some r => in_range p r /\ o <= r /\ used (bitmap p') r = false /\ excluded p r = false /\ forall x, o <= x < r -> used (bitmap p') x = true
    | None => forall x, o <= x < pool_size p -> used (bitmap p') x = true
    end.
Proof.
  induction fuel as [|fuel IH]; intros p o Hwf Ho Hfree Hfuel; [unfold in_range in Ho; lia|].
  cbn [skip_loop]. fold (excluded p o). destruct (excluded p o) eqn:Eex; cbn [negb].
  2: { exists p, (Some o). do 3 (split; [done || apply same_params_refl|]). split; [apply marks_refl|].
       do 4 (split; [done|]). split; [lia|]. split; [done|]. split; [done|]. lia. }
  destruct (set_range_bit p Hwf o Ho) as (bm & -> & Hwf1 & Hu). cbn [obind].
  pose proof (wf_small _ Hwf) as H3.
  assert (same_params p (with_bitmap bm p)) as Hs by exact (same_params_refl p).
  assert (marks p (with_bitmap bm p)) as Hm.
  { intros x Hx. cbn. rewrite Hu by done. destruct (Z.eqb_spec x o) as [->|]; cbn; [|tauto]. split; [done|]. intros _. by right. }
  unfold in_range in Ho. rewrite (u32_small (o + 1)) by (unfold is_u32; lia).
  destruct (pool_search _ Hwf1 (o + 1) ltac:(lia)) as (r & -> & Hr). cbn [obind bitmap pool_size with_bitmap] in *.
  destruct (Z.leb_spec (pool_size p) r) as [Hge|Hlt].
  - exists (with_bitmap bm p), None. do 4 (split; [done|]). repeat split. intros x Hx. cbn.
    destruct (Z.eq_dec x o) as [->|Hne]; [rewrite Hu, Z.eqb_refl by lia; done|]. destruct Hr as [Hr|[_ Hr]]; [lia|]. apply Hr. lia.
  - destruct Hr as [(_ & Hor & Hf & Hb)|]; [|lia].
    destruct (IH (with_bitmap bm p) r Hwf1) as (p' & res & -> & Hwf' & Hs' & Hm' & Eh & Ea & Ed & Hres); [split; cbn; lia|done|cbn; lia|].
    exists p', res. split; [done|]. split; [done|]. split; [by apply (same_params_trans p (with_bitmap bm p))|]. split; [by apply (marks_trans p (with_bitmap bm p))|].
    do 3 (split; [done|]). assert (forall x, o <= x < r -> used (bitmap p') x = true) as Hlow.
    { intros x Hx. apply Hm'; [lia|]. cbn. destruct (Z.eq_dec x o) as [->|Hne]; [rewrite Hu, Z.eqb_refl by lia; done|]. apply Hb. lia. }
    destruct res as [r'|].
    + destruct Hres as (R1 & R2 & R3 & R4 & R5). split; [done|]. split; [lia|]. split; [done|]. split; [done|].
      intros x Hx. destruct (Z.lt_ge_cases x r); [apply Hlow; lia|apply R5; lia].
    + intros x Hx. destruct (Z.lt_ge_cases x r); [apply Hlow; lia|apply Hres; cbn; lia].
Qed.

(** What an allocation without a reservation does: the lowest address of the range that is
    neither used nor excluded is taken; if there is none, the answer is 0. *)
Definition allocated (p : dhcp_pool) (ip : Z) (p' : dhcp_pool) : Prop :=
  (exists r, in_range p r /\ ip = offset_to_ip p r /\ used (bitmap p) r = false /\ excluded p r = false /\
     (forall x, 0 <= x < r -> used (bitmap p) x = true \/ excluded p x = true) /\
     used (bitmap p') r = true /\ allocated_count p' = u32 (allocated_count p + 1) /\
     forall x, 0 <= x -> x <> r ->
       (used (bitmap p) x = true -> used (bitmap p') x = true) /\
       (used (bitmap p') x = true -> used (bitmap p) x = true \/ excluded p x = true)) \/
  (ip = 0 /\ marks p p' /\ allocated_count p' = allocated_count p /\
     forall x, in_range p x -> used (bitmap p) x = true \/ excluded p x = true).

(** Both searches together find the lowest free offset: nothing below the hint is free. *)
Lemma first_search p : pool_wf p ->
  exists r, (let! offset := bitmap_find_first_zero (bitmap p) (bitmap_size p) (next_free_hint p) in
             if (pool_size p <=? offset) && (0 <? next_free_hint p) then bitmap_find_first_zero (bitmap p) (bitmap_size p) 0
             else Ok offset) = Ok r /\
    ((in_range p r /\ used (bitmap p) r = false /\ forall x, 0 <= x < r -> used (bitmap p) x = true) \/
     (pool_size p <= r /\ forall x, in_range p x -> used (bitmap p) x = true)).
Proof.
  intros Hwf. pose proof (wf_hint _ Hwf) as Hh. pose proof (wf_below _ Hwf) as Hb.
  destruct (pool_search p Hwf (next_free_hint p) ltac:(lia)) as (r0 & -> & Hr0). cbn [obind].
  destruct Hr0 as [(R1 & R2 & R3 & R4)|[R1 R2]].
  - exists r0. destruct (Z.leb_spec (pool_size p) r0); [lia|]. split; [done|]. left. split; [split; lia|]. split; [done|].
    intros x Hx. destruct (Z.lt_ge_cases x (next_free_hint p)); [apply Hb; lia|apply R4; lia].
  - assert (forall x, in_range p x -> used (bitmap p) x = true) as Hall.
    { intros x [Hx1 Hx2]. destruct (Z.lt_ge_cases x (next_free_hint p)); [apply Hb; lia|apply R2; lia]. }
    destruct (Z.leb_spec (pool_size p) r0); [|lia]. cbn [andb]. destruct (0 <? next_free_hint p); [|exists r0; split; [done|by right]].
    destruct (pool_search p Hwf 0 ltac:(lia)) as (r & -> & Hr). exists r. split; [done|]. right. split; [|done].
    destruct Hr as [(A & B & C & _)|[A _]]; [|done]. rewrite Hall in C by (split; lia). done.
Qed.

Lemma allocate_free_spec fuel p : pool_wf p -> pool_size p <= Z.of_nat fuel ->
  exists ip p', allocate_free fuel p = Ok (ip, p') /\ pool_wf p' /\ same_params p p' /\ declined_count p' = declined_count p /\ allocated p ip p'.
Proof.
  intros Hwf Hfuel. destruct (first_search p Hwf) as (r & Er & Hr). unfold allocate_free.
  destruct (bitmap_find_first_zero (bitmap p) (bitmap_size p) (next_free_hint p)) as [o1| |]; try discriminate Er. cbn [obind] in *. rewrite Er. cbn [obind]. clear Er.
  destruct Hr as [(R1 & R2 & R3)|[R1 R2]].
  2: { destruct (Z.leb_spec (pool_size p) r); [|lia]. exists 0, p. split; [done|]. split; [done|]. split; [apply same_params_refl|]. split; [done|].
       right. split; [done|]. split; [apply marks_refl|]. split; [done|]. intros x Hx. left. by apply R2. }
  unfold in_range in R1. destruct (Z.leb_spec (pool_size p) r); [lia|].
  destruct (skip_spec fuel p r Hwf) as (p1 & res & -> & Hwf1 & Hs1 & Hm1 & _ & Ea & Ed & Hres); [split; lia|done|lia|]. cbn [obind].
  assert (forall x, 0 <= x -> used (bitmap p1) x = true -> used (bitmap p) x = true \/ excluded p x = true) as Hback.
  { intros x Hx Hux. destruct (Hm1 x Hx) as [_ H']. apply H' in Hux. tauto. }
  destruct res as [o|].
  - destruct Hres as (O1 & O2 & O3 & O4 & O5). destruct (set_range_bit p1 Hwf1 o) as (bm & -> & Hwf2 & Hu); [by apply (range_params p p1)|]. cbn [obind].
    unfold in_range in O1. rewrite (u32_small (o + 1)) by (unfold is_u32; pose proof (wf_small _ Hwf); lia).
    exists (offset_to_ip p1 o), (with_hint (o + 1) (count_up (with_bitmap bm p1))). split; [done|].
    assert (forall x, 0 <= x < o -> used (bitmap p1) x = true) as Hlow.
    { intros x Hx. destruct (Z.lt_ge_cases x r); [apply Hm1; [lia|]; apply R3; lia|apply O5; lia]. }
    split.
    { apply wf_set_hint; [by apply wf_counts|destruct Hs1 as (_ & _ & Es & _); cbn; lia|]. intros x Hx. cbn. rewrite Hu by lia.
      destruct (Z.eqb_spec x o); [done|]. apply Hlow. lia. }
    split; [exact Hs1|]. split; [done|]. left. exists o. split; [done|]. split; [by apply ip_params|].
    split; [destruct (used (bitmap p) o) eqn:Eo; [|done]; apply Hm1 in Eo; [congruence|lia]|]. split; [done|].
    split; [intros x Hx; apply Hback; [lia|apply Hlow; lia]|].
    cbn [bitmap with_bitmap count_up with_counts with_hint allocated_count]. split; [rewrite Hu, Z.eqb_refl by lia; done|].
    split; [by rewrite Ea|]. intros x Hx Hne. rewrite Hu by done. destruct (Z.eqb_spec x o); [done|]. cbn [orb]. split; [apply Hm1; lia|by apply Hback].
  - exists 0, p1. split; [done|]. split; [done|]. split; [done|]. split; [done|]. right. split; [done|]. split; [done|].
    split; [done|]. intros x Hx. unfold in_range in Hx. destruct (Z.lt_ge_cases x r); [left; apply R3; lia|apply Hback; [lia|apply Hres; lia]].
Qed.

(** C28: Dhcp_pool_allocate for a client without a reservation always returns.  It hands out the
    lowest address of the range that is neither used nor excluded, and marks it; of the other
    bits only those of excluded addresses change.  It answers 0 only when every address of
    the range is used or excluded: the hint and the second search lose nothing, because no
    address below the hint is free. *)
Theorem pool_allocate_exact fuel p mac : pool_wf p -> pool_size p <= Z.of_nat fuel -> mac ≫= dhcp_pool_find_reservation p = None ->
  exists ip p', dhcp_pool_allocate fuel p mac = Ok (ip, p') /\ allocated p ip p'.
Proof.
  intros Hwf Hf Hr. unfold dhcp_pool_allocate. rewrite Hr.
  destruct (allocate_free_spec fuel p Hwf Hf) as (ip & p' & E & _ & _ & _ & H). by exists ip, p'.
Qed.

(** Every excluded address of the range has its bit set. *)
Definition exclusions_marked (p : dhcp_pool) : Prop := forall x, in_range p x -> excluded p x = true -> used (bitmap p) x = true.
