(* ===== verification/DhcpPoolRun.v ===== *)
(** * Sequences of operations on the address pool

    Every operation as a step, the invariant over all steps, and that an address is not
    handed out twice. *)

From S2P Require Import Prelude Common Bytes DhcpPool DhcpPoolBits DhcpPoolSpec.

Inductive pool_op :=
| Allocate (mac : option (list Z))
| AllocateSpecific (ip : Z)
| Release (ip : Z)
| MarkUsed (ip : Z)
| MarkDeclined (ip : Z)
| AddReservation (ip : Z) (mac hostname : option (list Z))
| RemoveReservation (ip : Z)
| RemoveReservationByMac (mac : list Z)
| AddExclusion (start stop : Z)
| RemoveExclusion (start : Z)
| ClearExclusions
| SetRange (bitmap_ok : bool) (start stop : Z)
| SetNetwork (nw mask : Z)
| SetGateway (gw : Z)
| SetDns (servers : list Z) (n : Z)
| SetDomain (d : option (list Z))
| SetLeaseTimes (def max min : Z)
| Reset.

Definition pool_step (fuel : nat) (p : dhcp_pool) (op : pool_op) : outcome (Z * dhcp_pool) :=
  match op with
  | Allocate mac => dhcp_pool_allocate fuel p mac
  | AllocateSpecific ip => dhcp_pool_allocate_specific p ip
  | Release ip => dhcp_pool_release p ip
  | MarkUsed ip => dhcp_pool_mark_used p ip
  | MarkDeclined ip => dhcp_pool_mark_declined p ip
  | AddReservation ip mac h => dhcp_pool_add_reservation p ip mac h
  | RemoveReservation ip => Ok (dhcp_pool_remove_reservation p ip)
  | RemoveReservationByMac mac => Ok (dhcp_pool_remove_reservation_by_mac p mac)
  | AddExclusion s e => dhcp_pool_add_exclusion fuel p s e
  | RemoveExclusion s => Ok (dhcp_pool_remove_exclusion p s)
  | ClearExclusions => Ok (dhcp_pool_clear_exclusions p)
  | SetRange ok s e => Ok (dhcp_pool_set_range ok p s e)
  | SetNetwork nw mask => Ok (dhcp_pool_set_network p nw mask)
  | SetGateway gw => Ok (dhcp_pool_set_gateway p gw)
  | SetDns servers n => dhcp_pool_set_dns p servers n
  | SetDomain d => Ok (dhcp_pool_set_domain p d)
  | SetLeaseTimes a b c => Ok (dhcp_pool_set_lease_times p a b c)
  | Reset => Ok (0, dhcp_pool_reset p)
  end.

(** What the caller guarantees: 32-bit addresses, arrays of the length it states, and fuel
    for the loops.  An excluded range must not end with 255.255.255.255 and a range must
    not be the whole address space. *)
Definition op_ok (fuel : nat) (p : dhcp_pool) (op : pool_op) : Prop :=
  match op with
  | Allocate _ => pool_size p <= Z.of_nat fuel
  | AllocateSpecific ip | Release ip | MarkUsed ip | MarkDeclined ip => is_u32 ip
  | AddReservation ip _ _ => is_u32 ip
  | AddExclusion s e => ntohl e < u32_mod - 1 /\ ntohl e - ntohl s < Z.of_nat fuel
  | SetRange _ s e => ntohl e - ntohl s + 1 < u32_mod
  | SetDns servers n => n <= Z.of_nat (length servers)
  | _ => True
  end.

(** Two runs of the same code end alike. *)
Ltac same_result :=
  match goal with
  | H1 : ?t = Ok (?a, ?b), H2 : ?t = Ok _ |- _ => rewrite H1 in H2; injection H2 as <- <-
  end.

(** ** The operations on single addresses *)

Section single.
Context (p : dhcp_pool) (Hwf : pool_wf p).

(** The pool with offset [o] used. *)
Definition adds (p p' : dhcp_pool) (o : Z) : Prop :=
  pool_wf p' /\ same_params p p' /\ forall x, 0 <= x -> used (bitmap p') x = (x =? o) || used (bitmap p) x.

Lemma used_adds o : used (bitmap p) o = true -> adds p p o.
Proof.
  intros Hu. split; [done|]. split; [apply same_params_refl|]. intros x Hx. by destruct (Z.eqb_spec x o) as [->|].
Qed.

Lemma take_offset_spec o : in_range p o ->
  exists p', take_offset p o = Ok p' /\ adds p p' o /\
    allocated_count p' = (if used (bitmap p) o then allocated_count p else u32 (allocated_count p + 1)).
Proof.
  intros Ho. unfold take_offset. rewrite test_range by done. cbn [obind]. destruct (used (bitmap p) o) eqn:Eu; cbn [negb].
  - exists p. split; [done|]. split; [by apply used_adds|done].
  - destruct (set_range_bit p Hwf o Ho) as (bm & -> & Hwf' & Hu). cbn [obind]. eexists. split; [done|]. split; [|done].
    split; [by apply wf_counts|]. split; [exact (same_params_refl p)|]. exact Hu.
Qed.

Lemma allocate_specific_spec ip :
  exists r p', dhcp_pool_allocate_specific p ip = Ok (r, p') /\
    if dhcp_pool_contains p ip && negb (is_excluded p ip) && negb (used (bitmap p) (ip_to_offset p ip))
    then r = ip /\ adds p p' (ip_to_offset p ip) /\ allocated_count p' = u32 (allocated_count p + 1)
    else r = 0 /\ p' = p.
Proof.
  unfold dhcp_pool_allocate_specific. destruct (dhcp_pool_contains p ip) eqn:Ec; cbn [negb andb]; [|by exists 0, p].
  destruct (is_excluded p ip); cbn [negb andb]; [by exists 0, p|]. destruct (contained_range p Hwf ip Ec) as [Hr _].
  rewrite test_range by done. cbn [obind]. destruct (used (bitmap p) (ip_to_offset p ip)); cbn [negb]; [by exists 0, p|].
  destruct (set_range_bit p Hwf _ Hr) as (bm & -> & Hwf' & Hu). cbn [obind]. eexists ip, _. split; [done|]. split; [done|]. split; [|done].
  split; [by apply wf_counts|]. split; [exact (same_params_refl p)|exact Hu].
Qed.

Lemma release_spec ip :
  exists r p', dhcp_pool_release p ip = Ok (r, p') /\ pool_wf p' /\ same_params p p' /\
    if dhcp_pool_contains p ip
    then r = 0 /\ (forall x, 0 <= x -> used (bitmap p') x = negb (x =? ip_to_offset p ip) && used (bitmap p) x) /\
      allocated_count p' = (if used (bitmap p) (ip_to_offset p ip) then u32 (allocated_count p - 1) else allocated_count p)
    else r = -1 /\ p' = p.
Proof.
  unfold dhcp_pool_release. destruct (dhcp_pool_contains p ip) eqn:Ec; cbn [negb].
  2: { exists (-1), p. split; [done|]. split; [done|]. split; [apply same_params_refl|done]. }
  destruct (contained_range p Hwf ip Ec) as [Hr _]. set (o := ip_to_offset p ip) in *. rewrite test_range by done. cbn [obind].
  destruct (used (bitmap p) o) eqn:Eu; cbn [negb].
  - destruct (clear_range_bit p Hwf _ Hr) as (bm & -> & Hwf' & Hu). cbn [obind]. eexists 0, _. split; [done|].
    cbn [next_free_hint with_counts with_bitmap]. destruct (Z.ltb_spec o (next_free_hint p)).
    + split; [exact (wf_counts _ Hwf' _ _)|]. split; [exact (same_params_refl p)|]. split; [done|]. split; [exact Hu|]. done.
    + split; [by apply wf_counts|]. split; [exact (same_params_refl p)|]. split; [done|]. split; [exact Hu|]. done.
  - exists 0, p. split; [done|]. split; [done|]. split; [apply same_params_refl|]. split; [done|].
    split; [intros x Hx; destruct (Z.eqb_spec x o) as [->|]; [by rewrite Eu|done]|]. done.
Qed.

Lemma mark_used_spec ip :
  exists r p', dhcp_pool_mark_used p ip = Ok (r, p') /\
    if dhcp_pool_contains p ip
    then r = 0 /\ adds p p' (ip_to_offset p ip) /\
      allocated_count p' = (if used (bitmap p) (ip_to_offset p ip) then allocated_count p else u32 (allocated_count p + 1))
    else r = -1 /\ p' = p.
Proof.
  unfold dhcp_pool_mark_used. destruct (dhcp_pool_contains p ip) eqn:Ec; cbn [negb]; [|by exists (-1), p].
  destruct (contained_range p Hwf ip Ec) as [Hr _]. destruct (take_offset_spec _ Hr) as (p' & -> & H). cbn [obind]. by exists 0, p'.
Qed.

Lemma mark_declined_spec ip :
  exists r p', dhcp_pool_mark_declined p ip = Ok (r, p') /\
    if dhcp_pool_contains p ip
    then r = 0 /\ adds p p' (ip_to_offset p ip) /\ allocated_count p' = allocated_count p /\ declined_count p' = u32 (declined_count p + 1)
    else r = -1 /\ p' = p.
Proof.
  unfold dhcp_pool_mark_declined. destruct (dhcp_pool_contains p ip) eqn:Ec; cbn [negb]; [|by exists (-1), p].
  destruct (contained_range p Hwf ip Ec) as [Hr _]. destruct (set_range_bit p Hwf _ Hr) as (bm & -> & Hwf' & Hu). cbn [obind].
  eexists 0, _. split; [done|]. split; [done|]. split; [|done]. split; [by apply wf_counts|]. split; [exact (same_params_refl p)|exact Hu].
Qed.
End single.

(** ** Exclusions *)

(** The marking loop sets exactly the bits of the addresses of the pool it passes. *)
Lemma mark_loop_spec p end_h fuel : pool_wf p -> end_h < u32_mod - 1 -> forall ip_h bm, 0 <= ip_h -> end_h - ip_h < Z.of_nat fuel ->
  bm_ok bm -> length bm = length (bitmap p) ->
  exists bm', mark_loop fuel (first_host p) (last_host p) end_h ip_h bm = Ok bm' /\ bm_ok bm' /\ length bm' = length bm /\
    forall x, 0 <= x -> used bm' x = used bm x || ((ip_h <=? first_host p + x) && (first_host p + x <=? end_h) && (x <? pool_size p)).
Proof.
  intros Hwf Hend. induction fuel as [|fuel IH]; intros ip_h bm Hip Hf Hok Hl.
  { cbn [mark_loop]. destruct (Z.ltb_spec end_h ip_h); [|lia]. exists bm. do 3 (split; [done|]). intros x Hx.
    destruct (Z.leb_spec ip_h (first_host p + x)), (Z.leb_spec (first_host p + x) end_h); (lia || by rewrite orb_false_r). }
  cbn [mark_loop]. destruct (Z.ltb_spec end_h ip_h).
  { exists bm. do 3 (split; [done|]). intros x Hx.
    destruct (Z.leb_spec ip_h (first_host p + x)), (Z.leb_spec (first_host p + x) end_h); (lia || by rewrite orb_false_r). }
  pose proof (wf_size p Hwf) as Hs. pose proof (wf_small p Hwf) as Hsm. pose proof (ntohl_range (range_start (config p))) as Hfh. fold (first_host p) in Hfh.
  assert (exists bm1, (if (first_host p <=? ip_h) && (ip_h <=? last_host p) then
      let! t := bitmap_test bm (u32 (ip_h - first_host p)) in if negb t then bitmap_set bm (u32 (ip_h - first_host p)) else Ok bm else Ok bm) = Ok bm1 /\
    bm_ok bm1 /\ length bm1 = length bm /\
    forall x, 0 <= x -> used bm1 x = used bm x || ((first_host p + x =? ip_h) && (x <? pool_size p))) as (bm1 & E1 & Hok1 & Hl1 & Hu1).
  { destruct (Z.leb_spec (first_host p) ip_h) as [Ha|Ha]; cbn [andb]; [destruct (Z.leb_spec ip_h (last_host p)) as [Hb|Hb]|].
    - rewrite u32_small by (unfold is_u32; lia). set (o := ip_h - first_host p).
      assert (0 <= o < bits bm) as Ho by (unfold bits; rewrite Hl; apply (range_bits p Hwf); unfold in_range, o; lia).
      rewrite test_used by done. cbn [obind].
      assert (forall x, (first_host p + x =? ip_h) && (x <? pool_size p) = (x =? o)) as Ex.
      { intros x. destruct (Z.eqb_spec (first_host p + x) ip_h), (Z.eqb_spec x o), (Z.ltb_spec x (pool_size p)); (done || lia). }
      destruct (used bm o) eqn:Eu; cbn [negb].
      + exists bm. do 3 (split; [done|]). intros x Hx. rewrite Ex. destruct (Z.eqb_spec x o) as [->|]; [by rewrite Eu|by rewrite orb_false_r].
      + destruct (set_used bm o Hok Ho) as (bm1 & -> & Hok1 & Hl1 & Hu1). exists bm1. do 3 (split; [done|]). intros x Hx. rewrite Ex, Hu1 by done. apply orb_comm.
    - exists bm. do 3 (split; [done|]). intros x Hx. destruct (Z.eqb_spec (first_host p + x) ip_h), (Z.ltb_spec x (pool_size p)); (lia || by rewrite orb_false_r).
    - exists bm. do 3 (split; [done|]). intros x Hx. destruct (Z.eqb_spec (first_host p + x) ip_h); (lia || by rewrite orb_false_r). }
  cbv zeta. rewrite E1. cbn [obind]. rewrite (u32_small (ip_h + 1)) by (unfold is_u32; lia).
  destruct (IH (ip_h + 1) bm1) as (bm2 & -> & Hok2 & Hl2 & Hu2); [lia|lia|done|congruence|]. exists bm2. split; [done|]. split; [done|]. split; [congruence|].
  intros x Hx. rewrite Hu2, Hu1 by done. rewrite <- orb_assoc. f_equal.
  destruct (Z.eqb_spec (first_host p + x) ip_h), (Z.leb_spec (ip_h + 1) (first_host p + x)), (Z.leb_spec ip_h (first_host p + x)), (Z.leb_spec (first_host p + x) end_h), (Z.ltb_spec x (pool_size p)); (done || lia).
Qed.

Lemma add_exclusion_spec fuel p s e : pool_wf p -> ntohl e < u32_mod - 1 -> ntohl e - ntohl s < Z.of_nat fuel ->
  exists r p', dhcp_pool_add_exclusion fuel p s e = Ok (r, p') /\ pool_wf p' /\ config p' = config p /\
    reservations p' = reservations p /\ num_reservations p' = num_reservations p /\
    forall x, 0 <= x -> used (bitmap p) x = true -> used (bitmap p') x = true.
Proof.
  intros Hwf He Hf. unfold dhcp_pool_add_exclusion. destruct (Z.leb_spec DHCP_POOL_MAX_EXCLUSIONS (num_exclusions p)).
  { exists (-1), p. done. }
  set (p1 := with_exclusions _ _ p). assert (pool_wf p1) as Hwf1.
  { pose proof (wf_nexcl p Hwf). destruct Hwf. constructor; try done; cbn; [by rewrite length_insert|lia]. }
  destruct (dhcp_pool_contains p1 s); [|exists 0, p1; done].
  destruct (mark_loop_spec p1 (ntohl e) fuel Hwf1 He (ntohl s) (bitmap p1)) as (bm & E & Hok & Hl & Hu); [apply ntohl_range|done|apply Hwf1|done|].
  unfold first_host, last_host in E. rewrite E. cbn [obind]. eexists 0, _. split; [done|].
  assert (forall x, 0 <= x -> used (bitmap p) x = true -> used bm x = true) as Hg.
  { intros x Hx Hux. rewrite Hu by done. change (bitmap p1) with (bitmap p). by rewrite Hux. }
  split; [|by do 3 (split; [done|])]. apply wf_bitmap; [done|done|done|]. intros x Hx. apply Hg; [lia|]. by apply (wf_below p Hwf).
Qed.

(** ** Every step *)

Lemma index_of_lt {A} (f : A -> bool) l i : index_of f l = Some i -> (i < length l)%nat.
Proof.
  revert i. induction l as [|x l IH]; intros i; simpl; [done|]. destruct (f x); [intros [= <-]; lia|].
  destruct (index_of f l) as [j|]; simpl; [|done]. intros [= <-]. specialize (IH j eq_refl). lia.
Qed.

Lemma remove_slot_length {A} (l : list A) n i : length (remove_slot l n i) = length l.
Proof. unfold remove_slot. destruct (_ <? _); [|done]. destruct (l !! _); [apply length_insert|done]. Qed.

Lemma remove_slot_Forall {A} (P : A -> Prop) l n i : Forall P l -> Forall P (remove_slot l n i).
Proof.
  intros Hl. unfold remove_slot. destruct (_ <? _); [|done]. destruct (l !! _) eqn:E; [|done]. apply Forall_insert; [done|].
  by eapply Forall_lookup_1.
Qed.

(** A new configuration with the same range. *)
Lemma wf_config p c : pool_wf p -> range_start c = range_start (config p) -> range_end c = range_end (config p) ->
  length (dns_servers c) = 4%nat -> pool_wf (with_config c p).
Proof.
  intros Hwf E1 E2 E3. destruct Hwf. unfold first_host, last_host in *.
  constructor; unfold first_host, last_host; cbn [config with_config]; rewrite ?E1, ?E2; done.
Qed.

Lemma zeros_ok n : bm_ok (zeros n).
Proof. apply Forall_replicate. unfold is_u64, u64_mod. lia. Qed.

Lemma words_for_nonneg n : 0 <= n -> 0 <= words_for n.
Proof. intros. unfold words_for, BITS_PER_WORD. apply Z.div_pos; lia. Qed.

Lemma set_range_wf ok p s e : pool_wf p -> ntohl e - ntohl s + 1 < u32_mod -> pool_wf (snd (dhcp_pool_set_range ok p s e)).
Proof.
  intros Hwf Hlt. unfold dhcp_pool_set_range. destruct (Z.ltb_spec (ntohl e) (ntohl s)); [done|]. destruct (_ && _); [done|].
  pose proof (ntohl_range s). pose proof (ntohl_range e). rewrite u32_small by (unfold is_u32 in *; lia).
  destruct Hwf. constructor; try done; unfold first_host, last_host; cbn; try lia.
  - unfold zeros. rewrite length_replicate. pose proof (words_for_nonneg (ntohl e - ntohl s + 1) ltac:(lia)). lia.
  - apply zeros_ok.
Qed.

Lemma add_reservation_wf p ip mac h : pool_wf p -> is_u32 ip -> exists r p', dhcp_pool_add_reservation p ip mac h = Ok (r, p') /\ pool_wf p' /\ bitmap p' = bitmap p /\ config p' = config p.
Proof.
  intros Hwf Hip. unfold dhcp_pool_add_reservation. destruct mac as [m|]; [|by exists (-1), p].
  destruct (Z.leb_spec DHCP_POOL_MAX_RESERVATIONS (num_reservations p)); [by exists (-1), p|]. destruct (existsb _ _); [by exists (-1), p|].
  destruct Hwf. destruct (lookup_lt_is_Some_2 (reservations p) (Z.to_nat (num_reservations p)) ltac:(lia)) as [slot ->]. cbn [of_option obind].
  eexists 0, _. split; [done|]. split; [|done]. constructor; try done; cbn; [by rewrite length_insert|lia|]. by apply Forall_insert.
Qed.

Lemma remove_reservation_wf p f : pool_wf p ->
  pool_wf (snd (remove_reservation_where f p)) /\ bitmap (snd (remove_reservation_where f p)) = bitmap p /\ config (snd (remove_reservation_where f p)) = config p.
Proof.
  intros Hwf. unfold remove_reservation_where. destruct (index_of f (reservation_list p)) as [i|] eqn:E; [|done]. cbn [snd]. split; [|done].
  apply index_of_lt in E. unfold reservation_list in E. rewrite length_take in E. destruct Hwf. constructor; try done; cbn.
  - by rewrite remove_slot_length.
  - lia.
  - by apply remove_slot_Forall.
Qed.

Lemma remove_exclusion_wf p s : pool_wf p ->
  pool_wf (snd (dhcp_pool_remove_exclusion p s)) /\ bitmap (snd (dhcp_pool_remove_exclusion p s)) = bitmap p /\ config (snd (dhcp_pool_remove_exclusion p s)) = config p.
Proof.
  intros Hwf. unfold dhcp_pool_remove_exclusion. destruct (index_of _ (exclusion_list p)) as [i|] eqn:E; [|done]. cbn [snd]. split; [|done].
  apply index_of_lt in E. unfold exclusion_list in E. rewrite length_take in E. destruct Hwf. constructor; try done; cbn; [by rewrite remove_slot_length|lia].
Qed.

Lemma set_dns_wf p servers n : pool_wf p -> n <= Z.of_nat (length servers) ->
  exists r p', dhcp_pool_set_dns p servers n = Ok (r, p') /\ pool_wf p' /\ bitmap p' = bitmap p /\ range_start (config p') = range_start (config p) /\
    range_end (config p') = range_end (config p).
Proof.
  intros Hwf Hn. unfold dhcp_pool_set_dns. destruct (Z.ltb_spec n 0); [by exists (-1), p|]. destruct (Z.ltb_spec 4 n); [by exists (-1), p|]. cbn [orb].
  destruct (load servers 0 n) as [d| |] eqn:El; [|by rewrite load_ok in El by lia..]. cbn [obind]. pose proof (load_length _ _ _ _ El) as Hd.
  pose proof (wf_dns p Hwf). destruct (store (dns_servers (config p)) 0 d) as [s| |] eqn:Es; [|by rewrite store_ok in Es by lia..]. cbn [obind].
  eexists 0, _. split; [done|]. split; [|done]. apply wf_config; try done. cbn. apply store_length in Es. congruence.
Qed.

Lemma allocate_wf fuel p mac : pool_wf p -> pool_size p <= Z.of_nat fuel ->
  exists r p', dhcp_pool_allocate fuel p mac = Ok (r, p') /\ pool_wf p' /\ same_params p p' /\
    (forall x, 0 <= x -> used (bitmap p) x = true -> used (bitmap p') x = true) /\
    match mac ≫= dhcp_pool_find_reservation p with
    | Some res => r = res_ip res /\ (dhcp_pool_contains p r = true -> used (bitmap p') (ip_to_offset p r) = true)
    | None => r = 0 \/ exists o, in_range p o /\ r = offset_to_ip p o /\ used (bitmap p) o = false /\ used (bitmap p') o = true
    end.
Proof.
  intros Hwf Hf. unfold dhcp_pool_allocate. destruct (mac ≫= dhcp_pool_find_reservation p) as [res|].
  - destruct (dhcp_pool_contains p (res_ip res)) eqn:Ec.
    + destruct (contained_range p Hwf _ Ec) as [Hr _]. destruct (take_offset_spec p Hwf _ Hr) as (p' & -> & (H1 & H2 & H3) & _). cbn [obind].
      exists (res_ip res), p'. split; [done|]. split; [done|]. split; [done|]. unfold in_range in Hr.
      split; [intros x Hx Hu; rewrite H3 by done; by rewrite Hu, orb_true_r|]. split; [done|]. intros _. rewrite H3, Z.eqb_refl by lia. done.
    + cbn [obind]. exists (res_ip res), p. split; [done|]. split; [done|]. split; [apply same_params_refl|]. split; [done|]. split; [done|]. by rewrite Ec.
  - destruct (allocate_free_spec fuel p Hwf Hf) as (ip & p' & E & Hw & Hs & _ & Ha). exists ip, p'. split; [exact E|]. split; [done|]. split; [done|].
    destruct Ha as [(r & R1 & R3 & R4 & _ & _ & R7 & _ & R8)|(-> & Hm & _)].
    + split; [|right; by exists r]. intros x Hx Hu. destruct (Z.eq_dec x r) as [->|Hne]; [done|]. by apply R8.
    + split; [|by left]. intros x Hx Hu. by apply Hm.
Qed.

Lemma step_safe fuel p op : pool_wf p -> op_ok fuel p op -> exists r p', pool_step fuel p op = Ok (r, p') /\ pool_wf p'.
Proof.
  intros Hwf Hop. destruct op; cbn [pool_step op_ok] in *.
  - destruct (allocate_wf fuel p mac Hwf Hop) as (r & p' & E & Hw & _). by exists r, p'.
  - destruct (allocate_specific_spec p Hwf ip) as (r & p' & E & H). exists r, p'. split; [done|]. destruct (_ && _); [by destruct H as (_ & (H & _) & _)|by destruct H as [_ ->]].
  - destruct (release_spec p Hwf ip) as (r & p' & E & H & _). by exists r, p'.
  - destruct (mark_used_spec p Hwf ip) as (r & p' & E & H). exists r, p'. split; [done|]. destruct (dhcp_pool_contains p ip); [by destruct H as (_ & (H & _) & _)|by destruct H as [_ ->]].
  - destruct (mark_declined_spec p Hwf ip) as (r & p' & E & H). exists r, p'. split; [done|]. destruct (dhcp_pool_contains p ip); [by destruct H as (_ & (H & _) & _)|by destruct H as [_ ->]].
  - destruct (add_reservation_wf p ip mac hostname Hwf Hop) as (r & p' & E & Hw & _). by exists r, p'.
  - destruct (remove_reservation_wf p (same_ip ip) Hwf) as [Hw _]. unfold dhcp_pool_remove_reservation. destruct (remove_reservation_where _ p) as [r p']. by exists r, p'.
  - destruct (remove_reservation_wf p (same_mac mac) Hwf) as [Hw _]. unfold dhcp_pool_remove_reservation_by_mac. destruct (remove_reservation_where _ p) as [r p']. by exists r, p'.
  - destruct (add_exclusion_spec fuel p start stop Hwf (proj1 Hop) (proj2 Hop)) as (r & p' & E & Hw & _). by exists r, p'.
  - destruct (remove_exclusion_wf p start Hwf) as [Hw _]. destruct (dhcp_pool_remove_exclusion p start) as [r p']. by exists r, p'.
  - exists 0, (with_exclusions (exclusions p) 0 p). split; [done|]. destruct Hwf. constructor; try done.
  - pose proof (set_range_wf bitmap_ok p start stop Hwf Hop). destruct (dhcp_pool_set_range bitmap_ok p start stop) as [r p']. by exists r, p'.
  - eexists 0, _. split; [done|]. apply wf_config; try done. by apply wf_dns.
  - eexists 0, _. split; [done|]. apply wf_config; try done. by apply wf_dns.
  - destruct (set_dns_wf p servers n Hwf Hop) as (r & p' & E & Hw & _). by exists r, p'.
  - eexists 0, _. split; [done|]. apply wf_config; try done. by apply wf_dns.
  - eexists 0, _. split; [done|]. apply wf_config; try done. by apply wf_dns.
  - eexists 0, _. split; [done|]. pose proof (size_pos p Hwf) as Hpos. pose proof (wf_len p Hwf) as Hlen. destruct Hwf.
    constructor; try done; cbn; [|apply zeros_ok|lia|intros; lia]. unfold zeros. rewrite length_replicate. lia.
Qed.

(** Every operation of the pool, on any pool that satisfies the invariant and for any
    arguments the caller may pass, returns without leaving the bitmap or the tables, and
    leaves a pool that satisfies the invariant: the loops end, the bitmap keeps one bit per
    address, the hint stays inside the range and the tables keep their bounds. *)
Theorem pool_step_safe fuel p op : pool_wf p -> op_ok fuel p op -> exists r p', pool_step fuel p op = Ok (r, p') /\ pool_wf p'.
Proof. apply step_safe. Qed.

(** ** No address is handed out twice *)

(** The operations that start the pool afresh. *)
Definition keeps (op : pool_op) : bool := match op with SetRange _ _ _ | Reset => false | _ => true end.

(** The addresses that were handed out and not released. *)
Definition holds (held : gset Z) (op : pool_op) (r : Z) : gset Z :=
  match op with
  | Allocate _ | AllocateSpecific _ => if r =? 0 then held else {[r]} ∪ held
  | Release ip => held ∖ {[ip]}
  | _ => held
  end.

Inductive reach (p0 : dhcp_pool) : dhcp_pool -> gset Z -> Prop :=
| reach_init : reach p0 p0 ∅
| reach_step fuel p held op r p' :
    reach p0 p held -> op_ok fuel p op -> keeps op = true -> pool_step fuel p op = Ok (r, p') ->
    reach p0 p' (holds held op r).

(** The range stays and no used address becomes free. *)
Definition grows (p p' : dhcp_pool) : Prop :=
  range_start (config p') = range_start (config p) /\ range_end (config p') = range_end (config p) /\
  forall x, 0 <= x -> used (bitmap p) x = true -> used (bitmap p') x = true.

Lemma grows_bitmap p p' : config p' = config p -> bitmap p' = bitmap p -> grows p p'.
Proof. intros E1 E2. unfold grows. by rewrite E1, E2. Qed.

Lemma grows_adds p p' o : adds p p' o -> grows p p'.
Proof.
  intros (_ & (E & _) & Hu). unfold grows. rewrite E. split; [done|]. split; [done|]. intros x Hx Hux. rewrite Hu by done. by rewrite Hux, orb_true_r.
Qed.

Lemma pool_grows_refl p : grows p p.
Proof. by apply grows_bitmap. Qed.

(** The cases of an operation on one address: nothing changes, or its offset is used. *)
Lemma grows_if (c : bool) p p' o (A B C : Prop) : (if c then A /\ adds p p' o /\ B else C /\ p' = p) -> grows p p'.
Proof. destruct c; [intros (_ & H & _); by eapply grows_adds|intros [_ ->]; apply pool_grows_refl]. Qed.

Lemma step_grows fuel p op r p' : pool_wf p -> op_ok fuel p op -> keeps op = true -> (forall ip, op <> Release ip) ->
  pool_step fuel p op = Ok (r, p') -> grows p p'.
Proof.
  intros Hwf Hop Hk Hnr E. destruct op; cbn [pool_step op_ok keeps] in *; try discriminate Hk.
  - destruct (allocate_wf fuel p mac Hwf Hop) as (r1 & p1 & E1 & _ & (Ec & _) & Hu & _). same_result. unfold grows. by rewrite Ec.
  - destruct (allocate_specific_spec p Hwf ip) as (r1 & p1 & E1 & H). same_result. by eapply grows_if.
  - by destruct (Hnr ip).
  - destruct (mark_used_spec p Hwf ip) as (r1 & p1 & E1 & H). same_result. by eapply grows_if.
  - destruct (mark_declined_spec p Hwf ip) as (r1 & p1 & E1 & H). same_result. by eapply grows_if.
  - destruct (add_reservation_wf p ip mac hostname Hwf Hop) as (r1 & p1 & E1 & _ & Eb & Ec). same_result. by apply grows_bitmap.
  - destruct (remove_reservation_wf p (same_ip ip) Hwf) as (_ & Eb & Ec). injection E as E. unfold dhcp_pool_remove_reservation in E.
    rewrite E in Eb, Ec. by apply grows_bitmap.
  - destruct (remove_reservation_wf p (same_mac mac) Hwf) as (_ & Eb & Ec). injection E as E. unfold dhcp_pool_remove_reservation_by_mac in E.
    rewrite E in Eb, Ec. by apply grows_bitmap.
  - destruct (add_exclusion_spec fuel p start stop Hwf (proj1 Hop) (proj2 Hop)) as (r1 & p1 & E1 & _ & Ec & _ & _ & Hu). same_result. unfold grows. by rewrite Ec.
  - destruct (remove_exclusion_wf p start Hwf) as (_ & Eb & Ec). injection E as E. rewrite E in Eb, Ec. by apply grows_bitmap.
  - injection E as _ <-. by apply grows_bitmap.
  - injection E as _ <-. split; [done|]. split; [done|]. done.
  - injection E as _ <-. split; [done|]. split; [done|]. done.
  - destruct (set_dns_wf p servers n Hwf Hop) as (r1 & p1 & E1 & _ & Eb & Es & Ee). same_result. unfold grows. by rewrite Eb.
  - injection E as _ <-. split; [done|]. split; [done|]. done.
  - injection E as _ <-. split; [done|]. split; [done|]. done.
Qed.

(** Held addresses are 32-bit, and used where they belong to the range. *)
Definition held_ok (p : dhcp_pool) (held : gset Z) : Prop :=
  forall ip, ip ∈ held -> is_u32 ip /\ (dhcp_pool_contains p ip = true -> used (bitmap p) (ip_to_offset p ip) = true).

Lemma contains_range p p' ip : range_start (config p') = range_start (config p) -> range_end (config p') = range_end (config p) ->
  dhcp_pool_contains p' ip = dhcp_pool_contains p ip /\ ip_to_offset p' ip = ip_to_offset p ip.
Proof. intros E1 E2. unfold dhcp_pool_contains, ip_to_offset. by rewrite E1, E2. Qed.

Lemma held_grows p p' held : pool_wf p -> grows p p' -> held_ok p held -> held_ok p' held.
Proof.
  intros Hwf (E1 & E2 & Hu) Hh ip Hip. destruct (Hh ip Hip) as [H1 H2]. destruct (contains_range p p' ip E1 E2) as [-> ->].
  split; [done|]. intros Hc. destruct (contained_range p Hwf ip Hc) as [[Hr _] _]. apply Hu; [done|]. by apply H2.
Qed.

(** The address an allocation returns. *)
Lemma handed_out fuel p op r p' : pool_wf p -> op_ok fuel p op -> pool_step fuel p op = Ok (r, p') -> r <> 0 ->
  match op with
  | Allocate mac => is_u32 r /\ (dhcp_pool_contains p r = true -> used (bitmap p') (ip_to_offset p r) = true) /\
      (mac ≫= dhcp_pool_find_reservation p = None -> dhcp_pool_contains p r = true /\ used (bitmap p) (ip_to_offset p r) = false)
  | AllocateSpecific _ => is_u32 r /\ used (bitmap p') (ip_to_offset p r) = true /\ dhcp_pool_contains p r = true /\ used (bitmap p) (ip_to_offset p r) = false
  | _ => True
  end.
Proof.
  intros Hwf Hop E Hr. destruct op; cbn [pool_step op_ok] in *; try done.
  - destruct (allocate_wf fuel p mac Hwf Hop) as (r1 & p1 & E1 & _ & _ & _ & H). same_result.
    destruct (mac ≫= dhcp_pool_find_reservation p) as [res|] eqn:Ef.
    + destruct H as [-> H]. split; [|done]. destruct mac as [m|]; [|done]. cbn in Ef. unfold dhcp_pool_find_reservation in Ef.
      destruct (index_of _ _) as [i|]; [|done]. eapply (Forall_lookup_1 _ _ _ _ (wf_resip p Hwf) Ef).
    + destruct H as [|(o & Ho & -> & Hf & Hu)]; [done|]. split; [apply htonl_range|]. rewrite offset_roundtrip by done.
      split; [done|]. intros _. split; [by apply offset_to_ip_contained|done].
  - destruct (allocate_specific_spec p Hwf ip) as (r1 & p1 & E1 & H). same_result.
    destruct (dhcp_pool_contains p ip && negb (is_excluded p ip) && negb (used (bitmap p) (ip_to_offset p ip))) eqn:T; [|by destruct H].
    destruct H as (-> & (_ & _ & Hu) & _). rewrite !andb_true_iff, !negb_true_iff in T. destruct T as [[T1 T2] T3].
    destruct (contained_range p Hwf ip T1) as [[Hx _] _]. split; [done|]. rewrite Hu, Z.eqb_refl by done. done.
Qed.

Lemma held_release p ip r p' held : pool_wf p -> is_u32 ip -> dhcp_pool_release p ip = Ok (r, p') -> held_ok p held -> held_ok p' (held ∖ {[ip]}).
Proof.
  intros Hwf Hip E Hh ip' [Hi Hne]%elem_of_difference. rewrite elem_of_singleton in Hne. destruct (Hh ip' Hi) as [H1 H2]. split; [done|].
  destruct (release_spec p Hwf ip) as (r1 & p1 & E1 & _ & (Ec & _) & H). same_result.
  destruct (contains_range p p' ip') as [-> ->]; [by rewrite Ec..|]. intros Hc. specialize (H2 Hc).
  destruct (dhcp_pool_contains p ip) eqn:Eip; [|by destruct H as [_ ->]]. destruct H as (_ & Hu & _).
  destruct (contained_range p Hwf ip' Hc) as [[Hx _] E']. destruct (contained_range p Hwf ip Eip) as [_ Ei].
  rewrite Hu, H2, andb_true_r by done. destruct (Z.eqb_spec (ip_to_offset p ip') (ip_to_offset p ip)) as [Eo|]; [|done].
  destruct Hne. apply ntohl_inj; [done|done|]. by rewrite E', Ei, Eo.
Qed.

Lemma held_new p p' held r : pool_wf p -> grows p p' -> held_ok p held ->
  (r <> 0 -> is_u32 r /\ (dhcp_pool_contains p r = true -> used (bitmap p') (ip_to_offset p r) = true)) ->
  held_ok p' (if r =? 0 then held else {[r]} ∪ held).
Proof.
  intros Hwf G Hh Hr. pose proof (held_grows p p' held Hwf G Hh) as Hh'. pose proof G as (G1 & G2 & _).
  destruct (Z.eqb_spec r 0) as [|Hr0]; [done|]. destruct (Hr Hr0) as [H1 H2].
  intros ip [->%elem_of_singleton|Hi]%elem_of_union; [|by apply Hh']. destruct (contains_range p p' r G1 G2) as [-> ->]. done.
Qed.

Lemma reach_held p0 p held : pool_wf p0 -> reach p0 p held -> pool_wf p /\ held_ok p held.
Proof.
  intros H0 Hr. induction Hr as [|fuel p held op r p' Hr [Hwf Hh] Hop Hk E]; [split; [done|]; by intros ip Hip%not_elem_of_empty|].
  destruct (step_safe fuel p op Hwf Hop) as (r1 & p1 & E1 & Hwf'). same_result. split; [done|].
  pose proof (handed_out fuel p op r p' Hwf Hop E) as Hout. pose proof (step_grows fuel p op r p' Hwf Hop Hk) as Hg.
  destruct op; cbn [holds]; try (apply (held_grows p p'); [done|by apply Hg|done]).
  - apply (held_new p); [done|by apply Hg|done|]. intros Hr0. destruct (Hout Hr0) as (O1 & O2 & _). done.
  - apply (held_new p); [done|by apply Hg|done|]. intros Hr0. destruct (Hout Hr0) as (O1 & O2 & _). done.
  - exact (held_release p ip r p' held Hwf Hop E Hh).
Qed.

(** C29: No address is handed out twice to clients without a reservation. After any sequence
    of operations that does not start the pool afresh (dhcp_pool_set_range,
    dhcp_pool_reset), an address that dhcp_pool_allocate gives to a client without a
    reservation, or that dhcp_pool_allocate_specific grants, is not among those handed out
    before and not released since, to whomever. A client with a reservation gets its address
    in any case (see [reservation_handed_out_twice]). *)
Theorem pool_no_double p0 p held fuel op r p' :
  pool_wf p0 -> reach p0 p held -> op_ok fuel p op -> pool_step fuel p op = Ok (r, p') -> r <> 0 ->
  match op with
  | Allocate mac => mac ≫= dhcp_pool_find_reservation p = None -> r ∉ held
  | AllocateSpecific _ => r ∉ held
  | _ => True
  end.
Proof.
  intros H0 Hr Hop E Hr0. destruct (reach_held p0 p held H0 Hr) as [Hwf Hh]. pose proof (handed_out fuel p op r p' Hwf Hop E Hr0) as Hout.
  destruct op; try done.
  - intros Hn Hin. destruct Hout as (_ & _ & Hfree). destruct (Hfree Hn) as [Hc Hu]. destruct (Hh r Hin) as [_ Hx]. rewrite Hx in Hu by done. done.
  - intros Hin. destruct Hout as (_ & _ & Hc & Hu). destruct (Hh r Hin) as [_ Hx]. rewrite Hx in Hu by done. done.
Qed.
