(* ===== verification/DhcpPoolFacts.v ===== *)
(** * The address pool: creation, statistics, the next available address, and pitfalls *)

From S2P Require Import Prelude Common Bytes DhcpPool DhcpPoolBits DhcpPoolSpec DhcpPoolRun.

(** ** A created pool *)

Lemma pool_create_wf c p : length (dns_servers c) = 4%nat -> ntohl (range_end c) - ntohl (range_start c) + 1 < u32_mod ->
  dhcp_pool_create true true c = Some p -> pool_wf p /\ forall x, 0 <= x -> used (bitmap p) x = false.
Proof.
  intros Hd Hlt. unfold dhcp_pool_create. cbn [negb]. destruct (Z.ltb_spec (ntohl (range_end c)) (ntohl (range_start c))); [done|].
  pose proof (ntohl_range (range_start c)). pose proof (ntohl_range (range_end c)). rewrite u32_small by (unfold is_u32 in *; lia).
  intros <-%(inj Some). split.
  - constructor; unfold first_host, last_host; cbn [config pool_size bitmap_size bitmap next_free_hint reservations num_reservations exclusions num_exclusions];
      try done; try lia.
    + unfold zeros. rewrite length_replicate. pose proof (words_for_nonneg (ntohl (range_end c) - ntohl (range_start c) + 1) ltac:(lia)). lia.
    + apply zeros_ok.
    + apply Forall_replicate. done.
  - intros x Hx. unfold used. cbn [bitmap]. unfold zeros. destruct (replicate _ _ !! _) as [w|] eqn:E; cbn; [|apply Z.bits_0].
    apply lookup_replicate in E as [-> _]. apply Z.bits_0.
Qed.

(** ** Statistics *)

Definition used_offsets (p : dhcp_pool) : list Z := filter (fun o => used (bitmap p) o = true) (seqZ 0 (pool_size p)).
Definition count_used (p : dhcp_pool) : Z := Z.of_nat (length (used_offsets p)).

Lemma filter_same (f g : Z -> bool) (m : list Z) : (forall x, x ∈ m -> g x = f x) ->
  filter (fun x => g x = true) m = filter (fun x => f x = true) m.
Proof.
  induction m as [|x m IH]; intros Hm; [done|]. rewrite !filter_cons, (Hm x) by left.
  rewrite IH; [done|]. intros y Hy. apply Hm. by right.
Qed.

(** One more element passes the test. *)
Lemma count_set (f g : Z -> bool) o l : NoDup l -> o ∈ l -> f o = false -> (forall x, x ∈ l -> g x = (x =? o) || f x) ->
  length (filter (fun x => g x = true) l) = S (length (filter (fun x => f x = true) l)).
Proof.
  intros Hnd. induction Hnd as [|y l Hy Hnd IH]; [by intros ?%not_elem_of_nil|]. intros Ho Hf Hg.
  rewrite !filter_cons, (Hg y) by left. apply elem_of_cons in Ho as [->|Ho].
  - rewrite Z.eqb_refl, Hf. cbn [orb]. rewrite decide_True, decide_False by done. cbn [length]. do 2 f_equal. apply filter_same.
    intros x Hx. rewrite Hg by (by right). by destruct (Z.eqb_spec x y) as [->|].
  - destruct (Z.eqb_spec y o) as [->|_]; [done|]. cbn [orb].
    destruct (decide (f y = true)); cbn [length]; rewrite IH; try done; intros x Hx; apply Hg; by right.
Qed.

Section counting.
Context (p p' : dhcp_pool) (o : Z) (Ho : in_range p o) (Hs : pool_size p' = pool_size p).

Lemma range_elem x : x ∈ seqZ 0 (pool_size p) <-> in_range p x.
Proof. rewrite elem_of_seqZ. unfold in_range. lia. Qed.

Lemma count_used_set : used (bitmap p) o = false -> (forall x, 0 <= x -> used (bitmap p') x = (x =? o) || used (bitmap p) x) ->
  count_used p' = count_used p + 1.
Proof.
  intros Hf Hu. unfold count_used, used_offsets. rewrite Hs, (count_set (used (bitmap p)) (used (bitmap p')) o); [lia|apply NoDup_seqZ|by apply range_elem|done|].
  intros x [Hx _]%range_elem. by apply Hu.
Qed.

Lemma count_used_clear : used (bitmap p) o = true -> (forall x, 0 <= x -> used (bitmap p') x = negb (x =? o) && used (bitmap p) x) ->
  count_used p' = count_used p - 1.
Proof.
  intros Hf Hu. unfold in_range in Ho. unfold count_used, used_offsets. rewrite Hs, (count_set (used (bitmap p')) (used (bitmap p)) o _ (NoDup_seqZ _ _)); [lia|by apply range_elem| |].
  - rewrite Hu, Z.eqb_refl by lia. done.
  - intros x [Hx _]%range_elem. rewrite Hu by done. by destruct (Z.eqb_spec x o) as [->|].
Qed.

Lemma count_used_same : (forall x, 0 <= x -> used (bitmap p') x = used (bitmap p) x) -> count_used p' = count_used p.
Proof.
  intros Hu. unfold count_used, used_offsets. rewrite Hs. do 2 f_equal. apply filter_same. intros x [Hx _]%range_elem. by apply Hu.
Qed.
End counting.

Lemma count_used_bound p : 0 <= pool_size p -> 0 <= count_used p <= pool_size p.
Proof.
  intros Hp. unfold count_used, used_offsets. pose proof (length_filter (fun o => used (bitmap p) o = true) (seqZ 0 (pool_size p))) as H.
  rewrite length_seqZ in H. lia.
Qed.

(** The counter says how many addresses of the range are used. *)
Definition counted (p : dhcp_pool) : Prop := allocated_count p = count_used p.

(** The operations that give and take addresses. *)
Definition counting (op : pool_op) : bool :=
  match op with Allocate _ | AllocateSpecific _ | Release _ | MarkUsed _ => true | _ => false end.

Lemma counted_adds p p' o : pool_wf p -> counted p -> in_range p o -> adds p p' o ->
  allocated_count p' = (if used (bitmap p) o then allocated_count p else u32 (allocated_count p + 1)) -> counted p'.
Proof.
  intros Hwf Hc Ho (_ & (_ & _ & Hs & _) & Hu) Ha. unfold counted. rewrite Ha, Hc. destruct (used (bitmap p) o) eqn:Eu.
  - symmetry. apply count_used_same; [done|]. intros x Hx. rewrite Hu by done. by destruct (Z.eqb_spec x o) as [->|].
  - pose proof (size_pos p Hwf). pose proof (wf_small p Hwf). pose proof (count_used_set p p' o Ho Hs Eu Hu) as E.
    pose proof (count_used_bound p' ltac:(lia)). rewrite u32_small by (unfold is_u32; lia). lia.
Qed.

(** Without exclusions an allocation touches no other bit. *)
Lemma no_exclusion p x : num_exclusions p = 0 -> excluded p x = false.
Proof. intros E. unfold excluded, is_excluded, exclusion_list. by rewrite E. Qed.

Lemma counted_free fuel p ip p' : pool_wf p -> counted p -> num_exclusions p = 0 -> pool_size p <= Z.of_nat fuel ->
  allocate_free fuel p = Ok (ip, p') -> counted p'.
Proof.
  intros Hwf Hc Hx Hf E. destruct (allocate_free_spec fuel p Hwf Hf) as (ip1 & p1 & E1 & Hwf' & Hs & _ & Ha). same_result.
  destruct Ha as [(o & O1 & _ & O4 & _ & _ & O7 & O9 & O10)|(_ & Hm & Ea & _)].
  - apply (counted_adds p p' o); try done; [|by rewrite O4]. split; [done|]. split; [done|]. intros x H0.
    destruct (Z.eqb_spec x o) as [->|Hne]; [done|]. cbn [orb]. destruct (O10 x H0 Hne) as [A B].
    rewrite no_exclusion in B by done. destruct (used (bitmap p) x), (used (bitmap p') x); intuition congruence.
  - unfold counted. rewrite Ea, Hc. symmetry. apply count_used_same; [apply Hs|]. intros x H0. destruct (Hm x H0) as [A B].
    rewrite no_exclusion in B by done. destruct (used (bitmap p) x), (used (bitmap p') x); intuition congruence.
Qed.

Lemma counted_release p ip r p' : pool_wf p -> counted p -> dhcp_pool_release p ip = Ok (r, p') -> counted p'.
Proof.
  intros Hwf Hc E. destruct (release_spec p Hwf ip) as (r1 & p1 & E1 & _ & (_ & _ & Es & _) & H). same_result.
  destruct (dhcp_pool_contains p ip) eqn:Ec; [|by destruct H as [_ ->]]. destruct (contained_range p Hwf ip Ec) as [Hr _].
  destruct H as (_ & Hu & Ea). unfold counted. rewrite Ea, Hc. destruct (used (bitmap p) (ip_to_offset p ip)) eqn:Eu.
  - pose proof (count_used_clear p p' _ Hr Es Eu Hu) as Ecl. pose proof (size_pos p Hwf). pose proof (wf_small p Hwf).
    pose proof (count_used_bound p ltac:(lia)). pose proof (count_used_bound p' ltac:(lia)). rewrite u32_small by (unfold is_u32; lia). lia.
  - symmetry. apply count_used_same; [done|]. intros x H0. rewrite Hu by done. destruct (Z.eqb_spec x (ip_to_offset p ip)) as [->|]; [by rewrite Eu|done].
Qed.

Lemma counted_step fuel p op r p' : pool_wf p -> counted p -> num_exclusions p = 0 -> op_ok fuel p op -> counting op = true ->
  pool_step fuel p op = Ok (r, p') -> counted p'.
Proof.
  intros Hwf Hc Hx Hop Hk E. destruct op; cbn [pool_step op_ok counting] in *; try discriminate Hk.
  - unfold dhcp_pool_allocate in E. destruct (mac ≫= dhcp_pool_find_reservation p) as [res|]; [|by apply (counted_free fuel p r)].
    destruct (dhcp_pool_contains p (res_ip res)) eqn:Ec; [|cbn in E; by injection E as _ <-].
    destruct (contained_range p Hwf _ Ec) as [Hr _]. destruct (take_offset_spec p Hwf _ Hr) as (p1 & E1 & Ha & Ea).
    rewrite E1 in E. cbn in E. injection E as _ <-. by apply (counted_adds p p1 _ Hwf Hc Hr Ha).
  - destruct (allocate_specific_spec p Hwf ip) as (r1 & p1 & E1 & H). same_result. destruct (dhcp_pool_contains p ip) eqn:Ec; cbn [andb] in H; [|by destruct H as [_ ->]].
    destruct (contained_range p Hwf ip Ec) as [Hr _]. destruct (is_excluded p ip); cbn [negb andb] in H; [by destruct H as [_ ->]|].
    destruct (used (bitmap p) (ip_to_offset p ip)) eqn:Eu; cbn [negb] in H; [by destruct H as [_ ->]|].
    destruct H as (_ & Ha & Ea). apply (counted_adds p p' _ Hwf Hc Hr Ha). by rewrite Eu.
  - by apply (counted_release p ip r).
  - destruct (mark_used_spec p Hwf ip) as (r1 & p1 & E1 & H). same_result. destruct (dhcp_pool_contains p ip) eqn:Ec; [|by destruct H as [_ ->]].
    destruct (contained_range p Hwf ip Ec) as [Hr _]. destruct H as (_ & Ha & Ea). by apply (counted_adds p p' _ Hwf Hc Hr Ha).
Qed.

(** The statistics are exact.  In a pool without exclusions whose counter agrees with the
    bitmap (a new pool, for one), allocating, granting, releasing and marking addresses keep
    the agreement: after every such operation dhcp_pool_get_stats reports as allocated the
    number of used addresses and as available the number of free ones. *)
Theorem pool_stats_exact fuel p op r p' : pool_wf p -> counted p -> num_exclusions p = 0 -> op_ok fuel p op -> counting op = true ->
  pool_step fuel p op = Ok (r, p') ->
  counted p' /\ allocated_ips (dhcp_pool_get_stats p') = count_used p' /\ available_ips (dhcp_pool_get_stats p') = pool_size p' - count_used p'.
Proof.
  intros Hwf Hc Hx Hop Hk E. destruct (step_safe fuel p op Hwf Hop) as (r1 & p1 & E1 & Hwf'). same_result.
  assert (counted p') as Hc' by (by apply (counted_step fuel p op r)).
  split; [done|]. unfold dhcp_pool_get_stats. cbn [allocated_ips available_ips]. rewrite Hc'. split; [done|].
  pose proof (size_pos p' Hwf'). pose proof (wf_small p' Hwf'). pose proof (count_used_bound p' ltac:(lia)). apply u32_small. unfold is_u32. lia.
Qed.

(** ** The next available address *)

(** While the excluded addresses are marked, dhcp_pool_get_next_available returns at once with
    the lowest free address of the range, or 0 when every address is used. *)
Theorem next_available depth fuel p : pool_wf p -> exclusions_marked p ->
  (exists r, in_range p r /\ used (bitmap p) r = false /\ (forall x, 0 <= x < r -> used (bitmap p) x = true) /\
     dhcp_pool_get_next_available (S depth) fuel p = Ok (offset_to_ip p r)) \/
  ((forall x, in_range p x -> used (bitmap p) x = true) /\ dhcp_pool_get_next_available (S depth) fuel p = Ok 0).
Proof.
  intros Hwf Hm. cbn [dhcp_pool_get_next_available]. destruct (pool_search p Hwf 0 ltac:(lia)) as (r & -> & Hr). cbn [obind].
  destruct Hr as [(R1 & R2 & R3 & R4)|[R1 R2]].
  - left. exists r. split; [split; lia|]. split; [done|]. split; [done|]. destruct (Z.leb_spec (pool_size p) r); [lia|].
    assert (excluded p r = false) as Ee.
    { destruct (excluded p r) eqn:Ee; [|done]. rewrite Hm in R3; [done|split; lia|done]. }
    destruct fuel; cbn [next_loop]; unfold excluded in Ee; by rewrite Ee.
  - right. split; [exact R2|]. destruct (Z.leb_spec (pool_size p) r); [done|lia].
Qed.

(** ** Pitfalls *)

(** Addresses 10.0.0.[n], in network order. *)
Definition ip10 (n : Z) : Z := htonl (0x0A000000 + n).

Definition demo_config (a b : Z) : dhcp_pool_config :=
  mkPoolConfig (zeros 32) 0 0 (ip10 a) (ip10 b) 0 (zeros 4) 0 (zeros 4) 0 (zeros 64) 3600 86400 300.

Definition demo_pool (n : Z) : dhcp_pool := default (mkPool (demo_config 0 0) [] 0 0 0 [] 0 [] 0 0 0) (dhcp_pool_create true true (demo_config 1 n)).

(** A list of operations, with the results of the calls. *)
Fixpoint run_ops (fuel : nat) (p : dhcp_pool) (ops : list pool_op) : outcome (list Z * dhcp_pool) :=
  match ops with
  | [] => Ok ([], p)
  | op :: ops =>
    let! (r, p) := pool_step fuel p op in
    let! (rs, p) := run_ops fuel p ops in
    Ok (r :: rs, p)
  end.

Definition run_results (fuel : nat) (p : dhcp_pool) (ops : list pool_op) : outcome (list Z) :=
  let! (rs, _) := run_ops fuel p ops in Ok rs.

(** An address that was declined without being allocated, and is released later, is counted
    as released: the counter wraps below zero and more addresses are available than exist. *)
Theorem declined_release_underflow :
  match run_ops 8 (demo_pool 3) [MarkDeclined (ip10 1); Release (ip10 1)] with
  | Ok (rs, p) => rs = [0; 0] /\ allocated_count p = u32_mod - 1 /\ available_ips (dhcp_pool_get_stats p) = 4
  | _ => False
  end.
Proof. vm_compute. done. Qed.

(** Releasing an excluded address frees its bit: dhcp_pool_get_next_available, which then
    finds it and steps over it to a used address, calls itself with nothing changed, for ever. *)
Definition stuck_ops : list pool_op := [AddExclusion (ip10 1) (ip10 1); MarkUsed (ip10 2); Release (ip10 1)].
Definition stuck_pool : dhcp_pool := match run_ops 8 (demo_pool 3) stuck_ops with Ok (_, p) => p | _ => demo_pool 3 end.

Theorem next_available_diverges depth fuel : dhcp_pool_get_next_available depth fuel stuck_pool = Fuel.
Proof.
  assert (is_excluded stuck_pool (offset_to_ip stuck_pool 0) = true) as E1 by (vm_compute; reflexivity).
  assert ((pool_size stuck_pool <=? u32 (0 + 1)) = false) as E2 by (vm_compute; reflexivity).
  assert (bitmap_test (bitmap stuck_pool) (u32 (0 + 1)) = Ok true) as E3 by (vm_compute; reflexivity).
  assert (bitmap_find_first_zero (bitmap stuck_pool) (bitmap_size stuck_pool) 0 = Ok 0) as E4 by (vm_compute; reflexivity).
  assert ((pool_size stuck_pool <=? 0) = false) as E5 by (vm_compute; reflexivity).
  induction depth as [|depth IH]; [done|]. cbn [dhcp_pool_get_next_available]. rewrite E4. cbn [obind]. rewrite E5.
  destruct fuel as [|fuel]; cbn [next_loop]; rewrite E1; cbn [negb]; [done|]. rewrite E2, E3. cbn [obind]. apply IH.
Qed.

(** An excluded range that ends with 255.255.255.255: the 32-bit loop counter never passes
    the end, and the marking loop does not return. *)
Theorem exclusion_to_top_diverges fuel first last ip_h bm : is_u32 ip_h ->
  forall bm', mark_loop fuel first last (u32_mod - 1) ip_h bm <> Ok bm'.
Proof.
  revert ip_h bm. induction fuel as [|fuel IH]; intros ip_h bm Hip bm'; cbn [mark_loop]; unfold is_u32 in Hip;
    (destruct (Z.ltb_spec (u32_mod - 1) ip_h); [lia|]); [done|].
  destruct ((first <=? ip_h) && (ip_h <=? last)); cbn [obind].
  - destruct (bitmap_test bm (u32 (ip_h - first))) as [t| |]; cbn [obind]; [|done|done].
    destruct (negb t); [destruct (bitmap_set bm (u32 (ip_h - first))) as [b| |]|]; cbn [obind]; try done; apply IH, u32_range.
  - apply IH, u32_range.
Qed.

(** The whole address space: the size wraps to 0, no bitmap is allocated, and granting any
    address reads outside it. *)
Theorem full_range_unusable :
  exists p, dhcp_pool_create true true (mkPoolConfig (zeros 32) 0 0 0 (u32_mod - 1) 0 (zeros 4) 0 (zeros 4) 0 (zeros 64) 0 0 0) = Some p /\
    pool_size p = 0 /\ dhcp_pool_allocate_specific p (ip10 1) = Undef.
Proof. eexists. split; [vm_compute; reflexivity|]. vm_compute. done. Qed.

(** A reservation is handed out even while another client holds its address. *)
Theorem reservation_handed_out_twice :
  let mac := [2; 0; 0; 0; 0; 1] in
  run_results 8 (demo_pool 3) [Allocate None; AddReservation (ip10 1) (Some mac) None; Allocate (Some mac)] = Ok [ip10 1; 0; ip10 1].
Proof. vm_compute. reflexivity. Qed.

(** ** Examples of use *)

Lemma demo_pool_wf n : 1 <= n < 256 -> pool_wf (demo_pool n) /\ (forall x, 0 <= x -> used (bitmap (demo_pool n)) x = false).
Proof.
  intros Hn. unfold demo_pool. destruct (dhcp_pool_create true true (demo_config 1 n)) as [p|] eqn:E.
  - cbn [default]. apply (pool_create_wf (demo_config 1 n) p); [done| |done]. cbn [range_start range_end demo_config]. unfold ip10.
    rewrite !ntohl_htonl by (unfold is_u32, u32_mod; lia). unfold u32_mod. lia.
  - unfold dhcp_pool_create in E. cbn [negb range_start range_end demo_config] in E. unfold ip10 in E.
    rewrite !ntohl_htonl in E by (unfold is_u32, u32_mod; lia). destruct (Z.ltb_spec (167772160 + n) (167772160 + 1)); [lia|]. discriminate E.
Qed.

Lemma pool_allocate_exact_witness : exists ip p', dhcp_pool_allocate 3 (demo_pool 3) None = Ok (ip, p') /\ allocated (demo_pool 3) ip p'.
Proof. apply pool_allocate_exact; [apply demo_pool_wf; lia|vm_compute; discriminate|reflexivity]. Defined.

Lemma pool_step_safe_witness : exists r p', pool_step 8 (demo_pool 3) (AddExclusion (ip10 2) (ip10 3)) = Ok (r, p') /\ pool_wf p'.
Proof.
  apply pool_step_safe; [apply demo_pool_wf; lia|]. cbn [op_ok]. unfold ip10. rewrite !ntohl_htonl by (unfold is_u32, u32_mod; lia).
  unfold u32_mod. lia.
Defined.

(** The first address is taken; the second allocation cannot return it. *)
Lemma pool_no_double_witness :
  exists r p, pool_step 3 (demo_pool 3) (Allocate None) = Ok (r, p) /\ r = ip10 1 /\
    forall r' p', pool_step 3 p (Allocate None) = Ok (r', p') -> r' <> 0 -> r' ∉ ({[r]} : gset Z).
Proof.
  destruct (pool_step 3 (demo_pool 3) (Allocate None)) as [[r p]| |] eqn:E; [|vm_compute in E; discriminate E..].
  assert (r = ip10 1) as Er by (vm_compute in E; injection E as <- _; reflexivity).
  assert (pool_size p = 3) as Es by (vm_compute in E; injection E as _ <-; reflexivity).
  exists r, p. split; [reflexivity|]. split; [exact Er|]. intros r' p' E' Hr'.
  refine (pool_no_double (demo_pool 3) p {[r]} 3 (Allocate None) r' p' _ _ _ E' Hr' eq_refl).
  - apply demo_pool_wf. lia.
  - assert (Hh : holds ∅ (Allocate None) r = {[r]}).
    { cbn [holds]. rewrite Er. replace (ip10 1 =? 0) with false by (vm_compute; reflexivity). apply (right_id_L ∅ (∪)). }
    rewrite <- Hh. eapply reach_step; [apply reach_init| |reflexivity|exact E]. vm_compute. discriminate.
  - cbn [op_ok]. rewrite Es. lia.
Defined.

Lemma pool_stats_exact_witness :
  exists r p', pool_step 3 (demo_pool 3) (MarkUsed (ip10 2)) = Ok (r, p') /\ available_ips (dhcp_pool_get_stats p') = pool_size p' - count_used p'.
Proof.
  destruct (pool_step 3 (demo_pool 3) (MarkUsed (ip10 2))) as [[r p]| |] eqn:E; [|vm_compute in E; discriminate E..].
  exists r, p. split; [reflexivity|].
  apply (pool_stats_exact 3 (demo_pool 3) (MarkUsed (ip10 2)) r p); [apply demo_pool_wf; lia|vm_compute; reflexivity|reflexivity|apply htonl_range|reflexivity|exact E].
Defined.

Lemma next_available_witness : dhcp_pool_get_next_available 1 0 (demo_pool 3) = Ok (ip10 1).
Proof.
  destruct (next_available 0 0 (demo_pool 3)) as [(r & Hr & Hu & Hl & ->)|[Hall _]].
  - apply demo_pool_wf. lia.
  - intros x Hx. unfold excluded, is_excluded. discriminate.
  - destruct (Z.eq_dec r 0) as [->|Hne]; [vm_compute; reflexivity|]. unfold in_range in Hr. specialize (Hl 0 ltac:(lia)). vm_compute in Hl. discriminate Hl.
  - specialize (Hall 0). vm_compute in Hall. discriminate Hall; split; [discriminate|reflexivity].
Defined.

Lemma exclusion_to_top_diverges_witness : forall bm', mark_loop 5 0 9 (u32_mod - 1) 3 [0] <> Ok bm'.
Proof. apply (exclusion_to_top_diverges 5 0 9 3 [0]). vm_compute. split; [discriminate|reflexivity]. Defined.
