(* ===== verification/DhcpLease.v ===== *)
(** * examples/dhcp/src/dhcp_lease.c: the lease database

    Leases are heap records linked in two lists: all leases, and one chain per hash of the MAC
    address.  A lease carries the state of its client's address; a table gives the transition
    for each state and event.  Address 0 is NULL; an access to a record that is not in the
    heap is [Undef].  [now] is the reading of the monotonic clock in milliseconds during a
    call, [alloc] what calloc returns.  Calls of the expiration callback are recorded in
    [expire_log]; the callback is taken not to change the database. *)

From S2P Require Import Prelude Common Bytes Links Chains.

Definition DHCP_LEASE_HASH_SIZE : Z := 256.
Definition DHCP_LEASE_MAX : Z := 4096.

(** The states and events are C enums; a state read from a file may be any number. *)
Definition DHCP_LEASE_FREE : Z := 0.
Definition DHCP_LEASE_OFFERED : Z := 1.
Definition DHCP_LEASE_BOUND : Z := 2.
Definition DHCP_LEASE_EXPIRED : Z := 3.
Definition DHCP_LEASE_DECLINED : Z := 4.
Definition DHCP_LEASE_RESERVED : Z := 5.
Definition DHCP_LEASE_NUM_STATES : Z := 6.
Definition DHCP_LEASE_INVALID : Z := u32 (-1).

Inductive dhcp_event :=
| DHCP_EVT_DISCOVER | DHCP_EVT_OFFER | DHCP_EVT_REQUEST | DHCP_EVT_ACK | DHCP_EVT_NAK | DHCP_EVT_RELEASE
| DHCP_EVT_DECLINE | DHCP_EVT_EXPIRE | DHCP_EVT_TIMEOUT | DHCP_EVT_RENEW | DHCP_EVT_REBIND.

Record dhcp_lease := mkLease {
  l_ip : Z; l_mac : list Z;
  client_id : list Z; client_id_len : Z;
  lease_time : Z; start_time : Z; expire_time : Z; offer_time : Z;
  l_hostname : list Z; state : Z; l_xid : Z;
  next : Z; hash_next : Z
}.

Record dhcp_lease_db := mkDb {
  offer_timeout : Z;
  heap : gmap Z dhcp_lease;
  mac_hash : list Z;
  all_leases : Z;
  lease_count : Z;
  expire_cb : bool;
  expire_log : list Z;
  lookups : Z; hits : Z; misses : Z
}.

(** ** Field updates *)

Definition with_next (n : Z) (l : dhcp_lease) : dhcp_lease :=
  mkLease (l_ip l) (l_mac l) (client_id l) (client_id_len l) (lease_time l) (start_time l) (expire_time l) (offer_time l)
    (l_hostname l) (state l) (l_xid l) n (hash_next l).
Definition with_hash_next (n : Z) (l : dhcp_lease) : dhcp_lease :=
  mkLease (l_ip l) (l_mac l) (client_id l) (client_id_len l) (lease_time l) (start_time l) (expire_time l) (offer_time l)
    (l_hostname l) (state l) (l_xid l) (next l) n.
Definition with_state (s : Z) (l : dhcp_lease) : dhcp_lease :=
  mkLease (l_ip l) (l_mac l) (client_id l) (client_id_len l) (lease_time l) (start_time l) (expire_time l) (offer_time l)
    (l_hostname l) s (l_xid l) (next l) (hash_next l).
Definition with_ip (a : Z) (l : dhcp_lease) : dhcp_lease :=
  mkLease a (l_mac l) (client_id l) (client_id_len l) (lease_time l) (start_time l) (expire_time l) (offer_time l)
    (l_hostname l) (state l) (l_xid l) (next l) (hash_next l).
(** lease_time, start_time and expire_time. *)
Definition with_times (t s e : Z) (l : dhcp_lease) : dhcp_lease :=
  mkLease (l_ip l) (l_mac l) (client_id l) (client_id_len l) t s e (offer_time l)
    (l_hostname l) (state l) (l_xid l) (next l) (hash_next l).
Definition with_offer (o x : Z) (l : dhcp_lease) : dhcp_lease :=
  mkLease (l_ip l) (l_mac l) (client_id l) (client_id_len l) (lease_time l) (start_time l) (expire_time l) o
    (l_hostname l) (state l) x (next l) (hash_next l).
Definition with_expire (e : Z) (l : dhcp_lease) : dhcp_lease := with_times (lease_time l) (start_time l) e l.
Definition with_ident (m c : list Z) (n : Z) (h : list Z) (l : dhcp_lease) : dhcp_lease :=
  mkLease (l_ip l) m c n (lease_time l) (start_time l) (expire_time l) (offer_time l)
    h (state l) (l_xid l) (next l) (hash_next l).

Definition with_heap (h : gmap Z dhcp_lease) (db : dhcp_lease_db) : dhcp_lease_db :=
  mkDb (offer_timeout db) h (mac_hash db) (all_leases db) (lease_count db) (expire_cb db) (expire_log db)
    (lookups db) (hits db) (misses db).
Definition with_lists (h : gmap Z dhcp_lease) (m : list Z) (a n : Z) (db : dhcp_lease_db) : dhcp_lease_db :=
  mkDb (offer_timeout db) h m a n (expire_cb db) (expire_log db) (lookups db) (hits db) (misses db).
Definition with_log (log : list Z) (db : dhcp_lease_db) : dhcp_lease_db :=
  mkDb (offer_timeout db) (heap db) (mac_hash db) (all_leases db) (lease_count db) (expire_cb db) log
    (lookups db) (hits db) (misses db).
(** A lookup is counted, as a hit or a miss. *)
Definition count_lookup (found : bool) (db : dhcp_lease_db) : dhcp_lease_db :=
  mkDb (offer_timeout db) (heap db) (mac_hash db) (all_leases db) (lease_count db) (expire_cb db) (expire_log db)
    (u64 (lookups db + 1)) (if found then u64 (hits db + 1) else hits db) (if found then misses db else u64 (misses db + 1)).

(** Change the record at [a] through its pointer. *)
Definition modify (a : Z) (f : dhcp_lease -> dhcp_lease) (db : dhcp_lease_db) : outcome dhcp_lease_db :=
  let! l := of_option (heap db !! a) in Ok (with_heap (<[a := f l]> (heap db)) db).

(** ** Life cycle *)

Definition hash_mac (mac : list Z) : Z :=
  Z.land (fold_left (fun h b => u32 (u32 (u32 (Z.shiftl h 5) + h) + b)) mac 5381) (DHCP_LEASE_HASH_SIZE - 1).

(** Unused in the source. *)
Definition hash_ip (ip : Z) : Z :=
  let ip := Z.lxor ip (Z.shiftr ip 16) in
  let ip := u32 (ip * 0x85ebca6b) in
  let ip := Z.lxor ip (Z.shiftr ip 13) in
  let ip := u32 (ip * 0xc2b2ae35) in
  let ip := Z.lxor ip (Z.shiftr ip 16) in
  Z.land ip (DHCP_LEASE_HASH_SIZE - 1).

Definition dhcp_lease_db_create (calloc_ok : bool) (timeout : option Z) : option dhcp_lease_db :=
  if calloc_ok then Some (mkDb (default 60 timeout) ∅ (zeros DHCP_LEASE_HASH_SIZE) 0 0 false [] 0 0 0) else None.

(** The free loop of destroy and clear: walks [next] and frees. *)
Fixpoint free_loop (fuel : nat) (h : gmap Z dhcp_lease) (a : Z) : outcome (gmap Z dhcp_lease) :=
  if a =? 0 then Ok h else
  match fuel with
  | O => Fuel
  | S fuel => let! l := of_option (h !! a) in free_loop fuel (delete a h) (next l)
  end.

Definition walk_fuel (db : dhcp_lease_db) : nat := S (size (heap db)).

(** The leases that are still allocated after the database is destroyed. *)
Definition dhcp_lease_db_destroy (db : dhcp_lease_db) : outcome (gmap Z dhcp_lease) :=
  free_loop (walk_fuel db) (heap db) (all_leases db).

Definition dhcp_lease_db_clear (db : dhcp_lease_db) : outcome dhcp_lease_db :=
  let! h := free_loop (walk_fuel db) (heap db) (all_leases db) in
  Ok (with_lists h (zeros DHCP_LEASE_HASH_SIZE) 0 0 db).

(** ** The two lists *)

Definition slot (mac : list Z) : nat := Z.to_nat (hash_mac mac).

Definition lease_add_to_hashes (db : dhcp_lease_db) (a : Z) : outcome dhcp_lease_db :=
  let! l := of_option (heap db !! a) in
  let! head := of_option (mac_hash db !! slot (l_mac l)) in
  let l := with_next (all_leases db) (with_hash_next head l) in
  Ok (with_lists (<[a := l]> (heap db)) (<[slot (l_mac l) := a]> (mac_hash db)) a (lease_count db) db).

Definition lease_remove_from_hashes (db : dhcp_lease_db) (a : Z) : outcome dhcp_lease_db :=
  let! l := of_option (heap db !! a) in
  let idx := slot (l_mac l) in
  let! head := of_option (mac_hash db !! idx) in
  let! (h, head, _) := unlink hash_next with_hash_next (fun p _ => p =? a) (walk_fuel db) (heap db) head None head in
  let! (h, all, _) := unlink next with_next (fun p _ => p =? a) (walk_fuel db) h (all_leases db) None (all_leases db) in
  Ok (with_lists h (<[idx := head]> (mac_hash db)) all (lease_count db) db).

(** ** Lookup *)

Definition found {A} (o : option A) : bool := bool_decide (is_Some o).

Definition dhcp_lease_find_by_mac (db : dhcp_lease_db) (mac : list Z) : outcome (option Z * dhcp_lease_db) :=
  let! head := of_option (mac_hash db !! slot mac) in
  let! r := walk hash_next (fun l => bool_decide (l_mac l = mac)) (walk_fuel db) (heap db) head in
  Ok (r, count_lookup (found r) db).

Definition dhcp_lease_find_by_ip (db : dhcp_lease_db) (ip : Z) : outcome (option Z * dhcp_lease_db) :=
  let! r := walk next (fun l => l_ip l =? ip) (walk_fuel db) (heap db) (all_leases db) in
  Ok (r, count_lookup (found r) db).

(** [id]: the caller's block, of which [len] bytes are compared. *)
Definition dhcp_lease_find_by_client_id (db : dhcp_lease_db) (id : option (list Z)) (len : Z) : outcome (option Z * dhcp_lease_db) :=
  match id with
  | None => Ok (None, db)
  | Some d =>
    if len =? 0 then Ok (None, db) else
    let! r := walk next (fun l => (client_id_len l =? len) && bool_decide (take (Z.to_nat len) (client_id l) = take (Z.to_nat len) d))
                (walk_fuel db) (heap db) (all_leases db) in
    Ok (r, count_lookup (found r) db)
  end.

Definition dhcp_lease_find_by_xid (db : dhcp_lease_db) (x : Z) : outcome (option Z) :=
  walk next (fun l => (l_xid l =? x) && (state l =? DHCP_LEASE_OFFERED)) (walk_fuel db) (heap db) (all_leases db).

(** ** Creation and deletion *)

Definition blank_lease : dhcp_lease := mkLease 0 (zeros 6) (zeros 64) 0 0 0 0 0 (zeros 64) 0 0 0 0.

(** start_time = now, and expire_time [secs] seconds later. *)
Definition timed (now secs : Z) (l : dhcp_lease) : dhcp_lease := with_times secs now (now +64 (secs *64 1000)) l.

Definition new_lease (ip : Z) (mac : list Z) : dhcp_lease := with_ip ip (with_ident mac (zeros 64) 0 (zeros 64) blank_lease).

(** Link a new record and count it. *)
Definition insert_lease (db : dhcp_lease_db) (a : Z) (l : dhcp_lease) : outcome dhcp_lease_db :=
  let! db := lease_add_to_hashes (with_heap (<[a := l]> (heap db)) db) a in
  Ok (with_lists (heap db) (mac_hash db) (all_leases db) (lease_count db + 1) db).

Definition dhcp_lease_create (now : Z) (alloc : option Z) (db : dhcp_lease_db) (ip : Z) (mac : list Z) (secs : Z)
  : outcome (option Z * dhcp_lease_db) :=
  if DHCP_LEASE_MAX <=? lease_count db then Ok (None, db) else
  let! (existing, db) := dhcp_lease_find_by_mac db mac in
  match existing with
  | Some a =>
    let! db := modify a (fun l => with_state DHCP_LEASE_BOUND (timed now secs (with_ip ip l))) db in
    Ok (Some a, db)
  | None =>
    match alloc with
    | None => Ok (None, db)
    | Some a =>
      let! db := insert_lease db a (with_state DHCP_LEASE_BOUND (timed now secs (new_lease ip mac))) in
      Ok (Some a, db)
    end
  end.

(** offer_time = now, and expire_time the offer timeout later. *)
Definition offered (now timeout xid : Z) (l : dhcp_lease) : dhcp_lease :=
  with_state DHCP_LEASE_OFFERED (with_expire (now +64 (timeout *64 1000)) (with_offer now xid l)).

Definition dhcp_lease_create_offered (now : Z) (alloc : option Z) (db : dhcp_lease_db) (ip : Z) (mac : list Z) (xid : Z)
  : outcome (option Z * dhcp_lease_db) :=
  let! (existing, db) := dhcp_lease_find_by_mac db mac in
  match existing with
  | Some a =>
    let! db := modify a (fun l => offered now (offer_timeout db) xid (with_ip ip l)) db in
    Ok (Some a, db)
  | None =>
    if DHCP_LEASE_MAX <=? lease_count db then Ok (None, db) else
    match alloc with
    | None => Ok (None, db)
    | Some a =>
      let! db := insert_lease db a (offered now (offer_timeout db) xid (new_lease ip mac)) in
      Ok (Some a, db)
    end
  end.

Definition dhcp_lease_delete (db : dhcp_lease_db) (a : Z) : outcome (Z * dhcp_lease_db) :=
  let! db := lease_remove_from_hashes db a in
  Ok (0, with_lists (delete a (heap db)) (mac_hash db) (all_leases db) (lease_count db - 1) db).

Definition delete_found (r : outcome (option Z * dhcp_lease_db)) : outcome (Z * dhcp_lease_db) :=
  let! (o, db) := r in match o with None => Ok (-1, db) | Some a => dhcp_lease_delete db a end.

Definition dhcp_lease_delete_by_ip (db : dhcp_lease_db) (ip : Z) : outcome (Z * dhcp_lease_db) :=
  delete_found (dhcp_lease_find_by_ip db ip).
Definition dhcp_lease_delete_by_mac (db : dhcp_lease_db) (mac : list Z) : outcome (Z * dhcp_lease_db) :=
  delete_found (dhcp_lease_find_by_mac db mac).

(** ** State changes *)

Definition set_lease (db : dhcp_lease_db) (a : Z) (f : dhcp_lease -> dhcp_lease) : outcome (Z * dhcp_lease_db) :=
  let! db := modify a f db in Ok (0, db).

Definition dhcp_lease_bind (now : Z) (db : dhcp_lease_db) (a secs : Z) : outcome (Z * dhcp_lease_db) :=
  let! l := of_option (heap db !! a) in
  if negb (state l =? DHCP_LEASE_OFFERED) && negb (state l =? DHCP_LEASE_BOUND) then Ok (-1, db) else
  set_lease db a (fun l => with_state DHCP_LEASE_BOUND (timed now secs l)).

Definition dhcp_lease_release (db : dhcp_lease_db) (a : Z) : outcome (Z * dhcp_lease_db) :=
  set_lease db a (fun l => with_expire 0 (with_state DHCP_LEASE_FREE l)).

Definition dhcp_lease_decline (db : dhcp_lease_db) (a : Z) : outcome (Z * dhcp_lease_db) :=
  set_lease db a (with_state DHCP_LEASE_DECLINED).

Definition dhcp_lease_renew (now : Z) (db : dhcp_lease_db) (a secs : Z) : outcome (Z * dhcp_lease_db) :=
  let! l := of_option (heap db !! a) in
  if negb (state l =? DHCP_LEASE_BOUND) then Ok (-1, db) else set_lease db a (timed now secs).

(** Call the expiration callback, if one is set. *)
Definition notify (a : Z) (db : dhcp_lease_db) : dhcp_lease_db :=
  if expire_cb db then with_log (expire_log db ++ [a]) db else db.

Definition dhcp_lease_expire (db : dhcp_lease_db) (a : Z) : outcome (Z * dhcp_lease_db) :=
  let! db := modify a (with_state DHCP_LEASE_EXPIRED) db in Ok (0, notify a db).

(** ** The state machine *)

Inductive lease_action :=
| action_start_offer | action_bind_lease | action_release_lease | action_expire_lease
| action_decline_lease | action_renew_lease | action_timeout_offer | action_reclaim_expired.

(** A cell of the table: the next state, the action and the flags; None: NO_TRANS. *)
Definition DHCP_TRANS_LOG : Z := 1.
Definition DHCP_TRANS_PERSIST : Z := 4.
Definition trans := option (Z * lease_action * Z).
Definition TRANS_LOG (s : Z) (a : lease_action) : trans := Some (s, a, DHCP_TRANS_LOG).
Definition TRANS_PERSIST (s : Z) (a : lease_action) : trans := Some (s, a, Z.lor DHCP_TRANS_LOG DHCP_TRANS_PERSIST).

Definition trans_free (e : dhcp_event) : trans :=
  match e with DHCP_EVT_DISCOVER => TRANS_LOG DHCP_LEASE_OFFERED action_start_offer | _ => None end.

Definition trans_offered (e : dhcp_event) : trans :=
  match e with
  | DHCP_EVT_DISCOVER => TRANS_LOG DHCP_LEASE_OFFERED action_start_offer
  | DHCP_EVT_REQUEST => TRANS_PERSIST DHCP_LEASE_BOUND action_bind_lease
  | DHCP_EVT_RELEASE => TRANS_LOG DHCP_LEASE_FREE action_release_lease
  | DHCP_EVT_DECLINE => TRANS_LOG DHCP_LEASE_DECLINED action_decline_lease
  | DHCP_EVT_TIMEOUT => TRANS_LOG DHCP_LEASE_FREE action_timeout_offer
  | _ => None
  end.

Definition trans_bound (e : dhcp_event) : trans :=
  match e with
  | DHCP_EVT_REQUEST => TRANS_PERSIST DHCP_LEASE_BOUND action_renew_lease
  | DHCP_EVT_RELEASE => TRANS_PERSIST DHCP_LEASE_FREE action_release_lease
  | DHCP_EVT_DECLINE => TRANS_LOG DHCP_LEASE_DECLINED action_decline_lease
  | DHCP_EVT_EXPIRE => TRANS_PERSIST DHCP_LEASE_EXPIRED action_expire_lease
  | DHCP_EVT_RENEW => TRANS_PERSIST DHCP_LEASE_BOUND action_renew_lease
  | DHCP_EVT_REBIND => TRANS_PERSIST DHCP_LEASE_BOUND action_renew_lease
  | _ => None
  end.

Definition trans_expired (e : dhcp_event) : trans :=
  match e with
  | DHCP_EVT_DISCOVER => TRANS_LOG DHCP_LEASE_OFFERED action_start_offer
  | DHCP_EVT_TIMEOUT => TRANS_LOG DHCP_LEASE_FREE action_reclaim_expired
  | _ => None
  end.

Definition trans_declined (e : dhcp_event) : trans :=
  match e with DHCP_EVT_TIMEOUT => TRANS_LOG DHCP_LEASE_FREE action_reclaim_expired | _ => None end.

Definition trans_reserved (e : dhcp_event) : trans :=
  match e with
  | DHCP_EVT_DISCOVER => TRANS_LOG DHCP_LEASE_OFFERED action_start_offer
  | DHCP_EVT_REQUEST => TRANS_PERSIST DHCP_LEASE_BOUND action_bind_lease
  | DHCP_EVT_RELEASE => TRANS_PERSIST DHCP_LEASE_RESERVED action_release_lease
  | DHCP_EVT_EXPIRE => TRANS_PERSIST DHCP_LEASE_RESERVED action_expire_lease
  | DHCP_EVT_TIMEOUT => TRANS_LOG DHCP_LEASE_RESERVED action_timeout_offer
  | DHCP_EVT_RENEW => TRANS_PERSIST DHCP_LEASE_BOUND action_renew_lease
  | DHCP_EVT_REBIND => TRANS_PERSIST DHCP_LEASE_BOUND action_renew_lease
  | _ => None
  end.

Definition g_trans_table (s : Z) (e : dhcp_event) : trans :=
  if s =? DHCP_LEASE_FREE then trans_free e else
  if s =? DHCP_LEASE_OFFERED then trans_offered e else
  if s =? DHCP_LEASE_BOUND then trans_bound e else
  if s =? DHCP_LEASE_EXPIRED then trans_expired e else
  if s =? DHCP_LEASE_DECLINED then trans_declined e else
  if s =? DHCP_LEASE_RESERVED then trans_reserved e else None.

(** The actions; [ctx]: the lease time the caller passes, if any. *)
Definition run_action (now : Z) (ctx : option Z) (act : lease_action) (db : dhcp_lease_db) (a : Z) : outcome dhcp_lease_db :=
  match act with
  | action_start_offer => modify a (fun l => with_offer now (l_xid l) l) db
  | action_bind_lease | action_renew_lease => modify a (fun l => timed now (default (lease_time l) ctx) l) db
  | action_release_lease => modify a (fun l => with_times (lease_time l) 0 0 l) db
  | action_expire_lease => Ok (notify a db)
  | action_decline_lease => modify a (with_expire (now +64 (3600 * 1000))) db
  | action_timeout_offer => modify a (with_offer 0 0) db
  | action_reclaim_expired =>
    modify a (fun l => with_offer (offer_time l) 0 (with_times (lease_time l) 0 0
                         (with_ident (zeros 6) (zeros 64) 0 (0 :: drop 1 (l_hostname l)) l))) db
  end.

(** The on_enter handlers; the on_exit handlers do nothing. *)
Definition on_enter (now s : Z) (db : dhcp_lease_db) (a : Z) : outcome dhcp_lease_db :=
  if s =? DHCP_LEASE_FREE then modify a (with_expire 0) db else
  if s =? DHCP_LEASE_OFFERED then modify a (fun l => with_offer now (l_xid l) l) db else
  if s =? DHCP_LEASE_EXPIRED then Ok (notify a db) else
  if s =? DHCP_LEASE_DECLINED then modify a (with_expire (now +64 (3600 * 1000))) db else
  Ok db.

Definition dhcp_lease_next_state (s : Z) (e : dhcp_event) : Z :=
  if DHCP_LEASE_NUM_STATES <=? s then DHCP_LEASE_INVALID else
  match g_trans_table s e with Some (n, _, _) => n | None => DHCP_LEASE_INVALID end.

Definition dhcp_lease_can_transition (l : dhcp_lease) (e : dhcp_event) : bool :=
  if DHCP_LEASE_NUM_STATES <=? state l then false else found (g_trans_table (state l) e).

Definition dhcp_lease_transition_ex (now : Z) (db : dhcp_lease_db) (a : Z) (e : dhcp_event) (ctx : option Z)
  : outcome (Z * dhcp_lease_db) :=
  let! l := of_option (heap db !! a) in
  if DHCP_LEASE_NUM_STATES <=? state l then Ok (-1, db) else
  match g_trans_table (state l) e with
  | None => Ok (-1, db)
  | Some (new_state, act, _) =>
    let! db := run_action now ctx act db a in
    let! db := modify a (with_state new_state) db in
    let! db := on_enter now new_state db a in
    Ok (0, db)
  end.

Definition dhcp_lease_transition (now : Z) (db : dhcp_lease_db) (a : Z) (e : dhcp_event) : outcome (Z * dhcp_lease_db) :=
  dhcp_lease_transition_ex now db a e None.

(** ** Updates *)

(** [strncpy] of 63 bytes, then a zero. *)
Definition dhcp_lease_set_hostname (db : dhcp_lease_db) (a : Z) (host : option (list Z)) : outcome (Z * dhcp_lease_db) :=
  set_lease db a (fun l => with_ident (l_mac l) (client_id l) (client_id_len l)
    match host with Some h => strncpy h 63 ++ [0] | None => 0 :: drop 1 (l_hostname l) end l).

Definition dhcp_lease_set_client_id (db : dhcp_lease_db) (a : Z) (id : option (list Z)) (len : Z) : outcome (Z * dhcp_lease_db) :=
  let! l := of_option (heap db !! a) in
  match id with
  | Some d =>
    if 0 <? len then
      let len := if 64 <? len then 64 else len in
      let! bytes := load d 0 len in
      let! c := store (client_id l) 0 bytes in
      set_lease db a (fun l => with_ident (l_mac l) c len (l_hostname l) l)
    else set_lease db a (fun l => with_ident (l_mac l) (client_id l) 0 (l_hostname l) l)
  | None => set_lease db a (fun l => with_ident (l_mac l) (client_id l) 0 (l_hostname l) l)
  end.

Definition dhcp_lease_update_time (db : dhcp_lease_db) (a secs : Z) : outcome (Z * dhcp_lease_db) :=
  set_lease db a (fun l => with_times secs (start_time l) (start_time l +64 (secs *64 1000)) l).

(** ** Queries *)

Definition dhcp_lease_is_expired (now : Z) (l : dhcp_lease) : bool :=
  if (state l =? DHCP_LEASE_FREE) || (state l =? DHCP_LEASE_EXPIRED) then true else expire_time l <=? now.

Definition dhcp_lease_is_valid (now : Z) (l : dhcp_lease) : bool :=
  ((state l =? DHCP_LEASE_BOUND) || (state l =? DHCP_LEASE_OFFERED)) && negb (dhcp_lease_is_expired now l).

Definition dhcp_lease_remaining_time (now : Z) (l : dhcp_lease) : Z :=
  if dhcp_lease_is_expired now l then 0 else
  if expire_time l <=? now then 0 else (expire_time l - now) / 1000.

Definition dhcp_lease_count (db : dhcp_lease_db) : Z := lease_count db.

(** A loop over all leases; [next] is read before the body runs. *)
Fixpoint for_leases {S} (body : S -> dhcp_lease_db -> Z -> dhcp_lease -> outcome (bool * S * dhcp_lease_db))
  (fuel : nat) (s : S) (db : dhcp_lease_db) (a : Z) : outcome (S * dhcp_lease_db) :=
  if a =? 0 then Ok (s, db) else
  match fuel with
  | O => Fuel
  | Datatypes.S fuel =>
    let! l := of_option (heap db !! a) in
    let! (stop, s, db) := body s db a l in
    if stop then Ok (s, db) else for_leases body fuel s db (next l)
  end.

Definition dhcp_lease_count_by_state (db : dhcp_lease_db) (st : Z) : outcome Z :=
  let! (n, _) := for_leases (fun n db _ l => Ok (false, if state l =? st then n + 1 else n, db)) (walk_fuel db) 0 db (all_leases db) in
  Ok n.

(** [fn] is the caller's function on a state of its own; it may change the database. *)
Definition dhcp_lease_iterate {S} (fn : S -> dhcp_lease_db -> Z -> outcome (Z * S * dhcp_lease_db)) (db : dhcp_lease_db) (s : S)
  : outcome (S * dhcp_lease_db) :=
  for_leases (fun s db a _ => let! (r, s, db) := fn s db a in Ok (negb (r =? 0), s, db)) (walk_fuel db) s db (all_leases db).

Definition dhcp_lease_iterate_by_state {S} (st : Z) (fn : S -> dhcp_lease_db -> Z -> outcome (Z * S * dhcp_lease_db))
  (db : dhcp_lease_db) (s : S) : outcome (S * dhcp_lease_db) :=
  for_leases (fun s db a l => if state l =? st then let! (r, s, db) := fn s db a in Ok (negb (r =? 0), s, db) else Ok (false, s, db))
    (walk_fuel db) s db (all_leases db).

(** ** Expiration *)

Definition dhcp_lease_db_set_expire_callback (db : dhcp_lease_db) (cb : bool) : dhcp_lease_db :=
  mkDb (offer_timeout db) (heap db) (mac_hash db) (all_leases db) (lease_count db) cb (expire_log db)
    (lookups db) (hits db) (misses db).

Definition due (now : Z) (l : dhcp_lease) : bool :=
  ((state l =? DHCP_LEASE_BOUND) || (state l =? DHCP_LEASE_OFFERED)) && (expire_time l <=? now).

(** The body of the loop; [n] counts. *)
Definition expire_body (now n : Z) (db : dhcp_lease_db) (a : Z) (l : dhcp_lease) : outcome (bool * Z * dhcp_lease_db) :=
  if due now l then let! (_, db) := dhcp_lease_expire db a in Ok (false, n + 1, db) else Ok (false, n, db).

Definition dhcp_lease_db_process_expirations (now : Z) (db : dhcp_lease_db) : outcome (Z * dhcp_lease_db) :=
  for_leases (expire_body now) (walk_fuel db) 0 db (all_leases db).

Definition dead (l : dhcp_lease) : bool := (state l =? DHCP_LEASE_EXPIRED) || (state l =? DHCP_LEASE_FREE).

Definition cleanup_body (n : Z) (db : dhcp_lease_db) (a : Z) (l : dhcp_lease) : outcome (bool * Z * dhcp_lease_db) :=
  if dead l then let! (_, db) := dhcp_lease_delete db a in Ok (false, n + 1, db) else Ok (false, n, db).

Definition dhcp_lease_db_cleanup_expired (db : dhcp_lease_db) : outcome (Z * dhcp_lease_db) :=
  for_leases cleanup_body (walk_fuel db) 0 db (all_leases db).

(** ** Statistics *)

Record dhcp_lease_db_stats := mkDbStats {
  total_leases : Z; per_state : Z -> Z; st_lookups : Z; st_hits : Z; st_misses : Z
}.

(** [per_state]: the counters free, offered, bound, expired, declined and reserved. *)
Definition dhcp_lease_db_get_stats (db : dhcp_lease_db) : outcome dhcp_lease_db_stats :=
  let! (f, _) := for_leases (fun f db _ l => Ok (false, fun s => if state l =? s then f s + 1 else f s, db))
                   (walk_fuel db) (fun _ => 0) db (all_leases db) in
  Ok (mkDbStats (lease_count db) f (lookups db) (hits db) (misses db)).
