(* ===== verification/DhcpLeaseRep.v ===== *)
(** * The lease database as a list of leases

    [db_rep db L]: the database holds the leases [L], newest first; every hash chain has the
    leases of its slot in the same order, no two leases have the same MAC address, and the
    counter is the number of leases.  Lookups, insertion, removal and changes of a lease
    are specified by it. *)

From S2P Require Import Prelude Common Bytes Links Chains DhcpLease.

(** ** The representation *)

Definition in_slot (h : gmap Z dhcp_lease) (i : nat) (a : Z) : Prop :=
  match h !! a with Some l => slot (l_mac l) = i | None => False end.
#[export] Instance in_slot_dec h i a : Decision (in_slot h i a).
Proof. unfold in_slot. destruct (h !! a); apply _. Defined.

Record db_rep (db : dhcp_lease_db) (L : list Z) : Prop := {
  rep_all : chain next (heap db) (all_leases db) L;
  rep_nodup : NoDup L;
  rep_dom : forall a, is_Some (heap db !! a) -> a ∈ L;
  rep_slots : length (mac_hash db) = Z.to_nat DHCP_LEASE_HASH_SIZE;
  rep_chain : forall i p, mac_hash db !! i = Some p -> chain hash_next (heap db) p (filter (in_slot (heap db) i) L);
  rep_macs : forall a b x y, heap db !! a = Some x -> heap db !! b = Some y -> l_mac x = l_mac y -> a = b;
  rep_count : lease_count db = Z.of_nat (length L)
}.

Lemma lease_slot_lt mac : (slot mac < Z.to_nat DHCP_LEASE_HASH_SIZE)%nat.
Proof.
  unfold slot, hash_mac. change (DHCP_LEASE_HASH_SIZE - 1) with (2 ^ 8 - 1). rewrite land_mask by lia.
  match goal with |- context [?v mod 2 ^ 8] => pose proof (Z.mod_pos_bound v (2 ^ 8) ltac:(lia)) end.
  change DHCP_LEASE_HASH_SIZE with 256. change (2 ^ 8) with 256 in *. lia.
Qed.

Lemma filter_slot_same h h' i (L : list Z) : (forall t, t ∈ L -> in_slot h i t <-> in_slot h' i t) -> filter (in_slot h i) L = filter (in_slot h' i) L.
Proof.
  induction L as [|t L IH]; intros H; [done|]. rewrite !filter_cons, IH by (intros; apply H; by right). specialize (H t ltac:(left)).
  destruct (decide (in_slot h i t)), (decide (in_slot h' i t)); tauto || done.
Qed.

Section rep.
Context (db : dhcp_lease_db) (L : list Z) (Hrep : db_rep db L).

Lemma rep_live a : a ∈ L -> a <> 0 /\ exists l, heap db !! a = Some l.
Proof. intros Ha. apply (chain_live next (heap db) L (all_leases db) a (rep_all _ _ Hrep) Ha). Qed.

Lemma rep_fuel l : l ⊆+ L -> (length l < walk_fuel db)%nat.
Proof.
  intros Hl%submseteq_length. unfold walk_fuel. pose proof (nodup_size (heap db) L (rep_nodup _ _ Hrep)) as H.
  assert (length L <= size (heap db))%nat; [|lia]. apply H. intros p Hp. destruct (rep_live p Hp) as [_ [x Hx]]. by exists x.
Qed.

Lemma slot_fuel i : (length (filter (in_slot (heap db) i) L) < walk_fuel db)%nat.
Proof. apply rep_fuel. apply sublist_submseteq, sublist_filter. Qed.

Lemma slot_head mac : exists p, mac_hash db !! slot mac = Some p.
Proof. apply lookup_lt_is_Some_2. rewrite (rep_slots _ _ Hrep). apply lease_slot_lt. Qed.

(** Searching the chain of a MAC address finds the lease with that address. *)
Lemma find_by_mac_spec mac :
  exists r, dhcp_lease_find_by_mac db mac = Ok (r, count_lookup (found r) db) /\
    match r with
    | Some a => a ∈ L /\ exists l, heap db !! a = Some l /\ l_mac l = mac
    | None => forall a l, heap db !! a = Some l -> l_mac l <> mac
    end.
Proof.
  destruct (slot_head mac) as [p Hp]. unfold dhcp_lease_find_by_mac. rewrite Hp. cbn [of_option obind].
  rewrite (walk_run _ _ _ _ _ _ (rep_chain _ _ Hrep _ _ Hp) (slot_fuel _)). cbn [obind]. eexists. split; [done|].
  pose proof (first_in_spec (heap db) (fun l => bool_decide (l_mac l = mac)) (filter (in_slot (heap db) (slot mac)) L)) as H.
  destruct (first_in _ _ _) as [a|].
  - destruct H as [[_ Ha]%list_elem_of_filter (x & Hx & Hm%bool_decide_eq_true_1)]. split; [done|]. by exists x.
  - intros a l Ha Hm. specialize (H a l). rewrite Ha in H. assert (bool_decide (l_mac l = mac) = false) as Hf.
    { apply H; [|done]. apply list_elem_of_filter. split; [|apply (rep_dom _ _ Hrep); by exists l]. unfold in_slot. rewrite Ha. by rewrite Hm. }
    by rewrite bool_decide_eq_true_2 in Hf.
Qed.

Lemma find_by_ip_spec ip :
  exists r, dhcp_lease_find_by_ip db ip = Ok (r, count_lookup (found r) db) /\ r = first_in (heap db) (fun l => l_ip l =? ip) L.
Proof.
  unfold dhcp_lease_find_by_ip. rewrite (walk_run _ _ _ _ _ _ (rep_all _ _ Hrep) (rep_fuel L ltac:(done))). cbn [obind]. by eexists.
Qed.

(** A change of one lease that keeps its links and its MAC address. *)
Lemma modify_spec a f : a ∈ L -> (forall l, next (f l) = next l /\ hash_next (f l) = hash_next l /\ l_mac (f l) = l_mac l) ->
  exists l, heap db !! a = Some l /\ modify a f db = Ok (with_heap (<[a := f l]> (heap db)) db) /\ db_rep (with_heap (<[a := f l]> (heap db)) db) L.
Proof.
  intros Ha Hf. destruct (rep_live a Ha) as [_ [l Hl]]. exists l. split; [done|]. unfold modify. rewrite Hl. split; [done|].
  assert (forall get : dhcp_lease -> Z, (forall y, get (f y) = get y) -> forall t x, heap db !! t = Some x ->
     exists x', <[a := f l]> (heap db) !! t = Some x' /\ get x' = get x) as Hget.
  { intros get Hg t x Hx. destruct (decide (t = a)) as [->|Hne]; [rewrite lookup_insert_eq|rewrite lookup_insert_ne by done; by exists x].
    simplify_eq. by exists (f l). }
  assert (forall t, l_mac <$> <[a := f l]> (heap db) !! t = l_mac <$> heap db !! t) as Hmac.
  { intros t. destruct (decide (t = a)) as [->|Hne]; [rewrite lookup_insert_eq, Hl; cbn; f_equal; apply Hf|by rewrite lookup_insert_ne]. }
  destruct Hrep as [R1 R2 R3 R4 R5 R6 R7]. constructor; cbn; try done.
  - eapply chain_same; [|exact R1]. intros t x _. apply Hget. intros y. apply Hf.
  - intros t [x Hx]. apply R3. specialize (Hmac t). rewrite Hx in Hmac. destruct (heap db !! t); [by eexists|done].
  - intros i p Hp. assert (filter (in_slot (<[a := f l]> (heap db)) i) L = filter (in_slot (heap db) i) L) as ->.
    { apply list_filter_iff. intros t. unfold in_slot. specialize (Hmac t). destruct (<[a := f l]> (heap db) !! t), (heap db !! t); simplify_eq/=; [|done].
      by match goal with H : l_mac _ = l_mac _ |- _ => rewrite H end. }
    eapply chain_same; [|by apply R5]. intros t x _. apply Hget. intros y. apply Hf.
  - intros b c x y Hx Hy Hm. pose proof (Hmac b) as Hb. pose proof (Hmac c) as Hc. rewrite Hx in Hb. rewrite Hy in Hc.
    destruct (heap db !! b) as [x'|] eqn:Ex; [|done]. destruct (heap db !! c) as [y'|] eqn:Ey; [|done]. simplify_eq/=. eapply (R6 b c); try done. congruence.
Qed.
End rep.

Ltac db_simpl :=
  cbn [heap mac_hash all_leases lease_count offer_timeout expire_cb expire_log with_lists with_heap of_option obind].

(** A new lease for a MAC address that has none. *)
Lemma insert_spec db L a l : db_rep db L -> heap db !! a = None -> a <> 0 -> (forall b y, heap db !! b = Some y -> l_mac y <> l_mac l) ->
  exists db' l', insert_lease db a l = Ok db' /\ db_rep db' (a :: L) /\ heap db' = <[a := l']> (heap db) /\
    l' = with_next (next l') (with_hash_next (hash_next l') l) /\
    offer_timeout db' = offer_timeout db /\ expire_cb db' = expire_cb db /\ expire_log db' = expire_log db.
Proof.
  intros Hrep Hfresh Ha Hmac. pose proof (rep_slots _ _ Hrep) as Hs.
  destruct (slot_head db L Hrep (l_mac l)) as [p Hp]. unfold insert_lease, lease_add_to_hashes. cbn [heap with_heap]. rewrite lookup_insert_eq.
  cbn [of_option obind mac_hash with_heap]. rewrite Hp. cbn [of_option obind all_leases with_heap].
  set (l' := with_next (all_leases db) (with_hash_next p l)). eexists _, l'. split; [done|].
  split; [|by rewrite insert_insert_eq]. cbn [heap mac_hash all_leases lease_count with_lists]. rewrite insert_insert_eq.
  assert (a ∉ L) as HaL by (intros H; destruct (rep_live db L Hrep a H) as [_ [x Hx]]; congruence).
  assert (forall t, t ∈ L -> <[a := l']> (heap db) !! t = heap db !! t) as Hold by (intros t Ht; rewrite lookup_insert_ne; [done|intros <-; done]).
  constructor; db_simpl.
  - split; [done|]. split; [done|]. exists l'. split; [apply lookup_insert_eq|]. eapply links_frame; [exact Hold|]. apply (rep_all _ _ Hrep).
  - constructor; [done|apply (rep_nodup _ _ Hrep)].
  - intros t. destruct (decide (t = a)) as [->|Hne]; [intros; left|]. rewrite lookup_insert_ne by done. intros Ht. right. by apply (rep_dom _ _ Hrep).
  - by rewrite length_insert.
  - intros i q Hq. rewrite filter_cons.
    rewrite (filter_slot_same (<[a := l']> (heap db)) (heap db) i L) by (intros t Ht; unfold in_slot; by rewrite Hold). assert (forall t, t ∈ filter (in_slot (heap db) i) L -> <[a := l']> (heap db) !! t = heap db !! t) as Hold'.
    { intros t [_ Ht]%list_elem_of_filter. by apply Hold. }
    destruct (decide (i = slot (l_mac l))) as [->|Hi].
    + rewrite decide_True by (unfold in_slot; by rewrite lookup_insert_eq). rewrite list_lookup_insert_eq in Hq by (rewrite Hs; apply lease_slot_lt). injection Hq as <-.
      split; [done|]. split; [done|]. exists l'. split; [apply lookup_insert_eq|]. eapply links_frame; [exact Hold'|]. apply (rep_chain _ _ Hrep _ _ Hp).
    + rewrite decide_False by (unfold in_slot; rewrite lookup_insert_eq; intros E; by apply Hi). rewrite list_lookup_insert_ne in Hq by (intros E; by apply Hi).
      eapply links_frame; [exact Hold'|]. by apply (rep_chain _ _ Hrep).
  - intros b c x y. destruct (decide (b = a)) as [->|Hb], (decide (c = a)) as [->|Hc];
      rewrite ?lookup_insert_eq, ?lookup_insert_ne by done; intros Hx Hy Hm; try done; simplify_eq.
    + exfalso. by eapply Hmac.
    + exfalso. by eapply Hmac.
    + by eapply (rep_macs _ _ Hrep).
  - rewrite (rep_count _ _ Hrep). cbn [length]. lia.
Qed.

(** Unlinking keeps the contents of the leases. *)
Definition same_but_links (x y : dhcp_lease) : Prop := y = with_next (next y) (with_hash_next (hash_next y) x).

Lemma same_but_links_refl x : same_but_links x x.
Proof. by destruct x. Qed.

Lemma same_but_links_trans x y z : same_but_links x y -> same_but_links y z -> same_but_links x z.
Proof. unfold same_but_links. intros Hy Hz. rewrite Hz, Hy. by destruct x. Qed.
Lemma same_but_links_mac x y : same_but_links x y -> l_mac y = l_mac x.
Proof. by intros ->. Qed.

(** Two heaps with the same leases up to their links. *)
Definition same_leases (h h' : gmap Z dhcp_lease) : Prop :=
  forall b, match h !! b, h' !! b with Some x, Some y => same_but_links x y | None, None => True | _, _ => False end.

Lemma same_leases_trans h1 h2 h3 : same_leases h1 h2 -> same_leases h2 h3 -> same_leases h1 h3.
Proof.
  intros H1 H2 b. specialize (H1 b). specialize (H2 b). destruct (h1 !! b), (h2 !! b), (h3 !! b); try done. by eapply same_but_links_trans.
Qed.

Lemma unlinked_same h h' (set : Z -> dhcp_lease -> dhcp_lease) (l1 : list Z) : (forall n x, same_but_links x (set n x)) ->
  (forall a, h' !! a = h !! a \/ (a ∈ l1 /\ exists y n, h !! a = Some y /\ h' !! a = Some (set n y))) -> same_leases h h'.
Proof.
  intros Hset Hd b. destruct (Hd b) as [E|(_ & y & n & Hy & E)]; rewrite E; [|rewrite Hy; apply Hset].
  destruct (h !! b); [apply same_but_links_refl|done].
Qed.

Lemma same_leases_lookup h h' b x : same_leases h h' -> h !! b = Some x -> exists y, h' !! b = Some y /\ same_but_links x y.
Proof. intros Hs Hx. specialize (Hs b). rewrite Hx in Hs. destruct (h' !! b) as [y|]; [by exists y|done]. Qed.

Lemma same_leases_back h h' b y : same_leases h h' -> h' !! b = Some y -> exists x, h !! b = Some x /\ same_but_links x y.
Proof. intros Hs Hy. specialize (Hs b). rewrite Hy in Hs. destruct (h !! b) as [x|]; [by exists x|done]. Qed.

Lemma same_leases_slot h h' i b : same_leases h h' -> in_slot h' i b <-> in_slot h i b.
Proof.
  intros Hs. unfold in_slot. specialize (Hs b). destruct (h !! b), (h' !! b); try done. by rewrite (same_but_links_mac _ _ Hs).
Qed.

(** A record before the target is another one. *)
Lemma before_target (h : gmap Z dhcp_lease) (l1 : list Z) a l2 : NoDup (l1 ++ a :: l2) -> forall u y, u ∈ l1 -> h !! u = Some y -> (u =? a) = false.
Proof. intros (_ & Hd & _)%NoDup_app u y Hu _. apply Z.eqb_neq. intros ->. apply (Hd a Hu). left. Qed.

Lemma lease_remove_spec db L1 a L2 l : db_rep db (L1 ++ a :: L2) -> heap db !! a = Some l ->
  let i := slot (l_mac l) in
  exists h p1 p2, lease_remove_from_hashes db a = Ok (with_lists h (<[i := p1]> (mac_hash db)) p2 (lease_count db) db) /\
    same_leases (heap db) h /\ chain next h p2 (L1 ++ L2) /\ chain hash_next h p1 (filter (in_slot (heap db) i) (L1 ++ L2)) /\
    forall b x y, heap db !! b = Some x -> h !! b = Some y -> ~ in_slot (heap db) i b -> hash_next y = hash_next x.
Proof.
  intros Hrep Hl i. pose proof Hrep as [R1 R2 R3 R4 R5 R6 R7]. set (L := L1 ++ a :: L2) in *.
  destruct (slot_head db L Hrep (l_mac l)) as [p Hp]. unfold lease_remove_from_hashes. rewrite Hl. db_simpl. rewrite Hp. db_simpl. fold i. fold i in Hp.
  set (in1 := filter (in_slot (heap db) i) L1). set (in2 := filter (in_slot (heap db) i) L2).
  assert (filter (in_slot (heap db) i) L = in1 ++ a :: in2) as Efl.
  { unfold L. rewrite filter_app, filter_cons, decide_True by (unfold in_slot; by rewrite Hl). done. }
  pose proof (R5 i p Hp) as Hch. rewrite Efl in Hch.
  assert (NoDup (in1 ++ a :: in2)) as Hnd by (rewrite <- Efl; by apply NoDup_filter).
  pose proof (slot_fuel db L Hrep i) as Hf1. rewrite Efl, length_app in Hf1.
  destruct (unlink_spec hash_next with_hash_next (fun q _ => q =? a) (heap db) p a l in1 in2 (walk_fuel db) ltac:(done) Hch Hnd ltac:(lia) Hl (Z.eqb_refl a) (before_target _ _ _ _ Hnd)) as (h1 & p1 & -> & Hch1 & Hd1). db_simpl.
  assert (same_leases (heap db) h1) as S1 by (eapply unlinked_same; [|exact Hd1]; by intros n []).
  assert (chain next h1 (all_leases db) (L1 ++ a :: L2)) as Hall1.
  { eapply chain_same; [|exact R1]. intros t x _ Hx. destruct (Hd1 t) as [E|(_ & y & n & Hy & E)]; [exists x; by rewrite E|].
    simplify_eq. by exists (with_hash_next n x). }
  pose proof (rep_fuel db L Hrep L1 ltac:(apply submseteq_inserts_r; done)) as Hf2.
  destruct (same_leases_lookup _ _ a l S1 Hl) as (l1 & Hl1 & _).
  destruct (unlink_spec next with_next (fun q _ => q =? a) h1 (all_leases db) a l1 L1 L2 (walk_fuel db) ltac:(done) Hall1 R2 Hf2 Hl1 (Z.eqb_refl a) (before_target _ _ _ _ R2)) as (h2 & p2 & -> & Hall2 & Hd2). db_simpl.
  assert (same_leases h1 h2) as S2 by (eapply unlinked_same; [|exact Hd2]; by intros n []).
  assert (forall b x y, h1 !! b = Some x -> h2 !! b = Some y -> hash_next y = hash_next x) as Hhn.
  { intros b x y Hx Hy. destruct (Hd2 b) as [E|(_ & z & n & Hz & E)]; [congruence|by simplify_eq]. }
  exists h2, p1, p2. split; [done|]. split; [by eapply same_leases_trans|]. split; [done|]. split.
  - rewrite filter_app. eapply chain_same; [|exact Hch1]. intros t x _ Hx. destruct (same_leases_lookup h1 h2 t x S2 Hx) as (y & Hy & _).
    exists y. split; [done|]. by eapply Hhn.
  - intros b x y Hx Hy Hni. destruct (same_leases_back h1 h2 b y S2 Hy) as (z & Hz & _). rewrite (Hhn b z y Hz Hy).
    destruct (Hd1 b) as [E|(Hin & _)]; [congruence|]. destruct Hni. by apply list_elem_of_filter in Hin as [H _].
Qed.

(** A lease is taken out. *)
Lemma delete_spec db L1 a L2 : db_rep db (L1 ++ a :: L2) ->
  exists db', dhcp_lease_delete db a = Ok (0, db') /\ db_rep db' (L1 ++ L2) /\ same_leases (delete a (heap db)) (heap db') /\
    offer_timeout db' = offer_timeout db /\ expire_cb db' = expire_cb db /\ expire_log db' = expire_log db.
Proof.
  intros Hrep. assert (a ∈ L1 ++ a :: L2) as HaL by (apply elem_of_app; right; left). destruct (rep_live db _ Hrep a HaL) as [_ [l Hl]].
  destruct (lease_remove_spec db L1 a L2 l Hrep Hl) as (h & p1 & p2 & E & Hs & Hall & Hslot & Hother). pose proof Hrep as [R1 R2 R3 R4 R5 R6 R7].
  unfold dhcp_lease_delete. rewrite E. db_simpl. eexists. split; [done|].
  destruct (nodup_middle _ _ _ R2) as [Hnd Hna].
  assert (forall t, t ∈ L1 ++ L2 -> delete a h !! t = h !! t) as Hdel by (intros t Ht; rewrite lookup_delete_ne; [done|by intros ->]).
  assert (forall i, filter (in_slot (delete a h) i) (L1 ++ L2) = filter (in_slot (heap db) i) (L1 ++ L2)) as Hfl.
  { intros i. apply filter_slot_same. intros t Ht. rewrite <- (same_leases_slot _ _ i t Hs). unfold in_slot. by rewrite (Hdel t Ht). }
  split; [|split; [|done]].
  - constructor; db_simpl.
    + eapply links_frame; [exact Hdel|done].
    + done.
    + intros t [y Hy]. destruct (decide (t = a)) as [->|Hne]; [by rewrite lookup_delete_eq in Hy|]. rewrite lookup_delete_ne in Hy by done.
      destruct (same_leases_back _ _ t y Hs Hy) as (x & Hx & _). specialize (R3 t ltac:(by exists x)). rewrite elem_of_app, elem_of_cons in R3. rewrite elem_of_app. tauto.
    + by rewrite length_insert.
    + intros i q Hq. rewrite Hfl. eapply links_frame; [intros t [_ Ht]%list_elem_of_filter; by apply Hdel|].
      destruct (decide (i = slot (l_mac l))) as [->|Hi].
      * rewrite list_lookup_insert_eq in Hq by (rewrite R4; apply lease_slot_lt). by injection Hq as <-.
      * rewrite list_lookup_insert_ne in Hq by congruence. specialize (R5 i q Hq). rewrite filter_app, filter_cons, decide_False, <- filter_app in R5.
        2: { unfold in_slot. rewrite Hl. congruence. }
        eapply chain_same; [|exact R5]. intros t x [Hin Ht]%list_elem_of_filter Hx. destruct (same_leases_lookup _ _ t x Hs Hx) as (y & Hy & _).
        exists y. split; [done|]. eapply Hother; try done. unfold in_slot in *. rewrite Hx in *. congruence.
    + intros b c x y Hx Hy Hm. apply lookup_delete_Some in Hx as [_ Hx]. apply lookup_delete_Some in Hy as [_ Hy].
      destruct (same_leases_back _ _ b x Hs Hx) as (x' & Hx' & Ex%same_but_links_mac). destruct (same_leases_back _ _ c y Hs Hy) as (y' & Hy' & Ey%same_but_links_mac).
      eapply (R6 b c); try done. congruence.
    + rewrite R7, !length_app. cbn [length]. lia.
  - db_simpl. intros b. destruct (decide (b = a)) as [->|Hne]; [by rewrite !lookup_delete_eq|]. rewrite !lookup_delete_ne by done. apply Hs.
Qed.

(** The lease after one in the list. *)
Lemma rep_next db L1 a L2 l : db_rep db (L1 ++ a :: L2) -> heap db !! a = Some l -> next l = default 0 (head L2).
Proof.
  intros Hr Hl. pose proof (rep_all _ _ Hr) as Hc. revert Hc. generalize (all_leases db). clear Hr. induction L1 as [|t L1 IH]; intros p.
  - intros (_ & _ & x & Hx & Hc). rewrite Hl in Hx. injection Hx as <-. by apply chain_head in Hc.
  - intros (_ & _ & x & _ & Hc). by eapply IH.
Qed.
