(* ===== verification/DhcpLeaseSpec.v ===== *)
(** * The lease database as a map from MAC addresses to leases

    [view db] is the abstract database: the leases by MAC address, without their links.
    The operations are specified on it and the linked lists are shown to implement them. *)

From S2P Require Import Prelude Common Bytes Keyed Links Chains DhcpLease DhcpLeaseRep.

(** ** The abstract database *)

Definition content (l : dhcp_lease) : dhcp_lease := with_next 0 (with_hash_next 0 l).

Definition view (db : dhcp_lease_db) : gmap (list Z) dhcp_lease := keyed l_mac content (heap db).

Lemma same_but_links_content x y : same_but_links x y -> content y = content x.
Proof. by intros ->. Qed.

Section view.
Context (db : dhcp_lease_db) (L : list Z) (Hrep : db_rep db L).

Lemma rep_keys : keys_distinct l_mac (heap db).
Proof. exact (rep_macs _ _ Hrep). Qed.

Lemma view_lookup m c : view db !! m = Some c <-> exists a l, heap db !! a = Some l /\ l_mac l = m /\ content l = c.
Proof. apply keyed_lookup, rep_keys. Qed.

Lemma view_none m : view db !! m = None <-> forall a l, heap db !! a = Some l -> l_mac l <> m.
Proof. apply keyed_none, rep_keys. Qed.

Lemma view_size : size (view db) = length L.
Proof.
  unfold view. rewrite keyed_size by apply rep_keys. apply Nat.le_antisymm.
  - rewrite <- size_dom, <- (size_list_to_set (C := gset Z) L) by apply (rep_nodup _ _ Hrep). apply subseteq_size. intros a Ha%elem_of_dom.
    apply elem_of_list_to_set. by apply (rep_dom _ _ Hrep).
  - apply (nodup_size (heap db) L (rep_nodup _ _ Hrep)). intros p Hp. destruct (rep_live db L Hrep p Hp) as [_ [x Hx]]. by exists x.
Qed.

Lemma view_count : lease_count db = Z.of_nat (size (view db)).
Proof. rewrite view_size. apply (rep_count _ _ Hrep). Qed.
End view.

(** The abstract effect of writing and of removing a record. *)
Lemma view_insert db L db' L' a l' : db_rep db L -> db_rep db' L' -> heap db' = <[a := l']> (heap db) ->
  (forall l, heap db !! a = Some l -> l_mac l = l_mac l') -> view db' = <[l_mac l' := content l']> (view db).
Proof.
  intros Hr Hr' Hh Hm. pose proof (rep_keys _ _ Hr') as Hd. unfold view. rewrite Hh in *. apply keyed_insert; [by eapply rep_keys|done|done].
Qed.

Lemma view_delete db L db' L' a l : db_rep db L -> db_rep db' L' -> heap db !! a = Some l -> same_leases (delete a (heap db)) (heap db') ->
  view db' = delete (l_mac l) (view db).
Proof.
  intros Hr Hr' Ha Hs. pose proof (rep_keys _ _ Hr) as Hd. unfold view. rewrite <- (keyed_delete l_mac content (heap db) a l Hd Ha).
  apply keyed_ext; [by apply keys_delete|]. intros b. specialize (Hs b).
  destruct (delete a (heap db) !! b), (heap db' !! b); try done. split; [by apply same_but_links_mac|by apply same_but_links_content].
Qed.

Lemma view_same db db' : heap db' = heap db -> view db' = view db.
Proof. unfold view. by intros ->. Qed.

(** ** Changes of one lease *)

Definition keeps (f : dhcp_lease -> dhcp_lease) : Prop :=
  forall l, next (f l) = next l /\ hash_next (f l) = hash_next l /\ l_mac (f l) = l_mac l.

(** From [db] to [db'] the lease at [a] has changed from [l] to [l'], and nothing else but
    the log of the callback. *)
Record changed (db : dhcp_lease_db) (L : list Z) (a : Z) (l : dhcp_lease) (db' : dhcp_lease_db) (l' : dhcp_lease) : Prop := {
  chg_in : a ∈ L;
  chg_old : heap db !! a = Some l;
  chg_heap : heap db' = <[a := l']> (heap db);
  chg_rep : db_rep db' L;
  chg_mac : l_mac l' = l_mac l;
  chg_timeout : offer_timeout db' = offer_timeout db;
  chg_cb : expire_cb db' = expire_cb db
}.

Lemma changed_refl db L a l : db_rep db L -> heap db !! a = Some l -> changed db L a l db l.
Proof.
  intros Hr Ha. constructor; try done; [apply (rep_dom _ _ Hr); by exists l|by rewrite insert_id].
Qed.

Lemma changed_modify db L a l db1 l1 f : changed db L a l db1 l1 -> keeps f ->
  exists db2, modify a f db1 = Ok db2 /\ changed db L a l db2 (f l1) /\ expire_log db2 = expire_log db1.
Proof.
  intros [C1 C2 C3 C4 C5 C6 C7] Hf. destruct (modify_spec db1 L C4 a f C1 Hf) as (x & Hx & E & Hr). rewrite C3, lookup_insert_eq in Hx. injection Hx as <-.
  eexists. split; [exact E|]. split; [|done]. constructor; try done.
  - cbn [heap with_heap]. by rewrite C3, insert_insert_eq.
  - rewrite <- C5. apply Hf.
Qed.

Lemma rep_log db L log : db_rep db L -> db_rep (with_log log db) L.
Proof. by intros [H1 H2 H3 H4 H5 H6 H7]. Qed.

Lemma rep_count_lookup db L b : db_rep db L -> db_rep (count_lookup b db) L.
Proof. by intros [H1 H2 H3 H4 H5 H6 H7]. Qed.

Lemma rep_notify db L a : db_rep db L -> db_rep (notify a db) L.
Proof. intros H. unfold notify. destruct (expire_cb db); [by apply rep_log|done]. Qed.

Lemma changed_notify db L a l db1 l1 b : changed db L a l db1 l1 -> changed db L a l (notify b db1) l1.
Proof.
  intros C. unfold notify. destruct (expire_cb db1); [|done]. destruct C as [C1 C2 C3 C4 C5 C6 C7]. constructor; try done. by apply rep_log.
Qed.

Lemma changed_view db L a l db' l' : db_rep db L -> changed db L a l db' l' -> view db' = <[l_mac l := content l']> (view db).
Proof.
  intros Hr C. rewrite <- (chg_mac _ _ _ _ _ _ C). eapply view_insert; [exact Hr|apply (chg_rep _ _ _ _ _ _ C)|apply (chg_heap _ _ _ _ _ _ C)|].
  intros x Hx. rewrite (chg_old _ _ _ _ _ _ C) in Hx. injection Hx as <-. by rewrite (chg_mac _ _ _ _ _ _ C).
Qed.

#[export] Instance lease_action_eq_dec : EqDecision lease_action.
Proof. solve_decision. Defined.

(** ** The operations on a lease *)

Inductive lease_update :=
| UBind (secs : Z) | URelease | UDecline | URenew (secs : Z) | UExpire | UHostname (h : option (list Z))
| UClientId (id : option (list Z)) (len : Z) | UTime (secs : Z) | UEvent (e : dhcp_event) (ctx : option Z).

Definition run_update (now : Z) (u : lease_update) (db : dhcp_lease_db) (a : Z) : outcome (Z * dhcp_lease_db) :=
  match u with
  | UBind s => dhcp_lease_bind now db a s
  | URelease => dhcp_lease_release db a
  | UDecline => dhcp_lease_decline db a
  | URenew s => dhcp_lease_renew now db a s
  | UExpire => dhcp_lease_expire db a
  | UHostname h => dhcp_lease_set_hostname db a h
  | UClientId id len => dhcp_lease_set_client_id db a id len
  | UTime s => dhcp_lease_update_time db a s
  | UEvent e ctx => dhcp_lease_transition_ex now db a e ctx
  end.

(** What the fields that are written to by position hold. *)
Record lease_wf (l : dhcp_lease) : Prop := {
  wf_id : length (client_id l) = 64%nat;
  wf_id_len : 0 <= client_id_len l <= 64;
  wf_host : length (l_hostname l) = 64%nat;
  wf_host_end : l_hostname l !! 63%nat = Some 0;
  wf_state : 0 <= state l < DHCP_LEASE_NUM_STATES
}.

(** The caller passes as many bytes as it says, and no event that reclaims the lease, which
    would clear the MAC address that it is hashed by. *)
Definition update_ok (u : lease_update) (l : dhcp_lease) : Prop :=
  match u with
  | UClientId (Some d) len => len <= Z.of_nat (length d)
  | UEvent DHCP_EVT_TIMEOUT _ => state l <> DHCP_LEASE_EXPIRED /\ state l <> DHCP_LEASE_DECLINED
  | _ => True
  end.

Definition spec_client_id (id : option (list Z)) (len : Z) (l : dhcp_lease) : dhcp_lease :=
  match id with
  | Some d =>
    if 0 <? len then
      let n := Z.to_nat (Z.min len 64) in
      with_ident (l_mac l) (take n d ++ drop n (client_id l)) (Z.min len 64) (l_hostname l) l
    else with_ident (l_mac l) (client_id l) 0 (l_hostname l) l
  | None => with_ident (l_mac l) (client_id l) 0 (l_hostname l) l
  end.

Definition spec_hostname (h : option (list Z)) (l : dhcp_lease) : dhcp_lease :=
  with_ident (l_mac l) (client_id l) (client_id_len l) match h with Some h => strncpy h 63 ++ [0] | None => 0 :: drop 1 (l_hostname l) end l.

(** A transition on the fields of the lease: the times the action and the new state set. *)
Definition spec_event (now : Z) (e : dhcp_event) (ctx : option Z) (l : dhcp_lease) : Z * dhcp_lease :=
  match g_trans_table (state l) e with
  | None => (-1, l)
  | Some (s, act, _) =>
    let l1 := match act with
              | action_start_offer => with_offer now (l_xid l) l
              | action_bind_lease | action_renew_lease => timed now (default (lease_time l) ctx) l
              | action_release_lease => with_times (lease_time l) 0 0 l
              | action_timeout_offer => with_offer 0 0 l
              | _ => l
              end in
    let l2 := with_state s l1 in
    (0, if s =? DHCP_LEASE_FREE then with_expire 0 l2
        else if s =? DHCP_LEASE_DECLINED then with_expire (now +64 3600000) l2 else l2)
  end.

Definition spec_update (now : Z) (u : lease_update) (l : dhcp_lease) : Z * dhcp_lease :=
  match u with
  | UBind s => if (state l =? DHCP_LEASE_OFFERED) || (state l =? DHCP_LEASE_BOUND) then (0, with_state DHCP_LEASE_BOUND (timed now s l)) else (-1, l)
  | URelease => (0, with_state DHCP_LEASE_FREE (with_expire 0 l))
  | UDecline => (0, with_state DHCP_LEASE_DECLINED l)
  | URenew s => if state l =? DHCP_LEASE_BOUND then (0, timed now s l) else (-1, l)
  | UExpire => (0, with_state DHCP_LEASE_EXPIRED l)
  | UHostname h => (0, spec_hostname h l)
  | UClientId id len => (0, spec_client_id id len l)
  | UTime s => (0, with_times s (start_time l) (start_time l +64 (s *64 1000)) l)
  | UEvent e ctx => spec_event now e ctx l
  end.

(** *** The updates implement their specification *)

Definition update_goal (now : Z) (u : lease_update) (db : dhcp_lease_db) (L : list Z) (a : Z) (l : dhcp_lease) : Prop :=
  exists db', run_update now u db a = Ok ((spec_update now u l).1, db') /\ changed db L a l db' (spec_update now u l).2.

Lemma set_lease_spec db L a l f l' : db_rep db L -> heap db !! a = Some l -> keeps f -> f l = l' ->
  exists db', set_lease db a f = Ok (0, db') /\ changed db L a l db' l'.
Proof.
  intros Hr Ha Hf <-. unfold set_lease. destruct (changed_modify db L a l db l f (changed_refl db L a l Hr Ha) Hf) as (db' & -> & C & _).
  by exists db'.
Qed.

Section updates.
Context (now : Z) (db : dhcp_lease_db) (L : list Z) (a : Z) (l : dhcp_lease).
Hypothesis (Hr : db_rep db L) (Ha : heap db !! a = Some l) (Hw : lease_wf l).

Lemma set_client_id_spec id len : update_ok (UClientId id len) l -> update_goal now (UClientId id len) db L a l.
Proof.
  intros Hok. unfold update_goal, run_update, dhcp_lease_set_client_id. rewrite Ha. cbn [of_option obind spec_update fst snd]. unfold spec_client_id.
  destruct id as [d|]; [|by apply set_lease_spec]. destruct (Z.ltb_spec 0 len) as [Hlen|]; [|by apply set_lease_spec]. cbn [update_ok] in Hok.
  replace (if 64 <? len then 64 else len) with (Z.min len 64) by (destruct (Z.ltb_spec 64 len); lia).
  rewrite load_ok by lia. cbn [obind]. cbn [Z.to_nat drop].
  rewrite store_ok by (rewrite ?length_take; pose proof (wf_id _ Hw); lia). cbn [obind].
  apply set_lease_spec; [done..|]. f_equal. cbn [Z.to_nat]. rewrite length_take, drop_0.
  replace (Z.to_nat (Z.min len 64) `min` length d)%nat with (Z.to_nat (Z.min len 64)) by lia. done.
Qed.

Ltac update_step C :=
  match type of C with changed ?db ?L ?a ?l ?db1 ?l1 =>
    match goal with |- context [modify a ?f db1] =>
      let C' := fresh C in
      destruct (changed_modify db L a l db1 l1 f C) as (? & -> & C' & _); [by intros []|]; cbn [obind]; cbn beta in C'; clear C; rename C' into C
    end
  end.

Definition entered (s : Z) (l : dhcp_lease) : dhcp_lease :=
  if s =? DHCP_LEASE_FREE then with_expire 0 l else if s =? DHCP_LEASE_OFFERED then with_offer now (l_xid l) l
  else if s =? DHCP_LEASE_DECLINED then with_expire (now +64 3600000) l else l.

Lemma enter_spec db1 l1 s : changed db L a l db1 l1 ->
  exists db', (let! db := modify a (with_state s) db1 in let! db := on_enter now s db a in Ok (0, db)) = Ok (0, db') /\
    changed db L a l db' (entered s (with_state s l1)).
Proof.
  intros C. update_step C. unfold on_enter, entered. destruct (s =? DHCP_LEASE_FREE); [update_step C; by eexists|].
  destruct (s =? DHCP_LEASE_OFFERED); [update_step C; by eexists|]. destruct (Z.eqb_spec s DHCP_LEASE_EXPIRED) as [->|].
  - eexists. split; [done|]. by apply changed_notify.
  - destruct (s =? DHCP_LEASE_DECLINED); [update_step C; by eexists|by eexists].
Qed.

(** The rows and columns of the table. *)
Lemma table_case s e n act fl : g_trans_table s e = Some (n, act, fl) ->
  0 <= n < DHCP_LEASE_NUM_STATES /\
  match act with
  | action_start_offer => n = DHCP_LEASE_OFFERED
  | action_decline_lease => n = DHCP_LEASE_DECLINED
  | action_reclaim_expired => e = DHCP_EVT_TIMEOUT /\ (s = DHCP_LEASE_EXPIRED \/ s = DHCP_LEASE_DECLINED)
  | _ => n <> DHCP_LEASE_OFFERED /\ n <> DHCP_LEASE_DECLINED
  end.
Proof.
  unfold g_trans_table.
  repeat match goal with |- context [s =? ?k] => destruct (Z.eqb_spec s k) end; [..|done];
    destruct e; cbn; intros [= <- <- _]; (split; [by vm_compute|]); try done; (split; [done|]); first [done | by left | by right].
Qed.

Lemma transition_spec e ctx : update_ok (UEvent e ctx) l -> update_goal now (UEvent e ctx) db L a l.
Proof.
  intros Hok. unfold update_goal, run_update, dhcp_lease_transition_ex. rewrite Ha. cbn [of_option obind spec_update]. pose proof (wf_state _ Hw) as Hs.
  destruct (Z.leb_spec DHCP_LEASE_NUM_STATES (state l)); [lia|]. unfold spec_event.
  destruct (g_trans_table (state l) e) as [[[s act] flags]|] eqn:Et; [|exists db; split; [done|by apply changed_refl]].
  pose proof (changed_refl db L a l Hr Ha) as C. apply table_case in Et as [_ Et].
  destruct (decide (act = action_reclaim_expired)) as [->|Hact]; [destruct Et as [-> ?]; cbn [update_ok] in Hok; tauto|].
  destruct act; try done; cbn [run_action]; first [update_step C | apply (changed_notify _ _ _ _ _ _ a) in C; cbn [obind]];
    destruct (enter_spec _ _ s C) as (db' & E & C'); exists db'; (split; [exact E|]); unfold entered in C';
    first [subst s; exact C' | rewrite (proj2 (Z.eqb_neq _ _) (proj1 Et)) in C'; exact C'].
Qed.

Lemma update_spec u : update_ok u l -> update_goal now u db L a l.
Proof.
  intros Hok. destruct u; try by apply set_lease_spec.
  - unfold update_goal, run_update, dhcp_lease_bind. rewrite Ha. cbn [of_option obind spec_update]. rewrite <- negb_orb.
    destruct (_ || _); cbn [negb]; [by apply set_lease_spec|]. exists db. split; [done|by apply changed_refl].
  - unfold update_goal, run_update, dhcp_lease_renew. rewrite Ha. cbn [of_option obind spec_update].
    destruct (_ =? _); cbn [negb]; [by apply set_lease_spec|]. exists db. split; [done|by apply changed_refl].
  - unfold update_goal, run_update, dhcp_lease_expire. pose proof (changed_refl db L a l Hr Ha) as C. update_step C. eexists. split; [done|]. by apply changed_notify.
  - by apply set_client_id_spec.
  - by apply transition_spec.
Qed.

(** The updates keep the fields well formed, and leave the links out of account. *)
Lemma wf_same l' : client_id l' = client_id l -> client_id_len l' = client_id_len l -> l_hostname l' = l_hostname l ->
  0 <= state l' < DHCP_LEASE_NUM_STATES -> lease_wf l'.
Proof. intros E1 E2 E3 Hs. destruct Hw as [W1 W2 W3 W4 W5]. constructor; rewrite ?E1, ?E2, ?E3; assumption. Qed.

Lemma update_wf u : update_ok u l -> lease_wf (spec_update now u l).2.
Proof.
  intros Hok. pose proof (wf_state _ Hw) as Hs. destruct u as [s| | |s| |h|id len|s|e ctx]; cbn [spec_update snd].
  - destruct (_ || _); [|done]. by apply wf_same.
  - by apply wf_same.
  - by apply wf_same.
  - destruct (_ =? _); [|done]. by apply wf_same.
  - by apply wf_same.
  - constructor; [apply Hw|apply Hw|..|apply Hw]; cbn [l_hostname spec_hostname with_ident]; destruct h as [h|].
    + rewrite length_app, length_strncpy by lia. reflexivity.
    + cbn [length]. rewrite length_drop, (wf_host _ Hw). reflexivity.
    + rewrite lookup_app_r by (rewrite length_strncpy by lia; lia). by rewrite length_strncpy by lia.
    + change (drop 1 (l_hostname l) !! 62%nat = Some 0). rewrite lookup_drop. apply (wf_host_end _ Hw).
  - assert (forall n, 0 <= n <= 64 -> lease_wf (with_ident (l_mac l) (client_id l) n (l_hostname l) l)) as H0.
    { intros n Hn. constructor; try apply Hw. done. }
    destruct id as [d|]; cbn [spec_client_id]; [|apply H0; lia]. destruct (Z.ltb_spec 0 len); [|apply H0; lia]. cbn [update_ok] in Hok.
    constructor; cbn [client_id client_id_len with_ident l_hostname state]; try apply Hw; [|lia].
    rewrite length_app, length_take, length_drop, (wf_id _ Hw). lia.
  - by apply wf_same.
  - unfold spec_event. destruct (g_trans_table _ _) as [[[s act] fl]|] eqn:Et; [|done]. apply table_case in Et as [Hn _]. cbn [snd].
    destruct act, (s =? DHCP_LEASE_FREE), (s =? DHCP_LEASE_DECLINED); by apply wf_same.
Qed.
End updates.

Lemma spec_update_content now u l : spec_update now u (content l) = (fst (spec_update now u l), content (snd (spec_update now u l))).
Proof.
  destruct u as [s| | |s| |h|id len|s|e ctx]; cbn [spec_update fst snd]; try done.
  - change (state (content l)) with (state l). by destruct (_ || _).
  - change (state (content l)) with (state l). by destruct (_ =? _).
  - unfold spec_client_id. destruct id; [|done]. by destruct (_ <? _).
  - unfold spec_event. change (state (content l)) with (state l). destruct (g_trans_table (state l) e) as [[[s act] fl]|]; [|done].
    by destruct act; cbn [fst snd]; destruct (s =? DHCP_LEASE_FREE), (s =? DHCP_LEASE_DECLINED).
Qed.

