(* ===== verification/DhcpLeaseRun.v ===== *)
(** * Histories of lease operations

    Any sequence of operations on a new lease database runs without an invalid access, and
    the leases after it are those of the same operations on a map from MAC addresses. *)

From S2P Require Import Prelude Common Bytes Keyed Links Chains DhcpLease DhcpLeaseRep DhcpLeaseSpec.

(** The database as an operation finds it and leaves it. *)
Definition db_ok (db : dhcp_lease_db) : Prop :=
  (exists L, db_rep db L) /\ forall m c, view db !! m = Some c -> lease_wf c.

Lemma lease_wf_content l : lease_wf (content l) <-> lease_wf l.
Proof. split; intros [H1 H2 H3 H4 H5]; by constructor. Qed.

Lemma heap_wf db L a l : db_rep db L -> (forall m c, view db !! m = Some c -> lease_wf c) -> heap db !! a = Some l -> lease_wf l.
Proof. intros Hr Hw Ha. apply lease_wf_content. apply (Hw (l_mac l)). apply (view_lookup _ _ Hr). by exists a, l. Qed.

Lemma wf_insert (m : gmap (list Z) dhcp_lease) k c : (forall j x, m !! j = Some x -> lease_wf x) -> lease_wf c -> forall j x, <[k := c]> m !! j = Some x -> lease_wf x.
Proof. intros Hw Hc j x [[_ <-]|[_ H]]%lookup_insert_Some; [done|by eapply Hw]. Qed.

Lemma new_lease_wf ip mac : lease_wf (new_lease ip mac).
Proof. by constructor. Qed.

(** The lease with a MAC address is found. *)
Lemma find_view db L mac : db_rep db L ->
  exists r, dhcp_lease_find_by_mac db mac = Ok (r, count_lookup (found r) db) /\
    match r with
    | Some a => exists l, heap db !! a = Some l /\ l_mac l = mac /\ view db !! mac = Some (content l)
    | None => view db !! mac = None
    end.
Proof.
  intros Hr. destruct (find_by_mac_spec db L Hr mac) as (r & E & H). exists r. split; [done|]. destruct r as [a|].
  - destruct H as (_ & l & Ha & Hm). exists l. split; [done|]. split; [done|]. apply (view_lookup _ _ Hr). by exists a, l.
  - by apply (view_none _ _ Hr).
Qed.

(** ** Creating leases *)

Definition bound (now ip secs : Z) (l : dhcp_lease) : dhcp_lease := with_state DHCP_LEASE_BOUND (timed now secs (with_ip ip l)).

(** Change the lease of a MAC address, or add one where there is room and memory. *)
Definition upsert (f : dhcp_lease -> dhcp_lease) (mac : list Z) (room : bool) (m : gmap (list Z) dhcp_lease) : Z * gmap (list Z) dhcp_lease :=
  match m !! mac with
  | Some l => (0, <[mac := f l]> m)
  | None => if room then (0, <[mac := f (new_lease 0 mac)]> m) else (-1, m)
  end.

Definition code (r : outcome (option Z * dhcp_lease_db)) : outcome (Z * dhcp_lease_db) :=
  let! (o, db) := r in Ok (match o with Some _ => 0 | None => -1 end, db).

Definition alloc_ok (alloc : option Z) (db : dhcp_lease_db) : Prop :=
  match alloc with Some a => a <> 0 /\ heap db !! a = None | None => True end.

Definition full (m : gmap (list Z) dhcp_lease) : bool := DHCP_LEASE_MAX <=? Z.of_nat (size m).

(** The record that is in the database after an operation refines the map [m]. *)
Definition implements (db : dhcp_lease_db) (r : outcome (Z * dhcp_lease_db)) (spec : Z * gmap (list Z) dhcp_lease) : Prop :=
  exists db', r = Ok (spec.1, db') /\ db_ok db' /\ view db' = spec.2 /\ offer_timeout db' = offer_timeout db.

(** The same for a function that returns the lease it created or updated. *)
Definition returns (db : dhcp_lease_db) (r : outcome (option Z * dhcp_lease_db)) (mac : list Z) (spec : Z * gmap (list Z) dhcp_lease) : Prop :=
  exists o db', r = Ok (o, db') /\ db_ok db' /\ view db' = spec.2 /\ offer_timeout db' = offer_timeout db /\
    match o with
    | Some a => spec.1 = 0 /\ exists l, heap db' !! a = Some l /\ l_mac l = mac /\ view db' !! mac = Some (content l)
    | None => spec.1 = -1
    end.

Lemma returns_code db r mac spec : returns db r mac spec -> implements db (code r) spec.
Proof.
  intros (o & db' & -> & Hok & Ev & Et & Ho). exists db'. cbn [code obind]. split; [|done]. destruct o; [destruct Ho as [-> _]|rewrite Ho]; done.
Qed.

(** The part the two functions share. *)
Lemma upsert_spec db L mac f (room : bool) alloc : db_rep db L -> (forall m c, view db !! m = Some c -> lease_wf c) -> alloc_ok alloc db ->
  keeps f -> (forall l, lease_wf l -> lease_wf (f l)) -> (forall l, content (f l) = f (content l)) ->
  returns db
    (let! (existing, db) := dhcp_lease_find_by_mac db mac in
           match existing with
           | Some a => let! db := modify a f db in Ok (Some a, db)
           | None => if room then match alloc with
                                  | None => Ok (None, db)
                                  | Some a => let! db := insert_lease db a (f (new_lease 0 mac)) in Ok (Some a, db)
                                  end else Ok (None, db)
           end) mac
    (upsert f mac (room && found alloc) (view db)).
Proof.
  intros Hr Hw Hal Hk Hf Hc. destruct (find_view db L mac Hr) as ([a|] & -> & Hv); cbn [obind]; unfold returns, upsert.
  - destruct Hv as (l & Ha & <- & ->). pose proof (rep_count_lookup _ _ (found (Some a)) Hr) as Hr1.
    destruct (changed_modify _ L a l _ l f (changed_refl _ L a l Hr1 Ha) Hk) as (db' & -> & C & _). cbn [obind fst snd].
    exists (Some a), db'. split; [done|]. assert (view db' = <[l_mac l := f (content l)]> (view db)) as Ev by (rewrite <- Hc; apply (changed_view _ L a l db' (f l) Hr1 C)).
    split; [split; [exists L; apply (chg_rep _ _ _ _ _ _ C)|rewrite Ev; apply wf_insert; [done|]; apply Hf, lease_wf_content; by apply (heap_wf db L a l)]|].
    split; [done|]. split; [apply (chg_timeout _ _ _ _ _ _ C)|]. split; [done|]. exists (f l). rewrite (chg_heap _ _ _ _ _ _ C), lookup_insert_eq, Ev, lookup_insert_eq, Hc.
    split; [done|]. split; [apply Hk|done].
  - rewrite Hv. pose proof (rep_count_lookup _ _ (found (@None Z)) Hr) as Hr1.
    assert (returns db (Ok (None, count_lookup (found (@None Z)) db)) mac (-1, view db)) as Hno.
    { eexists None, _. split; [done|]. split; [split; [by exists L|done]|done]. }
    destruct room; [|exact Hno]. destruct alloc as [a|]; [|exact Hno]. destruct Hal as [Ha0 Ha].
    destruct (insert_spec (count_lookup (found (@None Z)) db) L a (f (new_lease 0 mac)) Hr1 Ha Ha0) as (db' & l' & -> & Hr' & Hh & El & Ht & _).
    { intros b y Hb Hm. destruct (Hk (new_lease 0 mac)) as (_ & _ & Hm'). rewrite Hm' in Hm. by eapply (proj1 (view_none db L Hr mac) Hv b y Hb). }
    cbn [obind fst snd]. exists (Some a), db'. split; [done|].
    assert (content l' = f (new_lease 0 mac)) as Ec by (rewrite El; change (content (f (new_lease 0 mac)) = f (new_lease 0 mac)); by rewrite Hc).
    assert (l_mac l' = mac) as Em by (rewrite El; cbn; apply Hk).
    assert (view db' = <[mac := f (new_lease 0 mac)]> (view db)) as Ev.
    { rewrite <- Em at 1. rewrite <- Ec. apply (view_insert (count_lookup (found (@None Z)) db) L db' (a :: L) a l' Hr1 Hr' Hh). intros l Hl. change (heap db !! a = Some l) in Hl. congruence. }
    split; [split; [by exists (a :: L)|]; rewrite Ev; apply wf_insert; [done|]; apply Hf, new_lease_wf|]. split; [done|]. split; [done|]. split; [done|].
    exists l'. rewrite Hh, lookup_insert_eq, Ev, lookup_insert_eq, Ec. done.
Qed.

Lemma create_spec now alloc db ip mac secs : db_ok db -> alloc_ok alloc db ->
  returns db (dhcp_lease_create now alloc db ip mac secs) mac
    (if full (view db) then (-1, view db) else upsert (bound now ip secs) mac (found alloc) (view db)).
Proof.
  intros [[L Hr] Hw] Hal. unfold dhcp_lease_create, full. rewrite (view_count db L Hr). destruct (_ <=? _).
  - exists None, db. split; [done|]. split; [split; [by exists L|done]|done].
  - apply (upsert_spec db L mac (bound now ip secs) true alloc Hr Hw Hal); [done| |done].
    intros l Hl. by apply (wf_same l Hl).
Qed.

Lemma create_offered_spec now alloc db ip mac xid : db_ok db -> alloc_ok alloc db ->
  returns db (dhcp_lease_create_offered now alloc db ip mac xid) mac
    (upsert (fun l => offered now (offer_timeout db) xid (with_ip ip l)) mac (negb (full (view db)) && found alloc) (view db)).
Proof.
  intros [[L Hr] Hw] Hal. unfold dhcp_lease_create_offered, full.
  pose proof (upsert_spec db L mac (fun l => offered now (offer_timeout db) xid (with_ip ip l)) (negb (DHCP_LEASE_MAX <=? lease_count db)) alloc Hr Hw Hal) as H.
  rewrite (view_count db L Hr) in H. destruct (find_view db L mac Hr) as ([a|] & E & _); rewrite E in *; cbn [obind] in *.
  - apply H; [done| |done]. intros l Hl. by apply (wf_same l Hl).
  - cbn [count_lookup lease_count offer_timeout]. rewrite (view_count db L Hr). destruct (_ <=? _); (apply H; [done| |done]); intros l Hl; by apply (wf_same l Hl).
Qed.

(** ** Changing and deleting the lease of a MAC address *)

Definition on_mac (f : dhcp_lease_db -> Z -> outcome (Z * dhcp_lease_db)) (mac : list Z) (db : dhcp_lease_db) : outcome (Z * dhcp_lease_db) :=
  let! (o, db) := dhcp_lease_find_by_mac db mac in match o with None => Ok (-1, db) | Some a => f db a end.

Lemma on_mac_spec f mac db L spec : db_rep db L -> db_ok db -> 
  (forall db1 a l, view db1 = view db -> offer_timeout db1 = offer_timeout db -> db_rep db1 L -> heap db1 !! a = Some l -> l_mac l = mac ->
     lease_wf l -> view db !! mac = Some (content l) -> implements db (f db1 a) (spec (content l))) ->
  implements db (on_mac f mac db) (match view db !! mac with Some l => spec l | None => (-1, view db) end).
Proof.
  intros Hr [_ Hw] Hf. unfold on_mac. destruct (find_view db L mac Hr) as ([a|] & -> & Hv); cbn [obind].
  - destruct Hv as (l & Ha & Hm & Ev). rewrite Ev. apply Hf; try done; [by apply rep_count_lookup|]. by apply (heap_wf db L a l).
  - rewrite Hv. eexists. split; [done|]. split; [split; [exists L; by apply rep_count_lookup|done]|done].
Qed.

Lemma delete_mac_spec mac db : db_ok db ->
  implements db (dhcp_lease_delete_by_mac db mac) (match view db !! mac with Some _ => (0, delete mac (view db)) | None => (-1, view db) end).
Proof.
  intros Hok. pose proof Hok as [[L Hr] Hw]. unfold dhcp_lease_delete_by_mac, delete_found.
  apply (on_mac_spec dhcp_lease_delete mac db L (fun _ => (0, delete mac (view db))) Hr Hok).
  intros db1 a l Ev Ht Hr1 Ha <- Hl Hv. destruct (list_elem_of_split L a) as (L1 & L2 & ->); [apply (rep_dom _ _ Hr1); by exists l|].
  destruct (delete_spec db1 L1 a L2 Hr1) as (db' & E & Hr' & Hs & Ht' & _). exists db'. split; [done|].
  assert (view db' = delete (l_mac l) (view db)) as Ed by (rewrite <- Ev; eapply view_delete; [exact Hr1|exact Hr'|exact Ha|exact Hs]).
  split; [|split; [done|congruence]]. split; [by eexists|]. rewrite Ed. intros m c [_ H]%lookup_delete_Some. by eapply Hw.
Qed.

Lemma update_mac_spec now u mac db : db_ok db -> (forall l, view db !! mac = Some l -> update_ok u l) ->
  implements db (on_mac (run_update now u) mac db)
    (match view db !! mac with Some l => ((spec_update now u l).1, <[mac := (spec_update now u l).2]> (view db)) | None => (-1, view db) end).
Proof.
  intros Hok Hu. pose proof Hok as [[L Hr] Hw].
  apply (on_mac_spec (run_update now u) mac db L (fun l => ((spec_update now u l).1, <[mac := (spec_update now u l).2]> (view db))) Hr Hok).
  intros db1 a l Ev Ht Hr1 Ha <- Hl Hv. assert (update_ok u l) as Hul by (specialize (Hu _ Hv); by destruct u as [| | | | | |[]| |[]]).
  destruct (update_spec now db1 L a l Hr1 Ha Hl u Hul) as (db' & E & C). rewrite spec_update_content. cbn [fst snd]. exists db'. split; [exact E|].
  pose proof (changed_view db1 L a l db' _ Hr1 C) as Ev'. rewrite Ev in Ev'.
  split; [|split; [exact Ev'|rewrite (chg_timeout _ _ _ _ _ _ C); exact Ht]]. split; [exists L; apply (chg_rep _ _ _ _ _ _ C)|]. rewrite Ev'. apply wf_insert; [done|].
  apply lease_wf_content. by apply update_wf.
Qed.


(** ** Expiration *)

Definition expire1 (now : Z) (l : dhcp_lease) : dhcp_lease := if due now l then with_state DHCP_LEASE_EXPIRED l else l.

Definition due_at (now : Z) (h : gmap Z dhcp_lease) (a : Z) : Prop := match h !! a with Some l => due now l = true | None => False end.
#[export] Instance due_at_dec now h a : Decision (due_at now h a).
Proof. unfold due_at. destruct (h !! a); apply _. Defined.

(** The heap, the log and the rest after the leases [l] of [db] have been looked at. *)
Record expired_to (now : Z) (L l : list Z) (db db' : dhcp_lease_db) : Prop := {
  ex_rep : db_rep db' L;
  ex_heap : forall b, heap db' !! b = if decide (b ∈ l) then expire1 now <$> heap db !! b else heap db !! b;
  ex_log : expire_log db' = expire_log db ++ (if expire_cb db then filter (due_at now (heap db)) l else []);
  ex_timeout : offer_timeout db' = offer_timeout db;
  ex_cb : expire_cb db' = expire_cb db
}.

Lemma due_filter_same now h h' (l : list Z) : (forall t, t ∈ l -> h' !! t = h !! t) -> filter (due_at now h') l = filter (due_at now h) l.
Proof.
  induction l as [|t l IH]; intros H; [done|]. rewrite !filter_cons, IH by (intros; apply H; by right).
  assert (due_at now h' t <-> due_at now h t) by (unfold due_at; by rewrite (H t ltac:(left))).
  destruct (decide (due_at now h' t)), (decide (due_at now h t)); tauto || done.
Qed.

Lemma expired_trans now L a l db db1 db' : a ∉ l -> expired_to now L [a] db db1 -> expired_to now L l db1 db' -> expired_to now L (a :: l) db db'.
Proof.
  intros Ha [R1 H1 G1 T1 C1] [R2 H2 G2 T2 C2].
  assert (forall t, t ∈ l -> heap db1 !! t = heap db !! t) as Hold by (intros t Ht; rewrite H1, decide_False; [done|]; intros ->%list_elem_of_singleton; done).
  constructor; [done| | |congruence..].
  - intros b. rewrite H2. destruct (decide (b ∈ l)) as [Hb|Hb].
    + rewrite Hold, decide_True by (try done; by right). done.
    + rewrite H1. destruct (decide (b ∈ [a])) as [->%list_elem_of_singleton|Hn]; [rewrite decide_True by left; done|].
      rewrite decide_False; [done|]. intros [->|?]%elem_of_cons; [apply Hn; left|done].
  - rewrite G2, G1, C1, <- (assoc_L (++)). f_equal. destruct (expire_cb db); [|done]. change (a :: l) with ([a] ++ l). rewrite filter_app. f_equal.
    by apply due_filter_same.
Qed.

Lemma expire_body_spec now n db L a l : db_rep db L -> heap db !! a = Some l ->
  exists db1, expire_body now n db a l = Ok (false, n + Z.of_nat (length (filter (due_at now (heap db)) [a])), db1) /\ expired_to now L [a] db db1.
Proof.
  intros Hr Hl. unfold expire_body. rewrite filter_cons, filter_nil. assert (due_at now (heap db) a <-> due now l = true) as Hd by (unfold due_at; by rewrite Hl).
  pose proof (changed_refl db L a l Hr Hl) as C0. destruct (due now l) eqn:D.
  - rewrite decide_True by tauto. unfold dhcp_lease_expire.
    destruct (changed_modify db L a l db l (with_state DHCP_LEASE_EXPIRED) C0 ltac:(done)) as (db1 & -> & C & Hg). cbn [obind].
    eexists. split; [done|]. pose proof (changed_notify _ _ _ _ _ _ a C) as [C1 C2 C3 C4 C5 C6 C7]. constructor; try done.
    + intros b. rewrite C3. destruct (decide (b ∈ [a])) as [->%list_elem_of_singleton|Hb]; [rewrite lookup_insert_eq, Hl; cbn; unfold expire1; by rewrite D|].
      rewrite lookup_insert_ne; [done|]. rewrite list_elem_of_singleton in Hb. congruence.
    + rewrite filter_cons, filter_nil, decide_True by tauto. unfold notify. rewrite (chg_cb _ _ _ _ _ _ C). destruct (expire_cb db); [cbn; by rewrite Hg|by rewrite Hg, app_nil_r].
  - rewrite decide_False by (rewrite Hd; done). exists db. split; [cbn; do 3 f_equal; lia|]. constructor; try done.
    + intros b. destruct (decide (b ∈ [a])) as [->%list_elem_of_singleton|]; [|done]. rewrite Hl. cbn. unfold expire1. by rewrite D.
    + rewrite filter_cons, filter_nil, decide_False by (rewrite Hd; done). destruct (expire_cb db); by rewrite app_nil_r.
Qed.

Lemma expirations_run now L2 : forall L1 db n fuel, db_rep db (L1 ++ L2) -> (length L2 < fuel)%nat ->
  exists db', for_leases (expire_body now) fuel n db (default 0 (head L2)) = Ok (n + Z.of_nat (length (filter (due_at now (heap db)) L2)), db') /\
    expired_to now (L1 ++ L2) L2 db db'.
Proof.
  induction L2 as [|a L2 IH]; intros L1 db n fuel Hr Hf.
  - exists db. split; [destruct fuel; cbn; do 2 f_equal; lia|]. constructor; try done.
    destruct (expire_cb db); by rewrite app_nil_r.
  - destruct fuel as [|fuel]; [cbn in Hf; lia|]. cbn [for_leases head default from_option id].
    assert (a ∈ L1 ++ a :: L2) as Hin by (apply elem_of_app; right; left). destruct (rep_live db _ Hr a Hin) as [Ha0 [l Hl]].
    destruct (Z.eqb_spec a 0); [done|]. rewrite Hl. cbn [of_option obind]. destruct (expire_body_spec now n db _ a l Hr Hl) as (db1 & -> & X1). cbn [obind].
    rewrite (rep_next db L1 a L2 l Hr Hl). pose proof (rep_nodup _ _ Hr) as Hnd. apply NoDup_app in Hnd as (_ & _ & [HaL2 _]%NoDup_cons).
    pose proof (ex_rep _ _ _ _ _ X1) as Hr1. rewrite cons_middle, (assoc_L (++)) in Hr1.
    destruct (IH (L1 ++ [a]) db1 (n + Z.of_nat (length (filter (due_at now (heap db)) [a]))) fuel Hr1 ltac:(cbn in Hf; lia)) as (db' & E & X2).
    rewrite <- (assoc_L (++)), <- cons_middle in X2. exists db'. split; [|by eapply expired_trans]. rewrite E. do 2 f_equal.
    change (a :: L2) with ([a] ++ L2). rewrite filter_app, length_app. rewrite (due_filter_same now (heap db) (heap db1) L2); [lia|].
    intros t Ht. rewrite (ex_heap _ _ _ _ _ X1), decide_False; [done|]. intros ->%list_elem_of_singleton. done.
Qed.

(** ** Removal of dead leases *)

(** The lease at [b] after the leases [l] have been looked at. *)
Definition survives (l : list Z) (h : gmap Z dhcp_lease) (b : Z) : option dhcp_lease :=
  x ← h !! b; if bool_decide (b ∈ l) && dead x then None else Some x.

Definition cleaned (l : list Z) (h h' : gmap Z dhcp_lease) : Prop :=
  forall b, match survives l h b, h' !! b with Some x, Some y => same_but_links x y | None, None => True | _, _ => False end.

Lemma same_but_links_dead x y : same_but_links x y -> dead y = dead x.
Proof. by intros ->. Qed.

Lemma cleaned_nil h h' : same_leases h h' -> cleaned [] h h'.
Proof. intros Hs b. unfold survives. specialize (Hs b). by destruct (h !! b), (h' !! b). Qed.

Lemma cleaned_cons a l h h1 h' x : a ∉ l -> h !! a = Some x -> same_leases (if dead x then delete a h else h) h1 -> cleaned l h1 h' -> cleaned (a :: l) h h'.
Proof.
  intros Ha Hx Hs Hc b. specialize (Hs b). specialize (Hc b). unfold survives in *.
  destruct (decide (b = a)) as [->|Hne].
  - rewrite Hx in *. rewrite bool_decide_eq_true_2 by left. rewrite bool_decide_eq_false_2 in Hc by done. cbn in *. destruct (dead x).
    + rewrite lookup_delete_eq in Hs. by destruct (h1 !! a), (h' !! a).
    + rewrite Hx in Hs. destruct (h1 !! a), (h' !! a); try done. cbn in Hc. by eapply same_but_links_trans.
  - assert ((if dead x then delete a h else h) !! b = h !! b) as E by (destruct (dead x); [by rewrite lookup_delete_ne|done]). rewrite E in Hs. clear E.
    assert (bool_decide (b ∈ a :: l) = bool_decide (b ∈ l)) as -> by (apply bool_decide_ext; rewrite elem_of_cons; tauto).
    destruct (h !! b) as [y|], (h1 !! b) as [z|]; try done; cbn in *. rewrite (same_but_links_dead _ _ Hs) in Hc.
    destruct (bool_decide (b ∈ l) && dead y); [done|]. destruct (h' !! b); [|done]. by eapply same_but_links_trans.
Qed.

Record cleanup_res (n : Z) (L1 L2 : list Z) (db : dhcp_lease_db) (m : Z) (db' : dhcp_lease_db) : Prop := {
  cl_left : exists L', db_rep db' (L1 ++ L') /\ m = n + Z.of_nat (length L2) - Z.of_nat (length L');
  cl_heap : cleaned L2 (heap db) (heap db');
  cl_timeout : offer_timeout db' = offer_timeout db;
  cl_log : expire_log db' = expire_log db
}.

Lemma cleanup_body_spec n db L1 a L2 l : db_rep db (L1 ++ a :: L2) -> heap db !! a = Some l ->
  exists db1, cleanup_body n db a l = Ok (false, if dead l then n + 1 else n, db1) /\ db_rep db1 ((if dead l then L1 else L1 ++ [a]) ++ L2) /\
    same_leases (if dead l then delete a (heap db) else heap db) (heap db1) /\ offer_timeout db1 = offer_timeout db /\ expire_log db1 = expire_log db.
Proof.
  intros Hr Hl. unfold cleanup_body. destruct (dead l).
  - destruct (delete_spec db L1 a L2 Hr) as (db1 & -> & Hr1 & Hs & Ht & _ & Hg). cbn [obind]. by exists db1.
  - exists db. split; [done|]. rewrite <- (assoc_L (++)), <- cons_middle. split; [done|]. split; [|done]. intros b. destruct (heap db !! b); [apply same_but_links_refl|done].
Qed.

Lemma cleanup_run L2 : forall L1 db n fuel, db_rep db (L1 ++ L2) -> (length L2 < fuel)%nat ->
  exists m db', for_leases cleanup_body fuel n db (default 0 (head L2)) = Ok (m, db') /\ cleanup_res n L1 L2 db m db'.
Proof.
  induction L2 as [|a L2 IH]; intros L1 db n fuel Hr Hf.
  - exists n, db. split; [by destruct fuel|]. constructor; try done; [exists []; split; [done|cbn; lia]|]. apply cleaned_nil. intros b. destruct (heap db !! b); [apply same_but_links_refl|done].
  - destruct fuel as [|fuel]; [cbn in Hf; lia|]. cbn [for_leases head default from_option id].
    assert (a ∈ L1 ++ a :: L2) as Hin by (apply elem_of_app; right; left). destruct (rep_live db _ Hr a Hin) as [Ha0 [l Hl]].
    destruct (Z.eqb_spec a 0); [done|]. rewrite Hl. cbn [of_option obind]. destruct (cleanup_body_spec n db L1 a L2 l Hr Hl) as (db1 & -> & Hr1 & Hs & Ht & Hg). cbn [obind].
    rewrite (rep_next db L1 a L2 l Hr Hl). pose proof (rep_nodup _ _ Hr) as Hnd. apply NoDup_app in Hnd as (_ & _ & [HaL2 _]%NoDup_cons).
    destruct (IH _ db1 (if dead l then n + 1 else n) fuel Hr1 ltac:(cbn in Hf; lia)) as (m & db' & E & [(L' & HL' & Hm) Hc Ht' Hg']).
    exists m, db'. split; [done|]. constructor; [|by eapply cleaned_cons|congruence..]. destruct (dead l).
    + exists L'. split; [done|]. cbn [length]. lia.
    + exists (a :: L'). rewrite <- (assoc_L (++)) in HL'. split; [done|]. cbn [length]. lia.
Qed.

(** ** The loops on the abstract database *)

Definition due_leases (now : Z) (m : gmap (list Z) dhcp_lease) : gmap (list Z) dhcp_lease := filter (fun p => due now p.2 = true) m.
Definition live_leases (m : gmap (list Z) dhcp_lease) : gmap (list Z) dhcp_lease := filter (fun p => dead p.2 = false) m.

Definition mac_at (h : gmap Z dhcp_lease) (a : Z) : list Z := default [] (l_mac <$> h !! a).

Lemma due_count now db L : db_rep db L -> size (due_leases now (view db)) = length (filter (due_at now (heap db)) L).
Proof.
  intros Hr. rewrite <- size_dom, <- (length_fmap (mac_at (heap db))), <- (size_list_to_set (C := gset (list Z))).
  - f_equal. apply set_eq. intros m. rewrite elem_of_dom, elem_of_list_to_set, list_elem_of_fmap. unfold due_leases. split.
    + intros [c [Hv Hd]%map_lookup_filter_Some]. apply (view_lookup _ _ Hr) in Hv as (a & l & Ha & Hm & <-). exists a. unfold mac_at. rewrite Ha. split; [done|].
      apply list_elem_of_filter. unfold due_at. rewrite Ha. split; [done|]. apply (rep_dom _ _ Hr). by exists l.
    + intros (a & -> & [Hd Ha]%list_elem_of_filter). unfold due_at, mac_at in *. destruct (heap db !! a) as [l|] eqn:E; [|done]. exists (content l).
      apply map_lookup_filter_Some. split; [|done]. apply (view_lookup _ _ Hr). by exists a, l.
  - apply NoDup_fmap_2_strong; [|apply NoDup_filter, (rep_nodup _ _ Hr)]. intros a b [Ha _]%list_elem_of_filter [Hb _]%list_elem_of_filter.
    unfold due_at, mac_at in *. destruct (heap db !! a) as [x|] eqn:Ex; [|done]. destruct (heap db !! b) as [y|] eqn:Ey; [|done]. by apply (rep_macs _ _ Hr a b x y Ex Ey).
Qed.

Lemma expire1_mac now l : l_mac (expire1 now l) = l_mac l.
Proof. unfold expire1. by destruct (due now l). Qed.
Lemma expire1_content now l : content (expire1 now l) = expire1 now (content l).
Proof. unfold expire1. change (due now (content l)) with (due now l). by destruct (due now l). Qed.
Lemma expire1_wf now l : lease_wf l -> lease_wf (expire1 now l).
Proof. intros Hl. unfold expire1. destruct (due now l); [by apply (wf_same l Hl)|done]. Qed.

Lemma view_expired now L db db' : db_rep db L -> expired_to now L L db db' -> view db' = expire1 now <$> view db.
Proof.
  intros Hr [Hr' Hh _ _ _]. apply map_eq. intros m. apply option_eq. intros c. rewrite (view_lookup _ _ Hr'), lookup_fmap_Some. split.
  - intros (a & y & Ha & <- & <-). rewrite Hh in Ha. destruct (decide (a ∈ L)) as [_|Hn].
    + apply fmap_Some in Ha as (x & Hx & ->). exists (content x). rewrite expire1_content, expire1_mac. split; [done|]. apply (view_lookup _ _ Hr). by exists a, x.
    + destruct Hn. apply (rep_dom _ _ Hr). by exists y.
  - intros (c' & <- & (a & x & Ha & <- & <-)%(view_lookup _ _ Hr)). exists a, (expire1 now x). rewrite expire1_content, expire1_mac. split; [|done].
    rewrite Hh, Ha, decide_True; [done|]. apply (rep_dom _ _ Hr). by exists x.
Qed.

Lemma process_expirations_spec now db : db_ok db ->
  implements db (dhcp_lease_db_process_expirations now db) (Z.of_nat (size (due_leases now (view db))), expire1 now <$> view db).
Proof.
  intros [[L Hr] Hw]. unfold dhcp_lease_db_process_expirations. rewrite (chain_head _ _ _ _ (rep_all _ _ Hr)).
  destruct (expirations_run now L [] db 0 (walk_fuel db) Hr (rep_fuel db L Hr L ltac:(done))) as (db' & -> & X). exists db'.
  rewrite <- due_count by done. split; [done|]. pose proof (view_expired now L db db' Hr X) as Ev. split; [|split; [exact Ev|apply (ex_timeout _ _ _ _ _ X)]].
  split; [exists L; apply (ex_rep _ _ _ _ _ X)|]. rewrite Ev. intros m c (x & <- & Hx)%lookup_fmap_Some. eapply expire1_wf, Hw, Hx.
Qed.

Lemma view_cleaned L L' db db' : db_rep db L -> db_rep db' L' -> cleaned L (heap db) (heap db') -> view db' = live_leases (view db).
Proof.
  intros Hr Hr' Hc. apply map_eq. intros m. apply option_eq. intros c. unfold live_leases. rewrite map_lookup_filter_Some, (view_lookup _ _ Hr'), (view_lookup _ _ Hr). split.
  - intros (a & y & Ha & <- & <-). specialize (Hc a). unfold survives in Hc. rewrite Ha in Hc. destruct (heap db !! a) as [x|] eqn:Ex; [|done]. cbn in Hc.
    rewrite bool_decide_eq_true_2 in Hc by (apply (rep_dom _ _ Hr); by exists x). cbn in Hc. destruct (dead x) eqn:D; [done|].
    rewrite (same_but_links_mac _ _ Hc), (same_but_links_content _ _ Hc). split; [by exists a, x|done].
  - intros [(a & x & Ha & <- & <-) D]. specialize (Hc a). unfold survives in Hc. rewrite Ha in Hc. cbn in Hc. change (dead (content x)) with (dead x) in D.
    change (dead x = false) in D. rewrite D, andb_false_r in Hc. destruct (heap db' !! a) as [y|] eqn:Ey; [|done]. exists a, y.
    by rewrite (same_but_links_mac _ _ Hc), (same_but_links_content _ _ Hc).
Qed.

Lemma cleanup_expired_spec db : db_ok db ->
  implements db (dhcp_lease_db_cleanup_expired db) (Z.of_nat (size (view db)) - Z.of_nat (size (live_leases (view db))), live_leases (view db)).
Proof.
  intros [[L Hr] Hw]. unfold dhcp_lease_db_cleanup_expired. rewrite (chain_head _ _ _ _ (rep_all _ _ Hr)).
  destruct (cleanup_run L [] db 0 (walk_fuel db) Hr (rep_fuel db L Hr L ltac:(done))) as (n & db' & -> & [(L' & Hr' & ->) Hc Ht _]).
  pose proof (view_cleaned L L' db db' Hr Hr' Hc) as Ev. exists db'. cbn [fst snd].
  split; [rewrite <- Ev, (view_size _ _ Hr), (view_size _ _ Hr'); f_equal; f_equal; lia|]. split; [|by split]. split; [by exists L'|]. rewrite Ev.
  intros m c [Hv _]%map_lookup_filter_Some. by eapply Hw.
Qed.

(** ** Clearing *)

Lemma free_loop_run L : forall h a fuel, chain next h a L -> NoDup L -> (length L < fuel)%nat ->
  exists h', free_loop fuel h a = Ok h' /\ forall b, h' !! b = if decide (b ∈ L) then None else h !! b.
Proof.
  induction L as [|t L IH]; intros h a fuel Hc Hnd Hf.
  - cbn in Hc. subst a. exists h. split; [by destruct fuel|done].
  - destruct Hc as (-> & Ht & x & Hx & Hc). apply NoDup_cons in Hnd as [Hn Hnd]. destruct fuel as [|fuel]; [cbn in Hf; lia|]. cbn [free_loop].
    destruct (Z.eqb_spec t 0); [done|]. rewrite Hx. cbn [of_option obind].
    destruct (IH (delete t h) (next x) fuel) as (h' & E & Hh'); [|done|cbn in Hf; lia|].
    { eapply links_frame; [|exact Hc]. intros u Hu. rewrite lookup_delete_ne; [done|]. by intros ->. }
    exists h'. split; [done|]. intros b. rewrite Hh'. destruct (decide (b ∈ L)); [by rewrite decide_True by (by right)|].
    destruct (decide (b = t)) as [->|Hne]; [rewrite lookup_delete_eq, decide_True by left; done|]. rewrite lookup_delete_ne by done.
    rewrite decide_False; [done|]. by intros [->|?]%elem_of_cons.
Qed.

(** Destroying the database frees every lease. *)
Lemma free_all db L : db_rep db L -> free_loop (walk_fuel db) (heap db) (all_leases db) = Ok ∅.
Proof.
  intros Hr. destruct (free_loop_run L (heap db) (all_leases db) (walk_fuel db) (rep_all _ _ Hr) (rep_nodup _ _ Hr) (rep_fuel db L Hr L ltac:(done))) as (h' & -> & H).
  f_equal. apply map_eq. intros b. rewrite H, lookup_empty. destruct (decide (b ∈ L)) as [|Hn]; [done|]. apply eq_None_not_Some. intros Hs. apply Hn, (rep_dom _ _ Hr), Hs.
Qed.

Lemma rep_empty db : heap db = ∅ -> mac_hash db = zeros DHCP_LEASE_HASH_SIZE -> all_leases db = 0 -> lease_count db = 0 -> db_rep db [].
Proof.
  intros H1 H2 H3 H4. constructor; rewrite ?H1, ?H2, ?H3, ?H4; try done; [apply NoDup_nil_2| |].
  - intros a [x Hx]. by rewrite lookup_empty in Hx.
  - intros i p Hp. unfold zeros in Hp. apply lookup_replicate in Hp as [-> _]. done.
Qed.

Lemma clear_spec db : db_ok db -> implements db (let! db := dhcp_lease_db_clear db in Ok (0, db)) (0, ∅).
Proof.
  intros [[L Hr] _]. unfold dhcp_lease_db_clear. rewrite (free_all db L Hr). cbn [obind]. eexists. split; [done|].
  assert (view (with_lists ∅ (zeros DHCP_LEASE_HASH_SIZE) 0 0 db) = ∅) as Ev by reflexivity. split; [|by split]. split; [exists []; by apply rep_empty|]. rewrite Ev. intros m c Hm. by rewrite lookup_empty in Hm.
Qed.
