(* ===== verification/DhcpLeaseFacts.v ===== *)
(** * What the lease database guarantees

    The refinement theorem over histories, the exact effect of an expiration run, how long a
    bound lease is valid, and the reclaim action, which breaks the hash chains. *)

From S2P Require Import Prelude Common Bytes Keyed Links Chains DhcpLease DhcpLeaseRep DhcpLeaseSpec DhcpLeaseRun.

(** ** Histories *)

Inductive lease_op :=
| OpCreate (ip : Z) (mac : list Z) (secs : Z)
| OpOffer (ip : Z) (mac : list Z) (xid : Z)
| OpDelete (mac : list Z)
| OpUpdate (mac : list Z) (u : lease_update)
| OpExpirations
| OpCleanup
| OpClear.

(** A call: the time, whether calloc succeeds, the block it then returns for the heap it
    finds, and the operation. *)
Record lease_call := mkCall { at_time : Z; memory : bool; fresh_block : gmap Z dhcp_lease -> Z; op : lease_op }.

Definition calloc (c : lease_call) (h : gmap Z dhcp_lease) : option Z := if memory c then Some (fresh_block c h) else None.

(** calloc returns a new block. *)
Definition calloc_ok (c : lease_call) : Prop := forall h, fresh_block c h <> 0 /\ h !! fresh_block c h = None.

Definition run_call (c : lease_call) (db : dhcp_lease_db) : outcome (Z * dhcp_lease_db) :=
  let now := at_time c in
  let alloc := calloc c (heap db) in
  match op c with
  | OpCreate ip mac secs => code (dhcp_lease_create now alloc db ip mac secs)
  | OpOffer ip mac xid => code (dhcp_lease_create_offered now alloc db ip mac xid)
  | OpDelete mac => dhcp_lease_delete_by_mac db mac
  | OpUpdate mac u => on_mac (run_update now u) mac db
  | OpExpirations => dhcp_lease_db_process_expirations now db
  | OpCleanup => dhcp_lease_db_cleanup_expired db
  | OpClear => let! db := dhcp_lease_db_clear db in Ok (0, db)
  end.

Fixpoint run_calls (cs : list lease_call) (db : dhcp_lease_db) : outcome (list Z * dhcp_lease_db) :=
  match cs with
  | [] => Ok ([], db)
  | c :: cs => let! (r, db) := run_call c db in let! (rs, db) := run_calls cs db in Ok (r :: rs, db)
  end.

(** The same on the abstract database; [mem]: whether calloc succeeds. *)
Definition spec_call (timeout : Z) (mem : bool) (now : Z) (o : lease_op) (m : gmap (list Z) dhcp_lease) : Z * gmap (list Z) dhcp_lease :=
  match o with
  | OpCreate ip mac secs => if full m then (-1, m) else upsert (bound now ip secs) mac mem m
  | OpOffer ip mac xid => upsert (fun l => offered now timeout xid (with_ip ip l)) mac (negb (full m) && mem) m
  | OpDelete mac => match m !! mac with Some _ => (0, delete mac m) | None => (-1, m) end
  | OpUpdate mac u => match m !! mac with Some l => ((spec_update now u l).1, <[mac := (spec_update now u l).2]> m) | None => (-1, m) end
  | OpExpirations => (Z.of_nat (size (due_leases now m)), expire1 now <$> m)
  | OpCleanup => (Z.of_nat (size m) - Z.of_nat (size (live_leases m)), live_leases m)
  | OpClear => (0, ∅)
  end.

(** The callers pass valid arguments, and no event that reclaims a lease. *)
Definition op_valid (o : lease_op) (m : gmap (list Z) dhcp_lease) : Prop :=
  match o with OpUpdate mac u => forall l, m !! mac = Some l -> update_ok u l | _ => True end.

Definition spec_step (timeout : Z) (c : lease_call) : gmap (list Z) dhcp_lease -> Z * gmap (list Z) dhcp_lease :=
  spec_call timeout (memory c) (at_time c) (op c).

Fixpoint spec_calls (timeout : Z) (cs : list lease_call) (m : gmap (list Z) dhcp_lease) : list Z * gmap (list Z) dhcp_lease :=
  match cs with
  | [] => ([], m)
  | c :: cs => let r := spec_step timeout c m in let rs := spec_calls timeout cs r.2 in (r.1 :: rs.1, rs.2)
  end.

Fixpoint calls_valid (timeout : Z) (cs : list lease_call) (m : gmap (list Z) dhcp_lease) : Prop :=
  match cs with
  | [] => True
  | c :: cs => calloc_ok c /\ op_valid (op c) m /\ calls_valid timeout cs (spec_step timeout c m).2
  end.

Lemma call_spec c db : db_ok db -> calloc_ok c -> op_valid (op c) (view db) ->
  implements db (run_call c db) (spec_step (offer_timeout db) c (view db)).
Proof.
  intros Hok Hal Hv. assert (alloc_ok (calloc c (heap db)) db) as Ha by (unfold alloc_ok, calloc; destruct (memory c); [by apply Hal|done]).
  assert (memory c = found (calloc c (heap db))) as Hm by (unfold calloc; by destruct (memory c)).
  unfold run_call, spec_step, spec_call. rewrite Hm. destruct (op c) as [ip mac secs|ip mac xid|mac|mac u| | |].
  - eapply returns_code. by apply create_spec.
  - eapply returns_code. by apply create_offered_spec.
  - by apply delete_mac_spec.
  - by apply update_mac_spec.
  - by apply process_expirations_spec.
  - by apply cleanup_expired_spec.
  - by apply clear_spec.
Qed.

Lemma calls_spec cs : forall db, db_ok db -> calls_valid (offer_timeout db) cs (view db) ->
  exists db', run_calls cs db = Ok ((spec_calls (offer_timeout db) cs (view db)).1, db') /\ db_ok db' /\
    view db' = (spec_calls (offer_timeout db) cs (view db)).2.
Proof.
  induction cs as [|c cs IH]; intros db Hok Hv; [by exists db|]. destruct Hv as (Hal & Hvc & Hv).
  destruct (call_spec c db Hok Hal Hvc) as (db1 & E1 & Hok1 & Ev & Et). rewrite <- Ev, <- Et in Hv. destruct (IH db1 Hok1 Hv) as (db' & E2 & Hok' & Ev').
  exists db'. cbn [run_calls spec_calls fst snd]. rewrite E1. cbn [obind]. rewrite E2. cbn [obind]. rewrite Ev, Et in *. done.
Qed.

(** C30: A history of calls on a new lease database, in which client identifiers have the
    length that is passed, calloc returns fresh blocks (or fails) and no TIMEOUT event is
    sent to a lease in the state EXPIRED or DECLINED (which would reclaim it, see
    [reclaimed_lease_dangles]), runs to its end without an invalid access and with the
    results of the map from MAC addresses to leases; after it a lookup returns the lease the
    map has, the counter is its size, and destroying the database frees every lease. *)
Theorem lease_db_refines timeout cs db : dhcp_lease_db_create true timeout = Some db -> calls_valid (default 60 timeout) cs ∅ ->
  exists db', run_calls cs db = Ok ((spec_calls (default 60 timeout) cs ∅).1, db') /\
    let m := (spec_calls (default 60 timeout) cs ∅).2 in
    (forall mac, exists r db2, dhcp_lease_find_by_mac db' mac = Ok (r, db2) /\ content <$> (r ≫= (heap db' !!.)) = m !! mac) /\
    lease_count db' = Z.of_nat (size m) /\ dhcp_lease_db_destroy db' = Ok ∅.
Proof.
  intros [= <-] Hv. set (db := mkDb _ _ _ _ _ _ _ _ _ _). assert (view db = ∅) as E0 by done.
  assert (db_ok db) as Hok by (split; [exists []; by apply rep_empty|intros m c; by rewrite E0, lookup_empty]).
  destruct (calls_spec cs db Hok ltac:(by rewrite E0)) as (db' & E & [[L Hr] Hw] & Ev). rewrite E0 in *. exists db'. split; [exact E|]. cbn zeta.
  change (offer_timeout db) with (default 60 timeout) in Ev. rewrite <- Ev. split; [|split; [apply (view_count db' L Hr)|apply (free_all db' L Hr)]].
  intros mac. destruct (find_view db' L mac Hr) as (r & Ef & H). eexists r, _. split; [exact Ef|]. destruct r as [a|]; cbn; [|by rewrite H].
  destruct H as (l & Ha & _ & ->). by rewrite Ha.
Qed.

(** ** Expiration *)

(** C31: An expiration run marks exactly the offered and bound leases whose time has come, calls
    the callback once for each of them, in the order of the list, and counts them; a second
    run at the same time finds nothing. *)
Theorem expirations_exact now db L : db_rep db L ->
  exists db', dhcp_lease_db_process_expirations now db = Ok (Z.of_nat (length (filter (due_at now (heap db)) L)), db') /\
    (forall a, heap db' !! a = expire1 now <$> heap db !! a) /\
    expire_log db' = expire_log db ++ (if expire_cb db then filter (due_at now (heap db)) L else []) /\
    exists db2, dhcp_lease_db_process_expirations now db' = Ok (0, db2) /\ heap db2 = heap db' /\ expire_log db2 = expire_log db'.
Proof.
  assert (forall db, db_rep db L -> exists db', dhcp_lease_db_process_expirations now db = Ok (Z.of_nat (length (filter (due_at now (heap db)) L)), db') /\
            expired_to now L L db db') as Hrun.
  { clear db. intros db Hr. unfold dhcp_lease_db_process_expirations. rewrite (chain_head _ _ _ _ (rep_all _ _ Hr)).
    exact (expirations_run now L [] db 0 (walk_fuel db) Hr (rep_fuel db L Hr L ltac:(done))). }
  intros Hr. destruct (Hrun db Hr) as (db1 & E1 & X1). pose proof (ex_rep _ _ _ _ _ X1) as Hr1. destruct (Hrun db1 Hr1) as (db2 & E2 & X2).
  assert (forall d d', db_rep d L -> expired_to now L L d d' -> forall a, heap d' !! a = expire1 now <$> heap d !! a) as Hall.
  { intros d d' Hd [_ H _ _ _] a. rewrite H. destruct (decide (a ∈ L)) as [|Hn]; [done|]. destruct (heap d !! a) as [x|] eqn:Ex; [|done]. destruct Hn. apply (rep_dom _ _ Hd). by exists x. }
  assert (forall l, due now (expire1 now l) = false) as Hnot by (intros l; unfold expire1; by destruct (due now l) eqn:D).
  assert (filter (due_at now (heap db1)) L = []) as Hnil.
  { apply elem_of_nil_inv. intros a [Hd _]%list_elem_of_filter. unfold due_at in Hd. rewrite (Hall db db1 Hr X1) in Hd. destruct (heap db !! a) as [x|]; [cbn in Hd; by rewrite Hnot in Hd|done]. }
  exists db1. split; [done|]. split; [by apply Hall|]. split; [apply (ex_log _ _ _ _ _ X1)|]. exists db2. rewrite Hnil in E2. split; [done|]. split.
  - apply map_eq. intros a. rewrite (Hall db1 db2 Hr1 X2), (Hall db db1 Hr X1). destruct (heap db !! a) as [x|]; [|done]. cbn. f_equal.
    unfold expire1 at 1. by rewrite Hnot.
  - rewrite (ex_log _ _ _ _ _ X2), Hnil. destruct (expire_cb db1); by rewrite app_nil_r.
Qed.

(** ** Validity *)

(** Binding succeeds exactly in the states OFFERED and BOUND; the lease is then valid until
    its time is over, counted from the call, and the remaining time is what is left of it
    in whole seconds; in any other state nothing changes. *)
Theorem bind_valid now db a l secs : heap db !! a = Some l -> 0 <= now -> 0 <= secs < 2 ^ 32 -> now + secs * 1000 < 2 ^ 64 ->
  if (state l =? DHCP_LEASE_OFFERED) || (state l =? DHCP_LEASE_BOUND) then
    exists l', dhcp_lease_bind now db a secs = Ok (0, with_heap (<[a := l']> (heap db)) db) /\
      l_ip l' = l_ip l /\ l_mac l' = l_mac l /\ state l' = DHCP_LEASE_BOUND /\
      forall t, dhcp_lease_is_valid t l' = (t <? now + secs * 1000) /\
        dhcp_lease_is_expired t l' = negb (t <? now + secs * 1000) /\
        dhcp_lease_remaining_time t l' = Z.max 0 ((now + secs * 1000 - t) / 1000)
  else dhcp_lease_bind now db a secs = Ok (-1, db).
Proof.
  intros Ha Hn Hs Hb. unfold dhcp_lease_bind. rewrite Ha. cbn [of_option obind]. rewrite <- negb_orb.
  destruct (_ || _); [|done]. cbn [negb]. unfold set_lease, modify. rewrite Ha. cbn [of_option obind].
  exists (with_state DHCP_LEASE_BOUND (timed now secs l)). do 4 (split; [done|]). intros t.
  assert (expire_time (with_state DHCP_LEASE_BOUND (timed now secs l)) = now + secs * 1000) as E.
  { cbn. rewrite (u64_small (secs * 1000)) by (unfold_widths; lia). rewrite u64_small by (unfold_widths; lia). done. }
  unfold dhcp_lease_is_valid, dhcp_lease_remaining_time, dhcp_lease_is_expired. rewrite E. cbn [state with_state].
  change (DHCP_LEASE_BOUND =? DHCP_LEASE_BOUND) with true. change (DHCP_LEASE_BOUND =? DHCP_LEASE_FREE) with false. change (DHCP_LEASE_BOUND =? DHCP_LEASE_EXPIRED) with false.
  cbn [orb andb]. destruct (Z.leb_spec (now + secs * 1000) t), (Z.ltb_spec t (now + secs * 1000)); try lia; (split; [done|]); (split; [done|]).
  - assert ((now + secs * 1000 - t) / 1000 <= 0) by (apply Z.div_le_upper_bound; lia). lia.
  - assert (0 <= (now + secs * 1000 - t) / 1000) by (apply Z.div_pos; lia). lia.
Qed.

(** ** Examples *)

Definition demo_mac (n : Z) : list Z := [2; 0; 0; 0; 0; n].
Definition demo_call (now : Z) (o : lease_op) : lease_call :=
  mkCall now true unused o.

Definition demo_calls : list lease_call :=
  [demo_call 1000 (OpOffer 11 (demo_mac 1) 7);
   demo_call 1500 (OpUpdate (demo_mac 1) (UBind 60));
   demo_call 1600 (OpCreate 12 (demo_mac 2) 1);
   demo_call 1700 (OpUpdate (demo_mac 2) (UClientId (Some [1; 2; 3]) 3));
   demo_call 5000 OpExpirations;
   demo_call 5100 OpCleanup;
   demo_call 5200 (OpDelete (demo_mac 2))].

Lemma lease_db_refines_witness :
  exists db', run_calls demo_calls (mkDb 60 ∅ (zeros DHCP_LEASE_HASH_SIZE) 0 0 false [] 0 0 0) = Ok ([0; 0; 0; 0; 1; 1; -1], db') /\ lease_count db' = 1.
Proof.
  destruct (lease_db_refines None demo_calls (mkDb 60 ∅ (zeros DHCP_LEASE_HASH_SIZE) 0 0 false [] 0 0 0)) as (db' & E & _ & Hn & _); [reflexivity| |].
  - unfold demo_calls. cbn [calls_valid]. repeat split; try apply unused_ok; try (intros l _; exact I); try (intros l _; cbn; lia).
  - exists db'. rewrite E, Hn. split; vm_compute; reflexivity.
Defined.

(** A lease bound for 5 seconds, and the events that expire and reclaim it. *)
Definition one_lease : outcome dhcp_lease_db :=
  let! (_, db) := dhcp_lease_create 1000 (Some 16) (mkDb 60 ∅ (zeros DHCP_LEASE_HASH_SIZE) 0 0 true [] 0 0 0) 11 (demo_mac 1) 5 in Ok db.

Definition reclaimed : outcome dhcp_lease_db :=
  let! db := one_lease in
  let! (_, db) := dhcp_lease_transition 7000 db 16 DHCP_EVT_EXPIRE in
  let! (_, db) := dhcp_lease_transition 8000 db 16 DHCP_EVT_TIMEOUT in Ok db.

(** The transition to EXPIRED calls the expiration callback twice, once as the action and once
    on entering the state. *)
Theorem expire_transition_notifies_twice :
  (let! db := one_lease in let! (_, db) := dhcp_lease_transition 7000 db 16 DHCP_EVT_EXPIRE in Ok (expire_log db)) = Ok [16; 16].
Proof. vm_compute. reflexivity. Qed.

(** Reclaiming clears the MAC address of a lease that stays in the hash chain of its old
    address: after the lease is removed as dead, looking its old address up follows a
    pointer to the freed block. *)
Theorem reclaimed_lease_dangles :
  (let! db := reclaimed in let! (n, db) := dhcp_lease_db_cleanup_expired db in Ok (n, size (heap db), lease_count db)) = Ok (1, 0%nat, 0) /\
  (let! db := reclaimed in let! (_, db) := dhcp_lease_db_cleanup_expired db in dhcp_lease_find_by_mac db (demo_mac 1)) = Undef.
Proof. split; vm_compute; reflexivity. Qed.

(** The comment above the table has EXPIRED going to DECLINED on a DISCOVER; the table
    offers the address again. *)
Theorem expired_discover_offers : dhcp_lease_next_state DHCP_LEASE_EXPIRED DHCP_EVT_DISCOVER = DHCP_LEASE_OFFERED.
Proof. reflexivity. Qed.

Lemma expirations_exact_witness :
  exists db db', one_lease = Ok db /\ dhcp_lease_db_process_expirations 7000 db = Ok (1, db').
Proof.
  assert (db_rep (mkDb 60 ∅ (zeros DHCP_LEASE_HASH_SIZE) 0 0 true [] 0 0 0) []) as H0 by (by apply rep_empty).
  destruct (create_spec 1000 (Some 16) (mkDb 60 ∅ (zeros DHCP_LEASE_HASH_SIZE) 0 0 true [] 0 0 0) 11 (demo_mac 1) 5) as (o & db & E & [[L Hr] _] & Ev & _);
    [split; [by exists []|]; intros m c; vm_compute; discriminate|by vm_compute|].
  destruct (expirations_exact 7000 db L Hr) as (db' & E' & _). rewrite <- (due_count 7000 db L Hr), Ev in E'.
  exists db, db'. split; [|rewrite E'; vm_compute; reflexivity]. unfold one_lease. by rewrite E.
Defined.

Lemma bind_valid_witness :
  exists l', dhcp_lease_bind 1000 (with_heap {[16 := offered 900 60 7 (new_lease 11 (demo_mac 1))]} (mkDb 60 ∅ (zeros DHCP_LEASE_HASH_SIZE) 0 0 true [] 0 0 0)) 16 60
      = Ok (0, with_heap (<[16 := l']> {[16 := offered 900 60 7 (new_lease 11 (demo_mac 1))]}) (mkDb 60 ∅ (zeros DHCP_LEASE_HASH_SIZE) 0 0 true [] 0 0 0)) /\
    dhcp_lease_is_valid 60999 l' = true /\ dhcp_lease_is_valid 61000 l' = false.
Proof.
  destruct (bind_valid 1000 (with_heap {[16 := offered 900 60 7 (new_lease 11 (demo_mac 1))]} (mkDb 60 ∅ (zeros DHCP_LEASE_HASH_SIZE) 0 0 true [] 0 0 0)) 16
    (offered 900 60 7 (new_lease 11 (demo_mac 1))) 60) as (l' & E & _ & _ & _ & H); [reflexivity|lia|lia|lia|].
  exists l'. split; [exact E|]. destruct (H 60999) as [H1 _]. destruct (H 61000) as [H2 _]. by rewrite H1, H2.
Defined.
