(* ===== verification/DhcpServer.v ===== *)
(** * examples/dhcp/src/dhcp_server.c: the DHCP server

    The handlers for DISCOVER, REQUEST, RELEASE, DECLINE and INFORM work on the pools and the
    lease database and send replies; a packet is checked and dispatched to them through a
    handler table.  The environment of a packet has two readings of the clock, calloc for
    leases, the bytes that are on the stack where the hostname is read to, and what the send
    callback returns; the packets handed to the callback are kept in [sent].  Pools are
    referred to by their position in the array, the lease file is not used. *)

From S2P Require Import Prelude Common CString Bytes Keyed Links Chains Handler DhcpOption DhcpPool DhcpLease.

Definition DHCP_SERVER_MAX_POOLS : Z := 16.
Definition DHCP_MAGIC_COOKIE : Z := 0x63825363.
Definition DHCP_FLAG_BROADCAST : Z := 0x8000.
Definition DHCP_BOOTREPLY : Z := 2.
Definition DHCP_HTYPE_ETHER : Z := 1.
Definition DHCP_DISCOVER : Z := 1.
Definition DHCP_OFFER : Z := 2.
Definition DHCP_REQUEST : Z := 3.
Definition DHCP_DECLINE : Z := 4.
Definition DHCP_ACK : Z := 5.
Definition DHCP_NAK : Z := 6.
Definition DHCP_RELEASE : Z := 7.
Definition DHCP_INFORM : Z := 8.
Definition INADDR_BROADCAST : Z := u32 (-1).

Record dhcp_server_config := mkServerConfig {
  server_id : Z; default_lease_time : Z; max_lease_time : Z; min_lease_time : Z; sv_offer_timeout : Z;
  authoritative : bool; echo_client_id : bool
}.

Definition DHCP_SERVER_CONFIG_DEFAULT : dhcp_server_config := mkServerConfig 0 3600 86400 300 60 true true.

Record dhcp_server_stats := mkServerStats {
  discovers : Z; offers : Z; requests : Z; acks : Z; naks : Z; declines : Z; releases : Z; informs : Z;
  unknown : Z; errors : Z; packets_in : Z; packets_out : Z
}.

(** A call of the send callback. *)
Record sent_packet := mkSent { reply : dhcp_packet; pkt_len : Z; dst_mac : list Z; dst_ip : Z; broadcast : bool }.

Record dhcp_server := mkServer {
  sv_config : dhcp_server_config;
  pools : list dhcp_pool;
  lease_db : dhcp_lease_db;
  send_fn : bool;
  sent : list sent_packet;
  stats : dhcp_server_stats
}.

Record env := mkEnv {
  time1 : Z; time2 : Z;
  lease_alloc : gmap Z dhcp_lease -> option Z;
  stack_junk : list Z;
  send_ret : sent_packet -> Z
}.

(** ** Field updates *)

Definition with_pools (p : list dhcp_pool) (s : dhcp_server) : dhcp_server := mkServer (sv_config s) p (lease_db s) (send_fn s) (sent s) (stats s).
Definition with_db (d : dhcp_lease_db) (s : dhcp_server) : dhcp_server := mkServer (sv_config s) (pools s) d (send_fn s) (sent s) (stats s).
Definition with_stats (f : dhcp_server_stats -> dhcp_server_stats) (s : dhcp_server) : dhcp_server :=
  mkServer (sv_config s) (pools s) (lease_db s) (send_fn s) (sent s) (f (stats s)).
Definition with_sent (l : list sent_packet) (s : dhcp_server) : dhcp_server := mkServer (sv_config s) (pools s) (lease_db s) (send_fn s) l (stats s).

(** Counting. *)
Definition count_discover (t : dhcp_server_stats) : dhcp_server_stats :=
  mkServerStats (u64 (discovers t + 1)) (offers t) (requests t) (acks t) (naks t) (declines t) (releases t) (informs t) (unknown t) (errors t) (u64 (packets_in t + 1)) (packets_out t).
Definition count_request (t : dhcp_server_stats) : dhcp_server_stats :=
  mkServerStats (discovers t) (offers t) (u64 (requests t + 1)) (acks t) (naks t) (declines t) (releases t) (informs t) (unknown t) (errors t) (u64 (packets_in t + 1)) (packets_out t).
Definition count_release (t : dhcp_server_stats) : dhcp_server_stats :=
  mkServerStats (discovers t) (offers t) (requests t) (acks t) (naks t) (declines t) (u64 (releases t + 1)) (informs t) (unknown t) (errors t) (u64 (packets_in t + 1)) (packets_out t).
Definition count_decline (t : dhcp_server_stats) : dhcp_server_stats :=
  mkServerStats (discovers t) (offers t) (requests t) (acks t) (naks t) (u64 (declines t + 1)) (releases t) (informs t) (unknown t) (errors t) (u64 (packets_in t + 1)) (packets_out t).
Definition count_inform (t : dhcp_server_stats) : dhcp_server_stats :=
  mkServerStats (discovers t) (offers t) (requests t) (acks t) (naks t) (declines t) (releases t) (u64 (informs t + 1)) (unknown t) (errors t) (u64 (packets_in t + 1)) (packets_out t).
Definition count_sv_error (t : dhcp_server_stats) : dhcp_server_stats :=
  mkServerStats (discovers t) (offers t) (requests t) (acks t) (naks t) (declines t) (releases t) (informs t) (unknown t) (u64 (errors t + 1)) (packets_in t) (packets_out t).
Definition count_sv_unknown (t : dhcp_server_stats) : dhcp_server_stats :=
  mkServerStats (discovers t) (offers t) (requests t) (acks t) (naks t) (declines t) (releases t) (informs t) (u64 (unknown t + 1)) (errors t) (packets_in t) (packets_out t).
(** A packet went out; offers, acks and naks are counted by type. *)
Definition count_out (msg_type : Z) (t : dhcp_server_stats) : dhcp_server_stats :=
  mkServerStats (discovers t) (if msg_type =? DHCP_OFFER then u64 (offers t + 1) else offers t) (requests t)
    (if msg_type =? DHCP_ACK then u64 (acks t + 1) else acks t) (if msg_type =? DHCP_NAK then u64 (naks t + 1) else naks t)
    (declines t) (releases t) (informs t) (unknown t) (errors t) (packets_in t) (u64 (packets_out t + 1)).

Definition zero_stats : dhcp_server_stats := mkServerStats 0 0 0 0 0 0 0 0 0 0 0 0.

(** ** Configuration and pools *)

Definition dhcp_server_set_server_id (s : dhcp_server) (ip : Z) : dhcp_server :=
  let c := sv_config s in
  mkServer (mkServerConfig ip (default_lease_time c) (max_lease_time c) (min_lease_time c) (sv_offer_timeout c) (authoritative c) (echo_client_id c))
    (pools s) (lease_db s) (send_fn s) (sent s) (stats s).

Definition dhcp_server_set_send_callback (s : dhcp_server) (set : bool) : dhcp_server :=
  mkServer (sv_config s) (pools s) (lease_db s) set (sent s) (stats s).

Definition dhcp_server_get_config (s : dhcp_server) : dhcp_server_config := sv_config s.

Definition dhcp_server_add_pool (s : dhcp_server) (p : dhcp_pool) : Z * dhcp_server :=
  if DHCP_SERVER_MAX_POOLS <=? Z.of_nat (length (pools s)) then (-1, s) else (0, with_pools (pools s ++ [p]) s).

(** [strcmp] of the pool's name, a string in an array, with [nm]. *)
Definition has_name (nm : list Z) (p : dhcp_pool) : bool := bool_decide (until_nul (dhcp_pool_get_name p) = nm).

Definition dhcp_server_remove_pool (s : dhcp_server) (nm : list Z) : Z * dhcp_server :=
  match index_of (has_name nm) (pools s) with
  | Some i => (0, with_pools (delete i (pools s)) s)
  | None => (-1, s)
  end.

Definition dhcp_server_find_pool (s : dhcp_server) (nm : list Z) : option nat := index_of (has_name nm) (pools s).
Definition dhcp_server_find_pool_for_ip (s : dhcp_server) (ip : Z) : option nat := index_of (fun p => dhcp_pool_contains p ip) (pools s).
Definition dhcp_server_get_pool_count (s : dhcp_server) : Z := Z.of_nat (length (pools s)).

Definition find_pool_for_request (s : dhcp_server) : option nat :=
  match index_of (fun p => 0 <? available_ips (dhcp_pool_get_stats p)) (pools s) with
  | Some i => Some i
  | None => match pools s with [] => None | _ => Some 0%nat end
  end.

(** An operation on the pool at position [i], and on the lease database. *)
Definition on_pool {R} (i : nat) (f : dhcp_pool -> outcome (R * dhcp_pool)) (s : dhcp_server) : outcome (R * dhcp_server) :=
  let! p := of_option (pools s !! i) in
  let! (r, p) := f p in
  Ok (r, with_pools (<[i := p]> (pools s)) s).
Definition on_db {R} (f : dhcp_lease_db -> outcome (R * dhcp_lease_db)) (s : dhcp_server) : outcome (R * dhcp_server) :=
  let! (r, d) := f (lease_db s) in Ok (r, with_db d s).

(** ** Leases *)

Definition dhcp_server_find_lease_by_mac (s : dhcp_server) (mac : list Z) : outcome (option Z * dhcp_server) := on_db (fun d => dhcp_lease_find_by_mac d mac) s.
Definition dhcp_server_find_lease_by_ip (s : dhcp_server) (ip : Z) : outcome (option Z * dhcp_server) := on_db (fun d => dhcp_lease_find_by_ip d ip) s.

Definition dhcp_server_clear_lease (s : dhcp_server) (ip : Z) : outcome (Z * dhcp_server) :=
  let! (lease, s) := on_db (fun d => dhcp_lease_find_by_ip d ip) s in
  match lease with
  | None => Ok (-1, s)
  | Some a =>
    let! s := match dhcp_server_find_pool_for_ip s ip with
              | Some i => let! (_, s) := on_pool i (fun p => dhcp_pool_release p ip) s in Ok s
              | None => Ok s
              end in
    on_db (fun d => dhcp_lease_delete d a) s
  end.

Definition dhcp_server_clear_all_leases (s : dhcp_server) : outcome (Z * dhcp_server) :=
  let s := with_pools (dhcp_pool_reset <$> pools s) s in
  on_db (fun d => let! d := dhcp_lease_db_clear d in Ok (0, d)) s.

(** ** Replies *)

Definition ntohs (v : Z) : Z := htons v.

(** Add an option and forget whether it fitted. *)
Definition add (f : dhcp_option_list -> outcome (Z * dhcp_option_list)) (l : dhcp_option_list) : outcome dhcp_option_list :=
  let! (_, l) := f l in Ok l.

Definition lease_options (c : dhcp_pool_config) (l : dhcp_option_list) : outcome dhcp_option_list :=
  let! l := add (fun l => dhcp_option_add_lease_time l (default_lease c)) l in
  let! l := add (fun l => dhcp_option_add_renewal_time l (default_lease c / 2)) l in
  let! l := add (fun l => dhcp_option_add_rebind_time l (u32 (default_lease c * 7) / 8)) l in
  let! l := add (fun l => dhcp_option_add_subnet_mask l (netmask c)) l in
  let! l := if negb (gateway c =? 0) then add (fun l => dhcp_option_add_router l (gateway c)) l else Ok l in
  let! l := if 0 <? num_dns c then add (fun l => dhcp_option_add_dns l (dns_servers c) (num_dns c)) l else Ok l in
  let! d0 := of_option (domain c !! 0%nat) in
  let! l := if negb (d0 =? 0) then let! d := c_string (domain c) in add (fun l => dhcp_option_add_domain l (Some d)) l else Ok l in
  if negb (netmask c =? 0) then
    let bcast := Z.lor (Z.land (network c) (netmask c)) (u32 (Z.lnot (netmask c))) in
    add (fun l => dhcp_option_add_broadcast l bcast) l
  else Ok l.

(** "Requested address not available". *)
Definition nak_message : list Z :=
  [82; 101; 113; 117; 101; 115; 116; 101; 100; 32; 97; 100; 100; 114; 101; 115; 115; 32; 110; 111; 116; 32; 97; 118; 97; 105; 108; 97; 98; 108; 101].

Definition reply_options (s : dhcp_server) (msg_type : Z) (c : dhcp_pool_config) : outcome dhcp_option_list :=
  let l := dhcp_option_list_init in
  let! l := add (fun l => dhcp_option_add_msg_type l msg_type) l in
  let! l := add (fun l => dhcp_option_add_server_id l (server_id (sv_config s))) l in
  let! l := if (msg_type =? DHCP_OFFER) || (msg_type =? DHCP_ACK) then lease_options c l
            else if msg_type =? DHCP_NAK then add (fun l => dhcp_option_add_message l (Some nak_message)) l else Ok l in
  add dhcp_option_list_finalize l.

(** Where the reply goes: the hardware address, the address and whether as a broadcast. *)
Definition destination (request : dhcp_packet) (offered_ip : Z) : outcome (list Z * Z * bool) :=
  let! mac := load (chaddr request) 0 6 in
  if negb (giaddr request =? 0) then Ok (mac, giaddr request, false) else
  if negb (ciaddr request =? 0) then Ok (mac, ciaddr request, false) else
  if negb (Z.land (ntohs (flags request)) DHCP_FLAG_BROADCAST =? 0) then Ok (replicate 6 255, INADDR_BROADCAST, true) else
  Ok (mac, offered_ip, true).

(** sizeof(dhcp_packet_t). *)
Definition packet_size : Z := 548.

Definition send_dhcp_response (e : env) (s : dhcp_server) (request : dhcp_packet) (msg_type offered_ip : Z) (i : nat) : outcome (Z * dhcp_server) :=
  if negb (send_fn s) then Ok (-1, s) else
  let! p := of_option (pools s !! i) in
  let! opts := reply_options s msg_type (dhcp_pool_get_config p) in
  let! bytes := load (buffer opts) 0 (offset opts) in
  let! o := store (zeros DHCP_MAX_OPTIONS_SIZE) 0 bytes in
  let! ch := load (chaddr request) 0 16 in
  let r := mkPacket DHCP_BOOTREPLY DHCP_HTYPE_ETHER 6 0 (xid request) 0 (flags request) 0 (if msg_type =? DHCP_NAK then 0 else offered_ip)
             (server_id (sv_config s)) (giaddr request) ch (zeros 64) (zeros 128) (htonl DHCP_MAGIC_COOKIE) o in
  let! (mac, ip, bc) := destination request offered_ip in
  let pk := mkSent r (packet_size - DHCP_MAX_OPTIONS_SIZE + offset opts) mac ip bc in
  let ret := send_ret e pk in
  let s := with_sent (sent s ++ [pk]) s in
  Ok (ret, if ret =? 0 then with_stats (count_out msg_type) s else s).

(** ** Message handlers *)

(** The client's hardware address as a MAC address. *)
Definition client_mac (request : dhcp_packet) : list Z := take 6 (chaddr request).

Section handlers.
Context (e : env) (fuel : nat).

(** The address to offer: that of a valid lease, the reserved one, or a new one. *)
Definition choose_address (s : dhcp_server) (i : nat) (lease : option Z) (mac : list Z) : outcome (Z * dhcp_server) :=
  let! p := of_option (pools s !! i) in
  let new := match dhcp_pool_find_reservation p mac with
             | Some res => Ok (res_ip res, s)
             | None => on_pool i (fun p => dhcp_pool_allocate fuel p (Some mac)) s
             end in
  match lease with
  | None => new
  | Some a => let! l := of_option (heap (lease_db s) !! a) in if dhcp_lease_is_valid (time1 e) l then Ok (l_ip l, s) else new
  end.

(** The hostname option is read to an array of 64 bytes on the stack. *)
Definition note_hostname (s : dhcp_server) (request : dhcp_packet) (a : Z) : outcome dhcp_server :=
  let! (n, h) := dhcp_option_get_string_from_packet request DHCP_OPT_HOSTNAME (Some (stack_junk e)) 64 in
  if 0 <? n then
    let! str := c_string (default [] h) in
    let! (_, s) := on_db (fun d => dhcp_lease_set_hostname d a (Some str)) s in Ok s
  else Ok s.

Definition dhcp_server_handle_discover (s : dhcp_server) (request : dhcp_packet) : outcome (Z * dhcp_server) :=
  let s := with_stats count_discover s in
  match find_pool_for_request s with
  | None => Ok (QD_HANDLER_ERROR, with_stats count_sv_error s)
  | Some i =>
    let! (lease, s) := on_db (fun d => dhcp_lease_find_by_mac d (client_mac request)) s in
    let! (offered_ip, s) := choose_address s i lease (client_mac request) in
    if offered_ip =? 0 then Ok (QD_HANDLER_ERROR, with_stats count_sv_error s) else
    let! (lease, s) := on_db (fun d => dhcp_lease_create_offered (time2 e) (lease_alloc e (heap d)) d offered_ip (client_mac request) (xid request)) s in
    match lease with
    | None =>
      let! (_, s) := on_pool i (fun p => dhcp_pool_release p offered_ip) s in
      Ok (QD_HANDLER_ERROR, with_stats count_sv_error s)
    | Some a =>
      let! s := note_hostname s request a in
      let! (_, s) := send_dhcp_response e s request DHCP_OFFER offered_ip i in
      Ok (QD_HANDLER_OK, s)
    end
  end.

(** A client without a lease that names its address in ciaddr gets a lease if it is free. *)
Definition rebind_lease (s : dhcp_server) (request : dhcp_packet) : outcome (option Z * dhcp_server) :=
  if ciaddr request =? 0 then Ok (None, s) else
  match dhcp_server_find_pool_for_ip s (ciaddr request) with
  | None => Ok (None, s)
  | Some i =>
    let! p := of_option (pools s !! i) in
    let! free := dhcp_pool_is_available p (ciaddr request) in
    if (free : bool) then
      on_db (fun d => dhcp_lease_create (time1 e) (lease_alloc e (heap d)) d (ciaddr request) (client_mac request) (default_lease (dhcp_pool_get_config p))) s
    else Ok (None, s)
  end.

Definition dhcp_server_handle_request (s : dhcp_server) (request : dhcp_packet) : outcome (Z * dhcp_server) :=
  let s := with_stats count_request s in
  let! opt_ip := dhcp_get_requested_ip request in
  let requested_ip := if opt_ip =? 0 then ciaddr request else opt_ip in
  let! sid := dhcp_get_server_id request in
  if negb (sid =? 0) && negb (sid =? server_id (sv_config s)) then Ok (QD_HANDLER_OK, s) else
  let! (lease, s) := on_db (fun d => dhcp_lease_find_by_mac d (client_mac request)) s in
  let! (lease, s) := match lease with Some a => Ok (Some a, s) | None => rebind_lease s request end in
  match lease with
  | None =>
    match find_pool_for_request s with
    | Some i => let! (_, s) := send_dhcp_response e s request DHCP_NAK 0 i in Ok (QD_HANDLER_OK, s)
    | None => Ok (QD_HANDLER_OK, s)
    end
  | Some a =>
    let! l := of_option (heap (lease_db s) !! a) in
    match dhcp_server_find_pool_for_ip s (l_ip l) with
    | None => Ok (QD_HANDLER_ERROR, s)
    | Some i =>
      if negb (requested_ip =? 0) && negb (requested_ip =? l_ip l) then
        let! (_, s) := send_dhcp_response e s request DHCP_NAK 0 i in Ok (QD_HANDLER_OK, s)
      else
        let! p := of_option (pools s !! i) in
        let! (_, s) := on_db (fun d => dhcp_lease_bind (time2 e) d a (default_lease (dhcp_pool_get_config p))) s in
        let! l := of_option (heap (lease_db s) !! a) in
        let! (_, s) := on_pool i (fun p => dhcp_pool_mark_used p (l_ip l)) s in
        let! (_, s) := send_dhcp_response e s request DHCP_ACK (l_ip l) i in
        Ok (QD_HANDLER_OK, s)
    end
  end.

Definition dhcp_server_handle_release (s : dhcp_server) (request : dhcp_packet) : outcome (Z * dhcp_server) :=
  let s := with_stats count_release s in
  let! (lease, s) := on_db (fun d => dhcp_lease_find_by_mac d (client_mac request)) s in
  match lease with
  | None => Ok (QD_HANDLER_OK, s)
  | Some a =>
    let! l := of_option (heap (lease_db s) !! a) in
    let! s := match dhcp_server_find_pool_for_ip s (l_ip l) with
              | Some i => let! (_, s) := on_pool i (fun p => dhcp_pool_release p (l_ip l)) s in Ok s
              | None => Ok s
              end in
    let! (_, s) := on_db (fun d => dhcp_lease_release d a) s in
    Ok (QD_HANDLER_OK, s)
  end.

Definition dhcp_server_handle_decline (s : dhcp_server) (request : dhcp_packet) : outcome (Z * dhcp_server) :=
  let s := with_stats count_decline s in
  let! opt_ip := dhcp_get_requested_ip request in
  let declined_ip := if opt_ip =? 0 then ciaddr request else opt_ip in
  if declined_ip =? 0 then Ok (QD_HANDLER_OK, s) else
  let! s := match dhcp_server_find_pool_for_ip s declined_ip with
            | Some i => let! (_, s) := on_pool i (fun p => dhcp_pool_mark_declined p declined_ip) s in Ok s
            | None => Ok s
            end in
  let! (lease, s) := on_db (fun d => dhcp_lease_find_by_ip d declined_ip) s in
  match lease with
  | None => Ok (QD_HANDLER_OK, s)
  | Some a => let! (_, s) := on_db (fun d => dhcp_lease_decline d a) s in Ok (QD_HANDLER_OK, s)
  end.

Definition dhcp_server_handle_inform (s : dhcp_server) (request : dhcp_packet) : outcome (Z * dhcp_server) :=
  let s := with_stats count_inform s in
  let pool := match dhcp_server_find_pool_for_ip s (ciaddr request) with Some i => Some i | None => find_pool_for_request s end in
  match pool with
  | None => Ok (QD_HANDLER_ERROR, s)
  | Some i => let! (_, s) := send_dhcp_response e s request DHCP_ACK (ciaddr request) i in Ok (QD_HANDLER_OK, s)
  end.

(** ** Dispatch *)

(** The handler functions by number; the context carries the packet. *)
Definition handler_fn (fn : Z) (s : dhcp_server) (request : dhcp_packet) : outcome (Z * dhcp_server) :=
  if fn =? 1 then dhcp_server_handle_discover s request else
  if fn =? 2 then dhcp_server_handle_request s request else
  if fn =? 3 then dhcp_server_handle_release s request else
  if fn =? 4 then dhcp_server_handle_decline s request else
  if fn =? 5 then dhcp_server_handle_inform s request else Undef.

Definition server_exec (fn arg r : Z) (c : qd_handler_ctx dhcp_packet) (w : hworld dhcp_server)
  : outcome (Z * qd_handler_ctx dhcp_packet * hworld dhcp_server) :=
  let! request := of_option (c_data c) in
  let! (res, s) := handler_fn fn (user w) request in
  Ok (res, c, mkHWorld (table w) s).

Definition dhcp_server_process_packet (w : hworld dhcp_server) (pkt : dhcp_packet) : outcome (Z * hworld dhcp_server) :=
  if negb (ntohl (magic pkt) =? DHCP_MAGIC_COOKIE) then Ok (-1, mkHWorld (table w) (with_stats count_sv_error (user w))) else
  let! msg_type := dhcp_get_msg_type pkt in
  if msg_type <? 0 then Ok (-1, mkHWorld (table w) (with_stats count_sv_unknown (user w))) else
  let c := mkCtx msg_type 0 (Some pkt) packet_size 0 0 None 0 0 0 0 0 in
  let! (r, _, w) := qd_handler_dispatch server_exec (0, 0) c w in
  Ok (r, w).
End handlers.

(** ** Life cycle *)

Definition server_handler_entries : list (Z * Z) :=
  [(DHCP_DISCOVER, 1); (DHCP_REQUEST, 2); (DHCP_RELEASE, 3); (DHCP_DECLINE, 4); (DHCP_INFORM, 5)].

(** The results of the registrations are not looked at; the argument is the server. *)
Fixpoint register_handlers (alloc : gmap Z qd_handler_node -> option Z) (es : list (Z * Z)) (t : qd_handler_table) : outcome qd_handler_table :=
  match es with
  | [] => Ok t
  | (cmd, fn) :: es => let! (_, t) := qd_handler_register_fn alloc t cmd fn 1 0 in register_handlers alloc es t
  end.

(** [mem1], [mem2], [mem3]: the allocations of the server, the database and the table; None:
    NULL.  The server's MAC address, which is random, is not used. *)
Definition dhcp_server_create (mem1 mem2 mem3 : bool) (alloc : gmap Z qd_handler_node -> option Z) (c : option dhcp_server_config)
  : outcome (option (hworld dhcp_server)) :=
  if negb mem1 then Ok None else
  let c := default DHCP_SERVER_CONFIG_DEFAULT c in
  match dhcp_lease_db_create mem2 (Some (sv_offer_timeout c)) with
  | None => Ok None
  | Some d =>
    match qd_handler_table_create mem3 with
    | None => Ok None
    | Some t => let! t := register_handlers alloc server_handler_entries t in Ok (Some (mkHWorld t (mkServer c [] d false [] zero_stats)))
    end
  end.

Definition dhcp_server_get_stats (s : dhcp_server) : dhcp_server_stats := stats s.
Definition dhcp_server_reset_stats (s : dhcp_server) : dhcp_server := with_stats (fun _ => zero_stats) s.
