(* ===== verification/DhcpServerReply.v ===== *)
(** * The replies of the DHCP server

    The options of a reply are exactly those that the message type and the configuration of
    the pool ask for, and a receiver finds them in the packet. *)

From S2P Require Import Prelude Common CString Bytes Keyed Links Chains Handler DhcpOption DhcpPacket DhcpPool DhcpLease DhcpServer.

(** ** The configuration of a pool *)

(** Four name servers at most, and a domain name with an end. *)
Record config_ok (c : dhcp_pool_config) : Prop := {
  cf_dns : length (dns_servers c) = 4%nat;
  cf_num : 0 <= num_dns c <= 4;
  cf_domain : length (domain c) = 64%nat;
  cf_end : 0 ∈ domain c
}.

Lemma until_nul_length l : 0 ∈ l -> (length (until_nul l) < length l)%nat.
Proof.
  induction l as [|b l IH]; [by intros ?%not_elem_of_nil|]. simpl. destruct (Z.eqb_spec b 0) as [->|Hb]; [simpl; lia|].
  intros [E|H]%elem_of_cons; [congruence|]. specialize (IH H). simpl. lia.
Qed.

Lemma domain_length c : config_ok c -> (length (until_nul (domain c)) <= 63)%nat.
Proof. intros [_ _ H1 H2]. pose proof (until_nul_length _ H2). lia. Qed.

(** ** The options *)

Definition broadcast_of (c : dhcp_pool_config) : Z := Z.lor (Z.land (network c) (netmask c)) (u32 (Z.lnot (netmask c))).

(** An option that is there on a condition. *)
Definition opt_if (b : bool) (code : Z) (d : list Z) : list (Z * list Z) := if b then [(code, d)] else [].

Definition lease_items (c : dhcp_pool_config) : list (Z * list Z) :=
  [(DHCP_OPT_LEASE_TIME, le 4 (htonl (default_lease c))); (DHCP_OPT_RENEWAL_TIME, le 4 (htonl (default_lease c / 2)));
   (DHCP_OPT_REBIND_TIME, le 4 (htonl (u32 (default_lease c * 7) / 8))); (DHCP_OPT_SUBNET_MASK, le 4 (netmask c))] ++
  opt_if (negb (gateway c =? 0)) DHCP_OPT_ROUTER (le 4 (gateway c)) ++
  opt_if (0 <? num_dns c) DHCP_OPT_DNS (take (Z.to_nat (num_dns c)) (dns_servers c) ≫= le 4) ++
  opt_if (negb (bool_decide (until_nul (domain c) = []))) DHCP_OPT_DOMAIN (until_nul (domain c)) ++
  opt_if (negb (netmask c =? 0)) DHCP_OPT_BROADCAST (le 4 (broadcast_of c)).

Definition reply_items (s : dhcp_server) (msg_type : Z) (c : dhcp_pool_config) : list (Z * list Z) :=
  [(DHCP_OPT_MSG_TYPE, [msg_type]); (DHCP_OPT_SERVER_ID, le 4 (server_id (sv_config s)))] ++
  (if (msg_type =? DHCP_OFFER) || (msg_type =? DHCP_ACK) then lease_items c
   else if msg_type =? DHCP_NAK then [(DHCP_OPT_MESSAGE, nak_message)] else []).

(** One more option, which fits. *)
Lemma add_fits l opts c d junk : built l opts -> (length d <= 255)%nat -> offset l + 2 + Z.of_nat (length d) <= DHCP_MAX_OPTIONS_SIZE - 1 ->
  exists l', add (fun l => dhcp_option_add l c (Some (d ++ junk)) (Z.of_nat (length d))) l = Ok l' /\ built l' (opts ++ [(c, d)]) /\
    offset l' = offset l + 2 + Z.of_nat (length d).
Proof.
  intros Hb Hd Hf. destruct (add_built l opts c d junk Hb Hd) as (l' & E & H). destruct (Z.ltb_spec (DHCP_MAX_OPTIONS_SIZE - 1) (offset l + 2 + Z.of_nat (length d))); [lia|].
  exists l'. unfold add. rewrite E. done.
Qed.

Lemma add_fits_if (b : bool) l opts c d junk : built l opts -> (length d <= 255)%nat -> offset l + 2 + Z.of_nat (length d) <= DHCP_MAX_OPTIONS_SIZE - 1 ->
  exists l', (if b then add (fun l => dhcp_option_add l c (Some (d ++ junk)) (Z.of_nat (length d))) l else Ok l) = Ok l' /\ built l' (opts ++ opt_if b c d) /\
    offset l <= offset l' <= offset l + 2 + Z.of_nat (length d).
Proof.
  intros Hb Hd Hf. destruct b; [|exists l; cbn [opt_if]; rewrite app_nil_r; split; [done|split; [done|lia]]].
  destruct (add_fits l opts c d junk Hb Hd Hf) as (l' & E & Hb' & Ho). exists l'. split; [done|]. split; [done|]. lia.
Qed.

(** A value of four bytes. *)
Lemma add_word l opts c v : built l opts -> offset l + 6 <= DHCP_MAX_OPTIONS_SIZE - 1 ->
  exists l', add (fun l => dhcp_option_add_ip l c v) l = Ok l' /\ built l' (opts ++ [(c, le 4 v)]) /\ offset l' = offset l + 6.
Proof.
  intros Hb Hf. destruct (add_fits l opts c (le 4 v) [] Hb) as (l' & E & Hb' & Ho); rewrite ?length_le in *; [lia|lia|].
  exists l'. rewrite app_nil_r in E. split; [exact E|]. split; [done|lia].
Qed.

Lemma dns_bytes (l : list Z) n : length l = 4%nat -> 0 <= n <= 4 ->
  (l ≫= le 4) = (take (Z.to_nat n) l ≫= le 4) ++ (drop (Z.to_nat n) l ≫= le 4) /\ length (take (Z.to_nat n) l ≫= le 4) = (4 * Z.to_nat n)%nat.
Proof.
  intros Hl Hn. split; [rewrite <- bind_app; by rewrite take_drop|].
  assert (forall m : list Z, length (m ≫= le 4) = (4 * length m)%nat) as H by (induction m as [|x m IH]; [done|]; cbn [mbind list_bind length]; change (list_bind _ _ (le 4) m) with (m ≫= le 4); rewrite length_app, length_le, IH; lia).
  rewrite H, length_take. lia.
Qed.

Lemma dns_length c : config_ok c -> 0 < num_dns c -> u8 (num_dns c * 4) = Z.of_nat (4 * Z.to_nat (num_dns c)).
Proof. intros Hc Hn. pose proof (cf_num _ Hc). unfold u8, u8_mod. rewrite Z.mod_small by lia. lia. Qed.

Lemma add_dns_spec c l opts : config_ok c -> built l opts -> offset l + 18 <= DHCP_MAX_OPTIONS_SIZE - 1 ->
  exists l', (if 0 <? num_dns c then add (fun l => dhcp_option_add_dns l (dns_servers c) (num_dns c)) l else Ok l) = Ok l' /\
    built l' (opts ++ opt_if (0 <? num_dns c) DHCP_OPT_DNS (take (Z.to_nat (num_dns c)) (dns_servers c) ≫= le 4)) /\ offset l <= offset l' <= offset l + 18.
Proof.
  intros Hc Hb Ho. pose proof (cf_num _ Hc) as Hn. destruct (dns_bytes (dns_servers c) (num_dns c) (cf_dns _ Hc) Hn) as [Ed Ld].
  destruct (Z.ltb_spec 0 (num_dns c)) as [Hpos|]; [|exists l; cbn [opt_if]; rewrite app_nil_r; split; [done|split; [done|lia]]].
  destruct (add_fits l opts DHCP_OPT_DNS (take (Z.to_nat (num_dns c)) (dns_servers c) ≫= le 4) (drop (Z.to_nat (num_dns c)) (dns_servers c) ≫= le 4) Hb) as (l' & E & Hb' & Ho'); rewrite ?Ld in *; [lia|lia|].
  exists l'. rewrite <- Ed, <- (dns_length c Hc Hpos) in E. unfold dhcp_option_add_dns, dhcp_option_add_ips.
  destruct (Z.leb_spec (num_dns c) 0); [lia|]. destruct (Z.ltb_spec 63 (num_dns c)); [lia|]. cbn [orb]. split; [exact E|]. split; [done|]. lia.
Qed.

Lemma add_domain_spec c l opts : config_ok c -> built l opts -> offset l + 65 <= DHCP_MAX_OPTIONS_SIZE - 1 ->
  exists l', (let! d0 := of_option (domain c !! 0%nat) in
              if negb (d0 =? 0) then let! d := c_string (domain c) in add (fun l => dhcp_option_add_domain l (Some d)) l else Ok l) = Ok l' /\
    built l' (opts ++ opt_if (negb (bool_decide (until_nul (domain c) = []))) DHCP_OPT_DOMAIN (until_nul (domain c))) /\ offset l <= offset l' <= offset l + 65.
Proof.
  intros Hc Hb Ho. pose proof (domain_length c Hc) as Hd. pose proof (cf_end _ Hc) as He. unfold c_string. rewrite bool_decide_eq_true_2 by done. cbn [obind].
  destruct (domain c) as [|b rest] eqn:Ed; [by apply not_elem_of_nil in He|]. cbn [lookup list_lookup of_option obind].
  destruct (Z.eqb_spec b 0) as [->|Hb0]; cbn [negb].
  - exists l. change (until_nul (0 :: rest)) with (@nil Z). rewrite bool_decide_eq_true_2 by done. cbn [negb opt_if]. rewrite app_nil_r. split; [done|split; [done|lia]].
  - rewrite bool_decide_eq_false_2 by (simpl; destruct (Z.eqb_spec b 0); done). cbn [negb opt_if].
    destruct (add_fits l opts DHCP_OPT_DOMAIN (until_nul (b :: rest)) [0] Hb) as (l' & E & Hb' & Ho'); [lia|lia|]. exists l'. split; [|split; [done|lia]].
    unfold dhcp_option_add_domain, dhcp_option_add_string. rewrite <- E. f_equal. destruct (Z.ltb_spec 255 (Z.of_nat (length (until_nul (b :: rest))))); [lia|].
    unfold u8, u8_mod. rewrite Z.mod_small by lia. done.
Qed.

Lemma obind_run {A B} (m : outcome A) a (k : A -> outcome B) : m = Ok a -> obind m k = k a.
Proof. by intros ->. Qed.

(** Run one step of the builder. *)
Ltac built_step E := etransitivity; [apply (obind_run _ _ _ E)|]; cbn beta.
Ltac fits := change DHCP_MAX_OPTIONS_SIZE with 308 in *; rewrite ?length_le in *; lia.

Lemma lease_options_spec c l opts : config_ok c -> built l opts -> offset l <= 16 ->
  exists l', lease_options c l = Ok l' /\ built l' (opts ++ lease_items c) /\ offset l' <= 200.
Proof.
  intros Hc Hb Ho. unfold lease_options.
  destruct (add_word l opts DHCP_OPT_LEASE_TIME (htonl (default_lease c)) Hb ltac:(fits)) as (l1 & E1 & B1 & O1).
  destruct (add_word l1 _ DHCP_OPT_RENEWAL_TIME (htonl (default_lease c / 2)) B1 ltac:(fits)) as (l2 & E2 & B2 & O2).
  destruct (add_word l2 _ DHCP_OPT_REBIND_TIME (htonl (u32 (default_lease c * 7) / 8)) B2 ltac:(fits)) as (l3 & E3 & B3 & O3).
  destruct (add_word l3 _ DHCP_OPT_SUBNET_MASK (netmask c) B3 ltac:(fits)) as (l4 & E4 & B4 & O4).
  destruct (add_fits_if (negb (gateway c =? 0)) l4 _ DHCP_OPT_ROUTER (le 4 (gateway c)) [] B4 ltac:(fits) ltac:(fits)) as (l5 & E5 & B5 & O5).
  destruct (add_dns_spec c l5 _ Hc B5 ltac:(fits)) as (l6 & E6 & B6 & O6).
  destruct (add_domain_spec c l6 _ Hc B6 ltac:(fits)) as (l7 & E7 & B7 & O7).
  destruct (add_fits_if (negb (netmask c =? 0)) l7 _ DHCP_OPT_BROADCAST (le 4 (broadcast_of c)) [] B7 ltac:(fits) ltac:(fits)) as (l8 & E8 & B8 & O8).
  exists l8. split; [|split; [by rewrite <- !(assoc_L (++)) in B8|fits]]. rewrite app_nil_r in E5, E8.
  built_step E1. built_step E2. built_step E3. built_step E4. built_step E5. built_step E6.
  destruct (domain c !! 0%nat) as [d0|]; [|discriminate]. cbn [of_option obind] in *. built_step E7. exact E8.
Qed.

Lemma reply_options_spec s mt c : config_ok c ->
  exists l w, reply_options s mt c = Ok l /\ w = wire (opt_items (reply_items s mt c)) ++ [DHCP_OPT_END] /\ written l w.
Proof.
  intros Hc. unfold reply_options, reply_items.
  destruct (add_fits _ [] DHCP_OPT_MSG_TYPE [mt] [] built_init ltac:(simpl; lia) ltac:(by vm_compute)) as (l1 & E1 & B1 & O1).
  change (offset dhcp_option_list_init + 2 + Z.of_nat (length [mt])) with 3 in O1.
  destruct (add_word l1 _ DHCP_OPT_SERVER_ID (server_id (sv_config s)) B1 ltac:(fits)) as (l2 & E2 & B2 & O2). rewrite O1 in O2. change (3 + 6) with 9 in O2.
  assert (exists l3, (if (mt =? DHCP_OFFER) || (mt =? DHCP_ACK) then lease_options c l2
      else if mt =? DHCP_NAK then add (fun l => dhcp_option_add_message l (Some nak_message)) l2 else Ok l2) = Ok l3 /\
    built l3 (reply_items s mt c)) as (l3 & E3 & B3).
  { unfold reply_items. destruct (_ || _); [destruct (lease_options_spec c l2 _ Hc B2 ltac:(lia)) as (l3 & E & B & _); by exists l3|].
    destruct (mt =? DHCP_NAK); [|exists l2; by rewrite app_nil_r].
    destruct (add_fits l2 _ DHCP_OPT_MESSAGE nak_message [0] B2 ltac:(simpl; lia)) as (l3 & E & B & _); [rewrite O2; by vm_compute|]. by exists l3. }
  destruct B3 as (W3 & O3 & C3 & F3). destruct (put_written l3 _ [DHCP_OPT_END] W3) as (l4 & E4 & W4 & _).
  { destruct W3 as (? & _ & Eo & _). rewrite Nat2Z.inj_add, <- Eo. change (Z.of_nat (length [DHCP_OPT_END])) with 1. lia. }
  eexists _, _. split; [|split; [done|]].
  - built_step E1. built_step E2. built_step E3. unfold add, dhcp_option_list_finalize. rewrite F3.
    destruct (Z.leb_spec DHCP_MAX_OPTIONS_SIZE (offset l3)); [lia|]. rewrite E4. reflexivity.
  - exact W4.
Qed.

(** ** The packet *)

Definition reply_bytes (s : dhcp_server) (msg_type : Z) (c : dhcp_pool_config) : list Z :=
  wire (opt_items (reply_items s msg_type c)) ++ [DHCP_OPT_END].

Definition reply_for (s : dhcp_server) (request : dhcp_packet) (msg_type ip : Z) (c : dhcp_pool_config) : dhcp_packet :=
  let w := reply_bytes s msg_type c in
  mkPacket DHCP_BOOTREPLY DHCP_HTYPE_ETHER 6 0 (xid request) 0 (flags request) 0 (if msg_type =? DHCP_NAK then 0 else ip)
    (server_id (sv_config s)) (giaddr request) (chaddr request) (zeros 64) (zeros 128) (htonl DHCP_MAGIC_COOKIE)
    (w ++ zeros (DHCP_MAX_OPTIONS_SIZE - Z.of_nat (length w))).

(** To the relay, to the client's own address, to everyone, or to the new address. *)
Definition goes_to (request : dhcp_packet) (ip : Z) : list Z * Z * bool :=
  let mac := client_mac request in
  if negb (giaddr request =? 0) then (mac, giaddr request, false) else
  if negb (ciaddr request =? 0) then (mac, ciaddr request, false) else
  if negb (Z.land (ntohs (flags request)) DHCP_FLAG_BROADCAST =? 0) then (replicate 6 255, INADDR_BROADCAST, true) else (mac, ip, true).

Definition the_reply (s : dhcp_server) (request : dhcp_packet) (msg_type ip : Z) (c : dhcp_pool_config) : sent_packet :=
  let '(mac, dst, bc) := goes_to request ip in
  mkSent (reply_for s request msg_type ip c) (packet_size - DHCP_MAX_OPTIONS_SIZE + Z.of_nat (length (reply_bytes s msg_type c))) mac dst bc.

(** What sending it does to the server. *)
Definition after_send (e : env) (msg_type : Z) (pk : sent_packet) (s : dhcp_server) : dhcp_server :=
  let s := with_sent (sent s ++ [pk]) s in if send_ret e pk =? 0 then with_stats (count_out msg_type) s else s.

Lemma destination_spec request ip : length (chaddr request) = 16%nat -> destination request ip = Ok (goes_to request ip).
Proof.
  intros Hl. unfold destination, goes_to, client_mac, load. rewrite Hl. cbn [andb Z.leb Z.of_nat Z.add].
  change (6 <=? 16) with true. cbn [andb obind]. rewrite drop_0. by repeat case_match.
Qed.

Lemma reply_bytes_fit s mt c l : written l (reply_bytes s mt c) -> Z.of_nat (length (reply_bytes s mt c)) <= DHCP_MAX_OPTIONS_SIZE.
Proof. intros (rest & E & _ & H). rewrite E, length_app in H. lia. Qed.

Lemma zeros_split n m : 0 <= m <= n -> zeros n = zeros m ++ zeros (n - m).
Proof. intros H. unfold zeros. rewrite <- replicate_add. f_equal. lia. Qed.

Lemma send_response_spec e s request mt ip i p : send_fn s = true -> pools s !! i = Some p -> config_ok (config p) -> length (chaddr request) = 16%nat ->
  let pk := the_reply s request mt ip (config p) in
  send_dhcp_response e s request mt ip i = Ok (send_ret e pk, after_send e mt pk s).
Proof.
  intros Hf Hp Hc Hl. unfold send_dhcp_response, the_reply, after_send. rewrite Hf, Hp. cbn [negb of_option obind]. unfold dhcp_pool_get_config.
  destruct (reply_options_spec s mt (config p) Hc) as (l & w & E & Ew & Hw). fold (reply_bytes s mt (config p)) in Ew. subst w. pose proof (reply_bytes_fit _ _ _ _ Hw) as Hfit.
  rewrite (obind_run _ _ _ E). destruct Hw as (rest & Eb & Eo & _).
  rewrite Eb, (obind_run (load _ _ _) (reply_bytes s mt (config p))) by (apply (load_app [] _ rest); done).
  rewrite (zeros_split DHCP_MAX_OPTIONS_SIZE (offset l)) by lia.
  rewrite (obind_run (store _ _ _) (reply_bytes s mt (config p) ++ zeros (DHCP_MAX_OPTIONS_SIZE - offset l)))
    by (apply (store_app [] (zeros (offset l))); [done|]; unfold zeros; rewrite length_replicate; lia).
  rewrite (obind_run (load _ _ _) (chaddr request)) by (change 16 with (Z.of_nat 16); rewrite <- Hl; apply load_all).
  rewrite (obind_run _ _ _ (destination_spec request ip Hl)). destruct (goes_to request ip) as [[mac dst] bc]. rewrite Eo. done.
Qed.

Lemma lease_items_ok c : config_ok c -> Forall option_ok (lease_items c).
Proof.
  intros Hc. pose proof (cf_num _ Hc) as Hn. destruct (dns_bytes (dns_servers c) (num_dns c) (cf_dns _ Hc) Hn) as [_ Ld]. pose proof (domain_length c Hc) as Hd.
  assert (forall b code d, 0 < code < 255 -> (length d <= 255)%nat -> Forall option_ok (opt_if b code d)) as H by (intros [] code d Hc1 Hd1; [by apply Forall_singleton|done]).
  unfold lease_items. rewrite !Forall_app. split; [repeat (apply Forall_cons; split; [split; [done|]; cbn [snd]; rewrite length_le; lia|]); done|].
  repeat split; apply H; rewrite ?length_le; try (unfold DHCP_OPT_ROUTER, DHCP_OPT_DNS, DHCP_OPT_DOMAIN, DHCP_OPT_BROADCAST; lia).
Qed.

Lemma reply_items_ok s mt c : config_ok c -> Forall option_ok (reply_items s mt c).
Proof.
  intros Hc. unfold reply_items. apply Forall_app. split; [repeat (apply Forall_cons; split; [split; [done|]; cbn [snd]; rewrite ?length_le; simpl; lia|]); done|].
  destruct (_ || _); [by apply lease_items_ok|]. destruct (mt =? DHCP_NAK); [|done]. by repeat constructor; vm_compute.
Qed.

(** C35: A reply that is sent answers the request: it carries its transaction id, hardware
    address, flags and relay, the offered address (none in a NAK), and a receiver that looks
    for an option finds exactly those that the message type and the configuration of the pool
    ask for (type, server id; lease times, mask, router, name servers, domain and broadcast
    address; the message of a NAK), each with its value. *)
Theorem reply_readable e s request mt ip i p : send_fn s = true -> pools s !! i = Some p -> config_ok (config p) -> length (chaddr request) = 16%nat ->
  exists pk, send_dhcp_response e s request mt ip i = Ok (send_ret e pk, after_send e mt pk s) /\
    op (reply pk) = DHCP_BOOTREPLY /\ xid (reply pk) = xid request /\ chaddr (reply pk) = chaddr request /\
    flags (reply pk) = flags request /\ giaddr (reply pk) = giaddr request /\ yiaddr (reply pk) = (if mt =? DHCP_NAK then 0 else ip) /\
    (dst_mac pk, dst_ip pk, broadcast pk) = goes_to request ip /\
    forall code buf buflen, dhcp_option_find_in_packet (reply pk) code buf buflen =
      match first_with code (opt_items (reply_items s mt (config p))) with Some d => deliver buf buflen d | None => Ok (-1, buf) end.
Proof.
  intros Hf Hp Hc Hl. exists (the_reply s request mt ip (config p)). split; [by apply send_response_spec|]. unfold the_reply.
  destruct (goes_to request ip) as [[mac dst] bc]. do 7 (split; [done|]). intros code buf buflen.
  destruct (reply_options_spec s mt (config p) Hc) as (l & w & _ & -> & Hw). fold (reply_bytes s mt (config p)) in Hw. pose proof (reply_bytes_fit _ _ _ _ Hw) as Hfit.
  apply find_serialized with (rest := zeros (DHCP_MAX_OPTIONS_SIZE - Z.of_nat (length (reply_bytes s mt (config p))))).
  - cbn [reply reply_for options]. unfold reply_bytes at 1. by rewrite <- (assoc_L (++)).
  - cbn [reply reply_for options]. unfold zeros. rewrite length_app, length_replicate. lia.
  - by apply reply_items_ok.
Qed.
