(* ===== verification/DhcpServerRun.v ===== *)
(** * What the handlers of the DHCP server do

    Each handler is run on a server whose pools and lease database are consistent and on a
    well formed packet: it returns, the server stays consistent, and the pools, the leases
    (as a map from the hardware address) and the packets sent are described exactly enough
    to reason on histories of messages. *)

From S2P Require Import Prelude Common CString Bytes Keyed Links Chains Handler DhcpOption DhcpPacket DhcpPool DhcpPoolBits DhcpPoolSpec DhcpPoolRun DhcpLease DhcpLeaseRep DhcpLeaseSpec DhcpLeaseRun DhcpServer DhcpServerReply.

(** ** Consistent servers, well formed packets *)

Definition pool_ok (fuel : nat) (p : dhcp_pool) : Prop := pool_wf p /\ config_ok (config p) /\ pool_size p <= Z.of_nat fuel.

Definition sv_ok (fuel : nat) (s : dhcp_server) : Prop := Forall (pool_ok fuel) (pools s) /\ db_ok (lease_db s).

(** The options of the packet end properly, and the hostname fits its array on the stack. *)
Record request_ok (r : dhcp_packet) : Prop := {
  rq_packet : packet_ok r;
  rq_tail : complete (tail_of (options r));
  rq_mac : length (chaddr r) = 16%nat;
  rq_ci : is_u32 (ciaddr r);
  rq_host : forall d, first_with DHCP_OPT_HOSTNAME (items_of (options r)) = Some d -> (length d < 64)%nat
}.

(** calloc returns fresh memory. *)
Record env_ok (e : env) : Prop := {
  en_alloc : forall h a, lease_alloc e h = Some a -> a <> 0 /\ h !! a = None;
  en_stack : length (stack_junk e) = 64%nat
}.

(** [effect s s' ps v out]: from [s] to [s'] the settings are kept, the pools become [ps], the
    leases [v], and [out] was sent. *)
Record effect (s s' : dhcp_server) (ps : list dhcp_pool) (v : gmap (list Z) dhcp_lease) (out : list sent_packet) : Prop := {
  ef_config : sv_config s' = sv_config s;
  ef_fn : send_fn s' = send_fn s;
  ef_pools : pools s' = ps;
  ef_db : db_ok (lease_db s');
  ef_view : view (lease_db s') = v;
  ef_sent : sent s' = sent s ++ out
}.

Definition leases (s : dhcp_server) : gmap (list Z) dhcp_lease := view (lease_db s).

Lemma effect_refl fuel s : sv_ok fuel s -> effect s s (pools s) (leases s) [].
Proof. intros [_ H]. by split; rewrite ?app_nil_r. Qed.

Lemma effect_stats f fuel s : sv_ok fuel s -> effect s (with_stats f s) (pools s) (leases s) [].
Proof. intros [_ H]. by split; rewrite ?app_nil_r. Qed.

Lemma effect_trans s s1 s' ps1 v1 o1 ps v o : effect s s1 ps1 v1 o1 -> effect s1 s' ps v o -> effect s s' ps v (o1 ++ o).
Proof. intros [A1 A2 A3 A4 A5 A6] [B1 B2 B3 B4 B5 B6]. split; try congruence. by rewrite B6, A6, (assoc_L (++)). Qed.

(** ** The steps of the handlers *)

Section steps.
Context (fuel : nat) (s : dhcp_server) (Hs : sv_ok fuel s).

Lemma pool_at i p : pools s !! i = Some p -> pool_ok fuel p.
Proof. intros Hi. destruct Hs as [H _]. by eapply Forall_lookup in H. Qed.

Lemma on_pool_step {R} i p (f : dhcp_pool -> outcome (R * dhcp_pool)) r p' : pools s !! i = Some p -> f p = Ok (r, p') -> 
  exists s', on_pool i f s = Ok (r, s') /\ effect s s' (<[i := p']> (pools s)) (leases s) [].
Proof.
  intros Hi Hf. exists (with_pools (<[i := p']> (pools s)) s). unfold on_pool. rewrite Hi. cbn [of_option obind]. rewrite Hf. split; [done|].
  destruct Hs. by split; rewrite ?app_nil_r.
Qed.

Lemma on_db_step {R} (f : dhcp_lease_db -> outcome (R * dhcp_lease_db)) r d' : f (lease_db s) = Ok (r, d') -> db_ok d' ->
  exists s', on_db f s = Ok (r, s') /\ lease_db s' = d' /\ effect s s' (pools s) (view d') [].
Proof.
  intros Hf Hd. exists (with_db d' s). unfold on_db. rewrite Hf. split; [done|]. split; [done|]. by split; rewrite ?app_nil_r.
Qed.

(** A lease by its address: the lease of its hardware address. *)
Definition points_to (s : dhcp_server) (a : Z) (mac : list Z) (l : dhcp_lease) : Prop :=
  heap (lease_db s) !! a = Some l /\ l_mac l = mac /\ leases s !! mac = Some (content l).

Lemma find_mac_step mac :
  exists r s', on_db (fun d => dhcp_lease_find_by_mac d mac) s = Ok (r, s') /\ effect s s' (pools s) (leases s) [] /\
    match r with Some a => exists l, points_to s' a mac l | None => leases s !! mac = None end.
Proof.
  destruct Hs as [_ [[L HL] Hwf]]. destruct (find_view _ L mac HL) as (r & E & Hr).
  destruct (on_db_step (fun d => dhcp_lease_find_by_mac d mac) r _ E) as (s' & E' & Ed & Hef); [split; [exists L; by apply rep_count_lookup|done]|].
  exists r, s'. split; [done|]. split; [exact Hef|]. unfold points_to, leases. rewrite Ed. by destruct r.
Qed.

Lemma find_ip_step ip :
  exists r s', on_db (fun d => dhcp_lease_find_by_ip d ip) s = Ok (r, s') /\ effect s s' (pools s) (leases s) [] /\
    match r with Some a => exists mac l, points_to s' a mac l /\ l_ip l = ip | None => True end.
Proof.
  destruct Hs as [_ [[L HL] Hwf]]. destruct (find_by_ip_spec _ L HL ip) as (r & E & Hr).
  destruct (on_db_step (fun d => dhcp_lease_find_by_ip d ip) r _ E) as (s' & E' & Ed & Hef); [split; [exists L; by apply rep_count_lookup|done]|].
  exists r, s'. split; [done|]. split; [exact Hef|]. unfold points_to, leases. rewrite Ed. destruct r as [a|]; [|done].
  pose proof (first_in_spec (heap (lease_db s)) (fun l => l_ip l =? ip) L) as Hf. rewrite <- Hr in Hf. destruct Hf as (_ & l & Hl & Hip%Z.eqb_eq).
  exists (l_mac l), l. split; [|done]. split; [done|]. split; [done|]. apply (view_lookup _ L HL). by exists a, l.
Qed.

Lemma update_step now u a mac l : points_to s a mac l -> update_ok u l ->
  exists s', on_db (fun d => run_update now u d a) s = Ok ((spec_update now u l).1, s') /\ points_to s' a mac (spec_update now u l).2 /\
    effect s s' (pools s) (<[mac := content (spec_update now u l).2]> (leases s)) [].
Proof.
  intros (Hl & <- & Hv) Hu. destruct Hs as [_ [[L HL] Hwf]]. pose proof (heap_wf _ _ _ _ HL Hwf Hl) as Hlw.
  destruct (update_spec now (lease_db s) L a l HL Hl Hlw u Hu) as (d' & E & C). pose proof (changed_view _ _ _ _ _ _ HL C) as Ev.
  assert (db_ok d') as Hd.
  { split; [exists L; apply (chg_rep _ _ _ _ _ _ C)|]. rewrite Ev. apply wf_insert; [done|]. apply lease_wf_content. by eapply update_wf. }
  destruct (on_db_step (fun d => run_update now u d a) _ _ E Hd) as (s' & E' & Ed & Hef). exists s'. split; [done|]. rewrite Ev in Hef. split; [|done].
  unfold points_to, leases. rewrite Ed, Ev, (chg_heap _ _ _ _ _ _ C), (chg_mac _ _ _ _ _ _ C), !lookup_insert_eq. done.
Qed.

(** Creating a lease. *)
Definition create_goal (f : dhcp_lease_db -> outcome (option Z * dhcp_lease_db)) (mac : list Z) (spec : Z * gmap (list Z) dhcp_lease) : Prop :=
  exists r s', on_db f s = Ok (r, s') /\ effect s s' (pools s) spec.2 [] /\
    match r with Some a => spec.1 = 0 /\ exists l, points_to s' a mac l | None => spec.1 = -1 end.

Lemma returns_step f mac spec : returns (lease_db s) (f (lease_db s)) mac spec -> create_goal f mac spec.
Proof.
  intros (r & d & E & Hd & Ev & _ & Hr). destruct (on_db_step f r d E Hd) as (s' & E' & Ed & Hef). exists r, s'. rewrite Ev in Hef.
  split; [done|]. split; [done|]. unfold points_to, leases. rewrite Ed. by destruct r.
Qed.

Lemma alloc_fresh e : env_ok e -> alloc_ok (lease_alloc e (heap (lease_db s))) (lease_db s).
Proof. intros He. unfold alloc_ok. destruct (lease_alloc e _) as [a|] eqn:E; [|done]. by apply (en_alloc _ He). Qed.

Lemma offer_step e ip mac xid : env_ok e ->
  create_goal (fun d => dhcp_lease_create_offered (time2 e) (lease_alloc e (heap d)) d ip mac xid) mac
    (upsert (fun l => offered (time2 e) (offer_timeout (lease_db s)) xid (with_ip ip l)) mac
       (negb (full (leases s)) && found (lease_alloc e (heap (lease_db s)))) (leases s)).
Proof. intros He. apply returns_step, create_offered_spec; [apply Hs|by apply alloc_fresh]. Qed.

Lemma create_step e ip mac secs : env_ok e ->
  create_goal (fun d => dhcp_lease_create (time1 e) (lease_alloc e (heap d)) d ip mac secs) mac
    (if full (leases s) then (-1, leases s) else upsert (bound (time1 e) ip secs) mac (found (lease_alloc e (heap (lease_db s)))) (leases s)).
Proof. intros He. apply returns_step, create_spec; [apply Hs|by apply alloc_fresh]. Qed.

(** Sending, when there is a callback. *)
Definition replies (request : dhcp_packet) (mt ip : Z) (i : nat) : list sent_packet :=
  match pools s !! i with Some p => if send_fn s then [the_reply s request mt ip (config p)] else [] | None => [] end.

Lemma send_step e request mt ip i p : pools s !! i = Some p -> length (chaddr request) = 16%nat ->
  exists r s', send_dhcp_response e s request mt ip i = Ok (r, s') /\ effect s s' (pools s) (leases s) (replies request mt ip i).
Proof.
  intros Hp Hl. unfold replies. rewrite Hp. destruct (send_fn s) eqn:Hf.
  - pose proof (send_response_spec e s request mt ip i p Hf Hp (proj1 (proj2 (pool_at i p Hp))) Hl) as E.
    eexists _, _. split; [exact E|]. unfold after_send. destruct Hs. by destruct (_ =? 0); split.
  - exists (-1), s. unfold send_dhcp_response. rewrite Hf. split; [done|]. by apply (effect_refl fuel).
Qed.
End steps.

(** A consistent server again. *)
Lemma effect_ok fuel s s' ps v out : effect s s' ps v out -> Forall (pool_ok fuel) ps -> sv_ok fuel s'.
Proof. intros Hef Hps. split; [by rewrite (ef_pools _ _ _ _ _ Hef)|apply (ef_db _ _ _ _ _ Hef)]. Qed.

Lemma effect_same fuel s s' v out : sv_ok fuel s -> effect s s' (pools s) v out -> sv_ok fuel s'.
Proof. intros [Hp _] Hef. by apply (effect_ok _ _ _ _ _ _ Hef). Qed.

(** The hostname of the packet is noted in the lease. *)
Lemma hostname_step fuel e s request a mac l : sv_ok fuel s -> env_ok e -> request_ok request -> points_to s a mac l ->
  exists s' l', note_hostname e s request a = Ok s' /\ l_ip l' = l_ip l /\ state l' = state l /\ l_mac l' = l_mac l /\
    effect s s' (pools s) (<[mac := content l']> (leases s)) [].
Proof.
  intros Hs He Hr Ha. assert (exists n h, dhcp_option_get_string_from_packet request DHCP_OPT_HOSTNAME (Some (stack_junk e)) 64 = Ok (n, Some h) /\ (0 < n -> 0 ∈ h)) as (n & h & E & Hend).
  { pose proof (get_string_spec request DHCP_OPT_HOSTNAME (stack_junk e) (rq_packet _ Hr) (rq_tail _ Hr)) as Hg. rewrite (en_stack _ He) in Hg. specialize (Hg ltac:(lia)).
    change (Z.of_nat 64) with 64 in Hg. pose proof (rq_host _ Hr) as Hh. destruct (first_with DHCP_OPT_HOSTNAME _) as [[|b d]|]; [destruct Hg as (h & E & _); exists (-1), h; split; [done|lia]| |destruct Hg as (h & E & _); exists (-1), h; split; [done|lia]].
    specialize (Hh _ eq_refl). destruct (Nat.ltb_spec (length (b :: d)) 64); [|lia]. destruct Hg as (h & E & _ & Hz). exists (Z.of_nat (length (b :: d))), h. split; [done|]. intros _. by eapply list_elem_of_lookup_2. }
  unfold note_hostname. rewrite (obind_run _ _ _ E). destruct (Z.ltb_spec 0 n) as [Hn|]; cbn beta iota.
  - unfold c_string. cbn [default]. rewrite bool_decide_eq_true_2 by auto. cbn [obind].
    destruct (update_step fuel s Hs 0 (UHostname (Some (until_nul h))) a mac l Ha I) as (s' & E' & _ & Hef). cbn [run_update] in E'. rewrite (obind_run _ _ _ E').
    exists s', (spec_hostname (Some (until_nul h)) l). done.
  - exists s, l. split; [done|]. split; [done|]. split; [done|]. split; [done|]. rewrite insert_id by apply Ha. by apply (effect_refl fuel).
Qed.

(** ** Pools *)

Lemma request_pool s i : find_pool_for_request s = Some i -> exists p, pools s !! i = Some p.
Proof.
  unfold find_pool_for_request. destruct (index_of _ _) as [j|] eqn:E; [intros [= <-]; destruct (index_of_spec _ _ _ E) as (p & H & _); by exists p|].
  destruct (pools s) as [|p ps]; [done|]. intros [= <-]. by exists p.
Qed.

Lemma ip_pool s ip i : dhcp_server_find_pool_for_ip s ip = Some i -> exists p, pools s !! i = Some p /\ dhcp_pool_contains p ip = true.
Proof. apply index_of_spec. Qed.

Definition no_reservations (ps : list dhcp_pool) : Prop := Forall (fun p => num_reservations p = 0) ps.

(** Pools that only got more addresses in use. *)
Definition pool_le (p p' : dhcp_pool) : Prop := grows p p' /\ num_reservations p' = num_reservations p.
Definition grow (ps ps' : list dhcp_pool) : Prop := Forall2 pool_le ps ps'.

(** The address is in use in the pool at [i]. *)
Definition used_at (ps : list dhcp_pool) (i : nat) (ip : Z) : Prop :=
  exists p, ps !! i = Some p /\ dhcp_pool_contains p ip = true /\ used (bitmap p) (ip_to_offset p ip) = true.

(** ... and it was not before. *)
Definition fresh_at (ps : list dhcp_pool) (i : nat) (ip : Z) : Prop :=
  exists p, ps !! i = Some p /\ dhcp_pool_contains p ip = true /\ used (bitmap p) (ip_to_offset p ip) = false.

Lemma pool_le_refl p : pool_le p p.
Proof. split; [apply pool_grows_refl|done]. Qed.

Lemma grow_refl ps : grow ps ps.
Proof. apply Forall2_same_length_lookup_2; [done|]. intros i x y Hx Hy. simplify_eq. apply pool_le_refl. Qed.

Lemma grow_insert ps i p p' : ps !! i = Some p -> pool_le p p' -> grow ps (<[i := p']> ps).
Proof.
  intros Hi Hle. apply Forall2_same_length_lookup_2; [by rewrite length_insert|]. intros j x y Hx Hy. destruct (decide (j = i)) as [->|Hn].
  - rewrite list_lookup_insert_eq in Hy by by eapply lookup_lt_Some. by simplify_eq.
  - rewrite list_lookup_insert_ne in Hy by done. simplify_eq. apply pool_le_refl.
Qed.

Lemma pools_ok_insert fuel ps i p : Forall (pool_ok fuel) ps -> pool_ok fuel p -> Forall (pool_ok fuel) (<[i := p]> ps).
Proof. intros H1 H2. by apply Forall_insert. Qed.

Lemma pool_ok_params fuel p p' : pool_ok fuel p -> pool_wf p' -> same_params p p' -> pool_ok fuel p'.
Proof. intros (_ & H2 & H3) Hw (E1 & _ & E3 & _). split; [done|]. by rewrite E1, E3. Qed.

Lemma used_at_grow fuel ps ps' i ip : Forall (pool_ok fuel) ps -> grow ps ps' -> used_at ps i ip -> used_at ps' i ip.
Proof.
  intros Hok Hg (p & Hp & Hc & Hu). destruct (Forall2_lookup_l _ _ _ _ _ Hg Hp) as (p' & Hp' & (G1 & G2 & G3) & _). exists p'.
  destruct (contains_range p p' ip G1 G2) as [-> ->]. split; [done|]. split; [done|]. apply G3; [|done].
  eapply Forall_lookup in Hok as (Hw & _); [|done]. by apply (contained_range p Hw ip) in Hc as [[? _] _].
Qed.

Lemma no_res_find p mac : num_reservations p = 0 -> dhcp_pool_find_reservation p mac = None.
Proof. intros H. unfold dhcp_pool_find_reservation, reservation_list. rewrite H. done. Qed.

(** ** DISCOVER *)

(** A lease that holds its address. *)
Definition holding (l : dhcp_lease) : Prop := state l = DHCP_LEASE_OFFERED \/ state l = DHCP_LEASE_BOUND.

Lemma valid_holding now l : dhcp_lease_is_valid now l = true -> holding l.
Proof. unfold dhcp_lease_is_valid, holding. destruct (Z.eqb_spec (state l) DHCP_LEASE_BOUND), (Z.eqb_spec (state l) DHCP_LEASE_OFFERED); auto; done. Qed.

Definition client_holds (s : dhcp_server) (mac : list Z) (ip : Z) : Prop := exists l, leases s !! mac = Some l /\ holding l /\ l_ip l = ip.

(** An address that was free in [p] and is in use in [p']. *)
Definition newly (p p' : dhcp_pool) (ip : Z) : Prop :=
  is_u32 ip /\ dhcp_pool_contains p ip = true /\ used (bitmap p) (ip_to_offset p ip) = false /\ used (bitmap p') (ip_to_offset p ip) = true.

Lemma allocate_step fuel p mac : pool_ok fuel p ->
  exists ip p', dhcp_pool_allocate fuel p (Some mac) = Ok (ip, p') /\ pool_ok fuel p' /\
    (num_reservations p = 0 -> pool_le p p' /\ (ip = 0 \/ newly p p' ip)).
Proof.
  intros Hok. destruct (allocate_wf fuel p (Some mac) (proj1 Hok) (proj2 (proj2 Hok))) as (ip & p' & E & Hw & Hsp & Hm & _).
  exists ip, p'. split; [done|]. split; [by apply (pool_ok_params _ p)|]. intros Hres. split.
  - destruct Hsp as (E1 & _ & _ & _ & E5 & _). split; [|done]. split; [by rewrite E1|]. split; [by rewrite E1|]. done.
  - destruct (decide (ip = 0)) as [|Hn]; [by left|]. right.
    destruct (handed_out fuel p (Allocate (Some mac)) ip p' (proj1 Hok) (proj2 (proj2 Hok)) E Hn) as (H1 & H2 & H3).
    destruct (H3 (no_res_find p mac Hres)) as [H4 H5]. split; [done|]. split; [done|]. split; [done|]. by apply H2.
Qed.

Definition chosen (fuel : nat) (s : dhcp_server) (i : nat) (p : dhcp_pool) (mac : list Z) (m : outcome (Z * dhcp_server)) : Prop :=
  exists ip s' p', m = Ok (ip, s') /\ effect s s' (<[i := p']> (pools s)) (leases s) [] /\ pool_ok fuel p' /\
    (num_reservations p = 0 -> pool_le p p' /\ (ip = 0 \/ client_holds s mac ip \/ newly p p' ip)).

Lemma new_address_step fuel s i p mac : sv_ok fuel s -> pools s !! i = Some p ->
  chosen fuel s i p mac (match dhcp_pool_find_reservation p mac with
                         | Some res => Ok (res_ip res, s)
                         | None => on_pool i (fun p => dhcp_pool_allocate fuel p (Some mac)) s
                         end).
Proof.
  intros Hs Hp. pose proof (pool_at fuel s Hs i p Hp) as Hok. destruct (dhcp_pool_find_reservation p mac) as [res|] eqn:Er.
  - exists (res_ip res), s, p. split; [done|]. rewrite list_insert_id by done. split; [by apply (effect_refl fuel)|]. split; [done|].
    intros H. rewrite (no_res_find p mac H) in Er. done.
  - destruct (allocate_step fuel p mac Hok) as (ip & p' & E & Hok' & Hr).
    destruct (on_pool_step fuel s Hs i p (fun p => dhcp_pool_allocate fuel p (Some mac)) ip p' Hp E) as (s' & E' & Hef).
    exists ip, s', p'. split; [done|]. split; [done|]. split; [done|]. intros H. destruct (Hr H) as [? [?|?]]; auto.
Qed.

Lemma choose_step fuel e s i p lease mac : sv_ok fuel s -> pools s !! i = Some p ->
  match lease with Some a => exists l, points_to s a mac l | None => leases s !! mac = None end ->
  chosen fuel s i p mac (choose_address e fuel s i lease mac).
Proof.
  intros Hs Hp Hl. unfold choose_address. rewrite Hp. cbn [of_option obind]. pose proof (new_address_step fuel s i p mac Hs Hp) as Hnew.
  destruct lease as [a|]; [|exact Hnew]. destruct Hl as (l & Ha & Hm & Hv). rewrite Ha. cbn [of_option obind].
  destruct (dhcp_lease_is_valid (time1 e) l) eqn:Ev; [|exact Hnew]. exists (l_ip l), s, p. split; [done|]. rewrite list_insert_id by done.
  split; [by apply (effect_refl fuel)|]. split; [by apply (pool_at fuel s Hs i)|]. intros _. split; [apply pool_le_refl|]. right. left. exists (content l).
  split; [done|]. split; [exact (valid_holding _ _ Ev)|done].
Qed.

(** The packets in [out] are replies of type [mt] to the request, with the address [ip]. *)
Definition answers (request : dhcp_packet) (mt ip : Z) (out : list sent_packet) : Prop :=
  forall pk, pk ∈ out -> exists s c, reply pk = reply_for s request mt ip c.

Lemma replies_answer s request mt ip i : answers request mt ip (replies s request mt ip i).
Proof.
  intros pk. unfold replies. destruct (pools s !! i) as [p|]; [|by intros ?%not_elem_of_nil]. destruct (send_fn s); [|by intros ?%not_elem_of_nil].
  intros ->%list_elem_of_singleton. exists s, (config p). unfold the_reply. by destruct (goes_to request ip) as [[? ?] ?].
Qed.

Lemma answers_nil request mt ip : answers request mt ip [].
Proof. by intros pk ?%not_elem_of_nil. Qed.

(** A handler runs, and [Q] holds of the pools, the leases and the packets sent. *)
Definition handled (fuel : nat) (s : dhcp_server) (m : outcome (Z * dhcp_server))
  (Q : list dhcp_pool -> gmap (list Z) dhcp_lease -> list sent_packet -> Prop) : Prop :=
  exists r s' ps v out, m = Ok (r, s') /\ effect s s' ps v out /\ Forall (pool_ok fuel) ps /\ Q ps v out.

Lemma handled_ret (fuel : nat) (s s' : dhcp_server) (r : Z) (ps : list dhcp_pool) (v : gmap (list Z) dhcp_lease) (out : list sent_packet) (Q : list dhcp_pool -> gmap (list Z) dhcp_lease -> list sent_packet -> Prop) :
  effect s s' ps v out -> Forall (pool_ok fuel) ps -> Q ps v out -> handled fuel s (Ok (r, s')) Q.
Proof. intros. exists r, s', ps, v, out. done. Qed.

Lemma handled_after fuel s s1 ps1 v1 m Q : effect s s1 ps1 v1 [] -> handled fuel s1 m Q -> handled fuel s m Q.
Proof. intros Hef (r & s' & ps & v & out & E & Hef' & Hok & HQ). exists r, s', ps, v, out. split; [done|]. split; [exact (effect_trans _ _ _ _ _ _ _ _ _ Hef Hef')|done]. Qed.

Lemma handled_weaken (fuel : nat) (s : dhcp_server) (m : outcome (Z * dhcp_server)) (Q Q' : list dhcp_pool -> gmap (list Z) dhcp_lease -> list sent_packet -> Prop) :
  handled fuel s m Q -> (forall ps v out, Q ps v out -> Q' ps v out) -> handled fuel s m Q'.
Proof. intros (r & s' & ps & v & out & E & Hef & Hok & HQ) H. exists r, s', ps, v, out. auto. Qed.

(** The client is offered the address it holds or one that was free. *)
Definition offer_made (s : dhcp_server) (mac : list Z) (ip : Z) (ps : list dhcp_pool) : Prop :=
  client_holds s mac ip \/ (is_u32 ip /\ exists i, fresh_at (pools s) i ip /\ used_at ps i ip).

Definition discovered (s : dhcp_server) (request : dhcp_packet) (ps : list dhcp_pool) (v : gmap (list Z) dhcp_lease) (out : list sent_packet) : Prop :=
  no_reservations (pools s) -> grow (pools s) ps /\
    ((v = leases s /\ out = []) \/
     exists l, v = <[client_mac request := l]> (leases s) /\ state l = DHCP_LEASE_OFFERED /\ answers request DHCP_OFFER (l_ip l) out /\ offer_made s (client_mac request) (l_ip l) ps).

Lemma upsert_cases (f : dhcp_lease -> dhcp_lease) (mac : list Z) (room : bool) (m : gmap (list Z) dhcp_lease) :
  (exists l, upsert f mac room m = (0, <[mac := f l]> m)) \/ (upsert f mac room m = (-1, m) /\ m !! mac = None).
Proof. unfold upsert. destruct (m !! mac) as [l|] eqn:E; [left; by exists l|]. destruct room; [left; by eexists|by right]. Qed.

(** The end of DISCOVER, once there is a lease. *)
Lemma discover_send fuel e s request a mac l i p : sv_ok fuel s -> env_ok e -> request_ok request -> points_to s a mac l -> pools s !! i = Some p ->
  handled fuel s (let! s := note_hostname e s request a in
                  let! (_, s) := send_dhcp_response e s request DHCP_OFFER (l_ip l) i in Ok (QD_HANDLER_OK, s))
    (fun ps v out => ps = pools s /\ answers request DHCP_OFFER (l_ip l) out /\
       exists l', v = <[mac := l']> (leases s) /\ l_ip l' = l_ip l /\ state l' = state l).
Proof.
  intros Hs He Hr Ha Hp. destruct (hostname_step fuel e s request a mac l Hs He Hr Ha) as (s1 & l1 & E1 & H1 & H2 & _ & F1).
  rewrite (obind_run _ _ _ E1). pose proof (effect_same fuel _ _ _ _ Hs F1) as Hs1. pose proof (ef_pools _ _ _ _ _ F1) as Ep.
  destruct (send_step fuel s1 Hs1 e request DHCP_OFFER (l_ip l) i p ltac:(by rewrite Ep) (rq_mac _ Hr)) as (r & s2 & E2 & F2). rewrite (obind_run _ _ _ E2).
  eapply handled_ret; [exact (effect_trans _ _ _ _ _ _ _ _ _ F1 F2)|rewrite Ep; apply Hs|]. split; [done|]. split; [apply replies_answer|].
  exists (content l1). split; [apply (ef_view _ _ _ _ _ F1)|done].
Qed.

(** An address that was taken and is given back. *)
Lemma release_newly fuel p p' ip : pool_ok fuel p -> pool_ok fuel p' -> 
  exists r p'', dhcp_pool_release p' ip = Ok (r, p'') /\ pool_ok fuel p'' /\ (pool_le p p' -> newly p p' ip -> pool_le p p'').
Proof.
  intros Hok Hok'. destruct (release_spec p' (proj1 Hok') ip) as (r & p'' & E & Hw & Hsp & Hu). exists r, p''. split; [done|].
  split; [by apply (pool_ok_params _ p')|]. intros [(G1 & G2 & G3) Hn] (_ & Hc & Hf & _). destruct (contains_range p p' ip G1 G2) as [E1 E2].
  rewrite E1, Hc, E2 in Hu. destruct Hu as (_ & Hu & _). destruct Hsp as (C1 & _ & _ & _ & C5 & _). split; [|by rewrite C5].
  split; [by rewrite C1|]. split; [by rewrite C1|]. intros x Hx Hux. rewrite Hu, (G3 x Hx Hux) by done.
  destruct (Z.eqb_spec x (ip_to_offset p ip)) as [->|]; [congruence|done].
Qed.

(** DISCOVER from the chosen address on; [s] is the server before the address was chosen. *)
Lemma discover_offer fuel e s s1 request i p p' ip : sv_ok fuel s -> env_ok e -> request_ok request -> pools s !! i = Some p ->
  effect s s1 (<[i := p']> (pools s)) (leases s) [] -> pool_ok fuel p' ->
  (num_reservations p = 0 -> pool_le p p' /\ (client_holds s (client_mac request) ip \/ newly p p' ip)) ->
  handled fuel s
    (let! (lease, s) := on_db (fun d => dhcp_lease_create_offered (time2 e) (lease_alloc e (heap d)) d ip (client_mac request) (xid request)) s1 in
     match lease with
     | None =>
       let! (_, s) := on_pool i (fun p => dhcp_pool_release p ip) s in Ok (QD_HANDLER_ERROR, with_stats count_sv_error s)
     | Some a =>
       let! s := note_hostname e s request a in
       let! (_, s) := send_dhcp_response e s request DHCP_OFFER ip i in Ok (QD_HANDLER_OK, s)
     end)
    (discovered s request).
Proof.
  intros Hs He Hr Hp F1 Hok' Hc. pose proof (effect_ok _ _ _ _ _ _ F1 (pools_ok_insert _ _ _ _ (proj1 Hs) Hok')) as Hs1.
  assert (pools s1 !! i = Some p') as Hp1 by (rewrite (ef_pools _ _ _ _ _ F1); apply list_lookup_insert_eq; by eapply lookup_lt_Some).
  destruct (offer_step fuel s1 Hs1 e ip (client_mac request) (xid request) He) as (r & s2 & E & F2 & Hr2). rewrite (obind_run _ _ _ E).
  eapply handled_after; [exact F1|]. unfold leases in *. rewrite (ef_view _ _ _ _ _ F1) in F2, Hr2. set (mac := client_mac request) in *.
  assert (pools s2 !! i = Some p') as Hp2 by by rewrite (ef_pools _ _ _ _ _ F2).
  pose proof (effect_same _ _ _ _ _ Hs1 F2) as Hs2. eapply handled_after; [exact F2|]. destruct (upsert_cases (fun l => offered (time2 e) (offer_timeout (lease_db s1)) (xid request) (with_ip ip l)) mac
    (negb (full (leases s1)) && found (lease_alloc e (heap (lease_db s1)))) (view (lease_db s))) as [[l0 Eu]|[Eu Hno]]; 
    unfold leases in Eu; rewrite (ef_view _ _ _ _ _ F1) in Eu; rewrite Eu in F2, Hr2; cbn [fst snd] in F2, Hr2.
  - destruct r as [a|]; [|done]. destruct Hr2 as (_ & l & Ha). assert (content l = offered (time2 e) (offer_timeout (lease_db s1)) (xid request) (with_ip ip l0)) as El.
    { destruct Ha as (_ & _ & Hv). unfold leases in Hv. rewrite (ef_view _ _ _ _ _ F2), lookup_insert_eq in Hv. congruence. }
    pose proof (f_equal l_ip El) as Eip. pose proof (f_equal state El) as Est. cbn in Eip, Est. rewrite <- Eip. eapply handled_weaken; [by apply (discover_send fuel e s2 request a mac l i p')|].
    intros ps v out (-> & Hout & l' & -> & El1 & El2) Hres. rewrite (ef_pools _ _ _ _ _ F2), (ef_pools _ _ _ _ _ F1).
    destruct (Hc ltac:(by eapply Forall_lookup in Hres)) as [Hle Hch]. split; [by eapply grow_insert|]. right. exists l'.
    split; [unfold leases; by rewrite (ef_view _ _ _ _ _ F2), insert_insert_eq|]. split; [congruence|]. rewrite El1. split; [done|]. rewrite Eip. destruct Hch as [?|(N1 & N2 & N3 & N4)]; [by left|].
    right. split; [done|]. exists i. split; [by exists p|]. exists p'. rewrite list_lookup_insert_eq by (by eapply lookup_lt_Some).
    destruct (contains_range p p' ip (proj1 (proj1 Hle)) (proj1 (proj2 (proj1 Hle)))) as [-> ->]. done.
  - destruct r as [a|]; [by destruct Hr2|]. destruct (release_newly fuel p p' ip (pool_at fuel s Hs i p Hp) Hok') as (r & p'' & Er & Hok'' & Hle'').
    destruct (on_pool_step fuel s2 Hs2 i p' (fun p => dhcp_pool_release p ip) r p'' Hp2 Er) as (s3 & E3 & F3). rewrite (obind_run _ _ _ E3). 
    eapply handled_after; [exact F3|]. pose proof (effect_ok _ _ _ _ _ _ F3 (pools_ok_insert _ _ _ _ (proj1 Hs2) Hok'')) as Hs3.
    eapply handled_ret; [by apply (effect_stats _ fuel)|apply Hs3|]. intros Hres. destruct (Hc ltac:(by eapply Forall_lookup in Hres)) as [Hle Hch].
    rewrite (ef_pools _ _ _ _ _ F3), (ef_pools _ _ _ _ _ F2), (ef_pools _ _ _ _ _ F1), list_insert_insert_eq. split.
    + eapply grow_insert; [done|]. destruct Hch as [(l & Hl & _)|Hn]; [unfold leases in Hl; fold mac in Hno; congruence|auto].
    + left. split; [|done]. unfold leases. rewrite (ef_view _ _ _ _ _ F3). apply (ef_view _ _ _ _ _ F2).
Qed.

Lemma discover_spec fuel e s request : sv_ok fuel s -> env_ok e -> request_ok request ->
  handled fuel s (dhcp_server_handle_discover e fuel s request) (discovered s request).
Proof.
  intros Hs He Hr. unfold dhcp_server_handle_discover. pose proof (effect_stats count_discover fuel s Hs) as F0. set (s0 := with_stats count_discover s) in *.
  change (discovered s request) with (discovered s0 request). eapply handled_after; [exact F0|]. pose proof (effect_same _ _ _ _ _ Hs F0) as Hs0.
  assert (forall s1 r ps, effect s0 s1 ps (leases s0) [] -> sv_ok fuel s1 -> (no_reservations (pools s0) -> grow (pools s0) ps) ->
    handled fuel s0 (Ok (r, with_stats count_sv_error s1)) (discovered s0 request)) as Hnone.
  { intros s1 r ps F Hs1 Hg. eapply handled_after; [exact F|]. eapply handled_ret; [by apply (effect_stats _ fuel)|apply Hs1|]. intros Hres. rewrite (ef_pools _ _ _ _ _ F).
    split; [auto|]. left. split; [apply (ef_view _ _ _ _ _ F)|done]. }
  destruct (find_pool_for_request s0) as [i|] eqn:Ei; [|apply (Hnone s0 _ (pools s0)); [by apply (effect_refl fuel)|done|intros _; apply grow_refl]].
  destruct (request_pool _ _ Ei) as [p Hp]. destruct (find_mac_step fuel s0 Hs0 (client_mac request)) as (lease & s1 & E1 & F1 & H1). rewrite (obind_run _ _ _ E1).
  pose proof (effect_same _ _ _ _ _ Hs0 F1) as Hs1. pose proof (ef_pools _ _ _ _ _ F1) as Ep. pose proof (ef_view _ _ _ _ _ F1) as Ev. fold (leases s1) in Ev.
  destruct (choose_step fuel e s1 i p lease (client_mac request) Hs1 ltac:(by rewrite Ep)) as (ip & s2 & p' & E2 & F2 & Hok' & Hc); [rewrite Ev; by destruct lease|].
  rewrite (obind_run _ _ _ E2). unfold client_holds in Hc. rewrite Ep, Ev in F2. rewrite Ev in Hc. pose proof (effect_trans _ _ _ _ _ _ _ _ _ F1 F2) as F02.
  destruct (Z.eqb_spec ip 0) as [->|Hip].
  - apply (Hnone s2 _ _ F02); [exact (effect_ok _ _ _ _ _ _ F02 (pools_ok_insert _ _ _ _ (proj1 Hs0) Hok'))|]. intros Hres. eapply grow_insert; [done|]. apply Hc. by eapply Forall_lookup in Hres.
  - apply (discover_offer fuel e s0 s2 request i p p' ip Hs0 He Hr Hp F02 Hok'). intros Hres. destruct (Hc Hres) as (Hle & [|[?|?]]); [done|auto|auto].
Qed.

(** ** REQUEST *)

(** The address the client asks for. *)
Definition asked (request : dhcp_packet) (opt_ip : Z) : Z := if opt_ip =? 0 then ciaddr request else opt_ip.
Definition mismatch (request : dhcp_packet) (opt_ip ip : Z) : bool := negb (asked request opt_ip =? 0) && negb (asked request opt_ip =? ip).

(** Rebinding a lease, which has no effect on one that holds no address. *)
Definition rebound (l l' : dhcp_lease) : Prop := l_ip l' = l_ip l /\ (holding l -> state l' = DHCP_LEASE_BOUND) /\ (state l' = DHCP_LEASE_BOUND \/ l' = l).

Lemma bind_rebound now secs l : rebound (content l) (content (spec_update now (UBind secs) l).2).
Proof.
  cbn [spec_update]. destruct (Z.eqb_spec (state l) DHCP_LEASE_OFFERED), (Z.eqb_spec (state l) DHCP_LEASE_BOUND); cbn [orb snd]; (split; [done|]); (split; [|auto]); try done.
  by intros [H|H].
Qed.

Lemma mark_used_step fuel s i p ip : sv_ok fuel s -> pools s !! i = Some p -> dhcp_pool_contains p ip = true ->
  exists r s' p', on_pool i (fun p => dhcp_pool_mark_used p ip) s = Ok (r, s') /\ effect s s' (<[i := p']> (pools s)) (leases s) [] /\
    pool_ok fuel p' /\ pool_le p p' /\ used_at (<[i := p']> (pools s)) i ip /\ config p' = config p.
Proof.
  intros Hs Hp Hc. pose proof (pool_at fuel s Hs i p Hp) as Hok. destruct (mark_used_spec p (proj1 Hok) ip) as (r & p' & E & Hm). rewrite Hc in Hm. destruct Hm as (_ & Ha & _).
  destruct (on_pool_step fuel s Hs i p (fun p => dhcp_pool_mark_used p ip) r p' Hp E) as (s' & E' & F). exists r, s', p'. split; [done|]. split; [done|].
  pose proof (grows_adds _ _ _ Ha) as Hg. destruct Ha as (Hw & Hsp & Hu). split; [by apply (pool_ok_params _ p)|]. destruct Hsp as (C1 & _ & _ & _ & C5 & _). split; [done|]. split; [|done].
  exists p'. rewrite list_lookup_insert_eq by (by eapply lookup_lt_Some). destruct (contains_range p p' ip (proj1 Hg) (proj1 (proj2 Hg))) as [-> ->]. split; [done|]. split; [done|].
  apply (contained_range p (proj1 Hok)) in Hc as [[? _] _]. by rewrite Hu, Z.eqb_refl.
Qed.

(** REQUEST once there is a lease. *)
Definition answer_request (e : env) (s : dhcp_server) (request : dhcp_packet) (opt_ip a : Z) : outcome (Z * dhcp_server) :=
  let! l := of_option (heap (lease_db s) !! a) in
  match dhcp_server_find_pool_for_ip s (l_ip l) with
  | None => Ok (QD_HANDLER_ERROR, s)
  | Some i =>
    if mismatch request opt_ip (l_ip l) then let! (_, s) := send_dhcp_response e s request DHCP_NAK 0 i in Ok (QD_HANDLER_OK, s) else
    let! p := of_option (pools s !! i) in
    let! (_, s) := on_db (fun d => dhcp_lease_bind (time2 e) d a (default_lease (dhcp_pool_get_config p))) s in
    let! l := of_option (heap (lease_db s) !! a) in
    let! (_, s) := on_pool i (fun p => dhcp_pool_mark_used p (l_ip l)) s in
    let! (_, s) := send_dhcp_response e s request DHCP_ACK (l_ip l) i in
    Ok (QD_HANDLER_OK, s)
  end.

Definition request_answered (s : dhcp_server) (request : dhcp_packet) (opt_ip : Z) (mac : list Z) (l : dhcp_lease)
  (ps : list dhcp_pool) (v : gmap (list Z) dhcp_lease) (out : list sent_packet) : Prop :=
  match dhcp_server_find_pool_for_ip s (l_ip l) with
  | None => ps = pools s /\ v = leases s /\ out = []
  | Some i =>
    if mismatch request opt_ip (l_ip l) then ps = pools s /\ v = leases s /\ answers request DHCP_NAK 0 out
    else grow (pools s) ps /\ used_at ps i (l_ip l) /\ answers request DHCP_ACK (l_ip l) out /\ exists l', v = <[mac := l']> (leases s) /\ rebound (content l) l'
  end.

Lemma answer_request_spec fuel e s request opt_ip a mac l : sv_ok fuel s -> length (chaddr request) = 16%nat -> points_to s a mac l ->
  handled fuel s (answer_request e s request opt_ip a) (request_answered s request opt_ip mac l).
Proof.
  intros Hs Hr Ha. unfold answer_request, request_answered. rewrite (proj1 Ha). cbn [of_option obind].
  destruct (dhcp_server_find_pool_for_ip s (l_ip l)) as [i|] eqn:Ei; [|eapply handled_ret; [by apply (effect_refl fuel)|apply Hs|done]].
  destruct (ip_pool _ _ _ Ei) as (p & Hp & Hc). destruct (mismatch request opt_ip (l_ip l)) eqn:Em.
  - destruct (send_step fuel s Hs e request DHCP_NAK 0 i p Hp Hr) as (r & s1 & E & F). rewrite (obind_run _ _ _ E). eapply handled_ret; [exact F|apply Hs|].
    split; [done|]. split; [done|]. apply replies_answer.
  - rewrite Hp. cbn [of_option obind]. destruct (update_step fuel s Hs (time2 e) (UBind (default_lease (config p))) a mac l Ha I) as (s1 & E1 & Ha1 & F1). cbn [run_update] in E1.
    pose proof (bind_rebound (time2 e) (default_lease (config p)) l) as Hb. revert E1 Ha1 F1 Hb. generalize (spec_update (time2 e) (UBind (default_lease (config p))) l). intros [c l1] E1 Ha1 F1 Hb. cbn [fst snd] in *.
    rewrite (obind_run _ _ _ E1), (proj1 Ha1). cbn [of_option obind]. pose proof (effect_same _ _ _ _ _ Hs F1) as Hs1. pose proof (ef_pools _ _ _ _ _ F1) as Ep1.
    assert (l_ip l1 = l_ip l) as -> by apply Hb.
    destruct (mark_used_step fuel s1 i p (l_ip l) Hs1 ltac:(by rewrite Ep1) Hc) as (r2 & s2 & p2 & E2 & F2 & Hok2 & Hle & Hu & _). rewrite (obind_run _ _ _ E2).
    rewrite Ep1 in F2, Hu. pose proof (effect_trans _ _ _ _ _ _ _ _ _ F1 F2) as F12. pose proof (effect_ok _ _ _ _ _ _ F12 (pools_ok_insert _ _ _ _ (proj1 Hs) Hok2)) as Hs2.
    assert (pools s2 !! i = Some p2) as Hp2 by (rewrite (ef_pools _ _ _ _ _ F2); apply list_lookup_insert_eq; by eapply lookup_lt_Some).
    destruct (send_step fuel s2 Hs2 e request DHCP_ACK (l_ip l) i p2 Hp2 Hr) as (r3 & s3 & E3 & F3). rewrite (obind_run _ _ _ E3).
    eapply handled_ret; [exact (effect_trans _ _ _ _ _ _ _ _ _ F12 F3)|apply Hs2|]. rewrite (ef_pools _ _ _ _ _ F2).
    split; [by eapply grow_insert|]. split; [done|]. split; [apply replies_answer|]. exists (content l1). split; [|done]. unfold leases at 1. rewrite (ef_view _ _ _ _ _ F2). apply (ef_view _ _ _ _ _ F1).
Qed.

Lemma available_spec fuel p ip : pool_ok fuel p -> dhcp_pool_contains p ip = true ->
  exists b, dhcp_pool_is_available p ip = Ok b /\ (b = true -> used (bitmap p) (ip_to_offset p ip) = false).
Proof.
  intros Hok Hc. unfold dhcp_pool_is_available. rewrite Hc. cbn [negb]. destruct (is_excluded p ip); [by exists false|].
  apply (contained_range p (proj1 Hok)) in Hc as [Hin _]. rewrite (test_range p (proj1 Hok) _ Hin). eexists. split; [done|]. by destruct (used _ _).
Qed.

(** The lease of a client that had none and names a free address in ciaddr. *)
Definition rebind_made (s s' : dhcp_server) (request : dhcp_packet) (a : Z) : Prop :=
  exists i l, points_to s' a (client_mac request) l /\ l_ip l = ciaddr request /\ state l = DHCP_LEASE_BOUND /\ ciaddr request <> 0 /\
    dhcp_server_find_pool_for_ip s (ciaddr request) = Some i /\ fresh_at (pools s) i (ciaddr request) /\
    effect s s' (pools s) (<[client_mac request := content l]> (leases s)) [].

Lemma rebind_step fuel e s request : sv_ok fuel s -> env_ok e -> leases s !! client_mac request = None ->
  exists r s', rebind_lease e s request = Ok (r, s') /\
    match r with Some a => rebind_made s s' request a | None => effect s s' (pools s) (leases s) [] end.
Proof.
  intros Hs He Hno. unfold rebind_lease. pose proof (effect_refl fuel s Hs) as F0. destruct (Z.eqb_spec (ciaddr request) 0) as [|Hci]; [by exists None, s|].
  destruct (dhcp_server_find_pool_for_ip s (ciaddr request)) as [i|] eqn:Ei; [|by exists None, s]. destruct (ip_pool _ _ _ Ei) as (p & Hp & Hc). rewrite Hp. cbn [of_option obind].
  destruct (available_spec fuel p _ (pool_at fuel s Hs i p Hp) Hc) as (b & Eb & Hb). rewrite (obind_run _ _ _ Eb). destruct b; [|by exists None, s].
  destruct (create_step fuel s Hs e (ciaddr request) (client_mac request) (default_lease (dhcp_pool_get_config p)) He) as (r & s' & E & F & Hr). exists r, s'. split; [done|].
  destruct (full (leases s)); [destruct r as [a|]; [by destruct Hr|done]|]. destruct (upsert_cases (bound (time1 e) (ciaddr request) (default_lease (dhcp_pool_get_config p))) (client_mac request) (found (lease_alloc e (heap (lease_db s)))) (leases s))
    as [[l0 Eu]|[Eu _]]; rewrite Eu in F, Hr; cbn [fst snd] in F, Hr; [|destruct r as [a|]; [by destruct Hr|done]].
  destruct r as [a|]; [|done]. destruct Hr as (_ & l & Ha). assert (content l = bound (time1 e) (ciaddr request) (default_lease (dhcp_pool_get_config p)) l0) as El.
  { destruct Ha as (_ & _ & Hv). unfold leases in Hv at 1. rewrite (ef_view _ _ _ _ _ F), lookup_insert_eq in Hv. congruence. }
  exists i, l. split; [done|]. split; [exact (f_equal l_ip El)|]. split; [exact (f_equal state El)|]. split; [done|]. split; [done|]. split; [exists p; auto|]. by rewrite El.
Qed.

(** A NAK changes nothing; an ACK is for the lease that the client has, or for a new one. *)
Definition request_done (s : dhcp_server) (request : dhcp_packet) (opt_ip : Z) (ps : list dhcp_pool) (v : gmap (list Z) dhcp_lease) (out : list sent_packet) : Prop :=
  (ps = pools s /\ v = leases s /\ answers request DHCP_NAK 0 out) \/
  (exists l l', leases s !! client_mac request = Some l /\ grow (pools s) ps /\ v = <[client_mac request := l']> (leases s) /\ rebound l l' /\
     (exists i, used_at ps i (l_ip l)) /\ answers request DHCP_ACK (l_ip l) out) \/
  (exists l' i, leases s !! client_mac request = None /\ grow (pools s) ps /\ v = <[client_mac request := l']> (leases s) /\ l_ip l' = ciaddr request /\ state l' = DHCP_LEASE_BOUND /\
     ciaddr request <> 0 /\ fresh_at (pools s) i (ciaddr request) /\
     if mismatch request opt_ip (ciaddr request) then answers request DHCP_NAK 0 out else used_at ps i (ciaddr request) /\ answers request DHCP_ACK (ciaddr request) out).

Lemma request_known fuel s0 s request opt_ip l ps v out : sv_ok fuel s0 -> effect s0 s (pools s0) (leases s0) [] -> leases s !! client_mac request = Some (content l) ->
  request_answered s request opt_ip (client_mac request) l ps v out -> request_done s0 request opt_ip ps v out.
Proof.
  intros Hs F Hl. pose proof (ef_pools _ _ _ _ _ F) as Ep. pose proof (ef_view _ _ _ _ _ F) as Ev. fold (leases s) in Ev. unfold request_answered. rewrite Ep, Ev. rewrite Ev in Hl.
  destruct (dhcp_server_find_pool_for_ip s (l_ip l)) as [i|]; [destruct (mismatch request opt_ip (l_ip l))|].
  - intros (? & ? & ?). by left.
  - intros (Hg & Hu & Hout & l' & -> & Hb). right. left. exists (content l), l'. do 4 (split; [done|]). split; [by exists i|done].
  - intros (-> & -> & ->). left. split; [done|]. split; [done|]. apply answers_nil.
Qed.

Lemma request_new s request opt_ip s1 a ps v out : rebind_made s s1 request a ->
  (forall l, points_to s1 a (client_mac request) l -> request_answered s1 request opt_ip (client_mac request) l ps v out) -> leases s !! client_mac request = None ->
  request_done s request opt_ip ps v out.
Proof.
  intros (i & l & Ha & Hip & Hst & Hci & Hi & Hf & F) H Hno. specialize (H l Ha). revert H. pose proof (ef_pools _ _ _ _ _ F) as Ep. pose proof (ef_view _ _ _ _ _ F) as Ev. fold (leases s1) in Ev.
  unfold request_answered, dhcp_server_find_pool_for_ip. rewrite Hip, Ep. unfold dhcp_server_find_pool_for_ip in Hi. rewrite Hi, Ev. intros H. right. right.
  destruct (mismatch request opt_ip (ciaddr request)) eqn:Em.
  - destruct H as (-> & -> & Hout). exists (content l), i. split; [done|]. split; [apply grow_refl|]. by do 5 (split; [done|]).
  - destruct H as (Hg & Hu & Hout & l' & -> & H1 & H2 & H3). exists l', i. split; [done|]. split; [done|]. rewrite insert_insert_eq. split; [done|]. split; [by rewrite H1|].
    split; [apply H2; by right|]. done.
Qed.

Lemma request_spec fuel e s request : sv_ok fuel s -> env_ok e -> request_ok request ->
  exists opt_ip, dhcp_get_requested_ip request = Ok opt_ip /\ handled fuel s (dhcp_server_handle_request e s request) (request_done s request opt_ip).
Proof.
  intros Hs He Hr. destruct (packet_helpers request (rq_packet _ Hr) (rq_tail _ Hr)) as (_ & Eip & Esid & _). eexists. split; [exact Eip|]. revert Eip Esid.
  generalize (match first_long 4 DHCP_OPT_REQUESTED_IP (items_of (options request)) with Some d => un_le (take 4 d) | None => 0 end) as opt_ip.
  generalize (match first_long 4 DHCP_OPT_SERVER_ID (items_of (options request)) with Some d => un_le (take 4 d) | None => 0 end) as sid. intros sid opt_ip Eip Esid.
  unfold dhcp_server_handle_request. pose proof (effect_stats count_request fuel s Hs) as F0. set (s0 := with_stats count_request s) in *.
  change (request_done s request opt_ip) with (request_done s0 request opt_ip). eapply handled_after; [exact F0|]. pose proof (effect_same _ _ _ _ _ Hs F0) as Hs0.
  rewrite (obind_run _ _ _ Eip), (obind_run _ _ _ Esid). cbv zeta. fold (asked request opt_ip).
  destruct (_ && _); [eapply handled_ret; [by apply (effect_refl fuel)|apply Hs0|left; split; [done|]; split; [done|]; apply answers_nil]|].
  destruct (find_mac_step fuel s0 Hs0 (client_mac request)) as (lease & s1 & E1 & F1 & H1). rewrite (obind_run _ _ _ E1). pose proof (effect_same _ _ _ _ _ Hs0 F1) as Hs1.
  pose proof (ef_pools _ _ _ _ _ F1) as Ep. pose proof (ef_view _ _ _ _ _ F1) as Ev. fold (leases s1) in Ev. destruct lease as [a|].
  - destruct H1 as [l Ha]. cbn [obind]. eapply handled_after; [exact F1|]. eapply handled_weaken; [by apply (answer_request_spec fuel e s1 request opt_ip a (client_mac request) l Hs1 (rq_mac _ Hr))|].
    intros ps v out. apply (request_known fuel); [done|done|apply Ha].
  - destruct (rebind_step fuel e s1 request Hs1 He ltac:(by rewrite Ev)) as (r & s2 & E2 & Hr2). rewrite (obind_run _ _ _ E2). destruct r as [a|].
    + eapply handled_after; [exact F1|]. pose proof Hr2 as (i & l & Ha & _ & _ & _ & _ & _ & F2). eapply handled_after; [exact F2|].
      eapply handled_weaken; [by apply (answer_request_spec fuel e s2 request opt_ip a (client_mac request) l (effect_same _ _ _ _ _ Hs1 F2) (rq_mac _ Hr))|]. intros ps v out H.
      assert (request_done s1 request opt_ip ps v out) as Hd.
      { apply (request_new s1 request opt_ip s2 a ps v out Hr2); [|by rewrite Ev]. intros l0 Hl0. destruct Ha as [Ha _], Hl0 as [Hl0 _]. by replace l0 with l by congruence. }
      unfold request_done in *. rewrite Ep, Ev in Hd. exact Hd.
    + eapply handled_after; [exact (effect_trans _ _ _ _ _ _ _ _ _ F1 Hr2)|]. pose proof (effect_same _ _ _ _ _ Hs1 Hr2) as Hs2. pose proof (ef_pools _ _ _ _ _ Hr2) as Ep2. pose proof (ef_view _ _ _ _ _ Hr2) as Ev2. fold (leases s2) in Ev2.
      assert (forall out, answers request DHCP_NAK 0 out -> request_done s0 request opt_ip (pools s2) (leases s2) out) as Hd by (intros out Hout; left; rewrite Ep2, Ev2, Ep, Ev; done).
      destruct (find_pool_for_request s2) as [i|] eqn:Ei; [|eapply handled_ret; [by apply (effect_refl fuel)|apply Hs2|apply Hd, answers_nil]].
      destruct (request_pool _ _ Ei) as [p Hp]. destruct (send_step fuel s2 Hs2 e request DHCP_NAK 0 i p Hp (rq_mac _ Hr)) as (r & s3 & E3 & F3). rewrite (obind_run _ _ _ E3).
      eapply handled_ret; [exact F3|apply Hs2|apply Hd, replies_answer].
Qed.

(** ** RELEASE, DECLINE, INFORM *)

(** Pools in which nothing but [ip] was given back. *)
Definition pool_frees (ip : Z) (p p' : dhcp_pool) : Prop :=
  range_start (config p') = range_start (config p) /\ range_end (config p') = range_end (config p) /\ num_reservations p' = num_reservations p /\
  forall x, 0 <= x -> used (bitmap p) x = true -> used (bitmap p') x = true \/ (dhcp_pool_contains p ip = true /\ x = ip_to_offset p ip).
Definition frees (ip : Z) (ps ps' : list dhcp_pool) : Prop := Forall2 (pool_frees ip) ps ps'.

Lemma frees_refl ip ps : frees ip ps ps.
Proof. apply Forall2_same_length_lookup_2; [done|]. intros i x y Hx Hy. simplify_eq. repeat split; auto. Qed.

Lemma frees_insert ip ps i p p' : ps !! i = Some p -> pool_frees ip p p' -> frees ip ps (<[i := p']> ps).
Proof.
  intros Hi Hle. apply Forall2_same_length_lookup_2; [by rewrite length_insert|]. intros j x y Hx Hy. destruct (decide (j = i)) as [->|Hn].
  - rewrite list_lookup_insert_eq in Hy by by eapply lookup_lt_Some. by simplify_eq.
  - rewrite list_lookup_insert_ne in Hy by done. simplify_eq. repeat split; auto.
Qed.

(** What happens in the pool that has the address, if there is one. *)
Lemma ip_pool_step fuel s ip (f : dhcp_pool -> outcome (Z * dhcp_pool)) (Q : list dhcp_pool -> Prop) : sv_ok fuel s -> Q (pools s) ->
  (forall i p, pools s !! i = Some p -> dhcp_pool_contains p ip = true -> pool_ok fuel p -> exists r p', f p = Ok (r, p') /\ pool_ok fuel p' /\ Q (<[i := p']> (pools s))) ->
  exists s' ps, match dhcp_server_find_pool_for_ip s ip with
                | Some i => let! (_, s) := on_pool i f s in Ok s
                | None => Ok s
                end = Ok s' /\ effect s s' ps (leases s) [] /\ Q ps /\ sv_ok fuel s' /\ lease_db s' = lease_db s.
Proof.
  intros Hs HQ H. destruct (dhcp_server_find_pool_for_ip s ip) as [i|] eqn:Ei; [|exists s, (pools s); split; [done|]; split; [by apply (effect_refl fuel)|done]].
  destruct (ip_pool _ _ _ Ei) as (p & Hp & Hc). destruct (H i p Hp Hc (pool_at fuel s Hs i p Hp)) as (r & p' & E & Hok & HQ').
  exists (with_pools (<[i := p']> (pools s)) s), (<[i := p']> (pools s)). unfold on_pool. rewrite Hp. cbn [of_option obind]. rewrite E. split; [done|].
  assert (effect s (with_pools (<[i := p']> (pools s)) s) (<[i := p']> (pools s)) (leases s) []) as F by (destruct Hs; by split; rewrite ?app_nil_r).
  split; [done|]. split; [done|]. split; [|done]. apply (effect_ok _ _ _ _ _ _ F). by apply pools_ok_insert, Hok; destruct Hs.
Qed.

Definition released (s : dhcp_server) (request : dhcp_packet) (ps : list dhcp_pool) (v : gmap (list Z) dhcp_lease) (out : list sent_packet) : Prop :=
  out = [] /\
  match leases s !! client_mac request with
  | None => ps = pools s /\ v = leases s
  | Some l => frees (l_ip l) (pools s) ps /\ exists l', v = <[client_mac request := l']> (leases s) /\ state l' = DHCP_LEASE_FREE /\ l_ip l' = l_ip l
  end.

Lemma release_frees fuel p ip : pool_ok fuel p -> dhcp_pool_contains p ip = true -> exists r p', dhcp_pool_release p ip = Ok (r, p') /\ pool_ok fuel p' /\ pool_frees ip p p'.
Proof.
  intros Hok Hc. destruct (release_spec p (proj1 Hok) ip) as (r & p' & E & Hw & Hsp & Hu). rewrite Hc in Hu. destruct Hu as (_ & Hu & _). exists r, p'. split; [done|].
  split; [by apply (pool_ok_params _ p)|]. destruct Hsp as (C1 & _ & _ & _ & C5 & _). split; [by rewrite C1|]. split; [by rewrite C1|]. split; [done|].
  intros x Hx Hux. rewrite (Hu x Hx), Hux. destruct (Z.eqb_spec x (ip_to_offset p ip)); auto.
Qed.

Lemma handle_release_spec fuel s request : sv_ok fuel s -> handled fuel s (dhcp_server_handle_release s request) (released s request).
Proof.
  intros Hs. unfold dhcp_server_handle_release. pose proof (effect_stats count_release fuel s Hs) as F0. set (s0 := with_stats count_release s) in *.
  change (released s request) with (released s0 request). eapply handled_after; [exact F0|]. pose proof (effect_same _ _ _ _ _ Hs F0) as Hs0.
  destruct (find_mac_step fuel s0 Hs0 (client_mac request)) as (lease & s1 & E1 & F1 & H1). rewrite (obind_run _ _ _ E1). pose proof (effect_same _ _ _ _ _ Hs0 F1) as Hs1.
  unfold released. pose proof (ef_pools _ _ _ _ _ F1) as Ep. pose proof (ef_view _ _ _ _ _ F1) as Ev. fold (leases s1) in Ev. destruct lease as [a|].
  - destruct H1 as [l Ha]. rewrite (proj1 Ha). cbn [of_option obind]. rewrite <- Ev, (proj2 (proj2 Ha)). 
    destruct (ip_pool_step fuel s1 (l_ip l) (fun p => dhcp_pool_release p (l_ip l)) (frees (l_ip l) (pools s1)) Hs1 (frees_refl _ _)) as (s2 & ps & E2 & F2 & Hps & Hs2 & Ed).
    { intros i p Hp Hc Hok. destruct (release_frees fuel p (l_ip l) Hok Hc) as (r & p' & E & Hok' & Hf). exists r, p'. split; [done|]. split; [done|]. by eapply frees_insert. }
    rewrite (obind_run _ _ _ E2). assert (points_to s2 a (client_mac request) l) as Ha2 by (unfold points_to, leases; rewrite Ed; exact Ha).
    destruct (update_step fuel s2 Hs2 0 URelease a (client_mac request) l Ha2 I) as (s3 & E3 & _ & F3). cbn [run_update] in E3. rewrite (obind_run _ _ _ E3).
    eapply handled_ret; [exact (effect_trans _ _ _ _ _ _ _ _ _ (effect_trans _ _ _ _ _ _ _ _ _ F1 F2) F3)|apply Hs2|]. split; [done|]. rewrite (ef_pools _ _ _ _ _ F2), <- Ep.
    split; [done|]. eexists. split; [unfold leases at 1; rewrite Ed; done|done].
  - eapply handled_ret; [exact F1|apply Hs0|]. by rewrite H1.
Qed.

Definition declined (s : dhcp_server) (ps : list dhcp_pool) (v : gmap (list Z) dhcp_lease) (out : list sent_packet) : Prop :=
  out = [] /\ grow (pools s) ps /\ (v = leases s \/ exists mac l', v = <[mac := l']> (leases s) /\ state l' = DHCP_LEASE_DECLINED).

Lemma handle_decline_spec fuel s request : sv_ok fuel s -> request_ok request -> handled fuel s (dhcp_server_handle_decline s request) (declined s).
Proof.
  intros Hs Hr. unfold dhcp_server_handle_decline. pose proof (effect_stats count_decline fuel s Hs) as F0. set (s0 := with_stats count_decline s) in *.
  change (declined s) with (declined s0). eapply handled_after; [exact F0|]. pose proof (effect_same _ _ _ _ _ Hs F0) as Hs0.
  destruct (packet_helpers request (rq_packet _ Hr) (rq_tail _ Hr)) as (_ & Eip & _ & _). rewrite (obind_run _ _ _ Eip). cbv zeta.
  match goal with |- context [if ?x =? 0 then Ok _ else _] => generalize x as ip end. intros ip. destruct (ip =? 0); [eapply handled_ret; [by apply (effect_refl fuel)|apply Hs0|]; split; [done|]; split; [apply grow_refl|by left]|].
  destruct (ip_pool_step fuel s0 ip (fun p => dhcp_pool_mark_declined p ip) (grow (pools s0)) Hs0 (grow_refl _)) as (s1 & ps & E1 & F1 & Hps & Hs1 & _).
  { intros i p Hp Hc Hok. destruct (mark_declined_spec p (proj1 Hok) ip) as (r & p' & E & Hm). rewrite Hc in Hm. destruct Hm as (_ & Ha & _). exists r, p'. split; [done|].
    pose proof (grows_adds _ _ _ Ha) as Hg. destruct Ha as (Hw & Hsp & _). split; [by apply (pool_ok_params _ p)|]. eapply grow_insert; [done|]. split; [done|apply Hsp]. }
  rewrite (obind_run _ _ _ E1). eapply handled_after; [exact F1|]. pose proof (ef_pools _ _ _ _ _ F1) as Ep. pose proof (ef_view _ _ _ _ _ F1) as Ev. fold (leases s1) in Ev.
  destruct (find_ip_step fuel s1 Hs1 ip) as (r & s2 & E2 & F2 & H2). rewrite (obind_run _ _ _ E2). pose proof (effect_same _ _ _ _ _ Hs1 F2) as Hs2. eapply handled_after; [exact F2|].
  pose proof (ef_pools _ _ _ _ _ F2) as Ep2. pose proof (ef_view _ _ _ _ _ F2) as Ev2. fold (leases s2) in Ev2. destruct r as [a|].
  - destruct H2 as (mac & l & Ha & _). destruct (update_step fuel s2 Hs2 0 UDecline a mac l Ha I) as (s3 & E3 & _ & F3). cbn [run_update] in E3. rewrite (obind_run _ _ _ E3).
    eapply handled_ret; [exact F3|apply Hs2|]. split; [done|]. rewrite Ep2, Ep, Ev2, Ev. split; [done|]. right. eexists _, _. split; [done|done].
  - eapply handled_ret; [by apply (effect_refl fuel)|apply Hs2|]. rewrite Ep2, Ep, Ev2, Ev. split; [done|]. split; [done|by left].
Qed.

Lemma handle_inform_spec fuel e s request : sv_ok fuel s -> request_ok request ->
  handled fuel s (dhcp_server_handle_inform e s request) (fun ps v out => ps = pools s /\ v = leases s /\ answers request DHCP_ACK (ciaddr request) out).
Proof.
  intros Hs Hr. unfold dhcp_server_handle_inform. pose proof (effect_stats count_inform fuel s Hs) as F0. pose proof (effect_same _ _ _ _ _ Hs F0) as Hs0. eapply handled_after; [exact F0|]. cbv zeta.
  set (s0 := with_stats count_inform s) in *. change (pools s) with (pools s0). change (leases s) with (leases s0).
  destruct (match dhcp_server_find_pool_for_ip s0 (ciaddr request) with Some i => Some i | None => find_pool_for_request s0 end) as [i|] eqn:Ei;
    [|eapply handled_ret; [by apply (effect_refl fuel)|apply Hs0|]; split; [done|]; split; [done|]; apply answers_nil].
  assert (exists p, pools s0 !! i = Some p) as [p Hp].
  { destruct (dhcp_server_find_pool_for_ip s0 (ciaddr request)) as [j|] eqn:Ej; [|by apply request_pool]. simplify_eq. destruct (ip_pool _ _ _ Ej) as (p & Hp & _). by exists p. }
  destruct (send_step fuel s0 Hs0 e request DHCP_ACK (ciaddr request) i p Hp (rq_mac _ Hr)) as (r & s1 & E & F). rewrite (obind_run _ _ _ E).
  eapply handled_ret; [exact F|apply Hs0|]. split; [done|]. split; [done|]. apply replies_answer.
Qed.
