(* ===== verification/DhcpServerFacts.v ===== *)
(** * Theorems on the DHCP server

    Packets go through the handler table; histories of packets keep the server consistent
    and, for clients that keep to the protocol, never give one address to two of them.  The
    last part has histories of other clients for which the server goes wrong. *)

From S2P Require Import Prelude Common CString Bytes Keyed Links Chains Handler HandlerSpec HandlerRun DhcpOption DhcpPacket DhcpPool DhcpPoolBits DhcpPoolSpec DhcpPoolRun DhcpPoolFacts DhcpLease DhcpLeaseRep DhcpLeaseSpec DhcpLeaseRun DhcpServer DhcpServerReply DhcpServerRun.

(** ** The server's table *)

Definition server_map : gmap Z (Z * Z * Z) :=
  list_to_map [(DHCP_DISCOVER, (1, 1, 0)); (DHCP_REQUEST, (2, 1, 0)); (DHCP_RELEASE, (3, 1, 0)); (DHCP_DECLINE, (4, 1, 0)); (DHCP_INFORM, (5, 1, 0))].

(** The five handlers, and no hooks. *)
Record table_ok (t : qd_handler_table) : Prop := {
  tk_rep : exists B, table_rep t B;
  tk_map : handlers t = server_map;
  tk_pre : (pre_hook t).1 = 0;
  tk_post : (post_hook t).1 = 0;
  tk_error : (error_handler t).1 = 0;
  tk_default : (default_handler t).1 = 0
}.

Lemma table_ok_counts t a b c : table_ok t -> table_ok (set_counts a b c t).
Proof. intros [[B H] ? ? ? ? ?]. split; try done. exists B. by apply counts_rep. Qed.

Lemma register_one alloc t m cmd fn : (exists B, table_rep t B) -> handlers t = m -> alloc_new alloc -> (forall h, is_Some (alloc h)) -> fn <> 0 -> (size m < 256)%nat ->
  exists t', qd_handler_register_fn alloc t cmd fn 1 0 = Ok (QD_OK, t') /\ (exists B, table_rep t' B) /\ handlers t' = <[cmd := (fn, 1, 0)]> m /\ same_rest t t'.
Proof.
  intros [B Hr] <- Ha Hall Hfn Hsz. destruct (register_spec alloc t B cmd fn 1 0 Hr Ha) as (t' & B' & E & Hr' & Hh & Hs). revert E Hh. unfold spec_register.
  destruct (Z.eqb_spec fn 0); [done|]. destruct (Z.leb_spec QD_HANDLER_MAX_ENTRIES (Z.of_nat (size (handlers t)))); [unfold QD_HANDLER_MAX_ENTRIES in *; lia|].
  rewrite (bool_decide_eq_true_2 (is_Some (alloc (nodes t)))) by done. rewrite orb_true_r. intros E Hh. exists t'. split; [done|]. split; [by exists B'|done].
Qed.

Lemma register_all alloc (es : list (Z * Z)) : alloc_new alloc -> (forall h, is_Some (alloc h)) -> Forall (fun p => p.2 <> 0) es ->
  forall t, (exists B, table_rep t B) -> (size (handlers t) + length es < 256)%nat ->
  exists t', register_handlers alloc es t = Ok t' /\ (exists B, table_rep t' B) /\ handlers t' = fold_left (fun m p => <[p.1 := (p.2, 1, 0)]> m) es (handlers t) /\ same_rest t t'.
Proof.
  intros Ha Hall. induction es as [|[cmd fn] es IH]; intros Hes t Hr Hsz; [exists t; by destruct t|]. apply Forall_cons in Hes as [Hfn Hes]. cbn [length] in Hsz. cbn [snd] in Hfn.
  destruct (register_one alloc t _ cmd fn Hr eq_refl Ha Hall Hfn ltac:(lia)) as (t1 & E1 & Hr1 & Hh1 & Hs1). cbn [register_handlers]. rewrite (obind_run _ _ _ E1).
  assert (size (handlers t1) <= S (size (handlers t)))%nat as Hle.
  { rewrite Hh1. destruct (handlers t !! cmd) eqn:E; [rewrite map_size_insert_Some by (by eexists); lia|by rewrite map_size_insert_None]. }
  destruct (IH Hes t1 Hr1 ltac:(lia)) as (t' & E & Hr' & Hh & Hs). exists t'. split; [done|]. split; [done|]. rewrite Hh, Hh1. split; [done|]. unfold same_rest in *. rewrite Hs, Hs1. done.
Qed.

(** A new server has its table, no pools and no leases. *)
Lemma server_create_ok alloc c fuel : alloc_new alloc -> (forall h, is_Some (alloc h)) ->
  exists w, dhcp_server_create true true true alloc c = Ok (Some w) /\ table_ok (table w) /\ sv_ok fuel (user w) /\ pools (user w) = [] /\ leases (user w) = ∅ /\
    sv_config (user w) = default DHCP_SERVER_CONFIG_DEFAULT c /\ send_fn (user w) = false.
Proof.
  intros Ha Hall. unfold dhcp_server_create. cbn [negb dhcp_lease_db_create qd_handler_table_create]. set (t0 := mkTable _ _ _ _ _ _ _ _ _ _ _).
  assert (table_rep t0 (fun _ => [])) as Hr0 by by apply table_create_rep.
  destruct (register_all alloc server_handler_entries Ha Hall ltac:(by repeat constructor) t0 ltac:(by eexists)) as (t & E & Hr & Hh & Hs); [vm_compute; lia|].
  rewrite (obind_run _ _ _ E). eexists. split; [done|]. cbn [table user pools leases lease_db sv_config send_fn]. unfold same_rest in Hs. split.
  - split; [done| |by rewrite Hs..]. rewrite Hh. by vm_compute.
  - split; [|done]. split; [done|]. split; [exists []; by apply rep_empty|]. intros m x Hx. done.
Qed.

(** ** Dispatch *)

(** The handler of a message type. *)
Definition handler_of (mt : Z) : option Z := (fun x => x.1.1) <$> server_map !! mt.

Section dispatch.
Context {D : Type} (exec : Z -> Z -> Z -> qd_handler_ctx D -> hworld dhcp_server -> outcome (Z * qd_handler_ctx D * hworld dhcp_server)).

Lemma no_hook h r c w : h.1 = 0 -> hook exec h r c w = Ok (0, c, w).
Proof. intros H. unfold hook. by rewrite H. Qed.

Lemma map_entry cmd x : server_map !! cmd = Some x -> x = (x.1.1, 1, 0).
Proof. unfold server_map. intros H. apply elem_of_list_to_map_2 in H. set_unfold in H. destruct_or! H; simplify_eq/=; done. Qed.

(** A handler that leaves the table alone is run on the rest of the world. *)
Lemma table_dispatch clock c t u : table_ok t ->
  (forall c0 t0 fn, c_data c0 = c_data c -> handler_of (c_cmd c) = Some fn -> exists r u', exec fn 1 0 c0 (mkHWorld t0 u) = Ok (r, c0, mkHWorld t0 u')) ->
  exists r c' t' u', qd_handler_dispatch exec clock c (mkHWorld t u) = Ok (r, c', mkHWorld t' u') /\ table_ok t' /\
    match handler_of (c_cmd c) with
    | Some fn => exists c0 t0, c_cmd c0 = c_cmd c /\ c_data c0 = c_data c /\ exec fn 1 0 c0 (mkHWorld t0 u) = Ok (r, c', mkHWorld t0 u')
    | None => r = QD_HANDLER_NOT_FOUND /\ u' = u
    end.
Proof.
  intros Hk Hex. unfold qd_handler_dispatch, qd_handler_dispatch_cmd. cbn [on_table table user]. set (c1 := set_cmd (c_cmd c) (t_user_data t) c).
  pose proof (table_ok_counts t (u64 (total_calls t + 1)) (total_errors t) (unknown_commands t) Hk) as Hk1. fold (count_call t) in Hk1. set (t1 := count_call t) in *.
  rewrite no_hook by apply (tk_pre _ Hk1). cbn [obind table user]. change (negb (0 =? 0)) with false. cbn iota. destruct (tk_rep _ Hk1) as [B Hr].
  destruct (find_handler_spec t1 B Hr (c_cmd c)) as (node & En & Hn). rewrite (obind_run _ _ _ En). unfold handler_of. rewrite <- (tk_map _ Hk1). destruct node as [a|].
  - destruct Hn as (n & Hna & _ & Hm). rewrite Hm. change (on_table count_call (mkHWorld t u)) with (mkHWorld t1 u). cbn [table]. rewrite Hna. cbn [of_option obind fmap option_fmap option_map]. unfold target. cbn [fst].
    assert (n_arg n = 1) as Harg. { rewrite (tk_map _ Hk1) in Hm. apply map_entry in Hm. unfold target in Hm. simplify_eq/=. done. }
    unfold execute. rewrite Harg. destruct (Hex c1 t1 (n_handler n) eq_refl) as (r & u' & Ex).
    { unfold handler_of. by rewrite <- (tk_map _ Hk1), Hm. }
    rewrite Ex. cbn [obind table user]. match goal with |- context [note_call a r ?x _ _] => destruct (note_call_spec t1 B a n r x clock.2 Hr Hna) as (t2 & E2 & Hr2 & Hh2 & Hs2) end.
    rewrite E2. cbn [obind table user]. set (t3 := if r <? 0 then count_error t2 else t2).
    assert (table_ok t3) as Hk3. { unfold same_rest in Hs2. assert (table_ok t2) as Hk2. { destruct Hk1. split; [by eexists|by rewrite Hh2|by rewrite Hs2..]. } unfold t3. destruct (r <? 0); [by apply table_ok_counts|done]. }
    rewrite no_hook by apply (tk_error _ Hk3). assert ((if r <? 0 then Ok (0, c1, mkHWorld t3 u') else Ok (0, c1, mkHWorld t3 u')) = Ok (0, c1, mkHWorld t3 u')) as -> by by destruct (r <? 0).
    cbn [obind table user]. rewrite no_hook by apply (tk_post _ Hk3). cbn [obind]. exists r, c1, t3, u'. split; [done|]. split; [done|]. exists c1, t1. done.
  - rewrite Hn. change (on_table count_call (mkHWorld t u)) with (mkHWorld t1 u). cbn [fmap option_fmap option_map on_table table user]. rewrite (tk_default _ Hk1). change (0 =? 0) with true. cbn iota.
    exists QD_HANDLER_NOT_FOUND, c1, (count_unknown t1), u. split; [done|]. split; [by apply table_ok_counts|done].
Qed.
End dispatch.

(** What a message of type [mt] does. *)
Definition served (s : dhcp_server) (pkt : dhcp_packet) (mt : Z) (ps : list dhcp_pool) (v : gmap (list Z) dhcp_lease) (out : list sent_packet) : Prop :=
  if mt =? DHCP_DISCOVER then discovered s pkt ps v out
  else if mt =? DHCP_REQUEST then exists opt_ip, dhcp_get_requested_ip pkt = Ok opt_ip /\ request_done s pkt opt_ip ps v out
  else if mt =? DHCP_RELEASE then released s pkt ps v out
  else if mt =? DHCP_DECLINE then declined s ps v out
  else if mt =? DHCP_INFORM then ps = pools s /\ v = leases s /\ answers pkt DHCP_ACK (ciaddr pkt) out
  else ps = pools s /\ v = leases s /\ out = [].

(** The type of the message: none without the magic cookie or the option. *)
Definition message_type (pkt : dhcp_packet) : Z :=
  if negb (ntohl (magic pkt) =? DHCP_MAGIC_COOKIE) then -1 else
  match first_long 1 DHCP_OPT_MSG_TYPE (items_of (options pkt)) with Some (b :: _) => b | _ => -1 end.

Lemma handler_of_cases mt fn : handler_of mt = Some fn ->
  (mt = DHCP_DISCOVER /\ fn = 1) \/ (mt = DHCP_REQUEST /\ fn = 2) \/ (mt = DHCP_RELEASE /\ fn = 3) \/ (mt = DHCP_DECLINE /\ fn = 4) \/ (mt = DHCP_INFORM /\ fn = 5).
Proof.
  unfold handler_of. destruct (server_map !! mt) as [x|] eqn:E; [|done]. intros [= <-]. unfold server_map in E. apply elem_of_list_to_map_2 in E. set_unfold in E.
  destruct_or! E; simplify_eq/=; auto 10.
Qed.

Lemma handler_of_none mt : handler_of mt = None -> forall s pkt, served s pkt mt (pools s) (leases s) [].
Proof.
  intros H s pkt. unfold served. destruct (Z.eqb_spec mt DHCP_DISCOVER) as [->|]; [done|]. destruct (Z.eqb_spec mt DHCP_REQUEST) as [->|]; [done|].
  destruct (Z.eqb_spec mt DHCP_RELEASE) as [->|]; [done|]. destruct (Z.eqb_spec mt DHCP_DECLINE) as [->|]; [done|]. destruct (Z.eqb_spec mt DHCP_INFORM) as [->|]; [done|]. done.
Qed.

Lemma handler_fn_spec fuel e s pkt mt fn : sv_ok fuel s -> env_ok e -> request_ok pkt -> handler_of mt = Some fn ->
  handled fuel s (handler_fn e fuel fn s pkt) (served s pkt mt).
Proof.
  intros Hs He Hr Hfn. destruct (handler_of_cases _ _ Hfn) as [[-> ->]|[[-> ->]|[[-> ->]|[[-> ->]|[-> ->]]]]].
  - by apply discover_spec.
  - destruct (request_spec fuel e s pkt Hs He Hr) as (opt & E & H). eapply handled_weaken; [exact H|]. intros ps v out HQ. exists opt. done.
  - by apply handle_release_spec.
  - by apply handle_decline_spec.
  - by apply handle_inform_spec.
Qed.

(** A server with its table. *)
Definition world_ok (fuel : nat) (w : hworld dhcp_server) : Prop := table_ok (table w) /\ sv_ok fuel (user w).

Lemma process_spec fuel e w pkt : world_ok fuel w -> env_ok e -> request_ok pkt ->
  exists r w' ps v out, dhcp_server_process_packet e fuel w pkt = Ok (r, w') /\ world_ok fuel w' /\
    effect (user w) (user w') ps v out /\ served (user w) pkt (message_type pkt) ps v out.
Proof.
  intros [Ht Hs] He Hr. unfold dhcp_server_process_packet, message_type. destruct w as [t s]. cbn [table user] in *.
  assert (forall f mt, handler_of mt = None -> exists w' ps v out, mkHWorld t (with_stats f s) = w' /\ world_ok fuel w' /\ effect s (user w') ps v out /\ served s pkt mt ps v out) as Hcount.
  { intros f mt Hmt. exists (mkHWorld t (with_stats f s)), (pools s), (leases s), []. pose proof (effect_stats f fuel s Hs) as F. split; [done|]. split; [split; [done|exact (effect_same _ _ _ _ _ Hs F)]|]. split; [done|]. by apply handler_of_none. }
  destruct (negb (ntohl (magic pkt) =? DHCP_MAGIC_COOKIE)).
  { destruct (Hcount count_sv_error (-1) eq_refl) as (w' & ps & v & out & -> & H). by exists (-1), w', ps, v, out. }
  destruct (packet_helpers pkt (rq_packet _ Hr) (rq_tail _ Hr)) as (Emt & _). rewrite (obind_run _ _ _ Emt). generalize (match first_long 1 DHCP_OPT_MSG_TYPE (items_of (options pkt)) with Some (b :: _) => b | _ => -1 end). intros mt.
  destruct (Z.ltb_spec mt 0) as [Hneg|].
  { assert (handler_of mt = None) as Hno. { destruct (handler_of mt) as [fn|] eqn:E; [|done]. destruct (handler_of_cases _ _ E) as [[-> _]|[[-> _]|[[-> _]|[[-> _]|[-> _]]]]]; done. }
    destruct (Hcount count_sv_unknown mt Hno) as (w' & ps & v & out & -> & H). by exists (-1), w', ps, v, out. }
  set (c := mkCtx mt 0 (Some pkt) packet_size 0 0 None 0 0 0 0 0). cbv zeta. fold c.
  destruct (table_dispatch (server_exec e fuel) (0, 0) c t s Ht) as (r & c' & t' & u' & E & Ht' & Hm).
  { intros c0 t0 fn Hc0 Hfn. unfold server_exec. rewrite Hc0. cbn [c c_data of_option obind user table]. destruct (handler_fn_spec fuel e s pkt mt fn Hs He Hr Hfn) as (r & s' & ps & v & out & -> & _). cbn [obind]. by exists r, s'. }
  rewrite (obind_run _ _ _ E). exists r, (mkHWorld t' u'). cbn [c c_cmd table user] in *. destruct (handler_of mt) as [fn|] eqn:Hfn.
  - destruct Hm as (c0 & t0 & _ & Hc0 & Ex). destruct (handler_fn_spec fuel e s pkt mt fn Hs He Hr Hfn) as (r1 & s1 & ps & v & out & E1 & F & Hok & HQ).
    unfold server_exec in Ex. rewrite Hc0 in Ex. cbn [c c_data of_option obind user table] in Ex. rewrite E1 in Ex. cbn [obind] in Ex. simplify_eq.
    exists ps, v, out. split; [done|]. split; [split; [done|exact (effect_ok _ _ _ _ _ _ F Hok)]|]. done.
  - destruct Hm as [-> ->]. exists (pools s), (leases s), []. split; [done|]. split; [done|]. split; [by apply (effect_refl fuel)|]. by apply handler_of_none.
Qed.

(** ** Addresses in use *)

Definition holds_ip (v : gmap (list Z) dhcp_lease) (mac : list Z) (ip : Z) : Prop := exists l, v !! mac = Some l /\ holding l /\ l_ip l = ip.

(** Pools that share no address and have no reservations; the addresses that clients hold are
    in use in their pools, and no two clients hold the same one. *)
Record exclusive (ps : list dhcp_pool) (v : gmap (list Z) dhcp_lease) : Prop := {
  ex_res : no_reservations ps;
  ex_disjoint : forall i j p q ip, ps !! i = Some p -> ps !! j = Some q -> dhcp_pool_contains p ip = true -> dhcp_pool_contains q ip = true -> i = j;
  ex_used : forall mac ip, holds_ip v mac ip -> is_u32 ip /\ exists i, used_at ps i ip;
  ex_one : forall m1 m2 ip, holds_ip v m1 ip -> holds_ip v m2 ip -> m1 = m2
}.

(** The two kinds of change of the pools, as far as ranges go. *)
Definition same_ranges (ps ps' : list dhcp_pool) : Prop :=
  Forall2 (fun p p' => range_start (config p') = range_start (config p) /\ range_end (config p') = range_end (config p) /\ num_reservations p' = num_reservations p) ps ps'.

Lemma grow_ranges ps ps' : grow ps ps' -> same_ranges ps ps'.
Proof. intros H. eapply Forall2_impl; [exact H|]. by intros p p' [(? & ? & _) ?]. Qed.

Lemma frees_ranges ip ps ps' : frees ip ps ps' -> same_ranges ps ps'.
Proof. intros H. eapply Forall2_impl; [exact H|]. by intros p p' (? & ? & ? & _). Qed.

Lemma ranges_params ps ps' : same_ranges ps ps' -> no_reservations ps ->
  (forall i j p q ip, ps !! i = Some p -> ps !! j = Some q -> dhcp_pool_contains p ip = true -> dhcp_pool_contains q ip = true -> i = j) ->
  no_reservations ps' /\ (forall i j p q ip, ps' !! i = Some p -> ps' !! j = Some q -> dhcp_pool_contains p ip = true -> dhcp_pool_contains q ip = true -> i = j).
Proof.
  intros Hr H1 H2. split.
  - apply Forall_lookup. intros i p' Hi. destruct (Forall2_lookup_r _ _ _ _ _ Hr Hi) as (p & Hp & _ & _ & E). rewrite E. by eapply Forall_lookup in H1.
  - intros i j p' q' ip Hi Hj Hc Hd. destruct (Forall2_lookup_r _ _ _ _ _ Hr Hi) as (p & Hp & E1 & E2 & _). destruct (Forall2_lookup_r _ _ _ _ _ Hr Hj) as (q & Hq & E3 & E4 & _).
    rewrite (proj1 (contains_range p p' ip E1 E2)) in Hc. rewrite (proj1 (contains_range q q' ip E3 E4)) in Hd. by apply (H2 i j p q ip).
Qed.

Lemma holds_insert (v : gmap (list Z) dhcp_lease) mac l' m ip : holds_ip (<[mac := l']> v) m ip -> (m = mac /\ holding l' /\ l_ip l' = ip) \/ (m <> mac /\ holds_ip v m ip).
Proof.
  intros (l & Hl & Hh & Hip). destruct (decide (m = mac)) as [->|Hn].
  - rewrite lookup_insert_eq in Hl. simplify_eq. by left.
  - rewrite lookup_insert_ne in Hl by done. right. split; [done|]. by exists l.
Qed.

Section keep.
Context (fuel : nat) (ps : list dhcp_pool) (v : gmap (list Z) dhcp_lease) (Hok : Forall (pool_ok fuel) ps) (Hex : exclusive ps v).

Lemma exclusive_grow ps' : grow ps ps' -> exclusive ps' v.
Proof.
  intros Hg. destruct (ranges_params ps ps' (grow_ranges _ _ Hg) (ex_res _ _ Hex) (ex_disjoint _ _ Hex)) as [H1 H2]. split; [done|done| |apply Hex].
  intros mac ip Hh. destruct (ex_used _ _ Hex mac ip Hh) as (Hu & i & Hi). split; [done|]. exists i. by apply (used_at_grow fuel ps).
Qed.

(** A lease that holds no address, or the one that its client held. *)
Lemma exclusive_keep mac l' : (holding l' -> holds_ip v mac (l_ip l')) -> exclusive ps (<[mac := l']> v).
Proof.
  intros Hl. assert (forall m ip, holds_ip (<[mac := l']> v) m ip -> holds_ip v m ip) as Hback.
  { intros m ip [(-> & Hh & <-)|[_ H]]%holds_insert; auto. }
  split; [apply Hex|apply Hex|intros m ip H; by apply (ex_used _ _ Hex m), Hback|intros m1 m2 ip H1 H2; apply (ex_one _ _ Hex m1 m2 ip); auto].
Qed.

(** An address that was free. *)
Lemma fresh_unheld i ip mac : fresh_at ps i ip -> holds_ip v mac ip -> False.
Proof.
  intros (p & Hp & Hc & Hf) Hh. destruct (ex_used _ _ Hex mac ip Hh) as (_ & j & q & Hq & Hd & Hu). assert (i = j) as <- by by apply (ex_disjoint _ _ Hex i j p q ip). congruence.
Qed.

Lemma exclusive_new ps' mac l' i : grow ps ps' -> fresh_at ps i (l_ip l') -> used_at ps' i (l_ip l') -> is_u32 (l_ip l') -> exclusive ps' (<[mac := l']> v).
Proof.
  intros Hg Hf Hu Hip. pose proof (exclusive_grow ps' Hg) as Hex'. split; [apply Hex'|apply Hex'| |].
  - intros m ip [(-> & _ & <-)|[_ H]]%holds_insert; [by eauto|by apply (ex_used _ _ Hex' m)].
  - intros m1 m2 ip [(-> & _ & <-)|[_ H1]]%holds_insert [(-> & _ & E)|[_ H2]]%holds_insert; [done|by destruct (fresh_unheld i _ m2 Hf)|subst ip; by destruct (fresh_unheld i _ m1 Hf)|by apply (ex_one _ _ Hex m1 m2 ip)].
Qed.

(** An address that its client gives back. *)
Lemma exclusive_free ps' mac l' ip : holds_ip v mac ip -> frees ip ps ps' -> ~ holding l' -> exclusive ps' (<[mac := l']> v).
Proof.
  intros Hh Hf Hn. destruct (ranges_params ps ps' (frees_ranges _ _ _ Hf) (ex_res _ _ Hex) (ex_disjoint _ _ Hex)) as [H1 H2]. pose proof (exclusive_keep mac l' ltac:(done)) as Hk.
  split; [done|done| |apply Hk]. intros m ip2 [(-> & ? & _)|[Hm H]]%holds_insert; [done|]. destruct (ex_used _ _ Hex m ip2 H) as (Hu & i & p & Hp & Hc & Hb). split; [done|].
  destruct (Forall2_lookup_l _ _ _ _ _ Hf Hp) as (p' & Hp' & E1 & E2 & _ & Hx). exists i, p'. split; [done|]. destruct (contains_range p p' ip2 E1 E2) as [-> ->]. split; [done|].
  eapply Forall_lookup in Hok as (Hw & _); [|done]. pose proof (contained_range p Hw ip2 Hc) as [[? _] _]. destruct (Hx (ip_to_offset p ip2)) as [|[Hc2 Ho]]; [lia|done|done|].
  destruct Hm. apply (ex_one _ _ Hex m mac ip2 H). replace ip2 with ip; [done|]. destruct (ex_used _ _ Hex mac ip Hh) as [Hu2 _].
  rewrite <- (ip_roundtrip p Hw ip Hu2 Hc2), <- (ip_roundtrip p Hw ip2 Hu Hc). by rewrite Ho.
Qed.
End keep.

(** ** Histories of packets *)

(** Clients that keep to the protocol: who asks to keep an address or gives it back holds one,
    and who asks for an address without having a lease names it the same way twice. *)
Definition polite (s : dhcp_server) (pkt : dhcp_packet) : Prop :=
  (message_type pkt = DHCP_REQUEST \/ message_type pkt = DHCP_RELEASE -> forall l, leases s !! client_mac pkt = Some l -> holding l) /\
  (message_type pkt = DHCP_REQUEST -> forall opt_ip, dhcp_get_requested_ip pkt = Ok opt_ip -> leases s !! client_mac pkt = None -> ciaddr pkt <> 0 -> mismatch pkt opt_ip (ciaddr pkt) = false).

(** The client is told no address, or the one it now holds. *)
Definition told (v : gmap (list Z) dhcp_lease) (pkt : dhcp_packet) (pk : sent_packet) : Prop :=
  chaddr (reply pk) = chaddr pkt /\ xid (reply pk) = xid pkt /\ (yiaddr (reply pk) = 0 \/ holds_ip v (client_mac pkt) (yiaddr (reply pk))).

Lemma told_answer v pkt mt ip out : answers pkt mt ip out -> (mt = DHCP_NAK \/ holds_ip v (client_mac pkt) ip) -> forall pk, pk ∈ out -> told v pkt pk.
Proof.
  intros Ha Hor pk Hpk. destruct (Ha pk Hpk) as (s & c & E). unfold told. rewrite E. cbn [reply_for chaddr xid yiaddr]. split; [done|]. split; [done|].
  destruct (Z.eqb_spec mt DHCP_NAK); [by left|]. right. by destruct Hor.
Qed.

Section step.
Context (fuel : nat) (s : dhcp_server) (pkt : dhcp_packet) (Hs : sv_ok fuel s) (Hex : exclusive (pools s) (leases s)) (Hr : request_ok pkt).
Context (ps : list dhcp_pool) (v : gmap (list Z) dhcp_lease) (out : list sent_packet).

Lemma discover_exclusive : discovered s pkt ps v out -> exclusive ps v /\ forall pk, pk ∈ out -> told v pkt pk.
Proof.
  intros H. destruct (H (ex_res _ _ Hex)) as (Hg & [[-> ->]|(l & -> & Hst & Hout & Hm)]); [split; [by apply (exclusive_grow fuel (pools s)); [apply Hs|..]|by intros pk ?%not_elem_of_nil]|].
  split; [|apply (told_answer _ _ _ _ _ Hout); right; exists l; rewrite lookup_insert_eq; split; [done|]; split; [by left|done]].
  destruct Hm as [Hh|(Hip & i & Hf & Hu)]; [|by apply (exclusive_new fuel (pools s) _ (proj1 Hs) Hex _ _ _ i)].
  apply (exclusive_keep ps (leases s)); [by apply (exclusive_grow fuel (pools s)); [apply Hs|..]|]. intros _. exact Hh.
Qed.

Lemma request_exclusive opt_ip : (forall l, leases s !! client_mac pkt = Some l -> holding l) ->
  (leases s !! client_mac pkt = None -> ciaddr pkt <> 0 -> mismatch pkt opt_ip (ciaddr pkt) = false) ->
  request_done s pkt opt_ip ps v out -> exclusive ps v /\ forall pk, pk ∈ out -> told v pkt pk.
Proof.
  intros Hp1 Hp2 [(-> & -> & Hout)|[(l & l' & Hl & Hg & -> & (B1 & B2 & B3) & _ & Hout)|(l' & i & Hno & Hg & -> & Hip & Hst & Hci & Hf & Hm)]].
  - split; [done|]. apply (told_answer _ _ _ _ _ Hout). by left.
  - specialize (B2 (Hp1 l Hl)). split.
    + apply (exclusive_keep ps (leases s)); [by apply (exclusive_grow fuel (pools s)); [apply Hs|..]|]. intros _. exists l. split; [done|]. split; [by apply Hp1|done].
    + apply (told_answer _ _ _ _ _ Hout). right. exists l'. rewrite lookup_insert_eq. split; [done|]. split; [by right|done].
  - rewrite (Hp2 Hno Hci) in Hm. destruct Hm as [Hu Hout]. rewrite <- Hip in *. split.
    + apply (exclusive_new fuel (pools s) _ (proj1 Hs) Hex _ _ _ i); [done|done|done|]. rewrite Hip. apply (rq_ci _ Hr).
    + apply (told_answer _ _ _ _ _ Hout). right. exists l'. rewrite lookup_insert_eq. split; [done|]. split; [by right|done].
Qed.

Lemma release_exclusive : (forall l, leases s !! client_mac pkt = Some l -> holding l) -> released s pkt ps v out -> exclusive ps v.
Proof.
  intros Hp [_ H]. destruct (leases s !! client_mac pkt) as [l|] eqn:E; [|by destruct H as [-> ->]]. destruct H as (Hf & l' & -> & Hst & _).
  apply (exclusive_free fuel (pools s) _ (proj1 Hs) Hex _ _ _ (l_ip l)); [exists l; auto|done|]. unfold holding. rewrite Hst. by intros [?|?].
Qed.

Lemma decline_exclusive : declined s ps v out -> exclusive ps v.
Proof.
  intros (_ & Hg & H). pose proof (exclusive_grow fuel (pools s) (leases s) (proj1 Hs) Hex ps Hg) as Hx. destruct H as [->|(mac & l' & -> & Hst)]; [done|].
  apply (exclusive_keep ps (leases s) Hx). unfold holding. rewrite Hst. by intros [?|?].
Qed.

Lemma served_exclusive : polite s pkt -> served s pkt (message_type pkt) ps v out ->
  exclusive ps v /\ (message_type pkt = DHCP_DISCOVER \/ message_type pkt = DHCP_REQUEST -> forall pk, pk ∈ out -> told v pkt pk).
Proof.
  intros [P1 P2]. unfold served. destruct (Z.eqb_spec (message_type pkt) DHCP_DISCOVER) as [E|N1]; [intros H; by apply discover_exclusive in H as [? ?]|].
  destruct (Z.eqb_spec (message_type pkt) DHCP_REQUEST) as [E|N2].
  { intros (opt & Eo & H). destruct (request_exclusive opt (P1 (or_introl E)) (P2 E opt Eo) H). done. }
  intros H. split; [|by intros [?|?]]. destruct (Z.eqb_spec (message_type pkt) DHCP_RELEASE) as [E|_]; [by apply release_exclusive; [apply P1; by right|]|].
  destruct (message_type pkt =? DHCP_DECLINE); [by apply decline_exclusive|]. by destruct (message_type pkt =? DHCP_INFORM); destruct H as (-> & -> & _).
Qed.
End step.

(** The packets of a history, each with its environment. *)
Fixpoint serve (fuel : nat) (w : hworld dhcp_server) (l : list (env * dhcp_packet)) : outcome (hworld dhcp_server) :=
  match l with
  | [] => Ok w
  | (e, pkt) :: l => let! (_, w) := dhcp_server_process_packet e fuel w pkt in serve fuel w l
  end.

(** Every client of the history keeps to the protocol. *)
Fixpoint all_polite (fuel : nat) (w : hworld dhcp_server) (l : list (env * dhcp_packet)) : Prop :=
  match l with
  | [] => True
  | (e, pkt) :: l => polite (user w) pkt /\ forall r w', dhcp_server_process_packet e fuel w pkt = Ok (r, w') -> all_polite fuel w' l
  end.

Lemma serve_safe fuel l : Forall (fun x => env_ok x.1 /\ request_ok x.2) l -> forall w, world_ok fuel w -> exists w', serve fuel w l = Ok w' /\ world_ok fuel w'.
Proof.
  induction l as [|[e pkt] l IH]; intros Hl w Hw; [by exists w|]. apply Forall_cons in Hl as [[He Hr] Hl]. cbn [fst snd] in *.
  destruct (process_spec fuel e w pkt Hw He Hr) as (r & w1 & ps & v & out & E & Hw1 & _). cbn [serve]. rewrite (obind_run _ _ _ E). auto.
Qed.

Lemma serve_exclusive fuel l : Forall (fun x => env_ok x.1 /\ request_ok x.2) l -> forall w, world_ok fuel w -> exclusive (pools (user w)) (leases (user w)) -> all_polite fuel w l ->
  forall w', serve fuel w l = Ok w' -> world_ok fuel w' /\ exclusive (pools (user w')) (leases (user w')).
Proof.
  induction l as [|[e pkt] l IH]; intros Hl w Hw Hex Hp w' E'; [by simplify_eq/=|]. apply Forall_cons in Hl as [[He Hr] Hl]. cbn [fst snd] in *. destruct Hp as [Hp Hps].
  destruct (process_spec fuel e w pkt Hw He Hr) as (r & w1 & ps & v & out & E & Hw1 & F & HQ). cbn [serve] in E'. rewrite (obind_run _ _ _ E) in E'.
  destruct (served_exclusive fuel (user w) pkt (proj2 Hw) Hex Hr ps v out Hp HQ) as [Hx _]. apply (IH Hl w1 Hw1); [|by apply (Hps r)|done].
  unfold leases. by rewrite (ef_pools _ _ _ _ _ F), (ef_view _ _ _ _ _ F).
Qed.

(** C34: Whatever requests arrive whose options end with END or exactly with the array and
    whose host name, if any, is shorter than 64 bytes (a longer one overflows the array on
    the stack, see [long_hostname_overflow]), in any order and from any clients, with any
    clock, any calloc and any result of the send callback: a server whose pools, lease
    database and handler table are consistent processes them without leaving its tables,
    lists and buffers, and these stay consistent. *)
Theorem server_safe fuel w l : world_ok fuel w -> Forall (fun x => env_ok x.1 /\ request_ok x.2) l -> exists w', serve fuel w l = Ok w' /\ world_ok fuel w'.
Proof. intros Hw Hl. by apply serve_safe. Qed.

(** C33: On pools that share no address and have no reservations, after any history of packets
    of clients that keep to the protocol: no two clients hold the same address, every address
    held is in use in its pool, and the next packet is processed, with the same again; an
    answer to a DISCOVER or a REQUEST carries the transaction and the hardware address of the
    client and no address but the one that this client now holds. *)
Theorem server_no_double fuel w0 l w e pkt : world_ok fuel w0 -> exclusive (pools (user w0)) (leases (user w0)) ->
  Forall (fun x => env_ok x.1 /\ request_ok x.2) l -> all_polite fuel w0 l -> serve fuel w0 l = Ok w -> env_ok e -> request_ok pkt -> polite (user w) pkt ->
  exclusive (pools (user w)) (leases (user w)) /\
  exists r w' out, dhcp_server_process_packet e fuel w pkt = Ok (r, w') /\ exclusive (pools (user w')) (leases (user w')) /\ sent (user w') = sent (user w) ++ out /\
    (message_type pkt = DHCP_DISCOVER \/ message_type pkt = DHCP_REQUEST -> forall pk, pk ∈ out -> told (leases (user w')) pkt pk).
Proof.
  intros Hw0 Hex0 Hl Hp E He Hr Hpk. destruct (serve_exclusive fuel l Hl w0 Hw0 Hex0 Hp w E) as [Hw Hex]. split; [done|].
  destruct (process_spec fuel e w pkt Hw He Hr) as (r & w' & ps & v & out & E' & _ & F & HQ). exists r, w', out. split; [done|].
  destruct (served_exclusive fuel (user w) pkt (proj2 Hw) Hex Hr ps v out Hpk HQ) as [Hx Ht]. unfold leases. rewrite (ef_pools _ _ _ _ _ F), (ef_view _ _ _ _ _ F).
  split; [done|]. split; [apply (ef_sent _ _ _ _ _ F)|done].
Qed.

(** ** Examples *)

Definition demo_env : env := mkEnv 1000 1000 (fun h => Some (unused h)) (zeros 64) (fun _ => 0).

(** A server with the pools [ps] and a callback. *)
Definition demo_world (ps : list dhcp_pool) : outcome (hworld dhcp_server) :=
  let! w := dhcp_server_create true true true (fun h => Some (unused h)) None in
  let! w := of_option w in
  let s := dhcp_server_set_send_callback (dhcp_server_set_server_id (user w) (ip10 254)) true in
  Ok (mkHWorld (table w) (fold_left (fun s p => (dhcp_server_add_pool s p).2) ps s)).

(** A message of the client with the hardware address 2:0:0:0:0:[n]. *)
Definition message (mt n ci : Z) (more : list item) : dhcp_packet :=
  let o := wire (Opt DHCP_OPT_MSG_TYPE [mt] :: more) ++ [DHCP_OPT_END] in
  mkPacket 1 1 6 0 (100 + n) 0 0 ci 0 0 0 ([2; 0; 0; 0; 0; n] ++ zeros 10) (zeros 64) (zeros 128) (htonl DHCP_MAGIC_COOKIE) (o ++ zeros (308 - Z.of_nat (length o))).

Definition discover (n : Z) : dhcp_packet := message DHCP_DISCOVER n 0 [].
Definition request (n ip : Z) : dhcp_packet := message DHCP_REQUEST n 0 [Opt DHCP_OPT_REQUESTED_IP (le 4 ip)].
Definition release (n ip : Z) : dhcp_packet := message DHCP_RELEASE n ip [].

(** The replies to a history: message type, client, address. *)
Definition brief (pk : sent_packet) : Z * Z * Z :=
  (match dhcp_get_msg_type (reply pk) with Ok t => t | _ => -1 end, default 0 (chaddr (reply pk) !! 5%nat), yiaddr (reply pk)).
Definition replies_to (ps : list dhcp_pool) (l : list dhcp_packet) : outcome (list (Z * Z * Z)) :=
  let! w := demo_world ps in let! w := serve 8 w ((fun p => (demo_env, p)) <$> l) in Ok (brief <$> sent (user w)).

Example two_clients :
  replies_to [demo_pool 3] [discover 1; request 1 (ip10 1); discover 2; request 2 (ip10 2); release 1 (ip10 1); discover 3] =
    Ok [(DHCP_OFFER, 1, ip10 1); (DHCP_ACK, 1, ip10 1); (DHCP_OFFER, 2, ip10 2); (DHCP_ACK, 2, ip10 2); (DHCP_OFFER, 3, ip10 1)].
Proof. vm_compute. reflexivity. Qed.

(** *** Clients that do not keep to the protocol *)

(** A hostname of 64 bytes does not fit the array on the stack. *)
Theorem long_hostname_overflow : replies_to [demo_pool 3] [message DHCP_DISCOVER 1 0 [Opt DHCP_OPT_HOSTNAME (replicate 64 97)]] = Undef.
Proof. vm_compute. reflexivity. Qed.

(** The result of dhcp_lease_bind is not looked at: a client that gave its address back and
    asks for it again gets an ACK, although another one holds it. *)
Theorem request_after_release :
  replies_to [demo_pool 3] [discover 1; request 1 (ip10 1); release 1 (ip10 1); discover 2; request 2 (ip10 1); request 1 (ip10 1)] =
    Ok [(DHCP_OFFER, 1, ip10 1); (DHCP_ACK, 1, ip10 1); (DHCP_OFFER, 2, ip10 1); (DHCP_ACK, 2, ip10 1); (DHCP_ACK, 1, ip10 1)].
Proof. vm_compute. reflexivity. Qed.

(** The second RELEASE of a client frees the address, which another client holds by then; the
    next client gets it. *)
Theorem release_twice :
  replies_to [demo_pool 3] [discover 1; release 1 (ip10 1); discover 2; request 2 (ip10 1); release 1 (ip10 1); discover 3] =
    Ok [(DHCP_OFFER, 1, ip10 1); (DHCP_OFFER, 2, ip10 1); (DHCP_ACK, 2, ip10 1); (DHCP_OFFER, 3, ip10 1)].
Proof. vm_compute. reflexivity. Qed.

(** A REQUEST that names one address in ciaddr and another in its option creates a lease on
    the first and is refused; the address is not marked, so another client is offered it, and
    the first client has it confirmed. *)
Theorem request_two_addresses :
  replies_to [demo_pool 3] [message DHCP_REQUEST 1 (ip10 1) [Opt DHCP_OPT_REQUESTED_IP (le 4 (ip10 2))]; discover 2; request 2 (ip10 1); request 1 (ip10 1)] =
    Ok [(DHCP_NAK, 1, 0); (DHCP_OFFER, 2, ip10 1); (DHCP_ACK, 2, ip10 1); (DHCP_ACK, 1, ip10 1)].
Proof. vm_compute. reflexivity. Qed.

(** A pool of the addresses 10.0.0.[a] to 10.0.0.[b] with a gateway. *)
Definition gateway_pool (a b gw : Z) : dhcp_pool :=
  (dhcp_pool_set_gateway (default (demo_pool 1) (dhcp_pool_create true true (demo_config a b))) (ip10 gw)).2.

(** The options of an OFFER are those of the first pool with a free address, also when the
    client is offered the address of its lease, which is in another pool: the second OFFER
    has an address of the first pool and the gateway of the second. *)
Theorem offer_of_other_pool :
  (let! w := demo_world [gateway_pool 1 1 101; gateway_pool 11 13 111] in
   let! w := serve 8 w [(demo_env, discover 1); (demo_env, discover 1)] in
   Ok ((fun pk => (yiaddr (reply pk), dhcp_option_find_in_packet (reply pk) DHCP_OPT_ROUTER (Some (zeros 4)) 4)) <$> sent (user w))) =
  Ok [(ip10 1, Ok (4, Some (le 4 (ip10 101)))); (ip10 1, Ok (4, Some (le 4 (ip10 111))))].
Proof. vm_compute. reflexivity. Qed.

(** Seven eighths of a lease time of 2^30 seconds, computed in 32 bits, come before its half. *)
Theorem rebind_time_wraps c : default_lease c = 2 ^ 30 ->
  lease_items c !! 1%nat = Some (DHCP_OPT_RENEWAL_TIME, le 4 (htonl (2 ^ 29))) /\ lease_items c !! 2%nat = Some (DHCP_OPT_REBIND_TIME, le 4 (htonl (3 * 2 ^ 27))).
Proof. intros H. unfold lease_items. rewrite H. split; reflexivity. Qed.

Lemma rebind_time_wraps_witness :
  lease_items (mkPoolConfig (zeros 32) 0 0 (ip10 1) (ip10 2) 0 (zeros 4) 0 (zeros 4) 0 (zeros 64) (2 ^ 30) 86400 300) !! 2%nat = Some (DHCP_OPT_REBIND_TIME, le 4 (htonl (3 * 2 ^ 27))).
Proof. apply rebind_time_wraps. reflexivity. Defined.

(** *** The theorems on a server with one pool *)

Lemma demo_env_ok : env_ok demo_env.
Proof. split; [|done]. intros h a [= <-]. apply unused_ok. Qed.

Definition decide_request (r : dhcp_packet) : bool :=
  bool_decide (Z.of_nat (length (options r)) = DHCP_MAX_OPTIONS_SIZE /\ Forall is_byte (options r)) &&
  match tail_of (options r) with [] => true | c :: _ => c =? DHCP_OPT_END end &&
  bool_decide (length (chaddr r) = 16%nat) && bool_decide (is_u32 (ciaddr r)) &&
  match first_with DHCP_OPT_HOSTNAME (items_of (options r)) with Some d => (length d <? 64)%nat | None => true end.

Lemma decide_request_ok r : decide_request r = true -> request_ok r.
Proof.
  unfold decide_request. rewrite !andb_true_iff, !bool_decide_eq_true. intros ((((H1 & H2) & H3) & H4) & H5). split; [done| |done|done|].
  - destruct (tail_of (options r)) as [|c t]; [done|]. by apply Z.eqb_eq.
  - intros d Hd. rewrite Hd in H5. by apply Nat.ltb_lt.
Qed.

Lemma demo_pool_ok : pool_ok 8 (demo_pool 3).
Proof. split; [apply demo_pool_wf; lia|]. split; [|vm_compute; discriminate]. split; [done|vm_compute; done|done|]. vm_compute. left. Qed.

Lemma demo_world_ok : exists w, demo_world [demo_pool 3] = Ok w /\ world_ok 8 w /\ exclusive (pools (user w)) (leases (user w)).
Proof.
  unfold demo_world. destruct (server_create_ok (fun h => Some (unused h)) None 8) as (w & E & Ht & Hs & Hp & Hl & _); [intros h a [= <-]; apply unused_ok|by eexists|].
  rewrite E. cbn [obind of_option]. eexists. split; [done|]. cbn [fold_left]. unfold dhcp_server_add_pool. cbn [pools dhcp_server_set_send_callback dhcp_server_set_server_id]. rewrite Hp. cbn [length].
  change (DHCP_SERVER_MAX_POOLS <=? Z.of_nat 0) with false. cbn iota. cbn [snd]. split; [split; [done|]; split; [apply Forall_singleton, demo_pool_ok|apply Hs]|].
  cbn [user with_pools pools app]. match goal with |- exclusive _ ?v => change v with (leases (user w)) end. rewrite Hl. split.
  - by apply Forall_singleton.
  - intros i j p q ip Hi Hj _ _. destruct i as [|i], j as [|j]; done.
  - intros mac ip (l & H & _). done.
  - intros m1 m2 ip (l & H & _). done.
Qed.

Lemma server_safe_witness :
  exists w w', demo_world [demo_pool 3] = Ok w /\ serve 8 w [(demo_env, discover 1); (demo_env, request 1 (ip10 1)); (demo_env, release 2 0)] = Ok w' /\ world_ok 8 w'.
Proof.
  destruct demo_world_ok as (w & E & Hw & _). destruct (server_safe 8 w [(demo_env, discover 1); (demo_env, request 1 (ip10 1)); (demo_env, release 2 0)] Hw) as (w' & E' & Hw').
  - repeat (apply Forall_cons_2; [split; [apply demo_env_ok|apply decide_request_ok; vm_compute; reflexivity]|]). apply Forall_nil_2.
  - exists w, w'. done.
Defined.

(** Client 2 is offered an address after client 1 got one. *)
Lemma server_no_double_witness :
  exists w w1 r w2, demo_world [demo_pool 3] = Ok w /\ serve 8 w [(demo_env, discover 1)] = Ok w1 /\ dhcp_server_process_packet demo_env 8 w1 (discover 2) = Ok (r, w2) /\
    exclusive (pools (user w2)) (leases (user w2)).
Proof.
  destruct demo_world_ok as (w & E & Hw & Hex). assert (forall s n, polite s (discover n)) as Hpol.
  { intros s n. split; [intros [H|H]; vm_compute in H; discriminate H|intros H; vm_compute in H; discriminate H]. }
  destruct (serve_safe 8 [(demo_env, discover 1)]) with (w := w) as (w1 & E1 & _); [apply Forall_cons_2; [split; [apply demo_env_ok|apply decide_request_ok; vm_compute; reflexivity]|apply Forall_nil_2]|exact Hw|].
  destruct (server_no_double 8 w [(demo_env, discover 1)] w1 demo_env (discover 2)) as (_ & r & w2 & out & E2 & Hex2 & _).
  - exact Hw.
  - exact Hex.
  - apply Forall_cons_2; [split; [apply demo_env_ok|apply decide_request_ok; vm_compute; reflexivity]|apply Forall_nil_2].
  - cbn [all_polite]. auto.
  - exact E1.
  - apply demo_env_ok.
  - apply decide_request_ok. vm_compute. reflexivity.
  - apply Hpol.
  - exists w, w1, r, w2. done.
Defined.

Lemma reply_readable_witness :
  exists pk, xid (reply pk) = 101 /\ dhcp_option_find_in_packet (reply pk) DHCP_OPT_SERVER_ID (Some (zeros 4)) 4 = Ok (4, Some (le 4 (ip10 254))).
Proof.
  set (s := mkServer (mkServerConfig (ip10 254) 0 0 0 0 true true) [demo_pool 3] (default (mkDb 0 ∅ [] 0 0 false [] 0 0 0) (dhcp_lease_db_create true None)) true [] zero_stats).
  destruct (reply_readable demo_env s (discover 1) DHCP_OFFER (ip10 1) 0 (demo_pool 3)) as (pk & _ & _ & Hx & _ & _ & _ & _ & _ & Hf).
  - reflexivity.
  - reflexivity.
  - apply demo_pool_ok.
  - reflexivity.
  - exists pk. split; [exact Hx|]. rewrite Hf. vm_compute. reflexivity.
Defined.
