(* ===== verification/Netlink.v ===== *)
(** * src/ipc/qd_netlink.c: messages of generic netlink

    Messages are built as lists of attributes, written into the send buffer in the format of
    the kernel, and read back from the receive buffer into attributes that point into it.
    What the socket calls return is an argument.  An attribute of a message refers to bytes
    of the caller, to a place of the receive buffer, or to a variable that is gone. *)

From S2P Require Import Prelude Common CString Bytes.

Definition QD_NETLINK_MAX_PAYLOAD : Z := 4096.
Definition QD_NETLINK_MAX_ATTRS : nat := 32.
Definition QD_NETLINK_VERSION : Z := 1.
Definition QD_NL_ATTR_MSG : Z := 1.
Definition QD_NL_ATTR_DATA : Z := 2.
Definition QD_NL_ATTR_PID : Z := 3.
Definition QD_NL_ATTR_NAME : Z := 4.
Definition QD_NL_CMD_ECHO : Z := 1.
Definition QD_NL_CMD_REGISTER : Z := 2.
Definition QD_NL_CMD_UNREGISTER : Z := 3.
Definition QD_NL_CMD_GET_INFO : Z := 4.

(** linux/netlink.h and linux/genetlink.h. *)
Definition NLMSG_ERROR : Z := 2.
Definition NLM_F_REQUEST : Z := 1.
Definition GENL_ID_CTRL : Z := 16.
Definition CTRL_CMD_GETFAMILY : Z := 3.
Definition CTRL_ATTR_FAMILY_ID : Z := 1.
Definition CTRL_ATTR_FAMILY_NAME : Z := 2.
Definition NLMSG_HDRLEN : Z := 16.
Definition NLA_HDRLEN : Z := 4.
Definition GENL_HDRLEN : Z := 4.
Definition NLA_ALIGN (n : Z) : Z := (n + 3) / 4 * 4.

(** ** Data *)

Inductive nl_ptr := PBytes (l : list Z) | PRecv (pos : Z) | PDead.

Record qd_nl_attr := mkAttr { a_type : Z; a_len : Z; a_data : nl_ptr }.

(** [nm_attrs]: the first num_attrs entries of the array. *)
Record qd_netlink_msg := mkNlMsg { nm_cmd : Z; nm_flags : Z; nm_seq : Z; nm_pid : Z; nm_attrs : list qd_nl_attr }.

(** [nl_out]: what was handed to the socket. *)
Record qd_netlink := mkNl {
  family_id : Z; nl_seq : Z; nl_pid : Z; family_name : list Z;
  recv_buf : list Z; send_buf : list Z; nl_out : list (list Z);
  subscribed_groups : Z; msgs_sent : Z; msgs_received : Z; nl_errors : Z
}.

Definition set_family (x : Z) (n : qd_netlink) : qd_netlink :=
  mkNl x (nl_seq n) (nl_pid n) (family_name n) (recv_buf n) (send_buf n) (nl_out n) (subscribed_groups n) (msgs_sent n) (msgs_received n) (nl_errors n).
Definition next_seq (n : qd_netlink) : qd_netlink :=
  mkNl (family_id n) (u32 (nl_seq n + 1)) (nl_pid n) (family_name n) (recv_buf n) (send_buf n) (nl_out n) (subscribed_groups n) (msgs_sent n) (msgs_received n) (nl_errors n).
Definition set_recv_buf (b : list Z) (n : qd_netlink) : qd_netlink :=
  mkNl (family_id n) (nl_seq n) (nl_pid n) (family_name n) b (send_buf n) (nl_out n) (subscribed_groups n) (msgs_sent n) (msgs_received n) (nl_errors n).
Definition set_send_buf (b : list Z) (n : qd_netlink) : qd_netlink :=
  mkNl (family_id n) (nl_seq n) (nl_pid n) (family_name n) (recv_buf n) b (nl_out n) (subscribed_groups n) (msgs_sent n) (msgs_received n) (nl_errors n).
Definition nl_put_out (b : list Z) (n : qd_netlink) : qd_netlink :=
  mkNl (family_id n) (nl_seq n) (nl_pid n) (family_name n) (recv_buf n) (send_buf n) (nl_out n ++ [b]) (subscribed_groups n) (msgs_sent n) (msgs_received n) (nl_errors n).
Definition set_groups (x : Z) (n : qd_netlink) : qd_netlink :=
  mkNl (family_id n) (nl_seq n) (nl_pid n) (family_name n) (recv_buf n) (send_buf n) (nl_out n) x (msgs_sent n) (msgs_received n) (nl_errors n).
Definition nl_count (sent received errors : Z) (n : qd_netlink) : qd_netlink :=
  mkNl (family_id n) (nl_seq n) (nl_pid n) (family_name n) (recv_buf n) (send_buf n) (nl_out n) (subscribed_groups n)
    (u64 (msgs_sent n + sent)) (u64 (msgs_received n + received)) (u64 (nl_errors n + errors)).

(** The [len] bytes a pointer of a message refers to. *)
Definition read_ptr (n : qd_netlink) (p : nl_ptr) (len : Z) : outcome (list Z) :=
  match p with PBytes l => load l 0 len | PRecv pos => load (recv_buf n) pos len | PDead => Undef end.

Definition load_le (mem : list Z) (pos : Z) (k : nat) : outcome Z := let! b := load mem pos (Z.of_nat k) in Ok (un_le b).

(** ** Building messages *)

Definition qd_netlink_msg_init (cmd : Z) : qd_netlink_msg := mkNlMsg cmd 0 0 0 [].
Definition qd_netlink_msg_clear : qd_netlink_msg := mkNlMsg 0 0 0 0 [].

Definition qd_netlink_msg_add_attr (m : qd_netlink_msg) (type : Z) (data : nl_ptr) (len : Z) : Z * qd_netlink_msg :=
  if (QD_NETLINK_MAX_ATTRS <=? length (nm_attrs m))%nat then (QD_ERR_INVAL, m) else
  (QD_OK, mkNlMsg (nm_cmd m) (nm_flags m) (nm_seq m) (nm_pid m) (nm_attrs m ++ [mkAttr type (u16 len) data])).

(** [str]: the bytes before the zero. *)
Definition qd_netlink_msg_add_str (m : qd_netlink_msg) (type : Z) (str : option (list Z)) : Z * qd_netlink_msg :=
  match str with
  | None => (QD_ERR_INVAL, m)
  | Some s => qd_netlink_msg_add_attr m type (PBytes (s ++ [0])) (Z.of_nat (length s) + 1)
  end.

(** The pointer is that of the parameter, which is gone after the call. *)
Definition qd_netlink_msg_add_u32 (m : qd_netlink_msg) (type val : Z) : Z * qd_netlink_msg := qd_netlink_msg_add_attr m type PDead 4.
Definition qd_netlink_msg_add_u64 (m : qd_netlink_msg) (type val : Z) : Z * qd_netlink_msg := qd_netlink_msg_add_attr m type PDead 8.
Definition qd_netlink_msg_add_s32 (m : qd_netlink_msg) (type val : Z) : Z * qd_netlink_msg := qd_netlink_msg_add_attr m type PDead 4.

(** ** Reading messages *)

Definition qd_netlink_msg_get_attr (m : qd_netlink_msg) (type : Z) : option qd_nl_attr := List.find (fun a => a_type a =? type) (nm_attrs m).

Definition get_int (n : qd_netlink) (m : qd_netlink_msg) (type : Z) (k : nat) : outcome (Z * Z) :=
  match qd_netlink_msg_get_attr m type with
  | None => Ok (QD_ERR_NOENT, 0)
  | Some a => if a_len a <? Z.of_nat k then Ok (QD_ERR_NOENT, 0) else let! b := read_ptr n (a_data a) (Z.of_nat k) in Ok (QD_OK, un_le b)
  end.
Definition qd_netlink_msg_get_u32 (n : qd_netlink) (m : qd_netlink_msg) (type : Z) : outcome (Z * Z) := get_int n m type 4.
Definition qd_netlink_msg_get_u64 (n : qd_netlink) (m : qd_netlink_msg) (type : Z) : outcome (Z * Z) := get_int n m type 8.
Definition qd_netlink_msg_get_s32 (n : qd_netlink) (m : qd_netlink_msg) (type : Z) : outcome (Z * Z) := let! (c, v) := get_int n m type 4 in Ok (c, i32 v).

Definition qd_netlink_msg_get_data (m : qd_netlink_msg) (type : Z) : option (nl_ptr * Z) := match qd_netlink_msg_get_attr m type with Some a => Some (a_data a, a_len a) | None => None end.

(** The string that a caller of qd_netlink_msg_get_str reads; NULL as None. *)
Definition ptr_string (n : qd_netlink) (p : nl_ptr) : outcome (list Z) :=
  match p with PBytes l => c_string l | PRecv pos => if 0 <=? pos then c_string (drop (Z.to_nat pos) (recv_buf n)) else Undef | PDead => Undef end.
Definition qd_netlink_msg_get_str (n : qd_netlink) (m : qd_netlink_msg) (type : Z) : outcome (option (list Z)) :=
  match qd_netlink_msg_get_attr m type with Some a => let! s := ptr_string n (a_data a) in Ok (Some s) | None => Ok None end.

(** ** Sending *)

(** [buf]: memory with the header of the message at 0; [data]: the bytes at the pointer. *)
Definition nla_put (buf : list Z) (type len : Z) (data : list Z) : outcome (list Z) :=
  let! n := load_le buf 0 4 in
  let tail := NLA_ALIGN n in
  let payload_len := NLA_HDRLEN + len in
  let aligned_len := NLA_ALIGN payload_len in
  let! buf := store buf (tail + 2) (le 2 type) in
  let! buf := store buf tail (le 2 payload_len) in
  let! buf := store buf (tail + NLA_HDRLEN) data in
  store buf 0 (le 4 (n + aligned_len)).

Definition nla_put_string (buf : list Z) (type : Z) (s : list Z) : outcome (list Z) := nla_put buf type (Z.of_nat (length s) + 1) (s ++ [0]).

Fixpoint put_attrs (n : qd_netlink) (buf : list Z) (l : list qd_nl_attr) : outcome (list Z) :=
  match l with
  | [] => Ok buf
  | a :: l => let! d := read_ptr n (a_data a) (a_len a) in let! buf := nla_put buf (a_type a) (a_len a) d in put_attrs n buf l
  end.

(** struct nlmsghdr and struct genlmsghdr. *)
Definition nl_header (len type flags seq pid cmd version : Z) : list Z := le 4 len ++ le 2 type ++ le 2 flags ++ le 4 seq ++ le 4 pid ++ [u8 cmd; version; 0; 0].

Definition NL_REQ_SIZE : Z := NLMSG_HDRLEN + GENL_HDRLEN + QD_NETLINK_MAX_PAYLOAD.

(** [sendto]: whether the call succeeds; it takes the bytes that the length field says. *)
Definition send_request (sendto : bool) (n : qd_netlink) (flags cmd : Z) (put : list Z -> outcome (list Z)) : outcome (Z * qd_netlink) :=
  if family_id n =? 0 then Ok (QD_ERR_NOENT, n) else
  let! buf := store (send_buf n) 0 (zeros NL_REQ_SIZE) in
  let! buf := store buf 0 (nl_header (NLMSG_HDRLEN + GENL_HDRLEN) (family_id n) (Z.lor NLM_F_REQUEST flags) (nl_seq n) (nl_pid n) cmd QD_NETLINK_VERSION) in
  let n := next_seq n in
  let! buf := put buf in
  let n := set_send_buf buf n in
  if sendto then
    let! len := load_le buf 0 4 in
    let! bytes := load buf 0 len in
    Ok (QD_OK, nl_count 1 0 0 (nl_put_out bytes n))
  else Ok (QD_ERR_IO, n).

(** [data]: NULL as None. *)
Definition qd_netlink_send (sendto : bool) (n : qd_netlink) (cmd : Z) (data : option (list Z)) (len : Z) : outcome (Z * qd_netlink) :=
  send_request sendto n 0 cmd (fun buf =>
    match data with
    | Some d => if 0 <? len then let! b := load d 0 (i32 len) in nla_put buf QD_NL_ATTR_DATA (i32 len) b else Ok buf
    | None => Ok buf
    end).

Definition qd_netlink_send_msg (sendto : bool) (n : qd_netlink) (m : qd_netlink_msg) : outcome (Z * qd_netlink) :=
  send_request sendto n (nm_flags m) (nm_cmd m) (fun buf => put_attrs n buf (nm_attrs m)).

(** ** Receiving *)

(** What poll and recvfrom give: nothing in time, a failed poll, nothing there (EAGAIN),
    another error or the end of the stream, a datagram. *)
Inductive nl_input := NlTimeout | NlPollError | NlAgain | NlError | NlData (l : list Z).

(** recvfrom, which drops what does not fit: the length and the buffer. *)
Definition recv_bytes (n : qd_netlink) (l : list Z) : outcome (Z * qd_netlink) :=
  let b := take (length (recv_buf n)) l in
  let! buf := store (recv_buf n) 0 b in Ok (Z.of_nat (length b), set_recv_buf buf n).

(** NLMSG_OK and NLA_OK. *)
Definition NLMSG_OK (buf : list Z) (len : Z) : outcome bool :=
  if len <? NLMSG_HDRLEN then Ok false else
  let! n := load_le buf 0 4 in Ok ((NLMSG_HDRLEN <=? n) && (n <=? len)).
Definition NLA_OK (buf : list Z) (pos remaining : Z) : outcome bool :=
  if remaining <? NLA_HDRLEN then Ok false else
  let! n := load_le buf pos 2 in Ok ((NLA_HDRLEN <=? n) && (n <=? remaining)).

(** The loop over the attributes. *)
Fixpoint parse_attrs (fuel : nat) (buf : list Z) (pos remaining : Z) (acc : list qd_nl_attr) : outcome (list qd_nl_attr) :=
  let! ok := NLA_OK buf pos remaining in
  if (ok : bool) && (length acc <? QD_NETLINK_MAX_ATTRS)%nat then
    match fuel with
    | O => Fuel
    | S fuel =>
      let! len := load_le buf pos 2 in
      let! type := load_le buf (pos + 2) 2 in
      let acc := acc ++ [mkAttr type (u16 (len - NLA_HDRLEN)) (PRecv (pos + NLA_HDRLEN))] in
      parse_attrs fuel buf (pos + NLA_ALIGN len) (remaining - NLA_ALIGN len) acc
    end
  else Ok acc.

Definition qd_netlink_recv (n : qd_netlink) (m : qd_netlink_msg) (timeout_ms : Z) (input : nl_input) : outcome (Z * qd_netlink * qd_netlink_msg) :=
  match input with
  | NlTimeout => Ok (if timeout_ms =? 0 then QD_ERR_AGAIN else QD_ERR_TIMEOUT, n, m)
  | NlPollError => Ok (QD_ERR_IO, n, m)
  | NlAgain => Ok (QD_ERR_AGAIN, n, m)
  | NlError => Ok (QD_ERR_IO, n, m)
  | NlData l =>
    let! (len, n) := recv_bytes n l in
    let buf := recv_buf n in
    let! ok := NLMSG_OK buf len in
    if negb ok then Ok (QD_ERR_PROTO, n, m) else
    let! type := load_le buf 4 2 in
    if type =? NLMSG_ERROR then
      let! e := load_le buf NLMSG_HDRLEN 4 in Ok (i32 e, nl_count 0 0 1 n, m)
    else
      let! cmd := byte_at buf NLMSG_HDRLEN in
      let! seq := load_le buf 8 4 in
      let! pid := load_le buf 12 4 in
      let! total := load_le buf 0 4 in
      let! attrs := parse_attrs QD_NETLINK_MAX_ATTRS buf (NLMSG_HDRLEN + GENL_HDRLEN) (i32 (total - (NLMSG_HDRLEN + GENL_HDRLEN))) [] in
      Ok (QD_OK, nl_count 0 1 0 n, mkNlMsg cmd 0 seq pid attrs)
  end.

Definition qd_netlink_request (sendto : bool) (n : qd_netlink) (request response : qd_netlink_msg) (timeout_ms : Z) (input : nl_input) : outcome (Z * qd_netlink * qd_netlink_msg) :=
  let! (ret, n) := qd_netlink_send_msg sendto n request in
  if negb (ret =? QD_OK) then Ok (ret, n, response) else qd_netlink_recv n response timeout_ms input.

(** The messages that the callback gets, with the buffer that they point into.  [msg] is the
    local variable, which is not initialised: an acknowledgement (an error message with
    error 0) leaves it as it is, and the callback gets what the stack or the message before
    left there. *)
Fixpoint qd_netlink_process (inputs : list nl_input) (n : qd_netlink) (msg : qd_netlink_msg) (count : Z) (seen : list (qd_netlink_msg * list Z)) : outcome (Z * qd_netlink * list (qd_netlink_msg * list Z)) :=
  match inputs with
  | [] => Ok (count, n, seen)
  | i :: inputs =>
    let! (ret, n, msg) := qd_netlink_recv n msg 0 i in
    if ret =? QD_ERR_AGAIN then Ok (count, n, seen) else
    if negb (ret =? QD_OK) then Ok (ret, n, seen) else
    qd_netlink_process inputs n msg (count + 1) (seen ++ [(msg, recv_buf n)])
  end.

(** ** Resolving the family *)

(** The loop as it is: the pointer moves first, and the length of the next attribute is
    subtracted. *)
Fixpoint find_family (fuel : nat) (buf : list Z) (pos remaining : Z) : outcome (option Z) :=
  let! ok := NLA_OK buf pos remaining in
  if (ok : bool) then
    match fuel with
    | O => Fuel
    | S fuel =>
      let! type := load_le buf (pos + 2) 2 in
      if type =? CTRL_ATTR_FAMILY_ID then let! id := load_le buf (pos + NLA_HDRLEN) 2 in Ok (Some id) else
      let! len := load_le buf pos 2 in
      let pos := pos + NLA_ALIGN len in
      let! len := load_le buf pos 2 in
      find_family fuel buf pos (remaining - NLA_ALIGN len)
    end
  else Ok None.

(** The request is a local structure with 256 bytes for the attributes. *)
Definition family_request (n : qd_netlink) : outcome (list Z) :=
  let! name := c_string (family_name n) in
  let! buf := store (zeros (NLMSG_HDRLEN + GENL_HDRLEN + 256)) 0
    (nl_header (NLMSG_HDRLEN + GENL_HDRLEN) GENL_ID_CTRL NLM_F_REQUEST (nl_seq n) (nl_pid n) CTRL_CMD_GETFAMILY 1) in
  let! buf := nla_put_string buf CTRL_ATTR_FAMILY_NAME name in
  let! len := load_le buf 0 4 in
  load buf 0 len.

Definition qd_netlink_resolve_family (sendto : bool) (n : qd_netlink) (input : option (list Z)) : outcome (Z * qd_netlink) :=
  let! req := family_request n in
  let n := next_seq n in
  if negb sendto then Ok (QD_ERR_IO, n) else
  let n := nl_put_out req n in
  match input with
  | None | Some [] => Ok (QD_ERR_IO, n)
  | Some l =>
    let! (len, n) := recv_bytes n l in
    let buf := recv_buf n in
    let! ok := NLMSG_OK buf len in
    if negb ok then Ok (QD_ERR_PROTO, n) else
    let! type := load_le buf 4 2 in
    let! e := if type =? NLMSG_ERROR then load_le buf NLMSG_HDRLEN 4 else Ok 0 in
    if negb (e =? 0) then Ok (QD_ERR_NOENT, n) else
    let! total := load_le buf 0 4 in
    let! id := find_family (length buf) buf (NLMSG_HDRLEN + GENL_HDRLEN) (i32 (total - (NLMSG_HDRLEN + GENL_HDRLEN))) in
    match id with Some x => Ok (QD_OK, set_family x n) | None => Ok (QD_ERR_NOENT, n) end
  end.

(** ** Groups and calls *)

(** A shift of 1 by 31 or more is undefined. *)
Definition group_bit (group : Z) : outcome Z := if (0 <=? group) && (group <? 31) then Ok (Z.shiftl 1 group) else Undef.

Definition qd_netlink_subscribe (ok : bool) (n : qd_netlink) (group : Z) : outcome (Z * qd_netlink) :=
  if ok then let! b := group_bit group in Ok (QD_OK, set_groups (Z.lor (subscribed_groups n) b) n) else Ok (QD_ERR_IO, n).
Definition qd_netlink_unsubscribe (ok : bool) (n : qd_netlink) (group : Z) : outcome (Z * qd_netlink) :=
  if ok then let! b := group_bit group in Ok (QD_OK, set_groups (Z.ldiff (subscribed_groups n) b) n) else Ok (QD_ERR_IO, n).

(** [size]: of the caller's array, NULL as None; the bytes that it gets. *)
Definition copy_reply (size : option Z) (reply : option (list Z)) : option (list Z) :=
  match reply, size with Some r, Some k => if 0 <? k then Some (strncpy r (k - 1) ++ [0]) else None | _, _ => None end.

(** [junk]: what the stack has where the response is. *)
Definition qd_netlink_echo (sendto : bool) (n : qd_netlink) (junk : qd_netlink_msg) (message : list Z) (size : option Z) (input : nl_input) : outcome (Z * qd_netlink * option (list Z)) :=
  let '(_, req) := qd_netlink_msg_add_str (qd_netlink_msg_init QD_NL_CMD_ECHO) QD_NL_ATTR_MSG (Some message) in
  let! (ret, n, resp) := qd_netlink_request sendto n req junk 5000 input in
  if negb (ret =? QD_OK) then Ok (ret, n, None) else
  let! reply := qd_netlink_msg_get_str n resp QD_NL_ATTR_MSG in
  Ok (QD_OK, n, copy_reply size reply).

Definition qd_netlink_get_info (sendto : bool) (n : qd_netlink) (junk : qd_netlink_msg) (size : option Z) (input : nl_input) : outcome (Z * qd_netlink * option (list Z)) :=
  let! (ret, n, resp) := qd_netlink_request sendto n (qd_netlink_msg_init QD_NL_CMD_GET_INFO) junk 5000 input in
  if negb (ret =? QD_OK) then Ok (ret, n, None) else
  let! reply := qd_netlink_msg_get_str n resp QD_NL_ATTR_MSG in
  Ok (QD_OK, n, copy_reply size reply).

Definition qd_netlink_register (sendto : bool) (n : qd_netlink) (junk : qd_netlink_msg) (name : list Z) (pid : Z) (input : nl_input) : outcome (Z * qd_netlink * qd_netlink_msg) :=
  let '(_, req) := qd_netlink_msg_add_str (qd_netlink_msg_init QD_NL_CMD_REGISTER) QD_NL_ATTR_NAME (Some name) in
  let '(_, req) := qd_netlink_msg_add_u32 req QD_NL_ATTR_PID pid in
  qd_netlink_request sendto n req junk 5000 input.

Definition qd_netlink_unregister (sendto : bool) (n : qd_netlink) (junk : qd_netlink_msg) (pid : Z) (input : nl_input) : outcome (Z * qd_netlink * qd_netlink_msg) :=
  let '(_, req) := qd_netlink_msg_add_u32 (qd_netlink_msg_init QD_NL_CMD_UNREGISTER) QD_NL_ATTR_PID pid in
  qd_netlink_request sendto n req junk 5000 input.

Definition qd_netlink_stats (n : qd_netlink) : Z * Z * Z * Z := (msgs_sent n, msgs_received n, nl_errors n, subscribed_groups n).

(** [name]: of the family, [recv] and [send]: what malloc gives for the buffers (their
    contents). *)
Definition qd_netlink_new (name recv send : list Z) (pid : Z) : qd_netlink := mkNl 0 1 pid (strncpy name 63 ++ [0]) recv send [] 0 0 0 0.
