(* ===== verification/NetlinkFacts.v ===== *)
(** * Theorems on netlink messages

    Receiving reads nothing outside the buffer, whatever came in; a message that was sent is
    read back as it was built. *)

From S2P Require Import Prelude Common CString Bytes Netlink.

(** ** Numbers in buffers *)

Lemma load_le_ok mem pos k : Forall is_byte mem -> 0 <= pos -> pos + Z.of_nat k <= Z.of_nat (length mem) ->
  exists v, load_le mem pos k = Ok v /\ 0 <= v < 256 ^ Z.of_nat k.
Proof.
  intros Hb Hp Hl. unfold load_le. rewrite load_ok by lia. eexists. split; [reflexivity|]. pose proof (un_le_range (take (Z.to_nat (Z.of_nat k)) (drop (Z.to_nat pos) mem))) as H.
  rewrite length_take, length_drop, Nat.min_l in H by lia. rewrite Nat2Z.id in *. apply H. by apply Forall_take, Forall_drop.
Qed.

Lemma load_le_app pre v k rest pos : pos = Z.of_nat (length pre) -> 0 <= v < 256 ^ Z.of_nat k -> load_le (pre ++ le k v ++ rest) pos k = Ok v.
Proof. intros -> Hv. unfold load_le. rewrite load_app by (done || by rewrite length_le). cbn [obind]. by rewrite un_le_le. Qed.

Lemma align_ge n : n <= NLA_ALIGN n < n + 4.
Proof. unfold NLA_ALIGN. pose proof (Z.div_mod (n + 3) 4). pose proof (Z.mod_pos_bound (n + 3) 4). lia. Qed.

Lemma align_id n : n mod 4 = 0 -> NLA_ALIGN n = n.
Proof. intros H. pose proof (Z.div_mod n 4). unfold NLA_ALIGN. replace (n + 3) with (3 + n / 4 * 4) by lia. rewrite Z.div_add by lia. change (3 / 4) with 0. lia. Qed.

Lemma align_mod n : NLA_ALIGN n mod 4 = 0.
Proof. unfold NLA_ALIGN. apply Z.mod_mul. lia. Qed.

(** ** Receiving anything *)

(** The data of the attribute is in the bytes from [lo] to [hi] of the receive buffer. *)
Definition attr_inside (lo hi : Z) (a : qd_nl_attr) : Prop :=
  exists p, a_data a = PRecv p /\ lo <= p /\ 0 <= a_len a /\ p + a_len a <= hi.

Lemma parse_inside buf hi : Forall is_byte buf -> hi <= Z.of_nat (length buf) -> forall fuel pos remaining acc,
  0 <= pos -> pos + remaining <= hi -> (QD_NETLINK_MAX_ATTRS <= fuel + length acc)%nat -> (length acc <= QD_NETLINK_MAX_ATTRS)%nat ->
  exists l, parse_attrs fuel buf pos remaining acc = Ok (acc ++ l) /\ Forall (attr_inside pos hi) l /\ (length (acc ++ l) <= QD_NETLINK_MAX_ATTRS)%nat.
Proof.
  intros Hb Hhi. induction fuel as [|fuel IH]; intros pos remaining acc Hp Hr Hf Ha; cbn [parse_attrs]; unfold NLA_OK;
    destruct (Z.ltb_spec remaining NLA_HDRLEN) as [Hs|Hs]; unfold NLA_HDRLEN in Hs; try (cbn [obind andb]; exists []; by rewrite app_nil_r).
  - destruct (load_le_ok buf pos 2 Hb) as (v & E & _); [lia..|]. rewrite E. cbn [obind]. destruct (Nat.ltb_spec (length acc) QD_NETLINK_MAX_ATTRS); [lia|]. rewrite andb_false_r. exists []. by rewrite app_nil_r.
  - destruct (load_le_ok buf pos 2 Hb) as (v & E & Hv); [lia..|]. rewrite E. cbn [obind]. unfold NLA_HDRLEN.
    destruct (Z.leb_spec 4 v) as [H4|H4], (Z.leb_spec v remaining) as [Hvr|Hvr]; cbn [andb]; try (exists []; by rewrite app_nil_r).
    destruct (Nat.ltb_spec (length acc) QD_NETLINK_MAX_ATTRS) as [Hn|Hn]; [|exists []; by rewrite app_nil_r].
    destruct (load_le_ok buf (pos + 2) 2 Hb) as (ty & Et & _); [lia..|]. rewrite Et. cbn [obind]. pose proof (align_ge v) as Hal.
    assert (u16 (v - 4) = v - 4) as Eu by (unfold u16, u16_mod; apply Z.mod_small; change (256 ^ Z.of_nat 2) with 65536 in Hv; lia).
    destruct (IH (pos + NLA_ALIGN v) (remaining - NLA_ALIGN v) (acc ++ [mkAttr ty (u16 (v - 4)) (PRecv (pos + 4))])) as (l & El & Hl & Hlen); [lia|lia|rewrite length_app; cbn; lia|rewrite length_app; cbn; lia|].
    rewrite <- (assoc_L (++)) in El, Hlen. eexists. split; [exact El|]. split; [|done]. apply Forall_cons. split.
    + exists (pos + 4). cbn. rewrite Eu. split; [done|]. lia.
    + eapply Forall_impl; [exact Hl|]. intros a (p & E1 & E2 & E3 & E4). exists p. split; [done|]. lia.
Qed.

Lemma recv_bytes_ok n l : exists n', recv_bytes n l = Ok (Z.of_nat (length (take (length (recv_buf n)) l)), n') /\
  recv_buf n' = take (length (recv_buf n)) l ++ drop (length (take (length (recv_buf n)) l)) (recv_buf n) /\ length (recv_buf n') = length (recv_buf n).
Proof.
  unfold recv_bytes. rewrite store_ok by (rewrite ?length_take; lia). cbn [obind]. eexists. split; [reflexivity|]. cbn [recv_buf set_recv_buf]. rewrite take_0. cbn [app]. split; [done|]. rewrite length_app, length_drop, !length_take. lia.
Qed.

Lemma recv_run n m timeout input : 20 <= Z.of_nat (length (recv_buf n)) < 2 ^ 31 -> Forall is_byte (recv_buf n) -> (forall l, input = NlData l -> Forall is_byte l) ->
  exists code n' m', qd_netlink_recv n m timeout input = Ok (code, n', m') /\ length (recv_buf n') = length (recv_buf n) /\ Forall is_byte (recv_buf n') /\
    (m' = m \/ exists l, input = NlData l /\ (length (nm_attrs m') <= QD_NETLINK_MAX_ATTRS)%nat /\ Forall (attr_inside 20 (Z.of_nat (length l))) (nm_attrs m')).
Proof.
  intros Hsz Hb Hin. unfold qd_netlink_recv. destruct input as [| | | |l]; try (do 3 eexists; split; [reflexivity|]; split; [done|]; split; [done|by left]).
  destruct (recv_bytes_ok n l) as (n1 & E & Eb & Hl). rewrite E. cbn [obind]. set (k := take (length (recv_buf n)) l) in *.
  assert (Forall is_byte (recv_buf n1)) as Hb1 by (rewrite Eb; apply Forall_app; split; [apply Forall_take; by apply Hin|by apply Forall_drop]).
  assert (length k <= length l)%nat as Hk by (unfold k; rewrite length_take; lia). assert (length k <= length (recv_buf n))%nat as Hk2 by (unfold k; rewrite length_take; lia).
  assert (forall pos w, 0 <= pos -> pos + Z.of_nat w <= 20 -> exists v, load_le (recv_buf n1) pos w = Ok v /\ 0 <= v < 256 ^ Z.of_nat w) as Hload by (intros; apply load_le_ok; [done|done|lia]).
  unfold NLMSG_OK, NLMSG_HDRLEN. destruct (Z.ltb_spec (Z.of_nat (length k)) 16); [cbn [obind negb]; do 3 eexists; split; [reflexivity|]; split; [done|]; split; [done|by left]|].
  destruct (Hload 0 4%nat) as (total & Et & Htot); [lia..|]. rewrite Et. cbn [obind].
  destruct (Z.leb_spec 16 total), (Z.leb_spec total (Z.of_nat (length k))); cbn [andb negb]; try (do 3 eexists; split; [reflexivity|]; split; [done|]; split; [done|by left]).
  destruct (Hload 4 2%nat) as (type & Ety & _); [lia..|]. rewrite Ety. cbn [obind]. destruct (type =? NLMSG_ERROR).
  { destruct (Hload 16 4%nat) as (e & Ee & _); [lia..|]. rewrite Ee. cbn [obind]. do 3 eexists. split; [reflexivity|]. split; [done|]. split; [done|by left]. }
  destruct (byte_at_in (recv_buf n1) 16) as (cmd & Ec); [lia|]. rewrite Ec. cbn [obind]. destruct (Hload 8 4%nat) as (seq & Es & _); [lia..|]. rewrite Es. cbn [obind].
  destruct (Hload 12 4%nat) as (pid & Ep & _); [lia..|]. rewrite Ep. cbn [obind]. unfold GENL_HDRLEN. change (16 + 4) with 20.
  rewrite i32_small by lia. destruct (parse_inside (recv_buf n1) (Z.of_nat (length k)) Hb1 ltac:(lia) QD_NETLINK_MAX_ATTRS 20 (total - 20) []) as (attrs & Ea & Hat & Hn); [lia|lia|cbn [length]; lia|cbn [length]; lia|].
  rewrite Ea. cbn [obind app]. do 3 eexists. split; [reflexivity|]. split; [done|]. split; [done|]. right. exists l. split; [done|]. split; [done|].
  eapply Forall_impl; [exact Hat|]. intros a (p & P1 & P2 & P3 & P4). exists p. split; [done|]. lia.
Qed.

(** C40: Whatever datagram comes in, or none, qd_netlink_recv reads nothing outside its
    buffer, returns, keeps the buffer's size, and either leaves the message alone or fills it
    with at most 32 attributes whose data all lie behind the headers and within the bytes
    that came in. *)
Theorem recv_inside n m timeout input : 20 <= Z.of_nat (length (recv_buf n)) < 2 ^ 31 -> Forall is_byte (recv_buf n) -> (forall l, input = NlData l -> Forall is_byte l) ->
  exists code n' m', qd_netlink_recv n m timeout input = Ok (code, n', m') /\ length (recv_buf n') = length (recv_buf n) /\ Forall is_byte (recv_buf n') /\
    (m' = m \/ exists l, input = NlData l /\ (length (nm_attrs m') <= QD_NETLINK_MAX_ATTRS)%nat /\ Forall (attr_inside 20 (Z.of_nat (length l))) (nm_attrs m')).
Proof. apply recv_run. Qed.

(** ** Messages there and back *)

(** An attribute of the caller, and its bytes on the wire. *)
Definition wire_attr (type : Z) (d : list Z) : list Z :=
  le 2 (4 + Z.of_nat (length d)) ++ le 2 type ++ d ++ zeros (NLA_ALIGN (4 + Z.of_nat (length d)) - (4 + Z.of_nat (length d))).

Definition wire_attrs (l : list (Z * list Z)) : list Z := concat ((fun x => wire_attr x.1 x.2) <$> l).

Definition attr_ok (x : Z * list Z) : Prop := 0 <= x.1 < 65536 /\ Z.of_nat (length x.2) <= 65531 /\ Forall is_byte x.2.

(** The attributes of a message that refer to these bytes. *)
Definition attrs_of (l : list (Z * list Z)) : list qd_nl_attr := (fun x => mkAttr x.1 (Z.of_nat (length x.2)) (PBytes x.2)) <$> l.

Lemma length_wire_attr type d : Z.of_nat (length (wire_attr type d)) = NLA_ALIGN (4 + Z.of_nat (length d)).
Proof. unfold wire_attr, zeros. rewrite !length_app, !length_le, length_replicate. pose proof (align_ge (4 + Z.of_nat (length d))). lia. Qed.

Lemma zeros_add a b : 0 <= a -> 0 <= b -> zeros (a + b) = zeros a ++ zeros b.
Proof. intros. unfold zeros. rewrite Z2Nat.inj_add by lia. apply replicate_add. Qed.

Lemma length_zeros n : 0 <= n -> Z.of_nat (length (zeros n)) = n.
Proof. intros. unfold zeros. rewrite length_replicate. lia. Qed.

Lemma load_le_front v k rest : 0 <= v < 256 ^ Z.of_nat k -> load_le (le k v ++ rest) 0 k = Ok v.
Proof. intros Hv. exact (load_le_app [] v k rest 0 eq_refl Hv). Qed.

Lemma store_front_le (old d rest : list Z) : length old = length d -> store (old ++ rest) 0 d = Ok (d ++ rest).
Proof. intros E. exact (store_app [] old d rest 0 eq_refl E). Qed.

(** One attribute over the zeros behind those before. *)
Lemma nla_put_run (h w g : list Z) k type d : length h = 16%nat -> Z.of_nat (length w) mod 4 = 0 -> Z.of_nat (length (wire_attr type d)) <= k -> 20 + Z.of_nat (length w) + k < 2 ^ 32 ->
  nla_put (le 4 (20 + Z.of_nat (length w)) ++ h ++ w ++ zeros k ++ g) type (Z.of_nat (length d)) d =
    Ok (le 4 (20 + Z.of_nat (length (w ++ wire_attr type d))) ++ h ++ (w ++ wire_attr type d) ++ zeros (k - Z.of_nat (length (wire_attr type d))) ++ g).
Proof.
  intros Hh Hw Hk Hbig. pose proof (length_wire_attr type d) as Hla. pose proof (align_ge (4 + Z.of_nat (length d))) as Hal. set (al := NLA_ALIGN (4 + Z.of_nat (length d))) in *.
  unfold nla_put. rewrite load_le_front by ((change (256 ^ Z.of_nat 4) with (2 ^ 32); lia)). cbn [obind].
  assert (NLA_ALIGN (20 + Z.of_nat (length w)) = 20 + Z.of_nat (length w)) as ->.
  { apply align_id. rewrite Z.add_mod by lia. change (20 mod 4) with 0. rewrite Hw. done. }
  cbv zeta. unfold NLA_HDRLEN. fold al. set (dl := Z.of_nat (length d)) in *.
  replace k with (2 + (2 + (dl + ((al - (4 + dl)) + (k - al))))) at 1 by lia. rewrite !zeros_add by lia. set (pre := le 4 (20 + Z.of_nat (length w)) ++ h ++ w).
  assert (Z.of_nat (length pre) = 20 + Z.of_nat (length w)) as Hpre by (unfold pre; rewrite !length_app, length_le; lia).
  replace (le 4 (20 + Z.of_nat (length w)) ++ h ++ w ++ (zeros 2 ++ zeros 2 ++ zeros dl ++ zeros (al - (4 + dl)) ++ zeros (k - al)) ++ g)
    with ((pre ++ zeros 2) ++ zeros 2 ++ zeros dl ++ zeros (al - (4 + dl)) ++ zeros (k - al) ++ g) by (unfold pre; by rewrite <- !(assoc_L (++))).
  rewrite store_app by (rewrite ?length_app, ?length_le; change (length (zeros 2)) with 2%nat; lia || done). cbn [obind]. rewrite <- (assoc_L (++) pre).
  rewrite (store_app pre) by (rewrite ?length_le; done || lia). cbn [obind].
  replace (pre ++ le 2 (4 + dl) ++ le 2 type ++ zeros dl ++ zeros (al - (4 + dl)) ++ zeros (k - al) ++ g) with ((pre ++ le 2 (4 + dl) ++ le 2 type) ++ zeros dl ++ zeros (al - (4 + dl)) ++ zeros (k - al) ++ g) by (by rewrite <- !(assoc_L (++))).
  rewrite store_app by ((rewrite !length_app, !length_le; lia) || (unfold zeros, dl; rewrite length_replicate; lia)). cbn [obind]. unfold pre. rewrite <- !(assoc_L (++)).
  rewrite store_front_le by (by rewrite !length_le). f_equal. rewrite length_app, Hla.
  replace (20 + Z.of_nat (length w + length (wire_attr type d))) with (20 + Z.of_nat (length w) + al) by lia. unfold wire_attr. fold dl al. by rewrite <- !(assoc_L (++)).
Qed.

Lemma wire_mod type d : Z.of_nat (length (wire_attr type d)) mod 4 = 0.
Proof. rewrite length_wire_attr. apply align_mod. Qed.

Lemma put_attrs_run n h g l : length h = 16%nat -> forall w k, Z.of_nat (length w) mod 4 = 0 -> Z.of_nat (length (wire_attrs l)) <= k -> 20 + Z.of_nat (length w) + k < 2 ^ 32 ->
  put_attrs n (le 4 (20 + Z.of_nat (length w)) ++ h ++ w ++ zeros k ++ g) (attrs_of l) =
    Ok (le 4 (20 + Z.of_nat (length (w ++ wire_attrs l))) ++ h ++ (w ++ wire_attrs l) ++ zeros (k - Z.of_nat (length (wire_attrs l))) ++ g).
Proof.
  intros Hh. induction l as [|[type d] l IH]; intros w k Hw Hk Hb; cbn [attrs_of fmap list_fmap put_attrs].
  - unfold wire_attrs. cbn. by rewrite app_nil_r, Z.sub_0_r.
  - change (wire_attrs ((type, d) :: l)) with (wire_attr type d ++ wire_attrs l) in *. rewrite length_app, Nat2Z.inj_add in Hk. pose proof (wire_mod type d) as Hm. cbn [a_data a_len a_type fst snd read_ptr].
    rewrite load_all. cbn [obind]. rewrite nla_put_run by (done || lia). cbn [obind]. change ((fun x : Z * list Z => mkAttr x.1 (Z.of_nat (length x.2)) (PBytes x.2)) <$> l) with (attrs_of l).
    rewrite IH; [| |lia|].
    + rewrite <- (assoc_L (++)). f_equal. f_equal. f_equal. f_equal. f_equal. f_equal. rewrite length_app. lia.
    + rewrite length_app, Nat2Z.inj_add, Z.add_mod, Hw, Hm by lia. done.
    + rewrite length_app. lia.
Qed.

(** The attributes that the receiver finds from [pos] on. *)
Fixpoint found (pos : Z) (l : list (Z * list Z)) : list qd_nl_attr :=
  match l with
  | [] => []
  | (type, d) :: l => mkAttr type (Z.of_nat (length d)) (PRecv (pos + 4)) :: found (pos + Z.of_nat (length (wire_attr type d))) l
  end.

Lemma parse_run l : Forall attr_ok l -> forall fuel pre rest acc, (length l <= fuel)%nat -> (length acc + length l <= QD_NETLINK_MAX_ATTRS)%nat ->
  parse_attrs fuel (pre ++ wire_attrs l ++ rest) (Z.of_nat (length pre)) (Z.of_nat (length (wire_attrs l))) acc = Ok (acc ++ found (Z.of_nat (length pre)) l).
Proof.
  induction 1 as [|[type d] l (Ht & Hd & Hb) Hl IH]; intros fuel pre rest acc Hf Ha.
  - destruct fuel; cbn; by rewrite app_nil_r.
  - cbn [fst snd] in *. change (wire_attrs ((type, d) :: l)) with (wire_attr type d ++ wire_attrs l). destruct fuel as [|fuel]; [cbn in Hf; lia|]. cbn [length] in *.
    pose proof (length_wire_attr type d) as Hw. pose proof (align_ge (4 + Z.of_nat (length d))) as Hal. rewrite length_app, Nat2Z.inj_add.
    assert (load_le (pre ++ (wire_attr type d ++ wire_attrs l) ++ rest) (Z.of_nat (length pre)) 2 = Ok (4 + Z.of_nat (length d))) as E1.
    { unfold wire_attr. rewrite <- !(assoc_L (++)). apply load_le_app; [done|]. change (256 ^ Z.of_nat 2) with 65536. lia. }
    assert (load_le (pre ++ (wire_attr type d ++ wire_attrs l) ++ rest) (Z.of_nat (length pre) + 2) 2 = Ok type) as E2.
    { unfold wire_attr. rewrite <- !(assoc_L (++)). rewrite (assoc_L (++) pre). apply load_le_app; [rewrite length_app, length_le; lia|]. change (256 ^ Z.of_nat 2) with 65536. lia. }
    cbn [parse_attrs]. unfold NLA_OK, NLA_HDRLEN. destruct (Z.ltb_spec (Z.of_nat (length (wire_attr type d)) + Z.of_nat (length (wire_attrs l))) 4); [lia|]. rewrite E1. cbn [obind].
    destruct (Z.leb_spec 4 (4 + Z.of_nat (length d))); [|lia]. destruct (Z.leb_spec (4 + Z.of_nat (length d)) (Z.of_nat (length (wire_attr type d)) + Z.of_nat (length (wire_attrs l)))); [|lia]. cbn [andb].
    destruct (Nat.ltb_spec (length acc) QD_NETLINK_MAX_ATTRS); [|lia]. rewrite E2. cbn [obind]. rewrite <- Hw.
    replace (u16 (4 + Z.of_nat (length d) - 4)) with (Z.of_nat (length d)) by (unfold u16, u16_mod; rewrite Z.mod_small; lia).
    replace (pre ++ (wire_attr type d ++ wire_attrs l) ++ rest) with ((pre ++ wire_attr type d) ++ wire_attrs l ++ rest) by (by rewrite <- !(assoc_L (++))).
    replace (Z.of_nat (length pre) + Z.of_nat (length (wire_attr type d))) with (Z.of_nat (length (pre ++ wire_attr type d))) by (rewrite length_app; lia).
    replace (Z.of_nat (length (wire_attr type d)) + Z.of_nat (length (wire_attrs l)) - Z.of_nat (length (wire_attr type d))) with (Z.of_nat (length (wire_attrs l))) by lia.
    rewrite IH by (rewrite ?length_app; cbn [length]; lia). rewrite <- (assoc_L (++)). cbn [found app]. by rewrite length_app, Nat2Z.inj_add.
Qed.

(** The receiver's attribute [b] shows the caller's type and bytes. *)
Definition shows (n : qd_netlink) (x : Z * list Z) (b : qd_nl_attr) : Prop := a_type b = x.1 /\ a_len b = Z.of_nat (length x.2) /\ read_ptr n (a_data b) (a_len b) = Ok x.2.

Lemma found_shows n l : forall pre rest, recv_buf n = pre ++ wire_attrs l ++ rest -> Forall2 (shows n) l (found (Z.of_nat (length pre)) l).
Proof.
  induction l as [|[type d] l IH]; intros pre rest E; cbn [found]; constructor.
  - split; [done|]. split; [done|]. cbn. rewrite E. change (wire_attrs ((type, d) :: l)) with (wire_attr type d ++ wire_attrs l). unfold wire_attr.
    rewrite <- !(assoc_L (++)). rewrite (assoc_L (++) (le 2 _) (le 2 type)), (assoc_L (++) pre). apply load_app; [rewrite !length_app, !length_le; lia|done].
  - rewrite <- Nat2Z.inj_add, <- length_app. apply (IH _ rest). rewrite E. change (wire_attrs ((type, d) :: l)) with (wire_attr type d ++ wire_attrs l). by rewrite <- !(assoc_L (++)).
Qed.

(** The header after its length. *)
Definition header_rest (type flags seq pid cmd : Z) : list Z := le 2 type ++ le 2 flags ++ le 4 seq ++ le 4 pid ++ [u8 cmd; QD_NETLINK_VERSION; 0; 0].

Lemma send_run n m l : nm_attrs m = attrs_of l -> family_id n <> 0 -> NL_REQ_SIZE <= Z.of_nat (length (send_buf n)) -> Z.of_nat (length (wire_attrs l)) <= QD_NETLINK_MAX_PAYLOAD ->
  exists n', qd_netlink_send_msg true n m = Ok (QD_OK, n') /\
    nl_out n' = nl_out n ++ [le 4 (20 + Z.of_nat (length (wire_attrs l))) ++ header_rest (family_id n) (Z.lor NLM_F_REQUEST (nm_flags m)) (nl_seq n) (nl_pid n) (nm_cmd m) ++ wire_attrs l].
Proof.
  intros Em Hf Hs Hl. unfold NL_REQ_SIZE, NLMSG_HDRLEN, GENL_HDRLEN, QD_NETLINK_MAX_PAYLOAD in *. change (16 + 4 + 4096) with 4116 in *. unfold qd_netlink_send_msg, send_request, NL_REQ_SIZE, NLMSG_HDRLEN, GENL_HDRLEN, QD_NETLINK_MAX_PAYLOAD.
  change (16 + 4 + 4096) with 4116. change (16 + 4) with 20. destruct (Z.eqb_spec (family_id n) 0); [done|].
  set (g := drop 4116 (send_buf n)). assert (store (send_buf n) 0 (zeros 4116) = Ok (zeros 4116 ++ g)) as ->.
  { rewrite store_ok by (rewrite ?length_zeros; lia). cbn [Z.to_nat take app]. unfold g. do 3 f_equal. }
  cbn [obind]. set (h := header_rest (family_id n) (Z.lor NLM_F_REQUEST (nm_flags m)) (nl_seq n) (nl_pid n) (nm_cmd m)).
  change (nl_header 20 (family_id n) (Z.lor NLM_F_REQUEST (nm_flags m)) (nl_seq n) (nl_pid n) (nm_cmd m) QD_NETLINK_VERSION) with (le 4 20 ++ h). assert (length h = 16%nat) as Hh by (unfold h, header_rest; by rewrite !length_app, !length_le).
  replace (zeros 4116 ++ g) with (zeros 20 ++ zeros 4096 ++ g) by (by rewrite (assoc_L (++)), <- zeros_add by lia). rewrite store_front_le by (rewrite length_app, length_le, Hh; reflexivity). cbn [obind]. rewrite <- (assoc_L (++)).
  change (le 4 20 ++ h ++ zeros 4096 ++ g) with (le 4 (20 + Z.of_nat (length (@nil Z))) ++ h ++ [] ++ zeros 4096 ++ g). rewrite Em, put_attrs_run by (done || (cbn; lia)). cbn [obind app].
  rewrite load_le_front by (change (256 ^ Z.of_nat 4) with (2 ^ 32); lia). cbn [obind]. rewrite load_ok by (rewrite ?length_app, ?length_le; lia). rewrite drop_0. cbn [obind]. eexists. split; [reflexivity|]. cbn [nl_out nl_count nl_put_out set_send_buf next_seq]. do 2 f_equal.
  rewrite !(assoc_L (++)). rewrite <- (assoc_L (++)). rewrite take_app_le by (rewrite !length_app, length_le; lia). rewrite take_ge by (rewrite !length_app, length_le; lia). by rewrite <- !(assoc_L (++)).
Qed.

(** C39: There and back.  A message of at most 32 attributes with the caller's bytes, at most
    4096 on the wire, is handed to the socket complete; a receiver that gets these bytes into
    a buffer that they fit into finds the command, the sequence number and the port of the
    sender and, in order, attributes with the types, lengths and bytes of the caller's. *)
Theorem netlink_roundtrip n m l n2 m2 timeout : nm_attrs m = attrs_of l -> Forall attr_ok l -> (length l <= QD_NETLINK_MAX_ATTRS)%nat ->
  Z.of_nat (length (wire_attrs l)) <= QD_NETLINK_MAX_PAYLOAD -> NL_REQ_SIZE <= Z.of_nat (length (send_buf n)) ->
  0 < family_id n < 65536 -> family_id n <> NLMSG_ERROR -> is_u32 (nl_seq n) -> is_u32 (nl_pid n) -> is_u8 (nm_cmd m) ->
  20 + Z.of_nat (length (wire_attrs l)) <= Z.of_nat (length (recv_buf n2)) ->
  exists n' bytes, qd_netlink_send_msg true n m = Ok (QD_OK, n') /\ nl_out n' = nl_out n ++ [bytes] /\
    exists n2' m', qd_netlink_recv n2 m2 timeout (NlData bytes) = Ok (QD_OK, n2', m') /\
      nm_cmd m' = nm_cmd m /\ nm_seq m' = nl_seq n /\ nm_pid m' = nl_pid n /\ Forall2 (shows n2') l (nm_attrs m').
Proof.
  intros Em Hok Hn Hl Hs Hf Hfe Hseq Hpid Hcmd Hr. unfold is_u32, u32_mod, is_u8, u8_mod in *. unfold QD_NETLINK_MAX_PAYLOAD in *. destruct (send_run n m l Em) as (n' & E & Eo); [lia|done|done|]. exists n'. eexists. split; [exact E|]. split; [exact Eo|].
  set (bytes := le 4 _ ++ _). assert (length bytes = 20 + length (wire_attrs l))%nat as Hb by (unfold bytes, header_rest; rewrite !length_app, !length_le; cbn; lia).
  unfold qd_netlink_recv. destruct (recv_bytes_ok n2 bytes) as (n3 & E3 & Eb & _). rewrite take_ge in E3, Eb by lia. rewrite E3. cbn [obind]. set (g := drop (length bytes) (recv_buf n2)) in *.
  set (fl := Z.lor NLM_F_REQUEST (nm_flags m)) in *. set (total := 20 + Z.of_nat (length (wire_attrs l))) in *.
  assert (recv_buf n3 = le 4 total ++ le 2 (family_id n) ++ le 2 fl ++ le 4 (nl_seq n) ++ le 4 (nl_pid n) ++ [u8 (nm_cmd m); 1; 0; 0] ++ wire_attrs l ++ g) as Ebuf by (rewrite Eb; unfold bytes, header_rest; by rewrite <- !(assoc_L (++))).
  assert (load_le (recv_buf n3) 0 4 = Ok total) as E0 by (rewrite Ebuf; apply load_le_front; change (256 ^ Z.of_nat 4) with (2 ^ 32); lia).
  assert (load_le (recv_buf n3) 4 2 = Ok (family_id n)) as E4 by (rewrite Ebuf; apply (load_le_app (le 4 total)); [by rewrite length_le|change (256 ^ Z.of_nat 2) with 65536; lia]).
  set (tl := [u8 (nm_cmd m); 1; 0; 0] ++ wire_attrs l ++ g) in *.
  assert (load_le (recv_buf n3) 8 4 = Ok (nl_seq n)) as E8.
  { rewrite Ebuf. apply (load_le_app (le 4 total ++ le 2 (family_id n) ++ le 2 fl) (nl_seq n) 4 (le 4 (nl_pid n) ++ tl) 8); [done|change (256 ^ Z.of_nat 4) with (2 ^ 32); lia]. }
  assert (load_le (recv_buf n3) 12 4 = Ok (nl_pid n)) as E12.
  { rewrite Ebuf. apply (load_le_app (le 4 total ++ le 2 (family_id n) ++ le 2 fl ++ le 4 (nl_seq n)) (nl_pid n) 4 tl 12); [done|change (256 ^ Z.of_nat 4) with (2 ^ 32); lia]. }
  assert (byte_at (recv_buf n3) 16 = Ok (nm_cmd m)) as E16.
  { rewrite Ebuf. rewrite (byte_at_ok _ _ (u8 (nm_cmd m))) by done. f_equal. unfold u8, u8_mod. apply Z.mod_small. lia. }
  unfold NLMSG_OK, NLMSG_HDRLEN, GENL_HDRLEN. change (16 + 4) with 20. destruct (Z.ltb_spec (Z.of_nat (length bytes)) 16); [lia|]. rewrite E0. cbn [obind]. destruct (Z.leb_spec 16 total); [|lia]. destruct (Z.leb_spec total (Z.of_nat (length bytes))); [|lia]. cbn [andb negb].
  rewrite E4. cbn [obind]. destruct (Z.eqb_spec (family_id n) NLMSG_ERROR); [done|]. rewrite E16, E8, E12. cbn [obind]. rewrite i32_small by lia.
  set (pre := le 4 total ++ header_rest (family_id n) fl (nl_seq n) (nl_pid n) (nm_cmd m)). assert (recv_buf n3 = pre ++ wire_attrs l ++ g) as Epre by (rewrite Eb; unfold bytes, pre; by rewrite <- !(assoc_L (++))).
  assert (Z.of_nat (length pre) = 20) as Hpre by (unfold pre, header_rest; by rewrite !length_app, !length_le). replace (total - 20) with (Z.of_nat (length (wire_attrs l))) by lia.
  rewrite <- Hpre, Epre, parse_run by (done || cbn; lia). cbn [obind app]. do 2 eexists. split; [reflexivity|]. split; [done|]. split; [done|]. split; [done|]. by apply (found_shows _ l pre g).
Qed.

(** ** Examples *)

(** A connection with the family 27 and buffers of these sizes. *)
Definition demo_nl (recv send : Z) : qd_netlink := set_family 27 (qd_netlink_new [81; 68] (zeros recv) (zeros send) 77).

Definition demo_attrs : list (Z * list Z) := [(QD_NL_ATTR_NAME, [100; 0]); (QD_NL_ATTR_DATA, [1; 2; 3; 4; 5])].
Definition demo_msg : qd_netlink_msg := mkNlMsg QD_NL_CMD_REGISTER 0 0 0 (attrs_of demo_attrs).

Lemma netlink_roundtrip_witness : exists n' bytes n2' m', qd_netlink_send_msg true (demo_nl 64 4116) demo_msg = Ok (QD_OK, n') /\ nl_out n' = [bytes] /\
  qd_netlink_recv (demo_nl 64 4116) qd_netlink_msg_clear 0 (NlData bytes) = Ok (QD_OK, n2', m') /\ nm_cmd m' = QD_NL_CMD_REGISTER /\ Forall2 (shows n2') demo_attrs (nm_attrs m').
Proof.
  destruct (netlink_roundtrip (demo_nl 64 4116) demo_msg demo_attrs (demo_nl 64 4116) qd_netlink_msg_clear 0) as (n' & bytes & E1 & E2 & n2' & m' & E3 & E4 & _ & _ & E5).
  - reflexivity.
  - apply Forall_cons. split; [split; [vm_compute; split; [discriminate|reflexivity]|]; split; [vm_compute; discriminate|apply (bool_decide_unpack (Forall is_byte [100; 0])); vm_compute; exact I]|].
    apply Forall_cons. split; [split; [vm_compute; split; [discriminate|reflexivity]|]; split; [vm_compute; discriminate|apply (bool_decide_unpack (Forall is_byte [1; 2; 3; 4; 5])); vm_compute; exact I]|by apply Forall_nil].
  - vm_compute. lia.
  - vm_compute. discriminate.
  - vm_compute. discriminate.
  - vm_compute. split; reflexivity.
  - vm_compute. discriminate.
  - vm_compute. split; [discriminate|reflexivity].
  - vm_compute. split; [discriminate|reflexivity].
  - vm_compute. split; [discriminate|reflexivity].
  - vm_compute. discriminate.
  - exists n', bytes, n2', m'. split; [exact E1|]. split; [exact E2|]. split; [exact E3|]. split; [exact E4|exact E5].
Defined.

Lemma recv_inside_witness : exists code n' m', qd_netlink_recv (demo_nl 32 32) qd_netlink_msg_clear 0 (NlData (le 4 28 ++ zeros 16 ++ le 2 200 ++ zeros 6)) = Ok (code, n', m') /\ length (recv_buf n') = 32%nat.
Proof.
  destruct (recv_inside (demo_nl 32 32) qd_netlink_msg_clear 0 (NlData (le 4 28 ++ zeros 16 ++ le 2 200 ++ zeros 6))) as (code & n' & m' & E & El & _).
  - vm_compute. split; [discriminate|reflexivity].
  - by apply Forall_replicate.
  - intros l [= <-]. apply (bool_decide_unpack (Forall is_byte _)). vm_compute. exact I.
  - exists code, n', m'. split; [exact E|exact El].
Defined.

(** qd_netlink_msg_add_u32 keeps the address of its parameter: registering reads it after
    it is gone. *)
Lemma register_reads_dead junk : qd_netlink_register true (demo_nl 64 4116) junk [100] 77 NlAgain = Undef.
Proof. vm_compute. reflexivity. Qed.

Definition family_reply (l : list (Z * list Z)) : list Z := le 4 (20 + Z.of_nat (length (wire_attrs l))) ++ header_rest GENL_ID_CTRL 0 1 77 1 ++ wire_attrs l.

(** An attribute before the family that is followed by a longer one: the reply is taken to
    be at its end, and the family is not found. *)
Lemma family_missed : exists n', qd_netlink_resolve_family true (demo_nl 128 64) (Some (family_reply [(9, [1; 0; 0; 0]); (8, zeros 40); (CTRL_ATTR_FAMILY_ID, [27; 0])])) = Ok (QD_ERR_NOENT, n').
Proof. eexists. vm_compute. reflexivity. Qed.

(** One followed by a shorter one: the scan goes on behind the reply. *)
Lemma family_overread : qd_netlink_resolve_family true (demo_nl 40 64) (Some (family_reply [(9, zeros 12); (8, [])])) = Undef.
Proof. vm_compute. reflexivity. Qed.

(** The send buffer is cleared as if it had 4116 bytes, whatever its configured size, and
    data is copied without a look at the room. *)
Lemma small_send_buffer : qd_netlink_send true (demo_nl 64 1024) QD_NL_CMD_ECHO None 0 = Undef.
Proof. vm_compute. reflexivity. Qed.
Lemma large_data_overflow : qd_netlink_send true (demo_nl 64 4116) QD_NL_CMD_ECHO (Some (zeros 4100)) 4100 = Undef.
Proof. vm_compute. reflexivity. Qed.

(** A reply without a zero at its end: the string runs on into the next attribute. *)
Lemma reply_runs_on junk : exists n', qd_netlink_echo true (demo_nl 64 4116) junk [104; 105] (Some 16)
  (NlData (le 4 36 ++ header_rest 27 0 1 77 1 ++ wire_attrs [(QD_NL_ATTR_MSG, [65; 66; 67; 68]); (QD_NL_ATTR_DATA, [9; 9; 9; 9])])) = Ok (QD_OK, n', Some (strncpy [65; 66; 67; 68; 8] 15 ++ [0])).
Proof. eexists. vm_compute. reflexivity. Qed.

(** An acknowledgement: the kernel accepts a request and has nothing to say. *)
Definition ack : list Z := le 4 36 ++ le 2 NLMSG_ERROR ++ zeros 14 ++ zeros 16.

(** It counts as success and leaves the response as it was on the stack, from which the
    reply is then taken. *)
Lemma ack_reads_stack junk : exists n', qd_netlink_request true (demo_nl 64 4116) (qd_netlink_msg_init QD_NL_CMD_GET_INFO) junk 5000 (NlData ack) = Ok (QD_OK, n', junk).
Proof. eexists. vm_compute. reflexivity. Qed.
