(* ===== verification/Workqueue.v ===== *)
(** * src/core/qd_workqueue.c: work on the thread pool, completions on the event loop

    A work item goes from the thread that submits it, at once or through a timer of the
    loop, to the pool, whose worker runs its function and sends a message through a bounded
    channel to the loop, which calls the completion callback.  Threads are machines; a step
    is one access to shared data or one call of the pool, the channel, the timers or the
    allocator.  These are used by what they promise: the pool runs each task it accepts
    once, in any order ([ThreadPool]); the channel is a bounded queue whose receiver gets
    some prefix of it ([Channel]); the allocator never hands out an address in use
    ([Slab]).  What they answer, and the results of the work functions, are arguments of
    the steps. *)

From S2P Require Import Prelude Common.

Definition QD_WORK_OK : Z := 0.
Definition QD_WORK_CANCELLED : Z := -1.
Definition QD_WORK_ERROR : Z := -3.
Definition QD_WQ_BATCH : nat := 128.
Definition WQ_CHANNEL_CAPACITY : nat := 4096.

(** ** Data *)

(** Where the item is on its way; not in the code.  [Ran e]: the function returned, with
    errno [e], and the status is not stored yet. *)
Inductive stage := Waiting | Ran (e : Z) | Settled.

#[export] Instance stage_dec : EqDecision stage.
Proof. solve_decision. Defined.

(** Functions and pointers are numbers, 0 is NULL. *)
Record qd_work_item := mkItem { work_fn : Z; work_arg : Z; result : Z; status : Z; user_data : Z; delay_ms : Z; it_stage : stage }.

Definition with_status (x : Z) (i : qd_work_item) : qd_work_item := mkItem (work_fn i) (work_arg i) (result i) x (user_data i) (delay_ms i) (it_stage i).
Definition with_result (x : Z) (i : qd_work_item) : qd_work_item := mkItem (work_fn i) (work_arg i) x (status i) (user_data i) (delay_ms i) (it_stage i).
Definition at_stage (x : stage) (i : qd_work_item) : qd_work_item := mkItem (work_fn i) (work_arg i) (result i) (status i) (user_data i) (delay_ms i) x.

Record qd_workqueue := mkWq { on_complete : bool; complete_arg : Z; pending : Z; inflight : Z; draining : bool }.

(** What became of an item that was freed; not in the code.  [Refused]: the submission
    returned the code; [Dropped]: the pool refused it when its timer came. *)
Inductive fate := Completed | Ignored | Cancelled | Drained | Refused (code : Z) | Unallocated | Dropped.

#[export] Instance fate_dec : EqDecision fate.
Proof. solve_decision. Defined.

(** What the threads share.  [pool]: accepted tasks that no worker took yet; [timers]: items
    with their timeout; [calls]: the calls of the completion callback, as item, result,
    status and user data.  [filled] and the last five fields are logs: the items as they were
    filled in, by their address; the runs of work functions with
    result and errno, cancellations, items whose message did not fit into the channel,
    items that the loop skipped as delayed, and freed items. *)
Record system := mkSys {
  wq : qd_workqueue; items : gmap nat qd_work_item; filled : list qd_work_item;
  pool : list nat; timers : list (nat * Z); chan : list (nat * Z); calls : list (nat * Z * Z * Z);
  runs : list (nat * (Z * Z)); cancels : list nat; lost : list nat; parked : list nat; gone : list (nat * fate)
}.

Definition set_wq (q : qd_workqueue) (s : system) : system := mkSys q (items s) (filled s) (pool s) (timers s) (chan s) (calls s) (runs s) (cancels s) (lost s) (parked s) (gone s).
Definition set_items (m : gmap nat qd_work_item) (s : system) : system := mkSys (wq s) m (filled s) (pool s) (timers s) (chan s) (calls s) (runs s) (cancels s) (lost s) (parked s) (gone s).
Definition set_pool (l : list nat) (s : system) : system := mkSys (wq s) (items s) (filled s) l (timers s) (chan s) (calls s) (runs s) (cancels s) (lost s) (parked s) (gone s).
Definition set_timers (l : list (nat * Z)) (s : system) : system := mkSys (wq s) (items s) (filled s) (pool s) l (chan s) (calls s) (runs s) (cancels s) (lost s) (parked s) (gone s).
Definition set_chan (l : list (nat * Z)) (s : system) : system := mkSys (wq s) (items s) (filled s) (pool s) (timers s) l (calls s) (runs s) (cancels s) (lost s) (parked s) (gone s).
Definition set_calls (l : list (nat * Z * Z * Z)) (s : system) : system := mkSys (wq s) (items s) (filled s) (pool s) (timers s) (chan s) l (runs s) (cancels s) (lost s) (parked s) (gone s).
Definition set_runs (l : list (nat * (Z * Z))) (s : system) : system := mkSys (wq s) (items s) (filled s) (pool s) (timers s) (chan s) (calls s) l (cancels s) (lost s) (parked s) (gone s).
Definition set_cancels (l : list nat) (s : system) : system := mkSys (wq s) (items s) (filled s) (pool s) (timers s) (chan s) (calls s) (runs s) l (lost s) (parked s) (gone s).
Definition set_lost (l : list nat) (s : system) : system := mkSys (wq s) (items s) (filled s) (pool s) (timers s) (chan s) (calls s) (runs s) (cancels s) l (parked s) (gone s).
Definition set_parked (l : list nat) (s : system) : system := mkSys (wq s) (items s) (filled s) (pool s) (timers s) (chan s) (calls s) (runs s) (cancels s) (lost s) l (gone s).
Definition set_gone (l : list (nat * fate)) (s : system) : system := mkSys (wq s) (items s) (filled s) (pool s) (timers s) (chan s) (calls s) (runs s) (cancels s) (lost s) (parked s) l.

Definition add_pending (n : Z) (s : system) : system :=
  set_wq (mkWq (on_complete (wq s)) (complete_arg (wq s)) (i32 (pending (wq s) + n)) (inflight (wq s)) (draining (wq s))) s.
Definition add_inflight (n : Z) (s : system) : system :=
  set_wq (mkWq (on_complete (wq s)) (complete_arg (wq s)) (pending (wq s)) (i32 (inflight (wq s) + n)) (draining (wq s))) s.
Definition set_draining (s : system) : system :=
  set_wq (mkWq (on_complete (wq s)) (complete_arg (wq s)) (pending (wq s)) (inflight (wq s)) true) s.

(** An access to an item is undefined once the item was freed. *)
Definition read_item (id : nat) (s : system) : outcome qd_work_item := of_option (items s !! id).
Definition write_item (id : nat) (f : qd_work_item -> qd_work_item) (s : system) : outcome system :=
  let! i := read_item id s in Ok (set_items (<[id := f i]> (items s)) s).

(** Addresses are counted up, so an address is never used again. *)
Definition work_item_alloc (i : qd_work_item) (s : system) : nat * system :=
  let id := length (filled s) in
  (id, mkSys (wq s) (<[id := i]> (items s)) (filled s ++ [i]) (pool s) (timers s) (chan s) (calls s) (runs s) (cancels s) (lost s) (parked s) (gone s)).
Definition work_item_free (id : nat) (f : fate) (s : system) : outcome system :=
  let! _ := read_item id s in Ok (set_gone (gone s ++ [(id, f)]) (set_items (delete id (items s)) s)).

(** ** Submission *)

(** How an item starts: in the pool, by a timer, in the pool with a handle, or in the pool
    with others of a batch. *)
Inductive kind := KSubmit | KTimer | KHandle | KBatch.

(** [CAlloc k done todo]: the items of [todo] are to be allocated and filled in, those of
    [done] are; [CCall k ids n code]: [ids] are to be handed over, [n] were, the last answer
    was [code]. *)
Inductive client_pc :=
  | CAlloc (k : kind) (done : list nat) (todo : list (Z * Z * Z * Z))
  | CHandle (id : nat)
  | CAbort (k : kind) (ids : list nat)
  | CPending (k : kind) (ids : list nat)
  | CInflight (k : kind) (ids : list nat)
  | CCall (k : kind) (ids : list nat) (n code : Z)
  | CUndoPending (k : kind) (id : nat) (ids : list nat) (n code : Z)
  | CUndoInflight (k : kind) (id : nat) (ids : list nat) (n code : Z)
  | CUndoFree (k : kind) (id : nat) (ids : list nat) (n code : Z)
  | CCancel (id : nat)
  | CReturn (x : Z).

(** Function, argument, user data and delay. *)
Definition new_item (x : Z * Z * Z * Z) : qd_work_item := let '(fn, arg, ud, delay) := x in mkItem fn arg 0 QD_WORK_OK ud delay Waiting.

Definition qd_workqueue_submit (q : qd_workqueue) (work arg : Z) : client_pc := CAlloc KSubmit [] [(work, arg, complete_arg q, 0)].

Definition qd_workqueue_submit_batch (q : qd_workqueue) (l : list (Z * Z)) : client_pc :=
  if Z.of_nat (length l) <=? 0 then CReturn QD_ERR_INVAL else CAlloc KBatch [] ((fun '(work, arg) => (work, arg, complete_arg q, 0)) <$> l).

Definition qd_workqueue_submit_delayed (q : qd_workqueue) (work arg delay : Z) : client_pc := CAlloc KTimer [] [(work, arg, complete_arg q, delay)].

Definition qd_workqueue_submit_work (q : qd_workqueue) (work arg delay ud : Z) : client_pc :=
  CAlloc (if 0 <? delay then KTimer else KSubmit) [] [(work, arg, if negb (ud =? 0) then ud else complete_arg q, delay)].

Definition qd_workqueue_submit_cancellable (q : qd_workqueue) (work arg : Z) : client_pc := CAlloc KHandle [] [(work, arg, complete_arg q, 0)].

(** [h]: the item of the handle. *)
Definition qd_workqueue_cancel (h : option nat) : client_pc := match h with Some id => CCancel id | None => CReturn QD_ERR_INVAL end.

Definition qd_workqueue_pending (q : qd_workqueue) : Z := pending q.

(** The task or the timer that the item becomes. *)
Definition hand_over (k : kind) (id : nat) (s : system) : outcome system :=
  match k with
  | KTimer => let! i := read_item id s in Ok (set_timers (timers s ++ [(id, i32 (delay_ms i))]) s)
  | _ => Ok (set_pool (pool s ++ [id]) s)
  end.

(** One step; [answer] is what the allocator (0 for NULL), the pool or the loop answers to
    the call of the step. *)
Definition wq_client_step (answer : Z) (pc : client_pc) (s : system) : outcome (client_pc * system) :=
  match pc with
  | CAlloc k done [] => Ok (match k, done with KHandle, [id] => CHandle id | _, _ => CPending k done end, s)
  | CAlloc k done (i :: todo) =>
    if answer =? 0 then Ok (CAbort k done, s) else
    let '(id, s) := work_item_alloc (new_item i) s in Ok (CAlloc k (done ++ [id]) todo, s)
  | CHandle id => Ok (if answer =? 0 then CAbort KHandle [id] else CPending KHandle [id], s)
  | CAbort k [] => Ok (CReturn (match k with KHandle => 0 | _ => QD_ERR_NOMEM end), s)
  | CAbort k (id :: ids) => let! s := work_item_free id Unallocated s in Ok (CAbort k ids, s)
  | CPending k ids => Ok (CInflight k ids, add_pending (Z.of_nat (length ids)) s)
  | CInflight k ids => Ok (CCall k ids 0 QD_OK, add_inflight (Z.of_nat (length ids)) s)
  | CCall k [] n code => Ok (CReturn (match k with KBatch => n | KHandle => if code =? QD_OK then 1 else 0 | _ => code end), s)
  | CCall k (id :: ids) n code =>
    if answer =? QD_OK then let! s := hand_over k id s in Ok (CCall k ids (n + 1) QD_OK, s)
    else Ok (CUndoPending k id ids n answer, s)
  | CUndoPending k id ids n code => Ok (CUndoInflight k id ids n code, add_pending (-1) s)
  | CUndoInflight k id ids n code => Ok (CUndoFree k id ids n code, add_inflight (-1) s)
  | CUndoFree k id ids n code => let! s := work_item_free id (Refused code) s in Ok (CCall k ids n code, s)
  | CCancel id => let! s := write_item id (with_status QD_WORK_CANCELLED) s in Ok (CReturn QD_OK, set_cancels (id :: cancels s) s)
  | CReturn x => Ok (CReturn x, s)
  end.

(** ** Workers *)

Inductive wq_worker_pc :=
  | WIdle
  | WExecute (id : nat)
  | WStatus (id : nat) (e : Z)
  | WComplete (id : nat)
  | WDrain (id : nat)
  | WFree (id : nat)
  | WLoad (id : nat)
  | WSend (id : nat) (st : Z)
  | WInflight.

Definition work_status (r e : Z) : Z := if (r =? 0) && negb (e =? 0) then QD_WORK_ERROR else QD_WORK_OK.

(** The start of work_item_execute, with the call of the function, which returns [r] and
    leaves [e] in errno. *)
Definition work_item_execute (r e : Z) (id : nat) (s : system) : outcome (wq_worker_pc * system) :=
  let! i := read_item id s in
  if (work_fn i =? 0) || (status i =? QD_WORK_CANCELLED) then
    let! s := write_item id (at_stage Settled) s in Ok (WComplete id, s)
  else
    let! s := write_item id (fun i => at_stage (Ran e) (with_result r i)) s in Ok (WStatus id e, set_runs (runs s ++ [(id, (r, e))]) s).

Definition store_status (id : nat) (e : Z) (s : system) : outcome (wq_worker_pc * system) :=
  let! s := write_item id (fun i => at_stage Settled (with_status (work_status (result i) e) i)) s in Ok (WComplete id, s).

(** qd_channel_try_send, whose answer is not looked at. *)
Definition send_result (id : nat) (st : Z) (s : system) : system :=
  if (length (chan s) <? WQ_CHANNEL_CAPACITY)%nat then set_chan (chan s ++ [(id, st)]) s else set_lost (id :: lost s) s.

(** [j]: which of the waiting tasks the pool gives to the worker. *)
Definition wq_worker_step (j : nat) (r e : Z) (pc : wq_worker_pc) (s : system) : outcome (wq_worker_pc * system) :=
  match pc with
  | WIdle => match pool s !! j with Some id => Ok (WExecute id, set_pool (delete j (pool s)) s) | None => Ok (WIdle, s) end
  | WExecute id => work_item_execute r e id s
  | WStatus id e => store_status id e s
  | WComplete id => Ok (if draining (wq s) then WDrain id else WLoad id, s)
  | WDrain id => Ok (WFree id, add_inflight (-1) s)
  | WFree id => let! s := work_item_free id Drained s in Ok (WIdle, s)
  | WLoad id => let! i := read_item id s in Ok (WSend id (status i), s)
  | WSend id st => Ok (WInflight, send_result id st s)
  | WInflight => Ok (WIdle, add_inflight (-1) s)
  end.

(** ** The loop *)

(** [back]: where drain_channel_completions returns to. *)
Inductive caller := Process | Destroy.
Inductive loop_pc :=
  | LIdle
  | LReceive (back : caller)
  | LItems (l : list (nat * Z)) (back : caller)
  | LFree (id : nat) (f : fate) (l : list (nat * Z)) (back : caller)
  | LPending (l : list (nat * Z)) (back : caller)
  | LAck (back : caller)
  | LSize (back : caller)
  | LTimeout (id : nat)
  | LUndoPending (id : nat)
  | LUndoInflight (id : nat)
  | LUndoFree (id : nat)
  | LUnwatched
  | LWait
  | LGone.

Inductive event := EChannel | ETimer (j : nat) | EDestroy.

(** One message of a batch: the checks and the callback. *)
Definition complete_item (id : nat) (l : list (nat * Z)) (back : caller) (s : system) : outcome (loop_pc * system) :=
  let! i := read_item id s in
  if 0 <? delay_ms i then Ok (LItems l back, set_parked (id :: parked s) s) else
  if status i =? QD_WORK_CANCELLED then Ok (LFree id Cancelled l back, s) else
  if on_complete (wq s) then Ok (LFree id Completed l back, set_calls (calls s ++ [(id, result i, status i, user_data i)]) s)
  else Ok (LFree id Ignored l back, s).

(** [ev]: what the loop waits up for; [n]: how many messages the channel gives; [answer]:
    the pool's.  Of qd_workqueue_process, qd_workqueue_handle_completion,
    drain_channel_completions and qd_workqueue_destroy. *)
Definition wq_loop_step (ev : event) (n : nat) (answer : Z) (pc : loop_pc) (s : system) : outcome (loop_pc * system) :=
  match pc with
  | LIdle =>
    match ev with
    | EChannel => Ok (LReceive Process, s)
    | ETimer j => match timers s !! j with Some (id, _) => Ok (LTimeout id, set_timers (delete j (timers s)) s) | None => Ok (LIdle, s) end
    | EDestroy => Ok (LUnwatched, s)
    end
  | LReceive back =>
    let l := take (Nat.min n QD_WQ_BATCH) (chan s) in
    Ok (match l with [] => LAck back | _ => LItems l back end, set_chan (drop (length l) (chan s)) s)
  | LItems [] back => Ok (LReceive back, s)
  | LItems ((id, _) :: l) back => complete_item id l back s
  | LFree id f l back => let! s := work_item_free id f s in Ok (LPending l back, s)
  | LPending l back => Ok (LItems l back, add_pending (-1) s)
  | LAck back => Ok (LSize back, s)
  | LSize back => Ok (match chan s with [] => match back with Process => LIdle | Destroy => LGone end | _ => LReceive back end, s)
  | LTimeout id => if answer =? QD_OK then Ok (LIdle, set_pool (pool s ++ [id]) s) else Ok (LUndoPending id, s)
  | LUndoPending id => Ok (LUndoInflight id, add_pending (-1) s)
  | LUndoInflight id => Ok (LUndoFree id, add_inflight (-1) s)
  | LUndoFree id => let! s := work_item_free id Dropped s in Ok (LIdle, s)
  | LUnwatched => Ok (LWait, set_draining s)
  | LWait => Ok (if 0 <? inflight (wq s) then LWait else LReceive Destroy, s)
  | LGone => Ok (LGone, s)
  end.

(** ** Runs *)

Inductive call :=
  | Submit (work arg : Z) | SubmitBatch (l : list (Z * Z)) | SubmitDelayed (work arg delay : Z) | SubmitWork (work arg delay ud : Z)
  | SubmitCancellable (work arg : Z) | Cancel (h : option nat).

Definition start_call (c : call) (q : qd_workqueue) : client_pc :=
  match c with
  | Submit work arg => qd_workqueue_submit q work arg
  | SubmitBatch l => qd_workqueue_submit_batch q l
  | SubmitDelayed work arg delay => qd_workqueue_submit_delayed q work arg delay
  | SubmitWork work arg delay ud => qd_workqueue_submit_work q work arg delay ud
  | SubmitCancellable work arg => qd_workqueue_submit_cancellable q work arg
  | Cancel h => qd_workqueue_cancel h
  end.

Record threads := mkThreads { sys : system; clients : list client_pc; workers : list wq_worker_pc; loop : loop_pc }.

(** A call is made by a client that has returned from its last; the loop is told to destroy
    the queue only when all have, and none calls after that. *)
Inductive action := ACall (c : nat) (x : call) | AClient (c : nat) (answer : Z) | AWorker (w j : nat) (r e : Z) | ALoop (ev : event) (n : nat) (answer : Z).

Definition returned (pc : client_pc) : bool := match pc with CReturn _ => true | _ => false end.
Definition in_use (pc : loop_pc) (q : qd_workqueue) : bool := match pc with LUnwatched => false | _ => negb (draining q) end.

Definition wq_step (a : action) (t : threads) : outcome threads :=
  let s := sys t in
  match a with
  | ACall c x =>
    match clients t !! c with
    | Some (CReturn _) => Ok (if in_use (loop t) (wq s) then mkThreads s (<[c := start_call x (wq s)]> (clients t)) (workers t) (loop t) else t)
    | _ => Ok t
    end
  | AClient c answer =>
    match clients t !! c with
    | Some pc => let! (pc, s) := wq_client_step answer pc s in Ok (mkThreads s (<[c := pc]> (clients t)) (workers t) (loop t))
    | None => Ok t
    end
  | AWorker w j r e =>
    match workers t !! w with
    | Some pc => let! (pc, s) := wq_worker_step j r e pc s in Ok (mkThreads s (clients t) (<[w := pc]> (workers t)) (loop t))
    | None => Ok t
    end
  | ALoop ev n answer =>
    match ev with
    | EDestroy => if negb (forallb returned (clients t)) then Ok t else let! (pc, s) := wq_loop_step ev n answer (loop t) s in Ok (mkThreads s (clients t) (workers t) pc)
    | _ => let! (pc, s) := wq_loop_step ev n answer (loop t) s in Ok (mkThreads s (clients t) (workers t) pc)
    end
  end.

Fixpoint wq_run (acts : list action) (t : threads) : outcome threads :=
  match acts with
  | [] => Ok t
  | a :: acts => let! t := wq_step a t in wq_run acts t
  end.

(** qd_workqueue_create, with [c] threads that use it and [w] workers. *)
Definition qd_workqueue_create (cb : bool) (arg : Z) (c w : nat) : threads :=
  mkThreads (mkSys (mkWq cb arg 0 0 false) ∅ [] [] [] [] [] [] [] [] [] []) (replicate c (CReturn 0)) (replicate w WIdle) LIdle.
