(* ===== verification/WorkqueueSafe.v ===== *)
(** * No work is lost or done twice

    The invariant of [Workqueue] under every interleaving.  Every live item has exactly one
    place: with the client that submits it, in the pool, in a timer, with a worker, in the
    channel, with the loop, or in the logs of items that were lost or skipped; the counters
    pending and inflight are the numbers of the places that they stand for; the items and the
    logs agree.  Places are counted, so that a step is checked by arithmetic. *)

From S2P Require Import Prelude Common Workqueue.

(** ** Counting *)

Definition one (P : Prop) `{Decision P} : nat := if decide P then 1 else 0.

Lemma one_true (P : Prop) `{Decision P} : P -> one P = 1%nat.
Proof. intros. unfold one. by rewrite decide_True. Qed.
Lemma one_false (P : Prop) `{Decision P} : ~ P -> one P = 0%nat.
Proof. intros. unfold one. by rewrite decide_False. Qed.
Lemma one_case (P : Prop) `{Decision P} : one P = 1%nat /\ P \/ one P = 0%nat /\ ~ P.
Proof. unfold one. destruct (decide P); [by left|by right]. Qed.

Ltac one_known P := match goal with _ : one P = _ |- _ => idtac end.
Ltac one_cases :=
  repeat match goal with
  | |- context [one ?P] => tryif one_known P then fail else destruct (one_case P) as [[? ?]|[? ?]]
  | H : context [one ?P] |- _ => tryif one_known P then fail else destruct (one_case P) as [[? ?]|[? ?]]
  end.
Ltac by_ones := one_cases; try lia; exfalso; repeat match goal with H : context [one _] |- _ => clear H end; naive_solver congruence.

Section count.
Context {A : Type} `{!EqDecision A}.

Fixpoint cnt (x : A) (l : list A) : nat := match l with [] => 0 | y :: l => one (x = y) + cnt x l end.

Lemma cnt_app x l k : cnt x (l ++ k) = (cnt x l + cnt x k)%nat.
Proof. induction l as [|y l IH]; [done|]. simpl. lia. Qed.

Lemma cnt_elem x l : x ∈ l <-> (0 < cnt x l)%nat.
Proof.
  induction l as [|y l IH]; simpl; [split; [by intros ?%not_elem_of_nil|lia]|]. rewrite elem_of_cons, IH. destruct (one_case (x = y)) as [[-> ?]|[-> ?]]; [split; [lia|by left]|]. split; [intros [|]; [done|lia]|right; lia].
Qed.

Lemma cnt_nodup l : (forall x, (cnt x l <= 1)%nat) -> NoDup l.
Proof.
  induction l as [|y l IH]; intros H; constructor.
  - intros Hy%cnt_elem. specialize (H y). simpl in H. rewrite one_true in H by done. lia.
  - apply IH. intros x. specialize (H x). simpl in H. lia.
Qed.

Lemma cnt_delete x l j y : l !! j = Some y -> cnt x l = (cnt x (delete j l) + one (x = y))%nat.
Proof. revert j. induction l as [|z l IH]; intros [|j]; simpl; [done|done|intros [= ->]; lia|]. intros H. rewrite (IH j H). lia. Qed.

Lemma cnt_split x l n : cnt x l = (cnt x (take n l) + cnt x (drop n l))%nat.
Proof. by rewrite <- cnt_app, take_drop. Qed.
End count.

(** Summing over threads. *)
Section total.
Context {A : Type}.
Implicit Types (l : list A).

Definition total (f : A -> nat) l : nat := foldr (fun x n => f x + n)%nat 0%nat l.

Lemma total_insert f l i x y : l !! i = Some x -> (total f (<[i := y]> l) + f x = total f l + f y)%nat.
Proof. revert i. induction l as [|z l IH]; intros [|i]; simpl; [done|done|intros [= ->]; lia|]. intros H. specialize (IH i H). lia. Qed.

Lemma total_lookup f l i x : l !! i = Some x -> (f x <= total f l)%nat.
Proof. revert i. induction l as [|z l IH]; intros [|i]; simpl; [done|done|intros [= ->]; lia|]. intros H. specialize (IH i H). lia. Qed.

Lemma total_zero f l : Forall (fun x => f x = 0%nat) l -> total f l = 0%nat.
Proof. induction 1; simpl; lia. Qed.
End total.

(** ** Places *)

Definition client_ids (pc : client_pc) : list nat :=
  match pc with
  | CAlloc _ ids _ | CAbort _ ids | CPending _ ids | CInflight _ ids | CCall _ ids _ _ => ids
  | CHandle id => [id]
  | CUndoPending _ id ids _ _ | CUndoInflight _ id ids _ _ | CUndoFree _ id ids _ _ => id :: ids
  | CCancel _ | CReturn _ => []
  end.

Definition worker_claim (pc : wq_worker_pc) : list (nat * stage) :=
  match pc with
  | WIdle | WInflight => []
  | WExecute id => [(id, Waiting)]
  | WStatus id e => [(id, Ran e)]
  | WComplete id | WDrain id | WFree id | WLoad id | WSend id _ => [(id, Settled)]
  end.

Definition at_ (st : stage) (ids : list nat) : list (nat * stage) := (fun id => (id, st)) <$> ids.

Definition loop_claim (pc : loop_pc) : list (nat * stage) :=
  match pc with
  | LItems l _ | LPending l _ => at_ Settled l.*1
  | LFree id _ l _ => at_ Settled (id :: l.*1)
  | LTimeout id | LUndoPending id | LUndoInflight id | LUndoFree id => at_ Waiting [id]
  | _ => []
  end.

(** How often a place is claimed. *)
Definition claimed (c : nat * stage) (t : threads) : nat :=
  let s := sys t in
  total (fun pc => cnt c (at_ Waiting (client_ids pc))) (clients t) + cnt c (at_ Waiting (pool s)) + cnt c (at_ Waiting (timers s).*1) +
  total (fun pc => cnt c (worker_claim pc)) (workers t) + cnt c (at_ Settled (chan s).*1) + cnt c (loop_claim (loop t)) +
  cnt c (at_ Settled (lost s)) + cnt c (at_ Settled (parked s)).

(** Each item is claimed once, at its stage, and was freed or is there. *)
Record heap_inv (m : gmap nat qd_work_item) (n : nat) (g : list (nat * fate)) (c : nat * stage -> nat) : Prop := {
  hi_once : forall x, c x = one (it_stage <$> m !! x.1 = Some x.2);
  hi_gone : forall id, (one (is_Some (m !! id)) + cnt id g.*1 = one (id < n))%nat
}.

Section heap.
Context {m : gmap nat qd_work_item} {n : nat} {g : list (nat * fate)} {c : nat * stage -> nat}.
Hypothesis HI : heap_inv m n g c.

Lemma claim_item id st : (0 < c (id, st))%nat -> exists i, m !! id = Some i /\ it_stage i = st.
Proof.
  intros H. rewrite (hi_once _ _ _ _ HI) in H. destruct (one_case (it_stage <$> m !! (id, st).1 = Some (id, st).2)) as [[_ E]|[E _]]; [|lia]. cbn in E. destruct (m !! id) as [i|]; [|done]. exists i. split; [done|]. by injection E.
Qed.

Lemma item_old id i : m !! id = Some i -> (id < n)%nat /\ cnt id g.*1 = 0%nat.
Proof. intros H. pose proof (hi_gone _ _ _ _ HI id) as E. rewrite (one_true (is_Some _)) in E by (by exists i). one_cases; lia. Qed.

(** The item changes and goes from one place to another, or none. *)
Lemma heap_move c' id i i' : m !! id = Some i ->
  (forall x, c' x + one (x = (id, it_stage i)) = c x + one (x = (id, it_stage i')))%nat -> heap_inv (<[id := i']> m) n g c'.
Proof.
  intros Hi Hc. split.
  - intros [u st]. specialize (Hc (u, st)). rewrite (hi_once _ _ _ _ HI) in Hc. cbn in *. destruct (decide (u = id)) as [->|Hu].
    + rewrite lookup_insert_eq. rewrite Hi in Hc. cbn in *. by_ones.
    + rewrite lookup_insert_ne by done. by_ones.
  - intros u. rewrite <- (hi_gone _ _ _ _ HI u). f_equal. destruct (decide (u = id)) as [->|]; [|by rewrite lookup_insert_ne]. rewrite lookup_insert_eq, Hi. by rewrite !one_true.
Qed.

Lemma heap_same c' : (forall x, c' x = c x) -> heap_inv m n g c'.
Proof. intros Hc. split; [intros x; rewrite Hc; apply HI|apply HI]. Qed.

Lemma heap_free c' id i f : m !! id = Some i -> (forall x, c' x + one (x = (id, it_stage i)) = c x)%nat -> heap_inv (delete id m) n (g ++ [(id, f)]) c'.
Proof.
  intros Hi Hc. split.
  - intros [u st]. specialize (Hc (u, st)). rewrite (hi_once _ _ _ _ HI) in Hc. cbn in *. destruct (decide (u = id)) as [->|Hu].
    + rewrite lookup_delete_eq. rewrite Hi in Hc. cbn in *. rewrite (one_false (None = _)) by done. by_ones.
    + rewrite lookup_delete_ne by done. by_ones.
  - intros u. rewrite <- (hi_gone _ _ _ _ HI u), fmap_app, cnt_app. cbn. destruct (decide (u = id)) as [->|].
    + rewrite lookup_delete_eq, Hi. rewrite (one_false (is_Some None)) by (by intros [? ?]). rewrite !one_true by done. lia.
    + rewrite lookup_delete_ne, (one_false (u = id)) by done. lia.
Qed.

Lemma heap_new c' i : it_stage i = Waiting -> (forall x, c' x = c x + one (x = (n, Waiting)))%nat -> heap_inv (<[n := i]> m) (S n) g c'.
Proof.
  intros Hst Hc. pose proof (hi_gone _ _ _ _ HI n) as Hn. rewrite (one_false (n < n)%nat) in Hn by lia. assert (m !! n = None) as Hm by (destruct (m !! n) eqn:E; [rewrite one_true in Hn by done; lia|done]). split.
  - intros [u st]. specialize (Hc (u, st)). rewrite (hi_once _ _ _ _ HI) in Hc. cbn in *. destruct (decide (u = n)) as [->|Hu].
    + rewrite lookup_insert_eq. rewrite Hm in Hc. cbn in *. rewrite Hc, Hst. rewrite (one_false (None = _)) by done. by_ones.
    + rewrite lookup_insert_ne by done. by_ones.
  - intros u. pose proof (hi_gone _ _ _ _ HI u) as E. destruct (decide (u = n)) as [->|].
    + rewrite lookup_insert_eq, (one_true (is_Some _)), (one_true (n < S n)%nat) by (done || lia). lia.
    + rewrite lookup_insert_ne by done. rewrite E. one_cases; lia.
Qed.
End heap.

(** ** The places of every step *)

Definition placed (t : threads) : Prop := heap_inv (items (sys t)) (length (filled (sys t))) (gone (sys t)) (fun x => claimed x t).

Lemma cnt_at_app x st l k : cnt x (at_ st (l ++ k)) = (cnt x (at_ st l) + cnt x (at_ st k))%nat.
Proof. unfold at_. by rewrite fmap_app, cnt_app. Qed.
Lemma cnt_at_cons x st id l : cnt x (at_ st (id :: l)) = (one (x = (id, st)) + cnt x (at_ st l))%nat.
Proof. done. Qed.
Lemma cnt_at_delete x st l j id : l !! j = Some id -> cnt x (at_ st l) = (cnt x (at_ st (delete j l)) + one (x = (id, st)))%nat.
Proof. intros H. unfold at_. rewrite list_fmap_delete. apply cnt_delete. by rewrite list_lookup_fmap, H. Qed.

Definition client_after (t : threads) (c : nat) (pc : client_pc) (s : system) : threads := mkThreads s (<[c := pc]> (clients t)) (workers t) (loop t).
Definition worker_after (t : threads) (w : nat) (pc : wq_worker_pc) (s : system) : threads := mkThreads s (clients t) (<[w := pc]> (workers t)) (loop t).
Definition loop_after (t : threads) (pc : loop_pc) (s : system) : threads := mkThreads s (clients t) (workers t) pc.

(** Count the claims on [x] after the step of the thread that [H] looks up. *)
Ltac claims H :=
  let x := fresh "x" in intros x; unfold claimed, client_after, worker_after;
  cbn [sys clients workers loop wq items filled pool timers chan calls runs cancels lost parked gone set_wq set_items set_pool set_timers set_chan set_calls set_runs set_cancels set_lost set_parked set_gone add_pending add_inflight set_draining];
  try match goal with |- context [total ?f (<[?i := ?y]> ?l)] =>
    let E := fresh "Ex" in pose proof (total_insert f l i _ y H) as E; cbn [client_ids worker_claim cnt] in E end;
  cbn [loop_claim]; rewrite ?fmap_app, ?cnt_at_app, ?cnt_at_cons; repeat match goal with H : context [cnt _ (at_ _ (_ ++ _))] |- _ => rewrite cnt_at_app in H | H : context [cnt _ (at_ _ (_ :: _))] |- _ => rewrite cnt_at_cons in H end;
  try change (cnt x (at_ Waiting [])) with 0%nat in *; try change (cnt x (at_ Settled [])) with 0%nat in *.

Lemma client_claim t c pc id : placed t -> clients t !! c = Some pc -> id ∈ client_ids pc -> exists i, items (sys t) !! id = Some i /\ it_stage i = Waiting.
Proof.
  intros HI Hc H. apply (claim_item HI). unfold claimed. pose proof (total_lookup (fun pc => cnt (id, Waiting) (at_ Waiting (client_ids pc))) _ _ _ Hc) as E. cbn beta in E.
  assert (0 < cnt (id, Waiting) (at_ Waiting (client_ids pc)))%nat; [|lia]. apply cnt_elem. unfold at_. apply list_elem_of_fmap. by exists id.
Qed.

Lemma client_placed t c pc answer : placed t -> clients t !! c = Some pc ->
  match wq_client_step answer pc (sys t) with
  | Ok (pc', s') => placed (client_after t c pc' s')
  | Undef => exists id, pc = CCancel id /\ items (sys t) !! id = None
  | Fuel => False
  end.
Proof.
  intros HI Hc. destruct pc as [k done [|i todo]|id|k [|id ids]|k ids|k ids|k [|id ids] n code|k id ids n code|k id ids n code|k id ids n code|id|x]; cbn [wq_client_step].
  - destruct k, done as [|id [|id' done]]; apply (heap_same HI); claims Hc; lia.
  - destruct (answer =? 0); [apply (heap_same HI); claims Hc; lia|]. unfold placed. cbn [work_item_alloc client_after sys items filled gone]. rewrite length_app, Nat.add_comm.
    apply (heap_new HI); [by destruct i as [[[fn arg] ud] delay]|]. claims Hc; lia.
  - destruct (answer =? 0); apply (heap_same HI); claims Hc; lia.
  - apply (heap_same HI); claims Hc; lia.
  - destruct (client_claim t c _ id HI Hc) as (i & Hi & Hs); [by left|]. unfold work_item_free, read_item. rewrite Hi. cbn [of_option obind]. apply (heap_free HI _ id i); [done|]. rewrite Hs. claims Hc; lia.
  - apply (heap_same HI); claims Hc; lia.
  - apply (heap_same HI); claims Hc; lia.
  - apply (heap_same HI); claims Hc; lia.
  - destruct (answer =? QD_OK); [|apply (heap_same HI); claims Hc; lia]. destruct (client_claim t c _ id HI Hc) as (i & Hi & Hs); [by left|]. unfold hand_over, read_item. rewrite Hi. destruct k; cbn [of_option obind]; apply (heap_same HI); claims Hc; cbn; lia.
  - apply (heap_same HI); claims Hc; lia.
  - apply (heap_same HI); claims Hc; lia.
  - destruct (client_claim t c _ id HI Hc) as (i & Hi & Hs); [by left|]. unfold work_item_free, read_item. rewrite Hi. cbn [of_option obind]. apply (heap_free HI _ id i); [done|]. rewrite Hs. claims Hc; lia.
  - unfold write_item, read_item. destruct (items (sys t) !! id) as [i|] eqn:Hi; [|by exists id]. cbn [of_option obind]. apply (heap_move HI _ id i); [done|]. claims Hc; cbn; lia.
  - apply (heap_same HI); claims Hc; lia.
Qed.

Lemma worker_claims t w pc id st : placed t -> workers t !! w = Some pc -> (id, st) ∈ worker_claim pc -> exists i, items (sys t) !! id = Some i /\ it_stage i = st.
Proof.
  intros HI Hw H. apply (claim_item HI). unfold claimed. pose proof (total_lookup (fun pc => cnt (id, st) (worker_claim pc)) _ _ _ Hw) as E. cbn beta in E. apply cnt_elem in H. lia.
Qed.

Lemma loop_claims t id st : placed t -> (id, st) ∈ loop_claim (loop t) -> exists i, items (sys t) !! id = Some i /\ it_stage i = st.
Proof. intros HI H. apply (claim_item HI). unfold claimed. apply cnt_elem in H. lia. Qed.

Ltac item H E := destruct H as (?i & E & ?Hs); [apply elem_of_cons; by left|].

Lemma worker_placed t w pc j r e : placed t -> workers t !! w = Some pc ->
  exists pc' s', wq_worker_step j r e pc (sys t) = Ok (pc', s') /\ placed (worker_after t w pc' s').
Proof.
  intros HI Hw. destruct pc as [|id|id e'|id|id|id|id|id st|]; cbn [wq_worker_step].
  - destruct (pool (sys t) !! j) as [id|] eqn:Ej; (do 2 eexists; split; [reflexivity|]); apply (heap_same HI); claims Hw; [|lia].
    pose proof (cnt_at_delete x Waiting _ _ _ Ej). lia.
  - item (worker_claims t w _ id Waiting HI Hw) Hi. unfold work_item_execute, write_item, read_item. rewrite Hi. cbn [of_option obind].
    destruct (_ || _); (do 2 eexists; split; [reflexivity|]); (apply (heap_move HI _ id i); [done|]); rewrite Hs; claims Hw; cbn; lia.
  - item (worker_claims t w _ id (Ran e') HI Hw) Hi. unfold store_status, write_item, read_item. rewrite Hi. cbn [of_option obind].
    do 2 eexists. split; [reflexivity|]. apply (heap_move HI _ id i); [done|]. rewrite Hs. claims Hw; cbn; lia.
  - destruct (draining _); (do 2 eexists; split; [reflexivity|]); apply (heap_same HI); claims Hw; lia.
  - do 2 eexists. split; [reflexivity|]. apply (heap_same HI); claims Hw; lia.
  - item (worker_claims t w _ id Settled HI Hw) Hi. unfold work_item_free, read_item. rewrite Hi. cbn [of_option obind].
    do 2 eexists. split; [reflexivity|]. apply (heap_free HI _ id i); [done|]. rewrite Hs. claims Hw; cbn; lia.
  - item (worker_claims t w _ id Settled HI Hw) Hi. unfold read_item. rewrite Hi. cbn [of_option obind]. do 2 eexists. split; [reflexivity|]. apply (heap_same HI); claims Hw; lia.
  - do 2 eexists. split; [reflexivity|]. unfold send_result. destruct (_ <? _)%nat; apply (heap_same HI); claims Hw; cbn; lia.
  - do 2 eexists. split; [reflexivity|]. apply (heap_same HI); claims Hw; lia.
Qed.

(** The step of the loop, with what it claimed and claims. *)
Ltac loop_claims E := intros x; unfold claimed, loop_after; cbn [sys clients workers loop items pool timers chan lost parked set_wq set_items set_pool set_timers set_chan set_calls set_lost set_parked set_gone add_pending add_inflight set_draining]; rewrite ?E; cbn [loop_claim];
  rewrite ?fmap_app, ?cnt_at_app, ?fmap_cons, ?cnt_at_cons.

Lemma loop_placed t ev n answer : placed t -> exists pc' s', wq_loop_step ev n answer (loop t) (sys t) = Ok (pc', s') /\ placed (loop_after t pc' s').
Proof.
  intros HI. pose proof (loop_claims t) as Hcl. destruct (loop t) as [|back|[|[id st] l] back|id f l back|l back|back|back|id|id|id|id| | |] eqn:El; cbn [wq_loop_step].
  - destruct ev as [|j|]; [|destruct (timers (sys t) !! j) as [[id ms]|] eqn:Ej|]; (do 2 eexists; split; [reflexivity|]); apply (heap_same HI); loop_claims El; try (cbn; lia).
    assert ((timers (sys t)).*1 !! j = Some id) as Ek by (by rewrite list_lookup_fmap, Ej). pose proof (cnt_at_delete x Waiting _ _ _ Ek) as E. rewrite <- list_fmap_delete in E. cbn. cbn in E. lia.
  - do 2 eexists. split; [reflexivity|]. apply (heap_same HI); loop_claims El. set (k := Nat.min n QD_WQ_BATCH).
    assert (drop (length (take k (chan (sys t)))) (chan (sys t)) = drop k (chan (sys t))) as ->.
    { rewrite length_take. destruct (decide (k <= length (chan (sys t)))%nat); [by rewrite Nat.min_l|]. rewrite Nat.min_r by lia. by rewrite !drop_ge by lia. }
    rewrite <- (take_drop k (chan (sys t))) at 3. rewrite fmap_app, cnt_at_app. destruct (take k (chan (sys t))) as [|p l]; cbn [loop_claim]; cbn; lia.
  - do 2 eexists. split; [reflexivity|]. apply (heap_same HI); loop_claims El; cbn; lia.
  - item (Hcl id Settled HI) Hi. unfold complete_item, read_item. rewrite Hi. cbn [of_option obind].
    destruct (0 <? _); [|destruct (_ =? _); [|destruct (on_complete _)]]; (do 2 eexists; split; [reflexivity|]); apply (heap_same HI); loop_claims El; cbn; lia.
  - item (Hcl id Settled HI) Hi. unfold work_item_free, read_item. rewrite Hi. cbn [of_option obind]. do 2 eexists. split; [reflexivity|].
    apply (heap_free HI _ id i); [done|]. rewrite Hs. loop_claims El; cbn; lia.
  - do 2 eexists. split; [reflexivity|]. apply (heap_same HI); loop_claims El; cbn; lia.
  - do 2 eexists. split; [reflexivity|]. apply (heap_same HI); loop_claims El; cbn; lia.
  - do 2 eexists. split; [reflexivity|]. apply (heap_same HI); loop_claims El. destruct (chan _), back; cbn; lia.
  - destruct (answer =? QD_OK); (do 2 eexists; split; [reflexivity|]); apply (heap_same HI); loop_claims El; cbn; lia.
  - do 2 eexists. split; [reflexivity|]. apply (heap_same HI); loop_claims El; cbn; lia.
  - do 2 eexists. split; [reflexivity|]. apply (heap_same HI); loop_claims El; cbn; lia.
  - item (Hcl id Waiting HI) Hi. unfold work_item_free, read_item. rewrite Hi. cbn [of_option obind]. do 2 eexists. split; [reflexivity|].
    apply (heap_free HI _ id i); [done|]. rewrite Hs. loop_claims El; cbn; lia.
  - do 2 eexists. split; [reflexivity|]. apply (heap_same HI); loop_claims El; cbn; lia.
  - do 2 eexists. split; [reflexivity|]. apply (heap_same HI); loop_claims El. destruct (0 <? _); cbn; lia.
  - do 2 eexists. split; [reflexivity|]. apply (heap_same HI); loop_claims El; cbn; lia.
Qed.

(** ** The counters *)

Definition client_pends (pc : client_pc) : nat :=
  match pc with
  | CInflight _ ids | CCall _ ids _ _ | CUndoInflight _ _ ids _ _ | CUndoFree _ _ ids _ _ => length ids
  | CUndoPending _ _ ids _ _ => S (length ids)
  | _ => 0
  end.
Definition client_flies (pc : client_pc) : nat :=
  match pc with
  | CCall _ ids _ _ | CUndoFree _ _ ids _ _ => length ids
  | CUndoPending _ _ ids _ _ | CUndoInflight _ _ ids _ _ => S (length ids)
  | _ => 0
  end.
Definition worker_pends (pc : wq_worker_pc) : nat := match pc with WIdle | WInflight => 0 | _ => 1 end.
Definition worker_flies (pc : wq_worker_pc) : nat := match pc with WIdle | WFree _ => 0 | _ => 1 end.
Definition loop_pends (pc : loop_pc) : nat :=
  match pc with
  | LItems l _ => length l
  | LFree _ _ l _ | LPending l _ => S (length l)
  | LTimeout _ | LUndoPending _ => 1
  | _ => 0
  end.
Definition loop_flies (pc : loop_pc) : nat := match pc with LTimeout _ | LUndoPending _ | LUndoInflight _ => 1 | _ => 0 end.

Definition drained (g : list (nat * fate)) : nat := total (fun x => one (x.2 = Drained)) g.

(** What the counters stand for. *)
Definition pends (t : threads) : nat :=
  let s := sys t in
  total client_pends (clients t) + length (pool s) + length (timers s) + total worker_pends (workers t) + length (chan s) + loop_pends (loop t) +
  length (lost s) + length (parked s) + drained (gone s).
Definition flies (t : threads) : nat :=
  let s := sys t in
  total client_flies (clients t) + length (pool s) + length (timers s) + total worker_flies (workers t) + loop_flies (loop t).

Record counted (t : threads) : Prop := {
  ct_pending : pending (wq (sys t)) = i32 (Z.of_nat (pends t));
  ct_inflight : inflight (wq (sys t)) = i32 (Z.of_nat (flies t))
}.

Lemma total_app {A} (f : A -> nat) l k : total f (l ++ k) = (total f l + total f k)%nat.
Proof. induction l as [|x l IH]; [done|]. simpl. lia. Qed.

Lemma drained_app g id f : drained (g ++ [(id, f)]) = (drained g + one (f = Drained))%nat.
Proof. unfold drained. rewrite total_app. simpl. lia. Qed.

Lemma delete_length {A} (l : list A) j x : l !! j = Some x -> length l = S (length (delete j l)).
Proof. intros H. pose proof (lookup_lt_Some _ _ _ H). rewrite length_delete by (by exists x). lia. Qed.

(** The counters follow: after the step both numbers differ from those before by what was
    added. *)
Lemma counters_step t t' dp df : counted t ->
  pending (wq (sys t')) = i32 (pending (wq (sys t)) + dp) -> inflight (wq (sys t')) = i32 (inflight (wq (sys t)) + df) ->
  Z.of_nat (pends t') = Z.of_nat (pends t) + dp -> Z.of_nat (flies t') = Z.of_nat (flies t) + df -> counted t'.
Proof. intros [H1 H2] E1 E2 E3 E4. constructor; [rewrite E1, H1, E3|rewrite E2, H2, E4]; apply i32_step. Qed.

Lemma i32_idem t : counted t -> pending (wq (sys t)) = i32 (pending (wq (sys t)) + 0) /\ inflight (wq (sys t)) = i32 (inflight (wq (sys t)) + 0).
Proof. intros [-> ->]. rewrite !i32_step, !Z.add_0_r. done. Qed.

Ltac sums H :=
  unfold pends, flies, client_after, worker_after, loop_after;
  cbn [sys clients workers loop wq items filled pool timers chan calls runs cancels lost parked gone set_wq set_items set_pool set_timers set_chan set_calls set_runs set_cancels set_lost set_parked set_gone add_pending add_inflight set_draining];
  repeat match goal with |- context [total ?f (<[?i := ?y]> ?l)] =>
    let E := fresh "Ex" in pose proof (total_insert f l i _ y H) as E; cbn [client_pends client_flies worker_pends worker_flies length] in E; revert E; generalize (total f (<[i := y]> l)); intros ?n ? end;
  cbn [loop_pends loop_flies length]; rewrite ?length_app, ?drained_app; cbn [length].

(** The step adds [dp] to pending and [df] to inflight. *)
Ltac counts HC H dp df :=
  let I1 := fresh in let I2 := fresh in destruct (i32_idem _ HC) as [I1 I2];
  apply (counters_step _ _ dp df HC); [first [exact I1|reflexivity]|first [exact I2|reflexivity]|sums H; rewrite ?(one_false (_ = Drained)) by done; try lia|sums H; rewrite ?(one_false (_ = Drained)) by done; try lia].

Lemma client_counted t c pc answer pc' s' : counted t -> clients t !! c = Some pc -> wq_client_step answer pc (sys t) = Ok (pc', s') -> counted (client_after t c pc' s').
Proof.
  intros HC Hc E. destruct pc as [k done [|i todo]|id|k [|id ids]|k ids|k ids|k [|id ids] n code|k id ids n code|k id ids n code|k id ids n code|id|x]; cbn [wq_client_step] in E.
  - destruct k, done as [|id [|id' done]]; injection E as <- <-; counts HC Hc 0 0.
  - destruct (answer =? 0); injection E as <- <-; counts HC Hc 0 0.
  - destruct (answer =? 0); injection E as <- <-; counts HC Hc 0 0.
  - injection E as <- <-; counts HC Hc 0 0.
  - unfold work_item_free, read_item in E. destruct (items _ !! id) as [i|]; [|done]. injection E as <- <-; counts HC Hc 0 0.
  - injection E as <- <-; counts HC Hc (Z.of_nat (length ids)) 0.
  - injection E as <- <-; counts HC Hc 0 (Z.of_nat (length ids)).
  - injection E as <- <-; counts HC Hc 0 0.
  - destruct (answer =? QD_OK); [|injection E as <- <-; counts HC Hc 0 0]. unfold hand_over, read_item in E. destruct k; [|destruct (items _ !! id) as [i|]; [|done]| |]; injection E as <- <-; counts HC Hc 0 0.
  - injection E as <- <-; counts HC Hc (-1) 0.
  - injection E as <- <-; counts HC Hc 0 (-1).
  - unfold work_item_free, read_item in E. destruct (items _ !! id) as [i|]; [|done]. injection E as <- <-; counts HC Hc 0 0.
  - unfold write_item, read_item in E. destruct (items _ !! id) as [i|]; [|done]. injection E as <- <-; counts HC Hc 0 0.
  - injection E as <- <-; counts HC Hc 0 0.
Qed.

Lemma worker_counted t w pc j r e pc' s' : counted t -> workers t !! w = Some pc -> wq_worker_step j r e pc (sys t) = Ok (pc', s') -> counted (worker_after t w pc' s').
Proof.
  intros HC Hw E. destruct pc as [|id|id e'|id|id|id|id|id st|]; cbn [wq_worker_step] in E.
  - destruct (pool (sys t) !! j) as [id|] eqn:Ej; injection E as <- <-; [pose proof (delete_length _ _ _ Ej)|]; counts HC Hw 0 0.
  - unfold work_item_execute, write_item, read_item in E. destruct (items _ !! id) as [i|]; [|done]. cbn [of_option obind] in E. destruct (_ || _); injection E as <- <-; counts HC Hw 0 0.
  - unfold store_status, write_item, read_item in E. destruct (items _ !! id) as [i|]; [|done]. injection E as <- <-; counts HC Hw 0 0.
  - destruct (draining _); injection E as <- <-; counts HC Hw 0 0.
  - injection E as <- <-; counts HC Hw 0 (-1).
  - unfold work_item_free, read_item in E. destruct (items _ !! id) as [i|]; [|done]. injection E as <- <-; counts HC Hw 0 0. rewrite one_true by done. lia.
  - unfold read_item in E. destruct (items _ !! id) as [i|]; [|done]. injection E as <- <-; counts HC Hw 0 0.
  - unfold send_result in E. destruct (_ <? _)%nat; injection E as <- <-; counts HC Hw 0 0.
  - injection E as <- <-; counts HC Hw 0 (-1).
Qed.

Ltac loop_counts HC El dp df :=
  let I1 := fresh in let I2 := fresh in destruct (i32_idem _ HC) as [I1 I2];
  apply (counters_step _ _ dp df HC); [first [exact I1|reflexivity]|first [exact I2|reflexivity]|sums El; rewrite ?El; cbn [loop_pends loop_flies length]; try lia|sums El; rewrite ?El; cbn [loop_pends loop_flies length]; try lia].

Definition not_drained (pc : loop_pc) : Prop := match pc with LFree _ f _ _ => f <> Drained | _ => True end.

Lemma loop_counted t ev n answer pc' s' : counted t -> not_drained (loop t) -> wq_loop_step ev n answer (loop t) (sys t) = Ok (pc', s') -> counted (loop_after t pc' s').
Proof.
  intros HC Hd E. destruct (loop t) as [|back|[|[id st] l] back|id f l back|l back|back|back|id|id|id|id| | |] eqn:El; cbn [wq_loop_step] in E.
  - destruct ev as [|j|]; [|destruct (timers (sys t) !! j) as [[id ms]|] eqn:Ej|]; injection E as <- <-; try (pose proof (delete_length _ _ _ Ej)); loop_counts HC El 0 0.
  - injection E as <- <-. set (k := Nat.min n QD_WQ_BATCH). assert (length (chan (sys t)) = length (take k (chan (sys t))) + length (drop (length (take k (chan (sys t)))) (chan (sys t))))%nat by (rewrite length_drop, !length_take; lia).
    destruct (take k (chan (sys t))) as [|p l]; loop_counts HC El 0 0; cbn [length] in *; lia.
  - injection E as <- <-; loop_counts HC El 0 0.
  - unfold complete_item, read_item in E. destruct (items _ !! id) as [i|]; [|done]. cbn [of_option obind] in E. destruct (0 <? _); [|destruct (_ =? _); [|destruct (on_complete _)]]; injection E as <- <-; loop_counts HC El 0 0.
  - unfold work_item_free, read_item in E. destruct (items _ !! id) as [i|]; [|done]. injection E as <- <-; loop_counts HC El 0 0. rewrite (one_false (f = Drained)) by done. lia.
  - injection E as <- <-; loop_counts HC El (-1) 0.
  - injection E as <- <-; loop_counts HC El 0 0.
  - injection E as <- <-. destruct (chan (sys t)) eqn:Ec, back; loop_counts HC El 0 0.
  - destruct (answer =? QD_OK); injection E as <- <-; loop_counts HC El 0 0.
  - injection E as <- <-; loop_counts HC El (-1) 0.
  - injection E as <- <-; loop_counts HC El 0 (-1).
  - unfold work_item_free, read_item in E. destruct (items _ !! id) as [i|]; [|done]. injection E as <- <-; loop_counts HC El 0 0. rewrite one_false by done. lia.
  - injection E as <- <-; loop_counts HC El 0 0.
  - injection E as <- <-. destruct (0 <? _); loop_counts HC El 0 0.
  - injection E as <- <-; loop_counts HC El 0 0.
Qed.

(** ** The items and the logs *)

(** A result and a status that the item [i0], as it was filled in, may report. *)
Definition reported (R : list (nat * (Z * Z))) (id : nat) (i0 : qd_work_item) (r st : Z) : Prop :=
  work_fn i0 = 0 /\ r = 0 /\ st = QD_WORK_OK \/ exists e, (id, (r, e)) ∈ R /\ st = work_status r e.

Definition stage_ok (R : list (nat * (Z * Z))) (K : list nat) (id : nat) (i0 i : qd_work_item) : Prop :=
  match it_stage i with
  | Waiting => (id ∉ R.*1) /\ result i = 0 /\ (status i = QD_WORK_OK \/ status i = QD_WORK_CANCELLED /\ id ∈ K)
  | Ran e => (id, (result i, e)) ∈ R
  | Settled => status i = QD_WORK_CANCELLED /\ id ∈ K \/ reported R id i0 (result i) (status i)
  end.

Definition item_ok (s : system) (id : nat) (i : qd_work_item) : Prop :=
  exists i0, filled s !! id = Some i0 /\ work_fn i = work_fn i0 /\ user_data i = user_data i0 /\ delay_ms i = delay_ms i0 /\ stage_ok (runs s) (cancels s) id i0 i.

Definition fate_ok (s : system) (id : nat) (f : fate) : Prop :=
  match f with
  | Completed => on_complete (wq s) = true
  | Ignored => on_complete (wq s) = false
  | Cancelled => id ∈ cancels s
  | Drained => draining (wq s) = true
  | Refused code => code <> QD_OK
  | Unallocated | Dropped => True
  end.

Definition called (id : nat) (pc : loop_pc) : nat := match pc with LFree id' Completed _ _ => one (id = id') | _ => 0 end.
Definition loop_ok (s : system) (pc : loop_pc) : Prop :=
  match pc with LFree id f _ _ => fate_ok s id f /\ (f = Completed \/ f = Ignored \/ f = Cancelled) | _ => True end.
Definition client_ok (pc : client_pc) : Prop :=
  match pc with CUndoPending _ _ _ _ code | CUndoInflight _ _ _ _ code | CUndoFree _ _ _ _ code => code <> QD_OK | _ => True end.
Definition worker_ok (s : system) (pc : wq_worker_pc) : Prop := match pc with WDrain _ | WFree _ => draining (wq s) = true | _ => True end.

Definition call_id (c : nat * Z * Z * Z) : nat := c.1.1.1.

Record logged (t : threads) : Prop := {
  lg_items : forall id i, items (sys t) !! id = Some i -> item_ok (sys t) id i;
  lg_runs : NoDup (runs (sys t)).*1;
  lg_ran : forall id x, (id, x) ∈ runs (sys t) -> exists i0, filled (sys t) !! id = Some i0 /\ work_fn i0 <> 0;
  lg_calls : forall id r st ud, (id, r, st, ud) ∈ calls (sys t) -> exists i0, filled (sys t) !! id = Some i0 /\ ud = user_data i0 /\ reported (runs (sys t)) id i0 r st;
  lg_once : forall id, cnt id (call_id <$> calls (sys t)) = (cnt (id, Completed) (gone (sys t)) + called id (loop t))%nat;
  lg_fates : forall id f, (id, f) ∈ gone (sys t) -> fate_ok (sys t) id f;
  lg_loop : loop_ok (sys t) (loop t);
  lg_clients : Forall client_ok (clients t);
  lg_workers : Forall (worker_ok (sys t)) (workers t);
  lg_parked : forall id, id ∈ parked (sys t) -> exists i0, filled (sys t) !! id = Some i0 /\ 0 < delay_ms i0;
  lg_lost : lost (sys t) <> [] -> (WQ_CHANNEL_CAPACITY < length (filled (sys t)))%nat
}.

(** What the logs hold stays true when they grow. *)
Record grows (s s' : system) : Prop := {
  gr_filled : filled s `prefix_of` filled s';
  gr_runs : forall x, x ∈ runs s -> x ∈ runs s';
  gr_cancels : forall x, x ∈ cancels s -> x ∈ cancels s';
  gr_callback : on_complete (wq s') = on_complete (wq s);
  gr_draining : draining (wq s) = true -> draining (wq s') = true
}.

Lemma grows_filled s s' id i0 : grows s s' -> filled s !! id = Some i0 -> filled s' !! id = Some i0.
Proof. intros G H. eapply prefix_lookup_Some; [done|apply G]. Qed.

Lemma reported_mono s s' id i0 r st : grows s s' -> reported (runs s) id i0 r st -> reported (runs s') id i0 r st.
Proof. intros G [H|(e & H & E)]; [by left|right]. exists e. split; [by apply G|done]. Qed.

Lemma fate_mono s s' id f : grows s s' -> fate_ok s id f -> fate_ok s' id f.
Proof. intros G. destruct f; cbn; rewrite ?(gr_callback _ _ G); try done; apply G. Qed.

(** An item that is not touched, unless it is the one that ran. *)
Lemma item_mono s s' id i : grows s s' -> (id ∈ (runs s').*1 -> id ∈ (runs s).*1) -> item_ok s id i -> item_ok s' id i.
Proof.
  intros G HR (i0 & H0 & H1 & H2 & H3 & H). exists i0. split; [by eapply grows_filled|]. split; [done|]. split; [done|]. split; [done|]. unfold stage_ok in *.
  destruct (it_stage i) as [|e|].
  - destruct H as (Hr & H4 & H5). split; [tauto|]. split; [done|]. destruct H5 as [|[? ?]]; [by left|right]. split; [done|by apply G].
  - by apply G.
  - destruct H as [[? ?]|H]; [left; split; [done|by apply G]|right; by eapply reported_mono].
Qed.

Section logs.
Context (t : threads) (s' : system) (cl : list client_pc) (ws : list wq_worker_pc) (lp : loop_pc).
Hypothesis HL : logged t.
Hypothesis HG : grows (sys t) s'.

(** The parts that depend on the logs only through their growth. *)
Lemma logged_grow :
  (forall id i, items s' !! id = Some i -> item_ok s' id i) -> NoDup (runs s').*1 ->
  (forall x, x ∈ runs s' -> x ∈ runs (sys t) \/ exists i0, filled s' !! x.1 = Some i0 /\ work_fn i0 <> 0) ->
  (forall x, x ∈ calls s' -> x ∈ calls (sys t) \/ exists i0, filled s' !! call_id x = Some i0 /\ x.2 = user_data i0 /\ reported (runs s') (call_id x) i0 x.1.1.2 x.1.2) ->
  (forall id, cnt id (call_id <$> calls s') = (cnt (id, Completed) (gone s') + called id lp)%nat) ->
  (forall x, x ∈ gone s' -> x ∈ gone (sys t) \/ fate_ok s' x.1 x.2) -> loop_ok s' lp -> Forall client_ok cl ->
  (forall pc, pc ∈ ws -> pc ∈ workers t \/ worker_ok s' pc) ->
  (forall id, id ∈ parked s' -> id ∈ parked (sys t) \/ exists i0, filled s' !! id = Some i0 /\ 0 < delay_ms i0) ->
  (lost s' = lost (sys t) \/ WQ_CHANNEL_CAPACITY < length (filled s'))%nat -> logged (mkThreads s' cl ws lp).
Proof.
  intros H1 H2 H3 H4 H5 H6 H7 H8 H9 H10 H11. constructor; cbn [sys clients workers loop]; try done.
  - intros id x [Hx|Hx]%H3; [|done]. destruct (lg_ran _ HL _ _ Hx) as (i0 & Hf & Hn). exists i0. split; [by eapply grows_filled|done].
  - intros id r st ud [Hx|Hx]%H4; [|done]. destruct (lg_calls _ HL _ _ _ _ Hx) as (i0 & Hf & Hu & Hr). exists i0. split; [by eapply grows_filled|]. split; [done|by eapply reported_mono].
  - intros id f [Hx|Hx]%H6; [|done]. eapply fate_mono; [done|by apply HL].
  - apply Forall_forall. intros pc [Hx|Hx]%H9; [|done]. pose proof (lg_workers _ HL) as Hw. rewrite Forall_forall in Hw. specialize (Hw pc Hx). destruct pc; try done; by apply HG.
  - intros id [Hx|Hx]%H10; [|done]. destruct (lg_parked _ HL _ Hx) as (i0 & Hf & Hd). exists i0. split; [by eapply grows_filled|done].
  - intros Hx. destruct H11 as [E|H]; [|done]. rewrite E in Hx. pose proof (lg_lost _ HL Hx). pose proof (prefix_length _ _ (gr_filled _ _ HG)). lia.
Qed.
End logs.

Lemma elem_insert {A} (l : list A) i x y : x ∈ <[i := y]> l -> x ∈ l \/ x = y.
Proof. intros H. apply list_elem_of_lookup in H as [j Hj]. apply list_lookup_insert_Some in Hj as [(-> & -> & _)|[_ Hj]]; [by right|left]. by eapply list_elem_of_lookup_2. Qed.

(** The premises of [logged_grow] for a step that does not touch a log. *)
Ltac quiet HL :=
  match goal with
  | |- grows _ _ => by constructor
  | |- forall id i, items _ !! id = Some i -> item_ok _ id i => exact (lg_items _ HL)
  | |- NoDup _ => exact (lg_runs _ HL)
  | |- forall x, x ∈ runs _ -> _ => intros ? ?; by left
  | |- forall x, x ∈ calls _ -> _ => intros ? ?; by left
  | |- forall id, cnt id _ = _ => exact (lg_once _ HL)
  | |- forall x, x ∈ gone _ -> _ => intros ? ?; by left
  | |- loop_ok _ _ => first [exact (lg_loop _ HL) | exact I]
  | |- Forall client_ok _ => first [exact (lg_clients _ HL) | apply Forall_insert; [exact (lg_clients _ HL)|first [exact I|done]]]
  | |- forall pc, pc ∈ _ -> pc ∈ workers _ \/ _ => first [intros ? ?; by left | intros ? [?| ->]%elem_insert; [by left|right; first [exact I|done]]]
  | |- forall id, id ∈ parked _ -> _ => intros ? ?; by left
  | |- _ \/ _ => by left
  | _ => idtac
  end.

Ltac log_step HL := apply (logged_grow _ _ _ _ _ HL); quiet HL.

Lemma loop_mono s s' pc : grows s s' -> loop_ok s pc -> loop_ok s' pc.
Proof. intros G. destruct pc; try done. intros [H ?]. split; [by eapply fate_mono|done]. Qed.

Lemma free_logged s id f s' : work_item_free id f s = Ok s' -> s' = set_gone (gone s ++ [(id, f)]) (set_items (delete id (items s)) s).
Proof. unfold work_item_free, read_item. destruct (items s !! id); [|done]. by intros [= <-]. Qed.

(** A free, by the loop or another thread. *)
Lemma logged_free t id f cl ws lp : logged t -> fate_ok (sys t) id f -> (forall u, called u (loop t) = one ((u, Completed) = (id, f)) + called u lp)%nat -> loop_ok (sys t) lp ->
  Forall client_ok cl -> (forall pc, pc ∈ ws -> pc ∈ workers t \/ worker_ok (sys t) pc) ->
  logged (mkThreads (set_gone (gone (sys t) ++ [(id, f)]) (set_items (delete id (items (sys t))) (sys t))) cl ws lp).
Proof.
  intros HL Hf Hn Hlp Hcl Hws. log_step HL; try done.
  - intros u x Hu. cbn in Hu. apply lookup_delete_Some in Hu as [_ Hu]. by apply HL.
  - intros u. cbn. rewrite cnt_app, (lg_once _ HL u), Hn. cbn. lia.
  - intros x [Hx|Hx]%elem_of_app; [by left|right]. by apply list_elem_of_singleton in Hx as ->.
Qed.

Ltac free_step HL := apply logged_free; [done|done|intros; rewrite ?(one_false (_ = _)) by congruence; done|quiet HL..].

Lemma write_logged s id f s' : write_item id f s = Ok s' -> exists i, items s !! id = Some i /\ s' = set_items (<[id := f i]> (items s)) s.
Proof. unfold write_item, read_item. destruct (items s !! id) as [i|]; [|done]. intros [= <-]. by exists i. Qed.

Lemma client_logged t c pc answer pc' s' : placed t -> logged t -> clients t !! c = Some pc -> wq_client_step answer pc (sys t) = Ok (pc', s') -> logged (client_after t c pc' s').
Proof.
  intros HI HL Hc E. pose proof (Forall_lookup_1 _ _ _ _ (lg_clients _ HL) Hc) as Hok. unfold client_after.
  destruct pc as [k done [|i todo]|id|k [|id ids]|k ids|k ids|k [|id ids] n code|k id ids n code|k id ids n code|k id ids n code|id|x]; cbn [wq_client_step] in E.
  - destruct k, done as [|id [|id' done]]; injection E as <- <-; log_step HL.
  - destruct (answer =? 0); injection E as <- <-; log_step HL.
    + constructor; try done. by apply prefix_app_r.
    + cbn [items work_item_alloc]. intros id x. destruct (decide (id = length (filled (sys t)))) as [->|Hne].
      * rewrite lookup_insert_eq. intros [= <-]. exists (new_item i). cbn [filled]. split; [by rewrite lookup_app_r, Nat.sub_diag by lia|]. split; [done|]. split; [done|]. split; [done|].
        destruct i as [[[fn arg] ud] delay]. split; [|split; [done|by left]]. intros ((u & y) & Eu & Hx)%list_elem_of_fmap. destruct (lg_ran _ HL _ _ Hx) as (i0 & Hf & _). apply lookup_lt_Some in Hf. cbn in Eu. lia.
      * rewrite lookup_insert_ne by done. intros Hx%(lg_items _ HL). apply (item_mono (sys t)); [|done|exact Hx]. constructor; try done. by apply prefix_app_r.
  - destruct (answer =? 0); injection E as <- <-; log_step HL.
  - injection E as <- <-; log_step HL.
  - destruct (work_item_free id Unallocated (sys t)) as [s1| |] eqn:Ef; [|done..]. apply free_logged in Ef as ->. injection E as <- <-. free_step HL.
  - injection E as <- <-; log_step HL.
  - injection E as <- <-; log_step HL.
  - injection E as <- <-; log_step HL.
  - destruct (answer =? QD_OK) eqn:Ea; [|injection E as <- <-; log_step HL]. 2: { apply Forall_insert; [apply HL|]. by apply Z.eqb_neq. }
    unfold hand_over, read_item in E. destruct k; [|destruct (items _ !! id) as [i|]; [|done]| |]; injection E as <- <-; log_step HL.
  - injection E as <- <-; log_step HL.
  - injection E as <- <-; log_step HL.
  - destruct (work_item_free id (Refused code) (sys t)) as [s1| |] eqn:Ef; [|done..]. apply free_logged in Ef as ->. injection E as <- <-. free_step HL.
  - destruct (write_item id (with_status QD_WORK_CANCELLED) (sys t)) as [s1| |] eqn:Ew; [|done..]. apply write_logged in Ew as (i & Hi & ->). injection E as <- <-. log_step HL.
    + constructor; try done. intros x Hx. by apply elem_of_cons; right.
    + assert (grows (sys t) (set_cancels (id :: cancels (sys t)) (set_items (<[id:=with_status QD_WORK_CANCELLED i]> (items (sys t))) (sys t)))) as G by (constructor; try done; intros x Hx; by apply elem_of_cons; right).
      intros u x. cbn [items set_cancels set_items]. destruct (decide (u = id)) as [->|]; [rewrite lookup_insert_eq|rewrite lookup_insert_ne by done; intros Hx%(lg_items _ HL); by eapply item_mono].
      intros [= <-]. pose proof (item_mono _ _ id i G ltac:(done) (lg_items _ HL _ _ Hi)) as (i0 & H0 & H1 & H2 & H3 & H). exists i0. split; [done|]. split; [done|]. split; [done|]. split; [done|].
      assert (id ∈ id :: cancels (sys t)) as Hin by (by left). unfold stage_ok in *. cbn in *. destruct (it_stage i); [|done|by left]. destruct H as (? & ? & _). split; [done|]. split; [done|by right].
    + apply (loop_mono (sys t)); [|apply HL]. constructor; try done. intros x Hx. by apply elem_of_cons; right.
  - injection E as <- <-; log_step HL.
Qed.

Lemma cnt_at_id u st l : cnt (u, st) (at_ st l) = cnt u l.
Proof. induction l as [|y l IH]; [done|]. rewrite cnt_at_cons, IH. cbn. f_equal. destruct (decide (u = y)) as [->|]; [by rewrite !one_true|by rewrite !one_false by congruence]. Qed.

(** Distinct items that are claimed together are at most as many as were filled in. *)
Lemma claims_bound t st l : placed t -> (forall u, (cnt u l <= claimed (u, st) t)%nat) -> (length l <= length (filled (sys t)))%nat.
Proof.
  intros HI Hl. rewrite <- (length_seq (length (filled (sys t))) 0). apply submseteq_length, NoDup_submseteq.
  - apply cnt_nodup. intros u. specialize (Hl u). rewrite (hi_once _ _ _ _ HI) in Hl. one_cases; lia.
  - intros u Hu%cnt_elem. specialize (Hl u). destruct (claim_item HI u st) as (i & Hi & _); [lia|]. apply elem_of_seq. pose proof (item_old HI u i Hi). lia.
Qed.

Lemma send_bound t w id x : placed t -> workers t !! w = Some (WSend id x) -> (length (chan (sys t)) < length (filled (sys t)))%nat.
Proof.
  intros HI Hw. pose proof (claims_bound t Settled (id :: (chan (sys t)).*1) HI) as H. cbn [length] in H. rewrite length_fmap in H. apply H. intros u. unfold claimed.
  pose proof (total_lookup (fun pc => cnt (u, Settled) (worker_claim pc)) _ _ _ Hw) as E. cbn [worker_claim] in E. change [(id, Settled)] with (at_ Settled [id]) in E. rewrite cnt_at_id in *. cbn [cnt] in *. lia.
Qed.

(** One item changes. *)
Lemma items_write t s' id i' : logged t -> items s' = <[id := i']> (items (sys t)) -> grows (sys t) s' ->
  (forall u, u <> id -> u ∈ (runs s').*1 -> u ∈ (runs (sys t)).*1) -> item_ok s' id i' -> forall u x, items s' !! u = Some x -> item_ok s' u x.
Proof.
  intros HL Ei G HR Hi u x. rewrite Ei. destruct (decide (u = id)) as [->|Hne]; [rewrite lookup_insert_eq; by intros [= <-]|].
  rewrite lookup_insert_ne by done. intros Hx%(lg_items _ HL). apply (item_mono (sys t)); [done|by apply HR|done].
Qed.

Lemma execute_logged t w id r e pc' s' : placed t -> logged t -> workers t !! w = Some (WExecute id) -> work_item_execute r e id (sys t) = Ok (pc', s') -> logged (worker_after t w pc' s').
Proof.
  intros HI HL Hw E. item (worker_claims t w _ id Waiting HI Hw) Hi. pose proof (lg_items _ HL _ _ Hi) as (i0 & H0 & H1 & H2 & H3 & H). unfold stage_ok in H. rewrite Hs in H. destruct H as (Hr & H4 & H5).
  unfold work_item_execute, write_item, read_item in E. rewrite Hi in E. cbn [of_option obind] in E. unfold worker_after. destruct (_ || _) eqn:Eb; injection E as <- <-; log_step HL.
  - eapply items_write; [done|reflexivity|by constructor|done|]. exists i0. split; [done|]. split; [done|]. split; [done|]. split; [done|]. cbn.
    destruct H5 as [H5|H5]; [right; left|by left]. rewrite H5 in *. rewrite orb_false_r in Eb. apply Z.eqb_eq in Eb. split; [congruence|]. done.
  - constructor; try done. intros x Hx. by apply elem_of_app; left.
  - eapply items_write; [done|reflexivity|constructor; try done; intros x Hx; by apply elem_of_app; left| |].
    + intros u Hu. cbn. rewrite fmap_app, elem_of_app. intros [|Hx]; [done|]. apply list_elem_of_singleton in Hx. done.
    + exists i0. split; [done|]. split; [done|]. split; [done|]. split; [done|]. cbn. apply elem_of_app. right. by left.
  - cbn. rewrite fmap_app. apply NoDup_app. split; [apply HL|]. split; [|apply NoDup_singleton]. intros u Hu Hx. apply list_elem_of_singleton in Hx as ->. done.
  - intros x [Hx|Hx]%elem_of_app; [by left|right]. apply list_elem_of_singleton in Hx as ->. exists i0. split; [done|]. apply orb_false_iff in Eb as [Eb _]. apply Z.eqb_neq in Eb. congruence.
Qed.

Lemma worker_logged t w pc j r e pc' s' : placed t -> logged t -> workers t !! w = Some pc -> wq_worker_step j r e pc (sys t) = Ok (pc', s') -> logged (worker_after t w pc' s').
Proof.
  intros HI HL Hw E. pose proof (Forall_lookup_1 _ _ _ _ (lg_workers _ HL) Hw) as Hok. destruct pc as [|id|id e'|id|id|id|id|id st|]; cbn [wq_worker_step] in E; unfold worker_after.
  - destruct (pool (sys t) !! j) as [id|]; injection E as <- <-; log_step HL.
  - by eapply execute_logged.
  - unfold store_status in E. destruct (write_item _ _ _) as [s1| |] eqn:Ew; [|done..]. apply write_logged in Ew as (i & Hi & ->). injection E as <- <-. log_step HL.
    eapply items_write; [done|reflexivity|by constructor|done|]. destruct (worker_claims t w _ id (Ran e') HI Hw) as (i1 & Hi1 & Hs1); [by left|]. rewrite Hi in Hi1. injection Hi1 as <-.
    pose proof (lg_items _ HL _ _ Hi) as (i0 & H0 & H1 & H2 & H3 & H). exists i0. split; [done|]. split; [done|]. split; [done|]. split; [done|]. unfold stage_ok in H. rewrite Hs1 in H. cbn. right. right. by exists e'.
  - destruct (draining (wq (sys t))) eqn:Ed; injection E as <- <-; log_step HL.
  - injection E as <- <-; log_step HL.
  - destruct (work_item_free id Drained (sys t)) as [s1| |] eqn:Ef; [|done..]. apply free_logged in Ef as ->. injection E as <- <-. free_step HL.
  - unfold read_item in E. destruct (items _ !! id) as [i|]; [|done]. injection E as <- <-; log_step HL.
  - unfold send_result in E. destruct (Nat.ltb_spec (length (chan (sys t))) WQ_CHANNEL_CAPACITY); injection E as <- <-; log_step HL. right. cbn. pose proof (send_bound _ _ _ _ HI Hw). lia.
  - injection E as <- <-; log_step HL.
Qed.

Lemma status_set r e : work_status r e <> QD_WORK_CANCELLED.
Proof. unfold work_status. by destruct (_ && _). Qed.

(** What a settled item has in store. *)
Lemma settled_item t id i : logged t -> items (sys t) !! id = Some i -> it_stage i = Settled ->
  exists i0, filled (sys t) !! id = Some i0 /\ user_data i = user_data i0 /\ delay_ms i = delay_ms i0 /\
    if status i =? QD_WORK_CANCELLED then id ∈ cancels (sys t) else reported (runs (sys t)) id i0 (result i) (status i).
Proof.
  intros HL Hi Hs. destruct (lg_items _ HL _ _ Hi) as (i0 & H0 & _ & H2 & H3 & H). unfold stage_ok in H. rewrite Hs in H. exists i0. split; [done|]. split; [done|]. split; [done|].
  destruct (Z.eqb_spec (status i) QD_WORK_CANCELLED) as [E|E]; [|destruct H as [[? _]|H]; done]. destruct H as [[_ H]|[(_ & _ & H)|(e & _ & H)]]; [done|by rewrite H in E|]. by destruct (status_set (result i) e); congruence.
Qed.

Lemma called_free u id f l back : called u (LFree id f l back) = one ((u, Completed) = (id, f)).
Proof.
  cbn. destruct f; try (by rewrite one_false by congruence). destruct (decide (u = id)) as [->|]; [by rewrite !one_true|by rewrite !one_false by congruence].
Qed.

Ltac loop_quiet HL El := log_step HL; try (intros u; etransitivity; [exact (lg_once _ HL u)|rewrite El; reflexivity]).

Lemma complete_logged t id st l back pc' s' : placed t -> logged t -> loop t = LItems ((id, st) :: l) back -> complete_item id l back (sys t) = Ok (pc', s') -> logged (loop_after t pc' s').
Proof.
  intros HI HL El E. destruct (loop_claims t id Settled HI) as (i & Hi & Hs); [rewrite El; by left|]. destruct (settled_item t id i HL Hi Hs) as (i0 & H0 & Hu & Hd & Hst).
  unfold complete_item, read_item in E. rewrite Hi in E. cbn [of_option obind] in E. unfold loop_after. destruct (Z.ltb_spec 0 (delay_ms i)) as [Hdel|_].
  { injection E as <- <-. loop_quiet HL El. intros u [->|Hx]%elem_of_cons; [right|by left]. exists i0. split; [done|lia]. }
  destruct (status i =? QD_WORK_CANCELLED); [injection E as <- <-; loop_quiet HL El; split; [done|tauto]|].
  destruct (on_complete (wq (sys t))) eqn:Eo; injection E as <- <-; loop_quiet HL El; try (split; [done|tauto]).
  - intros x [Hx|Hx]%elem_of_app; [by left|right]. apply list_elem_of_singleton in Hx as ->. by exists i0.
  - intros u. cbn. rewrite fmap_app, cnt_app, (lg_once _ HL u), El. cbn. lia.
Qed.

Lemma loop_logged t ev n answer pc' s' : placed t -> logged t -> wq_loop_step ev n answer (loop t) (sys t) = Ok (pc', s') -> logged (loop_after t pc' s').
Proof.
  intros HI HL E. pose proof (lg_loop _ HL) as Hok. destruct (loop t) as [|back|[|[id st] l] back|id f l back|l back|back|back|id|id|id|id| | |] eqn:El; cbn [wq_loop_step] in E; unfold loop_after.
  - destruct ev as [|j|]; [|destruct (timers (sys t) !! j) as [[id ms]|]|]; injection E as <- <-; loop_quiet HL El.
  - injection E as <- <-. destruct (take _ _); loop_quiet HL El.
  - injection E as <- <-; loop_quiet HL El.
  - by eapply complete_logged.
  - destruct (work_item_free id f (sys t)) as [s1| |] eqn:Ef; [|done..]. apply free_logged in Ef as ->. injection E as <- <-. destruct Hok as [Hf _]. apply logged_free; quiet HL; try done. intros u. rewrite El, called_free. cbn. lia.
  - injection E as <- <-; loop_quiet HL El.
  - injection E as <- <-; loop_quiet HL El.
  - injection E as <- <-. destruct (chan (sys t)), back; loop_quiet HL El.
  - destruct (answer =? QD_OK); injection E as <- <-; loop_quiet HL El.
  - injection E as <- <-; loop_quiet HL El.
  - injection E as <- <-; loop_quiet HL El.
  - destruct (work_item_free id Dropped (sys t)) as [s1| |] eqn:Ef; [|done..]. apply free_logged in Ef as ->. injection E as <- <-. apply logged_free; quiet HL; try done. intros u. rewrite El. cbn. rewrite one_false by congruence. done.
  - injection E as <- <-; loop_quiet HL El.
  - injection E as <- <-. destruct (0 <? _); loop_quiet HL El.
  - injection E as <- <-; loop_quiet HL El.
Qed.
