(* ===== verification/WorkqueueFacts.v ===== *)
(** * What the work queue promises

    Under every interleaving: accepted work runs once and completes once, the counters come
    back to zero, destroying the queue leaves nothing behind; and where the code breaks the
    promise. *)

From S2P Require Import Prelude Common Workqueue WorkqueueSafe.

Record wq_inv (t : threads) : Prop := { wi_placed : placed t; wi_counted : counted t; wi_logged : logged t }.

(** A cancellation through a handle whose item was freed. *)
Definition late_cancel (a : action) (t : threads) : Prop :=
  exists c answer id, a = AClient c answer /\ clients t !! c = Some (CCancel id) /\ items (sys t) !! id = None.

Lemma wq_start_inv t c x pc : wq_inv t -> clients t !! c = Some pc -> returned pc = true -> wq_inv (mkThreads (sys t) (<[c := start_call x (wq (sys t))]> (clients t)) (workers t) (loop t)).
Proof.
  intros [HI HC HL] Hc Hr. destruct pc as [| | | | | | | | | |z]; try done. set (pc' := start_call x (wq (sys t))).
  assert (client_ids pc' = [] /\ client_pends pc' = 0%nat /\ client_flies pc' = 0%nat /\ client_ok pc') as (E1 & E2 & E3 & E4).
  { unfold pc'. destruct x as [| | | | |[id|]]; try done. cbn. unfold qd_workqueue_submit_batch. by destruct (_ <=? _). }
  constructor.
  - apply (heap_same HI). intros y. unfold claimed. cbn [sys clients workers loop]. pose proof (total_insert (fun pc => cnt y (at_ Waiting (client_ids pc))) _ _ _ pc' Hc) as E. cbn beta in E. rewrite E1 in E. cbn in E. lia.
  - destruct HC as [H1 H2]. constructor; cbn [sys]; [rewrite H1|rewrite H2]; do 2 f_equal; unfold pends, flies; cbn [sys clients workers loop].
    + pose proof (total_insert client_pends _ _ _ pc' Hc) as E. rewrite E2 in E. cbn in E. lia.
    + pose proof (total_insert client_flies _ _ _ pc' Hc) as E. rewrite E3 in E. cbn in E. lia.
  - log_step HL.
Qed.

Lemma wq_step_inv a t : wq_inv t -> match wq_step a t with Ok t' => wq_inv t' | Undef => late_cancel a t | Fuel => False end.
Proof.
  intros H. pose proof H as [HI HC HL]. destruct a as [c x|c answer|w j r e|ev n answer]; cbn [wq_step].
  - destruct (clients t !! c) as [pc|] eqn:Hc; [|done]. destruct pc; try done. destruct (in_use _ _); [|done]. by eapply wq_start_inv.
  - destruct (clients t !! c) as [pc|] eqn:Hc; [|done]. pose proof (client_placed t c pc answer HI Hc) as Hp. destruct (wq_client_step answer pc (sys t)) as [[pc' s']| |] eqn:E; cbn [obind].
    + constructor; [done|by eapply client_counted|by eapply client_logged].
    + destruct Hp as (id & -> & Hid). by exists c, answer, id.
    + done.
  - destruct (workers t !! w) as [pc|] eqn:Hw; [|done]. destruct (worker_placed t w pc j r e HI Hw) as (pc' & s' & E & Hp). rewrite E. cbn [obind].
    constructor; [done|by eapply worker_counted|by eapply worker_logged].
  - destruct (loop_placed t ev n answer HI) as (pc' & s' & E & Hp).
    assert (wq_inv (loop_after t pc' s')) as Hl.
    { constructor; [done| |by eapply loop_logged]. eapply loop_counted; [done| |done]. pose proof (lg_loop _ HL) as Hok. destruct (loop t); try done. destruct Hok as [_ [->|[->| ->]]]; done. }
    destruct ev; [| |destruct (negb _); [done|]]; rewrite E; exact Hl.
Qed.

Definition reached (cb : bool) (arg : Z) (c w : nat) (t : threads) : Prop := exists acts, wq_run acts (qd_workqueue_create cb arg c w) = Ok t.

Lemma wq_create_inv cb arg c w : wq_inv (qd_workqueue_create cb arg c w).
Proof.
  assert (forall f : client_pc -> nat, f (CReturn 0) = 0%nat -> total f (replicate c (CReturn 0)) = 0%nat) as Tc by (intros f Hf; apply total_zero; by apply Forall_replicate).
  assert (forall f : wq_worker_pc -> nat, f WIdle = 0%nat -> total f (replicate w WIdle) = 0%nat) as Tw by (intros f Hf; apply total_zero; by apply Forall_replicate).
  constructor.
  - constructor; [|done]. intros x. unfold claimed. cbn [sys clients workers loop qd_workqueue_create pool timers chan lost parked loop_claim items]. rewrite Tc, Tw by done. rewrite lookup_empty. by rewrite one_false.
  - constructor; unfold pends, flies; cbn [sys clients workers loop qd_workqueue_create wq pending inflight pool timers chan lost parked gone]; by rewrite Tc, Tw.
  - constructor; cbn [sys clients workers loop qd_workqueue_create items runs calls gone parked lost filled]; try done.
    + constructor.
    + by intros id x ?%not_elem_of_nil.
    + by intros id r st ud ?%not_elem_of_nil.
    + by intros id f ?%not_elem_of_nil.
    + by apply Forall_replicate.
    + by apply Forall_replicate.
    + by intros id ?%not_elem_of_nil.
Qed.

Lemma wq_run_inv acts : forall t, wq_inv t ->
  match wq_run acts t with
  | Ok t' => wq_inv t'
  | Undef => exists pre a post t', acts = pre ++ a :: post /\ wq_run pre t = Ok t' /\ late_cancel a t'
  | Fuel => False
  end.
Proof.
  induction acts as [|a acts IH]; intros t H; cbn [wq_run]; [done|]. pose proof (wq_step_inv a t H) as Hs. destruct (wq_step a t) as [t1| |] eqn:E; cbn [obind]; [|by exists [], a, acts, t|done].
  specialize (IH t1 Hs). destruct (wq_run acts t1); [done| |done]. destruct IH as (pre & b & post & t' & -> & Hr & Hl). exists (a :: pre), b, post, t'. split; [done|]. split; [|done]. cbn [wq_run]. by rewrite E.
Qed.

Lemma reached_inv cb arg c w t : reached cb arg c w t -> wq_inv t.
Proof. intros [acts E]. pose proof (wq_run_inv acts _ (wq_create_inv cb arg c w)) as H. by rewrite E in H. Qed.

(** ** Exactly once *)

(** Nothing is under way. *)
Record idle (t : threads) : Prop := {
  id_clients : Forall (fun pc => returned pc = true) (clients t);
  id_workers : Forall (fun pc => pc = WIdle) (workers t);
  id_loop : loop t = LIdle;
  id_lists : pool (sys t) = [] /\ timers (sys t) = [] /\ chan (sys t) = []
}.

Lemma idle_claims t x : idle t -> claimed x t = (cnt x (at_ Settled (lost (sys t))) + cnt x (at_ Settled (parked (sys t))))%nat.
Proof.
  intros [H1 H2 H3 (E1 & E2 & E3)]. unfold claimed. rewrite E1, E2, E3, H3. rewrite !total_zero.
  - done.
  - eapply Forall_impl; [exact H2|]. by intros pc ->.
  - eapply Forall_impl; [exact H1|]. by intros [].
Qed.

Lemma idle_pends t : idle t -> pends t = (length (lost (sys t)) + length (parked (sys t)) + drained (gone (sys t)))%nat.
Proof.
  intros [H1 H2 H3 (E1 & E2 & E3)]. unfold pends. rewrite E1, E2, E3, H3. rewrite !total_zero.
  - done.
  - eapply Forall_impl; [exact H2|]. by intros pc ->.
  - eapply Forall_impl; [exact H1|]. by intros [].
Qed.

(** Every item was freed, or is one of those that were lost or skipped. *)
Lemma idle_item t id : wq_inv t -> idle t -> (id < length (filled (sys t)))%nat -> (exists f, (id, f) ∈ gone (sys t)) \/ id ∈ lost (sys t) \/ id ∈ parked (sys t).
Proof.
  intros [HI _ _] Hid Hlt. pose proof (hi_gone _ _ _ _ HI id) as Hg. rewrite (one_true (id < _)%nat) in Hg by done. destruct (items (sys t) !! id) as [i|] eqn:Ei.
  - right. pose proof (hi_once _ _ _ _ HI (id, it_stage i)) as Ho. cbn in Ho. rewrite one_true in Ho by (by rewrite Ei). rewrite (idle_claims t _ Hid) in Ho.
    destruct (decide (it_stage i = Settled)) as [Es|Es].
    + rewrite Es in Ho. rewrite !cnt_at_id in Ho. destruct (decide (0 < cnt id (lost (sys t)))%nat); [left; by apply cnt_elem|right; apply cnt_elem; lia].
    + assert (forall l, cnt (id, it_stage i) (at_ Settled l) = 0%nat) as Hz; [|rewrite !Hz in Ho; lia]. intros l. induction l as [|y l IH]; [done|]. rewrite cnt_at_cons, IH. rewrite one_false; [done|congruence].
  - left. rewrite (one_false (is_Some _)) in Hg by (by intros [? ?]). assert (id ∈ (gone (sys t)).*1) as Hin by (apply cnt_elem; lia). apply list_elem_of_fmap in Hin as ([u f] & -> & Hin). by exists f.
Qed.

Lemma gone_once t id f : wq_inv t -> (id, f) ∈ gone (sys t) -> cnt (id, f) (gone (sys t)) = 1%nat /\ forall f', f' <> f -> cnt (id, f') (gone (sys t)) = 0%nat.
Proof.
  intros [HI _ _] H. pose proof (hi_gone _ _ _ _ HI id) as Hg. assert (cnt id (gone (sys t)).*1 <= 1)%nat as Hle by (one_cases; lia). clear Hg HI. revert H Hle. generalize (gone (sys t)). clear.
  induction l as [|[u g] l IH]; [by intros ?%not_elem_of_nil|]. intros [Heq|H]%elem_of_cons; cbn [cnt fmap list_fmap fst].
  - injection Heq as <- <-. rewrite one_true by done. intros Hle. assert (forall f', cnt (id, f') l = 0%nat) as Hz.
    { intros f'. destruct (cnt (id, f') l) eqn:E; [done|]. assert ((id, f') ∈ l) as Hin by (apply cnt_elem; lia). assert (0 < cnt id l.*1)%nat; [|lia]. apply cnt_elem, list_elem_of_fmap. by exists (id, f'). }
    rewrite one_true, Hz by done. split; [done|]. intros f' Hf'. rewrite one_false, Hz by congruence. done.
  - intros Hle. assert (0 < cnt id l.*1)%nat by (apply cnt_elem, list_elem_of_fmap; by exists (id, f)). destruct (one_case (id = u)) as [[E _]|[E Hne]]; [lia|]. destruct IH as [IH1 IH2]; [done|lia|].
    rewrite one_false, IH1 by congruence. split; [done|]. intros f' Hf'. rewrite one_false, IH2 by congruence. done.
Qed.

Lemma called_gone t : idle t -> forall id, called id (loop t) = 0%nat.
Proof. intros H id. by rewrite (id_loop _ H). Qed.

(** The submitter was told, or the pool had no room when the timer came. *)
Definition refused (s : system) (id : nat) : Prop :=
  exists f, (id, f) ∈ gone s /\ (f = Unallocated \/ f = Dropped \/ exists code, f = Refused code /\ code <> QD_OK).

(** What became of an item when nothing is under way. *)
Definition outcome_of (s : system) (id : nat) : Prop :=
  cnt id (call_id <$> calls s) = 1%nat \/ refused s id \/ id ∈ cancels s \/ on_complete (wq s) = false \/ draining (wq s) = true \/
  (id ∈ lost s /\ (WQ_CHANNEL_CAPACITY < length (filled s))%nat) \/ (exists i0, filled s !! id = Some i0 /\ 0 < delay_ms i0).

Lemma idle_outcome t id : wq_inv t -> idle t -> (id < length (filled (sys t)))%nat -> outcome_of (sys t) id.
Proof.
  intros H Hid Hlt. pose proof H as [_ _ HL]. destruct (idle_item t id H Hid Hlt) as [[f Hf]|[Hl|Hp]].
  - pose proof (lg_fates _ HL _ _ Hf) as Hok. destruct (gone_once t id f H Hf) as [H1 _]. unfold outcome_of. destruct f; cbn in Hok.
    + left. rewrite (lg_once _ HL), called_gone, H1 by done. done.
    + do 3 right. by left.
    + do 2 right. by left.
    + do 4 right. by left.
    + right. left. eexists. split; [exact Hf|]. right. right. by exists code.
    + right. left. eexists. split; [exact Hf|]. by left.
    + right. left. eexists. split; [exact Hf|]. by right; left.
  - do 5 right. left. split; [done|]. apply HL. intros E. rewrite E in Hl. by apply not_elem_of_nil in Hl.
  - do 6 right. by apply HL.
Qed.

Lemma calls_nodup t : wq_inv t -> NoDup (call_id <$> calls (sys t)).
Proof.
  intros H. pose proof H as [HI _ HL]. apply cnt_nodup. intros id. rewrite (lg_once _ HL). destruct (decide ((id, Completed) ∈ gone (sys t))) as [Hg|Hg].
  - destruct (gone_once t id Completed H Hg) as [-> _]. assert (called id (loop t) = 0)%nat; [|lia]. destruct (loop t) as [| | |u f l back| | | | | | | | | |] eqn:El; try done. rewrite called_free.
    apply one_false. intros [= -> <-]. destruct (loop_claims t u Settled HI) as (i & Hi & _); [rewrite El; by left|]. pose proof (item_old HI u i Hi) as [_ Ho].
    assert (0 < cnt u (gone (sys t)).*1)%nat; [|lia]. apply cnt_elem, list_elem_of_fmap. by exists (u, Completed).
  - assert (cnt (id, Completed) (gone (sys t)) = 0%nat) as ->. { destruct (cnt _ _) eqn:E; [done|]. destruct Hg. apply cnt_elem. lia. }
    destruct (loop t); cbn; try lia. destruct f; try lia. one_cases; lia.
Qed.

Lemma idle_flies t : idle t -> flies t = 0%nat.
Proof.
  intros [H1 H2 H3 (E1 & E2 & E3)]. unfold flies. rewrite E1, E2, H3. rewrite !total_zero; [done| |].
  - eapply Forall_impl; [exact H2|]. by intros pc ->.
  - eapply Forall_impl; [exact H1|]. by intros [].
Qed.

Lemma drained_none t : logged t -> draining (wq (sys t)) = false -> drained (gone (sys t)) = 0%nat.
Proof.
  intros HL Hd. apply total_zero. apply Forall_forall. intros [id f] Hf. apply one_false. cbn. intros ->. pose proof (lg_fates _ HL _ _ Hf) as H. cbn in H. congruence.
Qed.

Lemma idle_clean t : wq_inv t -> idle t -> (length (filled (sys t)) <= WQ_CHANNEL_CAPACITY)%nat -> (forall i0, i0 ∈ filled (sys t) -> delay_ms i0 <= 0) -> draining (wq (sys t)) = false ->
  items (sys t) = ∅ /\ pending (wq (sys t)) = 0 /\ inflight (wq (sys t)) = 0.
Proof.
  intros H Hid Hn Hd Hdr. pose proof H as [HI HC HL].
  assert (lost (sys t) = []) as El. { destruct (lost (sys t)) eqn:E; [done|]. pose proof (lg_lost _ HL) as Hl. rewrite E in Hl. specialize (Hl ltac:(done)). lia. }
  assert (parked (sys t) = []) as Ep. { destruct (parked (sys t)) as [|id l] eqn:E; [done|]. destruct (lg_parked _ HL id) as (i0 & Hf & H0); [rewrite E; by left|]. apply list_elem_of_lookup_2 in Hf. apply Hd in Hf. lia. }
  split; [|split].
  - apply map_empty. intros id. destruct (items (sys t) !! id) as [i|] eqn:Ei; [|done]. pose proof (hi_once _ _ _ _ HI (id, it_stage i)) as Ho. cbn in Ho. rewrite one_true in Ho by (by rewrite Ei). rewrite (idle_claims t _ Hid), El, Ep in Ho. done.
  - rewrite (ct_pending _ HC), idle_pends, El, Ep, drained_none by done. done.
  - rewrite (ct_inflight _ HC), idle_flies by done. done.
Qed.

(** C37: Under every interleaving of any clients, workers and the loop, with any answers of
    the allocator, pool and channel: the only undefined access is a cancellation through a
    handle whose item was already completed and freed; else no work function runs twice for
    an item and no callback is called twice; every callback gets the user data of its item
    with the result that its work returned and the status that result and errno give (0 and
    OK for a NULL function).  When nothing is under way, every item was called back exactly
    once unless the submission was refused, it was cancelled, there is no callback, the
    queue is being destroyed, it was delayed work, or more than 4096 items overran the
    channel; and without the last four, nothing is left: no item, and pending and inflight
    are zero. *)
Theorem work_completes_once cb arg c w acts :
  match wq_run acts (qd_workqueue_create cb arg c w) with
  | Ok t =>
    NoDup (runs (sys t)).*1 /\ NoDup (call_id <$> calls (sys t)) /\
    (forall id r st ud, (id, r, st, ud) ∈ calls (sys t) -> exists i0, filled (sys t) !! id = Some i0 /\ ud = user_data i0 /\ reported (runs (sys t)) id i0 r st) /\
    (idle t -> (forall id, (id < length (filled (sys t)))%nat -> outcome_of (sys t) id) /\
      ((length (filled (sys t)) <= WQ_CHANNEL_CAPACITY)%nat -> (forall i0, i0 ∈ filled (sys t) -> delay_ms i0 <= 0) -> draining (wq (sys t)) = false ->
       items (sys t) = ∅ /\ pending (wq (sys t)) = 0 /\ inflight (wq (sys t)) = 0))
  | Undef => exists pre a post t, acts = pre ++ a :: post /\ wq_run pre (qd_workqueue_create cb arg c w) = Ok t /\ late_cancel a t
  | Fuel => False
  end.
Proof.
  pose proof (wq_run_inv acts _ (wq_create_inv cb arg c w)) as H. destruct (wq_run acts _) as [t| |]; [|done..]. split; [apply H|]. split; [by apply calls_nodup|]. split; [apply H|].
  intros Hid. split; [intros id; by apply idle_outcome|]. intros Hn Hd Hdr. by apply idle_clean.
Qed.

(** ** Destruction *)

(** How far qd_workqueue_destroy is. *)
Definition progress (pc : loop_pc) : nat :=
  match pc with
  | LUnwatched => 1
  | LWait => 2
  | LReceive Destroy | LItems _ Destroy | LFree _ _ _ Destroy | LPending _ Destroy | LAck Destroy | LSize Destroy => 3
  | LGone => 4
  | _ => 0
  end.

Record closing (t : threads) : Prop := {
  cg_clients : (1 <= progress (loop t))%nat -> Forall (fun pc => returned pc = true) (clients t);
  cg_draining : (2 <= progress (loop t))%nat -> draining (wq (sys t)) = true;
  cg_flies : (3 <= progress (loop t))%nat -> flies t = 0%nat;
  cg_chan : (4 <= progress (loop t))%nat -> chan (sys t) = []
}.

(** The counter inflight does not wrap. *)
Definition small (t : threads) : Prop := Z.of_nat (length (filled (sys t)) + length (workers t)) < 2 ^ 31.

Definition flying (pc : client_pc) : list nat :=
  match pc with
  | CCall _ ids _ _ | CUndoFree _ _ ids _ _ => ids
  | CUndoPending _ id ids _ _ | CUndoInflight _ id ids _ _ => id :: ids
  | _ => []
  end.
Definition timed (pc : loop_pc) : list nat := match pc with LTimeout id | LUndoPending id | LUndoInflight id => [id] | _ => [] end.

Lemma cnt_concat u (l : list client_pc) : cnt u (concat (flying <$> l)) = total (fun pc => cnt u (flying pc)) l.
Proof. induction l as [|pc l IH]; [done|]. cbn. rewrite cnt_app, IH. done. Qed.

Lemma length_flying l : length (concat (flying <$> l)) = total client_flies l.
Proof. induction l as [|pc l IH]; [done|]. cbn. rewrite length_app, IH. f_equal. by destruct pc. Qed.

Lemma total_le {A} (f g : A -> nat) l : (forall x, f x <= g x)%nat -> (total f l <= total g l)%nat.
Proof. intros H. induction l as [|x l IH]; [done|]. simpl. specialize (H x). lia. Qed.

Lemma flies_bound t : placed t -> (flies t <= length (filled (sys t)) + length (workers t))%nat.
Proof.
  intros HI. pose proof (claims_bound t Waiting (concat (flying <$> clients t) ++ pool (sys t) ++ (timers (sys t)).*1 ++ timed (loop t)) HI) as H.
  rewrite !length_app, length_flying, length_fmap in H. assert (total worker_flies (workers t) <= length (workers t))%nat.
  { clear. induction (workers t) as [|pc l IH]; [done|]. simpl. destruct pc; simpl; lia. }
  assert (length (timed (loop t)) = loop_flies (loop t)) as El by (by destruct (loop t)). rewrite El in H. unfold flies. lapply H; [lia|]. intros u. rewrite !cnt_app, cnt_concat. unfold claimed. rewrite !cnt_at_id.
  assert (total (fun pc => cnt u (flying pc)) (clients t) <= total (fun pc => cnt (u, Waiting) (at_ Waiting (client_ids pc))) (clients t))%nat.
  { apply total_le. intros pc. rewrite cnt_at_id. destruct pc; cbn; lia. }
  assert (cnt u (timed (loop t)) <= cnt (u, Waiting) (loop_claim (loop t)))%nat by (destruct (loop t); cbn [timed loop_claim]; rewrite ?cnt_at_id; cbn; lia). lia.
Qed.

Lemma inflight_zero t : wq_inv t -> small t -> (0 <? inflight (wq (sys t))) = false -> flies t = 0%nat.
Proof.
  intros [HI HC _] Hs E. pose proof (flies_bound t HI). unfold small in Hs. rewrite (ct_inflight _ HC), i32_small in E by lia. apply Z.ltb_ge in E. lia.
Qed.

Lemma flies_worker t w pc : flies t = 0%nat -> workers t !! w = Some pc -> worker_flies pc = 0%nat /\ pool (sys t) = [] /\ timers (sys t) = [].
Proof.
  intros H Hw. unfold flies in H. pose proof (total_lookup worker_flies _ _ _ Hw). split; [lia|]. split; apply nil_length_inv; lia.
Qed.

Lemma worker_keeps j r e pc s pc' s' : wq_worker_step j r e pc s = Ok (pc', s') -> draining (wq s') = draining (wq s) /\ timers s' = timers s.
Proof.
  intros E. destruct pc; cbn [wq_worker_step] in E; unfold work_item_execute, store_status, write_item, work_item_free, read_item, send_result in E;
    try destruct (items s !! id); cbn [of_option obind] in E; repeat case_match; simplify_eq; done.
Qed.

Lemma closing_worker t w pc j r e pc' s' : closing t -> workers t !! w = Some pc -> wq_worker_step j r e pc (sys t) = Ok (pc', s') -> closing (worker_after t w pc' s').
Proof.
  intros [C1 C2 C3 C4] Hw E. destruct (worker_keeps _ _ _ _ _ _ _ E) as [Ed _]. assert ((3 <= progress (loop t))%nat -> flies (worker_after t w pc' s') = 0%nat /\ chan s' = chan (sys t)) as Hk.
  { intros Hp. pose proof (C3 Hp) as Hf. destruct (flies_worker t w pc Hf Hw) as (Hz & Ep & _). unfold flies in *. cbn [worker_after sys clients workers loop].
    pose proof (total_insert worker_flies _ _ _ pc' Hw) as Ei. destruct pc; try done; cbn [wq_worker_step] in E.
    - rewrite Ep in E. cbn in E. injection E as <- <-. cbn [worker_flies] in Ei. split; [lia|done].
    - unfold work_item_free, read_item in E. destruct (items (sys t) !! id); [|done]. injection E as <- <-. cbn in *. split; [lia|done]. }
  constructor; cbn [worker_after sys clients workers loop] in *; [done|intros; rewrite Ed; auto|intros Hp; by apply Hk|intros Hp; destruct Hk as [_ ->]; [lia|auto]].
Qed.

(** After a step of the loop that hands no item over. *)
Lemma closing_move t pc' s' : closing t -> pool s' = pool (sys t) -> timers s' = timers (sys t) -> loop_flies pc' = loop_flies (loop t) -> draining (wq s') = draining (wq (sys t)) ->
  (progress pc' <= progress (loop t) \/ progress pc' = 4)%nat -> (progress pc' = 4 -> 3 <= progress (loop t) /\ chan s' = [])%nat -> closing (loop_after t pc' s').
Proof.
  intros [C1 C2 C3 C4] E1 E2 E3 E4 Hp H4. assert (flies (loop_after t pc' s') = flies t) as Ef by (unfold flies; cbn; by rewrite E1, E2, E3).
  constructor; cbn [loop_after sys clients workers loop]; intros H.
  - apply C1. lia.
  - rewrite E4. apply C2. lia.
  - rewrite Ef. apply C3. lia.
  - assert (progress pc' <= 4)%nat by (destruct pc'; try (destruct back); cbn; lia). apply H4. lia.
Qed.

Lemma closing_loop t ev n answer pc' s' : wq_inv t -> small t -> closing t -> (ev = EDestroy -> Forall (fun pc => returned pc = true) (clients t)) ->
  wq_loop_step ev n answer (loop t) (sys t) = Ok (pc', s') -> closing (loop_after t pc' s').
Proof.
  intros H Hs HK Hev E.
  destruct (loop t) as [|back|[|[id st] l] back|id f l back|l back|back|back|id|id|id|id| | |] eqn:El; cbn [wq_loop_step] in E.
  - destruct ev as [|j|]; [|destruct (timers (sys t) !! j) as [[id ms]|]|]; injection E as <- <-; constructor; cbn; intros; try lia. by apply Hev.
  - injection E as <- <-. apply closing_move; try done; rewrite ?El; destruct (take _ _); try done; destruct back; cbn; lia.
  - injection E as <- <-. apply closing_move; try done; rewrite ?El; destruct back; cbn; lia.
  - unfold complete_item, read_item in E. destruct (items _ !! id) as [i|]; [|done]. cbn [of_option obind] in E. repeat case_match; simplify_eq; apply closing_move; try done; rewrite ?El; destruct back; cbn; lia.
  - destruct (work_item_free id f (sys t)) as [s1| |] eqn:Ef; [|done..]. apply free_logged in Ef as ->. injection E as <- <-. apply closing_move; try done; rewrite ?El; destruct back; cbn; lia.
  - injection E as <- <-. apply closing_move; try done; rewrite ?El; destruct back; cbn; lia.
  - injection E as <- <-. apply closing_move; try done; rewrite ?El; destruct back; cbn; lia.
  - injection E as <- <-. apply closing_move; rewrite ?El; try done; destruct (chan (sys t)), back; cbn; done || lia.
  - destruct (answer =? QD_OK); injection E as <- <-; constructor; cbn; intros; lia.
  - injection E as <- <-; constructor; cbn; intros; lia.
  - injection E as <- <-; constructor; cbn; intros; lia.
  - destruct (work_item_free id Dropped (sys t)) as [s1| |] eqn:Ef; [|done..]. injection E as <- <-. constructor; cbn; intros; lia.
  - injection E as <- <-. destruct HK as [C1 _ _ _]. rewrite El in C1. constructor; cbn; intros; [apply C1; cbn; lia|done|lia|lia].
  - destruct (0 <? inflight (wq (sys t))) eqn:Ei; injection E as <- <-; [apply closing_move; try done; rewrite ?El; cbn; lia|].
    pose proof (inflight_zero t H Hs Ei) as Hf. destruct HK as [C1 C2 _ _]. rewrite El in C1, C2. constructor; cbn [loop_after progress sys clients loop]; intros; try lia; [apply C1; cbn; lia|apply C2; cbn; lia|].
    unfold flies in *. rewrite El in Hf. exact Hf.
  - injection E as <- <-. apply closing_move; try done; rewrite ?El; cbn; try lia. intros _. split; [lia|]. apply HK. rewrite El. cbn. lia.
Qed.

Lemma closing_step a t t' : wq_inv t -> small t -> closing t -> wq_step a t = Ok t' -> closing t'.
Proof.
  intros H Hs HK E. pose proof HK as [C1 C2 C3 C4]. destruct a as [c x|c answer|w j r e|ev n answer]; cbn [wq_step] in E.
  - destruct (clients t !! c) as [pc|] eqn:Hc; [|by injection E as <-]. destruct pc; try (by injection E as <-). destruct (in_use (loop t) (wq (sys t))) eqn:Eu; [|by injection E as <-]. injection E as <-.
    destruct (decide (progress (loop t) = 0%nat)) as [E0|E0]; [constructor; cbn; rewrite E0; lia|]. unfold in_use in Eu. destruct (decide (progress (loop t) = 1%nat)) as [E1|E1].
    + destruct (loop t) as [|[]|? []|? ? ? []|? []|[]|[]| | | | | | |]; done.
    + rewrite C2 in Eu by lia. by destruct (loop t).
  - destruct (clients t !! c) as [pc|] eqn:Hc; [|by injection E as <-]. destruct (decide (progress (loop t) = 0%nat)) as [E0|E0].
    + destruct (wq_client_step answer pc (sys t)) as [[pc' s']| |]; [|done..]. injection E as <-. constructor; cbn; rewrite E0; lia.
    + assert (returned pc = true) as Hr by (eapply (Forall_lookup_1 _ _ _ _ (C1 ltac:(lia))); exact Hc). destruct pc; try done. injection E as <-. rewrite list_insert_id by done. by destruct t.
  - destruct (workers t !! w) as [pc|] eqn:Hw; [|by injection E as <-]. destruct (wq_worker_step j r e pc (sys t)) as [[pc' s']| |] eqn:Es; [|done..]. injection E as <-. by eapply closing_worker.
  - assert (forall pc' s', wq_loop_step ev n answer (loop t) (sys t) = Ok (pc', s') -> (ev = EDestroy -> forallb returned (clients t) = true) -> closing (loop_after t pc' s')) as Hl.
    { intros pc' s' El Hev. eapply closing_loop; try done. intros ->. apply Forall_forall. intros pc Hpc. specialize (Hev eq_refl). rewrite forallb_forall in Hev. apply Hev. by apply list_elem_of_In. }
    destruct ev; [| |destruct (forallb returned (clients t)) eqn:Ec; cbn [negb] in E; [|by injection E as <-]]; (destruct (wq_loop_step _ _ _ _ _) as [[pc' s']| |] eqn:El; [|done..]); injection E as <-; by apply Hl.
Qed.

Lemma filled_step a t t' : wq_step a t = Ok t' -> (length (filled (sys t)) <= length (filled (sys t')))%nat /\ length (workers t') = length (workers t).
Proof.
  intros E. destruct a as [c x|c answer|w j r e|ev n answer]; cbn [wq_step] in E.
  - repeat case_match; simplify_eq; done.
  - destruct (clients t !! c) as [pc|]; [|by injection E as <-]. destruct (wq_client_step answer pc (sys t)) as [[pc' s']| |] eqn:Es; [|done..]. injection E as <-. split; [|done].
    destruct pc as [k done [|i todo]|id|k [|id ids]|k ids|k ids|k [|id ids] n code|k id ids n code|k id ids n code|k id ids n code|id|x]; cbn [wq_client_step] in Es; unfold hand_over, write_item, work_item_alloc, work_item_free, read_item in Es;
      try destruct (items (sys t) !! id) eqn:?; repeat first [progress cbn [of_option obind] in Es | case_match]; simplify_eq; cbn; rewrite ?length_app; cbn; lia.
  - destruct (workers t !! w) as [pc|]; [|by injection E as <-]. destruct (wq_worker_step j r e pc (sys t)) as [[pc' s']| |] eqn:Es; [|done..]. injection E as <-. cbn. rewrite length_insert. split; [|done].
    destruct pc; cbn [wq_worker_step] in Es; unfold work_item_execute, store_status, write_item, work_item_free, read_item, send_result in Es; try destruct (items (sys t) !! id); cbn [of_option obind] in Es; repeat case_match; simplify_eq; cbn; lia.
  - assert (forall pc' s', wq_loop_step ev n answer (loop t) (sys t) = Ok (pc', s') -> (length (filled (sys t)) <= length (filled s'))%nat) as Hl.
    { intros pc' s' Es. destruct (loop t) as [|back|[|[id st] l] back|id f l back|l back|back|back|id|id|id|id| | |]; cbn [wq_loop_step] in Es; unfold complete_item, work_item_free, read_item in Es; try destruct (items (sys t) !! id); cbn [of_option obind] in Es; repeat case_match; simplify_eq; cbn; lia. }
    destruct ev; [| |destruct (negb _); [by injection E as <-|]]; (destruct (wq_loop_step _ _ _ _ _) as [[pc' s']| |] eqn:El; [|done..]); injection E as <-; split; [by eapply Hl|done|by eapply Hl|done|by eapply Hl|done].
Qed.

Lemma small_step a t t' : wq_step a t = Ok t' -> small t' -> small t.
Proof. intros E H. destruct (filled_step a t t' E). unfold small in *. lia. Qed.

Lemma small_run acts : forall t t', wq_run acts t = Ok t' -> small t' -> small t.
Proof.
  induction acts as [|a acts IH]; intros t t' E H; cbn [wq_run] in E; [by injection E as <-|]. destruct (wq_step a t) as [t1| |] eqn:E1; [|done..]. cbn [obind] in E. eapply small_step; [done|]. by eapply IH.
Qed.

(** A property that every step of a run keeps, while the counters do not wrap. *)
Lemma run_keeps (P : threads -> Prop) acts : (forall a t t', wq_inv t -> small t -> P t -> wq_step a t = Ok t' -> P t') ->
  forall t t', wq_inv t -> P t -> wq_run acts t = Ok t' -> small t' -> wq_inv t' /\ P t'.
Proof.
  intros HP. induction acts as [|a acts IH]; intros t t' H Ht E Hs; cbn [wq_run] in E; [by injection E as <-|]. destruct (wq_step a t) as [t1| |] eqn:E1; [|done..]. cbn [obind] in E.
  pose proof (wq_step_inv a t H) as H1. rewrite E1 in H1. pose proof (small_run _ _ _ E Hs) as Hs1. apply (IH t1 t' H1); [|done|done]. apply (HP a t); [done|by eapply small_step|done|done].
Qed.

Lemma create_closing cb arg c w : closing (qd_workqueue_create cb arg c w).
Proof. constructor; cbn; intros; lia. Qed.

Lemma total_pos {A} (f : A -> nat) l : (0 < total f l)%nat -> exists k x, l !! k = Some x /\ (0 < f x)%nat.
Proof.
  induction l as [|x l IH]; simpl; [lia|]. intros H. destruct (decide (0 < f x)%nat); [by exists 0%nat, x|]. destruct IH as (k & y & Hk & Hy); [lia|]. by exists (S k), y.
Qed.

Lemma gone_item t id i : placed t -> pool (sys t) = [] -> timers (sys t) = [] -> chan (sys t) = [] -> loop_claim (loop t) = [] -> Forall (fun pc => returned pc = true) (clients t) ->
  (forall w pc, workers t !! w = Some pc -> pc = WIdle \/ exists id, pc = WFree id) -> items (sys t) !! id = Some i ->
  (exists w, workers t !! w = Some (WFree id)) \/ id ∈ lost (sys t) \/ id ∈ parked (sys t).
Proof.
  intros HI E1 E2 E3 E4 Hc Hw Hi. pose proof (hi_once _ _ _ _ HI (id, it_stage i)) as Ho. cbn in Ho. rewrite one_true in Ho by (by rewrite Hi). unfold claimed in Ho. rewrite E1, E2, E3, E4 in Ho.
  rewrite (total_zero _ (clients t)) in Ho by (eapply Forall_impl; [exact Hc|]; by intros []). cbn [cnt] in Ho.
  assert (forall l, (0 < cnt (id, it_stage i) (at_ Settled l))%nat -> id ∈ l) as Hel.
  { intros l Hl%cnt_elem. apply list_elem_of_fmap in Hl as (u & [= -> _] & Hu). done. }
  destruct (decide (0 < cnt (id, it_stage i) (at_ Settled (lost (sys t))))%nat) as [Hl|Hl]; [right; left; by apply Hel|].
  destruct (decide (0 < cnt (id, it_stage i) (at_ Settled (parked (sys t))))%nat) as [Hp|Hp]; [right; right; by apply Hel|].
  left. destruct (total_pos (fun pc => cnt (id, it_stage i) (worker_claim pc)) (workers t)) as (k & pc & Hk & Hpos); [change (at_ Waiting []) with (@nil (nat * stage)) in Ho; cbn [cnt fmap list_fmap] in Ho; cbn in Ho; lia|].
  exists k. destruct (Hw k pc Hk) as [->|[u ->]]; [by apply Nat.lt_irrefl in Hpos|]. apply cnt_elem, list_elem_of_singleton in Hpos. by injection Hpos as <- _.
Qed.

(** C38: Destruction leaves nothing behind.  When qd_workqueue_destroy returned, under any
    interleaving before, the pool, the timers and the channel hold nothing of the queue, no
    client is in a call, and every worker is idle or about to free an item and done with the
    queue itself; the items that are still there are those, and the ones that the queue had
    lost when its channel was full or skipped as delayed. *)
Theorem destroy_leaves_nothing cb arg c w acts t : wq_run acts (qd_workqueue_create cb arg c w) = Ok t -> small t -> loop t = LGone ->
  pool (sys t) = [] /\ timers (sys t) = [] /\ chan (sys t) = [] /\ Forall (fun pc => returned pc = true) (clients t) /\
  (forall w pc, workers t !! w = Some pc -> pc = WIdle \/ exists id, pc = WFree id) /\
  (forall id i, items (sys t) !! id = Some i -> (exists w, workers t !! w = Some (WFree id)) \/ id ∈ lost (sys t) \/ id ∈ parked (sys t)).
Proof.
  intros E Hs El. destruct (run_keeps closing acts closing_step _ _ (wq_create_inv cb arg c w) (create_closing cb arg c w) E Hs) as [H [C1 C2 C3 C4]].
  rewrite El in *. cbn [progress] in *. specialize (C1 ltac:(lia)). specialize (C3 ltac:(lia)). specialize (C4 ltac:(lia)).
  assert (pool (sys t) = [] /\ timers (sys t) = []) as [Ep Et] by (unfold flies in C3; split; apply nil_length_inv; lia). split; [done|]. split; [done|]. split; [done|]. split; [done|].
  assert (forall w pc, workers t !! w = Some pc -> pc = WIdle \/ exists id, pc = WFree id) as Hw.
  { intros k pc Hk. destruct (flies_worker t k pc C3 Hk) as [Hz _]. destruct pc; try done; [by left|right; by eexists]. }
  split; [done|]. intros id i Hi. apply (gone_item t id i); try done; [apply H|by rewrite El].
Qed.

(** Destruction waits for timers that only the loop, which waits, could serve. *)
Record waiting (l : list (nat * Z)) (t : threads) : Prop := {
  wt_loop : loop t = LWait;
  wt_draining : draining (wq (sys t)) = true;
  wt_clients : Forall (fun pc => returned pc = true) (clients t);
  wt_timers : timers (sys t) = l
}.

Lemma waiting_step l a t t' : l <> [] -> wq_inv t -> small t -> waiting l t -> wq_step a t = Ok t' -> waiting l t'.
Proof.
  intros Hl H Hs Hw E. pose proof Hw as [W1 W2 W3 W4]. destruct a as [c x|c answer|w j r e|ev n answer]; cbn [wq_step] in E.
  - unfold in_use in E. rewrite W1, W2 in E. repeat case_match; simplify_eq; done.
  - destruct (clients t !! c) as [pc|] eqn:Hc; [|by injection E as <-]. assert (returned pc = true) as Hr by (by eapply (Forall_lookup_1 _ _ _ _ W3)). destruct pc; try done. injection E as <-. rewrite list_insert_id by done. by destruct t.
  - destruct (workers t !! w) as [pc|]; [|by injection E as <-]. destruct (wq_worker_step j r e pc (sys t)) as [[pc' s']| |] eqn:Es; [|done..]. injection E as <-. destruct (worker_keeps _ _ _ _ _ _ _ Es) as [E1 E2]. constructor; cbn; congruence || done.
  - rewrite W1 in E. cbn [wq_loop_step] in E. assert ((0 <? inflight (wq (sys t))) = true) as Ei.
    { destruct (0 <? _) eqn:Ei; [done|]. pose proof (inflight_zero t H Hs Ei) as Hf. unfold flies in Hf. rewrite W4 in Hf. destruct l; [done|]. cbn in Hf. lia. }
    rewrite Ei in E. destruct ev; [| |destruct (negb _)]; injection E as <-; done.
Qed.

(** Once qd_workqueue_destroy waits while a timer is armed, it waits in every run. *)
Lemma destroy_waits_forever cb arg c w t acts t' : reached cb arg c w t -> loop t = LWait -> draining (wq (sys t)) = true -> Forall (fun pc => returned pc = true) (clients t) ->
  timers (sys t) <> [] -> wq_run acts t = Ok t' -> small t' -> loop t' = LWait.
Proof.
  intros Hr W1 W2 W3 Hl E Hs. pose proof (reached_inv _ _ _ _ _ Hr) as H.
  destruct (run_keeps (waiting (timers (sys t))) acts (fun a u u' => waiting_step _ a u u' Hl) t t' H) as [_ W]; [by constructor|done|done|apply W].
Qed.

(** ** Examples *)

(** A call of the only client: [m] steps with the answers of an allocator that has memory,
    [n] with those of a pool that accepts. *)
Definition do_call (x : call) (m n : nat) : list action := ACall 0 x :: replicate m (AClient 0 1) ++ replicate n (AClient 0 0).
(** The worker runs one task, which returns [r] with errno [e]. *)
Definition do_work (r e : Z) : list action := replicate 7 (AWorker 0 0 r e).
(** The loop serves the channel, and then finds no timer. *)
Definition do_loop : list action := ALoop EChannel 128 0 :: replicate 15 (ALoop (ETimer 0) 128 0).

Lemma one_submission : exists t, wq_run (do_call (Submit 7 5) 2 5 ++ do_work 42 0 ++ do_loop) (qd_workqueue_create true 9 1 1) = Ok t /\
  calls (sys t) = [(0%nat, 42, QD_WORK_OK, 9)] /\ items (sys t) = ∅ /\ pending (wq (sys t)) = 0.
Proof. eexists. split; [vm_compute; reflexivity|]. split; [reflexivity|]. split; reflexivity. Qed.

Lemma destroy_leaves_nothing_witness : exists t, wq_run (do_call (Submit 7 5) 2 5 ++ do_work 0 11 ++ replicate 20 (ALoop EDestroy 128 0)) (qd_workqueue_create true 9 1 1) = Ok t /\
  loop t = LGone /\ calls (sys t) = [(0%nat, 0, QD_WORK_ERROR, 9)] /\ chan (sys t) = [].
Proof.
  eexists. split; [vm_compute; reflexivity|]. split; [reflexivity|]. split; [reflexivity|].
  apply (destroy_leaves_nothing true 9 1 1 (do_call (Submit 7 5) 2 5 ++ do_work 0 11 ++ replicate 20 (ALoop EDestroy 128 0)) _); [vm_compute; reflexivity|vm_compute; reflexivity|reflexivity].
Defined.

(** Delayed work runs, but its completion is skipped: the item stays, and pending stays up. *)
Lemma delayed_never_completes : exists t,
  wq_run (do_call (SubmitDelayed 7 5 100) 2 5 ++ [ALoop (ETimer 0) 0 0; ALoop EChannel 0 0] ++ do_work 42 0 ++ do_loop) (qd_workqueue_create true 9 1 1) = Ok t /\
  idle t /\ runs (sys t) = [(0%nat, (42, 0))] /\ calls (sys t) = [] /\ parked (sys t) = [0%nat] /\ pending (wq (sys t)) = 1.
Proof. eexists. split; [vm_compute; reflexivity|]. split; [constructor; [by apply Forall_singleton|by apply Forall_singleton|done|done]|]. done. Qed.

(** When the pool refuses the work as its timer comes, it disappears without a callback,
    although the submission was accepted. *)
Lemma delayed_dropped : exists t,
  wq_run (do_call (SubmitDelayed 7 5 100) 2 5 ++ ALoop (ETimer 0) 0 0 :: replicate 5 (ALoop EChannel 0 QD_ERR_BUSY)) (qd_workqueue_create true 9 1 1) = Ok t /\
  clients t = [CReturn QD_OK] /\ gone (sys t) = [(0%nat, Dropped)] /\ calls (sys t) = [].
Proof. eexists. split; [vm_compute; reflexivity|]. done. Qed.

(** A delay of 2^31 milliseconds or more reaches the timer as a negative number. *)
Lemma long_delay_negative : exists t, wq_run (do_call (SubmitDelayed 7 5 (2 ^ 31)) 2 5) (qd_workqueue_create true 9 1 1) = Ok t /\ timers (sys t) = [(0%nat, - 2 ^ 31)].
Proof. eexists. split; [vm_compute; reflexivity|]. done. Qed.

(** Cancelling through a handle after the completion writes to the freed item. *)
Lemma cancel_after_completion :
  exists t, wq_run (do_call (SubmitCancellable 7 5) 3 5 ++ do_work 42 0 ++ do_loop) (qd_workqueue_create true 9 1 1) = Ok t /\ calls (sys t) = [(0%nat, 42, QD_WORK_OK, 9)] /\
    wq_run (do_call (Cancel (Some 0%nat)) 1 0) t = Undef.
Proof. eexists. split; [vm_compute; reflexivity|]. split; vm_compute; reflexivity. Qed.

(** A cancellation while the function runs is overwritten by its status, and the callback is
    called as if there had been none. *)
Lemma cancel_overwritten : exists t,
  wq_run (do_call (SubmitCancellable 7 5) 3 5 ++ replicate 2 (AWorker 0 0 42 0) ++ do_call (Cancel (Some 0%nat)) 1 0 ++ replicate 5 (AWorker 0 0 42 0) ++ do_loop) (qd_workqueue_create true 9 1 1) = Ok t /\
  cancels (sys t) = [0%nat] /\ calls (sys t) = [(0%nat, 42, QD_WORK_OK, 9)].
Proof. eexists. split; [vm_compute; reflexivity|]. done. Qed.

(** A worker that finds 4096 messages in the channel: the send fails, nobody looks at the
    answer, and the item is out of reach. *)
Lemma full_channel_loses t w id st : workers t !! w = Some (WSend id st) -> length (chan (sys t)) = WQ_CHANNEL_CAPACITY ->
  exists t', wq_step (AWorker w 0 0 0) t = Ok t' /\ lost (sys t') = id :: lost (sys t) /\ chan (sys t') = chan (sys t).
Proof. intros Hw Hc. unfold wq_step. rewrite Hw. cbn [wq_worker_step obind]. unfold send_result. rewrite Hc, Nat.ltb_irrefl. by eexists. Qed.

Lemma lost_never_called t id : wq_inv t -> id ∈ lost (sys t) -> id ∉ call_id <$> calls (sys t).
Proof.
  intros [HI _ HL] Hl Hc%cnt_elem. rewrite (lg_once _ HL) in Hc. apply cnt_elem in Hl. pose proof (hi_once _ _ _ _ HI (id, Settled)) as Ho. unfold claimed in Ho. rewrite !cnt_at_id in Ho.
  destruct (claim_item HI id Settled) as (i & Hi & _); [unfold claimed; rewrite !cnt_at_id; lia|]. destruct (item_old HI id i Hi) as [_ Hg].
  assert (cnt (id, Completed) (gone (sys t)) = 0%nat) as E. { destruct (cnt (id, Completed) (gone (sys t))) eqn:E; [done|]. assert (0 < cnt id (gone (sys t)).*1)%nat; [|lia]. apply cnt_elem, list_elem_of_fmap. exists (id, Completed). split; [done|]. apply cnt_elem. lia. }
  rewrite E in Hc. destruct (loop t) as [| | |u [] l back| | | | | | | | | |] eqn:El; cbn [called] in Hc; try lia. cbn [loop_claim] in Ho. rewrite cnt_at_cons in Ho. one_cases; try lia. congruence.
Qed.
