(* ===== verification/DhcpRelay.v ===== *)
(** * examples/dhcp/src/dhcp_relay.c: the DHCP relay agent

    A relay passes packets from clients to its servers, with its address in giaddr and the
    relay agent information in option 82, and replies of servers back to the clients.  Names
    and numbers of interfaces come from the system and are arguments; the packets handed to
    the send callback are kept in [rl_sent]. *)

From S2P Require Import Prelude Common CString Bytes DhcpOption DhcpPool DhcpServer.

Definition DHCP_SERVER_PORT : Z := 67.
Definition DHCP_CLIENT_PORT : Z := 68.
Definition DHCP_RELAY_MAX_HOPS : Z := 16.
Definition DHCP_RELAY_MAX_SERVERS : Z := 8.
Definition DHCP_RELAY_MAX_IFACES : Z := 16.
Definition DHCP_CIRCUIT_ID_IFNAME : Z := 0.
Definition DHCP_CIRCUIT_ID_IFINDEX : Z := 1.
Definition DHCP_CIRCUIT_ID_CUSTOM : Z := 3.
Definition DHCP_REMOTE_ID_MAC : Z := 0.
Definition DHCP_REMOTE_ID_HOSTNAME : Z := 1.
Definition DHCP_REMOTE_ID_CUSTOM : Z := 2.

Record dhcp_relay_iface := mkIface { if_name : list Z; ifindex : Z; if_giaddr : Z; if_enabled : bool; rx_packets : Z; tx_packets : Z }.

Record dhcp_relay_config := mkRelayConfig {
  server_addrs : list Z; num_servers : Z; response_timeout : Z; max_hops : Z; insert_option82 : bool; replace_option82 : bool;
  circuit_id_type : Z; remote_id_type : Z;
  custom_circuit_id : list Z; custom_circuit_id_len : Z; custom_remote_id : list Z; custom_remote_id_len : Z
}.

Definition DHCP_RELAY_CONFIG_DEFAULT : dhcp_relay_config :=
  mkRelayConfig (zeros DHCP_RELAY_MAX_SERVERS) 0 4 DHCP_RELAY_MAX_HOPS true false DHCP_CIRCUIT_ID_IFNAME DHCP_REMOTE_ID_MAC (zeros 64) 0 (zeros 64) 0.

Record dhcp_relay_stats := mkRelayStats {
  requests_forwarded : Z; replies_relayed : Z; drops_bad_giaddr : Z; drops_max_hops : Z; drops_timeout : Z; drops_no_server : Z;
  option82_added : Z; option82_stripped : Z
}.

(** A call of the send callback. *)
Record relay_packet := mkRelayed { rp_packet : dhcp_packet; rp_len : Z; rp_ip : Z; rp_port : Z; rp_ifindex : Z }.

Record dhcp_relay := mkRelay {
  rl_config : dhcp_relay_config;
  ifaces : list dhcp_relay_iface; num_ifaces : Z;
  rl_send_fn : bool; rl_sent : list relay_packet;
  relay_mac : list Z; rl_hostname : list Z;
  rl_stats : dhcp_relay_stats;
  enabled : bool
}.

(** ** Field updates *)

Definition with_rl_config (c : dhcp_relay_config) (r : dhcp_relay) : dhcp_relay :=
  mkRelay c (ifaces r) (num_ifaces r) (rl_send_fn r) (rl_sent r) (relay_mac r) (rl_hostname r) (rl_stats r) (enabled r).
Definition with_ifaces (l : list dhcp_relay_iface) (n : Z) (r : dhcp_relay) : dhcp_relay :=
  mkRelay (rl_config r) l n (rl_send_fn r) (rl_sent r) (relay_mac r) (rl_hostname r) (rl_stats r) (enabled r).
Definition with_rl_stats (t : dhcp_relay_stats) (r : dhcp_relay) : dhcp_relay :=
  mkRelay (rl_config r) (ifaces r) (num_ifaces r) (rl_send_fn r) (rl_sent r) (relay_mac r) (rl_hostname r) t (enabled r).
Definition with_rl_sent (l : list relay_packet) (r : dhcp_relay) : dhcp_relay :=
  mkRelay (rl_config r) (ifaces r) (num_ifaces r) (rl_send_fn r) l (relay_mac r) (rl_hostname r) (rl_stats r) (enabled r).
Definition with_enabled (b : bool) (r : dhcp_relay) : dhcp_relay :=
  mkRelay (rl_config r) (ifaces r) (num_ifaces r) (rl_send_fn r) (rl_sent r) (relay_mac r) (rl_hostname r) (rl_stats r) b.
Definition with_servers (l : list Z) (n : Z) (c : dhcp_relay_config) : dhcp_relay_config :=
  mkRelayConfig l n (response_timeout c) (max_hops c) (insert_option82 c) (replace_option82 c) (circuit_id_type c) (remote_id_type c)
    (custom_circuit_id c) (custom_circuit_id_len c) (custom_remote_id c) (custom_remote_id_len c).
Definition with_option82 (insert replace : bool) (c : dhcp_relay_config) : dhcp_relay_config :=
  mkRelayConfig (server_addrs c) (num_servers c) (response_timeout c) (max_hops c) insert replace (circuit_id_type c) (remote_id_type c)
    (custom_circuit_id c) (custom_circuit_id_len c) (custom_remote_id c) (custom_remote_id_len c).
Definition with_max_hops (n : Z) (c : dhcp_relay_config) : dhcp_relay_config :=
  mkRelayConfig (server_addrs c) (num_servers c) (response_timeout c) n (insert_option82 c) (replace_option82 c) (circuit_id_type c) (remote_id_type c)
    (custom_circuit_id c) (custom_circuit_id_len c) (custom_remote_id c) (custom_remote_id_len c).

Definition set_hops (n : Z) (p : dhcp_packet) : dhcp_packet :=
  mkPacket (op p) (htype p) (hlen p) n (xid p) (secs p) (flags p) (ciaddr p) (yiaddr p) (siaddr p) (giaddr p) (chaddr p) (sname p) (file p) (magic p) (options p).
Definition set_giaddr (a : Z) (p : dhcp_packet) : dhcp_packet :=
  mkPacket (op p) (htype p) (hlen p) (hops p) (xid p) (secs p) (flags p) (ciaddr p) (yiaddr p) (siaddr p) a (chaddr p) (sname p) (file p) (magic p) (options p).

(** Counting. *)
Definition count_forwarded (t : dhcp_relay_stats) : dhcp_relay_stats :=
  mkRelayStats (u64 (requests_forwarded t + 1)) (replies_relayed t) (drops_bad_giaddr t) (drops_max_hops t) (drops_timeout t) (drops_no_server t) (option82_added t) (option82_stripped t).
Definition count_relayed (t : dhcp_relay_stats) : dhcp_relay_stats :=
  mkRelayStats (requests_forwarded t) (u64 (replies_relayed t + 1)) (drops_bad_giaddr t) (drops_max_hops t) (drops_timeout t) (drops_no_server t) (option82_added t) (option82_stripped t).
Definition count_bad_giaddr (t : dhcp_relay_stats) : dhcp_relay_stats :=
  mkRelayStats (requests_forwarded t) (replies_relayed t) (u64 (drops_bad_giaddr t + 1)) (drops_max_hops t) (drops_timeout t) (drops_no_server t) (option82_added t) (option82_stripped t).
Definition count_max_hops (t : dhcp_relay_stats) : dhcp_relay_stats :=
  mkRelayStats (requests_forwarded t) (replies_relayed t) (drops_bad_giaddr t) (u64 (drops_max_hops t + 1)) (drops_timeout t) (drops_no_server t) (option82_added t) (option82_stripped t).
Definition count_no_server (t : dhcp_relay_stats) : dhcp_relay_stats :=
  mkRelayStats (requests_forwarded t) (replies_relayed t) (drops_bad_giaddr t) (drops_max_hops t) (drops_timeout t) (u64 (drops_no_server t + 1)) (option82_added t) (option82_stripped t).
Definition count_added (t : dhcp_relay_stats) : dhcp_relay_stats :=
  mkRelayStats (requests_forwarded t) (replies_relayed t) (drops_bad_giaddr t) (drops_max_hops t) (drops_timeout t) (drops_no_server t) (u64 (option82_added t + 1)) (option82_stripped t).
Definition count_stripped (t : dhcp_relay_stats) : dhcp_relay_stats :=
  mkRelayStats (requests_forwarded t) (replies_relayed t) (drops_bad_giaddr t) (drops_max_hops t) (drops_timeout t) (drops_no_server t) (option82_added t) (u64 (option82_stripped t + 1)).
Definition on_stats (f : dhcp_relay_stats -> dhcp_relay_stats) (r : dhcp_relay) : dhcp_relay := with_rl_stats (f (rl_stats r)) r.

(** ** Arrays with a number of entries *)

(** [for (j = i; j < n - 1; j++) a[j] = a[j + 1]], [k] rounds from [j] on. *)
Fixpoint shift_down {A} (k j : nat) (a : list A) : outcome (list A) :=
  match k with
  | O => Ok a
  | S k => let! x := of_option (a !! S j) in if (j <? length a)%nat then shift_down k (S j) (<[j := x]> a) else Undef
  end.

(** Remove the first of the [n] entries that passes the test. *)
Definition remove_first {A} (f : A -> bool) (n : Z) (a : list A) : outcome (option (list A)) :=
  match index_of f (take (Z.to_nat n) a) with
  | Some i => let! a := shift_down (Z.to_nat (n - 1) - i) i a in Ok (Some a)
  | None => Ok None
  end.

(** ** Life cycle *)

Definition no_iface : dhcp_relay_iface := mkIface (zeros 32) 0 0 false 0 0.

(** [host]: the 64 bytes of the hostname array after gethostname, [mac]: the five random bytes. *)
Definition dhcp_relay_create (mem : bool) (host mac : list Z) (c : option dhcp_relay_config) : option dhcp_relay :=
  if mem then
    Some (mkRelay (default DHCP_RELAY_CONFIG_DEFAULT c) (replicate (Z.to_nat DHCP_RELAY_MAX_IFACES) no_iface) 0 false [] (2 :: mac) host
            (mkRelayStats 0 0 0 0 0 0 0 0) false)
  else None.

Definition dhcp_relay_start (r : dhcp_relay) : Z * dhcp_relay := (0, with_enabled true r).
Definition dhcp_relay_stop (r : dhcp_relay) : dhcp_relay := with_enabled false r.
Definition dhcp_relay_is_enabled (r : dhcp_relay) : bool := enabled r.

(** ** Servers and interfaces *)

(** The configuration that a relay is created with may hold any number of servers. *)
Definition server_list (r : dhcp_relay) : outcome (list Z) :=
  if num_servers (rl_config r) <=? 0 then Ok [] else load (server_addrs (rl_config r)) 0 (num_servers (rl_config r)).
Definition iface_list (r : dhcp_relay) : list dhcp_relay_iface := take (Z.to_nat (num_ifaces r)) (ifaces r).

Definition dhcp_relay_add_server (r : dhcp_relay) (ip : Z) : outcome (Z * dhcp_relay) :=
  let c := rl_config r in
  if DHCP_RELAY_MAX_SERVERS <=? num_servers c then Ok (-1, r) else
  let! servers := server_list r in
  if existsb (fun a => a =? ip) servers then Ok (0, r) else
  let! l := store (server_addrs c) (num_servers c) [ip] in
  Ok (0, with_rl_config (with_servers l (num_servers c + 1) c) r).

Definition dhcp_relay_remove_server (r : dhcp_relay) (ip : Z) : outcome (Z * dhcp_relay) :=
  let c := rl_config r in
  let! o := remove_first (fun a => a =? ip) (num_servers c) (server_addrs c) in
  match o with
  | Some l => Ok (0, with_rl_config (with_servers l (num_servers c - 1) c) r)
  | None => Ok (-1, r)
  end.

Definition dhcp_relay_clear_servers (r : dhcp_relay) : Z * dhcp_relay := (0, with_rl_config (with_servers (server_addrs (rl_config r)) 0 (rl_config r)) r).

Definition dhcp_relay_get_servers (r : dhcp_relay) (max_count : Z) : outcome (Z * list Z) :=
  let n := if num_servers (rl_config r) <? max_count then num_servers (rl_config r) else max_count in
  let! l := load (server_addrs (rl_config r)) 0 n in Ok (n, l).

(** [strcmp] of the name of an interface with [nm]. *)
Definition is_named (nm : list Z) (i : dhcp_relay_iface) : bool := bool_decide (until_nul (if_name i) = nm).

(** [index]: if_nametoindex. *)
Definition dhcp_relay_add_interface (index : list Z -> Z) (r : dhcp_relay) (nm : list Z) (gi : Z) : outcome (Z * dhcp_relay) :=
  if DHCP_RELAY_MAX_IFACES <=? num_ifaces r then Ok (-1, r) else
  if existsb (is_named nm) (iface_list r) then Ok (-1, r) else
  let! old := of_option (ifaces r !! Z.to_nat (num_ifaces r)) in
  let new := mkIface (strncpy nm 31 ++ drop 31 (if_name old)) (index nm) gi true (rx_packets old) (tx_packets old) in
  Ok (0, with_ifaces (<[Z.to_nat (num_ifaces r) := new]> (ifaces r)) (num_ifaces r + 1) r).

Definition dhcp_relay_remove_interface (r : dhcp_relay) (nm : list Z) : outcome (Z * dhcp_relay) :=
  let! o := remove_first (is_named nm) (num_ifaces r) (ifaces r) in
  match o with
  | Some l => Ok (0, with_ifaces l (num_ifaces r - 1) r)
  | None => Ok (-1, r)
  end.

Definition dhcp_relay_get_interface (r : dhcp_relay) (nm : list Z) : option nat := index_of (is_named nm) (iface_list r).

Definition dhcp_relay_get_interfaces (r : dhcp_relay) (max_count : Z) : outcome (Z * list dhcp_relay_iface) :=
  let n := if num_ifaces r <? max_count then num_ifaces r else max_count in
  let! l := load (ifaces r) 0 n in Ok (n, l).

(** ** Configuration *)

Definition dhcp_relay_set_send_callback (r : dhcp_relay) (set : bool) : dhcp_relay :=
  mkRelay (rl_config r) (ifaces r) (num_ifaces r) set (rl_sent r) (relay_mac r) (rl_hostname r) (rl_stats r) (enabled r).
Definition dhcp_relay_set_option82 (r : dhcp_relay) (insert replace : bool) : dhcp_relay := with_rl_config (with_option82 insert replace (rl_config r)) r.
Definition dhcp_relay_set_max_hops (r : dhcp_relay) (n : Z) : dhcp_relay := with_rl_config (with_max_hops n (rl_config r)) r.
Definition dhcp_relay_get_stats (r : dhcp_relay) : dhcp_relay_stats := rl_stats r.
Definition dhcp_relay_reset_stats (r : dhcp_relay) : dhcp_relay := with_rl_stats (mkRelayStats 0 0 0 0 0 0 0 0) r.

(** ** Option 82 *)

Section relay.
(** if_indextoname, and what the send callback returns. *)
Context (name_of : Z -> option (list Z)) (ret : relay_packet -> Z).

(** The bytes of an identifier, None for -1; [max] is the size of the buffer, 64. *)
Definition build_circuit_id (r : dhcp_relay) (index max : Z) : outcome (option (list Z)) :=
  let c := rl_config r in
  if circuit_id_type c =? DHCP_CIRCUIT_ID_IFNAME then
    Ok (match name_of index with Some nm => Some (take (Z.to_nat max) nm) | None => None end)
  else if circuit_id_type c =? DHCP_CIRCUIT_ID_IFINDEX then
    Ok (if max <? 4 then None else Some (le 4 (htonl (u32 index))))
  else if circuit_id_type c =? DHCP_CIRCUIT_ID_CUSTOM then
    if max <? custom_circuit_id_len c then Ok None else let! b := load (custom_circuit_id c) 0 (custom_circuit_id_len c) in Ok (Some b)
  else Ok None.

Definition build_remote_id (r : dhcp_relay) (max : Z) : outcome (option (list Z)) :=
  let c := rl_config r in
  if remote_id_type c =? DHCP_REMOTE_ID_MAC then
    if max <? 6 then Ok None else let! b := load (relay_mac r) 0 6 in Ok (Some b)
  else if remote_id_type c =? DHCP_REMOTE_ID_HOSTNAME then
    let! s := c_string (rl_hostname r) in Ok (Some (take (Z.to_nat max) s))
  else if remote_id_type c =? DHCP_REMOTE_ID_CUSTOM then
    if max <? custom_remote_id_len c then Ok None else let! b := load (custom_remote_id c) 0 (custom_remote_id_len c) in Ok (Some b)
  else Ok None.

(** The position of END, or one past the options. *)
Fixpoint find_end (fuel : nat) (opt : list Z) (i : Z) : outcome Z :=
  if DHCP_MAX_OPTIONS_SIZE <=? i then Ok i else
  match fuel with
  | O => Fuel
  | S fuel =>
    let! c := byte_at opt i in
    if c =? DHCP_OPT_END then Ok i else
    if c =? DHCP_OPT_PAD then find_end fuel opt (i + 1) else
    let! n := byte_at opt (i + 1) in
    find_end fuel opt (i + (2 + n))
  end.

(** Insert the option before END. *)
Definition insert_relay_info (opt circuit remote : list Z) : outcome (option (list Z)) :=
  let clen := Z.of_nat (length circuit) in
  let rlen := Z.of_nat (length remote) in
  let! i := find_end scan_fuel opt 0 in
  if DHCP_MAX_OPTIONS_SIZE <=? i then Ok None else
  let opt82_len := 2 + clen + 2 + rlen in
  let total_len := 2 + opt82_len in
  if DHCP_MAX_OPTIONS_SIZE <? i + total_len + 1 then Ok None else
  let! opt := store opt i [DHCP_OPT_RELAY_AGENT; u8 opt82_len] in
  let! opt := store opt (i + 2) [DHCP_RAI_CIRCUIT_ID; u8 clen] in
  let! opt := store opt (i + 4) circuit in
  let! opt := store opt (i + 4 + clen) [DHCP_RAI_REMOTE_ID; u8 rlen] in
  let! opt := store opt (i + 6 + clen) remote in
  let! opt := store opt (i + 6 + clen + rlen) [DHCP_OPT_END] in
  Ok (Some opt).

Definition dhcp_relay_add_option82 (r : dhcp_relay) (pkt : dhcp_packet) (index : Z) : outcome (Z * dhcp_relay * dhcp_packet) :=
  let! has := dhcp_has_option82 pkt in
  if (has : bool) && negb (replace_option82 (rl_config r)) then Ok (0, r, pkt) else
  let! pkt := if (has : bool) then let! (_, pkt) := dhcp_option_strip_relay_info pkt in Ok pkt else Ok pkt in
  let! circuit := build_circuit_id r index 64 in
  match circuit with
  | None => Ok (-1, r, pkt)
  | Some circuit =>
    let! remote := build_remote_id r 64 in
    match remote with
    | None => Ok (-1, r, pkt)
    | Some remote =>
      let! o := insert_relay_info (options pkt) circuit remote in
      match o with
      | None => Ok (-1, r, pkt)
      | Some opt => Ok (0, on_stats count_added r, set_options opt pkt)
      end
    end
  end.

Definition dhcp_relay_strip_option82 (r : dhcp_relay) (pkt : dhcp_packet) : outcome (Z * dhcp_relay * dhcp_packet) :=
  let! (ret, pkt) := dhcp_option_strip_relay_info pkt in
  Ok (ret, if ret =? 0 then on_stats count_stripped r else r, pkt).

(** ** Packets *)

Definition find_interface_by_index (r : dhcp_relay) (index : Z) : option nat := index_of (fun i => ifindex i =? index) (iface_list r).
Definition find_interface_by_giaddr (r : dhcp_relay) (gi : Z) : option nat := index_of (fun i => if_giaddr i =? gi) (iface_list r).

(** The interface at [i] sent a packet. *)
Definition count_tx (i : nat) (r : dhcp_relay) : dhcp_relay :=
  with_ifaces (alter (fun x => mkIface (if_name x) (ifindex x) (if_giaddr x) (if_enabled x) (rx_packets x) (u64 (tx_packets x + 1))) i (ifaces r)) (num_ifaces r) r.

Definition send (pk : relay_packet) (r : dhcp_relay) : Z * dhcp_relay := (ret pk, with_rl_sent (rl_sent r ++ [pk]) r).

(** To the servers, in order; the number of successes. *)
Fixpoint send_all (pkt : dhcp_packet) (len : Z) (servers : list Z) (n : Z) (r : dhcp_relay) : Z * dhcp_relay :=
  match servers with
  | [] => (n, r)
  | ip :: servers =>
    let '(x, r) := send (mkRelayed pkt len ip DHCP_SERVER_PORT 0) r in
    send_all pkt len servers (if x =? 0 then n + 1 else n) r
  end.

Definition dhcp_relay_process_client_packet (r : dhcp_relay) (pkt : dhcp_packet) (pkt_len index : Z) : outcome (Z * dhcp_relay * dhcp_packet) :=
  if negb (enabled r) then Ok (-1, r, pkt) else
  if num_servers (rl_config r) =? 0 then Ok (-1, on_stats count_no_server r, pkt) else
  if max_hops (rl_config r) <=? hops pkt then Ok (-1, on_stats count_max_hops r, pkt) else
  match find_interface_by_index r index with
  | None => Ok (-1, r, pkt)
  | Some i =>
    let! iface := of_option (ifaces r !! i) in
    if negb (if_enabled iface) then Ok (-1, r, pkt) else
    let pkt := set_hops (u8 (hops pkt + 1)) pkt in
    let pkt := if giaddr pkt =? 0 then set_giaddr (if_giaddr iface) pkt else pkt in
    let! (_, r, pkt) := if insert_option82 (rl_config r) then dhcp_relay_add_option82 r pkt index else Ok (0, r, pkt) in
    if negb (rl_send_fn r) then Ok (-1, r, pkt) else
    let! servers := server_list r in
    let '(sent, r) := send_all pkt pkt_len servers 0 r in
    if 0 <? sent then
      let! _ := dhcp_get_msg_type pkt in
      Ok (0, count_tx i (on_stats count_forwarded r), pkt)
    else Ok (-1, r, pkt)
  end.

Definition dhcp_relay_process_server_packet (r : dhcp_relay) (pkt : dhcp_packet) (pkt_len : Z) : outcome (Z * dhcp_relay * dhcp_packet) :=
  if negb (enabled r) then Ok (-1, r, pkt) else
  if giaddr pkt =? 0 then Ok (-1, on_stats count_bad_giaddr r, pkt) else
  match find_interface_by_giaddr r (giaddr pkt) with
  | None => Ok (-1, on_stats count_bad_giaddr r, pkt)
  | Some i =>
    let! iface := of_option (ifaces r !! i) in
    let! has := dhcp_has_option82 pkt in
    let! (_, r, pkt) := if (has : bool) then dhcp_relay_strip_option82 r pkt else Ok (0, r, pkt) in
    let pkt := set_giaddr 0 pkt in
    if negb (rl_send_fn r) then Ok (-1, r, pkt) else
    let dst := if negb (Z.land (ntohs (flags pkt)) DHCP_FLAG_BROADCAST =? 0) || (yiaddr pkt =? 0) then INADDR_BROADCAST else yiaddr pkt in
    let '(x, r) := send (mkRelayed pkt pkt_len dst DHCP_CLIENT_PORT (ifindex iface)) r in
    if x =? 0 then
      let! _ := dhcp_get_msg_type pkt in
      Ok (0, count_tx i (on_stats count_relayed r), pkt)
    else Ok (-1, r, pkt)
  end.
End relay.
