(* ===== verification/DhcpRelayFacts.v ===== *)
(** * Theorems on the DHCP relay agent

    Option 82 is inserted after the options of the packet and before END; packets go on to
    every server, replies to the interface of the client, without the option. *)

From S2P Require Import Prelude Common CString Bytes DhcpOption DhcpPacket DhcpPool DhcpServer DhcpServerReply DhcpRelay.

(** ** Packets with options *)

(** The options of the packet are [l], and END follows. *)
Record holds (pkt : dhcp_packet) (l : list item) : Prop := {
  hd_ok : packet_ok pkt;
  hd_items : Forall item_ok l;
  hd_bytes : exists rest, options pkt = wire l ++ DHCP_OPT_END :: rest
}.

Lemma holds_split pkt l : holds pkt l -> items_of (options pkt) = l /\ exists rest, options pkt = wire l ++ DHCP_OPT_END :: rest /\ tail_of (options pkt) = DHCP_OPT_END :: rest.
Proof.
  intros [_ Hl (rest & E)]. unfold items_of, tail_of. rewrite E, decode_wire by (done || by left). split; [done|]. by exists rest.
Qed.

(** Any packet whose options end with END holds its options. *)
Lemma holds_own pkt rest : packet_ok pkt -> tail_of (options pkt) = DHCP_OPT_END :: rest -> holds pkt (items_of (options pkt)).
Proof. intros Hp Et. destruct (options_split pkt Hp) as (E & Hl & _ & _). split; [done|done|]. exists rest. rewrite Et in E. exact E. Qed.

Lemma holds_fields pkt pkt' l : holds pkt l -> options pkt' = options pkt -> holds pkt' l.
Proof. intros [Hp Hl He] E. split; [by unfold packet_ok; rewrite E|done|by rewrite E]. Qed.

Lemma holds_short pkt l : holds pkt l -> Z.of_nat (length (wire l)) + 1 <= DHCP_MAX_OPTIONS_SIZE.
Proof. intros [[Hn _] _ (rest & E)]. rewrite E, length_app in Hn. simpl in Hn. lia. Qed.

(** What arrives of a packet that is sent with [len] bytes, of which the fixed part takes
    240, in a buffer that held the options [old]: the rest of the options is what the buffer
    had. *)
Definition arrived (len : Z) (old : list Z) (pkt : dhcp_packet) : dhcp_packet :=
  set_options (take (Z.to_nat (len - 240)) (options pkt) ++ drop (Z.to_nat (len - 240)) old) pkt.

Definition buffer_ok (old : list Z) : Prop := Z.of_nat (length old) = DHCP_MAX_OPTIONS_SIZE /\ Forall is_byte old.

(** Nothing is lost when the length covers the options and END. *)
Lemma holds_arrived pkt l len old : holds pkt l -> buffer_ok old -> 240 + Z.of_nat (length (wire l)) + 1 <= len -> holds (arrived len old pkt) l.
Proof.
  intros [[Hn Hb] Hl (rest & E)] [Ho Hob] Hlen. split; [split|done|]; cbn [options set_options arrived].
  - rewrite length_app, length_take, length_drop. lia.
  - apply Forall_app. split; [by apply Forall_take|by apply Forall_drop].
  - rewrite E, take_app_ge by lia. destruct (Z.to_nat (len - 240) - length (wire l))%nat as [|n] eqn:En; [lia|].
    cbn [take]. rewrite <- (assoc_L (++)). by eexists.
Qed.

(** An option 82 with data. *)
Definition has82 (l : list item) : bool := match first_with DHCP_OPT_RELAY_AGENT l with Some (_ :: _) => true | _ => false end.

Lemma has82_spec pkt l : holds pkt l -> dhcp_has_option82 pkt = Ok (has82 l).
Proof.
  intros H. destruct (holds_split pkt l H) as (Ei & rest & _ & Et). unfold dhcp_has_option82, has82.
  destruct (packet_helpers pkt (hd_ok _ _ H)) as (_ & _ & _ & Eq); [by rewrite Et|]. rewrite Eq, find_in_packet_spec by apply H. rewrite Ei, Et.
  destruct (first_with DHCP_OPT_RELAY_AGENT l) as [[|b d]|]; [done..|]. destruct rest; done.
Qed.

Lemma msg_type_runs pkt l : holds pkt l -> exists mt, dhcp_get_msg_type pkt = Ok mt.
Proof.
  intros H. destruct (holds_split pkt l H) as (_ & rest & _ & Et). destruct (packet_helpers pkt (hd_ok _ _ H)) as (E & _); [by rewrite Et|]. by eexists.
Qed.

(** Stripping leaves the other options. *)
Lemma strip_holds pkt l : holds pkt l -> exists pkt', dhcp_option_strip_relay_info pkt = Ok (0, pkt') /\ holds pkt' (filter not_relay l) /\ pkt' = set_options (options pkt') pkt.
Proof.
  intros H. destruct (holds_split pkt l H) as (Ei & rest & E & Et). pose proof (strip_relay_run pkt rest (hd_ok _ _ H) Et) as Es. rewrite Ei in Es. eexists. split; [exact Es|]. split; [|done].
  pose proof (holds_short _ _ H) as Hs. assert (length (wire (filter not_relay l)) <= length (wire l))%nat as Hk.
  { clear. induction l as [|it l IH]; [done|]. rewrite wire_cons, length_app, filter_cons. case_decide; [rewrite wire_cons, length_app; lia|lia]. }
  destruct (hd_ok _ _ H) as [_ Hb]. split; [split| |].
  - cbn [options set_options]. unfold zeros. rewrite length_app. cbn [length]. rewrite length_replicate. lia.
  - cbn [options set_options]. rewrite E in Hb. apply Forall_app in Hb as [Hb _]. apply Forall_app. split; [|constructor; [done|by apply Forall_replicate]].
    clear -Hb. induction l as [|it l IH]; [done|]. rewrite wire_cons in Hb. apply Forall_app in Hb as [H1 H2]. rewrite filter_cons. case_decide; [rewrite wire_cons; apply Forall_app|]; auto.
  - apply Forall_forall. intros it [_ Hit]%list_elem_of_filter. by eapply Forall_forall in Hit; [|apply H].
  - by eexists.
Qed.

(** ** Insertion *)

Lemma find_end_run rest l : Forall item_ok l -> forall fuel pre opt i, opt = pre ++ wire l ++ DHCP_OPT_END :: rest -> i = Z.of_nat (length pre) ->
  Z.of_nat (length opt) = DHCP_MAX_OPTIONS_SIZE -> (length (wire l) < fuel)%nat -> find_end fuel opt i = Ok (Z.of_nat (length (pre ++ wire l))).
Proof.
  induction 1 as [|it l Hit Hl IH]; intros fuel pre opt i -> -> Hlen Hf; (destruct fuel as [|fuel]; [lia|]).
  - change (wire []) with (@nil Z) in *. rewrite app_nil_r. cbn [app] in *. rewrite length_app in Hlen. cbn [length] in Hlen. cbn [find_end].
    destruct (Z.leb_spec DHCP_MAX_OPTIONS_SIZE (Z.of_nat (length pre))); [lia|]. rewrite (byte_at_ok _ _ DHCP_OPT_END) by (lia || (rewrite Nat2Z.id; by rewrite list_lookup_middle)). done.
  - rewrite wire_cons in *. assert (find_end (S fuel) (pre ++ (item_bytes it ++ wire l) ++ DHCP_OPT_END :: rest) (Z.of_nat (length pre)) =
      find_end fuel (pre ++ (item_bytes it ++ wire l) ++ DHCP_OPT_END :: rest) (Z.of_nat (length (pre ++ item_bytes it)))) as ->.
    { rewrite !length_app in Hlen. cbn [find_end]. destruct (Z.leb_spec DHCP_MAX_OPTIONS_SIZE (Z.of_nat (length pre))); [cbn [length] in Hlen; lia|]. destruct it as [|c d]; cbn [item_bytes app] in *.
      - rewrite (byte_at_ok _ _ DHCP_OPT_PAD) by (lia || (rewrite Nat2Z.id; by rewrite list_lookup_middle)). cbn [obind]. change (DHCP_OPT_PAD =? DHCP_OPT_END) with false. change (DHCP_OPT_PAD =? DHCP_OPT_PAD) with true. cbn iota. f_equal. rewrite length_app. simpl. lia.
      - destruct Hit as [Hc Hd]. rewrite (byte_at_ok _ _ c) by (lia || (rewrite Nat2Z.id; by rewrite list_lookup_middle)). cbn [obind]. unfold DHCP_OPT_END, DHCP_OPT_PAD.
        destruct (Z.eqb_spec c 255); [lia|]. destruct (Z.eqb_spec c 0); [lia|]. rewrite (byte_at_ok _ _ (Z.of_nat (length d))).
        + cbn [obind]. f_equal. rewrite length_app. cbn [length]. lia.
        + lia.
        + replace (Z.to_nat (Z.of_nat (length pre) + 1)) with (length (pre ++ [c])) by (rewrite length_app; simpl; lia). match goal with |- (pre ++ c :: ?r) !! _ = _ => replace (pre ++ c :: r) with ((pre ++ [c]) ++ r) by (by rewrite <- (assoc_L (++))) end. by apply list_lookup_middle. }
    rewrite (IH fuel (pre ++ item_bytes it) _ _); [by rewrite (assoc_L (++))|by rewrite <- !(assoc_L (++))|done|done|].
    rewrite length_app in Hf. destruct it; cbn [item_bytes length] in Hf; lia.
Qed.

(** The sub-options that the relay writes. *)
Definition relay_data (circuit remote : list Z) : list Z := sub_bytes [(DHCP_RAI_CIRCUIT_ID, circuit); (DHCP_RAI_REMOTE_ID, remote)].
Definition relay_item (circuit remote : list Z) : item := Opt DHCP_OPT_RELAY_AGENT (relay_data circuit remote).

Lemma relay_data_length circuit remote : length (relay_data circuit remote) = (4 + length circuit + length remote)%nat.
Proof. unfold relay_data, sub_bytes, opt_items. cbn [fmap list_fmap]. rewrite !wire_cons. change (wire []) with (@nil Z). cbn [item_bytes]. rewrite app_nil_r, length_app. cbn [length]. lia. Qed.

(** One more chunk over what was there. *)
Lemma store_next (pre old bytes : list Z) w : w = Z.of_nat (length pre) -> (length bytes <= length old)%nat ->
  store (pre ++ old) w bytes = Ok ((pre ++ bytes) ++ drop (length bytes) old).
Proof. intros Hw Hl. pose proof (store_over pre old [] bytes w Hw Hl) as E. by rewrite !app_nil_r in E. Qed.

Definition id_ok (id : list Z) : Prop := (length id <= 64)%nat /\ Forall is_byte id.

Lemma relay_item_ok circuit remote : id_ok circuit -> id_ok remote -> item_ok (relay_item circuit remote) /\ Forall is_byte (item_bytes (relay_item circuit remote)).
Proof.
  intros [H1 B1] [H2 B2]. pose proof (relay_data_length circuit remote) as Hl. split; [split; [done|lia]|]. cbn [item_bytes relay_item].
  apply Forall_cons. split; [done|]. apply Forall_cons. split; [unfold is_byte, is_u8, u8_mod; lia|]. unfold relay_data, sub_bytes, opt_items. cbn [fmap list_fmap]. rewrite !wire_cons. change (wire []) with (@nil Z). cbn [item_bytes].
  rewrite app_nil_r. apply Forall_app. split; (apply Forall_cons; split; [done|]; apply Forall_cons; split; [unfold is_byte, is_u8, u8_mod; lia|done]).
Qed.

Lemma u8_len n : (n <= 255)%nat -> u8 (Z.of_nat n) = Z.of_nat n.
Proof. intros H. unfold u8, u8_mod. rewrite Z.mod_small; lia. Qed.

Lemma insert_stores pre rest circuit remote : id_ok circuit -> id_ok remote -> let clen := Z.of_nat (length circuit) in let rlen := Z.of_nat (length remote) in
  let i := Z.of_nat (length pre) in (7 + length circuit + length remote <= length rest)%nat ->
  (let! opt := store (pre ++ rest) i [DHCP_OPT_RELAY_AGENT; u8 (2 + clen + 2 + rlen)] in
   let! opt := store opt (i + 2) [DHCP_RAI_CIRCUIT_ID; u8 clen] in
   let! opt := store opt (i + 4) circuit in
   let! opt := store opt (i + 4 + clen) [DHCP_RAI_REMOTE_ID; u8 rlen] in
   let! opt := store opt (i + 6 + clen) remote in
   let! opt := store opt (i + 6 + clen + rlen) [DHCP_OPT_END] in
   Ok (Some opt)) = Ok (Some (pre ++ item_bytes (relay_item circuit remote) ++ DHCP_OPT_END :: drop (7 + length circuit + length remote) rest)).
Proof.
  intros [H1 _] [H2 _] clen rlen i Hl. replace (2 + clen + 2 + rlen) with (Z.of_nat (4 + length circuit + length remote)) by lia. unfold clen, rlen. rewrite !u8_len by lia.
  rewrite store_next by (done || (cbn [length]; lia)). cbn [obind]. rewrite store_next by (rewrite ?length_app, ?length_drop; cbn [length]; lia). cbn [obind].
  rewrite store_next by (rewrite ?length_app, ?length_drop; cbn [length]; lia). cbn [obind]. rewrite store_next by (rewrite ?length_app, ?length_drop; cbn [length]; lia). cbn [obind].
  rewrite store_next by (rewrite ?length_app, ?length_drop; cbn [length]; lia). cbn [obind]. rewrite store_next by (rewrite ?length_app, ?length_drop; cbn [length]; lia). cbn [obind].
  rewrite !drop_drop. do 2 f_equal. rewrite <- !(assoc_L (++)). f_equal. cbn [relay_item item_bytes]. rewrite relay_data_length.
  unfold relay_data, sub_bytes, opt_items. cbn [fmap list_fmap]. rewrite !wire_cons. change (wire []) with (@nil Z). cbn [item_bytes]. rewrite app_nil_r. cbn [app]. do 4 f_equal.
  rewrite <- (assoc_L (++)). cbn [app]. do 5 f_equal. cbn [length]. f_equal. lia.
Qed.

Lemma insert_relay_spec pkt l circuit remote : holds pkt l -> id_ok circuit -> id_ok remote ->
  if Z.of_nat (length (wire l) + length circuit + length remote) + 7 <=? DHCP_MAX_OPTIONS_SIZE then
    exists opt, insert_relay_info (options pkt) circuit remote = Ok (Some opt) /\ holds (set_options opt pkt) (l ++ [relay_item circuit remote])
  else insert_relay_info (options pkt) circuit remote = Ok None.
Proof.
  intros H Hc Hr. destruct (hd_bytes _ _ H) as (rest & E). destruct (hd_ok _ _ H) as [Hlen Hb]. pose proof (holds_short _ _ H) as Hs. unfold insert_relay_info.
  rewrite (obind_run _ _ _ (find_end_run rest l (hd_items _ _ H) scan_fuel [] (options pkt) 0 E eq_refl Hlen ltac:(unfold scan_fuel; lia))). cbn [app]. cbv zeta.
  destruct (Z.leb_spec DHCP_MAX_OPTIONS_SIZE (Z.of_nat (length (wire l)))); [lia|].
  destruct (Z.leb_spec (Z.of_nat (length (wire l) + length circuit + length remote) + 7) DHCP_MAX_OPTIONS_SIZE) as [Hfit|Hfit];
    destruct (Z.ltb_spec DHCP_MAX_OPTIONS_SIZE (Z.of_nat (length (wire l)) + (2 + (2 + Z.of_nat (length circuit) + 2 + Z.of_nat (length remote))) + 1)); try lia; [|done].
  eexists. rewrite E. rewrite insert_stores by (done || (rewrite E, length_app in Hlen; cbn [length] in *; lia)). split; [done|].
  destruct (relay_item_ok circuit remote Hc Hr) as [Hi Hib]. set (new := drop _ _). assert (Z.of_nat (length new) = DHCP_MAX_OPTIONS_SIZE - Z.of_nat (length (wire l)) - Z.of_nat (7 + length circuit + length remote)) as Hnew.
  { unfold new. rewrite length_drop. rewrite E, length_app in Hlen. cbn [length] in *. lia. }
  split; [split| |].
  - cbn [options set_options]. rewrite !length_app. cbn [length item_bytes relay_item]. rewrite relay_data_length. lia.
  - cbn [options set_options]. rewrite E in Hb. apply Forall_app in Hb as [Hb1 Hb2]. apply Forall_app. split; [done|]. apply Forall_app. split; [done|]. constructor; [done|]. by apply Forall_drop.
  - apply Forall_app. split; [apply H|]. by constructor.
  - exists new. cbn [options set_options]. rewrite wire_app, wire_cons. change (wire []) with (@nil Z). by rewrite app_nil_r, <- (assoc_L (++)).
Qed.

(** ** Relays *)

(** The sizes of the arrays and the bounds of the counters. *)
Record relay_ok (r : dhcp_relay) : Prop := {
  ro_ifaces : length (ifaces r) = 16%nat;
  ro_num : 0 <= num_ifaces r <= 16;
  ro_servers : length (server_addrs (rl_config r)) = 8%nat;
  ro_nservers : 0 <= num_servers (rl_config r) <= 8;
  ro_circuit : length (custom_circuit_id (rl_config r)) = 64%nat /\ Forall is_byte (custom_circuit_id (rl_config r)) /\ 0 <= custom_circuit_id_len (rl_config r);
  ro_remote : length (custom_remote_id (rl_config r)) = 64%nat /\ Forall is_byte (custom_remote_id (rl_config r)) /\ 0 <= custom_remote_id_len (rl_config r);
  ro_mac : length (relay_mac r) = 6%nat /\ Forall is_byte (relay_mac r);
  ro_host : 0 ∈ rl_hostname r /\ Forall is_byte (rl_hostname r)
}.

Lemma load_prefix (l : list Z) n : 0 <= n <= Z.of_nat (length l) -> load l 0 n = Ok (take (Z.to_nat n) l).
Proof. intros H. rewrite load_ok by lia. by rewrite drop_0. Qed.

Lemma until_nul_bytes l : Forall is_byte l -> Forall is_byte (until_nul l).
Proof. induction 1 as [|b l Hb Hl IH]; [done|]. simpl. destruct (b =? 0); [done|by constructor]. Qed.

Lemma take_id_ok n l : (n <= 64)%nat -> Forall is_byte l -> id_ok (take n l).
Proof. intros Hn Hl. split; [rewrite length_take; lia|by apply Forall_take]. Qed.

Section relay.
Context (name_of : Z -> option (list Z)) (ret : relay_packet -> Z) (Hname : forall i nm, name_of i = Some nm -> Forall is_byte nm).

Lemma custom_id_spec (id : list Z) n : length id = 64%nat -> Forall is_byte id -> 0 <= n ->
  exists o, (if 64 <? n then Ok None else let! b := load id 0 n in Ok (Some b)) = Ok o /\ from_option id_ok True o.
Proof.
  intros Hl Hb Hn. destruct (Z.ltb_spec 64 n); [by exists None|]. rewrite load_prefix by lia. exists (Some (take (Z.to_nat n) id)). split; [done|]. apply take_id_ok; [lia|done].
Qed.

Lemma circuit_spec r i : relay_ok r -> exists o, build_circuit_id name_of r i 64 = Ok o /\ from_option id_ok True o.
Proof.
  intros H. unfold build_circuit_id. destruct (_ =? DHCP_CIRCUIT_ID_IFNAME).
  { eexists. split; [done|]. destruct (name_of i) as [nm|] eqn:E; [|done]. apply take_id_ok; [lia|by eapply Hname]. }
  destruct (_ =? DHCP_CIRCUIT_ID_IFINDEX); [exists (Some (le 4 (htonl (u32 i)))); split; [done|]; split; [by rewrite length_le; lia|apply le_bytes]|].
  destruct (_ =? DHCP_CIRCUIT_ID_CUSTOM); [|by exists None]. destruct (ro_circuit _ H) as (H1 & H2 & H3). by apply custom_id_spec.
Qed.

Lemma remote_spec r : relay_ok r -> exists o, build_remote_id r 64 = Ok o /\ from_option id_ok True o.
Proof.
  intros H. unfold build_remote_id. destruct (_ =? DHCP_REMOTE_ID_MAC).
  { change (64 <? 6) with false. cbn iota. destruct (ro_mac _ H) as [H1 H2]. rewrite load_prefix by lia. exists (Some (take 6 (relay_mac r))). split; [done|]. apply take_id_ok; [lia|done]. }
  destruct (_ =? DHCP_REMOTE_ID_HOSTNAME).
  { destruct (ro_host _ H) as [H1 H2]. unfold c_string. rewrite bool_decide_eq_true_2 by done. eexists. split; [done|]. apply take_id_ok; [lia|by apply until_nul_bytes]. }
  destruct (_ =? DHCP_REMOTE_ID_CUSTOM); [|by exists None]. destruct (ro_remote _ H) as (H1 & H2 & H3). by apply custom_id_spec.
Qed.

(** The identifiers that the relay writes for the interface [i], when it has both. *)
Definition ids_of (r : dhcp_relay) (i : Z) : option (list Z * list Z) :=
  match build_circuit_id name_of r i 64, build_remote_id r 64 with
  | Ok (Some c), Ok (Some m) => Some (c, m)
  | _, _ => None
  end.

(** The options after dhcp_relay_add_option82, and whether the option was inserted. *)
Definition add82 (r : dhcp_relay) (i : Z) (l : list item) : bool * list item :=
  if has82 l && negb (replace_option82 (rl_config r)) then (false, l) else
  let l := if has82 l then filter not_relay l else l in
  match ids_of r i with
  | Some (c, m) => if Z.of_nat (length (wire l) + length c + length m) + 7 <=? DHCP_MAX_OPTIONS_SIZE then (true, l ++ [relay_item c m]) else (false, l)
  | None => (false, l)
  end.

Lemma add_option82_spec r pkt l i : relay_ok r -> holds pkt l ->
  exists ret pkt', dhcp_relay_add_option82 name_of r pkt i = Ok (ret, if (add82 r i l).1 then on_stats count_added r else r, pkt') /\
    holds pkt' (add82 r i l).2 /\ pkt' = set_options (options pkt') pkt /\ (ret = 0 <-> (add82 r i l).1 = true \/ (has82 l = true /\ replace_option82 (rl_config r) = false)).
Proof.
  intros Hr H. unfold dhcp_relay_add_option82, add82. rewrite (obind_run _ _ _ (has82_spec pkt l H)). cbn beta.
  destruct (has82 l && negb (replace_option82 (rl_config r))) eqn:Ek.
  { exists 0, pkt. cbn [fst snd]. split; [done|]. split; [done|]. split; [by destruct pkt|]. apply andb_true_iff in Ek as [E1 E2%negb_true_iff]. tauto. }
  assert (exists pkt1, (if has82 l then let! (_, pkt) := dhcp_option_strip_relay_info pkt in Ok pkt else Ok pkt) = Ok pkt1 /\
    holds pkt1 (if has82 l then filter not_relay l else l) /\ pkt1 = set_options (options pkt1) pkt) as (pkt1 & E1 & H1 & F1).
  { destruct (has82 l); [|exists pkt; split; [done|split; [done|by destruct pkt]]]. destruct (strip_holds pkt l H) as (p & E & Hp & F). exists p. by rewrite E. }
  rewrite (obind_run _ _ _ E1). cbn beta. set (l1 := if has82 l then filter not_relay l else l) in *. cbv zeta.
  assert (~ (has82 l = true /\ replace_option82 (rl_config r) = false)) as Hno by (intros [Ha Hb]; rewrite Ha, Hb in Ek; done).
  destruct (circuit_spec r i Hr) as (c & Ec & Hc). destruct (remote_spec r Hr) as (m & Em & Hm). unfold ids_of. rewrite Ec, Em. cbn [obind].
  destruct c as [c|]; [|exists (-1), pkt1; cbn [fst snd]; split; [done|]; split; [done|]; split; [done|]; split; [done|by intros [|]]].
  destruct m as [m|]; [|exists (-1), pkt1; cbn [fst snd]; split; [done|]; split; [done|]; split; [done|]; split; [done|by intros [|]]].
  pose proof (insert_relay_spec pkt1 l1 c m H1 Hc Hm) as Hi. destruct (_ <=? DHCP_MAX_OPTIONS_SIZE).
  - destruct Hi as (opt & E & Ho). rewrite E. cbn [obind fst snd]. exists 0, (set_options opt pkt1). split; [done|]. split; [done|]. split; [by rewrite F1|]. tauto.
  - rewrite Hi. cbn [obind fst snd]. exists (-1), pkt1. split; [done|]. split; [done|]. split; [done|]. split; [done|by intros [|]].
Qed.

(** ** Packets from clients *)

Definition to_server (pkt : dhcp_packet) (len ip : Z) : relay_packet := mkRelayed pkt len ip DHCP_SERVER_PORT 0.
Definition accepts (pk : relay_packet) : bool := ret pk =? 0.

Lemma send_all_spec pkt len servers : forall n r, 0 <= n -> let sent := to_server pkt len <$> servers in
  exists n', send_all ret pkt len servers n r = (n', with_rl_sent (rl_sent r ++ sent) r) /\ (0 <? n') = (0 <? n) || existsb accepts sent.
Proof.
  induction servers as [|ip servers IH]; intros n r Hn; cbn [send_all fmap list_fmap existsb].
  - exists n. split; [by rewrite app_nil_r; destruct r|by rewrite orb_false_r].
  - unfold send. set (pk := mkRelayed _ _ _ _ _). destruct (IH (if ret pk =? 0 then n + 1 else n) (with_rl_sent (rl_sent r ++ [pk]) r)) as (n' & E & En); [destruct (_ =? 0); lia|].
    exists n'. rewrite E. split; [f_equal; unfold with_rl_sent; cbn; f_equal; by rewrite <- (assoc_L (++))|]. rewrite En, orb_assoc. f_equal. unfold accepts, to_server. fold pk.
    destruct (ret pk =? 0); [rewrite orb_true_r; by apply Z.ltb_lt; lia|by rewrite orb_false_r].
Qed.

(** A relay refuses a packet, with its counters, or takes it for an interface. *)
Definition admit_client (r : dhcp_relay) (pkt : dhcp_packet) (i : Z) : dhcp_relay + nat * dhcp_relay_iface :=
  if negb (enabled r) then inl r else
  if num_servers (rl_config r) =? 0 then inl (on_stats count_no_server r) else
  if max_hops (rl_config r) <=? hops pkt then inl (on_stats count_max_hops r) else
  match find_interface_by_index r i with
  | Some k => match ifaces r !! k with Some f => if if_enabled f then inr (k, f) else inl r | None => inl r end
  | None => inl r
  end.

Definition servers_of (r : dhcp_relay) : list Z := take (Z.to_nat (num_servers (rl_config r))) (server_addrs (rl_config r)).

Lemma server_list_spec r : relay_ok r -> server_list r = Ok (servers_of r).
Proof.
  intros H. unfold server_list, servers_of. pose proof (ro_nservers _ H). pose proof (ro_servers _ H). destruct (Z.leb_spec (num_servers (rl_config r)) 0).
  - by replace (num_servers (rl_config r)) with 0 by lia.
  - apply load_prefix. lia.
Qed.

Lemma find_iface_lookup r f k : relay_ok r -> index_of f (iface_list r) = Some k -> exists x, ifaces r !! k = Some x /\ f x = true.
Proof.
  intros H Hk. unfold iface_list in Hk. apply index_of_spec in Hk as (x & Hx & Hfx). exists x. split; [|done]. apply lookup_take_Some in Hx. tauto.
Qed.

(** What the relay adds to the options of a client's packet. *)
Definition relayed_options (r : dhcp_relay) (i : Z) (l : list item) : bool * list item := if insert_option82 (rl_config r) then add82 r i l else (false, l).

Lemma client_packet_run r pkt l len i : relay_ok r -> holds pkt l ->
  match admit_client r pkt i with
  | inl r' => dhcp_relay_process_client_packet name_of ret r pkt len i = Ok (-1, r', pkt)
  | inr (k, f) =>
    exists pkt', pkt' = set_options (options pkt') (set_giaddr (if giaddr pkt =? 0 then if_giaddr f else giaddr pkt) (set_hops (u8 (hops pkt + 1)) pkt)) /\
      holds pkt' (relayed_options r i l).2 /\
      let r1 := if (relayed_options r i l).1 then on_stats count_added r else r in
      let sent := to_server pkt' len <$> servers_of r in
      dhcp_relay_process_client_packet name_of ret r pkt len i =
        if rl_send_fn r then
          let r2 := with_rl_sent (rl_sent r ++ sent) r1 in
          if existsb accepts sent then Ok (0, count_tx k (on_stats count_forwarded r2), pkt') else Ok (-1, r2, pkt')
        else Ok (-1, r1, pkt')
  end.
Proof.
  intros Hr H. unfold admit_client, dhcp_relay_process_client_packet. destruct (enabled r); [|done]. cbn [negb]. destruct (_ =? 0); [done|]. destruct (_ <=? _); [done|].
  destruct (find_interface_by_index r i) as [k|] eqn:Ek; [|done]. destruct (find_iface_lookup _ _ _ Hr Ek) as (f & Ef & _). rewrite Ef. cbn [of_option obind].
  destruct (if_enabled f); [|done]. cbn [negb]. cbv zeta. set (p1 := if giaddr (set_hops (u8 (hops pkt + 1)) pkt) =? 0 then set_giaddr (if_giaddr f) (set_hops (u8 (hops pkt + 1)) pkt) else set_hops (u8 (hops pkt + 1)) pkt).
  assert (p1 = set_giaddr (if giaddr pkt =? 0 then if_giaddr f else giaddr pkt) (set_hops (u8 (hops pkt + 1)) pkt)) as Ep by (unfold p1; cbn [giaddr set_hops]; destruct (giaddr pkt =? 0); [done|by destruct pkt]).
  assert (holds p1 l) as H1 by (apply (holds_fields pkt); [done|by rewrite Ep]).
  assert (exists x p2, (if insert_option82 (rl_config r) then dhcp_relay_add_option82 name_of r p1 i else Ok (0, r, p1)) =
    Ok (x, if (relayed_options r i l).1 then on_stats count_added r else r, p2) /\ holds p2 (relayed_options r i l).2 /\ p2 = set_options (options p2) p1) as (x & p2 & E2 & H2 & F2).
  { unfold relayed_options. destruct (insert_option82 _); [|exists 0, p1; split; [done|split; [done|by destruct p1]]].
    destruct (add_option82_spec r p1 l i Hr H1) as (x & p2 & E & Hp & F & _). by exists x, p2. }
  exists p2. split; [by rewrite F2 at 1; rewrite Ep|]. split; [done|]. rewrite (obind_run _ _ _ E2). cbn beta iota. set (r1 := if (relayed_options r i l).1 then on_stats count_added r else r).
  assert (relay_ok r1 /\ rl_send_fn r1 = rl_send_fn r /\ servers_of r1 = servers_of r /\ rl_sent r1 = rl_sent r) as (Hr1 & -> & Es & Et).
  { unfold r1. destruct (_.1); [|done]. split; [|done]. by destruct Hr; constructor. }
  destruct (rl_send_fn r); [|done]. cbn [negb]. rewrite (obind_run _ _ _ (server_list_spec r1 Hr1)), Es.
  destruct (send_all_spec p2 len (servers_of r) 0 r1) as (n & E & En); [lia|]. rewrite E, En, Et. cbn [orb]. cbv zeta. change (0 <? 0) with false. cbn [orb].
  destruct (existsb accepts _); [|done]. destruct (msg_type_runs _ _ H2) as (mt & Em). by rewrite (obind_run _ _ _ Em).
Qed.

(** ** Replies of servers *)

Definition reply_address (pkt : dhcp_packet) : Z :=
  if negb (Z.land (ntohs (flags pkt)) DHCP_FLAG_BROADCAST =? 0) || (yiaddr pkt =? 0) then INADDR_BROADCAST else yiaddr pkt.

Lemma server_packet_run r pkt l len : relay_ok r -> holds pkt l -> enabled r = true ->
  match (if giaddr pkt =? 0 then None else find_interface_by_giaddr r (giaddr pkt)) with
  | None => dhcp_relay_process_server_packet ret r pkt len = Ok (-1, on_stats count_bad_giaddr r, pkt)
  | Some k =>
    exists f pkt', ifaces r !! k = Some f /\ if_giaddr f = giaddr pkt /\ pkt' = set_options (options pkt') (set_giaddr 0 pkt) /\
      holds pkt' (if has82 l then filter not_relay l else l) /\
      let r1 := if has82 l then on_stats count_stripped r else r in
      let pk := mkRelayed pkt' len (reply_address pkt) DHCP_CLIENT_PORT (ifindex f) in
      dhcp_relay_process_server_packet ret r pkt len =
        if rl_send_fn r then
          let r2 := with_rl_sent (rl_sent r ++ [pk]) r1 in
          if accepts pk then Ok (0, count_tx k (on_stats count_relayed r2), pkt') else Ok (-1, r2, pkt')
        else Ok (-1, r1, pkt')
  end.
Proof.
  intros Hr H He. unfold dhcp_relay_process_server_packet. rewrite He. cbn [negb]. destruct (giaddr pkt =? 0); [done|].
  destruct (find_interface_by_giaddr r (giaddr pkt)) as [k|] eqn:Ek; [|done]. destruct (find_iface_lookup _ _ _ Hr Ek) as (f & Ef & Eg). apply Z.eqb_eq in Eg. rewrite Ef. cbn [of_option obind].
  rewrite (obind_run _ _ _ (has82_spec pkt l H)). cbn beta.
  assert (exists x p1, (if has82 l then dhcp_relay_strip_option82 r pkt else Ok (0, r, pkt)) = Ok (x, if has82 l then on_stats count_stripped r else r, p1) /\
    holds p1 (if has82 l then filter not_relay l else l) /\ p1 = set_options (options p1) pkt) as (x & p1 & E1 & H1 & F1).
  { destruct (has82 l); [|exists 0, pkt; split; [done|split; [done|by destruct pkt]]]. destruct (strip_holds pkt l H) as (p & E & Hp & F). exists 0, p. unfold dhcp_relay_strip_option82. by rewrite E. }
  exists f, (set_giaddr 0 p1). split; [done|]. split; [done|]. split; [by rewrite F1|]. assert (holds (set_giaddr 0 p1) (if has82 l then filter not_relay l else l)) as H2 by (by eapply holds_fields).
  split; [done|]. rewrite (obind_run _ _ _ E1). cbn beta iota zeta. set (r1 := if has82 l then on_stats count_stripped r else r).
  replace (rl_send_fn r1) with (rl_send_fn r) by (unfold r1; by destruct (has82 l)). destruct (rl_send_fn r); [|done]. cbn [negb]. unfold send. cbv zeta.
  replace (rl_sent r1) with (rl_sent r) by (unfold r1; by destruct (has82 l)). unfold accepts, reply_address. cbn [flags yiaddr set_giaddr].
  replace (flags p1) with (flags pkt) by (by rewrite F1). replace (yiaddr p1) with (yiaddr pkt) by (by rewrite F1).
  destruct (ret _ =? 0); [|done]. destruct (msg_type_runs _ _ H2) as (mt & Em). by rewrite (obind_run _ _ _ Em).
Qed.

(** Every branch of dhcp_relay_process_client_packet, on any packet with well-formed
    options.  A relay that is off, has no server, sees too many hops, or does not serve the
    interface refuses the packet, unchanged, with the counter of the reason.  Else the hops
    count up, giaddr becomes the interface's unless another relay set it, option 82 goes
    after the options unless the relay must keep the one there or it does not fit, the other
    fields stay, and the packet goes once to each server in order; the request counts as
    forwarded when a server's send succeeded. *)
Theorem client_packet_exact r pkt l len i : relay_ok r -> holds pkt l ->
  match admit_client r pkt i with
  | inl r' => dhcp_relay_process_client_packet name_of ret r pkt len i = Ok (-1, r', pkt)
  | inr (k, f) =>
    exists pkt', pkt' = set_options (options pkt') (set_giaddr (if giaddr pkt =? 0 then if_giaddr f else giaddr pkt) (set_hops (u8 (hops pkt + 1)) pkt)) /\
      holds pkt' (relayed_options r i l).2 /\
      let r1 := if (relayed_options r i l).1 then on_stats count_added r else r in
      let sent := to_server pkt' len <$> servers_of r in
      dhcp_relay_process_client_packet name_of ret r pkt len i =
        if rl_send_fn r then
          let r2 := with_rl_sent (rl_sent r ++ sent) r1 in
          if existsb accepts sent then Ok (0, count_tx k (on_stats count_forwarded r2), pkt') else Ok (-1, r2, pkt')
        else Ok (-1, r1, pkt')
  end.
Proof. apply client_packet_run. Qed.

(** ** There and back *)

Lemma no_relay_first l : Forall not_relay l -> first_with DHCP_OPT_RELAY_AGENT l = None /\ filter not_relay l = l.
Proof.
  induction 1 as [|it l Hit Hl [IH1 IH2]]; [done|]. rewrite filter_cons_True, IH2 by done. split; [|done]. destruct it as [|c d]; [done|]. cbn [first_with]. destruct (Z.eqb_spec c DHCP_OPT_RELAY_AGENT); [done|exact IH1].
Qed.

Lemma first_with_added c m l : Forall not_relay l -> first_with DHCP_OPT_RELAY_AGENT (l ++ [relay_item c m]) = Some (relay_data c m).
Proof. induction 1 as [|it l Hit Hl IH]; [done|]. destruct it as [|c' d]; [done|]. cbn [app first_with]. destruct (Z.eqb_spec c' DHCP_OPT_RELAY_AGENT); [done|exact IH]. Qed.

Lemma has82_added c m l : Forall not_relay l -> has82 (l ++ [relay_item c m]) = true.
Proof. intros H. unfold has82. rewrite first_with_added by done. pose proof (relay_data_length c m). by destruct (relay_data c m). Qed.

Lemma strip_added c m l : Forall not_relay l -> filter not_relay (l ++ [relay_item c m]) = l.
Proof. intros H. rewrite filter_app. destruct (no_relay_first l H) as [_ ->]. rewrite filter_cons_False by (by intros []). by rewrite app_nil_r. Qed.

(** The server reads the identifiers that the relay wrote. *)
Lemma relay_data_parsed pkt c m l : holds pkt (l ++ [relay_item c m]) -> Forall not_relay l -> id_ok c -> id_ok m -> c <> [] -> m <> [] ->
  exists info, dhcp_option_parse_relay_info pkt = Ok (0, info) /\ relay_info_is info c m [].
Proof.
  intros H Hl [Hc _] [Hm _] Nc Nm. assert (sub_bytes (relay_subs c m []) = relay_data c m) as Es by (by destruct c, m).
  pose proof (relay_data_length c m). apply parse_found; [lia|lia|by left|rewrite Es; lia|].
  destruct (holds_split _ _ H) as (Ei & rest & _ & _). rewrite find_in_packet_spec by apply H. by rewrite Ei, first_with_added, Es.
Qed.

Lemma ids_of_ok r i c m : relay_ok r -> ids_of r i = Some (c, m) -> id_ok c /\ id_ok m.
Proof.
  intros Hr H. unfold ids_of in H. destruct (circuit_spec r i Hr) as (oc & Ec & Hc). destruct (remote_spec r Hr) as (om & Em & Hm). rewrite Ec, Em in H.
  destruct oc, om; try done. injection H as -> ->. done.
Qed.

Lemma client_keeps r k sent r1 : relay_ok r -> r1 = count_tx k (on_stats count_forwarded (with_rl_sent sent (on_stats count_added r))) ->
  relay_ok r1 /\ enabled r1 = enabled r /\ rl_send_fn r1 = rl_send_fn r /\ rl_sent r1 = sent /\
  (forall g, find_interface_by_giaddr r1 g = find_interface_by_giaddr r g) /\
  (forall j f, ifaces r !! j = Some f -> exists f', ifaces r1 !! j = Some f' /\ ifindex f' = ifindex f /\ if_giaddr f' = if_giaddr f).
Proof.
  intros Hr ->. split; [|split; [done|split; [done|split; [done|split]]]].
  - destruct Hr. constructor; try done. cbn. by rewrite length_alter.
  - intros g. unfold find_interface_by_giaddr, iface_list. cbn. generalize (Z.to_nat (num_ifaces r)). generalize (ifaces r). clear. intros l. revert k.
    induction l as [|f l IH]; intros k [|n]; [done|done|done|]. destruct k as [|k]; cbn; [done|]. destruct (_ =? g); [done|]. by rewrite IH.
  - intros j f Hj. cbn. destruct (decide (k = j)) as [->|Hn].
    + rewrite list_lookup_alter_eq, Hj. by eexists.
    + rewrite list_lookup_alter_ne by done. by exists f.
Qed.

Lemma admit_spec r pkt i k f : admit_client r pkt i = inr (k, f) -> enabled r = true /\ ifaces r !! k = Some f.
Proof. unfold admit_client. intros Ha. repeat case_match; simplify_eq; (split; [by apply negb_false_iff|done]). Qed.

(** C36: There and back.  A relay that inserts option 82 takes a client's packet that carries
    none on an interface it serves, in a packet of a length that has room for the option
    (the relay sends as many bytes as it received).  The server finds the circuit and remote
    identifiers of the relay in the bytes it gets, with the address of the interface as
    giaddr; whatever it replies with that giaddr, echoing the option after any options of
    its own, reaches the client through the same interface, and the bytes the client gets
    have exactly the options of the server's own, giaddr zero and the other fields as the
    server set them. *)
Theorem relay_there_and_back r pkt l len i k f c m : relay_ok r -> holds pkt l -> Forall not_relay l ->
  admit_client r pkt i = inr (k, f) -> giaddr pkt = 0 -> if_giaddr f <> 0 -> find_interface_by_giaddr r (if_giaddr f) = Some k ->
  insert_option82 (rl_config r) = true -> ids_of r i = Some (c, m) -> c <> [] -> m <> [] ->
  Z.of_nat (length (wire l) + length c + length m) + 7 <= DHCP_MAX_OPTIONS_SIZE ->
  240 + Z.of_nat (length (wire l) + length c + length m) + 7 <= len ->
  rl_send_fn r = true -> (forall pk, ret pk = 0) -> servers_of r <> [] ->
  exists r1 pkt1,
    dhcp_relay_process_client_packet name_of ret r pkt len i = Ok (0, r1, pkt1) /\
    rl_sent r1 = rl_sent r ++ (to_server pkt1 len <$> servers_of r) /\ giaddr pkt1 = if_giaddr f /\
    (forall old, buffer_ok old -> exists info, dhcp_option_parse_relay_info (arrived len old pkt1) = Ok (0, info) /\ relay_info_is info c m []) /\
    forall reply l2 len2, holds reply (l2 ++ [relay_item c m]) -> Forall not_relay l2 -> giaddr reply = giaddr pkt1 ->
      exists r2 reply2,
        dhcp_relay_process_server_packet ret r1 reply len2 = Ok (0, r2, reply2) /\
        rl_sent r2 = rl_sent r1 ++ [mkRelayed reply2 len2 (reply_address reply) DHCP_CLIENT_PORT (ifindex f)] /\
        (forall old, buffer_ok old -> 240 + Z.of_nat (length (wire l2)) + 1 <= len2 -> holds (arrived len2 old reply2) l2) /\
        reply2 = set_options (options reply2) (set_giaddr 0 reply).
Proof.
  intros Hr H Hl Ha Hg Hf Hk Hins Hid Nc Nm Hfit Hlen Hs Hret Hsv. destruct (admit_spec r pkt i k f Ha) as [Hen Hkf].
  pose proof (client_packet_run r pkt l len i Hr H) as Hc. rewrite Ha in Hc. destruct Hc as (pkt1 & F1 & H1 & Hrun). rewrite Hg in F1. change (0 =? 0) with true in F1. cbn iota in F1.
  destruct (no_relay_first l Hl) as [E1 E2]. assert (relayed_options r i l = (true, l ++ [relay_item c m])) as Eo.
  { unfold relayed_options, add82, has82. rewrite Hins, E1, Hid. cbn [andb]. destruct (Z.leb_spec (Z.of_nat (length (wire l) + length c + length m) + 7) DHCP_MAX_OPTIONS_SIZE); [done|lia]. }
  rewrite Eo in H1, Hrun. cbn [fst snd] in *. rewrite Hs in Hrun. cbv zeta in Hrun.
  assert (existsb accepts (to_server pkt1 len <$> servers_of r) = true) as Es by (destruct (servers_of r); [done|]; cbn; unfold accepts; by rewrite Hret). rewrite Es in Hrun.
  destruct (ids_of_ok r i c m Hr Hid) as [Ic Im].
  assert (Z.of_nat (length (wire (l ++ [relay_item c m]))) = Z.of_nat (length (wire l) + length c + length m) + 6) as Ew.
  { rewrite wire_app, wire_cons. change (wire []) with (@nil Z). rewrite app_nil_r, length_app. cbn [relay_item item_bytes length]. rewrite relay_data_length. lia. }
  eexists _, pkt1. split; [exact Hrun|]. set (r1 := count_tx _ _). destruct (client_keeps r k _ r1 Hr eq_refl) as (Hr1 & He1 & Hs1 & Ht1 & Hg1 & Hi1).
  assert (giaddr pkt1 = if_giaddr f) as G1 by (by rewrite F1). split; [by rewrite Ht1|]. split; [done|].
  split; [intros old Hold; eapply relay_data_parsed; try done; apply holds_arrived; [done|done|lia]|].
  intros reply l2 len2 H2 Hl2 Hgr. pose proof (server_packet_run r1 reply _ len2 Hr1 H2) as Hsrv. rewrite He1, Hs1, Hgr, G1, Hg1, Hk, has82_added, strip_added in Hsrv by done.
  destruct (Z.eqb_spec (if_giaddr f) 0); [done|]. destruct Hsrv as (f' & reply2 & Ef & _ & F2 & H3 & Hrun2).
  { exact Hen. }
  destruct (Hi1 k f Hkf) as (f2 & Ef2 & Ei2 & _). rewrite Ef in Ef2. injection Ef2 as <-. cbv zeta in Hrun2. unfold accepts in Hrun2. rewrite Hret, Hs in Hrun2. cbn in Hrun2. rewrite Ei2 in Hrun2.
  eexists _, reply2. split; [exact Hrun2|]. split; [by rewrite Ht1 at 1|]. split; [|done]. intros old Hold Hl2'. by apply holds_arrived.
Qed.
End relay.

(** ** The servers and interfaces as lists *)

Lemma shift_down_spec {A} k : forall j (a : list A), (j + k < length a)%nat ->
  exists b, shift_down k j a = Ok b /\ length b = length a /\ forall p, b !! p = if decide (j <= p < j + k)%nat then a !! S p else a !! p.
Proof.
  induction k as [|k IH]; intros j a H; cbn [shift_down].
  - exists a. split; [done|]. split; [done|]. intros p. by rewrite decide_False by lia.
  - destruct (lookup_lt_is_Some_2 a (S j)) as [x Hx]; [lia|]. rewrite Hx. cbn [of_option obind]. destruct (Nat.ltb_spec j (length a)); [|lia].
    destruct (IH (S j) (<[j:=x]> a)) as (b & E & Hl & Hb); [rewrite length_insert; lia|]. exists b. rewrite length_insert in Hl. split; [done|]. split; [done|].
    intros p. rewrite Hb. destruct (decide (p = j)) as [->|Hp].
    + rewrite decide_False, decide_True by lia. by rewrite list_lookup_insert_eq by lia.
    + destruct (decide (S j <= p < S j + k)%nat); [rewrite decide_True by lia|rewrite decide_False by lia]; by rewrite list_lookup_insert_ne by lia.
Qed.

Lemma remove_first_spec {A} (f : A -> bool) n (a : list A) : 0 <= n <= Z.of_nat (length a) ->
  match index_of f (take (Z.to_nat n) a) with
  | Some i => exists b, remove_first f n a = Ok (Some b) /\ length b = length a /\ take (Z.to_nat (n - 1)) b = delete i (take (Z.to_nat n) a) /\ 0 < n /\ (forall P : A -> Prop, Forall P a -> Forall P b)
  | None => remove_first f n a = Ok None
  end.
Proof.
  intros Hn. unfold remove_first. destruct (index_of f _) as [i|] eqn:E; [|done]. destruct (index_of_spec _ _ _ E) as (x & Hx & _). apply lookup_take_Some in Hx as [Hx Hi].
  destruct (shift_down_spec (Z.to_nat (n - 1) - i) i a) as (b & Eb & Hl & Hb); [lia|]. exists b. rewrite Eb. split; [done|]. split; [done|]. split; [|split; [lia|]].
  2: { intros P Ha. apply Forall_lookup. intros p y Hy. rewrite Hb in Hy. rewrite Forall_lookup in Ha. destruct (decide _); by eapply Ha. }
  apply list_eq. intros p. destruct (decide (p < Z.to_nat (n - 1))%nat) as [Hp|Hp].
  - rewrite lookup_take_lt, Hb by done. destruct (decide (p < i)%nat).
    + rewrite decide_False, list_lookup_delete_lt, lookup_take_lt by lia. done.
    + rewrite decide_True, list_lookup_delete_ge, lookup_take_lt by lia. done.
  - rewrite !(proj2 (lookup_ge_None _ _)); [done|rewrite length_delete; rewrite ?length_take; [lia|]|rewrite length_take; lia].
    rewrite lookup_take_lt by lia. by rewrite Hx.
Qed.

Record iface_view := mkView { v_name : list Z; v_index : Z; v_giaddr : Z; v_enabled : bool }.
Record relay_lists := mkLists { ls_servers : list Z; ls_ifaces : list iface_view }.
Definition view (f : dhcp_relay_iface) : iface_view := mkView (until_nul (if_name f)) (ifindex f) (if_giaddr f) (if_enabled f).
Definition lists_of (r : dhcp_relay) : relay_lists := mkLists (servers_of r) (view <$> iface_list r).

(** The calls that read or change the lists, and packets in between. *)
Inductive relay_op :=
  | AddServer (ip : Z) | RemoveServer (ip : Z) | ClearServers | GetServers (max : Z)
  | AddInterface (nm : list Z) (g : Z) | RemoveInterface (nm : list Z) | GetInterface (nm : list Z) | GetInterfaces (max : Z)
  | FromClient (pkt : dhcp_packet) (len i : Z) | FromServer (pkt : dhcp_packet) (len : Z).
Inductive relay_res := RCode (x : Z) | RServers (n : Z) (l : list Z) | RFound (v : option iface_view) | RInterfaces (n : Z) (l : list iface_view) | RPacket.

Definition op_ok (o : relay_op) : Prop :=
  match o with
  | GetServers max | GetInterfaces max => 0 <= max
  | AddInterface nm _ => 0 ∉ nm
  | FromClient pkt _ _ | FromServer pkt _ => exists l, holds pkt l
  | _ => True
  end.

Section lists.
Context (index : list Z -> Z) (name_of : Z -> option (list Z)) (ret : relay_packet -> Z) (Hname : forall i nm, name_of i = Some nm -> Forall is_byte nm).

Definition do_op (o : relay_op) (r : dhcp_relay) : outcome (relay_res * dhcp_relay) :=
  match o with
  | AddServer ip => let! (x, r) := dhcp_relay_add_server r ip in Ok (RCode x, r)
  | RemoveServer ip => let! (x, r) := dhcp_relay_remove_server r ip in Ok (RCode x, r)
  | ClearServers => let '(x, r) := dhcp_relay_clear_servers r in Ok (RCode x, r)
  | GetServers max => let! (n, l) := dhcp_relay_get_servers r max in Ok (RServers n l, r)
  | AddInterface nm g => let! (x, r) := dhcp_relay_add_interface index r nm g in Ok (RCode x, r)
  | RemoveInterface nm => let! (x, r) := dhcp_relay_remove_interface r nm in Ok (RCode x, r)
  | GetInterface nm => Ok (RFound (dhcp_relay_get_interface r nm ≫= fun i => view <$> ifaces r !! i), r)
  | GetInterfaces max => let! (n, l) := dhcp_relay_get_interfaces r max in Ok (RInterfaces n (view <$> l), r)
  | FromClient pkt len i => let! (_, r, _) := dhcp_relay_process_client_packet name_of ret r pkt len i in Ok (RPacket, r)
  | FromServer pkt len => let! (_, r, _) := dhcp_relay_process_server_packet ret r pkt len in Ok (RPacket, r)
  end.

Fixpoint run_ops (os : list relay_op) (r : dhcp_relay) : outcome (list relay_res * dhcp_relay) :=
  match os with
  | [] => Ok ([], r)
  | o :: os => let! (x, r) := do_op o r in let! (xs, r) := run_ops os r in Ok (x :: xs, r)
  end.

(** The lists alone.  Names are kept to 31 bytes. *)
Definition list_op (o : relay_op) (s : relay_lists) : relay_res * relay_lists :=
  let '(mkLists servers ifs) := s in
  match o with
  | AddServer ip =>
    if 8 <=? Z.of_nat (length servers) then (RCode (-1), s) else if bool_decide (ip ∈ servers) then (RCode 0, s) else (RCode 0, mkLists (servers ++ [ip]) ifs)
  | RemoveServer ip => match index_of (fun a => a =? ip) servers with Some i => (RCode 0, mkLists (delete i servers) ifs) | None => (RCode (-1), s) end
  | ClearServers => (RCode 0, mkLists [] ifs)
  | GetServers max => (RServers (Z.min (Z.of_nat (length servers)) max) (take (Z.to_nat max) servers), s)
  | AddInterface nm g =>
    if 16 <=? Z.of_nat (length ifs) then (RCode (-1), s) else if bool_decide (nm ∈ v_name <$> ifs) then (RCode (-1), s) else
    (RCode 0, mkLists servers (ifs ++ [mkView (take 31 nm) (index nm) g true]))
  | RemoveInterface nm => match index_of (fun v => bool_decide (v_name v = nm)) ifs with Some i => (RCode 0, mkLists servers (delete i ifs)) | None => (RCode (-1), s) end
  | GetInterface nm => (RFound (index_of (fun v => bool_decide (v_name v = nm)) ifs ≫= fun i => ifs !! i), s)
  | GetInterfaces max => (RInterfaces (Z.min (Z.of_nat (length ifs)) max) (take (Z.to_nat max) ifs), s)
  | FromClient _ _ _ | FromServer _ _ => (RPacket, s)
  end.

Fixpoint list_ops (os : list relay_op) (s : relay_lists) : list relay_res * relay_lists :=
  match os with
  | [] => ([], s)
  | o :: os => let '(x, s) := list_op o s in let '(xs, s) := list_ops os s in (x :: xs, s)
  end.

(** Every name ends with a zero. *)
Record relay_wf (r : dhcp_relay) : Prop := {
  rw_ok : relay_ok r;
  rw_names : Forall (fun f => length (if_name f) = 32%nat /\ if_name f !! 31%nat = Some 0) (ifaces r)
}.

(** Packets change statistics only. *)
Definition static (f : dhcp_relay_iface) : list Z * Z * Z * bool := (if_name f, ifindex f, if_giaddr f, if_enabled f).
Record alike (r r' : dhcp_relay) : Prop := {
  al_config : rl_config r' = rl_config r;
  al_num : num_ifaces r' = num_ifaces r;
  al_ids : relay_mac r' = relay_mac r /\ rl_hostname r' = rl_hostname r;
  al_ifaces : static <$> ifaces r' = static <$> ifaces r
}.

Lemma alike_refl r : alike r r.
Proof. done. Qed.

Lemma alike_lists r r' : alike r r' -> relay_wf r -> relay_wf r' /\ lists_of r' = lists_of r.
Proof.
  intros [E1 E2 [E3 E4] E5] [[] Hn]. assert (length (ifaces r') = length (ifaces r)) as El by (by rewrite <- (length_fmap static (ifaces r)), <- E5, length_fmap). split.
  - constructor; [constructor; rewrite ?E1, ?E2, ?E3, ?E4; try done; lia|]. assert (Forall (fun s => length s.1.1.1 = 32%nat /\ s.1.1.1 !! 31%nat = Some 0) (static <$> ifaces r')) as Hs by (rewrite E5; by apply Forall_fmap). by apply Forall_fmap in Hs.
  - unfold lists_of, servers_of, iface_list. rewrite E1, E2. f_equal. rewrite !fmap_take. f_equal.
    assert (forall l, view <$> l = (fun s => mkView (until_nul s.1.1.1) s.1.1.2 s.1.2 s.2) <$> (static <$> l)) as Ev by (intros l; by rewrite <- list_fmap_compose). by rewrite !Ev, E5.
Qed.

Lemma alike_tx r k r' : alike r r' -> alike r (count_tx k r').
Proof.
  intros []. constructor; try done. cbn. rewrite <- al_ifaces0. generalize (ifaces r'). clear. intros l. revert k. induction l as [|f l IH]; intros [|k]; [done..|]. cbn. f_equal. apply IH.
Qed.

Lemma client_alike r pkt l len i : relay_ok r -> holds pkt l -> exists x r' pkt', dhcp_relay_process_client_packet name_of ret r pkt len i = Ok (x, r', pkt') /\ alike r r'.
Proof.
  intros Hr H. pose proof (client_packet_run name_of ret Hname r pkt l len i Hr H) as Hc. destruct (admit_client r pkt i) as [r'|[k f]] eqn:Ea.
  - do 3 eexists. split; [exact Hc|]. unfold admit_client in Ea. repeat case_match; simplify_eq; by constructor.
  - destruct Hc as (pkt' & _ & _ & E). cbv zeta in E. rewrite E. set (b := (relayed_options _ _ _ _).1).
    destruct (rl_send_fn r); [destruct (existsb _ _)|]; do 3 eexists; (split; [reflexivity|]); [apply alike_tx| |]; by destruct b.
Qed.

Lemma server_alike r pkt l len : relay_ok r -> holds pkt l -> exists x r' pkt', dhcp_relay_process_server_packet ret r pkt len = Ok (x, r', pkt') /\ alike r r'.
Proof.
  intros Hr H. destruct (enabled r) eqn:He; [|exists (-1), r, pkt; split; [unfold dhcp_relay_process_server_packet; by rewrite He|done]].
  pose proof (server_packet_run ret r pkt l len Hr H He) as Hc. destruct (if giaddr pkt =? 0 then None else _) as [k|].
  - destruct Hc as (f & pkt' & _ & _ & _ & _ & E). cbv zeta in E. rewrite E.
    destruct (rl_send_fn r); [destruct (accepts _ _)|]; do 3 eexists; (split; [reflexivity|]); [apply alike_tx| |]; by destruct (has82 l).
  - do 3 eexists. by split.
Qed.

Lemma wf_servers r l n : relay_wf r -> length l = 8%nat -> 0 <= n <= 8 ->
  relay_wf (with_rl_config (with_servers l n (rl_config r)) r) /\ lists_of (with_rl_config (with_servers l n (rl_config r)) r) = mkLists (take (Z.to_nat n) l) (ls_ifaces (lists_of r)).
Proof. intros [[] Hn] Hl H. split; [|done]. constructor; [by constructor|done]. Qed.

Lemma wf_ifaces r l n : relay_wf r -> length l = 16%nat -> 0 <= n <= 16 -> Forall (fun f => length (if_name f) = 32%nat /\ if_name f !! 31%nat = Some 0) l ->
  relay_wf (with_ifaces l n r) /\ lists_of (with_ifaces l n r) = mkLists (ls_servers (lists_of r)) (view <$> take (Z.to_nat n) l).
Proof. intros [[] Hn] Hl H Hf. split; [|done]. constructor; [by constructor|done]. Qed.

Lemma wf_lengths r : relay_wf r -> Z.of_nat (length (servers_of r)) = num_servers (rl_config r) /\ Z.of_nat (length (iface_list r)) = num_ifaces r.
Proof. intros [[] _]. unfold servers_of, iface_list. rewrite !length_take. lia. Qed.

Lemma named_bytes old nm : length old = 32%nat -> old !! 31%nat = Some 0 -> 0 ∉ nm ->
  let new := strncpy nm 31 ++ drop 31 old in length new = 32%nat /\ new !! 31%nat = Some 0 /\ until_nul new = take 31 nm.
Proof.
  intros Hl H0 Hn new. assert (drop 31 old = [0]) as E by (rewrite (drop_S old 0 31) by done; f_equal; apply nil_length_inv; rewrite length_drop; lia).
  assert (length (strncpy nm 31) = 31%nat) as Hs by (by rewrite length_strncpy). unfold new. rewrite E. split; [rewrite length_app, Hs; done|]. split; [by rewrite lookup_app_r, Hs by lia|].
  unfold strncpy. change (Z.to_nat 31) with 31%nat. rewrite <- (assoc_L (++)). assert (exists z, zeros (31 - Z.of_nat (length (take 31 nm))) ++ [0] = 0 :: z) as [z ->] by (destruct (zeros _) eqn:Ez; [by exists []|unfold zeros in Ez; destruct (Z.to_nat _); [done|injection Ez as <- <-; by eexists]]).
  assert (0 ∉ take 31 nm) as Hk by (intros Hi; apply Hn; apply elem_of_take in Hi as (p & Hp & _); by eapply list_elem_of_lookup_2). revert Hk. generalize (take 31 nm). clear. induction l as [|b l IH]; intros Hk; [done|]. cbn. destruct (Z.eqb_spec b 0) as [->|]; [exfalso; apply Hk; constructor|]. f_equal. apply IH. intros ?. apply Hk. by constructor.
Qed.

Lemma index_of_fmap {A B} (g : A -> B) (f : B -> bool) l : index_of f (g <$> l) = index_of (fun x => f (g x)) l.
Proof. induction l as [|x l IH]; [done|]. cbn. destruct (f (g x)); [done|]. by rewrite IH. Qed.

Lemma add_server_run r ip : relay_wf r -> exists x r', dhcp_relay_add_server r ip = Ok (x, r') /\ relay_wf r' /\ (RCode x, lists_of r') = list_op (AddServer ip) (lists_of r).
Proof.
  intros H. pose proof (wf_lengths r H) as [Hn _]. destruct (rw_ok _ H). unfold dhcp_relay_add_server, list_op, lists_of at 2. cbn [ls_servers]. rewrite Hn. unfold DHCP_RELAY_MAX_SERVERS.
  destruct (Z.leb_spec 8 (num_servers (rl_config r))); [by eexists _, _|]. rewrite (obind_run _ _ _ (server_list_spec r (rw_ok _ H))).
  assert (existsb (fun a => a =? ip) (servers_of r) = bool_decide (ip ∈ servers_of r)) as ->.
  { apply eq_bool_prop_intro. rewrite bool_decide_spec, Is_true_true, existsb_exists. setoid_rewrite <- list_elem_of_In. split; [intros (a & Ha & ->%Z.eqb_eq); done|intros Hi; exists ip; by rewrite Z.eqb_refl]. }
  destruct (bool_decide _); [by eexists _, _|]. rewrite store_ok by (cbn [length]; lia). cbn [obind]. do 2 eexists. split; [reflexivity|].
  set (l := take _ _ ++ _). assert (length l = 8%nat) as Hl by (unfold l; rewrite !length_app, length_take, length_drop; cbn [length]; lia).
  destruct (wf_servers r l (num_servers (rl_config r) + 1) H Hl) as [Hw ->]; [lia|]. split; [done|]. do 2 f_equal. unfold l.
  rewrite (assoc_L (++)), take_app_le by (rewrite length_app, length_take; cbn; lia). rewrite take_ge by (rewrite length_app, length_take; cbn; lia). done.
Qed.

Lemma remove_server_run r ip : relay_wf r -> exists x r', dhcp_relay_remove_server r ip = Ok (x, r') /\ relay_wf r' /\ (RCode x, lists_of r') = list_op (RemoveServer ip) (lists_of r).
Proof.
  intros H. destruct (rw_ok _ H). pose proof (remove_first_spec (fun a => a =? ip) (num_servers (rl_config r)) (server_addrs (rl_config r)) ltac:(lia)) as Hr.
  unfold dhcp_relay_remove_server, list_op, lists_of at 2. unfold servers_of at 1. cbn [ls_servers]. destruct (index_of _ _) as [i|].
  - destruct Hr as (b & -> & Hl & Eb & Hp & _). cbn [obind]. do 2 eexists. split; [reflexivity|]. destruct (wf_servers r b (num_servers (rl_config r) - 1) H) as [Hw ->]; [lia..|]. split; [done|]. by rewrite Eb.
  - rewrite Hr. cbn [obind]. by do 2 eexists.
Qed.

Lemma add_interface_run r nm g : relay_wf r -> 0 ∉ nm ->
  exists x r', dhcp_relay_add_interface index r nm g = Ok (x, r') /\ relay_wf r' /\ (RCode x, lists_of r') = list_op (AddInterface nm g) (lists_of r).
Proof.
  intros H Hnm. pose proof (wf_lengths r H) as [_ Hn]. destruct (rw_ok _ H). unfold dhcp_relay_add_interface, list_op, lists_of at 2. cbn [ls_ifaces]. rewrite length_fmap, Hn. unfold DHCP_RELAY_MAX_IFACES.
  destruct (Z.leb_spec 16 (num_ifaces r)); [by eexists _, _|].
  assert (existsb (is_named nm) (iface_list r) = bool_decide (nm ∈ v_name <$> (view <$> iface_list r))) as ->.
  { apply eq_bool_prop_intro. rewrite bool_decide_spec, Is_true_true, existsb_exists. setoid_rewrite <- list_elem_of_In. rewrite <- list_fmap_compose, list_elem_of_fmap. unfold is_named.
    split; [intros (a & Ha & E%bool_decide_eq_true); by exists a|intros (a & -> & Ha); exists a; by rewrite bool_decide_eq_true_2]. }
  destruct (bool_decide _); [by eexists _, _|]. destruct (lookup_lt_is_Some_2 (ifaces r) (Z.to_nat (num_ifaces r))) as [old Ho]; [lia|]. rewrite Ho. cbn [of_option obind]. do 2 eexists. split; [reflexivity|].
  pose proof (rw_names _ H) as Hf. rewrite Forall_lookup in Hf. destruct (Hf _ _ Ho) as [Hl Hz]. destruct (named_bytes _ nm Hl Hz Hnm) as (N1 & N2 & N3). set (new := mkIface _ _ _ _ _ _).
  destruct (wf_ifaces r (<[Z.to_nat (num_ifaces r) := new]> (ifaces r)) (num_ifaces r + 1) H) as [Hw ->]; [by rewrite length_insert|lia|by apply Forall_insert; [apply H|]|]. split; [done|].
  do 2 f_equal. replace (Z.to_nat (num_ifaces r + 1)) with (S (Z.to_nat (num_ifaces r))) by lia. rewrite (take_S_r _ _ new) by (rewrite list_lookup_insert_eq by lia; done). rewrite take_insert_ge by lia. rewrite fmap_app. unfold iface_list. cbn. unfold view at 2. cbn. by rewrite N3.
Qed.

Lemma remove_interface_run r nm : relay_wf r -> exists x r', dhcp_relay_remove_interface r nm = Ok (x, r') /\ relay_wf r' /\ (RCode x, lists_of r') = list_op (RemoveInterface nm) (lists_of r).
Proof.
  intros H. destruct (rw_ok _ H). pose proof (remove_first_spec (is_named nm) (num_ifaces r) (ifaces r) ltac:(lia)) as Hr.
  unfold dhcp_relay_remove_interface, list_op, lists_of at 2. cbn [ls_ifaces]. rewrite index_of_fmap. change (fun x => bool_decide (v_name (view x) = nm)) with (is_named nm). unfold iface_list at 1. destruct (index_of _ _) as [i|].
  - destruct Hr as (b & E & Hl & Eb & Hp & Hall). rewrite E. cbn [obind]. do 2 eexists. split; [reflexivity|].
    destruct (wf_ifaces r b (num_ifaces r - 1) H) as [Hw ->]; [lia|lia|by apply Hall, H|]. split; [done|]. by rewrite Eb, list_fmap_delete.
  - rewrite Hr. cbn [obind]. by do 2 eexists.
Qed.

Lemma load_min {A} (l : list A) n max : 0 <= n <= Z.of_nat (length l) -> 0 <= max ->
  load l 0 (if n <? max then n else max) = Ok (take (Z.to_nat max) (take (Z.to_nat n) l)) /\ (if n <? max then n else max) = Z.min n max.
Proof.
  intros Hn Hm. assert ((if n <? max then n else max) = Z.min n max) as -> by (destruct (Z.ltb_spec n max); lia). split; [|done].
  rewrite load_ok by lia. rewrite drop_0, take_take. do 2 f_equal. lia.
Qed.

Lemma do_op_spec o r : relay_wf r -> op_ok o -> exists x r', do_op o r = Ok (x, r') /\ relay_wf r' /\ (x, lists_of r') = list_op o (lists_of r).
Proof.
  intros H Ho. pose proof (wf_lengths r H) as [Hs Hi]. destruct o as [ip|ip| |max|nm g|nm|nm|max|pkt len i|pkt len]; cbn [do_op].
  - destruct (add_server_run r ip H) as (x & r' & -> & Hw & E). by eexists _, _.
  - destruct (remove_server_run r ip H) as (x & r' & -> & Hw & E). by eexists _, _.
  - do 2 eexists. split; [reflexivity|]. destruct (wf_servers r (server_addrs (rl_config r)) 0 H) as [Hw El]; [apply H|lia|]. split; [exact Hw|]. by rewrite El.
  - unfold dhcp_relay_get_servers. destruct (load_min (server_addrs (rl_config r)) (num_servers (rl_config r)) max) as [-> ->]; [destruct (rw_ok _ H); lia|done|]. cbn [obind]. do 2 eexists. split; [reflexivity|]. split; [done|]. cbn. by rewrite Hs.
  - destruct (add_interface_run r nm g H Ho) as (x & r' & -> & Hw & E). by eexists _, _.
  - destruct (remove_interface_run r nm H) as (x & r' & -> & Hw & E). by eexists _, _.
  - do 2 eexists. split; [reflexivity|]. split; [done|]. cbn. unfold dhcp_relay_get_interface. rewrite index_of_fmap. change (fun x => bool_decide (v_name (view x) = nm)) with (is_named nm).
    destruct (index_of (is_named nm) (iface_list r)) as [j|] eqn:E; [|done]. destruct (index_of_spec _ _ _ E) as (f & Hf & _). cbn. rewrite list_lookup_fmap, Hf. unfold iface_list in Hf. apply lookup_take_Some in Hf as [-> _]. done.
  - unfold dhcp_relay_get_interfaces. destruct (load_min (ifaces r) (num_ifaces r) max) as [-> ->]; [destruct (rw_ok _ H); lia|done|]. cbn [obind]. do 2 eexists. split; [reflexivity|]. split; [done|]. cbn. rewrite length_fmap, Hi. by rewrite fmap_take.
  - destruct Ho as [l Hl]. destruct (client_alike r pkt l len i (rw_ok _ H) Hl) as (x & r' & pkt' & -> & Ha). do 2 eexists. split; [reflexivity|]. destruct (alike_lists _ _ Ha H) as [Hw ->]. split; [done|]. cbn. by destruct (lists_of r).
  - destruct Ho as [l Hl]. destruct (server_alike r pkt l len (rw_ok _ H) Hl) as (x & r' & pkt' & -> & Ha). do 2 eexists. split; [reflexivity|]. destruct (alike_lists _ _ Ha H) as [Hw ->]. split; [done|]. cbn. by destruct (lists_of r).
Qed.

Lemma run_ops_spec os r : relay_wf r -> Forall op_ok os ->
  exists xs r', run_ops os r = Ok (xs, r') /\ relay_wf r' /\ (xs, lists_of r') = list_ops os (lists_of r).
Proof.
  intros H Hos. revert r H. induction Hos as [|o os Ho Hos IH]; intros r H; cbn [run_ops list_ops]; [by eexists _, _|].
  destruct (do_op_spec o r H Ho) as (x & r1 & -> & H1 & E1). cbn [obind]. destruct (IH r1 H1) as (xs & r2 & -> & H2 & E2). cbn [obind].
  do 2 eexists. split; [reflexivity|]. split; [done|]. by rewrite <- E1, <- E2.
Qed.

(** On any relay, any sequence of calls that add, remove or read its servers and
    interfaces, with packets of clients and servers in between, runs without undefined
    behaviour and returns what two plain lists return: a list of at most eight servers
    that refuses duplicates and one of at most sixteen interfaces, names cut to 31 bytes;
    removing shifts the entries behind, and packets leave both lists as they are. *)
Theorem relay_lists_refine os r : relay_wf r -> Forall op_ok os ->
  exists xs r', run_ops os r = Ok (xs, r') /\ relay_wf r' /\ (xs, lists_of r') = list_ops os (lists_of r).
Proof. apply run_ops_spec. Qed.
End lists.

(** ** Examples *)

(** gethostname leaves the last byte of the array alone. *)
Lemma relay_create_wf host mac : length host = 63%nat -> Forall is_byte host -> length mac = 5%nat -> Forall is_byte mac ->
  exists r, dhcp_relay_create true (host ++ [0]) mac None = Some r /\ relay_wf r /\ lists_of r = mkLists [] [].
Proof.
  intros Hh Bh Hm Bm. eexists. split; [reflexivity|]. split; [|done]. constructor; [constructor; cbn|]; try done.
  - split; [done|]. split; [by apply Forall_replicate|done].
  - split; [done|]. split; [by apply Forall_replicate|done].
  - split; [lia|]. by apply Forall_cons.
  - split; [apply elem_of_app; right; constructor|]. apply Forall_app. split; [done|]. by apply Forall_cons.
  - cbn. by apply Forall_replicate.
Qed.

(** An interface eth0 with index 2 and address 10.0.0.1, a server 192.168.0.9. *)
Definition eth0 : list Z := [101; 116; 104; 48].
Definition demo_name (i : Z) : option (list Z) := if i =? 2 then Some eth0 else None.
Definition demo_index (nm : list Z) : Z := if bool_decide (nm = eth0) then 2 else 0.
Definition demo_new : dhcp_relay := default (mkRelay DHCP_RELAY_CONFIG_DEFAULT [] 0 false [] [] [] (mkRelayStats 0 0 0 0 0 0 0 0) false) (dhcp_relay_create true (replicate 63 65 ++ [0]) [1; 2; 3; 4; 5] None).
Definition demo_setup : list relay_op := [AddInterface eth0 0x0100000A; AddServer 0x0900A8C0; GetServers 8; AddServer 0x0900A8C0].
Definition demo_relay : dhcp_relay :=
  match run_ops demo_index demo_name (fun _ => 0) demo_setup demo_new with
  | Ok (_, r) => dhcp_relay_set_send_callback (snd (dhcp_relay_start r)) true
  | _ => demo_new
  end.

Definition client_items : list item := [Opt 53 [1]; Pad; Opt 12 [104; 105]].
Definition client_packet : dhcp_packet := demo_packet (wire client_items ++ DHCP_OPT_END :: zeros (307 - Z.of_nat (length (wire client_items)))).
Definition reply_items : list item := [Opt 53 [2]; Opt 51 [0; 0; 14; 16]].
Definition reply_packet : dhcp_packet :=
  let o := wire (reply_items ++ [relay_item eth0 [2; 1; 2; 3; 4; 5]]) in
  set_giaddr 0x0100000A (demo_packet (o ++ DHCP_OPT_END :: zeros (307 - Z.of_nat (length o)))).

Lemma holds_check pkt l rest : options pkt = wire l ++ DHCP_OPT_END :: rest -> bool_decide (length (options pkt) = 308%nat /\ Forall is_byte (options pkt) /\ Forall item_ok l) = true -> holds pkt l.
Proof. intros E (H1 & H2 & H3)%bool_decide_eq_true. split; [split; [by rewrite H1|done]|done|by exists rest]. Qed.

Lemma client_holds : holds client_packet client_items.
Proof. apply (holds_check _ _ (zeros 299)); by vm_compute. Qed.

Lemma reply_holds : holds reply_packet (reply_items ++ [relay_item eth0 [2; 1; 2; 3; 4; 5]]).
Proof. apply (holds_check _ _ (zeros 282)); by vm_compute. Qed.

Lemma demo_new_wf : relay_wf demo_new.
Proof.
  destruct (relay_create_wf (replicate 63 65) [1; 2; 3; 4; 5]) as (r & E & Hw & _); [done|by apply Forall_replicate|done|by (apply (bool_decide_unpack (Forall is_byte [1; 2; 3; 4; 5])); vm_compute)|].
  unfold demo_new. rewrite E. exact Hw.
Qed.

Lemma demo_name_bytes i nm : demo_name i = Some nm -> Forall is_byte nm.
Proof. unfold demo_name. destruct (i =? 2); [|done]. intros [= <-]. apply (bool_decide_unpack (Forall is_byte eth0)). by vm_compute. Qed.

Lemma demo_setup_ok : Forall op_ok demo_setup.
Proof. repeat (apply Forall_cons; split; [|]); try done. apply (bool_decide_unpack (0 ∉ eth0)). by vm_compute. Qed.

Lemma demo_relay_ok : relay_ok demo_relay.
Proof.
  destruct (run_ops_spec demo_index demo_name (fun _ => 0) demo_name_bytes demo_setup demo_new demo_new_wf demo_setup_ok) as (xs & r & E & [Hr _] & _).
  unfold demo_relay. rewrite E. by destruct Hr.
Qed.

Lemma relay_lists_refine_witness :
  exists r', run_ops demo_index demo_name (fun _ => 0) demo_setup demo_new = Ok ([RCode 0; RCode 0; RServers 1 [0x0900A8C0]; RCode 0], r') /\
    lists_of r' = mkLists [0x0900A8C0] [mkView eth0 2 0x0100000A true].
Proof.
  destruct (relay_lists_refine demo_index demo_name (fun _ => 0) demo_name_bytes demo_setup demo_new demo_new_wf demo_setup_ok) as (xs & r' & E & _ & El).
  replace (list_ops demo_index demo_setup (lists_of demo_new)) with ([RCode 0; RCode 0; RServers 1 [0x0900A8C0]; RCode 0], mkLists [0x0900A8C0] [mkView eth0 2 0x0100000A true]) in El by (vm_compute; reflexivity).
  exists r'. pose proof (f_equal fst El) as E1. pose proof (f_equal snd El) as E2. cbn [fst snd] in E1, E2. rewrite E1 in E. split; [exact E|exact E2].
Defined.

Lemma client_packet_exact_witness :
  exists r' pkt', dhcp_relay_process_client_packet demo_name (fun _ => 0) demo_relay client_packet 548 2 = Ok (0, r', pkt') /\
    rl_sent r' = [mkRelayed pkt' 548 0x0900A8C0 67 0] /\ hops pkt' = 1 /\ giaddr pkt' = 0x0100000A /\
    holds pkt' (client_items ++ [relay_item eth0 [2; 1; 2; 3; 4; 5]]) /\ requests_forwarded (rl_stats r') = 1.
Proof.
  pose proof (client_packet_exact demo_name (fun _ => 0) demo_name_bytes demo_relay client_packet client_items 548 2 demo_relay_ok client_holds) as H.
  destruct (admit_client demo_relay client_packet 2) as [r'|[k f]] eqn:Ea; [vm_compute in Ea; discriminate Ea|].
  assert (if_giaddr f = 0x0100000A) as Ef by (vm_compute in Ea; injection Ea as _ <-; reflexivity).
  destruct H as (pkt' & F & Hh & E). replace (relayed_options demo_name demo_relay 2 client_items) with (true, client_items ++ [relay_item eth0 [2; 1; 2; 3; 4; 5]]) in * by (vm_compute; reflexivity).
  cbn [fst snd] in *. replace (servers_of demo_relay) with [0x0900A8C0] in E by (vm_compute; reflexivity). replace (rl_send_fn demo_relay) with true in E by (vm_compute; reflexivity).
  do 2 eexists. split; [exact E|]. split; [cbn; reflexivity|]. rewrite F at 1 2. rewrite Ef. split; [reflexivity|]. split; [reflexivity|]. split; [exact Hh|vm_compute; reflexivity].
Defined.

(** The packets are of full length, 548 bytes. *)
Lemma relay_there_and_back_witness :
  exists r1 pkt1 info r2 reply2,
    dhcp_relay_process_client_packet demo_name (fun _ => 0) demo_relay client_packet 548 2 = Ok (0, r1, pkt1) /\
    dhcp_option_parse_relay_info (arrived 548 (zeros 308) pkt1) = Ok (0, info) /\ relay_info_is info eth0 [2; 1; 2; 3; 4; 5] [] /\
    dhcp_relay_process_server_packet (fun _ => 0) r1 reply_packet 548 = Ok (0, r2, reply2) /\ holds (arrived 548 (zeros 308) reply2) reply_items.
Proof.
  destruct (admit_client demo_relay client_packet 2) as [r'|[k f]] eqn:Ea; [vm_compute in Ea; discriminate Ea|].
  assert (if_giaddr f = 0x0100000A /\ k = 0%nat) as [Ef Ek] by (vm_compute in Ea; injection Ea as <- <-; split; reflexivity).
  assert (buffer_ok (zeros 308)) as Hbuf by (split; [reflexivity|]; by apply Forall_replicate).
  destruct (relay_there_and_back demo_name (fun _ => 0) demo_name_bytes demo_relay client_packet client_items 548 2 k f eth0 [2; 1; 2; 3; 4; 5] demo_relay_ok client_holds) as (r1 & pkt1 & E1 & _ & G1 & E2 & Hback).
  - apply (bool_decide_unpack (Forall not_relay client_items)). vm_compute. exact I.
  - exact Ea.
  - reflexivity.
  - rewrite Ef. discriminate.
  - rewrite Ef, Ek. vm_compute. reflexivity.
  - vm_compute. reflexivity.
  - vm_compute. reflexivity.
  - discriminate.
  - discriminate.
  - vm_compute. discriminate.
  - vm_compute. discriminate.
  - vm_compute. reflexivity.
  - reflexivity.
  - vm_compute. discriminate.
  - destruct (E2 (zeros 308) Hbuf) as (info & E3 & E4). destruct (Hback reply_packet reply_items 548 reply_holds) as (r2 & reply2 & E5 & _ & H5 & _).
    + apply (bool_decide_unpack (Forall not_relay reply_items)). vm_compute. exact I.
    + rewrite G1, Ef. reflexivity.
    + exists r1, pkt1, info, r2, reply2. split; [exact E1|]. split; [exact E3|]. split; [exact E4|]. split; [exact E5|]. apply H5; [exact Hbuf|]. vm_compute. discriminate.
Defined.

(** The packet goes out with the length it came in with: of a packet that ends with its END
    option, the option that the relay inserted and the END behind it are cut off. *)
Lemma inserted_option_cut :
  let n := Z.of_nat (length (wire client_items)) + 1 in
  exists r' pkt', dhcp_relay_process_client_packet demo_name (fun _ => 0) demo_relay client_packet (240 + n) 2 = Ok (0, r', pkt') /\
    rp_len <$> rl_sent r' = [240 + n] /\ length (wire (items_of (options pkt'))) = 24%nat /\ (Z.to_nat n < 24)%nat /\ ~ DHCP_OPT_END ∈ take (Z.to_nat n) (options pkt').
Proof. do 2 eexists. split; [vm_compute; reflexivity|]. split; [reflexivity|]. split; [reflexivity|]. split; [vm_compute; lia|]. apply (bool_decide_unpack (~ DHCP_OPT_END ∈ _)). vm_compute. exact I. Qed.

(** When the option of another relay is to be replaced and the interface has no name, the
    packet goes out with neither. *)
Lemma replaced_option_lost :
  exists r' pkt', dhcp_relay_process_client_packet (fun _ => None) (fun _ => 0) (dhcp_relay_set_option82 demo_relay true true) demo_request 548 2 = Ok (0, r', pkt') /\
    dhcp_has_option82 demo_request = Ok true /\ dhcp_has_option82 pkt' = Ok false.
Proof. do 2 eexists. split; [vm_compute; reflexivity|]. split; vm_compute; reflexivity. Qed.

(** An empty option 82 counts as none, and the packet gets a second one. *)
Lemma second_option :
  exists r' pkt', let pkt := demo_packet (wire [Opt 82 []] ++ DHCP_OPT_END :: zeros 305) in
    dhcp_relay_process_client_packet demo_name (fun _ => 0) demo_relay pkt 548 2 = Ok (0, r', pkt') /\
    items_of (options pkt') = [Opt 82 []; relay_item eth0 [2; 1; 2; 3; 4; 5]].
Proof. do 2 eexists. cbv zeta. split; [vm_compute; reflexivity|]. vm_compute. reflexivity. Qed.

(** The slot of a removed interface keeps its counters for the next one. *)
Lemma counters_inherited :
  exists r1 pkt' xs r2, dhcp_relay_process_client_packet demo_name (fun _ => 0) demo_relay client_packet 548 2 = Ok (0, r1, pkt') /\
    run_ops demo_index demo_name (fun _ => 0) [RemoveInterface eth0; AddInterface [98; 114; 48] 7] r1 = Ok (xs, r2) /\
    tx_packets <$> iface_list r2 = [1].
Proof. do 4 eexists. split; [vm_compute; reflexivity|]. split; [vm_compute; reflexivity|]. reflexivity. Qed.

(** Options that end with a code and without END: the scan for END reads the length byte
    past the array. *)
Lemma end_scan_overread : insert_relay_info (zeros 307 ++ [12]) eth0 [1] = Undef.
Proof. vm_compute. reflexivity. Qed.
